(* ===== verification/_CoqProject ===== *)
-Q . S2P
Prelude.v
StateRes.v
RustString.v
Escape.v
Ast.v
AstUtil.v
Semantics.v
ExprFacts.v
StmtFacts.v
BlockToAssert.v
BlockToAssertCorrect.v
IndexMap.v
Visitor.v
VarToConst.v
Ssa.v
SsaEquiv.v
VersionSim.v
VersionSound.v
VarToConstCorrect.v
Lowering.v
Focus.v
ScopeMap.v
Typecheck.v
TypecheckFacts.v
CheckedQuery.v
Node.v
Messages.v
Printer.v
Parser.v
Roundtrip.v
PrintParse.v
Scc.v
SccFacts.v
SccGraph.v
SccReach.v
SccCorrect.v
ClosureTerm.v
Closure.v
ClosureFacts.v
ClosureChecked.v
Emitter.v
AirContext.v
CheckClosures.v
ClosureCorrect.v
SmtQuery.v
SmtFacts.v
SmtProcess.v
SmtSound.v
SmtErrors.v
VirMessages.v
VirAst.v
VirAstUtil.v
Sst.v
SstSemantics.v
SstUtil.v
TriggersAuto.v
TriggersSearch.v
TriggersGather.v
Triggers.v
TriggersCorrect.v
InterpSynt.v
InterpState.v
InterpEval.v
InterpTerm.v
InterpSem.v
InterpSynFacts.v
InterpInv.v
InterpOps.v
InterpBinary.v
InterpCalls.v
InterpFuns.v
InvMasks.v
SstExample.v
InterpCorrect.v
SubstSound.v
InvMasksCorrect.v
RecursiveTypes.v
RecursiveGraph.v
RecursiveSound.v
RecursiveCorrect.v
