(* ===== verification/Prelude.v ===== *)
(** * Verus: the AIR language and its passes, and checks of VIR

    Verus checks Rust programs by translating them to VIR and then to AIR, an
    assertion language ([source/air]), which it hands to an SMT solver.  This
    development models AIR: what a query is, how it is type checked, how closures
    and then assignments and control flow are eliminated from it, how it is put to
    the solver and what the answers mean, and how AIR is printed and parsed.  Of VIR
    ([source/vir/src]) it models the syntax of types, datatypes and SST expressions,
    the visitors and the substitution on these, the choice of triggers for quantifiers,
    the interpreter behind [assert(e) by (compute)], the graph algorithms, the masks of
    invariants and the check of recursive types.
    Paths of the parts of AIR below are relative to [source/air/src], those of VIR
    to [source/vir/src].

    ** Parts

    - [Prelude] (this file): results of fallible functions, shared list lemmas.
      [StateRes]: computations on a mutable state that may panic, with triples
      for total ([wpm]) and partial ([returns]) correctness, and those that drop
      the state with an error.
      [RustString] and [Escape]: the string, character and numeral functions of
      the Rust standard library that the sources call; [Escape] also has
      [escape] and [unescape] of printer.rs.
    - [Ast] is ast.rs and the data of messages.rs, [AstUtil] is ast_util.rs and
      def.rs.  [Messages] is the trait [MessageInterface] of messages.rs as a
      class, with its laws and AIR's own instance.
    - [Semantics] says what AIR means: [Interp] interprets what belongs to the
      solver, [eval] the expressions, [exec] the outcomes a statement can have
      (fall through, stop, break, fail at an assertion), and [query_safe] that no
      assertion of a query can fail.  [ExprFacts] and [StmtFacts] are its lemmas;
      the simplifying constructors of [AstUtil] keep the meaning.
    - [ScopeMap] is scope_map.rs; [Typecheck] is typecheck.rs without the calls
      into closure.rs, [TypecheckFacts] and [CheckedQuery] its theorems.
    - [ClosureTerm] and [Closure] are closure.rs.  [ClosureFacts] shows that the
      rewriting ends and removes every closure, [ClosureChecked] that it does
      nothing to a checked expression without closures.  [CheckClosures] is the
      checker with the rewriting ([check_decl] and [check_query] of typecheck.rs
      as they are called), with [ClosureCorrect] for its theorems.
    - [IndexMap] (an interface, see below), [Visitor] (visitor.rs) and [VarToConst] (var_to_const.rs) are
      the first pass: assignments become versioned constants.  [Ssa] defines a
      one-pass reference for it, [SsaEquiv] shows that the code computes it although
      it patches breaks in a second traversal, and [VersionSim], [VersionSound]
      relate its executions to those of the query; [VarToConstCorrect] has the
      theorems.
    - [BlockToAssert] (block_to_assert.rs) is the second pass: the statement
      becomes one expression by weakest preconditions with labels for
      [Breakable] and [Switch]; [BlockToAssertCorrect] has its theorem.
    - [Lowering] is the part of [Context::check_valid] (context.rs) that runs the
      two passes in sequence.
    - [Emitter] (emitter.rs) has the commands written to the solver and what they
      put in force, and reads the solver's lines; [AirContext] is the
      [Context] of context.rs with model.rs and the result types; [SmtQuery] is
      smt_verify.rs, the operations of [Context] that run queries,
      and the loop of main.rs that asks for further errors.  [SmtFacts]
      and [SmtSound] show that [Valid] can be believed;
      [SmtErrors] is about further errors.  [SmtProcess] has the threads and pipes
      of smt_process.rs as functions that step or block, and shows that
      however they interleave [send_commands] is the function that [SmtQuery]
      takes it for.
    - [Focus] is focus.rs and remove_asserts.rs.
    - [Node], [Printer] (printer.rs) and [Parser] (parser.rs) are the concrete
      syntax; [Roundtrip] says which AIR is printed unambiguously and what is
      read back, [PrintParse] proves it.
    - [Scc] is scc.rs of VIR: strongly connected components by Tarjan's algorithm,
      their topological order, reachability and shortest cycles.  [SccFacts],
      [SccGraph], [SccReach] and [SccCorrect] prove it correct.
    - [VirMessages] (messages.rs), [VirAst] (ast.rs), [VirAstUtil] (ast_util.rs,
      def.rs, unicode.rs) and [Sst] (sst.rs) are the data of VIR that the modelled
      parts use, and their helpers.  [SstSemantics] says what SST expressions mean: the class
      [SstModel] has what belongs to the program and the solver, [den] the rest.
      [SstExample] is a concrete [SstModel].
    - [SstUtil] is the visitor of expressions (sst_visitor.rs, visitor.rs) and free
      variables and capture-avoiding substitution (sst_util.rs), [SubstSound] shows what
      a substitution means.
    - [TriggersAuto] is triggers_auto.rs, which chooses triggers for a quantifier, and
      [Triggers] is triggers.rs, which collects annotated ones or calls the former.
      [TriggersSearch] shows what the search for covers finds, [TriggersGather] what the
      candidates are, [TriggersCorrect] has the theorems.
    - interpreter.rs is [InterpSynt] (the interpreter's own expressions: restoring,
      comparing and hashing them), [InterpState] (the state, the call cache, truncation
      of integers) and [InterpEval] (evaluation and its entry point [eval_expr]).
      [InterpTerm] shows that it ends.  [InterpSem] has the laws of the meaning of
      programs that it relies on ([InterpLaws]) and the truncations, [InterpSynFacts]
      is about comparing, [InterpInv] about restoring, with the
      invariant of the state; [InterpOps], [InterpBinary], [InterpCalls] and
      [InterpFuns] show that each case of the evaluation keeps it if the recursive
      calls do, and [InterpCorrect] puts them together by induction on the fuel.
    - [InvMasks] is inv_masks.rs, [InvMasksCorrect] its theorems.
    - [RecursiveTypes] is recursive_types.rs for types, over the graph of [Scc].
      [RecursiveGraph] says which datatypes have values and what the graph has,
      [RecursiveSound] follows the check through the components and is about positive
      positions, [RecursiveCorrect] has the theorems.

    The components interact as in the code: the type checker keeps its names in
    a [ScopeMap]; an accepted query satisfies the label and assignment
    conditions ([CheckedQuery.checked_query]) of the first pass; the output of
    the first pass satisfies those of the second ([Lowering.lowered_lowerable]);
    its output is what labelling expects ([SmtSound.lowered_plain]).  All share
    the [Context]; the closure pass and the checker work on parts of it.

    ** What the theorems show

    - End to end: [SmtSound.valid_query_safe].  When [check_valid] answers [Valid]
      and the solver only answers [unsat] for unsatisfiable assertions, no
      assertion of the query can fail, in any execution from values that satisfy
      the declarations in force.
      [SmtErrors.further_errors_distinct] is about the errors reported otherwise.
      [SmtProcess.answers_in_order] and [wait_returns]: each batch gets its own
      answer, and the caller cannot wait for ever.
    - Closures: [ClosureCorrect.closures_eliminated] and [plain_query_unchanged].
    - The passes: [CheckedQuery.checked_lowering] and
      [Lowering.lower_passes_equisafe] for the pipeline,
      [BlockToAssertCorrect.lower_query_equisafe],
      [VarToConstCorrect.versions_equisafe] and [versions_sound] for each pass:
      the lowered query can fail exactly when the query can, for every
      interpretation of the solver's symbols; the passes do not panic.
      [version_events_declared] and [local_vars_own] (lemmas) are what the observer
      sees.
    - The checker: [CheckedQuery.check_query_sound] and [check_expr_restores];
      [ScopeMap.scope_map_refines] and [scope_restored] for its scopes.
    - Focusing: [Focus.focus_exact] for an id that occurs once, [remove_asserts_spec],
      [focus_commands_spec].
    - Concrete syntax: the round trips of [PrintParse], for the names and literals that
      the syntax reads in one way only and the output for Z3, and [Escape.escape_roundtrip]; [Node.write_node_readable] and
      [node_to_string_ink] for the layout; [hyphen_name_lost],
      [cvc5_qid_rejected] and [parser_panics] are the defects found.
    - Graphs: the theorems of [SccCorrect] characterise each query of a graph.
    - Triggers: [TriggersCorrect.all_triggers_exact] and [best_triggers_exact], what is
      chosen automatically is exactly the minimal or the best covers of the variables;
      [trigger_choice_stable], whatever the order of hash maps, for the searches that do not
      give up; [auto_triggers_return], the search ends; [triggers_cover], a trigger is taken
      from the body and in every trigger every variable of the quantifier occurs, in an
      annotated one at least in what was annotated.  [duplicate_triggers] and
      [height_trigger_uncovered] are the defects found.
    - The interpreter: [InterpCorrect.compute_sound], what an assertion by(compute)
      is evaluated to has its value; [syntactic_eq_sound], what is found equal is and
      what is found different is not; both for expressions without quantifiers, [choose]
      and a few other forms ([InterpSem.plain]); [InterpTerm.eval_expr_terminates];
      [InterpSem.truncation_exact], the low bits are those of the mathematical result
      for every word size.  [capture_wrong] and [shift_wrong] are inputs outside the
      conditions of [compute_sound] on which the result is wrong.
    - Substitution: [SubstSound.subst_exp_sound], the value is the one that the expression
      has when the variables have the values of their replacements, however binders are
      renamed, if none shadows a substituted variable; [subst_shadow_wrong] is the defect of
      those that do.
    - Masks: [InvMasksCorrect.contains_exact] and [subset_of_exact]: the assertions
      generated hold together exactly when the invariant is in the mask, or the mask
      in the other; [mask_queries_return] says which queries cannot panic.
    - Recursive types: [RecursiveCorrect.accepted_types_have_values], every datatype
      that the check accepts has a value; [rejected_type_has_no_base_case], one that it
      rejects has none without recursion; [accepted_fields_monotone], the equation that
      a recursive datatype solves is monotone.

    ** Conventions

    Rust's [Arc] is erased; [Vec] is [list]; [u32] and [u64] are [N] with the
    bound written where it matters, and a flag [oc] says whether the build checks
    overflow.  [HashMap] and [HashSet] are [gmap] and [gset]; in [TriggersAuto], where the order
    of an iteration over one can matter, it is a list of entries and a parameter
    [hash_order] permutes it, each time anew.  A mutable state is
    passed explicitly and is kept when an error is returned.  [Panic] is a
    failed index, [assert!], [expect] or [unreachable!].

    Recursion is structural except in a few places, which take fuel and return
    [OutOfFuel] when it runs out.  The loops of [Scc] take the number of nodes or
    one more than that of the edges, which [SccCorrect] proves enough.
    [Closure.simplify_expr] simplifies a nested closure a second time; the
    [ClosureFacts.weight] of an expression is enough, and its [depth] when it has
    no closures.  [SmtQuery.check_errors] takes the number of errors asked for.
    The search for triggers takes one more than the number of variables
    ([TriggersCorrect.auto_triggers_return]).  The interpreter's evaluation takes two more than the maximal depth, restoring and
    comparing expressions take [InterpSynt.clean_depth], the search for a fresh name
    one more than the number of names in use; [InterpTerm] proves these enough.
    The fixed point of [RecursiveTypes] takes two more than the number of
    datatypes, and its graph what [Scc] asks for ([RecursiveCorrect.fits]).

    Parameters stand for code outside the repository: the theories of the solver
    ([Interp]); the [IndexMap] of the [indexmap] crate, as the class
    [IndexMap.IndexMapOps] with its documented laws [IndexMapLaws], which the
    first pass and every theorem about it take as arguments and which
    [IndexMap.entry_list] satisfies; the solver process, the S-expression reader
    and a registered query observer ([SmtQuery.SmtEnv]: the answer to a batch of
    commands is any function of all batches so far), the solver assumed sound only in
    [valid_query_safe]; the text of a floating-point option; and the text the [sise] crate gives a tree in
    error messages; the meaning of functions and of the solver's operations
    ([SstModel], with [ISetLaws] for the sets of vstd and [TypSem] for the types that
    are not datatypes, and [InterpLaws] for what the interpreter relies on); which equal
    expressions are the same object ([ptr_eq]), which keys a lookup in a hash map
    reaches ([probe]), the text of an expression in a message ([user_string]) and the
    interpreter's limits, which the code computes in floating point; the process-wide map of Rust names for paths; and the types
    in the body of a function ([fun_typs]).  A tree of [sise] is an atom or a list ([Node.Node]), the two
    cases the sources match on and build.

    ** What is not modelled

    Of AIR: launching the solver and its transcript (smt_process.rs),
    singular_manager.rs, the profiler, log files, clocks, the debug flag, the command line and the printing
    of reports.  [valid_query_safe] is for queries without closures; that the functions
    generated for closures mean the same needs a semantics of function values.
    Of the interpreter: its log, clocks and printed statistics.  [compute_sound] is for
    plain expressions ([InterpSem.plain]): without quantifiers, [choose] and shifts by
    an unknown word size, and with variables in scope that the program does not bind.
    Of the triggers: the text of the terms in the report on those chosen.
    Of VIR, what is not listed above: the translations from Rust and to AIR, modes,
    the check of traits, recursion of functions, and SST statements.
    rust_verify, the macros, vstd and the rest of the repository. *)

From Corelib Require Export ssreflect.
From stdpp Require Export base gmap sets list strings.
From Stdlib Require Export NArith Lia.

Global Open Scope general_if_scope.
Set Default Goal Selector "!".
Set Warnings "-rewrite-rw,-register-all,-clear-no-such-hyp".

(** ** Results of fallible Rust functions

    A Rust function of type [Result<A, E>] either returns [Ok], returns [Err],
    or does not return because it panics (an out-of-range index, a failed
    [assert!], [expect], [unreachable!], ...). *)

Inductive res (E A : Type) :=
| Ok (a : A)
| Err (e : E)
| Panic.
Arguments Ok {E A} a.
Arguments Err {E A} e.
Arguments Panic {E A}.

(** The error of a recursion on fuel that runs out; not a result of the code. *)
Inductive fuel_error := OutOfFuel.

Definition rbind {E A B} (r : res E A) (k : A → res E B) : res E B :=
  match r with Ok a => k a | Err e => Err e | Panic => Panic end.

Declare Scope res_scope.
Delimit Scope res_scope with res.
Notation "'let?' p ':=' c 'in' k" := (rbind c (λ p, k))
  (at level 10, p pattern, c at level 100, k at level 200,
   format "'[v' 'let?'  p  ':='  c  'in' '/' k ']'") : res_scope.

(** [Option::expect], [unwrap], and indexing. *)
Definition expect {E A} (o : option A) : res E A :=
  match o with Some a => Ok a | None => Panic end.

Definition is_ok {E A} (r : res E A) : bool :=
  match r with Ok _ => true | _ => false end.

Lemma rbind_ok_inv {E A B} (r : res E A) (k : A → res E B) b :
  rbind r k = Ok b → ∃ a, r = Ok a ∧ k a = Ok b.
Proof. destruct r; simpl; intros H; try discriminate. eauto. Qed.

Lemma rbind_assoc {E A B C} (r : res E A) (k : A → res E B) (h : B → res E C) :
  rbind (rbind r k) h = rbind r (λ a, rbind (k a) h).
Proof. by destruct r. Qed.

(** [rmap f l] runs [f] on the elements of [l] from left to right and stops at
    the first one that does not return [Ok], as [.map(f).collect::<Result<..>>()]
    and the loops [for x in l { v.push(f(x)?) }] do. *)
Section rmap.
Context {E A B : Type} (f : A → res E B).
Fixpoint rmap (l : list A) : res E (list B) :=
  match l with
  | [] => Ok []
  | x :: l' => rbind (f x) (λ y, rbind (rmap l') (λ ys, Ok (y :: ys)))
  end.
End rmap.

Lemma rmap_Forall2 {E A B} (f : A → res E B) l ys :
  rmap f l = Ok ys ↔ Forall2 (λ x y, f x = Ok y) l ys.
Proof.
  revert ys. induction l as [|x l IH]; intros ys; simpl.
  - split; [intros [= <-]; constructor | by inversion 1].
  - split.
    + intros (y & Hy & (ys' & Hys & [= <-])%rbind_ok_inv)%rbind_ok_inv.
      constructor; [done | by apply IH].
    + inversion 1 as [|? y ? ys' Hy Hys]; subst. rewrite Hy. simpl.
      apply IH in Hys. by rewrite Hys.
Qed.

(** ** Tactics *)

(** Take apart a computation that is known to have returned [Ok]. *)
Ltac inv_ok :=
  repeat match goal with
  | H : rbind _ _ = Ok _ |- _ => apply rbind_ok_inv in H as (? & ? & H)
  | H : Ok _ = Ok _ |- _ => injection H as H; try subst
  | H : Err _ = Ok _ |- _ => discriminate H
  | H : Panic = Ok _ |- _ => discriminate H
  | H : (_, _) = (_, _) |- _ => injection H as H; try subst
  end.

(** Case analysis on the scrutinee of a [match] in a hypothesis. *)
Ltac case_in H :=
  match type of H with
  | context [match ?x with _ => _ end] => destruct x eqn:?
  end.

(** ** Lists *)

Lemma Forall_concat_map {A B} (P : B → Prop) (f : A → list B) (l : list A) :
  Forall P (concat (map f l)) ↔ Forall (λ x, Forall P (f x)) l.
Proof.
  induction l as [|x l IH]; simpl; [by split|].
  by rewrite Forall_app Forall_cons IH.
Qed.

Lemma map_ext_Forall {A B} (f g : A → B) (l : list A) :
  Forall (λ x, f x = g x) l → map f l = map g l.
Proof. induction 1 as [|x l Hx _ IH]; simpl; [done|]. by rewrite Hx IH. Qed.

Lemma Forall_impl2 {A} (P Q R : A → Prop) (l : list A) :
  Forall P l → Forall Q l → (∀ x, P x → Q x → R x) → Forall R l.
Proof. induction 1; inversion 1; subst; constructor; auto. Qed.

Lemma forallb_true_iff {A} (p : A → bool) (l : list A) :
  forallb p l = true ↔ Forall (λ x, p x = true) l.
Proof. rewrite forallb_forall Forall_forall. by setoid_rewrite list_elem_of_In. Qed.

(** [Forall], for definitions by recursion on expressions. *)
Section allP.
Context {A : Type} (P : A → Prop).
Fixpoint allP (l : list A) : Prop := match l with [] => True | x :: l => P x ∧ allP l end.
End allP.
Lemma allP_Forall {A} (P : A → Prop) l : allP P l ↔ Forall P l.
Proof. induction l as [|x l IH]; cbn; [by rewrite Forall_nil|]. by rewrite IH Forall_cons. Qed.
