(* ===== verification/StateRes.v ===== *)
(** * Computations on a mutable state

    A function of the code that takes [&mut self] and may panic is a function
    from the state to a result with the new state.  [OutOfFuel] is the error of a
    recursion whose fuel runs out.  [wpm] is the weakest precondition of such a
    computation: it rules [OutOfFuel] out and allows a panic.  The second half has the
    functions that also fail, [st], with what they satisfy when they return ([yields])
    and that they do not end with a given error ([avoids], [keeps]). *)

From S2P Require Import Prelude.
Set Warnings "-rewrite-rw,-register-all,-clear-no-such-hyp".

Definition sm (S A : Type) := S → res fuel_error (A * S).
Definition cret {S A} (x : A) : sm S A := λ s, Ok (x, s).
Definition cbind {S A B} (m : sm S A) (k : A → sm S B) : sm S B :=
  λ s, rbind (m s) (λ '(x, s'), k x s').
Definition cpanic {S A} : sm S A := λ _, Panic.
(** A panic of another component. *)
Definition lift_res {E A} (r : res E A) : res fuel_error A :=
  match r with Ok x => Ok x | _ => Panic end.
Lemma lift_res_ok {E A} (r : res E A) x : lift_res r = Ok x → r = Ok x.
Proof. by destruct r; intros [= ->]. Qed.
Definition clift {S A} (r : res fuel_error A) : sm S A := λ s, rbind r (λ x, Ok (x, s)).

Declare Scope cm_scope.
Delimit Scope cm_scope with cm.
Notation "'let*' p ':=' m 'in' k" := (cbind m (λ p, k))
  (at level 10, p pattern, m at level 100, k at level 200) : cm_scope.
Notation "m ';*' k" := (cbind m (λ _, k)) (at level 100, right associativity) : cm_scope.
Local Open Scope cm_scope.

(** [for x in l { v.push(f(x)) }] *)
Fixpoint cmap {S A B} (f : A → sm S B) (l : list A) : sm S (list B) :=
  match l with
  | [] => cret []
  | x :: l' => let* y := f x in let* ys := cmap f l' in cret (y :: ys)
  end.

(** ** Triples *)

Section triples.
Context {S : Type}.
Implicit Types s : S.

(** [m] does not run out of fuel; if it returns, it satisfies [Q]. *)
Definition wpm {A} (m : sm S A) s (Q : A → S → Prop) : Prop :=
  match m s with Ok (a, s') => Q a s' | Err _ => False | Panic => True end.

Lemma wpm_ret {A} (x : A) s (Q : A → S → Prop) : Q x s → wpm (cret x) s Q.
Proof. done. Qed.
Lemma wpm_bind {A B} (m : sm S A) (k : A → sm S B) s Q :
  wpm m s (λ a s', wpm (k a) s' Q) → wpm (cbind m k) s Q.
Proof. unfold wpm, cbind. by destruct (m s) as [[a s']| |]. Qed.
Lemma wpm_mono {A} (m : sm S A) s (P Q : A → S → Prop) :
  wpm m s P → (∀ a s', P a s' → Q a s') → wpm m s Q.
Proof. unfold wpm. destruct (m s) as [[a s']| |]; auto. Qed.
Lemma wpm_panic {A} s Q : wpm (cpanic (A := A)) s Q.
Proof. done. Qed.
Lemma wpm_lift {A} (r : res fuel_error A) s Q :
  (∀ e, r ≠ Err e) → (∀ x, r = Ok x → Q x s) → wpm (clift r) s Q.
Proof. intros He HQ. unfold wpm, clift. destruct r as [x|e|]; simpl; [by apply HQ|by destruct (He e)|done]. Qed.
Lemma wpm_ok {A} (m : sm S A) s Q x s' : wpm m s Q → m s = Ok (x, s') → Q x s'.
Proof. unfold wpm. intros H He. by rewrite He in H. Qed.
End triples.

(** [m] need not return; if it does, it satisfies [Q]. *)
Section partial.
Context {S : Type}.
Implicit Types s : S.

Definition returns {A} (m : sm S A) s (Q : A → S → Prop) : Prop := ∀ x s', m s = Ok (x, s') → Q x s'.

Lemma returns_ret {A} (x : A) s (Q : A → S → Prop) : Q x s → returns (cret x) s Q.
Proof. by intros HQ y s' [= -> ->]. Qed.
Lemma returns_bind {A B} (m : sm S A) (k : A → sm S B) s Q :
  returns m s (λ a s', returns (k a) s' Q) → returns (cbind m k) s Q.
Proof.
  intros Hm y s2. unfold cbind. destruct (m s) as [[x s1]| |] eqn:E; [|done..]. by apply Hm.
Qed.
Lemma returns_mono {A} (m : sm S A) s (P Q : A → S → Prop) :
  returns m s P → (∀ a s', P a s' → Q a s') → returns m s Q.
Proof. intros Hm HQ x s' E. by apply HQ, Hm. Qed.
Lemma returns_panic {A} s Q : returns (cpanic (A := A)) s Q.
Proof. by intros x s'. Qed.
Lemma returns_lift {A} (r : res fuel_error A) s (Q : A → S → Prop) :
  (∀ x, r = Ok x → Q x s) → returns (clift r) s Q.
Proof. intros HQ x s'. unfold clift. destruct r as [y| |]; [|done..]. intros [= <- <-]. by apply HQ. Qed.
Lemma returns_true {A} (m : sm S A) s : returns m s (λ _ _, True).
Proof. by intros x s'. Qed.
End partial.

(** ** Computations on a mutable state that may fail

    A function of the code that takes [&mut] data and returns a [Result] is a function
    from the state to a result with the new state.  The state is dropped with an error:
    every caller of such a function here passes the error on.  [lifts] runs a computation
    that does not use the state. *)

Definition st (S E A : Type) : Type := S → res E (A * S).
Definition sret {S E A} (x : A) : st S E A := λ s, Ok (x, s).
Definition sbind {S E A B} (m : st S E A) (k : A → st S E B) : st S E B :=
  λ s, rbind (m s) (λ '(x, s'), k x s').
Definition serr {S E A} (e : E) : st S E A := λ _, Err e.
Definition spanic {S E A} : st S E A := λ _, Panic.
Definition lifts {S E A} (r : res E A) : st S E A := λ s, rbind r (λ x, Ok (x, s)).
Definition sget {S E} : st S E S := λ s, Ok (s, s).
Definition sput {S E} (s : S) : st S E unit := λ _, Ok (tt, s).
Definition smodify {S E} (f : S → S) : st S E unit := λ s, Ok (tt, f s).
Definition sread {S E A} (f : S → A) : st S E A := λ s, Ok (f s, s).

Declare Scope st_scope.
Delimit Scope st_scope with st.
Notation "'let!' p ':=' m 'in' k" := (sbind m (λ p, k))
  (at level 10, p pattern, m at level 100, k at level 200) : st_scope.
Notation "m ';!' k" := (sbind m (λ _, k)) (at level 100, right associativity) : st_scope.
Local Open Scope st_scope.

(** [for x in l { v.push(f(x)?) }] *)
Section smap.
Context {S E A B : Type} (f : A → st S E B).
Fixpoint smap (l : list A) : st S E (list B) :=
  match l with
  | [] => sret []
  | x :: l' => let! y := f x in let! ys := smap l' in sret (y :: ys)
  end.
End smap.

(** [for x in l { f(x) }] *)
Section siter.
Context {S E A : Type} (f : A → st S E unit).
Fixpoint siter (l : list A) : st S E unit :=
  match l with [] => sret tt | x :: l' => f x;! siter l' end.
End siter.

Definition smap_opt {S E A B} (f : A → st S E B) (o : option A) : st S E (option B) :=
  match o with Some x => let! y := f x in sret (Some y) | None => sret None end.

(** A computation on a part of the state. *)
Definition on_part {S T E A} (get_part : S → T) (set_part : T → S → S) (m : st T E A) : st S E A :=
  λ s, rbind (m (get_part s)) (λ '(x, t), Ok (x, set_part t s)).

(** ** What a computation that returns satisfies *)

Section yields.
Context {S E : Type}.
Implicit Types s : S.

Definition yields {A} (m : st S E A) s (Q : A → S → Prop) : Prop := ∀ x s', m s = Ok (x, s') → Q x s'.

Lemma yields_ret {A} (x : A) s (Q : A → S → Prop) : Q x s → yields (sret x) s Q.
Proof. by intros HQ y s' [= -> ->]. Qed.
Lemma yields_bind {A B} (m : st S E A) (k : A → st S E B) s Q :
  yields m s (λ a s', yields (k a) s' Q) → yields (sbind m k) s Q.
Proof.
  intros Hm y s2. unfold sbind. destruct (m s) as [[x s1]| |] eqn:E1; [|done..]. by apply Hm.
Qed.
Lemma yields_mono {A} (m : st S E A) s (P Q : A → S → Prop) :
  yields m s P → (∀ a s', P a s' → Q a s') → yields m s Q.
Proof. intros Hm HQ x s' E1. by apply HQ, Hm. Qed.
Lemma yields_err {A} e s Q : yields (serr (A := A) e) s Q.
Proof. by intros x s'. Qed.
Lemma yields_panic {A} s Q : yields (spanic (A := A)) s Q.
Proof. by intros x s'. Qed.
Lemma yields_lift {A} (r : res E A) s (Q : A → S → Prop) :
  (∀ x, r = Ok x → Q x s) → yields (lifts r) s Q.
Proof. intros HQ x s'. unfold lifts. destruct r as [y| |]; [|done..]. intros [= <- <-]. by apply HQ. Qed.
Lemma yields_get s (Q : S → S → Prop) : Q s s → yields sget s Q.
Proof. by intros HQ x s' [= <- <-]. Qed.
Lemma yields_put s t (Q : unit → S → Prop) : Q tt t → yields (sput t) s Q.
Proof. by intros HQ x s' [= <- <-]. Qed.
Lemma yields_modify f s (Q : unit → S → Prop) : Q tt (f s) → yields (smodify f) s Q.
Proof. by intros HQ x s' [= <- <-]. Qed.
Lemma yields_read {A} (f : S → A) s (Q : A → S → Prop) : Q (f s) s → yields (sread f) s Q.
Proof. by intros HQ x s' [= <- <-]. Qed.
Lemma yields_conj {A} (m : st S E A) s (P Q : A → S → Prop) :
  yields m s P → yields m s Q → yields m s (λ a s', P a s' ∧ Q a s').
Proof. intros HP HQ x s' E1. split; [by apply HP|by apply HQ]. Qed.

(** [smap] with an invariant of the state and a relation of results to arguments. *)
Lemma yields_smap {A B} (f : A → st S E B) (I : S → Prop) (R : A → B → Prop) (l : list A) s
    (Q : list B → S → Prop) :
  I s →
  (∀ x s0, x ∈ l → I s0 → yields (f x) s0 (λ y s1, R x y ∧ I s1)) →
  (∀ ys s1, Forall2 R l ys → I s1 → Q ys s1) →
  yields (smap f l) s Q.
Proof.
  intros Hs Hf HQ. enough (H : yields (smap f l) s (λ ys s1, Forall2 R l ys ∧ I s1)).
  { eapply yields_mono; [exact H|]. by intros ys s1 [H1 H2]; apply HQ. }
  clear HQ. revert s Hs. induction l as [|x l IH]; intros s Hs.
  { apply yields_ret. split; [constructor|done]. }
  cbn [smap]. apply yields_bind. eapply yields_mono; [apply Hf; [left|done]|].
  intros y s1 [Hy Hs1]. apply yields_bind. eapply yields_mono; [apply IH; [|done]|].
  { intros z s0 Hz. apply Hf. by right. }
  intros ys s2 [Hys Hs2]. apply yields_ret. split; [by constructor|done].
Qed.
End yields.

(** ** A computation that does not end with a given error *)

Section avoids.
Context {S E : Type} (e0 : E).
Implicit Types s : S.

(** [m] does not return [e0], and if it returns it satisfies [Q]. *)
Definition avoids {A} (m : st S E A) s (Q : A → S → Prop) : Prop :=
  match m s with Ok (a, s') => Q a s' | Err e => e ≠ e0 | Panic => True end.

Lemma avoids_ret {A} (x : A) s (Q : A → S → Prop) : Q x s → avoids (sret x) s Q.
Proof. done. Qed.
Lemma avoids_bind {A B} (m : st S E A) (k : A → st S E B) s Q :
  avoids m s (λ a s', avoids (k a) s' Q) → avoids (sbind m k) s Q.
Proof. unfold avoids, sbind. by destruct (m s) as [[a s']| |]. Qed.
Lemma avoids_mono {A} (m : st S E A) s (P Q : A → S → Prop) :
  avoids m s P → (∀ a s', P a s' → Q a s') → avoids m s Q.
Proof. unfold avoids. destruct (m s) as [[a s']| |]; auto. Qed.
Lemma avoids_err {A} e s Q : e ≠ e0 → avoids (serr (A := A) e) s Q.
Proof. done. Qed.
Lemma avoids_panic {A} s Q : avoids (spanic (A := A)) s Q.
Proof. done. Qed.
Lemma avoids_lift {A} (r : res E A) s (Q : A → S → Prop) :
  r ≠ Err e0 → (∀ x, r = Ok x → Q x s) → avoids (lifts r) s Q.
Proof. unfold avoids, lifts. destruct r as [x|e|]; simpl; [auto|congruence|auto]. Qed.
Lemma avoids_get s (Q : S → S → Prop) : Q s s → avoids sget s Q.
Proof. done. Qed.
Lemma avoids_put s t (Q : unit → S → Prop) : Q tt t → avoids (sput t) s Q.
Proof. done. Qed.
Lemma avoids_modify f s (Q : unit → S → Prop) : Q tt (f s) → avoids (smodify f) s Q.
Proof. done. Qed.
Lemma avoids_read {A} (f : S → A) s (Q : A → S → Prop) : Q (f s) s → avoids (sread f) s Q.
Proof. done. Qed.

(** [m] does not return [e0] and keeps the invariant [I] of the state. *)
Definition keeps (I : S → Prop) {A} (m : st S E A) : Prop := ∀ s, I s → avoids m s (λ _, I).

Section keeps.
Variable I : S → Prop.
Local Abbreviation keeps := (keeps I).

Lemma keeps_ret {A} (x : A) : keeps (sret x).
Proof. by intros s Hs. Qed.
Lemma keeps_bind {A B} (m : st S E A) (k : A → st S E B) :
  keeps m → (∀ x, keeps (k x)) → keeps (sbind m k).
Proof. intros Hm Hk s Hs. apply avoids_bind. eapply avoids_mono; [by apply Hm|]. intros x s'. apply Hk. Qed.
Lemma keeps_err {A} e : e ≠ e0 → keeps (serr (A := A) e).
Proof. by intros He s Hs. Qed.
Lemma keeps_panic {A} : keeps (spanic (A := A)).
Proof. by intros s Hs. Qed.
Lemma keeps_lift {A} (r : res E A) : r ≠ Err e0 → keeps (lifts r).
Proof. intros Hr s Hs. by apply avoids_lift. Qed.
Lemma keeps_get : keeps sget.
Proof. by intros s Hs. Qed.
Lemma keeps_read {A} (f : S → A) : keeps (sread f).
Proof. by intros s Hs. Qed.
Lemma keeps_modify f : (∀ s, I s → I (f s)) → keeps (smodify f).
Proof. intros Hf s Hs. by apply Hf. Qed.
Lemma keeps_smap {A B} (f : A → st S E B) l : (∀ x, x ∈ l → keeps (f x)) → keeps (smap f l).
Proof.
  induction l as [|x l IH]; intros Hf; cbn [smap]; [apply keeps_ret|].
  apply keeps_bind; [apply Hf; left|]. intros y. apply keeps_bind; [|intros ys; apply keeps_ret].
  apply IH. intros z Hz. apply Hf. by right.
Qed.
Lemma keeps_siter {A} (f : A → st S E unit) l : (∀ x, x ∈ l → keeps (f x)) → keeps (siter f l).
Proof.
  induction l as [|x l IH]; intros Hf; cbn [siter]; [apply keeps_ret|].
  apply keeps_bind; [apply Hf; left|]. intros []. apply IH. intros z Hz. apply Hf. by right.
Qed.
Lemma keeps_if {A} (b : bool) (m1 m2 : st S E A) : keeps m1 → keeps m2 → keeps (if b then m1 else m2).
Proof. by destruct b. Qed.
End keeps.

(** [m] does not return [e0], and what it returns satisfies [P], in every state. *)
Definition gives {A} (P : A → Prop) (m : st S E A) : Prop := ∀ s, avoids m s (λ x _, P x).

Lemma gives_ret {A} (P : A → Prop) x : P x → gives P (sret x).
Proof. by intros H s. Qed.
Lemma gives_bind {A B} (P : A → Prop) (Q : B → Prop) (m : st S E A) (k : A → st S E B) :
  gives P m → (∀ x, P x → gives Q (k x)) → gives Q (sbind m k).
Proof. intros Hm Hk s. apply avoids_bind. eapply avoids_mono; [apply Hm|]. intros x s' Hx. by apply Hk. Qed.
Lemma gives_lift {A} (P : A → Prop) (r : res E A) :
  r ≠ Err e0 → (∀ x, r = Ok x → P x) → gives P (lifts r).
Proof. intros Hr HP s. apply avoids_lift; auto. Qed.
Lemma gives_smap {A B} (R : A → B → Prop) (f : A → st S E B) l :
  (∀ x, x ∈ l → gives (R x) (f x)) → gives (Forall2 R l) (smap f l).
Proof.
  induction l as [|x l IH]; intros Hf; cbn [smap]; [apply gives_ret; constructor|].
  eapply gives_bind; [apply Hf; left|]. intros y Hy. eapply gives_bind; [apply IH; intros z Hz; apply Hf; by right|].
  intros ys Hys. apply gives_ret. by constructor.
Qed.
Lemma gives_mono {A} (P Q : A → Prop) (m : st S E A) : gives P m → (∀ x, P x → Q x) → gives Q m.
Proof. intros Hm HPQ s. eapply avoids_mono; [apply Hm|]. intros x s0. apply HPQ. Qed.
Lemma gives_keeps {A} (P : A → Prop) (m : st S E A) : gives P m → keeps (λ _, True) m.
Proof. intros Hm s _. eapply avoids_mono; [apply Hm|]. done. Qed.
End avoids.

Create HintDb keeps.

(** Goals [keeps e0 I m]: follow [m]; what remains are the calls it makes. *)
Ltac keep_step :=
  match goal with
  | |- keeps _ _ (sret _) => apply keeps_ret
  | |- keeps _ _ (sbind _ _) => apply keeps_bind; [|intros ?]
  | |- keeps _ _ spanic => apply keeps_panic
  | |- keeps _ _ sget => apply keeps_get
  | |- keeps _ _ (sread _) => apply keeps_read
  | |- keeps _ _ (smap _ _) => apply keeps_smap; intros ? ?
  | |- keeps _ _ (siter _ _) => apply keeps_siter; intros ? ?
  | |- keeps _ _ (smodify _) => apply keeps_modify; intros ? ?
  | |- keeps _ _ (lifts _) => apply keeps_lift
  | |- keeps _ _ (match ?x with _ => _ end) => destruct x
  | |- keeps _ _ (let _ := _ in _) => cbv zeta
  end.
Ltac keep := repeat keep_step; try assumption; auto with keeps.
