(* ===== verification/RustString.v ===== *)
(** * Rust strings and decimal numerals

    A Rust [String] is the sequence of its UTF-8 bytes, a [string] here.  This
    file models the standard-library functions on strings and numerals that the
    AIR sources call, with the lemmas the components share. *)

From S2P Require Import Prelude.
From Stdlib Require Import Ascii String DecimalString DecimalN DecimalFacts.
Set Warnings "-rewrite-rw,-register-all,-clear-no-such-hyp".
Local Open Scope string_scope.

#[global] Arguments String.append : simpl nomatch.

(** [s.chars().all(p)], for a [p] that is false on non-ASCII characters. *)
Fixpoint all_chars (p : ascii → bool) (s : string) : bool :=
  match s with
  | EmptyString => true
  | String c s' => p c && all_chars p s'
  end.

(** [s.chars().filter(p).count()]. *)
Fixpoint count_chars (p : ascii → bool) (s : string) : nat :=
  match s with
  | EmptyString => 0
  | String c s' => (if p c then 1 else 0) + count_chars p s'
  end.

(** [s.starts_with(p)] and [s.ends_with(p)]. *)
Definition starts_with (p s : string) : bool := String.prefix p s.

Fixpoint ends_with (p s : string) : bool :=
  (s =? p) || match s with EmptyString => false | String _ s' => ends_with p s' end.

(** [s.strip_prefix(p)]. *)
Fixpoint strip_prefix (p s : string) : option string :=
  match p, s with
  | EmptyString, _ => Some s
  | String a p', String b s' => if Ascii.eqb a b then strip_prefix p' s' else None
  | _, EmptyString => None
  end.

Definition is_ascii_digit (c : ascii) : bool :=
  let n := N_of_ascii c in (48 <=? n)%N && (n <=? 57)%N.

Definition is_ascii_alphanumeric (c : ascii) : bool :=
  let n := N_of_ascii c in
  is_ascii_digit c || ((65 <=? n)%N && (n <=? 90)%N) || ((97 <=? n)%N && (n <=? 122)%N).

(** [n.to_string()] for an unsigned integer. *)
Definition N_to_string (n : N) : string := NilZero.string_of_uint (N.to_uint n).

(** [s.parse::<u32>()] and [s.parse::<u64>()]: one optional ['+'], then one or
    more digits, within the width. *)
Definition parse_uint (bound : N) (s : string) : option N :=
  let digits := match s with String "+" s' => s' | _ => s end in
  match NilZero.uint_of_string digits with
  | Some d => let n := N.of_uint d in if (n <? bound)%N then Some n else None
  | None => None
  end.

Definition u32_bound : N := 2 ^ 32.
Definition u64_bound : N := 2 ^ 64.
Definition parse_u32 : string → option N := parse_uint u32_bound.
Definition parse_u64 : string → option N := parse_uint u64_bound.

(** Addition and subtraction of [u32] ([b = u32_bound]) and [u64] values.
    Outside the range the code panics when it is built with overflow checks
    (debug builds) and wraps otherwise (release builds): [oc] says which. *)
Definition uint_add {E} (b : N) (oc : bool) (m n : N) : res E N :=
  if (m + n <? b)%N then Ok (m + n)%N
  else if oc then Panic else Ok ((m + n) mod b)%N.

Definition uint_sub {E} (b : N) (oc : bool) (m n : N) : res E N :=
  if (n <=? m)%N then Ok (m - n)%N
  else if oc then Panic else Ok ((m + b - n) mod b)%N.

Definition u32_add {E} : bool → N → N → res E N := uint_add u32_bound.
Definition u32_sub {E} : bool → N → N → res E N := uint_sub u32_bound.
Definition u64_add {E} : bool → N → N → res E N := uint_add u64_bound.

Lemma uint_add_in_range {E} b oc m n : (m + n < b)%N → @uint_add E b oc m n = Ok (m + n)%N.
Proof. intros H. unfold uint_add. by apply N.ltb_lt in H as ->. Qed.

(** ** Appending *)

Lemma str_app_nil_r (s : string) : s +:+ "" = s.
Proof. induction s as [|c s IH]; [done|]. by rewrite /= IH. Qed.

Lemma str_app_assoc (s t u : string) : (s +:+ t) +:+ u = s +:+ (t +:+ u).
Proof. induction s as [|c s IH]; [done|]. by rewrite /= IH. Qed.

Lemma all_chars_app p s t : all_chars p (s +:+ t) = all_chars p s && all_chars p t.
Proof. induction s as [|c s IH]; [done|]. rewrite /= IH. by rewrite andb_assoc. Qed.

Lemma starts_with_app p s : starts_with p (p +:+ s) = true.
Proof.
  unfold starts_with. induction p as [|c p IH]; simpl; [by destruct s|].
  destruct (ascii_dec c c); [done|congruence].
Qed.

Lemma starts_with_inv p s : starts_with p s = true → ∃ t, s = p +:+ t.
Proof.
  unfold starts_with. revert s. induction p as [|c p IH]; intros s; [by exists s|].
  destruct s as [|c' s]; [done|]. simpl. destruct (ascii_dec c c') as [->|]; [|done].
  intros [t ->]%IH. by exists t.
Qed.

Lemma strip_prefix_app p s : strip_prefix p (p +:+ s) = Some s.
Proof. induction p as [|c p IH]; simpl; [done|]. by rewrite Ascii.eqb_refl. Qed.

Lemma strip_prefix_Some p s t : strip_prefix p s = Some t → s = p +:+ t.
Proof.
  revert s. induction p as [|c p IH]; intros s; simpl; [by intros [= ->]|].
  destruct s as [|c' s]; [done|]. destruct (Ascii.eqb c c') eqn:He; [|done].
  apply Ascii.eqb_eq in He as ->. intros H. by rewrite (IH s H).
Qed.

Lemma ends_with_app p s : ends_with p (s +:+ p) = true.
Proof.
  induction s as [|c s IH].
  - change ("" +:+ p) with p. destruct p; simpl; [done|]. by rewrite Ascii.eqb_refl String.eqb_refl.
  - simpl. rewrite IH. apply orb_true_r.
Qed.

(** ** Decimal numerals *)

Lemma uint_chars d : all_chars is_ascii_digit (NilEmpty.string_of_uint d) = true.
Proof. induction d; simpl; auto. Qed.

Lemma N_to_uint_nz n : N.to_uint n ≠ Decimal.Nil.
Proof.
  destruct n as [|p]; [done|]. simpl.
  unfold Pos.to_uint. intros H.
  assert (Hn : N.of_uint (N.to_uint (N.pos p)) = N.pos p) by apply DecimalN.Unsigned.of_to.
  simpl in Hn. unfold Pos.to_uint in Hn. by rewrite H in Hn.
Qed.

Lemma N_to_string_digits n : all_chars is_ascii_digit (N_to_string n) = true.
Proof.
  unfold N_to_string, NilZero.string_of_uint.
  destruct (N.to_uint n) eqn:E; try (rewrite <- E; apply uint_chars); done.
Qed.

Lemma N_to_string_nonempty n : N_to_string n ≠ "".
Proof.
  unfold N_to_string, NilZero.string_of_uint. destruct (N.to_uint n); done.
Qed.

Lemma uint_of_N_to_string n : NilZero.uint_of_string (N_to_string n) = Some (N.to_uint n).
Proof. apply NilZero.usu, N_to_uint_nz. Qed.

#[global] Instance N_to_string_inj : Inj (=) (=) N_to_string.
Proof.
  intros m n H. apply (f_equal NilZero.uint_of_string) in H.
  rewrite !uint_of_N_to_string in H. injection H as H.
  apply (f_equal N.of_uint) in H. by rewrite !DecimalN.Unsigned.of_to in H.
Qed.

Lemma parse_uint_to_string b n : (n < b)%N → parse_uint b (N_to_string n) = Some n.
Proof.
  intros Hb. unfold parse_uint.
  assert (Hd := N_to_string_digits n).
  assert (Hplus : match N_to_string n with String "+" s' => s' | _ => N_to_string n end
                  = N_to_string n).
  { destruct (N_to_string n) as [|c s]; [done|].
    destruct (decide (c = "+"%char)) as [->|Hc]; [done|].
    destruct c as [[] [] [] [] [] [] [] []]; done. }
  rewrite Hplus uint_of_N_to_string DecimalN.Unsigned.of_to.
  by apply N.ltb_lt in Hb as ->.
Qed.

(** A numeral never ends in a non-digit, so it can be cut off a name uniquely. *)
Lemma digits_split c s t m n :
  is_ascii_digit c = false →
  all_chars is_ascii_digit m = true → all_chars is_ascii_digit n = true →
  s +:+ String c m = t +:+ String c n → s = t ∧ m = n.
Proof.
  intros Hc. revert t. induction s as [|a s IH]; intros [|b t] Hm Hn H; simpl in H.
  - by injection H.
  - injection H as -> ->. rewrite all_chars_app in Hm. simpl in Hm.
    rewrite Hc in Hm. by rewrite andb_false_r in Hm.
  - injection H as -> <-. rewrite all_chars_app in Hn. simpl in Hn.
    rewrite Hc in Hn. by rewrite andb_false_r in Hn.
  - injection H as -> H. destruct (IH t Hm Hn H) as [-> ->]. done.
Qed.
