(* ===== verification/Escape.v ===== *)
(** * Characters and escaped string atoms (source/air/src/printer.rs)

    A Rust [char] is its scalar value, an [N]; a [String] is its UTF-8 bytes.
    [chars] and [of_chars] are the standard library's decoding and encoding,
    [escape] and [unescape] the functions of printer.rs.  [unescape_escape]
    is the contract the comment on [unescape] states. *)

From S2P Require Import Prelude RustString.
From Stdlib Require Import Ascii String HexadecimalString HexadecimalN Hexadecimal.
Set Warnings "-rewrite-rw,-register-all,-clear-no-such-hyp".
Local Open Scope N_scope.

(** ** UTF-8 *)

(** The scalar values: [char::from_u32] accepts exactly these. *)
Definition is_scalar (c : N) : bool := (c <? 55296) || ((57344 <=? c) && (c <? 1114112)).

Definition byte (n : N) (s : string) : string := String (ascii_of_N n) s.

(** [String::push]: the UTF-8 bytes of [c], before those of [s]. *)
Definition push_char (c : N) (s : string) : string :=
  if c <? 128 then byte c s
  else if c <? 2048 then byte (192 + c / 64) (byte (128 + c mod 64) s)
  else if c <? 65536 then
    byte (224 + c / 4096) (byte (128 + (c / 64) mod 64) (byte (128 + c mod 64) s))
  else
    byte (240 + c / 262144)
      (byte (128 + (c / 4096) mod 64) (byte (128 + (c / 64) mod 64) (byte (128 + c mod 64) s))).

Fixpoint of_chars (cs : list N) : string :=
  match cs with [] => EmptyString | c :: cs' => push_char c (of_chars cs') end.

(** [s.chars()], on the bytes of a valid UTF-8 string. *)
Fixpoint chars (s : string) : list N :=
  match s with
  | EmptyString => []
  | String a s1 =>
    let x := N_of_ascii a in
    if x <? 128 then x :: chars s1
    else match s1 with
    | EmptyString => []
    | String b s2 =>
      let y := N_of_ascii b - 128 in
      if x <? 224 then ((x - 192) * 64 + y) :: chars s2
      else match s2 with
      | EmptyString => []
      | String c s3 =>
        let z := N_of_ascii c - 128 in
        if x <? 240 then ((x - 224) * 4096 + y * 64 + z) :: chars s3
        else match s3 with
        | EmptyString => []
        | String d s4 =>
          ((x - 240) * 262144 + y * 4096 + z * 64 + (N_of_ascii d - 128)) :: chars s4
        end
      end
    end
  end.

(** Every Rust string is the encoding of a sequence of scalar values. *)
Definition utf8 (s : string) : Prop :=
  Forall (λ c, is_scalar c = true) (chars s) ∧ of_chars (chars s) = s.

#[global] Instance utf8_dec s : Decision (utf8 s).
Proof. unfold utf8. apply _. Defined.

(** ** Hexadecimal numerals *)

(** [format!("{:x}", n)]. *)
Definition to_hex (n : N) : string := HexadecimalString.NilZero.string_of_uint (N.to_hex_uint n).

Definition to_ascii_lowercase (c : ascii) : ascii :=
  let n := N_of_ascii c in if (65 <=? n) && (n <=? 90) then ascii_of_N (n + 32) else c.

Fixpoint lowercase (s : string) : string :=
  match s with EmptyString => EmptyString | String c s' => String (to_ascii_lowercase c) (lowercase s') end.

(** [u32::from_str_radix(s, 16)]. *)
Definition u32_from_hex (s : string) : option N :=
  let digits := match s with String "+" s' => s' | _ => s end in
  match HexadecimalString.NilZero.uint_of_string (lowercase digits) with
  | Some d => let n := N.of_hex_uint d in if n <? u32_bound then Some n else None
  | None => None
  end.

(** [char::from_u32]. *)
Definition char_from_u32 (n : N) : option N := if is_scalar n then Some n else None.

(** ** escape and unescape *)

Definition is_ascii_graphic (c : N) : bool := (33 <=? c) && (c <=? 126).

(** The characters [escape] appends for one character ([92] is the backslash,
    [34] the double quote). *)
Definition escape_char (c : N) (rest : string) : string :=
  if c =? 92 then byte 92 (byte 92 rest)
  else if is_ascii_graphic c && negb (c =? 34) then push_char c rest
  else if c =? 32 then push_char c rest
  else if c =? 10 then byte 92 ("n" +:+ rest)
  else byte 92 ("u{" +:+ to_hex c +:+ "}" +:+ rest).

Definition escape (s : string) : string := foldr escape_char EmptyString (chars s).

(** The loops of [unescape] on the remaining characters: [None] is the outer
    loop, [Some hex] the loop that reads the digits up to a closing brace. *)
Fixpoint unescape_loop (hex : option (list N)) (cs : list N) : option (list N) :=
  match hex, cs with
  | None, [] => Some []
  | Some _, [] => None
  | None, c :: cs1 =>
    if negb (c =? 92) then cons c <$> unescape_loop None cs1
    else match cs1 with
    | [] => None
    | k :: cs2 =>
      if k =? 92 then cons 92 <$> unescape_loop None cs2
      else if k =? 110 then cons 10 <$> unescape_loop None cs2
      else if k =? 117 then
        match cs2 with
        | [] => None
        | b :: cs3 => if negb (b =? 123) then None else unescape_loop (Some []) cs3
        end
      else None
    end
  | Some h, d :: cs1 =>
    if d =? 125 then
      match u32_from_hex (of_chars h) with
      | None => None
      | Some n =>
        match char_from_u32 n with
        | None => None
        | Some c => cons c <$> unescape_loop None cs1
        end
      end
    else unescape_loop (Some (h ++ [d])) cs1
  end.

Definition unescape (s : string) : option string := of_chars <$> unescape_loop None (chars s).

(** ** Decoding inverts encoding *)

Lemma N_of_byte n : n < 256 → N_of_ascii (ascii_of_N n) = n.
Proof. apply N_ascii_embedding. Qed.

Lemma chars_push_char c s : is_scalar c = true → chars (push_char c s) = c :: chars s.
Proof.
  intros Hc. assert (Hb : c < 1114112).
  { unfold is_scalar in Hc. apply orb_true_iff in Hc as [Hc|Hc].
    - apply N.ltb_lt in Hc. lia.
    - apply andb_true_iff in Hc as [_ Hc]. by apply N.ltb_lt in Hc. }
  clear Hc. unfold push_char, byte.
  assert (Hm : ∀ a, a mod 64 < 64) by (intros; apply N.mod_lt; lia).
  assert (D1 := N.div_mod c 64 ltac:(lia)).
  assert (D2 := N.div_mod (c / 64) 64 ltac:(lia)).
  assert (D3 := N.div_mod (c / 4096) 64 ltac:(lia)).
  assert (E2 : c / 4096 = c / 64 / 64) by (rewrite N.Div0.div_div; done).
  assert (E3 : c / 262144 = c / 4096 / 64) by (rewrite N.Div0.div_div; done).
  pose proof (Hm c) as M1. pose proof (Hm (c / 64)) as M2. pose proof (Hm (c / 4096)) as M3.
  rewrite -E2 in D2. rewrite -E3 in D3. clear Hm E2 E3.
  remember (c mod 64) as b1 eqn:B1. remember ((c / 64) mod 64) as b2 eqn:B2.
  remember ((c / 4096) mod 64) as b3 eqn:B3. remember (c / 262144) as a3 eqn:A3.
  remember (c / 4096) as a2 eqn:A2. remember (c / 64) as a1 eqn:A1. clear B1 B2 B3 A1 A2 A3.
  destruct (c <? 128) eqn:H1; [|destruct (c <? 2048) eqn:H2; [|destruct (c <? 65536) eqn:H3]];
    rewrite ?N.ltb_lt ?N.ltb_ge in H1; try rewrite ?N.ltb_lt ?N.ltb_ge in H2;
    try rewrite ?N.ltb_lt ?N.ltb_ge in H3; cbn [chars]; rewrite !N_of_byte; try lia.
  - by replace (c <? 128) with true by (symmetry; apply N.ltb_lt; lia).
  - replace (192 + a1 <? 128) with false by (symmetry; apply N.ltb_ge; lia).
    replace (192 + a1 <? 224) with true by (symmetry; apply N.ltb_lt; lia).
    f_equal. lia.
  - replace (224 + a2 <? 128) with false by (symmetry; apply N.ltb_ge; lia).
    replace (224 + a2 <? 224) with false by (symmetry; apply N.ltb_ge; lia).
    replace (224 + a2 <? 240) with true by (symmetry; apply N.ltb_lt; lia).
    f_equal. lia.
  - replace (240 + a3 <? 128) with false by (symmetry; apply N.ltb_ge; lia).
    replace (240 + a3 <? 224) with false by (symmetry; apply N.ltb_ge; lia).
    replace (240 + a3 <? 240) with false by (symmetry; apply N.ltb_ge; lia).
    f_equal. lia.
Qed.

Lemma chars_of_chars cs : Forall (λ c, is_scalar c = true) cs → chars (of_chars cs) = cs.
Proof.
  induction 1 as [|c cs Hc _ IH]; [done|]. cbn [of_chars]. by rewrite chars_push_char ?IH.
Qed.

Lemma utf8_of_chars cs : Forall (λ c, is_scalar c = true) cs → utf8 (of_chars cs).
Proof. intros H. unfold utf8. by rewrite chars_of_chars. Qed.

(** ** Hexadecimal numerals are read back *)

Definition is_hex_char (c : ascii) : bool :=
  let n := N_of_ascii c in ((48 <=? n) && (n <=? 57)) || ((97 <=? n) && (n <=? 102)).

Lemma hex_uint_chars d : all_chars is_hex_char (HexadecimalString.NilEmpty.string_of_uint d) = true.
Proof. induction d; simpl; auto. Qed.

Lemma to_hex_chars n : all_chars is_hex_char (to_hex n) = true.
Proof.
  unfold to_hex, HexadecimalString.NilZero.string_of_uint.
  destruct (N.to_hex_uint n) eqn:E; try (rewrite <- E; apply hex_uint_chars); done.
Qed.

Lemma is_hex_char_spec c : is_hex_char c = true →
  N_of_ascii c < 128 ∧ N_of_ascii c ≠ 125 ∧ c ≠ "+"%char ∧ to_ascii_lowercase c = c.
Proof. destruct c as [[] [] [] [] [] [] [] []]; done. Qed.

Lemma lowercase_hex s : all_chars is_hex_char s = true → lowercase s = s.
Proof.
  induction s as [|c s IH]; simpl; [done|]. intros [Hc Hs]%andb_true_iff.
  destruct (is_hex_char_spec c Hc) as (_ & _ & _ & ->). by rewrite IH.
Qed.

Lemma N_to_hex_uint_nz n : N.to_hex_uint n ≠ Hexadecimal.Nil.
Proof.
  destruct n as [|p]; [done|]. intros H.
  assert (Hn := HexadecimalN.Unsigned.of_to (N.pos p)). by rewrite H in Hn.
Qed.

Lemma u32_from_to_hex n : n < u32_bound → u32_from_hex (to_hex n) = Some n.
Proof.
  intros Hn. unfold u32_from_hex. assert (Hd := to_hex_chars n).
  assert (Hplus : match to_hex n with String "+" s' => s' | _ => to_hex n end = to_hex n).
  { destruct (to_hex n) as [|c s]; [done|]. simpl in Hd. apply andb_true_iff in Hd as [Hc _].
    destruct (is_hex_char_spec c Hc) as (_ & _ & Hp & _).
    by destruct c as [[] [] [] [] [] [] [] []]. }
  rewrite Hplus (lowercase_hex _ Hd) HexadecimalString.NilZero.usu; [apply N_to_hex_uint_nz|].
  rewrite HexadecimalN.Unsigned.of_to. by apply N.ltb_lt in Hn as ->.
Qed.

(** ** ASCII characters decode to themselves *)

Lemma chars_ascii a s : N_of_ascii a < 128 → chars (String a s) = N_of_ascii a :: chars s.
Proof. intros H. apply N.ltb_lt in H. cbn [chars]. by rewrite H. Qed.

Lemma chars_byte n s : n < 128 → chars (byte n s) = n :: chars s.
Proof. intros H. unfold byte. rewrite chars_ascii N_of_byte //; lia. Qed.

Lemma push_ascii a s : N_of_ascii a < 128 → push_char (N_of_ascii a) s = String a s.
Proof.
  intros H. unfold push_char, byte. apply N.ltb_lt in H as ->. by rewrite ascii_N_embedding.
Qed.

Lemma hex_loop h acc rest :
  all_chars is_hex_char h = true →
  unescape_loop (Some acc) (chars (h +:+ String "}" rest)) =
    match u32_from_hex (of_chars acc +:+ h) with
    | None => None
    | Some n => match char_from_u32 n with
                | None => None
                | Some c => cons c <$> unescape_loop None (chars rest)
                end
    end.
Proof.
  revert acc. induction h as [|c h IH]; intros acc; simpl; [by rewrite str_app_nil_r|].
  intros [Hc Hh]%andb_true_iff. destruct (is_hex_char_spec c Hc) as (Hlt & Hne & _).
  assert (Hacc : of_chars acc +:+ String c h = of_chars (acc ++ [N_of_ascii c]) +:+ h).
  { clear -Hlt. induction acc as [|x acc IHa].
    - change (of_chars ([] ++ [N_of_ascii c])) with (push_char (N_of_ascii c) EmptyString).
      by rewrite push_ascii.
    - change (of_chars ((x :: acc) ++ [N_of_ascii c]))
        with (push_char x (of_chars (acc ++ [N_of_ascii c]))).
      cbn [of_chars]. unfold push_char, byte. by repeat case_match; simpl; rewrite IHa. }
  apply N.ltb_lt in Hlt as ->. apply N.eqb_neq in Hne. cbn [unescape_loop]. rewrite Hne.
  by rewrite IH // Hacc.
Qed.

Lemma is_scalar_u32 c : is_scalar c = true → c < u32_bound.
Proof.
  unfold is_scalar, u32_bound. intros [H|[_ H]%andb_true_iff]%orb_true_iff; apply N.ltb_lt in H; lia.
Qed.

Lemma unescape_escape_char c rest :
  is_scalar c = true →
  unescape_loop None (chars (escape_char c rest)) = cons c <$> unescape_loop None (chars rest).
Proof.
  intros Hc. unfold escape_char.
  destruct (c =? 92) eqn:E92; [apply N.eqb_eq in E92 as ->; done|].
  destruct (is_ascii_graphic c && negb (c =? 34)).
  { rewrite chars_push_char //. cbn [unescape_loop]. by rewrite E92. }
  destruct (c =? 32); [rewrite chars_push_char //; cbn [unescape_loop]; by rewrite E92|].
  destruct (c =? 10) eqn:E10; [apply N.eqb_eq in E10 as ->; done|].
  change ("u{" +:+ ?x) with (String "u" (String "{" x)).
  change ("}" +:+ rest) with (String "}" rest).
  rewrite chars_byte; [lia|]. rewrite !chars_ascii; [done..|].
  cbn -[u32_from_hex to_hex chars]. rewrite hex_loop; [apply to_hex_chars|].
  change (of_chars [] +:+ to_hex c) with (to_hex c).
  rewrite u32_from_to_hex; [by apply is_scalar_u32|]. unfold char_from_u32. by rewrite Hc.
Qed.

Lemma unescape_escape_chars cs :
  Forall (λ c, is_scalar c = true) cs →
  unescape_loop None (chars (foldr escape_char EmptyString cs)) = Some cs.
Proof.
  induction 1 as [|c cs Hc _ IH]; [done|]. cbn [foldr]. by rewrite unescape_escape_char // IH.
Qed.

Lemma unescape_inverts s : utf8 s → unescape (escape s) = Some s.
Proof. intros [Hs He]. unfold unescape, escape. by rewrite unescape_escape_chars //= He. Qed.

(** ** What escape prints *)

(** A character that may appear inside a quoted atom. *)
Definition printable (a : ascii) : bool :=
  let n := N_of_ascii a in (32 <=? n) && (n <=? 126) && negb (n =? 34).

Lemma hex_printable c : is_hex_char c = true → printable c = true.
Proof. destruct c as [[] [] [] [] [] [] [] []]; done. Qed.

Lemma all_chars_impl (p q : ascii → bool) s :
  (∀ c, p c = true → q c = true) → all_chars p s = true → all_chars q s = true.
Proof.
  intros H. induction s as [|c s IH]; simpl; [done|].
  intros [Hc Hs]%andb_true_iff. by rewrite H // IH.
Qed.

Lemma escape_char_printable c rest :
  all_chars printable rest = true → all_chars printable (escape_char c rest) = true.
Proof.
  intros Hr. unfold escape_char.
  destruct (c =? 92); [by simpl|].
  destruct (is_ascii_graphic c && negb (c =? 34)) eqn:Hg.
  { apply andb_true_iff in Hg as [[H1 H2]%andb_true_iff H3].
    apply N.leb_le in H1, H2. unfold push_char.
    replace (c <? 128) with true by (symmetry; apply N.ltb_lt; lia).
    unfold byte. cbn [all_chars]. rewrite Hr andb_true_r. unfold printable.
    rewrite N_of_byte; [lia|]. rewrite H3 andb_true_r.
    apply andb_true_iff; split; apply N.leb_le; lia. }
  destruct (c =? 32) eqn:E; [apply N.eqb_eq in E as ->; by simpl|].
  destruct (c =? 10); [by simpl|].
  unfold byte. cbn [all_chars]. rewrite !all_chars_app Hr. simpl.
  rewrite (all_chars_impl is_hex_char printable) //; [apply hex_printable | apply to_hex_chars].
Qed.

Lemma escape_printable s : all_chars printable (escape s) = true.
Proof.
  unfold escape. induction (chars s) as [|c cs IH]; [done|]. cbn [foldr].
  by apply escape_char_printable.
Qed.

(** ** The contract of the pair *)

(** C34. [unescape] inverts [escape] on every Rust string, and what [escape]
    prints contains only printable ASCII characters other than the double
    quote, so it can stand between quotes. *)
Theorem escape_roundtrip s :
  utf8 s → unescape (escape s) = Some s ∧ all_chars printable (escape s) = true.
Proof. intros H. split; [by apply unescape_inverts | apply escape_printable]. Qed.

(** A string with an accented letter, a newline, a backslash and a quote. *)
Definition sample_text : string := of_chars [233; 10; 92; 34; 97].

Lemma escape_roundtrip_witness :
  unescape (escape sample_text) = Some sample_text
  ∧ all_chars printable (escape sample_text) = true.
Proof. apply (escape_roundtrip sample_text). apply (bool_decide_unpack _). by vm_compute. Defined.
