(* ===== verification/Ast.v ===== *)
(** * The AIR abstract syntax (source/air/src/ast.rs, messages.rs)

    The types of the intermediate language between VIR and SMT-LIB.  [Arc] is
    erased; a Rust variant [T::C] is the constructor [T_C]; [Vec] is [list];
    [u32]/[u64] fields are [N].  [ArcDynMessage] and [ArcDynMessageLabel] are
    [Arc<dyn Any>] in the code; here they are the concrete types that AIR's own
    [AirMessageInterface] stores in them. *)

From S2P Require Import Prelude.

Set Warnings "-rewrite-rw,-register-all,-clear-no-such-hyp".

Definition Ident := string.
Definition TypeError := string.

(** ** Messages (messages.rs) *)

Inductive MessageLevel := MessageLevel_Error | MessageLevel_Warning | MessageLevel_Note.

Record AirSpan := { as_string : string }.

Record AirMessageLabel := { label_span : AirSpan; label_note : string }.

Record AirMessage := {
  level : MessageLevel;
  note : string;
  span : option AirSpan;
  labels : list AirMessageLabel
}.

Definition ArcDynMessage := AirMessage.
Definition ArcDynMessageLabel := AirMessageLabel.

(** ** Types and constants *)

Inductive TypX :=
| TypX_Bool
| TypX_Int
| TypX_Real
| TypX_Fun
| TypX_Named (x : Ident)
| TypX_BitVec (bits : N)
| TypX_Float (exp_bits sig_bits : N).
Definition Typ := TypX.
Definition Typs := list Typ.

#[global] Instance TypX_eq_dec : EqDecision TypX.
Proof. solve_decision. Defined.

Inductive Constant :=
| Constant_Bool (b : bool)
| Constant_Nat (n : string)
| Constant_Real (n : string)
| Constant_BitVec (n : string) (width : N).

#[global] Instance Constant_eq_dec : EqDecision Constant.
Proof. solve_decision. Defined.

(** ** Operators *)

Inductive RoundingMode :=
| RoundingMode_RNE | RoundingMode_RNA | RoundingMode_RTP | RoundingMode_RTN | RoundingMode_RTZ.

#[global] Instance RoundingMode_eq_dec : EqDecision RoundingMode.
Proof. solve_decision. Defined.

Inductive UnaryOp :=
| UnaryOp_Not
| UnaryOp_BitNot
| UnaryOp_BitNeg
| UnaryOp_BitExtract (high low : N)
| UnaryOp_BitZeroExtend (n : N)
| UnaryOp_BitSignExtend (n : N)
| UnaryOp_FloatNeg
| UnaryOp_FloatRoundToInt (r : RoundingMode)
| UnaryOp_FloatIsNormal
| UnaryOp_FloatIsSubnormal
| UnaryOp_FloatIsZero
| UnaryOp_FloatIsInfinite
| UnaryOp_FloatIsNaN
| UnaryOp_FloatIsNegative
| UnaryOp_FloatIsPositive
| UnaryOp_FloatFromIeeeBits (exp_bits sig_bits : N)
| UnaryOp_FloatToIeeeBits
| UnaryOp_FloatFrom (exp_bits sig_bits : N) (signed : bool) (round : RoundingMode)
| UnaryOp_FloatToBitVec (bits : N) (signed : bool) (round : RoundingMode)
| UnaryOp_FloatToReal
| UnaryOp_ToReal
| UnaryOp_RealToInt.

#[global] Instance UnaryOp_eq_dec : EqDecision UnaryOp.
Proof. solve_decision. Defined.

Inductive Relation :=
| Relation_PartialOrder | Relation_LinearOrder | Relation_TreeOrder
| Relation_PiecewiseLinearOrder.

#[global] Instance Relation_eq_dec : EqDecision Relation.
Proof. solve_decision. Defined.

Inductive BinaryOp :=
| BinaryOp_Implies
| BinaryOp_Eq
| BinaryOp_Le
| BinaryOp_Ge
| BinaryOp_Lt
| BinaryOp_Gt
| BinaryOp_EuclideanDiv
| BinaryOp_EuclideanMod
| BinaryOp_RealDiv
| BinaryOp_Relation (r : Relation) (n : N)
| BinaryOp_BitXor
| BinaryOp_BitAnd
| BinaryOp_BitOr
| BinaryOp_BitAdd
| BinaryOp_BitSub
| BinaryOp_BitMul
| BinaryOp_BitUDiv
| BinaryOp_BitURem
| BinaryOp_BitSDiv
| BinaryOp_BitSRem
| BinaryOp_BitULt
| BinaryOp_BitUGt
| BinaryOp_BitULe
| BinaryOp_BitUGe
| BinaryOp_BitSLt
| BinaryOp_BitSGt
| BinaryOp_BitSLe
| BinaryOp_BitSGe
| BinaryOp_AShr
| BinaryOp_LShr
| BinaryOp_Shl
| BinaryOp_BitConcat
| BinaryOp_FloatAdd (r : RoundingMode)
| BinaryOp_FloatSub (r : RoundingMode)
| BinaryOp_FloatMul (r : RoundingMode)
| BinaryOp_FloatDiv (r : RoundingMode)
| BinaryOp_FloatEq
| BinaryOp_FloatLt
| BinaryOp_FloatGt
| BinaryOp_FloatLe
| BinaryOp_FloatGe
| BinaryOp_FieldUpdate (x : Ident).

#[global] Instance BinaryOp_eq_dec : EqDecision BinaryOp.
Proof. solve_decision. Defined.

Inductive MultiOp :=
| MultiOp_And | MultiOp_Or | MultiOp_Xor | MultiOp_Add | MultiOp_Sub | MultiOp_Mul
| MultiOp_Distinct | MultiOp_Float.

#[global] Instance MultiOp_eq_dec : EqDecision MultiOp.
Proof. solve_decision. Defined.

(** ** Binders and expressions *)

Record BinderX (A : Type) := mkBinder { bname : Ident; ba : A }.
Arguments mkBinder {A} bname ba.
Arguments bname {A} b : rename.
Arguments ba {A} b : rename.
Definition Binders (A : Type) := list (BinderX A).

Inductive Quant := Quant_Forall | Quant_Exists.

#[global] Instance Quant_eq_dec : EqDecision Quant.
Proof. solve_decision. Defined.

Definition Qid := option Ident.

(** [Trigger] is a vector of expressions and [Triggers] a vector of those;
    [BindX] and [WrapLambda] refer to [ExprX] in the code, here through the
    parameter [E]. *)
Record WrapLambda (E : Type) := mkWrapLambda { wrap : Ident; wrap_id : E }.
Arguments mkWrapLambda {E} wrap wrap_id.
Arguments wrap {E} w : rename.
Arguments wrap_id {E} w : rename.

Inductive BindX (E : Type) :=
| BindX_Let (bs : Binders E)
| BindX_Quant (q : Quant) (bs : Binders Typ) (ts : list (list E)) (qid : Qid)
| BindX_Lambda (bs : Binders Typ) (ts : list (list E)) (qid : Qid)
    (w : option (WrapLambda E)) (cond : option E)
| BindX_Choose (bs : Binders Typ) (ts : list (list E)) (qid : Qid) (cond : E).
Arguments BindX_Let {E} bs.
Arguments BindX_Quant {E} q bs ts qid.
Arguments BindX_Lambda {E} bs ts qid w cond.
Arguments BindX_Choose {E} bs ts qid cond.

Definition AxiomInfoFilter := option Ident.
Definition AssertId := list N.

Inductive ExprX :=
| ExprX_Const (c : Constant)
| ExprX_Var (x : Ident)
| ExprX_Old (snap x : Ident)
| ExprX_Apply (x : Ident) (es : list ExprX)
| ExprX_ApplyFun (t : Typ) (e0 : ExprX) (es : list ExprX)
| ExprX_Unary (op : UnaryOp) (e1 : ExprX)
| ExprX_Binary (op : BinaryOp) (e1 e2 : ExprX)
| ExprX_Multi (op : MultiOp) (es : list ExprX)
| ExprX_IfElse (e1 e2 e3 : ExprX)
| ExprX_Array (es : list ExprX)
| ExprX_Bind (bind : BindX ExprX) (e1 : ExprX)
| ExprX_LabeledAxiom (ls : list ArcDynMessageLabel) (filter : AxiomInfoFilter) (e1 : ExprX)
| ExprX_LabeledAssertion (aid : option AssertId) (msg : ArcDynMessage)
    (filter : AxiomInfoFilter) (e1 : ExprX).
Definition Expr := ExprX.
Definition Exprs := list Expr.
Definition Trigger := Exprs.
Definition Triggers := list Trigger.
Definition Bind := BindX Expr.

(** ** Statements, declarations, commands *)

Inductive StmtX :=
| StmtX_Assume (e : Expr)
| StmtX_Assert (aid : option AssertId) (msg : ArcDynMessage) (filter : AxiomInfoFilter) (e : Expr)
| StmtX_Havoc (x : Ident)
| StmtX_Assign (x : Ident) (e : Expr)
| StmtX_Snapshot (snap : Ident)
| StmtX_DeadEnd (s : StmtX)
| StmtX_Breakable (label : Ident) (s : StmtX)
| StmtX_Break (label : Ident)
| StmtX_Block (ss : list StmtX)
| StmtX_Switch (ss : list StmtX).
Definition Stmt := StmtX.
Definition Stmts := list Stmt.

Record Axiom_ := mkAxiom { named : option Ident; expr : Expr }.

Definition Field := BinderX Typ.
Definition Fields := Binders Typ.
Definition Variant := BinderX Fields.
Definition Variants := Binders Fields.
Definition Datatype := BinderX Variants.
Definition Datatypes := Binders Variants.

Inductive DeclX :=
| DeclX_Sort (x : Ident)
| DeclX_Datatypes (ds : Datatypes)
| DeclX_Const (x : Ident) (t : Typ)
| DeclX_Fun (x : Ident) (ts : Typs) (t : Typ)
| DeclX_Var (x : Ident) (t : Typ)
| DeclX_Axiom (ax : Axiom_).
Definition Decl := DeclX.
Definition Decls := list Decl.

Record QueryX := mkQuery { local : Decls; assertion : Stmt }.
Definition Query := QueryX.

Inductive CommandX :=
| CommandX_Push
| CommandX_Pop
| CommandX_SetOption (option value : Ident)
| CommandX_Global (d : Decl)
| CommandX_CheckValid (q : Query).
Definition Command := CommandX.
Definition Commands := list Command.

(** ** Induction principles

    [ExprX] and [StmtX] are nested inductive types; the principles below give
    the induction hypothesis for every sub-expression and sub-statement. *)

Definition opt_list {A} (o : option A) : list A :=
  match o with Some x => [x] | None => [] end.

(** The expressions a binder contains (the body is not one of them). *)
Definition bind_exprs {E} (b : BindX E) : list E :=
  match b with
  | BindX_Let bs => ba <$> bs
  | BindX_Quant _ _ ts _ => concat ts
  | BindX_Lambda _ ts _ w cond => concat ts ++ opt_list (wrap_id <$> w) ++ opt_list cond
  | BindX_Choose _ ts _ cond => concat ts ++ [cond]
  end.

Section ExprX_induction.
Variable P : ExprX → Prop.
Hypothesis HConst : ∀ c, P (ExprX_Const c).
Hypothesis HVar : ∀ x, P (ExprX_Var x).
Hypothesis HOld : ∀ s x, P (ExprX_Old s x).
Hypothesis HApply : ∀ x es, Forall P es → P (ExprX_Apply x es).
Hypothesis HApplyFun : ∀ t e0 es, P e0 → Forall P es → P (ExprX_ApplyFun t e0 es).
Hypothesis HUnary : ∀ op e, P e → P (ExprX_Unary op e).
Hypothesis HBinary : ∀ op e1 e2, P e1 → P e2 → P (ExprX_Binary op e1 e2).
Hypothesis HMulti : ∀ op es, Forall P es → P (ExprX_Multi op es).
Hypothesis HIfElse : ∀ e1 e2 e3, P e1 → P e2 → P e3 → P (ExprX_IfElse e1 e2 e3).
Hypothesis HArray : ∀ es, Forall P es → P (ExprX_Array es).
Hypothesis HBind : ∀ b e, Forall P (bind_exprs b) → P e → P (ExprX_Bind b e).
Hypothesis HLAx : ∀ ls f e, P e → P (ExprX_LabeledAxiom ls f e).
Hypothesis HLAs : ∀ i m f e, P e → P (ExprX_LabeledAssertion i m f e).

Fixpoint ExprX_ind' (e : ExprX) : P e.
Proof.
  pose (all := fix all (es : list ExprX) : Forall P es :=
    match es with
    | [] => Forall_nil_2 P
    | e' :: es' => Forall_cons_2 P e' es' (ExprX_ind' e') (all es')
    end).
  pose (alls := fix alls (ts : list (list ExprX)) : Forall P (concat ts) :=
    match ts with
    | [] => Forall_nil_2 P
    | t :: ts' => Forall_app_2 P t (concat ts') (all t) (alls ts')
    end).
  destruct e as [c|x|s x|x es|t e0 es|op e|op e1 e2|op es|e1 e2 e3|es|b e|ls f e|i m f e].
  - apply HConst.
  - apply HVar.
  - apply HOld.
  - apply HApply, all.
  - apply HApplyFun; [apply ExprX_ind' | apply all].
  - apply HUnary, ExprX_ind'.
  - apply HBinary; apply ExprX_ind'.
  - apply HMulti, all.
  - apply HIfElse; apply ExprX_ind'.
  - apply HArray, all.
  - apply HBind; [|apply ExprX_ind'].
    destruct b as [bs|q bs ts qid|bs ts qid w cond|bs ts qid cond]; simpl.
    + induction bs as [|[n e'] bs IHbs]; constructor; [apply ExprX_ind' | apply IHbs].
    + apply alls.
    + apply Forall_app_2; [apply alls|]. apply Forall_app_2.
      * destruct w as [[wr i]|]; repeat constructor. apply ExprX_ind'.
      * destruct cond; repeat constructor. apply ExprX_ind'.
    + apply Forall_app_2; [apply alls|]. repeat constructor. apply ExprX_ind'.
  - apply HLAx, ExprX_ind'.
  - apply HLAs, ExprX_ind'.
Qed.
End ExprX_induction.

Section StmtX_induction.
Variable P : StmtX → Prop.
Hypothesis HAssume : ∀ e, P (StmtX_Assume e).
Hypothesis HAssert : ∀ i m f e, P (StmtX_Assert i m f e).
Hypothesis HHavoc : ∀ x, P (StmtX_Havoc x).
Hypothesis HAssign : ∀ x e, P (StmtX_Assign x e).
Hypothesis HSnapshot : ∀ x, P (StmtX_Snapshot x).
Hypothesis HDeadEnd : ∀ s, P s → P (StmtX_DeadEnd s).
Hypothesis HBreakable : ∀ l s, P s → P (StmtX_Breakable l s).
Hypothesis HBreak : ∀ l, P (StmtX_Break l).
Hypothesis HBlock : ∀ ss, Forall P ss → P (StmtX_Block ss).
Hypothesis HSwitch : ∀ ss, Forall P ss → P (StmtX_Switch ss).

Fixpoint StmtX_ind' (s : StmtX) : P s.
Proof.
  pose (all := fix all (ss : list StmtX) : Forall P ss :=
    match ss with
    | [] => Forall_nil_2 P
    | s' :: ss' => Forall_cons_2 P s' ss' (StmtX_ind' s') (all ss')
    end).
  destruct s as [e|i m f e|x|x e|x|s|l s|l|ss|ss].
  - apply HAssume.
  - apply HAssert.
  - apply HHavoc.
  - apply HAssign.
  - apply HSnapshot.
  - apply HDeadEnd, StmtX_ind'.
  - apply HBreakable, StmtX_ind'.
  - apply HBreak.
  - apply HBlock, all.
  - apply HSwitch, all.
Qed.
End StmtX_induction.
