(* ===== verification/AstUtil.v ===== *)
(** * Constructors with simplification (source/air/src/ast_util.rs, def.rs)

    The helper functions AIR and VIR build expressions with.  The boolean ones
    ([mk_and], [mk_or], [mk_not], [mk_implies], [mk_xor], [mk_ite]) simplify
    constants as they go; [Semantics] proves that they keep the meaning. *)

From S2P Require Import Prelude RustString Ast.
From Stdlib Require Import Ascii String.
Set Warnings "-rewrite-rw,-register-all,-clear-no-such-hyp".

(** ** def.rs *)

Definition PREFIX_LABEL := "%%location_label%%".
Definition GLOBAL_PREFIX_LABEL := "%%global_location_label%%".
Definition BREAK_LABEL := "%%break_label%%".
Definition SWITCH_LABEL := "%%switch_label%%".
Definition FUNCTION := "%%Function%%".
Definition SKOLEM_ID_PREFIX := "skolem".

Definition mk_skolem_id (qid : string) : string := SKOLEM_ID_PREFIX +:+ "_" +:+ qid.

Definition break_label (label : Ident) : Ident := BREAK_LABEL +:+ label.

(** ** Binders *)

Definition new_a {A B} (b : BinderX A) (y : B) : BinderX B := mkBinder (bname b) y.

Definition map_a {A B} (b : BinderX A) (f : A → B) : BinderX B := mkBinder (bname b) (f (ba b)).

Definition map_result {A B E} (b : BinderX A) (f : A → res E B) : res E (BinderX B) :=
  rbind (f (ba b)) (λ y, Ok (mkBinder (bname b) y)).

Definition apply_or_var (x : Ident) (args : Exprs) : ExprX :=
  if (List.length args =? 0)%nat then ExprX_Var x else ExprX_Apply x args.

Definition fun_or_const (x : Ident) (typs : Typs) (typ : Typ) : DeclX :=
  if (List.length typs =? 0)%nat then DeclX_Const x typ else DeclX_Fun x typs typ.

Definition str_ident (x : string) : Ident := x.
Definition ident_var (x : Ident) : Expr := ExprX_Var x.
Definition string_var (x : string) : Expr := ExprX_Var x.
Definition str_var (x : string) : Expr := ExprX_Var x.
Definition ident_apply (x : Ident) (args : list Expr) : Expr := ExprX_Apply x args.
Definition ident_apply_or_var (x : Ident) (args : list Expr) : Expr := apply_or_var x args.
Definition string_apply (x : string) (args : list Expr) : Expr := ExprX_Apply x args.
Definition str_apply (x : string) (args : list Expr) : Expr := ExprX_Apply x args.
Definition int_typ : Typ := TypX_Int.
Definition bool_typ : Typ := TypX_Bool.
Definition ident_typ (x : Ident) : Typ := TypX_Named x.
Definition string_typ (x : string) : Typ := TypX_Named x.
Definition str_typ (x : string) : Typ := TypX_Named x.
Definition bv_typ (width : N) : Typ := TypX_BitVec width.
Definition ident_binder {A} (x : Ident) (y : A) : BinderX A := mkBinder x y.

(** ** Binding expressions *)

Definition mk_bind_expr (bind : Bind) (body : Expr) : Expr :=
  let n := match bind with
           | BindX_Let bs => List.length bs
           | BindX_Quant _ bs _ _ => List.length bs
           | BindX_Lambda _ _ _ _ _ | BindX_Choose _ _ _ _ => 1
           end in
  if (n =? 0)%nat then body else ExprX_Bind bind body.

Definition mk_let (binders : Binders Expr) (body : Expr) : Expr :=
  if (List.length binders =? 0)%nat then body else ExprX_Bind (BindX_Let binders) body.

Definition mk_quantifier (quant : Quant) (binders : Binders Typ) (triggers : Triggers)
    (qid : Qid) (body : Expr) : Expr :=
  if (List.length binders =? 0)%nat then body
  else ExprX_Bind (BindX_Quant quant binders triggers qid) body.

Definition mk_forall := mk_quantifier Quant_Forall.
Definition mk_exists := mk_quantifier Quant_Exists.

Definition mk_lambda (binders : Binders Typ) (triggers : Triggers) (qid : Qid)
    (w : option (WrapLambda Expr)) (cond : option Expr) (body : Expr) : Expr :=
  ExprX_Bind (BindX_Lambda binders triggers qid w cond) body.

(** ** Boolean connectives *)

Definition mk_true : Expr := ExprX_Const (Constant_Bool true).
Definition mk_false : Expr := ExprX_Const (Constant_Bool false).
Definition mk_const_bool (b : bool) : Expr := ExprX_Const (Constant_Bool b).

Definition is_const_bool (b : bool) (e : Expr) : bool :=
  match e with ExprX_Const (Constant_Bool b') => Bool.eqb b b' | _ => false end.

Definition mk_and (exprs : list Expr) : Expr :=
  if existsb (is_const_bool false) exprs then mk_false
  else
    match List.filter (λ e, negb (is_const_bool true e)) exprs with
    | [] => mk_true
    | [e] => e
    | es => ExprX_Multi MultiOp_And es
    end.

Definition mk_or (exprs : list Expr) : Expr :=
  if existsb (is_const_bool true) exprs then mk_true
  else
    match List.filter (λ e, negb (is_const_bool false e)) exprs with
    | [] => mk_false
    | [e] => e
    | es => ExprX_Multi MultiOp_Or es
    end.

Definition mk_not (e1 : Expr) : Expr :=
  match e1 with
  | ExprX_Const (Constant_Bool false) => mk_true
  | ExprX_Const (Constant_Bool true) => mk_false
  | ExprX_Unary UnaryOp_Not e => e
  | _ => ExprX_Unary UnaryOp_Not e1
  end.

Definition mk_implies (e1 e2 : Expr) : Expr :=
  match e1, e2 with
  | ExprX_Const (Constant_Bool false), _ => mk_true
  | ExprX_Const (Constant_Bool true), _ => e2
  | _, ExprX_Const (Constant_Bool false) => mk_not e1
  | _, ExprX_Const (Constant_Bool true) => mk_true
  | _, _ => ExprX_Binary BinaryOp_Implies e1 e2
  end.

Definition mk_xor (e1 e2 : Expr) : Expr :=
  match e1, e2 with
  | ExprX_Const (Constant_Bool false), _ => e2
  | ExprX_Const (Constant_Bool true), _ => mk_not e2
  | _, ExprX_Const (Constant_Bool false) => e1
  | _, ExprX_Const (Constant_Bool true) => mk_not e1
  | _, _ => ExprX_Multi MultiOp_Xor [e1; e2]
  end.

Definition mk_ite (e1 e2 e3 : Expr) : Expr :=
  match e1, e2, e3 with
  | ExprX_Const (Constant_Bool true), _, _ => e2
  | ExprX_Const (Constant_Bool false), _, _ => e3
  | _, _, ExprX_Const (Constant_Bool true) => mk_implies e1 e2
  | _, _, ExprX_Const (Constant_Bool false) => mk_and [e1; e2]
  | _, ExprX_Const (Constant_Bool true), _ => mk_implies (mk_not e1) e3
  | _, ExprX_Const (Constant_Bool false), _ => mk_and [mk_not e1; e3]
  | _, _, _ => ExprX_IfElse e1 e2 e3
  end.

Definition mk_eq (e1 e2 : Expr) : Expr := ExprX_Binary BinaryOp_Eq e1 e2.

(** ** Numerals

    [n] is the result of [to_string]; the code's [assert!]s panic. *)

Definition mk_nat {E} (n : string) : res E Expr :=
  if (0 <? String.length n)%nat && all_chars is_ascii_digit n
  then Ok (ExprX_Const (Constant_Nat n)) else Panic.

Definition is_valid_real (s : string) : bool :=
  all_chars (λ c, is_ascii_digit c || Ascii.eqb c "."%char) s
  && (count_chars (λ c, Ascii.eqb c "."%char) s =? 1)%nat
  && negb (starts_with "." s)
  && negb (ends_with "." s).

Definition mk_real {E} (n : string) : res E Expr :=
  if is_valid_real n then Ok (ExprX_Const (Constant_Real n)) else Panic.

Definition mk_neg (e : Expr) : Expr := ExprX_Multi MultiOp_Sub [e].
Definition mk_sub (e1 e2 : Expr) : Expr := ExprX_Multi MultiOp_Sub [e1; e2].

Definition mk_unnamed_axiom (e : Expr) : Decl := DeclX_Axiom (mkAxiom None e).

Definition mk_bit_vec (n : string) (w : N) : Expr := ExprX_Const (Constant_BitVec n w).
Definition mk_bit_vec_zero (w : N) : Expr := mk_bit_vec "0" w.
Definition mk_bit_vec_one (w : N) : Expr := mk_bit_vec "1" w.

(** ** Labels are distinct names *)

#[global] Instance break_label_inj : Inj (=) (=) break_label.
Proof.
  intros l1 l2 H. unfold break_label, BREAK_LABEL in H. simpl in H. by repeat injection H as H.
Qed.

Lemma break_label_not_switch l n : break_label l ≠ SWITCH_LABEL +:+ n.
Proof. unfold break_label, BREAK_LABEL, SWITCH_LABEL. simpl. by intros [=]. Qed.
