(* ===== verification/Semantics.v ===== *)
(** * What AIR expressions, statements and queries mean

    The specification the AIR passes are judged against.  The theories of
    SMT-LIB (arithmetic, bit vectors, floats, arrays, uninterpreted functions,
    the choice of quantifier domains) belong to the solver: they are the
    fields of [Interp].  Fixed here is what the passes rely on: the booleans,
    equality, variables, [old], [if], [let] and the binding structure.

    Statements are given by the outcomes they can have from a state.  A query is
    [query_safe] when no outcome of its statement is a failed assertion; that is
    what [CheckValid] asks the solver about. *)

From S2P Require Import Prelude RustString Ast AstUtil.
Set Warnings "-rewrite-rw,-register-all,-clear-no-such-hyp".

(** ** Interpretations *)

Record Interp := {
  V : Type;
  i_bool : bool → V;
  i_truth : V → bool;
  i_truth_bool : ∀ b, i_truth (i_bool b) = b;
  i_eqb : V → V → bool;
  i_eqb_eq : ∀ u v, i_eqb u v = true ↔ u = v;
  i_const : Constant → V;
  i_fun : Ident → list V → V;
  i_apply_fun : Typ → V → list V → V;
  i_unary : UnaryOp → V → V;
  i_binary : BinaryOp → V → V → V;
  i_multi : MultiOp → list V → V;
  i_array : list V → V;
  i_quant : Quant → Binders Typ → (list V → V) → V;
  i_quant_ext : ∀ q bs f g, (∀ vs, f vs = g vs) → i_quant q bs f = i_quant q bs g;
  i_lambda : Binders Typ → option (Ident * V) → (list V → option V) → (list V → V) → V;
  i_lambda_ext : ∀ bs w c c' f g,
    (∀ vs, c vs = c' vs) → (∀ vs, f vs = g vs) → i_lambda bs w c f = i_lambda bs w c' g;
  i_choose : Binders Typ → (list V → V) → list V;
  i_choose_ext : ∀ bs f g, (∀ vs, f vs = g vs) → i_choose bs f = i_choose bs g;
  (* the values of a sort *)
  i_typ : Typ → V → Prop;
  i_typ_bool : ∀ b, i_typ TypX_Bool (i_bool b)
}.

Section semantics.
Context (M : Interp).
#[local] Abbreviation Val := (V M).

(** ** Environments *)

Definition Env := Ident → Val.

Definition upd (ρ : Env) (x : Ident) (v : Val) : Env :=
  λ y, if decide (y = x) then v else ρ y.

Fixpoint bind_env (ρ : Env) (xs : list Ident) (vs : list Val) : Env :=
  match xs, vs with
  | x :: xs', v :: vs' => upd (bind_env ρ xs' vs') x v
  | _, _ => ρ
  end.

(** ** Expressions

    [old s x] is the value of [x] in snapshot [s], if there is one. *)

Definition Olds := Ident → Ident → option Val.

Fixpoint eval (old : Olds) (ρ : Env) (e : Expr) {struct e} : Val :=
  match e with
  | ExprX_Const (Constant_Bool b) => i_bool M b
  | ExprX_Const c => i_const M c
  | ExprX_Var x => ρ x
  | ExprX_Old s x => match old s x with Some v => v | None => ρ x end
  | ExprX_Apply x es => i_fun M x (map (eval old ρ) es)
  | ExprX_ApplyFun t e0 es => i_apply_fun M t (eval old ρ e0) (map (eval old ρ) es)
  | ExprX_Unary op e1 =>
    let v := eval old ρ e1 in
    match op with
    | UnaryOp_Not => i_bool M (negb (i_truth M v))
    | _ => i_unary M op v
    end
  | ExprX_Binary op e1 e2 =>
    let v1 := eval old ρ e1 in let v2 := eval old ρ e2 in
    match op with
    | BinaryOp_Implies => i_bool M (implb (i_truth M v1) (i_truth M v2))
    | BinaryOp_Eq => i_bool M (i_eqb M v1 v2)
    | _ => i_binary M op v1 v2
    end
  | ExprX_Multi op es =>
    let vs := map (eval old ρ) es in
    match op with
    | MultiOp_And => i_bool M (forallb (i_truth M) vs)
    | MultiOp_Or => i_bool M (existsb (i_truth M) vs)
    | MultiOp_Xor => i_bool M (foldr xorb false (map (i_truth M) vs))
    | _ => i_multi M op vs
    end
  | ExprX_IfElse e1 e2 e3 =>
    if i_truth M (eval old ρ e1) then eval old ρ e2 else eval old ρ e3
  | ExprX_Array es => i_array M (map (eval old ρ) es)
  | ExprX_Bind b e1 =>
    match b with
    | BindX_Let bs =>
      eval old (bind_env ρ (map bname bs) (map (λ b, eval old ρ (ba b)) bs)) e1
    | BindX_Quant q bs _ _ =>
      i_quant M q bs (λ vs, eval old (bind_env ρ (map bname bs) vs) e1)
    | BindX_Lambda bs _ _ w cond =>
      i_lambda M bs
        match w with Some w => Some (wrap w, eval old ρ (wrap_id w)) | None => None end
        (λ vs, match cond with
               | Some c => Some (eval old (bind_env ρ (map bname bs) vs) c)
               | None => None
               end)
        (λ vs, eval old (bind_env ρ (map bname bs) vs) e1)
    | BindX_Choose bs _ _ cond =>
      eval old
        (bind_env ρ (map bname bs)
           (i_choose M bs (λ vs, eval old (bind_env ρ (map bname bs) vs) cond))) e1
    end
  | ExprX_LabeledAxiom _ _ e1 => eval old ρ e1
  | ExprX_LabeledAssertion _ _ _ e1 => eval old ρ e1
  end.

Definition truth (old : Olds) (ρ : Env) (e : Expr) : bool := i_truth M (eval old ρ e).

(** ** Statements *)

Record State := mkState { env : Env; snaps : gmap Ident Env }.

Inductive outcome :=
| ONormal (σ : State)
| OBreak (label : Ident) (σ : State)
| OFail (aid : option AssertId).

(** [Γ] gives the sorts of the mutable variables (the [declare-var]s). *)
Definition Vars := gmap Ident Typ.

Definition olds (Γ : Vars) (σ : State) : Olds := λ s x,
  match Γ !! x, snaps σ !! s with
  | Some _, Some ρ => Some (ρ x)
  | _, _ => None
  end.

Definition holds (Γ : Vars) (σ : State) (e : Expr) : bool := truth (olds Γ σ) (env σ) e.

Definition set_var (σ : State) (x : Ident) (v : Val) : State :=
  mkState (upd (env σ) x v) (snaps σ).

Definition is_normal (o : outcome) : bool :=
  match o with ONormal _ => true | _ => false end.

(** A [Break] reaches the end of the [Breakable] with its label. *)
Definition catch (label : Ident) (o : outcome) : outcome :=
  match o with
  | OBreak l σ => if decide (l = label) then ONormal σ else o
  | _ => o
  end.

(** Snapshots taken in a branch of a [Switch] are not retained after it. *)
Definition drop_snaps (snaps0 : gmap Ident Env) (o : outcome) : outcome :=
  match o with
  | ONormal σ => ONormal (mkState (env σ) snaps0)
  | _ => o
  end.

(** Outcomes of a sequence and of a choice, given those of one statement. *)
Section lists.
Context (ex : Stmt → State → outcome → Prop).

Fixpoint exec_block (ss : list Stmt) (σ : State) (o : outcome) : Prop :=
  match ss with
  | [] => o = ONormal σ
  | s :: ss' =>
    (∃ σ', ex s σ (ONormal σ') ∧ exec_block ss' σ' o)
    ∨ (ex s σ o ∧ is_normal o = false)
  end.

Fixpoint exec_switch (ss : list Stmt) (σ : State) (o : outcome) : Prop :=
  match ss with
  | [] => False
  | s :: ss' =>
    (∃ o', ex s σ o' ∧ o = drop_snaps (snaps σ) o') ∨ exec_switch ss' σ o
  end.
End lists.

Fixpoint exec (Γ : Vars) (s : Stmt) (σ : State) (o : outcome) {struct s} : Prop :=
  match s with
  | StmtX_Assume e => holds Γ σ e = true ∧ o = ONormal σ
  | StmtX_Assert aid _ _ e => o = if holds Γ σ e then ONormal σ else OFail aid
  | StmtX_Havoc x => ∃ t v, Γ !! x = Some t ∧ i_typ M t v ∧ o = ONormal (set_var σ x v)
  | StmtX_Assign x e => o = ONormal (set_var σ x (eval (olds Γ σ) (env σ) e))
  | StmtX_Snapshot snap => o = ONormal (mkState (env σ) (<[snap := env σ]> (snaps σ)))
  | StmtX_DeadEnd s => o = ONormal σ ∨ (exec Γ s σ o ∧ is_normal o = false)
  | StmtX_Breakable label s => ∃ o', exec Γ s σ o' ∧ o = catch label o'
  | StmtX_Break label => o = OBreak label σ
  | StmtX_Block ss => exec_block (exec Γ) ss σ o
  | StmtX_Switch ss => exec_switch (exec Γ) ss σ o
  end.

(** ** Queries *)

Fixpoint decl_vars (ds : Decls) : Vars :=
  match ds with
  | [] => ∅
  | DeclX_Var x t :: ds' => <[x := t]> (decl_vars ds')
  | _ :: ds' => decl_vars ds'
  end.

(** The declared constants and variables have values of their sorts and the
    local axioms hold. *)
Definition decl_holds (ρ : Env) (d : Decl) : Prop :=
  match d with
  | DeclX_Const x t | DeclX_Var x t => i_typ M t (ρ x)
  | DeclX_Axiom ax => truth (λ _ _, None) ρ (expr ax) = true
  | _ => True
  end.

Definition decls_hold (ds : Decls) (ρ : Env) : Prop := Forall (decl_holds ρ) ds.

Definition query_safe (q : Query) : Prop :=
  ∀ ρ aid, decls_hold (local q) ρ →
    ¬ exec (decl_vars (local q)) (assertion q) (mkState ρ ∅) (OFail aid).
End semantics.

Arguments upd {M} ρ x v y /.
Arguments mkState {M} env snaps.
Arguments env {M} s : rename.
Arguments snaps {M} s : rename.
Arguments ONormal {M} σ.
Arguments OBreak {M} label σ.
Arguments OFail {M} aid.

(** The smallest interpretation: every value is a boolean. *)
Program Definition bool_interp : Interp := {|
  V := bool;
  i_bool b := b;
  i_truth b := b;
  i_eqb := eqb;
  i_const _ := false;
  i_fun _ _ := false;
  i_apply_fun _ _ _ := false;
  i_unary _ v := v;
  i_binary _ _ _ := false;
  i_multi _ _ := false;
  i_array _ := false;
  i_quant q bs f :=
    match q with
    | Quant_Forall => f (map (λ _, true) bs) && f (map (λ _, false) bs)
    | Quant_Exists => f (map (λ _, true) bs) || f (map (λ _, false) bs)
    end;
  i_lambda _ _ _ _ := false;
  i_choose bs f :=
    if f (map (λ _, true) bs) then map (λ _, true) bs else map (λ _, false) bs;
  i_typ _ _ := True
|}.
Next Obligation. done. Qed.
Next Obligation. apply eqb_true_iff. Qed.
Next Obligation. intros q bs f g H. destruct q; by rewrite !H. Qed.
Next Obligation. done. Qed.
Next Obligation. intros bs f g H. cbn. by rewrite H. Qed.
Next Obligation. done. Qed.
