(* ===== verification/ExprFacts.v ===== *)
(** * Facts about expressions

    The simplifying constructors of ast_util.rs keep the meaning of what they
    build; the value of an expression depends on the names it mentions only. *)

From S2P Require Import Prelude RustString Ast AstUtil Semantics.
Set Warnings "-rewrite-rw,-register-all,-clear-no-such-hyp".

(** ** Names an expression mentions *)

(** [mentions e]: the names read as variables ([Var] and [Old]), bound or free. *)
Fixpoint mentions (e : Expr) : list Ident :=
  match e with
  | ExprX_Const _ => []
  | ExprX_Var x => [x]
  | ExprX_Old _ x => [x]
  | ExprX_Apply _ es | ExprX_Multi _ es | ExprX_Array es => concat (map mentions es)
  | ExprX_ApplyFun _ e0 es => mentions e0 ++ concat (map mentions es)
  | ExprX_Unary _ e1 => mentions e1
  | ExprX_Binary _ e1 e2 => mentions e1 ++ mentions e2
  | ExprX_IfElse e1 e2 e3 => mentions e1 ++ mentions e2 ++ mentions e3
  | ExprX_Bind b e1 =>
    match b with
    | BindX_Let bs => concat (map (λ b, mentions (ba b)) bs)
    | BindX_Quant _ _ _ _ => []
    | BindX_Lambda _ _ _ w cond =>
      match w with Some w => mentions (wrap_id w) | None => [] end
      ++ match cond with Some c => mentions c | None => [] end
    | BindX_Choose _ _ _ cond => mentions cond
    end ++ mentions e1
  | ExprX_LabeledAxiom _ _ e1 | ExprX_LabeledAssertion _ _ _ e1 => mentions e1
  end.

(** The snapshots an expression reads. *)
Fixpoint reads_snaps (e : Expr) : list Ident :=
  match e with
  | ExprX_Const _ | ExprX_Var _ => []
  | ExprX_Old s _ => [s]
  | ExprX_Apply _ es | ExprX_Multi _ es | ExprX_Array es => concat (map reads_snaps es)
  | ExprX_ApplyFun _ e0 es => reads_snaps e0 ++ concat (map reads_snaps es)
  | ExprX_Unary _ e1 => reads_snaps e1
  | ExprX_Binary _ e1 e2 => reads_snaps e1 ++ reads_snaps e2
  | ExprX_IfElse e1 e2 e3 => reads_snaps e1 ++ reads_snaps e2 ++ reads_snaps e3
  | ExprX_Bind b e1 =>
    match b with
    | BindX_Let bs => concat (map (λ b, reads_snaps (ba b)) bs)
    | BindX_Quant _ _ _ _ => []
    | BindX_Lambda _ _ _ w cond =>
      match w with Some w => reads_snaps (wrap_id w) | None => [] end
      ++ match cond with Some c => reads_snaps c | None => [] end
    | BindX_Choose _ _ _ cond => reads_snaps cond
    end ++ reads_snaps e1
  | ExprX_LabeledAxiom _ _ e1 | ExprX_LabeledAssertion _ _ _ e1 => reads_snaps e1
  end.

(** The names an expression binds. *)
Fixpoint binds (e : Expr) : list Ident :=
  match e with
  | ExprX_Const _ | ExprX_Var _ | ExprX_Old _ _ => []
  | ExprX_Apply _ es | ExprX_Multi _ es | ExprX_Array es => concat (map binds es)
  | ExprX_ApplyFun _ e0 es => binds e0 ++ concat (map binds es)
  | ExprX_Unary _ e1 => binds e1
  | ExprX_Binary _ e1 e2 => binds e1 ++ binds e2
  | ExprX_IfElse e1 e2 e3 => binds e1 ++ binds e2 ++ binds e3
  | ExprX_Bind b e1 =>
    match b with
    | BindX_Let bs => map bname bs ++ concat (map (λ b, binds (ba b)) bs)
    | BindX_Quant _ bs _ _ => map bname bs
    | BindX_Lambda bs _ _ w cond =>
      map bname bs ++ match w with Some w => binds (wrap_id w) | None => [] end
      ++ match cond with Some c => binds c | None => [] end
    | BindX_Choose bs _ _ cond => map bname bs ++ binds cond
    end ++ binds e1
  | ExprX_LabeledAxiom _ _ e1 | ExprX_LabeledAssertion _ _ _ e1 => binds e1
  end.

Section facts.
Context (M : Interp).
Implicit Types (ρ : Env M) (e : Expr) (es : list Expr).

(** ** Environments *)

Lemma upd_eq ρ x v : upd ρ x v x = v.
Proof. simpl. by rewrite decide_True. Qed.

Lemma upd_ne ρ x y v : y ≠ x → upd ρ x v y = ρ y.
Proof. simpl. intros. by rewrite decide_False. Qed.

Lemma bind_env_ext ρ1 ρ2 xs vs y :
  ρ1 y = ρ2 y → bind_env M ρ1 xs vs y = bind_env M ρ2 xs vs y.
Proof.
  revert vs. induction xs as [|x xs IH]; intros [|v vs] H; simpl; try done.
  case_decide; auto.
Qed.

(** ** The value of an expression depends on what it mentions only *)

Definition agree (xs : list Ident) ρ1 ρ2 : Prop := Forall (λ x, ρ1 x = ρ2 x) xs.
Definition old_agree (ss : list Ident) (old1 old2 : Olds M) : Prop :=
  Forall (λ s, ∀ x, old1 s x = old2 s x) ss.

Lemma agree_app xs ys ρ1 ρ2 : agree (xs ++ ys) ρ1 ρ2 ↔ agree xs ρ1 ρ2 ∧ agree ys ρ1 ρ2.
Proof. apply Forall_app. Qed.
Lemma old_agree_app xs ys o1 o2 :
  old_agree (xs ++ ys) o1 o2 ↔ old_agree xs o1 o2 ∧ old_agree ys o1 o2.
Proof. apply Forall_app. Qed.

Lemma agree_bind xs ys vs ρ1 ρ2 :
  agree xs ρ1 ρ2 → agree xs (bind_env M ρ1 ys vs) (bind_env M ρ2 ys vs).
Proof. intros H. eapply Forall_impl; [exact H|]. intros x. apply bind_env_ext. Qed.

Definition eval_agrees (old1 old2 : Olds M) e : Prop :=
  ∀ ρ1 ρ2, agree (mentions e) ρ1 ρ2 → old_agree (reads_snaps e) old1 old2 →
    eval M old1 ρ1 e = eval M old2 ρ2 e.

Lemma eval_agree_list {A} (f : A → Expr) (l : list A) old1 old2 ρ1 ρ2 :
  Forall (λ x, eval_agrees old1 old2 (f x)) l →
  agree (concat (map (λ x, mentions (f x)) l)) ρ1 ρ2 →
  old_agree (concat (map (λ x, reads_snaps (f x)) l)) old1 old2 →
  map (λ x, eval M old1 ρ1 (f x)) l = map (λ x, eval M old2 ρ2 (f x)) l.
Proof.
  unfold agree, old_agree. rewrite !Forall_concat_map. intros H Hm Hs.
  apply map_ext_Forall. induction H as [|x l Hx _ IH]; [constructor|].
  inversion Hm; inversion Hs; subst. constructor; auto.
Qed.

Lemma eval_agree_bind old1 old2 b e :
  Forall (eval_agrees old1 old2) (bind_exprs b) → eval_agrees old1 old2 e →
  eval_agrees old1 old2 (ExprX_Bind b e).
Proof.
  intros Hb He ρ1 ρ2. destruct b as [bs|q bs ts qid|bs ts qid w c|bs ts qid c];
    cbn [eval mentions reads_snaps app]; rewrite ?agree_app ?old_agree_app.
  - intros [Hm1 Hm2] [Hs1 Hs2]. simpl in Hb. rewrite Forall_fmap in Hb.
    erewrite eval_agree_list; [|exact Hb|exact Hm1|exact Hs1].
    apply He; [|done]. by apply agree_bind.
  - intros Hm Hs. apply i_quant_ext. intros vs. apply He; [|done]. by apply agree_bind.
  - intros [[Hw Hc] Hm] [[Sw Sc] Sm]. simpl in Hb. rewrite !Forall_app in Hb.
    destruct Hb as (_ & Bw & Bc).
    assert (Hwrap : match w with Some w => Some (wrap w, eval M old1 ρ1 (wrap_id w))
                    | None => None end =
                    match w with Some w => Some (wrap w, eval M old2 ρ2 (wrap_id w))
                    | None => None end).
    { destruct w as [w|]; [|done]. simpl in Bw. rewrite Forall_singleton in Bw.
      by rewrite (Bw ρ1 ρ2). }
    rewrite Hwrap. apply i_lambda_ext; intros vs.
    + destruct c as [c|]; [|done]. simpl in Bc. rewrite Forall_singleton in Bc.
      f_equal. apply Bc; [|done]. by apply agree_bind.
    + apply He; [|done]. by apply agree_bind.
  - intros [Hc Hm] [Sc Sm]. simpl in Hb. rewrite Forall_app Forall_singleton in Hb.
    destruct Hb as [_ Bc].
    assert (Hch : ∀ vs, eval M old1 (bind_env M ρ1 (map bname bs) vs) c =
                        eval M old2 (bind_env M ρ2 (map bname bs) vs) c).
    { intros vs. apply Bc; [|done]. by apply agree_bind. }
    rewrite (i_choose_ext M _ _ _ Hch). apply He; [|done]. by apply agree_bind.
Qed.

Lemma eval_agree old1 old2 e : eval_agrees old1 old2 e.
Proof.
  induction e as [c|x|s x|x es IH|t e0 es IH0 IH|op e IH|op e1 e2 IH1 IH2|op es IH
    |e1 e2 e3 IH1 IH2 IH3|es IH|b e IHb IH|ls f e IH|i m f e IH] using ExprX_ind';
    [| | | | | | | | | |by apply eval_agree_bind|done|done];
    intros ρ1 ρ2; cbn [eval mentions reads_snaps]; rewrite ?agree_app ?old_agree_app.
  - done.
  - intros Hm _. rewrite /agree Forall_singleton in Hm. done.
  - intros Hm Hs. rewrite /agree Forall_singleton in Hm. rewrite /old_agree Forall_singleton in Hs. by rewrite Hs Hm.
  - intros Hm Hs. f_equal. by apply (eval_agree_list (λ e, e)).
  - intros [Hm0 Hm] [Hs0 Hs]. f_equal; [by apply IH0|]. by apply (eval_agree_list (λ e, e)).
  - intros Hm Hs. by rewrite (IH ρ1 ρ2).
  - intros [? ?] [? ?]. by rewrite (IH1 ρ1 ρ2) // (IH2 ρ1 ρ2).
  - intros Hm Hs. pose proof (eval_agree_list (λ e, e) es old1 old2 ρ1 ρ2 IH Hm Hs) as Heq.
    simpl in Heq. by rewrite Heq.
  - intros (? & ? & ?) (? & ? & ?). by rewrite (IH1 ρ1 ρ2) // (IH2 ρ1 ρ2) // (IH3 ρ1 ρ2).
  - intros Hm Hs. f_equal. by apply (eval_agree_list (λ e, e)).
Qed.

Lemma truth_agree old1 old2 ρ1 ρ2 e :
  agree (mentions e) ρ1 ρ2 → old_agree (reads_snaps e) old1 old2 →
  truth M old1 ρ1 e = truth M old2 ρ2 e.
Proof. intros. unfold truth. f_equal. by apply eval_agree. Qed.
End facts.

(** ** The simplifying connectives *)

Section connectives.
Context (M : Interp) (old : Olds M) (ρ : Env M).
Implicit Types (e : Expr) (es : list Expr).
#[local] Abbreviation tr := (truth M old ρ).

Lemma truth_const b : tr (ExprX_Const (Constant_Bool b)) = b.
Proof. apply i_truth_bool. Qed.

Lemma truth_and es : tr (ExprX_Multi MultiOp_And es) = forallb tr es.
Proof.
  unfold truth. cbn [eval]. rewrite i_truth_bool.
  induction es as [|e es IH]; simpl; [done|]. by rewrite IH.
Qed.

Lemma truth_or es : tr (ExprX_Multi MultiOp_Or es) = existsb tr es.
Proof.
  unfold truth. cbn [eval]. rewrite i_truth_bool.
  induction es as [|e es IH]; simpl; [done|]. by rewrite IH.
Qed.

Lemma truth_not e : tr (ExprX_Unary UnaryOp_Not e) = negb (tr e).
Proof. unfold truth. cbn [eval]. by rewrite i_truth_bool. Qed.

Lemma truth_implies e1 e2 : tr (ExprX_Binary BinaryOp_Implies e1 e2) = implb (tr e1) (tr e2).
Proof. unfold truth. cbn [eval]. by rewrite i_truth_bool. Qed.

Lemma truth_eq e1 e2 :
  tr (ExprX_Binary BinaryOp_Eq e1 e2) = true ↔ eval M old ρ e1 = eval M old ρ e2.
Proof. unfold truth. cbn [eval]. rewrite i_truth_bool. apply i_eqb_eq. Qed.

Lemma truth_xor e1 e2 : tr (ExprX_Multi MultiOp_Xor [e1; e2]) = xorb (tr e1) (tr e2).
Proof. unfold truth. cbn [eval map foldr]. by rewrite i_truth_bool xorb_false_r. Qed.

Lemma truth_ite e1 e2 e3 :
  tr (ExprX_IfElse e1 e2 e3) = if tr e1 then tr e2 else tr e3.
Proof. unfold truth at 1. cbn [eval]. fold (tr e1). by destruct (tr e1). Qed.

Lemma is_const_bool_true b e : is_const_bool b e = true → tr e = b.
Proof.
  destruct e as [[b'| | |]| | | | | | | | | | | |]; simpl; try done.
  intros ->%eqb_true_iff. apply truth_const.
Qed.

Lemma truth_mk_and es : tr (mk_and es) = forallb tr es.
Proof.
  unfold mk_and. destruct (existsb (is_const_bool false) es) eqn:Hf.
  - apply existsb_exists in Hf as (e & Hin & He%is_const_bool_true).
    rewrite truth_const. symmetry. apply not_true_is_false. intros Hall.
    rewrite forallb_forall in Hall. by rewrite Hall in He.
  - assert (Hfil : forallb tr es
                   = forallb tr (List.filter (λ e, negb (is_const_bool true e)) es)).
    { clear Hf. induction es as [|e es IH]; simpl; [done|].
      destruct (is_const_bool true e) eqn:He; simpl; [|by rewrite IH].
      by rewrite (is_const_bool_true true e He) IH. }
    rewrite Hfil. destruct (List.filter _ es) as [|e [|e' es']].
    + apply truth_const.
    + simpl. by rewrite andb_true_r.
    + apply truth_and.
Qed.

Lemma truth_mk_or es : tr (mk_or es) = existsb tr es.
Proof.
  unfold mk_or. destruct (existsb (is_const_bool true) es) eqn:Hf.
  - apply existsb_exists in Hf as (e & Hin & He%is_const_bool_true).
    rewrite truth_const. symmetry. apply existsb_exists. eauto.
  - assert (Hfil : existsb tr es
                   = existsb tr (List.filter (λ e, negb (is_const_bool false e)) es)).
    { clear Hf. induction es as [|e es IH]; simpl; [done|].
      destruct (is_const_bool false e) eqn:He; simpl; [|by rewrite IH].
      by rewrite (is_const_bool_true false e He) IH. }
    rewrite Hfil. destruct (List.filter _ es) as [|e [|e' es']].
    + apply truth_const.
    + simpl. by rewrite orb_false_r.
    + apply truth_or.
Qed.

Lemma truth_mk_not e : tr (mk_not e) = negb (tr e).
Proof.
  destruct e as [[[]| | |]| | | | |op e1| | | | | | |]; simpl;
    rewrite ?truth_const; try apply truth_not; try done.
  destruct op; try apply truth_not. by rewrite truth_not negb_involutive.
Qed.

(** A boolean constant, or none: the case split of the code's matches. *)
Lemma const_bool_cases e :
  (∃ b, e = ExprX_Const (Constant_Bool b)) ∨ ∀ b, is_const_bool b e = false.
Proof. destruct e as [[b| | |]| | | | | | | | | | | |]; eauto; by right. Qed.

Lemma mk_implies_nonconst e1 e2 :
  (∀ b, is_const_bool b e1 = false) → (∀ b, is_const_bool b e2 = false) →
  mk_implies e1 e2 = ExprX_Binary BinaryOp_Implies e1 e2.
Proof.
  intros H1 H2.
  destruct e1 as [[b1| | |]| | | | | | | | | | | |];
    try (by specialize (H1 b1); rewrite /= eqb_reflx in H1);
    destruct e2 as [[b2| | |]| | | | | | | | | | | |];
    try (by specialize (H2 b2); rewrite /= eqb_reflx in H2); done.
Qed.

Lemma truth_mk_implies e1 e2 : tr (mk_implies e1 e2) = implb (tr e1) (tr e2).
Proof.
  destruct (const_bool_cases e1) as [[[] ->]|H1].
  - by rewrite truth_const.
  - by rewrite /= !truth_const.
  - destruct (const_bool_cases e2) as [[b ->]|H2].
    + rewrite truth_const. destruct b.
      * destruct e1 as [[[]| | |]| | | | | | | | | | | |]; rewrite /= ?truth_const;
          by rewrite implb_true_r.
      * assert (He : mk_implies e1 (ExprX_Const (Constant_Bool false)) = mk_not e1)
          by (destruct e1 as [[[]| | |]| | | | | | | | | | | |]; done).
        rewrite He truth_mk_not. by destruct (tr e1).
    + by rewrite mk_implies_nonconst // truth_implies.
Qed.

Lemma truth_mk_xor e1 e2 : tr (mk_xor e1 e2) = xorb (tr e1) (tr e2).
Proof.
  destruct (const_bool_cases e1) as [[[] ->]|H1].
  - rewrite truth_const /= truth_mk_not. by destruct (tr e2).
  - rewrite truth_const /=. by destruct (tr e2).
  - destruct (const_bool_cases e2) as [[b ->]|H2].
    + assert (He : mk_xor e1 (ExprX_Const (Constant_Bool b)) = if b then mk_not e1 else e1).
      { destruct e1 as [[b1| | |]| | | | | | | | | | | |]; try (by destruct b).
        by specialize (H1 b1); rewrite /= eqb_reflx in H1. }
      rewrite He truth_const. destruct b; rewrite ?truth_mk_not; by destruct (tr e1).
    + assert (He : mk_xor e1 e2 = ExprX_Multi MultiOp_Xor [e1; e2]).
      { destruct e1 as [[b1| | |]| | | | | | | | | | | |];
          try (by specialize (H1 b1); rewrite /= eqb_reflx in H1);
          destruct e2 as [[b2| | |]| | | | | | | | | | | |];
          try (by specialize (H2 b2); rewrite /= eqb_reflx in H2); done. }
      by rewrite He truth_xor.
Qed.

(** The cases of [mk_ite], by what is known to be constant. *)
Definition const_of e : option bool :=
  match e with ExprX_Const (Constant_Bool b) => Some b | _ => None end.

Lemma const_of_truth e b : const_of e = Some b → tr e = b.
Proof. destruct e as [[]| | | | | | | | | | | |]; try done. intros [= ->]. apply truth_const. Qed.

Lemma mk_ite_cases e1 e2 e3 :
  mk_ite e1 e2 e3 =
  match const_of e1, const_of e2, const_of e3 with
  | Some true, _, _ => e2
  | Some false, _, _ => e3
  | None, _, Some true => mk_implies e1 e2
  | None, _, Some false => mk_and [e1; e2]
  | None, Some true, None => mk_implies (mk_not e1) e3
  | None, Some false, None => mk_and [mk_not e1; e3]
  | None, None, None => ExprX_IfElse e1 e2 e3
  end.
Proof.
  destruct e1 as [[[]| | |]| | | | | | | | | | | |]; try reflexivity;
    destruct e3 as [[[]| | |]| | | | | | | | | | | |]; try reflexivity;
    destruct e2 as [[[]| | |]| | | | | | | | | | | |]; reflexivity.
Qed.

Lemma truth_mk_ite e1 e2 e3 :
  tr (mk_ite e1 e2 e3) = if tr e1 then tr e2 else tr e3.
Proof.
  rewrite mk_ite_cases.
  destruct (const_of e1) as [[]|] eqn:H1; [by rewrite (const_of_truth _ _ H1)..|].
  destruct (const_of e3) as [[]|] eqn:H3;
    rewrite ?(const_of_truth _ _ H3).
  - assert (Hm : ∀ o : option bool, match o with Some true | _ => mk_implies e1 e2 end
      = mk_implies e1 e2) by (by intros [[]|]).
    rewrite Hm truth_mk_implies. by destruct (tr e1), (tr e2).
  - assert (Hm : ∀ o : option bool, match o with Some true | _ => mk_and [e1; e2] end
      = mk_and [e1; e2]) by (by intros [[]|]).
    rewrite Hm truth_mk_and /=. by destruct (tr e1), (tr e2).
  - destruct (const_of e2) as [[]|] eqn:H2;
      rewrite ?(const_of_truth _ _ H2) ?truth_mk_implies ?truth_mk_and /= ?truth_mk_not.
    + by destruct (tr e1), (tr e3).
    + by destruct (tr e1), (tr e3).
    + apply truth_ite.
Qed.
End connectives.

(** The constructors that simplify constants build an expression with the truth value
    of the plain connective. *)
Theorem connectives_keep_truth (M : Interp) (old : Olds M) (ρ : Env M) :
  (∀ es, truth M old ρ (mk_and es) = forallb (truth M old ρ) es)
  ∧ (∀ es, truth M old ρ (mk_or es) = existsb (truth M old ρ) es)
  ∧ (∀ e, truth M old ρ (mk_not e) = negb (truth M old ρ e))
  ∧ (∀ e1 e2, truth M old ρ (mk_implies e1 e2) = implb (truth M old ρ e1) (truth M old ρ e2))
  ∧ (∀ e1 e2, truth M old ρ (mk_xor e1 e2) = xorb (truth M old ρ e1) (truth M old ρ e2))
  ∧ ∀ e1 e2 e3, truth M old ρ (mk_ite e1 e2 e3)
      = if truth M old ρ e1 then truth M old ρ e2 else truth M old ρ e3.
Proof.
  split_and!; intros; auto using truth_mk_and, truth_mk_or, truth_mk_not, truth_mk_implies,
    truth_mk_xor, truth_mk_ite.
Qed.
