(* ===== verification/StmtFacts.v ===== *)
(** * Facts about statements

    Static information about statements and the weakest-precondition equations
    of those without assignments ([passive]), which both lowering passes use. *)

From S2P Require Import Prelude RustString Ast AstUtil Semantics ExprFacts.
Set Warnings "-rewrite-rw,-register-all,-clear-no-such-hyp".

(** ** What occurs in a statement *)

Fixpoint stmt_exprs (s : Stmt) : list Expr :=
  match s with
  | StmtX_Assume e | StmtX_Assert _ _ _ e | StmtX_Assign _ e => [e]
  | StmtX_Havoc _ | StmtX_Snapshot _ | StmtX_Break _ => []
  | StmtX_DeadEnd s | StmtX_Breakable _ s => stmt_exprs s
  | StmtX_Block ss | StmtX_Switch ss => concat (map stmt_exprs ss)
  end.

(** The labels of the [Breakable]s of a statement. *)
Fixpoint declared_labels (s : Stmt) : list Ident :=
  match s with
  | StmtX_Breakable l s => l :: declared_labels s
  | StmtX_DeadEnd s => declared_labels s
  | StmtX_Block ss | StmtX_Switch ss => concat (map declared_labels ss)
  | _ => []
  end.

(** The labels of [Break]s that are not caught in the statement. *)
Fixpoint free_breaks (s : Stmt) : list Ident :=
  match s with
  | StmtX_Break l => [l]
  | StmtX_Breakable l s => filter (λ l', l' ≠ l) (free_breaks s)
  | StmtX_DeadEnd s => free_breaks s
  | StmtX_Block ss | StmtX_Switch ss => concat (map free_breaks ss)
  | _ => []
  end.

Fixpoint switch_count (s : Stmt) : N :=
  match s with
  | StmtX_DeadEnd s | StmtX_Breakable _ s => switch_count s
  | StmtX_Block ss => foldr (λ s n, switch_count s + n)%N 0%N ss
  | StmtX_Switch ss => 1 + foldr (λ s n, switch_count s + n)%N 0%N ss
  | _ => 0
  end.

(** Statements left by the assignment-removing pass. *)
Fixpoint passive (s : Stmt) : bool :=
  match s with
  | StmtX_Havoc _ | StmtX_Assign _ _ | StmtX_Snapshot _ => false
  | StmtX_DeadEnd s | StmtX_Breakable _ s => passive s
  | StmtX_Block ss | StmtX_Switch ss => forallb passive ss
  | _ => true
  end.

(** Every label is declared once and used inside its own [Breakable] only, as
    [check_stmt] makes sure. *)
Definition labels_ok (s : Stmt) : Prop :=
  NoDup (declared_labels s) ∧ (∀ l, l ∈ free_breaks s → l ∉ declared_labels s).

Lemma labels_ok_breakable l s : labels_ok (StmtX_Breakable l s) → labels_ok s ∧ l ∉ declared_labels s.
Proof.
  intros [Hnd Hf]. simpl in Hnd. apply NoDup_cons in Hnd as [Hl Hnd].
  split; [split; [done|]|done]. intros l' Hl' Hd.
  destruct (decide (l' = l)) as [->|Hne]; [done|].
  apply (Hf l'); simpl; [|by right]. apply list_elem_of_filter. done.
Qed.

(** [labels_ok] for a list of statements side by side. *)
Definition labels_ok_list (ss : list Stmt) : Prop :=
  NoDup (concat (map declared_labels ss))
  ∧ (∀ l, l ∈ concat (map free_breaks ss) → l ∉ concat (map declared_labels ss)).

Lemma labels_ok_cons s ss :
  labels_ok_list (s :: ss) →
  labels_ok s ∧ labels_ok_list ss
  ∧ (∀ l, l ∈ declared_labels s → l ∉ concat (map declared_labels ss))
  ∧ (∀ l, l ∈ free_breaks s → l ∉ concat (map declared_labels ss))
  ∧ (∀ l, l ∈ concat (map free_breaks ss) → l ∉ declared_labels s).
Proof.
  intros [Hnd Hf]. simpl in Hnd. apply NoDup_app in Hnd as (Hnd1 & Hdis & Hnd2).
  simpl in Hf. split; [split|split; [split|split; [|split]]]; try done.
  - intros l H1 H2. apply (Hf l); apply elem_of_app; by left.
  - intros l H1 H2. apply (Hf l); apply elem_of_app; by right.
  - intros l H1 H2. apply (Hf l); apply elem_of_app; [by left|by right].
  - intros l H1 H2. apply (Hf l); apply elem_of_app; [by right|by left].
Qed.

Section passive.
Context (M : Interp) (Γ : Vars).
Implicit Types (σ : State M) (s : Stmt) (ss : list Stmt).

(** ** Executions of passive statements *)

Definition final_state (o : outcome M) : option (State M) :=
  match o with ONormal σ | OBreak _ σ => Some σ | OFail _ => None end.

Lemma state_eta σ : mkState (env σ) (snaps σ) = σ.
Proof. by destruct σ. Qed.

Lemma passive_block_state ss σ o σ' :
  Forall (λ s, ∀ σ o σ', exec M Γ s σ o → final_state o = Some σ' → σ' = σ) ss →
  exec_block M (exec M Γ) ss σ o → final_state o = Some σ' → σ' = σ.
Proof.
  intros Hall. revert σ. induction Hall as [|s ss Hs _ IH]; intros σ; simpl.
  - by intros -> [= ->].
  - intros [(σ1 & H1 & H2)|[H1 _]] Hf; [|by eapply Hs].
    apply (Hs _ _ σ1) in H1 as ->; [|done]. eauto.
Qed.

Lemma passive_switch_state ss σ o σ' :
  Forall (λ s, ∀ σ o σ', exec M Γ s σ o → final_state o = Some σ' → σ' = σ) ss →
  exec_switch M (exec M Γ) ss σ o → final_state o = Some σ' → σ' = σ.
Proof.
  induction 1 as [|s ss Hs _ IH]; simpl; [done|].
  intros [(o' & H1 & ->)|H1] Hf; [|by apply IH].
  destruct o' as [σ1|l σ1|aid]; simpl in Hf; [| |done].
  - injection Hf as <-. rewrite (Hs σ (ONormal σ1) σ1) //. apply state_eta.
  - by eapply (Hs σ (OBreak l σ1)).
Qed.

Lemma passive_state s σ o σ' :
  passive s = true → exec M Γ s σ o → final_state o = Some σ' → σ' = σ.
Proof.
  revert σ o σ'.
  induction s as [e|i m f e|x|x e|x|s IH|l s IH|l|ss IH|ss IH] using StmtX_ind';
    intros σ o σ' Hp; simpl in *; try done.
  - by intros [_ ->] [= ->].
  - intros ->. case_match; [by intros [= ->]|done].
  - intros [->|[H _]]; [by intros [= ->]|]. by apply IH.
  - intros (o' & H & ->) Hf. destruct o' as [σ1|l' σ1|]; simpl in Hf; [by eapply IH in H| |done].
    case_decide; simplify_eq/=; by eapply IH in H.
  - by intros -> [= ->].
  - apply passive_block_state. rewrite forallb_forall in Hp.
    apply Forall_forall. rewrite Forall_forall in IH. intros s Hin ???. apply IH; [done|].
    apply Hp. by apply list_elem_of_In.
  - apply passive_switch_state. rewrite forallb_forall in Hp.
    apply Forall_forall. rewrite Forall_forall in IH. intros s Hin ???. apply IH; [done|].
    apply Hp. by apply list_elem_of_In.
Qed.

(** ** Weakest preconditions

    [Q]: the normal postcondition; [B l]: the postcondition of [Break l]. *)
Definition wp σ s (Q : Prop) (B : Ident → Prop) : Prop :=
  (∀ aid, ¬ exec M Γ s σ (OFail aid))
  ∧ (exec M Γ s σ (ONormal σ) → Q)
  ∧ (∀ l, exec M Γ s σ (OBreak l σ) → B l).

Lemma wp_iff σ s Q Q' B B' :
  (Q ↔ Q') → (∀ l, exec M Γ s σ (OBreak l σ) → B l ↔ B' l) → wp σ s Q B ↔ wp σ s Q' B'.
Proof. unfold wp. intros HQ HB. naive_solver. Qed.

#[global] Instance wp_proper σ s :
  Proper (iff ==> pointwise_relation _ iff ==> iff) (wp σ s).
Proof. intros Q Q' HQ B B' HB. apply wp_iff; [done|]. intros l _. apply HB. Qed.

(** [wp] is conjunctive in its normal postcondition. *)
Lemma wp_forall {A} (x0 : A) (P : A → Prop) σ s (Q : A → Prop) B :
  P x0 → (∀ x, P x → wp σ s (Q x) B) ↔ wp σ s (∀ x, P x → Q x) B.
Proof. unfold wp. intros H0. naive_solver. Qed.

Lemma wp_assume σ e Q B : wp σ (StmtX_Assume e) Q B ↔ (holds M Γ σ e = true → Q).
Proof. unfold wp. simpl. naive_solver. Qed.

Lemma wp_assert σ i m f e Q B :
  wp σ (StmtX_Assert i m f e) Q B ↔ holds M Γ σ e = true ∧ Q.
Proof. unfold wp. simpl. destruct (holds M Γ σ e); naive_solver. Qed.

Lemma wp_break σ l Q B : wp σ (StmtX_Break l) Q B ↔ B l.
Proof. unfold wp. simpl. naive_solver. Qed.

Lemma wp_deadend σ s Q B : wp σ (StmtX_DeadEnd s) Q B ↔ wp σ s True B ∧ Q.
Proof. unfold wp. simpl. naive_solver. Qed.

Lemma wp_breakable σ l s Q B :
  passive s = true →
  wp σ (StmtX_Breakable l s) Q B ↔ wp σ s Q (λ l', if decide (l' = l) then Q else B l').
Proof.
  intros Hp. unfold wp. simpl. split.
  - intros (Hf & HQ & HB). split_and!.
    + intros aid H. apply (Hf aid). by exists (OFail aid).
    + intros H. apply HQ. by exists (ONormal σ).
    + intros l' H. case_decide as Hl.
      * subst l'. apply HQ. exists (OBreak l σ). simpl. by rewrite decide_True.
      * apply HB. exists (OBreak l' σ). simpl. by rewrite decide_False.
  - intros (Hf & HQ & HB). split_and!.
    + intros aid (o' & H & Ho). destruct o' as [|l' ?|]; simpl in Ho; try done.
      * by case_decide.
      * injection Ho as ->. by apply (Hf aid0).
    + intros (o' & H & Ho). destruct o' as [|l' ?|]; simpl in Ho; try done.
      * injection Ho as ->. auto.
      * case_decide; [|done]. injection Ho as <-. subst l'.
        specialize (HB l H). by rewrite decide_True in HB.
    + intros l'' (o' & H & Ho). destruct o' as [|l' ?|]; simpl in Ho; try done.
      case_decide; [done|]. injection Ho as <- <-.
      specialize (HB _ H). by rewrite decide_False in HB.
Qed.

(** Sequences and choices. *)
Definition wp_block σ ss (Q : Prop) (B : Ident → Prop) : Prop :=
  foldr (λ s R, wp σ s R B) Q ss.

Lemma wp_Block σ ss Q B :
  Forall (λ s, passive s = true) ss → wp σ (StmtX_Block ss) Q B ↔ wp_block σ ss Q B.
Proof.
  unfold wp_block. induction 1 as [|s ss Hp _ IH]; simpl.
  - unfold wp. simpl. naive_solver.
  - etrans; [|apply (wp_iff _ s _ _ B B IH); done]. unfold wp. simpl.
    assert (Hst : ∀ σ', exec M Γ s σ (ONormal σ') → σ' = σ)
      by (intros σ' H; eapply passive_state; eauto).
    split.
    + intros (Hf & HQ & HB). split_and!; naive_solver.
    + intros (Hf & HQ & HB). split_and!.
      * intros aid [(σ' & H1 & H2)|[H _]]; [|by apply (Hf aid)].
        pose proof (Hst _ H1) as ->. destruct (HQ H1) as [Hno _]. by apply (Hno aid).
      * intros [(σ' & H1 & H2)|[_ H]]; [|done]. pose proof (Hst _ H1) as ->. naive_solver.
      * intros l [(σ' & H1 & H2)|[H _]]; [|by apply HB]. pose proof (Hst _ H1) as ->.
        naive_solver.
Qed.

Lemma wp_Switch σ ss Q B :
  Forall (λ s, passive s = true) ss →
  wp σ (StmtX_Switch ss) Q B ↔ Forall (λ s, wp σ s Q B) ss.
Proof.
  induction 1 as [|s ss Hp Hps IH]; simpl.
  - unfold wp. simpl. split; [constructor|]. intros _. split_and!; try done. by intros ? [].
  - rewrite Forall_cons -IH. unfold wp. simpl.
    assert (Hst : ∀ σ', exec M Γ s σ (ONormal σ') → σ' = σ)
      by (intros σ' H; eapply passive_state; eauto).
    split.
    + intros (Hf & HQ & HB). split; split_and!.
      * intros aid H. apply (Hf aid). left. by exists (OFail aid).
      * intros H. apply HQ. left. exists (ONormal σ). by rewrite /= state_eta.
      * intros l H. apply HB. left. by exists (OBreak l σ).
      * intros aid H. apply (Hf aid). by right.
      * intros H. apply HQ. by right.
      * intros l H. apply HB. by right.
    + intros ((Hf1 & HQ1 & HB1) & Hf2 & HQ2 & HB2). split_and!.
      * intros aid [(o' & H & Ho)|H]; [|by apply (Hf2 aid)].
        destruct o'; simplify_eq/=. by eapply Hf1.
      * intros [(o' & H & Ho)|H]; [|by apply HQ2].
        destruct o' as [σ1| |]; simplify_eq/=. apply HQ1. by rewrite -{2}(Hst _ H).
      * intros l [(o' & H & Ho)|H]; [|by apply HB2].
        destruct o' as [σ1| |]; simplify_eq/=. by apply HB1.
Qed.

(** ** What [wp] depends on *)

Definition exprs_agree s (ρ1 ρ2 : Env M) : Prop :=
  Forall (λ e, agree M (mentions e) ρ1 ρ2) (stmt_exprs s).

Lemma holds_agree ρ1 ρ2 sn e :
  agree M (mentions e) ρ1 ρ2 → holds M Γ (mkState ρ1 sn) e = holds M Γ (mkState ρ2 sn) e.
Proof. intros. apply truth_agree; [done|]. by apply Forall_forall. Qed.

Lemma wp_agree ρ1 ρ2 sn s Q B :
  passive s = true → exprs_agree s ρ1 ρ2 →
  wp (mkState ρ1 sn) s Q B ↔ wp (mkState ρ2 sn) s Q B.
Proof.
  revert Q B.
  induction s as [e|i m f e|x|x e|x|s IH|l s IH|l|ss IH|ss IH] using StmtX_ind';
    intros Q B Hp Ha; simpl in Hp; try done; unfold exprs_agree in Ha; simpl in Ha.
  - rewrite Forall_singleton in Ha. by rewrite !wp_assume (holds_agree ρ1 ρ2).
  - rewrite Forall_singleton in Ha. by rewrite !wp_assert (holds_agree ρ1 ρ2).
  - by rewrite !wp_deadend IH.
  - by rewrite !wp_breakable // IH.
  - by rewrite !wp_break.
  - rewrite forallb_forall in Hp. rewrite Forall_concat_map in Ha.
    assert (Hps : Forall (λ s, passive s = true) ss)
      by (apply Forall_forall; intros s ?%list_elem_of_In; auto).
    rewrite !wp_Block //. unfold wp_block. clear Hp.
    induction ss as [|s ss IHss]; simpl; [done|].
    inversion IH as [|? ? IHs IHl]; inversion Ha; inversion Hps; subst.
    rewrite (IHs _ B) //. apply wp_iff; [by apply IHss|done].
  - rewrite forallb_forall in Hp. rewrite Forall_concat_map in Ha.
    assert (Hps : Forall (λ s, passive s = true) ss)
      by (apply Forall_forall; intros s ?%list_elem_of_In; auto).
    rewrite !wp_Switch //. clear Hp.
    induction ss as [|s ss IHss]; [done|].
    inversion IH as [|? ? IHs IHl]; inversion Ha; inversion Hps; subst.
    rewrite !Forall_cons (IHs Q B) // IHss //.
Qed.
End passive.

(** A break that leaves a statement is one of its free breaks. *)
Lemma exec_break_free M Γ s : ∀ σ l σ', exec M Γ s σ (OBreak l σ') → l ∈ free_breaks s.
Proof.
  induction s as [e|i m f e|x|x e|x|s IH|l s IH|l|ss IH|ss IH] using StmtX_ind';
    intros σ l' σ'; simpl.
  - by intros [_ ?].
  - by case_match.
  - by intros (? & ? & _ & _ & ?).
  - done.
  - done.
  - intros [?|[H _]]; [done|]. by eapply IH.
  - intros (o' & H & Ho). destruct o' as [|l'' ?|]; simpl in Ho; try done.
    case_decide; [done|]. injection Ho as -> ->. apply list_elem_of_filter.
    split; [done|]. by eapply IH.
  - intros [= -> ->]. by left.
  - revert σ. induction IH as [|s ss Hs _ IHss]; intros σ; simpl; [done|].
    rewrite elem_of_app. intros [(σ1 & _ & H)|[H _]]; [right; by eapply IHss|left; by eapply Hs].
  - induction IH as [|s ss Hs _ IHss]; simpl; [done|].
    rewrite elem_of_app. intros [(o' & H & Ho)|H]; [|right; by apply IHss].
    destruct o'; simpl in Ho; try done. injection Ho as -> ->. left. by eapply Hs.
Qed.
