(* ===== verification/BlockToAssert.v ===== *)
(** * From a block-structured query to one assertion (source/air/src/block_to_assert.rs)

    [stmt_to_expr] computes the weakest precondition of a statement without
    assignments, with a fresh boolean constant standing for the postcondition at
    each [Breakable] and [Switch] so that the postcondition is not copied. *)

From S2P Require Import Prelude RustString Ast AstUtil Semantics ExprFacts.
Set Warnings "-rewrite-rw,-register-all,-clear-no-such-hyp".

(** ** The pass *)

(** The mutable state: [label_n] ([u64]) and the declarations pushed so far. *)
Definition WpState := (N * list Decl)%type.

Definition switch_label (n : N) : Ident := SWITCH_LABEL +:+ N_to_string n.

Section lists.
Context (f : Stmt → WpState → Expr → res Empty_set (Expr * WpState)).

(** [for stmt in stmts.iter().rev() { p = stmt_to_expr(.., stmt, p) }] *)
Fixpoint block_to_expr (stmts : list Stmt) (st : WpState) (pred : Expr)
    : res Empty_set (Expr * WpState) :=
  match stmts with
  | [] => Ok (pred, st)
  | stmt :: stmts' =>
    rbind (block_to_expr stmts' st pred) (λ '(p, st'), f stmt st' p)
  end.

(** [for stmt in stmts.iter() { exprs.push(stmt_to_expr(.., stmt, exp_label)) }] *)
Fixpoint switch_to_exprs (stmts : list Stmt) (st : WpState) (exp_label : Expr)
    : res Empty_set (list Expr * WpState) :=
  match stmts with
  | [] => Ok ([], st)
  | stmt :: stmts' =>
    rbind (f stmt st exp_label) (λ '(e, st1),
    rbind (switch_to_exprs stmts' st1 exp_label) (λ '(es, st2),
    Ok (e :: es, st2)))
  end.
End lists.

(** [oc]: whether the addition on [label_n] is overflow-checked. *)
Fixpoint stmt_to_expr (oc : bool) (stmt : Stmt) (st : WpState) (pred : Expr) {struct stmt}
    : res Empty_set (Expr * WpState) :=
  match stmt with
  | StmtX_Assume e => Ok (mk_implies e pred, st)
  | StmtX_Assert assert_id span filter e =>
    Ok (mk_and [ExprX_LabeledAssertion assert_id span filter e; pred], st)
  | StmtX_Havoc _ | StmtX_Assign _ _ | StmtX_Snapshot _ => Panic
  | StmtX_DeadEnd stmt =>
    rbind (stmt_to_expr oc stmt st mk_true) (λ '(wps, st1),
    Ok (mk_and [wps; pred], st1))
  | StmtX_Breakable label stmt =>
    let label := break_label label in
    let st1 := (st.1, st.2 ++ [DeclX_Const label bool_typ]) in
    let exp_label := ExprX_Var label in
    rbind (stmt_to_expr oc stmt st1 exp_label) (λ '(lhs, st2),
    let neg_label := ExprX_Unary UnaryOp_Not exp_label in
    let and := mk_and [neg_label; pred] in
    Ok (mk_or [and; lhs], st2))
  | StmtX_Break label => Ok (ExprX_Var (break_label label), st)
  | StmtX_Block stmts => block_to_expr (stmt_to_expr oc) stmts st pred
  | StmtX_Switch stmts =>
    let label := switch_label st.1 in
    rbind (u64_add oc st.1 1) (λ label_n,
    let st1 := (label_n, st.2 ++ [DeclX_Const label bool_typ]) in
    let exp_label := ExprX_Var label in
    rbind (switch_to_exprs (stmt_to_expr oc) stmts st1 exp_label) (λ '(exprs, st2),
    let neg_label := ExprX_Unary UnaryOp_Not exp_label in
    let and1 := mk_and exprs in
    let and2 := mk_and [neg_label; pred] in
    Ok (mk_or [and1; and2], st2)))
  end.

(** [lower_query]; [empty_message] is [message_interface.empty()]. *)
Definition lower_query (oc : bool) (empty_message : ArcDynMessage) (query : Query)
    : res Empty_set Query :=
  rbind (stmt_to_expr oc (assertion query) (0%N, local query) mk_true) (λ '(e, st),
  Ok (mkQuery st.2 (StmtX_Assert None empty_message None e))).
