(* ===== verification/BlockToAssertCorrect.v ===== *)
(** * Correctness of the block lowering

    For a passive statement, the expression [stmt_to_expr] builds is true for all
    values of the fresh labels exactly when the statement cannot fail and its
    normal end and its breaks satisfy their postconditions.  Hence the lowered
    query, which is one assertion, is safe exactly when the query is. *)

From S2P Require Import Prelude RustString Ast AstUtil Semantics ExprFacts StmtFacts BlockToAssert.
Set Warnings "-rewrite-rw,-register-all,-clear-no-such-hyp".

(** ** Names *)

Definition is_label (x : Ident) : bool := starts_with BREAK_LABEL x || starts_with SWITCH_LABEL x.

#[global] Instance switch_label_inj : Inj (=) (=) switch_label.
Proof.
  intros m n H. unfold switch_label, SWITCH_LABEL in H. simpl in H.
  repeat injection H as H. by apply (inj N_to_string).
Qed.

Lemma is_label_break l : is_label (break_label l) = true.
Proof. unfold is_label, break_label. by rewrite starts_with_app. Qed.

Lemma is_label_switch n : is_label (switch_label n) = true.
Proof. unfold is_label, switch_label. rewrite starts_with_app. apply orb_true_r. Qed.

(** No expression of the statement mentions a name the pass generates. *)
Definition no_labels_expr (e : Expr) : Prop := ∀ x, x ∈ mentions e → is_label x = false.
Definition no_labels (s : Stmt) : Prop := Forall no_labels_expr (stmt_exprs s).

(** ** What the constructors mention *)

Definition mention_all (es : list Expr) (x : Ident) : Prop := ∃ e, e ∈ es ∧ x ∈ mentions e.

Lemma mentions_list es x : x ∈ concat (map mentions es) ↔ mention_all es x.
Proof.
  unfold mention_all. induction es as [|e es IH]; simpl.
  - split; [by intros ?%not_elem_of_nil|]. by intros (e & ?%not_elem_of_nil & _).
  - rewrite elem_of_app IH. split.
    + intros [H|(e' & H1 & H2)]; [exists e|exists e']; rewrite elem_of_cons; auto.
    + intros (e' & [->|H1]%elem_of_cons & H2); [auto|right; eauto].
Qed.

Lemma mention_filter (p : Expr → bool) es x :
  mention_all (List.filter p es) x → mention_all es x.
Proof.
  intros (e & He & Hx). exists e. split; [|done].
  apply list_elem_of_In in He. apply filter_In in He as [He _]. by apply list_elem_of_In.
Qed.

Lemma mentions_mk_and es x : x ∈ mentions (mk_and es) → mention_all es x.
Proof.
  unfold mk_and. destruct (existsb _ es); [by intros ?%not_elem_of_nil|].
  intros H. eapply (mention_filter (λ e, negb (is_const_bool true e))).
  destruct (List.filter _ es) as [|e [|e' es']].
  - by apply not_elem_of_nil in H.
  - exists e. by rewrite list_elem_of_singleton.
  - by apply mentions_list.
Qed.

Lemma mentions_mk_or es x : x ∈ mentions (mk_or es) → mention_all es x.
Proof.
  unfold mk_or. destruct (existsb _ es); [by intros ?%not_elem_of_nil|].
  intros H. eapply (mention_filter (λ e, negb (is_const_bool false e))).
  destruct (List.filter _ es) as [|e [|e' es']].
  - by apply not_elem_of_nil in H.
  - exists e. by rewrite list_elem_of_singleton.
  - by apply mentions_list.
Qed.

Lemma mentions_mk_not e x : x ∈ mentions (mk_not e) → x ∈ mentions e.
Proof.
  destruct e as [[[]| | |]| | | | |op e1| | | | | | |]; simpl;
    try done; try by intros ?%not_elem_of_nil.
  destruct op; done.
Qed.

Lemma mentions_mk_implies e1 e2 x :
  x ∈ mentions (mk_implies e1 e2) → x ∈ mentions e1 ∨ x ∈ mentions e2.
Proof.
  destruct (const_bool_cases e1) as [[[] ->]|H1].
  { by right. }
  { simpl. by intros ?%not_elem_of_nil. }
  destruct (const_bool_cases e2) as [[[] ->]|H2].
  - assert (mk_implies e1 (ExprX_Const (Constant_Bool true)) = mk_true) as ->.
    { destruct e1 as [[b1| | |]| | | | | | | | | | | |]; try done; by destruct b1. }
    by intros ?%not_elem_of_nil.
  - assert (mk_implies e1 (ExprX_Const (Constant_Bool false)) = mk_not e1) as ->.
    { destruct e1 as [[b1| | |]| | | | | | | | | | | |]; try done; by destruct b1. }
    intros ?%mentions_mk_not. by left.
  - rewrite mk_implies_nonconst //=. by intros ?%elem_of_app.
Qed.

Lemma mention_two e1 e2 x : mention_all [e1; e2] x → x ∈ mentions e1 ∨ x ∈ mentions e2.
Proof.
  intros (e & He & Hx). apply elem_of_cons in He as [->|He]; [by left|].
  apply list_elem_of_singleton in He as ->. by right.
Qed.

(** ** Quantifying over the labels *)

Section labels.
Context (M : Interp) (Γ : Vars).
Implicit Types (ρ : Env M) (L : list Ident).

Definition differs L ρ ρ' : Prop :=
  (∀ x, x ∉ L → ρ' x = ρ x) ∧ (∀ x, x ∈ L → i_typ M TypX_Bool (ρ' x)).

Definition all_over L ρ (F : Env M → Prop) : Prop := ∀ ρ', differs L ρ ρ' → F ρ'.

Definition ignores L (F : Env M → Prop) : Prop :=
  ∀ ρ ρ', (∀ x, x ∉ L → ρ x = ρ' x) → F ρ → F ρ'.

Definition reset L ρ ρ0 : Env M := λ x, if decide (x ∈ L) then ρ0 x else ρ x.

Lemma reset_in L ρ ρ0 x : x ∈ L → reset L ρ ρ0 x = ρ0 x.
Proof. intros. unfold reset. by rewrite decide_True. Qed.
Lemma reset_out L ρ ρ0 x : x ∉ L → reset L ρ ρ0 x = ρ x.
Proof. intros. unfold reset. by rewrite decide_False. Qed.

Lemma differs_exists L ρ b : differs L ρ (reset L ρ (λ _, i_bool M b)).
Proof.
  split; intros x Hx; [by apply reset_out|]. rewrite reset_in //. apply i_typ_bool.
Qed.

Lemma all_over_nil ρ F : ignores [] F → all_over [] ρ F ↔ F ρ.
Proof.
  intros Hig. split.
  - intros H. apply H. split; [done|]. by intros x ?%not_elem_of_nil.
  - intros H ρ' [Hd _]. apply (Hig ρ); [|done]. intros x Hx. by rewrite Hd.
Qed.

Lemma all_over_ignored L ρ F : ignores L F → all_over L ρ F ↔ F ρ.
Proof.
  intros Hig. split.
  - intros H. apply (Hig (reset L ρ (λ _, i_bool M true))).
    + intros x Hx. by rewrite reset_out.
    + apply H, differs_exists.
  - intros H ρ' [Hd _]. apply (Hig ρ); [|done]. intros x Hx. by rewrite Hd.
Qed.

(** Only the labels that matter need to be quantified. *)
Lemma all_over_frame L L' L'' ρ F :
  (∀ x, x ∈ L'' ↔ x ∈ L ∨ x ∈ L') → ignores L' F → all_over L'' ρ F ↔ all_over L ρ F.
Proof.
  intros HL Hig. split; intros H ρ' [Hd Ht].
  - apply (Hig (reset L'' ρ' (λ x, if decide (x ∈ L) then ρ' x else i_bool M true))).
    + intros x Hx. destruct (decide (x ∈ L'')) as [Hin|Hin]; [|by rewrite reset_out].
      rewrite reset_in //. apply HL in Hin as [Hin|]; [|done]. by rewrite decide_True.
    + apply H. split; intros x Hx.
      * rewrite reset_out //. apply Hd. intros HxL. apply Hx, HL. by left.
      * rewrite reset_in //. case_decide; [by apply Ht|]. apply i_typ_bool.
  - apply (Hig (reset L ρ ρ')).
    + intros x Hx. destruct (decide (x ∈ L)); [by rewrite reset_in|].
      rewrite reset_out // Hd //. rewrite HL. tauto.
    + apply H. split; intros x Hx; [by rewrite reset_out|]. rewrite reset_in //.
      apply Ht, HL. by left.
Qed.

Lemma all_over_split L1 L2 L ρ F :
  (∀ x, x ∈ L ↔ x ∈ L1 ∨ x ∈ L2) →
  all_over L ρ F ↔ all_over L1 ρ (λ ρ1, all_over L2 ρ1 F).
Proof.
  intros HL. split.
  - intros H ρ1 [Hd1 Ht1] ρ2 [Hd2 Ht2]. apply H. split.
    + intros x Hx. rewrite Hd2; [|apply Hd1]; intros ?; apply Hx, HL; tauto.
    + intros x Hx. destruct (decide (x ∈ L2)) as [Hin|Hin]; [by apply Ht2|].
      rewrite Hd2 //. apply Ht1. apply HL in Hx. tauto.
  - intros H ρ' [Hd Ht]. apply (H (reset L1 ρ ρ')).
    + split; intros x Hx; [by rewrite reset_out|]. rewrite reset_in //. apply Ht, HL. by left.
    + split; intros x Hx; [|apply Ht, HL; by right].
      destruct (decide (x ∈ L1)); [by rewrite reset_in|].
      rewrite reset_out // Hd //. rewrite HL. tauto.
Qed.

Lemma all_over_iff L ρ F G :
  (∀ ρ', differs L ρ ρ' → F ρ' ↔ G ρ') → all_over L ρ F ↔ all_over L ρ G.
Proof. intros H. split; intros HF ρ' Hd; apply (H _ Hd), HF, Hd. Qed.

Lemma all_over_and L ρ F G : all_over L ρ (λ ρ', F ρ' ∧ G ρ') ↔ all_over L ρ F ∧ all_over L ρ G.
Proof. unfold all_over. naive_solver. Qed.

Lemma truth_ignores L old e :
  (∀ x, x ∈ L → x ∉ mentions e) → ignores L (λ ρ, truth M old ρ e = true).
Proof.
  intros HL ρ ρ' Hρ H. rewrite -H. apply truth_agree; [|by apply Forall_forall].
  apply Forall_forall. intros x Hx. symmetry. apply Hρ. intros HxL. by apply (HL x).
Qed.
End labels.

(** ** The specification of [stmt_to_expr] *)

Definition const_bool_decls (L : list Ident) : list Decl :=
  map (λ l, DeclX_Const l bool_typ) L.

(** The labels a run starting at counter [n] and ending at [n'] declares. *)
Definition in_labels (n n' : N) (declared : list Ident) (x : Ident) : Prop :=
  (∃ l, l ∈ declared ∧ x = break_label l) ∨ (∃ k, (n ≤ k < n')%N ∧ x = switch_label k).

(** Where the names of the built expression come from. *)
Definition names_from (s_breaks L : list Ident) (pred : list Ident) (x : Ident) : Prop :=
  x ∈ pred ∨ is_label x = false ∨ x ∈ L ∨ ∃ l, l ∈ s_breaks ∧ x = break_label l.

Section correct.
Context (oc : bool) (M : Interp) (Γ : Vars).
Implicit Types (s : Stmt) (ss : list Stmt) (st : WpState) (ρ : Env M).

Definition break_post ρ (l : Ident) : Prop := i_truth M (ρ (break_label l)) = true.
Definition is_true ρ (sn : gmap Ident (Env M)) (e : Expr) : Prop :=
  truth M (olds M Γ (mkState ρ sn)) ρ e = true.

Lemma is_true_upd ρ sn x v : is_true (upd ρ x v) sn (ExprX_Var x) ↔ i_truth M v = true.
Proof. unfold is_true, truth. cbn [eval]. by rewrite upd_eq. Qed.

#[local] Instance is_true_dec ρ sn e : Decision (is_true ρ sn e).
Proof. unfold is_true. apply _. Defined.

Record expr_spec s st pred e st' L : Prop := {
  es_n : st'.1 = (st.1 + switch_count s)%N;
  es_decls : st'.2 = st.2 ++ const_bool_decls L;
  es_labels : ∀ x, x ∈ L → in_labels st.1 st'.1 (declared_labels s) x;
  es_mentions : ∀ x, x ∈ mentions e → names_from (free_breaks s) L (mentions pred) x;
  es_wp : (∀ x, x ∈ L → x ∉ mentions pred) → ∀ ρ sn,
    all_over M L ρ (λ ρ', is_true ρ' sn e)
    ↔ wp M Γ (mkState ρ sn) s (is_true ρ sn pred) (break_post ρ)
}.

Definition stmt_ok st s : Prop :=
  passive s = true ∧ no_labels s ∧ labels_ok s ∧ (st.1 + switch_count s < u64_bound)%N.

Definition expr_correct s : Prop := ∀ st pred, stmt_ok st s →
  ∃ e st' L, stmt_to_expr oc s st pred = Ok (e, st') ∧ expr_spec s st pred e st' L.

(** ** Leaves *)

Lemma is_true_ignores L sn e :
  (∀ x, x ∈ L → x ∉ mentions e) → ignores M L (λ ρ, is_true ρ sn e).
Proof. intros H. apply (truth_ignores M L (olds M Γ (mkState (λ _, i_bool M true) sn)) e H). Qed.

Lemma all_over_none ρ sn e : all_over M [] ρ (λ ρ', is_true ρ' sn e) ↔ is_true ρ sn e.
Proof. apply all_over_nil, is_true_ignores. by intros x ?%not_elem_of_nil. Qed.

Lemma leaf_spec s st pred e :
  switch_count s = 0%N →
  (∀ x, x ∈ mentions e → names_from (free_breaks s) [] (mentions pred) x) →
  (∀ ρ sn, is_true ρ sn e
     ↔ wp M Γ (mkState ρ sn) s (is_true ρ sn pred) (break_post ρ)) →
  expr_spec s st pred e st [].
Proof.
  intros Hc Hm Hw. split.
  - by rewrite Hc N.add_0_r.
  - simpl. by rewrite app_nil_r.
  - by intros x ?%not_elem_of_nil.
  - exact Hm.
  - intros _ ρ sn. by rewrite all_over_none.
Qed.

Lemma assume_correct e : expr_correct (StmtX_Assume e).
Proof.
  intros st pred (_ & Hn & _). eexists _, _, []. split; [reflexivity|].
  unfold no_labels in Hn. simpl in Hn. rewrite Forall_singleton in Hn.
  apply leaf_spec; [done| |].
  - intros x [Hx|Hx]%mentions_mk_implies; [right; left; by apply Hn|by left].
  - intros ρ sn. rewrite wp_assume. unfold is_true, holds, truth.
    fold (truth M (olds M Γ (mkState ρ sn)) ρ (mk_implies e pred)).
    rewrite truth_mk_implies. unfold truth. simpl. by destruct (i_truth _ _), (i_truth _ _); naive_solver.
Qed.

Lemma assert_correct i m f e : expr_correct (StmtX_Assert i m f e).
Proof.
  intros st pred (_ & Hn & _). eexists _, _, []. split; [reflexivity|].
  unfold no_labels in Hn. simpl in Hn. rewrite Forall_singleton in Hn.
  apply leaf_spec; [done| |].
  - intros x [Hx|Hx]%mentions_mk_and%mention_two; [right; left; by apply Hn|by left].
  - intros ρ sn. rewrite wp_assert. unfold is_true. rewrite truth_mk_and. simpl.
    rewrite andb_true_r andb_true_iff. done.
Qed.

Lemma break_correct l : expr_correct (StmtX_Break l).
Proof.
  intros st pred _. eexists _, _, []. split; [reflexivity|].
  apply leaf_spec; [done| |].
  - intros x Hx. simpl in Hx. apply list_elem_of_singleton in Hx as ->.
    right; right; right. exists l. split; [by left|done].
  - intros ρ sn. by rewrite wp_break.
Qed.

(** ** [DeadEnd] and [Breakable] *)

Lemma is_true_and ρ sn e1 e2 :
  is_true ρ sn (mk_and [e1; e2]) ↔ is_true ρ sn e1 ∧ is_true ρ sn e2.
Proof. unfold is_true. rewrite truth_mk_and /= andb_true_r andb_true_iff. done. Qed.

Lemma is_true_or ρ sn e1 e2 :
  is_true ρ sn (mk_or [e1; e2]) ↔ is_true ρ sn e1 ∨ is_true ρ sn e2.
Proof. unfold is_true. rewrite truth_mk_or /= orb_false_r orb_true_iff. done. Qed.

Lemma is_true_not_var ρ sn x :
  is_true ρ sn (ExprX_Unary UnaryOp_Not (ExprX_Var x)) ↔ i_truth M (ρ x) = false.
Proof. unfold is_true. rewrite truth_not /truth /=. by destruct (i_truth M (ρ x)). Qed.

Lemma is_true_mk_true ρ sn : is_true ρ sn mk_true.
Proof. unfold is_true. apply truth_const. Qed.

Lemma deadend_correct s : expr_correct s → expr_correct (StmtX_DeadEnd s).
Proof.
  intros IH st pred Hok. destruct (IH st mk_true Hok) as (e & st' & L & He & Hs).
  exists (mk_and [e; pred]), st', L. split; [by rewrite /= He|].
  destruct Hs as [Hn Hd Hl Hm Hw]. split; try done.
  - intros x [Hx|Hx]%mentions_mk_and%mention_two; [|by left].
    apply Hm in Hx as [Hx|Hx]; [by apply not_elem_of_nil in Hx|by right].
  - intros Hfresh ρ sn. rewrite wp_deadend.
    assert (Htrue : wp M Γ (mkState ρ sn) s True (break_post ρ)
                    ↔ all_over M L ρ (λ ρ', is_true ρ' sn e)).
    { rewrite Hw; [by intros x _ ?%not_elem_of_nil|].
      apply wp_iff; [|done]. split; [intros _; apply is_true_mk_true|done]. }
    assert (Hpred : is_true ρ sn pred ↔ all_over M L ρ (λ ρ', is_true ρ' sn pred)).
    { symmetry. by apply (all_over_ignored M L ρ (λ ρ', is_true ρ' sn pred)), is_true_ignores. }
    rewrite Htrue Hpred -all_over_and. apply all_over_iff. intros ρ' _. apply is_true_and.
Qed.

Lemma in_labels_is_label n n' dl x : in_labels n n' dl x → is_label x = true.
Proof.
  intros [(l & _ & ->)|(k & _ & ->)]; [apply is_label_break|apply is_label_switch].
Qed.

Lemma break_in_labels n n' dl l : in_labels n n' dl (break_label l) → l ∈ dl.
Proof.
  intros [(l' & Hl & H)|(k & _ & H)]; [by apply (inj break_label) in H as ->|].
  by apply break_label_not_switch in H.
Qed.

Lemma switch_in_labels n n' dl k : in_labels n n' dl (switch_label k) → (n ≤ k < n')%N.
Proof.
  intros [(l' & Hl & H)|(k' & Hk & H)]; [by symmetry in H; apply break_label_not_switch in H|].
  by apply (inj switch_label) in H as ->.
Qed.

(** What remains of a quantified label [lb]: a case split on its truth value.
    [G v] is the inner formula when the label has the value [v]. *)
Lemma over_label ρ lb L (p : bool) (F : Env M → Prop) (G : bool → Prop) :
  lb ∉ L →
  (∀ v, i_typ M TypX_Bool v →
     all_over M L (upd ρ lb v) F ↔ ((i_truth M v = false ∧ p = true) ∨ G (i_truth M v))) →
  (G false → G true) →
  all_over M (lb :: L) ρ F ↔ G p.
Proof.
  intros Hlb HF Hmono.
  assert (Hp : G p ↔ G true ∧ (p = true ∨ G false)) by (destruct p; naive_solver).
  rewrite Hp. clear Hp.
  rewrite (all_over_split M [lb] L); [intros x; rewrite elem_of_cons list_elem_of_singleton //|].
  split.
  - intros H.
    assert (Hd : ∀ b, differs M [lb] ρ (upd ρ lb (i_bool M b))).
    { intros b. split; intros x Hx.
      - apply upd_ne. intros ->. apply Hx. by left.
      - apply list_elem_of_singleton in Hx as ->. rewrite upd_eq. apply i_typ_bool. }
    pose proof (proj1 (HF _ (i_typ_bool M true)) (H _ (Hd true))) as H1.
    pose proof (proj1 (HF _ (i_typ_bool M false)) (H _ (Hd false))) as H2.
    rewrite !i_truth_bool in H1, H2. naive_solver.
  - intros [HT HPF] ρ1 [Hd Ht]. specialize (Ht lb (list_elem_of_here _ _)).
    assert (HG : all_over M L (upd ρ lb (ρ1 lb)) F).
    { apply HF; [done|]. destruct (i_truth M (ρ1 lb)); naive_solver. }
    intros ρ' [Hd' Ht']. apply HG. split; [|done]. intros x Hx. rewrite Hd' //. simpl.
    case_decide; [by subst|]. apply Hd. by rewrite list_elem_of_singleton.
Qed.

Lemma all_over_or L ρ (C : Prop) (F : Env M → Prop) :
  Decision C → all_over M L ρ (λ ρ', C ∨ F ρ') ↔ (C ∨ all_over M L ρ F).
Proof. intros [HC|HC]; unfold all_over; naive_solver. Qed.

Lemma wp_label_mono σ s l (B : Ident → Prop) (b b' : bool) :
  (b = true → b' = true) →
  wp M Γ σ s (b = true) (λ l', if decide (l' = l) then b = true else B l') →
  wp M Γ σ s (b' = true) (λ l', if decide (l' = l) then b' = true else B l').
Proof.
  intros Hb (Hf & HQ & HB). split_and!; auto.
  intros l' H. specialize (HB l' H). case_decide; auto.
Qed.

(** The formula at one value [v] of the label [lb]: [e0] is what the pass built
    for the rest, with the label as its postcondition, and [K] its meaning. *)
Lemma at_label ρ sn lb L pred v e0s (K : Prop) :
  (∀ x, x ∈ lb :: L → x ∉ mentions pred) → lb ∉ L →
  (all_over M L (upd ρ lb v) (λ ρ', is_true ρ' sn e0s) ↔ K) →
  all_over M L (upd ρ lb v)
    (λ ρ', (i_truth M (ρ' lb) = false ∧ is_true ρ' sn pred) ∨ is_true ρ' sn e0s)
  ↔ (i_truth M v = false ∧ is_true ρ sn pred) ∨ K.
Proof.
  intros Hpred Hlb HK. rewrite -HK -all_over_or. apply all_over_iff.
  intros ρ' [Hd _]. rewrite Hd // upd_eq.
  assert (Hp : is_true ρ' sn pred ↔ is_true ρ sn pred).
  { assert (Hig : ignores M (lb :: L) (λ ρ, is_true ρ sn pred)) by by apply is_true_ignores.
    assert (Heq : ∀ x, x ∉ lb :: L → ρ' x = ρ x).
    { intros x Hx. rewrite Hd; [by intros ?; apply Hx; right|].
      apply upd_ne. intros ->. apply Hx. by left. }
    split; apply Hig; intros x Hx; by rewrite Heq. }
  by rewrite Hp.
Qed.

Lemma exprs_agree_label s ρ lb v :
  no_labels s → is_label lb = true → exprs_agree M s (upd ρ lb v) ρ.
Proof.
  intros Hn Hlb. eapply Forall_impl; [exact Hn|]. intros e He. apply Forall_forall.
  intros x Hx. apply upd_ne. intros ->. by rewrite (He lb Hx) in Hlb.
Qed.

Lemma breakable_correct l s : expr_correct s → expr_correct (StmtX_Breakable l s).
Proof.
  intros IH st pred (Hp & Hnl & Hlok & Hc).
  apply labels_ok_breakable in Hlok as [Hlok Hl].
  destruct (IH (st.1, st.2 ++ [DeclX_Const (break_label l) bool_typ]) (ExprX_Var (break_label l)))
    as (e0 & st' & L & He & [Hn Hd HL Hm Hw]); [done|].
  eexists _, st', (break_label l :: L). split; [by rewrite /= He|].
  assert (HlL : break_label l ∉ L) by (intros Hin; by apply HL, break_in_labels in Hin).
  split; simpl in *.
  - done.
  - by rewrite Hd -app_assoc.
  - intros x [->|Hx]%elem_of_cons; [left; exists l; split; [by left|done]|].
    destruct (HL x Hx) as [(l' & Hl' & ->)|Hk]; [left; exists l'; split; [by right|done]|by right].
  - intros x [[Hx|Hx]%mentions_mk_and%mention_two|Hx]%mentions_mk_or%mention_two.
    + right; right; left. simpl in Hx. apply list_elem_of_singleton in Hx as ->. by left.
    + by left.
    + apply Hm in Hx as [Hx|[Hx|[Hx|(l' & Hl' & ->)]]].
      * right; right; left. simpl in Hx. apply list_elem_of_singleton in Hx as ->. by left.
      * right; by left.
      * right; right; left. by right.
      * right; right. destruct (decide (l' = l)) as [->|Hne]; [left; by left|].
        right. exists l'. split; [|done]. by apply list_elem_of_filter.
  - intros Hfresh ρ sn. rewrite wp_breakable //.
    apply (over_label ρ _ L (truth M (olds M Γ (mkState ρ sn)) ρ pred) _
      (λ b, wp M Γ (mkState ρ sn) s (b = true)
              (λ l', if decide (l' = l) then b = true else break_post ρ l'))); [done| |].
    + intros v _. fold (is_true ρ sn pred).
      erewrite <- (at_label ρ sn (break_label l) L pred v e0); [|done|done|].
      { apply all_over_iff. intros ρ' _. by rewrite is_true_or is_true_and is_true_not_var. }
      rewrite Hw; [by intros x Hx [= ->]%list_elem_of_singleton|].
      rewrite (wp_agree M Γ (upd ρ (break_label l) v) ρ); [done|..].
      { apply exprs_agree_label; [done|apply is_label_break]. }
      apply wp_iff; [by rewrite is_true_upd|].
      intros l' _. unfold break_post. case_decide as Hl'; [by subst; rewrite upd_eq|].
      rewrite upd_ne; [by intros ?%(inj break_label)|done].
    + by apply wp_label_mono.
Qed.

(** ** [Block] *)

Lemma in_labels_disjoint n1 n2 n3 n4 d1 d2 x :
  (n2 ≤ n3)%N → (∀ l, l ∈ d1 → l ∉ d2) →
  in_labels n1 n2 d1 x → in_labels n3 n4 d2 x → False.
Proof.
  intros Hn Hd [(l & Hl & ->)|(k & Hk & ->)] H.
  - apply break_in_labels in H. by apply (Hd l).
  - apply switch_in_labels in H. lia.
Qed.

Lemma in_labels_mono n1 n2 n1' n2' d d' x :
  (n1' ≤ n1)%N → (n2 ≤ n2')%N → (∀ l, l ∈ d → l ∈ d') →
  in_labels n1 n2 d x → in_labels n1' n2' d' x.
Proof.
  intros Hn1 Hn2 Hd [(l & Hl & ->)|(k & Hk & ->)].
  - left. exists l. auto.
  - right. exists k. split; [lia|done].
Qed.

Lemma names_from_mono br br' L L' pr pr' x :
  (∀ l, l ∈ br → l ∈ br') → (∀ l, l ∈ L → l ∈ L') → (x ∈ pr → names_from br' L' pr' x) →
  names_from br L pr x → names_from br' L' pr' x.
Proof.
  intros Hbr HL Hpr [H|[H|[H|(l & Hl & ->)]]]; [by apply Hpr|by right; left|..].
  - right; right; left. auto.
  - right; right; right. exists l. auto.
Qed.

Lemma stmt_ok_block st ss : stmt_ok st (StmtX_Block ss) ↔
  Forall (λ s, passive s = true) ss ∧ Forall no_labels ss ∧ labels_ok_list ss
  ∧ (st.1 + foldr (λ s n, switch_count s + n)%N 0%N ss < u64_bound)%N.
Proof.
  unfold stmt_ok, no_labels, labels_ok, labels_ok_list. simpl.
  rewrite Forall_concat_map forallb_true_iff. done.
Qed.

Lemma wp_Block_cons σ s ss Q B :
  Forall (λ s, passive s = true) (s :: ss) →
  wp M Γ σ (StmtX_Block (s :: ss)) Q B ↔ wp M Γ σ s (wp M Γ σ (StmtX_Block ss) Q B) B.
Proof.
  intros Hp. rewrite wp_Block //. simpl. inversion Hp; subst.
  apply wp_iff; [|done]. by rewrite wp_Block.
Qed.

(** The postcondition of [s] may mention labels [L2]; they can be quantified
    after [s] has run. *)
Lemma wp_over_labels s L2 ρ sn (F : Env M → Prop) :
  passive s = true → no_labels s → (∀ x, x ∈ L2 → is_label x = true) →
  (∀ l, l ∈ free_breaks s → break_label l ∉ L2) →
  all_over M L2 ρ (λ ρ2, wp M Γ (mkState ρ2 sn) s (F ρ2) (break_post ρ2))
  ↔ wp M Γ (mkState ρ sn) s (all_over M L2 ρ F) (break_post ρ).
Proof.
  intros Hp Hn HL Hfb.
  rewrite -(wp_forall M Γ _ (differs M L2 ρ)); [apply (differs_exists M L2 ρ true)|].
  apply all_over_iff. intros ρ2 [Hd _]. rewrite (wp_agree M Γ ρ2 ρ); [done| |].
  - eapply Forall_impl; [exact Hn|]. intros e He. apply Forall_forall. intros x Hx.
    apply Hd. intros Hin. apply HL in Hin. by rewrite (He x Hx) in Hin.
  - apply wp_iff; [done|]. intros l Hl%exec_break_free. unfold break_post.
    by rewrite Hd; [apply Hfb|].
Qed.

Lemma block_correct ss : Forall expr_correct ss → expr_correct (StmtX_Block ss).
Proof.
  induction 1 as [|s ss Hs Hss IH]; intros st pred Hok.
  { exists pred, st, []. split; [done|]. apply leaf_spec; [done|by left|].
    intros ρ sn. by rewrite wp_Block. }
  apply stmt_ok_block in Hok as (Hp & Hnl & Hlok & Hc). simpl in Hc.
  inversion Hp as [|? ? Hp1 Hp2]; inversion Hnl as [|? ? Hnl1 Hnl2]; subst.
  destruct (labels_ok_cons _ _ Hlok) as (Hlok1 & Hlok2 & Hdd & Hfd & Hdf).
  destruct (IH st pred) as (e2 & st2 & L2 & He2 & [Hn2 Hd2 HL2 Hm2 Hw2]).
  { apply stmt_ok_block. do 3 (split; [done|]). lia. }
  simpl in *.
  destruct (Hs st2 e2) as (e1 & st1 & L1 & He1 & [Hn1 Hd1 HL1 Hm1 Hw1]).
  { do 3 (split; [done|]). lia. }
  exists e1, st1, (L2 ++ L1). split; [by rewrite /= He2|].
  split; simpl.
  - lia.
  - rewrite Hd1 Hd2 -app_assoc. f_equal. unfold const_bool_decls. by rewrite map_app.
  - intros x [Hx|Hx]%elem_of_app.
    + eapply in_labels_mono; [..|exact (HL2 _ Hx)]; [lia|lia|]. intros; apply elem_of_app; auto.
    + eapply in_labels_mono; [..|exact (HL1 _ Hx)]; [lia|lia|]. intros; apply elem_of_app; auto.
  - intros x Hx. apply Hm1 in Hx. eapply names_from_mono; [..|exact Hx];
      [intros; apply elem_of_app; auto..|].
    intros Hx2. eapply names_from_mono; [..|exact (Hm2 _ Hx2)];
      [intros; apply elem_of_app; auto..|by left].
  - intros Hfresh ρ sn. rewrite (all_over_split M L2 L1); [intros; apply elem_of_app|].
    rewrite wp_Block_cons // -Hw2; [intros x Hx; apply Hfresh, elem_of_app; by left|].
    rewrite -wp_over_labels //.
    + intros x Hx. by eapply in_labels_is_label, HL2.
    + intros l Hl Hin. apply HL2, break_in_labels in Hin. by apply (Hfd l).
    + apply all_over_iff. intros ρ2 _. apply Hw1. intros x Hx Hx2.
      destruct (Hm2 _ Hx2) as [Hx'|[Hx'|[Hx'|(l & Hl & ->)]]].
      * apply (Hfresh x); [apply elem_of_app; by right|done].
      * by rewrite (in_labels_is_label _ _ _ _ (HL1 _ Hx)) in Hx'.
      * eapply in_labels_disjoint; [..|exact (HL2 _ Hx')|exact (HL1 _ Hx)]; [lia|].
        intros l Hl Hl'. by apply (Hdd l).
      * apply HL1, break_in_labels in Hx. by apply (Hdf l).
Qed.

(** ** [Switch] *)

Definition stmts_ok st ss : Prop :=
  Forall (λ s, passive s = true) ss ∧ Forall no_labels ss ∧ labels_ok_list ss
  ∧ (st.1 + foldr (λ s n, switch_count s + n)%N 0%N ss < u64_bound)%N.

Lemma stmt_ok_switch st ss :
  stmt_ok st (StmtX_Switch ss) ↔ stmts_ok ((st.1 + 1)%N, st.2) ss.
Proof.
  pose proof (stmt_ok_block ((st.1 + 1)%N, st.2) ss) as H. unfold stmts_ok. rewrite -H.
  unfold stmt_ok. simpl. by rewrite N.add_assoc.
Qed.

Definition all_true ρ sn (es : list Expr) : Prop := Forall (is_true ρ sn) es.

Record exprs_spec ss st lbl es st' L : Prop := {
  ess_n : st'.1 = (st.1 + foldr (λ s n, switch_count s + n)%N 0%N ss)%N;
  ess_decls : st'.2 = st.2 ++ const_bool_decls L;
  ess_labels : ∀ x, x ∈ L → in_labels st.1 st'.1 (concat (map declared_labels ss)) x;
  ess_mentions : ∀ x, mention_all es x →
    names_from (concat (map free_breaks ss)) L (mentions lbl) x;
  ess_wp : (∀ x, x ∈ L → x ∉ mentions lbl) → ∀ ρ sn,
    all_over M L ρ (λ ρ', all_true ρ' sn es)
    ↔ Forall (λ s, wp M Γ (mkState ρ sn) s (is_true ρ sn lbl) (break_post ρ)) ss
}.

Lemma all_true_ignores L sn es :
  (∀ x, x ∈ L → ¬ mention_all es x) → ignores M L (λ ρ, all_true ρ sn es).
Proof.
  intros HL ρ ρ' Hρ.  unfold all_true. rewrite !Forall_forall.
  intros H e He. apply (is_true_ignores L sn e) with (ρ := ρ); [|done|by apply H].
  intros x Hx Hm. apply (HL x Hx). by exists e.
Qed.

Lemma switch_exprs_correct ss : Forall expr_correct ss → ∀ st lbl, stmts_ok st ss →
  ∃ es st' L, switch_to_exprs (stmt_to_expr oc) ss st lbl = Ok (es, st')
    ∧ exprs_spec ss st lbl es st' L.
Proof.
  induction 1 as [|s ss Hs Hss IH]; intros st lbl (Hp & Hnl & Hlok & Hc); simpl in Hc.
  { exists [], st, []. split; [done|]. split; simpl.
    - lia.
    - by rewrite app_nil_r.
    - by intros x ?%not_elem_of_nil.
    - by intros x (e & ?%not_elem_of_nil & _).
    - intros _ ρ sn. split; [by constructor|]. intros _ ρ' _. constructor. }
  inversion Hp as [|? ? Hp1 Hp2]; inversion Hnl as [|? ? Hnl1 Hnl2]; subst.
  destruct (labels_ok_cons _ _ Hlok) as (Hlok1 & Hlok2 & Hdd & Hfd & Hdf).
  destruct (Hs st lbl) as (e1 & st1 & L1 & He1 & [Hn1 Hd1 HL1 Hm1 Hw1]).
  { do 3 (split; [done|]). lia. }
  destruct (IH st1 lbl) as (es & st2 & L2 & He2 & [Hn2 Hd2 HL2 Hm2 Hw2]).
  { do 3 (split; [done|]). lia. }
  exists (e1 :: es), st2, (L1 ++ L2). split; [by rewrite /= He1 /= He2|].
  split; simpl.
  - lia.
  - rewrite Hd2 Hd1 -app_assoc. f_equal. unfold const_bool_decls. by rewrite map_app.
  - intros x [Hx|Hx]%elem_of_app.
    + eapply in_labels_mono; [..|exact (HL1 _ Hx)]; [lia|lia|]. intros; apply elem_of_app; auto.
    + eapply in_labels_mono; [..|exact (HL2 _ Hx)]; [lia|lia|]. intros; apply elem_of_app; auto.
  - intros x (e & [->|He]%elem_of_cons & Hx).
    + eapply names_from_mono; [..|exact (Hm1 _ Hx)]; [intros; apply elem_of_app; auto..|by left].
    + eapply names_from_mono; [..|apply (Hm2 x); by exists e];
        [intros; apply elem_of_app; auto..|by left].
  - intros Hfresh ρ sn.
    assert (Hf1 : ∀ x, x ∈ L1 → x ∉ mentions lbl) by (intros; apply Hfresh, elem_of_app; auto).
    assert (Hf2 : ∀ x, x ∈ L2 → x ∉ mentions lbl) by (intros; apply Hfresh, elem_of_app; auto).
    assert (Hx12 : ∀ x, x ∈ L1 → x ∈ L2 → False).
    { intros x H1 H2. eapply (in_labels_disjoint _ st1.1 st1.1); [done| |by apply HL1|by apply HL2].
      intros l Hl Hl'. by apply (Hdd l). }
    rewrite Forall_cons -(Hw1 Hf1) -(Hw2 Hf2).
    rewrite -(all_over_frame M L1 L2 (L1 ++ L2) ρ (λ ρ', is_true ρ' sn e1));
      [by intros; apply elem_of_app| |].
    { apply is_true_ignores. intros x Hx Hm.
      destruct (Hm1 _ Hm) as [Hx'|[Hx'|[Hx'|(l & Hl & ->)]]]; [by apply (Hf2 x)| |by eapply Hx12|].
      - by rewrite (in_labels_is_label _ _ _ _ (HL2 _ Hx)) in Hx'.
      - apply HL2, break_in_labels in Hx. by apply (Hfd l). }
    rewrite -(all_over_frame M L2 L1 (L1 ++ L2) ρ (λ ρ', all_true ρ' sn es));
      [by intros; rewrite elem_of_app or_comm| |].
    { apply all_true_ignores. intros x Hx Hm.
      destruct (Hm2 _ Hm) as [Hx'|[Hx'|[Hx'|(l & Hl & ->)]]]; [by apply (Hf1 x)| |by eapply Hx12|].
      - by rewrite (in_labels_is_label _ _ _ _ (HL1 _ Hx)) in Hx'.
      - apply HL1, break_in_labels in Hx. by apply (Hdf l). }
    rewrite -all_over_and. apply all_over_iff. intros ρ' _. apply Forall_cons.
Qed.

Lemma is_true_mk_and ρ sn es : is_true ρ sn (mk_and es) ↔ all_true ρ sn es.
Proof. unfold is_true, all_true. by rewrite truth_mk_and forallb_true_iff. Qed.

Lemma switch_correct ss : Forall expr_correct ss → expr_correct (StmtX_Switch ss).
Proof.
  intros Hss st pred Hok. pose proof Hok as (_ & _ & _ & Hc).
  apply stmt_ok_switch in Hok. set (lb := switch_label st.1) in *.
  destruct (switch_exprs_correct ss Hss ((st.1 + 1)%N, st.2 ++ [DeclX_Const lb bool_typ])
    (ExprX_Var lb)) as (es & st' & L & He & [Hn Hd HL Hm Hw]); [done|].
  destruct Hok as (Hp & Hnl & _). simpl in *.
  eexists _, st', (lb :: L). split.
  { simpl. rewrite /u64_add uint_add_in_range; [lia|]. simpl. by rewrite He. }
  assert (HlL : lb ∉ L) by (intros Hin; apply HL, switch_in_labels in Hin; simpl in Hin; lia).
  assert (Hlb : is_label lb = true) by apply is_label_switch.
  split; simpl.
  - lia.
  - by rewrite Hd -app_assoc.
  - intros x [->|Hx]%elem_of_cons; [right; exists st.1; split; [lia|done]|].
    eapply in_labels_mono; [..|exact (HL _ Hx)]; simpl; [lia|lia|auto].
  - intros x [Hx%mentions_mk_and|[Hx|Hx]%mentions_mk_and%mention_two]%mentions_mk_or%mention_two.
    + eapply names_from_mono; [done|intros; by right| |exact (Hm _ Hx)].
      intros ->%list_elem_of_singleton. right; right; left. by left.
    + right; right; left. simpl in Hx. apply list_elem_of_singleton in Hx as ->. by left.
    + by left.
  - intros Hfresh ρ sn. rewrite wp_Switch //.
    apply (over_label ρ _ L (truth M (olds M Γ (mkState ρ sn)) ρ pred) _
      (λ b, Forall (λ s, wp M Γ (mkState ρ sn) s (b = true) (break_post ρ)) ss)); [done| |].
    + intros v _. fold (is_true ρ sn pred).
      erewrite <- (at_label ρ sn lb L pred v (mk_and es)); [|done|done|].
      { apply all_over_iff. intros ρ' _. rewrite is_true_or is_true_and is_true_not_var. tauto. }
      rewrite (all_over_iff M L _ _ (λ ρ', all_true ρ' sn es)); [intros; apply is_true_mk_and|].
      rewrite Hw; [by intros x Hx [= ->]%list_elem_of_singleton|].
      assert (Hs : ∀ s, no_labels s → passive s = true →
        wp M Γ (mkState (upd ρ lb v) sn) s (is_true (upd ρ lb v) sn (ExprX_Var lb))
          (break_post (upd ρ lb v))
        ↔ wp M Γ (mkState ρ sn) s (i_truth M v = true) (break_post ρ)).
      { intros s Hnls Hps. rewrite (wp_agree M Γ (upd ρ lb v) ρ) //; [by apply exprs_agree_label|].
        apply wp_iff; [by rewrite is_true_upd|].
        intros l _. unfold break_post. by rewrite upd_ne. }
      rewrite !Forall_forall. rewrite !Forall_forall in Hp Hnl.
      split; intros H s Hin; apply Hs; auto.
    + intros H. eapply Forall_impl; [exact H|]. intros s (Hf & HQ & HB). split_and!; auto.
Qed.

(** ** All statements *)

Lemma stmt_to_expr_correct s : expr_correct s.
Proof.
  induction s as [e|i m f e|x|x e|x|s IH|l s IH|l|ss IH|ss IH] using StmtX_ind'.
  - apply assume_correct.
  - apply assert_correct.
  - by intros st pred [? _].
  - by intros st pred [? _].
  - by intros st pred [? _].
  - by apply deadend_correct.
  - by apply breakable_correct.
  - apply break_correct.
  - by apply block_correct.
  - by apply switch_correct.
Qed.
End correct.

(** ** Queries *)

(** The names a local declaration depends on: what the lowering must not reuse. *)
Definition decl_mentions (d : Decl) : list Ident :=
  match d with
  | DeclX_Const x _ | DeclX_Var x _ => [x]
  | DeclX_Axiom ax => mentions (expr ax)
  | _ => []
  end.

Record lowerable (q : Query) : Prop := {
  lw_passive : passive (assertion q) = true;
  lw_no_labels : no_labels (assertion q);
  lw_labels : labels_ok (assertion q);
  lw_closed : free_breaks (assertion q) = [];
  lw_count : (switch_count (assertion q) < u64_bound)%N;
  lw_decls : Forall (λ d, ∀ x, x ∈ decl_mentions d → is_label x = false) (local q)
}.

Lemma decl_vars_const_bools ds L : decl_vars (ds ++ const_bool_decls L) = decl_vars ds.
Proof.
  induction ds as [|d ds IH]; simpl; [|destruct d; simpl; by rewrite ?IH].
  by induction L.
Qed.

Lemma decl_holds_agree M ρ1 ρ2 d :
  (∀ x, x ∈ decl_mentions d → ρ1 x = ρ2 x) → decl_holds M ρ1 d → decl_holds M ρ2 d.
Proof.
  intros Hag. destruct d as [x|ds|x t|x ts t|x t|ax]; simpl in *; try done.
  - rewrite Hag //. apply list_elem_of_here.
  - rewrite Hag //. apply list_elem_of_here.
  - intros <-. symmetry. apply truth_agree; [by apply Forall_forall|by apply Forall_forall].
Qed.

Lemma decls_hold_const_bools M ρ L :
  decls_hold M (const_bool_decls L) ρ ↔ ∀ x, x ∈ L → i_typ M TypX_Bool (ρ x).
Proof. unfold decls_hold, const_bool_decls. by rewrite Forall_fmap Forall_forall. Qed.

Lemma decls_hold_differs M ds L ρ ρ' :
  Forall (λ d, ∀ x, x ∈ decl_mentions d → is_label x = false) ds →
  (∀ x, x ∈ L → is_label x = true) → differs M L ρ ρ' →
  decls_hold M ds ρ → decls_hold M (ds ++ const_bool_decls L) ρ'.
Proof.
  intros Hds HL [Hout Hin] H. apply Forall_app. split; [|by apply decls_hold_const_bools].
  eapply Forall_impl; [apply Forall_and; split; [exact Hds|exact H]|].
  intros d [Hd Hh]. eapply decl_holds_agree; [|exact Hh]. intros x Hx. rewrite Hout //.
  intros HxL. specialize (HL x HxL). by rewrite (Hd x Hx) in HL.
Qed.

Lemma query_safe_wp M q :
  free_breaks (assertion q) = [] →
  query_safe M q ↔ ∀ ρ, decls_hold M (local q) ρ →
    wp M (decl_vars (local q)) (mkState ρ ∅) (assertion q) True (break_post M ρ).
Proof.
  intros Hc. unfold query_safe, wp. split; [|by intros H ρ aid Hd; apply H].
  intros H ρ Hd. split_and!; [by intros; apply H|done|].
  intros l Hl%exec_break_free. rewrite Hc in Hl. by apply not_elem_of_nil in Hl.
Qed.

Lemma assert_safe M ds aid msg f e :
  query_safe M (mkQuery ds (StmtX_Assert aid msg f e))
  ↔ ∀ ρ, decls_hold M ds ρ → is_true M (decl_vars ds) ρ ∅ e.
Proof.
  rewrite query_safe_wp //. simpl. split; intros H ρ Hd; specialize (H ρ Hd).
  - by apply wp_assert in H as [? _].
  - by apply wp_assert.
Qed.

Lemma block_lowering oc msg q :
  lowerable q →
  ∃ q', lower_query oc msg q = Ok q' ∧ (∃ e, assertion q' = StmtX_Assert None msg None e)
    ∧ ∀ M, query_safe M q' ↔ query_safe M q.
Proof.
  intros [Hp Hnl Hlab Hcl Hcnt Hds]. unfold lower_query.
  assert (Hok : stmt_ok (0%N, local q) (assertion q)) by done.
  destruct (stmt_to_expr_correct oc bool_interp ∅ _ _ mk_true Hok) as (e & st & L & He & Hs).
  rewrite He. eexists. split; [done|]. split; [by eexists|]. clear L Hs. intros M.
  destruct (stmt_to_expr_correct oc M (decl_vars (local q)) _ _ mk_true Hok)
    as (e' & st' & L & He' & [_ Hd HL _ Hw]).
  rewrite He in He'. injection He' as <- <-. simpl in Hd.
  rewrite assert_safe query_safe_wp // Hd decl_vars_const_bools.
  assert (Hfresh : ∀ x, x ∈ L → x ∉ mentions mk_true) by (intros x _; apply not_elem_of_nil).
  assert (Htt : ∀ ρ, is_true M (decl_vars (local q)) ρ ∅ mk_true ↔ True).
  { intros ρ. unfold is_true, truth. simpl. by rewrite i_truth_bool. }
  assert (HLl : ∀ x, x ∈ L → is_label x = true) by (intros x ?; by eapply in_labels_is_label, HL).
  split; intros H ρ Hρ.
  - rewrite -(Htt ρ) -(Hw Hfresh). intros ρ' Hdiff. apply H. by eapply decls_hold_differs.
  - unfold decls_hold in Hρ. apply Forall_app in Hρ as [Hρ1 Hρ2].
    specialize (H ρ Hρ1). rewrite -(Htt ρ) -(Hw Hfresh) in H. apply H.
    split; [done|]. by apply decls_hold_const_bools.
Qed.

(** A failure of the query makes the assertion of the lowered query false, with
    the same values of the names that are not labels. *)
Lemma block_failure oc msg q q' : lowerable q → lower_query oc msg q = Ok q' →
  ∃ e st L, assertion q' = StmtX_Assert None msg None e
    ∧ stmt_to_expr oc (assertion q) (0%N, local q) mk_true = Ok (e, st)
    ∧ local q' = local q ++ const_bool_decls L
    ∧ ∀ M (B : Env M → Prop), (∀ ρ ρ', (∀ x, is_label x = false → ρ' x = ρ x) → B ρ → B ρ') →
      (∀ ρ, B ρ → decls_hold M (local q') ρ → is_true M (decl_vars (local q')) ρ ∅ e) →
      ∀ ρ aid, B ρ → decls_hold M (local q) ρ → ¬ exec M (decl_vars (local q)) (assertion q) (mkState ρ ∅) (OFail aid).
Proof.
  intros [Hp Hnl Hlab Hcl Hcnt Hds]. unfold lower_query. intros Hq'.
  assert (Hok : stmt_ok (0%N, local q) (assertion q)) by done.
  destruct (stmt_to_expr_correct oc bool_interp ∅ _ _ mk_true Hok) as (e & st & L0 & He & Hs).
  rewrite He in Hq'. injection Hq' as <-. exists e, st, L0. split; [done|]. split; [done|].
  split; [apply Hs|]. clear L0 Hs. intros M B HB H ρ aid Hb Hρ.
  destruct (stmt_to_expr_correct oc M (decl_vars (local q)) _ _ mk_true Hok)
    as (e' & st' & L & He' & [_ Hd HL _ Hw]).
  rewrite He in He'. injection He' as <- <-. simpl in Hd, H. rewrite Hd decl_vars_const_bools in H.
  assert (Hfresh : ∀ x, x ∈ L → x ∉ mentions mk_true) by (intros x _; apply not_elem_of_nil).
  assert (HLl : ∀ x, x ∈ L → is_label x = true) by (intros x ?; by eapply in_labels_is_label, HL).
  destruct (proj1 (Hw Hfresh ρ ∅)) as [Hno _]; [|by apply Hno].
  intros ρ' Hdiff. apply H; [|by eapply decls_hold_differs].
  apply (HB ρ); [|done]. intros x Hx. apply Hdiff. intros HxL. by rewrite (HLl x HxL) in Hx.
Qed.

(** The same condition as a boolean function. *)
Definition no_labels_names (xs : list Ident) : bool := forallb (λ x, negb (is_label x)) xs.

Definition lowerableb (q : Query) : bool :=
  passive (assertion q)
  && forallb (λ e, no_labels_names (mentions e)) (stmt_exprs (assertion q))
  && bool_decide (NoDup (declared_labels (assertion q)))
  && forallb (λ d, no_labels_names (decl_mentions d)) (local q)
  && match free_breaks (assertion q) with [] => true | _ => false end
  && (switch_count (assertion q) <? u64_bound)%N.

Lemma no_labels_names_spec xs :
  no_labels_names xs = true → ∀ x, x ∈ xs → is_label x = false.
Proof.
  unfold no_labels_names. rewrite forallb_true_iff Forall_forall.
  intros H x Hx. by apply negb_true_iff, H.
Qed.

Lemma lowerableb_lowerable q : lowerableb q = true → lowerable q.
Proof.
  unfold lowerableb. rewrite !andb_true_iff. intros [[[[[Hp Hn] Hnd] Hds] Hf] Hc].
  destruct (free_breaks (assertion q)) as [|l ls] eqn:Hfb; [|done].
  rewrite forallb_true_iff in Hn. rewrite forallb_true_iff in Hds.
  apply bool_decide_eq_true in Hnd. split; try done.
  - eapply Forall_impl; [exact Hn|]. exact (λ e He, no_labels_names_spec (mentions e) He).
  - split; [done|]. rewrite Hfb. by intros l ?%not_elem_of_nil.
  - by apply N.ltb_lt.
  - eapply Forall_impl; [exact Hds|]. exact (λ d Hd, no_labels_names_spec (decl_mentions d) Hd).
Qed.

Definition sample_message : ArcDynMessage :=
  {| level := MessageLevel_Error; note := "assertion failed"; span := None; labels := [] |}.

(** A loop-like query: assume [p], then either break out or assert [p], then assert [q]. *)
Definition sample_query : Query :=
  let p := ExprX_Var "p" in
  let q := ExprX_Var "q" in
  mkQuery [DeclX_Const "p" bool_typ; DeclX_Const "q" bool_typ]
    (StmtX_Block [StmtX_Assume p;
       StmtX_Breakable "l" (StmtX_Switch
         [StmtX_Block [StmtX_Assume q; StmtX_Break "l"]; StmtX_DeadEnd (StmtX_Assert None sample_message None p)]);
       StmtX_Assert None sample_message None (mk_or [p; q])]).

(** C15. [lower_query] of [block_to_assert.rs] succeeds on every closed query without
    assignments, and its result, a single assertion, can fail in some interpretation
    exactly when the original query can. *)
Theorem lower_query_equisafe oc msg q :
  lowerable q →
  ∃ q', lower_query oc msg q = Ok q' ∧ (∃ e, assertion q' = StmtX_Assert None msg None e)
    ∧ ∀ M, query_safe M q' ↔ query_safe M q.
Proof. exact (block_lowering oc msg q). Qed.

(** [stmt_to_expr] succeeds on a statement without assignments, and its expression, for every
    value of the generated labels, is the weakest precondition of the statement: it holds
    exactly when no assertion fails, [pred] holds at the normal end, and at each break
    out of the statement the constant of its label is true. *)
Theorem stmt_to_expr_wp oc M Γ s st pred : stmt_ok st s →
  ∃ e st' L, stmt_to_expr oc s st pred = Ok (e, st')
    ∧ st'.1 = (st.1 + switch_count s)%N
    ∧ st'.2 = st.2 ++ const_bool_decls L
    ∧ (∀ x, x ∈ L → in_labels st.1 st'.1 (declared_labels s) x)
    ∧ ((∀ x, x ∈ L → x ∉ mentions pred) → ∀ ρ sn,
       all_over M L ρ (λ ρ', is_true M Γ ρ' sn e)
       ↔ wp M Γ (mkState ρ sn) s (is_true M Γ ρ sn pred) (break_post M ρ)).
Proof.
  intros Hok. destruct (stmt_to_expr_correct oc M Γ s st pred Hok) as (e & st' & L & He & [? ? ? _ Hw]).
  by exists e, st', L.
Qed.

Lemma lower_query_equisafe_witness :
  lowerable sample_query
  ∧ ∃ q', lower_query false sample_message sample_query = Ok q'
    ∧ (∃ e, assertion q' = StmtX_Assert None sample_message None e)
    ∧ ∀ M, query_safe M q' ↔ query_safe M sample_query.
Proof.
  assert (H : lowerable sample_query) by (apply lowerableb_lowerable; vm_compute; reflexivity).
  split; [exact H|]. exact (lower_query_equisafe false sample_message sample_query H).
Defined.

Lemma stmt_to_expr_wp_witness :
  ∃ e st' L, stmt_to_expr false (assertion sample_query) (0%N, []) mk_true = Ok (e, st')
    ∧ st'.1 = (0 + switch_count (assertion sample_query))%N
    ∧ st'.2 = [] ++ const_bool_decls L
    ∧ (∀ x, x ∈ L → in_labels 0 st'.1 (declared_labels (assertion sample_query)) x)
    ∧ ((∀ x, x ∈ L → x ∉ mentions mk_true) → ∀ ρ sn,
       all_over bool_interp L ρ (λ ρ', is_true bool_interp ∅ ρ' sn e)
       ↔ wp bool_interp ∅ (mkState ρ sn) (assertion sample_query) (is_true bool_interp ∅ ρ sn mk_true)
           (break_post bool_interp ρ)).
Proof.
  assert (H : lowerable sample_query) by (apply lowerableb_lowerable; vm_compute; reflexivity).
  refine (stmt_to_expr_wp false bool_interp ∅ (assertion sample_query) (0%N, []) mk_true _).
  split_and!; [exact (lw_passive _ H)|exact (lw_no_labels _ H)|exact (lw_labels _ H)|exact (lw_count _ H)].
Defined.
