(* ===== verification/IndexMap.v ===== *)
(** * Insertion-ordered maps (the [indexmap] crate's [IndexMap])

    The crate is not part of the repository.  [IndexMapOps] are the operations
    the sources use, [IndexMapLaws] what its documentation says of them: a key is
    in the map exactly when it is among [keys()], inserting at a key that is
    present replaces the value and keeps the order, inserting at a new key
    appends it, and a map is its entries in order.  [entry_list] is an
    implementation, used to run the passes. *)

From S2P Require Import Prelude.
Set Warnings "-rewrite-rw,-register-all,-clear-no-such-hyp".

Class IndexMapOps := {
  IndexMap : Type → Type;
  im_empty {A} : IndexMap A;
  im_keys {A} : IndexMap A → list string;
  im_get {A} : IndexMap A → string → option A;
  im_insert {A} : IndexMap A → string → A → IndexMap A
}.

Class IndexMapLaws (IM : IndexMapOps) : Prop := {
  im_keys_empty {A} : im_keys (@im_empty IM A) = [];
  im_get_is_Some {A} (m : IndexMap A) x : is_Some (im_get m x) ↔ x ∈ im_keys m;
  im_get_insert {A} (m : IndexMap A) x v : im_get (im_insert m x v) x = Some v;
  im_get_insert_ne {A} (m : IndexMap A) x y v : x ≠ y → im_get (im_insert m x v) y = im_get m y;
  im_keys_insert {A} (m : IndexMap A) x v : x ∈ im_keys m → im_keys (im_insert m x v) = im_keys m;
  im_keys_insert_new {A} (m : IndexMap A) x v : x ∉ im_keys m →
    im_keys (im_insert m x v) = im_keys m ++ [x];
  im_ext {A} (m m' : IndexMap A) : NoDup (im_keys m) → im_keys m = im_keys m' →
    (∀ x, im_get m x = im_get m' x) → m = m'
}.

(** ** Consequences *)

Section laws.
Context {IM : IndexMapOps} {IML : IndexMapLaws IM} {A : Type}.
Implicit Types (m : IndexMap A) (x y : string) (v : A).

Lemma im_get_None m x : im_get m x = None ↔ x ∉ im_keys m.
Proof. by rewrite -im_get_is_Some eq_None_not_Some. Qed.

Lemma im_keys_insert_elem m x v y : y ∈ im_keys (im_insert m x v) ↔ y = x ∨ y ∈ im_keys m.
Proof.
  rewrite -!im_get_is_Some. destruct (decide (x = y)) as [->|Hne].
  - rewrite im_get_insert. naive_solver.
  - rewrite im_get_insert_ne //. naive_solver.
Qed.
End laws.

(** ** Lists of entries *)

Section entries.
Context {A : Type}.
Implicit Types (m : list (string * A)) (x y : string) (v : A).

Fixpoint entry_get m x : option A :=
  match m with
  | [] => None
  | (y, v) :: m' => if decide (y = x) then Some v else entry_get m' x
  end.

Fixpoint entry_insert m x v : list (string * A) :=
  match m with
  | [] => [(x, v)]
  | (y, w) :: m' => if decide (y = x) then (y, v) :: m' else (y, w) :: entry_insert m' x v
  end.

Lemma entry_get_insert m x v : entry_get (entry_insert m x v) x = Some v.
Proof.
  induction m as [|[y w] m IH]; simpl; [by rewrite decide_True|].
  destruct (decide (y = x)) as [->|Hne]; simpl; [by rewrite decide_True|by rewrite decide_False].
Qed.

Lemma entry_get_insert_ne m x y v : x ≠ y → entry_get (entry_insert m x v) y = entry_get m y.
Proof.
  intros Hne. induction m as [|[z w] m IH]; simpl; [by rewrite decide_False|].
  destruct (decide (z = x)) as [->|?]; simpl; [|by rewrite IH].
  by rewrite !decide_False.
Qed.

Lemma entry_get_is_Some m x : is_Some (entry_get m x) ↔ x ∈ map fst m.
Proof.
  induction m as [|[y v] m IH]; simpl.
  - split; [by intros [? ?]|by intros ?%not_elem_of_nil].
  - rewrite elem_of_cons -IH. destruct (decide (y = x)) as [->|Hne]; [by split; [left|eauto]|].
    split; [by right|]. by intros [->|?].
Qed.

Lemma entry_keys_insert m x v : x ∈ map fst m → map fst (entry_insert m x v) = map fst m.
Proof.
  induction m as [|[y w] m IH]; simpl; [by intros ?%not_elem_of_nil|].
  intros Hx. destruct (decide (y = x)) as [->|Hne]; simpl; [done|].
  rewrite IH //. by apply elem_of_cons in Hx as [->|?].
Qed.

Lemma entry_keys_insert_new m x v : x ∉ map fst m →
  map fst (entry_insert m x v) = map fst m ++ [x].
Proof.
  induction m as [|[y w] m IH]; simpl; [done|]. intros Hx.
  rewrite decide_False; [by intros ->; apply Hx, list_elem_of_here|]. simpl. f_equal. apply IH.
  intros ?. by apply Hx, elem_of_cons; right.
Qed.

Lemma entry_ext m m' : NoDup (map fst m) → map fst m = map fst m' →
  (∀ x, entry_get m x = entry_get m' x) → m = m'.
Proof.
  revert m'. induction m as [|[x v] m IH]; intros [|[y w] m'] Hnd Hk Hv; try done.
  simpl in Hk, Hnd. injection Hk as <- Hk. apply NoDup_cons in Hnd as [Hx Hnd].
  pose proof (Hv x) as Hxv. simpl in Hxv. rewrite !decide_True // in Hxv. injection Hxv as <-.
  f_equal. apply IH; [done|done|]. intros z. specialize (Hv z). simpl in Hv.
  destruct (decide (x = z)) as [<-|]; [|done]. 
  assert (entry_get m x = None) as -> by by rewrite eq_None_not_Some entry_get_is_Some.
  symmetry. rewrite eq_None_not_Some entry_get_is_Some. by rewrite -Hk.
Qed.
End entries.

Definition entry_list : IndexMapOps := {|
  IndexMap A := list (string * A);
  im_empty A := [];
  im_keys A := map fst;
  im_get A := entry_get;
  im_insert A := entry_insert
|}.

#[global] Instance entry_list_laws : IndexMapLaws entry_list.
Proof.
  split; intros A; [done|apply entry_get_is_Some|apply entry_get_insert|apply entry_get_insert_ne
    |apply entry_keys_insert|apply entry_keys_insert_new|apply entry_ext].
Qed.
