(* ===== verification/Visitor.v ===== *)
(** * Expression visitors (source/air/src/visitor.rs)

    [map_expr_visitor] rebuilds an expression bottom-up and applies [f] to every
    node; [map_stmt_expr_visitor] does so to the expression of a leaf statement
    and applies [f] once more to the root. *)

From S2P Require Import Prelude Ast.
Set Warnings "-rewrite-rw,-register-all,-clear-no-such-hyp".

Section visitor.
Context (f : Expr → Expr).

Fixpoint map_expr_visitor (expr : Expr) : Expr :=
  match expr with
  | ExprX_Const _ => f expr
  | ExprX_Var _ => f expr
  | ExprX_Old _ _ => f expr
  | ExprX_Apply x es => f (ExprX_Apply x (map map_expr_visitor es))
  | ExprX_ApplyFun t e0 es =>
    f (ExprX_ApplyFun t (map_expr_visitor e0) (map map_expr_visitor es))
  | ExprX_Unary op e1 => f (ExprX_Unary op (map_expr_visitor e1))
  | ExprX_Binary op e1 e2 => f (ExprX_Binary op (map_expr_visitor e1) (map_expr_visitor e2))
  | ExprX_Multi op es => f (ExprX_Multi op (map map_expr_visitor es))
  | ExprX_IfElse e1 e2 e3 =>
    f (ExprX_IfElse (map_expr_visitor e1) (map_expr_visitor e2) (map_expr_visitor e3))
  | ExprX_Array es => f (ExprX_Array (map map_expr_visitor es))
  | ExprX_Bind bind e1 =>
    let bind :=
      match bind with
      | BindX_Let bs => BindX_Let (map (λ b, mkBinder (bname b) (map_expr_visitor (ba b))) bs)
      | BindX_Quant quant binders ts qid =>
        BindX_Quant quant binders (map (map map_expr_visitor) ts) qid
      | BindX_Lambda binders ts qid wrap_ cond =>
        BindX_Lambda binders (map (map map_expr_visitor) ts) qid
          match wrap_ with
          | Some w => Some (mkWrapLambda (wrap w) (map_expr_visitor (wrap_id w)))
          | None => None
          end
          match cond with Some c => Some (map_expr_visitor c) | None => None end
      | BindX_Choose binders ts qid e2 =>
        BindX_Choose binders (map (map map_expr_visitor) ts) qid (map_expr_visitor e2)
      end in
    f (ExprX_Bind bind (map_expr_visitor e1))
  | ExprX_LabeledAssertion aid l filter e1 =>
    f (ExprX_LabeledAssertion aid l filter (map_expr_visitor e1))
  | ExprX_LabeledAxiom l filter e1 => f (ExprX_LabeledAxiom l filter (map_expr_visitor e1))
  end.

Definition map_stmt_expr_visitor (stmt : Stmt) : Stmt :=
  match stmt with
  | StmtX_Assume e => StmtX_Assume (f (map_expr_visitor e))
  | StmtX_Assert aid span filter e => StmtX_Assert aid span filter (f (map_expr_visitor e))
  | StmtX_Assign x e => StmtX_Assign x (f (map_expr_visitor e))
  | _ => stmt
  end.
End visitor.
