(* ===== verification/VarToConst.v ===== *)
(** * From assignments to versioned constants (source/air/src/var_to_const.rs)

    Every mutable variable [x] becomes the constants [x@0], [x@1], ...; an
    assignment becomes an assumption about the next version.  Where control flow
    joins, every path is brought to the largest version any of them reached. *)

From S2P Require Import Prelude RustString Ast AstUtil IndexMap Visitor.
Set Warnings "-rewrite-rw,-register-all,-clear-no-such-hyp".

Section with_index_map.
Context {IM : IndexMapOps}.

Definition Versions := IndexMap N.
Definition Snapshots := gmap Ident Versions.

(** ** Expressions *)

Definition find_version (versions : Versions) (x : Ident) : res Empty_set N :=
  expect (im_get versions x).

Definition rename_var (x : Ident) (n : N) : Ident :=
  if ends_with "@" x then x +:+ N_to_string n else x +:+ "@" +:+ N_to_string n.

(** The guards of the code's match arms ([contains_key]) are the lookups here. *)
Definition lower_expr_visitor (versions : Versions) (snapshots : Snapshots) (expr : Expr) : Expr :=
  match expr with
  | ExprX_Var x =>
    match im_get versions x with Some n => ExprX_Var (rename_var x n) | None => expr end
  | ExprX_Old snap x =>
    match (m ← snapshots !! snap; im_get m x) with
    | Some n => ExprX_Var (rename_var x n)
    | None => ExprX_Var x
    end
  | _ => expr
  end.

Definition lower_expr (versions : Versions) (snapshots : Snapshots) (expr : Expr) : Expr :=
  map_expr_visitor (lower_expr_visitor versions snapshots) expr.

(** ** Joins *)

Definition max_list (ns : list N) : N := foldr N.max 0%N ns.

(** [for x in all_versions[0].keys() { versions.insert(x, max of v[x]) }] *)
Fixpoint insert_maxima (all_versions : list Versions) (xs : list Ident) (versions : Versions)
    : res Empty_set Versions :=
  match xs with
  | [] => Ok versions
  | x :: xs' =>
    rbind (rmap (λ v, expect (im_get v x)) all_versions) (λ ns,
    insert_maxima all_versions xs' (im_insert versions x (max_list ns)))
  end.

Definition update_versions_from_all_branches (all_versions : list Versions) (versions : Versions)
    : res Empty_set Versions :=
  rbind (expect (head all_versions)) (λ v0,
  insert_maxima all_versions (im_keys v0) versions).

(** The assumptions [x@to == x@from] for the variables whose version grows. *)
Fixpoint version_equalities (versions_from versions_to : Versions) (xs : list Ident)
    : res Empty_set (list Stmt) :=
  match xs with
  | [] => Ok []
  | x :: xs' =>
    rbind (find_version versions_from x) (λ k,
    rbind (find_version versions_to x) (λ m,
    rbind (version_equalities versions_from versions_to xs') (λ rest,
    Ok (if (k <? m)%N then
          let xk := string_var (rename_var x k) in
          let xm := string_var (rename_var x m) in
          StmtX_Assume (ExprX_Binary BinaryOp_Eq xm xk) :: rest
        else rest))))
  end.

Definition update_branch_to_versions (versions_from versions_to : Versions) (stmt : Stmt)
    (update_before : bool) : res Empty_set Stmt :=
  rbind (version_equalities versions_from versions_to (im_keys versions_to)) (λ eqs,
  Ok (StmtX_Block (if update_before then eqs ++ [stmt] else stmt :: eqs))).

Section lists.
Context (f : nat → Stmt → res Empty_set (Stmt * nat)).
Fixpoint update_list (break_i : nat) (ss : list Stmt) : res Empty_set (list Stmt * nat) :=
  match ss with
  | [] => Ok ([], break_i)
  | s :: ss' =>
    rbind (f break_i s) (λ '(s1, i1),
    rbind (update_list i1 ss') (λ '(ss1, i2), Ok (s1 :: ss1, i2)))
  end.
End lists.

(** [break_i] counts the [Break label]s met so far. *)
Fixpoint update_breaks_to_versions (label : Ident) (all_versions : list Versions)
    (versions_to : Versions) (break_i : nat) (stmt : Stmt) : res Empty_set (Stmt * nat) :=
  match stmt with
  | StmtX_Assume _ | StmtX_Assert _ _ _ _ => Ok (stmt, break_i)
  | StmtX_Havoc _ | StmtX_Assign _ _ => Ok (stmt, break_i)
  | StmtX_Snapshot _ => Ok (stmt, break_i)
  | StmtX_DeadEnd s =>
    rbind (update_breaks_to_versions label all_versions versions_to break_i s) (λ '(s, i),
    Ok (StmtX_DeadEnd s, i))
  | StmtX_Breakable x s =>
    rbind (update_breaks_to_versions label all_versions versions_to break_i s) (λ '(s, i),
    Ok (StmtX_Breakable x s, i))
  | StmtX_Break x =>
    if decide (x = label) then
      rbind (expect (all_versions !! break_i)) (λ v,
      rbind (update_branch_to_versions v versions_to stmt true) (λ s,
      Ok (s, S break_i)))
    else Ok (stmt, break_i)
  | StmtX_Block ss =>
    rbind (update_list (update_breaks_to_versions label all_versions versions_to) break_i ss)
      (λ '(ss, i), Ok (StmtX_Block ss, i))
  | StmtX_Switch ss =>
    rbind (update_list (update_breaks_to_versions label all_versions versions_to) break_i ss)
      (λ '(ss, i), Ok (StmtX_Switch ss, i))
  end.

(** ** Statements *)

Inductive VersionOrigin := VersionOrigin_Initial | VersionOrigin_Havoc | VersionOrigin_Assign.

(** A call of the observer's [on_wp_version_created]. *)
Record VersionEvent := mkEvent {
  ev_versioned : Ident; ev_base : Ident; ev_version : N; ev_origin : VersionOrigin
}.

(** [events] is the sequence of calls the observer gets. *)
Record LowerStmtState := mkLower {
  decls : list Decl;
  break_versions : gmap Ident (list Versions);
  version_decls : gset Ident;
  all_snapshots : Snapshots;
  events : list VersionEvent
}.

Definition notify_version_created (state : LowerStmtState) (versioned base : Ident) (version : N)
    (kind : VersionOrigin) : LowerStmtState :=
  mkLower (decls state) (break_versions state) (version_decls state) (all_snapshots state)
    (events state ++ [mkEvent versioned base version kind]).

Definition set_break_versions (state : LowerStmtState) bv : LowerStmtState :=
  mkLower (decls state) bv (version_decls state) (all_snapshots state) (events state).

Definition extend_snapshots (state : LowerStmtState) (snaps : Snapshots) : LowerStmtState :=
  mkLower (decls state) (break_versions state) (version_decls state)
    (snaps ∪ all_snapshots state) (events state).

(** The declaration of a version that has none yet. *)
Definition declare_version (state : LowerStmtState) (x : Ident) (typ : Typ) : LowerStmtState :=
  if decide (x ∈ version_decls state) then state
  else mkLower (decls state ++ [DeclX_Const x typ]) (break_versions state)
         ({[x]} ∪ version_decls state) (all_snapshots state) (events state).

(** The part of the [Havoc]/[Assign] case that creates the next version of [x]. *)
Definition create_version (oc : bool) (types : gmap Ident Typ) (state : LowerStmtState)
    (versions : Versions) (x : Ident) (kind : VersionOrigin)
    : res Empty_set (Ident * LowerStmtState * Versions) :=
  rbind (find_version versions x) (λ n,
  rbind (expect (types !! x)) (λ typ,
  rbind (u32_add oc n 1) (λ n1,
  let versions := im_insert versions x n1 in
  let xn := rename_var x n1 in
  let state := declare_version state xn typ in
  Ok (xn, notify_version_created state xn x n1 kind, versions)))).

Definition LowerVars := (LowerStmtState * Versions * Snapshots)%type.

Section stmts.
Context (f : Stmt → LowerVars → res Empty_set (Stmt * LowerVars)).

(** [for s in ss { stmts.push(lower_stmt(state, versions, snapshots, types, s)) }] *)
Fixpoint lower_stmts (ss : list Stmt) (vars : LowerVars) : res Empty_set (list Stmt * LowerVars) :=
  match ss with
  | [] => Ok ([], vars)
  | s :: ss' =>
    rbind (f s vars) (λ '(s1, vars1),
    rbind (lower_stmts ss' vars1) (λ '(ss1, vars2), Ok (s1 :: ss1, vars2)))
  end.

(** The first loop of the [Switch] case: every branch starts from copies of
    [versions] and [snapshots]. *)
Fixpoint lower_branches (versions : Versions) (snapshots : Snapshots) (ss : list Stmt)
    (state : LowerStmtState) : res Empty_set (list Stmt * list Versions * LowerStmtState) :=
  match ss with
  | [] => Ok ([], [], state)
  | s :: ss' =>
    rbind (f s (state, versions, snapshots)) (λ '(s1, (state1, versions_i, snapshots_i)),
    let state1 := extend_snapshots state1 snapshots_i in
    rbind (lower_branches versions snapshots ss' state1) (λ '(ss1, all_versions, state2),
    Ok (s1 :: ss1, versions_i :: all_versions, state2)))
  end.
End stmts.

(** The second loop of the [Switch] case. *)
Fixpoint update_branches (all_versions : list Versions) (versions : Versions) (ss : list Stmt)
    : res Empty_set (list Stmt) :=
  match ss, all_versions with
  | [], _ => Ok []
  | s :: ss', v :: all' =>
    rbind (update_branch_to_versions v versions s false) (λ s1,
    rbind (update_branches all' versions ss') (λ ss1, Ok (s1 :: ss1)))
  | _ :: _, [] => Panic
  end.

Fixpoint lower_stmt (oc : bool) (types : gmap Ident Typ) (stmt : Stmt) (vars : LowerVars)
    {struct stmt} : res Empty_set (Stmt * LowerVars) :=
  let '(state, versions, snapshots) := vars in
  let visited := map_stmt_expr_visitor (lower_expr_visitor versions snapshots) stmt in
  match stmt with
  | StmtX_Assume _ | StmtX_Assert _ _ _ _ => Ok (visited, vars)
  | StmtX_Havoc x =>
    rbind (create_version oc types state versions x VersionOrigin_Havoc)
      (λ '(x, state, versions), Ok (StmtX_Block [], (state, versions, snapshots)))
  | StmtX_Assign x _ =>
    rbind (create_version oc types state versions x VersionOrigin_Assign)
      (λ '(x, state, versions),
       let out := match visited with
         | StmtX_Assign _ e => StmtX_Assume (ExprX_Binary BinaryOp_Eq (ExprX_Var x) e)
         | _ => StmtX_Block []
         end in
       Ok (out, (state, versions, snapshots)))
  | StmtX_Snapshot snap =>
    let snapshots := <[snap := versions]> snapshots in
    let state := mkLower (decls state) (break_versions state) (version_decls state)
                   (<[snap := versions]> (all_snapshots state)) (events state) in
    Ok (StmtX_Block [], (state, versions, snapshots))
  | StmtX_DeadEnd s =>
    rbind (lower_stmt oc types s vars) (λ '(s, vars), Ok (StmtX_DeadEnd s, vars))
  | StmtX_Breakable label s =>
    match break_versions state !! label with
    | Some _ => Panic
    | None =>
      let state := set_break_versions state (<[label := []]> (break_versions state)) in
      rbind (lower_stmt oc types s (state, versions, snapshots))
        (λ '(s, (state, versions, snapshots)),
      rbind (expect (break_versions state !! label)) (λ breaks,
      let state := set_break_versions state (delete label (break_versions state)) in
      let all_versions := versions :: breaks in
      rbind (update_versions_from_all_branches all_versions versions) (λ versions_to,
      rbind (update_breaks_to_versions label all_versions versions_to 1 s) (λ '(s, break_i),
      if decide (break_i = length all_versions) then
        rbind (update_branch_to_versions versions versions_to s false) (λ s,
        Ok (StmtX_Breakable label s, (state, versions_to, snapshots)))
      else Panic))))
    end
  | StmtX_Break label =>
    rbind (expect (break_versions state !! label)) (λ vs,
    let bv := <[label := vs ++ [versions]]> (break_versions state) in
    Ok (stmt, (set_break_versions state bv, versions, snapshots)))
  | StmtX_Block ss =>
    rbind (lower_stmts (lower_stmt oc types) ss vars) (λ '(ss, vars), Ok (StmtX_Block ss, vars))
  | StmtX_Switch [] => Ok (stmt, vars)
  | StmtX_Switch ss =>
    rbind (lower_branches (lower_stmt oc types) versions snapshots ss state)
      (λ '(ss, all_versions, state),
    rbind (update_versions_from_all_branches all_versions versions) (λ versions_to,
    rbind (update_branches all_versions versions_to ss) (λ ss,
    Ok (StmtX_Switch ss, (state, versions_to, snapshots)))))
  end.

(** ** Queries *)

(** The variables of [lower_query]'s loop over the local declarations. *)
Record LowerDecls := mkLowerDecls {
  ld_decls : list Decl;
  ld_versions : Versions;
  ld_types : gmap Ident Typ;
  ld_local_vars : list Decl;
  ld_events : list VersionEvent
}.

(** One iteration ([snapshots] is empty throughout the loop). *)
Definition lower_decl (st : LowerDecls) (decl : Decl) : LowerDecls :=
  let decl1 :=
    match decl with
    | DeclX_Axiom ax => DeclX_Axiom (mkAxiom (named ax) (lower_expr (ld_versions st) ∅ (expr ax)))
    | _ => decl
    end in
  let decls := ld_decls st ++ [decl1] in
  match decl with
  | DeclX_Var x t =>
    let x0 := rename_var x 0 in
    mkLowerDecls (decls ++ [DeclX_Const x0 t]) (im_insert (ld_versions st) x 0%N)
      (<[x := t]> (ld_types st)) (ld_local_vars st)
      (ld_events st ++ [mkEvent x0 x 0 VersionOrigin_Initial])
  | DeclX_Const _ _ =>
    mkLowerDecls decls (ld_versions st) (ld_types st) (ld_local_vars st ++ [decl]) (ld_events st)
  | _ => mkLowerDecls decls (ld_versions st) (ld_types st) (ld_local_vars st) (ld_events st)
  end.

Definition lower_decls (local : Decls) : LowerDecls :=
  foldl lower_decl (mkLowerDecls [] im_empty ∅ [] []) local.

(** The result: the lowered query, the snapshots for the model, the local
    constants for the model, and the observer's calls. *)
Record LoweredQuery := mkLowered {
  lq_query : Query;
  lq_snapshots : Snapshots;
  lq_local_vars : list Decl;
  lq_events : list VersionEvent
}.

Definition lower_query (oc : bool) (query : Query) : res Empty_set LoweredQuery :=
  let d := lower_decls (local query) in
  let state := mkLower (ld_decls d) ∅ ∅ ∅ (ld_events d) in
  rbind (lower_stmt oc (ld_types d) (assertion query) (state, ld_versions d, ∅))
    (λ '(assertion, (state, _, _)),
  Ok (mkLowered (mkQuery (decls state) assertion) (all_snapshots state) (ld_local_vars d)
        (events state))).
End with_index_map.
