(* ===== verification/Ssa.v ===== *)
(** * A one-pass description of the versioning pass

    var_to_const.rs threads a mutable state through the statement and rewrites
    each [Breakable] a second time, counting its breaks.  Here the versions at the
    end of a statement and at its breaks ([vers]), the snapshots ([snaps_after])
    and the lowered statement ([ssa]) are defined by recursion on the statement
    without state; [lower_stmt_ssa] shows that the code computes them. *)

From S2P Require Import Prelude RustString Ast AstUtil StmtFacts IndexMap Visitor VarToConst.
Set Warnings "-rewrite-rw,-register-all,-clear-no-such-hyp".

Section with_index_map.
Context {IM : IndexMapOps}.

(** ** Versions *)

Definition ver (m : Versions) (x : Ident) : N := default 0%N (im_get m x).

(** Set every [x] of [xs] to [g x]. *)
Definition insert_all (m : Versions) (g : Ident → N) (xs : list Ident) : Versions :=
  foldl (λ acc x, im_insert acc x (g x)) m xs.

Definition join (m : Versions) (vs : list Versions) : Versions :=
  insert_all m (λ x, max_list (map (λ v, ver v x) vs)) (im_keys m).

(** Versions at the breaks of a statement, in the order of its text. *)
Definition Breaks := list (Ident * Versions).
Definition breaks_of (l : Ident) (bs : Breaks) : list Versions :=
  map snd (filter (λ p, p.1 = l) bs).
Definition other_breaks (l : Ident) (bs : Breaks) : Breaks := filter (λ p, p.1 ≠ l) bs.

Definition bump (m : Versions) (x : Ident) : Versions := im_insert m x (ver m x + 1)%N.

Section lists.
Context (f : Stmt → Versions → Versions * Breaks).
Fixpoint vers_block (ss : list Stmt) (m : Versions) : Versions * Breaks :=
  match ss with
  | [] => (m, [])
  | s :: ss' =>
    let r1 := f s m in let r2 := vers_block ss' r1.1 in (r2.1, r1.2 ++ r2.2)
  end.
End lists.

Definition join_breakable (l : Ident) (r : Versions * Breaks) : Versions :=
  join r.1 (r.1 :: breaks_of l r.2).

(** The versions at the normal end, and at the breaks that leave the statement. *)
Fixpoint vers (s : Stmt) (m : Versions) : Versions * Breaks :=
  match s with
  | StmtX_Havoc x | StmtX_Assign x _ => (bump m x, [])
  | StmtX_DeadEnd s => vers s m
  | StmtX_Breakable l s => let r := vers s m in (join_breakable l r, other_breaks l r.2)
  | StmtX_Break l => (m, [(l, m)])
  | StmtX_Block ss => vers_block vers ss m
  | StmtX_Switch [] => (m, [])
  | StmtX_Switch ss =>
    (join m (map (λ s, (vers s m).1) ss), concat (map (λ s, (vers s m).2) ss))
  | _ => (m, [])
  end.

End with_index_map.

Abbreviation final s m := (vers s m).1.
Abbreviation breaks s m := (vers s m).2.

Section with_index_map.
Context {IM : IndexMapOps}.

Section lists.
Context {A : Type} (f : Stmt → Versions → A → A).
Fixpoint thread (ss : list Stmt) (m : Versions) (x : A) : A :=
  match ss with
  | [] => x
  | s :: ss' => thread ss' (final s m) (f s m x)
  end.
End lists.

Fixpoint snaps_after (s : Stmt) (m : Versions) (S : Snapshots) : Snapshots :=
  match s with
  | StmtX_Snapshot snap => <[snap := m]> S
  | StmtX_DeadEnd s | StmtX_Breakable _ s => snaps_after s m S
  | StmtX_Block ss => thread snaps_after ss m S
  | _ => S
  end.

(** The observer's events. *)
Fixpoint version_events (s : Stmt) (m : Versions) : list VersionEvent :=
  let event x kind := mkEvent (rename_var x (ver m x + 1)) x (ver m x + 1) kind in
  match s with
  | StmtX_Havoc x => [event x VersionOrigin_Havoc]
  | StmtX_Assign x _ => [event x VersionOrigin_Assign]
  | StmtX_DeadEnd s | StmtX_Breakable _ s => version_events s m
  | StmtX_Block ss => thread (λ s m acc, acc ++ version_events s m) ss m []
  | StmtX_Switch ss => concat (map (λ s, version_events s m) ss)
  | _ => []
  end.

(** ** The lowered statement *)

(** Assumptions that bring [from] up to [to]. *)
Definition version_eq (from to : Versions) (x : Ident) : list Stmt :=
  if (ver from x <? ver to x)%N
  then [StmtX_Assume (ExprX_Binary BinaryOp_Eq (ExprX_Var (rename_var x (ver to x)))
                        (ExprX_Var (rename_var x (ver from x))))]
  else [].
Definition version_eqs (from to : Versions) : list Stmt :=
  concat (map (version_eq from to) (im_keys to)).

Definition lower_root (m : Versions) (S : Snapshots) (e : Expr) : Expr :=
  lower_expr_visitor m S (lower_expr m S e).

Section lists.
Context (f : Stmt → Versions → Snapshots → Stmt).
Fixpoint ssa_block (ss : list Stmt) (m : Versions) (S : Snapshots) : list Stmt :=
  match ss with
  | [] => []
  | s :: ss' => f s m S :: ssa_block ss' (final s m) (snaps_after s m S)
  end.
End lists.

(** [T] gives the versions at the end of the [Breakable]s around the statement. *)
Fixpoint ssa (T : gmap Ident Versions) (s : Stmt) (m : Versions) (S : Snapshots) : Stmt :=
  match s with
  | StmtX_Assume e => StmtX_Assume (lower_root m S e)
  | StmtX_Assert aid msg filter e => StmtX_Assert aid msg filter (lower_root m S e)
  | StmtX_Havoc x => StmtX_Block []
  | StmtX_Assign x e =>
    StmtX_Assume (ExprX_Binary BinaryOp_Eq (ExprX_Var (rename_var x (ver m x + 1))) (lower_root m S e))
  | StmtX_Snapshot _ => StmtX_Block []
  | StmtX_DeadEnd s => StmtX_DeadEnd (ssa T s m S)
  | StmtX_Breakable l s =>
    let mt := join_breakable l (vers s m) in
    StmtX_Breakable l (StmtX_Block (ssa (<[l := mt]> T) s m S :: version_eqs (final s m) mt))
  | StmtX_Break l =>
    match T !! l with
    | Some mt => StmtX_Block (version_eqs m mt ++ [StmtX_Break l])
    | None => StmtX_Break l
    end
  | StmtX_Block ss => StmtX_Block (ssa_block (ssa T) ss m S)
  | StmtX_Switch ss =>
    let mt := final (StmtX_Switch ss) m in
    StmtX_Switch (map (λ s, StmtX_Block (ssa T s m S :: version_eqs (final s m) mt)) ss)
  end.

(** ** What a statement assigns *)

Fixpoint assigned (s : Stmt) : list Ident :=
  match s with
  | StmtX_Havoc x | StmtX_Assign x _ => [x]
  | StmtX_DeadEnd s | StmtX_Breakable _ s => assigned s
  | StmtX_Block ss | StmtX_Switch ss => concat (map assigned ss)
  | _ => []
  end.

Definition assign_count (s : Stmt) : N := N.of_nat (length (assigned s)).
End with_index_map.

(** ** Facts about versions

    Versions only grow, by at most the number of assignments; all version maps
    of a query have the same keys. *)

Section with_index_map.
Context {IM : IndexMapOps} {IML : IndexMapLaws IM}.
Implicit Types (m v : Versions) (K : list Ident) (bs : Breaks).

(** ** Maxima and joins *)

Lemma max_list_ge n ns : n ∈ ns → (n ≤ max_list ns)%N.
Proof.
  induction ns as [|k ns IH]; simpl; [by intros ?%not_elem_of_nil|].
  intros [->|H%IH]%elem_of_cons; lia.
Qed.

Lemma max_list_le b ns : Forall (λ n, (n ≤ b)%N) ns → (max_list ns ≤ b)%N.
Proof. induction 1; simpl; lia. Qed.

Lemma ver_not_key m x : x ∉ im_keys m → ver m x = 0%N.
Proof. unfold ver. by intros ->%im_get_None. Qed.

Lemma im_get_ver m x : x ∈ im_keys m → im_get m x = Some (ver m x).
Proof. unfold ver. by intros [n ->]%im_get_is_Some. Qed.

Lemma ver_bump m x : ver (bump m x) x = (ver m x + 1)%N.
Proof. unfold bump, ver at 1. by rewrite im_get_insert. Qed.
Lemma ver_bump_ne m x y : x ≠ y → ver (bump m x) y = ver m y.
Proof. intros. unfold bump, ver at 1. by rewrite im_get_insert_ne. Qed.

Lemma keys_insert_all g xs m : xs ⊆ im_keys m → im_keys (insert_all m g xs) = im_keys m.
Proof.
  revert m. induction xs as [|x xs IH]; intros m Hsub; simpl; [done|].
  assert (Hk : im_keys (im_insert m x (g x)) = im_keys m)
    by by apply im_keys_insert, Hsub, list_elem_of_here.
  rewrite IH ?Hk //. intros y Hy. apply Hsub, elem_of_cons. by right.
Qed.

Lemma get_insert_all g xs m (x : Ident) :
  im_get (insert_all m g xs) x = if decide (x ∈ xs) then Some (g x) else im_get m x.
Proof.
  revert m. induction xs as [|y xs IH]; intros m.
  - destruct (decide (x ∈ [])) as [Hx|]; [by apply not_elem_of_nil in Hx|done].
  - change (insert_all m g (y :: xs)) with (insert_all (im_insert m y (g y)) g xs). rewrite IH.
    destruct (decide (x ∈ xs)) as [Hx|Hx], (decide (x ∈ y :: xs)) as [Hy|Hy]; try done.
    + exfalso. apply Hy, elem_of_cons. by right.
    + apply elem_of_cons in Hy as [->|]; [apply im_get_insert|done].
    + apply im_get_insert_ne. intros ->. apply Hy, list_elem_of_here.
Qed.

Lemma keys_join m vs : im_keys (join m vs) = im_keys m.
Proof. by apply keys_insert_all. Qed.
Lemma ver_join m vs x :
  x ∈ im_keys m → ver (join m vs) x = max_list (map (λ v, ver v x) vs).
Proof. intros Hx. unfold ver at 1, join. rewrite get_insert_all. by destruct (decide _). Qed.

Lemma versions_ext m v : im_keys m = im_keys v → NoDup (im_keys m) →
  (∀ x, x ∈ im_keys m → ver m x = ver v x) → m = v.
Proof.
  intros Hk Hnd Hv. apply im_ext; [done|done|]. intros x.
  destruct (decide (x ∈ im_keys m)) as [Hx|Hx].
  - rewrite (im_get_ver m x Hx) (im_get_ver v x); [by rewrite -Hk|]. by rewrite Hv.
  - assert (Hx' : x ∉ im_keys v) by by rewrite -Hk.
    by rewrite (proj2 (im_get_None m x) Hx) (proj2 (im_get_None v x) Hx').
Qed.

(** ** Versions stay in range *)

(** [v] has keys [K], is at or above [m0], and at or below [b]. *)
Definition between K m0 (b : N) v : Prop :=
  im_keys v = K ∧ (∀ x, (ver m0 x ≤ ver v x)%N) ∧ (∀ x, (ver v x ≤ b)%N).

Lemma between_weaken K m0 b b' v : (b ≤ b')%N → between K m0 b v → between K m0 b' v.
Proof. intros ? (? & ? & Hb). split_and!; try done. intros x. specialize (Hb x). lia. Qed.

Lemma between_self K m0 b m : between K m0 b m → between K m b m.
Proof. intros (? & ? & ?). split_and!; try done. Qed.

Lemma between_bump K m0 b m x :
  x ∈ K → between K m0 b m → between K m0 (b + 1) (bump m x).
Proof.
  intros Hx (Hk & Hl & Hb). split_and!.
  - unfold bump. rewrite im_keys_insert //. by rewrite Hk.
  - intros y. specialize (Hl y). destruct (decide (x = y)) as [->|Hne].
    + rewrite ver_bump. lia. + by rewrite ver_bump_ne.
  - intros y. specialize (Hb y). destruct (decide (x = y)) as [->|Hne].
    + rewrite ver_bump. lia. + rewrite ver_bump_ne //. lia.
Qed.

Lemma between_join K m0 b m vs :
  im_keys m = K → vs ≠ [] → Forall (between K m0 b) vs → between K m0 b (join m vs).
Proof.
  intros Hk Hne Hvs. destruct vs as [|v vs]; [done|].
  split_and!; [by rewrite keys_join|..]; intros x; destruct (decide (x ∈ K)) as [Hx|Hx].
  - rewrite ver_join; [by rewrite Hk|]. apply Forall_cons in Hvs as [(_ & Hl & _) _].
    simpl. specialize (Hl x). lia.
  - apply Forall_cons in Hvs as [(Hkv & Hl & _) _]. specialize (Hl x).
    rewrite (ver_not_key v) in Hl; [by rewrite Hkv|]. lia.
  - rewrite ver_join; [by rewrite Hk|]. apply max_list_le, Forall_map.
    eapply Forall_impl; [exact Hvs|]. intros v' (_ & _ & Hb). apply Hb.
  - rewrite ver_not_key; [by rewrite keys_join Hk|]. lia.
Qed.

Definition breaks_between K m0 b bs : Prop := Forall (λ p, between K m0 b p.2) bs.

Lemma breaks_of_Forall (P : Versions → Prop) l bs :
  Forall (λ p, P p.2) bs → Forall P (breaks_of l bs).
Proof.
  intros H. unfold breaks_of. apply Forall_map, Forall_forall. intros p [_ Hp]%list_elem_of_filter.
  by eapply Forall_forall in H.
Qed.

Lemma other_breaks_Forall (P : Ident * Versions → Prop) l bs :
  Forall P bs → Forall P (other_breaks l bs).
Proof.
  rewrite !Forall_forall. intros H p [_ Hp]%list_elem_of_filter. by apply H.
Qed.

Definition vers_in_range s : Prop := ∀ K m0 b m,
  between K m0 b m → assigned s ⊆ K →
  between K m0 (b + assign_count s) (final s m)
  ∧ breaks_between K m0 (b + assign_count s) (breaks s m).

Lemma assign_count_cons s ss :
  N.of_nat (length (concat (map assigned (s :: ss))))
  = (assign_count s + N.of_nat (length (concat (map assigned ss))))%N.
Proof. unfold assign_count. rewrite /= length_app. lia. Qed.

Lemma vers_block_in_range ss : Forall vers_in_range ss → ∀ K m0 b m,
  between K m0 b m → concat (map assigned ss) ⊆ K →
  let r := vers_block vers ss m in
  let b' := (b + N.of_nat (length (concat (map assigned ss))))%N in
  between K m0 b' r.1 ∧ breaks_between K m0 b' r.2.
Proof.
  induction 1 as [|s ss Hs _ IH]; intros K m0 b m Hm Hsub.
  { simpl. rewrite N.add_0_r. split; [done|constructor]. }
  cbv zeta. rewrite assign_count_cons. simpl in Hsub.
  destruct (Hs K m0 b m) as [H1 H2]; [done| |].
  { intros x Hx. apply Hsub, elem_of_app. by left. }
  destruct (IH K m0 _ _ H1) as [H3 H4].
  { intros x Hx. apply Hsub, elem_of_app. by right. }
  rewrite N.add_assoc. simpl. split; [done|]. apply Forall_app. split; [|done].
  eapply Forall_impl; [exact H2|]. intros p. apply between_weaken. lia.
Qed.

Lemma vers_branches_in_range ss : Forall vers_in_range ss → ∀ K m0 b m,
  between K m0 b m → concat (map assigned ss) ⊆ K →
  let b' := (b + N.of_nat (length (concat (map assigned ss))))%N in
  Forall (between K m0 b') (map (λ s, final s m) ss)
  ∧ breaks_between K m0 b' (concat (map (λ s, breaks s m) ss)).
Proof.
  induction 1 as [|s ss Hs _ IH]; intros K m0 b m Hm Hsub; [by split; constructor|].
  cbv zeta. rewrite assign_count_cons. simpl in Hsub.
  destruct (Hs K m0 b m) as [H1 H2]; [done| |].
  { intros x Hx. apply Hsub, elem_of_app. by left. }
  destruct (IH K m0 b m Hm) as [H3 H4].
  { intros x Hx. apply Hsub, elem_of_app. by right. }
  simpl. split.
  - constructor; [eapply between_weaken; [|exact H1]; lia|].
    eapply Forall_impl; [exact H3|]. intros v. apply between_weaken. lia.
  - apply Forall_app. split.
    + eapply Forall_impl; [exact H2|]. intros p. apply between_weaken. lia.
    + eapply Forall_impl; [exact H4|]. intros p. apply between_weaken. lia.
Qed.

Lemma vers_between s : vers_in_range s.
Proof.
  induction s as [e|i msg f e|x|x e|x|s IH|l s IH|l|ss IH|ss IH] using StmtX_ind';
    intros K m0 b m Hm Hsub; try (unfold assign_count; simpl; rewrite N.add_0_r;
      split; [done|by constructor]).
  - split; [|constructor]. apply between_bump; [|done]. apply Hsub, list_elem_of_here.
  - split; [|constructor]. apply between_bump; [|done]. apply Hsub, list_elem_of_here.
  - by apply IH.
  - destruct (IH K m0 b m Hm Hsub) as [H1 H2]. split.
    + apply between_join; [by apply H1|done|]. constructor; [done|]. by apply breaks_of_Forall.
    + by apply other_breaks_Forall.
  - by apply (vers_block_in_range ss IH).
  - destruct (vers_branches_in_range ss IH K m0 b m Hm Hsub) as [H1 H2].
    destruct ss as [|s ss].
    + split; [|constructor]. eapply between_weaken; [|exact Hm]. lia.
    + split; [|done]. apply between_join; [by apply Hm|done|done].
Qed.

(** ** Invariants of the version maps *)

Section invariant.
Context (P : Versions → Prop).
Context (P_join : ∀ m vs, P m → vs ≠ [] → Forall P vs → P (join m vs)).

Definition keeps s : Prop :=
  (∀ m x, x ∈ assigned s → P m → P (bump m x)) →
  ∀ m, P m → P (final s m) ∧ Forall (λ p, P p.2) (breaks s m).

Lemma vers_keeps s : keeps s.
Proof.
  induction s as [e|i msg f e|x|x e|x|s IH|l s IH|l|ss IH|ss IH] using StmtX_ind';
    intros Hb m Hm; try (by split; [done|repeat constructor]).
  - split; [|constructor]. apply Hb; [apply list_elem_of_here|done].
  - split; [|constructor]. apply Hb; [apply list_elem_of_here|done].
  - by apply IH.
  - destruct (IH Hb m Hm) as [H1 H2]. split; [|by apply other_breaks_Forall].
    apply P_join; [done|done|]. constructor; [done|]. by apply breaks_of_Forall.
  - simpl in Hb. simpl. revert m Hm. induction IH as [|s ss Hs _ IHss]; intros m Hm.
    { split; [done|constructor]. }
    destruct (Hs (λ m x Hx, Hb m x ltac:(simpl; apply elem_of_app; by left)) m Hm) as [H1 H2].
    destruct (IHss (λ m x Hx, Hb m x ltac:(simpl; apply elem_of_app; by right)) _ H1) as [H3 H4].
    simpl. split; [done|]. apply Forall_app. by split.
  - assert (H : Forall P (map (λ s, final s m) ss)
                ∧ Forall (λ p, P p.2) (concat (map (λ s, breaks s m) ss))).
    { simpl in Hb. induction IH as [|s ss Hs _ IHss]; [by split; constructor|].
      destruct (Hs (λ m x Hx, Hb m x ltac:(simpl; apply elem_of_app; by left)) m Hm) as [H1 H2].
      destruct IHss as [H3 H4]; [intros; apply Hb; [simpl; apply elem_of_app; by right|done]|].
      simpl. split; [by constructor|]. apply Forall_app. by split. }
    destruct ss as [|s ss]; [done|]. destruct H as [H1 H2]. split; [|done].
    by apply P_join.
Qed.
End invariant.

Lemma vers_keys s m : assigned s ⊆ im_keys m →
  im_keys (final s m) = im_keys m ∧ Forall (λ p, im_keys p.2 = im_keys m) (breaks s m).
Proof.
  intros Hsub. apply (vers_keeps (λ v, im_keys v = im_keys m)); [|..|done].
  - intros v vs Hv _ _. by rewrite keys_join.
  - intros v x Hx Hv. unfold bump. rewrite im_keys_insert; [|done]. rewrite Hv. by apply Hsub.
Qed.

(** A variable that is not assigned keeps its version. *)
Lemma vers_unassigned s m x : x ∉ assigned s → x ∈ im_keys m → assigned s ⊆ im_keys m →
  ver (final s m) x = ver m x ∧ Forall (λ p, ver p.2 x = ver m x) (breaks s m).
Proof.
  intros Hx Hk Hsub.
  destruct (vers_keeps (λ v, ver v x = ver m x ∧ im_keys v = im_keys m)) with (s := s) (m := m)
    as [[H1 _] H2].
  - intros v vs [Hv Hkv] Hne Hvs. split; [|by rewrite keys_join].
    rewrite ver_join; [by rewrite Hkv|]. destruct vs as [|v1 vs]; [done|].
    apply N.le_antisymm.
    + apply max_list_le, Forall_map. eapply Forall_impl; [exact Hvs|]. intros ? [-> _]. lia.
    + apply Forall_cons in Hvs as [[<- _] _]. simpl. lia.
  - intros v y Hy [Hv Hkv]. rewrite ver_bump_ne; [by intros ->|]. split; [done|].
    unfold bump. rewrite im_keys_insert //. rewrite Hkv. by apply Hsub.
  - done.
  - split; [done|]. eapply Forall_impl; [exact H2|]. by intros p [? _].
Qed.

Lemma vers_no_assign s m : assigned s = [] → NoDup (im_keys m) →
  final s m = m ∧ Forall (λ p, p.2 = m) (breaks s m).
Proof.
  intros Ha Hnd.
  assert (Hsub : assigned s ⊆ im_keys m) by (rewrite Ha; by intros x ?%not_elem_of_nil).
  destruct (vers_keys s m Hsub) as [Hk Hkb]. split.
  - apply versions_ext; [done|by rewrite Hk|]. rewrite Hk. intros x Hx.
    apply vers_unassigned; [rewrite Ha; apply not_elem_of_nil|done|done].
  - apply Forall_forall. intros p Hp. pose proof (proj1 (Forall_forall _ _) Hkb p Hp) as Hkp.
    apply versions_ext; [done|by rewrite Hkp|]. rewrite Hkp. intros x Hx.
    destruct (vers_unassigned s m x) as [_ H]; [rewrite Ha; apply not_elem_of_nil|done|done|].
    by apply (proj1 (Forall_forall _ _) H p Hp).
Qed.
End with_index_map.
