(* ===== verification/SsaEquiv.v ===== *)
(** * The versioning pass computes the one-pass description

    [lower_stmt_ssa]: [lower_stmt] does not panic on statements with well-formed
    labels and declared variables, and returns [ssa] with the versions [vers];
    the rewriting of breaks finds exactly the versions recorded for them. *)

From S2P Require Import Prelude RustString Ast AstUtil IndexMap Visitor StmtFacts VarToConst Ssa.
Set Warnings "-rewrite-rw,-register-all,-clear-no-such-hyp".

Section with_index_map.
Context {IM : IndexMapOps} {IML : IndexMapLaws IM}.
Implicit Types (m v : Versions) (K : list Ident) (bs : Breaks) (S : Snapshots).

(** ** Joins *)

Lemma rmap_get vs x : Forall (λ v, x ∈ im_keys v) vs →
  rmap (λ v, @expect Empty_set _ (im_get v x)) vs = Ok (map (λ v, ver v x) vs).
Proof.
  induction 1 as [|v vs Hv _ IH]; simpl; [done|]. by rewrite (im_get_ver v x Hv) /= IH.
Qed.

Lemma insert_maxima_ok vs xs m : Forall (λ v, xs ⊆ im_keys v) vs →
  insert_maxima vs xs m = Ok (insert_all m (λ x, max_list (map (λ v, ver v x) vs)) xs).
Proof.
  revert m. induction xs as [|x xs IH]; intros m Hvs; simpl; [done|].
  rewrite rmap_get; [|simpl; apply IH]; eapply Forall_impl; try exact Hvs; simpl.
  - intros v Hv. apply Hv, list_elem_of_here.
  - intros v Hv y Hy. apply Hv, elem_of_cons. by right.
Qed.

Lemma update_versions_join m v vs : Forall (λ v, im_keys v = im_keys m) (v :: vs) →
  update_versions_from_all_branches (v :: vs) m = Ok (join m (v :: vs)).
Proof.
  intros Hvs. unfold update_versions_from_all_branches. cbn [expect head rbind].
  pose proof Hvs as [Hv _]%Forall_cons. rewrite Hv insert_maxima_ok //.
  eapply Forall_impl; [exact Hvs|]. by intros w ->.
Qed.

Lemma version_equalities_ok from to xs : xs ⊆ im_keys from → xs ⊆ im_keys to →
  version_equalities from to xs = Ok (concat (map (version_eq from to) xs)).
Proof.
  induction xs as [|x xs IH]; intros Hf Ht; simpl; [done|].
  unfold find_version. rewrite (im_get_ver from); [apply Hf, list_elem_of_here|].
  rewrite (im_get_ver to); [apply Ht, list_elem_of_here|]. simpl.
  rewrite IH; [intros y Hy; apply Hf, elem_of_cons; by right
              |intros y Hy; apply Ht, elem_of_cons; by right|].
  simpl. unfold version_eq. by destruct (_ <? _)%N.
Qed.

Lemma update_branch_ok from to s b : im_keys from = im_keys to →
  update_branch_to_versions from to s b
  = Ok (StmtX_Block (if b then version_eqs from to ++ [s] else s :: version_eqs from to)).
Proof.
  intros Hk. unfold update_branch_to_versions. rewrite version_equalities_ok //. by rewrite Hk.
Qed.

(** ** Rewriting the breaks *)

Lemma breaks_of_app l bs1 bs2 : breaks_of l (bs1 ++ bs2) = breaks_of l bs1 ++ breaks_of l bs2.
Proof. unfold breaks_of. by rewrite filter_app map_app. Qed.

Lemma breaks_of_other l l' bs : l ≠ l' → breaks_of l (other_breaks l' bs) = breaks_of l bs.
Proof.
  intros Hne. unfold breaks_of, other_breaks. f_equal. rewrite list_filter_filter.
  apply list_filter_iff. intros p. split; [by intros [-> _]|]. intros ->. by split.
Qed.

Lemma breaks_of_other_same l bs : breaks_of l (other_breaks l bs) = [].
Proof.
  unfold breaks_of, other_breaks. rewrite list_filter_filter.
  induction bs as [|p bs IH]; [done|]. rewrite filter_cons decide_False //. by intros [? ?].
Qed.

Definition is_assume (s : Stmt) : Prop := match s with StmtX_Assume _ => True | _ => False end.

Lemma version_eqs_assume from to : Forall is_assume (version_eqs from to).
Proof.
  unfold version_eqs. rewrite Forall_concat_map Forall_forall. intros x _.
  unfold version_eq. destruct (_ <? _)%N; by repeat constructor.
Qed.

Section rewrite_breaks.
Context (l : Ident) (mt : Versions) (all : list Versions).
#[local] Abbreviation upd i s := (update_breaks_to_versions l all mt i s).

Lemma update_assumes i ss : Forall is_assume ss →
  update_list (update_breaks_to_versions l all mt) i ss = Ok (ss, i).
Proof.
  induction 1 as [|s ss Hs _ IH]; simpl; [done|]. destruct s; try done. simpl. by rewrite IH.
Qed.

Lemma update_assumes_app i ss s : Forall is_assume ss →
  update_list (update_breaks_to_versions l all mt) i (ss ++ [s])
  = rbind (upd i s) (λ '(s, i), Ok (ss ++ [s], i)).
Proof.
  induction 1 as [|s' ss Hs _ IH]; simpl.
  - by destruct (upd i s) as [[? ?]|[]|].
  - destruct s'; try done. simpl. rewrite IH. by destruct (upd i s) as [[? ?]|[]|].
Qed.

Definition update_ok (s : Stmt) : Prop := ∀ T m S pre post,
  T !! l = None → l ∉ declared_labels s → assigned s ⊆ im_keys m → im_keys mt = im_keys m →
  all = pre ++ breaks_of l (breaks s m) ++ post →
  upd (length pre) (ssa T s m S)
  = Ok (ssa (<[l := mt]> T) s m S, length pre + length (breaks_of l (breaks s m))).

Lemma update_ok_block ss : Forall update_ok ss → update_ok (StmtX_Block ss).
Proof.
  intros Hss T m S pre post HT Hl Hsub Hk Hall.
  enough (update_list (update_breaks_to_versions l all mt) (length pre)
    (ssa_block (ssa T) ss m S) = Ok (ssa_block (ssa (<[l := mt]> T)) ss m S,
      length pre + length (breaks_of l (vers_block vers ss m).2))) as Henough.
  { simpl. by rewrite Henough. }
  simpl in *. revert m S pre Hk Hsub Hall.
  induction Hss as [|s ss Hs _ IH]; intros m S pre Hk Hsub Hall; simpl in *; [by rewrite Nat.add_0_r|].
  rewrite breaks_of_app -app_assoc in Hall.
  assert (Hsub1 : assigned s ⊆ im_keys m) by (intros x ?; apply Hsub, elem_of_app; by left).
  destruct (vers_keys s m Hsub1) as [Hkf _].
  rewrite (Hs T m S pre (breaks_of l (vers_block vers ss (final s m)).2 ++ post)) //.
  { intros ?. apply Hl, elem_of_app. by left. }
  cbn [rbind]. rewrite -length_app (IH _ (final s m) _ (pre ++ breaks_of l (breaks s m))) //.
  - intros ?. apply Hl, elem_of_app. by right.
  - by rewrite Hkf.
  - rewrite Hkf. intros x ?. apply Hsub, elem_of_app. by right.
  - by rewrite -app_assoc.
  - cbn [rbind]. by rewrite breaks_of_app !length_app Nat.add_assoc.
Qed.

(** The branches of a [Switch] all start at [m]. *)
Definition branch (T : gmap Ident Versions) m S mt' (s : Stmt) : Stmt :=
  StmtX_Block (ssa T s m S :: version_eqs (final s m) mt').

Lemma update_ok_branches ss T m S mt' : Forall update_ok ss → ∀ pre post,
  T !! l = None → l ∉ concat (map declared_labels ss) →
  concat (map assigned ss) ⊆ im_keys m → im_keys mt = im_keys m →
  all = pre ++ breaks_of l (concat (map (λ s, breaks s m) ss)) ++ post →
  update_list (update_breaks_to_versions l all mt) (length pre) (map (branch T m S mt') ss)
  = Ok (map (branch (<[l := mt]> T) m S mt') ss,
        length pre + length (breaks_of l (concat (map (λ s, breaks s m) ss)))).
Proof.
  intros Hss pre post HT. revert pre post.
  induction Hss as [|s ss Hs _ IH]; intros pre post Hl Hsub Hk Hall; cbn [map concat] in *.
  { by rewrite /= Nat.add_0_r. }
  rewrite breaks_of_app -app_assoc in Hall.
  cbn [update_list update_breaks_to_versions branch].
  rewrite (Hs T m S pre (breaks_of l (concat (map (λ s, breaks s m) ss)) ++ post)) //.
  { intros ?. apply Hl, elem_of_app. by left. }
  { intros x ?. apply Hsub, elem_of_app. by left. }
  cbn [rbind]. rewrite update_assumes; [apply version_eqs_assume|]. cbn [rbind].
  rewrite -length_app (IH (pre ++ breaks_of l (breaks s m)) post) //.
  - intros ?. apply Hl, elem_of_app. by right.
  - intros x ?. apply Hsub, elem_of_app. by right.
  - by rewrite -app_assoc.
  - cbn [rbind]. by rewrite breaks_of_app !length_app Nat.add_assoc.
Qed.

Lemma update_breaks_ok s : update_ok s.
Proof.
  induction s as [e|i msg f e|x|x e|x|s IH|l' s IH|l'|ss IH|ss IH] using StmtX_ind';
    intros T m S pre post HT Hl Hsub Hk Hall; try by rewrite /= Nat.add_0_r.
  - simpl in *. by rewrite (IH T m S pre post).
  - simpl in Hl, Hsub, Hall. apply not_elem_of_cons in Hl as [Hne Hl].
    rewrite breaks_of_other // in Hall. cbn [ssa update_breaks_to_versions update_list].
    rewrite (IH _ m S pre post) //; [by rewrite lookup_insert_ne|].
    cbn [rbind]. rewrite update_assumes; [apply version_eqs_assume|]. cbn [rbind vers snd].
    by rewrite breaks_of_other // insert_insert_ne.
  - simpl in Hall. destruct (decide (l' = l)) as [->|Hne].
    + cbn [ssa]. rewrite HT lookup_insert_eq. cbn [update_breaks_to_versions].
      rewrite decide_True //. unfold breaks_of in Hall |- *. simpl in Hall |- *.
      rewrite filter_cons decide_True //= in Hall.
      rewrite Hall list_lookup_middle //. cbn [expect rbind].
      rewrite update_branch_ok //. cbn [rbind]. rewrite filter_cons decide_True //=.
      by rewrite Nat.add_1_r.
    + assert (Hb : breaks_of l (breaks (StmtX_Break l') m) = []).
      { unfold breaks_of. simpl. by rewrite filter_cons decide_False. }
      rewrite Hb Nat.add_0_r. cbn [ssa]. rewrite lookup_insert_ne //.
      destruct (T !! l') as [mt'|]; cbn [update_breaks_to_versions]; [|by rewrite decide_False].
      rewrite update_assumes_app; [apply version_eqs_assume|].
      cbn [update_breaks_to_versions]. by rewrite decide_False.
  - by apply (update_ok_block ss IH T m S pre post).
  - cbn [ssa update_breaks_to_versions].
    assert (Hb : breaks (StmtX_Switch ss) m = concat (map (λ s, breaks s m) ss))
      by by destruct ss.
    rewrite Hb in Hall |- *.
    rewrite (update_ok_branches ss T m S (final (StmtX_Switch ss) m) IH pre post) //.
Qed.
End rewrite_breaks.

(** ** The state *)

(** Declaring the constant of an event, if it has no declaration yet. *)
Definition declare_event (types : gmap Ident Typ) (p : list Decl * gset Ident) (ev : VersionEvent)
    : list Decl * gset Ident :=
  if decide (ev_versioned ev ∈ p.2) then p
  else (p.1 ++ [DeclX_Const (ev_versioned ev) (default TypX_Bool (types !! ev_base ev))],
        {[ev_versioned ev]} ∪ p.2).

Definition declare_events types := foldl (declare_event types).

Record state_after (types : gmap Ident Typ) (bs : Breaks) (evs : list VersionEvent)
    (st st' : LowerStmtState) : Prop := {
  sa_breaks : ∀ l, break_versions st' !! l = (λ vs, vs ++ breaks_of l bs) <$> break_versions st !! l;
  sa_events : events st' = events st ++ evs;
  sa_decls : (decls st', version_decls st') = declare_events types (decls st, version_decls st) evs
}.

Lemma breaks_of_nil l : breaks_of l [] = [].
Proof. done. Qed.

Lemma state_after_same types st st' :
  break_versions st' = break_versions st → events st' = events st → decls st' = decls st →
  version_decls st' = version_decls st → state_after types [] [] st st'.
Proof.
  intros Hb He Hd Hv. split.
  - intros l. rewrite Hb. destruct (break_versions st !! l); simpl; by rewrite ?app_nil_r.
  - by rewrite He app_nil_r.
  - by rewrite Hd Hv.
Qed.

Lemma state_after_trans types bs1 bs2 ev1 ev2 st1 st2 st3 :
  state_after types bs1 ev1 st1 st2 → state_after types bs2 ev2 st2 st3 →
  state_after types (bs1 ++ bs2) (ev1 ++ ev2) st1 st3.
Proof.
  intros [B1 E1 D1] [B2 E2 D2]. split.
  - intros l. rewrite B2 B1. destruct (break_versions st1 !! l); simpl; [|done].
    by rewrite breaks_of_app app_assoc.
  - by rewrite E2 E1 app_assoc.
  - rewrite D2 D1. unfold declare_events. by rewrite foldl_app.
Qed.

Lemma thread_events ss m acc :
  thread (λ s m acc, acc ++ version_events s m) ss m acc
  = acc ++ thread (λ s m acc, acc ++ version_events s m) ss m [].
Proof.
  revert m acc. induction ss as [|s ss IH]; intros m acc; simpl; [by rewrite app_nil_r|].
  by rewrite IH (IH _ (version_events s m)) app_assoc.
Qed.

Lemma vers_switch_breaks ss m : breaks (StmtX_Switch ss) m = concat (map (λ s, breaks s m) ss).
Proof. by destruct ss. Qed.

(** ** Statements *)

Section lower.
Context (oc : bool) (types : gmap Ident Typ).

Definition vars_ok K (b : N) (s : Stmt) m : Prop :=
  between K m b m ∧ NoDup K ∧ assigned s ⊆ K ∧ (∀ x, x ∈ K → is_Some (types !! x))
  ∧ (b + assign_count s < u32_bound)%N.

Definition labels_in (st : LowerStmtState) (s : Stmt) : Prop :=
  (∀ l, l ∈ free_breaks s → is_Some (break_versions st !! l))
  ∧ (∀ l, l ∈ declared_labels s → break_versions st !! l = None).

Definition lower_ok (s : Stmt) : Prop := ∀ K b m S st,
  vars_ok K b s m → labels_ok s → labels_in st s →
  ∃ st', lower_stmt oc types s (st, m, S) = Ok (ssa ∅ s m S, (st', final s m, snaps_after s m S))
    ∧ state_after types (breaks s m) (version_events s m) st st'.

Lemma create_version_ok K b s m st x kind :
  vars_ok K b s m → assigned s = [x] →
  ∃ st', create_version oc types st m x kind
      = Ok (rename_var x (ver m x + 1), st', bump m x)
    ∧ state_after types [] [mkEvent (rename_var x (ver m x + 1)) x (ver m x + 1) kind] st st'.
Proof.
  intros ((Hk & _ & Hb) & Hnd & Hsub & Ht & Hc) Hx. unfold assign_count in Hc. rewrite Hx in Hsub Hc.
  assert (HxK : x ∈ K) by apply Hsub, list_elem_of_here. destruct (Ht x HxK) as [t Ht'].
  unfold create_version, find_version. rewrite im_get_ver; [by rewrite Hk|].
  cbn [expect rbind]. rewrite Ht' /u32_add uint_add_in_range; [specialize (Hb x); simpl in Hc; lia|].
  cbn [expect rbind]. eexists. split; [reflexivity|]. split; simpl.
  - intros l. rewrite breaks_of_nil. unfold declare_version.
    destruct (decide _); simpl; destruct (break_versions st !! l); simpl; by rewrite ?app_nil_r.
  - unfold declare_version. by destruct (decide _).
  - unfold declare_version, declare_event. simpl. rewrite Ht'. by destruct (decide _).
Qed.

Lemma vars_ok_mono K b s s' m :
  vars_ok K b s m → assigned s' ⊆ assigned s → (assign_count s' ≤ assign_count s)%N →
  vars_ok K b s' m.
Proof.
  intros (? & ? & ? & ? & ?) Hs Hc. split_and!; try done; [by etrans|lia].
Qed.

Lemma labels_list ss : labels_ok (StmtX_Block ss) ↔ labels_ok_list ss.
Proof. done. Qed.

Lemma lower_ok_block ss : Forall lower_ok ss → lower_ok (StmtX_Block ss).
Proof.
  intros Hss K b m S st Hv Hl Hin.
  enough (∃ st', lower_stmts (lower_stmt oc types) ss (st, m, S)
    = Ok (ssa_block (ssa ∅) ss m S, (st', (vers_block vers ss m).1, thread snaps_after ss m S))
    ∧ state_after types (vers_block vers ss m).2
        (thread (λ s m acc, acc ++ version_events s m) ss m []) st st') as (st' & He & Hst).
  { exists st'. simpl. by rewrite He. }
  revert b m S st Hv Hl Hin. induction Hss as [|s ss Hs _ IH]; intros b m S st Hv Hl Hin.
  { exists st. split; [done|]. by apply state_after_same. }
  apply labels_ok_cons in Hl as (Hl1 & Hl2 & Hd12 & Hf1 & Hf2).
  destruct Hv as (Hbt & Hnd & Hsub & Ht & Hc). simpl in Hsub.
  assert (Hs1 : assigned s ⊆ K) by (intros x ?; apply Hsub, elem_of_app; by left).
  assert (Hs2 : concat (map assigned ss) ⊆ K) by (intros x ?; apply Hsub, elem_of_app; by right).
  unfold assign_count in Hc. simpl in Hc. rewrite length_app in Hc.
  destruct Hin as [Hf Hd]. simpl in Hf, Hd.
  destruct (Hs K b m S st) as (st1 & He1 & Hst1).
  { split_and!; try done; unfold assign_count; try lia; apply Hbt. }
  { done. }
  { split; intros l ?; [apply Hf|apply Hd]; apply elem_of_app; by left. }
  destruct (vers_between s K m b m Hbt Hs1) as [Hbt1 _].
  destruct (IH (b + assign_count s)%N (final s m) (snaps_after s m S) st1) as (st2 & He2 & Hst2).
  { split; [by eapply between_self|]. split_and!; try done. unfold assign_count. simpl. lia. }
  { done. }
  { split; intros l Hll; rewrite (sa_breaks _ _ _ _ _ Hst1); apply fmap_is_Some || apply fmap_None.
    - apply Hf, elem_of_app. by right. - apply Hd, elem_of_app. by right. }
  exists st2. split; [simpl; by rewrite He1 /= He2|].
  simpl. rewrite thread_events. by eapply state_after_trans.
Qed.

Lemma lower_ok_branches ss : Forall lower_ok ss → ∀ K b m S st,
  vars_ok K b (StmtX_Switch ss) m → labels_ok_list ss → labels_in st (StmtX_Switch ss) →
  ∃ st', lower_branches (lower_stmt oc types) m S ss st
      = Ok (map (λ s, ssa ∅ s m S) ss, map (λ s, final s m) ss, st')
    ∧ state_after types (concat (map (λ s, breaks s m) ss))
        (concat (map (λ s, version_events s m) ss)) st st'.
Proof.
  induction 1 as [|s ss Hs _ IH]; intros K b m S st Hv Hl Hin.
  { exists st. split; [done|]. by apply state_after_same. }
  apply labels_ok_cons in Hl as (Hl1 & Hl2 & Hd12 & Hf1 & Hf2). destruct Hin as [Hf Hd].
  simpl in Hf, Hd.
  destruct (Hs K b m S st) as (st1 & He1 & Hst1); [|done|..].
  { eapply vars_ok_mono; [done|intros x ?; simpl; apply elem_of_app; by left|].
    unfold assign_count. rewrite /= length_app. lia. }
  { split; intros l ?; [apply Hf|apply Hd]; apply elem_of_app; by left. }
  destruct (IH K b m S (extend_snapshots st1 (snaps_after s m S))) as (st2 & He2 & Hst2); [|done|..].
  { eapply vars_ok_mono; [done|intros x ?; simpl; apply elem_of_app; by right|].
    unfold assign_count. rewrite /= length_app. lia. }
  { split; intros l Hll; simpl; rewrite (sa_breaks _ _ _ _ _ Hst1);
      apply fmap_is_Some || apply fmap_None.
    - apply Hf, elem_of_app. by right. - apply Hd, elem_of_app. by right. }
  exists st2. split; [by rewrite /= He1 /= He2|]. simpl.
  eapply state_after_trans; [exact Hst1|]. by destruct Hst2.
Qed.

Lemma lower_ok_break l : lower_ok (StmtX_Break l).
Proof.
  intros K b m S st Hv Hl [Hf _]. destruct (Hf l (list_elem_of_here _ _)) as [vs Hvs].
  cbn [lower_stmt]. rewrite Hvs. cbn [expect rbind]. eexists. split.
  { cbn [ssa]. by rewrite lookup_empty. }
  split; simpl; [|by rewrite app_nil_r|done].
  intros l'. unfold breaks_of. destruct (decide (l = l')) as [<-|Hne].
  - rewrite lookup_insert_eq Hvs. simpl. by rewrite filter_cons decide_True.
  - rewrite lookup_insert_ne // filter_cons decide_False //=.
    destruct (break_versions st !! l'); simpl; by rewrite ?app_nil_r.
Qed.

Lemma lower_ok_breakable l s : lower_ok s → lower_ok (StmtX_Breakable l s).
Proof.
  intros Hs K b m S st Hv Hl [Hf Hd]. apply labels_ok_breakable in Hl as [Hl Hnl].
  cbn [lower_stmt]. rewrite (Hd l (list_elem_of_here _ _)).
  set (st0 := set_break_versions st _).
  destruct (Hs K b m S st0) as (st1 & He1 & [Hb1 Hev1 Hdl1]); [done|done| |].
  { split; intros l' Hl'; unfold st0; simpl.
    - destruct (decide (l' = l)) as [->|Hne]; [by rewrite lookup_insert_eq|].
      rewrite lookup_insert_ne //. apply Hf. simpl. by apply list_elem_of_filter.
    - rewrite lookup_insert_ne; [by intros ->|]. apply Hd. simpl. apply elem_of_cons. by right. }
  rewrite He1. cbn [rbind]. rewrite Hb1 /st0 /= lookup_insert_eq. cbn [fmap option_fmap option_map expect rbind app].
  pose proof Hv as (Hbt & Hnd & Hsub & Ht & Hc). simpl in Hsub.
  destruct (vers_between s K m b m Hbt Hsub) as [Hbt1 Hbb1].
  pose proof (proj1 Hbt) as Hkm. pose proof (proj1 Hbt1) as Hkf.
  assert (Hkb : Forall (λ v, im_keys v = K) (breaks_of l (breaks s m))).
  { apply breaks_of_Forall. eapply Forall_impl; [exact Hbb1|]. by intros p [? _]. }
  rewrite update_versions_join; [rewrite Hkf; by constructor|]. cbn [rbind].
  fold (join_breakable l (vers s m)).
  assert (Hkj : im_keys (join_breakable l (vers s m)) = K) by by rewrite keys_join Hkf.
  change 1 with (length [final s m]).
  rewrite (update_breaks_ok _ _ (final s m :: breaks_of l (breaks s m)) s ∅ m S _ []) //.
  { by rewrite Hkm. } { by rewrite Hkm. } { by rewrite app_nil_r. }
  cbn [rbind length]. rewrite decide_True //. rewrite update_branch_ok; [by rewrite Hkj|].
  cbn [rbind]. eexists. split; [reflexivity|]. split; simpl; [|done|done].
  intros l'. destruct (decide (l = l')) as [<-|Hne].
  - rewrite lookup_delete_eq breaks_of_other_same (Hd l (list_elem_of_here _ _)) //.
  - rewrite lookup_delete_ne // Hb1 /st0 /= lookup_insert_ne // breaks_of_other //.
Qed.

Lemma lower_ok_switch ss : Forall lower_ok ss → lower_ok (StmtX_Switch ss).
Proof.
  intros Hss K b m S st Hv Hl Hin.
  destruct (lower_ok_branches ss Hss K b m S st Hv Hl Hin) as (st' & He & Hst).
  destruct ss as [|s0 ss0] eqn:Hs0.
  { exists st. split; [done|]. by apply state_after_same. }
  rewrite -Hs0 in He Hst Hv Hss |- *. exists st'.
  assert (Hl' : lower_stmt oc types (StmtX_Switch ss) (st, m, S)
    = rbind (lower_branches (lower_stmt oc types) m S ss st) (λ '(ss, all_versions, state),
      rbind (update_versions_from_all_branches all_versions m) (λ versions_to,
      rbind (update_branches all_versions versions_to ss) (λ ss,
      Ok (StmtX_Switch ss, (state, versions_to, S)))))) by by rewrite Hs0.
  rewrite Hl' He. cbn [rbind].
  pose proof Hv as (Hbt & Hnd & Hsub & Ht & Hc). simpl in Hsub. pose proof (proj1 Hbt) as Hkm.
  assert (Hkf : Forall (λ s, im_keys (final s m) = K) ss).
  { apply Forall_forall. intros s Hin'. rewrite -Hkm. apply vers_keys. rewrite Hkm.
    intros x Hx. apply Hsub. apply list_elem_of_In, in_concat. exists (assigned s).
    split; [by apply in_map, list_elem_of_In|by apply list_elem_of_In]. }
  assert (Hj : final (StmtX_Switch ss) m = join m (map (λ s, final s m) ss)) by by rewrite Hs0.
  assert (Hu : update_versions_from_all_branches (map (λ s, final s m) ss) m
               = Ok (final (StmtX_Switch ss) m)).
  { rewrite Hj Hs0. apply update_versions_join.
    rewrite -/(map _ (s0 :: ss0)) -Hs0 Hkm. by apply Forall_map. }
  rewrite Hu. cbn [rbind]. set (mt := final (StmtX_Switch ss) m).
  assert (Hb : update_branches (map (λ s, final s m) ss) mt (map (λ s, ssa ∅ s m S) ss)
               = Ok (map (branch ∅ m S mt) ss)).
  { assert (Hkt : im_keys mt = K) by by rewrite /mt Hj keys_join.
    clearbody mt. clear -IML Hkf Hkt. induction Hkf as [|s ss Hk _ IH]; [done|].
    cbn [map update_branches]. rewrite update_branch_ok; [by rewrite Hkt|].
    cbn [rbind]. by rewrite IH. }
  rewrite Hb. cbn [rbind]. split; [done|].
  rewrite vers_switch_breaks. exact Hst.
Qed.

(** [lower_stmt] never panics on a statement whose labels are well scoped, whose
    assigned variables are declared, and with fewer than 2^32 assignments, and its
    two-pass result is the one-pass [ssa]: same statement, versions and snapshots, one
    observer event per assignment, and the same constants declared. *)
Lemma lower_stmt_ssa s : lower_ok s.
Proof.
  induction s as [e|i msg f e|x|x e|x|s IH|l s IH|l|ss IH|ss IH] using StmtX_ind'.
  - intros K b m S st _ _ _. exists st. split; [done|]. by apply state_after_same.
  - intros K b m S st _ _ _. exists st. split; [done|]. by apply state_after_same.
  - intros K b m S st Hv _ _.
    destruct (create_version_ok K b _ m st x VersionOrigin_Havoc Hv eq_refl) as (st' & He & Hst).
    exists st'. split; [|done]. cbn [lower_stmt]. by rewrite He.
  - intros K b m S st Hv _ _.
    destruct (create_version_ok K b _ m st x VersionOrigin_Assign Hv eq_refl) as (st' & He & Hst).
    exists st'. split; [|done]. cbn [lower_stmt]. by rewrite He.
  - intros K b m S st _ _ _. eexists. split; [reflexivity|]. by apply state_after_same.
  - intros K b m S st Hv Hl Hin. destruct (IH K b m S st Hv Hl Hin) as (st' & He & Hst).
    exists st'. split; [|done]. cbn [lower_stmt]. by rewrite He.
  - by apply lower_ok_breakable.
  - apply lower_ok_break.
  - by apply lower_ok_block.
  - by apply lower_ok_switch.
Qed.

Lemma create_version_at_max m (st : LowerStmtState) x t kind :
  im_get m x = Some (u32_bound - 1)%N → types !! x = Some t →
  create_version oc types st m x kind
  = if oc then Panic
    else Ok (rename_var x 0,
             notify_version_created (declare_version st (rename_var x 0) t) (rename_var x 0) x 0 kind,
             im_insert m x 0%N).
Proof.
  intros Hm Ht. unfold create_version, find_version. rewrite Hm Ht. cbn [expect rbind].
  by destruct oc.
Qed.
End lower.

(** ** Properties *)

(** C24. [lower_stmt] with its mutable state and its second traversal for breaks computes the
    one-pass reference: the statement of [ssa], the versions of [vers] and the snapshots of
    [snaps_after], and it declares the constants and tells the observer of the versions of
    [version_events].  In particular it does not panic. *)
Theorem lower_stmt_refines oc types K b s m S st :
  vars_ok types K b s m → labels_ok s → labels_in st s →
  ∃ st', lower_stmt oc types s (st, m, S) = Ok (ssa ∅ s m S, (st', final s m, snaps_after s m S))
    ∧ state_after types (breaks s m) (version_events s m) st st'.
Proof. apply lower_stmt_ssa. Qed.

(** Version numbers only grow along a statement, by at most the number of assignments in its
    text, so that fewer than 2^32 assignments keep them in [u32]. *)
Theorem versions_bounded oc types K b s m S st :
  vars_ok types K b s m → labels_ok s → labels_in st s →
  ∃ stmt st' m' S', lower_stmt oc types s (st, m, S) = Ok (stmt, (st', m', S'))
    ∧ im_keys m' = K
    ∧ ∀ x, (ver m x ≤ ver m' x)%N ∧ (ver m' x ≤ b + assign_count s)%N ∧ (ver m' x < u32_bound)%N.
Proof.
  intros Hv Hl Hin. destruct (lower_stmt_ssa oc types s K b m S st Hv Hl Hin) as (st' & He & _).
  destruct Hv as (Hbt & _ & Hsub & _ & Hc). destruct (vers_between s K m b m Hbt Hsub) as [(Hk & Hle & Hub) _].
  eexists _, _, _, _. split; [exact He|]. split; [done|]. intros x.
  specialize (Hle x). specialize (Hub x). split_and!; lia.
Qed.

(** At the largest [u32] the increment of a version panics when overflow is checked; otherwise
    it wraps and the variable gets its version 0 again. *)
Theorem version_wraps types m (st : LowerStmtState) x t kind :
  im_get m x = Some (u32_bound - 1)%N → types !! x = Some t →
  create_version true types st m x kind = Panic
  ∧ create_version false types st m x kind
    = Ok (rename_var x 0,
          notify_version_created (declare_version st (rename_var x 0) t) (rename_var x 0) x 0 kind,
          im_insert m x 0%N).
Proof. intros Hm Ht. by rewrite !(create_version_at_max _ types m st x t kind Hm Ht). Qed.
End with_index_map.

(** ** A statement with a break between two assignments *)

#[local] Existing Instance entry_list.

Definition sample_stmt : Stmt :=
  StmtX_Block [StmtX_Assign "x" mk_true;
    StmtX_Breakable "l" (StmtX_Switch [StmtX_Break "l"; StmtX_Assign "x" (ExprX_Var "x")])].

Definition sample_state : LowerStmtState := mkLower [] ∅ ∅ ∅ [].
Definition sample_types : gmap Ident Typ := {["x" := bool_typ]}.
Definition sample_versions_at (n : N) : Versions := [("x", n)].

Lemma sample_vars_ok : vars_ok sample_types ["x"] 0 sample_stmt (sample_versions_at 0).
Proof.
  split_and!; [| |by apply (bool_decide_unpack _); vm_compute| |done].
  - split_and!; [done|done|]. intros x. unfold ver, sample_versions_at. simpl. by destruct (decide _).
  - apply (bool_decide_unpack _). by vm_compute.
  - intros x ->%list_elem_of_singleton. by exists bool_typ.
Qed.

Lemma sample_labels_ok : labels_ok sample_stmt.
Proof.
  split; [apply (bool_decide_unpack _); by vm_compute|].
  intros l Hl. vm_compute in Hl. by apply not_elem_of_nil in Hl.
Qed.

Lemma sample_labels_in : labels_in sample_state sample_stmt.
Proof.
  split; [|done]. intros l Hl. vm_compute in Hl. by apply not_elem_of_nil in Hl.
Qed.

Lemma lower_stmt_refines_witness :
  ∃ st', lower_stmt false sample_types sample_stmt (sample_state, sample_versions_at 0, ∅)
    = Ok (ssa ∅ sample_stmt (sample_versions_at 0) ∅,
          (st', final sample_stmt (sample_versions_at 0), snaps_after sample_stmt (sample_versions_at 0) ∅))
    ∧ state_after sample_types (breaks sample_stmt (sample_versions_at 0))
        (version_events sample_stmt (sample_versions_at 0)) sample_state st'.
Proof.
  exact (lower_stmt_refines false sample_types ["x"] 0 sample_stmt (sample_versions_at 0) ∅ sample_state
    sample_vars_ok sample_labels_ok sample_labels_in).
Defined.

Lemma versions_bounded_witness :
  ∃ stmt st' m' S', lower_stmt false sample_types sample_stmt (sample_state, sample_versions_at 0, ∅)
    = Ok (stmt, (st', m', S'))
    ∧ im_keys m' = ["x"]
    ∧ ∀ x, (ver (sample_versions_at 0) x ≤ ver m' x)%N
        ∧ (ver m' x ≤ 0 + assign_count sample_stmt)%N ∧ (ver m' x < u32_bound)%N.
Proof.
  exact (versions_bounded false sample_types ["x"] 0 sample_stmt (sample_versions_at 0) ∅ sample_state
    sample_vars_ok sample_labels_ok sample_labels_in).
Defined.

Lemma version_wraps_witness :
  create_version true sample_types sample_state (sample_versions_at 4294967295) "x" VersionOrigin_Havoc
  = Panic.
Proof.
  refine (proj1 (version_wraps sample_types (sample_versions_at 4294967295) sample_state "x" bool_typ
    VersionOrigin_Havoc _ _)); vm_compute; reflexivity.
Defined.
