(* ===== verification/VersionSim.v ===== *)
(** * Names of versions, and lowered expressions

    Versions of distinct variables have distinct names, and no name that does not
    look like a version clashes with one; so a lowered expression has the value
    of the expression whenever the constants hold the values of the variables. *)

From Stdlib Require Import Ascii.
From S2P Require Import Prelude RustString Ast AstUtil Semantics ExprFacts StmtFacts IndexMap.
From S2P Require Import Visitor VarToConst Ssa SsaEquiv.
Set Warnings "-rewrite-rw,-register-all,-clear-no-such-hyp".

Section with_index_map.
Context {IM : IndexMapOps} {IML : IndexMapLaws IM}.
Implicit Types (m v : Versions) (K : list Ident) (S : Snapshots).

(** ** Names *)

(** [base x]: the part of [rename_var x n] before the number. *)
Definition base (x : Ident) : string := if ends_with "@" x then x else x +:+ "@".

Lemma rename_var_base x n : rename_var x n = base x +:+ N_to_string n.
Proof.
  unfold rename_var, base. destruct (ends_with "@" x); [done|]. by rewrite str_app_assoc.
Qed.

Lemma ends_with_at x : ends_with "@" x = true → ∃ s, x = s +:+ "@".
Proof.
  induction x as [|c x IH]; [done|]. change (ends_with "@" (String c x))
    with (String.eqb (String c x) "@" || ends_with "@" x).
  intros [He|[s ->]%IH]%orb_true_iff; [|by exists (String c s)].
  apply String.eqb_eq in He as ->. by exists "".
Qed.

Lemma base_at x : ∃ s, base x = s +:+ "@".
Proof.
  unfold base. destruct (ends_with "@" x) eqn:He; [by apply ends_with_at|by exists x].
Qed.

Lemma rename_var_inj x y i j :
  rename_var x i = rename_var y j → base x = base y ∧ i = j.
Proof.
  rewrite !rename_var_base. destruct (base_at x) as [s Hs], (base_at y) as [t Ht].
  rewrite Hs Ht !str_app_assoc. simpl. intros H.
  apply digits_split in H as [-> H]; [|done|apply N_to_string_digits|apply N_to_string_digits].
  by apply (inj N_to_string) in H as ->.
Qed.

(** Names that end in [@] and a numeral. *)
Fixpoint version_like (x : Ident) : bool :=
  match x with
  | EmptyString => false
  | String c x' =>
    (Ascii.eqb c "@"%char && negb (String.eqb x' "") && all_chars is_ascii_digit x') || version_like x'
  end.

Definition fresh (x : Ident) : Prop := version_like x = false.

Lemma version_like_digits s d : d ≠ "" → all_chars is_ascii_digit d = true →
  version_like (s +:+ String "@"%char d) = true.
Proof.
  intros Hne Hd. induction s as [|c s IH]; simpl; [|by rewrite IH orb_true_r].
  rewrite Hd. by destruct (String.eqb_spec d "").
Qed.

Lemma version_like_app s n : version_like (s +:+ String "@"%char (N_to_string n)) = true.
Proof. apply version_like_digits; [apply N_to_string_nonempty|apply N_to_string_digits]. Qed.

Lemma rename_var_version_like x n : version_like (rename_var x n) = true.
Proof.
  rewrite rename_var_base. destruct (base_at x) as [s ->].
  rewrite str_app_assoc. apply version_like_app.
Qed.

Lemma fresh_not_version y x n : fresh y → y ≠ rename_var x n.
Proof. intros Hf ->. unfold fresh in Hf. by rewrite rename_var_version_like in Hf. Qed.

(** [y] is [base x] followed by digits. *)
Definition version_of (x y : Ident) : bool :=
  match strip_prefix (base x) y with
  | Some d => all_chars is_ascii_digit d && negb (String.eqb d "")
  | None => false
  end.

Lemma version_of_rename x n : version_of x (rename_var x n) = true.
Proof.
  unfold version_of. rewrite rename_var_base strip_prefix_app N_to_string_digits /=.
  destruct (String.eqb_spec (N_to_string n) "") as [He|]; [|done]. by apply N_to_string_nonempty in He.
Qed.

Lemma version_of_split x y : version_of x y = true →
  ∃ d, y = base x +:+ d ∧ d ≠ "" ∧ all_chars is_ascii_digit d = true.
Proof.
  unfold version_of. destruct (strip_prefix (base x) y) as [d|] eqn:Hd; [|done].
  intros [Hall Hne]%andb_true_iff. exists d. split_and!; [by apply strip_prefix_Some| |done].
  intros ->. done.
Qed.

Lemma version_of_fresh x y : version_of x y = true → ¬ fresh y.
Proof.
  intros (d & -> & Hne & Hd)%version_of_split. destruct (base_at x) as [s ->].
  unfold fresh. by rewrite str_app_assoc version_like_digits.
Qed.

Lemma version_of_inj x z y : version_of x y = true → version_of z y = true → base x = base z.
Proof.
  intros (d & -> & _ & Hd)%version_of_split (d' & He & _ & Hd')%version_of_split.
  destruct (base_at x) as [s Hs], (base_at z) as [t Ht]. rewrite Hs Ht in He |- *.
  rewrite !str_app_assoc in He. apply digits_split in He as [-> _]; done.
Qed.

(** What is needed of the mutable variables of a query. *)
Record names_ok K : Prop := {
  nk_nodup : NoDup K;
  nk_fresh : Forall fresh K;
  nk_base : ∀ x y, x ∈ K → y ∈ K → base x = base y → x = y
}.

(** ** Renamed environments *)

Definition ren m (x : Ident) : Ident :=
  match im_get m x with Some n => rename_var x n | None => x end.

Lemma ren_key m x : x ∈ im_keys m → ren m x = rename_var x (ver m x).
Proof. intros Hx. unfold ren. by rewrite (im_get_ver m x Hx). Qed.
Lemma ren_not_key m x : x ∉ im_keys m → ren m x = x.
Proof. unfold ren. by intros ->%im_get_None. Qed.

Section envs.
Context (M : Interp).
Implicit Types (ρ σ : Env M) (e : Expr).

(** [ρ] holds at the versions [m] the values the variables have in [σ]. *)
Definition renv m σ ρ : Prop := ∀ y, fresh y → ρ (ren m y) = σ y.

(** The names of versions after [m]. *)
Definition above K m (y : Ident) : Prop :=
  ∃ x k, x ∈ K ∧ (ver m x < k)%N ∧ y = rename_var x k.

Definition eqm K m ρ ρ' : Prop := ∀ y, ¬ above K m y → ρ y = ρ' y.

Lemma eqm_refl K m ρ : eqm K m ρ ρ.
Proof. by intros y _. Qed.
Lemma eqm_trans K m ρ1 ρ2 ρ3 : eqm K m ρ1 ρ2 → eqm K m ρ2 ρ3 → eqm K m ρ1 ρ3.
Proof. intros H1 H2 y Hy. by rewrite H1 // H2. Qed.

Lemma eqm_mono K m m' ρ ρ' : (∀ x, (ver m x ≤ ver m' x)%N) → eqm K m' ρ ρ' → eqm K m ρ ρ'.
Proof.
  intros Hle H y Hy. apply H. intros (x & k & Hx & Hk & ->). apply Hy. exists x, k.
  split_and!; try done. specialize (Hle x). lia.
Qed.

Lemma ren_not_above K m m' y : names_ok K → im_keys m = K → fresh y →
  (∀ x, (ver m x ≤ ver m' x)%N) → ¬ above K m' (ren m y).
Proof.
  intros HK Hk Hf Hle (x & k & Hx & Hlt & He). destruct (decide (y ∈ K)) as [Hy|Hy].
  - rewrite ren_key in He; [by rewrite Hk|]. apply rename_var_inj in He as [Hb Hv].
    apply (nk_base K HK) in Hb as ->; [|done|done]. specialize (Hle x). lia.
  - rewrite ren_not_key in He; [by rewrite Hk|]. by eapply fresh_not_version in He.
Qed.

Lemma renv_eqm K m m' σ ρ ρ' : names_ok K → im_keys m = K →
  (∀ x, (ver m x ≤ ver m' x)%N) → eqm K m' ρ ρ' → renv m σ ρ → renv m σ ρ'.
Proof.
  intros HK Hk Hle Heq H y Hy. rewrite -(H y Hy). symmetry. apply Heq. by apply ren_not_above.
Qed.

(** ** Values of lowered expressions *)

Lemma bind_env_notin ρ xs vs y : y ∉ xs → bind_env M ρ xs vs y = ρ y.
Proof.
  revert vs. induction xs as [|x xs IH]; intros [|v vs] Hy; simpl; try done.
  apply not_elem_of_cons in Hy as [Hne Hy]. rewrite decide_False //. auto.
Qed.

(** [D]: snapshots that have been taken, with values [old]. *)
Record sim K (D : list Ident) m S (old : Olds M) ρ ρ' : Prop := {
  sim_keys : im_keys m = K;
  sim_vars : renv m ρ ρ';
  sim_old : ∀ s x, s ∈ D → x ∈ K → ∃ ms n,
    S !! s = Some ms ∧ im_get ms x = Some n ∧ old s x = Some (ρ' (rename_var x n));
  sim_old_other : ∀ s x, s ∈ D → x ∉ K →
    old s x = None ∧ (m ← S !! s; im_get m x) = None
}.

Lemma sim_bind K D m S old ρ ρ' xs vs :
  Forall fresh xs → Forall (λ x, x ∉ K) xs → sim K D m S old ρ ρ' →
  sim K D m S old (bind_env M ρ xs vs) (bind_env M ρ' xs vs).
Proof.
  intros Hf Hx [Hk Hv Ho Hoo]. rewrite Forall_forall in Hf. rewrite Forall_forall in Hx.
  assert (Hver : ∀ x n, rename_var x n ∉ xs)
    by (intros x n Hin; by apply (fresh_not_version _ x n (Hf _ Hin))).
  split; try done.
  - intros y Hy. destruct (decide (y ∈ K)) as [HyK|HyK].
    + rewrite ren_key; [by rewrite Hk|]. rewrite !bind_env_notin //; [by intros ?%Hx|].
      rewrite -(Hv y Hy) ren_key //. by rewrite Hk.
    + specialize (Hv y Hy). rewrite ren_not_key in Hv |- *; [by rewrite Hk..|].
      by apply bind_env_ext.
  - intros s x Hs HxK. destruct (Ho s x Hs HxK) as (ms & n & ? & ? & Hold). exists ms, n.
    split_and!; try done. by rewrite bind_env_notin.
Qed.

(** Names and snapshots an expression may use. *)
Definition expr_ok K (D : list Ident) e : Prop :=
  Forall fresh (mentions e) ∧ Forall (λ x, fresh x ∧ x ∉ K) (binds e)
  ∧ Forall (λ s, s ∈ D) (reads_snaps e).

Definition lowers_to K D m S e e' : Prop := expr_ok K D e → ∀ old ρ ρ' old',
  sim K D m S old ρ ρ' → eval M old' ρ' e' = eval M old ρ e.

#[local] Abbreviation low m S := (map_expr_visitor (lower_expr_visitor m S)).
#[local] Abbreviation lowers K D m S e := (lowers_to K D m S e (low m S e)).

Definition list_ok {A} K (D : list Ident) (f : A → Expr) (l : list A) : Prop :=
  Forall fresh (concat (map (λ x, mentions (f x)) l))
  ∧ Forall (λ x, fresh x ∧ x ∉ K) (concat (map (λ x, binds (f x)) l))
  ∧ Forall (λ s, s ∈ D) (concat (map (λ x, reads_snaps (f x)) l)).

Lemma lowers_list {A} (f : A → Expr) (l : list A) K D m S old old' ρ ρ' :
  Forall (λ x, lowers K D m S (f x)) l → list_ok K D f l → sim K D m S old ρ ρ' →
  map (λ x, eval M old' ρ' (low m S (f x))) l = map (λ x, eval M old ρ (f x)) l.
Proof.
  unfold list_ok. rewrite !Forall_concat_map. intros H (Hm & Hb & Hs) Hsim.
  apply map_ext_Forall. induction H as [|x l Hx _ IH]; [constructor|].
  inversion Hm; inversion Hb; inversion Hs; subst. constructor; [|auto]. by apply Hx.
Qed.

Lemma lowers_bind K D m S b e :
  Forall (λ e, lowers K D m S e) (bind_exprs b) → lowers K D m S e →
  lowers K D m S (ExprX_Bind b e).
Proof.
  intros Hb He Hok old ρ ρ' old' Hsim. unfold expr_ok in Hok.
  destruct b as [bs|q bs ts qid|bs ts qid w c|bs ts qid c];
    cbn [mentions binds reads_snaps app] in Hok; rewrite !Forall_app in Hok;
    cbn [map_expr_visitor lower_expr_visitor eval].
  - destruct Hok as ([Hm1 Hm2] & [[Hx Hb1] Hb2] & [Hs1 Hs2]).
    simpl in Hb. rewrite Forall_fmap in Hb. rewrite !map_map. cbn [bname ba].
    rewrite (lowers_list (λ b, ba b) bs K D m S old old' ρ ρ' Hb) //.
    apply He; [done|]. apply Forall_and in Hx as [Hx1 Hx2]. by apply sim_bind.
  - destruct Hok as (Hm & [Hx Hb1] & Hs). apply Forall_and in Hx as [Hx1 Hx2].
    apply i_quant_ext. intros vs. apply He; [done|]. by apply sim_bind.
  - destruct Hok as ([[Hmw Hmc] Hm] & [(Hx & Hbw & Hbc) Hb1] & [[Hsw Hsc] Hs]).
    apply Forall_and in Hx as [Hx1 Hx2]. simpl in Hb. rewrite !Forall_app in Hb.
    destruct Hb as (_ & Bw & Bc).
    assert (Hwrap : match match w with Some w => Some (mkWrapLambda (wrap w) (low m S (wrap_id w)))
                          | None => None end with
                    | Some w => Some (wrap w, eval M old' ρ' (wrap_id w)) | None => None end =
                    match w with Some w => Some (wrap w, eval M old ρ (wrap_id w))
                    | None => None end).
    { destruct w as [w|]; [|done]. simpl in Bw. rewrite Forall_singleton in Bw.
      cbn [wrap wrap_id]. by rewrite (Bw _ old ρ ρ' old'). }
    rewrite Hwrap. apply i_lambda_ext; intros vs.
    + destruct c as [c|]; [|done]. simpl in Bc. rewrite Forall_singleton in Bc.
      f_equal. apply Bc; [done|]. by apply sim_bind.
    + apply He; [done|]. by apply sim_bind.
  - destruct Hok as ([Hmc Hm] & [[Hx Hbc] Hb1] & [Hsc Hs]).
    apply Forall_and in Hx as [Hx1 Hx2]. simpl in Hb. rewrite Forall_app Forall_singleton in Hb.
    destruct Hb as [_ Bc].
    assert (Hch : ∀ vs, eval M old' (bind_env M ρ' (map bname bs) vs) (low m S c) =
                        eval M old (bind_env M ρ (map bname bs) vs) c).
    { intros vs. apply Bc; [done|]. by apply sim_bind. }
    rewrite (i_choose_ext M _ _ _ Hch). apply He; [done|]. by apply sim_bind.
Qed.

Lemma lower_expr_eval K D m S e : lowers K D m S e.
Proof.
  induction e as [c|x|s x|x es IH|t e0 es IH0 IH|op e IH|op e1 e2 IH1 IH2|op es IH
    |e1 e2 e3 IH1 IH2 IH3|es IH|b e IHb IH|ls f e IH|i msg f e IH] using ExprX_ind';
    [| | | | | | | | | |by apply lowers_bind|done|done];
    intros Hok old ρ ρ' old' Hsim; unfold expr_ok in Hok;
    cbn [mentions binds reads_snaps] in Hok; rewrite ?Forall_app in Hok;
    cbn [map_expr_visitor lower_expr_visitor eval].
  - done.
  - destruct Hok as [Hf _]. rewrite Forall_singleton in Hf.
    rewrite -(sim_vars _ _ _ _ _ _ _ Hsim x Hf) /ren. by destruct (im_get m x).
  - destruct Hok as (Hf & _ & Hs). rewrite Forall_singleton in Hf. rewrite Forall_singleton in Hs.
    destruct (decide (x ∈ K)) as [Hx|Hx].
    + destruct (sim_old _ _ _ _ _ _ _ Hsim s x Hs Hx) as (ms & n & HS & Hn & Hold).
      by rewrite HS /= Hn Hold.
    + destruct (sim_old_other _ _ _ _ _ _ _ Hsim s x Hs Hx) as [Hold HS].
      rewrite Hold HS /=. rewrite -(sim_vars _ _ _ _ _ _ _ Hsim x Hf) ren_not_key //.
      by rewrite (sim_keys _ _ _ _ _ _ _ Hsim).
  - rewrite map_map. f_equal. by apply (lowers_list (λ e, e) es K D m S).
  - destruct Hok as ([? ?] & [? ?] & [? ?]). rewrite map_map.
    rewrite (IH0 _ old ρ ρ' old') //. f_equal. by apply (lowers_list (λ e, e) es K D m S).
  - by rewrite (IH Hok old ρ ρ' old').
  - destruct Hok as ([? ?] & [? ?] & [? ?]).
    by rewrite (IH1 _ old ρ ρ' old') // (IH2 _ old ρ ρ' old').
  - rewrite map_map. by rewrite (lowers_list (λ e, e) es K D m S old old' ρ ρ' IH).
  - destruct Hok as ((? & ? & ?) & (? & ? & ?) & (? & ? & ?)).
    by rewrite (IH1 _ old ρ ρ' old') // (IH2 _ old ρ ρ' old') // (IH3 _ old ρ ρ' old').
  - rewrite map_map. f_equal. by apply (lowers_list (λ e, e) es K D m S).
Qed.

(** The second application of the visitor to the root changes nothing. *)
Lemma lower_root_expr K D m S e : names_ok K → im_keys m = K → expr_ok K D e →
  (∀ s x, s ∈ D → x ∈ K → is_Some (m ← S !! s; im_get m x)) →
  lower_root m S e = lower_expr m S e.
Proof.
  intros HK Hk (Hm & _ & Hs) HS. unfold lower_root, lower_expr.
  assert (Hver : ∀ x n, im_get m (rename_var x n) = None).
  { intros x n. apply im_get_None. rewrite Hk. intros Hin.
    pose proof (proj1 (Forall_forall _ _) (nk_fresh K HK) _ Hin) as Hf.
    by apply (fresh_not_version _ x n) in Hf. }
  destruct e as [c|x|s x|x es|t e0 es|op e|op e1 e2|op es|e1 e2 e3|es|b e|ls f e|i msg f e];
    try done; simpl.
  - destruct (im_get m x) as [n|] eqn:Hx; simpl; [by rewrite Hver|by rewrite Hx].
  - simpl in Hs. rewrite Forall_singleton in Hs.
    destruct (_ ≫= _) as [n|] eqn:Hx; simpl; [by rewrite Hver|].
    destruct (im_get m x) as [n|] eqn:Hmx; [|done].
    assert (x ∈ K) as HxK by (rewrite -Hk -im_get_is_Some Hmx; eauto).
    destruct (HS s x Hs HxK) as [? Hsome]. congruence.
Qed.
End envs.
End with_index_map.

(** ** States that agree up to versions

    The relation between a state of the source statement and the constants of
    the lowered one, how it is preserved, and how a path is brought to larger
    versions. *)

Section with_index_map.
Context {IM : IndexMapOps} {IML : IndexMapLaws IM}.
Implicit Types (m v : Versions) (K D : list Ident) (S : Snapshots).

(** ** Snapshots a statement can rely on *)

(** The snapshots a statement may take. *)
Fixpoint written (s : Stmt) : list Ident :=
  match s with
  | StmtX_Snapshot x => [x]
  | StmtX_DeadEnd s | StmtX_Breakable _ s => written s
  | StmtX_Block ss | StmtX_Switch ss => concat (map written ss)
  | _ => []
  end.

(** Those that have surely been taken at its normal end, of those in [D] before.
    After a [Breakable] or [DeadEnd] the ones taken inside are not known. *)
Fixpoint avail (s : Stmt) (D : list Ident) : list Ident :=
  match s with
  | StmtX_Snapshot x => x :: D
  | StmtX_DeadEnd s | StmtX_Breakable _ s => filter (λ x, x ∉ written s) D
  | StmtX_Block ss => foldl (λ D s, avail s D) D ss
  | _ => D
  end.

Section lists.
Context (f : list Ident → Stmt → Prop).
Fixpoint block_ok (D : list Ident) (ss : list Stmt) : Prop :=
  match ss with [] => True | s :: ss' => f D s ∧ block_ok (avail s D) ss' end.
Fixpoint all_ok (D : list Ident) (ss : list Stmt) : Prop :=
  match ss with [] => True | s :: ss' => f D s ∧ all_ok D ss' end.
End lists.

(** Every expression uses proper names and reads snapshots that have been taken. *)
Fixpoint stmt_names_ok K (D : list Ident) (s : Stmt) : Prop :=
  match s with
  | StmtX_Assume e | StmtX_Assert _ _ _ e | StmtX_Assign _ e => expr_ok K D e
  | StmtX_DeadEnd s | StmtX_Breakable _ s => stmt_names_ok K D s
  | StmtX_Block ss => block_ok (stmt_names_ok K) D ss
  | StmtX_Switch ss => all_ok (stmt_names_ok K) D ss
  | _ => True
  end.

(** ** Executions and snapshots *)

Definition out_state {M} (o : outcome M) : option (State M) :=
  match o with ONormal σ | OBreak _ σ => Some σ | OFail _ => None end.

Lemma exec_snaps M Γ s : ∀ σ o σ' x, exec M Γ s σ o → out_state o = Some σ' → x ∉ written s →
  snaps σ' !! x = snaps σ !! x.
Proof.
  induction s as [e|i msg f e|x|x e|x|s IH|l s IH|l|ss IH|ss IH] using StmtX_ind';
    intros σ o σ' y He Ho Hy; simpl in He, Hy.
  - destruct He as [_ ->]. by injection Ho as <-.
  - subst o. destruct (holds _ _ _ _); [|done]. by injection Ho as <-.
  - destruct He as (t & v & _ & _ & ->). by injection Ho as <-.
  - subst o. by injection Ho as <-.
  - subst o. injection Ho as <-. simpl. apply lookup_insert_ne. intros ->.
    by apply Hy, list_elem_of_here.
  - destruct He as [->|[He _]]; [by injection Ho as <-|]. by eapply IH.
  - destruct He as (o' & He & ->). destruct o' as [τ|l' τ|aid]; simpl in Ho.
    + injection Ho as <-. by apply (IH σ _ _ y He).
    + destruct (decide _); injection Ho as <-; by apply (IH σ _ _ y He).
    + done.
  - subst o. by injection Ho as <-.
  - revert σ He. induction IH as [|s ss Hs _ IHss]; intros σ He; simpl in He, Hy.
    { subst o. by injection Ho as <-. }
    apply not_elem_of_app in Hy as [Hy1 Hy2]. destruct He as [(τ & H1 & H2)|[H1 _]].
    + rewrite (IHss Hy2 τ H2). by apply (Hs σ _ τ y H1).
    + by apply (Hs σ o σ' y).
  - induction IH as [|s ss Hs _ IHss]; simpl in He, Hy; [done|].
    apply not_elem_of_app in Hy as [Hy1 Hy2]. destruct He as [(o' & H1 & ->)|He]; [|auto].
    destruct o' as [τ|l' τ|aid]; simpl in Ho; [by injection Ho as <-| |done].
    injection Ho as <-. by apply (Hs σ _ τ y H1).
Qed.

Lemma snaps_after_written s : ∀ m S x, x ∉ written s → snaps_after s m S !! x = S !! x.
Proof.
  induction s as [e|i msg f e|x|x e|x|s IH|l s IH|l|ss IH|ss IH] using StmtX_ind';
    intros m S y Hy; simpl in *; auto.
  - apply (lookup_insert_ne (M := gmap Ident)). intros ->. by apply Hy, list_elem_of_here.
  - revert m S. induction IH as [|s ss Hs _ IHss]; intros m S; simpl in *; [done|].
    apply not_elem_of_app in Hy as [Hy1 Hy2]. by rewrite IHss // Hs.
Qed.

(** ** Sequences *)

Lemma exec_block_app M ex ss1 ss2 σ (o : outcome M) :
  exec_block M ex (ss1 ++ ss2) σ o
  ↔ (∃ σ', exec_block M ex ss1 σ (ONormal σ') ∧ exec_block M ex ss2 σ' o)
    ∨ (exec_block M ex ss1 σ o ∧ is_normal M o = false).
Proof.
  revert σ. induction ss1 as [|s ss1 IH]; intros σ; simpl.
  - split; [intros; left; by exists σ|]. intros [(σ' & [= ->] & H)|[-> H]]; done.
  - setoid_rewrite IH. split.
    + intros [(τ & H1 & [(τ' & H2 & H3)|[H2 H3]])|[H1 H2]].
      * left. exists τ'. split; [|done]. left. by exists τ.
      * right. split; [|done]. left. by exists τ.
      * right. split; [|done]. by right.
    + intros [(τ & [(τ' & H1 & H2)|[_ ?]] & H3)|[[(τ & H1 & H2)|[H1 _]] H3]]; [|done|..].
      * left. exists τ'. split; [done|]. left. by exists τ.
      * left. exists τ. split; [done|]. by right.
      * by right.
Qed.

(** ** Version equalities *)

Section eqs.
Context (M : Interp).
Implicit Types (ρ : Env M).

Definition eqs_hold m mt ρ : Prop := ∀ x, x ∈ im_keys mt → (ver m x < ver mt x)%N →
  ρ (rename_var x (ver mt x)) = ρ (rename_var x (ver m x)).

Lemma exec_assumes Γ ss σ o : Forall is_assume ss →
  exec_block M (exec M Γ) ss σ o
  ↔ o = ONormal σ ∧ Forall (λ s, exec M Γ s σ (ONormal σ)) ss.
Proof.
  induction 1 as [|s ss Hs _ IH]; simpl; [by split; [split|intros [-> _]]|].
  destruct s as [e| | | | | | | | |]; try done. simpl. rewrite Forall_cons. split.
  - intros [(σ' & [H1 [= ->]] & [-> H2]%IH)|[[_ ->] ?]]; done.
  - intros (-> & [H _] & H2). left. exists σ. split; [done|]. by apply IH.
Qed.

Lemma exec_version_eqs Γ m mt ρ sn o :
  exec_block M (exec M Γ) (version_eqs m mt) (mkState ρ sn) o
  ↔ o = ONormal (mkState ρ sn) ∧ eqs_hold m mt ρ.
Proof.
  rewrite exec_assumes; [apply version_eqs_assume|]. apply and_iff_compat_l.
  unfold version_eqs, eqs_hold. rewrite Forall_concat_map Forall_forall.
  apply forall_proper. intros x. apply forall_proper. intros _. unfold version_eq.
  destruct (N.ltb_spec (ver m x) (ver mt x)) as [Hlt|Hge].
  - rewrite Forall_singleton. simpl. unfold holds, truth. simpl. rewrite i_truth_bool i_eqb_eq.
    split; [by intros [? _]|]. intros H. split; [by apply H|done].
  - split; [intros _ ?; lia|constructor].
Qed.

Lemma eqs_hold_renv K m mt σ ρ : names_ok K → im_keys m = K → im_keys mt = K →
  renv M m σ ρ → renv M mt σ ρ → eqs_hold m mt ρ.
Proof.
  intros HK Hm Ht H1 H2 x Hx _. rewrite Ht in Hx.
  pose proof (proj1 (Forall_forall _ _) (nk_fresh K HK) x Hx) as Hf.
  specialize (H1 x Hf). specialize (H2 x Hf).
  rewrite ren_key in H1; [by rewrite Hm|]. rewrite ren_key in H2; [by rewrite Ht|].
  congruence.
Qed.

Lemma renv_eqs_hold m mt σ ρ : im_keys m = im_keys mt → (∀ x, (ver m x ≤ ver mt x)%N) →
  renv M m σ ρ → eqs_hold m mt ρ → renv M mt σ ρ.
Proof.
  intros Hk Hle H1 He y Hy. rewrite -(H1 y Hy). destruct (decide (y ∈ im_keys mt)) as [Hin|Hin].
  - rewrite !ren_key //; [by rewrite Hk|]. specialize (Hle y).
    destruct (N.lt_ge_cases (ver m y) (ver mt y)) as [Hlt|Hge]; [by apply He|].
    by replace (ver mt y) with (ver m y) by lia.
  - rewrite !ren_not_key //. by rewrite Hk.
Qed.
End eqs.

(** ** Raising versions *)

Section lift.
Context (M : Interp) (K : list Ident) (HK : names_ok K).
Implicit Types (ρ : Env M).

Definition vle m m' : Prop := ∀ x, (ver m x ≤ ver m' x)%N.

#[global] Instance vle_preorder : PreOrder vle.
Proof. split; [intros m x; lia|]. intros m1 m2 m3 H1 H2 x. specialize (H1 x). specialize (H2 x). lia. Qed.

Lemma K_fresh x : x ∈ K → fresh x.
Proof. apply (proj1 (Forall_forall _ _) (nk_fresh K HK)). Qed.

Lemma rename_K_inj x y i j : x ∈ K → y ∈ K → rename_var x i = rename_var y j → x = y ∧ i = j.
Proof. intros Hx Hy [Hb ->]%rename_var_inj. split; [|done]. by apply (nk_base K HK). Qed.

(** Gives every raised version the value of the version it is raised from. *)
Definition lift m mt ρ : Env M := λ y,
  match List.find (λ x, bool_decide (y = rename_var x (ver mt x)) && (ver m x <? ver mt x)%N) K with
  | Some x => ρ (rename_var x (ver m x))
  | None => ρ y
  end.

Lemma lift_raised m mt ρ x : x ∈ K → (ver m x < ver mt x)%N →
  lift m mt ρ (rename_var x (ver mt x)) = ρ (rename_var x (ver m x)).
Proof.
  intros Hx Hlt. unfold lift. destruct (List.find _ K) as [z|] eqn:Hf.
  - apply find_some in Hf as [Hz [Hb _]%andb_true_iff]. apply bool_decide_eq_true in Hb.
    apply list_elem_of_In in Hz. by apply rename_K_inj in Hb as [-> _].
  - eapply find_none in Hf; [|by apply list_elem_of_In, Hx].
    apply N.ltb_lt in Hlt. rewrite Hlt bool_decide_eq_true_2 // in Hf.
Qed.

Lemma lift_other m mt ρ y :
  (∀ x, x ∈ K → (ver m x < ver mt x)%N → y ≠ rename_var x (ver mt x)) → lift m mt ρ y = ρ y.
Proof.
  intros H. unfold lift. destruct (List.find _ K) as [z|] eqn:Hf; [|done].
  apply find_some in Hf as [Hz [Hb Hlt]%andb_true_iff]. apply bool_decide_eq_true in Hb.
  apply N.ltb_lt in Hlt. apply list_elem_of_In in Hz. exfalso. by apply (H z).
Qed.

Lemma lift_eqm m mt ρ : eqm M K m ρ (lift m mt ρ).
Proof.
  intros y Hy. symmetry. apply lift_other. intros x Hx Hlt ->. apply Hy. by exists x, (ver mt x).
Qed.

Lemma lift_renv m mt σ ρ : im_keys m = K → im_keys mt = K → vle m mt →
  renv M m σ ρ → renv M mt σ (lift m mt ρ).
Proof.
  intros Hm Ht Hle H y Hy. rewrite -(H y Hy). destruct (decide (y ∈ K)) as [Hin|Hin].
  - rewrite !ren_key; [by rewrite Ht|by rewrite Hm|]. specialize (Hle y).
    destruct (N.lt_ge_cases (ver m y) (ver mt y)) as [Hlt|Hge]; [by apply lift_raised|].
    rewrite lift_other; [|by replace (ver mt y) with (ver m y) by lia].
    intros x Hx Hlt [-> _]%rename_K_inj; [lia|done|done].
  - rewrite !ren_not_key; [by rewrite Ht|by rewrite Hm|]. apply lift_other.
    intros x Hx _ He. by apply (fresh_not_version y x (ver mt x)).
Qed.

(** The values of all versions are of the variable's sort. *)
Definition typed_versions (Γ : Vars) ρ : Prop :=
  ∀ x t k, Γ !! x = Some t → i_typ M t (ρ (rename_var x k)).

Lemma lift_typed Γ m mt ρ : (∀ x, is_Some (Γ !! x) ↔ x ∈ K) →
  typed_versions Γ ρ → typed_versions Γ (lift m mt ρ).
Proof.
  intros HΓ Ht x t k Hx. unfold lift. destruct (List.find _ K) as [z|] eqn:Hf; [|by apply Ht].
  apply find_some in Hf as [Hz [Hb _]%andb_true_iff]. apply bool_decide_eq_true in Hb.
  apply list_elem_of_In in Hz. apply rename_K_inj in Hb as [<- _]; [by apply Ht| |done].
  apply HΓ. eauto.
Qed.

(** ** Matching states *)

Definition snap_match m S (σ : State M) ρ (s : Ident) : Prop :=
  ∃ ms ρs, S !! s = Some ms ∧ snaps σ !! s = Some ρs ∧ im_keys ms = K ∧ vle ms m
    ∧ renv M ms ρs ρ.

Record matches D m S (σ : State M) ρ : Prop := {
  mt_keys : im_keys m = K;
  mt_env : renv M m (env σ) ρ;
  mt_snaps : ∀ s, s ∈ D → snap_match m S σ ρ s
}.

Lemma matches_sim Γ D m S σ ρ : (∀ x, is_Some (Γ !! x) ↔ x ∈ K) →
  matches D m S σ ρ → sim M K D m S (olds M Γ σ) (env σ) ρ.
Proof.
  intros HΓ [Hk He Hs]. split; try done.
  - intros s x HsD Hx. destruct (Hs s HsD) as (ms & ρs & HS & Hσ & Hks & _ & Hr).
    exists ms, (ver ms x). split_and!; [done|by rewrite im_get_ver ?Hks|].
    apply HΓ in Hx as [t Ht]. unfold olds. rewrite Ht Hσ. f_equal.
    assert (Hx : x ∈ K) by (apply HΓ; eauto).
    rewrite -(Hr x (K_fresh x Hx)) ren_key //. by rewrite Hks.
  - intros s x HsD Hx. destruct (Hs s HsD) as (ms & ρs & HS & Hσ & Hks & _).
    unfold olds. rewrite HS. simpl. split; [|by apply im_get_None; rewrite Hks].
    destruct (Γ !! x) as [t|] eqn:Ht; [|done]. exfalso. apply Hx, HΓ. eauto.
Qed.

Lemma snap_match_frame m m' S S' σ σ' ρ ρ' s :
  vle m m' → S' !! s = S !! s → snaps σ' !! s = snaps σ !! s → eqm M K m ρ ρ' →
  snap_match m S σ ρ s → snap_match m' S' σ' ρ' s.
Proof.
  intros Hle HS Hσ Heq (ms & ρs & ? & ? & Hk & Hms & Hr). exists ms, ρs.
  rewrite HS Hσ. split_and!; try done; [by etrans|]. by apply (renv_eqm M K ms m ρs ρ).
Qed.

(** The lowered root of an expression has the expression's value. *)
Lemma matches_eval Γ D m S σ ρ old' e : (∀ x, is_Some (Γ !! x) ↔ x ∈ K) →
  matches D m S σ ρ → expr_ok K D e →
  eval M old' ρ (lower_root m S e) = eval M (olds M Γ σ) (env σ) e.
Proof.
  intros HΓ Hm He. rewrite (lower_root_expr K D) //; [by apply Hm| |].
  - intros s x Hs Hx. destruct (mt_snaps _ _ _ _ _ Hm s Hs) as (ms & ρs & HS & _ & Hk & _).
    rewrite HS. simpl. apply im_get_is_Some. by rewrite Hk.
  - apply (lower_expr_eval M K D m S e He). by apply matches_sim.
Qed.
End lift.
End with_index_map.
