(* ===== verification/VersionSound.v ===== *)
(** * Every execution is an execution of the lowered statement

    Forward simulation: whatever a statement does from a state, the lowered
    statement does for suitable values of the later versions.  So a failing
    assertion is still found after the pass. *)

From S2P Require Import Prelude RustString Ast AstUtil Semantics ExprFacts StmtFacts IndexMap.
From S2P Require Import Visitor VarToConst Ssa SsaEquiv VersionSim.
Set Warnings "-rewrite-rw,-register-all,-clear-no-such-hyp".

Section with_index_map.
Context {IM : IndexMapOps} {IML : IndexMapLaws IM}.
Implicit Types (m : Versions) (K D : list Ident) (S : Snapshots) (T : gmap Ident Versions).

Fixpoint assigns (s : Stmt) : list (Ident * Expr) :=
  match s with
  | StmtX_Assign x e => [(x, e)]
  | StmtX_DeadEnd s | StmtX_Breakable _ s => assigns s
  | StmtX_Block ss | StmtX_Switch ss => concat (map assigns ss)
  | _ => []
  end.

(** ** Well-typed states *)

Section typed.
Context (M : Interp) (Γ Δ : Vars).
Implicit Types (σ : State M) (ρ : Env M).

(** [Δ] gives the sorts of all constants and variables, [Γ] those of the variables. *)
Definition env_typed ρ : Prop := ∀ x t, Δ !! x = Some t → i_typ M t (ρ x).
Definition st_typed σ : Prop :=
  env_typed (env σ) ∧ ∀ s ρs, snaps σ !! s = Some ρs → env_typed ρs.

(** Assigned expressions have values of the variable's sort. *)
Definition assigns_typed (s : Stmt) : Prop :=
  Forall (λ p, ∀ t σ, Γ !! p.1 = Some t → st_typed σ →
    i_typ M t (eval M (olds M Γ σ) (env σ) p.2)) (assigns s).

Context (HΓΔ : Γ ⊆ Δ).

Lemma set_var_typed σ x v t : Γ !! x = Some t → i_typ M t v → st_typed σ →
  st_typed (set_var M σ x v).
Proof.
  intros Hx Hv [He Hs]. split; [|done]. intros y t' Hy. simpl.
  destruct (decide (y = x)) as [->|Hne]; [|by apply He].
  rewrite (lookup_weaken _ _ _ _ Hx HΓΔ) in Hy. by injection Hy as <-.
Qed.

Lemma exec_typed s : assigned s ⊆ elements (dom Γ) → assigns_typed s → ∀ σ o σ',
  exec M Γ s σ o → out_state o = Some σ' → st_typed σ → st_typed σ'.
Proof.
  unfold assigns_typed.
  induction s as [e|i msg f e|x|x e|x|s IH|l s IH|l|ss IH|ss IH] using StmtX_ind';
    intros Hsub Hat σ o σ' He Ho Hst; simpl in He, Hsub, Hat.
  - destruct He as [_ ->]. by injection Ho as <-.
  - subst o. destruct (holds _ _ _ _); [|done]. by injection Ho as <-.
  - destruct He as (t & v & Ht & Hv & ->). injection Ho as <-. by eapply set_var_typed.
  - subst o. injection Ho as <-. rewrite Forall_singleton in Hat.
    assert (is_Some (Γ !! x)) as [t Ht].
    { apply elem_of_dom, elem_of_elements, Hsub, list_elem_of_here. }
    eapply set_var_typed; [done| |done]. by apply Hat.
  - subst o. injection Ho as <-. destruct Hst as [He Hs]. split; [done|].
    intros s ρs. simpl. rewrite lookup_insert_Some. intros [[<- <-]|[_ H]]; [done|].
    by apply (Hs s).
  - destruct He as [->|[He _]]; [by injection Ho as <-|]. by eapply IH.
  - destruct He as (o' & He & ->). destruct o' as [τ|l' τ|aid]; simpl in Ho; [..|done].
    + injection Ho as <-. by eapply IH.
    + destruct (decide _); injection Ho as <-; by eapply IH.
  - subst o. by injection Ho as <-.
  - revert σ He Hst. induction IH as [|s ss Hs _ IHss]; intros σ He Hst; simpl in *.
    { subst o. by injection Ho as <-. }
    apply Forall_app in Hat as [Ha1 Ha2].
    assert (Hsub1 : assigned s ⊆ elements (dom Γ)) by (intros x ?; apply Hsub, elem_of_app; by left).
    assert (Hsub2 : concat (map assigned ss) ⊆ elements (dom Γ))
      by (intros x ?; apply Hsub, elem_of_app; by right).
    destruct He as [(τ & H1 & H2)|[H1 _]].
    + apply (IHss Hsub2 Ha2 τ H2). by eapply (Hs Hsub1 Ha1 σ _ τ H1).
    + by eapply (Hs Hsub1 Ha1 σ o σ').
  - induction IH as [|s ss Hs _ IHss]; simpl in *; [done|].
    apply Forall_app in Hat as [Ha1 Ha2].
    assert (Hsub1 : assigned s ⊆ elements (dom Γ)) by (intros x ?; apply Hsub, elem_of_app; by left).
    assert (Hsub2 : concat (map assigned ss) ⊆ elements (dom Γ))
      by (intros x ?; apply Hsub, elem_of_app; by right).
    destruct He as [(o' & H1 & ->)|He]; [|auto].
    destruct o' as [τ|l' τ|aid]; simpl in Ho; [..|done].
    + injection Ho as <-. destruct (Hs Hsub1 Ha1 σ _ τ H1 eq_refl Hst) as [He _].
      split; [done|]. by apply Hst.
    + injection Ho as <-. by apply (Hs Hsub1 Ha1 σ _ τ H1).
Qed.
End typed.

(** ** The simulation *)

Section sound.
Context (M : Interp) (K : list Ident) (HK : names_ok K).
Context (Γ Δ Γ' : Vars) (HΓ : ∀ x, is_Some (Γ !! x) ↔ x ∈ K) (HΓΔ : Γ ⊆ Δ).
Implicit Types (ρ : Env M) (σ : State M).

#[local] Abbreviation matches := (matches M K).
#[local] Abbreviation run T s m S ρ o := (exec M Γ' (ssa T s m S) (mkState ρ ∅) o).

(** The breaks that leave a statement reach versions at or above their own. *)
Definition targets T (bs : Breaks) : Prop :=
  Forall (λ p, ∃ mt, T !! p.1 = Some mt ∧ im_keys mt = K ∧ vle p.2 mt) bs.

(** What the lowered statement does when the statement ends in [o]. *)
Definition simulates T s m S D σ ρ1 (o : outcome M) : Prop :=
  match o with
  | ONormal σ' =>
    matches (avail s D) (final s m) (snaps_after s m S) σ' ρ1
    ∧ ∀ ρ', eqm M K (final s m) ρ1 ρ' → run T s m S ρ' (ONormal (mkState ρ' ∅))
  | OBreak l σ' =>
    ∃ mt, T !! l = Some mt ∧ im_keys mt = K ∧ vle m mt ∧ renv M mt (env σ') ρ1
    ∧ ∀ ρ', eqm M K mt ρ1 ρ' → run T s m S ρ' (OBreak l (mkState ρ' ∅))
  | OFail aid => run T s m S ρ1 (OFail aid)
  end.

Definition ready s m D : Prop :=
  im_keys m = K ∧ assigned s ⊆ K ∧ stmt_names_ok K D s ∧ assigns_typed M Γ Δ s.

Definition forward s : Prop := ∀ T m S D σ o ρ,
  ready s m D → targets T (breaks s m) → exec M Γ s σ o → matches D m S σ ρ →
  st_typed M Δ σ → typed_versions M Γ ρ →
  ∃ ρ1, eqm M K m ρ ρ1 ∧ typed_versions M Γ ρ1 ∧ simulates T s m S D σ ρ1 o.

Lemma vers_vle s m : im_keys m = K → assigned s ⊆ K → vle m (final s m).
Proof.
  intros Hk Hsub. apply (vers_keeps (λ v, im_keys v = K ∧ vle m v)).
  - intros v vs [Hv Hl] Hne Hvs. split; [by rewrite keys_join|]. intros x.
    destruct (decide (x ∈ K)) as [Hx|Hx].
    + rewrite ver_join; [by rewrite Hv|]. destruct vs as [|v1 vs]; [done|].
      apply Forall_cons in Hvs as [[_ Hv1] _]. specialize (Hv1 x). simpl. lia.
    + rewrite (ver_not_key m); [by rewrite Hk|]. lia.
  - intros v x Hx [Hv Hl]. split; [unfold bump; rewrite im_keys_insert ?Hv; auto|].
    intros y. specialize (Hl y). destruct (decide (x = y)) as [->|Hne].
    + rewrite ver_bump. lia. + by rewrite ver_bump_ne.
  - by split.
Qed.

Lemma matches_mono D m m' S S' σ σ' ρ ρ' :
  vle m m' → (∀ s, s ∈ D → S' !! s = S !! s) → (∀ s, s ∈ D → snaps σ' !! s = snaps σ !! s) →
  eqm M K m ρ ρ' → im_keys m' = K → renv M m' (env σ') ρ' →
  matches D m S σ ρ → matches D m' S' σ' ρ'.
Proof.
  intros Hle HS Hσ Heq Hk Hr [_ _ Hs]. split; [done..|]. intros s Hin.
  apply (snap_match_frame M K HK m m' S S' σ σ' ρ ρ' s); auto.
Qed.

(** *** Leaves *)

Lemma forward_skip s m D S T σ ρ :
  matches D m S σ ρ → final s m = m → avail s D = D → snaps_after s m S = S →
  (∀ ρ', eqm M K m ρ ρ' → run T s m S ρ' (ONormal (mkState ρ' ∅))) →
  simulates T s m S D σ ρ (ONormal σ).
Proof. intros Hm Hf Ha Hs H. simpl. by rewrite Hf Ha Hs. Qed.

Lemma eval_eqm D m S σ ρ ρ' old' e : im_keys m = K → matches D m S σ ρ → eqm M K m ρ ρ' →
  expr_ok K D e → eval M old' ρ' (lower_root m S e) = eval M (olds M Γ σ) (env σ) e.
Proof.
  intros Hk Hm Heq He. apply (matches_eval M K HK Γ D); [done| |done].
  apply (matches_mono D m m S S σ σ ρ ρ'); try done. by apply (renv_eqm M K m m _ ρ); try done; apply Hm.
Qed.

Lemma forward_assume e : forward (StmtX_Assume e).
Proof.
  intros T m S D σ o ρ (Hk & _ & He & _) _ [Hh ->] Hm _ Ht. exists ρ. split_and!; [apply eqm_refl|done|].
  apply forward_skip; try done. intros ρ' Heq. simpl. split; [|done].
  unfold holds, truth in *. by rewrite (eval_eqm D m S σ ρ).
Qed.

Lemma forward_assert i msg f e : forward (StmtX_Assert i msg f e).
Proof.
  intros T m S D σ o ρ (Hk & _ & He & _) _ Ho Hm _ Ht. exists ρ. split_and!; [apply eqm_refl|done|].
  simpl in Ho. subst o.
  assert (Hev : ∀ ρ', eqm M K m ρ ρ' → holds M Γ' (mkState ρ' ∅) (lower_root m S e) = holds M Γ σ e).
  { intros ρ' Heq. unfold holds, truth. by rewrite (eval_eqm D m S σ ρ). }
  destruct (holds M Γ σ e) eqn:Hh.
  - apply forward_skip; try done. intros ρ' Heq. simpl. by rewrite (Hev ρ' Heq).
  - simpl. by rewrite (Hev ρ (eqm_refl _ _ _ _)).
Qed.

Lemma forward_snapshot x : forward (StmtX_Snapshot x).
Proof.
  intros T m S D σ o ρ _ _ Ho Hm _ Ht. simpl in Ho. subst o. exists ρ.
  split_and!; [apply eqm_refl|done|]. split; [|done]. destruct Hm as [Hk He Hs].
  split; [done..|]. intros s [->|Hin]%elem_of_cons.
  - exists m, (env σ). simpl. rewrite !lookup_insert_eq. split_and!; done.
  - destruct (decide (s = x)) as [->|Hne].
    + exists m, (env σ). simpl. rewrite !lookup_insert_eq. split_and!; done.
    + destruct (Hs s Hin) as (ms & ρs & ? & ? & ? & ? & ?). exists ms, ρs. simpl.
      rewrite !lookup_insert_ne //.
Qed.

(** *** Assignments *)

Lemma new_version_above m x : x ∈ K → above K m (rename_var x (ver m x + 1)).
Proof. intros Hx. exists x, (ver m x + 1)%N. split_and!; [done|lia|done]. Qed.

Lemma upd_eqm m ρ x v : x ∈ K → eqm M K m ρ (upd ρ (rename_var x (ver m x + 1)) v).
Proof.
  intros Hx y Hy. symmetry. apply upd_ne. intros ->. by apply Hy, new_version_above.
Qed.

Lemma upd_renv m (ρσ : Env M) ρ x v : im_keys m = K → x ∈ K → renv M m ρσ ρ →
  renv M (bump m x) (upd ρσ x v) (upd ρ (rename_var x (ver m x + 1)) v).
Proof.
  intros Hk Hx Hr y Hy.
  assert (Hkb : im_keys (bump m x) = K) by (unfold bump; rewrite im_keys_insert ?Hk; done).
  destruct (decide (y = x)) as [->|Hne].
  - rewrite upd_eq ren_key; [by rewrite Hkb|]. by rewrite ver_bump upd_eq.
  - rewrite (upd_ne M ρσ) //. rewrite -(Hr y Hy).
    assert (ren (bump m x) y = ren m y) as ->.
    { destruct (decide (y ∈ K)) as [Hin|Hin].
      - rewrite !ren_key; [by rewrite Hkb|by rewrite Hk|]. by rewrite ver_bump_ne.
      - rewrite !ren_not_key //; [by rewrite Hkb|by rewrite Hk]. }
    apply upd_ne. intros He. apply (ren_not_above K m m y); try done.
    rewrite He. by apply new_version_above.
Qed.

Lemma set_matches D m S σ ρ x v : x ∈ K → matches D m S σ ρ →
  matches D (bump m x) S (set_var M σ x v) (upd ρ (rename_var x (ver m x + 1)) v).
Proof.
  intros Hx Hm. assert (Hk := mt_keys _ _ _ _ _ _ _ Hm).
  assert (Hle : vle m (bump m x)).
  { intros y. destruct (decide (x = y)) as [->|?]; [rewrite ver_bump; lia|by rewrite ver_bump_ne]. }
  apply (matches_mono D m _ S S σ _ ρ); try done; [by apply upd_eqm| |].
  - unfold bump. rewrite im_keys_insert ?Hk; done.
  - by apply upd_renv, Hm.
Qed.

Lemma upd_typed ρ x n v t : Γ !! x = Some t → i_typ M t v → typed_versions M Γ ρ →
  typed_versions M Γ (upd ρ (rename_var x n) v).
Proof.
  intros Hx Hv Ht y t' k Hy. simpl. destruct (decide _) as [He|]; [|by apply Ht].
  apply (rename_K_inj K HK) in He as [-> _]; [congruence|apply HΓ; eauto|apply HΓ; eauto].
Qed.

Lemma forward_havoc x : forward (StmtX_Havoc x).
Proof.
  intros T m S D σ o ρ (Hk & Hsub & _) _ (t & v & Ht & Hv & ->) Hm _ Htv.
  assert (Hx : x ∈ K) by apply Hsub, list_elem_of_here.
  exists (upd ρ (rename_var x (ver m x + 1)) v). split_and!.
  - by apply upd_eqm.
  - by eapply upd_typed.
  - split; [by apply set_matches|done].
Qed.

Lemma forward_assign x e : forward (StmtX_Assign x e).
Proof.
  intros T m S D σ o ρ (Hk & Hsub & He & Hat) _ Ho Hm Hst Htv. simpl in Ho, He. subst o.
  assert (Hx : x ∈ K) by apply Hsub, list_elem_of_here.
  pose proof Hx as [t Ht]%HΓ.
  unfold assigns_typed in Hat. simpl in Hat. rewrite Forall_singleton in Hat.
  set (v := eval M (olds M Γ σ) (env σ) e).
  exists (upd ρ (rename_var x (ver m x + 1)) v). split_and!.
  - by apply upd_eqm.
  - eapply upd_typed; [done| |done]. by apply Hat.
  - split; [by apply set_matches|]. intros ρ' Heq. cbn [ssa exec]. split; [|done].
    assert (Hkb : im_keys (bump m x) = K) by (unfold bump; rewrite im_keys_insert ?Hk; done).
    assert (Hle : vle m (bump m x)).
    { intros y. destruct (decide (x = y)) as [->|?]; [rewrite ver_bump; lia|by rewrite ver_bump_ne]. }
    unfold holds, truth. cbn [eval]. rewrite i_truth_bool i_eqb_eq. cbn [env].
    rewrite (eval_eqm D m S σ ρ ρ'); try done.
    { apply (eqm_trans _ _ _ _ _ _ (upd_eqm m ρ x v Hx)). by eapply eqm_mono. }
    rewrite -(Heq (rename_var x (ver m x + 1))%N); [|by rewrite upd_eq].
    intros (y & k & Hy & Hlt & Hr). apply (rename_K_inj K HK) in Hr as [<- <-]; [|done..].
    simpl in Hlt. rewrite ver_bump in Hlt. lia.
Qed.

(** *** Breaks and scopes *)

Lemma exec_raised Γ0 s m mt ρ : eqs_hold M m mt ρ →
  exec M Γ0 s (mkState ρ ∅) (ONormal (mkState ρ ∅)) →
  exec M Γ0 (StmtX_Block (s :: version_eqs m mt)) (mkState ρ ∅) (ONormal (mkState ρ ∅)).
Proof.
  intros He Hs. left. exists (mkState ρ ∅). split; [done|]. by apply exec_version_eqs.
Qed.

Lemma raised_eqs m mt (σ : Env M) ρ ρ' : im_keys m = K → im_keys mt = K → vle m mt →
  renv M m σ ρ → eqm M K mt (lift M K m mt ρ) ρ' → eqs_hold M m mt ρ'.
Proof.
  intros Hk Ht Hle Hr Heq. apply (eqs_hold_renv M K m mt σ); try done.
  - apply (renv_eqm M K m m σ ρ); try done.
    apply (eqm_trans _ _ _ _ (lift M K m mt ρ)); [by apply lift_eqm|by eapply eqm_mono].
  - apply (renv_eqm M K mt mt σ (lift M K m mt ρ)); try done.
    by apply lift_renv.
Qed.

Lemma forward_break l : forward (StmtX_Break l).
Proof.
  intros T m S D σ o ρ (Hk & _) Htg Ho Hm _ Htv. simpl in Ho. subst o.
  unfold targets in Htg. simpl in Htg. rewrite Forall_singleton in Htg.
  destruct Htg as (mt & HT & Hkt & Hle). simpl in HT, Hle.
  exists (lift M K m mt ρ). split_and!; [by apply lift_eqm|by apply lift_typed|].
  exists mt. split_and!; try done; [by apply lift_renv; try done; apply Hm|].
  intros ρ' Heq. cbn [ssa]. rewrite HT. cbn [exec]. apply exec_block_app. left.
  exists (mkState ρ' ∅). split; [|by right].
  apply exec_version_eqs. split; [done|]. by eapply raised_eqs; try done; apply Hm.
Qed.

Lemma ready_sub s s' m D :
  assigned s' = assigned s → assigns s' = assigns s →
  (stmt_names_ok K D s → stmt_names_ok K D s') → ready s m D → ready s' m D.
Proof.
  intros Ha Has Hn (Hk & Hsub & Hnm & Hat). split_and!; [done|by rewrite Ha|auto|].
  unfold assigns_typed. by rewrite Has.
Qed.

(** Leaving a [DeadEnd] or [Breakable]: the snapshots taken inside are not known. *)
Lemma leave_matches s m mt D S σ σ' ρ ρ1 :
  assigned s ⊆ K → matches D m S σ ρ → eqm M K m ρ ρ1 → im_keys mt = K → vle m mt →
  renv M mt (env σ') ρ1 → (∀ x, x ∉ written s → snaps σ' !! x = snaps σ !! x) →
  matches (filter (λ x, x ∉ written s) D) mt (snaps_after s m S) σ' ρ1.
Proof.
  intros Hsub Hm Heq Hk Hle Hr Hsn.
  apply (matches_mono _ m mt S _ σ σ' ρ ρ1); try done.
  - intros x [Hx _]%list_elem_of_filter. by apply snaps_after_written.
  - intros x [Hx _]%list_elem_of_filter. by apply Hsn.
  - destruct Hm as [? ? Hs]. split; [done..|]. intros x [_ Hx]%list_elem_of_filter. by apply Hs.
Qed.

Lemma forward_deadend s : forward s → forward (StmtX_DeadEnd s).
Proof.
  intros IH T m S D σ o ρ Hrd Htg He Hm Hst Htv. pose proof Hrd as (Hk & Hsub & _).
  simpl in Hsub, Htg, He. destruct He as [->|[He Hn]].
  - assert (Hkf : im_keys (final s m) = K).
    { rewrite -Hk. apply vers_keys. by rewrite Hk. }
    exists (lift M K m (final s m) ρ). split_and!; [by apply lift_eqm|by apply lift_typed|].
    split; [|by intros ρ' _; left].
    apply (leave_matches s m _ D S σ σ ρ); try done; [by apply lift_eqm|by apply vers_vle|].
    apply lift_renv; try done; [by apply vers_vle|apply Hm].
  - destruct (IH T m S D σ o ρ) as (ρ1 & Heq & Htv1 & Hsim); try done.
    exists ρ1. split_and!; try done. destruct o as [σ'|l σ'|aid]; [done|..].
    + destruct Hsim as (mt & ? & ? & ? & ? & Hrun). exists mt. split_and!; try done.
      intros ρ' Heq'. cbn [ssa exec]. right. by auto.
    + cbn [simulates ssa exec]. by right.
Qed.

Lemma breakable_targets l s m T : im_keys m = K → assigned s ⊆ K →
  targets T (other_breaks l (breaks s m)) →
  targets (<[l := join_breakable l (vers s m)]> T) (breaks s m)
  ∧ vle (final s m) (join_breakable l (vers s m)).
Proof.
  intros Hk Hsub Htg. set (mt := join_breakable l (vers s m)).
  assert (Hsub' : assigned s ⊆ im_keys m) by by rewrite Hk.
  destruct (vers_keys s m Hsub') as [Hkf Hkb]. rewrite Hk in Hkf Hkb.
  assert (Hkt : im_keys mt = K) by by rewrite keys_join.
  assert (Hge : ∀ v, im_keys v = K → v ∈ final s m :: breaks_of l (breaks s m) → vle v mt).
  { intros v Hkv Hv x. destruct (decide (x ∈ K)) as [Hx|Hx].
    - rewrite ver_join; [by rewrite Hkf|]. apply max_list_ge.
      by apply (list_elem_of_fmap_2 (λ v, ver v x)).
    - rewrite ver_not_key; [by rewrite Hkv|]. lia. }
  split; [|apply Hge; [done|apply list_elem_of_here]].
  apply Forall_forall. intros [l' v] Hin. simpl. destruct (decide (l' = l)) as [->|Hne].
  - exists mt. rewrite lookup_insert_eq. split_and!; try done. apply Hge.
    + by apply (proj1 (Forall_forall _ _) Hkb _ Hin).
    + apply elem_of_cons. right. apply (list_elem_of_fmap_2 snd _ (l, v)).
      by apply list_elem_of_filter.
  - rewrite lookup_insert_ne //. apply (proj1 (Forall_forall _ _) Htg (l', v)).
    by apply list_elem_of_filter.
Qed.

Lemma forward_breakable l s : forward s → forward (StmtX_Breakable l s).
Proof.
  intros IH T m S D σ o ρ Hrd Htg (o' & He & ->) Hm Hst Htv.
  pose proof Hrd as (Hk & Hsub & _). simpl in Hsub, Htg.
  set (mt := join_breakable l (vers s m)).
  assert (Hsub' : assigned s ⊆ im_keys m) by by rewrite Hk.
  destruct (vers_keys s m Hsub') as [Hkf Hkb]. rewrite Hk in Hkf Hkb.
  assert (Hkt : im_keys mt = K) by by rewrite keys_join.
  destruct (breakable_targets l s m T Hk Hsub Htg) as [Htg' Hlef].
  assert (Hlem : vle m mt) by (etrans; [by apply vers_vle|done]).
  destruct (IH (<[l := mt]> T) m S D σ o' ρ) as (ρ1 & Heq & Htv1 & Hsim); try done.
  assert (Hleave : ∀ ρ2 σ', out_state o' = Some σ' → eqm M K m ρ ρ2 → renv M mt (env σ') ρ2 →
    matches (filter (λ x, x ∉ written s) D) mt (snaps_after s m S) σ' ρ2).
  { intros ρ2 σ' Ho' Heq2 Hr2. apply (leave_matches s m mt D S σ σ' ρ ρ2); try done.
    intros x Hx. by eapply exec_snaps. }
  destruct o' as [σ'|l' σ'|aid]; simpl in Hsim; cbn [catch].
  - destruct Hsim as [Hm' Hrun]. exists (lift M K (final s m) mt ρ1).
    assert (Heq1 : eqm M K m ρ (lift M K (final s m) mt ρ1)).
    { apply (eqm_trans _ _ _ _ ρ1); [done|]. apply (eqm_mono _ _ _ (final s m)); [by apply vers_vle|].
      by apply lift_eqm. }
    split_and!; [done|by apply lift_typed|].
    split; [apply Hleave; try done; apply lift_renv; try done; apply Hm'|].
    intros ρ' Heq'. exists (ONormal (mkState ρ' ∅)). split; [|done].
    apply exec_raised; [eapply (raised_eqs _ _ (env σ')); try done; apply Hm'|].
    apply Hrun. apply (eqm_trans _ _ _ _ (lift M K (final s m) mt ρ1)); [by apply lift_eqm|].
    by eapply eqm_mono.
  - destruct Hsim as (mt' & HT & Hkt' & Hle' & Hr & Hrun). destruct (decide (l' = l)) as [->|Hne].
    + rewrite lookup_insert_eq in HT. injection HT as <-.
      exists ρ1. split_and!; [done..|]. split; [by apply Hleave|].
      intros ρ' Heq'. exists (OBreak l (mkState ρ' ∅)). cbn [catch]. rewrite decide_True //.
      split; [|done]. right. split; [|done]. by apply Hrun.
    + rewrite lookup_insert_ne // in HT. exists ρ1. split_and!; [done..|].
      exists mt'. split_and!; try done. intros ρ' Heq'. exists (OBreak l' (mkState ρ' ∅)).
      cbn [catch]. rewrite decide_False //. split; [|done]. right. split; [|done]. by apply Hrun.
  - exists ρ1. split_and!; [done..|]. exists (OFail aid). split; [|done]. by right.
Qed.

(** *** Sequences and choices *)

Lemma ready_block s ss m D : ready (StmtX_Block (s :: ss)) m D →
  ready s m D ∧ ready (StmtX_Block ss) (final s m) (avail s D).
Proof.
  intros (Hk & Hsub & [Hn1 Hn2] & Hat). unfold assigns_typed in Hat. simpl in Hsub, Hat.
  apply Forall_app in Hat as [Ha1 Ha2].
  assert (Hsub1 : assigned s ⊆ K) by (intros x ?; apply Hsub, elem_of_app; by left).
  split; split_and!; try done.
  - rewrite -Hk. apply vers_keys. by rewrite Hk.
  - intros x ?. apply Hsub, elem_of_app. by right.
Qed.

Lemma forward_block ss : Forall forward ss → forward (StmtX_Block ss).
Proof.
  induction 1 as [|s ss Hs _ IH]; intros T m S D σ o ρ Hrd Htg He Hm Hst Htv.
  { simpl in He. subst o. exists ρ. split_and!; [apply eqm_refl|done|]. by split. }
  pose proof Hrd as (Hk & Hsub0 & _ & Hat0). unfold assigns_typed in Hat0. simpl in Hsub0, Hat0.
  apply Forall_app in Hat0 as [Hat1 _].
  apply ready_block in Hrd as [Hrd1 Hrd2].
  assert (Hle1 : vle m (final s m)) by (apply vers_vle; [done|apply Hrd1]).
  unfold targets in Htg. simpl in Htg. apply Forall_app in Htg as [Htg1 Htg2].
  destruct He as [(τ & He1 & He2)|[He1 Hn]].
  - destruct (Hs T m S D σ _ ρ Hrd1 Htg1 He1 Hm Hst Htv) as (ρ1 & Heq1 & Htv1 & Hm1 & Hrun1).
    assert (Hst1 : st_typed M Δ τ).
    { eapply (exec_typed M Γ Δ HΓΔ s); [|done|exact He1|done|done].
      intros x Hx. apply elem_of_elements, elem_of_dom, HΓ. by apply Hrd1. }
    destruct (IH T _ (snaps_after s m S) _ τ o ρ1 Hrd2 Htg2 He2 Hm1 Hst1 Htv1)
      as (ρ2 & Heq2 & Htv2 & Hsim).
    exists ρ2. split_and!; [|done|].
    { apply (eqm_trans _ _ _ _ ρ1); [done|]. by apply (eqm_mono _ _ _ (final s m)). }
    destruct o as [σ'|l σ'|aid].
    + destruct Hsim as [Hm2 Hrun2]. split; [done|]. intros ρ' Heq'. left.
      exists (mkState ρ' ∅). split; [|by apply Hrun2]. apply Hrun1.
      apply (eqm_trans _ _ _ _ ρ2); [done|]. eapply eqm_mono; [|exact Heq'].
      apply (vers_vle (StmtX_Block ss)); [apply Hrd2|apply Hrd2].
    + destruct Hsim as (mt & ? & ? & Hle & ? & Hrun2). exists mt. split_and!; try done; [by etrans|].
      intros ρ' Heq'. left. exists (mkState ρ' ∅). split; [|by apply Hrun2]. apply Hrun1.
      apply (eqm_trans _ _ _ _ ρ2); [done|]. by eapply eqm_mono.
    + left. exists (mkState ρ2 ∅). split; [by apply Hrun1|done].
  - destruct (Hs T m S D σ o ρ Hrd1 Htg1 He1 Hm Hst Htv) as (ρ1 & Heq1 & Htv1 & Hsim).
    exists ρ1. split_and!; [done..|]. destruct o as [σ'|l σ'|aid]; [done|..].
    + destruct Hsim as (mt & ? & ? & ? & ? & Hrun). exists mt. split_and!; try done.
      intros ρ' Heq'. right. split; [by apply Hrun|done].
    + right. split; [done|done].
Qed.

Lemma exec_switch_in Γ0 ss σ o :
  exec_switch M (exec M Γ0) ss σ o
  ↔ ∃ s o', s ∈ ss ∧ exec M Γ0 s σ o' ∧ o = drop_snaps M (snaps σ) o'.
Proof.
  induction ss as [|s ss IH]; simpl.
  - split; [done|]. by intros (s & o' & ?%not_elem_of_nil & _).
  - rewrite IH. split.
    + intros [(o' & H1 & H2)|(s' & o' & Hin & H)]; [exists s, o'|exists s', o'];
        (split; [|done]); apply elem_of_cons; [by left|by right].
    + intros (s' & o' & [->|Hin]%elem_of_cons & H); [left; by exists o'|right; by exists s', o'].
Qed.

Lemma ready_branch ss s m D : s ∈ ss → ready (StmtX_Switch ss) m D → ready s m D.
Proof.
  intros Hin (Hk & Hsub & Hn & Hat). unfold assigns_typed in Hat. simpl in Hsub, Hn, Hat.
  split_and!; [done|..].
  - intros x Hx. apply Hsub. apply list_elem_of_In, in_concat. exists (assigned s).
    split; [by apply in_map, list_elem_of_In|by apply list_elem_of_In].
  - clear -Hin Hn. induction ss as [|s' ss IH]; [by apply not_elem_of_nil in Hin|].
    destruct Hn as [Hn1 Hn2]. apply elem_of_cons in Hin as [->|Hin]; auto.
  - rewrite Forall_concat_map Forall_forall in Hat. by apply Hat.
Qed.

Lemma final_switch ss m s : im_keys m = K → concat (map assigned ss) ⊆ K → s ∈ ss →
  im_keys (final (StmtX_Switch ss) m) = K ∧ vle (final s m) (final (StmtX_Switch ss) m).
Proof.
  intros Hk Hsub Hin.
  assert (Hj : final (StmtX_Switch ss) m = join m (map (λ s, final s m) ss)).
  { destruct ss; [by apply not_elem_of_nil in Hin|done]. }
  rewrite Hj. split; [by rewrite keys_join|]. intros x. destruct (decide (x ∈ K)) as [Hx|Hx].
  - rewrite ver_join; [by rewrite Hk|]. apply max_list_ge.
    rewrite map_map. by apply (list_elem_of_fmap_2 (λ s, ver (final s m) x)).
  - rewrite ver_not_key; [|lia]. destruct (vers_keys s m) as [Hkf _]; [|by rewrite Hkf Hk].
    rewrite Hk. intros y Hy. apply Hsub. apply list_elem_of_In, in_concat. exists (assigned s).
    split; [by apply in_map, list_elem_of_In|by apply list_elem_of_In].
Qed.

Lemma forward_switch ss : Forall forward ss → forward (StmtX_Switch ss).
Proof.
  intros Hss T m S D σ o ρ Hrd Htg He Hm Hst Htv. pose proof Hrd as (Hk & Hsub & _).
  simpl in Hsub. apply exec_switch_in in He as (s & o' & Hin & He & ->).
  pose proof (ready_branch ss s m D Hin Hrd) as Hrds.
  destruct (final_switch ss m s Hk Hsub Hin) as [Hkt Hlef].
  set (mt := final (StmtX_Switch ss) m) in *.
  assert (Hlem : vle m mt) by (etrans; [apply vers_vle; [done|apply Hrds]|exact Hlef]).
  assert (Hkf : im_keys (final s m) = K).
  { rewrite -Hk. apply vers_keys. rewrite Hk. apply Hrds. }
  unfold targets in Htg. rewrite vers_switch_breaks Forall_concat_map Forall_forall in Htg.
  rewrite Forall_forall in Hss.
  destruct (Hss s Hin T m S D σ o' ρ Hrds (Htg s Hin) He Hm Hst Htv) as (ρ1 & Heq & Htv1 & Hsim).
  assert (Hbranch : ∀ ρ' o1, exec M Γ' (branch T m S mt s) (mkState ρ' ∅) o1 →
    drop_snaps M ∅ o1 = o1 → run T (StmtX_Switch ss) m S ρ' o1).
  { intros ρ' o1 H Hd. apply exec_switch_in. exists (branch T m S mt s), o1.
    split_and!; [by apply (list_elem_of_fmap_2 (branch T m S mt))|done|done]. }
  destruct o' as [σ'|l σ'|aid]; simpl in Hsim; cbn [drop_snaps].
  - destruct Hsim as [Hm' Hrun]. exists (lift M K (final s m) mt ρ1).
    assert (Heq1 : eqm M K m ρ (lift M K (final s m) mt ρ1)).
    { apply (eqm_trans _ _ _ _ ρ1); [done|]. apply (eqm_mono _ _ _ (final s m)); [by apply vers_vle, Hrds|].
      by apply lift_eqm. }
    split_and!; [done|by apply lift_typed|]. split.
    + apply (matches_mono D m mt S S σ _ ρ); try done. apply lift_renv; try done. apply Hm'.
    + intros ρ' Heq'. apply Hbranch; [|done]. apply exec_raised.
      * eapply (raised_eqs _ _ (env σ')); try done. apply Hm'.
      * apply Hrun. apply (eqm_trans _ _ _ _ (lift M K (final s m) mt ρ1)); [by apply lift_eqm|].
        by eapply eqm_mono.
  - exists ρ1. split_and!; [done..|]. destruct Hsim as (mt' & ? & ? & ? & ? & Hrun). exists mt'.
    split_and!; try done. intros ρ' Heq'. apply Hbranch; [|done]. right. split; [by apply Hrun|done].
  - exists ρ1. split_and!; [done..|]. apply Hbranch; [|done]. right. by split.
Qed.

Lemma lower_forward s : forward s.
Proof.
  induction s as [e|i msg f e|x|x e|x|s IH|l s IH|l|ss IH|ss IH] using StmtX_ind'.
  - apply forward_assume.
  - apply forward_assert.
  - apply forward_havoc.
  - apply forward_assign.
  - apply forward_snapshot.
  - by apply forward_deadend.
  - by apply forward_breakable.
  - apply forward_break.
  - by apply forward_block.
  - by apply forward_switch.
Qed.
End sound.
End with_index_map.

(** ** The lowered statement does nothing new

    Backward simulation: what the lowered statement does for some values of the
    versions, the statement does from the state these values describe, provided
    the bodies of its [DeadEnd]s assign nothing.  So the pass adds no failures. *)

Section with_index_map.
Context {IM : IndexMapOps} {IML : IndexMapLaws IM}.
Implicit Types (m : Versions) (K D : list Ident) (S : Snapshots) (T : gmap Ident Versions).

(** After an assignment in a [DeadEnd] the variable's version is that of the dead path. *)
Fixpoint dead_ends_pure (s : Stmt) : bool :=
  match s with
  | StmtX_DeadEnd s => match assigned s with [] => true | _ => false end && dead_ends_pure s
  | StmtX_Breakable _ s => dead_ends_pure s
  | StmtX_Block ss | StmtX_Switch ss => forallb dead_ends_pure ss
  | _ => true
  end.

Section complete.
Context (M : Interp) (K : list Ident) (HK : names_ok K).
Context (Γ Γ' : Vars) (HΓ : ∀ x, is_Some (Γ !! x) ↔ x ∈ K).
Implicit Types (ρ : Env M) (σ : State M).

#[local] Abbreviation matches := (matches M K).

(** The values of the versions created by [Havoc] are of the variable's sort. *)
Definition events_typed ρ (evs : list VersionEvent) : Prop :=
  Forall (λ ev, ∀ t, Γ !! ev_base ev = Some t → i_typ M t (ρ (ev_versioned ev))) evs.

Definition is_simulated T s m S D σ ρ (o' : outcome M) : Prop :=
  match o' with
  | ONormal st => st = mkState ρ ∅ ∧ ∃ σ', exec M Γ s σ (ONormal σ')
      ∧ matches (avail s D) (final s m) (snaps_after s m S) σ' ρ
  | OBreak l st => st = mkState ρ ∅ ∧ ∃ mt σ', T !! l = Some mt ∧ exec M Γ s σ (OBreak l σ')
      ∧ renv M mt (env σ') ρ
  | OFail aid => exec M Γ s σ (OFail aid)
  end.

Definition quiet s m D : Prop :=
  im_keys m = K ∧ assigned s ⊆ K ∧ stmt_names_ok K D s ∧ dead_ends_pure s = true.

Definition backward s : Prop := ∀ T m S D σ ρ o',
  quiet s m D → targets K T (breaks s m) → events_typed ρ (version_events s m) →
  exec M Γ' (ssa T s m S) (mkState ρ ∅) o' → matches D m S σ ρ →
  is_simulated T s m S D σ ρ o'.

(** *** Leaves *)

Lemma holds_lowered D m S σ ρ e : matches D m S σ ρ → expr_ok K D e →
  holds M Γ' (mkState ρ ∅) (lower_root m S e) = holds M Γ σ e.
Proof. intros Hm He. unfold holds, truth. by rewrite (matches_eval M K HK Γ D m S σ ρ). Qed.

Lemma backward_assume e : backward (StmtX_Assume e).
Proof.
  intros T m S D σ ρ o' (Hk & _ & He & _) _ _ [Hh ->] Hm. split; [done|]. exists σ.
  split; [|done]. split; [|done]. by rewrite -(holds_lowered D m S σ ρ).
Qed.

Lemma backward_assert i msg f e : backward (StmtX_Assert i msg f e).
Proof.
  intros T m S D σ ρ o' (Hk & _ & He & _) _ _ Ho Hm. simpl in Ho, He.
  rewrite (holds_lowered D m S σ ρ e Hm He) in Ho. destruct (holds M Γ σ e) eqn:Hh; subst o'.
  - split; [done|]. exists σ. split; [|done]. simpl. by rewrite Hh.
  - simpl. by rewrite Hh.
Qed.

(** A version that holds the new value. *)
Lemma set_matched D m S σ ρ x v : im_keys m = K → x ∈ K → matches D m S σ ρ →
  ρ (rename_var x (ver m x + 1)) = v → matches D (bump m x) S (set_var M σ x v) ρ.
Proof.
  intros Hk Hx Hm Hv.
  assert (Hle : vle m (bump m x)).
  { intros y. destruct (decide (x = y)) as [->|?]; [rewrite ver_bump; lia|by rewrite ver_bump_ne]. }
  assert (Hkb : im_keys (bump m x) = K) by (unfold bump; rewrite im_keys_insert ?Hk; done).
  apply (matches_mono M K HK D m _ S S σ _ ρ ρ); try done.
  intros y Hy. simpl. destruct (decide (y = x)) as [->|Hne].
  - by rewrite ren_key ?Hkb // ver_bump.
  - rewrite -(mt_env _ _ _ _ _ _ _ Hm y Hy). f_equal. destruct (decide (y ∈ K)) as [Hin|Hin].
    + by rewrite !ren_key ?Hk ?Hkb // ver_bump_ne.
    + by rewrite !ren_not_key ?Hk ?Hkb.
Qed.

Lemma backward_havoc x : backward (StmtX_Havoc x).
Proof.
  intros T m S D σ ρ o' (Hk & Hsub & _) _ Hev Ho Hm. simpl in Ho, Hev. subst o'.
  assert (Hx : x ∈ K) by apply Hsub, list_elem_of_here. split; [done|].
  pose proof Hx as [t Ht]%HΓ. unfold events_typed in Hev. rewrite Forall_singleton in Hev.
  eexists. split; [|by apply set_matched]. exists t, (ρ (rename_var x (ver m x + 1))).
  split_and!; [done|by apply Hev|done].
Qed.

Lemma backward_assign x e : backward (StmtX_Assign x e).
Proof.
  intros T m S D σ ρ o' (Hk & Hsub & He & _) _ _ [Ho ->] Hm. simpl in He.
  assert (Hx : x ∈ K) by apply Hsub, list_elem_of_here. split; [done|].
  eexists. split; [reflexivity|]. apply set_matched; try done.
  unfold holds, truth in Ho. cbn [eval] in Ho. rewrite i_truth_bool i_eqb_eq in Ho.
  cbn [env] in Ho. rewrite Ho. by apply (matches_eval M K HK Γ D).
Qed.

Lemma backward_snapshot x : backward (StmtX_Snapshot x).
Proof.
  intros T m S D σ ρ o' (Hk & _) _ _ Ho Hm. simpl in Ho. subst o'. split; [done|].
  eexists. split; [reflexivity|]. destruct Hm as [_ He Hs]. split; [done..|].
  intros s Hin. destruct (decide (s = x)) as [->|Hne].
  - exists m, (env σ). simpl. rewrite !lookup_insert_eq. split_and!; done.
  - apply elem_of_cons in Hin as [->|Hin]; [done|].
    destruct (Hs s Hin) as (ms & ρs & ? & ? & ? & ? & ?). exists ms, ρs. simpl.
    rewrite !lookup_insert_ne //.
Qed.

Lemma backward_break l : backward (StmtX_Break l).
Proof.
  intros T m S D σ ρ o' (Hk & _) Htg _ Ho Hm.
  unfold targets in Htg. simpl in Htg. rewrite Forall_singleton in Htg.
  destruct Htg as (mt & HT & Hkt & Hle). simpl in HT, Hle. cbn [ssa] in Ho. rewrite HT in Ho.
  apply exec_block_app in Ho as [(τ & [[= ->] He]%exec_version_eqs & Ho)|[[-> He]%exec_version_eqs ?]];
    [|done].
  destruct Ho as [(τ & Ho & _)|[Ho _]]; [done|]. simpl in Ho. subst o'. split; [done|].
  exists mt, σ. split_and!; [done|done|].
  apply (renv_eqs_hold M m mt); [by rewrite Hk|done|apply Hm|done].
Qed.

(** *** [DeadEnd] and [Breakable] *)

Lemma backward_deadend s : backward s → backward (StmtX_DeadEnd s).
Proof.
  intros IH T m S D σ ρ o' (Hk & Hsub & Hn & Hp) Htg Hev Ho Hm. simpl in Hsub, Hn, Hp, Htg, Hev.
  apply andb_true_iff in Hp as [Ha Hp]. destruct (assigned s) as [|y ys] eqn:Has; [|done].
  cbn [ssa exec] in Ho. destruct Ho as [->|[Ho Hn']].
  - split; [done|]. exists σ. split; [by left|]. simpl.
    rewrite (proj1 (vers_no_assign s m Has _)); [rewrite Hk; by apply (nk_nodup K)|].
    apply (matches_mono M K HK _ m m S _ σ σ ρ ρ); try done.
    + intros x [Hx _]%list_elem_of_filter. by apply snaps_after_written.
    + apply Hm.
    + destruct Hm as [? ? Hs]. split; [done..|]. intros x [_ Hx]%list_elem_of_filter. by apply Hs.
  - assert (Hq : quiet s m D) by (split_and!; try done; by rewrite Has).
    specialize (IH T m S D σ ρ o' Hq Htg Hev Ho Hm).
    destruct o' as [st|l st|aid]; [done|..].
    + destruct IH as (-> & mt & σ' & ? & ? & ?). split; [done|]. exists mt, σ'.
      split_and!; try done. by right.
    + by right.
Qed.

Lemma exec_raised_inv Γ0 s m mt ρ o :
  (∀ st, exec M Γ0 s (mkState ρ ∅) (ONormal st) → st = mkState ρ ∅) →
  exec M Γ0 (StmtX_Block (s :: version_eqs m mt)) (mkState ρ ∅) o →
  (o = ONormal (mkState ρ ∅) ∧ exec M Γ0 s (mkState ρ ∅) o ∧ eqs_hold M m mt ρ)
  ∨ (is_normal M o = false ∧ exec M Γ0 s (mkState ρ ∅) o).
Proof.
  intros Hst [(τ & H1 & H2)|[H1 H2]]; [left|by right].
  pose proof (Hst τ H1) as ->. by apply exec_version_eqs in H2 as [-> H2].
Qed.

Lemma backward_breakable l s : backward s → backward (StmtX_Breakable l s).
Proof.
  intros IH T m S D σ ρ o' (Hk & Hsub & Hn & Hp) Htg Hev (o1 & Ho & ->) Hm.
  simpl in Hsub, Hn, Hp, Htg, Hev.
  set (mt := join_breakable l (vers s m)) in *.
  assert (Hsub' : assigned s ⊆ im_keys m) by by rewrite Hk.
  destruct (vers_keys s m Hsub') as [Hkf Hkb]. rewrite Hk in Hkf Hkb.
  assert (Hkt : im_keys mt = K) by by rewrite keys_join.
  destruct (breakable_targets K l s m T) as [Htg' Hlef]; try done.
  assert (Hlem : vle m mt) by (etrans; [by apply (vers_vle K)|done]).
  assert (Hinner : ∀ o, exec M Γ' (ssa (<[l:=mt]> T) s m S) (mkState ρ ∅) o →
    is_simulated (<[l:=mt]> T) s m S D σ ρ o) by (intros o Ho'; by apply IH).
  assert (Hleave : ∀ o2 σ', exec M Γ s σ o2 → out_state o2 = Some σ' → renv M mt (env σ') ρ →
    matches (filter (λ x, x ∉ written s) D) mt (snaps_after s m S) σ' ρ).
  { intros o2 σ' He Ho2 Hr. apply (leave_matches M K HK s m mt D S σ σ' ρ ρ); try done.
    intros x Hx. by eapply exec_snaps. }
  cbn [ssa exec] in Ho. apply exec_raised_inv in Ho as [(-> & Ho & Heqs)|[Hnn Ho]];
    [..|intros st Hst; by apply Hinner in Hst as [-> _]].
  - apply Hinner in Ho as (_ & σ' & He & Hm'). split; [done|]. exists σ'.
    split; [by exists (ONormal σ')|]. apply (Hleave (ONormal σ')); try done.
    apply (renv_eqs_hold M (final s m) mt); [by rewrite Hkf|done|apply Hm'|done].
  - apply Hinner in Ho. destruct o1 as [st|l' st|aid]; [done|..].
    + destruct Ho as (-> & mt' & σ' & HT & He & Hr). cbn [catch].
      destruct (decide (l' = l)) as [->|Hne].
      * rewrite lookup_insert_eq in HT. injection HT as <-. split; [done|]. exists σ'.
        split; [exists (OBreak l σ'); cbn [catch]; by rewrite decide_True|].
        by apply (Hleave (OBreak l σ')).
      * rewrite lookup_insert_ne // in HT. split; [done|]. exists mt', σ'.
        split_and!; [done| |done]. exists (OBreak l' σ'). cbn [catch]. by rewrite decide_False.
    + exists (OFail aid). by split.
Qed.

(** *** Sequences and choices *)

Lemma backward_block ss : Forall backward ss → backward (StmtX_Block ss).
Proof.
  induction 1 as [|s ss Hs _ IH]; intros T m S D σ ρ o' (Hk & Hsub & Hn & Hp) Htg Hev Ho Hm.
  { simpl in Ho. subst o'. split; [done|]. exists σ. by split. }
  simpl in Hsub. destruct Hn as [Hn1 Hn2]. cbn [dead_ends_pure forallb] in Hp.
  apply andb_true_iff in Hp as [Hp1 Hp2].
  unfold targets in Htg. simpl in Htg. apply Forall_app in Htg as [Htg1 Htg2].
  simpl in Hev. rewrite thread_events in Hev. apply Forall_app in Hev as [Hev1 Hev2].
  assert (Hsub1 : assigned s ⊆ K) by (intros x ?; apply Hsub, elem_of_app; by left).
  assert (Hq1 : quiet s m D) by done.
  assert (Hq2 : quiet (StmtX_Block ss) (final s m) (avail s D)).
  { split_and!; [|intros x ?; apply Hsub, elem_of_app; by right|done|done].
    rewrite -Hk. apply vers_keys. by rewrite Hk. }
  destruct Ho as [(τ & H1 & H2)|[H1 Hnn]].
  - destruct (Hs T m S D σ ρ _ Hq1 Htg1 Hev1 H1 Hm) as (-> & σ1 & He1 & Hm1).
    pose proof (IH T _ _ _ σ1 ρ o' Hq2 Htg2 Hev2 H2 Hm1) as Hsim.
    destruct o' as [st|l st|aid].
    + destruct Hsim as (-> & σ2 & He2 & Hm2). split; [done|]. exists σ2. split; [|done].
      left. by exists σ1.
    + destruct Hsim as (-> & mt & σ2 & ? & He2 & ?). split; [done|]. exists mt, σ2.
      split_and!; [done| |done]. left. by exists σ1.
    + left. by exists σ1.
  - pose proof (Hs T m S D σ ρ o' Hq1 Htg1 Hev1 H1 Hm) as Hsim.
    destruct o' as [st|l st|aid]; [done|..].
    + destruct Hsim as (-> & mt & σ2 & ? & He2 & ?). split; [done|]. exists mt, σ2.
      split_and!; [done| |done]. by right.
    + by right.
Qed.

Lemma quiet_branch ss s m D : s ∈ ss → quiet (StmtX_Switch ss) m D → quiet s m D.
Proof.
  intros Hin (Hk & Hsub & Hn & Hp). cbn [assigned stmt_names_ok dead_ends_pure] in Hsub, Hn, Hp.
  rewrite forallb_true_iff Forall_forall in Hp. split_and!; [done|..|by apply Hp].
  - intros x Hx. apply Hsub. apply list_elem_of_In, in_concat. exists (assigned s).
    split; [by apply in_map, list_elem_of_In|by apply list_elem_of_In].
  - clear -Hin Hn. induction ss as [|s' ss IH]; [by apply not_elem_of_nil in Hin|].
    destruct Hn as [Hn1 Hn2]. apply elem_of_cons in Hin as [->|Hin]; auto.
Qed.

Lemma backward_switch ss : Forall backward ss → backward (StmtX_Switch ss).
Proof.
  intros Hss T m S D σ ρ o' Hq Htg Hev Ho Hm. pose proof Hq as (Hk & Hsub & _). simpl in Hsub.
  cbn [ssa] in Ho. apply exec_switch_in in Ho as (b & o1 & Hin & Ho & ->).
  apply list_elem_of_fmap in Hin as (s & -> & Hin).
  pose proof (quiet_branch ss s m D Hin Hq) as Hqs.
  destruct (final_switch K ss m s Hk Hsub Hin) as [Hkt Hlef].
  set (mt := final (StmtX_Switch ss) m) in *.
  assert (Hkf : im_keys (final s m) = K).
  { rewrite -Hk. apply vers_keys. rewrite Hk. apply Hqs. }
  assert (Hlem : vle m mt) by (etrans; [apply (vers_vle K); [done|apply Hqs]|exact Hlef]).
  unfold targets in Htg. rewrite vers_switch_breaks Forall_concat_map Forall_forall in Htg.
  unfold events_typed in Hev. cbn [version_events] in Hev.
  rewrite Forall_concat_map Forall_forall in Hev. rewrite Forall_forall in Hss.
  assert (Hinner : ∀ o, exec M Γ' (ssa T s m S) (mkState ρ ∅) o → is_simulated T s m S D σ ρ o).
  { intros o Ho'. apply (Hss s Hin); [done|by apply Htg|by apply Hev|done|done]. }
  assert (Hex : ∀ o, exec M Γ s σ o → exec M Γ (StmtX_Switch ss) σ (drop_snaps M (snaps σ) o)).
  { intros o He. apply exec_switch_in. by exists s, o. }
  apply exec_raised_inv in Ho as [(-> & Ho & Heqs)|[Hnn Ho]];
    [..|intros st Hst; by apply Hinner in Hst as [-> _]].
  - apply Hinner in Ho as (_ & σ' & He & Hm'). split; [done|].
    exists (mkState (env σ') (snaps σ)). split; [by apply (Hex (ONormal σ'))|].
    apply (matches_mono M K HK D m mt S S σ _ ρ ρ); try done.
    apply (renv_eqs_hold M (final s m) mt); [by rewrite Hkf|done|apply Hm'|done].
  - apply Hinner in Ho. destruct o1 as [st|l st|aid]; [done|..]; cbn [drop_snaps].
    + destruct Ho as (-> & mt' & σ' & ? & He & ?). split; [done|]. exists mt', σ'.
      split_and!; [done|by apply (Hex (OBreak l σ'))|done].
    + by apply (Hex (OFail aid)).
Qed.

Lemma lower_backward s : backward s.
Proof.
  induction s as [e|i msg f e|x|x e|x|s IH|l s IH|l|ss IH|ss IH] using StmtX_ind'.
  - apply backward_assume.
  - apply backward_assert.
  - apply backward_havoc.
  - apply backward_assign.
  - apply backward_snapshot.
  - by apply backward_deadend.
  - by apply backward_breakable.
  - apply backward_break.
  - by apply backward_block.
  - by apply backward_switch.
Qed.
End complete.
End with_index_map.
