(* ===== verification/VarToConstCorrect.v ===== *)
(** * Correctness of the versioning pass on queries

    [lower_query] of var_to_const.rs returns a query without assignments that can
    fail exactly when the original can. *)

From S2P Require Import Prelude RustString Ast AstUtil Semantics ExprFacts StmtFacts IndexMap Visitor VarToConst Ssa SsaEquiv VersionSim VersionSound.
Set Warnings "-rewrite-rw,-register-all,-clear-no-such-hyp".

Section with_index_map.
Context {IM : IndexMapOps} {IML : IndexMapLaws IM}.
Implicit Types (m : Versions) (K D : list Ident) (ds : Decls).

(** ** The local declarations *)

Definition decl_var_name (d : Decl) : option Ident :=
  match d with DeclX_Var x _ => Some x | _ => None end.
Definition var_names ds : list Ident := omap decl_var_name ds.

(** The constants and variables with their sorts. *)
Definition decl_typed (d : Decl) : option (Ident * Typ) :=
  match d with DeclX_Const x t | DeclX_Var x t => Some (x, t) | _ => None end.
Definition typed_names ds : list Ident := map fst (omap decl_typed ds).
Definition decl_types ds : Vars := list_to_map (omap decl_typed ds).

(** Axioms use proper names, no snapshots, and variables declared before them. *)
Definition axiom_ok K (declared : list Ident) (d : Decl) : Prop :=
  match d with
  | DeclX_Axiom ax => expr_ok K [] (expr ax) ∧ ∀ x, x ∈ mentions (expr ax) → x ∈ K → x ∈ declared
  | _ => True
  end.

Fixpoint axioms_ok K (declared : list Ident) ds : Prop :=
  match ds with
  | [] => True
  | d :: ds' => axiom_ok K declared d ∧ axioms_ok K (declared ++ var_names [d]) ds'
  end.

Record versionable (q : Query) : Prop := {
  vq_names : names_ok (var_names (local q));
  vq_typed : NoDup (typed_names (local q));
  vq_fresh : Forall fresh (typed_names (local q));
  vq_axioms : axioms_ok (var_names (local q)) [] (local q);
  vq_stmt : stmt_names_ok (var_names (local q)) [] (assertion q);
  vq_assigned : assigned (assertion q) ⊆ var_names (local q);
  vq_labels : labels_ok (assertion q);
  vq_closed : free_breaks (assertion q) = [];
  vq_count : (assign_count (assertion q) < u32_bound)%N
}.

(** Version 0 of every variable. *)
Definition zero_versions K : Versions := insert_all im_empty (λ _, 0%N) K.

Definition initial_event (x : Ident) : VersionEvent :=
  mkEvent (rename_var x 0) x 0 VersionOrigin_Initial.

Definition lowered_decl K (d : Decl) : list Decl :=
  match d with
  | DeclX_Axiom ax => [DeclX_Axiom (mkAxiom (named ax) (lower_expr (zero_versions K) ∅ (expr ax)))]
  | DeclX_Var x t => [d; DeclX_Const (rename_var x 0) t]
  | _ => [d]
  end.

(** [K]: the variables declared before. *)
Fixpoint lowered_decls K ds : list Decl :=
  match ds with
  | [] => []
  | d :: ds' => lowered_decl K d ++ lowered_decls (K ++ var_names [d]) ds'
  end.

Lemma zero_versions_snoc K x : im_insert (zero_versions K) x 0%N = zero_versions (K ++ [x]).
Proof. unfold zero_versions, insert_all. by rewrite foldl_app. Qed.

Lemma im_keys_zero K : NoDup K → im_keys (zero_versions K) = K.
Proof.
  induction K as [|x K IH] using rev_ind; [intros _; apply im_keys_empty|].
  intros (Hnd & Hx & _)%NoDup_app. rewrite -zero_versions_snoc im_keys_insert_new IH //.
  intros Hin. apply (Hx x Hin), list_elem_of_here.
Qed.

Lemma elem_keys_zero K (x : Ident) : x ∈ im_keys (zero_versions K) ↔ x ∈ K.
Proof.
  unfold zero_versions. rewrite -im_get_is_Some get_insert_all. destruct (decide (x ∈ K)); [done|].
  rewrite im_get_is_Some im_keys_empty. split; [by intros ?%not_elem_of_nil|done].
Qed.

Lemma ver_zero K x : ver (zero_versions K) x = 0%N.
Proof.
  unfold ver, zero_versions. rewrite get_insert_all. destruct (decide (x ∈ K)); [done|].
  rewrite (proj2 (im_get_None _ _)); [|done]. rewrite im_keys_empty. apply not_elem_of_nil.
Qed.

Lemma ren_zero K x : x ∈ K → ren (zero_versions K) x = rename_var x 0.
Proof. intros Hx. by rewrite ren_key ?elem_keys_zero // ver_zero. Qed.
Lemma ren_zero_other K x : x ∉ K → ren (zero_versions K) x = x.
Proof. intros Hx. apply ren_not_key. by rewrite elem_keys_zero. Qed.

Lemma var_names_cons d ds : var_names (d :: ds) = var_names [d] ++ var_names ds.
Proof. unfold var_names. simpl. by destruct (decl_var_name d). Qed.

Definition is_const_decl (d : Decl) : bool := match d with DeclX_Const _ _ => true | _ => false end.

Lemma decl_vars_dom ds x : is_Some (decl_vars ds !! x) ↔ x ∈ var_names ds.
Proof.
  induction ds as [|d ds IH].
  - simpl. rewrite lookup_empty. split; [by intros [? ?]|by intros ?%not_elem_of_nil].
  - rewrite var_names_cons elem_of_app -IH.
    destruct d as [z|dts|z t|z ts t|z t|ax]; simpl; rewrite ?elem_of_nil ?list_elem_of_singleton;
      try (split; [by right|by intros [[]|]]).
    rewrite lookup_insert_is_Some. destruct (decide (z = x)) as [->|Hne]; naive_solver.
Qed.

Lemma lower_decls_foldl ds : ∀ st K,
  ld_versions st = zero_versions K → NoDup (K ++ var_names ds) →
  foldl lower_decl st ds
  = mkLowerDecls (ld_decls st ++ lowered_decls K ds) (zero_versions (K ++ var_names ds))
      (decl_vars ds ∪ ld_types st) (ld_local_vars st ++ List.filter is_const_decl ds)
      (ld_events st ++ map initial_event (var_names ds)).
Proof.
  induction ds as [|d ds IH]; intros st K Hv Hnd.
  { destruct st as [dl v ty lv ev]. simpl in *. subst v. rewrite !app_nil_r. f_equal.
    by rewrite left_id_L. }
  rewrite var_names_cons app_assoc in Hnd. cbn [foldl].
  assert (Hskip : ∀ dl lv, var_names [d] = [] →
    foldl lower_decl (mkLowerDecls dl (ld_versions st) (ld_types st) lv (ld_events st)) ds
    = mkLowerDecls (dl ++ lowered_decls (K ++ []) ds) (zero_versions (K ++ var_names ds))
      (decl_vars ds ∪ ld_types st) (lv ++ List.filter is_const_decl ds)
      (ld_events st ++ map initial_event (var_names ds))).
  { intros dl lv Hd. rewrite Hd app_nil_r in Hnd. rewrite app_nil_r. by rewrite (IH _ K). }
  rewrite var_names_cons.
  destruct d as [z|dts|z t|z ts t|z t|ax]; cbn [lower_decl lowered_decls lowered_decl decl_vars];
    try (rewrite Hskip //; simpl; by rewrite -?app_assoc ?Hv).
  change (var_names [DeclX_Var z t]) with [z] in *.
  assert (HzK : z ∉ K).
  { rewrite -app_assoc in Hnd. apply NoDup_app in Hnd as (_ & Hnd & _). intros Hz.
    apply (Hnd z Hz), list_elem_of_here. }
  assert (Hzd : decl_vars ds !! z = None).
  { apply eq_None_not_Some. rewrite decl_vars_dom. rewrite -app_assoc in Hnd.
    apply NoDup_app in Hnd as (_ & _ & Hnd). by apply NoDup_cons in Hnd as [? _]. }
  rewrite (IH _ (K ++ [z])) //=; [by rewrite Hv zero_versions_snoc|].
  rewrite -!app_assoc. f_equal. rewrite -insert_union_r // -insert_union_l //.
Qed.

Lemma lower_decls_ok ds : NoDup (var_names ds) →
  lower_decls ds = mkLowerDecls (lowered_decls [] ds) (zero_versions (var_names ds)) (decl_vars ds)
    (List.filter is_const_decl ds) (map initial_event (var_names ds)).
Proof.
  intros Hnd. unfold lower_decls. rewrite (lower_decls_foldl ds _ []) //=. by rewrite right_id_L.
Qed.

(** ** Their meaning *)

Section decls.
Context (M : Interp).
Implicit Types (ρ : Env M).

Lemma decl_holds_typed ds ρ : NoDup (typed_names ds) → decls_hold M ds ρ →
  env_typed M (decl_types ds) ρ.
Proof.
  intros Hnd Hd x t Hx. unfold decl_types in Hx.
  apply elem_of_list_to_map_2 in Hx. apply list_elem_of_omap in Hx as (d & Hin & Hdt).
  pose proof (proj1 (Forall_forall _ _) Hd d Hin) as Hh.
  destruct d; simpl in Hdt; try done; injection Hdt as -> ->; exact Hh.
Qed.

Lemma typed_names_cons d ds :
  typed_names (d :: ds) = match decl_typed d with Some p => [p.1] | None => [] end ++ typed_names ds.
Proof. unfold typed_names. simpl. by destruct (decl_typed d) as [[? ?]|]. Qed.

Lemma decl_vars_types ds : NoDup (typed_names ds) → decl_vars ds ⊆ decl_types ds.
Proof.
  induction ds as [|d ds IH]; intros Hnd; [done|]. rewrite typed_names_cons in Hnd.
  unfold decl_types in *. destruct d as [z|dts|z t|z ts t|z t|ax]; simpl in *; auto.
  - apply NoDup_cons in Hnd as [Hz Hnd]. etrans; [by apply IH|]. apply insert_subseteq.
    by apply not_elem_of_list_to_map_1.
  - apply NoDup_cons in Hnd as [Hz Hnd]. by apply insert_mono, IH.
Qed.

(** The renamed axiom is about the same values. *)
Lemma lower_axiom K K0 ρ0 ρ e : expr_ok K [] e → K0 ⊆ K → renv M (zero_versions K0) ρ0 ρ →
  truth M (λ _ _, None) ρ (lower_expr (zero_versions K0) ∅ e) = truth M (λ _ _, None) ρ0 e.
Proof.
  intros (Hm & Hb & Hs) Hsub Hr. unfold truth. f_equal.
  apply (lower_expr_eval M (im_keys (zero_versions K0)) [] (zero_versions K0) ∅ e).
  - split_and!; [done| |done]. eapply Forall_impl; [exact Hb|].
    intros x [? Hx]. split; [done|]. rewrite elem_keys_zero. intros ?. by apply Hx, Hsub.
  - split; [done|done|..]; by intros ? ? ?%not_elem_of_nil.
Qed.

Lemma renv_zero_sub K K0 ρ0 ρ : K0 ⊆ K → renv M (zero_versions K) ρ0 ρ →
  (∀ y, fresh y → ρ y = ρ0 y) → renv M (zero_versions K0) ρ0 ρ.
Proof.
  intros Hsub Hr Hf y Hy. destruct (decide (y ∈ K0)) as [Hin|Hin].
  - rewrite -(Hr y Hy). by rewrite !ren_zero; auto.
  - rewrite ren_zero_other //. by apply Hf.
Qed.

Lemma lowered_decls_hold K ds : ∀ K0 declared ρ0 ρ,
  K0 ++ var_names ds ⊆ K → axioms_ok K declared ds → Forall fresh (typed_names ds) →
  Forall fresh (var_names ds) →
  (∀ y, fresh y → ρ y = ρ0 y) → renv M (zero_versions K) ρ0 ρ →
  decls_hold M ds ρ0 → decls_hold M (lowered_decls K0 ds) ρ.
Proof.
  induction ds as [|d ds IH]; intros K0 declared ρ0 ρ Hsub Hax Hft Hfv Hf Hr Hd; [constructor|].
  destruct Hax as [Hax Haxs].
  rewrite typed_names_cons in Hft. apply Forall_app in Hft as [Hft1 Hft].
  rewrite var_names_cons in Hsub Hfv. apply Forall_app in Hfv as [Hfv1 Hfv].
  apply Forall_cons in Hd as [Hd1 Hd]. cbn [lowered_decls]. apply Forall_app. split.
  - destruct d as [z|dts|z t|z ts t|z t|ax]; simpl in Hd1, Hax, Hft1 |- *;
      rewrite ?Forall_singleton; try done.
    + rewrite Forall_singleton in Hft1. by rewrite /decl_holds Hf.
    + rewrite Forall_singleton in Hft1. repeat constructor; simpl; [by rewrite Hf|].
      assert (Hz : z ∈ K).
      { apply Hsub, elem_of_app. right. apply elem_of_app. left. apply list_elem_of_here. }
      specialize (Hr z Hft1). rewrite ren_zero // in Hr. by rewrite Hr.
    + simpl. destruct Hax as [He _]. rewrite (lower_axiom K K0 ρ0) //.
      * intros x Hx. apply Hsub, elem_of_app. by left.
      * apply (renv_zero_sub K); try done. intros x Hx. apply Hsub, elem_of_app. by left.
  - apply (IH (K0 ++ var_names [d]) (declared ++ var_names [d]) ρ0); try done. by rewrite -app_assoc.
Qed.

(** The source values: version 0 for the variables. *)
Definition source_env K ρ : Env M := λ y, ρ (ren (zero_versions K) y).

Lemma source_renv K ρ : renv M (zero_versions K) (source_env K ρ) ρ.
Proof. by intros y _. Qed.

Lemma source_decls_hold K ds : ∀ K0 ρ,
  K0 ++ var_names ds ⊆ K → axioms_ok K K0 ds →
  Forall (λ d, ∀ x t, d = DeclX_Const x t → x ∉ K) ds →
  decls_hold M (lowered_decls K0 ds) ρ → decls_hold M ds (source_env K ρ).
Proof.
  induction ds as [|d ds IH]; intros K0 ρ Hsub Hax Hc Hd; [constructor|].
  destruct Hax as [Hax Haxs].
  rewrite var_names_cons in Hsub. cbn [lowered_decls] in Hd.
  unfold decls_hold in Hd. apply Forall_app in Hd as [Hd1 Hd].
  apply Forall_cons in Hc as [Hc1 Hc]. constructor.
  - unfold source_env. destruct d as [z|dts|z t|z ts t|z t|ax]; simpl in Hd1, Hax |- *; try done.
    + rewrite Forall_singleton in Hd1. rewrite ren_zero_other //. by eapply Hc1.
    + apply Forall_cons in Hd1 as [_ Hd1]. rewrite Forall_singleton in Hd1. simpl in Hd1.
      assert (Hz : z ∈ K).
      { apply Hsub, elem_of_app. right. apply elem_of_app. left. apply list_elem_of_here. }
      by rewrite ren_zero.
    + rewrite Forall_singleton in Hd1. simpl in Hd1. destruct Hax as [He Hscope].
      assert (HK0 : K0 ⊆ K) by (intros x Hx; apply Hsub, elem_of_app; by left).
      rewrite (lower_axiom K K0 (source_env K0 ρ) ρ _ He HK0 (source_renv K0 ρ)) in Hd1.
      rewrite -Hd1. apply truth_agree; [|by apply Forall_forall].
      apply Forall_forall. intros x Hx. unfold source_env. destruct (decide (x ∈ K)) as [HxK|HxK].
      * by rewrite !ren_zero; auto.
      * rewrite !ren_zero_other //. intros ?. by apply HxK, HK0.
  - apply (IH (K0 ++ var_names [d])); try done. by rewrite -app_assoc.
Qed.
End decls.

(** ** The constants of the versions *)

Lemma thread_Forall {B} (P : B → Prop) (g : Stmt → Versions → list B) ss :
  Forall (λ s, ∀ m, Forall P (g s m)) ss →
  ∀ m, Forall P (thread (λ s m acc, acc ++ g s m) ss m []).
Proof.
  intros Hss. enough (∀ m acc, Forall P acc → Forall P (thread (λ s m acc, acc ++ g s m) ss m acc))
    by (intros; auto).
  induction Hss as [|s ss Hs _ IH]; intros m acc Hacc; simpl; [done|]. apply IH.
  apply Forall_app. by split.
Qed.

Definition event_ok K (ev : VersionEvent) : Prop :=
  ev_base ev ∈ K ∧ ev_versioned ev = rename_var (ev_base ev) (ev_version ev).

Lemma version_events_ok K s : assigned s ⊆ K → ∀ m, Forall (event_ok K) (version_events s m).
Proof.
  induction s as [e|i msg f e|x|x e|x|s IH|l s IH|l|ss IH|ss IH] using StmtX_ind';
    intros Hsub m; simpl in *; try constructor; try by auto.
  - split; [apply Hsub, list_elem_of_here|done].
  - split; [apply Hsub, list_elem_of_here|done].
  - apply thread_Forall. clear m. induction IH as [|s ss Hs _ IHss]; constructor.
    + apply Hs. intros x ?. apply Hsub, elem_of_app. by left.
    + apply IHss. intros x ?. apply Hsub, elem_of_app. by right.
  - rewrite Forall_concat_map. induction IH as [|s ss Hs _ IHss]; constructor.
    + apply Hs. intros x ?. apply Hsub, elem_of_app. by left.
    + apply IHss. intros x ?. apply Hsub, elem_of_app. by right.
Qed.

Definition event_decl (types : gmap Ident Typ) (ev : VersionEvent) : Decl :=
  DeclX_Const (ev_versioned ev) (default TypX_Bool (types !! ev_base ev)).

Lemma declare_events_spec types evs : ∀ dl seen dl' seen',
  declare_events types (dl, seen) evs = (dl', seen') →
  (∃ evs', evs' ⊆ evs ∧ dl' = dl ++ map (event_decl types) evs' ∧ NoDup (map ev_versioned evs')
    ∧ (∀ x, x ∈ map ev_versioned evs' → x ∉ seen)
    ∧ ∀ x, x ∈ map ev_versioned evs → x ∈ seen ∨ x ∈ map ev_versioned evs')
  ∧ ∀ x, x ∈ seen' ↔ x ∈ seen ∨ x ∈ map ev_versioned evs.
Proof.
  unfold declare_events. induction evs as [|ev evs IH]; intros dl seen dl' seen' H; simpl in H.
  { injection H as <- <-. split.
    - exists []. simpl. rewrite app_nil_r. split_and!; try done; [constructor| |];
        by intros ? ?%not_elem_of_nil.
    - intros x. simpl. split; [by left|]. by intros [?|?%not_elem_of_nil]. }
  unfold declare_event in H at 2. simpl in H. destruct (decide (ev_versioned ev ∈ seen)) as [Hin|Hin];
    apply IH in H as [(evs' & Hsub & -> & Hnd & Hns & Hcov) Hseen].
  - split.
    + exists evs'. split_and!; try done; [intros e ?; apply elem_of_cons; right; by apply Hsub|].
      intros x. simpl. intros [->|Hx]%elem_of_cons; [by left|auto].
    + intros x. simpl. rewrite Hseen elem_of_cons. naive_solver.
  - split.
    + exists (ev :: evs'). split_and!.
      * intros e [->|?]%elem_of_cons; apply elem_of_cons; [by left|right; by apply Hsub].
      * by rewrite -app_assoc.
      * simpl. constructor; [|done]. intros H%Hns. apply H. set_solver.
      * intros x. simpl. intros [->|Hx]%elem_of_cons; [done|]. apply Hns in Hx. set_solver.
      * intros x. simpl. intros [->|Hx]%elem_of_cons; [right; apply list_elem_of_here|].
        destruct (Hcov x Hx) as [Hs|Hs]; [|right; apply elem_of_cons; by right].
        apply elem_of_union in Hs as [->%elem_of_singleton|Hs]; [|by left].
        right. apply list_elem_of_here.
    + intros x. simpl. rewrite Hseen elem_of_cons elem_of_union elem_of_singleton. naive_solver.
Qed.

Lemma breaks_free s : ∀ m p, p ∈ breaks s m → p.1 ∈ free_breaks s.
Proof.
  induction s as [e|i msg f e|x|x e|x|s IH|l s IH|l|ss IH|ss IH] using StmtX_ind';
    intros m p; try by intros ?%not_elem_of_nil.
  - apply IH.
  - simpl. intros [Hne Hp]%list_elem_of_filter. apply list_elem_of_filter. split; [done|]. by eapply IH.
  - simpl. intros ->%list_elem_of_singleton. apply list_elem_of_here.
  - simpl. revert m. induction IH as [|s ss Hs _ IHss]; intros m; simpl; [by intros ?%not_elem_of_nil|].
    intros [Hp|Hp]%elem_of_app; apply elem_of_app; [left; by eapply Hs|right; by eapply IHss].
  - rewrite vers_switch_breaks. simpl.
    induction IH as [|s ss Hs _ IHss]; simpl; [by intros ?%not_elem_of_nil|].
    intros [Hp|Hp]%elem_of_app; apply elem_of_app; [left; by eapply Hs|right; by eapply IHss].
Qed.

Lemma breaks_closed s m : free_breaks s = [] → breaks s m = [].
Proof.
  intros Hf. destruct (breaks s m) as [|p bs] eqn:Hb; [done|]. exfalso.
  assert (Hp : p.1 ∈ free_breaks s) by (apply (breaks_free s m); rewrite Hb; apply list_elem_of_here).
  rewrite Hf in Hp. by apply not_elem_of_nil in Hp.
Qed.

(** ** The lowered query *)

Section query.
Context (q : Query) (Hq : versionable q).
Let K := var_names (local q).
Let Γ := decl_vars (local q).
Let m0 := zero_versions K.

(** The statement, the events and the declarations of the lowered query. *)
Definition lowered_stmt : Stmt :=
  ssa ∅ (assertion q) (zero_versions (var_names (local q))) ∅.
Definition stmt_events : list VersionEvent :=
  version_events (assertion q) (zero_versions (var_names (local q))).

Lemma lower_query_shape oc : ∃ r evs',
  lower_query oc q = Ok r
  ∧ lq_query r = mkQuery (lowered_decls [] (local q) ++ map (event_decl Γ) evs') lowered_stmt
  ∧ lq_events r = map initial_event K ++ stmt_events
  ∧ lq_local_vars r = List.filter is_const_decl (local q)
  ∧ evs' ⊆ stmt_events ∧ NoDup (map ev_versioned evs')
  ∧ ∀ x, x ∈ map ev_versioned stmt_events → x ∈ map ev_versioned evs'.
Proof using Hq IML.
  destruct Hq as [HK Ht Hf Hax Hst Hsub Hlab Hcl Hcnt].
  unfold lower_query. rewrite lower_decls_ok; [by apply (nk_nodup K)|]. cbn [ld_decls ld_types ld_versions ld_events ld_local_vars].
  set (st0 := mkLower _ _ _ _ _).
  assert (Hb0 : between K m0 0 m0).
  { split_and!; [by apply im_keys_zero, HK|done|]. intros x. by rewrite ver_zero. }
  destruct (lower_stmt_ssa oc Γ (assertion q) K 0%N m0 ∅ st0) as (st & He & Hsa).
  - split_and!; try done; [by apply (nk_nodup K)|]. intros x. apply decl_vars_dom.
  - done.
  - split; [rewrite Hcl; by intros l ?%not_elem_of_nil|done].
  - unfold m0, K in He. rewrite He. cbn [rbind]. destruct Hsa as [_ Hev Hdl].
    simpl in Hev, Hdl. symmetry in Hdl. apply declare_events_spec in Hdl as [(evs' & ? & Hd & ? & _ & Hcov) _].
    eexists _, evs'. split; [reflexivity|]. simpl. rewrite Hd Hev. split_and!; try done.
    intros x Hx. destruct (Hcov x Hx) as [Hs|Hs]; [set_solver|done].
Qed.
End query.

Lemma const_not_var ds : NoDup (typed_names ds) → ∀ x t, DeclX_Const x t ∈ ds → x ∉ var_names ds.
Proof.
  intros Hnd x t Hc Hv. apply list_elem_of_omap in Hv as (d & Hin & Hd).
  destruct d; simpl in Hd; try done. injection Hd as ->.
  apply list_elem_of_In, in_split in Hc as (l1 & l2 & ->).
  unfold typed_names in Hnd. rewrite omap_app map_app in Hnd. simpl in Hnd.
  apply NoDup_app in Hnd as (_ & Hdis & Hnd). apply NoDup_cons in Hnd as [Hx _].
  apply elem_of_app in Hin as [Hin|[?|Hin]%elem_of_cons]; [|done|].
  - apply (Hdis x); [|apply list_elem_of_here]. apply (list_elem_of_fmap_2 fst _ (x, t0)).
    apply list_elem_of_omap. by eexists.
  - apply Hx. apply (list_elem_of_fmap_2 fst _ (x, t0)). apply list_elem_of_omap. by eexists.
Qed.

(** ** Equisafety *)

Section spread.
Context (M : Interp) (K : list Ident) (HK : names_ok K).
Implicit Types (ρ : Env M).

(** All versions have the value of the variable. *)
Definition spread ρ : Env M := λ y,
  match List.find (λ x, version_of x y) K with Some x => ρ x | None => ρ y end.

Lemma spread_fresh ρ y : fresh y → spread ρ y = ρ y.
Proof.
  intros Hy. unfold spread. destruct (List.find _ K) as [x|] eqn:Hf; [|done].
  apply find_some in Hf as [_ Hv]. by apply version_of_fresh in Hv.
Qed.

Lemma spread_version ρ x k : x ∈ K → spread ρ (rename_var x k) = ρ x.
Proof using HK IML.
  intros Hx. unfold spread. destruct (List.find _ K) as [z|] eqn:Hf.
  - apply find_some in Hf as [Hz Hv]. apply list_elem_of_In in Hz. f_equal.
    apply (nk_base K HK); [done..|]. by apply (version_of_inj _ _ _ Hv), version_of_rename.
  - eapply find_none in Hf; [|by apply list_elem_of_In, Hx]. by rewrite version_of_rename in Hf.
Qed.

Lemma spread_renv ρ : renv M (zero_versions K) ρ (spread ρ).
Proof using HK IML.
  intros y Hy. destruct (decide (y ∈ K)) as [Hin|Hin].
  - by rewrite ren_zero // spread_version.
  - rewrite ren_zero_other //. by apply spread_fresh.
Qed.
End spread.

Lemma decl_vars_lowered K ds evs types : decl_vars (lowered_decls K ds ++ map (event_decl types) evs)
  = decl_vars ds.
Proof.
  revert K. induction ds as [|d ds IH]; intros K; simpl; [by induction evs|].
  destruct d; simpl; by rewrite ?IH.
Qed.

Section equisafe.
Context (M : Interp) (q : Query) (Hq : versionable q).
#[local] Abbreviation K := (var_names (local q)).
#[local] Abbreviation Γ := (decl_vars (local q)).

Lemma start_matches ρ0 ρ : renv M (zero_versions K) ρ0 ρ →
  matches M K [] (zero_versions K) ∅ (mkState ρ0 ∅) ρ.
Proof using Hq IML. intros Hr. split; [by apply im_keys_zero, (nk_nodup K), Hq|done|]. by intros s ?%not_elem_of_nil. Qed.

Lemma no_targets : targets K ∅ (breaks (assertion q) (zero_versions K)).
Proof using Hq IML. rewrite breaks_closed; [apply Hq|constructor]. Qed.

Definition well_typed : Prop := assigns_typed M Γ (decl_types (local q)) (assertion q).

(** A failure of the query is one of the lowered query, with the same values of
    the names that are not versions.  [Δ] may have the sorts of further names
    that assigned expressions use. *)
Lemma lower_failure oc r Δ ρ0 aid : Γ ⊆ Δ → assigns_typed M Γ Δ (assertion q) → env_typed M Δ ρ0 →
  lower_query oc q = Ok r → decls_hold M (local q) ρ0 → exec M Γ (assertion q) (mkState ρ0 ∅) (OFail aid) →
  ∃ ρ1, (∀ y, fresh y → ρ1 y = ρ0 y) ∧ decls_hold M (local (lq_query r)) ρ1
    ∧ exec M (decl_vars (local (lq_query r))) (assertion (lq_query r)) (mkState ρ1 ∅) (OFail aid).
Proof using Hq IML.
  intros HΓΔ Hat Htyped Hr Hd Hex.
  destruct (lower_query_shape q Hq oc) as (r' & evs' & Hr' & Hlq & _ & _ & Hsub & _).
  rewrite Hr in Hr'. injection Hr' as <-.
  pose proof Hq as [HK Ht Hf Hax Hst Hasg Hlab Hcl Hcnt].
  set (ρ := spread M K ρ0).
  assert (HΓ : ∀ x, is_Some (Γ !! x) ↔ x ∈ K) by apply decl_vars_dom.
  assert (Htv : typed_versions M Γ ρ).
  { intros x t k Hx. unfold ρ. rewrite spread_version //; [apply HΓ; eauto|].
    apply Htyped. by eapply lookup_weaken. }
  destruct (lower_forward M K HK Γ Δ (decl_vars (local (lq_query r))) HΓ HΓΔ
    (assertion q) ∅ (zero_versions K) ∅ [] (mkState ρ0 ∅) (OFail aid) ρ)
    as (ρ1 & Heq & Htv1 & Hrun); try done.
  - split_and!; try done. by apply im_keys_zero, HK.
  - apply no_targets.
  - by apply start_matches, spread_renv.
  - assert (Hf1 : ∀ y, fresh y → ρ1 y = ρ0 y).
    { intros y Hy. rewrite -(spread_fresh M K ρ0 y Hy). symmetry. apply Heq.
      intros (x & k & _ & _ & ->). by apply (fresh_not_version _ x k Hy). }
    exists ρ1. split; [done|]. simpl in Hrun. rewrite Hlq in Hrun |- *. split; [|exact Hrun].
    simpl. apply Forall_app. split.
    + apply (lowered_decls_hold M K (local q) [] [] ρ0); try done; [apply (nk_fresh K HK)|].
      eapply (renv_eqm M K (zero_versions K) (zero_versions K) ρ0 ρ); try done;
        [by apply im_keys_zero, HK|by apply spread_renv].
    + apply Forall_map, Forall_forall. intros ev Hev%Hsub. simpl.
      pose proof (version_events_ok K _ Hasg (zero_versions K)) as Hok.
      destruct (proj1 (Forall_forall _ _) Hok ev Hev) as [Hb ->].
      pose proof Hb as [t Htt]%HΓ. rewrite Htt. by apply Htv1.
Qed.

Lemma lower_query_sound oc r : well_typed → lower_query oc q = Ok r →
  query_safe M (lq_query r) → query_safe M q.
Proof using Hq IML.
  intros Hat Hr Hsafe ρ0 aid Hd Hex.
  destruct (lower_failure oc r (decl_types (local q)) ρ0 aid) as (ρ1 & _ & Hd1 & Hex1); try done.
  - apply decl_vars_types, Hq.
  - apply decl_holds_typed; [apply Hq|done].
  - by apply (Hsafe ρ1 aid).
Qed.

Lemma lower_query_complete oc r : dead_ends_pure (assertion q) = true →
  lower_query oc q = Ok r → query_safe M q → query_safe M (lq_query r).
Proof using Hq IML.
  intros Hp Hr Hsafe ρ aid Hd Hex.
  destruct (lower_query_shape q Hq oc) as (r' & evs' & Hr' & Hlq & _ & _ & Hsub & _ & Hcov).
  rewrite Hr in Hr'. injection Hr' as <-. rewrite Hlq in Hd Hex. simpl in Hd, Hex.
  pose proof Hq as [HK Ht Hf Hax Hst Hasg Hlab Hcl Hcnt].
  assert (HΓ : ∀ x, is_Some (Γ !! x) ↔ x ∈ K) by apply decl_vars_dom.
  unfold decls_hold in Hd. apply Forall_app in Hd as [Hd1 Hd2].
  set (ρ0 := source_env M K ρ).
  apply (Hsafe ρ0 aid).
  - apply (source_decls_hold M K (local q) []); try done.
    apply Forall_forall. intros d Hin x t ->. by apply (const_not_var (local q) Ht x t).
  - apply (lower_backward M K HK Γ (decl_vars (lowered_decls [] (local q) ++ map (event_decl Γ) evs'))
      HΓ (assertion q) ∅ (zero_versions K) ∅ [] (mkState ρ0 ∅) ρ (OFail aid)); try done.
    + split_and!; try done. by apply im_keys_zero, HK.
    + apply no_targets.
    + pose proof (version_events_ok K _ Hasg (zero_versions K)) as Hok.
      apply Forall_forall. intros ev Hev t Htt.
      assert (Hx : ev_versioned ev ∈ map ev_versioned evs').
      { apply Hcov. by apply (list_elem_of_fmap_2 ev_versioned). }
      apply list_elem_of_fmap in Hx as (ev' & Hname & Hev').
      destruct (proj1 (Forall_forall _ _) Hok ev Hev) as [Hb1 Hn1].
      destruct (proj1 (Forall_forall _ _) Hok ev' (Hsub _ Hev')) as [Hb2 Hn2].
      pose proof Hname as Hname'. rewrite Hn1 Hn2 in Hname. apply (rename_K_inj K HK) in Hname as [Hbase _]; [|done..].
      apply (list_elem_of_fmap_2 (event_decl Γ)) in Hev'.
      pose proof (proj1 (Forall_forall _ _) Hd2 _ Hev') as Hh. simpl in Hh.
      rewrite -Hbase Htt Hn2 in Hh. simpl in Hh.
      by rewrite Hname' Hn2.
    + by apply start_matches.
Qed.
End equisafe.

(** ** Properties *)

(** C16. [lower_query] of var_to_const.rs does not panic on a query with well-formed names
    and labels, it leaves no [Havoc], [Assign] or [Snapshot], and, when assigned values have
    the variables' sorts and [DeadEnd] bodies assign nothing, the lowered query can fail
    exactly when the original can. *)
Theorem versions_equisafe oc q : versionable q →
  ∃ r, lower_query oc q = Ok r
    ∧ ∀ M, well_typed M q → dead_ends_pure (assertion q) = true →
        (query_safe M (lq_query r) ↔ query_safe M q).
Proof.
  intros Hq. destruct (lower_query_shape q Hq oc) as (r & _ & Hr & _). exists r. split; [done|].
  intros M Ht Hp. split; [by eapply lower_query_sound|by eapply lower_query_complete].
Qed.

(** C17. Without any condition on [DeadEnd], a safe lowered query still means a safe query:
    the pass never hides a failing assertion. *)
Theorem versions_sound oc M q r : versionable q → well_typed M q → lower_query oc q = Ok r →
  query_safe M (lq_query r) → query_safe M q.
Proof. intros Hq. by apply lower_query_sound. Qed.

(** The observer is told of version 0 of every variable in declaration order and then of
    one version per assignment; every version it is told of is declared, once, as a constant
    of the variable's sort. *)
Theorem version_events_declared oc q r : versionable q → lower_query oc q = Ok r →
  lq_events r = map initial_event (var_names (local q)) ++ stmt_events q
  ∧ ∃ evs, local (lq_query r)
        = lowered_decls [] (local q) ++ map (event_decl (decl_vars (local q))) evs
      ∧ NoDup (map ev_versioned evs)
      ∧ ∀ x, x ∈ map ev_versioned (stmt_events q) ↔ x ∈ map ev_versioned evs.
Proof.
  intros Hq Hr. destruct (lower_query_shape q Hq oc) as (r' & evs & Hr' & Hlq & Hev & _ & Hsub & Hnd & Hc).
  rewrite Hr in Hr'. injection Hr' as <-. split; [done|]. exists evs. rewrite Hlq.
  split_and!; [done|done|]. intros x. split; [apply Hc|].
  intros (ev & -> & Hin)%list_elem_of_fmap. by apply list_elem_of_fmap_2, Hsub.
Qed.

(** The local declarations handed on for counterexample models are the query's own
    constants, none of the constants the pass introduces. *)
Theorem local_vars_own oc q r : versionable q → lower_query oc q = Ok r →
  lq_local_vars r = List.filter is_const_decl (local q)
  ∧ ∀ d ev, d ∈ lq_local_vars r → ev ∈ lq_events r → d ≠ event_decl (decl_vars (local q)) ev.
Proof.
  intros Hq Hr. destruct (lower_query_shape q Hq oc) as (r' & evs & Hr' & _ & Hev & Hlv & _).
  rewrite Hr in Hr'. injection Hr' as <-. split; [done|]. rewrite Hlv Hev.
  intros d ev Hd Hin ->. apply list_elem_of_In, filter_In in Hd as [Hd _].
  apply list_elem_of_In in Hd. pose proof (vq_fresh q Hq) as Hf.
  assert (Hname : ev_versioned ev ∈ typed_names (local q)).
  { unfold typed_names. apply (list_elem_of_fmap_2 fst _
      (ev_versioned ev, default TypX_Bool (decl_vars (local q) !! ev_base ev))).
    apply list_elem_of_omap. eexists. split; [exact Hd|reflexivity]. }
  apply (proj1 (Forall_forall _ _) Hf) in Hname.
  assert (∃ x n, ev_versioned ev = rename_var x n) as (x & n & He).
  { apply elem_of_app in Hin as [Hin|Hin].
    - apply list_elem_of_fmap in Hin as (x & -> & _). by exists x, 0%N.
    - pose proof (version_events_ok _ _ (vq_assigned q Hq) (zero_versions (var_names (local q)))) as Hok.
      destruct (proj1 (Forall_forall _ _) Hok ev Hin) as [_ He]. eauto. }
  by apply (fresh_not_version _ x n Hname).
Qed.

End with_index_map.

(** ** A query with a join, a break and a snapshot *)

#[local] Existing Instance entry_list.

Definition sample_versions : Query :=
  let p := ExprX_Var "p" in
  let x := ExprX_Var "x" in
  mkQuery [DeclX_Const "p" bool_typ; DeclX_Var "x" bool_typ;
           DeclX_Axiom (mkAxiom None (mk_or [p; x]))]
    (StmtX_Block [StmtX_Snapshot "s";
       StmtX_Breakable "l" (StmtX_Switch
         [StmtX_Block [StmtX_Assume p; StmtX_Assign "x" (mk_not x); StmtX_Break "l"];
          StmtX_Block [StmtX_Havoc "x"; StmtX_Assign "x" (ExprX_Old "s" "x")];
          StmtX_DeadEnd (StmtX_Assume p)]);
       StmtX_Assume (mk_eq x (ExprX_Old "s" "x"))]).

Lemma sample_versionable : versionable sample_versions.
Proof.
  split.
  - split; [apply (bool_decide_unpack _); by vm_compute|by repeat constructor|].
    intros x y ->%list_elem_of_singleton ->%list_elem_of_singleton _. done.
  - apply (bool_decide_unpack _). by vm_compute.
  - by repeat constructor.
  - repeat split; try by repeat constructor. by intros y _.
  - repeat split; repeat constructor.
  - vm_compute. intros y Hy. set_solver.
  - split; [apply (bool_decide_unpack _); by vm_compute|].
    intros l' Hl. vm_compute in Hl. by apply not_elem_of_nil in Hl.
  - done.
  - done.
Qed.

Lemma sample_typed : well_typed bool_interp sample_versions.
Proof. unfold well_typed, assigns_typed. by repeat constructor. Qed.

Lemma versions_equisafe_witness :
  versionable sample_versions
  ∧ ∃ r, lower_query false sample_versions = Ok r
    ∧ ∀ M, well_typed M sample_versions → dead_ends_pure (assertion sample_versions) = true →
        (query_safe M (lq_query r) ↔ query_safe M sample_versions).
Proof.
  split; [exact sample_versionable|]. exact (versions_equisafe false _ sample_versionable).
Defined.

(** What the pass makes of the sample. *)
Definition sample_lowered : LoweredQuery :=
  match lower_query false sample_versions with
  | Ok r => r
  | _ => mkLowered sample_versions ∅ [] []
  end.

(** A query whose assertion holds because of the assignment before it. *)
Definition sample_safe : Query :=
  mkQuery [DeclX_Var "x" bool_typ]
    (StmtX_Block [StmtX_Assign "x" mk_true; StmtX_Assert None
       {| level := MessageLevel_Error; note := "assertion failed"; span := None; labels := [] |} None
       (ExprX_Var "x")]).

Definition sample_safe_lowered : LoweredQuery :=
  match lower_query true sample_safe with
  | Ok r => r
  | _ => mkLowered sample_safe ∅ [] []
  end.

Lemma sample_safe_versionable : versionable sample_safe.
Proof.
  split.
  - split; [apply (bool_decide_unpack _); by vm_compute|by repeat constructor|].
    intros x y ->%list_elem_of_singleton ->%list_elem_of_singleton _. done.
  - apply (bool_decide_unpack _). by vm_compute.
  - by repeat constructor.
  - repeat split; by repeat constructor.
  - repeat split; repeat constructor.
  - vm_compute. intros y Hy. set_solver.
  - split; [apply (bool_decide_unpack _); by vm_compute|].
    intros l' Hl. vm_compute in Hl. by apply not_elem_of_nil in Hl.
  - done.
  - done.
Qed.

Lemma sample_safe_typed : well_typed bool_interp sample_safe.
Proof. unfold well_typed, assigns_typed. by repeat constructor. Qed.

Lemma sample_safe_lowered_safe : query_safe bool_interp (lq_query sample_safe_lowered).
Proof.
  assert (He : assertion (lq_query sample_safe_lowered)
    = StmtX_Block [StmtX_Assume (mk_eq (ExprX_Var "x@1") mk_true);
        StmtX_Assert None
          {| level := MessageLevel_Error; note := "assertion failed"; span := None; labels := [] |} None
          (ExprX_Var "x@1")]) by (vm_compute; reflexivity).
  intros ρ aid _. rewrite He. simpl. unfold holds, truth. simpl.
  intros [(σ & [Hx Hσ] & Ha)|[[_ Ha] _]]; [|discriminate Ha].
  injection Hσ as ->. apply eqb_prop in Hx. simpl in Hx, Ha. rewrite Hx in Ha.
  destruct Ha as [(σ & _ & Ha)|[Ha _]]; discriminate Ha.
Qed.

Lemma versions_sound_witness :
  query_safe bool_interp (lq_query sample_safe_lowered) ∧ query_safe bool_interp sample_safe.
Proof.
  split; [exact sample_safe_lowered_safe|].
  apply (versions_sound true bool_interp sample_safe sample_safe_lowered).
  - exact sample_safe_versionable.
  - exact sample_safe_typed.
  - vm_compute. reflexivity.
  - exact sample_safe_lowered_safe.
Defined.

Lemma version_events_declared_witness :
  map ev_versioned (lq_events sample_lowered) = ["x@0"; "x@1"; "x@1"; "x@2"]
  ∧ lq_events sample_lowered
    = map initial_event (var_names (local sample_versions)) ++ stmt_events sample_versions.
Proof.
  split; [vm_compute; reflexivity|].
  refine (proj1 (version_events_declared false sample_versions sample_lowered sample_versionable _)).
  vm_compute. reflexivity.
Defined.

Lemma local_vars_own_witness :
  lq_local_vars sample_lowered = [DeclX_Const "p" bool_typ]
  ∧ lq_local_vars sample_lowered = List.filter is_const_decl (local sample_versions).
Proof.
  split; [vm_compute; reflexivity|].
  refine (proj1 (local_vars_own false sample_versions sample_lowered sample_versionable _)).
  vm_compute. reflexivity.
Defined.
