(* ===== verification/Lowering.v ===== *)
(** * The lowering pipeline (source/air/src/context.rs, [check_valid])

    [check_valid] turns a query into one assertion by the two passes, in this
    order.  Their composition preserves safety. *)

From S2P Require Import Prelude RustString Ast AstUtil Semantics ExprFacts StmtFacts IndexMap Visitor VarToConst Ssa SsaEquiv VersionSim VersionSound VarToConstCorrect.
From S2P Require BlockToAssert BlockToAssertCorrect.
From Stdlib Require Import Ascii.
Import BlockToAssertCorrect.
Set Warnings "-rewrite-rw,-register-all,-clear-no-such-hyp".

Section with_index_map.
Context {IM : IndexMapOps} {IML : IndexMapLaws IM}.
Implicit Types (m : Versions) (S : Snapshots) (T : gmap Ident Versions).

(** ** The first pass prepares the second *)

Lemma version_eqs_shape from to :
  Forall (λ s, passive s = true ∧ declared_labels s = [] ∧ free_breaks s = [] ∧ switch_count s = 0%N)
    (version_eqs from to).
Proof.
  eapply Forall_impl; [apply version_eqs_assume|]. intros s Hs. by destruct s.
Qed.

Lemma concat_map_nil {A B} (f : A → list B) l : Forall (λ x, f x = []) l → concat (map f l) = [].
Proof. induction 1 as [|x l Hx _ IH]; simpl; [done|]. by rewrite Hx IH. Qed.

Lemma count_nil ss : Forall (λ s, switch_count s = 0%N) ss →
  foldr (λ s n, switch_count s + n)%N 0%N ss = 0%N.
Proof. induction 1 as [|s ss Hs _ IH]; simpl; [done|]. by rewrite Hs IH. Qed.

Lemma eqs_labels from to : concat (map declared_labels (version_eqs from to)) = [].
Proof. apply concat_map_nil. eapply Forall_impl; [apply version_eqs_shape|]. naive_solver. Qed.
Lemma eqs_breaks from to : concat (map free_breaks (version_eqs from to)) = [].
Proof. apply concat_map_nil. eapply Forall_impl; [apply version_eqs_shape|]. naive_solver. Qed.
Lemma eqs_count from to : foldr (λ s n, switch_count s + n)%N 0%N (version_eqs from to) = 0%N.
Proof. apply count_nil. eapply Forall_impl; [apply version_eqs_shape|]. naive_solver. Qed.
Lemma eqs_passive from to : forallb passive (version_eqs from to) = true.
Proof. apply forallb_true_iff. eapply Forall_impl; [apply version_eqs_shape|]. naive_solver. Qed.

Record same_shape (s s' : Stmt) : Prop := {
  ss_passive : passive s' = true;
  ss_labels : declared_labels s' = declared_labels s;
  ss_breaks : free_breaks s' = free_breaks s;
  ss_count : switch_count s' = switch_count s
}.

Lemma ssa_shape s : ∀ T m S, same_shape s (ssa T s m S).
Proof.
  induction s as [e|i msg f e|x|x e|x|s IH|l s IH|l|ss IH|ss IH] using StmtX_ind'; intros T m S;
    try done.
  - by destruct (IH T m S).
  - cbn [ssa]. destruct (IH (<[l := join_breakable l (vers s m)]> T) m S) as [Hp Hl Hb Hc].
    split; simpl; rewrite ?eqs_labels ?eqs_breaks ?eqs_count ?app_nil_r ?N.add_0_r ?Hp ?Hl ?Hb ?Hc //.
    apply eqs_passive.
  - cbn [ssa]. destruct (T !! l) as [mt|]; [|done].
    split; simpl; rewrite ?forallb_app ?map_app ?concat_app ?eqs_labels ?eqs_breaks ?eqs_passive //.
    rewrite foldr_app /=. apply eqs_count.
  - revert m S. induction IH as [|s ss Hs _ IHss]; intros m S; [done|].
    destruct (Hs T m S) as [Hp Hl Hb Hc], (IHss (final s m) (snaps_after s m S)) as [Ip Il Ib Ic].
    simpl in Ip, Il, Ib, Ic. split; simpl; by rewrite ?Hp ?Hl ?Hb ?Hc ?Ip ?Il ?Ib ?Ic.
  - cbn [ssa]. set (mt := final _ _). clearbody mt.
    enough (same_shape (StmtX_Block ss)
      (StmtX_Block (map (λ s, StmtX_Block (ssa T s m S :: version_eqs (final s m) mt)) ss)))
      as [Hp Hl Hb Hc] by (simpl in *; by split; simpl; rewrite ?Hp ?Hl ?Hb ?Hc).
    induction IH as [|s ss Hs _ IHss]; [done|].
    destruct (Hs T m S) as [Hp Hl Hb Hc], IHss as [Ip Il Ib Ic]. simpl in Ip, Il, Ib, Ic.
    split; simpl; rewrite ?eqs_passive ?eqs_labels ?eqs_breaks ?eqs_count ?app_nil_r ?N.add_0_r
      ?Hp ?Hl ?Hb ?Hc ?Ip ?Il ?Ib ?Ic //.
Qed.

(** ** Names *)

Lemma starts_with_before_at p s d :
  all_chars (λ c, negb (Ascii.eqb c "@"%char)) p = true →
  starts_with p (s +:+ String "@"%char d) = true → starts_with p s = true.
Proof.
  revert s. induction p as [|c p IH]; intros s; [by destruct s|].
  intros [Hc Hp]%andb_true_iff. destruct s as [|b s]; cbn [String.append starts_with String.prefix].
  - unfold starts_with. simpl. destruct (ascii_dec c "@") as [->|]; [done|done].
  - unfold starts_with in *. simpl. destruct (ascii_dec c b); [by apply IH|done].
Qed.

Lemma starts_with_snoc p s t : starts_with p s = true → starts_with p (s +:+ t) = true.
Proof.
  revert s. induction p as [|c p IH]; intros s H; [by destruct (s +:+ t)|].
  destruct s as [|b s]; [done|]. unfold starts_with in *. simpl in *.
  destruct (ascii_dec c b); [by apply IH|done].
Qed.

Lemma rename_var_not_label x n : is_label x = false → is_label (rename_var x n) = false.
Proof.
  rewrite rename_var_base. unfold is_label. intros [H1 H2]%orb_false_iff. apply orb_false_iff.
  assert (H : ∀ p, all_chars (λ c, negb (Ascii.eqb c "@"%char)) p = true → starts_with p x = false →
    starts_with p (base x +:+ N_to_string n) = false).
  { intros p Hp Hx. apply not_true_is_false. intros Hs. unfold base in Hs.
    destruct (ends_with "@" x) eqn:He.
    - apply ends_with_at in He as [s ->]. rewrite str_app_assoc in Hs.
      apply starts_with_before_at in Hs; [|done].
      by rewrite (starts_with_snoc p s "@" Hs) in Hx.
    - rewrite str_app_assoc in Hs. apply starts_with_before_at in Hs; [|done]. congruence. }
  split; by apply H.
Qed.

(** A property of names that renaming preserves holds of the lowered expression. *)
Lemma lower_expr_mentions (P : Ident → Prop) m S e : (∀ x n, P x → P (rename_var x n)) →
  Forall P (mentions e) → Forall P (mentions (lower_expr m S e)).
Proof.
  intros HP. unfold lower_expr.
  assert (Hlist : ∀ {A} (g : A → Expr) (l : list A),
    Forall (λ x, Forall P (mentions (g x)) →
      Forall P (mentions (map_expr_visitor (lower_expr_visitor m S) (g x)))) l →
    Forall P (concat (map (λ x, mentions (g x)) l)) →
    Forall P (concat (map (λ x, mentions (map_expr_visitor (lower_expr_visitor m S) (g x))) l))).
  { intros A g l H. rewrite !Forall_concat_map. induction H; inversion 1; subst; constructor; auto. }
  induction e as [c|x|s x|x es IH|t e0 es IH0 IH|op e IH|op e1 e2 IH1 IH2|op es IH
      |e1 e2 e3 IH1 IH2 IH3|es IH|b e IHb IH|ls f e IH|i msg f e IH] using ExprX_ind';
    cbn [map_expr_visitor lower_expr_visitor mentions]; rewrite ?Forall_app ?map_map; try done.
  - destruct (im_get m x); simpl; rewrite !Forall_singleton; auto.
  - destruct (_ ≫= _); simpl; rewrite !Forall_singleton; auto.
  - by apply (Hlist _ (λ e, e)).
  - intros [? ?]. split; [by apply IH0|by apply (Hlist _ (λ e, e))].
  - intros [? ?]. auto.
  - by apply (Hlist _ (λ e, e)).
  - intros (? & ? & ?). auto.
  - by apply (Hlist _ (λ e, e)).
  - intros [Hb He]. split; [|by apply IH]. clear IH He.
    destruct b as [bs|q bs ts qid|bs ts qid w c|bs ts qid c]; simpl in IHb.
    + rewrite map_map. rewrite Forall_fmap in IHb. by apply (Hlist _ ba).
    + done.
    + rewrite !Forall_app in IHb. destruct IHb as (_ & Iw & Ic). rewrite !Forall_app in Hb |- *.
      destruct Hb as [Hw Hc]. split.
      * destruct w; [|done]. simpl in Iw |- *. rewrite Forall_singleton in Iw. auto.
      * destruct c; [|done]. simpl in Ic |- *. rewrite Forall_singleton in Ic. auto.
    + rewrite Forall_app Forall_singleton in IHb. destruct IHb as [_ Ic]. auto.
Qed.

Lemma lower_root_mentions (P : Ident → Prop) m S e : (∀ x n, P x → P (rename_var x n)) →
  Forall P (mentions e) → Forall P (mentions (lower_root m S e)).
Proof.
  intros HP He. apply (lower_expr_mentions P m S) in He; [|done]. unfold lower_root.
  revert He. generalize (lower_expr m S e). intros e' He. destruct e'; try done; simpl in *.
  - destruct (im_get m x); [|done]. simpl. rewrite Forall_singleton in He |- *. auto.
  - destruct (_ ≫= _); simpl; rewrite Forall_singleton in He; rewrite Forall_singleton; auto.
Qed.

Section names.
Context (P : Ident → Prop) (HP : ∀ x n, P x → P (rename_var x n)).
Context (K : list Ident) (HK : Forall P K).

Definition mentions_only (e : Expr) : Prop := Forall P (mentions e).

Lemma version_eqs_mentions from to : im_keys to = K →
  Forall mentions_only (concat (map stmt_exprs (version_eqs from to))).
Proof using HP HK IML.
  intros Hk. rewrite Forall_concat_map. unfold version_eqs. rewrite Forall_concat_map Hk.
  eapply Forall_impl; [exact HK|]. intros x Hx. unfold version_eq.
  destruct (_ <? _)%N; repeat constructor; by apply HP.
Qed.

Lemma ssa_mentions s : ∀ T m S, im_keys m = K → assigned s ⊆ K →
  (∀ l mt, T !! l = Some mt → im_keys mt = K) →
  Forall mentions_only (stmt_exprs s) → Forall mentions_only (stmt_exprs (ssa T s m S)).
Proof using HP HK IML.
  induction s as [e|i msg f e|x|x e|x|s IH|l s IH|l|ss IH|ss IH] using StmtX_ind';
    intros T m S Hk Hsub HT He; try done.
  - simpl in *. rewrite Forall_singleton in He. rewrite Forall_singleton. by apply lower_root_mentions.
  - simpl in *. rewrite Forall_singleton in He. rewrite Forall_singleton. by apply lower_root_mentions.
  - simpl in *. rewrite Forall_singleton in He. rewrite Forall_singleton. unfold mentions_only. simpl.
    constructor; [|by apply lower_root_mentions].
    apply HP. apply (proj1 (Forall_forall _ _) HK), Hsub, list_elem_of_here.
  - by apply IH.
  - cbn [ssa stmt_exprs map concat].
    assert (Hkj : im_keys (join_breakable l (vers s m)) = K).
    { rewrite keys_join. rewrite -Hk. apply vers_keys. by rewrite Hk. }
    apply Forall_app. split; [|by apply version_eqs_mentions].
    apply IH; [done|done| |done]. intros l' mt. rewrite lookup_insert_Some.
    intros [[_ <-]|[_ H]]; [done|by eapply HT].
  - cbn [ssa]. destruct (T !! l) as [mt|] eqn:Hl; [|done].
    simpl. rewrite map_app concat_app. apply Forall_app. split; [|done].
    apply version_eqs_mentions. by eapply HT.
  - simpl in Hsub, He |- *. revert m S Hk.
    induction IH as [|s ss Hs _ IHss]; intros m S Hk; simpl in *; [done|].
    apply Forall_app in He as [He1 He2].
    assert (Hsub1 : assigned s ⊆ K) by (intros x ?; apply Hsub, elem_of_app; by left).
    apply Forall_app. split; [by apply Hs|]. apply IHss; [|done|].
    + intros x ?. apply Hsub, elem_of_app. by right.
    + rewrite -Hk. apply vers_keys. by rewrite Hk.
  - destruct (decide (ss = [])) as [->|Hne]; [done|].
    assert (Hkt : im_keys (final (StmtX_Switch ss) m) = K).
    { rewrite -Hk. apply (vers_keys (StmtX_Switch ss)). by rewrite Hk. }
    cbn [ssa stmt_exprs]. set (mt := final _ _) in *. clearbody mt. clear Hne.
    rewrite map_map Forall_concat_map. simpl in Hsub, He. rewrite Forall_concat_map in He.
    induction IH as [|s ss Hs _ IHss]; [constructor|]. simpl in Hsub.
    apply Forall_cons in He as [He1 He2]. constructor; [|apply IHss].
    + cbn [stmt_exprs map concat]. apply Forall_app. split; [|by apply version_eqs_mentions].
      apply Hs; try done. intros x ?. apply Hsub, elem_of_app. by left.
    + intros x ?. apply Hsub, elem_of_app. by right.
    + done.
Qed.
End names.

(** ** The pipeline *)

(** The two passes as [check_valid] calls them; [empty_message] is the message
    interface's empty message. *)
Definition lower_passes (oc : bool) (empty_message : ArcDynMessage) (query : Query)
    : res Empty_set Query :=
  rbind (VarToConst.lower_query oc query) (λ r,
  BlockToAssert.lower_query oc empty_message (lq_query r)).

(** No name is one that the second pass generates. *)
Record label_free (q : Query) : Prop := {
  lf_stmt : no_labels (assertion q);
  lf_vars : Forall (λ x, is_label x = false) (var_names (local q));
  lf_decls : Forall (λ d, Forall (λ x, is_label x = false) (decl_mentions d)) (local q);
  lf_count : (switch_count (assertion q) < u64_bound)%N
}.

Lemma lowered_decls_labels K ds :
  Forall (λ d, Forall (λ x, is_label x = false) (decl_mentions d)) ds →
  Forall (λ d, Forall (λ x, is_label x = false) (decl_mentions d)) (lowered_decls K ds).
Proof.
  intros H. revert K. induction H as [|d ds Hd _ IH]; intros K; [constructor|].
  cbn [lowered_decls]. apply Forall_app. split; [|apply IH].
  destruct d as [z|dts|z t|z ts t|z t|ax]; simpl in *; rewrite ?Forall_singleton in Hd;
    repeat constructor; try done.
  - by apply rename_var_not_label.
  - apply lower_expr_mentions; [apply rename_var_not_label|done].
Qed.

Lemma lowered_lowerable oc q r : versionable q → label_free q →
  VarToConst.lower_query oc q = Ok r → lowerable (lq_query r).
Proof.
  intros Hq [Hst Hv Hds Hc] Hr.
  destruct (lower_query_shape q Hq oc) as (r' & evs' & Hr' & Hlq & _ & _ & Hsub & _).
  rewrite Hr in Hr'. injection Hr' as <-. pose proof Hq as [HK _ _ _ _ Hasg Hlab Hcl _].
  destruct (ssa_shape (assertion q) ∅ (zero_versions (var_names (local q))) ∅) as [Hp Hl Hb Hcn].
  rewrite Hlq. split; simpl; rewrite ?Hp ?Hl ?Hb ?Hcn //.
  - eapply Forall_impl.
    + apply (ssa_mentions _ rename_var_not_label (var_names (local q)) Hv).
      * by apply im_keys_zero, (nk_nodup _ HK).
      * done.
      * by intros l mt ?%lookup_empty_Some.
      * eapply Forall_impl; [exact Hst|]. intros e He. by apply Forall_forall.
    + intros e He. exact (proj1 (Forall_forall _ _) He).
  - unfold labels_ok. by rewrite /lowered_stmt Hl Hb.
  - assert (Hall : Forall (λ d, Forall (λ x, is_label x = false) (decl_mentions d))
      (lowered_decls [] (local q) ++ map (event_decl (decl_vars (local q))) evs')).
    { apply Forall_app. split; [by apply lowered_decls_labels|].
      apply Forall_map, Forall_forall. intros ev Hev%Hsub. simpl. rewrite Forall_singleton.
      pose proof (version_events_ok _ _ Hasg (zero_versions (var_names (local q)))) as Hok.
      destruct (proj1 (Forall_forall _ _) Hok ev Hev) as [Hbs ->].
      apply rename_var_not_label. by apply (proj1 (Forall_forall _ _) Hv). }
    eapply Forall_impl; [exact Hall|]. intros d Hd. exact (proj1 (Forall_forall _ _) Hd).
Qed.

Lemma lower_passes_ok oc msg q :
  versionable q → label_free q → dead_ends_pure (assertion q) = true →
  ∃ q', lower_passes oc msg q = Ok q'
    ∧ (∃ e, assertion q' = StmtX_Assert None msg None e)
    ∧ ∀ M, well_typed M q → (query_safe M q' ↔ query_safe M q).
Proof.
  intros Hq Hl Hp. destruct (lower_query_shape q Hq oc) as (r & _ & Hr & _).
  pose proof (lowered_lowerable oc q r Hq Hl Hr) as Hlow.
  destruct (block_lowering oc msg (lq_query r) Hlow) as (q' & Hq' & Ha & Hs).
  exists q'. split; [by rewrite /lower_passes Hr|]. split; [done|]. intros M Ht. rewrite Hs.
  split; [by eapply lower_query_sound|by eapply lower_query_complete].
Qed.

(** The two passes together turn a query into one assertion that can fail exactly when
    some assertion of the query can, for every interpretation of the solver's symbols in
    which assigned values have the variables' sorts. *)
Theorem lower_passes_equisafe oc msg q :
  versionable q → label_free q → dead_ends_pure (assertion q) = true →
  ∃ q', lower_passes oc msg q = Ok q'
    ∧ (∃ e, assertion q' = StmtX_Assert None msg None e)
    ∧ ∀ M, well_typed M q → (query_safe M q' ↔ query_safe M q).
Proof. apply lower_passes_ok. Qed.

End with_index_map.

#[local] Existing Instance entry_list.

Lemma sample_label_free : label_free sample_versions.
Proof.
  split; [|by repeat constructor..|done].
  apply Forall_forall. intros e He x Hx.
  assert (Hall : forallb (λ e, no_labels_names (mentions e)) (stmt_exprs (assertion sample_versions))
    = true) by (vm_compute; reflexivity).
  rewrite forallb_true_iff Forall_forall in Hall. by apply (no_labels_names_spec _ (Hall e He)).
Qed.

Lemma lower_passes_equisafe_witness :
  dead_ends_pure (assertion sample_versions) = true
  ∧ ∃ q', lower_passes false sample_message sample_versions = Ok q'
    ∧ (∃ e, assertion q' = StmtX_Assert None sample_message None e)
    ∧ ∀ M, well_typed M sample_versions → (query_safe M q' ↔ query_safe M sample_versions).
Proof.
  split; [vm_compute; reflexivity|].
  apply (lower_passes_equisafe false sample_message sample_versions).
  - exact sample_versionable.
  - exact sample_label_free.
  - vm_compute. reflexivity.
Defined.
