(* ===== verification/Focus.v ===== *)
(** * Focusing on one assertion and removing assertions
    (source/air/src/focus.rs, source/air/src/remove_asserts.rs)

    [focus_stmt_on_assert_id] keeps the assertion with a given id and drops all
    others and everything after it; [remove_asserts] drops all assertions. *)

From S2P Require Import Prelude RustString Ast AstUtil Semantics ExprFacts StmtFacts VersionSim.
Set Warnings "-rewrite-rw,-register-all,-clear-no-such-hyp".

(** ** remove_asserts.rs *)

Definition is_trivial (stmt : Stmt) : bool :=
  match stmt with StmtX_Block stmts => match stmts with [] => true | _ => false end | _ => false end.

Definition empty_block : Stmt := StmtX_Block [].

Fixpoint remove_asserts (stmt : Stmt) : Stmt :=
  match stmt with
  | StmtX_Assert _ _ _ _ => empty_block
  | StmtX_Assume _ => stmt
  | StmtX_Havoc _ | StmtX_Assign _ _ | StmtX_Snapshot _ => stmt
  | StmtX_DeadEnd _ => empty_block
  | StmtX_Breakable ident stmt => StmtX_Breakable ident (remove_asserts stmt)
  | StmtX_Break _ => stmt
  | StmtX_Block stmts =>
    StmtX_Block (List.filter (λ s, negb (is_trivial s)) (map remove_asserts stmts))
  | StmtX_Switch stmts => StmtX_Switch (map remove_asserts stmts)
  end.

(** ** focus.rs *)

Section lists.
Context (f : Stmt → Stmt * bool).

(** The loop of the [Block] case; [v] is the vector built so far. *)
Fixpoint focus_block (v : list Stmt) (stmts : list Stmt) : Stmt * bool :=
  match stmts with
  | [] => (StmtX_Block v, false)
  | stmt :: stmts' =>
    let '(stmt, found) := f stmt in
    let v := if is_trivial stmt then v else v ++ [stmt] in
    if found then (StmtX_Block v, true) else focus_block v stmts'
  end.

(** The loop of the [Switch] case. *)
Fixpoint focus_switch (v : list Stmt) (stmts : list Stmt) : Stmt * bool :=
  match stmts with
  | [] => (StmtX_Switch v, false)
  | stmt :: stmts' =>
    let '(stmt, found) := f stmt in
    if found then (stmt, true) else focus_switch (v ++ [stmt]) stmts'
  end.
End lists.

Fixpoint focus_stmt_on_assert_id (stmt : Stmt) (assert_id : AssertId) : Stmt * bool :=
  match stmt with
  | StmtX_Assert assert_id_opt _ _ _ =>
    if decide (assert_id_opt = Some assert_id) then (stmt, true) else (empty_block, false)
  | StmtX_Assume _ => (stmt, false)
  | StmtX_Havoc _ | StmtX_Assign _ _ | StmtX_Snapshot _ => (stmt, false)
  | StmtX_DeadEnd stmt =>
    let '(stmt, found) := focus_stmt_on_assert_id stmt assert_id in
    if found then (StmtX_DeadEnd stmt, true) else (empty_block, false)
  | StmtX_Breakable ident stmt =>
    let '(stmt, found) := focus_stmt_on_assert_id stmt assert_id in
    (StmtX_Breakable ident stmt, found)
  | StmtX_Break _ => (stmt, false)
  | StmtX_Block stmts => focus_block (λ s, focus_stmt_on_assert_id s assert_id) [] stmts
  | StmtX_Switch stmts => focus_switch (λ s, focus_stmt_on_assert_id s assert_id) [] stmts
  end.

Definition focus_command_on_assert_id (command : CommandX) (assert_id : AssertId) : option CommandX :=
  match command with
  | CommandX_CheckValid query =>
    let '(assertion, found) := focus_stmt_on_assert_id (assertion query) assert_id in
    if negb found then None else Some (CommandX_CheckValid (mkQuery (local query) assertion))
  | _ => Some command
  end.

Definition focus_commands_on_assert_id (commands : list CommandX) (assert_id : AssertId)
    : list CommandX :=
  omap (λ c, focus_command_on_assert_id c assert_id) commands.

(** ** What can be expected *)

(** How often an assertion has the id. *)
Fixpoint id_count (assert_id : AssertId) (s : Stmt) : nat :=
  match s with
  | StmtX_Assert a _ _ _ => if decide (a = Some assert_id) then 1 else 0
  | StmtX_DeadEnd s | StmtX_Breakable _ s => id_count assert_id s
  | StmtX_Block ss | StmtX_Switch ss => foldr (λ s n, id_count assert_id s + n) 0 ss
  | _ => 0
  end.

(** No [Break] leaves a [DeadEnd]. *)
Fixpoint dead_ends_closed (s : Stmt) : bool :=
  match s with
  | StmtX_DeadEnd s => match free_breaks s with [] => true | _ => false end && dead_ends_closed s
  | StmtX_Breakable _ s => dead_ends_closed s
  | StmtX_Block ss | StmtX_Switch ss => forallb dead_ends_closed ss
  | _ => true
  end.

Section focus_facts.
Context (f : Stmt → Stmt * bool).

Lemma focus_block_missing ss : Forall (λ s, f s = (remove_asserts s, false)) ss → ∀ v,
  focus_block f v ss
  = (StmtX_Block (v ++ List.filter (λ s, negb (is_trivial s)) (map remove_asserts ss)), false).
Proof.
  induction 1 as [|s ss Hs _ IH]; intros v; simpl; [by rewrite app_nil_r|].
  rewrite Hs IH. destruct (is_trivial _); simpl; [done|]. by rewrite -app_assoc.
Qed.

Lemma focus_switch_missing ss : Forall (λ s, f s = (remove_asserts s, false)) ss → ∀ v,
  focus_switch f v ss = (StmtX_Switch (v ++ map remove_asserts ss), false).
Proof.
  induction 1 as [|s ss Hs _ IH]; intros v; simpl; [by rewrite app_nil_r|].
  by rewrite Hs IH -app_assoc.
Qed.

Lemma focus_block_found ss1 s s' ss2 :
  Forall (λ s, f s = (remove_asserts s, false)) ss1 → f s = (s', true) → ∀ v,
  focus_block f v (ss1 ++ s :: ss2)
  = (StmtX_Block (v ++ List.filter (λ s, negb (is_trivial s)) (map remove_asserts ss1 ++ [s'])), true).
Proof.
  intros H Hs. induction H as [|s0 ss Hs0 _ IH]; intros v; simpl.
  - rewrite Hs. destruct (is_trivial s'); simpl; [by rewrite app_nil_r|done].
  - rewrite Hs0 IH. destruct (is_trivial _); simpl; [done|]. by rewrite -app_assoc.
Qed.

Lemma focus_switch_found ss1 s s' ss2 :
  Forall (λ s, f s = (remove_asserts s, false)) ss1 → f s = (s', true) → ∀ v,
  focus_switch f v (ss1 ++ s :: ss2) = (s', true).
Proof.
  intros H Hs. induction H as [|s0 ss Hs0 _ IH]; intros v; simpl; [by rewrite Hs|].
  by rewrite Hs0 IH.
Qed.
End focus_facts.

Lemma count_zero aid ss : foldr (λ s n, id_count aid s + n) 0 ss = 0 →
  Forall (λ s, id_count aid s = 0) ss.
Proof. induction ss; simpl; constructor; [lia|]. apply IHss. lia. Qed.

(** Without the id the code does what [remove_asserts] does. *)
Lemma focus_missing aid s : id_count aid s = 0 →
  focus_stmt_on_assert_id s aid = (remove_asserts s, false).
Proof.
  induction s as [e|i msg f e|x|x e|x|s IH|l s IH|l|ss IH|ss IH] using StmtX_ind'; intros Hc;
    simpl in *; try done.
  - by destruct (decide _).
  - by rewrite IH.
  - by rewrite IH.
  - apply focus_block_missing. apply count_zero in Hc.
    eapply Forall_impl2; [exact IH|exact Hc|]. auto.
  - apply focus_switch_missing. apply count_zero in Hc.
    eapply Forall_impl2; [exact IH|exact Hc|]. auto.
Qed.

(** The first statement with the id. *)
Lemma count_split aid ss : foldr (λ s n, id_count aid s + n) 0 ss ≠ 0 →
  ∃ ss1 s ss2, ss = ss1 ++ s :: ss2 ∧ Forall (λ s, id_count aid s = 0) ss1 ∧ id_count aid s ≠ 0
    ∧ foldr (λ s n, id_count aid s + n) 0 ss
      = id_count aid s + foldr (λ s n, id_count aid s + n) 0 ss2.
Proof.
  induction ss as [|s ss IH]; simpl; [done|]. intros H.
  destruct (decide (id_count aid s = 0)) as [Hz|Hnz].
  - destruct IH as (ss1 & s' & ss2 & -> & Hf & Hs & He); [lia|].
    exists (s :: ss1), s', ss2. split_and!; [done|by constructor|done|lia].
  - exists [], s, ss. split_and!; [done|constructor|done|done].
Qed.

Lemma focus_present aid s : id_count aid s ≠ 0 → ∃ s', focus_stmt_on_assert_id s aid = (s', true).
Proof.
  induction s as [e|i msg f e|x|x e|x|s IH|l s IH|l|ss IH|ss IH] using StmtX_ind'; intros Hc;
    simpl in *; try done.
  - destruct (decide _); [by eexists|done].
  - destruct (IH Hc) as [s' ->]. by eexists.
  - destruct (IH Hc) as [s' ->]. by eexists.
  - apply count_split in Hc as (ss1 & s & ss2 & -> & Hf & Hs & _).
    apply Forall_app in IH as [_ [IH _]%Forall_cons]. destruct (IH Hs) as [s' Hs'].
    eexists. apply (focus_block_found _ ss1 s s'); [|done].
    eapply Forall_impl; [exact Hf|]. intros. by apply focus_missing.
  - apply count_split in Hc as (ss1 & s & ss2 & -> & Hf & Hs & _).
    apply Forall_app in IH as [_ [IH _]%Forall_cons]. destruct (IH Hs) as [s' Hs'].
    eexists. apply (focus_switch_found _ ss1 s s'); [|done].
    eapply Forall_impl; [exact Hf|]. intros. by apply focus_missing.
Qed.

(** ** Meaning *)

Section semantics.
Context (M : Interp) (Γ : Vars).
Implicit Types (σ : State M) (o : outcome M).

Definition is_fail o : bool := match o with OFail _ => true | _ => false end.

Lemma exec_block_nontrivial ss σ o :
  exec_block M (exec M Γ) (List.filter (λ s, negb (is_trivial s)) ss) σ o
  ↔ exec_block M (exec M Γ) ss σ o.
Proof.
  revert σ. induction ss as [|s ss IH]; intros σ; [done|]. cbn [List.filter].
  destruct (is_trivial s) eqn:Ht; cbn [negb].
  - rewrite IH. destruct s as [| | | | | | | |[|]|]; try done. simpl. split.
    + intros H. left. by exists σ.
    + intros [(τ & [= ->] & H)|[-> ?]]; done.
  - simpl. by setoid_rewrite IH.
Qed.

Lemma exec_remove_block ss σ o :
  exec M Γ (remove_asserts (StmtX_Block ss)) σ o
  ↔ exec_block M (exec M Γ) (map remove_asserts ss) σ o.
Proof. apply exec_block_nontrivial. Qed.

Lemma remove_no_fail s : ∀ σ aid, ¬ exec M Γ (remove_asserts s) σ (OFail aid).
Proof.
  induction s as [e|i msg f e|x|x e|x|s IH|l s IH|l|ss IH|ss IH] using StmtX_ind'; intros σ aid.
  - by intros [_ ?].
  - done.
  - by intros (? & ? & _ & _ & ?).
  - done.
  - done.
  - done.
  - intros ([τ|l' τ|a'] & He & Ho); simpl in Ho; try done; [by destruct (decide _)|].
    by apply IH in He.
  - done.
  - rewrite exec_remove_block. revert σ. induction IH as [|s ss Hs _ IHss]; intros σ; [done|].
    intros [(τ & _ & H)|[H _]]; [by apply IHss in H|by apply Hs in H].
  - simpl. induction IH as [|s ss Hs _ IHss]; [by intros []|]. simpl. intros [(o' & H & Ho)|H]; [|auto].
    destruct o' as [τ|l' τ|a']; simpl in Ho; try done. by apply Hs in H.
Qed.

(** Executions that do not fail stay. *)
Lemma remove_keeps s : dead_ends_closed s = true → ∀ σ o,
  exec M Γ s σ o → is_fail o = false → exec M Γ (remove_asserts s) σ o.
Proof.
  induction s as [e|i msg f e|x|x e|x|s IH|l s IH|l|ss IH|ss IH] using StmtX_ind';
    intros Hc σ o He Hf; try done.
  - simpl in He |- *. destruct (holds _ _ _ _); by subst.
  - simpl in Hc, He. apply andb_true_iff in Hc as [Hfb _].
    destruct He as [->|[He Hn]]; [done|]. destruct o as [|l τ|]; try done.
    apply exec_break_free in He. destruct (free_breaks s); [|done]. by apply not_elem_of_nil in He.
  - destruct He as (o' & He & ->). exists o'. split; [|done]. apply IH; [done..|].
    destruct o' as [τ|l' τ|a']; done.
  - rewrite exec_remove_block. simpl in Hc. rewrite forallb_true_iff in Hc. revert σ He.
    induction IH as [|s ss Hs _ IHss]; intros σ He; [done|].
    apply Forall_cons in Hc as [Hc1 Hc2]. destruct He as [(τ & H1 & H2)|[H1 H2]].
    + left. exists τ. split; [by apply Hs|by apply IHss].
    + right. split; [by apply Hs|done].
  - simpl in Hc, He |- *. rewrite forallb_true_iff in Hc.
    induction IH as [|s ss Hs _ IHss]; [done|].
    apply Forall_cons in Hc as [Hc1 Hc2]. destruct He as [(o' & H1 & ->)|H1]; [left|right; auto].
    exists o'. split; [|done]. apply Hs; [done..|]. by destruct o'.
Qed.

(** What is left is an execution of the original, unless that fails on the way. *)
Lemma remove_only s : ∀ σ o, exec M Γ (remove_asserts s) σ o →
  exec M Γ s σ o ∨ ∃ aid, exec M Γ s σ (OFail aid).
Proof.
  induction s as [e|i msg f e|x|x e|x|s IH|l s IH|l|ss IH|ss IH] using StmtX_ind';
    intros σ o He; try (by left).
  - simpl in He. subst o. simpl. destruct (holds _ _ _ _); [by left|right; by eexists].
  - simpl in He. subst o. left. by left.
  - destruct He as (o' & He & ->). apply IH in He as [He|[aid He]].
    + left. by exists o'. + right. exists aid, (OFail aid). done.
  - apply exec_remove_block in He. revert σ He.
    induction IH as [|s ss Hs _ IHss]; intros σ He; [by left|].
    destruct He as [(τ & H1 & H2)|[H1 H2]].
    + apply Hs in H1 as [H1|[aid H1]]; [|right; exists aid; by right].
      apply IHss in H2 as [H2|[aid H2]]; [left|right; exists aid]; left; by exists τ.
    + apply Hs in H1 as [H1|[aid H1]]; [left|right; exists aid]; by right.
  - simpl in He. induction IH as [|s ss Hs _ IHss]; [done|].
    destruct He as [(o' & H1 & ->)|H1].
    + apply Hs in H1 as [H1|[aid H1]]; [left; left; by exists o'|right; exists aid; left].
      by exists (OFail aid).
    + apply IHss in H1 as [H1|[aid H1]]; [left|right; exists aid]; by right.
Qed.

Lemma exec_fail_count s : ∀ σ aid, exec M Γ s σ (OFail (Some aid)) → id_count aid s ≠ 0.
Proof.
  induction s as [e|i msg f e|x|x e|x|s IH|l s IH|l|ss IH|ss IH] using StmtX_ind';
    intros σ aid He; simpl in He |- *; try done.
  - by destruct He.
  - destruct (holds _ _ _ _); [done|]. injection He as <-. by rewrite decide_True.
  - by destruct He as (? & ? & _ & _ & ?).
  - destruct He as [?|[He _]]; [done|by eapply IH].
  - destruct He as ([τ|l' τ|a'] & He & Ho); simpl in Ho; try done; [by destruct (decide _)|].
    injection Ho as <-. by eapply IH.
  - revert σ He. induction IH as [|s ss Hs _ IHss]; intros σ He; [done|]. simpl.
    destruct He as [(τ & _ & H)|[H _]]; [apply IHss in H; lia|apply Hs in H; lia].
  - induction IH as [|s ss Hs _ IHss]; [done|]. simpl.
    destruct He as [(o' & H & Ho)|H]; [|apply IHss in H; lia].
    destruct o' as [τ|l' τ|a']; try done. injection Ho as <-. apply Hs in H. lia.
Qed.

(** The statement that fails in a sequence. *)
Lemma block_fail_split ss aid : ∀ σ, exec_block M (exec M Γ) ss σ (OFail (Some aid)) →
  foldr (λ s n, id_count aid s + n) 0 ss = 1 →
  ∃ ss1 s ss2 τ, ss = ss1 ++ s :: ss2 ∧ Forall (λ s, id_count aid s = 0) ss1 ∧ id_count aid s = 1
    ∧ exec_block M (exec M Γ) ss1 σ (ONormal τ) ∧ exec M Γ s τ (OFail (Some aid)).
Proof.
  induction ss as [|s ss IH]; intros σ He Hc; [done|]. simpl in Hc.
  destruct He as [(τ & H1 & H2)|[H1 _]].
  - assert (Hz : id_count aid s = 0).
    { pose proof (exec_fail_count (StmtX_Block ss) τ aid H2) as Hnz. simpl in Hnz. lia. }
    destruct (IH τ H2) as (ss1 & s' & ss2 & τ' & -> & Hf & Hs & He1 & He2); [lia|].
    exists (s :: ss1), s', ss2, τ'. split_and!; [done|by constructor|done| |done].
    left. by exists τ.
  - pose proof (exec_fail_count s σ aid H1) as Hnz.
    exists [], s, ss, σ. split_and!; [done|constructor|lia|done|done].
Qed.

Lemma exec_block_snoc ss s σ τ o : exec_block M (exec M Γ) ss σ (ONormal τ) → exec M Γ s τ o →
  exec_block M (exec M Γ) (ss ++ [s]) σ o.
Proof.
  intros H1 H2. apply exec_block_app. left. exists τ. split; [done|].
  destruct o; [left; eexists; split; [exact H2|done]|right; by split..].
Qed.

(** A failure of the assertion is found by the focused statement. *)
Lemma focus_finds aid s : id_count aid s = 1 → dead_ends_closed s = true → ∀ σ,
  exec M Γ s σ (OFail (Some aid)) →
  exec M Γ (focus_stmt_on_assert_id s aid).1 σ (OFail (Some aid)).
Proof.
  induction s as [e|i msg f e|x|x e|x|s IH|l s IH|l|ss IH|ss IH] using StmtX_ind';
    intros Hc Hd σ He; try done.
  - simpl in Hc. cbn [focus_stmt_on_assert_id]. by destruct (decide _).
  - simpl in Hc, Hd, He. apply andb_true_iff in Hd as [_ Hd]. destruct He as [?|[He _]]; [done|].
    cbn [focus_stmt_on_assert_id]. destruct (focus_present aid s) as [s' Hs']; [lia|].
    specialize (IH Hc Hd σ He). rewrite Hs' in IH |- *. by right.
  - simpl in Hc, Hd. cbn [focus_stmt_on_assert_id]. destruct He as (o' & He & Ho).
    destruct o' as [τ|l' τ|a']; simpl in Ho; try done; [by destruct (decide _)|].
    injection Ho as <-. specialize (IH Hc Hd σ He).
    destruct (focus_stmt_on_assert_id s aid) as [s' found]. by exists (OFail (Some aid)).
  - simpl in Hc, Hd. cbn [focus_stmt_on_assert_id].
    apply block_fail_split in He as (ss1 & s & ss2 & τ & -> & Hf & Hs & He1 & He2); [|done].
    rewrite forallb_app in Hd. apply andb_true_iff in Hd as [Hd1 Hd2].
    apply andb_true_iff in Hd2 as [Hd2 _].
    apply Forall_app in IH as [_ [IH _]%Forall_cons].
    destruct (focus_present aid s) as [s' Hs']; [lia|]. specialize (IH Hs Hd2 τ He2).
    rewrite Hs' in IH. rewrite (focus_block_found _ ss1 s s'); [|done|].
    { eapply Forall_impl; [exact Hf|]. intros. by apply focus_missing. }
    apply exec_block_nontrivial. apply (exec_block_snoc _ _ _ τ); [|exact IH].
    apply exec_remove_block. by apply (remove_keeps (StmtX_Block ss1)).
  - simpl in Hc, Hd. cbn [focus_stmt_on_assert_id]. rewrite forallb_true_iff in Hd.
    assert (Hsw : ∃ ss1 s ss2, ss = ss1 ++ s :: ss2 ∧ Forall (λ s, id_count aid s = 0) ss1
      ∧ id_count aid s = 1 ∧ exec M Γ s σ (OFail (Some aid))).
    { clear IH Hd. induction ss as [|s ss IHss]; [done|]. simpl in Hc.
      destruct He as [(o' & H & Ho)|H].
      - destruct o' as [τ|l' τ|a']; try done. injection Ho as <-.
        pose proof (exec_fail_count s σ aid H). exists [], s, ss.
        split_and!; [done|constructor|lia|done].
      - pose proof (exec_fail_count (StmtX_Switch ss) σ aid H) as Hnz. simpl in Hnz.
        destruct IHss as (ss1 & s' & ss2 & -> & ? & ? & ?); [lia|done|].
        exists (s :: ss1), s', ss2. split_and!; try done. constructor; [lia|done]. }
    destruct Hsw as (ss1 & s & ss2 & -> & Hf & Hs & He2).
    apply Forall_app in IH as [_ [IH _]%Forall_cons].
    apply Forall_app in Hd as [_ [Hd _]%Forall_cons].
    destruct (focus_present aid s) as [s' Hs']; [lia|]. specialize (IH Hs Hd σ He2).
    rewrite Hs' in IH. rewrite (focus_switch_found _ ss1 s s'); [|done|exact IH].
    eapply Forall_impl; [exact Hf|]. intros. by apply focus_missing.
Qed.

(** The focused statement only fails at the assertion, and only if the original fails. *)
Lemma focus_only aid s : id_count aid s ≠ 0 → ∀ σ a,
  exec M Γ (focus_stmt_on_assert_id s aid).1 σ (OFail a) →
  a = Some aid ∧ ∃ a', exec M Γ s σ (OFail a').
Proof.
  induction s as [e|i msg f e|x|x e|x|s IH|l s IH|l|ss IH|ss IH] using StmtX_ind';
    intros Hc σ a He; try done.
  - simpl in Hc. cbn [focus_stmt_on_assert_id] in He. destruct (decide _) as [->|]; [|done].
    split; [|by eexists]. simpl in He. destruct (holds _ _ _ _); [done|]. by injection He.
  - cbn [focus_stmt_on_assert_id] in He. specialize (IH Hc σ a).
    destruct (focus_present aid s Hc) as [s' Hs']. rewrite Hs' in He IH.
    destruct He as [?|[He _]]; [done|]. destruct (IH He) as (-> & a' & He').
    split; [done|]. exists a'. by right.
  - cbn [focus_stmt_on_assert_id] in He. specialize (IH Hc σ a).
    destruct (focus_stmt_on_assert_id s aid) as [s' found]. destruct He as (o' & He & Ho).
    destruct o' as [τ|l' τ|b]; simpl in Ho; try done; [by destruct (decide _)|]. injection Ho as <-.
    destruct (IH He) as (-> & a' & He'). split; [done|]. exists a', (OFail a'). done.
  - apply count_split in Hc as (ss1 & s & ss2 & -> & Hf & Hs & _).
    apply Forall_app in IH as [_ [IH _]%Forall_cons]. specialize (IH Hs).
    destruct (focus_present aid s Hs) as [s' Hs']. rewrite Hs' in IH.
    cbn [focus_stmt_on_assert_id] in He. rewrite (focus_block_found _ ss1 s s') in He; [|done|].
    { eapply Forall_impl; [exact Hf|]. intros. by apply focus_missing. }
    apply exec_block_nontrivial, exec_block_app in He as [(τ & H1 & H2)|[H1 _]].
    + assert (H2' : exec M Γ s' τ (OFail a)) by (by destruct H2 as [(τ' & _ & ?)|[? _]]).
      destruct (IH τ a H2') as (-> & a' & He'). split; [done|].
      apply exec_remove_block, (remove_only (StmtX_Block ss1)) in H1 as [H1|[b H1]].
      * exists a'. apply exec_block_app. left. exists τ. split; [done|]. by right.
      * exists b. apply exec_block_app. by right.
    + by apply exec_remove_block, (remove_no_fail (StmtX_Block ss1)) in H1.
  - apply count_split in Hc as (ss1 & s & ss2 & -> & Hf & Hs & _).
    apply Forall_app in IH as [_ [IH _]%Forall_cons]. specialize (IH Hs).
    destruct (focus_present aid s Hs) as [s' Hs']. rewrite Hs' in IH.
    cbn [focus_stmt_on_assert_id] in He. rewrite (focus_switch_found _ ss1 s s') in He; [|done|].
    { eapply Forall_impl; [exact Hf|]. intros. by apply focus_missing. }
    destruct (IH σ a He) as (-> & a' & He'). split; [done|]. exists a'. simpl.
    clear -He'. induction ss1 as [|s0 ss1 IH]; simpl; [left; by exists (OFail a')|by right].
Qed.
End semantics.

(** ** Properties *)

(** [remove_asserts] yields a statement that cannot fail, that has every other outcome of
    the original when no [Break] leaves a [DeadEnd], and whose outcomes are outcomes of the
    original unless the original fails on the way. *)
Theorem remove_asserts_spec M Γ s σ :
  (∀ aid, ¬ exec M Γ (remove_asserts s) σ (OFail aid))
  ∧ (dead_ends_closed s = true → ∀ o, is_fail M o = false → exec M Γ s σ o →
       exec M Γ (remove_asserts s) σ o)
  ∧ ∀ o, exec M Γ (remove_asserts s) σ o → exec M Γ s σ o ∨ ∃ aid, exec M Γ s σ (OFail aid).
Proof.
  split_and!; [intros aid; apply remove_no_fail| |intros o; apply remove_only].
  intros Hc o Hf He. by apply remove_keeps.
Qed.

(** C33. Focusing on an assertion id that occurs exactly once, in a statement in which no [Break]
    leaves a [DeadEnd], finds the assertion, keeps every way it can fail, fails nowhere else,
    and fails only if the original statement fails. *)
Theorem focus_exact M Γ s aid σ : id_count aid s = 1 → dead_ends_closed s = true →
  (focus_stmt_on_assert_id s aid).2 = true
  ∧ (exec M Γ s σ (OFail (Some aid)) →
       exec M Γ (focus_stmt_on_assert_id s aid).1 σ (OFail (Some aid)))
  ∧ ∀ a, exec M Γ (focus_stmt_on_assert_id s aid).1 σ (OFail a) →
      a = Some aid ∧ ∃ a', exec M Γ s σ (OFail a').
Proof.
  intros Hc Hd. split_and!.
  - destruct (focus_present aid s) as [s' ->]; [by rewrite Hc|done].
  - by apply focus_finds.
  - intros a. apply focus_only. by rewrite Hc.
Qed.

(** Focusing a command list keeps exactly the commands that are not queries and the
    queries with an assertion of that id, in order; a dropped query cannot fail at the id. *)
Theorem focus_commands_spec commands aid :
  (∀ q, CommandX_CheckValid q ∈ commands → id_count aid (assertion q) = 0 →
     focus_command_on_assert_id (CommandX_CheckValid q) aid = None
     ∧ ∀ M Γ σ, ¬ exec M Γ (assertion q) σ (OFail (Some aid)))
  ∧ length (focus_commands_on_assert_id commands aid)
    = length (List.filter (λ c, match c with
        | CommandX_CheckValid q => negb (id_count aid (assertion q) =? 0)%nat
        | _ => true end) commands).
Proof.
  split.
  - intros q _ Hc. split.
    + unfold focus_command_on_assert_id. by rewrite focus_missing.
    + intros M Γ σ He%exec_fail_count. done.
  - unfold focus_commands_on_assert_id. induction commands as [|c cs IH]; [done|].
    destruct c as [| | | |q]; simpl; rewrite ?IH //.
    destruct (Nat.eqb_spec (id_count aid (assertion q)) 0) as [Hz|Hnz]; simpl.
    + by rewrite focus_missing.
    + destruct (focus_present aid (assertion q) Hnz) as [s' ->]. simpl. by rewrite IH.
Qed.

Definition sample_focus : Stmt :=
  let msg := {| level := MessageLevel_Error; note := "m"; span := None; labels := [] |} in
  StmtX_Block [StmtX_Assert (Some [1%N]) msg None (ExprX_Var "p");
    StmtX_DeadEnd (StmtX_Assert (Some [2%N]) msg None (ExprX_Var "q"));
    StmtX_Switch [StmtX_Assume (ExprX_Var "p");
      StmtX_Block [StmtX_Assert (Some [3%N]) msg None (ExprX_Var "p"); StmtX_Havoc "x"]];
    StmtX_Assert (Some [4%N]) msg None (ExprX_Var "p")].

Lemma focus_exact_witness :
  (focus_stmt_on_assert_id sample_focus [3%N]).2 = true
  ∧ ∀ σ a, exec bool_interp ∅ (focus_stmt_on_assert_id sample_focus [3%N]).1 σ (OFail a) →
      a = Some [3%N].
Proof.
  split.
  - refine (proj1 (focus_exact bool_interp ∅ sample_focus [3%N] (@mkState bool_interp (λ _, true) ∅) _ _)); reflexivity.
  - intros σ a H.
    refine (proj1 (proj2 (proj2 (focus_exact bool_interp ∅ sample_focus [3%N] σ _ _)) a H)); reflexivity.
Defined.
