(* ===== verification/ScopeMap.v ===== *)
(** * Scoped maps (source/air/src/scope_map.rs)

    A [ScopeMap] is one hash map with, for every open scope, the values to restore
    when the scope is popped.  [concrete] shows what it stands for: a stack of
    frames, searched from the innermost one. *)

From S2P Require Import Prelude.
Set Warnings "-rewrite-rw,-register-all,-clear-no-such-hyp".

Section scope_map.
Context {K V : Type} `{Countable K}.

Record Scope := mkScope {
  undo_map : gmap K (option V * nat);
  allow_shadowing : bool;
  count : nat
}.

Record ScopeMap := mkScopeMap {
  map : gmap K V;
  cannot_shadow : gset K;
  scopes : list Scope
}.

Definition new : ScopeMap := mkScopeMap ∅ ∅ [].

Definition push_scope (self : ScopeMap) (allow_shadowing : bool) : ScopeMap :=
  mkScopeMap (map self) (cannot_shadow self) (scopes self ++ [mkScope ∅ allow_shadowing 0]).

(** One iteration of the loop of [pop_scope]. *)
Definition undo_key (allow : bool) (key : K) (p : option V * nat) (acc : gmap K V * gset K)
    : gmap K V * gset K :=
  let m := delete key acc.1 in
  let cs := if allow then acc.2 else acc.2 ∖ {[key]} in
  match p.1 with Some value => (<[key := value]> m, cs) | None => (m, cs) end.

Definition pop_scope {E} (self : ScopeMap) : res E ScopeMap :=
  rbind (expect (last (scopes self))) (λ scope,
  let '(m, cs) := map_fold (undo_key (allow_shadowing scope)) (map self, cannot_shadow self)
                    (undo_map scope) in
  Ok (mkScopeMap m cs (removelast (scopes self)))).

Definition num_scopes (self : ScopeMap) : nat := length (scopes self).
Definition contains_key (self : ScopeMap) (key : K) : bool := bool_decide (is_Some (map self !! key)).
Definition get (self : ScopeMap) (key : K) : option V := map self !! key.

(** The loop of [scope_and_index_of_key] over the first [n] scopes, from the last. *)
Fixpoint find_scope (ss : list Scope) (key : K) (n : nat) : option (nat * nat) :=
  match n with
  | O => None
  | S i =>
    match (s ← ss !! i; undo_map s !! key) with
    | Some (_, k) => Some (i, k)
    | None => find_scope ss key i
    end
  end.
Definition scope_and_index_of_key (self : ScopeMap) (key : K) : option (nat * nat) :=
  find_scope (scopes self) key (length (scopes self)).

(** [Result<(), ()>] with the state after the call, which the error cases change too. *)
Definition insert_at (self : ScopeMap) (scope_index : nat) (key : K) (value : V)
    : res Empty_set (bool * ScopeMap) :=
  if decide (key ∈ cannot_shadow self) then Ok (false, self)
  else
    rbind (expect (scopes self !! scope_index)) (λ scope,
    let prev := map self !! key in
    let cs := if allow_shadowing scope then cannot_shadow self else {[key]} ∪ cannot_shadow self in
    let undo_prev := undo_map scope !! key in
    let scope' := mkScope (<[key := (prev, count scope)]> (undo_map scope))
                    (allow_shadowing scope) (S (count scope)) in
    Ok (match undo_prev with None => true | Some _ => false end,
        mkScopeMap (<[key := value]> (map self)) cs (<[scope_index := scope']> (scopes self)))).

Definition insert_sm (self : ScopeMap) (key : K) (value : V) : res Empty_set (bool * ScopeMap) :=
  if decide (length (scopes self) = 0) then Panic
  else insert_at self (length (scopes self) - 1) key value.

Definition replace (self : ScopeMap) (key : K) (value : V) : bool * ScopeMap :=
  if contains_key self key
  then (true, mkScopeMap (<[key := value]> (map self)) (cannot_shadow self) (scopes self))
  else (false, self).

(** [self[key]] *)
Definition index {E} (self : ScopeMap) (key : K) : res E V := expect (map self !! key).

(** ** The stack of frames *)

(** A frame has its entries with their positions. *)
Record Frame := mkFrame { items : gmap K (V * nat); shadows : bool; size : nat }.

(** Innermost frame first. *)
Definition flat (fs : list Frame) : gmap K V := foldr (λ f m, (fst <$> items f) ∪ m) ∅ fs.
Definition protected (fs : list Frame) : gset K :=
  foldr (λ f s, (if shadows f then ∅ else dom (items f)) ∪ s) ∅ fs.

Fixpoint undo_scopes (fs : list Frame) : list Scope :=
  match fs with
  | [] => []
  | f :: fs' =>
    undo_scopes fs'
    ++ [mkScope (map_imap (λ k p, Some (flat fs' !! k, p.2)) (items f)) (shadows f) (size f)]
  end.

Definition concrete (fs : list Frame) : ScopeMap :=
  mkScopeMap (flat fs) (protected fs) (undo_scopes fs).

(** A protected name occurs in no inner frame. *)
Fixpoint frames_ok (fs : list Frame) : Prop :=
  match fs with
  | [] => True
  | f :: fs' => dom (items f) ## protected fs' ∧ frames_ok fs'
  end.

Definition frame_insert (f : Frame) (key : K) (value : V) : Frame :=
  mkFrame (<[key := (value, size f)]> (items f)) (shadows f) (S (size f)).

Lemma concrete_new : concrete [] = new.
Proof. done. Qed.

Lemma length_undo_scopes fs : length (undo_scopes fs) = length fs.
Proof. induction fs as [|f fs IH]; simpl; [done|]. rewrite length_app IH /=. lia. Qed.

Lemma concrete_push fs allow : push_scope (concrete fs) allow = concrete (mkFrame ∅ allow 0 :: fs).
Proof.
  unfold push_scope, concrete. simpl. f_equal.
  - by rewrite fmap_empty left_id_L.
  - destruct allow; [by rewrite left_id_L|]. by rewrite dom_empty_L left_id_L.

Qed.

(** The loop of [pop_scope] key by key. *)
Lemma undo_fold allow (u : gmap K (option V * nat)) m cs :
  let r := map_fold (undo_key allow) (m, cs) u in
  (∀ k, r.1 !! k = match u !! k with Some (o, _) => o | None => m !! k end)
  ∧ r.2 = if allow then cs else cs ∖ dom u.
Proof.
  cbv zeta. induction u as [|k p u Hk Hf IH] using map_first_key_ind.
  - rewrite map_fold_empty. split; [done|]. simpl. destruct allow; [done|].
    by rewrite dom_empty_L difference_empty_L.
  - rewrite map_fold_insert_first_key //. destruct IH as [IH1 IH2].
    revert IH1 IH2. generalize (map_fold (undo_key allow) (m, cs) u). intros r IH1 IH2.
    destruct p as [o i]. unfold undo_key. simpl. split.
    + intros k'. destruct (decide (k = k')) as [<-|Hne].
      * rewrite lookup_insert_eq. destruct o; simpl; [by rewrite lookup_insert_eq|by rewrite lookup_delete_eq].
      * rewrite lookup_insert_ne // -IH1.
        destruct o; simpl; rewrite ?lookup_insert_ne // lookup_delete_ne //.
    + rewrite IH2 dom_insert_L. destruct o, allow; simpl; set_solver.
Qed.

Lemma concrete_pop E f fs : frames_ok (f :: fs) → @pop_scope E (concrete (f :: fs)) = Ok (concrete fs).
Proof.
  intros [Hdis _]. unfold pop_scope. cbn [concrete scopes undo_scopes]. rewrite last_snoc.
  cbn [expect rbind allow_shadowing undo_map map cannot_shadow concrete].
  set (u := map_imap _ _).
  pose proof (undo_fold (shadows f) u (flat (f :: fs)) (protected (f :: fs))) as [H1 H2].
  destruct (map_fold _ _ u) as [m cs]. simpl in H1, H2. rewrite removelast_last.
  assert (Hu : ∀ k, u !! k = (λ p, (flat fs !! k, p.2)) <$> items f !! k).
  { intros k. unfold u. rewrite map_lookup_imap. by destruct (items f !! k). }
  assert (Hdom : dom u = dom (items f)).
  { apply set_eq. intros k. rewrite !elem_of_dom Hu fmap_is_Some. done. }
  unfold concrete. do 2 f_equal.
  - apply map_eq. intros k. rewrite H1 Hu. destruct (items f !! k) as [p|] eqn:Hk; simpl; [done|].
    by rewrite lookup_union lookup_fmap Hk /= left_id_L.
  - rewrite H2 Hdom. destruct (shadows f); set_solver.
Qed.

(** Insertion in the innermost frame. *)
Lemma concrete_insert f fs key value : frames_ok (f :: fs) →
  if decide (key ∈ protected (f :: fs)) then
    insert_sm (concrete (f :: fs)) key value = Ok (false, concrete (f :: fs))
  else if decide (is_Some (items f !! key)) then
    ∃ sm, insert_sm (concrete (f :: fs)) key value = Ok (false, sm)
  else
    insert_sm (concrete (f :: fs)) key value = Ok (true, concrete (frame_insert f key value :: fs))
    ∧ frames_ok (frame_insert f key value :: fs).
Proof.
  intros [Hdis Hok].
  assert (Hins : insert_sm (concrete (f :: fs)) key value
    = insert_at (concrete (f :: fs)) (length (undo_scopes fs)) key value).
  { unfold insert_sm. cbn [concrete scopes undo_scopes]. rewrite length_app /=.
    rewrite decide_False; [lia|]. f_equal. lia. }
  rewrite !Hins. unfold insert_at. cbn [concrete cannot_shadow scopes map].
  destruct (decide (key ∈ protected (f :: fs))) as [Hin|Hin]; [done|].
  cbn [undo_scopes]. rewrite list_lookup_middle //. cbn [expect rbind undo_map allow_shadowing count].
  rewrite map_lookup_imap. destruct (decide (is_Some (items f !! key))) as [[p Hp]|Hnone].
  { rewrite Hp. simpl. by eexists. }
  apply eq_None_not_Some in Hnone. rewrite Hnone. cbn [mbind option_bind]. split.
  - unfold concrete. f_equal. f_equal. simpl. f_equal.
    + by rewrite fmap_insert /= insert_union_l.
    + destruct (shadows f); [done|]. rewrite dom_insert_L. set_solver.
    + rewrite insert_app_r_alt; [lia|]. rewrite Nat.sub_diag /=. do 3 f_equal.
      rewrite lookup_union lookup_fmap Hnone /= left_id_L.
      apply map_eq. intros k. rewrite map_lookup_imap. destruct (decide (key = k)) as [<-|Hne].
      * by rewrite !lookup_insert_eq.
      * by rewrite !lookup_insert_ne // map_lookup_imap.
  - split; [|done]. simpl. rewrite dom_insert_L. simpl in Hin. set_solver.
Qed.

(** ** Where a key was declared *)

(** The scope and position of the innermost entry of a key. *)
Fixpoint frame_of (fs : list Frame) (key : K) : option (nat * nat) :=
  match fs with
  | [] => None
  | f :: fs' =>
    match items f !! key with Some (_, i) => Some (length fs', i) | None => frame_of fs' key end
  end.

Lemma find_scope_app ss t key n : n ≤ length ss → find_scope (ss ++ t) key n = find_scope ss key n.
Proof.
  induction n as [|n IH]; intros Hn; simpl; [done|]. rewrite lookup_app_l; [lia|].
  by rewrite IH; [lia|].
Qed.

Lemma concrete_scope_and_index fs key :
  scope_and_index_of_key (concrete fs) key = frame_of fs key.
Proof.
  unfold scope_and_index_of_key. cbn [concrete scopes].
  induction fs as [|f fs IH]; [done|]. cbn [undo_scopes frame_of].
  rewrite length_app Nat.add_1_r. cbn [find_scope]. rewrite list_lookup_middle //. cbn [mbind option_bind undo_map].
  rewrite map_lookup_imap length_undo_scopes. destruct (items f !! key) as [[v i]|]; simpl; [done|].
  rewrite find_scope_app; [by rewrite length_undo_scopes|].
  by rewrite -(length_undo_scopes fs).
Qed.

(** ** Sessions

    What happens between opening a scope and closing it: successful insertions
    and nested scopes that are closed again. *)
Inductive session : ScopeMap → ScopeMap → Prop :=
| session_start s : session s s
| session_insert s t u key value :
  session s t → insert_sm t key value = Ok (true, u) → session s u
| session_scope s t u v allow :
  session s t → session (push_scope t allow) u → pop_scope u = @Ok Empty_set _ v → session s v.

(** [t] is [s] with the innermost scope [sc] added. *)
Definition extends (s : ScopeMap) (allow : bool) (t : ScopeMap) : Prop := ∃ sc,
  scopes t = scopes s ++ [sc] ∧ allow_shadowing sc = allow
  ∧ (∀ k, match undo_map sc !! k with Some (o, _) => o = map s !! k | None => map t !! k = map s !! k end)
  ∧ cannot_shadow t = cannot_shadow s ∪ (if allow then ∅ else dom (undo_map sc))
  ∧ (allow = true ∨ dom (undo_map sc) ## cannot_shadow s).

Lemma extends_push s allow : extends s allow (push_scope s allow).
Proof.
  exists (mkScope ∅ allow 0). split_and!; [done..| |].
  - cbn. destruct allow; [set_solver|]. by rewrite dom_empty_L right_id_L.
  - right. cbn. set_solver.
Qed.
Lemma extends_insert s allow t key value u : extends s allow t → insert_sm t key value = Ok (true, u) → extends s allow u.
Proof.
  intros (sc & Hsc & Ha & Hm & Hc & Hd). unfold insert_sm. rewrite Hsc. destruct (decide _); [done|].
  unfold insert_at. destruct (decide (key ∈ cannot_shadow t)) as [|Hk]; [done|]. rewrite length_app Nat.add_sub Hsc list_lookup_middle //.
  cbn [expect rbind]. destruct (undo_map sc !! key) eqn:Hu; [done|]. intros [= <-].
  pose proof (Hm key) as Hkey. rewrite Hu in Hkey. eexists (mkScope _ _ _). cbn. split_and!.
  - rewrite insert_app_r_alt // Nat.sub_diag. done.
  - done.
  - intros k. destruct (decide (k = key)) as [->|Hne]; [by rewrite lookup_insert_eq|]. rewrite lookup_insert_ne //.
    specialize (Hm k). destruct (undo_map sc !! k) as [[o i]|]; [done|]. by rewrite lookup_insert_ne.
  - rewrite Hc Ha. destruct allow; [done|]. rewrite dom_insert_L. set_solver.
  - destruct Hd as [|Hd]; [by left|]. right. rewrite dom_insert_L. rewrite Hc in Hk. set_solver.
Qed.
Lemma extends_pop {E} s allow t : extends s allow t → @pop_scope E t = Ok s.
Proof.
  intros (sc & Hsc & Ha & Hm & Hc & Hd). unfold pop_scope. rewrite Hsc last_snoc. cbn [expect rbind].
  pose proof (undo_fold (allow_shadowing sc) (undo_map sc) (map t) (cannot_shadow t)) as [H1 H2].
  destruct (map_fold _ _ _) as [m cs]. cbn in H1, H2. rewrite removelast_last. destruct s as [sm scs sss]. cbn in *. do 2 f_equal.
  - apply map_eq. intros k. rewrite H1. specialize (Hm k). by destruct (undo_map sc !! k) as [[o i]|].
  - rewrite H2 Hc Ha. destruct allow; [by rewrite right_id_L|]. destruct Hd as [|Hd]; [done|]. set_solver.
Qed.

(** Closing a scope undoes everything, in any map. *)
Lemma session_extends s t : session s t → ∀ r allow, extends r allow s → extends r allow t.
Proof.
  induction 1 as [s|s t u key value _ IH Hi|s t u v allow _ IH1 _ IH2 Hp]; intros r a Hr; [done| |].
  - eapply extends_insert; [by apply IH|done].
  - specialize (IH1 r a Hr). pose proof (IH2 t allow (extends_push t allow)) as Hu.
    apply (extends_pop (E := Empty_set)) in Hu. rewrite Hp in Hu. by injection Hu as ->.
Qed.
Lemma session_pop {E} s t allow : session (push_scope s allow) t → @pop_scope E t = Ok s.
Proof. intros Hs. eapply extends_pop, session_extends; [exact Hs|]. apply extends_push. Qed.

(** The maps that arise from [new]. *)
Definition represents (s : ScopeMap) (fs : list Frame) : Prop := s = concrete fs ∧ frames_ok fs.

Lemma push_represents s fs allow : represents s fs →
  represents (push_scope s allow) (mkFrame ∅ allow 0 :: fs).
Proof.
  intros [-> Hok]. split; [by apply concrete_push|]. split; [|done]. simpl. set_solver.
Qed.

Lemma insert_represents s f fs key value t : represents s (f :: fs) →
  insert_sm s key value = Ok (true, t) →
  represents t (frame_insert f key value :: fs) ∧ items f !! key = None ∧ key ∉ protected (f :: fs).
Proof.
  intros [-> Hok] Hi. pose proof (concrete_insert f fs key value Hok) as Hc.
  destruct (decide (key ∈ protected (f :: fs))); [congruence|].
  destruct (decide (is_Some (items f !! key))) as [|Hn]; [destruct Hc as [? Hc]; congruence|].
  destruct Hc as [Hc Hok']. rewrite Hc in Hi. injection Hi as <-. split_and!; [done| |done].
  by apply eq_None_not_Some.
Qed.

Lemma session_represents s t : session s t → ∀ f fs, represents s (f :: fs) →
  ∃ f', represents t (f' :: fs) ∧ shadows f' = shadows f.
Proof.
  induction 1 as [s|s t u key value _ IH Hi|s t u v allow _ IH1 _ IH2 Hp]; intros f fs Hr.
  - by exists f.
  - destruct (IH f fs Hr) as (f' & Hr' & Hs). apply (insert_represents _ _ _ _ _ _ Hr') in Hi as [Hi _].
    by exists (frame_insert f' key value).
  - destruct (IH1 f fs Hr) as (f' & Hr' & Hs).
    destruct (IH2 _ _ (push_represents t (f' :: fs) allow Hr')) as (g & [-> Hok] & _).
    rewrite concrete_pop // in Hp. injection Hp as <-. exists f'. split; [|done].
    split; [done|]. apply Hok.
Qed.
End scope_map.
Arguments Scope K V {_ _}.
Arguments ScopeMap K V {_ _}.
Arguments Frame K V {_ _}.

(** ** Properties *)

Lemma scope_undone {K V} `{Countable K} (s t : ScopeMap K V) fs allow :
  represents s fs → session (push_scope s allow) t → pop_scope t = @Ok Empty_set _ s.
Proof. intros _. apply session_pop. Qed.

(** C30. Closing a scope undoes the successful insertions, and the nested scopes opened and
    closed, since it was opened: map, protected names and open scopes are what they were.
    [replace], and an insertion that fails on a name of the scope, are not among what is
    undone. *)
Theorem scope_restored {K V} `{Countable K} (s t : ScopeMap K V) allow :
  session (push_scope s allow) t → pop_scope t = @Ok Empty_set _ s.
Proof. apply session_pop. Qed.

(** C29. A scoped map is a stack of frames: lookups find the innermost entry,
    [scope_and_index_of_key] its scope and position; [insert] succeeds exactly when the
    key is neither in the innermost scope nor protected by a scope without shadowing, and
    then adds the entry to the innermost scope; [push_scope] adds an empty frame, and
    [pop_scope] removes the innermost one and restores the others. *)
Theorem scope_map_refines {K V} `{Countable K} (s : ScopeMap K V) f fs key value :
  represents s (f :: fs) →
  get s key = match items f !! key with Some (v, _) => Some v | None => flat fs !! key end
  ∧ scope_and_index_of_key s key = frame_of (f :: fs) key
  ∧ (∃ ok t, insert_sm s key value = Ok (ok, t)
    ∧ (ok = true ↔ items f !! key = None ∧ key ∉ protected (f :: fs))
    ∧ (ok = true → represents t (frame_insert f key value :: fs)))
  ∧ (∀ allow, represents (push_scope s allow) (mkFrame ∅ allow 0 :: f :: fs))
  ∧ ∃ t, pop_scope s = @Ok Empty_set _ t ∧ represents t fs.
Proof.
  intros Hr. pose proof Hr as [-> Hok]. split_and!.
  - unfold get. simpl. rewrite lookup_union lookup_fmap.
    destruct (items f !! key) as [[v i]|]; simpl; [by rewrite union_Some_l|by rewrite left_id_L].
  - apply concrete_scope_and_index.
  - pose proof (concrete_insert f fs key value Hok) as Hi.
    destruct (decide (key ∈ protected (f :: fs))) as [Hp|Hp].
    { eexists false, _. split_and!; [done| |done]. split; [done|]. by intros [_ ?]. }
    destruct (decide (is_Some (items f !! key))) as [Hs|Hs].
    { destruct Hi as [t Hi]. exists false, t. split_and!; [done| |done]. split; [done|].
      intros [Hn _]. rewrite Hn in Hs. by destruct Hs. }
    destruct Hi as [Hi Hok']. eexists true, _. split_and!; [done| |done].
    split; [|done]. intros _. split; [by apply eq_None_not_Some|done].
  - intros allow. by apply push_represents.
  - exists (concrete fs). split; [by apply concrete_pop|]. split; [done|apply Hok].
Qed.

Definition sample_map : ScopeMap string nat := concrete [frame_insert (mkFrame ∅ false 0) "x" 1].

Lemma sample_represents : represents sample_map [frame_insert (mkFrame ∅ false 0) "x" 1].
Proof. split; [done|]. split; [|done]. simpl. set_solver. Qed.

Definition sample_inner : ScopeMap string nat :=
  match insert_sm (push_scope sample_map true) "y" 2 with Ok (_, t) => t | _ => sample_map end.

Lemma scope_restored_witness :
  insert_sm (push_scope sample_map true) "y" 2 = Ok (true, sample_inner)
  ∧ pop_scope sample_inner = @Ok Empty_set _ sample_map.
Proof.
  split; [vm_compute; reflexivity|].
  apply (scope_restored sample_map sample_inner true).
  apply (session_insert _ (push_scope sample_map true) _ "y" 2); [apply session_start|].
  vm_compute. reflexivity.
Defined.

Lemma scope_map_refines_witness : get sample_map "x" = Some 1
  ∧ (∃ ok t, insert_sm sample_map "x" 2 = Ok (ok, t) ∧ ok = false) ∧ pop_scope sample_map = @Ok Empty_set _ (concrete []).
Proof.
  destruct (scope_map_refines sample_map _ [] "x" 2 sample_represents) as (H1 & _ & (ok & t & H2 & H3 & _) & _ & u & H4 & H5 & _).
  split; [rewrite H1; vm_compute; reflexivity|]. split; [|rewrite H4 H5; reflexivity]. exists ok, t. split; [exact H2|].
  destruct ok; [|reflexivity]. destruct H3 as [H3 _]. destruct (H3 eq_refl) as [H6 _]. vm_compute in H6. done.
Defined.
