(* ===== verification/Typecheck.v ===== *)
(** * The AIR type checker (source/air/src/typecheck.rs)

    The checker is modelled with its mutable [Typing] state, which the code
    leaves changed when it returns an error.  Error messages are kept as their
    format string with its arguments ([Msg]), and the places the message is
    wrapped at as [InExpr], [InStmt] and [InDecl]. *)

From S2P Require Import Prelude RustString Ast AstUtil.
From S2P Require ScopeMap.
Set Warnings "-rewrite-rw,-register-all,-clear-no-such-hyp".

Inductive DeclaredX :=
| DeclaredX_Type
| DeclaredX_Var (typ : Typ) (mutable : bool)
| DeclaredX_Fun (params : Typs) (ret : Typ) (field_accessor : bool).

(** [message_interface] and [smt_encoding] are used for error messages only. *)
Record Typing := mkTyping {
  decls : ScopeMap.ScopeMap Ident DeclaredX;
  snapshots : gset Ident;
  break_labels_local : gset Ident;
  break_labels_in_scope : ScopeMap.ScopeMap Ident unit
}.

Inductive ErrArg :=
| ArgStr (s : string)
| ArgTyp (t : Typ)
| ArgNum (n : N).

Inductive TypeError :=
| Msg (template : string) (args : list ErrArg)
| InExpr (err : TypeError) (expr : Expr)
| InStmt (err : TypeError) (stmt : Stmt)
| InDecl (err : TypeError) (decl : Decl).

(** ** Computations on the typing state *)

Definition tc (A : Type) := Typing → res TypeError A * Typing.

Definition tret {A} (x : A) : tc A := λ st, (Ok x, st).
Definition terr {A} (template : string) (args : list ErrArg) : tc A :=
  λ st, (Err (Msg template args), st).
Definition tbind {A B} (m : tc A) (k : A → tc B) : tc B := λ st,
  match m st with
  | (Ok x, st') => k x st'
  | (Err e, st') => (Err e, st')
  | (Panic, st') => (Panic, st')
  end.
(** A computation that does not use the state. *)
Definition tlift {A} (r : res TypeError A) : tc A := λ st, (r, st).

Declare Scope tc_scope.
Delimit Scope tc_scope with tc.
Notation "'let!' p ':=' m 'in' k" := (tbind m (λ p, k))
  (at level 10, p pattern, m at level 100, k at level 200) : tc_scope.
Notation "m ';!' k" := (tbind m (λ _, k)) (at level 100, right associativity) : tc_scope.
Local Open Scope tc_scope.

(** [iter().map(f).collect::<Result<Vec<_>, _>>()?], and loops that call [f]. *)
Fixpoint tseq {A} (ms : list (tc A)) : tc (list A) :=
  match ms with
  | [] => tret []
  | m :: ms' => let! x := m in let! xs := tseq ms' in tret (x :: xs)
  end.

(** ** The state *)

Definition get (typing : Typing) (x : Ident) : option DeclaredX := ScopeMap.get (decls typing) x.
Definition get_decl (x : Ident) : tc (option DeclaredX) := λ st, (Ok (get st x), st).

Definition set_decls (st : Typing) d : Typing :=
  mkTyping d (snapshots st) (break_labels_local st) (break_labels_in_scope st).
Definition set_snapshots (st : Typing) s : Typing :=
  mkTyping (decls st) s (break_labels_local st) (break_labels_in_scope st).
Definition set_labels (st : Typing) l b : Typing := mkTyping (decls st) (snapshots st) l b.

Definition insert_decl (x : Ident) (d : DeclaredX) : tc unit := λ st,
  match ScopeMap.insert_sm (decls st) x d with
  | Ok (true, ds) => (Ok tt, set_decls st ds)
  | Ok (false, ds) => (Err (Msg "name {} is already in scope" [ArgStr x]), set_decls st ds)
  | _ => (Panic, st)
  end.

Definition push_decls (allow : bool) : tc unit := λ st,
  (Ok tt, set_decls st (ScopeMap.push_scope (decls st) allow)).
Definition pop_decls : tc unit := λ st,
  match @ScopeMap.pop_scope _ _ _ _ TypeError (decls st) with
  | Ok ds => (Ok tt, set_decls st ds)
  | _ => (Panic, st)
  end.

(** ** Types *)

Definition bt : Typ := TypX_Bool.
Definition it : Typ := TypX_Int.
Definition rt : Typ := TypX_Real.

Definition typ_eq (typ1 typ2 : Typ) : bool := bool_decide (typ1 = typ2).

Definition expect_typ (typ1 typ2 : Typ) (msg : string) : tc unit :=
  if typ_eq typ1 typ2 then tret tt else terr msg [].

Definition check_typ (typ : Typ) : tc unit :=
  match typ with
  | TypX_Bool | TypX_Int | TypX_Real | TypX_Fun | TypX_BitVec _ => tret tt
  | TypX_Named x =>
    let! d := get_decl x in
    match d with
    | Some DeclaredX_Type => tret tt
    | _ => terr "use of undeclared type {}" [ArgStr x]
    end
  | TypX_Float exp_bits sig_bits =>
    if (exp_bits <=? 1)%N || (sig_bits <=? 1)%N
    then terr "unsupported floating point type (_ FloatingPoint {} {})" [ArgNum exp_bits; ArgNum sig_bits]
    else tret tt
  end.

Fixpoint check_typs (typs : list Typ) : tc unit :=
  match typs with [] => tret tt | typ :: typs' => check_typ typ ;! check_typs typs' end.

(** The loop over the arguments, from argument [i]. *)
Fixpoint check_arg_typs (f_name : string) (f_typs arg_typs : list Typ) (i : N) : tc unit :=
  match f_typs, arg_typs with
  | ft :: fts, et :: ets =>
    if typ_eq et ft then check_arg_typs f_name fts ets (i + 1)
    else terr "in call to {}, argument #{} has type {} when it should have type {}"
           [ArgStr f_name; ArgNum (i + 1); ArgTyp et; ArgTyp ft]
  | _, _ => tret tt
  end.

Definition check_has_typs (f_name : string) (f_typs : list Typ) (f_typ : Typ) (arg_typs : list Typ)
    : tc Typ :=
  if negb (Nat.eqb (length f_typs) (length arg_typs))
  then terr "in call to {}, expected {} arguments, found {} arguments"
         [ArgStr f_name; ArgNum (N.of_nat (length f_typs)); ArgNum (N.of_nat (length arg_typs))]
  else check_arg_typs f_name f_typs arg_typs 0 ;! tret f_typ.

(** In the functions below the arguments [exprs] are the computations
    [check_expr typing e] for the argument expressions. *)

Definition check_exprs (f_name : string) (f_typs : list Typ) (f_typ : Typ) (exprs : list (tc Typ))
    : tc Typ :=
  let! arg_typs := tseq exprs in check_has_typs f_name f_typs f_typ arg_typs.

Definition check_exprs_int_or_real (f_name : string) (n_f_typs : nat) (f_typ : option Typ)
    (exprs : list (tc Typ)) : tc Typ :=
  let! arg_typs := tseq exprs in
  let scalar_typ := match arg_typs with TypX_Real :: _ => rt | _ => it end in
  let f_typ := default scalar_typ f_typ in
  check_has_typs f_name (repeat scalar_typ n_f_typs) f_typ arg_typs.

Definition get_bv_width (et : Typ) : tc N :=
  match et with TypX_BitVec size => tret size | _ => terr "not a bit vector type" [] end.

(** ** Operators *)

Section checker.
(** [oc]: whether [u32] arithmetic is overflow-checked. *)
Context (oc : bool).

Definition check_bv_unary_exprs (op : UnaryOp) (f_name : string) (expr : tc Typ) : tc Typ :=
  match op with
  | UnaryOp_BitExtract high lo =>
    let! t0 := expr in
    let! w_old := get_bv_width t0 in
    let! high1 := tlift (u32_add oc high 1) in
    if (w_old <? high1)%N
    then terr "Interner Error: bit-vec extract to a longer size. {} to {} " [ArgNum w_old; ArgNum high]
    else if (high <? lo)%N
    then terr "Interner Error: bit-vec extract has lo > high. {} to {} " [ArgNum lo; ArgNum high]
    else let! w := tlift (u32_sub oc high1 lo) in tret (TypX_BitVec w)
  | UnaryOp_BitNot | UnaryOp_BitNeg =>
    let! t0 := expr in
    match t0 with
    | TypX_BitVec _ => tret t0
    | _ => terr "Interner Error: not a bv type inside a bvnot" []
    end
  | UnaryOp_BitZeroExtend n | UnaryOp_BitSignExtend n =>
    let! t0 := expr in
    match t0 with
    | TypX_BitVec m => let! w := tlift (u32_add oc n m) in tret (TypX_BitVec w)
    | _ => terr "Interner Error: not a bv type inside a {}" [ArgStr f_name]
    end
  | _ => terr "Interner Error: not a bv unary op, got {}" [ArgStr f_name]
  end.

Definition check_bv_exprs (bop : BinaryOp) (f_name : string) (expr0 expr1 : tc Typ) : tc Typ :=
  let! t0 := expr0 in
  let! t1 := expr1 in
  let! w0 := get_bv_width t0 in
  let! w1 := get_bv_width t1 in
  if bool_decide (BinaryOp_BitConcat = bop)
  then let! w := tlift (u32_add oc w0 w1) in tret (TypX_BitVec w)
  else if negb (w0 =? w1)%N
  then terr "in call to {}, arguments should have the same width, but got {} and {}"
         [ArgStr f_name; ArgNum w0; ArgNum w1]
  else match bop with
    | BinaryOp_BitUGe | BinaryOp_BitULe | BinaryOp_BitUGt | BinaryOp_BitULt => tret bt
    | BinaryOp_BitSGe | BinaryOp_BitSLe | BinaryOp_BitSGt | BinaryOp_BitSLt => tret bt
    | _ => tret t0
    end.

Definition check_float_unary_exprs (op : UnaryOp) (f_name : string) (expr : tc Typ) : tc Typ :=
  let! t0 := expr in
  match t0 with
  | TypX_Float exp_bits sig_bits =>
    match op with
    | UnaryOp_FloatNeg => tret t0
    | UnaryOp_FloatRoundToInt _ => tret t0
    | UnaryOp_FloatIsNormal | UnaryOp_FloatIsSubnormal | UnaryOp_FloatIsZero
    | UnaryOp_FloatIsInfinite | UnaryOp_FloatIsNaN | UnaryOp_FloatIsNegative
    | UnaryOp_FloatIsPositive => tret bt
    | UnaryOp_FloatToBitVec bits _ _ => tret (TypX_BitVec bits)
    | UnaryOp_FloatToIeeeBits =>
      let! w := tlift (u32_add oc exp_bits sig_bits) in tret (TypX_BitVec w)
    | UnaryOp_FloatToReal => tret rt
    | _ => tlift Panic
    end
  | _ => terr "in call to {}, expected a floating point argument, but got {}"
           [ArgStr f_name; ArgTyp t0]
  end.

Definition check_float_exprs (bop : BinaryOp) (f_name : string) (expr0 expr1 : tc Typ) : tc Typ :=
  let! t0 := expr0 in
  let! t1 := expr1 in
  let err := terr "in call to {}, expected both arguments to have the same floating point type, but got {} and {}"
               [ArgStr f_name; ArgTyp t0; ArgTyp t1] in
  match t0, t1 with
  | TypX_Float exp_bits0 sig_bits0, TypX_Float exp_bits1 sig_bits1 =>
    if (exp_bits0 =? exp_bits1)%N && (sig_bits0 =? sig_bits1)%N then
      match bop with
      | BinaryOp_FloatEq | BinaryOp_FloatLt | BinaryOp_FloatGt | BinaryOp_FloatLe
      | BinaryOp_FloatGe => tret bt
      | BinaryOp_FloatAdd _ | BinaryOp_FloatSub _ | BinaryOp_FloatMul _ | BinaryOp_FloatDiv _ => tret t0
      | _ => tlift Panic
      end
    else err
  | _, _ => err
  end.
End checker.

(** ** Expressions

    In [check_expr], [check_stmt] and [check_decl] the [match] computes a
    [result] whose error is then wrapped, while [?] inside an arm returns from
    the function with the error as it is. *)

(** The outcome of a call as the value [result]. *)
Definition as_result {A} (m : tc A) : tc (res TypeError A) := λ st,
  match m st with
  | (Panic, st') => (Panic, st')
  | (r, st') => (Ok r, st')
  end.
Definition rok {A} (x : A) : tc (res TypeError A) := tret (Ok x).
Definition rerr {A} (template : string) (args : list ErrArg) : tc (res TypeError A) :=
  tret (Err (Msg template args)).

Definition wrap_error {A} (f : TypeError → TypeError) (m : tc (res TypeError A)) : tc A :=
  let! r := m in
  tlift match r with Ok x => Ok x | Err err => Err (f err) | Panic => Panic end.

Definition insert_binder (b : BinderX Typ) : tc unit :=
  insert_decl (bname b) (DeclaredX_Var (ba b) false).

(** [for e in &exprs[1..] { expect_typ(&check_expr(typing, e)?, &t0, msg)?; }] *)
Fixpoint check_same (t0 : Typ) (msg : string) (exprs : list (tc Typ)) : tc unit :=
  match exprs with
  | [] => tret tt
  | e :: exprs' => let! tk := e in expect_typ tk t0 msg ;! check_same t0 msg exprs'
  end.
Definition check_all_same (msg : string) (exprs : list (tc Typ)) : tc unit :=
  match exprs with
  | [] => tret tt
  | e0 :: exprs' => let! t0 := e0 in check_same t0 msg exprs'
  end.

Fixpoint tseq_ (ms : list (tc unit)) : tc unit :=
  match ms with [] => tret tt | m :: ms' => m ;! tseq_ ms' end.

(** The type of the function [x], from [typing.get(x)]. *)
Definition get_fun (x : Ident) (err : TypeError) : tc (res TypeError (Typs * Typ)) :=
  let! d := get_decl x in
  match d with
  | Some (DeclaredX_Fun params ret _) => rok (params, ret)
  | _ => tret (Err err)
  end.

Definition unary_name (op : UnaryOp) : string :=
  match op with
  | UnaryOp_BitNot => "bvnot"
  | UnaryOp_BitNeg => "bvneg"
  | UnaryOp_BitExtract _ _ => "extract"
  | UnaryOp_BitZeroExtend _ => "zero_extend"
  | UnaryOp_BitSignExtend _ => "sign_extend"
  | UnaryOp_FloatNeg => "float_neg"
  | UnaryOp_FloatRoundToInt _ => "float_round_to_int"
  | UnaryOp_FloatIsNormal => "float_is_normal"
  | UnaryOp_FloatIsSubnormal => "float_is_subnormal"
  | UnaryOp_FloatIsZero => "float_is_zero"
  | UnaryOp_FloatIsInfinite => "float_is_infinite"
  | UnaryOp_FloatIsNaN => "float_is_nan"
  | UnaryOp_FloatIsNegative => "float_is_negative"
  | UnaryOp_FloatIsPositive => "float_is_positive"
  | UnaryOp_FloatToBitVec _ _ _ => "float_to_bitvec"
  | UnaryOp_FloatToIeeeBits => "float_to_ieee_bits"
  | UnaryOp_FloatToReal => "float_to_real"
  | _ => ""
  end.

(** The arms [ExprX::Unary(op, e1)]; [e1] is the computation [check_expr(typing, e1)]. *)
Definition check_unary (oc : bool) (op : UnaryOp) (e1 : tc Typ) : tc (res TypeError Typ) :=
  match op with
  | UnaryOp_Not => as_result (check_exprs "not" [bt] bt [e1])
  | UnaryOp_BitNot | UnaryOp_BitNeg | UnaryOp_BitExtract _ _ | UnaryOp_BitZeroExtend _
  | UnaryOp_BitSignExtend _ => as_result (check_bv_unary_exprs oc op (unary_name op) e1)
  | UnaryOp_FloatFromIeeeBits exp_bits sig_bits =>
    let! t1 := e1 in
    let! bits := tlift (u32_add oc exp_bits sig_bits) in
    let err := rerr "in float_from_ieee_bits, expected argument of type (_ BitVec {}) but found {}"
                 [ArgNum bits; ArgTyp t1] in
    match t1 with
    | TypX_BitVec n => if (n =? bits)%N then rok (TypX_Float exp_bits sig_bits) else err
    | _ => err
    end
  | UnaryOp_FloatFrom exp_bits sig_bits signed _ =>
    let! t1 := e1 in
    let tf := TypX_Float exp_bits sig_bits in
    match t1, signed with
    | TypX_Real, true => rok tf
    | TypX_Float _ _, true => rok tf
    | TypX_BitVec _, _ => rok tf
    | _, _ => rerr "in float_from, expected argument of type Real or BitVec but found {}" [ArgTyp t1]
    end
  | UnaryOp_ToReal => as_result (check_exprs "to_real" [it] rt [e1])
  | UnaryOp_RealToInt => as_result (check_exprs "to_int" [rt] it [e1])
  | _ => as_result (check_float_unary_exprs oc op (unary_name op) e1)
  end.

Definition binary_name (op : BinaryOp) : string :=
  match op with
  | BinaryOp_BitULt => "bvlt" | BinaryOp_BitUGt => "bvgt" | BinaryOp_BitULe => "bvle"
  | BinaryOp_BitUGe => "bvge" | BinaryOp_BitSLt => "bvslt" | BinaryOp_BitSGt => "bvsgt"
  | BinaryOp_BitSLe => "bvsle" | BinaryOp_BitSGe => "bvsge" | BinaryOp_BitXor => "^"
  | BinaryOp_BitURem => "bvurem" | BinaryOp_BitAnd => "&" | BinaryOp_BitOr => "|"
  | BinaryOp_BitAdd => "bvadd" | BinaryOp_BitSub => "bvsub" | BinaryOp_BitMul => "bvmul"
  | BinaryOp_BitUDiv => "bvudiv" | BinaryOp_BitSDiv => "bvsdiv" | BinaryOp_BitSRem => "bvsrem"
  | BinaryOp_LShr => ">> (lshr)" | BinaryOp_AShr => ">> (ashr)" | BinaryOp_Shl => "<<"
  | BinaryOp_BitConcat => "concat"
  | BinaryOp_FloatAdd _ => "float_add" | BinaryOp_FloatSub _ => "float_sub"
  | BinaryOp_FloatMul _ => "float_mul" | BinaryOp_FloatDiv _ => "float_div"
  | BinaryOp_FloatEq => "float_eq" | BinaryOp_FloatLt => "float_lt" | BinaryOp_FloatLe => "float_le"
  | BinaryOp_FloatGt => "float_gt" | BinaryOp_FloatGe => "float_ge"
  | _ => ""
  end.

(** The arm [FieldUpdate] after both types are known. *)
Definition check_field_update (field_ident : Ident) (t1 t2 : Typ) : tc (res TypeError Typ) :=
  let not_datatype := terr "in field update, the destination is not a datatype" [] in
  match t1 with
  | TypX_Named s =>
    let! d := get_decl s in
    match d with
    | Some DeclaredX_Type =>
      let! f := get_decl field_ident in
      match f with
      | Some (DeclaredX_Fun params ret true) =>
        match params with
        | [s1] =>
          if bool_decide (t1 ≠ s1) then
            rerr "in field-update, argument type {:?} does not match datatype type {:?}" [ArgTyp t1; ArgTyp s1]
          else if bool_decide (t2 ≠ ret) then
            rerr "in field-update, type of new value ({:?}) does not match field type {:?}" [ArgTyp t2; ArgTyp ret]
          else rok t1
        | _ => rerr "field accessor {:?} should only have one parameter" [ArgStr field_ident]
        end
      | _ => rerr "cannot find field accessor {:?}" [ArgStr field_ident]
      end
    | _ => not_datatype
    end
  | _ => not_datatype
  end.

(** The arms [ExprX::Binary(op, e1, e2)]. *)
Definition check_binary (oc : bool) (op : BinaryOp) (e1 e2 : tc Typ) : tc (res TypeError Typ) :=
  let eq_result (what : string) :=
    let! t1 := e1 in
    let! t2 := e2 in
    if typ_eq t1 t2 then rok bt
    else rerr "in {}, left expression has type {} and right expression has different type {}"
           [ArgStr what; ArgTyp t1; ArgTyp t2] in
  match op with
  | BinaryOp_Implies => as_result (check_exprs "=>" [bt; bt] bt [e1; e2])
  | BinaryOp_Eq => eq_result "equality"
  | BinaryOp_Relation _ _ => eq_result "relation"
  | BinaryOp_FieldUpdate field_ident =>
    let! t1 := e1 in let! t2 := e2 in check_field_update field_ident t1 t2
  | BinaryOp_Le => as_result (check_exprs_int_or_real "<=" 2 (Some bt) [e1; e2])
  | BinaryOp_Ge => as_result (check_exprs_int_or_real ">=" 2 (Some bt) [e1; e2])
  | BinaryOp_Lt => as_result (check_exprs_int_or_real "<" 2 (Some bt) [e1; e2])
  | BinaryOp_Gt => as_result (check_exprs_int_or_real ">" 2 (Some bt) [e1; e2])
  | BinaryOp_EuclideanDiv => as_result (check_exprs "div" [it; it] it [e1; e2])
  | BinaryOp_EuclideanMod => as_result (check_exprs "mod" [it; it] it [e1; e2])
  | BinaryOp_RealDiv => as_result (check_exprs "/" [rt; rt] rt [e1; e2])
  | BinaryOp_FloatAdd _ | BinaryOp_FloatSub _ | BinaryOp_FloatMul _ | BinaryOp_FloatDiv _
  | BinaryOp_FloatEq | BinaryOp_FloatLt | BinaryOp_FloatLe | BinaryOp_FloatGt | BinaryOp_FloatGe =>
    as_result (check_float_exprs op (binary_name op) e1 e2)
  | _ => as_result (check_bv_exprs oc op (binary_name op) e1 e2)
  end.

(** The arms [ExprX::Multi(op, exprs)]. *)
Definition check_multi (oc : bool) (op : MultiOp) (exprs : list (tc Typ)) : tc (res TypeError Typ) :=
  match op with
  | MultiOp_Float =>
    match exprs with
    | [e0; e1; e2] =>
      let! sign := e0 in
      let! exp := e1 in
      let! sig := e2 in
      let err := rerr "in floating point constructor, expected arguments of type (BitVec 1), (BitVec exp_bits), (BitVec sig1_bits) with exp_bits > 1 and sig1_bits > 0, but found {}, {}, {}"
                   [ArgTyp sign; ArgTyp exp; ArgTyp sig] in
      match sign, exp, sig with
      | TypX_BitVec w, TypX_BitVec exp_bits, TypX_BitVec sig1_bits =>
        if (w =? 1)%N && (1 <? exp_bits)%N && (0 <? sig1_bits)%N then
          let! sig_bits := tlift (u32_add oc sig1_bits 1) in rok (TypX_Float exp_bits sig_bits)
        else err
      | _, _, _ => err
      end
    | _ => rerr "floating point constructor expects 3 arguments, found {}"
             [ArgNum (N.of_nat (length exprs))]
    end
  | MultiOp_Distinct =>
    check_all_same "arguments to distinct must all have same type" exprs ;! rok bt
  | MultiOp_Add => as_result (check_exprs_int_or_real "+" (length exprs) None exprs)
  | MultiOp_Sub => as_result (check_exprs_int_or_real "-" (length exprs) None exprs)
  | MultiOp_Mul => as_result (check_exprs_int_or_real "*" (length exprs) None exprs)
  | MultiOp_And => as_result (check_exprs "and" (map (λ _, bt) exprs) bt exprs)
  | MultiOp_Or => as_result (check_exprs "or" (map (λ _, bt) exprs) bt exprs)
  | MultiOp_Xor => as_result (check_exprs "xor" (map (λ _, bt) exprs) bt exprs)
  end.

(** The wrapper function of a lambda, checked outside the binders' scope. *)
Definition check_wrap (w : Ident) (t_id : Typ) : tc unit :=
  let! d := get_decl w in
  match d with
  | Some (DeclaredX_Fun params ret _) =>
    if negb (typ_eq ret TypX_Fun)
    then terr "in lambda, wrapper {} returns type {} instead of Fun" [ArgStr w; ArgTyp ret]
    else check_has_typs w params ret [t_id; ret] ;! tret tt
  | _ => terr "use of undeclared function {}" [ArgStr w]
  end.

Fixpoint check_expr (oc : bool) (expr : Expr) {struct expr} : tc Typ :=
  let check := check_expr oc in
  let check_triggers (ts : list (list Expr)) : tc unit :=
    tseq_ (map (λ t, tseq_ (map (λ e, check e ;! tret tt) t)) ts) in
  let check_cond (what : string) (e2 : tc Typ) : tc unit :=
    let! t2 := e2 in
    if negb (typ_eq t2 bt)
    then terr "in {} has type {} instead of Bool" [ArgStr what; ArgTyp t2] else tret tt in
  wrap_error (λ err, InExpr err expr)
    match expr with
    | ExprX_Const (Constant_Bool _) => rok TypX_Bool
    | ExprX_Const (Constant_Nat _) => rok TypX_Int
    | ExprX_Const (Constant_Real _) => rok TypX_Real
    | ExprX_Const (Constant_BitVec _ width) => rok (TypX_BitVec width)
    | ExprX_Var x =>
      let! d := get_decl x in
      match d with
      | Some (DeclaredX_Var typ _) => rok typ
      | _ => rerr "use of undeclared variable {}" [ArgStr x]
      end
    | ExprX_Old snap x => λ st,
      if decide (snap ∈ snapshots st) then
        match get st x with
        | Some (DeclaredX_Var typ _) => rok typ st
        | _ => rerr "use of undeclared variable {}" [ArgStr x] st
        end
      else rerr "use of undeclared snapshot {}" [ArgStr snap] st
    | ExprX_Apply x es =>
      let! f := get_fun x (Msg "use of undeclared function {}" [ArgStr x]) in
      match f with
      | Ok (params, ret) => as_result (check_exprs x params ret (map check es))
      | Err err => tret (Err err)
      | Panic => tlift Panic
      end
    | ExprX_ApplyFun t e0 es =>
      let! t0 := check e0 in
      match t0 with
      | TypX_Fun => tseq_ (map (λ e, check e ;! tret tt) es) ;! rok t
      | _ => rerr "expected function type" []
      end
    | ExprX_Unary op e1 => check_unary oc op (check e1)
    | ExprX_Binary op e1 e2 => check_binary oc op (check e1) (check e2)
    | ExprX_Multi op exprs => check_multi oc op (map check exprs)
    | ExprX_IfElse e1 e2 e3 =>
      let! t1 := check e1 in
      let! t2 := check e2 in
      let! t3 := check e3 in
      if negb (typ_eq t1 bt)
      then rerr "in if/then/else, condition has type {} instead of Bool" [ArgTyp t1]
      else if negb (typ_eq t2 t3)
      then rerr "in if/then/else, left expression has type {} and right expression has different type {}"
             [ArgTyp t2; ArgTyp t3]
      else rok t2
    | ExprX_Array exprs =>
      check_all_same "arguments to array must all have same type" (map check exprs) ;!
      rok TypX_Fun
    | ExprX_Bind bind e1 =>
      let! binders :=
        match bind with
        | BindX_Let bs =>
          tseq (map (λ b, let! typ := check (ba b) in tret (mkBinder (bname b) typ)) bs)
        | BindX_Quant _ binders _ _ => tret binders
        | BindX_Lambda binders _ _ _ _ => tret binders
        | BindX_Choose binders _ _ _ => tret binders
        end in
      match bind with
      | BindX_Lambda _ _ _ (Some w) _ => let! t_id := check (wrap_id w) in check_wrap (wrap w) t_id
      | _ => tret tt
      end ;!
      push_decls true ;!
      tseq_ (map insert_binder binders) ;!
      match bind with
      | BindX_Let _ => tret tt
      | BindX_Quant _ _ triggers _ => check_triggers triggers
      | BindX_Choose _ triggers _ _ => check_triggers triggers
      | BindX_Lambda _ triggers _ _ _ => check_triggers triggers
      end ;!
      match bind with
      | BindX_Lambda _ _ _ _ (Some e2) => check_cond "lambda, condition" (check e2)
      | BindX_Choose _ _ _ e2 => check_cond "choose, body" (check e2)
      | _ => tret tt
      end ;!
      let! t1 := check e1 in
      let! tb :=
        match bind with
        | BindX_Let _ => tret t1
        | BindX_Quant _ _ _ _ =>
          expect_typ t1 bt "forall/exists body must have type bool" ;! tret t1
        | BindX_Lambda _ _ _ _ _ => tret TypX_Fun
        | BindX_Choose _ _ _ _ => tret t1
        end in
      pop_decls ;!
      rok tb
    | ExprX_LabeledAssertion _ _ _ expr => as_result (check expr)
    | ExprX_LabeledAxiom _ _ expr => as_result (check expr)
    end.

(** ** Statements *)

Definition check_mutable (x : Ident) (k : Typ → tc (res TypeError unit)) : tc (res TypeError unit) :=
  let! d := get_decl x in
  match d with
  | Some (DeclaredX_Var typ mutable) =>
    if negb mutable then rerr "cannot assign to const variable {}" [ArgStr x] else k typ
  | _ => rerr "assignment to undeclared variable {}" [ArgStr x]
  end.

(** The [Breakable] arm around the check of the body. *)
Definition check_breakable (label : Ident) (body : tc unit) : tc (res TypeError unit) := λ st,
  if decide (label ∈ break_labels_local st) then
    rerr "break label '{}' declared more than once in same query" [ArgStr label] st
  else
    let st := set_labels st ({[label]} ∪ break_labels_local st)
                (ScopeMap.push_scope (break_labels_in_scope st) false) in
    match ScopeMap.insert_sm (break_labels_in_scope st) label tt with
    | Ok (true, b) =>
      (body ;! λ st,
        match @ScopeMap.pop_scope _ _ _ _ TypeError (break_labels_in_scope st) with
        | Ok b => rok tt (set_labels st (break_labels_local st) b)
        | _ => (Panic, st)
        end) (set_labels st (break_labels_local st) b)
    | _ => (Panic, st)
    end.

Section switch.
Context (check : Stmt → tc unit).
(** Snapshots taken in a branch are dropped after it. *)
Fixpoint check_branches (saved : gset Ident) (stmts : list Stmt) : tc unit :=
  match stmts with
  | [] => tret tt
  | s :: stmts' =>
    check s ;! (λ st, (Ok tt, set_snapshots st saved)) ;! check_branches saved stmts'
  end.
End switch.

Fixpoint check_stmt (oc : bool) (stmt : Stmt) {struct stmt} : tc unit :=
  wrap_error (λ err, InStmt err stmt)
    match stmt with
    | StmtX_Assume expr =>
      let! t := check_expr oc expr in
      as_result (expect_typ t bt "assume statement expects expression of type bool")
    | StmtX_Assert _ _ _ expr =>
      let! t := check_expr oc expr in
      as_result (expect_typ t bt "assert statement expects expression of type bool")
    | StmtX_Havoc x => check_mutable x (λ _, rok tt)
    | StmtX_Assign x expr =>
      check_mutable x (λ typ,
        let! t_expr := check_expr oc expr in
        if negb (typ_eq t_expr typ)
        then rerr "in assignment, {} has type {}, while expression has type {}"
               [ArgStr x; ArgTyp typ; ArgTyp t_expr]
        else rok tt)
    | StmtX_Snapshot snap => λ st, rok tt (set_snapshots st ({[snap]} ∪ snapshots st))
    | StmtX_DeadEnd s => as_result (check_stmt oc s)
    | StmtX_Block stmts => tseq_ (map (check_stmt oc) stmts) ;! rok tt
    | StmtX_Breakable label s => check_breakable label (check_stmt oc s)
    | StmtX_Break label => λ st,
      if ScopeMap.contains_key (break_labels_in_scope st) label then rok tt st
      else rerr "break label '{}' not in scope" [ArgStr label] st
    | StmtX_Switch stmts => λ st,
      (check_branches (check_stmt oc) (snapshots st) stmts ;! rok tt) st
    end.

(** ** Declarations and queries

    The rewriting of the checked declaration or statement by closure.rs is not
    part of these definitions. *)

Definition check_decl (oc : bool) (decl : Decl) : tc unit :=
  wrap_error (λ err, InDecl err decl)
    match decl with
    | DeclX_Sort _ => rok tt
    | DeclX_Datatypes _ => rok tt
    | DeclX_Const _ typ => as_result (check_typ typ)
    | DeclX_Fun _ typs typ => as_result (check_typs (typs ++ [typ]))
    | DeclX_Var _ typ => as_result (check_typ typ)
    | DeclX_Axiom ax =>
      let! t := check_expr oc (expr ax) in
      as_result (expect_typ t bt "axiom expects expression of type bool")
    end.

Definition add_field (typ : Typ) (field : Field) : tc unit :=
  check_typ (ba field) ;!
  insert_decl (bname field) (DeclaredX_Fun [typ] (ba field) true).

Definition add_variant (typ : Typ) (variant : Variant) : tc unit :=
  insert_decl (bname variant) (DeclaredX_Fun (map ba (ba variant)) typ false) ;!
  insert_decl ("is-" +:+ bname variant) (DeclaredX_Fun [typ] bt false) ;!
  tseq_ (map (add_field typ) (ba variant)).

Definition add_decl (decl : Decl) (is_global : bool) : tc unit :=
  match decl with
  | DeclX_Sort x => insert_decl x DeclaredX_Type
  | DeclX_Datatypes datatypes =>
    tseq_ (map (λ d : Datatype, insert_decl (bname d) DeclaredX_Type) datatypes) ;!
    tseq_ (map (λ d : Datatype, tseq_ (map (add_variant (TypX_Named (bname d))) (ba d))) datatypes)
  | DeclX_Const x typ => insert_decl x (DeclaredX_Var typ false)
  | DeclX_Fun x typs typ => insert_decl x (DeclaredX_Fun typs typ false)
  | DeclX_Var x typ =>
    if is_global then terr "declare-var {} not allowed in global scope" [ArgStr x]
    else insert_decl x (DeclaredX_Var typ true)
  | DeclX_Axiom _ => tret tt
  end.

(** [check_query]; [context.push_name_scope] opens a scope without shadowing. *)
Definition check_query (oc : bool) (query : Query) : tc unit :=
  push_decls false ;!
  tseq_ (map (λ d, check_decl oc d ;! add_decl d false) (local query)) ;!
  (λ st, (Ok tt, mkTyping (decls st) ∅ ∅ (break_labels_in_scope st))) ;!
  check_stmt oc (assertion query) ;!
  pop_decls.
