(* ===== verification/TypecheckFacts.v ===== *)
(** * Facts about the type checker

    A successful check leaves the typing state as it was, apart from the
    snapshots and the labels of the query; it makes sure that break labels are
    declared once and used in scope, and that only variables are assigned. *)

From S2P Require Import Prelude RustString Ast AstUtil StmtFacts Typecheck.
From S2P Require ScopeMap.
Set Warnings "-rewrite-rw,-register-all,-clear-no-such-hyp".
Local Open Scope tc_scope.
Implicit Types (st : Typing).

(** ** Successful computations *)

Lemma tbind_ok {A B} (m : tc A) (k : A → tc B) st y st' :
  tbind m k st = (Ok y, st') → ∃ x st1, m st = (Ok x, st1) ∧ k x st1 = (Ok y, st').
Proof. unfold tbind. destruct (m st) as [[x|e|] st1]; intros H; try done. by eexists _, _. Qed.

Lemma wrap_error_ok {A} f (m : tc (res TypeError A)) st x st' :
  wrap_error f m st = (Ok x, st') → m st = (Ok (Ok x), st').
Proof.
  unfold wrap_error. intros (r & st1 & Hm & H)%tbind_ok. rewrite Hm. unfold tlift in H.
  destruct r as [y|e|]; try done. by injection H as -> ->.
Qed.

Lemma as_result_ok {A} (m : tc A) st x st' :
  as_result m st = (Ok (Ok x), st') → m st = (Ok x, st').
Proof. unfold as_result. destruct (m st) as [[y|e|] st1]; intros H; try done. by injection H as -> ->. Qed.

Ltac tinv H :=
  let x := fresh "x" in let st := fresh "st" in let Hm := fresh "Hm" in
  apply tbind_ok in H as (x & st & Hm & H).

(** ** Computations that leave the state unchanged *)

Definition in_scopes (st : Typing) : Prop := ∃ fs, ScopeMap.represents (decls st) fs.

Definition stable {A} (m : tc A) : Prop := ∀ st x st',
  in_scopes st → m st = (Ok x, st') → st' = st.
Definition rstable {A} (m : tc (res TypeError A)) : Prop := ∀ st x st',
  in_scopes st → m st = (Ok (Ok x), st') → st' = st.

Create HintDb tc.

Section stable.
Context {A B : Type}.

Lemma stable_tret (x : A) : stable (tret x).
Proof. by intros st y st' _ [= _ <-]. Qed.
Lemma stable_terr s args : stable (@terr A s args).
Proof. by intros st y st' _ [=]. Qed.
Lemma stable_tlift (r : res TypeError A) : stable (tlift r).
Proof. by intros st y st' _ [= _ <-]. Qed.
Lemma stable_tbind (m : tc A) (k : A → tc B) : stable m → (∀ x, stable (k x)) → stable (tbind m k).
Proof. intros Hm Hk st y st' Hs H. tinv H. apply Hm in Hm0 as ->; [|done]. by eapply Hk. Qed.
Lemma stable_get_decl x : stable (get_decl x).
Proof. by intros st y st' _ [= _ <-]. Qed.
Lemma stable_wrap f (m : tc (res TypeError A)) : rstable m → stable (wrap_error f m).
Proof. intros Hm st y st' Hs H%wrap_error_ok. by eapply Hm. Qed.

Lemma rstable_rok (x : A) : rstable (rok x).
Proof. by intros st y st' _ [= _ <-]. Qed.
Lemma rstable_rerr s args : rstable (@rerr A s args).
Proof. by intros st y st' _ [=]. Qed.
Lemma rstable_err e : rstable (tret (@Err TypeError A e)).
Proof. by intros st y st' _ [=]. Qed.
Lemma rstable_terr s args : rstable (@terr (res TypeError A) s args).
Proof. by intros st y st' _ [=]. Qed.
Lemma rstable_panic : rstable (@tlift (res TypeError A) Panic).
Proof. by intros st y st' _ [=]. Qed.
Lemma rstable_as_result (m : tc A) : stable m → rstable (as_result m).
Proof. intros Hm st y st' Hs H%as_result_ok. by eapply Hm. Qed.
Lemma rstable_tbind (m : tc B) (k : B → tc (res TypeError A)) :
  stable m → (∀ x, rstable (k x)) → rstable (tbind m k).
Proof. intros Hm Hk st y st' Hs H. tinv H. apply Hm in Hm0 as ->; [|done]. by eapply Hk. Qed.
End stable.

#[export] Hint Resolve stable_tret stable_terr stable_tlift stable_tbind stable_get_decl stable_wrap
  rstable_rok rstable_rerr rstable_err rstable_terr rstable_panic rstable_as_result rstable_tbind : tc.

Lemma stable_tseq {A} (ms : list (tc A)) : Forall stable ms → stable (tseq ms).
Proof. induction 1; simpl; auto with tc. Qed.
Lemma stable_tseq_ (ms : list (tc unit)) : Forall stable ms → stable (tseq_ ms).
Proof. induction 1; simpl; auto with tc. Qed.
#[export] Hint Resolve stable_tseq stable_tseq_ : tc.

(** Reduces [stable] of a [match] to its branches. *)
Ltac stable_cases := repeat first
  [ progress intros
  | apply stable_tbind | apply rstable_tbind | apply rstable_as_result
  | match goal with |- stable (match ?x with _ => _ end) => destruct x end
  | match goal with |- rstable (match ?x with _ => _ end) => destruct x end
  | progress auto with tc ].

Lemma stable_expect_typ t1 t2 msg : stable (expect_typ t1 t2 msg).
Proof. unfold expect_typ. stable_cases. Qed.
Lemma stable_check_typ t : stable (check_typ t).
Proof. unfold check_typ. stable_cases. Qed.
Lemma stable_check_typs ts : stable (check_typs ts).
Proof. induction ts; simpl; stable_cases. apply stable_check_typ. Qed.
Lemma stable_check_arg_typs f fts ets i : stable (check_arg_typs f fts ets i).
Proof. revert ets i. induction fts; intros ets i; destruct ets; simpl; stable_cases. Qed.
Lemma stable_check_has_typs f fts t ets : stable (check_has_typs f fts t ets).
Proof. unfold check_has_typs. stable_cases. apply stable_check_arg_typs. Qed.
#[export] Hint Resolve stable_expect_typ stable_check_typ stable_check_typs stable_check_has_typs : tc.

Lemma stable_check_exprs f fts t ms : Forall stable ms → stable (check_exprs f fts t ms).
Proof. intros. unfold check_exprs. auto with tc. Qed.
Lemma stable_check_exprs_int f n t ms : Forall stable ms → stable (check_exprs_int_or_real f n t ms).
Proof. intros. unfold check_exprs_int_or_real. stable_cases. Qed.
Lemma stable_get_bv_width t : stable (get_bv_width t).
Proof. unfold get_bv_width. stable_cases. Qed.
#[export] Hint Resolve stable_check_exprs stable_check_exprs_int stable_get_bv_width : tc.

Lemma stable_check_same t0 msg ms : Forall stable ms → stable (check_same t0 msg ms).
Proof. induction 1; simpl; stable_cases. Qed.
Lemma stable_check_all_same msg ms : Forall stable ms → stable (check_all_same msg ms).
Proof. destruct 1; simpl; stable_cases. by apply stable_check_same. Qed.
Lemma stable_check_wrap w t : stable (check_wrap w t).
Proof. unfold check_wrap. stable_cases. Qed.
#[export] Hint Resolve stable_check_all_same stable_check_wrap : tc.

Lemma stable_get_fun x err : stable (get_fun x err).
Proof.
  intros st y st' _ H. unfold get_fun in H. tinv H. injection Hm as _ <-.
  by destruct x0 as [[]|]; injection H as _ <-.
Qed.

Lemma Forall_one {A} (P : A → Prop) x : P x → Forall P [x].
Proof. by repeat constructor. Qed.
Lemma Forall_two {A} (P : A → Prop) x y : P x → P y → Forall P [x; y].
Proof. by repeat constructor. Qed.
#[export] Hint Resolve Forall_one Forall_two : tc.

Lemma rstable_check_unary oc op m : stable m → rstable (check_unary oc op m).
Proof.
  intros Hm. destruct op; unfold check_unary, check_bv_unary_exprs, check_float_unary_exprs;
    stable_cases.
Qed.
Lemma rstable_check_binary oc op m1 m2 : stable m1 → stable m2 → rstable (check_binary oc op m1 m2).
Proof.
  intros Hm1 Hm2. destruct op; unfold check_binary, check_bv_exprs, check_float_exprs,
    check_field_update; stable_cases.
Qed.
Lemma rstable_check_multi oc op ms : Forall stable ms → rstable (check_multi oc op ms).
Proof.
  intros Hms. destruct op; unfold check_multi; try solve [stable_cases].
  destruct Hms as [|m0 ms Hm0 [|m1 ms' Hm1 [|m2 ms'' Hm2 []]]]; stable_cases.
Qed.

(** ** Scopes of bound variables *)

Lemma set_decls_same st : set_decls st (decls st) = st.
Proof. by destruct st. Qed.

Lemma insert_decl_ok x d st u st' : insert_decl x d st = (Ok u, st') →
  ScopeMap.insert_sm (decls st) x d = Ok (true, decls st') ∧ st' = set_decls st (decls st').
Proof.
  unfold insert_decl. destruct (ScopeMap.insert_sm _ _ _) as [[[] ds]|e|]; intros H; try done.
  by injection H as _ <-.
Qed.

Lemma insert_binders_ok bs : ∀ st u st', tseq_ (map insert_binder bs) st = (Ok u, st') →
  ScopeMap.session (decls st) (decls st') ∧ st' = set_decls st (decls st').
Proof.
  enough (∀ st0 st u st', ScopeMap.session (decls st0) (decls st) → st = set_decls st0 (decls st) →
    tseq_ (map insert_binder bs) st = (Ok u, st') →
    ScopeMap.session (decls st0) (decls st') ∧ st' = set_decls st0 (decls st')) as Hgen.
  { intros st u st'. apply Hgen; [constructor|]. by rewrite set_decls_same. }
  induction bs as [|b bs IH]; intros st0 st u st' Hs He H; simpl in H.
  - injection H as _ <-. done.
  - tinv H. apply insert_decl_ok in Hm as [Hi Hst]. eapply IH; [| |exact H].
    + by eapply ScopeMap.session_insert.
    + rewrite He in Hst. by destruct st0.
Qed.

Definition entered st bs st' : Prop :=
  tseq_ (map insert_binder bs) (set_decls st (ScopeMap.push_scope (decls st) true)) = (Ok tt, st').

Lemma entered_scopes st bs st' : in_scopes st → entered st bs st' →
  in_scopes st' ∧ ScopeMap.session (ScopeMap.push_scope (decls st) true) (decls st')
  ∧ st' = set_decls st (decls st').
Proof.
  intros [fs Hr] He. unfold entered in He. apply insert_binders_ok in He as [Hs He].
  simpl in Hs. split_and!; [|done|by destruct st].
  destruct (ScopeMap.session_represents _ _ Hs _ _ (ScopeMap.push_represents _ _ _ Hr)) as (f & Hf & _).
  by exists (f :: fs).
Qed.

Lemma leave_pop {E} st bs st' : in_scopes st → entered st bs st' →
  @ScopeMap.pop_scope _ _ _ _ E (decls st') = Ok (decls st).
Proof.
  intros Hin He. destruct (entered_scopes st bs st' Hin He) as (_ & Hs & _). destruct Hin as [fs Hr].
  pose proof (ScopeMap.scope_undone (decls st) (decls st') fs true Hr Hs) as Hu.
  unfold ScopeMap.pop_scope in Hu |- *. destruct (last _); [|done]. simpl in Hu |- *.
  destruct (map_fold _ _ _). by injection Hu as ->.
Qed.

Lemma leave_scope st bs st' u st'' : in_scopes st → entered st bs st' →
  pop_decls st' = (Ok u, st'') → st'' = st.
Proof.
  intros Hin He Hp. destruct (entered_scopes st bs st' Hin He) as (_ & Hs & Hst').
  unfold pop_decls in Hp. rewrite (leave_pop st bs st' Hin He) in Hp. injection Hp as _ <-. unfold set_decls in *. destruct st, st'. simpl in *. congruence.
Qed.

Lemma stable_triggers (check : Expr → tc Typ) (ts : list (list Expr)) :
  Forall (Forall (λ e, stable (check e))) ts →
  stable (tseq_ (map (λ t, tseq_ (map (λ e, check e ;! tret tt) t)) ts)).
Proof.
  intros H. apply stable_tseq_, Forall_map. eapply Forall_impl; [exact H|]. intros t Ht.
  apply stable_tseq_, Forall_map. eapply Forall_impl; [exact Ht|]. intros e He. stable_cases.
Qed.

(** A sequence of checks whose results are not used. *)
Lemma tseq_unit_checked {A} (m : A → tc unit) (l : list A) : Forall (λ x, stable (m x)) l →
  ∀ st u st', in_scopes st → tseq_ (map m l) st = (Ok u, st') → Forall (λ x, ∃ u, m x st = (Ok u, st)) l.
Proof.
  induction 1 as [|x l Hx _ IH]; intros st u st' Hin H; simpl in H; [constructor|].
  tinv H. apply Hx in Hm as Hst; [|done]. subst st0. constructor; [by eexists|]. by eapply IH.
Qed.

Lemma triggers_checked (check : Expr → tc Typ) (ts : list (list Expr)) st u st' :
  Forall (Forall (λ e, stable (check e))) ts → in_scopes st →
  tseq_ (map (λ t, tseq_ (map (λ e, check e ;! tret tt) t)) ts) st = (Ok u, st') →
  Forall (Forall (λ e, ∃ t, check e st = (Ok t, st))) ts.
Proof.
  intros Hs Hin H.
  assert (Hse : Forall (Forall (λ e, stable (check e ;! tret tt))) ts).
  { eapply Forall_impl; [exact Hs|]. intros t Ht. eapply Forall_impl; [exact Ht|]. intros e He. stable_cases. }
  apply tseq_unit_checked in H; [|eapply Forall_impl; [exact Hse|]; intros t Ht; by apply stable_tseq_, Forall_map|done].
  eapply Forall_impl2; [exact Hs|exact H|]. intros t Ht [u' Hu].
  assert (Hte : Forall (λ e, stable (check e ;! tret tt)) t).
  { eapply Forall_impl; [exact Ht|]. intros e He. stable_cases. }
  apply tseq_unit_checked in Hu; [|done|done]. eapply Forall_impl2; [exact Ht|exact Hu|].
  intros e He [u2 Hu2]. tinv Hu2. apply He in Hm as Hst; [|done]. subst st0. by eexists.
Qed.

(** The parts of a successful check of a [Bind], given that the checks of its
    expressions leave the state unchanged. *)
Definition check_let_types (check : Expr → tc Typ) (bs : Binders Expr) : tc (Binders Typ) :=
  tseq (map (λ b, let! typ := check (ba b) in tret (mkBinder (bname b) typ)) bs).

Definition bind_types (check : Expr → tc Typ) (b : Bind) : tc (Binders Typ) :=
  match b with
  | BindX_Let bs => check_let_types check bs
  | BindX_Quant _ binders _ _ | BindX_Lambda binders _ _ _ _ | BindX_Choose binders _ _ _ =>
    tret binders
  end.

Definition bind_triggers (b : Bind) : list (list Expr) :=
  match b with
  | BindX_Let _ => []
  | BindX_Quant _ _ ts _ | BindX_Choose _ ts _ _ | BindX_Lambda _ ts _ _ _ => ts
  end.
Definition bind_cond (b : Bind) : option Expr :=
  match b with BindX_Lambda _ _ _ _ c => c | BindX_Choose _ _ _ c => Some c | _ => None end.
Definition bind_wrap (b : Bind) : option (WrapLambda Expr) :=
  match b with BindX_Lambda _ _ _ w _ => w | _ => None end.
Definition bind_result (b : Bind) (t1 t : Typ) : Prop :=
  match b with
  | BindX_Let _ | BindX_Choose _ _ _ _ => t = t1
  | BindX_Quant _ _ _ _ => t1 = bt ∧ t = bt
  | BindX_Lambda _ _ _ _ _ => t = TypX_Fun
  end.

Record bind_checked oc st (b : Bind) (e1 : Expr) (t : Typ) (binders : Binders Typ) (inner : Typing)
    (t1 : Typ) : Prop := {
  bc_binders : bind_types (check_expr oc) b st = (Ok binders, st);
  bc_wrap : ∀ w, bind_wrap b = Some w → ∃ t_id, check_expr oc (wrap_id w) st = (Ok t_id, st);
  bc_enter : entered st binders inner;
  bc_triggers : Forall (Forall (λ e, ∃ t, check_expr oc e inner = (Ok t, inner))) (bind_triggers b);
  bc_cond : ∀ c, bind_cond b = Some c → check_expr oc c inner = (Ok bt, inner);
  bc_body : check_expr oc e1 inner = (Ok t1, inner);
  bc_result : bind_result b t1 t
}.

Lemma typ_eq_true t1 t2 : typ_eq t1 t2 = true ↔ t1 = t2.
Proof. apply bool_decide_eq_true. Qed.

Lemma expect_typ_ok t1 t2 msg st u st' : expect_typ t1 t2 msg st = (Ok u, st') → t1 = t2 ∧ st' = st.
Proof.
  unfold expect_typ. destruct (typ_eq t1 t2) eqn:Ht; intros H; try done.
  injection H as _ <-. by apply typ_eq_true in Ht.
Qed.

Lemma stable_let_types check bs : Forall (λ e, stable (check e)) (ba <$> bs) →
  stable (check_let_types check bs).
Proof.
  intros H. apply stable_tseq, Forall_map. rewrite Forall_fmap in H.
  eapply Forall_impl; [exact H|]. intros b Hb. simpl in Hb. stable_cases.
Qed.

Lemma triggers_stable (b : Bind) (P : Expr → Prop) :
  Forall P (bind_exprs b) → Forall (Forall P) (bind_triggers b).
Proof.
  destruct b; simpl; rewrite ?Forall_app ?Forall_concat; [constructor|done|by intros [? _]..].
Qed.

Lemma cond_stable (b : Bind) (P : Expr → Prop) c : Forall P (bind_exprs b) → bind_cond b = Some c → P c.
Proof.
  destruct b as [bs|q bs ts qid|bs ts qid w c'|bs ts qid c']; simpl; try done.
  - intros H ->. rewrite !Forall_app in H. destruct H as (_ & _ & H). by inversion H.
  - intros H [= ->]. rewrite !Forall_app in H. destruct H as (_ & H). by inversion H.
Qed.

Lemma wrap_stable (b : Bind) (P : Expr → Prop) w :
  Forall P (bind_exprs b) → bind_wrap b = Some w → P (wrap_id w).
Proof.
  destruct b as [bs|q bs ts qid|bs ts qid w' c'|bs ts qid c']; simpl; try done.
  intros H ->. rewrite !Forall_app in H. destruct H as (_ & H & _). by inversion H.
Qed.

Lemma check_bind_inv oc b e1 st t st' :
  Forall (λ e, stable (check_expr oc e)) (bind_exprs b) → stable (check_expr oc e1) →
  in_scopes st → check_expr oc (ExprX_Bind b e1) st = (Ok t, st') →
  ∃ binders inner t1, bind_checked oc st b e1 t binders inner t1 ∧ st' = st.
Proof.
  intros Hb He Hin H. cbn [check_expr] in H. apply wrap_error_ok in H.
  apply tbind_ok in H as (binders & st0 & H1 & H).
  assert (Hbt : bind_types (check_expr oc) b st = (Ok binders, st0)) by (by destruct b).
  assert (st0 = st) as ->.
  { destruct b; simpl in Hbt; try by injection Hbt as _ <-.
    simpl in Hb. by apply (stable_let_types _ _ Hb) in Hbt. }
  apply tbind_ok in H as ([] & st0 & H2 & H).
  assert (Hw : st0 = st ∧ ∀ w, bind_wrap b = Some w → ∃ t_id, check_expr oc (wrap_id w) st = (Ok t_id, st)).
  { destruct b as [bs|q bs ts qid|bs ts qid [w|] c'|bs ts qid c']; try by injection H2 as <-.
    apply tbind_ok in H2 as (t_id & st1 & H2 & H2').
    pose proof (wrap_stable (BindX_Lambda bs ts qid (Some w) c') _ w Hb eq_refl st t_id st1 Hin H2) as ->.
    apply stable_check_wrap in H2' as ->; [|done]. split; [done|]. intros w' [= <-]. eauto. }
  destruct Hw as [-> Hw]. apply tbind_ok in H as ([] & st0 & H3 & H). injection H3 as <-.
  apply tbind_ok in H as ([] & inner & Henter & H).
  destruct (entered_scopes st binders inner Hin Henter) as (Hin' & _).
  apply tbind_ok in H as ([] & st0 & H4 & H).
  assert (Hts : tseq_ (map (λ t, tseq_ (map (λ e, check_expr oc e ;! tret tt) t)) (bind_triggers b))
    inner = (Ok tt, st0)) by (destruct b; done).
  pose proof (triggers_checked _ _ _ _ _ (triggers_stable b _ Hb) Hin' Hts) as Htr.
  assert (st0 = inner) as -> by (apply stable_triggers in Hts; [done|by apply triggers_stable|done]).
  clear Hts.
  apply tbind_ok in H as ([] & st0 & H5 & H).
  assert (Hc : st0 = inner ∧ ∀ c, bind_cond b = Some c → check_expr oc c inner = (Ok bt, inner)).
  { destruct b as [bs|q bs ts qid|bs ts qid w [c|]|bs ts qid c]; try by injection H5 as <-.
    all: apply tbind_ok in H5 as (t2 & st1 & H5 & H6);
      apply (cond_stable _ _ c Hb eq_refl) in H5 as Hst; [|done]; subst st1;
      destruct (typ_eq t2 bt) eqn:Ht; try done; injection H6 as <-;
      apply typ_eq_true in Ht as ->; split; [done|]; by intros c' [= <-]. }
  destruct Hc as [-> Hc]. apply tbind_ok in H as (t1 & st0 & H6 & H).
  pose proof (He inner t1 st0 Hin' H6) as ->.
  apply tbind_ok in H as (tb & st0 & H7 & H).
  assert (Hr : st0 = inner ∧ bind_result b t1 tb).
  { destruct b as [bs|q bs ts qid|bs ts qid w c|bs ts qid c]; try by injection H7 as <- <-.
    apply tbind_ok in H7 as ([] & st1 & [-> ->]%expect_typ_ok & H8). by injection H8 as <- <-. }
  destruct Hr as [-> Hr]. apply tbind_ok in H as ([] & st0 & H8 & H).
  injection H as -> <-. apply (leave_scope st binders inner) in H8 as ->; [|done..].
  by exists binders, inner, t1.
Qed.

Lemma check_expr_stable oc e : stable (check_expr oc e).
Proof.
  induction e as [c|x|s x|x es IH|t e0 es IH0 IH|op e IH|op e1 e2 IH1 IH2|op es IH
      |e1 e2 e3 IH1 IH2 IH3|es IH|b e IHb IH|ls f e IH|i msg f e IH] using ExprX_ind';
    cbn [check_expr]; apply stable_wrap.
  - destruct c; auto with tc.
  - stable_cases.
  - intros st y st' _ H. destruct (decide _); [|done].
    destruct (get st x) as [[]|]; try done. by injection H as _ <-.
  - apply rstable_tbind; [apply stable_get_fun|]. intros [[params ret]|err|]; [|auto with tc..].
    by apply rstable_as_result, stable_check_exprs, Forall_map.
  - stable_cases. apply stable_tseq_, Forall_map. eapply Forall_impl; [exact IH|].
    intros e He. stable_cases.
  - by apply rstable_check_unary.
  - by apply rstable_check_binary.
  - by apply rstable_check_multi, Forall_map.
  - stable_cases.
  - stable_cases. by apply stable_check_all_same, Forall_map.
  - intros st t st' Hin Hc.
    destruct (check_bind_inv oc b e st t st' IHb IH Hin) as (? & ? & ? & _ & ->); [|done].
    cbn [check_expr]. unfold wrap_error. unfold tbind at 1. by rewrite Hc.
  - auto with tc.
  - auto with tc.
Qed.

(** ** Statements *)

Definition labels_scoped st : Prop :=
  (∃ fs, ScopeMap.represents (break_labels_in_scope st) fs)
  ∧ ∀ l, is_Some (ScopeMap.get (break_labels_in_scope st) l) → l ∈ break_labels_local st.

(** What a successful check of a statement says about it. *)
Record stmt_checked oc (s : Stmt) st st' : Prop := {
  sc_decls : decls st' = decls st;
  sc_scope : break_labels_in_scope st' = break_labels_in_scope st;
  sc_local : break_labels_local st' = list_to_set (declared_labels s) ∪ break_labels_local st;
  sc_nodup : NoDup (declared_labels s);
  sc_new : ∀ l, l ∈ declared_labels s → l ∉ break_labels_local st;
  sc_breaks : ∀ l, l ∈ free_breaks s → is_Some (ScopeMap.get (break_labels_in_scope st) l);
  sc_exprs : ∀ e, e ∈ stmt_exprs s → ∃ st1 t, decls st1 = decls st ∧ check_expr oc e st1 = (Ok t, st1)
}.

Definition stmt_ok oc (s : Stmt) : Prop := ∀ st st', in_scopes st → labels_scoped st →
  check_stmt oc s st = (Ok tt, st') → stmt_checked oc s st st'.

Lemma in_scopes_decls st st' : decls st' = decls st → in_scopes st → in_scopes st'.
Proof. unfold in_scopes. by intros ->. Qed.

Lemma checked_labels oc s st st' : stmt_checked oc s st st' → labels_scoped st → labels_scoped st'.
Proof.
  intros Hc [Hr Hl]. unfold labels_scoped. rewrite (sc_scope _ _ _ _ Hc). split; [done|].
  intros l Hs. rewrite (sc_local _ _ _ _ Hc). apply elem_of_union_r, Hl, Hs.
Qed.

(** Statements without labels that leave the labels alone. *)
Lemma leaf_checked oc s st st' : declared_labels s = [] → free_breaks s = [] →
  decls st' = decls st → break_labels_in_scope st' = break_labels_in_scope st →
  break_labels_local st' = break_labels_local st →
  (∀ e, e ∈ stmt_exprs s → ∃ st1 t, decls st1 = decls st ∧ check_expr oc e st1 = (Ok t, st1)) →
  stmt_checked oc s st st'.
Proof.
  intros Hd Hf H1 H2 H3 He. split; rewrite ?Hd ?Hf; try done.
  - by rewrite H3 /= left_id_L.
  - constructor.
  - by intros l ?%not_elem_of_nil.
  - by intros l ?%not_elem_of_nil.
Qed.

Lemma check_mutable_ok x k st st' : check_mutable x k st = (Ok (Ok tt), st') →
  ∃ t, get st x = Some (DeclaredX_Var t true) ∧ k t st = (Ok (Ok tt), st').
Proof.
  unfold check_mutable. intros H. tinv H. injection Hm as <- <-.
  destruct (get st x) as [[|t []|]|]; try done. by exists t.
Qed.

(** A sequence of statements, as the [Block] and [Switch] arms check it. *)
Lemma seq_checked oc s ss st st1 st2 :
  stmt_checked oc s st st1 →
  stmt_checked oc (StmtX_Block ss) st1 st2 →
  labels_scoped st → stmt_checked oc (StmtX_Block (s :: ss)) st st2.
Proof.
  intros [D1 S1 L1 N1 W1 B1 E1] [D2 S2 L2 N2 W2 B2 E2] [_ Hl].
  simpl in L2, N2, W2, B2, E2. split; simpl.
  - by rewrite D2. - by rewrite S2.
  - rewrite L2 L1 list_to_set_app_L. set_solver.
  - apply NoDup_app. split_and!; [done| |done]. intros l Hl1 Hl2. apply (W2 l Hl2).
    rewrite L1. apply elem_of_union_l, elem_of_list_to_set, Hl1.
  - intros l [Hl1|Hl2]%elem_of_app; [by apply W1|]. intros Hin. apply (W2 l Hl2).
    rewrite L1. by apply elem_of_union_r.
  - intros l [Hl1|Hl2]%elem_of_app; [by apply B1|]. rewrite -S1. by apply B2.
  - intros e [He|He]%elem_of_app; [by apply E1|].
    destruct (E2 e He) as (st3 & t & ? & ?). exists st3, t. by rewrite -D1.
Qed.

Lemma stmt_ok_stmts oc ss : Forall (stmt_ok oc) ss → ∀ st st', in_scopes st → labels_scoped st →
  tseq_ (map (check_stmt oc) ss) st = (Ok tt, st') → stmt_checked oc (StmtX_Block ss) st st'.
Proof.
  induction 1 as [|s ss Hs _ IH]; intros st st' Hin Hl H; simpl in H.
  - injection H as <-. apply leaf_checked; try done. by intros e ?%not_elem_of_nil.
  - tinv H. destruct x. apply Hs in Hm as Hc; [|done..].
    eapply seq_checked; [exact Hc| |done]. apply IH; [| |done].
    + eapply in_scopes_decls; [apply Hc|done].
    + by eapply checked_labels.
Qed.

Lemma stmt_ok_branches oc saved ss : Forall (stmt_ok oc) ss → ∀ st st', in_scopes st →
  labels_scoped st → check_branches (check_stmt oc) saved ss st = (Ok tt, st') →
  stmt_checked oc (StmtX_Block ss) st st'.
Proof.
  induction 1 as [|s ss Hs _ IH]; intros st st' Hin Hl H; simpl in H.
  - injection H as <-. apply leaf_checked; try done. by intros e ?%not_elem_of_nil.
  - tinv H. destruct x. apply Hs in Hm as Hc; [|done..]. tinv H. injection Hm0 as _ <-.
    eapply seq_checked; [exact Hc| |done].
    assert (Hc2 : stmt_checked oc (StmtX_Block ss) (set_snapshots st0 saved) st').
    { apply IH; [| |done].
      - eapply in_scopes_decls; [apply Hc|done].
      - by eapply checked_labels in Hc. }
    by destruct Hc2; split.
Qed.

Lemma set_labels_scoped st l b fs : labels_scoped st →
  ScopeMap.represents (break_labels_in_scope st) fs →
  ScopeMap.insert_sm (ScopeMap.push_scope (break_labels_in_scope st) false) l tt = Ok (true, b) →
  l ∉ break_labels_local st →
  labels_scoped (set_labels st ({[l]} ∪ break_labels_local st) b)
  ∧ ScopeMap.session (ScopeMap.push_scope (break_labels_in_scope st) false) b
  ∧ ∀ l', is_Some (ScopeMap.get b l') ↔ l' = l ∨ is_Some (ScopeMap.get (break_labels_in_scope st) l').
Proof.
  intros [_ Hl] Hr Hi Hnew.
  pose proof (ScopeMap.push_represents _ _ false Hr) as Hp.
  destruct (ScopeMap.insert_represents _ _ _ _ _ _ Hp Hi) as (Hb & _ & _).
  assert (Hget : ∀ l', is_Some (ScopeMap.get b l')
    ↔ l' = l ∨ is_Some (ScopeMap.get (break_labels_in_scope st) l')).
  { intros l'. destruct Hb as [-> _]. destruct Hr as [-> _]. unfold ScopeMap.get. simpl.
    rewrite fmap_insert fmap_empty insert_empty. rewrite lookup_union.
    destruct (decide (l' = l)) as [->|Hne].
    - rewrite lookup_singleton_eq. split; [by left|]. intros _. by destruct (ScopeMap.flat fs !! l).
    - rewrite lookup_singleton_ne // left_id_L. naive_solver. }
  split_and!; [split| |done].
  - by eexists.
  - simpl. intros l' [->|Hs]%Hget; [set_solver|]. apply elem_of_union_r. by apply Hl.
  - eapply ScopeMap.session_insert; [constructor|exact Hi].
Qed.

Lemma check_stmt_ok oc s : stmt_ok oc s.
Proof.
  induction s as [e|i msg f e|x|x e|x|s IH|l s IH|l|ss IH|ss IH] using StmtX_ind';
    intros st st' Hin Hl H; cbn [check_stmt] in H; apply wrap_error_ok in H.
  - tinv H. apply as_result_ok, expect_typ_ok in H as [-> ->].
    apply check_expr_stable in Hm as Hst; [|done]. subst st0. apply leaf_checked; try done.
    intros e' ->%list_elem_of_singleton. eauto.
  - tinv H. apply as_result_ok, expect_typ_ok in H as [-> ->].
    apply check_expr_stable in Hm as Hst; [|done]. subst st0. apply leaf_checked; try done.
    intros e' ->%list_elem_of_singleton. eauto.
  - apply check_mutable_ok in H as (t & _ & H). injection H as <-. apply leaf_checked; try done.
    by intros e ?%not_elem_of_nil.
  - apply check_mutable_ok in H as (t & _ & H). tinv H.
    apply check_expr_stable in Hm as Hst; [|done]. subst st0.
    destruct (typ_eq x0 t); try done. injection H as <-. apply leaf_checked; try done.
    intros e' ->%list_elem_of_singleton. eauto.
  - injection H as <-. apply leaf_checked; try done. by intros e ?%not_elem_of_nil.
  - apply as_result_ok in H. destruct (IH st st' Hin Hl H). by split.
  - unfold check_breakable in H. destruct (decide (l ∈ break_labels_local st)) as [|Hnew]; [done|].
    cbn [break_labels_in_scope break_labels_local set_labels] in H.
    destruct (ScopeMap.insert_sm _ l tt) as [[[] b]|[]|] eqn:Hi; try done. tinv H.
    pose proof Hl as [[fs Hr] _].
    destruct (set_labels_scoped st l b fs Hl Hr Hi Hnew) as (Hls & Hses & Hget).
    change (set_labels _ _ b) with (set_labels st ({[l]} ∪ break_labels_local st) b) in Hm.
    destruct x. apply IH in Hm as [D1 S1 L1 N1 W1 B1 E1]; [|done|done].
    simpl in D1, S1, L1, W1, B1, E1. rewrite S1 in H.
    pose proof (ScopeMap.scope_undone _ b fs false Hr Hses) as Hu.
    assert (Hpop : @ScopeMap.pop_scope _ _ _ _ TypeError b = Ok (break_labels_in_scope st)).
    { unfold ScopeMap.pop_scope in Hu |- *. destruct (last _); [|done]. simpl in Hu |- *.
      destruct (map_fold _ _ _). by injection Hu as ->. }
    rewrite Hpop in H. injection H as <-. split; simpl; try done.
    + rewrite L1. set_solver.
    + constructor; [|done]. intros Hin'. apply (W1 l Hin'). set_solver.
    + intros l' [->|Hl']%elem_of_cons; [done|]. intros Hin'. apply (W1 l' Hl'). set_solver.
    + intros l' [Hne Hl']%list_elem_of_filter. apply B1, Hget in Hl' as [?|?]; done.
  - destruct (ScopeMap.contains_key _ _) eqn:Hc; try done. injection H as <-.
    unfold ScopeMap.contains_key in Hc. apply bool_decide_eq_true in Hc. split; simpl; try done.
    + by rewrite left_id_L. + constructor. + by intros l' ?%not_elem_of_nil.
    + by intros l' ->%list_elem_of_singleton. + by intros e ?%not_elem_of_nil.
  - tinv H. destruct x. injection H as <-. by apply (stmt_ok_stmts oc ss IH).
  - tinv H. destruct x. injection H as <-.
    destruct (stmt_ok_branches oc _ ss IH st st0 Hin Hl Hm). by split.
Qed.
