(* ===== verification/CheckedQuery.v ===== *)
(** * What the type checker guarantees to the lowering passes

    A query accepted by [check_query] declares each break label once, breaks
    only to labels in scope, and assigns only its own [declare-var] variables,
    each to an expression of the variable's type; the name scope it opened is
    closed again.  These are the label and assignment conditions under which
    [VarToConstCorrect] and [BlockToAssertCorrect] prove the passes correct. *)

From S2P Require Import Prelude RustString Ast AstUtil Semantics StmtFacts IndexMap Ssa VersionSim VersionSound VarToConst VarToConstCorrect Lowering Typecheck TypecheckFacts.
From S2P Require BlockToAssertCorrect.
From S2P Require ScopeMap.
Set Warnings "-rewrite-rw,-register-all,-clear-no-such-hyp".
Local Open Scope tc_scope.
Implicit Types (st : Typing).

(** ** Assignments *)

Definition mutable_in st (x : Ident) (t : Typ) : Prop := get st x = Some (DeclaredX_Var t true).

Definition assigns_checked oc st (s : Stmt) : Prop :=
  (∀ x, x ∈ assigned s → ∃ t, mutable_in st x t)
  ∧ ∀ p, p ∈ assigns s → ∃ t st1,
      mutable_in st p.1 t ∧ decls st1 = decls st ∧ check_expr oc p.2 st1 = (Ok t, st1).

Lemma assigns_checked_decls oc st st' s :
  decls st' = decls st → assigns_checked oc st' s → assigns_checked oc st s.
Proof.
  intros Hd [Ha Hp].
  assert (Hm : ∀ x t, mutable_in st' x t → mutable_in st x t).
  { intros x t. unfold mutable_in, get. by rewrite Hd. }
  split.
  - intros x Hx. destruct (Ha x Hx) as [t Ht]. eauto.
  - intros p Hin. destruct (Hp p Hin) as (t & st1 & Ht & Hd1 & Hc). exists t, st1.
    split_and!; [by apply Hm|congruence|done].
Qed.

Lemma assigns_checked_nil oc st s : assigned s = [] → assigns s = [] → assigns_checked oc st s.
Proof. intros Ha Hs. split; [rewrite Ha|rewrite Hs]; by intros ? ?%not_elem_of_nil. Qed.

Lemma assigns_checked_cons oc st s ss :
  assigns_checked oc st s → assigns_checked oc st (StmtX_Block ss) →
  assigns_checked oc st (StmtX_Block (s :: ss)).
Proof.
  intros [A1 P1] [A2 P2]. split; simpl; intros ? [?|?]%elem_of_app; auto.
Qed.

Definition assigns_ok oc (s : Stmt) : Prop := ∀ st st', in_scopes st → labels_scoped st →
  check_stmt oc s st = (Ok tt, st') → assigns_checked oc st s.

Lemma assigns_ok_block oc ss : Forall (assigns_ok oc) ss → ∀ st st', in_scopes st → labels_scoped st →
  tseq_ (map (check_stmt oc) ss) st = (Ok tt, st') → assigns_checked oc st (StmtX_Block ss).
Proof.
  induction 1 as [|s ss Hs _ IH]; intros st st' Hin Hl H; simpl in H.
  - by apply assigns_checked_nil.
  - tinv H. destruct x. pose proof (check_stmt_ok oc s st st0 Hin Hl Hm) as Hc.
    apply assigns_checked_cons; [by eapply Hs|].
    apply (assigns_checked_decls _ _ st0); [apply Hc|].
    eapply IH; [|by eapply checked_labels|exact H]. eapply in_scopes_decls; [apply Hc|done].
Qed.

Lemma assigns_ok_branches oc saved ss : Forall (assigns_ok oc) ss → ∀ st st', in_scopes st →
  labels_scoped st → check_branches (check_stmt oc) saved ss st = (Ok tt, st') →
  assigns_checked oc st (StmtX_Block ss).
Proof.
  induction 1 as [|s ss Hs _ IH]; intros st st' Hin Hl H; simpl in H.
  - by apply assigns_checked_nil.
  - tinv H. destruct x. pose proof (check_stmt_ok oc s st st0 Hin Hl Hm) as Hc.
    tinv H. injection Hm0 as _ <-. apply assigns_checked_cons; [by eapply Hs|].
    apply (assigns_checked_decls _ _ (set_snapshots st0 saved)); [apply Hc|].
    eapply IH; [| |exact H].
    + eapply in_scopes_decls; [apply Hc|done].
    + by eapply checked_labels in Hc.
Qed.

Lemma check_assigns oc s : assigns_ok oc s.
Proof.
  induction s as [e|i msg f e|x|x e|x|s IH|l s IH|l|ss IH|ss IH] using StmtX_ind';
    intros st st' Hin Hl H; try (by apply assigns_checked_nil);
    cbn [check_stmt] in H; apply wrap_error_ok in H.
  - apply check_mutable_ok in H as (t & Ht & _). split; simpl.
    + intros y ->%list_elem_of_singleton. by exists t.
    + by intros p ?%not_elem_of_nil.
  - apply check_mutable_ok in H as (t & Ht & H). tinv H.
    apply check_expr_stable in Hm as Hst; [|done]. subst st0.
    destruct (typ_eq x0 t) eqn:He; [|done]. apply typ_eq_true in He as ->. split; simpl.
    + intros y ->%list_elem_of_singleton. by exists t.
    + intros p ->%list_elem_of_singleton. by exists t, st.
  - apply as_result_ok in H. by eapply IH.
  - unfold check_breakable in H. destruct (decide (l ∈ break_labels_local st)) as [|Hnew]; [done|].
    cbn [break_labels_in_scope break_labels_local set_labels] in H.
    destruct (ScopeMap.insert_sm _ l tt) as [[[] b]|[]|] eqn:Hi; try done. tinv H.
    pose proof Hl as [[fs Hr] _].
    destruct (set_labels_scoped st l b fs Hl Hr Hi Hnew) as (Hls & _ & _).
    change (set_labels _ _ b) with (set_labels st ({[l]} ∪ break_labels_local st) b) in Hm.
    destruct x. apply (assigns_checked_decls _ _ (set_labels st ({[l]} ∪ break_labels_local st) b));
      [done|]. by eapply IH.
  - tinv H. destruct x. by eapply (assigns_ok_block oc ss IH).
  - tinv H. destruct x. by eapply (assigns_ok_branches oc _ ss IH).
Qed.

(** ** The query's declarations *)

(** A scope was opened on the declarations of [st0], and every mutable variable
    in it is declared in [xs]. *)
Record opened st0 (xs : Decls) st : Prop := {
  op_session : ScopeMap.session (ScopeMap.push_scope (decls st0) false) (decls st);
  op_rest : snapshots st = snapshots st0 ∧ break_labels_local st = break_labels_local st0
            ∧ break_labels_in_scope st = break_labels_in_scope st0;
  op_mutable : ∀ x t, mutable_in st x t → DeclX_Var x t ∈ xs
}.

Lemma opened_scopes st0 xs st : in_scopes st0 → opened st0 xs st → in_scopes st.
Proof.
  intros [fs Hr] [Hs _ _].
  destruct (ScopeMap.session_represents _ _ Hs _ _ (ScopeMap.push_represents _ _ false Hr))
    as (f & Hf & _). by exists (f :: fs).
Qed.

Lemma opened_get st0 xs st x d u st' : in_scopes st0 → opened st0 xs st →
  insert_decl x d st = (Ok u, st') → ∀ y, get st' y = if decide (y = x) then Some d else get st y.
Proof.
  intros [fs Hr] [Hs _ _] [Hi _]%insert_decl_ok y.
  destruct (ScopeMap.session_represents _ _ Hs _ _ (ScopeMap.push_represents _ _ false Hr))
    as (f & Hf & _).
  destruct (ScopeMap.insert_represents _ _ _ _ _ _ Hf Hi) as ([Ht _] & _).
  destruct Hf as [Hf _]. unfold get, ScopeMap.get. rewrite Ht Hf. simpl.
  rewrite fmap_insert !lookup_union. case_decide as Hy.
  - subst y. rewrite lookup_insert_eq. by destruct (ScopeMap.flat fs !! x).
  - by rewrite lookup_insert_ne.
Qed.

Lemma opened_insert st0 xs st x d st' : in_scopes st0 → opened st0 xs st →
  insert_decl x d st = (Ok tt, st') → (∀ t, d = DeclaredX_Var t true → DeclX_Var x t ∈ xs) →
  opened st0 xs st'.
Proof.
  intros Hin Ho Hi Hx. pose proof (opened_get _ _ _ _ _ _ _ Hin Ho Hi) as Hg.
  apply insert_decl_ok in Hi as [Hi Hst]. destruct Ho as [Hs Hr Hm]. split.
  - by eapply ScopeMap.session_insert.
  - rewrite Hst. exact Hr.
  - intros y t Hy. unfold mutable_in in Hy. rewrite Hg in Hy. case_decide as Hd.
    + subst y. injection Hy as ->. by apply (Hx t).
    + by apply (Hm y t).
Qed.

Lemma opened_weaken st0 xs ys st : xs ⊆ ys → opened st0 xs st → opened st0 ys st.
Proof. intros Hs [H1 H2 H3]. split; [done..|]. intros x t Hx. apply Hs. by eapply H3. Qed.

(** A computation that only inserts declarations that are not variables. *)
Definition inserts (m : tc unit) : Prop := ∀ st0 xs st st', in_scopes st0 → opened st0 xs st →
  m st = (Ok tt, st') → opened st0 xs st'.

Lemma inserts_stable m : stable m → inserts m.
Proof.
  intros Hm st0 xs st st' Hin Ho H. apply Hm in H as ->; [done|]. by eapply opened_scopes.
Qed.

Lemma inserts_bind m k : inserts m → inserts k → inserts (m ;! k).
Proof. intros Hm Hk st0 xs st st' Hin Ho H. tinv H. destruct x. eapply Hk; [done| |done]. by eapply Hm. Qed.

Lemma inserts_seq (ms : list (tc unit)) : Forall inserts ms → inserts (tseq_ ms).
Proof.
  induction 1 as [|m ms Hm _ IH]; intros st0 xs st st' Hin Ho H; simpl in H.
  - by injection H as <-.
  - tinv H. destruct x. eapply IH; [done| |done]. by eapply Hm.
Qed.

Lemma inserts_map {A} (f : A → tc unit) l : (∀ x, inserts (f x)) → inserts (tseq_ (map f l)).
Proof. intros Hf. apply inserts_seq. induction l; constructor; auto. Qed.

Lemma inserts_insert x d : (∀ t, d ≠ DeclaredX_Var t true) → inserts (insert_decl x d).
Proof.
  intros Hd st0 xs st st' Hin Ho H. eapply opened_insert; [done..|]. intros t ->. by destruct (Hd t).
Qed.

Lemma inserts_datatypes ds : inserts (add_decl (DeclX_Datatypes ds) false).
Proof.
  cbn [add_decl]. apply inserts_bind; apply inserts_map; intros d.
  - by apply inserts_insert.
  - apply inserts_map. intros v. unfold add_variant. apply inserts_bind; [by apply inserts_insert|].
    apply inserts_bind; [by apply inserts_insert|]. apply inserts_map. intros f. unfold add_field.
    apply inserts_bind; [|by apply inserts_insert]. apply inserts_stable, stable_check_typ.
Qed.

Lemma check_decl_stable oc d : stable (check_decl oc d).
Proof.
  unfold check_decl. apply stable_wrap. destruct d as [x|ds|x t|x ts t|x t|ax].
  - apply rstable_rok.
  - apply rstable_rok.
  - apply rstable_as_result, stable_check_typ.
  - apply rstable_as_result, stable_check_typs.
  - apply rstable_as_result, stable_check_typ.
  - apply rstable_tbind; [apply check_expr_stable|]. intros t. apply rstable_as_result, stable_expect_typ.
Qed.

Lemma add_decl_opened st0 xs st d st' : in_scopes st0 → opened st0 xs st →
  add_decl d false st = (Ok tt, st') → opened st0 (xs ++ [d]) st'.
Proof.
  intros Hin Ho H. assert (Hw := opened_weaken st0 xs (xs ++ [d]) st).
  destruct d as [x|ds|x t|x ts t|x t|ax].
  - eapply inserts_insert; [|done| |exact H]; [done|]. apply Hw; [set_solver|done].
  - eapply inserts_datatypes; [done| |exact H]. apply Hw; [set_solver|done].
  - eapply inserts_insert; [|done| |exact H]; [done|]. apply Hw; [set_solver|done].
  - eapply inserts_insert; [|done| |exact H]; [done|]. apply Hw; [set_solver|done].
  - eapply opened_insert; [done| |exact H|].
    + apply Hw; [set_solver|done].
    + intros t' [= ->]. apply elem_of_app. right. by apply list_elem_of_singleton.
  - injection H as <-. apply Hw; [set_solver|done].
Qed.

Lemma decls_opened oc ds st0 : in_scopes st0 → ∀ xs st st', opened st0 xs st →
  tseq_ (map (λ d, check_decl oc d ;! add_decl d false) ds) st = (Ok tt, st') →
  opened st0 (xs ++ ds) st'.
Proof.
  intros Hin. induction ds as [|d ds IH]; intros xs st st' Ho H; simpl in H.
  - injection H as <-. by rewrite app_nil_r.
  - tinv H. destruct x. tinv Hm.
    apply check_decl_stable in Hm0 as ->; [|by eapply opened_scopes].
    apply (add_decl_opened st0 xs) in Hm; [|done..]. eapply IH in H; [|done].
    by rewrite -app_assoc in H.
Qed.

(** ** The query *)

(** [Context::new] opens one scope on each map. *)
Definition no_labels_in_scope : ScopeMap.ScopeMap Ident unit := ScopeMap.push_scope ScopeMap.new false.

(** Before a query: no label is in scope and no global declaration is mutable
    ([add_decl] rejects a global [declare-var]). *)
Record between_queries st : Prop := {
  bq_scopes : in_scopes st;
  bq_labels : break_labels_in_scope st = no_labels_in_scope;
  bq_globals : ∀ x t, ¬ mutable_in st x t
}.

(** What a checked query satisfies; [st1] is the typing of its statement. *)
Record checked_query oc (q : Query) : Prop := {
  cq_labels : labels_ok (assertion q);
  cq_closed : free_breaks (assertion q) = [];
  cq_assigned : assigned (assertion q) ⊆ var_names (local q);
  cq_types : ∃ st1, (∀ x t, mutable_in st1 x t → DeclX_Var x t ∈ local q)
             ∧ assigns_checked oc st1 (assertion q)
}.

Lemma check_query_ok oc q st st' : between_queries st → check_query oc q st = (Ok tt, st') →
  checked_query oc q ∧ between_queries st' ∧ decls st' = decls st.
Proof.
  intros [Hin Hlab Hglob] H. unfold check_query in H. tinv H. injection Hm as _ <-.
  tinv H. destruct x0. tinv H. injection Hm0 as _ <-. tinv H. destruct x1.
  set (qst := mkTyping _ _ _ _) in Hm0.
  assert (Hop : opened st [] (set_decls st (ScopeMap.push_scope (decls st) false))).
  { split; [constructor|done|]. intros y t Hy. by destruct (Hglob y t). }
  apply (decls_opened oc (local q) st Hin []) in Hm as [Hs (_ & _ & Hb) Hmut]; [|done].
  assert (Hin1 : in_scopes qst).
  { destruct Hin as [fs Hr].
    destruct (ScopeMap.session_represents _ _ Hs _ _ (ScopeMap.push_represents _ _ false Hr))
      as (f & Hf & _). by exists (f :: fs). }
  assert (Hl1 : labels_scoped qst).
  { split; simpl; rewrite Hb Hlab.
    - exists [ScopeMap.mkFrame ∅ false 0]. done.
    - intros l [? Hl]. done. }
  pose proof (check_stmt_ok oc _ _ _ Hin1 Hl1 Hm0) as [D S L N W B E].
  pose proof (check_assigns oc _ _ _ Hin1 Hl1 Hm0) as Hassign.
  assert (Hclosed : free_breaks (assertion q) = []).
  { destruct (free_breaks (assertion q)) as [|l ls]; [done|]. exfalso.
    destruct (B l) as [? Hl]; [by left|]. simpl in Hl. by rewrite Hb Hlab in Hl. }
  assert (Hmut1 : ∀ x t, mutable_in qst x t → DeclX_Var x t ∈ local q) by exact Hmut.
  split; [split|].
  - split; [done|]. rewrite Hclosed. by intros l ?%not_elem_of_nil.
  - done.
  - intros y Hy. destruct (proj1 Hassign y Hy) as [t Ht]. apply Hmut1 in Ht.
    unfold var_names. apply list_elem_of_omap. by exists (DeclX_Var y t).
  - by exists qst.
  - simpl in D, S. rewrite Hb Hlab in S.
    assert (decls st' = decls st ∧ break_labels_in_scope st' = no_labels_in_scope) as [Hd Hn].
    { unfold pop_decls in H. rewrite D in H. destruct Hin as [fs Hr].
      pose proof (ScopeMap.scope_undone _ _ fs false Hr Hs) as Hu.
      assert (Hpop : @ScopeMap.pop_scope _ _ _ _ TypeError (decls st0) = Ok (decls st)).
      { unfold ScopeMap.pop_scope in Hu |- *. destruct (last _); [|done]. simpl in Hu |- *.
        destruct (map_fold _ _ _). by injection Hu as ->. }
      rewrite Hpop in H. injection H as <-. done. }
    split; [|done]. split; [by eapply in_scopes_decls|done|].
    intros y t. unfold mutable_in, get. rewrite Hd. apply Hglob.
Qed.

(** ** The conditions the checker discharges *)

(** The conditions on names that remain: versions must not clash with other
    names, and the query is small enough for its version numbers. *)
Record names_apart (q : Query) : Prop := {
  na_names : names_ok (var_names (local q));
  na_typed : NoDup (typed_names (local q));
  na_fresh : Forall fresh (typed_names (local q));
  na_axioms : axioms_ok (var_names (local q)) [] (local q);
  na_stmt : stmt_names_ok (var_names (local q)) [] (assertion q);
  na_count : (assign_count (assertion q) < u32_bound)%N
}.

Lemma checked_versionable oc q : checked_query oc q → names_apart q → versionable q.
Proof. intros [H1 H2 H3 _] [N1 N2 N3 N4 N5 N6]. by split. Qed.

(** ** Properties *)

(** Checking an expression leaves the whole typing state as it was when it
    succeeds: every scope opened for a binder is closed again. *)
Theorem check_expr_restores oc e st t st' :
  in_scopes st → check_expr oc e st = (Ok t, st') → st' = st.
Proof. apply check_expr_stable. Qed.

(** C18. A query accepted by [check_query] declares each break label once, only
    breaks to enclosing labels, and assigns only variables it declares with
    [declare-var], to expressions of their type; the checker is then ready for
    the next query, with the same declarations as before. *)
Theorem check_query_sound oc q st st' :
  between_queries st → check_query oc q st = (Ok tt, st') →
  checked_query oc q ∧ between_queries st' ∧ decls st' = decls st.
Proof. apply check_query_ok. Qed.

(** C2. The type checker and the lowering passes compose.  The query is one that
    [check_query] accepts between two queries.  The conditions: the declarations it keeps
    have names that do not clash with each other or with the versions that the passes
    generate, and it has fewer than 2^32 assignments ([names_apart]); no name in it is that
    of a generated switch label, and it has fewer than 2^64 switches ([label_free]); no
    [DeadEnd] of it contains an assignment or a havoc ([dead_ends_pure]).  Then both passes
    succeed and, in every interpretation in which the assigned expressions have the sorts
    of their variables ([well_typed]), the single assertion that they produce can fail
    exactly when an assertion of the query can. *)
Theorem checked_lowering {IM : IndexMapOps} {IML : IndexMapLaws IM} oc msg q st st' :
  between_queries st → check_query oc q st = (Ok tt, st') →
  names_apart q → label_free q → dead_ends_pure (assertion q) = true →
  ∃ q', lower_passes oc msg q = Ok q'
    ∧ (∃ e, assertion q' = StmtX_Assert None msg None e)
    ∧ ∀ M, well_typed M q → (query_safe M q' ↔ query_safe M q).
Proof.
  intros Hb Hc Hn. destruct (check_query_ok oc q st st' Hb Hc) as (Hq & _ & _).
  apply lower_passes_ok. by eapply checked_versionable.
Qed.

(** ** Witnesses *)

#[local] Existing Instance entry_list.

Definition empty_typing : Typing := mkTyping (ScopeMap.push_scope ScopeMap.new false) ∅ ∅ no_labels_in_scope.

Lemma empty_between : between_queries empty_typing.
Proof. split; [by exists [ScopeMap.mkFrame ∅ false 0]|done|]. intros x t H. by vm_compute in H. Qed.

Definition sample_checked : Typing := (check_query false sample_versions empty_typing).2.

Lemma sample_check : check_query false sample_versions empty_typing = (Ok tt, sample_checked).
Proof. by vm_compute. Qed.

Lemma sample_names : names_apart sample_versions.
Proof. destruct sample_versionable. by split. Qed.

(** [(forall ((x Int)) (<= 0 x))] opens a scope and closes it. *)
Definition sample_bound : Expr :=
  ExprX_Bind (BindX_Quant Quant_Forall [mkBinder "x" TypX_Int] [] None)
    (ExprX_Binary BinaryOp_Le (ExprX_Const (Constant_Nat "0")) (ExprX_Var "x")).

Lemma check_expr_restores_witness : (check_expr false sample_bound empty_typing).2 = empty_typing.
Proof.
  apply (check_expr_restores false sample_bound _ TypX_Bool).
  - exact (bq_scopes _ empty_between).
  - by vm_compute.
Defined.

Lemma check_query_sound_witness :
  checked_query false sample_versions ∧ between_queries sample_checked
  ∧ decls sample_checked = decls empty_typing.
Proof.
  apply (check_query_sound false sample_versions empty_typing).
  - exact empty_between.
  - exact sample_check.
Defined.

Lemma checked_lowering_witness :
  dead_ends_pure (assertion sample_versions) = true
  ∧ ∃ q', lower_passes false BlockToAssertCorrect.sample_message sample_versions = Ok q'
    ∧ (∃ e, assertion q' = StmtX_Assert None BlockToAssertCorrect.sample_message None e)
    ∧ ∀ M, well_typed M sample_versions → (query_safe M q' ↔ query_safe M sample_versions).
Proof.
  split; [vm_compute; reflexivity|].
  apply (checked_lowering false BlockToAssertCorrect.sample_message sample_versions empty_typing sample_checked).
  - exact empty_between.
  - exact sample_check.
  - exact sample_names.
  - exact sample_label_free.
  - vm_compute. reflexivity.
Defined.
