(* ===== verification/Node.v ===== *)
(** * S-expression nodes and their layout (source/air/src/printer.rs)

    [Node] is [sise::TreeNode] as the code uses it: the two constructors it
    builds and matches.  [node_list] is what the macros [node!] and [nodes!]
    build, [write_node] the calls [NodeWriter::write_node] makes on the
    serializer (a library type, so its layout stays a parameter), and
    [clean_up_lines] the pass over the printed text. *)

From S2P Require Import Prelude RustString Escape.
From Stdlib Require Import Ascii String.
Set Warnings "-rewrite-rw,-register-all,-clear-no-such-hyp".
Local Open Scope string_scope.
Local Open Scope list_scope.

Inductive Node :=
| Node_Atom (s : string)
| Node_List (nodes : list Node).

Section Node_induction.
Variable P : Node → Prop.
Hypothesis HAtom : ∀ s, P (Node_Atom s).
Hypothesis HList : ∀ nodes, Forall P nodes → P (Node_List nodes).
Fixpoint Node_ind' (n : Node) : P n :=
  match n with
  | Node_Atom s => HAtom s
  | Node_List nodes =>
    HList nodes ((fix all (l : list Node) : Forall P l :=
      match l with
      | [] => Forall_nil_2 P
      | x :: l' => Forall_cons_2 P x l' (Node_ind' x) (all l')
      end) nodes)
  end.
End Node_induction.

Definition str_to_node (s : string) : Node := Node_Atom s.

(** ** The macros

    [node!((a b c))] pushes the nodes one after the other; a hyphen is a token
    of its own in the macro, so [macro_push_node] joins atoms around it. *)

Definition joins (prev cur : string) : bool :=
  (cur =? "-") || (prev =? ":") || (negb (prev =? "-") && ends_with "-" prev).

(** [nodes] is held in reverse: its head is the last element of the vector. *)
Definition macro_push_node (nodes : list Node) (node : Node) : list Node :=
  match nodes, node with
  | Node_Atom prev :: nodes', Node_Atom cur =>
    if joins prev cur then Node_Atom (prev +:+ cur) :: nodes' else node :: nodes
  | _, _ => node :: nodes
  end.

Definition node_list (l : list Node) : Node := Node_List (rev (foldl macro_push_node [] l)).

(** ** NodeWriter *)

(** The calls on [sise::Serializer], with their arguments. *)
Inductive SerializerCall :=
| put_atom (a : string) (break_line_at : nat)
| begin_list (break_line_at : nat)
| end_list.

Definition breaks_after (a : string) : bool :=
  (a =? "=>") || (a =? "and") || (a =? "or") || (a =? "ite") || (a =? "let")
  || (a =? "assume") || (a =? "assert") || (a =? "location") || (a =? "check-valid")
  || (a =? "!") || (a =? "switch") || (a =? "block").

Definition is_pattern_atom (a : string) : bool :=
  (a =? ":pattern") || (a =? ":qid") || (a =? ":skolemid").

Fixpoint write_node (node : Node) (break_len : nat) (brk : bool) : list SerializerCall :=
  let break_line_at := if brk then 0%nat else break_len in
  match node with
  | Node_Atom s => [put_atom s break_line_at]
  | Node_List l =>
    begin_list break_line_at ::
    (fix each (l : list Node) (brk was_pattern : bool) : list SerializerCall :=
       match l with
       | [] => [end_list]
       | n :: l' =>
         write_node n (S break_len) (brk && negb was_pattern) ++
         match n with
         | Node_Atom s =>
           if breaks_after s then each l' true false
           else if is_pattern_atom s then each l' brk true
           else each l' brk false
         | Node_List _ => each l' brk false
         end
       end) l false false
  end.

(** A reader of the calls: what a parser of S-expressions reconstructs, with
    the lists that are still open on a stack (the innermost first, reversed). *)
Fixpoint read_calls (cs : list SerializerCall) (stack : list (list Node)) : option Node :=
  match cs, stack with
  | [], [[n]] => Some n
  | put_atom s _ :: cs', top :: rest => read_calls cs' ((Node_Atom s :: top) :: rest)
  | begin_list _ :: cs', stack => read_calls cs' ([] :: stack)
  | end_list :: cs', top :: next :: rest =>
    read_calls cs' ((Node_List (rev top) :: next) :: rest)
  | _, _ => None
  end.

(** ** clean_up_lines, on characters *)

(** [char::is_whitespace]. *)
Definition is_whitespace (c : N) : bool :=
  (((9 <=? c) && (c <=? 13)) || (c =? 32) || (c =? 133) || (c =? 160) || (c =? 5760)
   || ((8192 <=? c) && (c <=? 8202)) || (c =? 8232) || (c =? 8233) || (c =? 8239)
   || (c =? 8287) || (c =? 12288))%N.

(** [str::trim]. *)
Fixpoint trim_start (l : list N) : list N :=
  match l with
  | c :: l' => if is_whitespace c then trim_start l' else l
  | [] => []
  end.

Definition trim (l : list N) : list N := rev (trim_start (rev (trim_start l))).

(** [str::lines]: a line ends at ["\n"] or ["\r\n"], the last one may be open. *)
Definition strip_cr (rev_line : list N) : list N :=
  rev match rev_line with 13%N :: l => l | l => l end.

Fixpoint lines_from (cur : list N) (l : list N) : list (list N) :=
  match l with
  | [] => match cur with [] => [] | _ => [rev cur] end
  | c :: l' => if (c =? 10)%N then strip_cr cur :: lines_from [] l' else lines_from (c :: cur) l'
  end.

Definition lines (l : list N) : list (list N) := lines_from [] l.

(** [line.trim() == ")"]. *)
Definition is_closing (line : list N) : bool := bool_decide (trim line = [41%N]).

(** [&indentation[1..]], a slice of bytes. *)
Definition slice_from_1 (indentation : list N) : res unit (list N) :=
  match indentation with
  | c :: tail => if (c <? 128)%N then Ok tail else Panic
  | [] => Panic
  end.

(** The loops of [clean_up_lines]: [line] is the current line, [closing] says
    that it was read as a closing line, [rest] are the following lines. *)
Fixpoint clean_lines (indentation line : list N) (closing : bool) (rest : list (list N))
    : res unit (list N) :=
  match rest with
  | [] => Ok line
  | next :: rest' =>
    if closing && is_closing next then
      rbind (slice_from_1 indentation) (λ tail,
      clean_lines indentation (next ++ tail ++ trim line) true rest')
    else
      rbind (clean_lines indentation next (is_closing next) rest') (λ out,
      Ok (line ++ [10%N] ++ out))
  end.

Definition clean_up_lines (input indentation : list N) : res unit (list N) :=
  match lines input with
  | [] => Ok []
  | line :: rest => clean_lines indentation line (is_closing line) rest
  end.

(** [node_to_string_indent], for a serializer that lays the calls out with a
    given line break and indentation. *)
Definition node_to_string_indent (serialize : list N → list N → list SerializerCall → list N)
    (indent : list N) (node : Node) : res unit (list N) :=
  let indentation := [32%N] in
  clean_up_lines (serialize (10%N :: indent) indentation (write_node node 80 false)) indentation.

(** ** The macros keep plain atoms apart *)

(** An atom the macros never join with a neighbour. *)
Definition plain (s : string) : bool := negb (s =? "-") && negb (s =? ":") && negb (ends_with "-" s).

Definition plain_node (n : Node) : bool :=
  match n with Node_Atom s => plain s | Node_List _ => true end.

Lemma plain_joins prev cur : plain prev = true → plain cur = true → joins prev cur = false.
Proof.
  unfold plain, joins. destruct (prev =? "-"), (prev =? ":"), (cur =? "-"), (ends_with "-" prev); done.
Qed.

Lemma macro_push_plain nodes node :
  plain_node node = true → match nodes with n :: _ => plain_node n = true | [] => True end →
  macro_push_node nodes node = node :: nodes.
Proof.
  destruct nodes as [|[prev|l] nodes], node as [cur|l']; simpl; try done.
  intros Hc Hp. by rewrite plain_joins.
Qed.

Lemma node_list_plain l : forallb plain_node l = true → node_list l = Node_List l.
Proof.
  intros Hl. unfold node_list. f_equal.
  assert (∀ acc, match acc with n :: _ => plain_node n = true | [] => True end →
    foldl macro_push_node acc l = rev l ++ acc) as ->; [|by rewrite app_nil_r rev_involutive|done].
  induction l as [|n l IH]; intros acc Hacc; [done|].
  simpl in Hl. apply andb_true_iff in Hl as [Hn Hl]. simpl.
  rewrite macro_push_plain // IH // -app_assoc //.
Qed.

(** ** The calls determine the node *)

Lemma read_write_node n : ∀ bl brk cs top rest,
  read_calls (write_node n bl brk ++ cs) (top :: rest) = read_calls cs ((n :: top) :: rest).
Proof.
  induction n as [s|l IH] using Node_ind'; intros bl brk cs top rest; [done|].
  cbn [write_node app read_calls].
  match goal with |- context [?F l false false] => set (each := F) end.
  assert (∀ l' brk wp acc, Forall (λ n, ∀ bl brk cs top rest,
    read_calls (write_node n bl brk ++ cs) (top :: rest) = read_calls cs ((n :: top) :: rest)) l' →
    read_calls (each l' brk wp ++ cs) (acc :: top :: rest) =
    read_calls cs ((Node_List (rev acc ++ l') :: top) :: rest)) as Heach.
  { induction l' as [|n l' IHl]; intros b wp acc Hl; [by rewrite app_nil_r|].
    inversion Hl as [|? ? Hn Hl']; subst. cbn [each]. rewrite -app_assoc Hn.
    replace (rev acc ++ n :: l') with (rev (n :: acc) ++ l') by (simpl; by rewrite -app_assoc).
    destruct n as [s|?]; [|by apply IHl].
    destruct (breaks_after s); [by apply IHl|]. destruct (is_pattern_atom s); by apply IHl. }
  by rewrite (Heach l false false [] IH).
Qed.

(** ** clean_up_lines moves only white space *)

Definition ink (l : list N) : list N := filter (λ c, is_whitespace c = false) l.

Lemma ink_app l k : ink (l ++ k) = ink l ++ ink k.
Proof. apply filter_app. Qed.

Lemma ink_rev l : ink (rev l) = rev (ink l).
Proof.
  induction l as [|c l IH]; [done|]. cbn [rev]. rewrite ink_app IH. unfold ink.
  rewrite !filter_cons. case_decide; simpl; by rewrite ?app_nil_r.
Qed.

Lemma ink_trim_start l : ink (trim_start l) = ink l.
Proof.
  induction l as [|c l IH]; [done|]. simpl. destruct (is_whitespace c) eqn:Hc; [|done].
  rewrite IH /ink filter_cons. rewrite decide_False //. by rewrite Hc.
Qed.

Lemma ink_trim l : ink (trim l) = ink l.
Proof. unfold trim. by rewrite ink_rev ink_trim_start ink_rev ink_trim_start rev_involutive. Qed.

Lemma ink_strip_cr l : ink (strip_cr l) = rev (ink l).
Proof.
  unfold strip_cr. rewrite ink_rev. f_equal.
  destruct l as [|c l]; [done|]. destruct (decide (c = 13%N)) as [->|Hc]; [done|].
  destruct c as [|p]; [done|]. by repeat (destruct p as [p|p|]; try done).
Qed.

Lemma ink_lines cur l : List.concat (ink <$> lines_from cur l) = rev (ink cur) ++ ink l.
Proof.
  revert cur. induction l as [|c l IH]; intros cur; simpl.
  - destruct cur as [|c cur]; [done|]. cbn [fmap list_fmap List.concat].
    by rewrite ink_rev !app_nil_r.
  - destruct (c =? 10)%N eqn:Hc.
    + apply N.eqb_eq in Hc as ->. cbn [fmap list_fmap List.concat]. by rewrite IH ink_strip_cr.
    + rewrite IH. unfold ink. rewrite !filter_cons.
      destruct (is_whitespace c); repeat case_decide; try done. simpl. by rewrite -app_assoc.
Qed.

Lemma is_closing_ink line : is_closing line = true → ink line = [41%N].
Proof. intros H%bool_decide_eq_true. by rewrite -(ink_trim line) H. Qed.

Lemma closing_commutes l : Forall (λ c, c = 41%N) l → ([41%N] ++ []) ++ l = l ++ [41%N].
Proof. induction 1 as [|c l -> _ IH]; [done|]. simpl in *. by rewrite -IH. Qed.

(** Only parentheses are printed on consecutive closing lines, so their order
    does not show. *)
Lemma ink_clean_lines indentation tail line closing rest :
  slice_from_1 indentation = Ok tail → ink tail = [] →
  (closing = true → Forall (λ c, c = 41%N) (ink line)) →
  ∃ out, clean_lines indentation line closing rest = Ok out
         ∧ ink out = ink line ++ List.concat (ink <$> rest).
Proof.
  intros Hs Ht. revert line closing.
  induction rest as [|next rest IH]; intros line closing Hc; simpl.
  - exists line. by rewrite app_nil_r.
  - destruct (closing && is_closing next) eqn:Hb.
    + apply andb_true_iff in Hb as [-> Hn]. apply is_closing_ink in Hn. rewrite Hs. simpl.
      specialize (Hc eq_refl).
      destruct (IH (next ++ tail ++ trim line) true) as (out & -> & Hout).
      { intros _. rewrite !ink_app Hn Ht ink_trim. by constructor. }
      exists out. split; [done|]. rewrite Hout !ink_app Hn Ht ink_trim.
      rewrite [RHS]app_assoc. f_equal. by apply closing_commutes.
    + destruct (IH next (is_closing next)) as (out & -> & Hout).
      { intros Hn. rewrite (is_closing_ink _ Hn). by repeat constructor. }
      exists (line ++ [10%N] ++ out). split; [done|]. by rewrite !ink_app Hout.
Qed.

Lemma clean_up_lines_ink indentation tail input :
  slice_from_1 indentation = Ok tail → ink tail = [] →
  ∃ out, clean_up_lines input indentation = Ok out ∧ ink out = ink input.
Proof.
  intros Hs Ht. unfold clean_up_lines.
  assert (Hl := ink_lines [] input). change (lines_from [] input) with (lines input) in Hl.
  destruct (lines input) as [|line rest]; [by exists []|].
  destruct (ink_clean_lines indentation tail line (is_closing line) rest Hs Ht)
    as (out & -> & Hout).
  { intros Hn. rewrite (is_closing_ink _ Hn). by repeat constructor. }
  exists out. split; [done|]. rewrite Hout. exact Hl.
Qed.

(** ** Properties *)

(** The calls that [NodeWriter::write_node] makes on the serializer
    determine the node, whatever the line breaks: reading them back gives it. *)
Theorem write_node_readable n break_len brk :
  read_calls (write_node n break_len brk) [[]] = Some n.
Proof.
  assert (H := read_write_node n break_len brk [] [] []). rewrite app_nil_r in H. by rewrite H.
Qed.

(** [node_to_string_indent] never panics, and its [clean_up_lines] pass
    only moves white space: what it prints has the same other characters, in
    the same order, as the serializer's output. *)
Theorem node_to_string_ink serialize indent n :
  ∃ out, node_to_string_indent serialize indent n = Ok out
         ∧ ink out = ink (serialize (10%N :: indent) [32%N] (write_node n 80 false)).
Proof. by apply (clean_up_lines_ink _ []). Qed.
