(* ===== verification/Messages.v ===== *)
(** * Messages (source/air/src/messages.rs)

    The trait [MessageInterface] as a class; the printer and the parser are
    written against it.  [MessageLaws] is what they rely on, and
    [AirMessageInterface] the implementation AIR itself provides. *)

From S2P Require Import Prelude Ast.
From Stdlib Require Import String.
Set Warnings "-rewrite-rw,-register-all,-clear-no-such-hyp".

Class MessageInterface := {
  mi_empty : ArcDynMessage;
  message_label_from_air_span : string → string → ArcDynMessageLabel;
  all_msgs : ArcDynMessage → list string;
  all_msgs_with_spans : ArcDynMessage → list (string * option string);
  bare : MessageLevel → string → ArcDynMessage;
  unexpected_solver_version : string → string → string → ArcDynMessage;
  get_note : ArcDynMessage → string;
  from_labels : list ArcDynMessageLabel → ArcDynMessage;
  append_labels : ArcDynMessage → list ArcDynMessageLabel → ArcDynMessage;
  get_message_label_note : ArcDynMessageLabel → string
}.

(** The default body of the trait's [all_msgs_with_spans]. *)
Definition default_all_msgs_with_spans (all : ArcDynMessage → list string) (m : ArcDynMessage)
    : list (string * option string) := (λ n, (n, None)) <$> all m.

Class MessageLaws (M : MessageInterface) : Prop := {
  label_from_span_note s n : get_message_label_note (message_label_from_air_span s n) = n;
  all_msgs_notes m : all_msgs m = fst <$> all_msgs_with_spans m;
  append_labels_notes m ls :
    all_msgs (append_labels m ls) = all_msgs m ++ (get_message_label_note <$> ls);
  from_labels_nil : from_labels [] = mi_empty;
  from_labels_notes l ls :
    all_msgs (from_labels (l :: ls)) = get_message_label_note <$> (l :: ls)
}.

(** ** AirMessageInterface *)

Module AirMessageInterface.
Local Open Scope string_scope.

Definition empty : AirMessage :=
  {| level := MessageLevel_Error; labels := []; note := ""; span := None |}.

Definition all_msgs (message : AirMessage) : list string :=
  note message :: (label_note <$> labels message).

Definition all_msgs_with_spans (message : AirMessage) : list (string * option string) :=
  (note message, as_string <$> span message)
  :: ((λ l, (label_note l, Some (as_string (label_span l)))) <$> labels message).

Definition bare (l : MessageLevel) (msg : string) : AirMessage :=
  {| level := l; note := msg; labels := []; span := None |}.

Definition unexpected_solver_version (solver expected found : string) : AirMessage :=
  {| level := MessageLevel_Error;
     note := "expected " +:+ solver +:+ " version " +:+ expected +:+ ", found " +:+ found;
     labels := []; span := None |}.

Definition get_message_label_note (l : AirMessageLabel) : string := label_note l.

Definition append_labels (m : AirMessage) (ls : list AirMessageLabel) : AirMessage :=
  {| level := level m; note := note m; span := span m; labels := (labels m ++ ls)%list |}.

Definition get_note (m : AirMessage) : string := note m.

Definition message_label_from_air_span (air_span n : string) : AirMessageLabel :=
  {| label_span := {| as_string := air_span |}; label_note := n |}.

Definition from_labels (ls : list AirMessageLabel) : AirMessage :=
  match ls with
  | [] => {| level := MessageLevel_Error; labels := []; note := ""; span := None |}
  | l :: rest =>
    {| span := Some (label_span l); level := MessageLevel_Error; note := label_note l;
       labels := rest |}
  end.
End AirMessageInterface.

#[export] Instance air_message_interface : MessageInterface := {
  mi_empty := AirMessageInterface.empty;
  message_label_from_air_span := AirMessageInterface.message_label_from_air_span;
  all_msgs := AirMessageInterface.all_msgs;
  all_msgs_with_spans := AirMessageInterface.all_msgs_with_spans;
  bare := AirMessageInterface.bare;
  unexpected_solver_version := AirMessageInterface.unexpected_solver_version;
  get_note := AirMessageInterface.get_note;
  from_labels := AirMessageInterface.from_labels;
  append_labels := AirMessageInterface.append_labels;
  get_message_label_note := AirMessageInterface.get_message_label_note
}.

#[export] Instance air_message_laws : MessageLaws air_message_interface.
Proof.
  split; try done.
  - intros m. simpl. unfold AirMessageInterface.all_msgs, AirMessageInterface.all_msgs_with_spans.
    simpl. f_equal. induction (labels m) as [|l ls IH]; [done|]. simpl. by f_equal.
  - intros m ls. simpl. unfold AirMessageInterface.all_msgs. simpl. by rewrite fmap_app.
Qed.
