(* ===== verification/Printer.v ===== *)
(** * The printer (source/air/src/printer.rs)

    [Printer] turns types, expressions, declarations, statements and queries
    into S-expression nodes.  The message interface is the class argument; the
    record holds the other two fields. *)

From S2P Require Import Prelude RustString Escape Ast AstUtil Messages Node.
From Stdlib Require Import Ascii String.
Set Warnings "-rewrite-rw,-register-all,-clear-no-such-hyp".
Local Open Scope string_scope.
Local Open Scope list_scope.

(** ** Solvers and encodings (context.rs) *)

Inductive SmtSolver := SmtSolver_Z3 | SmtSolver_Cvc5.
Inductive SmtEncoding := SmtEncoding_Z3 | SmtEncoding_Cvc5.

Definition default_encoding (s : SmtSolver) : SmtEncoding :=
  match s with SmtSolver_Z3 => SmtEncoding_Z3 | SmtSolver_Cvc5 => SmtEncoding_Cvc5 end.

(** ** The printer *)

Record Printer := mkPrinter { print_as_smt : bool; smt_encoding : SmtEncoding }.

Definition new_with_encoding (smt : bool) (enc : SmtEncoding) : Printer := mkPrinter smt enc.

Definition new (smt : bool) (solver : SmtSolver) : Printer :=
  new_with_encoding smt (default_encoding solver).

(** [format!] with a double quote (byte 34) on either side. *)
Definition quoted_atom (s : string) : Node :=
  Node_Atom (String (ascii_of_N 34) (escape s +:+ String (ascii_of_N 34) EmptyString)).

Section printer.
Context `{M : MessageInterface} (p : Printer).

Definition typ_to_node (typ : Typ) : Node :=
  match typ with
  | TypX_Bool => str_to_node "Bool"
  | TypX_Int => str_to_node "Int"
  | TypX_Real => str_to_node "Real"
  | TypX_Fun => if print_as_smt p then str_to_node FUNCTION else str_to_node "Fun"
  | TypX_Named n => str_to_node n
  | TypX_BitVec size =>
    Node_List [str_to_node "_"; str_to_node "BitVec"; str_to_node (N_to_string size)]
  | TypX_Float 5 11 => str_to_node "Float16"
  | TypX_Float 8 24 => str_to_node "Float32"
  | TypX_Float 11 53 => str_to_node "Float64"
  | TypX_Float 15 113 => str_to_node "Float128"
  | TypX_Float exp_bits sig_bits =>
    Node_List [str_to_node "_"; str_to_node "FloatingPoint";
               str_to_node (N_to_string exp_bits); str_to_node (N_to_string sig_bits)]
  end.

Definition typs_to_node (typs : Typs) : Node := Node_List (typ_to_node <$> typs).

Definition bv_const_expr_to_node (n : string) (width : N) : Node :=
  let bv_node := str_to_node ("bv" +:+ n) in
  let width_node := str_to_node (N_to_string width) in
  node_list [Node_Atom "_"; bv_node; width_node].

Definition filter_to_node (filter : option Ident) : Node :=
  match filter with
  | Some filter => node_list [str_to_node filter]
  | None => Node_List []
  end.

Definition rounding_mode_to_node (r : RoundingMode) : Node :=
  match r with
  | RoundingMode_RNE => str_to_node "RNE"
  | RoundingMode_RNA => str_to_node "RNA"
  | RoundingMode_RTP => str_to_node "RTP"
  | RoundingMode_RTN => str_to_node "RTN"
  | RoundingMode_RTZ => str_to_node "RTZ"
  end.

(** The operator's name; [FloatRoundToInt] is printed before the table. *)
Definition unary_sop (op : UnaryOp) : string :=
  match op with
  | UnaryOp_Not => "not"
  | UnaryOp_BitNot => "bvnot"
  | UnaryOp_BitNeg => "bvneg"
  | UnaryOp_BitExtract _ _ => "extract"
  | UnaryOp_BitZeroExtend _ => "zero_extend"
  | UnaryOp_BitSignExtend _ => "sign_extend"
  | UnaryOp_FloatNeg => "fp.neg"
  | UnaryOp_FloatRoundToInt _ => "fp.roundToIntegral"
  | UnaryOp_FloatIsNormal => "fp.isNormal"
  | UnaryOp_FloatIsSubnormal => "fp.isSubnormal"
  | UnaryOp_FloatIsZero => "fp.isZero"
  | UnaryOp_FloatIsInfinite => "fp.isInfinite"
  | UnaryOp_FloatIsNaN => "fp.isNaN"
  | UnaryOp_FloatIsNegative => "fp.isNegative"
  | UnaryOp_FloatIsPositive => "fp.isPositive"
  | UnaryOp_FloatFromIeeeBits _ _ => "to_fp"
  | UnaryOp_FloatToIeeeBits => "fp.to_ieee_bv"
  | UnaryOp_FloatFrom _ _ false _ => "to_fp_unsigned"
  | UnaryOp_FloatFrom _ _ true _ => "to_fp"
  | UnaryOp_FloatToBitVec _ false _ => "fp.to_ubv"
  | UnaryOp_FloatToBitVec _ true _ => "fp.to_sbv"
  | UnaryOp_FloatToReal => "fp.to_real"
  | UnaryOp_ToReal => "to_real"
  | UnaryOp_RealToInt => "to_int"
  end.

(** The node of [ExprX_Unary op expr], from the node of [expr]. *)
Definition unary_to_node (op : UnaryOp) (e : Node) : Node :=
  let sop := str_to_node (unary_sop op) in
  let num n := str_to_node (N_to_string n) in
  match op with
  | UnaryOp_FloatRoundToInt r => Node_List [sop; rounding_mode_to_node r; e]
  | UnaryOp_BitExtract high low =>
    Node_List [Node_List [str_to_node "_"; sop; num high; num low]; e]
  | UnaryOp_BitZeroExtend w | UnaryOp_BitSignExtend w =>
    Node_List [Node_List [str_to_node "_"; sop; num w]; e]
  | UnaryOp_FloatFromIeeeBits exp_bits sig_bits =>
    Node_List [Node_List [str_to_node "_"; sop; num exp_bits; num sig_bits]; e]
  | UnaryOp_FloatFrom exp_bits sig_bits _ round =>
    Node_List [Node_List [str_to_node "_"; sop; num exp_bits; num sig_bits];
               rounding_mode_to_node round; e]
  | UnaryOp_FloatToBitVec bits _ round =>
    Node_List [Node_List [str_to_node "_"; sop; num bits]; rounding_mode_to_node round; e]
  | _ => Node_List [sop; e]
  end.

Definition relation_name (r : Relation) : string :=
  match r with
  | Relation_PartialOrder => "partial-order"
  | Relation_LinearOrder => "linear-order"
  | Relation_TreeOrder => "tree-order"
  | Relation_PiecewiseLinearOrder => "piecewise-linear-order"
  end.

(** The node of the operator; [Relation] is printed before the table. *)
Definition binary_sop (op : BinaryOp) : Node :=
  match op with
  | BinaryOp_Implies => str_to_node "=>"
  | BinaryOp_Eq => str_to_node "="
  | BinaryOp_Le => str_to_node "<="
  | BinaryOp_Ge => str_to_node ">="
  | BinaryOp_Lt => str_to_node "<"
  | BinaryOp_Gt => str_to_node ">"
  | BinaryOp_EuclideanDiv => str_to_node "div"
  | BinaryOp_EuclideanMod => str_to_node "mod"
  | BinaryOp_RealDiv => str_to_node "/"
  | BinaryOp_Relation relation n =>
    Node_List [str_to_node "_"; str_to_node (relation_name relation); Node_Atom (N_to_string n)]
  | BinaryOp_BitXor => str_to_node "bvxor"
  | BinaryOp_BitAnd => str_to_node "bvand"
  | BinaryOp_BitOr => str_to_node "bvor"
  | BinaryOp_BitAdd => str_to_node "bvadd"
  | BinaryOp_BitSub => str_to_node "bvsub"
  | BinaryOp_BitMul => str_to_node "bvmul"
  | BinaryOp_BitUDiv => str_to_node "bvudiv"
  | BinaryOp_BitURem => str_to_node "bvurem"
  | BinaryOp_BitSDiv => str_to_node "bvsdiv"
  | BinaryOp_BitSRem => str_to_node "bvsrem"
  | BinaryOp_BitULt => str_to_node "bvult"
  | BinaryOp_BitUGt => str_to_node "bvugt"
  | BinaryOp_BitULe => str_to_node "bvule"
  | BinaryOp_BitUGe => str_to_node "bvuge"
  | BinaryOp_BitSLt => str_to_node "bvslt"
  | BinaryOp_BitSGt => str_to_node "bvsgt"
  | BinaryOp_BitSLe => str_to_node "bvsle"
  | BinaryOp_BitSGe => str_to_node "bvsge"
  | BinaryOp_LShr => str_to_node "bvlshr"
  | BinaryOp_AShr => str_to_node "bvashr"
  | BinaryOp_Shl => str_to_node "bvshl"
  | BinaryOp_BitConcat => str_to_node "concat"
  | BinaryOp_FloatAdd _ => str_to_node "fp.add"
  | BinaryOp_FloatSub _ => str_to_node "fp.sub"
  | BinaryOp_FloatMul _ => str_to_node "fp.mul"
  | BinaryOp_FloatDiv _ => str_to_node "fp.div"
  | BinaryOp_FloatEq => str_to_node "fp.eq"
  | BinaryOp_FloatLt => str_to_node "fp.lt"
  | BinaryOp_FloatGt => str_to_node "fp.gt"
  | BinaryOp_FloatLe => str_to_node "fp.leq"
  | BinaryOp_FloatGe => str_to_node "fp.geq"
  | BinaryOp_FieldUpdate field_ident =>
    Node_List [str_to_node "_"; str_to_node "update-field"; str_to_node field_ident]
  end.

Definition binary_round (op : BinaryOp) : list Node :=
  match op with
  | BinaryOp_FloatAdd r | BinaryOp_FloatSub r | BinaryOp_FloatMul r | BinaryOp_FloatDiv r =>
    [rounding_mode_to_node r]
  | _ => []
  end.

Definition multi_sop (op : MultiOp) : string :=
  match op with
  | MultiOp_And => "and"
  | MultiOp_Or => "or"
  | MultiOp_Xor => "xor"
  | MultiOp_Add => "+"
  | MultiOp_Sub => "-"
  | MultiOp_Mul => "*"
  | MultiOp_Distinct => "distinct"
  | MultiOp_Float => "fp"
  end.

Definition multi_to_node (op : MultiOp) (es : list Node) : Node :=
  match op with
  | MultiOp_Distinct =>
    if (List.length es <=? 1)%nat then Node_Atom "true"
    else Node_List (str_to_node (multi_sop op) :: es)
  | _ => Node_List (str_to_node (multi_sop op) :: es)
  end.

(** ** Binders *)

Definition binder_to_node {A} (f : A → Node) (binder : BinderX A) : Node :=
  Node_List [str_to_node (bname binder); f (ba binder)].

Definition binders_to_node {A} (f : A → Node) (binders : Binders A) : Node :=
  Node_List (binder_to_node f <$> binders).

Definition multibinder_to_node {A} (f : A → Node) (binder : BinderX (list A)) : Node :=
  Node_List (str_to_node (bname binder) :: (f <$> ba binder)).

(** ** Messages *)

Definition msgs_to_nodes (error : ArcDynMessage) : list Node :=
  (λ '(note, span),
     match span with
     | Some span =>
       if (0 <? String.length span)%nat then Node_List [quoted_atom note; quoted_atom span]
       else quoted_atom note
     | None => quoted_atom note
     end) <$> all_msgs_with_spans error.

(** ** Expressions *)

(** The closure [with_triggers], from the nodes of its arguments. *)
Definition with_triggers (expr : Node) (triggers : list Node) (qid : Qid) : Node :=
  if (List.length triggers =? 0)%nat && bool_decide (qid = None) then expr
  else
    Node_List (str_to_node "!" :: expr
      :: List.concat ((λ trigger, [str_to_node ":pattern"; trigger]) <$> triggers)
      ++ match qid with
         | Some s =>
           str_to_node ":qid" :: str_to_node s ::
           match smt_encoding p with
           | SmtEncoding_Z3 => [str_to_node ":skolemid"; str_to_node (mk_skolem_id s)]
           | SmtEncoding_Cvc5 => []
           end
         | None => []
         end).

Definition quant_name (q : Quant) : string :=
  match q with Quant_Forall => "forall" | Quant_Exists => "exists" end.

Fixpoint expr_to_node (expr : Expr) : Node :=
  let exprs_to_node (es : list Expr) := Node_List (List.map expr_to_node es) in
  let types bs := binders_to_node typ_to_node bs in
  match expr with
  | ExprX_Const (Constant_Bool b) => Node_Atom (if b then "true" else "false")
  | ExprX_Const (Constant_Nat n) => Node_Atom n
  | ExprX_Const (Constant_Real n) => Node_Atom n
  | ExprX_Const (Constant_BitVec n width) => bv_const_expr_to_node n width
  | ExprX_Var x => Node_Atom x
  | ExprX_Old snap x => node_list [Node_Atom "old"; str_to_node snap; str_to_node x]
  | ExprX_Apply x exprs => Node_List (str_to_node x :: List.map expr_to_node exprs)
  | ExprX_ApplyFun typ expr0 exprs =>
    Node_List (str_to_node "apply" :: typ_to_node typ :: expr_to_node expr0
               :: List.map expr_to_node exprs)
  | ExprX_Unary op e => unary_to_node op (expr_to_node e)
  | ExprX_Binary op lhs rhs =>
    Node_List (binary_sop op :: binary_round op ++ [expr_to_node lhs; expr_to_node rhs])
  | ExprX_Multi op exprs => multi_to_node op (List.map expr_to_node exprs)
  | ExprX_IfElse e1 e2 e3 =>
    node_list [Node_Atom "ite"; expr_to_node e1; expr_to_node e2; expr_to_node e3]
  | ExprX_Array exprs => Node_List (str_to_node "array" :: List.map expr_to_node exprs)
  | ExprX_Bind bind e =>
    match bind with
    | BindX_Let bs => node_list [Node_Atom "let"; binders_to_node expr_to_node bs; expr_to_node e]
    | BindX_Quant quant bs triggers qid =>
      let body := with_triggers (expr_to_node e) (List.map exprs_to_node triggers) qid in
      node_list [str_to_node (quant_name quant); types bs; body]
    | BindX_Lambda bs triggers qid wrap cond =>
      let body := with_triggers (expr_to_node e) (List.map exprs_to_node triggers) qid in
      match wrap, cond with
      | None, None => node_list [Node_Atom "lambda"; types bs; body]
      | None, Some expr_cond =>
        node_list [Node_Atom "lambda"; types bs; expr_to_node expr_cond; body]
      | Some (mkWrapLambda w id), None =>
        node_list [Node_Atom "lambda"; Node_Atom w; expr_to_node id; types bs; body]
      | Some (mkWrapLambda w id), Some expr_cond =>
        node_list [Node_Atom "lambda"; Node_Atom w; expr_to_node id; types bs;
                   expr_to_node expr_cond; body]
      end
    | BindX_Choose bs triggers qid expr_cond =>
      let cond := with_triggers (expr_to_node expr_cond) (List.map exprs_to_node triggers) qid in
      node_list [Node_Atom "choose"; types bs; cond; expr_to_node e]
    end
  | ExprX_LabeledAxiom labels filter e =>
    let spans := (λ s, quoted_atom (get_message_label_note s)) <$> labels in
    if (List.length spans =? 0)%nat && bool_decide (filter = None) then expr_to_node e
    else node_list [Node_Atom "axiom_location"; Node_List spans; filter_to_node filter;
                    expr_to_node e]
  | ExprX_LabeledAssertion _ error filter e =>
    let spans := msgs_to_nodes error in
    if (List.length spans =? 0)%nat && bool_decide (filter = None) then expr_to_node e
    else node_list [Node_Atom "location"; Node_List spans; filter_to_node filter; expr_to_node e]
  end.

Definition exprs_to_node (exprs : Exprs) : Node := Node_List (expr_to_node <$> exprs).

(** ** Declarations *)

Definition sort_decl_to_node (x : Ident) : Node :=
  node_list [Node_Atom "declare"; Node_Atom "-"; Node_Atom "sort"; str_to_node x; Node_Atom "0"].

Definition datatypes_decl_to_node (datatypes : Datatypes) : Node :=
  let decls := Node_List ((λ d, node_list [str_to_node (bname d); Node_Atom "0"]) <$> datatypes) in
  let defns := Node_List ((λ d,
    Node_List ((λ variant, multibinder_to_node (λ field, binder_to_node typ_to_node field) variant)
               <$> ba d)) <$> datatypes) in
  if print_as_smt p && (List.length datatypes =? 0)%nat
  then node_list [Node_Atom "assert"; Node_Atom "true"]
  else node_list [Node_Atom "declare"; Node_Atom "-"; Node_Atom "datatypes"; decls; defns].

Definition const_decl_to_node (x : Ident) (typ : Typ) : Node :=
  node_list [Node_Atom "declare"; Node_Atom "-"; Node_Atom "const"; str_to_node x; typ_to_node typ].

Definition fun_decl_to_node (x : Ident) (typs : Typs) (typ : Typ) : Node :=
  node_list [Node_Atom "declare"; Node_Atom "-"; Node_Atom "fun"; str_to_node x;
             typs_to_node typs; typ_to_node typ].

Definition var_decl_to_node (x : Ident) (typ : Typ) : Node :=
  node_list [Node_Atom "declare"; Node_Atom "-"; Node_Atom "var"; str_to_node x; typ_to_node typ].

Definition axiom_to_node (ax : Axiom_) : Node :=
  match named ax with
  | Some n =>
    node_list [Node_Atom "axiom";
               node_list [str_to_node "!"; expr_to_node (expr ax); str_to_node ":named";
                          str_to_node n]]
  | None => node_list [Node_Atom "axiom"; expr_to_node (expr ax)]
  end.

Definition decl_to_node (decl : Decl) : Node :=
  match decl with
  | DeclX_Sort x => sort_decl_to_node x
  | DeclX_Datatypes datatypes => datatypes_decl_to_node datatypes
  | DeclX_Const x typ => const_decl_to_node x typ
  | DeclX_Fun x typs typ => fun_decl_to_node x typs typ
  | DeclX_Var x typ => var_decl_to_node x typ
  | DeclX_Axiom ax => axiom_to_node ax
  end.

(** ** Statements and queries *)

Fixpoint stmt_to_node (stmt : Stmt) : Node :=
  match stmt with
  | StmtX_Assume e => node_list [Node_Atom "assume"; expr_to_node e]
  | StmtX_Assert _ labels filter e =>
    let spans := msgs_to_nodes labels in
    if (List.length spans =? 0)%nat && bool_decide (filter = None)
    then node_list [Node_Atom "assert"; expr_to_node e]
    else node_list [Node_Atom "assert"; Node_List spans; filter_to_node filter; expr_to_node e]
  | StmtX_Havoc x => node_list [Node_Atom "havoc"; str_to_node x]
  | StmtX_Assign x e => node_list [Node_Atom "assign"; str_to_node x; expr_to_node e]
  | StmtX_Snapshot snap => node_list [Node_Atom "snapshot"; str_to_node snap]
  | StmtX_DeadEnd s => node_list [Node_Atom "deadend"; stmt_to_node s]
  | StmtX_Breakable x s => node_list [Node_Atom "breakable"; str_to_node x; stmt_to_node s]
  | StmtX_Break x => node_list [Node_Atom "break"; str_to_node x]
  | StmtX_Block stmts => Node_List (str_to_node "block" :: List.map stmt_to_node stmts)
  | StmtX_Switch stmts => Node_List (str_to_node "switch" :: List.map stmt_to_node stmts)
  end.

Definition query_to_node (query : Query) : Node :=
  Node_List (str_to_node "check-valid" :: (decl_to_node <$> local query)
             ++ [stmt_to_node (assertion query)]).
End printer.
