(* ===== verification/Parser.v ===== *)
(** * The parser (source/air/src/parser.rs)

    [Parser] turns S-expression nodes into AIR.  Its messages quote the
    offending node as [node_to_string] prints it; that text is made by a
    library serializer, so the function is a parameter here.  An [assert!] that
    fails, an index out of range and a bad slice are [Panic]. *)

From S2P Require Import Prelude RustString Escape Ast AstUtil Messages Node.
From Stdlib Require Import Ascii String.
Set Warnings "-rewrite-rw,-register-all,-clear-no-such-hyp".
Local Open Scope string_scope.
Local Open Scope list_scope.
Local Open Scope res_scope.

#[global] Instance Node_eq_dec : EqDecision Node.
Proof.
  unfold EqDecision. fix go 1. intros m n.
  assert (all : ∀ l k : list Node, Decision (l = k)).
  { fix all 1. intros [|x l] [|y k]; [by left | by right.. |].
    destruct (go x y) as [->|]; [|right; congruence].
    destruct (all l k) as [->|]; [by left | right; congruence]. }
  destruct m as [s|l], n as [t|k]; [| by right.. |].
  - destruct (decide (s = t)) as [->|]; [by left | right; congruence].
  - destruct (all l k) as [->|]; [by left | right; congruence].
Defined.

(** ** Symbols *)

Definition symbol_punctuation : string := "~!@$%^&*_-+=<>.?/".

(** [str::contains] of a character. *)
Fixpoint contains_char (c : ascii) (s : string) : bool :=
  match s with EmptyString => false | String d s' => Ascii.eqb c d || contains_char c s' end.

Definition is_symbol_char (c : ascii) : bool :=
  is_ascii_alphanumeric c || contains_char c symbol_punctuation.

Definition is_symbol (s : string) : bool :=
  (0 <? String.length s)%nat && all_chars is_symbol_char s.

(** [nodes[0] == "_" && nodes[1] == "BitVec" && nodes.len() == 3 && ...]: the
    conditions are evaluated in this order, and an index may be out of range. *)
Definition is_bitvec (nodes : list Node) : res string (option N) :=
  let? n0 := expect (nodes !! 0) in
  if decide (n0 = Node_Atom "_") then
    let? n1 := expect (nodes !! 1) in
    if decide (n1 = Node_Atom "BitVec") then
      match nodes with
      | [_; _; Node_Atom s] => Ok (parse_u32 s)
      | _ => Ok None
      end
    else Ok None
  else Ok None.

Definition is_float_type (nodes : list Node) : res string (option Typ) :=
  let? n0 := expect (nodes !! 0) in
  if decide (n0 = Node_Atom "_") then
    let? n1 := expect (nodes !! 1) in
    if decide (n1 = Node_Atom "FloatingPoint") then
      match nodes with
      | [_; _; Node_Atom s2; Node_Atom s3] =>
        match parse_u32 s2, parse_u32 s3 with
        | Some exp_bits, Some sig_bits => Ok (Some (TypX_Float exp_bits sig_bits))
        | _, _ => Ok None
        end
      | _ => Ok None
      end
    else Ok None
  else Ok None.

Definition underscore_atom_atom_expr (s1 s2 : string) : option Constant :=
  value ← strip_prefix "bv" s1;
  width ← parse_u32 s2;
  Some (Constant_BitVec value width).

Definition relation_binary_op (n1 n2 : Node) : option BinaryOp :=
  match n1, n2 with
  | Node_Atom s1, Node_Atom s2 =>
    match parse_u64 s2 with
    | Some n =>
      if s1 =? "partial-order" then Some (BinaryOp_Relation Relation_PartialOrder n)
      else if s1 =? "linear-order" then Some (BinaryOp_Relation Relation_LinearOrder n)
      else if s1 =? "tree-order" then Some (BinaryOp_Relation Relation_TreeOrder n)
      else if s1 =? "piecewise-linear-order"
      then Some (BinaryOp_Relation Relation_PiecewiseLinearOrder n)
      else None
    | None => None
    end
  | _, _ => None
  end.

Definition field_update_binary_op (n1 n2 : Node) : option BinaryOp :=
  match n1, n2 with
  | Node_Atom s1, Node_Atom s2 =>
    if s1 =? "update-field" then Some (BinaryOp_FieldUpdate s2) else None
  | _, _ => None
  end.

(** [map_nodes_to_vec] is [rmap]; [map_nodes_to_vec_opt] keeps the [Some]s. *)
Definition map_nodes_to_vec {A} (f : Node → res string A) (nodes : list Node)
    : res string (list A) := rmap f nodes.

Fixpoint map_nodes_to_vec_opt {A} (f : Node → res string (option A)) (nodes : list Node)
    : res string (list A) :=
  match nodes with
  | [] => Ok []
  | node :: nodes' =>
    let? o := f node in
    let? v := map_nodes_to_vec_opt f nodes' in
    Ok (match o with Some y => y :: v | None => v end)
  end.

(** [s[1..s.len() - 1]], on bytes: it panics when the string has one byte. *)
Definition unquote (s : string) : res string string :=
  let n := String.length s in
  if (n <? 2)%nat then Panic else Ok (String.substring 1 (n - 2) s).

Definition quote : string := String (ascii_of_N 34) EmptyString.

Definition is_quoted_pair (nodes : list Node) : bool :=
  let is_quoted s := (2 <=? String.length s)%nat && starts_with quote s && ends_with quote s in
  match nodes with
  | [Node_Atom n; Node_Atom s] => is_quoted n && is_quoted s
  | _ => false
  end.

Inductive QuantOrChooseOrLambda :=
| QCL_Quant (q : Quant)
| QCL_Choose (e : Expr)
| QCL_Lambda (w : option (WrapLambda Expr)) (cond : option Expr).

(** ** Operators

    The [match] on the head of an application, one table per operator class. *)

Fixpoint lookup_op {A} (s : string) (table : list (string * A)) : option A :=
  match table with
  | [] => None
  | (k, v) :: table' => if s =? k then Some v else lookup_op s table'
  end.

Definition unary_names : list (string * UnaryOp) :=
  [ ("not", UnaryOp_Not); ("bvnot", UnaryOp_BitNot); ("bvneg", UnaryOp_BitNeg);
    ("fp.neg", UnaryOp_FloatNeg); ("fp.isNormal", UnaryOp_FloatIsNormal);
    ("fp.isSubnormal", UnaryOp_FloatIsSubnormal); ("fp.isZero", UnaryOp_FloatIsZero);
    ("fp.isInfinite", UnaryOp_FloatIsInfinite); ("fp.isNaN", UnaryOp_FloatIsNaN);
    ("fp.isNegative", UnaryOp_FloatIsNegative); ("fp.isPositive", UnaryOp_FloatIsPositive);
    ("fp.to_ieee_bv", UnaryOp_FloatToIeeeBits); ("fp.to_real", UnaryOp_FloatToReal);
    ("to_real", UnaryOp_ToReal); ("to_int", UnaryOp_RealToInt) ].

Definition binary_names : list (string * BinaryOp) :=
  [ ("=>", BinaryOp_Implies); ("=", BinaryOp_Eq); ("<=", BinaryOp_Le); (">=", BinaryOp_Ge);
    ("<", BinaryOp_Lt); (">", BinaryOp_Gt); ("div", BinaryOp_EuclideanDiv);
    ("mod", BinaryOp_EuclideanMod); ("/", BinaryOp_RealDiv); ("bvxor", BinaryOp_BitXor);
    ("bvand", BinaryOp_BitAnd); ("bvor", BinaryOp_BitOr); ("bvadd", BinaryOp_BitAdd);
    ("bvsub", BinaryOp_BitSub); ("bvmul", BinaryOp_BitMul); ("bvudiv", BinaryOp_BitUDiv);
    ("bvurem", BinaryOp_BitURem); ("bvsdiv", BinaryOp_BitSDiv); ("bvsrem", BinaryOp_BitSRem);
    ("bvult", BinaryOp_BitULt); ("bvugt", BinaryOp_BitUGt); ("bvule", BinaryOp_BitULe);
    ("bvuge", BinaryOp_BitUGe); ("bvslt", BinaryOp_BitSLt); ("bvsgt", BinaryOp_BitSGt);
    ("bvsle", BinaryOp_BitSLe); ("bvsge", BinaryOp_BitSGe); ("bvlshr", BinaryOp_LShr);
    ("bvashr", BinaryOp_AShr); ("bvshl", BinaryOp_Shl); ("concat", BinaryOp_BitConcat);
    ("fp.eq", BinaryOp_FloatEq); ("fp.lt", BinaryOp_FloatLt); ("fp.gt", BinaryOp_FloatGt);
    ("fp.leq", BinaryOp_FloatLe); ("fp.geq", BinaryOp_FloatGe) ].

Definition binary_round_names : list (string * (RoundingMode → BinaryOp)) :=
  [ ("fp.add", BinaryOp_FloatAdd); ("fp.sub", BinaryOp_FloatSub);
    ("fp.mul", BinaryOp_FloatMul); ("fp.div", BinaryOp_FloatDiv) ].

Definition multi_names : list (string * MultiOp) :=
  [ ("and", MultiOp_And); ("or", MultiOp_Or); ("xor", MultiOp_Xor); ("+", MultiOp_Add);
    ("-", MultiOp_Sub); ("*", MultiOp_Mul); ("distinct", MultiOp_Distinct);
    ("fp", MultiOp_Float) ].

Definition rounding_names : list (string * RoundingMode) :=
  [ ("RNE", RoundingMode_RNE); ("roundNearestTiesToEven", RoundingMode_RNE);
    ("RNA", RoundingMode_RNA); ("roundNearestTiesToAway", RoundingMode_RNA);
    ("RTP", RoundingMode_RTP); ("roundTowardPositive", RoundingMode_RTP);
    ("RTN", RoundingMode_RTN); ("roundTowardNegative", RoundingMode_RTN);
    ("RTZ", RoundingMode_RTZ); ("roundTowardZero", RoundingMode_RTZ) ].

(** The closure [round]: it removes the first argument, then reads the node it
    came from. *)
Definition round (nodes : list Node) (args : Exprs) : res string (RoundingMode * Exprs) :=
  match args with
  | [] => Panic
  | _ :: args' =>
    match nodes !! 1 with
    | Some (Node_Atom s) =>
      match lookup_op s rounding_names with
      | Some r => Ok (r, args')
      | None => Err "expected rounding mode in fp operation"
      end
    | _ => Err "expected rounding mode in fp operation"
    end
  end.

(** The binding [let uop = ...]; [args] is what [round] left of the arguments. *)
Definition unary_op_of (nodes : list Node) (head : Node) (args : Exprs)
    : res string (option UnaryOp * Exprs) :=
  match head with
  | Node_Atom s =>
    if s =? "fp.roundToIntegral" then
      let? (r, args) := round nodes args in
      Ok (Some (UnaryOp_FloatRoundToInt r), args)
    else Ok (lookup_op s unary_names, args)
  | Node_List [u; f; n2; n3] =>
    if bool_decide (u = Node_Atom "_")
       && (bool_decide (f = Node_Atom "to_fp") || bool_decide (f = Node_Atom "to_fp_unsigned"))
    then
      let signed := bool_decide (f = Node_Atom "to_fp") in
      let exp_sig_bits :=
        match n2, n3 with
        | Node_Atom s2, Node_Atom s3 =>
          match parse_u32 s2, parse_u32 s3 with
          | Some exp_bits, Some sig_bits => Some (exp_bits, sig_bits)
          | _, _ => None
          end
        | _, _ => None
        end in
      match exp_sig_bits with
      | Some (exp_bits, sig_bits) =>
        if (List.length args <=? 1)%nat && signed
        then Ok (Some (UnaryOp_FloatFromIeeeBits exp_bits sig_bits), args)
        else if (1 <? List.length args)%nat then
          let? (r, args) := round nodes args in
          Ok (Some (UnaryOp_FloatFrom exp_bits sig_bits signed r), args)
        else Ok (None, args)
      | None => Ok (None, args)
      end
    else if bool_decide (u = Node_Atom "_") && bool_decide (f = Node_Atom "extract") then
      match n2, n3 with
      | Node_Atom s2, Node_Atom s3 =>
        match parse_u32 s2, parse_u32 s3 with
        | Some hi, Some lo => Ok (Some (UnaryOp_BitExtract hi lo), args)
        | _, _ => Ok (None, args)
        end
      | _, _ => Ok (None, args)
      end
    else Ok (None, args)
  | Node_List [u; f; n2] =>
    if bool_decide (u = Node_Atom "_")
       && (bool_decide (f = Node_Atom "fp.to_ubv") || bool_decide (f = Node_Atom "fp.to_sbv"))
    then
      let signed := bool_decide (f = Node_Atom "fp.to_sbv") in
      let? (r, args) := round nodes args in
      match n2 with
      | Node_Atom s2 =>
        match parse_u32 s2 with
        | Some bits => Ok (Some (UnaryOp_FloatToBitVec bits signed r), args)
        | None => Ok (None, args)
        end
      | _ => Ok (None, args)
      end
    else if bool_decide (u = Node_Atom "_")
       && (bool_decide (f = Node_Atom "zero_extend") || bool_decide (f = Node_Atom "sign_extend"))
    then
      match n2 with
      | Node_Atom s2 =>
        match parse_u32 s2 with
        | Some n =>
          if bool_decide (f = Node_Atom "zero_extend")
          then Ok (Some (UnaryOp_BitZeroExtend n), args)
          else Ok (Some (UnaryOp_BitSignExtend n), args)
        | None => Ok (None, args)
        end
      | _ => Ok (None, args)
      end
    else Ok (None, args)
  | _ => Ok (None, args)
  end.

(** The binding [let bop = ...]. *)
Definition binary_op_of (nodes : list Node) (head : Node) (args : Exprs)
    : res string (option BinaryOp * Exprs) :=
  match head with
  | Node_Atom s =>
    match lookup_op s binary_round_names with
    | Some op => let? (r, args) := round nodes args in Ok (Some (op r), args)
    | None => Ok (lookup_op s binary_names, args)
    end
  | Node_List [u; n1; n2] =>
    if bool_decide (u = Node_Atom "_") then
      match relation_binary_op n1 n2 with
      | Some op => Ok (Some op, args)
      | None => Ok (field_update_binary_op n1 n2, args)
      end
    else Ok (None, args)
  | _ => Ok (None, args)
  end.

Definition multi_op_of (head : Node) : option MultiOp :=
  match head with Node_Atom s => lookup_op s multi_names | _ => None end.

Section parser.
Context `{M : MessageInterface} (node_to_string : Node → string).

Definition expected {A} (what : string) (node : Node) : res string A :=
  Err ("expected " +:+ what +:+ ", found: " +:+ node_to_string node).

(** ** Types, labels, filters *)

Definition float_names : list (string * Typ) :=
  [ ("Bool", TypX_Bool); ("Int", TypX_Int); ("Real", TypX_Real); ("Fun", TypX_Fun);
    ("Float16", TypX_Float 5 11); ("Float32", TypX_Float 8 24);
    ("Float64", TypX_Float 11 53); ("Float128", TypX_Float 15 113) ].

Definition node_to_typ (node : Node) : res string Typ :=
  match node with
  | Node_Atom s =>
    match lookup_op s float_names with
    | Some t => Ok t
    | None => if is_symbol s then Ok (TypX_Named s) else expected "type" node
    end
  | Node_List nodes =>
    let? bits := is_bitvec nodes in
    match bits with
    | Some n => Ok (TypX_BitVec n)
    | None =>
      let? float := is_float_type nodes in
      match float with
      | Some t => Ok t
      | None => expected "type" node
      end
    end
  end.

(** [Option::ok_or]. *)
Definition ok_or {E A} (o : option A) (e : E) : res E A :=
  match o with Some y => Ok y | None => Err e end.

Definition node_to_label (node : Node) : res string ArcDynMessageLabel :=
  match node with
  | Node_Atom label =>
    if starts_with quote label && ends_with quote label then
      let? as_string := unquote label in
      Ok (message_label_from_air_span as_string as_string)
    else expected "quoted string" node
  | Node_List nodes =>
    match nodes with
    | [Node_Atom n; Node_Atom s] =>
      if is_quoted_pair nodes then
        let? note := unquote n in
        let? note := ok_or (unescape note) "bad string literal" in
        let? span := unquote s in
        let? span := ok_or (unescape span) "bad string literal" in
        Ok (message_label_from_air_span span note)
      else expected "quoted string" node
    | _ => expected "quoted string" node
    end
  end.

Definition nodes_to_labels (nodes : list Node) : res string (list ArcDynMessageLabel) :=
  rmap node_to_label nodes.

Definition nodes_to_filter (nodes : list Node) : res string (option Ident) :=
  match nodes with
  | [] => Ok None
  | [node] =>
    match node with
    | Node_Atom s => if is_symbol s then Ok (Some s) else expected "symbol" node
    | _ => expected "symbol" node
    end
  | _ => Panic
  end.

(** ** Binders, triggers *)

Definition node_to_binder {A} (f : Node → res string A) (node : Node) : res string (BinderX A) :=
  match node with
  | Node_List [Node_Atom name; n] =>
    if is_symbol name then let? y := f n in Ok (mkBinder name y)
    else expected "binder (...)" node
  | _ => expected "binder (...)" node
  end.

Definition node_to_multibinder {A} (f : Node → res string A) (node : Node)
    : res string (BinderX (list A)) :=
  match node with
  | Node_List [] => Panic
  | Node_List (Node_Atom name :: nodes) =>
    if is_symbol name then let? tail := rmap f nodes in Ok (mkBinder name tail)
    else expected "binder (...)" node
  | _ => expected "binder (...)" node
  end.

Definition nodes_to_binders {A} (f : Node → res string A) (nodes : list Node)
    : res string (Binders A) := rmap (node_to_binder f) nodes.

(** The loop of [nodes_to_triggers_and_qid] and the checks that follow it. *)
Section triggers.
Variable nodes_to_exprs : list Node → res string Exprs.

Definition check_skolemid (triggers : Triggers) (qid : Qid) (skolemid : option string)
    : res string (Triggers * Qid) :=
  match qid, skolemid with
  | Some q, Some skolem =>
    let expected_skolemid := mk_skolem_id q in
    if skolem =? expected_skolemid then Ok (triggers, qid)
    else Err ("for qid " +:+ q +:+ ", expected skolemid " +:+ expected_skolemid +:+ "; found "
              +:+ skolem)
  | Some q, None =>
    Err ("for qid " +:+ q +:+ ", expected skolemid " +:+ mk_skolem_id q
         +:+ " but found no skolemid at all")
  | None, Some _ => Err "skolemid must be accompanied by a qid"
  | None, None => Ok (triggers, qid)
  end.

Fixpoint triggers_loop (nodes : list Node) (triggers : Triggers) (qid : Qid)
    (skolemid : option string) (consume_pattern consume_qid consume_skolemid : bool)
    : res string (Triggers * Qid) :=
  match nodes with
  | [] => check_skolemid triggers qid skolemid
  | node :: nodes' =>
    match node with
    | Node_Atom s =>
      if s =? ":pattern" then
        triggers_loop nodes' triggers qid skolemid true consume_qid consume_skolemid
      else if s =? ":qid" then
        triggers_loop nodes' triggers qid skolemid consume_pattern true consume_skolemid
      else if s =? ":skolemid" then
        triggers_loop nodes' triggers qid skolemid consume_pattern consume_qid true
      else if consume_qid && bool_decide (qid = None) then
        triggers_loop nodes' triggers (Some s) skolemid consume_pattern false consume_skolemid
      else if consume_skolemid && bool_decide (skolemid = None) then
        triggers_loop nodes' triggers qid (Some s) consume_pattern consume_qid false
      else Err ("expected quantifier pattern, qid, or skolemid; found " +:+ node_to_string node)
    | Node_List trigger_nodes =>
      if consume_pattern then
        let? trigger := nodes_to_exprs trigger_nodes in
        triggers_loop nodes' (triggers ++ [trigger]) qid skolemid false consume_qid
          consume_skolemid
      else Err ("expected quantifier pattern, qid, or skolemid; found " +:+ node_to_string node)
    end
  end.

Definition nodes_to_triggers_and_qid (nodes : list Node) : res string (Triggers * Qid) :=
  triggers_loop nodes [] None None false false false.
End triggers.

Fixpoint named_loop (nodes : list Node) (named : option Ident) (consume_named : bool)
    : res string (option Ident) :=
  match nodes with
  | [] => Ok named
  | node :: nodes' =>
    match node with
    | Node_Atom s =>
      if s =? ":named" then named_loop nodes' named true
      else if consume_named && bool_decide (named = None) then named_loop nodes' (Some s) false
      else Err ("expected :named; found " +:+ node_to_string node)
    | _ => Err ("expected :named; found " +:+ node_to_string node)
    end
  end.

Definition nodes_to_named (nodes : list Node) : res string (option Ident) :=
  named_loop nodes None false.

(** ** Expressions *)

(** The last [match] of [node_to_expr]. *)
Definition build_application (node head : Node) (args : Exprs) (uop : option UnaryOp)
    (bop : option BinaryOp) (lop : option MultiOp) : res string Expr :=
  let ite := match head with Node_Atom s => s =? "ite" | _ => false end in
  let fun_ := match head with Node_Atom s => if is_symbol s then Some s else None | _ => None end in
  match args, uop, bop, lop with
  | [e1], Some op, _, _ => Ok (ExprX_Unary op e1)
  | [e1; e2], _, Some op, _ => Ok (ExprX_Binary op e1 e2)
  | _, _, _, Some op => Ok (ExprX_Multi op args)
  | _, _, _, None =>
    if ite then
      let? e1 := expect (args !! 0) in
      let? e2 := expect (args !! 1) in
      let? e3 := expect (args !! 2) in
      Ok (ExprX_IfElse e1 e2 e3)
    else
      match fun_ with
      | Some x => Ok (ExprX_Apply x args)
      | None => expected "expression" node
      end
  end.

(** The [if let] around the closing clauses: the first clause that applies. *)
Definition orelse {A} (o1 o2 : option A) : option A := match o1 with Some _ => o1 | None => o2 end.

Definition node_to_quant_or_lambda_expr (node_to_expr : Node → res string Expr)
    (qcl : QuantOrChooseOrLambda) (binder_nodes : list Node) (expr : Node) : res string Expr :=
  let? binders := nodes_to_binders node_to_typ binder_nodes in
  let? (expr, (triggers, qid)) :=
    match expr with
    | Node_List (Node_Atom s :: n1 :: rest) =>
      if s =? "!" then
        let? tq := nodes_to_triggers_and_qid (rmap node_to_expr) rest in
        let? e := node_to_expr n1 in
        Ok (e, tq)
      else
        let? e := node_to_expr expr in Ok (e, ([], None))
    | _ => let? e := node_to_expr expr in Ok (e, ([], None))
    end in
  Ok match qcl with
     | QCL_Quant quant => ExprX_Bind (BindX_Quant quant binders triggers qid) expr
     | QCL_Choose body => ExprX_Bind (BindX_Choose binders triggers qid expr) body
     | QCL_Lambda wrap cond => ExprX_Bind (BindX_Lambda binders triggers qid wrap cond) expr
     end.

Definition node_to_let_expr (node_to_expr : Node → res string Expr) (binder_nodes : list Node)
    (expr : Node) : res string Expr :=
  let? binders := nodes_to_binders node_to_expr binder_nodes in
  let? body := node_to_expr expr in
  Ok (mk_let binders body).

Definition node_to_atom_expr (s : string) : res string Expr :=
  if s =? "true" then Ok (ExprX_Const (Constant_Bool true))
  else if s =? "false" then Ok (ExprX_Const (Constant_Bool false))
  else if (0 <? String.length s)%nat && all_chars is_ascii_digit s
  then Ok (ExprX_Const (Constant_Nat s))
  else if is_valid_real s then Ok (ExprX_Const (Constant_Real s))
  else if is_symbol s then Ok (ExprX_Var s)
  else expected "expression" (Node_Atom s).

(** The clauses of [match &nodes[..]] that return: [None] when none applies. *)
Definition node_to_form (node_to_expr : Node → res string Expr) (nodes : list Node)
    : option (res string Expr) :=
  match nodes with
  | [Node_Atom s; Node_List ns; (Node_List filter) as e1; e] =>
    if (s =? "location") && (List.length filter <=? 1)%nat then Some (
      let? labels := nodes_to_labels ns in
      let error := from_labels labels in
      let? filter := nodes_to_filter filter in
      let? expr := node_to_expr e in
      Ok (ExprX_LabeledAssertion None error filter expr))
    else if (s =? "axiom_location") && (List.length filter <=? 1)%nat then Some (
      let? labels := nodes_to_labels ns in
      let? filter := nodes_to_filter filter in
      let? expr := node_to_expr e in
      Ok (ExprX_LabeledAxiom labels filter expr))
    else if s =? "lambda" then Some (
      let? cond := node_to_expr e1 in
      node_to_quant_or_lambda_expr node_to_expr (QCL_Lambda None (Some cond)) ns e)
    else if s =? "choose" then Some (
      let? e2 := node_to_expr e in
      node_to_quant_or_lambda_expr node_to_expr (QCL_Choose e2) ns e1)
    else None
  | [Node_Atom s; Node_List binders; (Node_Atom _) as e1; body] =>
    if s =? "lambda" then Some (
      let? cond := node_to_expr e1 in
      node_to_quant_or_lambda_expr node_to_expr (QCL_Lambda None (Some cond)) binders body)
    else if s =? "choose" then Some (
      let? e2 := node_to_expr body in
      node_to_quant_or_lambda_expr node_to_expr (QCL_Choose e2) binders e1)
    else None
  | [Node_Atom s; Node_Atom s1; Node_Atom s2] =>
    if (s =? "old") && is_symbol s1 && is_symbol s2 then Some (Ok (ExprX_Old s1 s2))
    else if s =? "_" then (λ c, Ok (ExprX_Const c)) <$> underscore_atom_atom_expr s1 s2
    else None
  | [Node_Atom s; Node_List binders; e] =>
    if s =? "let" then Some (node_to_let_expr node_to_expr binders e)
    else if s =? "forall" then
      Some (node_to_quant_or_lambda_expr node_to_expr (QCL_Quant Quant_Forall) binders e)
    else if s =? "exists" then
      Some (node_to_quant_or_lambda_expr node_to_expr (QCL_Quant Quant_Exists) binders e)
    else if s =? "lambda" then
      Some (node_to_quant_or_lambda_expr node_to_expr (QCL_Lambda None None) binders e)
    else None
  | [Node_Atom s; Node_Atom w; id; Node_List binders; body] =>
    if s =? "lambda" then Some (
      let? id := node_to_expr id in
      node_to_quant_or_lambda_expr node_to_expr (QCL_Lambda (Some (mkWrapLambda w id)) None)
        binders body)
    else None
  | [Node_Atom s; Node_Atom w; id; Node_List binders; cond; body] =>
    if s =? "lambda" then Some (
      let? id := node_to_expr id in
      let? cond := node_to_expr cond in
      node_to_quant_or_lambda_expr node_to_expr
        (QCL_Lambda (Some (mkWrapLambda w id)) (Some cond)) binders body)
    else None
  | _ => None
  end.

(** The clauses for [apply] and [array]. *)
Definition node_to_apply (node_to_expr : Node → res string Expr) (nodes : list Node)
    : option (res string Expr) :=
  match nodes with
  | Node_Atom s :: nodes1 =>
    if (s =? "apply") && (3 <=? List.length nodes)%nat then
      match nodes1 with
      | n1 :: n2 :: rest => Some (
          let? typ := node_to_typ n1 in
          let? f := node_to_expr n2 in
          let? args := rmap node_to_expr rest in
          Ok (ExprX_ApplyFun typ f args))
      | _ => None
      end
    else if s =? "array" then Some (
      let? args := rmap node_to_expr nodes1 in
      Ok (ExprX_Array args))
    else None
  | _ => None
  end.

Fixpoint node_to_expr (node : Node) : res string Expr :=
  match node with
  | Node_Atom s => node_to_atom_expr s
  | Node_List [] => expected "expression" node
  | Node_List ((head :: rest) as nodes) =>
    match orelse (node_to_form node_to_expr nodes) (node_to_apply node_to_expr nodes) with
    | Some r => r
    | None =>
      let? args := rmap node_to_expr rest in
      let? (uop, args) := unary_op_of nodes head args in
      let? (bop, args) := binary_op_of nodes head args in
      build_application node head args uop bop (multi_op_of head)
    end
  end.

Definition nodes_to_exprs (nodes : list Node) : res string Exprs := map_nodes_to_vec node_to_expr nodes.

(** ** Statements *)

Fixpoint node_to_stmt (node : Node) : res string Stmt :=
  match node with
  | Node_Atom _ => expected "statement" node
  | Node_List nodes =>
    let others :=
      match nodes with
      | [] => Panic
      | Node_Atom s :: rest =>
        if s =? "block" then let? ss := rmap node_to_stmt rest in Ok (StmtX_Block ss)
        else if s =? "switch" then let? ss := rmap node_to_stmt rest in Ok (StmtX_Switch ss)
        else expected "statement" node
      | _ => expected "statement" node
      end in
    match nodes with
    | [Node_Atom s; e] =>
      if s =? "assume" then let? expr := node_to_expr e in Ok (StmtX_Assume expr)
      else if s =? "assert" then
        let? expr := node_to_expr e in Ok (StmtX_Assert None mi_empty None expr)
      else if s =? "deadend" then let? stmt := node_to_stmt e in Ok (StmtX_DeadEnd stmt)
      else
        match e with
        | Node_Atom x =>
          if (s =? "havoc") && is_symbol x then Ok (StmtX_Havoc x)
          else if (s =? "snapshot") && is_symbol x then Ok (StmtX_Snapshot x)
          else if s =? "break" then Ok (StmtX_Break x)
          else others
        | _ => others
        end
    | [Node_Atom s; Node_Atom x; e] =>
      if (s =? "assign") && is_symbol x then
        let? expr := node_to_expr e in Ok (StmtX_Assign x expr)
      else if s =? "breakable" then let? stmt := node_to_stmt e in Ok (StmtX_Breakable x stmt)
      else others
    | [Node_Atom s; Node_List nodes; Node_List filter; e] =>
      if (s =? "assert") && (List.length filter <=? 1)%nat then
        let? labels := nodes_to_labels nodes in
        let error := from_labels labels in
        let? filter := nodes_to_filter filter in
        let? expr := node_to_expr e in
        Ok (StmtX_Assert None error filter expr)
      else others
    | _ => others
    end
  end.

Definition nodes_to_stmts (nodes : list Node) : res string Stmts := map_nodes_to_vec node_to_stmt nodes.

(** ** Declarations *)

Definition node_to_datatype_name (node : Node) : res string string :=
  match node with
  | Node_List [Node_Atom name; Node_Atom params] =>
    if params =? "0" then Ok name else expected "datatype declaration" node
  | _ => expected "datatype declaration" node
  end.

Definition node_to_variants (node : Node) : res string Variants :=
  match node with
  | Node_List variants =>
    rmap (λ variant, node_to_multibinder (λ field, node_to_binder (λ t, node_to_typ t) field)
                       variant) variants
  | _ => expected "list of variants" node
  end.

Definition node_to_datatypes (decls defns : list Node) : res string Decl :=
  let? decls := rmap node_to_datatype_name decls in
  let? defns := rmap node_to_variants defns in
  Ok (DeclX_Datatypes (zip_with mkBinder decls defns)).

Definition node_to_axiom (axiom_node : Node) : res string Decl :=
  let? (e, named) :=
    match axiom_node with
    | Node_List (Node_Atom s :: n1 :: rest) =>
      if s =? "!" then let? named := nodes_to_named rest in Ok (n1, named)
      else Ok (axiom_node, None)
    | _ => Ok (axiom_node, None)
    end in
  let? expr := node_to_expr e in
  Ok (DeclX_Axiom (mkAxiom named expr)).

Definition node_to_decl (node : Node) : res string Decl :=
  match node with
  | Node_List [Node_Atom s; axiom_node] =>
    if s =? "axiom" then node_to_axiom axiom_node else expected "declaration" node
  | Node_List [Node_Atom s; Node_Atom x; t] =>
    if (s =? "declare-sort") && is_symbol x && bool_decide (t = Node_Atom "0")
    then Ok (DeclX_Sort x)
    else if (s =? "declare-const") && is_symbol x then
      let? typ := node_to_typ t in Ok (DeclX_Const x typ)
    else if (s =? "declare-var") && is_symbol x then
      let? typ := node_to_typ t in Ok (DeclX_Var x typ)
    else expected "declaration" node
  | Node_List [Node_Atom s; Node_List decls; Node_List defns] =>
    if (s =? "declare-datatypes") && (List.length decls =? List.length defns)%nat
    then node_to_datatypes decls defns
    else expected "declaration" node
  | Node_List [Node_Atom s; Node_Atom x; Node_List ts; t] =>
    if (s =? "declare-fun") && is_symbol x then
      let? typs := rmap node_to_typ ts in
      let? typ := node_to_typ t in
      Ok (DeclX_Fun x typs typ)
    else expected "declaration" node
  | _ => expected "declaration" node
  end.

Definition nodes_to_decls (nodes : list Node) : res string Decls := map_nodes_to_vec node_to_decl nodes.

(** ** Commands *)

Definition node_to_set_option (node : Node) (nodes : list Node) : res string Command :=
  match nodes with
  | [_; Node_Atom option; Node_Atom value] =>
    if starts_with ":" option then
      Ok (CommandX_SetOption (String.substring 1 (String.length option - 1) option) value)
    else expected "command" node
  | _ => expected "command" node
  end.

Definition node_to_check_valid (rest : list Node) : res string Command :=
  let? last_node := expect (last rest) in
  let? assertion := node_to_stmt last_node in
  let? local := nodes_to_decls (take (List.length rest - 1) rest) in
  Ok (CommandX_CheckValid (mkQuery local assertion)).

Definition node_to_command (node : Node) : res string Command :=
  match node with
  | Node_List (head :: rest) =>
    let global := let? decl := node_to_decl node in Ok (CommandX_Global decl) in
    match head with
    | Node_Atom s =>
      let len := S (List.length rest) in
      if (s =? "push") && (len =? 1)%nat then Ok CommandX_Push
      else if (s =? "pop") && (len =? 1)%nat then Ok CommandX_Pop
      else if (s =? "set-option") && (len =? 3)%nat then node_to_set_option node (head :: rest)
      else if (s =? "check-valid") && (2 <=? len)%nat then node_to_check_valid rest
      else global
    | _ => global
    end
  | _ => expected "command" node
  end.

Definition nodes_to_commands (nodes : list Node) : res string Commands :=
  map_nodes_to_vec node_to_command nodes.

(** ** Models (model.rs) *)

Record ModelDefX := mkModelDef {
  md_name : Ident;
  md_params : Binders Typ;
  md_ret : Typ;
  md_body : string
}.

Definition node_to_model_def (node : Node) : res string (option ModelDefX) :=
  match node with
  | Node_List [Node_Atom s; Node_Atom x; Node_List param_nodes; t; body] =>
    if (s =? "define-fun") && is_symbol x then
      let? params := nodes_to_binders node_to_typ param_nodes in
      let? ret := node_to_typ t in
      Ok (Some (mkModelDef x params ret (node_to_string body)))
    else Ok None
  | _ => Ok None
  end.

Definition nodes_to_model_defs (nodes : list Node) : res string (list ModelDefX) :=
  map_nodes_to_vec_opt node_to_model_def nodes.

Definition node_to_model (node : Node) : res string (list ModelDefX) :=
  match node with
  | Node_Atom _ => expected "model" node
  | Node_List nodes => nodes_to_model_defs nodes
  end.

(** [lines_to_model], after the library's S-expression parser: [expect] turns
    an error into a panic. *)
Definition lines_to_model (parse_sexpression : list string → Node) (lines : list string)
    : res unit (list ModelDefX) :=
  match node_to_model (parse_sexpression lines) with
  | Ok defs => Ok defs
  | _ => Panic
  end.
End parser.
