(* ===== verification/Roundtrip.v ===== *)
(** * Parsing what the printer prints (printer.rs, parser.rs)

    [typ_ok], [expr_ok], [stmt_ok], [decl_ok] are the names and literals for
    which the AIR syntax is unambiguous; [reread] is what the parser makes of
    the printed form: the same tree, except that labels become what their text
    says, assert ids are dropped, and the forms the printer simplifies stay
    simplified.  The printer is in AIR mode and prints for Z3. *)

From S2P Require Import Prelude RustString Escape Ast AstUtil Messages Node Printer Parser.
From Stdlib Require Import Ascii String.
Set Warnings "-rewrite-rw,-register-all,-clear-no-such-hyp".
Local Open Scope string_scope.
Local Open Scope list_scope.
Local Open Scope res_scope.

Definition air_printer : Printer := mkPrinter false SmtEncoding_Z3.

(** ** Names *)

(** A symbol that the printer's macros never join with its neighbours. *)
Definition sym (x : string) : bool := is_symbol x && plain x.

(** The heads that [node_to_expr] treats specially. *)
Definition keywords : list string :=
  ["location"; "axiom_location"; "old"; "let"; "forall"; "exists"; "lambda"; "choose"; "_";
   "apply"; "array"; "!"; "ite"; "fp.roundToIntegral"]
  ++ unary_names.*1 ++ binary_names.*1 ++ binary_round_names.*1 ++ multi_names.*1.

Definition fun_ok (x : string) : bool := is_symbol x && bool_decide (x ∉ keywords).

Definition numeral (n : string) : bool := (0 <? String.length n)%nat && all_chars is_ascii_digit n.

Definition var_ok (x : string) : bool :=
  sym x && negb (x =? "true") && negb (x =? "false") && negb (numeral x) && negb (is_valid_real x).

Definition u32_ok (n : N) : bool := (n <? u32_bound)%N.

Definition typ_ok (t : Typ) : bool :=
  match t with
  | TypX_Named x => sym x && bool_decide (lookup_op x float_names = None)
  | TypX_BitVec n => u32_ok n
  | TypX_Float e s => u32_ok e && u32_ok s
  | _ => true
  end.

Definition unary_ok (op : UnaryOp) : bool :=
  match op with
  | UnaryOp_BitExtract h l => u32_ok h && u32_ok l
  | UnaryOp_BitZeroExtend n | UnaryOp_BitSignExtend n => u32_ok n
  | UnaryOp_FloatFromIeeeBits e s | UnaryOp_FloatFrom e s _ _ => u32_ok e && u32_ok s
  | UnaryOp_FloatToBitVec n _ _ => u32_ok n
  | _ => true
  end.

Definition binary_ok (op : BinaryOp) : bool :=
  match op with BinaryOp_Relation _ n => (n <? u64_bound)%N | _ => true end.

Definition const_ok (c : Constant) : bool :=
  match c with
  | Constant_Bool _ => true
  | Constant_Nat n => numeral n
  | Constant_Real n => is_valid_real n
  | Constant_BitVec n w => all_chars is_ascii_digit n && u32_ok w
  end.

Definition qid_ok (q : Qid) : bool :=
  match q with
  | Some s => negb (s =? ":pattern") && negb (s =? ":qid") && negb (s =? ":skolemid")
  | None => true
  end.

Definition filter_ok (f : option Ident) : bool :=
  match f with Some x => is_symbol x | None => true end.

Definition types_ok (bs : Binders Typ) : bool := forallb (λ b, is_symbol (bname b) && typ_ok (ba b)) bs.

Section roundtrip.
Context `{M : MessageInterface}.

Definition msg_ok (m : ArcDynMessage) : bool :=
  forallb (λ '(n, s), bool_decide (utf8 n) &&
                      match s with Some s => bool_decide (utf8 s) | None => true end)
    (all_msgs_with_spans m).

Fixpoint expr_ok (e : Expr) : bool :=
  match e with
  | ExprX_Const c => const_ok c
  | ExprX_Var x => var_ok x
  | ExprX_Old snap x => sym snap && sym x
  | ExprX_Apply x es => fun_ok x && forallb expr_ok es
  | ExprX_ApplyFun t e0 es => typ_ok t && expr_ok e0 && forallb expr_ok es
  | ExprX_Unary op e1 => unary_ok op && expr_ok e1
  | ExprX_Binary op e1 e2 => binary_ok op && expr_ok e1 && expr_ok e2
  | ExprX_Multi _ es => forallb expr_ok es
  | ExprX_IfElse e1 e2 e3 => expr_ok e1 && expr_ok e2 && expr_ok e3
  | ExprX_Array es => forallb expr_ok es
  | ExprX_Bind b e1 =>
    expr_ok e1 &&
    match b with
    | BindX_Let bs => forallb (λ b, is_symbol (bname b) && expr_ok (ba b)) bs
    | BindX_Quant _ bs ts qid => types_ok bs && forallb (forallb expr_ok) ts && qid_ok qid
    | BindX_Lambda bs ts qid w cond =>
      types_ok bs && forallb (forallb expr_ok) ts && qid_ok qid
      && match w with Some (mkWrapLambda n i) => plain n && expr_ok i | None => true end
      && match cond with Some c => expr_ok c | None => true end
    | BindX_Choose bs ts qid cond =>
      types_ok bs && forallb (forallb expr_ok) ts && qid_ok qid && expr_ok cond
    end
  | ExprX_LabeledAxiom _ f e1 => filter_ok f && expr_ok e1
  | ExprX_LabeledAssertion _ m f e1 => msg_ok m && filter_ok f && expr_ok e1
  end.

(** ** What comes back *)

(** A note without a span is printed as one atom, which the parser does not
    unescape and uses as the span too. *)
Definition reread_note (n : string) : ArcDynMessageLabel :=
  message_label_from_air_span (escape n) (escape n).

Definition reread_msg (m : ArcDynMessage) : list ArcDynMessageLabel :=
  (λ '(n, s), match s with
              | Some s => if (0 <? String.length s)%nat then message_label_from_air_span s n
                          else reread_note n
              | None => reread_note n
              end) <$> all_msgs_with_spans m.

Fixpoint reread (e : Expr) : Expr :=
  match e with
  | ExprX_Const _ | ExprX_Var _ | ExprX_Old _ _ => e
  | ExprX_Apply x es => ExprX_Apply x (List.map reread es)
  | ExprX_ApplyFun t e0 es => ExprX_ApplyFun t (reread e0) (List.map reread es)
  | ExprX_Unary op e1 => ExprX_Unary op (reread e1)
  | ExprX_Binary op e1 e2 => ExprX_Binary op (reread e1) (reread e2)
  | ExprX_Multi op es =>
    if bool_decide (op = MultiOp_Distinct) && (List.length es <=? 1)%nat
    then ExprX_Const (Constant_Bool true) else ExprX_Multi op (List.map reread es)
  | ExprX_IfElse e1 e2 e3 => ExprX_IfElse (reread e1) (reread e2) (reread e3)
  | ExprX_Array es => ExprX_Array (List.map reread es)
  | ExprX_Bind b e1 =>
    let ts_of ts := List.map (List.map reread) ts in
    match b with
    | BindX_Let bs => mk_let (List.map (λ b, mkBinder (bname b) (reread (ba b))) bs) (reread e1)
    | BindX_Quant q bs ts qid => ExprX_Bind (BindX_Quant q bs (ts_of ts) qid) (reread e1)
    | BindX_Lambda bs ts qid w cond =>
      ExprX_Bind (BindX_Lambda bs (ts_of ts) qid
        match w with Some (mkWrapLambda n i) => Some (mkWrapLambda n (reread i)) | None => None end
        match cond with Some c => Some (reread c) | None => None end) (reread e1)
    | BindX_Choose bs ts qid cond =>
      ExprX_Bind (BindX_Choose bs (ts_of ts) qid (reread cond)) (reread e1)
    end
  | ExprX_LabeledAxiom ls f e1 =>
    if (List.length ls =? 0)%nat && bool_decide (f = None) then reread e1
    else ExprX_LabeledAxiom ((λ l, reread_note (get_message_label_note l)) <$> ls) f (reread e1)
  | ExprX_LabeledAssertion _ m f e1 =>
    if (List.length (all_msgs_with_spans m) =? 0)%nat && bool_decide (f = None) then reread e1
    else ExprX_LabeledAssertion None (from_labels (reread_msg m)) f (reread e1)
  end.

(** The expressions that come back unchanged: no labels, and none of the two
    forms the printer and the parser simplify. *)
Fixpoint unlabeled (e : Expr) : bool :=
  match e with
  | ExprX_Const _ | ExprX_Var _ | ExprX_Old _ _ => true
  | ExprX_Apply _ es | ExprX_Array es => forallb unlabeled es
  | ExprX_ApplyFun _ e0 es => unlabeled e0 && forallb unlabeled es
  | ExprX_Unary _ e1 => unlabeled e1
  | ExprX_Binary _ e1 e2 => unlabeled e1 && unlabeled e2
  | ExprX_Multi op es =>
    forallb unlabeled es && negb (bool_decide (op = MultiOp_Distinct) && (List.length es <=? 1)%nat)
  | ExprX_IfElse e1 e2 e3 => unlabeled e1 && unlabeled e2 && unlabeled e3
  | ExprX_Bind b e1 =>
    unlabeled e1 &&
    match b with
    | BindX_Let bs => forallb (λ b, unlabeled (ba b)) bs && negb (List.length bs =? 0)%nat
    | BindX_Quant _ _ ts _ => forallb (forallb unlabeled) ts
    | BindX_Lambda _ ts _ w cond =>
      forallb (forallb unlabeled) ts
      && match w with Some (mkWrapLambda _ i) => unlabeled i | None => true end
      && match cond with Some c => unlabeled c | None => true end
    | BindX_Choose _ ts _ cond => forallb (forallb unlabeled) ts && unlabeled cond
    end
  | ExprX_LabeledAxiom _ _ _ | ExprX_LabeledAssertion _ _ _ _ => false
  end.

Fixpoint stmt_ok (s : Stmt) : bool :=
  match s with
  | StmtX_Assume e => expr_ok e
  | StmtX_Assert _ m f e => msg_ok m && filter_ok f && expr_ok e
  | StmtX_Havoc x | StmtX_Snapshot x => sym x
  | StmtX_Assign x e => sym x && expr_ok e
  | StmtX_DeadEnd s => stmt_ok s
  | StmtX_Breakable l s => plain l && stmt_ok s
  | StmtX_Break l => plain l
  | StmtX_Block ss | StmtX_Switch ss => forallb stmt_ok ss
  end.

Fixpoint reread_stmt (s : Stmt) : Stmt :=
  match s with
  | StmtX_Assume e => StmtX_Assume (reread e)
  | StmtX_Assert _ m f e =>
    if (List.length (all_msgs_with_spans m) =? 0)%nat && bool_decide (f = None)
    then StmtX_Assert None mi_empty None (reread e)
    else StmtX_Assert None (from_labels (reread_msg m)) f (reread e)
  | StmtX_Havoc _ | StmtX_Snapshot _ | StmtX_Break _ => s
  | StmtX_Assign x e => StmtX_Assign x (reread e)
  | StmtX_DeadEnd s => StmtX_DeadEnd (reread_stmt s)
  | StmtX_Breakable l s => StmtX_Breakable l (reread_stmt s)
  | StmtX_Block ss => StmtX_Block (List.map reread_stmt ss)
  | StmtX_Switch ss => StmtX_Switch (List.map reread_stmt ss)
  end.

Definition decl_ok (d : Decl) : bool :=
  match d with
  | DeclX_Sort x => sym x
  | DeclX_Datatypes ds =>
    forallb (λ d, plain (bname d) && forallb (λ v, is_symbol (bname v) && types_ok (ba v)) (ba d)) ds
  | DeclX_Const x t | DeclX_Var x t => sym x && typ_ok t
  | DeclX_Fun x ts t => sym x && forallb typ_ok ts && typ_ok t
  | DeclX_Axiom ax =>
    expr_ok (expr ax)
    && match named ax with Some n => plain n && negb (n =? ":named") | None => true end
  end.

Definition reread_decl (d : Decl) : Decl :=
  match d with
  | DeclX_Axiom ax => DeclX_Axiom (mkAxiom (named ax) (reread (expr ax)))
  | _ => d
  end.

Definition query_ok (q : Query) : bool := forallb decl_ok (local q) && stmt_ok (assertion q).

Definition reread_query (q : Query) : Query :=
  mkQuery (reread_decl <$> local q) (reread_stmt (assertion q)).
End roundtrip.
