(* ===== verification/PrintParse.v ===== *)
(** * Parsing inverts printing

    Lemmas per layer (atoms, operators, labels, binders and triggers), then the
    inductions over expressions, statements and declarations, and the
    properties of the printer and the parser. *)

From Stdlib Require Import Ascii String.
From S2P Require Import Prelude RustString Escape Ast AstUtil Node Messages Printer Parser.
From S2P Require Import Roundtrip.
Set Warnings "-rewrite-rw,-register-all,-clear-no-such-hyp,-notation-for-abbreviation".
Local Open Scope string_scope.
Local Open Scope list_scope.
Local Open Scope res_scope.

Ltac ok_split := repeat match goal with
  | H : _ && _ = true |- _ => apply andb_true_iff in H as [? ?]
  end.

(** ** Characters of names *)

Lemma not_all_chars p s c : all_chars p s = true → p c = false → s ≠ String c EmptyString.
Proof. intros Hs Hc ->. simpl in Hs. by rewrite Hc in Hs. Qed.

Lemma all_chars_ends p s c :
  all_chars p s = true → p c = false → ends_with (String c EmptyString) s = false.
Proof.
  intros Hs Hc. induction s as [|d s IH]; [done|]. simpl in Hs. apply andb_true_iff in Hs as [Hd Hs].
  change (ends_with (String c EmptyString) (String d s))
    with ((String d s =? String c EmptyString) || ends_with (String c EmptyString) s).
  rewrite IH // orb_false_r. apply String.eqb_neq. intros [= -> ->]. by rewrite Hc in Hd.
Qed.

Lemma plain_chars p s :
  all_chars p s = true → p "-"%char = false → p ":"%char = false → plain s = true.
Proof.
  intros Hs Hm Hc. unfold plain.
  assert (s ≠ "-") as ->%String.eqb_neq by by apply (not_all_chars p).
  assert (s ≠ ":") as ->%String.eqb_neq by by apply (not_all_chars p).
  by rewrite (all_chars_ends p).
Qed.

Lemma numeral_plain n : numeral n = true → plain n = true.
Proof. intros [_ H]%andb_true_iff. by apply (plain_chars is_ascii_digit). Qed.

Lemma N_to_string_plain n : plain (N_to_string n) = true.
Proof. apply (plain_chars is_ascii_digit); [apply N_to_string_digits|done..]. Qed.

Lemma real_plain n : is_valid_real n = true → plain n = true.
Proof. intros [[[H _]%andb_true_iff _]%andb_true_iff _]%andb_true_iff. by eapply plain_chars. Qed.

Lemma sym_symbol x : sym x = true → is_symbol x = true.
Proof. by intros [? _]%andb_true_iff. Qed.
Lemma sym_plain x : sym x = true → plain x = true.
Proof. by intros [_ ?]%andb_true_iff. Qed.

Lemma eqb_l (s t : string) : (s =? t) = bool_decide (s = t).
Proof. symmetry. destruct (String.eqb_spec s t); by [apply bool_decide_true | apply bool_decide_false]. Qed.

Lemma lookup_op_none {A} s (tbl : list (string * A)) : s ∉ tbl.*1 → lookup_op s tbl = None.
Proof.
  induction tbl as [|[k v] tbl IH]; simpl; [done|]. rewrite not_elem_of_cons. intros [Hk Ht].
  apply String.eqb_neq in Hk as ->. by apply IH.
Qed.

Lemma parse_u32_ok n : u32_ok n = true → parse_u32 (N_to_string n) = Some n.
Proof. intros H%N.ltb_lt. by apply parse_uint_to_string. Qed.

(** ** Quoted atoms *)

Lemma substring_0_app s t : String.substring 0 (String.length s) (s +:+ t) = s.
Proof. induction s as [|c s IH]; simpl; [by destruct t|]. by rewrite IH. Qed.

Lemma str_length_app (s t : string) : String.length (s +:+ t) = (String.length s + String.length t)%nat.
Proof. induction s as [|c s IH]; simpl; [done|]. by rewrite IH. Qed.

Definition quoted (s : string) : string := String (ascii_of_N 34) (s +:+ quote).

Lemma quoted_length s : (2 <=? String.length (quoted s))%nat = true.
Proof.
  apply Nat.leb_le. unfold quoted. cbn [String.length]. rewrite str_length_app. simpl. lia.
Qed.

Lemma unquote_quoted s : unquote (quoted s) = Ok s.
Proof.
  unfold unquote.
  assert (String.length (quoted s) = S (S (String.length s))) as ->.
  { unfold quoted. cbn [String.length]. rewrite str_length_app. simpl. lia. }
  simpl. rewrite Nat.sub_0_r. by rewrite substring_0_app.
Qed.

Lemma quoted_starts s : starts_with quote (quoted s) = true.
Proof. unfold starts_with, quoted, quote. simpl. by destruct s. Qed.

Lemma quoted_ends s : ends_with quote (quoted s) = true.
Proof. apply (ends_with_app quote (String (ascii_of_N 34) s)). Qed.

Lemma quoted_atom_eq s : quoted_atom s = Node_Atom (quoted (escape s)).
Proof. done. Qed.

Section roundtrip.
Context `{M : MessageInterface} (node_to_string : Node → string).

#[local] Notation pe := (node_to_expr node_to_string).
#[local] Notation pt := (node_to_typ node_to_string).
#[local] Notation pr := (expr_to_node air_printer).
#[local] Notation prt := (typ_to_node air_printer).

(** ** Types *)

Lemma float_named e s : prt (TypX_Float e s) = Node_Atom "Float16" ∧ e = 5%N ∧ s = 11%N
  ∨ prt (TypX_Float e s) = Node_Atom "Float32" ∧ e = 8%N ∧ s = 24%N
  ∨ prt (TypX_Float e s) = Node_Atom "Float64" ∧ e = 11%N ∧ s = 53%N
  ∨ prt (TypX_Float e s) = Node_Atom "Float128" ∧ e = 15%N ∧ s = 113%N
  ∨ prt (TypX_Float e s) = Node_List [Node_Atom "_"; Node_Atom "FloatingPoint";
      Node_Atom (N_to_string e); Node_Atom (N_to_string s)].
Proof.
  unfold typ_to_node, str_to_node.
  repeat match goal with |- context [match ?x with _ => _ end] => is_var x; destruct x end;
    eauto 10.
Qed.

Lemma typ_roundtrip t : typ_ok t = true → pt (prt t) = Ok t.
Proof.
  destruct t as [| | | |x|n|e s]; simpl; try done.
  - intros [Hx Hk%bool_decide_eq_true]%andb_true_iff. by rewrite Hk (sym_symbol _ Hx).
  - intros Hn. unfold is_bitvec. simpl. by rewrite (parse_u32_ok _ Hn).
  - intros [He Hs]%andb_true_iff.
    destruct (float_named e s) as [(E & -> & ->)|[(E & -> & ->)|[(E & -> & ->)|[(E & -> & ->)|E]]]];
      simpl in E; rewrite E; try done.
    unfold node_to_typ, is_bitvec, is_float_type. simpl.
    by rewrite (parse_u32_ok _ He) (parse_u32_ok _ Hs).
Qed.

Lemma typ_plain t : typ_ok t = true → plain_node (prt t) = true.
Proof.
  destruct t as [| | | |x|n|e s]; try done.
  - by intros [Hx%sym_plain _]%andb_true_iff.
  - intros _. destruct (float_named e s) as [(-> & _)|[(-> & _)|[(-> & _)|[(-> & _)| ->]]]]; done.
Qed.

Lemma rmap_print {A B} (f : Node → res string B) (g : A → Node) (h : A → B) l :
  Forall (λ x, f (g x) = Ok (h x)) l → rmap f (List.map g l) = Ok (List.map h l).
Proof. induction 1 as [|x l Hx _ IH]; simpl; [done|]. by rewrite Hx /= IH. Qed.

(** ** Labels and filters *)

Lemma label_atom n : node_to_label node_to_string (quoted_atom n) = Ok (reread_note n).
Proof.
  rewrite quoted_atom_eq. unfold node_to_label. by rewrite quoted_starts quoted_ends unquote_quoted.
Qed.

Lemma label_pair n s :
  utf8 n → utf8 s →
  node_to_label node_to_string (Node_List [quoted_atom n; quoted_atom s])
  = Ok (message_label_from_air_span s n).
Proof.
  intros Hn Hs. rewrite !quoted_atom_eq. unfold node_to_label, is_quoted_pair.
  rewrite !quoted_length !quoted_starts !quoted_ends. simpl.
  by rewrite !unquote_quoted /= !unescape_inverts.
Qed.

Lemma labels_roundtrip m :
  msg_ok m = true → nodes_to_labels node_to_string (msgs_to_nodes m) = Ok (reread_msg m).
Proof.
  unfold msg_ok, nodes_to_labels, msgs_to_nodes, reread_msg. intros Hm%forallb_true_iff.
  apply rmap_print. eapply Forall_impl; [exact Hm|]. intros [n [s|]] H; simpl in H; ok_split.
  - destruct (0 <? String.length s)%nat; [|apply label_atom].
    apply label_pair; by eapply bool_decide_eq_true.
  - apply label_atom.
Qed.

Lemma axiom_labels_roundtrip ls :
  nodes_to_labels node_to_string ((λ s, quoted_atom (get_message_label_note s)) <$> ls)
  = Ok ((λ l, reread_note (get_message_label_note l)) <$> ls).
Proof. apply rmap_print, Forall_true. intros l. apply label_atom. Qed.

Lemma filter_roundtrip f :
  filter_ok f = true →
  ∃ ns, filter_to_node f = Node_List ns ∧ (List.length ns <=? 1)%nat = true
        ∧ nodes_to_filter node_to_string ns = Ok f.
Proof.
  destruct f as [x|]; simpl; intros Hx; [|by exists []].
  exists [Node_Atom x]. repeat split. simpl. by rewrite Hx.
Qed.

(** ** Applications *)

Definition form_heads : list string :=
  ["location"; "axiom_location"; "old"; "let"; "forall"; "exists"; "lambda"; "choose"; "_"].

Definition special_heads : list string := form_heads ++ ["apply"; "array"].

Ltac no_head H :=
  repeat match goal with
  | |- context [?s =? ?k] =>
    rewrite (proj2 (String.eqb_neq s k)); [intros ->; apply H; set_solver|]
  end.

Lemma form_none f s rest : s ∉ form_heads → node_to_form node_to_string f (Node_Atom s :: rest) = None.
Proof.
  intros Hs. unfold node_to_form.
  repeat match goal with
  | |- None = None => done
  | |- context [match ?x with _ => _ end] => is_var x; destruct x
  end; no_head Hs; done.
Qed.

Lemma special_form s : s ∉ special_heads → s ∉ form_heads.
Proof. unfold special_heads. set_solver. Qed.

Lemma apply_none f s rest : s ∉ special_heads → node_to_apply node_to_string f (Node_Atom s :: rest) = None.
Proof.
  intros Hs. unfold special_heads, form_heads in Hs. simpl in Hs. unfold node_to_apply.
  no_head Hs. done.
Qed.

Definition finish (nodes : list Node) (head : Node) (args : Exprs) : res string Expr :=
  let? (uop, args) := unary_op_of nodes head args in
  let? (bop, args) := binary_op_of nodes head args in
  build_application node_to_string (Node_List nodes) head args uop bop (multi_op_of head).

Lemma pe_atom_head s rest args :
  s ∉ special_heads → rmap pe rest = Ok args →
  pe (Node_List (Node_Atom s :: rest)) = finish (Node_Atom s :: rest) (Node_Atom s) args.
Proof.
  intros Hs Ha. cbn [node_to_expr]. rewrite (form_none _ _ _ (special_form _ Hs)) (apply_none _ _ _ Hs). simpl orelse.
  by rewrite Ha.
Qed.

Lemma pe_list_head l rest args :
  rmap pe rest = Ok args →
  pe (Node_List (Node_List l :: rest)) = finish (Node_List l :: rest) (Node_List l) args.
Proof. intros Ha. cbn [node_to_expr]. simpl orelse. by rewrite Ha. Qed.

(** ** Operators *)

Lemma rounding_roundtrip r : ∃ v, pe (rounding_mode_to_node r) = Ok v.
Proof. destruct r; by eexists. Qed.

Lemma round_print head r rest v args :
  round (head :: rounding_mode_to_node r :: rest) (v :: args) = Ok (r, args).
Proof. by destruct r. Qed.

Ltac not_special := by apply (bool_decide_unpack _).

#[local] Arguments round : simpl never.
#[local] Arguments relation_binary_op : simpl never.
#[local] Arguments parse_u32 : simpl never.

Lemma not_relation s n :
  s ∉ ["partial-order"; "linear-order"; "tree-order"; "piecewise-linear-order"] →
  relation_binary_op (Node_Atom s) n = None.
Proof.
  intros Hs. destruct n as [k|]; [|done]. unfold relation_binary_op.
  destruct (parse_u64 k); [|done]. by no_head Hs.
Qed.

Lemma unary_roundtrip op e e' :
  unary_ok op = true → pe e = Ok e' → pe (unary_to_node op e) = Ok (ExprX_Unary op e').
Proof.
  intros Hop He.
  assert (H1 : rmap pe [e] = Ok [e']) by (simpl; by rewrite He).
  assert (H2 : ∀ r, ∃ v, rmap pe [rounding_mode_to_node r; e] = Ok [v; e']).
  { intros r. destruct (rounding_roundtrip r) as [v Hv]. exists v. simpl. by rewrite Hv /= He. }
  destruct op; simpl in Hop; ok_split; try destruct signed;
    unfold unary_to_node, str_to_node;
    try match goal with r : RoundingMode |- _ => destruct (H2 r) as [v Hv] end;
    (rewrite (pe_atom_head _ _ [e']); [not_special|exact H1|done])
    || (rewrite (pe_atom_head _ _ [v; e']); [not_special|exact Hv|])
    || (rewrite (pe_list_head _ _ [e']); [exact H1|])
    || (rewrite (pe_list_head _ _ [v; e']); [exact Hv|]);
    unfold finish; simpl; rewrite ?round_print /=;
    repeat (rewrite parse_u32_ok; [done|]); simpl; rewrite ?round_print /=;
    try (rewrite not_relation; [not_special|]); done.
Qed.

Lemma relation_roundtrip r n :
  (n <? u64_bound)%N = true →
  relation_binary_op (Node_Atom (relation_name r)) (Node_Atom (N_to_string n))
  = Some (BinaryOp_Relation r n).
Proof.
  intros Hn%N.ltb_lt. unfold relation_binary_op, parse_u64.
  rewrite parse_uint_to_string //. by destruct r.
Qed.

Lemma field_update_not_relation n : relation_binary_op (Node_Atom "update-field") n = None.
Proof. by apply not_relation, (bool_decide_unpack _). Qed.

Lemma unary_of_relation nodes r n args :
  unary_op_of nodes (Node_List [Node_Atom "_"; Node_Atom (relation_name r); n]) args = Ok (None, args).
Proof. by destruct r. Qed.

Lemma binary_roundtrip op e1 e2 e1' e2' :
  binary_ok op = true → pe e1 = Ok e1' → pe e2 = Ok e2' →
  pe (Node_List (binary_sop op :: binary_round op ++ [e1; e2])) = Ok (ExprX_Binary op e1' e2').
Proof.
  intros Hop He1 He2.
  assert (H1 : rmap pe [e1; e2] = Ok [e1'; e2']) by (simpl; by rewrite He1 /= He2).
  assert (H2 : ∀ r, ∃ v, rmap pe [rounding_mode_to_node r; e1; e2] = Ok [v; e1'; e2']).
  { intros r. destruct (rounding_roundtrip r) as [v Hv]. exists v. simpl. by rewrite Hv /= He1 /= He2. }
  destruct op; simpl in Hop; unfold binary_sop, binary_round, str_to_node; simpl app;
    try (destruct (H2 r) as [v Hv]);
    (rewrite (pe_atom_head _ _ [e1'; e2']); [not_special|exact H1|done])
    || (rewrite (pe_atom_head _ _ [v; e1'; e2']); [not_special|exact Hv|]; unfold finish; simpl;
        by rewrite round_print)
    || idtac.
  - rewrite (pe_list_head _ _ [e1'; e2']); [exact H1|]. unfold finish.
    rewrite unary_of_relation. simpl. by rewrite relation_roundtrip.
  - rewrite (pe_list_head _ _ [e1'; e2']); [exact H1|]. unfold finish. simpl.
    by rewrite field_update_not_relation.
Qed.

Lemma multi_roundtrip op es es' :
  rmap pe es = Ok es' → List.length es = List.length es' →
  pe (multi_to_node op es) =
  Ok (if bool_decide (op = MultiOp_Distinct) && (List.length es <=? 1)%nat
      then ExprX_Const (Constant_Bool true) else ExprX_Multi op es').
Proof.
  intros Hes Hl. destruct op; unfold multi_to_node, str_to_node;
    try (rewrite (pe_atom_head _ _ es'); [not_special|exact Hes|];
         destruct es' as [|? [|? [|? ?]]]; done).
  simpl. destruct (List.length es <=? 1)%nat; [done|].
  rewrite (pe_atom_head _ _ es'); [not_special|exact Hes|].
  by destruct es' as [|? [|? [|? ?]]].
Qed.

Lemma keyword_special x : x ∉ keywords → x ∉ special_heads.
Proof.
  intros H Hx. apply H. unfold keywords. apply elem_of_app. left.
  unfold special_heads, form_heads in Hx. simpl in Hx. rewrite !elem_of_cons in Hx |- *. set_solver.
Qed.

Lemma apply_roundtrip x es es' :
  fun_ok x = true → rmap pe es = Ok es' →
  pe (Node_List (Node_Atom x :: es)) = Ok (ExprX_Apply x es').
Proof.
  intros [Hs Hk%bool_decide_eq_true]%andb_true_iff Hes.
  rewrite (pe_atom_head _ _ es'); [by apply keyword_special|exact Hes|].
  unfold keywords in Hk. rewrite !not_elem_of_app in Hk. destruct Hk as [Hk [Hu [Hb [Hr Hm]]]].
  unfold finish, unary_op_of, binary_op_of, multi_op_of.
  rewrite (lookup_op_none x unary_names) // (lookup_op_none x binary_names) //
    (lookup_op_none x binary_round_names) // (lookup_op_none x multi_names) //.
  assert (x ≠ "fp.roundToIntegral") as ->%String.eqb_neq by set_solver.
  assert (x ≠ "ite") as Hite%String.eqb_neq by set_solver.
  unfold build_application. rewrite /= Hs Hite. by destruct es' as [|? [|? [|? ?]]].
Qed.

Lemma applyfun_roundtrip t t' e0 e0' es es' :
  pt t = Ok t' → pe e0 = Ok e0' → rmap pe es = Ok es' →
  pe (Node_List (Node_Atom "apply" :: t :: e0 :: es)) = Ok (ExprX_ApplyFun t' e0' es').
Proof.
  intros Ht H0 Hes. cbn [node_to_expr]. rewrite form_none; [not_special|].
  cbn [orelse node_to_apply]. simpl. by rewrite Ht /= H0 /= Hes.
Qed.

Lemma array_roundtrip es es' :
  rmap pe es = Ok es' → pe (Node_List (Node_Atom "array" :: es)) = Ok (ExprX_Array es').
Proof.
  intros Hes. cbn [node_to_expr]. rewrite form_none; [not_special|].
  cbn [orelse node_to_apply]. simpl. by rewrite Hes.
Qed.

Lemma ite_roundtrip e1 e2 e3 e1' e2' e3' :
  pe e1 = Ok e1' → pe e2 = Ok e2' → pe e3 = Ok e3' →
  pe (Node_List [Node_Atom "ite"; e1; e2; e3]) = Ok (ExprX_IfElse e1' e2' e3').
Proof.
  intros H1 H2 H3. rewrite (pe_atom_head _ _ [e1'; e2'; e3']); [not_special| |done].
  simpl. by rewrite H1 /= H2 /= H3.
Qed.

(** ** Binders and triggers *)

Lemma binders_roundtrip {A B} (f : Node → res string B) (g : A → Node) (h : A → B) bs :
  Forall (λ b, is_symbol (bname b) = true ∧ f (g (ba b)) = Ok (h (ba b))) bs →
  nodes_to_binders node_to_string f (List.map (binder_to_node g) bs)
  = Ok (List.map (λ b, mkBinder (bname b) (h (ba b))) bs).
Proof.
  intros H. apply rmap_print. eapply Forall_impl; [exact H|]. intros b [Hs Hf]. simpl.
  by rewrite Hs Hf.
Qed.

Lemma map_same_binders {A} (bs : Binders A) : List.map (λ b, mkBinder (bname b) (ba b)) bs = bs.
Proof. induction bs as [|[x y] bs IH]; simpl; [done|]. by rewrite IH. Qed.

Lemma types_roundtrip bs :
  types_ok bs = true → nodes_to_binders node_to_string pt (List.map (binder_to_node prt) bs) = Ok bs.
Proof.
  intros H%forallb_true_iff. rewrite (binders_roundtrip pt prt (λ t, t)).
  - eapply Forall_impl; [exact H|]. intros b Hb; simpl in Hb; ok_split. split; [done|].
    by apply typ_roundtrip.
  - by rewrite map_same_binders.
Qed.

(** The node of a trigger is the list of its expressions' nodes. *)
Definition trigger_reads (n : Node) (t : Trigger) : Prop :=
  ∃ l, n = Node_List l ∧ rmap pe l = Ok t.

Lemma triggers_read ts ts' acc rest :
  Forall2 trigger_reads ts ts' →
  triggers_loop node_to_string (rmap pe)
    (List.concat ((λ t, [str_to_node ":pattern"; t]) <$> ts) ++ rest) acc None None false false false
  = triggers_loop node_to_string (rmap pe) rest (acc ++ ts') None None false false false.
Proof.
  intros H. revert acc. induction H as [|n t ts ts' (l & -> & Hl) _ IH]; intros acc.
  - by rewrite app_nil_r.
  - cbn [fmap list_fmap List.concat app]. simpl. rewrite Hl /=. rewrite IH. by rewrite -app_assoc.
Qed.

Definition no_bang (n : Node) : Prop :=
  match n with Node_List (Node_Atom s :: _ :: _) => s ≠ "!" | _ => True end.

Lemma plain_body (f : Node → res string Expr) n e
    (r : string → Node → list Node → res string (Expr * (Triggers * Qid))) :
  no_bang n → f n = Ok e →
  match n with
  | Node_List (Node_Atom s :: n1 :: rest) =>
    if s =? "!" then r s n1 rest else let? e := f n in Ok (e, ([], None))
  | _ => let? e := f n in Ok (e, ([], None))
  end = Ok (e, ([], None)).
Proof.
  intros Hn He. destruct n as [s|[|[s|l] [|n1 rest]]]; rewrite ?He; try done.
  simpl in Hn. apply String.eqb_neq in Hn as ->. done.
Qed.

Lemma quant_roundtrip qcl bs e e' ts ts' qid :
  types_ok bs = true → qid_ok qid = true → pe e = Ok e' → no_bang e →
  Forall2 trigger_reads ts ts' →
  node_to_quant_or_lambda_expr node_to_string pe qcl (List.map (binder_to_node prt) bs)
    (with_triggers air_printer e ts qid)
  = Ok match qcl with
       | QCL_Quant quant => ExprX_Bind (BindX_Quant quant bs ts' qid) e'
       | QCL_Choose body => ExprX_Bind (BindX_Choose bs ts' qid e') body
       | QCL_Lambda wrap cond => ExprX_Bind (BindX_Lambda bs ts' qid wrap cond) e'
       end.
Proof.
  intros Hbs Hq He Hn Hts. unfold node_to_quant_or_lambda_expr. rewrite types_roundtrip //. simpl rbind.
  unfold with_triggers. destruct ((List.length ts =? 0)%nat && bool_decide (qid = None)) eqn:Hnone.
  - apply andb_true_iff in Hnone as [Hl%Nat.eqb_eq ->%bool_decide_eq_true].
    destruct ts; [|done]. inversion Hts; subst. by rewrite (plain_body _ _ e') //; destruct qcl.
  - unfold str_to_node at 1. unfold nodes_to_triggers_and_qid.
    rewrite (triggers_read ts ts' [] _ Hts). change (("!" =? "!")) with true. simpl app.
    destruct qid as [q|]; simpl; [|rewrite He /=; by destruct qcl].
    simpl in Hq. ok_split.
    repeat match goal with H : negb ?b = true |- _ => apply negb_true_iff in H; rewrite H end.
    simpl. rewrite String.eqb_refl /= He /=. by destruct qcl.
Qed.

(** ** The shape of printed expressions *)

Lemma printed_plain e : expr_ok e = true → plain_node (pr e) = true.
Proof.
  induction e as [c|x|sn x|x es _|t e0 es _ _|op e _|op e1 e2 _ _|op es _|e1 e2 e3 _ _ _|es _|b e _ _
    |ls f e IH|i m f e IH] using ExprX_ind'; simpl; intros H; ok_split; try done.
  - destruct c as [[]|n|n|n w]; simpl in *; try done; [by apply numeral_plain | by apply real_plain].
  - unfold var_ok in H. ok_split. by apply sym_plain.
  - by destruct op.
  - destruct op; try done. simpl. by case_match.
  - destruct b as [bs|q bs ts qid|bs ts qid [[w i]|] [c|]|bs ts qid c]; done.
  - case_match; [by apply IH | done].
  - case_match; [by apply IH | done].
Qed.

Lemma with_triggers_plain n ts qid :
  plain_node n = true → plain_node (with_triggers air_printer n ts qid) = true.
Proof. intros Hn. unfold with_triggers. by destruct (_ && _). Qed.

(** The nodes of the forms that are built by the macros. *)
Lemma node_list_atom s l : plain s = true → Forall (λ n, plain_node n = true) l →
  node_list (Node_Atom s :: l) = Node_List (Node_Atom s :: l).
Proof. intros Hs Hl%forallb_true_iff. apply node_list_plain. simpl. by rewrite Hs Hl. Qed.

Lemma binders_nodes {A} (g : A → Node) bs :
  binders_to_node g bs = Node_List (List.map (binder_to_node g) bs).
Proof. done. Qed.

Ltac plain_goal :=
  repeat (apply Forall_cons; split); [.. | apply Forall_nil; done];
  first [done | by apply sym_plain | by apply typ_plain | by apply printed_plain
        | by apply with_triggers_plain, printed_plain ].

Ltac as_list := rewrite node_list_atom; [done|plain_goal..|].

Lemma bv_node n w :
  all_chars is_ascii_digit n = true →
  bv_const_expr_to_node n w
  = Node_List [Node_Atom "_"; Node_Atom ("bv" +:+ n); Node_Atom (N_to_string w)].
Proof.
  intros Hn. apply node_list_atom; [done|].
  repeat (apply Forall_cons; split); [|apply N_to_string_plain|by apply Forall_nil].
  apply (plain_chars is_ascii_alphanumeric); [|done..].
  rewrite all_chars_app. simpl. apply (all_chars_impl is_ascii_digit); [|done].
  intros c Hc. unfold is_ascii_alphanumeric. by rewrite Hc.
Qed.

Lemma printed_no_bang e : expr_ok e = true → no_bang (pr e).
Proof.
  induction e as [c|x|sn x|x es _|t e0 es _ _|op e _|op e1 e2 _ _|op es _|e1 e2 e3 _ _ _|es _|b e _ _
    |ls f e IH|i m f e IH] using ExprX_ind'; cbn [expr_ok expr_to_node]; intros H;
    ok_split; try done.
  - destruct c as [[]|n|n|n w]; cbn [const_ok] in H; ok_split; try done. by rewrite bv_node.
  - as_list. done.
  - destruct es; [done|]. simpl. unfold fun_ok in H. ok_split.
    match goal with H : bool_decide _ = true |- _ => rename H into Hk end.
    intros ->. by vm_compute in Hk.
  - by destruct op.
  - destruct op; done.
  - destruct op, es; try done. simpl. by case_match.
  - as_list. done.
  - by destruct es.
  - destruct b as [bs|[] bs ts qid|bs ts qid [[w i]|] [c|]|bs ts qid c]; ok_split; as_list; done.
  - destruct (filter_roundtrip f) as (ns & -> & _ & _); [done|].
    case_match; [by apply IH | as_list; done].
  - destruct (filter_roundtrip f) as (ns & -> & _ & _); [done|].
    case_match; [by apply IH | as_list; done].
Qed.

(** ** Expressions *)

Definition reads (e : Expr) : Prop := expr_ok e = true → pe (pr e) = Ok (reread e).

Lemma list_reads es :
  Forall reads es → forallb expr_ok es = true → rmap pe (List.map pr es) = Ok (List.map reread es).
Proof.
  intros Hr Ho%forallb_true_iff. apply rmap_print.
  eapply Forall_impl2; [exact Hr|exact Ho|]. intros e H. exact H.
Qed.

Lemma triggers_reads ts :
  Forall reads (List.concat ts) → forallb (forallb expr_ok) ts = true →
  Forall2 trigger_reads (List.map (λ es, Node_List (List.map pr es)) ts) (List.map (List.map reread) ts).
Proof.
  intros Hr Ho. induction ts as [|t ts IH]; simpl; [constructor|].
  simpl in Hr, Ho. apply Forall_app in Hr as [Ht Hts]. ok_split.
  constructor; [|by apply IH]. exists (List.map pr t). split; [done|]. by apply list_reads.
Qed.

Lemma atom_const c : const_ok c = true → pe (pr (ExprX_Const c)) = Ok (ExprX_Const c).
Proof.
  destruct c as [[]|n|n|n w]; cbn [const_ok expr_to_node]; intros H; ok_split; try done.
  - cbn [node_to_expr]. unfold node_to_atom_expr.
    assert (n ≠ "true" ∧ n ≠ "false") as [->%String.eqb_neq ->%String.eqb_neq].
    { split; intros ->; done. }
    unfold numeral in H. by rewrite H.
  - cbn [node_to_expr]. unfold node_to_atom_expr.
    assert (n ≠ "true" ∧ n ≠ "false") as [->%String.eqb_neq ->%String.eqb_neq].
    { split; intros ->; done. }
    rewrite H. destruct ((0 <? String.length n)%nat && all_chars is_ascii_digit n) eqn:Hd; [|done].
    apply andb_true_iff in Hd as [_ Hd]. unfold is_valid_real in H. ok_split.
    assert (count_chars (λ c, Ascii.eqb c "."%char) n = 0) as Hz.
    2:{ match goal with Hc : (_ =? 1)%nat = true |- _ => by rewrite Hz in Hc end. }
    clear -Hd. induction n as [|c n IH]; [done|]. simpl in *. ok_split. rewrite IH //.
    destruct (Ascii.eqb_spec c "."%char) as [->|]; done.
  - rewrite bv_node //. cbn [node_to_expr node_to_form orelse]. unfold underscore_atom_atom_expr.
    by rewrite strip_prefix_app /= parse_u32_ok.
Qed.

Lemma atom_var x : var_ok x = true → pe (Node_Atom x) = Ok (ExprX_Var x).
Proof.
  unfold var_ok, sym. intros H. ok_split. cbn [node_to_expr]. unfold node_to_atom_expr, numeral in *.
  repeat match goal with H : negb ?b = true |- _ => apply negb_true_iff in H; rewrite H; clear H end.
  by match goal with H : is_symbol x = true |- _ => rewrite H end.
Qed.

(** The clauses of [node_to_form] on the heads it knows. *)
Lemma pe_form nodes r : node_to_form node_to_string pe nodes = Some r → pe (Node_List nodes) = r.
Proof. destruct nodes as [|n nodes]; [done|]. intros H. cbn [node_to_expr]. by rewrite H. Qed.

#[local] Notation quant_of := (node_to_quant_or_lambda_expr node_to_string pe).

Lemma form_let bs e :
  pe (Node_List [Node_Atom "let"; Node_List bs; e]) = node_to_let_expr node_to_string pe bs e.
Proof. apply pe_form. by destruct e. Qed.

Lemma form_quant q bs e :
  pe (Node_List [Node_Atom (quant_name q); Node_List bs; e]) = quant_of (QCL_Quant q) bs e.
Proof. apply pe_form. by destruct q, e. Qed.

Lemma form_lambda bs e :
  pe (Node_List [Node_Atom "lambda"; Node_List bs; e]) = quant_of (QCL_Lambda None None) bs e.
Proof. apply pe_form. by destruct e. Qed.

Lemma form_lambda_cond bs c e c' :
  pe c = Ok c' →
  pe (Node_List [Node_Atom "lambda"; Node_List bs; c; e])
  = quant_of (QCL_Lambda None (Some c')) bs e.
Proof.
  intros Hc. rewrite (pe_form _ (let? c := pe c in quant_of (QCL_Lambda None (Some c)) bs e)).
  - by destruct c.
  - by rewrite Hc.
Qed.

Lemma form_lambda_wrap w i bs e i' :
  pe i = Ok i' →
  pe (Node_List [Node_Atom "lambda"; Node_Atom w; i; Node_List bs; e])
  = quant_of (QCL_Lambda (Some (mkWrapLambda w i')) None) bs e.
Proof.
  intros Hi. rewrite (pe_form _ (let? i := pe i in
    quant_of (QCL_Lambda (Some (mkWrapLambda w i)) None) bs e)).
  - by destruct i.
  - by rewrite Hi.
Qed.

Lemma form_lambda_wrap_cond w i bs c e i' c' :
  pe i = Ok i' → pe c = Ok c' →
  pe (Node_List [Node_Atom "lambda"; Node_Atom w; i; Node_List bs; c; e])
  = quant_of (QCL_Lambda (Some (mkWrapLambda w i')) (Some c')) bs e.
Proof.
  intros Hi Hc. rewrite (pe_form _ (let? i := pe i in let? c := pe c in
    quant_of (QCL_Lambda (Some (mkWrapLambda w i)) (Some c)) bs e)).
  - by destruct i.
  - by rewrite Hi /= Hc.
Qed.

Lemma form_choose bs c e e' :
  pe e = Ok e' →
  pe (Node_List [Node_Atom "choose"; Node_List bs; c; e]) = quant_of (QCL_Choose e') bs c.
Proof.
  intros He. rewrite (pe_form _ (let? e := pe e in quant_of (QCL_Choose e) bs c)).
  - by destruct c.
  - by rewrite He.
Qed.

Lemma bind_roundtrip b e :
  Forall reads (bind_exprs b) → reads e → reads (ExprX_Bind b e).
Proof.
  intros Hb He H. cbn [expr_ok] in H. apply andb_true_iff in H as [Hok H].
  specialize (He Hok). assert (Hn := printed_no_bang e Hok).
  destruct b as [bs|q bs ts qid|bs ts qid w cond|bs ts qid c]; cbn [bind_exprs] in Hb;
    rewrite ?Forall_app in Hb; cbn [expr_to_node reread].
  - as_list. rewrite binders_nodes form_let. unfold node_to_let_expr.
    rewrite (binders_roundtrip pe pr reread); [|by rewrite /= He].
    rewrite Forall_fmap in Hb. apply forallb_true_iff in H.
    eapply Forall_impl2; [exact Hb|exact H|]. intros x Hx Hs. simpl in Hx, Hs. ok_split. auto.
  - ok_split. rewrite node_list_atom; [by destruct q|plain_goal|].
    rewrite binders_nodes form_quant.
    by rewrite (quant_roundtrip _ _ _ (reread e) _ (List.map (List.map reread) ts))
      //; apply triggers_reads.
  - ok_split. destruct Hb as [Hts [Hw Hc]].
    assert (Hq := λ qcl, quant_roundtrip qcl bs (pr e) (reread e) _ _ qid ltac:(done) ltac:(done) He Hn
      (triggers_reads ts Hts ltac:(done))).
    destruct w as [[w i]|], cond as [c|]; simpl in Hw, Hc; ok_split;
      rewrite ?Forall_singleton in Hw; rewrite ?Forall_singleton in Hc; as_list;
      rewrite !binders_nodes.
    + by rewrite (form_lambda_wrap_cond _ _ _ _ _ (reread i) (reread c)) ?Hq; auto.
    + by rewrite (form_lambda_wrap _ _ _ _ (reread i)) ?Hq; auto.
    + by rewrite (form_lambda_cond _ _ _ (reread c)) ?Hq; auto.
    + by rewrite form_lambda Hq.
  - ok_split. destruct Hb as [Hts Hc]. inversion Hc as [|? ? Hr _]; subst. as_list.
    rewrite binders_nodes (form_choose _ _ _ (reread e)) //.
    rewrite (quant_roundtrip _ _ _ (reread c) _ (List.map (List.map reread) ts)) //.
    + by apply Hr.
    + by apply printed_no_bang.
    + by apply triggers_reads.
Qed.

Lemma old_roundtrip sn x :
  sym sn = true → sym x = true → pe (pr (ExprX_Old sn x)) = Ok (ExprX_Old sn x).
Proof.
  intros Hs Hx. cbn [expr_to_node reread]. as_list. apply pe_form.
  unfold str_to_node. cbn [node_to_form]. by rewrite !sym_symbol.
Qed.

Lemma labeled_axiom_form ns f fn e e' ls :
  nodes_to_labels node_to_string ns = Ok ls → nodes_to_filter node_to_string fn = Ok f →
  (List.length fn <=? 1)%nat = true → pe e = Ok e' →
  pe (Node_List [Node_Atom "axiom_location"; Node_List ns; Node_List fn; e])
  = Ok (ExprX_LabeledAxiom ls f e').
Proof.
  intros Hl Hf Hn He. apply pe_form. cbn [node_to_form]. rewrite Hn Hl. simpl. by rewrite Hf /= He.
Qed.

Lemma labeled_assertion_form ns f fn e e' ls :
  nodes_to_labels node_to_string ns = Ok ls → nodes_to_filter node_to_string fn = Ok f →
  (List.length fn <=? 1)%nat = true → pe e = Ok e' →
  pe (Node_List [Node_Atom "location"; Node_List ns; Node_List fn; e])
  = Ok (ExprX_LabeledAssertion None (from_labels ls) f e').
Proof.
  intros Hl Hf Hn He. apply pe_form. cbn [node_to_form]. rewrite Hn Hl. simpl. by rewrite Hf /= He.
Qed.

Lemma spans_length m : List.length (msgs_to_nodes m) = List.length (all_msgs_with_spans m).
Proof. apply length_fmap. Qed.

Lemma expr_reads e : reads e.
Proof.
  induction e as [c|x|sn x|x es IH|t e0 es IH0 IH|op e IH|op e1 e2 IH1 IH2|op es IH|e1 e2 e3 IH1 IH2 IH3
    |es IH|b e IHb IH|ls f e IH|i m f e IH] using ExprX_ind'.
  - exact (atom_const c).
  - exact (atom_var x).
  - intros H. cbn [expr_ok] in H. ok_split. by apply old_roundtrip.
  - intros H. cbn [expr_ok] in H. ok_split. cbn [expr_to_node reread].
    by apply apply_roundtrip; [|apply list_reads].
  - intros H. cbn [expr_ok] in H. ok_split. cbn [expr_to_node reread]. apply applyfun_roundtrip; auto.
    + by apply typ_roundtrip.
    + by apply list_reads.
  - intros H. cbn [expr_ok] in H. ok_split. cbn [expr_to_node reread]. by apply unary_roundtrip; auto.
  - intros H. cbn [expr_ok] in H. ok_split. cbn [expr_to_node reread]. by apply binary_roundtrip; auto.
  - intros H. cbn [expr_ok] in H. cbn [expr_to_node reread].
    rewrite (multi_roundtrip _ _ (List.map reread es)); [by apply list_reads | by rewrite !length_map |].
    by rewrite length_map.
  - intros H. cbn [expr_ok] in H. ok_split. cbn [expr_to_node reread]. as_list.
    by apply ite_roundtrip; auto.
  - intros H. cbn [expr_ok] in H. cbn [expr_to_node reread]. by apply array_roundtrip, list_reads.
  - by apply bind_roundtrip.
  - intros H. cbn [expr_ok] in H. ok_split. cbn [expr_to_node reread]. rewrite length_fmap.
    destruct (filter_roundtrip f) as (ns & Hp & Hl & Hf); [done|].
    case_match; [auto|]. rewrite Hp. as_list. apply labeled_axiom_form; auto.
    apply axiom_labels_roundtrip.
  - intros H. cbn [expr_ok] in H. ok_split. cbn [expr_to_node reread]. rewrite spans_length.
    destruct (filter_roundtrip f) as (ns & Hp & Hl & Hf); [done|].
    case_match; [auto|]. rewrite Hp. as_list. apply labeled_assertion_form; auto.
    by apply labels_roundtrip.
Qed.

(** ** Statements *)

#[local] Notation ps := (node_to_stmt node_to_string).
#[local] Notation prs := (stmt_to_node air_printer).

Lemma stmt_plain s : plain_node (prs s) = true.
Proof. destruct s; simpl; try done. by case_match. Qed.

Ltac stmt_list :=
  rewrite node_list_atom; [done
    | repeat (apply Forall_cons; split); [.. | apply Forall_nil; done];
      first [done | by apply sym_plain | by apply printed_plain | apply stmt_plain]
    |].

Lemma expr_roundtrip e : expr_ok e = true → pe (pr e) = Ok (reread e).
Proof. exact (expr_reads e). Qed.

Lemma stmts_read ss :
  Forall (λ s, stmt_ok s = true → ps (prs s) = Ok (reread_stmt s)) ss → forallb stmt_ok ss = true →
  rmap ps (List.map prs ss) = Ok (List.map reread_stmt ss).
Proof.
  intros Hr Ho%forallb_true_iff. apply rmap_print.
  eapply Forall_impl2; [exact Hr|exact Ho|]. intros s H. exact H.
Qed.

(** The clauses of [node_to_stmt], on any node they can meet. *)
Lemma stmt_assume n e : pe n = Ok e → ps (Node_List [Node_Atom "assume"; n]) = Ok (StmtX_Assume e).
Proof. intros H. destruct n; cbn [node_to_stmt]; by rewrite H. Qed.

Lemma stmt_assert n e :
  pe n = Ok e → ps (Node_List [Node_Atom "assert"; n]) = Ok (StmtX_Assert None mi_empty None e).
Proof. intros H. destruct n; cbn [node_to_stmt]; by rewrite H. Qed.

Lemma stmt_assert_labels ns f fn n e ls :
  nodes_to_labels node_to_string ns = Ok ls → nodes_to_filter node_to_string fn = Ok f →
  (List.length fn <=? 1)%nat = true → pe n = Ok e →
  ps (Node_List [Node_Atom "assert"; Node_List ns; Node_List fn; n])
  = Ok (StmtX_Assert None (from_labels ls) f e).
Proof. intros Hl Hf Hn He. cbn [node_to_stmt]. by rewrite Hn Hl /= Hf /= He. Qed.

Lemma stmt_assign x n e :
  is_symbol x = true → pe n = Ok e →
  ps (Node_List [Node_Atom "assign"; Node_Atom x; n]) = Ok (StmtX_Assign x e).
Proof. intros Hx H. destruct n; cbn [node_to_stmt]; by rewrite Hx H. Qed.

Lemma stmt_deadend n s :
  ps n = Ok s → ps (Node_List [Node_Atom "deadend"; n]) = Ok (StmtX_DeadEnd s).
Proof. intros H. transitivity (let? s := ps n in Ok (StmtX_DeadEnd s)); [by destruct n | by rewrite H]. Qed.

Lemma stmt_breakable l n s :
  ps n = Ok s → ps (Node_List [Node_Atom "breakable"; Node_Atom l; n]) = Ok (StmtX_Breakable l s).
Proof. intros H. transitivity (let? s := ps n in Ok (StmtX_Breakable l s)); [by destruct n | by rewrite H]. Qed.

(** [block] and [switch] are the last clauses; the number of statements decides
    which of the earlier patterns are tried first. *)
Lemma stmt_block ns ss :
  rmap ps ns = Ok ss → ps (Node_List (Node_Atom "block" :: ns)) = Ok (StmtX_Block ss).
Proof.
  intros H. transitivity (let? ss := rmap ps ns in Ok (StmtX_Block ss)); [|by rewrite H].
  by destruct ns as [|[?|?] [|[?|?] [|[?|?] [|? ?]]]].
Qed.

Lemma stmt_switch ns ss :
  rmap ps ns = Ok ss → ps (Node_List (Node_Atom "switch" :: ns)) = Ok (StmtX_Switch ss).
Proof.
  intros H. transitivity (let? ss := rmap ps ns in Ok (StmtX_Switch ss)); [|by rewrite H].
  by destruct ns as [|[?|?] [|[?|?] [|[?|?] [|? ?]]]].
Qed.

Lemma stmt_reads s : stmt_ok s = true → ps (prs s) = Ok (reread_stmt s).
Proof.
  induction s as [e|i m f e|x|x e|x|s IH|l s IH|l|ss IH|ss IH] using StmtX_ind';
    cbn [stmt_ok stmt_to_node reread_stmt]; intros H; ok_split.
  - stmt_list. by apply stmt_assume, expr_roundtrip.
  - rewrite spans_length. destruct (filter_roundtrip f) as (ns & Hp & Hl & Hf); [done|].
    rewrite Hp. case_match; stmt_list.
    + by apply stmt_assert, expr_roundtrip.
    + apply stmt_assert_labels; auto using labels_roundtrip, expr_roundtrip.
  - stmt_list. unfold str_to_node. cbn [node_to_stmt]. by rewrite sym_symbol.
  - stmt_list. apply stmt_assign; auto using sym_symbol, expr_roundtrip.
  - stmt_list. unfold str_to_node. cbn [node_to_stmt]. by rewrite sym_symbol.
  - stmt_list. by apply stmt_deadend, IH.
  - stmt_list. by apply stmt_breakable, IH.
  - stmt_list. done.
  - by apply stmt_block, stmts_read.
  - by apply stmt_switch, stmts_read.
Qed.

(** ** Declarations and queries *)

#[local] Notation pd := (node_to_decl node_to_string).
#[local] Notation prd := (decl_to_node air_printer).

(** The tokens [declare - t] of a macro are one atom. *)
Lemma node_list_declare t l :
  plain ("declare-" +:+ t) = true → Forall (λ n, plain_node n = true) l →
  node_list (Node_Atom "declare" :: Node_Atom "-" :: Node_Atom t :: l)
  = Node_List (Node_Atom ("declare-" +:+ t) :: l).
Proof.
  intros Ht Hl. rewrite -(node_list_atom _ _ Ht Hl). unfold node_list. do 2 f_equal.
  cbn [foldl]. f_equal. simpl.
  assert (joins "declare-" t = true) as ->; [|done]. unfold joins. simpl. by rewrite orb_true_r.
Qed.

Ltac declare_list :=
  rewrite node_list_declare; [done
    | repeat (apply Forall_cons; split); [.. | apply Forall_nil; done];
      first [done | by apply sym_plain | by apply typ_plain]
    |].

Lemma variants_roundtrip vs :
  forallb (λ v, is_symbol (bname v) && types_ok (ba v)) vs = true →
  node_to_variants node_to_string
    (Node_List ((λ variant, multibinder_to_node (λ field, binder_to_node prt field) variant) <$> vs))
  = Ok vs.
Proof.
  intros H%forallb_true_iff. unfold node_to_variants.
  rewrite (rmap_print _ _ (λ v, v)); [|by rewrite map_id].
  eapply Forall_impl; [exact H|]. intros [x fs] Hv. simpl in Hv. ok_split. simpl.
  rewrite H0. assert (Hf := types_roundtrip fs ltac:(done)). unfold nodes_to_binders in Hf.
  change (list_fmap ?A ?B ?f ?l) with (List.map f l). by rewrite Hf.
Qed.

Lemma datatypes_roundtrip ds :
  decl_ok (DeclX_Datatypes ds) = true → pd (datatypes_decl_to_node air_printer ds) = Ok (DeclX_Datatypes ds).
Proof.
  cbn [decl_ok]. intros H%forallb_true_iff. unfold datatypes_decl_to_node. cbn [print_as_smt air_printer andb].
  declare_list. cbn [node_to_decl]. rewrite !length_fmap Nat.eqb_refl.
  change (("declare-datatypes" =? "declare-datatypes") && true) with true. cbn iota.
  unfold node_to_datatypes.
  rewrite (rmap_print _ _ bname).
  { eapply Forall_impl; [exact H|]. intros d Hd. simpl in Hd. ok_split.
    rewrite node_list_atom; [done | by repeat (apply Forall_cons; split) |]. done. }
  simpl rbind. rewrite (rmap_print _ _ ba).
  { eapply Forall_impl; [exact H|]. intros d Hd. simpl in Hd. ok_split. by apply variants_roundtrip. }
  simpl. do 2 f_equal. clear. induction ds as [|[x vs] ds IH]; simpl; [done|]. by rewrite IH.
Qed.

Lemma axiom_unnamed n e : no_bang n → pe n = Ok e →
  node_to_axiom node_to_string n = Ok (DeclX_Axiom (mkAxiom None e)).
Proof.
  intros Hn He. unfold node_to_axiom.
  destruct n as [s|[|[s|l] [|n1 rest]]]; cbn [rbind]; try by rewrite He.
  simpl in Hn. apply String.eqb_neq in Hn as ->. cbn [rbind]. by rewrite He.
Qed.

Lemma decl_roundtrip d : decl_ok d = true → pd (prd d) = Ok (reread_decl d).
Proof.
  destruct d as [x|ds|x t|x ts t|x t|[[n|] e]]; cbn [decl_to_node reread_decl]; intros H.
  - cbn [decl_ok] in H. unfold sort_decl_to_node, str_to_node. declare_list.
    simpl. by rewrite sym_symbol.
  - by apply datatypes_roundtrip.
  - cbn [decl_ok] in H. ok_split. unfold const_decl_to_node, str_to_node. declare_list.
    transitivity (let? typ := pt (prt t) in Ok (DeclX_Const x typ)); [|by rewrite typ_roundtrip].
    destruct (prt t); cbn [node_to_decl]; by rewrite sym_symbol.
  - cbn [decl_ok] in H. ok_split. unfold fun_decl_to_node, str_to_node, typs_to_node. declare_list.
    cbn [node_to_decl]. rewrite sym_symbol //.
    rewrite (rmap_print _ _ (λ t, t)) ?map_id.
    + apply forallb_true_iff in H1. eapply Forall_impl; [exact H1|]. apply typ_roundtrip.
    + simpl. by rewrite typ_roundtrip.
  - cbn [decl_ok] in H. ok_split. unfold var_decl_to_node, str_to_node. declare_list.
    transitivity (let? typ := pt (prt t) in Ok (DeclX_Var x typ)); [|by rewrite typ_roundtrip].
    destruct (prt t); cbn [node_to_decl]; by rewrite sym_symbol.
  - cbn [decl_ok expr named] in H. ok_split. unfold axiom_to_node. cbn [named expr].
    unfold str_to_node. rewrite (node_list_atom "!"); [done|plain_goal..|].
    stmt_list. cbn [node_to_decl]. simpl. unfold node_to_axiom, nodes_to_named. simpl.
    match goal with H : negb _ = true |- _ => apply negb_true_iff in H; rewrite H end.
    simpl. by rewrite expr_roundtrip.
  - cbn [decl_ok expr named] in H. ok_split. unfold axiom_to_node. cbn [named expr].
    stmt_list. transitivity (node_to_axiom node_to_string (pr e)); [by destruct (pr e)|].
    apply axiom_unnamed; [by apply printed_no_bang|by apply expr_roundtrip].
Qed.

Lemma check_valid_roundtrip q :
  query_ok q = true →
  node_to_command node_to_string (query_to_node air_printer q) = Ok (CommandX_CheckValid (reread_query q)).
Proof.
  destruct q as [ds s]. unfold query_ok. cbn [local assertion]. intros H. ok_split.
  transitivity (node_to_check_valid node_to_string ((prd <$> ds) ++ [prs s])).
  - unfold query_to_node, str_to_node. cbn [local assertion node_to_command].
    rewrite length_app length_fmap Nat.add_comm. done.
  - unfold node_to_check_valid. rewrite last_snoc. cbn [expect rbind]. rewrite stmt_reads //. cbn [rbind].
    rewrite length_app length_fmap Nat.add_sub take_app_length'; [by rewrite length_fmap|].
    unfold nodes_to_decls, map_nodes_to_vec. rewrite (rmap_print _ _ reread_decl) //.
    apply forallb_true_iff in H. eapply Forall_impl; [exact H|]. apply decl_roundtrip.
Qed.

(** A declaration as a command: its head is none of the command names. *)
Lemma global_roundtrip d :
  decl_ok d = true →
  node_to_command node_to_string (prd d) = Ok (CommandX_Global (reread_decl d)).
Proof.
  intros H. transitivity (let? decl := pd (prd d) in Ok (CommandX_Global decl));
    [|by rewrite decl_roundtrip].
  destruct d as [x|ds|x t|x ts t|x t|[[n|] e]]; cbn [decl_ok expr named] in H; ok_split;
    cbn [decl_to_node].
  - unfold sort_decl_to_node, str_to_node. by declare_list.
  - unfold datatypes_decl_to_node. cbn [print_as_smt air_printer andb]. by declare_list.
  - unfold const_decl_to_node, str_to_node. by declare_list.
  - unfold fun_decl_to_node, str_to_node, typs_to_node. by declare_list.
  - unfold var_decl_to_node, str_to_node. by declare_list.
  - unfold axiom_to_node. cbn [named expr]. by stmt_list.
  - unfold axiom_to_node. cbn [named expr]. by stmt_list.
Qed.

(** ** Expressions without labels come back unchanged *)

Definition kept (e : Expr) : Prop := unlabeled e = true → reread e = e.

Lemma list_kept es : Forall kept es → forallb unlabeled es = true → List.map reread es = es.
Proof.
  intros Hr Ho%forallb_true_iff. rewrite -{2}(map_id es). apply map_ext_Forall.
  eapply Forall_impl2; [exact Hr|exact Ho|]. intros e H. exact H.
Qed.

Lemma triggers_kept ts :
  Forall kept (List.concat ts) → forallb (forallb unlabeled) ts = true →
  List.map (List.map reread) ts = ts.
Proof.
  intros Hr Ho. induction ts as [|t ts IH]; simpl; [done|].
  simpl in Hr, Ho. apply Forall_app in Hr as [Ht Hts]. ok_split. by rewrite list_kept // IH.
Qed.

Ltac kept_parts :=
  repeat match goal with
  | H : Forall _ (_ :: _) |- _ => apply Forall_cons in H as [? ?]; cbv beta in *
  | Hk : kept ?x, Hu : unlabeled ?x = true |- _ => rewrite (Hk Hu); clear Hk
  end.

Lemma expr_kept e : kept e.
Proof.
  induction e as [c|x|sn x|x es IH|t e0 es IH0 IH|op e IH|op e1 e2 IH1 IH2|op es IH|e1 e2 e3 IH1 IH2 IH3
    |es IH|b e IHb IH|ls f e IH|i m f e IH] using ExprX_ind';
    intros H; cbn [unlabeled] in H; ok_split; cbn [reread]; try done;
    rewrite ?list_kept ?IH0 ?IH1 ?IH2 ?IH3 //.
  - by rewrite IH.
  - by match goal with H : negb _ = true |- _ => apply negb_true_iff in H; rewrite H end.
  - rewrite IH //. destruct b as [bs|q bs ts qid|bs ts qid [[w i]|] [c|]|bs ts qid c];
      cbn [bind_exprs] in IHb; simpl in IHb; rewrite ?Forall_app ?Forall_singleton in IHb;
      destruct_and?; ok_split; rewrite ?triggers_kept //.
    + unfold mk_let. rewrite length_map.
      match goal with H : negb _ = true |- _ => apply negb_true_iff in H; rewrite H end.
      do 2 f_equal. rewrite -{2}(map_id bs). apply map_ext_Forall. rewrite Forall_fmap in IHb.
      match goal with H : forallb _ bs = true |- _ => apply forallb_true_iff in H;
        eapply Forall_impl2; [exact IHb|exact H|] end.
      intros [n e'] Hk Hu. simpl in *. by rewrite Hk.
    + by kept_parts.
    + by kept_parts.
    + by kept_parts.
    + by kept_parts.
Qed.
End roundtrip.

(** ** The contracts of the printer and the parser

    The properties of printer.rs and parser.rs together: what is printed for Z3
    is read back, what is not (names that end in a hyphen, qids printed for
    cvc5), and where the parser panics instead of returning an error. *)

Section contracts.
Context `{M : MessageInterface} (node_to_string : Node → string).

(** Types: the parser reads back every type the printer prints. *)
Theorem type_roundtrip t :
  typ_ok t = true → node_to_typ node_to_string (typ_to_node air_printer t) = Ok t.
Proof. apply typ_roundtrip. Qed.

(** C32. Expressions as printed in AIR mode for Z3 whose names and literals the syntax has no
    other reading for ([expr_ok]: symbols that the printer does not join with their
    neighbours, not the names of operators, numbers in range): whatever the message
    interface, [node_to_expr] reads [reread e] from the node that [expr_to_node] makes of
    [e].  It is [e] itself when [e] has no labels, no [distinct] of fewer than two arguments
    and no empty [let] ([unlabeled]). *)
Theorem expression_roundtrip e :
  expr_ok e = true →
  node_to_expr node_to_string (expr_to_node air_printer e) = Ok (reread e)
  ∧ (unlabeled e = true → reread e = e).
Proof. intros H. split; [by apply expr_roundtrip | apply expr_kept]. Qed.

(** C31. Queries as printed in AIR mode for Z3 whose names and literals the syntax has no other
    reading for ([query_ok]): the [check-valid] command that [query_to_node] makes is read
    as the command for [reread_query q], which is the query with each expression reread,
    labels as their text says, and without assert ids. *)
Theorem query_roundtrip q :
  query_ok q = true →
  node_to_command node_to_string (query_to_node air_printer q)
  = Ok (CommandX_CheckValid (reread_query q)).
Proof. apply check_valid_roundtrip. Qed.

(** Declarations: a declaration printed by [decl_to_node] is read back as
    the [Global] command that declares it. *)
Theorem declaration_roundtrip d :
  decl_ok d = true →
  node_to_command node_to_string (decl_to_node air_printer d)
  = Ok (CommandX_Global (reread_decl d)).
Proof. apply global_roundtrip. Qed.

(** ** Names that end in a hyphen *)

Lemma hyphen_joined x t :
  ends_with "-" x = true → (x =? "-") = false →
  node_list [Node_Atom "declare"; Node_Atom "-"; Node_Atom "const"; Node_Atom x; Node_Atom t]
  = Node_List [Node_Atom "declare-const"; Node_Atom (x +:+ t)].
Proof.
  intros He Hx. unfold node_list.
  assert (joins "declare-const" x = false) as Hj.
  { unfold joins. by rewrite Hx. }
  assert (joins x t = true) as Ht.
  { unfold joins. by rewrite Hx He !orb_true_r. }
  cbn [foldl].
  change (macro_push_node (macro_push_node (macro_push_node [] (Node_Atom "declare"))
    (Node_Atom "-")) (Node_Atom "const")) with [Node_Atom "declare-const"].
  cbn [macro_push_node]. rewrite Hj. cbn [macro_push_node]. by rewrite Ht.
Qed.

(** [nodes!] joins a constant's name with its type when the name ends in a
    hyphen, although the parser accepts such names: the printed declaration has
    lost its type, and the parser rejects it. *)
Theorem hyphen_name_lost x t :
  is_symbol x = true → ends_with "-" x = true → x ≠ "-" →
  node_to_decl node_to_string
    (Node_List [Node_Atom "declare-const"; Node_Atom x; Node_Atom "Int"]) = Ok (DeclX_Const x TypX_Int)
  ∧ const_decl_to_node air_printer x (TypX_Named t)
    = Node_List [Node_Atom "declare-const"; Node_Atom (x +:+ t)]
  ∧ ∃ msg, node_to_decl node_to_string (const_decl_to_node air_printer x (TypX_Named t)) = Err msg.
Proof.
  intros Hs He Hx%String.eqb_neq.
  assert (Hd : const_decl_to_node air_printer x (TypX_Named t)
    = Node_List [Node_Atom "declare-const"; Node_Atom (x +:+ t)]) by by apply hyphen_joined.
  split; [cbn [node_to_decl]; by rewrite Hs|]. split; [exact Hd|]. rewrite Hd. by eexists.
Qed.

(** ** The cvc5 encoding *)

Definition cvc5_printer : Printer := mkPrinter false SmtEncoding_Cvc5.

(** Under the cvc5 encoding the printer leaves the skolem id out, and the
    parser requires one next to every qid: a quantifier with a qid,
    whatever its body, is printed to a form that the parser rejects. *)
Theorem cvc5_qid_rejected quant bs q e :
  types_ok bs = true → qid_ok (Some q) = true →
  node_to_expr node_to_string
    (expr_to_node cvc5_printer (ExprX_Bind (BindX_Quant quant bs [] (Some q)) e))
  = Err ("for qid " +:+ q +:+ ", expected skolemid " +:+ mk_skolem_id q
         +:+ " but found no skolemid at all").
Proof.
  intros Hbs Hq. cbn [expr_to_node List.map]. unfold str_to_node.
  rewrite node_list_atom; [by destruct quant|by repeat (apply Forall_cons; split)|].
  change (binders_to_node (typ_to_node cvc5_printer) bs)
    with (Node_List (List.map (binder_to_node (typ_to_node air_printer)) bs)).
  rewrite form_quant. unfold node_to_quant_or_lambda_expr. rewrite types_roundtrip //.
  simpl in Hq. ok_split.
  repeat match goal with H : negb ?b = true |- _ => apply negb_true_iff in H end.
  simpl. unfold nodes_to_triggers_and_qid. simpl.
  by repeat match goal with H : ?b = false |- context [?b] => rewrite H; simpl end.
Qed.

(** ** Panics *)

(** The parser indexes and slices without checking: these malformed inputs
    panic instead of being reported as errors. *)
Theorem parser_panics :
  node_to_typ node_to_string (Node_List []) = Panic
  ∧ node_to_typ node_to_string (Node_List [Node_Atom "_"]) = Panic
  ∧ node_to_stmt node_to_string (Node_List []) = Panic
  ∧ (∀ f, node_to_multibinder node_to_string (A := Typ) f (Node_List []) = Panic)
  ∧ node_to_expr node_to_string (Node_List [Node_Atom "ite"; Node_Atom "x"; Node_Atom "y"]) = Panic
  ∧ node_to_expr node_to_string (Node_List [Node_Atom "fp.add"]) = Panic
  ∧ nodes_to_labels node_to_string [Node_Atom quote] = Panic.
Proof.
  by repeat split.
Qed.
End contracts.

(** ** Messages of AIR's own interface *)

(** The span is there and its text is not empty. *)
Definition has_span (s : option AirSpan) : bool :=
  match s with Some s => (0 <? String.length (as_string s))%nat | None => false end.

(** A message of [AirMessageInterface] whose note and labels all carry a
    span comes back from its printed form with the same notes, spans and
    labels, as an error; a note without a span comes back escaped, with its own
    text as the span. *)
Theorem message_roundtrip m :
  (has_span (span m) && forallb (λ l, has_span (Some (label_span l))) (labels m) = true →
   from_labels (reread_msg m)
   = {| level := MessageLevel_Error; note := note m; span := span m; labels := labels m |})
  ∧ ∀ n, from_labels (reread_msg (bare (level m) n))
         = {| level := MessageLevel_Error; note := escape n;
              span := Some {| as_string := escape n |}; labels := [] |}.
Proof.
  split; [|done]. destruct m as [lv n [[sp]|] ls]; simpl; [|done].
  intros [Hs Hl]%andb_true_iff. rewrite Hs. simpl. f_equal.
  induction ls as [|[[sl] nl] ls IH]; [done|]. simpl in Hl. apply andb_true_iff in Hl as [H Hl].
  simpl. rewrite H. simpl. f_equal. by apply IH.
Qed.

(** ** Sample inputs *)

(** [(forall ((x Int)) (! (=> (<= 0 x) (f x)) :pattern ((f x)) :qid q))], with
    a label around its body. *)
Definition sample_label : AirMessage :=
  {| level := MessageLevel_Error; note := "precondition not satisfied";
     span := Some {| as_string := "lib.rs:3" |}; labels := [] |}.

Definition sample_forall (body : Expr → Expr) : Expr :=
  let fx := ExprX_Apply "f" [ExprX_Var "x"] in
  ExprX_Bind (BindX_Quant Quant_Forall [mkBinder "x" TypX_Int] [[fx]] (Some "q"))
    (body (ExprX_Binary BinaryOp_Implies
       (ExprX_Binary BinaryOp_Le (ExprX_Const (Constant_Nat "0")) (ExprX_Var "x")) fx)).

Definition sample_labeled : Expr → Expr := ExprX_LabeledAssertion (Some [7%N]) sample_label None.

Definition sample_command_query : QueryX := {|
  local := [ DeclX_Const "c" (TypX_BitVec 8); DeclX_Fun "f" [TypX_Int] TypX_Bool;
             DeclX_Axiom (mkAxiom (Some "ax") (sample_forall id)) ];
  assertion := StmtX_Block
    [ StmtX_Assume (ExprX_Apply "f" [ExprX_Const (Constant_Nat "3")]);
      StmtX_Assert None sample_label (Some "filter") (sample_forall sample_labeled);
      StmtX_Breakable "done" (StmtX_Switch [StmtX_Break "done"; StmtX_Havoc "c"]) ]
|}.

Definition no_text (n : Node) : string := EmptyString.

Lemma type_roundtrip_witness :
  node_to_typ no_text (typ_to_node air_printer (TypX_Float 8 24)) = Ok (TypX_Float 8 24).
Proof. apply type_roundtrip. by vm_compute. Defined.

Lemma expression_roundtrip_witness :
  node_to_expr no_text (expr_to_node air_printer (sample_forall sample_labeled))
  = Ok (reread (sample_forall sample_labeled))
  ∧ (unlabeled (sample_forall sample_labeled) = true →
     reread (sample_forall sample_labeled) = sample_forall sample_labeled).
Proof. apply expression_roundtrip. by vm_compute. Defined.

Lemma query_roundtrip_witness :
  node_to_command no_text (query_to_node air_printer sample_command_query)
  = Ok (CommandX_CheckValid (reread_query sample_command_query)).
Proof. apply query_roundtrip. by vm_compute. Defined.

Lemma declaration_roundtrip_witness :
  node_to_command no_text (decl_to_node air_printer (DeclX_Var "x" TypX_Int))
  = Ok (CommandX_Global (reread_decl (DeclX_Var "x" TypX_Int))).
Proof. apply declaration_roundtrip. by vm_compute. Defined.

Lemma hyphen_name_lost_witness :
  node_to_decl no_text
    (Node_List [Node_Atom "declare-const"; Node_Atom "x-"; Node_Atom "Int"]) = Ok (DeclX_Const "x-" TypX_Int)
  ∧ const_decl_to_node air_printer "x-" (TypX_Named "T")
    = Node_List [Node_Atom "declare-const"; Node_Atom ("x-" +:+ "T")]
  ∧ ∃ msg, node_to_decl no_text (const_decl_to_node air_printer "x-" (TypX_Named "T")) = Err msg.
Proof. by apply (hyphen_name_lost no_text "x-" "T"). Defined.

Lemma cvc5_qid_rejected_witness :
  node_to_expr no_text
    (expr_to_node cvc5_printer
       (ExprX_Bind (BindX_Quant Quant_Forall [mkBinder "x" TypX_Int] [] (Some "q")) (ExprX_Var "x")))
  = Err ("for qid " +:+ "q" +:+ ", expected skolemid " +:+ mk_skolem_id "q"
         +:+ " but found no skolemid at all").
Proof. by apply (cvc5_qid_rejected no_text). Defined.

Lemma message_roundtrip_witness :
  (has_span (span sample_label)
   && forallb (λ l, has_span (Some (label_span l))) (labels sample_label) = true →
   from_labels (reread_msg sample_label)
   = {| level := MessageLevel_Error; note := note sample_label; span := span sample_label;
        labels := labels sample_label |})
  ∧ ∀ n, from_labels (reread_msg (bare (level sample_label) n))
         = {| level := MessageLevel_Error; note := escape n;
              span := Some {| as_string := escape n |}; labels := [] |}.
Proof. exact (message_roundtrip sample_label). Defined.
