(* ===== verification/Scc.v ===== *)
(** * Graphs and strongly connected components (source/vir/src/scc.rs)

    Tarjan's algorithm over vectors indexed by node numbers, with the queries on
    its result: representatives in topological order, reachability, membership
    of a cycle and a shortest cycle.

    The recursion of the code is on fuel; [Err OutOfFuel] is not a value of the
    code, and the theorems of [SccCorrect] give the fuel that avoids it.  Counts
    bounded by the length of a vector are added without overflow. *)

From S2P Require Import Prelude.
Set Warnings "-rewrite-rw,-register-all,-clear-no-such-hyp".
Local Open Scope res_scope.

Definition usize_max : N := 18446744073709551615.

(** [usize] as positions in vectors. *)
Abbreviation SccId := nat.
Abbreviation NodeIndex := nat.

(** [for a in l { s = f(a, s)? }] *)
Section rfold.
Context {E A B : Type} (f : A → B → res E B).
Fixpoint rfold (l : list A) (s : B) : res E B :=
  match l with
  | [] => Ok s
  | a :: l' => rbind (f a s) (rfold l')
  end.
End rfold.

Section graph.
Context {T : Type} `{Countable T}.
Abbreviation result := (res fuel_error).

(** ** Data *)

Record SCC := mkSCC { scc_id : SccId; scc_nodes : list NodeIndex }.

(** [n_index] and [n_lowlink] are [usize::MAX] before the node is visited. *)
Record Node := mkNode {
  n_t : T;
  n_edges : list NodeIndex;
  n_index : N;
  n_lowlink : N;
  n_on_stack : bool
}.

Record Graph := mkGraph {
  h : gmap T NodeIndex;
  nodes : list Node;
  has_run : bool;
  stack : list NodeIndex;
  stack_len : nat;
  next_index : N;
  sccs : list SCC;
  mapping : gmap T SccId
}.

Definition size (self : SCC) : nat := length (scc_nodes self).
Definition rep (self : SCC) : result NodeIndex := expect (scc_nodes self !! 0).

(** ** Construction *)

Definition new_graph : Graph := mkGraph ∅ [] false [] 0 0 [] ∅.

Definition add_node (self : Graph) (value : T) : Graph :=
  match h self !! value with
  | Some _ => self
  | None =>
    mkGraph (<[value := length (nodes self)]> (h self))
      (nodes self ++ [mkNode value [] usize_max usize_max false])
      (has_run self) (stack self) (stack_len self) (next_index self) (sccs self) (mapping self)
  end.

Definition get_or_add (self : Graph) (value : T) : result (NodeIndex * Graph) :=
  match h self !! value with
  | Some v => Ok (v, self)
  | None =>
    let self := add_node self value in
    let? v := expect (h self !! value) in Ok (v, self)
  end.

(** [self.nodes[v] = f(self.nodes[v])] *)
Definition update_node (self : Graph) (v : NodeIndex) (f : Node → Node) : result Graph :=
  let? n := expect (nodes self !! v) in
  Ok (mkGraph (h self) (<[v := f n]> (nodes self)) (has_run self) (stack self) (stack_len self)
        (next_index self) (sccs self) (mapping self)).

Definition push_edge (w : NodeIndex) (n : Node) : Node :=
  mkNode (n_t n) (n_edges n ++ [w]) (n_index n) (n_lowlink n) (n_on_stack n).

Definition add_edge (self : Graph) (src dst : T) : result Graph :=
  let? (v, self) := get_or_add self src in
  let? (w, self) := get_or_add self dst in
  update_node self v (push_edge w).

Definition add_directed_edge_if_nodes_exist (self : Graph) (src dst : T) : result Graph :=
  match h self !! src, h self !! dst with
  | Some v, Some w => update_node self v (push_edge w)
  | _, _ => Ok self
  end.

(** ** Tarjan's algorithm *)

Definition set_lowlink (l : N) (n : Node) : Node :=
  mkNode (n_t n) (n_edges n) (n_index n) l (n_on_stack n).

(** The first lines of [strongconnect]. *)
Definition enter (self : Graph) (v : NodeIndex) : result Graph :=
  let i := next_index self in
  let? self := update_node self v (λ n, mkNode (n_t n) (n_edges n) i i true) in
  if (stack_len self <? length (stack self))%nat then
    Ok (mkGraph (h self) (nodes self) (has_run self) (<[stack_len self := v]> (stack self))
          (S (stack_len self)) (i + 1) (sccs self) (mapping self))
  else Panic.

Section edges.
Context (strongconnect : Graph → NodeIndex → result Graph).

(** The loop over the edges of [v]. *)
Fixpoint strong_edges (v : NodeIndex) (es : list NodeIndex) (self : Graph) : result Graph :=
  match es with
  | [] => Ok self
  | w :: es' =>
    let? nw := expect (nodes self !! w) in
    let? self :=
      if decide (n_index nw = usize_max) then
        let? self := strongconnect self w in
        let? nv := expect (nodes self !! v) in
        let? nw := expect (nodes self !! w) in
        update_node self v (set_lowlink (N.min (n_lowlink nv) (n_lowlink nw)))
      else if n_on_stack nw then
        let? nv := expect (nodes self !! v) in
        update_node self v (set_lowlink (N.min (n_lowlink nv) (n_index nw)))
      else Ok self in
    strong_edges v es' self
  end.
End edges.

(** The loop that pops the component [id] of the root [v], from [len = self.stack_len]. *)
Fixpoint pop_component (v : NodeIndex) (id : SccId) (len : nat) (component : list NodeIndex)
    (self : Graph) : result (list NodeIndex * Graph) :=
  match len with
  | O => Panic
  | S len' =>
    let? w := expect (stack self !! len') in
    let? nw := expect (nodes self !! w) in
    let nodes := <[w := mkNode (n_t nw) (n_edges nw) (n_index nw) (n_lowlink nw) false]> (nodes self) in
    let self := mkGraph (h self) nodes (has_run self) (stack self) len' (next_index self) (sccs self)
                  (<[n_t nw := id]> (mapping self)) in
    let component := component ++ [w] in
    if decide (w = v) then Ok (component, self) else pop_component v id len' component self
  end.

Fixpoint strongconnect (fuel : nat) (self : Graph) (v : NodeIndex) : result Graph :=
  match fuel with
  | O => Err OutOfFuel
  | S fuel' =>
    let? self := enter self v in
    let? nv := expect (nodes self !! v) in
    let? self := strong_edges (strongconnect fuel') v (n_edges nv) self in
    let? nv := expect (nodes self !! v) in
    if decide (n_lowlink nv = n_index nv) then
      let id := length (sccs self) in
      let? (component, self) := pop_component v id (stack_len self) [] self in
      Ok (mkGraph (h self) (nodes self) (has_run self) (stack self) (stack_len self)
            (next_index self) (sccs self ++ [mkSCC id component]) (mapping self))
    else Ok self
  end.

Definition start_run (self : Graph) : Graph :=
  mkGraph (h self) (nodes self) true (resize (length (nodes self)) 0 (stack self)) (stack_len self)
    (next_index self) (sccs self) (mapping self).

Definition compute_sccs (fuel : nat) (self : Graph) : result Graph :=
  if has_run self then Panic
  else
    rfold (λ i self,
      let? n := expect (nodes self !! i) in
      if decide (n_index n = usize_max) then strongconnect fuel self i else Ok self)
      (seq 0 (length (nodes self))) (start_run self).

(** ** Topological order *)

(** [self.nodes[v].t] and [self.mapping[&self.nodes[w].t]] *)
Definition node_t (self : Graph) (v : NodeIndex) : result T :=
  let? n := expect (nodes self !! v) in Ok (n_t n).
Definition node_scc (self : Graph) (w : NodeIndex) : result SccId :=
  let? x := node_t self w in expect (mapping self !! x).

(** The two loops over the edges that leave the nodes of a component. *)
Definition for_scc_edges {B} (self : Graph) (scc : SCC) (f : SccId → B → result B) : B → result B :=
  rfold (λ v s,
    let? n := expect (nodes self !! v) in
    rfold (λ w s, let? s' := node_scc self w in f s' s) (n_edges n) s)
    (scc_nodes scc).

(** The mutable [visited] and [sorted]. *)
Definition SortState := (list bool * list T)%type.

Fixpoint sort_sccs_node (fuel : nat) (self : Graph) (s : SccId) (st : SortState) : result SortState :=
  let? seen := expect (st.1 !! s) in
  if (seen : bool) then Ok st
  else
    match fuel with
    | O => Err OutOfFuel
    | S fuel' =>
      let? scc := expect (sccs self !! s) in
      let? st := for_scc_edges self scc (sort_sccs_node fuel' self) (<[s := true]> st.1, st.2) in
      let? r := rep scc in
      let? x := node_t self r in
      Ok (st.1, st.2 ++ [x])
    end.

Definition sort_sccs (fuel : nat) (self : Graph) : result (list T) :=
  if has_run self then
    let? st := rfold (sort_sccs_node fuel self) (seq 0 (length (sccs self)))
                 (replicate (length (sccs self)) false, []) in
    Ok st.2
  else Panic.

(** ** Queries *)

Definition assert (b : bool) : result unit := if b then Ok tt else Panic.

Definition node_has_direct_edge_to_itself (self : Graph) (x : T) : result bool :=
  let? _ := assert (has_run self) in
  let? v := expect (h self !! x) in
  let? n := expect (nodes self !! v) in
  Ok (existsb (Nat.eqb v) (n_edges n)).

Definition get_edges_from (self : Graph) (x : T) : result (list T) :=
  let? v := expect (h self !! x) in
  let? n := expect (nodes self !! v) in
  rmap (node_t self) (n_edges n).

Definition get_scc_size (self : Graph) (x : T) : result nat :=
  let? _ := assert (has_run self) in
  match mapping self !! x with
  | Some i => let? scc := expect (sccs self !! i) in Ok (size scc)
  | None => Ok 1
  end.

Definition node_is_in_cycle (self : Graph) (x : T) : result bool :=
  let? direct := node_has_direct_edge_to_itself self x in
  if (direct : bool) then Ok true
  else let? n := get_scc_size self x in Ok (1 <? n)%nat.

Definition get_scc_rep (self : Graph) (x : T) : result T :=
  let? _ := assert (has_run self) in
  let? id := expect (mapping self !! x) in
  let? scc := expect (sccs self !! id) in
  let? r := rep scc in
  node_t self r.

Definition in_same_scc (self : Graph) (x1 x2 : T) : result bool :=
  if decide (x1 = x2) then Ok true
  else
    let? r1 := get_scc_rep self x1 in
    let? r2 := get_scc_rep self x2 in
    Ok (bool_decide (r1 = r2)).

Definition get_scc_nodes (self : Graph) (x : T) : result (list T) :=
  let? _ := assert (has_run self) in
  let? id := expect (mapping self !! x) in
  let? scc := expect (sccs self !! id) in
  rmap (node_t self) (scc_nodes scc).

(** ** A shortest cycle *)

(** The inner loop over the edges of the last node of [p]: [inl] is the early return. *)
Fixpoint extend_path (root : NodeIndex) (p : list NodeIndex) (es : list NodeIndex)
    (reached : gset NodeIndex) (next : list (list NodeIndex))
    : list NodeIndex + (gset NodeIndex * list (list NodeIndex)) :=
  match es with
  | [] => inr (reached, next)
  | e :: es' =>
    if decide (e = root) then inl p
    else if decide (e ∈ reached) then extend_path root p es' reached next
    else extend_path root p es' ({[e]} ∪ reached) (next ++ [p ++ [e]])
  end.

Fixpoint extend_paths (self : Graph) (root : NodeIndex) (paths : list (list NodeIndex))
    (reached : gset NodeIndex) (next : list (list NodeIndex))
    : result (list NodeIndex + (gset NodeIndex * list (list NodeIndex))) :=
  match paths with
  | [] => Ok (inr (reached, next))
  | p :: paths' =>
    let? l := expect (last p) in
    let? n := expect (nodes self !! l) in
    match extend_path root p (n_edges n) reached next with
    | inl cycle => Ok (inl cycle)
    | inr (reached, next) => extend_paths self root paths' reached next
    end
  end.

Fixpoint cycle_loop (fuel : nat) (self : Graph) (root : NodeIndex) (paths : list (list NodeIndex))
    (reached : gset NodeIndex) : result (list T) :=
  match fuel with
  | O => Err OutOfFuel
  | S fuel' =>
    let? _ := assert (negb (length paths =? 0)%nat) in
    let? r := extend_paths self root paths reached [] in
    match r with
    | inl p => rmap (node_t self) p
    | inr (reached, next) => cycle_loop fuel' self root next reached
    end
  end.

Definition shortest_cycle_back_to_self (fuel : nat) (self : Graph) (x : T) : result (list T) :=
  let? _ := assert (has_run self) in
  let? root := expect (h self !! x) in
  cycle_loop fuel self root [[root]] {[root]}.

(** ** Reachability *)

(** [worklist] has the end of the vector first. *)
Fixpoint reach_loop (fuel : nat) (self : Graph) (tgt : SccId)
    (order : option (gmap T nat * nat)) (reached : gset SccId) (worklist : list SccId) : result bool :=
  match worklist with
  | [] => Ok false
  | scc :: worklist =>
    match fuel with
    | O => Err OutOfFuel
    | S fuel' =>
      if decide (scc = tgt) then Ok true
      else if decide (scc ∈ reached) then reach_loop fuel' self tgt order reached worklist
      else
        let reached := {[scc]} ∪ reached in
        let? c := expect (sccs self !! scc) in
        let? passed :=
          match order with
          | Some (sorted_order, tgt_sort_index) =>
            let? r := rep c in
            let? x := node_t self r in
            let? scc_sort_index := expect (sorted_order !! x) in
            Ok (scc_sort_index <? tgt_sort_index)%nat
          | None => Ok false
          end in
        if (passed : bool) then reach_loop fuel' self tgt order reached worklist
        else
          let? worklist := for_scc_edges self c (λ s w, Ok (s :: w)) worklist in
          reach_loop fuel' self tgt order reached worklist
    end
  end.

Definition can_reach (fuel : nat) (self : Graph) (source target : T)
    (sorted_order : option (gmap T nat)) : result bool :=
  let? _ := assert (has_run self) in
  let? src := expect (mapping self !! source) in
  let? tgt := expect (mapping self !! target) in
  let? order :=
    match sorted_order with
    | Some order =>
      let? r := get_scc_rep self target in
      let? i := expect (order !! r) in
      Ok (Some (order, i))
    | None => Ok None
    end in
  reach_loop fuel self tgt order ∅ [src].
End graph.

Arguments Graph T {_ _}.
Arguments Node T : clear implicits.
