(* ===== verification/SccFacts.v ===== *)
(** * Tarjan's algorithm computes the strongly connected components

    [sees] says which numbering, low links and stack a [Graph] holds; [inv] is the
    invariant of the algorithm on these; [strongconnect_ok] is its total
    correctness, by induction on the fuel. *)

From S2P Require Import Prelude Scc.
Set Warnings "-rewrite-rw,-register-all,-clear-no-such-hyp".

Definition upd_nat {A} (f : nat → A) (v : nat) (a : A) (x : nat) : A := if decide (x = v) then a else f x.

Lemma upd_nat_eq {A} (f : nat → A) v a : upd_nat f v a v = a.
Proof. unfold upd_nat. by rewrite decide_True. Qed.
Lemma upd_nat_ne {A} (f : nat → A) v a x : x ≠ v → upd_nat f v a x = f x.
Proof. intros. unfold upd_nat. by rewrite decide_False. Qed.

Section tarjan.
Context {T : Type} `{Countable T}.

(** The part of the nodes that the algorithm does not change. *)
Definition base (g : Graph T) : list (T * list nat) := map (λ nd, (n_t nd, n_edges nd)) (nodes g).

Context (B : list (T * list nat)) (h0 : gmap T nat).
#[local] Abbreviation n := (length B).
Definition edges_from (v : nat) : list nat := default [] (snd <$> B !! v).
Definition succ (v w : nat) : Prop := w ∈ edges_from v.
#[local] Abbreviation reach := (rtc succ).
Definition name_of (v : nat) : option T := fst <$> B !! v.

Record base_ok : Prop := {
  bo_names : NoDup (map fst B);
  bo_range : ∀ v w, succ v w → w < n;
  bo_size : (N.of_nat n < usize_max)%N
}.
Context (HB : base_ok).

(** ** What a graph holds *)

Record sees (g : Graph T) (I L : nat → N) (S : list nat) (k : N) (cs : list SCC)
    (mp : gmap T nat) : Prop := {
  se_base : base g = B;
  se_h : h g = h0;
  se_run : has_run g = true;
  se_stack : length (stack g) = n;
  se_len : stack_len g = length S;
  se_take : take (stack_len g) (stack g) = S;
  se_node : ∀ v nd, nodes g !! v = Some nd →
    n_index nd = I v ∧ n_lowlink nd = L v ∧ n_on_stack nd = bool_decide (v ∈ S);
  se_next : next_index g = k;
  se_sccs : sccs g = cs;
  se_mapping : mapping g = mp
}.

Lemma base_length g : base g = B → length (nodes g) = n.
Proof. intros <-. unfold base. by rewrite length_map. Qed.

Lemma base_lookup g v : base g = B → v < n → ∃ nd, nodes g !! v = Some nd.
Proof. intros Hb Hv. apply lookup_lt_is_Some. by rewrite (base_length g Hb). Qed.

Lemma base_node g v nd : base g = B → nodes g !! v = Some nd →
  B !! v = Some (n_t nd, n_edges nd) ∧ n_edges nd = edges_from v ∧ v < n.
Proof.
  intros Hb Hnd. assert (HBv : B !! v = Some (n_t nd, n_edges nd)).
  { rewrite -Hb /base. change (map ?f ?l) with (f <$> l). by rewrite list_lookup_fmap Hnd. }
  split; [done|]. split; [by rewrite /edges_from HBv|]. rewrite -(base_length g Hb). by eapply lookup_lt_Some.
Qed.

Lemma base_insert g v nd nd' : nodes g !! v = Some nd → n_t nd' = n_t nd → n_edges nd' = n_edges nd →
  map (λ nd, (n_t nd, n_edges nd)) (<[v := nd']> (nodes g)) = base g.
Proof.
  intros Hnd Ht He. change (map ?f ?l) with (f <$> l). rewrite list_fmap_insert /base.
  apply list_insert_id. change (map ?f ?l) with (f <$> l). by rewrite list_lookup_fmap Hnd /= Ht He.
Qed.

Lemma sees_lookup g I L S k cs mp v : sees g I L S k cs mp → v < n →
  ∃ nd, nodes g !! v = Some nd ∧ n_index nd = I v ∧ n_lowlink nd = L v
    ∧ n_on_stack nd = bool_decide (v ∈ S) ∧ n_edges nd = edges_from v
    ∧ name_of v = Some (n_t nd).
Proof.
  intros Hs Hv. destruct (base_lookup g v (se_base _ _ _ _ _ _ _ Hs) Hv) as [nd Hnd].
  destruct (se_node _ _ _ _ _ _ _ Hs v nd Hnd) as (? & ? & ?).
  destruct (base_node g v nd (se_base _ _ _ _ _ _ _ Hs) Hnd) as (HBv & ? & _).
  exists nd. split_and!; try done. by rewrite /name_of HBv.
Qed.

Lemma sees_ext g I L I' L' S k cs mp : sees g I L S k cs mp →
  (∀ v, v < n → I' v = I v) → (∀ v, v < n → L' v = L v) → sees g I' L' S k cs mp.
Proof.
  intros [] HI HL. split; try done. intros v nd Hnd.
  destruct (base_node g v nd) as (_ & _ & Hv); [done..|]. rewrite HI // HL //. auto.
Qed.

(** ** The primitive steps *)

Lemma set_lowlink_ok g I L S k cs mp v l : sees g I L S k cs mp → v < n →
  ∃ g', update_node g v (set_lowlink l) = Ok g' ∧ sees g' I (upd_nat L v l) S k cs mp.
Proof.
  intros Hs Hv. destruct (sees_lookup _ _ _ _ _ _ _ v Hs Hv) as (nd & Hnd & _).
  unfold update_node. rewrite Hnd. cbn [expect rbind]. eexists. split; [done|].
  destruct Hs as [Hb ? ? ? ? ? Hnode ? ? ?]. split; try done.
  - rewrite -Hb. unfold base at 1. cbn [nodes]. by apply base_insert with nd.
  - cbn [nodes]. intros w nw. destruct (decide (w = v)) as [->|Hne].
    + rewrite list_lookup_insert_eq; [by eapply lookup_lt_Some|]. intros [= <-]. simpl.
      destruct (Hnode v nd Hnd) as (? & ? & ?). by rewrite upd_nat_eq.
    + rewrite list_lookup_insert_ne // upd_nat_ne //. apply Hnode.
Qed.

Lemma enter_ok g I L S k cs mp v : sees g I L S k cs mp → v < n → length S < n →
  ∃ g', enter g v = Ok g' ∧ sees g' (upd_nat I v k) (upd_nat L v k) (S ++ [v]) (k + 1)%N cs mp.
Proof.
  intros Hs Hv Hl. destruct (sees_lookup _ _ _ _ _ _ _ v Hs Hv) as (nd & Hnd & _).
  destruct Hs as [Hb ? ? Hst Hlen Htake Hnode Hnext ? ?].
  unfold enter, update_node. rewrite Hnd. cbn [expect rbind stack_len stack].
  assert ((stack_len g <? length (stack g))%nat = true) as -> by (apply Nat.ltb_lt; lia).
  eexists. split; [done|]. split; try done; cbn [nodes stack stack_len next_index].
  - rewrite -Hb. unfold base at 1. cbn [nodes]. by apply base_insert with nd.
  - by rewrite length_insert.
  - rewrite length_app /=. lia.
  - rewrite -Htake. rewrite (take_S_r _ _ v); [apply list_lookup_insert_eq; rewrite Hst; lia|].
    by rewrite take_insert_ge.
  - intros w nw. destruct (decide (w = v)) as [->|Hne].
    + rewrite list_lookup_insert_eq; [by eapply lookup_lt_Some|]. intros [= <-]. simpl.
      rewrite !upd_nat_eq Hnext. split_and!; [done|done|]. symmetry. apply bool_decide_eq_true_2, elem_of_app.
      right. apply list_elem_of_here.
    + rewrite list_lookup_insert_ne // !upd_nat_ne //. intros Hw.
      destruct (Hnode w nw Hw) as (-> & -> & ->). split_and!; try done.
      apply bool_decide_ext. rewrite elem_of_app list_elem_of_singleton. tauto.
  - by rewrite Hnext.
Qed.

Lemma name_of_inj v w x : name_of v = Some x → name_of w = Some x → v = w.
Proof using HB.
  intros Hv Hw. apply (NoDup_lookup (map fst B) _ _ x (bo_names HB));
    change (map fst B) with (fst <$> B); by rewrite list_lookup_fmap.
Qed.

(** [mp'] sends the names of [c] to [id] and is [mp] on the other names. *)
Definition maps_to (c : list nat) (id : nat) (mp mp' : gmap T nat) : Prop :=
  ∀ w x, name_of w = Some x → mp' !! x = if decide (w ∈ c) then Some id else mp !! x.

(** One iteration of the loop of [pop_component]. *)
Lemma pop_step g I L S k cs mp v id comp w : sees g I L (S ++ [w]) k cs mp → w < n → w ∉ S →
  ∃ g' x, sees g' I L S k cs (<[x := id]> mp) ∧ name_of w = Some x
    ∧ pop_component v id (stack_len g) comp g
      = if decide (w = v) then Ok (comp ++ [w], g') else pop_component v id (stack_len g') (comp ++ [w]) g'.
Proof.
  intros Hs Hw HwS. destruct (sees_lookup _ _ _ _ _ _ _ w Hs Hw) as (nd & Hnd & _ & _ & _ & _ & Hname).
  destruct Hs as [Hb ? ? Hst Hlen Htake Hnode ? ? Hmp]. rewrite length_app /= Nat.add_1_r in Hlen.
  assert (Hw' : stack g !! length S = Some w).
  { rewrite -(lookup_take_lt _ (stack_len g)); [lia|]. rewrite Htake lookup_app_r //. by rewrite Nat.sub_diag. }
  set (nd' := mkNode (n_t nd) (n_edges nd) (n_index nd) (n_lowlink nd) false).
  exists (mkGraph (h g) (<[w := nd']> (nodes g)) (has_run g) (stack g) (length S) (next_index g) (sccs g)
            (<[n_t nd := id]> (mapping g))), (n_t nd).
  split; [|split; [done|rewrite Hlen; cbn [pop_component]; by rewrite Hw' /= Hnd /=]].
  split; cbn; try done; [..|by rewrite Hmp].
  - rewrite -Hb. unfold base at 1. cbn [nodes]. by apply base_insert with nd.
  - apply (f_equal (take (length S))) in Htake. rewrite take_app_length take_take Nat.min_l in Htake; [lia|done].
  - intros u nu. destruct (decide (u = w)) as [->|Hne].
    + rewrite list_lookup_insert_eq; [by eapply lookup_lt_Some|]. intros [= <-]. simpl.
      destruct (Hnode w nd Hnd) as (? & ? & _). split_and!; [done|done|].
      symmetry. by apply bool_decide_eq_false_2.
    + rewrite list_lookup_insert_ne //. intros Hu. destruct (Hnode u nu Hu) as (-> & -> & ->).
      split_and!; [done|done|]. apply bool_decide_ext. rewrite elem_of_app list_elem_of_singleton. tauto.
Qed.

Lemma pop_component_ok v id S0 : ∀ X g I L k cs mp comp,
  sees g I L (S0 ++ v :: X) k cs mp → NoDup (S0 ++ v :: X) → Forall (λ w, w < n) (v :: X) →
  ∃ g' mp', pop_component v id (stack_len g) comp g = Ok (comp ++ rev (v :: X), g')
    ∧ sees g' I L S0 k cs mp' ∧ maps_to (v :: X) id mp mp'.
Proof using HB.
  induction X as [|w X IH] using rev_ind; intros g I L k cs mp comp Hs Hnd Hlt.
  - destruct (pop_step g I L S0 k cs mp v id comp v Hs) as (g' & x & Hs' & Hx & Hp).
    { by apply Forall_cons in Hlt as [? _]. }
    { apply NoDup_app in Hnd as (_ & Hd & _). intros Hin. apply (Hd v Hin), list_elem_of_here. }
    rewrite decide_True // in Hp. exists g', (<[x := id]> mp). split; [done|]. split; [done|].
    intros u y Hy. destruct (decide (u ∈ [v])) as [->%list_elem_of_singleton|Hu].
    + rewrite Hx in Hy. injection Hy as <-. by rewrite lookup_insert_eq.
    + rewrite lookup_insert_ne //. intros <-. apply Hu, list_elem_of_singleton. by eapply name_of_inj.
  - rewrite app_comm_cons app_assoc in Hs Hnd. rewrite app_comm_cons in Hlt.
    apply Forall_app in Hlt as [Hlt Hw]. rewrite Forall_singleton in Hw.
    pose proof Hnd as (Hnd' & Hd & _)%NoDup_app.
    assert (HwS : w ∉ S0 ++ v :: X) by (intros Hin; apply (Hd w Hin), list_elem_of_here).
    destruct (pop_step g I L (S0 ++ v :: X) k cs mp v id comp w Hs Hw HwS) as (g1 & x & Hs1 & Hx & Hp).
    rewrite decide_False in Hp.
    { intros ->. apply HwS, elem_of_app. right. apply list_elem_of_here. }
    destruct (IH g1 I L k cs (<[x := id]> mp) (comp ++ [w]) Hs1 Hnd' Hlt) as (g' & mp' & Hp' & Hs' & Hm).
    exists g', mp'. split; [|split; [done|]].
    + rewrite Hp Hp' app_comm_cons rev_unit. by rewrite -app_assoc.
    + intros u y Hy. rewrite (Hm u y Hy) app_comm_cons.
      destruct (decide (u ∈ v :: X)) as [Hu|Hu].
      * rewrite decide_True //. apply elem_of_app. by left.
      * destruct (decide (u = w)) as [->|Hne].
        -- rewrite Hx in Hy. injection Hy as <-. rewrite lookup_insert_eq decide_True //.
           apply elem_of_app. right. apply list_elem_of_here.
        -- rewrite lookup_insert_ne; [|rewrite decide_False //; rewrite elem_of_app list_elem_of_singleton; tauto].
           intros <-. apply Hne. by eapply name_of_inj.
Qed.
End tarjan.

(** ** The invariant of Tarjan's algorithm

    [inv] relates the numbering, the stack and the components found so far to
    the graph; [gs] are the nodes whose [strongconnect] is running.  [result_ok]
    is what a call establishes. *)

Section tarjan.
Context {T : Type} `{Countable T}.
Context (B : list (T * list nat)) (h0 : gmap T nat) (HB : base_ok B).
#[local] Abbreviation n := (length B).
#[local] Abbreviation succ := (succ B).
#[local] Abbreviation reach := (rtc succ).
#[local] Abbreviation sees := (sees B h0).
Implicit Types (I L : nat → N) (S X gs : list nat) (k : N) (cs : list SCC) (mp : gmap T nat).

(** ** Components *)

Definition in_scc cs (i v : nat) : Prop := ∃ c, cs !! i = Some c ∧ v ∈ scc_nodes c.

Record scc_ok cs (i : nat) (c : SCC) : Prop := {
  so_id : scc_id c = i;
  so_nonempty : scc_nodes c ≠ [];
  so_nodup : NoDup (scc_nodes c);
  so_class : ∀ x y, x ∈ scc_nodes c → (y ∈ scc_nodes c ↔ reach x y ∧ reach y x);
  so_down : ∀ x y, x ∈ scc_nodes c → succ x y → ∃ j, j ≤ i ∧ in_scc cs j y
}.

Definition unvisited I : list nat := filter (λ v, I v = usize_max) (seq 0 n).

Record inv gs I S k cs mp : Prop := {
  i_range : ∀ v, I v ≠ usize_max → v < n;
  i_count : (k + N.of_nat (length (unvisited I)) = N.of_nat n)%N;
  i_lt : ∀ v, I v ≠ usize_max → (I v < k)%N;
  i_nodup : NoDup S;
  i_visited : ∀ v, v ∈ S → I v ≠ usize_max;
  i_black : ∀ v w, I v ≠ usize_max → v ∉ gs → succ v w → I w ≠ usize_max;
  i_reach : ∀ x y, x ∈ S → y ∈ S → (I x ≤ I y)%N → reach x y;
  i_gray : ∀ y, y ∈ S → ∃ x, x ∈ gs ∧ (I x ≤ I y)%N ∧ reach y x;
  i_gs : ∀ x, x ∈ gs → x ∈ S;
  i_done : ∀ v, I v ≠ usize_max ∧ v ∉ S ↔ ∃ i, in_scc cs i v;
  i_scc : ∀ i c, cs !! i = Some c → scc_ok cs i c;
  i_map : ∀ w x i, name_of B w = Some x → mp !! x = Some i ↔ in_scc cs i w
}.

(** What a call leaves of the state before it; [D] are nodes whose low link may change. *)
Record grows (D : list nat) I L S k I' L' S' k' : Prop := {
  gr_index : ∀ v, I v ≠ usize_max → I' v = I v;
  gr_low : ∀ v, I v ≠ usize_max → v ∉ D → L' v = L v;
  gr_stack : ∃ X, S' = S ++ X ∧ ∀ x, x ∈ X → (k ≤ I' x)%N;
  gr_unvisited : length (unvisited I') ≤ length (unvisited I)
}.

Record result_ok gs v I L S k (g' : Graph T) I' L' S' k' cs' mp' : Prop := {
  ro_sees : sees g' I' L' S' k' cs' mp';
  ro_inv : inv gs I' S' k' cs' mp';
  ro_grows : grows [] I L S k I' L' S' k';
  ro_visited : I' v ≠ usize_max;
  ro_low : (L' v ≤ I' v)%N;
  ro_root : (v ∉ S' ∧ S' = S ∧ (k ≤ L' v)%N)
    ∨ (∃ y, y ∈ S ∧ I' y = L' v ∧ reach v y)
      ∧ ∀ x y, x ∈ S' → x ∉ S → y ∈ S' → succ x y → (L' v ≤ I' y)%N
}.

(** ** Counting *)

Lemma elem_unvisited I v : v ∈ unvisited I ↔ I v = usize_max ∧ v < n.
Proof. unfold unvisited. rewrite list_elem_of_filter elem_of_seq. naive_solver lia. Qed.

Lemma unvisited_visit I v k : v < n → I v = usize_max → k ≠ usize_max →
  length (unvisited I) = Datatypes.S (length (unvisited (upd_nat I v k))).
Proof.
  intros Hv HI Hk.
  assert (Hp : unvisited I ≡ₚ v :: unvisited (upd_nat I v k)).
  { apply NoDup_Permutation.
    - apply NoDup_filter, NoDup_seq.
    - apply NoDup_cons. split; [|apply NoDup_filter, NoDup_seq].
      rewrite elem_unvisited upd_nat_eq. naive_solver.
    - intros x. rewrite elem_of_cons !elem_unvisited. destruct (decide (x = v)) as [->|Hne].
      + naive_solver. + rewrite upd_nat_ne //. naive_solver. }
  by rewrite Hp.
Qed.

Lemma stack_below S v : NoDup S → v ∉ S → (∀ x, x ∈ S → x < n) → v < n → length S < n.
Proof.
  intros Hnd Hv Hlt Hvn. assert (Hs : v :: S ⊆+ seq 0 n).
  { apply NoDup_submseteq; [by constructor|]. intros x [->|Hx]%elem_of_cons; apply elem_of_seq; [lia|].
    specialize (Hlt x Hx). lia. }
  apply submseteq_length in Hs. rewrite length_seq /= in Hs. lia.
Qed.

(** ** Elementary consequences *)

Lemma in_scc_app cs cs2 i v : in_scc cs i v → in_scc (cs ++ cs2) i v.
Proof. intros (c & Hc & Hv). exists c. split; [by apply lookup_app_l_Some|done]. Qed.

Lemma in_scc_snoc cs c i v :
  in_scc (cs ++ [c]) i v ↔ in_scc cs i v ∨ (i = length cs ∧ v ∈ scc_nodes c).
Proof.
  split.
  - intros (c' & Hc & Hv). apply lookup_app_Some in Hc as [Hc|[Hle Hc]]; [left; by exists c'|].
    apply list_lookup_singleton_Some in Hc as [Hi <-]. right. split; [lia|done].
  - intros [Hin|[-> Hv]]; [by apply in_scc_app|]. exists c. split; [|done].
    by rewrite lookup_app_r // Nat.sub_diag.
Qed.

Lemma done_closed gs I S k cs mp v w : inv gs I S k cs mp →
  I v ≠ usize_max → v ∉ S → succ v w → I w ≠ usize_max ∧ w ∉ S.
Proof.
  intros Hi Hv HvS Hvw. apply (i_done _ _ _ _ _ _ Hi).
  destruct (proj1 (i_done _ _ _ _ _ _ Hi v)) as (i & c & Hc & Hvc); [done|].
  destruct (so_down _ _ _ (i_scc _ _ _ _ _ _ Hi i c Hc) v w Hvc Hvw) as (j & _ & Hj). by exists j.
Qed.

Lemma done_reach gs I S k cs mp v w : inv gs I S k cs mp → reach v w →
  I v ≠ usize_max → v ∉ S → I w ≠ usize_max ∧ w ∉ S.
Proof.
  intros Hi. induction 1 as [x|x y z Hxy _ IH]; [done|]. intros Hv HvS.
  destruct (done_closed _ _ _ _ _ _ x y Hi Hv HvS Hxy). auto.
Qed.

(** A stack node reaches [v] when every running call does. *)
Lemma stack_reaches gs I S k cs mp v x : inv gs I S k cs mp → (∀ x, x ∈ gs → reach x v) →
  x ∈ S → reach x v.
Proof.
  intros Hi Hg Hx. destruct (i_gray _ _ _ _ _ _ Hi x Hx) as (y & Hy & _ & Hxy).
  etrans; [done|]. by apply Hg.
Qed.

Lemma unvisited_bound gs I S k cs mp v : inv gs I S k cs mp → v < n → I v = usize_max →
  (k < N.of_nat n)%N ∧ k ≠ usize_max ∧ v ∉ S ∧ length S < n.
Proof using HB.
  intros Hi Hv HI. pose proof (bo_size _ HB) as Hsz.
  assert (Hu : v ∈ unvisited I) by by apply elem_unvisited.
  assert (0 < length (unvisited I)) by (destruct (unvisited I); [by apply not_elem_of_nil in Hu|simpl; lia]).
  pose proof (i_count _ _ _ _ _ _ Hi). assert (HvS : v ∉ S) by (intros Hin%(i_visited _ _ _ _ _ _ Hi); done).
  split_and!; [lia|lia|done|]. apply (stack_below S v); [apply Hi|done| |done].
  intros x Hx. by apply (i_range _ _ _ _ _ _ Hi), (i_visited _ _ _ _ _ _ Hi).
Qed.

(** ** Entering a node *)

Lemma enter_inv gs I S k cs mp v : inv gs I S k cs mp → v < n → I v = usize_max →
  (∀ x, x ∈ gs → reach x v) → inv (v :: gs) (upd_nat I v k) (S ++ [v]) (k + 1)%N cs mp.
Proof using HB.
  intros Hi Hv HI Hg. destruct (unvisited_bound _ _ _ _ _ _ _ Hi Hv HI) as (Hk & Hkm & HvS & _).
  assert (Hne : ∀ x, x ∈ S → x ≠ v) by (intros x Hx ->; done).
  assert (HSv : ∀ x, x ∈ S ++ [v] → x = v ∨ x ∈ S ∧ x ≠ v).
  { intros x [Hx| ->%list_elem_of_singleton]%elem_of_app; auto. }
  pose proof (unvisited_visit I v k Hv HI Hkm). pose proof (i_lt _ _ _ _ _ _ Hi) as Hlt.
  pose proof (i_visited _ _ _ _ _ _ Hi) as Hvis.
  split.
  - intros x. destruct (decide (x = v)) as [->|Hx]; [done|]. rewrite upd_nat_ne //. apply Hi.
  - pose proof (i_count _ _ _ _ _ _ Hi). lia.
  - intros x. destruct (decide (x = v)) as [->|Hx]; [rewrite upd_nat_eq; lia|].
    rewrite upd_nat_ne //. intros Hx'%Hlt. lia.
  - apply NoDup_app. split_and!; [apply Hi| |apply NoDup_singleton].
    intros x Hx ->%list_elem_of_singleton. done.
  - intros x [->|[Hx Hx']]%HSv; [by rewrite upd_nat_eq|]. rewrite upd_nat_ne //. auto.
  - intros x w Hx Hxg Hxw. apply not_elem_of_cons in Hxg as [Hxv Hxg].
    rewrite upd_nat_ne // in Hx. destruct (decide (w = v)) as [->|Hw]; [by rewrite upd_nat_eq|].
    rewrite upd_nat_ne //. by apply (i_black _ _ _ _ _ _ Hi x w).
  - intros x y [->|[Hx Hxv]]%HSv [->|[Hy Hyv]]%HSv; [done|..].
    + rewrite upd_nat_eq upd_nat_ne //. specialize (Hlt y (Hvis y Hy)). lia.
    + intros _. by apply (stack_reaches gs I S k cs mp).
    + rewrite !upd_nat_ne //. by apply Hi.
  - intros y [->|[Hy Hyv]]%HSv.
    + exists v. split_and!; [apply list_elem_of_here|done|done].
    + destruct (i_gray _ _ _ _ _ _ Hi y Hy) as (x & Hx & Hle & Hyx). exists x.
      split_and!; [apply elem_of_cons; by right| |done]. rewrite !upd_nat_ne //.
      by apply Hne, (i_gs _ _ _ _ _ _ Hi).
  - intros x [->|Hx]%elem_of_cons; apply elem_of_app; [right; apply list_elem_of_here|left].
    by apply (i_gs _ _ _ _ _ _ Hi).
  - intros x. rewrite -(i_done _ _ _ _ _ _ Hi x) elem_of_app list_elem_of_singleton.
    destruct (decide (x = v)) as [->|Hx]; [rewrite upd_nat_eq; naive_solver|].
    rewrite upd_nat_ne //. naive_solver.
  - apply Hi.
  - apply Hi.
Qed.

Lemma grows_refl D I L S k : grows D I L S k I L S k.
Proof.
  split; try done. exists []. split; [by rewrite app_nil_r|]. by intros x ?%not_elem_of_nil.
Qed.

Lemma grows_weaken D D' I L S k I' L' S' k' : (∀ x, x ∈ D → x ∈ D') →
  grows D I L S k I' L' S' k' → grows D' I L S k I' L' S' k'.
Proof. intros HD [H1 H2 H3 H4]. split; try done. intros x Hx Hx'. apply H2; auto. Qed.

(** [k <= k1] holds because an index is given to every new node. *)
Lemma grows_trans D I L S k I1 L1 S1 k1 I2 L2 S2 k2 : (k ≤ k1)%N →
  (∀ x, x ∈ S1 → I1 x ≠ usize_max) →
  grows D I L S k I1 L1 S1 k1 → grows D I1 L1 S1 k1 I2 L2 S2 k2 → grows D I L S k I2 L2 S2 k2.
Proof.
  intros Hk Hv1 [A1 A2 (X1 & -> & A3) A4] [B1 B2 (X2 & -> & B3) B4]. split.
  - intros v Hv. rewrite B1; rewrite A1 //.
  - intros v Hv HvD. rewrite B2; rewrite ?A1 // A2 //.
  - exists (X1 ++ X2). rewrite app_assoc. split; [done|]. intros x [Hx|Hx]%elem_of_app.
    + rewrite B1; [apply Hv1, elem_of_app; by right|]. auto.
    + specialize (B3 x Hx). lia.
  - lia.
Qed.
End tarjan.
