(* ===== verification/SccGraph.v ===== *)
(** * Correctness of [strongconnect]

    The loop over the edges of a node, then the two ways [strongconnect] ends:
    the node is the root of a component, which is popped, or it stays on the
    stack.  The last section lifts the invariant from numbers to the [Graph] that
    the code updates. *)

From S2P Require Import Prelude Scc SccFacts.
Set Warnings "-rewrite-rw,-register-all,-clear-no-such-hyp".

Section tarjan.
Context {T : Type} `{Countable T}.
Context (B : list (T * list nat)) (h0 : gmap T nat) (HB : base_ok B).
#[local] Abbreviation n := (length B).
#[local] Abbreviation succ := (succ B).
#[local] Abbreviation reach := (rtc succ).
#[local] Abbreviation sees := (sees B h0).
#[local] Abbreviation inv := (inv B).
#[local] Abbreviation grows := (grows B).
#[local] Abbreviation unvisited := (unvisited B).
Implicit Types (I L : nat → N) (S X gs : list nat) (k : N) (cs : list SCC) (mp : gmap T nat).

(** ** The loop over the edges *)

Definition call_ok (fuel : nat) (sc : Graph T → nat → res fuel_error (Graph T)) : Prop :=
  ∀ g w gs I L S k cs mp, sees g I L S k cs mp → inv gs I S k cs mp →
    I w = usize_max → w < n → (∀ x, x ∈ gs → reach x w) → length (unvisited I) ≤ fuel →
    ∃ g' I' L' S' k' cs' mp', sc g w = Ok g'
      ∧ result_ok B h0 gs w I L S k g' I' L' S' k' cs' mp'.

(** [ed] are the edges of [v] treated so far; the stack is [S0 ++ v :: X]. *)
Record loop_inv gs v S0 (ed : list nat) I L X k cs mp : Prop := {
  lp_inv : inv (v :: gs) I (S0 ++ v :: X) k cs mp;
  lp_gs : ∀ x, x ∈ gs → reach x v ∧ x ∈ S0;
  lp_before : ∀ y, y ∈ S0 → (I y < I v)%N;
  lp_after : ∀ x, x ∈ X → (I v < I x)%N;
  lp_low : (L v ≤ I v)%N;
  lp_wit : ∃ y, y ∈ S0 ++ v :: X ∧ I y = L v ∧ reach v y;
  lp_done : ∀ w, w ∈ ed → I w ≠ usize_max ∧ (w ∈ S0 ++ v :: X → (L v ≤ I w)%N);
  lp_extra : ∀ x y, x ∈ X → y ∈ S0 ++ v :: X → succ x y → (L v ≤ I y)%N
}.

Lemma v_on_stack v S0 X : v ∈ S0 ++ v :: X.
Proof. apply elem_of_app. right. apply list_elem_of_here. Qed.

(** The edge [v -> w] leads to a visited node. *)
Lemma loop_visited gs v S0 ed I L X k cs mp w l : loop_inv gs v S0 ed I L X k cs mp →
  succ v w → I w ≠ usize_max →
  l = (if bool_decide (w ∈ S0 ++ v :: X) then N.min (L v) (I w) else L v) →
  loop_inv gs v S0 (ed ++ [w]) I (upd_nat L v l) X k cs mp.
Proof.
  intros [Hi Hg Hb Ha Hl (y & Hy & HyL & Hvy) Hd He] Hvw Hw ->.
  assert (Hle : ((if bool_decide (w ∈ S0 ++ v :: X) then N.min (L v) (I w) else L v) ≤ L v)%N).
  { destruct (bool_decide _); lia. }
  split; rewrite ?upd_nat_eq; try done.
  - lia.
  - destruct (bool_decide _) eqn:Hbd; [|by exists y].
    apply bool_decide_eq_true in Hbd. destruct (N.min_spec (L v) (I w)) as [[_ ->]|[_ ->]]; [by exists y|].
    exists w. split_and!; [done|done|by apply rtc_once].
  - intros u [Hu|Hu]%elem_of_app.
    + destruct (Hd u Hu) as [Hv Hlu]. split; [done|]. intros Hs. specialize (Hlu Hs). lia.
    + apply list_elem_of_singleton in Hu as ->. split; [done|]. intros Hs.
      rewrite bool_decide_eq_true_2 //. lia.
  - intros x z Hx Hz Hxz. specialize (He x z Hx Hz Hxz). lia.
Qed.

(** The call on an unvisited [w] has returned. *)
Lemma loop_called gs v S0 ed I L X k cs mp w g' I' L' S' k' cs' mp' :
  loop_inv gs v S0 ed I L X k cs mp → succ v w → 
  result_ok B h0 (v :: gs) w I L (S0 ++ v :: X) k g' I' L' S' k' cs' mp' →
  ∃ X', S' = S0 ++ v :: X' ∧ L' v = L v ∧ (∃ X2, X' = X ++ X2)
    ∧ loop_inv gs v S0 (ed ++ [w]) I' (upd_nat L' v (N.min (L' v) (L' w))) X' k' cs' mp'.
Proof.
  intros [Hi Hg Hb Ha Hl (y & Hy & HyL & Hvy) Hd He] Hvw [_ Hi' [G1 G2 (X2 & HS' & G3) _] Hw Hlw Hroot].
  pose proof (i_visited _ _ _ _ _ _ _ Hi) as Hvis.
  assert (HvI : I v ≠ usize_max) by apply Hvis, v_on_stack.
  pose proof (i_lt _ _ _ _ _ _ _ Hi v HvI) as Hvk.
  assert (HI : ∀ x, x ∈ S0 ++ v :: X → I' x = I x) by (intros x Hx; by apply G1, Hvis).
  assert (HL : L' v = L v) by (apply G2; [done|apply not_elem_of_nil]).
  assert (Hnew : S' = S0 ++ v :: (X ++ X2)) by by rewrite HS' -app_assoc.
  exists (X ++ X2). split; [done|]. split; [done|]. split; [by exists X2|].
  rewrite Hnew in Hi'. rewrite HL.
  assert (HIv : I' v = I v) by apply HI, v_on_stack.
  assert (Hsub : ∀ x, x ∈ S0 ++ v :: (X ++ X2) → x ∈ S0 ++ v :: X ∨ x ∈ X2).
  { intros x. rewrite -Hnew HS' elem_of_app. done. }
  split; rewrite ?upd_nat_eq; try done.
  - intros z Hz. rewrite HIv HI; [apply elem_of_app; by left|]. auto.
  - intros x [Hx|Hx]%elem_of_app.
    + rewrite HIv HI; [|auto]. apply elem_of_app. right. apply elem_of_cons. by right.
    + specialize (G3 x Hx). lia.
  - lia.
  - destruct Hroot as [(_ & _ & Hk)|[(z & Hz & HzL & Hwz) _]].
    + rewrite N.min_l; [lia|]. exists y. rewrite -Hnew HS' (HI y Hy). split_and!; [|done|done].
      apply elem_of_app. by left.
    + destruct (N.min_spec (L v) (L' w)) as [[_ ->]|[_ ->]].
      * exists y. rewrite -Hnew HS' (HI y Hy). split_and!; [|done|done]. apply elem_of_app. by left.
      * exists z. rewrite -Hnew HS'. split_and!; [apply elem_of_app; by left|done|].
        by eapply rtc_l.
  - intros u [Hu|Hu]%elem_of_app.
    + destruct (Hd u Hu) as [Hu1 Hu2]. rewrite (G1 u Hu1). split; [done|].
      intros [Hs|Hs]%Hsub; [specialize (Hu2 Hs); lia|]. specialize (G3 u Hs). rewrite (G1 u Hu1) in G3. lia.
    + apply list_elem_of_singleton in Hu as ->. split; [done|]. intros Hs.
      destruct Hroot as [(Hn & _)|_]; [|lia]. rewrite -Hnew in Hs. done.
  - intros x z [Hx|Hx]%elem_of_app Hz Hxz.
    + destruct (Hsub z Hz) as [Hs|Hs]; [rewrite (HI z Hs); specialize (He x z Hx Hs Hxz); lia|].
      specialize (G3 z Hs). lia.
    + destruct Hroot as [(_ & HSS & _)|[_ Hr]].
      * exfalso. rewrite HSS in HS'. rewrite -{1}(app_nil_r (S0 ++ v :: X)) in HS'.
        apply app_inv_head in HS'. subst X2. by apply not_elem_of_nil in Hx.
      * rewrite -Hnew in Hz. specialize (Hr x z). rewrite HS' in Hr.
        assert (x ∉ S0 ++ v :: X).
        { intros Hin. pose proof (i_nodup _ _ _ _ _ _ _ Hi') as Hnd. rewrite -Hnew HS' in Hnd.
          apply NoDup_app in Hnd as (_ & Hnd & _). by apply (Hnd x Hin). }
        rewrite -HS' in Hr. assert (L' w ≤ I' z)%N; [|lia]. apply Hr; try done.
        rewrite HS'. apply elem_of_app. by right.
Qed.

Lemma sees_next g I L S k cs mp g' I' L' S' k' cs' mp' gs :
  sees g I L S k cs mp → sees g' I' L' S' k' cs' mp' → inv gs I S k cs mp → inv gs I' S' k' cs' mp' →
  length (unvisited I') ≤ length (unvisited I) → (k ≤ k')%N.
Proof. intros _ _ Hi Hi' Hu. pose proof (i_count _ _ _ _ _ _ _ Hi). pose proof (i_count _ _ _ _ _ _ _ Hi'). lia. Qed.

Lemma strong_edges_ok fuel sc gs v S0 : call_ok fuel sc → v < n →
  ∀ es ed g I L X k cs mp, edges_from B v = ed ++ es → sees g I L (S0 ++ v :: X) k cs mp →
  loop_inv gs v S0 ed I L X k cs mp → length (unvisited I) ≤ fuel →
  ∃ g' I' L' X' k' cs' mp', strong_edges sc v es g = Ok g'
    ∧ sees g' I' L' (S0 ++ v :: X') k' cs' mp'
    ∧ loop_inv gs v S0 (ed ++ es) I' L' X' k' cs' mp'
    ∧ grows [v] I L (S0 ++ v :: X) k I' L' (S0 ++ v :: X') k'.
Proof using HB.
  intros Hsc Hv. induction es as [|w es IH]; intros ed g I L X k cs mp He Hs Hl Hf.
  { exists g, I, L, X, k, cs, mp. rewrite app_nil_r. split_and!; [done|done|done|apply grows_refl]. }
  assert (Hvw : succ v w).
  { unfold SccFacts.succ. rewrite He. apply elem_of_app. right. apply list_elem_of_here. }
  rewrite (cons_middle w ed es) app_assoc in He.
  pose proof (bo_range _ HB v w Hvw) as Hw.
  pose proof (lp_inv _ _ _ _ _ _ _ _ _ _ Hl) as Hi.
  assert (HvI : I v ≠ usize_max) by apply (i_visited _ _ _ _ _ _ _ Hi), v_on_stack.
  destruct (sees_lookup B h0 _ _ _ _ _ _ _ w Hs Hw) as (nw & Hnw & HIw & HLw & HOw & _).
  destruct (sees_lookup B h0 _ _ _ _ _ _ _ v Hs Hv) as (nv & Hnv & _ & HLv & _).
  cbn [strong_edges]. rewrite Hnw. cbn [expect rbind]. rewrite HIw HOw.
  enough (∃ g1 I1 L1 X1 k1 cs1 mp1,
    (if decide (I w = usize_max) then
        rbind (sc g w) (λ self, rbind (expect (nodes self !! v)) (λ nv, rbind (expect (nodes self !! w))
          (λ nw, update_node self v (set_lowlink (N.min (n_lowlink nv) (n_lowlink nw))))))
      else if bool_decide (w ∈ S0 ++ v :: X) then
        rbind (expect (nodes g !! v)) (λ nv, update_node g v (set_lowlink (N.min (n_lowlink nv) (I w))))
      else Ok g) = Ok g1
    ∧ sees g1 I1 L1 (S0 ++ v :: X1) k1 cs1 mp1
    ∧ loop_inv gs v S0 (ed ++ [w]) I1 L1 X1 k1 cs1 mp1
    ∧ grows [v] I L (S0 ++ v :: X) k I1 L1 (S0 ++ v :: X1) k1)
    as (g1 & I1 & L1 & X1 & k1 & cs1 & mp1 & Hg1 & Hs1 & Hl1 & Hgr1).
  { rewrite Hg1. cbn [rbind]. pose proof (lp_inv _ _ _ _ _ _ _ _ _ _ Hl1) as Hi1.
    destruct (IH (ed ++ [w]) g1 I1 L1 X1 k1 cs1 mp1 He Hs1 Hl1) as (g2 & I2 & L2 & X2 & k2 & cs2 & mp2 & Hg2 & Hs2 & Hl2 & Hgr2).
    { pose proof (gr_unvisited _ _ _ _ _ _ _ _ _ _ Hgr1). lia. }
    exists g2, I2, L2, X2, k2, cs2, mp2. rewrite -app_assoc in Hl2. split_and!; [done|done|done|].
    apply (grows_trans B [v] _ _ _ _ I1 L1 (S0 ++ v :: X1) k1); try done.
    - by apply (sees_next _ _ _ _ _ _ _ _ _ _ _ _ _ _ (v :: gs) Hs Hs1 Hi Hi1), Hgr1.
    - apply Hi1. }
  destruct (decide (I w = usize_max)) as [Hun|Hvis].
  - destruct (Hsc g w (v :: gs) I L _ k cs mp Hs Hi Hun Hw) as (g1 & I1 & L1 & S1 & k1 & cs1 & mp1 & Hg1 & Hr).
    { intros x [->|Hx]%elem_of_cons; [by apply rtc_once|]. etrans; [|by apply rtc_once].
      by apply (lp_gs _ _ _ _ _ _ _ _ _ _ Hl). }
    { done. }
    destruct (loop_called _ _ _ _ _ _ _ _ _ _ _ _ _ _ _ _ _ _ Hl Hvw Hr) as (X1 & -> & HLv1 & _ & Hl1).
    destruct Hr as [Hs1 _ Hgr _ _ _].
    destruct (sees_lookup B h0 _ _ _ _ _ _ _ w Hs1 Hw) as (nw1 & Hnw1 & _ & HLw1 & _).
    destruct (sees_lookup B h0 _ _ _ _ _ _ _ v Hs1 Hv) as (nv1 & Hnv1 & _ & HLv1' & _).
    destruct (set_lowlink_ok B h0 _ _ _ _ _ _ _ v (N.min (L1 v) (L1 w)) Hs1 Hv) as (g2 & Hg2 & Hs2).
    exists g2, I1, (upd_nat L1 v (N.min (L1 v) (L1 w))), X1, k1, cs1, mp1.
    rewrite Hg1. cbn [rbind]. rewrite Hnv1 Hnw1. cbn [expect rbind]. rewrite HLw1 HLv1' Hg2.
    split_and!; [done|done|done|]. destruct Hgr as [G1 G2 G3 G4]. split; try done.
    intros x Hx Hxv. rewrite upd_nat_ne; [|apply G2; [done|apply not_elem_of_nil]].
    intros ->. apply Hxv, list_elem_of_here.
  - pose proof (loop_visited _ _ _ _ _ _ _ _ _ _ w _ Hl Hvw Hvis eq_refl) as Hl1.
    destruct (bool_decide (w ∈ S0 ++ v :: X)) eqn:Hbd.
    + destruct (set_lowlink_ok B h0 _ _ _ _ _ _ _ v (N.min (L v) (I w)) Hs Hv) as (g2 & Hg2 & Hs2).
      exists g2, I, (upd_nat L v (N.min (L v) (I w))), X, k, cs, mp. rewrite Hnv. cbn [expect rbind]. rewrite HLv Hg2.
      split_and!; [done|exact Hs2|done|]. destruct (grows_refl B [v] I L (S0 ++ v :: X) k) as [R1 R2 R3 R4]. split; try done.
      intros x _ Hxv. apply upd_nat_ne. intros ->. apply Hxv, list_elem_of_here.
    + exists g, I, L, X, k, cs, mp. split_and!; [done|done| |apply grows_refl].
      destruct Hl1 as [? ? ? ? Hll Hwt Hdn Hex]. rewrite upd_nat_eq in Hll Hwt Hdn Hex. by split.
Qed.

(** ** After the loop *)

Section after.
Context gs v S0 I L X k cs mp (Hl : loop_inv gs v S0 (edges_from B v) I L X k cs mp).
#[local] Abbreviation S := (S0 ++ v :: X).
#[local] Abbreviation c := (v :: X).

Lemma after_black u w : I u ≠ usize_max → u ∉ gs → succ u w → I w ≠ usize_max.
Proof using Hl.
  intros Hu Hug Huw. destruct (decide (u = v)) as [->|Hne].
  - by apply (lp_done _ _ _ _ _ _ _ _ _ _ Hl).
  - apply (i_black _ _ _ _ _ _ _ (lp_inv _ _ _ _ _ _ _ _ _ _ Hl) u w Hu); [|done].
    by intros [?|?]%elem_of_cons.
Qed.

Lemma after_split u : u ∈ S → u ∈ S0 ∧ (I u < I v)%N ∧ u ∉ c ∨ u ∈ c ∧ (I v ≤ I u)%N ∧ u ∉ S0.
Proof using Hl.
  intros Hu. pose proof (i_nodup _ _ _ _ _ _ _ (lp_inv _ _ _ _ _ _ _ _ _ _ Hl)) as (_ & Hd & _)%NoDup_app.
  apply elem_of_app in Hu as [Hu|Hu].
  - left. split_and!; [done|by apply (lp_before _ _ _ _ _ _ _ _ _ _ Hl)|by apply Hd].
  - right. split_and!; [done| |intros Hu'; by apply (Hd u Hu')].
    apply elem_of_cons in Hu as [->|Hu]; [done|]. apply N.lt_le_incl. by apply (lp_after _ _ _ _ _ _ _ _ _ _ Hl).
Qed.

Lemma after_comp u : u ∈ c → u ∈ S ∧ u ∉ gs ∧ reach v u ∧ reach u v.
Proof using Hl.
  intros Hu. assert (HuS : u ∈ S) by (apply elem_of_app; by right).
  pose proof (lp_inv _ _ _ _ _ _ _ _ _ _ Hl) as Hi.
  destruct (after_split u HuS) as [(_ & _ & Hn)|(_ & Hle & Hn)]; [done|].
  split_and!; [done| | |].
  - intros Hg%(lp_gs _ _ _ _ _ _ _ _ _ _ Hl). by destruct Hg.
  - by apply (i_reach _ _ _ _ _ _ _ Hi); [apply v_on_stack|done|].
  - apply (stack_reaches B (v :: gs) I S k cs mp); [done| |done].
    intros x [->|Hx]%elem_of_cons; [done|]. by apply (lp_gs _ _ _ _ _ _ _ _ _ _ Hl).
Qed.

Lemma after_edge x y : x ∈ c → succ x y → y ∈ S → (L v ≤ I y)%N.
Proof using Hl.
  intros [->|Hx]%elem_of_cons Hxy Hy.
  - destruct (lp_done _ _ _ _ _ _ _ _ _ _ Hl y Hxy) as [_ Hd]. auto.
  - by apply (lp_extra _ _ _ _ _ _ _ _ _ _ Hl x y).
Qed.

(** *** The root of a component *)

Section root.
Context (Hroot : L v = I v).

Lemma root_closed x y : x ∈ c → succ x y → y ∈ c ∨ I y ≠ usize_max ∧ y ∉ S.
Proof using Hl Hroot.
  intros Hx Hxy. destruct (decide (y ∈ S)) as [Hy|Hy].
  - pose proof (after_edge x y Hx Hxy Hy). destruct (after_split y Hy) as [(_ & ? & _)|(? & _)]; [lia|by left].
  - right. split; [|done]. destruct (after_comp x Hx) as (HxS & Hxg & _).
    apply (after_black x y); [|done|done].
    by apply (i_visited _ _ _ _ _ _ _ (lp_inv _ _ _ _ _ _ _ _ _ _ Hl)).
Qed.

Lemma root_reach x y : reach x y → x ∈ c → y ∈ c ∨ I y ≠ usize_max ∧ y ∉ S.
Proof using Hl Hroot.
  induction 1 as [x|x y z Hxy Hyz IH]; [by left|]. intros Hx.
  destruct (root_closed x y Hx Hxy) as [?|[Hy HyS]]; [auto|]. right.
  by apply (done_reach B (v :: gs) I S k cs mp y z (lp_inv _ _ _ _ _ _ _ _ _ _ Hl)).
Qed.

Lemma root_class x y : x ∈ c → y ∈ c ↔ reach x y ∧ reach y x.
Proof using Hl Hroot.
  intros Hx. destruct (after_comp x Hx) as (HxS & _ & Hvx & Hxv). split.
  - intros Hy. destruct (after_comp y Hy) as (_ & _ & Hvy & Hyv). split; by etrans.
  - intros [Hxy Hyx]. destruct (root_reach x y Hxy Hx) as [?|[Hy HyS]]; [done|].
    destruct (done_reach B (v :: gs) I S k cs mp y x (lp_inv _ _ _ _ _ _ _ _ _ _ Hl) Hyx Hy HyS) as [_ ?].
    done.
Qed.

#[local] Abbreviation new := (mkSCC (length cs) (rev c)).

Lemma in_new u : u ∈ scc_nodes new ↔ u ∈ c.
Proof. cbn [scc_nodes]. by rewrite !list_elem_of_In -in_rev. Qed.

Lemma root_scc_ok i d : (cs ++ [new]) !! i = Some d → scc_ok B (cs ++ [new]) i d.
Proof using Hl Hroot.
  pose proof (lp_inv _ _ _ _ _ _ _ _ _ _ Hl) as Hi.
  intros [Hd|[Hle Hd]]%lookup_app_Some.
  - destruct (i_scc _ _ _ _ _ _ _ Hi i d Hd) as [? ? ? ? Hdown]. split; try done.
    intros x y Hx Hxy. destruct (Hdown x y Hx Hxy) as (j & Hj & Hin). exists j. split; [done|].
    by apply in_scc_app.
  - apply list_lookup_singleton_Some in Hd as [Hz <-]. assert (i = length cs) as -> by lia. split.
    + done.
    + cbn [scc_nodes rev]. by destruct (rev X).
    + cbn [scc_nodes]. apply NoDup_ListNoDup, NoDup_rev, NoDup_ListNoDup.
      by pose proof (i_nodup _ _ _ _ _ _ _ Hi) as (_ & _ & ?)%NoDup_app.
    + intros x y. rewrite !in_new. apply root_class.
    + intros x y. rewrite in_new. intros Hx Hxy. destruct (root_closed x y Hx Hxy) as [Hy|Hy].
      * exists (length cs). split; [done|]. apply in_scc_snoc. right. by rewrite in_new.
      * apply (i_done _ _ _ _ _ _ _ Hi) in Hy as [j Hj]. exists j. split; [|by apply in_scc_app].
        destruct Hj as (d & Hd & _). apply lookup_lt_Some in Hd. lia.
Qed.

Lemma root_inv mp' : maps_to B c (length cs) mp mp' → inv gs I S0 k (cs ++ [new]) mp'.
Proof using Hl Hroot.
  intros Hm. pose proof (lp_inv _ _ _ _ _ _ _ _ _ _ Hl) as Hi.
  assert (HS0 : ∀ x, x ∈ S0 → x ∈ S) by (intros x Hx; apply elem_of_app; by left).
  pose proof (i_nodup _ _ _ _ _ _ _ Hi) as (Hnd & Hdj & _)%NoDup_app.
  assert (Hold : ∀ i u, in_scc cs i u → u ∉ S).
  { intros i u Hu. by apply (i_done _ _ _ _ _ _ _ Hi u); exists i. }
  split; try (apply Hi; done).
  - done.
  - intros u Hu. by apply (i_visited _ _ _ _ _ _ _ Hi), HS0.
  - apply after_black.
  - intros x y Hx Hy. apply (i_reach _ _ _ _ _ _ _ Hi); auto.
  - intros y Hy. destruct (i_gray _ _ _ _ _ _ _ Hi y (HS0 y Hy)) as (x & Hx & Hle & Hyx).
    exists x. split_and!; [|done|done]. apply elem_of_cons in Hx as [->|?]; [|done].
    pose proof (lp_before _ _ _ _ _ _ _ _ _ _ Hl y Hy). lia.
  - intros x Hx. by apply (lp_gs _ _ _ _ _ _ _ _ _ _ Hl).
  - intros u. setoid_rewrite in_scc_snoc. setoid_rewrite in_new. split.
    + intros [Hu HuS]. destruct (decide (u ∈ c)) as [Huc|Huc]; [exists (length cs); by right|].
      destruct (proj1 (i_done _ _ _ _ _ _ _ Hi u)) as [i Hin]; [|by exists i; left].
      split; [done|]. by intros [?|?]%elem_of_app.
    + intros [i [Hin|[_ Huc]]].
      * apply Hold in Hin as HuS. destruct (proj2 (i_done _ _ _ _ _ _ _ Hi u)) as [Hu _]; [by exists i|]. auto.
      * destruct (after_comp u Huc) as (HuS & _). split; [by apply (i_visited _ _ _ _ _ _ _ Hi)|].
        intros Hu0. by apply (Hdj u Hu0).
  - intros i d. apply root_scc_ok.
  - intros w x i Hx. rewrite (Hm w x Hx) in_scc_snoc in_new.
    destruct (decide (w ∈ c)) as [Hw|Hw].
    + split; [intros [= <-]; by right|]. intros [Hin%Hold|[-> _]]; [|done].
      exfalso. apply Hin, elem_of_app. by right.
    + rewrite (i_map _ _ _ _ _ _ _ Hi w x i Hx). naive_solver.
Qed.
End root.

(** *** A node that stays on the stack *)

Section keep.
Context (Hkeep : L v ≠ I v).

Lemma keep_wit : ∃ y, y ∈ S0 ∧ I y = L v ∧ reach v y.
Proof using Hl Hkeep.
  destruct (lp_wit _ _ _ _ _ _ _ _ _ _ Hl) as (y & Hy & HyL & Hvy). exists y. split_and!; [|done|done].
  pose proof (lp_low _ _ _ _ _ _ _ _ _ _ Hl). destruct (after_split y Hy) as [[? _]|(_ & ? & _)]; [done|lia].
Qed.

Lemma keep_inv : inv gs I S k cs mp.
Proof using Hl Hkeep.
  pose proof (lp_inv _ _ _ _ _ _ _ _ _ _ Hl) as Hi. split; try (apply Hi; done).
  - apply after_black.
  - intros y Hy. destruct (i_gray _ _ _ _ _ _ _ Hi y Hy) as (x & Hx & Hle & Hyx).
    apply elem_of_cons in Hx as [->|?]; [|by exists x].
    destruct keep_wit as (z & Hz & HzL & Hvz).
    destruct (i_gray _ _ _ _ _ _ _ Hi z) as (x & Hx & Hle' & Hzx); [apply elem_of_app; by left|].
    pose proof (lp_low _ _ _ _ _ _ _ _ _ _ Hl).
    exists x. split_and!; [|lia|by etrans; [|etrans]]. apply elem_of_cons in Hx as [->|?]; [lia|done].
  - intros x Hx. apply elem_of_app. left. by apply (lp_gs _ _ _ _ _ _ _ _ _ _ Hl).
Qed.
End keep.
End after.

(** ** The whole call *)

(** The loop starts right after [enter]. *)
Lemma loop_start gs v I L S k cs mp : inv gs I S k cs mp → v < n → I v = usize_max →
  (∀ x, x ∈ gs → reach x v) → loop_inv gs v S [] (upd_nat I v k) (upd_nat L v k) [] (k + 1)%N cs mp.
Proof using HB.
  intros Hi Hv HI Hg. split; rewrite ?upd_nat_eq.
  - by apply enter_inv.
  - intros x Hx. split; [by apply Hg|by apply (i_gs _ _ _ _ _ _ _ Hi)].
  - intros y Hy. destruct (decide (y = v)) as [->|Hne].
    + by apply (i_visited _ _ _ _ _ _ _ Hi) in Hy.
    + rewrite upd_nat_ne //. by apply (i_lt _ _ _ _ _ _ _ Hi), (i_visited _ _ _ _ _ _ _ Hi).
  - by intros x ?%not_elem_of_nil.
  - done.
  - exists v. rewrite upd_nat_eq. split_and!; [apply v_on_stack|done|done].
  - by intros w ?%not_elem_of_nil.
  - by intros x y ?%not_elem_of_nil.
Qed.

(** What the loop after [enter] leaves of the state before [enter]. *)
Lemma grows_from_enter v I L S k I' L' X k' : I v = usize_max → k ≠ usize_max → v < n →
  grows [v] (upd_nat I v k) (upd_nat L v k) (S ++ [v]) (k + 1)%N I' L' (S ++ v :: X) k' →
  (∀ u, I u ≠ usize_max → I' u = I u ∧ L' u = L u) ∧ I' v = k
  ∧ Datatypes.S (length (unvisited I')) ≤ length (unvisited I).
Proof.
  intros HI Hk Hv [G1 G2 _ G4]. rewrite (unvisited_visit B I v k Hv HI Hk). split_and!; [| |lia].
  - intros u Hu. assert (Hne : u ≠ v) by by intros ->.
    specialize (G1 u). specialize (G2 u). rewrite !upd_nat_ne // in G1 G2. split; [auto|].
    apply G2; [done|]. by intros ->%list_elem_of_singleton.
  - specialize (G1 v). rewrite upd_nat_eq in G1. by apply G1.
Qed.

Lemma strongconnect_ok fuel : call_ok fuel (strongconnect fuel).
Proof using HB.
  induction fuel as [|fuel IH]; intros g v gs I L S k cs mp Hs Hi HI Hv Hg Hf;
    destruct (unvisited_bound B HB _ _ _ _ _ _ _ Hi Hv HI) as (Hk & Hkm & HvS & HlS).
  { pose proof (i_count _ _ _ _ _ _ _ Hi). lia. }
  destruct (enter_ok B h0 g I L S k cs mp v Hs Hv HlS) as (g1 & Hg1 & Hs1).
  pose proof (loop_start gs v I L S k cs mp Hi Hv HI Hg) as Hl1.
  pose proof (unvisited_visit B I v k Hv HI Hkm) as Hu1.
  destruct (sees_lookup B h0 _ _ _ _ _ _ _ v Hs1 Hv) as (nv & Hnv & _ & _ & _ & Hev & _).
  destruct (strong_edges_ok fuel _ gs v S IH Hv (edges_from B v) [] g1 _ _ [] _ _ _ eq_refl Hs1 Hl1)
    as (g2 & I2 & L2 & X & k2 & cs2 & mp2 & Hg2 & Hs2 & Hl2 & Hgr); [lia|].
  destruct (sees_lookup B h0 _ _ _ _ _ _ _ v Hs2 Hv) as (nv2 & Hnv2 & HI2 & HL2 & _).
  destruct (grows_from_enter v I L S k I2 L2 X k2 HI Hkm Hv Hgr) as (Hold & HIv & Hun).
  cbn [strongconnect]. rewrite Hg1. cbn [rbind]. rewrite Hnv. cbn [expect rbind]. rewrite Hev Hg2. cbn [rbind].
  rewrite Hnv2. cbn [expect rbind]. rewrite HI2 HL2.
  assert (Hvis : I2 v ≠ usize_max) by by rewrite HIv.
  destruct (decide (L2 v = I2 v)) as [Hroot|Hkeep].
  - pose proof (i_nodup _ _ _ _ _ _ _ (lp_inv _ _ _ _ _ _ _ _ _ _ Hl2)) as Hnd.
    destruct (pop_component_ok B h0 HB v (length cs2) S X g2 I2 L2 k2 cs2 mp2 [] Hs2 Hnd)
      as (g3 & mp3 & Hg3 & Hs3 & Hm).
    { apply Forall_forall. intros w Hw. pose proof (lp_inv _ _ _ _ _ _ _ _ _ _ Hl2) as Hi2.
      apply (i_range _ _ _ _ _ _ _ Hi2), (i_visited _ _ _ _ _ _ _ Hi2), elem_of_app. by right. }
    rewrite (se_sccs _ _ _ _ _ _ _ _ _ Hs2) Hg3. cbn [rbind].
    pose proof (root_inv gs v S I2 L2 X k2 cs2 mp2 Hl2 Hroot mp3 Hm) as Hi3.
    eexists _, I2, L2, S, k2, _, mp3. split; [reflexivity|]. rewrite app_nil_l. split; try done.
    + destruct Hs3 as [? ? ? ? ? ? ? ? Hcs ?]. split; try done. cbn [sccs]. by rewrite Hcs.
    + split; [by intros u [? ?]%Hold|by intros u [? ?]%Hold| |lia]. exists [].
      split; [by rewrite app_nil_r|by intros x ?%not_elem_of_nil].
    + by rewrite Hroot.
    + left. split_and!; [done|done|]. by rewrite Hroot HIv.
  - exists g2, I2, L2, (S ++ v :: X), k2, cs2, mp2. split; [done|].
    assert (Hlow : ∀ x, x ∈ v :: X → (k ≤ I2 x)%N).
    { intros x [->|Hx]%elem_of_cons; [by rewrite HIv|].
      pose proof (lp_after _ _ _ _ _ _ _ _ _ _ Hl2 x Hx). lia. }
    split; try done.
    + by apply (keep_inv gs v S I2 L2 X k2 cs2 mp2 Hl2 Hkeep).
    + split; [by intros u [? ?]%Hold|by intros u [? ?]%Hold| |lia]. by exists (v :: X).
    + apply (lp_low _ _ _ _ _ _ _ _ _ _ Hl2).
    + right. split; [apply (keep_wit gs v S I2 L2 X k2 cs2 mp2 Hl2 Hkeep)|].
      intros x y Hx HxS Hy Hxy. apply (after_edge gs v S I2 L2 X k2 cs2 mp2 Hl2 x y); try done.
      by apply elem_of_app in Hx as [?|?].
Qed.
End tarjan.

(** ** From a built graph to its components

    [graph_ok] is the invariant of the construction, [analysed] what
    [compute_sccs] leaves; edges and paths between values of type [T]. *)

Local Open Scope res_scope.

Lemma rfold_app {E A B} (f : A → B → res E B) l1 l2 s :
  rfold f (l1 ++ l2) s = rbind (rfold f l1 s) (rfold f l2).
Proof.
  revert s. induction l1 as [|a l1 IH]; intros s; simpl; [done|].
  destruct (f a s); simpl; [apply IH|done|done].
Qed.

Lemma rfold_same {E A B} (f : A → B → res E B) l s :
  (∀ a, a ∈ l → f a s = Ok s) → rfold f l s = Ok s.
Proof.
  induction l as [|a l IH]; simpl; intros Hf; [done|]. rewrite Hf; [apply list_elem_of_here|].
  simpl. apply IH. intros b Hb. apply Hf, elem_of_cons. by right.
Qed.

Section graph.
Context {T : Type} `{Countable T}.
Implicit Types (g : Graph T) (x y : T) (v w : nat).

(** ** Construction *)

Record graph_ok g : Prop := {
  go_h : ∀ x v, h g !! x = Some v ↔ name_of (base g) v = Some x;
  go_range : ∀ v w, succ (base g) v w → w < length (base g);
  go_fresh : ∀ v nd, nodes g !! v = Some nd →
    n_index nd = usize_max ∧ n_lowlink nd = usize_max ∧ n_on_stack nd = false;
  go_state : has_run g = false ∧ stack g = [] ∧ stack_len g = 0 ∧ next_index g = 0%N
    ∧ sccs g = [] ∧ mapping g = ∅
}.

(** The edges between the values, and whether a value has a node. *)
Definition edge g x y : Prop :=
  ∃ v w, name_of (base g) v = Some x ∧ succ (base g) v w ∧ name_of (base g) w = Some y.
Definition has_node g x : Prop := is_Some (h g !! x).

Lemma name_lookup g v x : name_of (base g) v = Some x ↔ ∃ nd, nodes g !! v = Some nd ∧ n_t nd = x.
Proof.
  unfold name_of, base. change (List.map ?f ?l) with (f <$> l). rewrite list_lookup_fmap.
  destruct (nodes g !! v) as [nd|]; simpl; naive_solver.
Qed.

Lemma new_graph_ok : graph_ok new_graph.
Proof.
  split; [| |done|done].
  - intros x v. by rewrite lookup_empty.
  - intros v w Hw. by apply not_elem_of_nil in Hw.
Qed.

Lemma name_of_app (B : list (T * list nat)) b v : name_of (B ++ [b]) v = if decide (v = length B) then Some b.1 else name_of B v.
Proof.
  unfold name_of. destruct (decide (v = length B)) as [->|Hne].
  - by rewrite lookup_app_r // Nat.sub_diag.
  - destruct (decide (v < length B)); [by rewrite lookup_app_l|].
    rewrite !(proj2 (lookup_ge_None _ _)) // ?length_app /=; lia.
Qed.

Lemma edges_from_app (B : list (T * list nat)) b v :
  edges_from (B ++ [b]) v = if decide (v = length B) then b.2 else edges_from B v.
Proof.
  unfold edges_from. destruct (decide (v = length B)) as [->|Hne].
  - by rewrite lookup_app_r // Nat.sub_diag.
  - destruct (decide (v < length B)); [by rewrite lookup_app_l|].
    rewrite !(proj2 (lookup_ge_None _ _)) // ?length_app /=; lia.
Qed.

Lemma name_of_lt (B : list (T * list nat)) v x : name_of B v = Some x → v < length B.
Proof. unfold name_of. destruct (B !! v) eqn:Hv; [|done]. intros _. by eapply lookup_lt_Some. Qed.

Lemma base_add_node g x : h g !! x = None → base (add_node g x) = base g ++ [(x, [])].
Proof. unfold add_node, base. intros ->. cbn [nodes]. by rewrite map_app. Qed.

Lemma add_node_ok g x : graph_ok g →
  graph_ok (add_node g x) ∧ (∀ y, has_node (add_node g x) y ↔ has_node g y ∨ y = x)
  ∧ (∀ a b, edge (add_node g x) a b ↔ edge g a b).
Proof.
  intros Hg. destruct (h g !! x) as [v|] eqn:Hx.
  { unfold add_node. rewrite Hx. split; [done|]. split; [|done]. intros y. split; [auto|].
    intros [?| ->]; [done|]. by exists v. }
  pose proof (base_add_node g x Hx) as Hb. destruct Hg as [Hh Hr Hf Hs].
  assert (Hnone : ∀ w, name_of (base g) w ≠ Some x) by (intros w Hw; apply Hh in Hw; by rewrite Hx in Hw).
  split; [|split].
  - split.
    + intros y v. rewrite Hb name_of_app. unfold add_node. rewrite Hx. cbn [h fst].
      assert (Hlen : length (nodes g) = length (base g)) by (unfold base; by rewrite length_map).
      rewrite Hlen. destruct (decide (y = x)) as [->|Hne].
      * rewrite lookup_insert_eq. destruct (decide (v = length (base g))) as [->|Hv]; [naive_solver|].
        split; [intros [= ?]; congruence|by intros ?%Hnone].
      * rewrite lookup_insert_ne // Hh. destruct (decide (v = length (base g))) as [->|Hv]; [|done].
        split; [intros ?%name_of_lt; lia|intros [= ?]; congruence].
    + intros v w. unfold succ. rewrite Hb edges_from_app length_app /=.
      destruct (decide (v = length (base g))); [by intros ?%not_elem_of_nil|].
      intros Hw%Hr. lia.
    + intros v nd. unfold add_node. rewrite Hx. cbn [nodes].
      intros [Hv|[_ [_ <-]%list_lookup_singleton_Some]]%lookup_app_Some; [by apply Hf in Hv|done].
    + unfold add_node. by rewrite Hx.
  - intros y. unfold has_node, add_node. rewrite Hx. cbn [h]. rewrite lookup_insert_is_Some.
    destruct (decide (x = y)); naive_solver.
  - intros a b. unfold edge. rewrite Hb. setoid_rewrite name_of_app. unfold succ.
    setoid_rewrite edges_from_app. cbn [fst snd]. split.
    + intros (v & w & Hv & Hvw & Hw). exists v, w.
      destruct (decide (v = length (base g))); [by apply not_elem_of_nil in Hvw|].
      pose proof (Hr v w Hvw). rewrite decide_False // in Hw. lia.
    + intros (v & w & Hv & Hvw & Hw). exists v, w.
      pose proof (name_of_lt _ _ _ Hv). pose proof (name_of_lt _ _ _ Hw).
      rewrite !decide_False //; lia.
Qed.

Lemma get_or_add_ok g x : graph_ok g → ∃ v, get_or_add g x = Ok (v, add_node g x)
  ∧ name_of (base (add_node g x)) v = Some x.
Proof.
  intros Hg. destruct (add_node_ok g x Hg) as (Hok & Hn & _).
  destruct (proj2 (Hn x) (or_intror eq_refl)) as [v Hv]. exists v.
  split; [|by apply (go_h _ Hok)]. unfold get_or_add. destruct (h g !! x) as [u|] eqn:Hx.
  - assert (Hsame : add_node g x = g) by (unfold add_node; by rewrite Hx). rewrite Hsame.
    rewrite Hsame Hx in Hv. by injection Hv as ->.
  - by rewrite Hv.
Qed.

Lemma push_edge_ok g v w x y : graph_ok g → name_of (base g) v = Some x → name_of (base g) w = Some y →
  ∃ g', update_node g v (push_edge w) = Ok g' ∧ graph_ok g' ∧ (∀ z, has_node g' z ↔ has_node g z)
    ∧ ∀ a b, edge g' a b ↔ edge g a b ∨ (a = x ∧ b = y).
Proof.
  intros Hg Hv Hw. pose proof (proj1 (name_lookup g v x) Hv) as (nd & Hnd & Hx).
  unfold update_node. rewrite Hnd. cbn [expect rbind]. eexists. split; [done|].
  set (g' := mkGraph _ _ _ _ _ _ _ _).
  destruct Hg as [Hh Hr Hf Hs].
  assert (Hb : base g' = <[v := (x, n_edges nd ++ [w])]> (base g)).
  { unfold g', base. cbn [nodes]. change (List.map ?f ?l) with (f <$> l). rewrite list_fmap_insert /=.
    by rewrite Hx. }
  assert (HBv : base g !! v = Some (x, n_edges nd)).
  { unfold base. change (List.map ?f ?l) with (f <$> l). by rewrite list_lookup_fmap Hnd /= Hx. }
  assert (Hname : ∀ u, name_of (base g') u = name_of (base g) u).
  { intros u. rewrite Hb /name_of. destruct (decide (u = v)) as [->|Hne].
    - rewrite list_lookup_insert_eq; [by eapply lookup_lt_Some|]. by rewrite HBv.
    - by rewrite list_lookup_insert_ne. }
  assert (Hsucc : ∀ u z, succ (base g') u z ↔ succ (base g) u z ∨ (u = v ∧ z = w)).
  { intros u z. unfold succ, edges_from. rewrite Hb. destruct (decide (u = v)) as [->|Hne].
    - rewrite list_lookup_insert_eq; [by eapply lookup_lt_Some|]. rewrite HBv /=.
      rewrite elem_of_app list_elem_of_singleton. naive_solver.
    - rewrite list_lookup_insert_ne //. naive_solver. }
  split; [|split; [done|]].
  - split; [| | |done].
    + intros z u. by rewrite Hname.
    + intros u z. rewrite Hsucc Hb length_insert. intros [?%Hr|[_ ->]]; [done|]. by eapply name_of_lt.
    + intros u nu. unfold g'. cbn [nodes]. destruct (decide (u = v)) as [->|Hne].
      * rewrite list_lookup_insert_eq; [by eapply lookup_lt_Some|]. intros [= <-]. by apply (Hf v nd).
      * rewrite list_lookup_insert_ne //. apply Hf.
  - intros a b. unfold edge. setoid_rewrite Hname. setoid_rewrite Hsucc. split.
    + intros (u & z & Hu & [Huz|[-> ->]] & Hz); [left; by exists u, z|right]. split; congruence.
    + intros [(u & z & Hu & Huz & Hz)|[-> ->]]; [exists u, z; by split_and!; [|left|]|].
      exists v, w. by split_and!; [|right|].
Qed.

Lemma add_edge_ok g x y : graph_ok g → ∃ g', add_edge g x y = Ok g' ∧ graph_ok g'
  ∧ (∀ z, has_node g' z ↔ has_node g z ∨ z = x ∨ z = y)
  ∧ ∀ a b, edge g' a b ↔ edge g a b ∨ (a = x ∧ b = y).
Proof.
  intros Hg. destruct (add_node_ok g x Hg) as (H1 & N1 & E1).
  destruct (get_or_add_ok g x Hg) as (v & Hv & Hvx).
  destruct (add_node_ok (add_node g x) y H1) as (H2 & N2 & E2).
  destruct (get_or_add_ok (add_node g x) y H1) as (w & Hw & Hwy).
  assert (Hvx2 : name_of (base (add_node (add_node g x) y)) v = Some x).
  { apply (go_h _ H2). apply (go_h _ H1) in Hvx. unfold add_node at 1.
    destruct (h (add_node g x) !! y) eqn:Hy; [done|]. cbn [h]. rewrite lookup_insert_ne //.
    intros ->. by rewrite Hvx in Hy. }
  destruct (push_edge_ok _ v w x y H2 Hvx2 Hwy) as (g' & Hg' & H3 & N3 & E3).
  exists g'. unfold add_edge. rewrite Hv. cbn [rbind]. rewrite Hw. cbn [rbind]. split_and!; [done|done| |].
  - intros z. rewrite N3 N2 N1. tauto.
  - intros a b. by rewrite E3 E2 E1.
Qed.

Lemma graph_ok_base g : graph_ok g → (N.of_nat (length (nodes g)) < usize_max)%N → base_ok (base g).
Proof.
  intros [Hh Hr _ _] Hs. split; [|done|by rewrite /base length_map].
  apply NoDup_alt. intros i j x Hi Hj.
  assert (Hname : ∀ k, List.map fst (base g) !! k = name_of (base g) k).
  { intros k. apply (list_lookup_fmap fst). }
  rewrite Hname in Hi. rewrite Hname in Hj. apply Hh in Hi, Hj. rewrite Hi in Hj. by injection Hj as ->.
Qed.
End graph.
