(* ===== verification/SccReach.v ===== *)
(** * What [compute_sccs] leaves

    The run visits every node, so that every node is in a component; the
    queries on components read it off, the topological order and reachability
    among them. *)

From S2P Require Import Prelude Scc SccFacts SccGraph.
Set Warnings "-rewrite-rw,-register-all,-clear-no-such-hyp".
Local Open Scope res_scope.

Section run.
Context {T : Type} `{Countable T}.
Implicit Types (g : Graph T) (x y : T) (v w : nat).

(** [g'] is [g] with its components. *)
Record analysed g g' : Prop := {
  an_base : base g' = base g;
  an_h : h g' = h g;
  an_run : has_run g' = true;
  an_range : ∀ i v, in_scc (sccs g') i v → v < length (base g);
  an_all : ∀ v, v < length (base g) → ∃ i, in_scc (sccs g') i v;
  an_scc : ∀ i c, sccs g' !! i = Some c → scc_ok (base g) (sccs g') i c;
  an_map : ∀ v x i, name_of (base g) v = Some x → mapping g' !! x = Some i ↔ in_scc (sccs g') i v
}.

(** ** Running *)

Section compute.
Context (g : Graph T) (Hg : graph_ok g) (Hsize : (N.of_nat (length (nodes g)) < usize_max)%N).
#[local] Abbreviation B := (base g).
#[local] Abbreviation n := (length (base g)).

Lemma start_sees : sees B (h g) (start_run g) (λ _, usize_max) (λ _, usize_max) [] 0 [] ∅.
Proof using Hg.
  destruct Hg as [_ _ Hf (_ & Hst & Hsl & Hk & Hc & Hm)]. split; try done; cbn.
  - by rewrite length_resize /base length_map.
  - by rewrite Hsl.
Qed.

Lemma start_inv : inv B [] (λ _, usize_max) [] 0 [] ∅.
Proof using.
  assert (Hn : ∀ i v, ¬ in_scc [] i v) by (intros i v (c & Hc & _); by rewrite lookup_nil in Hc).
  split; try done.
  - assert (Hall : ∀ l : list nat, filter (λ _, usize_max = usize_max) l = l).
    { induction l as [|a l IH]; [done|]. by rewrite filter_cons_True // IH. }
    unfold unvisited. by rewrite Hall length_seq.
  - constructor.
  - by intros v ?%not_elem_of_nil.
  - by intros x y ?%not_elem_of_nil.
  - by intros y ?%not_elem_of_nil.
  - split; [by intros [? _]|]. by intros [i ?%Hn].
  - intros w x i _. rewrite lookup_empty. split; [done|by intros ?%Hn].
Qed.

Lemma inv_top_stack I S k cs mp : inv B [] I S k cs mp → S = [].
Proof.
  intros Hi. destruct S as [|y S]; [done|]. destruct (i_gray _ _ _ _ _ _ _ Hi y) as (x & Hx & _).
  - apply list_elem_of_here.
  - by apply not_elem_of_nil in Hx.
Qed.

(** The loop over all nodes, from [d] on. *)
Lemma compute_loop fuel : n ≤ fuel → ∀ m d g1 I L k cs mp, d + m = n →
  sees B (h g) g1 I L [] k cs mp → inv B [] I [] k cs mp → (∀ v, v < d → I v ≠ usize_max) →
  ∃ g2 I2 L2 k2 cs2 mp2,
    rfold (λ i self, let? nd := expect (nodes self !! i) in
             if decide (n_index nd = usize_max) then strongconnect fuel self i else Ok self)
      (seq d m) g1 = Ok g2
    ∧ sees B (h g) g2 I2 L2 [] k2 cs2 mp2 ∧ inv B [] I2 [] k2 cs2 mp2
    ∧ ∀ v, v < n → I2 v ≠ usize_max.
Proof using Hg Hsize.
  intros Hf. induction m as [|m IH]; intros d g1 I L k cs mp Hd Hs Hi Hv.
  { exists g1, I, L, k, cs, mp. split_and!; try done. intros v Hvn. apply Hv. lia. }
  assert (Hdn : d < n) by lia.
  destruct (sees_lookup _ _ _ _ _ _ _ _ _ d Hs Hdn) as (nd & Hnd & HI & _).
  cbn [seq rfold]. rewrite Hnd. cbn [expect rbind]. rewrite HI.
  destruct (decide (I d = usize_max)) as [Hun|Hvis].
  - destruct (strongconnect_ok B (h g) (graph_ok_base g Hg Hsize) fuel g1 d [] I L [] k cs mp Hs Hi Hun Hdn)
      as (g2 & I2 & L2 & S2 & k2 & cs2 & mp2 & Hg2 & [Hs2 Hi2 [G1 _ _ _] Hd2 _ _]).
    { by intros x ?%not_elem_of_nil. }
    { unfold unvisited. etrans; [apply length_filter|]. by rewrite length_seq. }
    pose proof (inv_top_stack _ _ _ _ _ Hi2) as ->. rewrite Hg2. cbn [rbind].
    apply (IH (Datatypes.S d) g2 I2 L2 k2 cs2 mp2); [lia|done|done|].
    intros v Hlt. destruct (decide (v = d)) as [->|]; [done|].
    assert (I v ≠ usize_max) by (apply Hv; lia). by rewrite G1.
  - cbn [rbind]. apply (IH (Datatypes.S d) g1 I L k cs mp); [lia|done|done|].
    intros v Hlt. destruct (decide (v = d)) as [->|]; [done|]. apply Hv. lia.
Qed.

Lemma compute_analysed fuel : n ≤ fuel → ∃ g', compute_sccs fuel g = Ok g' ∧ analysed g g'.
Proof using Hg Hsize.
  intros Hf. destruct (compute_loop fuel Hf n 0 (start_run g) _ _ _ _ _ (Nat.add_0_l _) start_sees start_inv)
    as (g' & I & L & k & cs & mp & Hg' & Hs & Hi & Hall); [intros v Hv; lia|].
  exists g'. split.
  - unfold compute_sccs. destruct Hg as [_ _ _ [-> _]]. rewrite -(length_map (λ nd, (n_t nd, n_edges nd)) (nodes g)).
    exact Hg'.
  - destruct Hs as [Hb Hh Hr _ _ _ _ _ Hc Hm]. subst cs mp. split; try done.
    + intros i v Hv. apply (i_range _ _ _ _ _ _ _ Hi), (i_done _ _ _ _ _ _ _ Hi). by exists i.
    + intros v Hv. apply (i_done _ _ _ _ _ _ _ Hi). split; [by apply Hall|apply not_elem_of_nil].
    + apply Hi.
    + apply Hi.
Qed.
End compute.

(** ** Names and paths *)

Section names.
Context (g : Graph T) (HB : base_ok (base g)).
#[local] Abbreviation B := (base g).
#[local] Abbreviation name := (name_of (base g)).

Lemma name_total v : v < length B → ∃ x, name v = Some x.
Proof using. unfold name_of. intros Hv. apply lookup_lt_is_Some in Hv as [b Hb]. rewrite Hb /=. eauto. Qed.

Lemma edge_succ v x y : name v = Some x → edge g x y ↔ ∃ w, succ B v w ∧ name w = Some y.
Proof using HB.
  intros Hv. split.
  - intros (v' & w & Hv' & Hvw & Hw). rewrite (name_of_inj B HB v v' x Hv Hv'). eauto.
  - intros (w & Hvw & Hw). by exists v, w.
Qed.

Lemma edges_reach v w x y : name v = Some x → name w = Some y →
  rtc (edge g) x y ↔ rtc (succ B) v w.
Proof using HB.
  intros Hv Hw. split.
  - intros Hr. revert v Hv. induction Hr as [x|x z y Hxz _ IH]; intros v Hv.
    + by rewrite (name_of_inj B HB v w x Hv Hw).
    + apply (edge_succ v x z Hv) in Hxz as (u & Hvu & Hu). eapply rtc_l; [exact Hvu|auto].
  - intros Hr. revert x Hv. induction Hr as [v|v u w Hvu _ IH]; intros x Hv.
    + rewrite Hv in Hw. by injection Hw as ->.
    + destruct (name_total u (bo_range B HB v u Hvu)) as [z Hz].
      eapply rtc_l; [|by apply (IH Hw z)]. apply (edge_succ v x z Hv). eauto.
Qed.
End names.

(** ** Components of nodes *)

Section queries.
Context (g g' : Graph T) (HB : base_ok (base g)) (Ha : analysed g g').
#[local] Abbreviation B := (base g).
#[local] Abbreviation name := (name_of (base g)).
#[local] Abbreviation scc_of := (in_scc (sccs g')).

Lemma node_at v : v < length B → ∃ nd x, nodes g' !! v = Some nd ∧ n_t nd = x ∧ name v = Some x
  ∧ n_edges nd = edges_from B v.
Proof using Ha.
  intros Hv. destruct (base_lookup B g' v (an_base _ _ Ha) Hv) as [nd Hnd].
  destruct (base_node B g' v nd (an_base _ _ Ha) Hnd) as (Hb & He & _).
  exists nd, (n_t nd). split_and!; try done. by rewrite /name_of Hb.
Qed.

Lemma node_t_ok v x : name v = Some x → node_t g' v = Ok x.
Proof using Ha.
  intros Hx. destruct (node_at v (name_of_lt _ _ _ Hx)) as (nd & y & Hnd & Hy & Hn & _).
  rewrite Hx in Hn. injection Hn as <-. unfold node_t. rewrite Hnd /=. by rewrite Hy.
Qed.

Lemma in_scc_unique i j v : scc_of i v → scc_of j v → i = j.
Proof using Ha.
  intros Hi Hj. destruct (name_total g v (an_range _ _ Ha i v Hi)) as [x Hx].
  apply (an_map _ _ Ha v x i Hx) in Hi. apply (an_map _ _ Ha v x j Hx) in Hj. congruence.
Qed.

Lemma node_scc_ok i v : scc_of i v → node_scc g' v = Ok i.
Proof using Ha.
  intros Hi. destruct (name_total g v (an_range _ _ Ha i v Hi)) as [x Hx].
  unfold node_scc. rewrite (node_t_ok v x Hx). cbn [rbind].
  by rewrite (proj2 (an_map _ _ Ha v x i Hx) Hi).
Qed.

Lemma scc_mutual i v w : scc_of i v → scc_of i w ↔ rtc (succ B) v w ∧ rtc (succ B) w v.
Proof using Ha.
  intros (c & Hc & Hv). rewrite -(so_class _ _ _ _ (an_scc _ _ Ha i c Hc) v w Hv). split.
  - intros (d & Hd & Hw). rewrite Hc in Hd. by injection Hd as ->.
  - intros Hw. by exists c.
Qed.

(** An edge leads to the same component or to an earlier one. *)
Lemma scc_edge_down i j v w : scc_of i v → scc_of j w → succ B v w → j ≤ i.
Proof using Ha.
  intros (c & Hc & Hv) Hw Hvw.
  destruct (so_down _ _ _ _ (an_scc _ _ Ha i c Hc) v w Hv Hvw) as (k & Hk & Hin).
  by rewrite (in_scc_unique j k w Hw Hin).
Qed.

Lemma scc_rep i c : sccs g' !! i = Some c → ∃ r x, rep c = Ok r ∧ r ∈ scc_nodes c ∧ name r = Some x.
Proof using Ha.
  intros Hc. pose proof (so_nonempty _ _ _ _ (an_scc _ _ Ha i c Hc)) as Hne. unfold rep.
  destruct (scc_nodes c) as [|r l] eqn:Hl; [done|].
  destruct (name_total g r) as [x Hx].
  { apply (an_range _ _ Ha i). exists c. rewrite Hl. split; [done|apply list_elem_of_here]. }
  exists r, x. split_and!; [done|apply list_elem_of_here|done].
Qed.

Lemma has_node_name x : has_node g x → graph_ok g → ∃ v, name v = Some x ∧ h g' !! x = Some v.
Proof using Ha.
  intros [v Hv] Hg. exists v. rewrite (an_h _ _ Ha). split; [|done]. by apply (go_h _ Hg).
Qed.

Lemma get_scc_rep_ok i v x : scc_of i v → name v = Some x →
  ∃ c r y, sccs g' !! i = Some c ∧ rep c = Ok r ∧ r ∈ scc_nodes c ∧ name r = Some y ∧ get_scc_rep g' x = Ok y.
Proof using Ha.
  intros Hi Hx. pose proof Hi as (c & Hc & Hv). destruct (scc_rep i c Hc) as (r & y & Hr & Hrc & Hy).
  exists c, r, y. split_and!; try done. unfold get_scc_rep. rewrite (an_run _ _ Ha). cbn [assert rbind].
  rewrite (proj2 (an_map _ _ Ha v x i Hx) Hi). cbn [expect rbind]. rewrite Hc. cbn [expect rbind].
  rewrite Hr. cbn [rbind]. by apply node_t_ok.
Qed.

Lemma in_same_scc_ok v w x y : name v = Some x → name w = Some y →
  ∃ b, in_same_scc g' x y = Ok b ∧ (b = true ↔ rtc (edge g) x y ∧ rtc (edge g) y x).
Proof using Ha HB.
  intros Hv Hw. setoid_rewrite (edges_reach g HB v w x y Hv Hw). setoid_rewrite (edges_reach g HB w v y x Hw Hv).
  unfold in_same_scc. destruct (decide (x = y)) as [->|Hne].
  { rewrite (name_of_inj B HB v w y Hv Hw). by exists true. }
  destruct (an_all _ _ Ha v (name_of_lt _ _ _ Hv)) as [i Hi].
  destruct (an_all _ _ Ha w (name_of_lt _ _ _ Hw)) as [j Hj].
  destruct (get_scc_rep_ok i v x Hi Hv) as (c & r & z & Hc & Hrep & Hrc & Hr & ->).
  destruct (get_scc_rep_ok j w y Hj Hw) as (d & q & u & Hd & Hqep & Hqd & Hq & ->).
  cbn [rbind]. eexists. split; [done|]. rewrite bool_decide_eq_true -(scc_mutual i v w Hi). split.
  - intros <-. rewrite (name_of_inj B HB r q z Hr Hq) in Hrc.
    rewrite (in_scc_unique i j q); [by exists c|by exists d|done].
  - intros Hin. pose proof (in_scc_unique i j w Hin Hj) as ->.
    rewrite Hc in Hd. injection Hd as <-. rewrite Hrep in Hqep. injection Hqep as <-.
    rewrite Hr in Hq. by injection Hq.
Qed.
End queries.
End run.

(** ** Components in topological order, and reachability

    The components are numbered so that an edge leads to the same or to an
    earlier one; [sort_sccs] lists them in that order and [can_reach] searches
    them. *)

Definition edge_count {T} `{Countable T} (g : Graph T) : nat :=
  sum_list_with (λ nd, length (n_edges nd)) (nodes g).

Lemma rfold_map {E A B C} (f : A → B → res E B) (k : C → A) (l : list C) s :
  rfold (λ c, f (k c)) l s = rfold f (map k l) s.
Proof. revert s. induction l as [|c l IH]; intros s; simpl; [done|]. by destruct (f (k c) s) => /=. Qed.

Lemma rfold_ext {E A B} (f1 f2 : A → B → res E B) l s :
  (∀ a s, a ∈ l → f1 a s = f2 a s) → rfold f1 l s = rfold f2 l s.
Proof.
  revert s. induction l as [|a l IH]; simpl; intros s Hf; [done|].
  rewrite Hf; [apply list_elem_of_here|]. destruct (f2 a s); simpl; [|done..].
  apply IH. intros b t Hb. apply Hf, elem_of_cons. by right.
Qed.

Lemma rfold_concat {E A B C} (f : A → B → res E B) (k : C → list A) (l : list C) s :
  rfold (λ c, rfold f (k c)) l s = rfold f (flat_map k l) s.
Proof.
  revert s. induction l as [|c l IH]; intros s; simpl; [done|]. rewrite rfold_app.
  by destruct (rfold f (k c) s) => /=.
Qed.

Lemma rfold_push {E A} (l s : list A) : rfold (E := E) (λ a s, Ok (a :: s)) l s = Ok (rev l ++ s).
Proof. revert s. induction l as [|a l IH]; intros s; simpl; [done|]. by rewrite IH -app_assoc. Qed.

Section order.
Context {T : Type} `{Countable T}.
Context (g g' : Graph T) (HB : base_ok (base g)) (Ha : analysed g g').
#[local] Abbreviation B := (base g).
#[local] Abbreviation name := (name_of (base g)).
#[local] Abbreviation scc_of := (in_scc (sccs g')).

(** ** The graph of the components *)

Definition id_of (w : nat) : nat := default 0 (x ← name w; mapping g' !! x).
Definition targets (c : SCC) : list nat := flat_map (λ v, map id_of (edges_from B v)) (scc_nodes c).
Definition scc_edge (i j : nat) : Prop := ∃ c, sccs g' !! i = Some c ∧ j ∈ targets c.

Lemma id_of_ok i w : scc_of i w → id_of w = i.
Proof using Ha.
  intros Hi. destruct (name_total g w (an_range _ _ Ha i w Hi)) as [x Hx].
  unfold id_of. rewrite Hx /=. by rewrite (proj2 (an_map _ _ Ha w x i Hx) Hi).
Qed.

Lemma scc_of_id w : w < length B → scc_of (id_of w) w.
Proof using Ha. intros Hw. destruct (an_all _ _ Ha w Hw) as [i Hi]. by rewrite (id_of_ok i w Hi). Qed.

Lemma node_scc_id w : w < length B → node_scc g' w = Ok (id_of w).
Proof using Ha. intros Hw. by apply (node_scc_ok g), scc_of_id. Qed.

Lemma for_scc_edges_ok {A} (f : nat → A → res fuel_error A) i c s : sccs g' !! i = Some c →
  for_scc_edges g' c f s = rfold f (targets c) s.
Proof using HB Ha.
  intros Hc. unfold for_scc_edges, targets. rewrite -rfold_concat. apply rfold_ext.
  intros v t Hv. assert (Hvn : v < length B) by (apply (an_range _ _ Ha i); by exists c).
  destruct (node_at g g' Ha v Hvn) as (nd & x & Hnd & _ & _ & He).
  rewrite Hnd. cbn [expect rbind]. rewrite He -rfold_map. apply rfold_ext. intros w u Hw.
  by rewrite (node_scc_id w (bo_range B HB v w Hw)).
Qed.

Lemma scc_edge_ok i j : scc_edge i j ↔ ∃ v w, scc_of i v ∧ scc_of j w ∧ succ B v w.
Proof using HB Ha.
  unfold scc_edge, targets. split.
  - intros (c & Hc & Hj). apply list_elem_of_In, in_flat_map in Hj as (v & Hv & Hj).
    apply in_map_iff in Hj as (w & <- & Hw). apply list_elem_of_In in Hv, Hw.
    exists v, w. split_and!; [by exists c|by apply scc_of_id, (bo_range B HB v)|done].
  - intros (v & w & (c & Hc & Hv) & Hj & Hw). exists c. split; [done|].
    apply list_elem_of_In, in_flat_map. exists v. split; [by apply list_elem_of_In|].
    apply in_map_iff. exists w. split; [by apply id_of_ok|by apply list_elem_of_In].
Qed.

Lemma scc_edge_le i j : scc_edge i j → j ≤ i.
Proof using HB Ha. intros (v & w & Hv & Hw & Hvw)%scc_edge_ok. by apply (scc_edge_down g g' Ha i j v w). Qed.

Lemma scc_edges_le i j : rtc scc_edge i j → j ≤ i.
Proof using HB Ha. induction 1 as [i|i k j Hik _ IH]; [done|]. apply scc_edge_le in Hik. lia. Qed.

Lemma scc_edges_ok i j v w : scc_of i v → scc_of j w → rtc scc_edge i j ↔ rtc (succ B) v w.
Proof using HB Ha.
  intros Hi Hj. split.
  - intros Hr. revert v Hi. induction Hr as [i|i k j Hik _ IH]; intros v Hi.
    + by apply (scc_mutual g g' Ha i v w Hi).
    + apply scc_edge_ok in Hik as (v' & u & Hv' & Hu & Hvu).
      etrans; [by apply (scc_mutual g g' Ha i v v' Hi)|]. eapply rtc_l; [exact Hvu|]. by apply IH.
  - intros Hr. revert i Hi. induction Hr as [v|v u w Hvu _ IH]; intros i Hi.
    + by rewrite (in_scc_unique g g' Ha i j v Hi Hj).
    + pose proof (scc_of_id u (bo_range B HB v u Hvu)) as Hu. eapply rtc_l; [|by apply IH].
      apply scc_edge_ok. by exists v, u.
Qed.

(** ** Sorting *)

Definition rep_name (c : SCC) : option T := r ← scc_nodes c !! 0; name r.

Lemma rep_name_ok i c : sccs g' !! i = Some c → ∃ r x, rep c = Ok r ∧ node_t g' r = Ok x
  ∧ rep_name c = Some x ∧ scc_of i r ∧ name r = Some x.
Proof using Ha.
  intros Hc. destruct (scc_rep g g' Ha i c Hc) as (r & x & Hr & Hrc & Hx). exists r, x.
  split_and!; [done|by apply (node_t_ok g)| |by exists c|done].
  unfold rep in Hr. unfold rep_name. destruct (scc_nodes c !! 0); [|done]. by injection Hr as ->.
Qed.

Definition seen_below (s : nat) : list bool := map (λ i, i <? s)%nat (seq 0 (length (sccs g'))).

Lemma seen_below_lookup s i : i < length (sccs g') → seen_below s !! i = Some (i <? s)%nat.
Proof using.
  intros Hi. unfold seen_below. change (map ?f ?l) with (f <$> l).
  by rewrite list_lookup_fmap lookup_seq_lt.
Qed.

Lemma seen_below_insert s : s < length (sccs g') → <[s := true]> (seen_below s) = seen_below (S s).
Proof using.
  intros Hs. apply list_eq. intros i.
  assert (Hlen : ∀ k, length (seen_below k) = length (sccs g')).
  { intros k. unfold seen_below. by rewrite length_map length_seq. }
  destruct (decide (i < length (sccs g'))) as [Hi|Hi].
  - rewrite seen_below_lookup //. destruct (decide (i = s)) as [->|Hne].
    + rewrite list_lookup_insert_eq ?Hlen //. f_equal. symmetry. apply Nat.ltb_lt. lia.
    + rewrite list_lookup_insert_ne // seen_below_lookup //. f_equal.
      apply Bool.eq_iff_eq_true. rewrite !Nat.ltb_lt. lia.
  - rewrite !(proj2 (lookup_ge_None _ _)) // ?length_insert Hlen; lia.
Qed.

(** The targets of a component are done when its turn comes. *)
Lemma sort_step fuel s c x l : sccs g' !! s = Some c → rep_name c = Some x →
  sort_sccs_node (S fuel) g' s (seen_below s, l) = Ok (seen_below (S s), l ++ [x]).
Proof using HB Ha.
  intros Hc Hx. assert (Hs : s < length (sccs g')) by by eapply lookup_lt_Some.
  destruct (rep_name_ok s c Hc) as (r & x' & Hr & Hrx & Hx' & _). rewrite Hx in Hx'. injection Hx' as <-.
  cbn [sort_sccs_node fst snd]. rewrite seen_below_lookup //. cbn [expect rbind]. rewrite Nat.ltb_irrefl Hc.
  cbn [expect rbind]. rewrite (for_scc_edges_ok _ s c _ Hc) seen_below_insert //.
  rewrite rfold_same; [|cbn [rbind]; by rewrite Hr /= Hrx].
  intros j Hj. assert (Hjs : j ≤ s) by (apply scc_edge_le; by exists c).
  assert (Hjl : seen_below (S s) !! j = Some true).
  { rewrite seen_below_lookup; [lia|]. f_equal. apply Nat.ltb_lt. lia. }
  destruct fuel; cbn [sort_sccs_node fst]; by rewrite Hjl.
Qed.

Lemma sort_loop fuel m s l : s + m = length (sccs g') → ∃ l',
  rfold (sort_sccs_node (S fuel) g') (seq s m) (seen_below s, l) = Ok (seen_below (s + m), l ++ l')
  ∧ map Some l' = map rep_name (drop s (sccs g')).
Proof using HB Ha.
  revert s l. induction m as [|m IH]; intros s l Hs.
  - exists []. rewrite Nat.add_0_r app_nil_r drop_ge; [lia|]. done.
  - destruct (lookup_lt_is_Some_2 (sccs g') s) as [c Hc]; [lia|].
    destruct (rep_name_ok s c Hc) as (r & x & _ & _ & Hx & _).
    destruct (IH (S s) (l ++ [x])) as (l' & Hl & Hm); [lia|]. exists (x :: l'). split.
    + cbn [seq rfold]. rewrite (sort_step fuel s c x l Hc Hx). cbn [rbind]. rewrite Hl.
      by rewrite -app_assoc Nat.add_succ_r.
    + rewrite (drop_S _ _ _ Hc) /= Hx. by f_equal.
Qed.

(** The representatives in the order of the components. *)
Lemma sort_sccs_ok fuel : 1 ≤ fuel → ∃ l, sort_sccs fuel g' = Ok l ∧ map Some l = map rep_name (sccs g').
Proof using HB Ha.
  intros Hf. destruct fuel as [|fuel]; [lia|].
  destruct (sort_loop fuel (length (sccs g')) 0 [] (Nat.add_0_l _)) as (l & Hl & Hm). exists l.
  split; [|done]. unfold sort_sccs. rewrite (an_run _ _ Ha).
  assert (Hrep : replicate (length (sccs g')) false = seen_below 0).
  { apply list_eq. intros i. destruct (decide (i < length (sccs g'))).
    - by rewrite seen_below_lookup // lookup_replicate_2.
    - rewrite !(proj2 (lookup_ge_None _ _)) // /seen_below ?length_map ?length_seq ?length_replicate; lia. }
  by rewrite Hrep Hl.
Qed.

Lemma sorted_lookup l i x : map Some l = map rep_name (sccs g') →
  l !! i = Some x ↔ ∃ c, sccs g' !! i = Some c ∧ rep_name c = Some x.
Proof using.
  intros Hl. assert (Hi : Some <$> l !! i = rep_name <$> sccs g' !! i) 
    by (rewrite -list_lookup_fmap -list_lookup_fmap; exact (f_equal (lookup i) Hl)).
  destruct (l !! i) as [y|], (sccs g' !! i) as [c|]; simplify_eq/=; split.
  - intros [= ->]. by exists c.
  - intros (? & [= <-] & Hx). rewrite Hx in Hi. by rewrite Hi.
  - done.
  - by intros (? & [=] & _).
Qed.
End order.

(** ** Reachability over components

    The search of [can_reach] is on the components; a number of steps of one
    more than the edges of the graph is enough. *)

Lemma sum_list_with_ext {A} (f1 f2 : A → nat) l :
  (∀ a, a ∈ l → f1 a = f2 a) → sum_list_with f1 l = sum_list_with f2 l.
Proof.
  induction l as [|a l IH]; simpl; intros Hf; [done|]. rewrite Hf; [apply list_elem_of_here|].
  rewrite IH; [|done]. intros b Hb. apply Hf, elem_of_cons. by right.
Qed.

Lemma sum_list_with_map {A B} (f : B → nat) (k : A → B) l :
  sum_list_with f (map k l) = sum_list_with (λ a, f (k a)) l.
Proof. induction l; simpl; congruence. Qed.

(** Summing over positions. *)
Lemma sum_list_with_seq {A} (f : A → nat) (l : list A) :
  sum_list_with (λ i, default 0 (f <$> l !! i)) (seq 0 (length l)) = sum_list_with f l.
Proof.
  induction l as [|a l IH]; [done|]. cbn [length seq sum_list_with]. rewrite -seq_shift sum_list_with_map /= -IH.
  done.
Qed.

Lemma NoDup_components cs : (∀ c, c ∈ cs → NoDup (scc_nodes c)) →
  (∀ i j v, in_scc cs i v → in_scc cs j v → i = j) → NoDup (flat_map scc_nodes cs).
Proof.
  induction cs as [|c cs IH]; intros Hnd Hu; cbn [flat_map]; [by constructor|].
  assert (Hs : ∀ i v, in_scc cs i v → in_scc (c :: cs) (S i) v) by (intros i v (d & Hd & Hv); by exists d).
  apply NoDup_app. split_and!.
  - apply Hnd, list_elem_of_here.
  - intros v Hv Hin. apply list_elem_of_In, in_flat_map in Hin as (d & Hd & Hvd).
    apply list_elem_of_In, list_elem_of_lookup in Hd as [i Hi]. apply list_elem_of_In in Hvd.
    assert (He : 0 = S i); [|done]. apply (Hu 0 (S i) v); [by exists c|]. apply Hs. by exists d.
  - apply IH; [intros d Hd; apply Hnd, elem_of_cons; by right|].
    intros i j v Hi Hj. apply Hs in Hi, Hj. pose proof (Hu _ _ _ Hi Hj). by injection H.
Qed.

Section reach.
Context {T : Type} `{Countable T}.
Context (g g' : Graph T) (HB : base_ok (base g)) (Ha : analysed g g').
#[local] Abbreviation B := (base g).
#[local] Abbreviation name := (name_of (base g)).
#[local] Abbreviation scc_of := (in_scc (sccs g')).
#[local] Abbreviation scc_edge := (scc_edge g g').
#[local] Abbreviation targets := (targets g g').
#[local] Abbreviation rep_name := (rep_name g).
#[local] Abbreviation count := (length (sccs g')).

(** ** The edges left to follow *)

Definition out (i : nat) : nat := default 0 ((λ c, length (targets c)) <$> sccs g' !! i).
Definition pending (R : gset nat) : nat :=
  sum_list_with (λ i, if decide (i ∈ R) then 0 else out i) (seq 0 count).

Lemma pending_add i R : i < count → i ∉ R → pending R = out i + pending ({[i]} ∪ R).
Proof using.
  clear HB Ha. intros Hi HR. unfold pending.
  assert (Hp : seq 0 count ≡ₚ i :: filter (λ j, j ≠ i) (seq 0 count)).
  { apply NoDup_Permutation; [apply NoDup_seq| |].
    - apply NoDup_cons. split; [|apply NoDup_filter, NoDup_seq]. rewrite list_elem_of_filter. by intros [? _].
    - intros j. rewrite elem_of_cons list_elem_of_filter !elem_of_seq. destruct (decide (j = i)); naive_solver lia. }
  rewrite Hp. cbn [sum_list_with]. rewrite decide_False // decide_True; [set_solver|]. cbn [Nat.add]. f_equal.
  apply sum_list_with_ext. intros j [Hj _]%list_elem_of_filter. destruct (decide (j ∈ R)).
  - rewrite decide_True //. set_solver.
  - rewrite decide_False //. set_solver.
Qed.

Lemma pending_all : pending ∅ = edge_count g.
Proof using HB Ha.
  unfold pending. rewrite (sum_list_with_ext _ out).
  { intros i _. case_decide as Hi; [by apply not_elem_of_empty in Hi|done]. }
  unfold out. rewrite sum_list_with_seq.
  assert (Hflat : ∀ cs, sum_list_with (λ c, length (targets c)) cs
    = sum_list_with (λ v, length (edges_from B v)) (flat_map scc_nodes cs)).
  { assert (Ht : ∀ l, length (flat_map (λ v, map (id_of g g') (edges_from B v)) l)
      = sum_list_with (λ v, length (edges_from B v)) l).
    { intros l. induction l as [|v l IH]; simpl; [done|]. by rewrite length_app length_map IH. }
    intros cs. induction cs as [|c cs IH]; [done|].
    cbn [flat_map sum_list_with]. by rewrite sum_list_with_app IH /SccReach.targets Ht. }
  rewrite Hflat. assert (Hp : flat_map scc_nodes (sccs g') ≡ₚ seq 0 (length B)).
  { apply NoDup_Permutation; [apply NoDup_components|apply NoDup_seq|].
    - intros c [i Hc]%list_elem_of_lookup. apply (so_nodup _ _ _ _ (an_scc _ _ Ha i c Hc)).
    - intros i j v. apply (in_scc_unique g g' Ha).
    - intros v. rewrite elem_of_seq list_elem_of_In in_flat_map. setoid_rewrite <- list_elem_of_In. split.
      + intros (c & [i Hc]%list_elem_of_lookup & Hv). split; [lia|]. apply (an_range _ _ Ha i). by exists c.
      + intros [_ Hv]. destruct (an_all _ _ Ha v Hv) as (i & c & Hc & Hvc). exists c.
        split; [by eapply list_elem_of_lookup_2|done]. }
  rewrite Hp /edge_count. rewrite -(sum_list_with_seq _ (nodes g)) /base length_map. apply sum_list_with_ext.
  intros v _. unfold edges_from. change (List.map ?f ?l) with (f <$> l). rewrite list_lookup_fmap.
  by destruct (nodes g !! v).
Qed.

(** ** The search *)

(** [order] is that of [sort_sccs], or none. *)
Definition order_ok (tgt : nat) (order : option (gmap T nat * nat)) : Prop :=
  ∀ m t, order = Some (m, t) → t = tgt ∧ ∀ i c x, sccs g' !! i = Some c → rep_name c = Some x → m !! x = Some i.

Record search_ok (src tgt : nat) (R : gset nat) (W : list nat) : Prop := {
  se_found : ∀ i, i ∈ W → rtc scc_edge src i;
  se_src : src ∈ R ∨ src ∈ W;
  se_closed : ∀ i, i ∈ R → i ≠ tgt ∧ (i < tgt ∨ ∀ j, scc_edge i j → j ∈ R ∨ j ∈ W)
}.

Lemma search_count src i : src < count → rtc scc_edge src i → i < count.
Proof using HB Ha. intros Hs Hr. pose proof (scc_edges_le g g' HB Ha _ _ Hr). lia. Qed.

Lemma search_done src tgt R : search_ok src tgt R [] → ¬ rtc scc_edge src tgt.
Proof using HB Ha.
  intros [_ Hs Hc] Hr. assert (Hsrc : src ∈ R) by (destruct Hs as [|?%not_elem_of_nil]; done).
  clear Hs. induction Hr as [i|i j k Hij Hr IH]; [by destruct (Hc i Hsrc)|]. apply IH; [done|].
  destruct (Hc i Hsrc) as [_ [Hlt|Hall]].
  - pose proof (scc_edges_le g g' HB Ha i k (rtc_l _ _ _ _ Hij Hr)). lia.
  - by destruct (Hall j Hij) as [|?%not_elem_of_nil].
Qed.

(** One component that is neither the target nor reached. *)
Lemma search_skip src tgt R W i : search_ok src tgt R (i :: W) → i ∈ R → search_ok src tgt R W.
Proof using.
  intros [Hf Hs Hc] Hi. split.
  - intros j Hj. apply Hf, elem_of_cons. by right.
  - destruct Hs as [|[->|?]%elem_of_cons]; auto.
  - intros j Hj. destruct (Hc j Hj) as [Hne Hj']. split; [done|]. destruct Hj' as [|Hall]; [by left|].
    right. intros k Hk. destruct (Hall k Hk) as [|[->|?]%elem_of_cons]; auto.
Qed.

Lemma search_step src tgt R W W' i : search_ok src tgt R (i :: W) → i ≠ tgt →
  (∀ j, j ∈ W' → j ∈ W ∨ scc_edge i j) → (∀ j, j ∈ W → j ∈ W') →
  i < tgt ∨ (∀ j, scc_edge i j → j ∈ W') → search_ok src tgt ({[i]} ∪ R) W'.
Proof using.
  clear HB Ha.
  intros [Hf Hs Hc] Hne H1 H2 H3. split.
  - intros j [Hj|Hj]%H1; [apply Hf, elem_of_cons; by right|].
    eapply rtc_r; [|exact Hj]. apply Hf, list_elem_of_here.
  - destruct Hs as [|[->|?]%elem_of_cons]; [left; set_solver..|right; auto].
  - intros j [->%elem_of_singleton|Hj]%elem_of_union.
    + split; [done|]. destruct H3 as [|Hall]; [by left|]. right. auto.
    + destruct (Hc j Hj) as [Hj1 Hj2]. split; [done|]. destruct Hj2 as [|Hall]; [by left|].
      right. intros k Hk. destruct (Hall k Hk) as [|[->|?]%elem_of_cons]; [left; set_solver..|right; auto].
Qed.

Lemma search_none fuel src tgt order R : search_ok src tgt R [] →
  ∃ b, reach_loop fuel g' tgt order R [] = Ok b ∧ (b = true ↔ rtc scc_edge src tgt).
Proof using HB Ha.
  intros Hs. exists false. split; [by destruct fuel|]. split; [done|].
  intros Hr. by destruct (search_done _ _ _ Hs).
Qed.

Lemma reach_loop_ok src tgt order : order_ok tgt order → src < count → ∀ fuel R W,
  search_ok src tgt R W → length W + pending R ≤ fuel →
  ∃ b, reach_loop fuel g' tgt order R W = Ok b ∧ (b = true ↔ rtc scc_edge src tgt).
Proof using HB Ha.
  intros Ho Hsrc. induction fuel as [|fuel IH]; intros R W Hs Hf.
  { destruct W; [|simpl in Hf; lia]. by apply search_none. }
  destruct W as [|i W]; [by apply search_none|].
  cbn [reach_loop length] in *. case_decide as Hne; [subst i|].
  { exists true. split; [done|]. split; [|done]. intros _. apply (se_found _ _ _ _ Hs), list_elem_of_here. }
  case_decide as HR.
  { apply IH; [by apply search_skip with i|lia]. }
  assert (Hi : i < count) by (apply (search_count src); [done|]; apply (se_found _ _ _ _ Hs), list_elem_of_here).
  destruct (lookup_lt_is_Some_2 (sccs g') i Hi) as [c Hc].
  rewrite (pending_add i R Hi HR) /out Hc /= in Hf. rewrite Hc. cbn [expect rbind].
  assert (Hpass : ∃ p, match order with
      | Some (m, t) => let? r := rep c in let? x := node_t g' r in let? k := expect (m !! x) in Ok (k <? t)%nat
      | None => Ok false end = Ok p ∧ (p = true → i < tgt)).
  { destruct order as [[m t]|]; [|by exists false]. destruct (Ho m t eq_refl) as [-> Hm].
    destruct (rep_name_ok g g' Ha i c Hc) as (r & x & -> & Hx & Hn & _). cbn [rbind]. rewrite Hx. cbn [rbind].
    rewrite (Hm i c x Hc Hn). exists (i <? tgt)%nat. split; [done|]. apply Nat.ltb_lt. }
  destruct Hpass as (p & -> & Hp). cbn [rbind]. destruct p.
  - apply IH; [|lia]. apply (search_step _ _ _ W); auto.
  - rewrite (for_scc_edges_ok g g' HB Ha _ i c _ Hc) rfold_push. cbn [rbind]. apply IH.
    + assert (Hrev : ∀ j, j ∈ rev (targets c) ++ W ↔ scc_edge i j ∨ j ∈ W).
      { intros j. rewrite elem_of_app list_elem_of_In -in_rev -list_elem_of_In. unfold SccReach.scc_edge.
        rewrite Hc. naive_solver. }
      apply (search_step _ _ _ W); [done|done|intros j; rewrite Hrev; tauto|intros j; rewrite Hrev; tauto|].
      right. intros j. rewrite Hrev. auto.
    + rewrite length_app length_rev. lia.
Qed.

Lemma reach_start src tgt : search_ok src tgt ∅ [src].
Proof using.
  split.
  - by intros i ->%list_elem_of_singleton.
  - right. apply list_elem_of_here.
  - intros i Hi. by apply not_elem_of_empty in Hi.
Qed.
End reach.
