(* ===== verification/SccCorrect.v ===== *)
(** * Shortest cycles, and the theorems on graphs

    The search of [shortest_cycle_back_to_self] is breadth first: [level] is its
    invariant at depth [d].  Building a graph refines a set of nodes and a set of
    edges; the last sections state what each query of a graph answers. *)

From S2P Require Import Prelude Scc SccFacts SccGraph SccReach.
Set Warnings "-rewrite-rw,-register-all,-clear-no-such-hyp".
Local Open Scope res_scope.

#[local] Abbreviation card := (@stdpp.base.size (gset nat) _).

Section cycle.
Context {T : Type} `{Countable T}.
Context (g g' : Graph T) (HB : base_ok (base g)) (Ha : analysed g g').
#[local] Abbreviation B := (base g).
#[local] Abbreviation name := (name_of (base g)).
#[local] Abbreviation succ := (succ (base g)).
Context (root : nat) (Hroot : root < length (base g)).
Implicit Types (p q : list nat) (P : list (list nat)) (R : gset nat).

(** ** Walks from the root *)

Inductive walk : list nat → nat → Prop :=
  | walk_root : walk [root] root
  | walk_snoc p u e : walk p u → succ u e → walk (p ++ [e]) e.

Lemma walk_last p u : walk p u → last p = Some u.
Proof using. intros [|]; [done|by rewrite last_snoc]. Qed.

Lemma walk_head p u : walk p u → p !! 0 = Some root.
Proof using.
  clear Hroot HB Ha. induction 1 as [|p u e _ IH _]; [done|]. rewrite lookup_app_l //. by eapply lookup_lt_Some.
Qed.

Lemma walk_range p u : walk p u → ∀ v, v ∈ p → v < length B.
Proof using Hroot HB.
  induction 1 as [|p u e _ IH Hue]; intros v; [by intros ->%list_elem_of_singleton|].
  intros [Hv| ->%list_elem_of_singleton]%elem_of_app; [by apply IH|]. by apply (bo_range B HB u).
Qed.

Lemma walk_step p u : walk p u → ∀ i a b, p !! i = Some a → p !! S i = Some b → succ a b.
Proof using.
  clear Hroot HB Ha. induction 1 as [|p u e Hp IH Hue]; intros i a b Ha' Hb; [done|].
  apply lookup_app_Some in Hb as [Hb|[Hle Hb]].
  - rewrite lookup_app_l in Ha'; [apply lookup_lt_Some in Hb; lia|]. by apply (IH i).
  - apply list_lookup_singleton_Some in Hb as [Hi <-].
    assert (Hi' : i = Nat.pred (length p)) by lia.
    rewrite lookup_app_l in Ha'; [apply walk_head, lookup_lt_Some in Hp; lia|].
    rewrite Hi' -last_lookup (walk_last p u Hp) in Ha'. by injection Ha' as <-.
Qed.

(** ** One level of the search *)

Lemma extend_path_ok p es : ∀ R N,
  match extend_path root p es R N with
  | inl q => q = p ∧ root ∈ es
  | inr (R', N') => root ∉ es ∧ (∀ v, v ∈ R' ↔ v ∈ R ∨ v ∈ es) ∧ ∃ X, (N' = N ++ X)
      ∧ (∀ q, q ∈ X → ∃ e, e ∈ es ∧ q = p ++ [e])
      ∧ (∀ v, v ∈ R' → v ∈ R ∨ p ++ [v] ∈ X) ∧ card R' = card R + length X
  end.
Proof using.
  clear Hroot HB Ha. induction es as [|e es IH]; intros R N; cbn [extend_path].
  { split; [apply not_elem_of_nil|]. split; [set_solver|]. exists []. split_and!; [by rewrite app_nil_r| |auto|simpl; lia].
    by intros q ?%not_elem_of_nil. }
  case_decide as Her; [split; [done|]; subst; apply list_elem_of_here|].
  case_decide as HeR.
  - specialize (IH R N). destruct (extend_path root p es R N) as [q|[R' N']].
    + destruct IH. split; [done|]. by apply elem_of_cons; right.
    + destruct IH as (H1 & H2 & X & H3 & H4 & H5). split; [set_solver|]. split; [set_solver|].
      exists X. split; [done|]. split; [|done]. intros q (e' & He' & ->)%H4. exists e'. set_solver.
  - specialize (IH ({[e]} ∪ R) (N ++ [p ++ [e]])).
    destruct (extend_path root p es _ _) as [q|[R' N']].
    + destruct IH. split; [done|]. by apply elem_of_cons; right.
    + destruct IH as (H1 & H2 & X & -> & H4 & H5 & H6). split; [set_solver|]. split; [set_solver|].
      exists ((p ++ [e]) :: X). split_and!; [by rewrite -app_assoc| | |].
      * intros q [->|(e' & He' & ->)%H4]%elem_of_cons; [exists e|exists e']; set_solver.
      * intros v [[->%elem_of_singleton|]%elem_of_union|]%H5; [|by left|]; right; set_solver.
      * rewrite H6 size_union; [set_solver|]. rewrite size_singleton /=. lia.
Qed.

(** [u] ends a path of [P]. *)
Definition ends P (u : nat) : Prop := ∃ p, p ∈ P ∧ last p = Some u.

Lemma extend_paths_ok P : (∀ p, p ∈ P → ∃ u, walk p u) → ∀ R N, ∃ r, extend_paths g' root P R N = Ok r ∧
  match r with
  | inl q => q ∈ P ∧ ∃ u, walk q u ∧ succ u root
  | inr (R', N') => (∀ u, ends P u → ¬ succ u root) ∧ (∀ v, v ∈ R' ↔ v ∈ R ∨ ∃ u, ends P u ∧ succ u v)
      ∧ ∃ X, N' = N ++ X ∧ (∀ q, q ∈ X → ∃ p u e, p ∈ P ∧ walk p u ∧ succ u e ∧ q = p ++ [e])
      ∧ (∀ v, v ∈ R' → v ∈ R ∨ ends X v) ∧ card R' = card R + length X
  end.
Proof using Ha Hroot HB.
  induction P as [|p P IH]; intros HP R N; cbn [extend_paths].
  { eexists. split; [done|]. simpl. split; [by intros u (p & ?%not_elem_of_nil & _)|]. split.
    { intros v. split; [auto|]. by intros [|(u & (p & ?%not_elem_of_nil & _) & _)]. }
    exists []. split_and!; [by rewrite app_nil_r|by intros q ?%not_elem_of_nil|auto|simpl; lia]. }
  destruct (HP p) as [u Hp]; [apply list_elem_of_here|]. rewrite (walk_last p u Hp). cbn [expect rbind].
  assert (Hu : u < length B).
  { apply (walk_range p u Hp), last_Some_elem_of. by apply walk_last. }
  destruct (node_at g g' Ha u Hu) as (nd & x & -> & _ & _ & He). cbn [expect rbind]. rewrite He.
  pose proof (extend_path_ok p (edges_from B u) R N) as Hx.
  destruct (extend_path root p (edges_from B u) R N) as [q|[R1 N1]].
  { eexists. split; [done|]. simpl. destruct Hx as [-> Hx]. split; [apply list_elem_of_here|]. by exists u. }
  destruct Hx as (H1 & H2 & X & -> & H4 & H5 & H6).
  destruct (IH (λ q Hq, HP q (list_elem_of_further _ _ _ Hq)) R1 (N ++ X)) as (r & -> & Hr). exists r. split; [done|].
  assert (Hends : ∀ v, ends (p :: P) v ↔ v = u ∨ ends P v).
  { intros v. unfold ends. setoid_rewrite elem_of_cons. pose proof (walk_last p u Hp). naive_solver. }
  destruct r as [q|[R' N']].
  { destruct Hr as [Hq Hr]. split; [by apply elem_of_cons; right|done]. }
  destruct Hr as (K1 & K2 & Y & -> & K4 & K5 & K6). split; [|split].
  - intros v [->|Hv]%Hends; [done|by apply K1].
  - intros v. rewrite K2 H2. setoid_rewrite Hends. unfold SccFacts.succ. naive_solver.
  - exists (X ++ Y). split_and!; [by rewrite app_assoc| | |rewrite length_app; lia].
    + intros q [(e & He' & ->)%H4|(p' & u' & e & ? & ?)%K4]%elem_of_app.
      * exists p, u, e. split_and!; try done. apply list_elem_of_here.
      * exists p', u', e. split; [by apply elem_of_cons; right|done].
    + intros v [[Hv|Hv]%H5|(q & Hq & Hv)]%K5; [by left|right..].
      * exists (p ++ [v]). split; [by apply elem_of_app; left|by rewrite last_snoc].
      * exists q. split; [by apply elem_of_app; right|done].
Qed.

(** ** The search *)

Definition expanded R v : Prop := ∀ w, succ v w → w ∈ R ∧ w ≠ root.

Record level (d : nat) P R : Prop := {
  lv_walk : ∀ p, p ∈ P → ∃ u, walk p u ∧ length p = S d;
  lv_root : root ∈ R;
  lv_range : ∀ v, v ∈ R → v < length B;
  lv_open : ∀ v, v ∈ R → ends P v ∨ expanded R v;
  lv_done : ∀ k v, k < d → nsteps succ k root v → expanded R v;
  lv_card : P ≠ [] → d < card R;
  lv_depth : d ≤ length B
}.

Lemma level_start : level 0 [[root]] {[root]}.
Proof using Hroot.
  clear HB Ha. split; try lia.
  - intros p ->%list_elem_of_singleton. exists root. split; [constructor|done].
  - set_solver.
  - by intros v ->%elem_of_singleton.
  - intros v ->%elem_of_singleton. left. exists [root]. split; [apply list_elem_of_here|done].
  - rewrite size_singleton. lia.
Qed.

Lemma level_card d P R : level d P R → P ≠ [] → d < length B.
Proof using.
  clear HB Ha Hroot. intros Hl HP. pose proof (lv_card _ _ _ Hl HP).
  assert (Hs : R ⊆ list_to_set (seq 0 (length B))).
  { intros v Hv. apply elem_of_list_to_set, elem_of_seq. pose proof (lv_range _ _ _ Hl v Hv). lia. }
  apply subseteq_size in Hs. rewrite (size_list_to_set (seq 0 (length B)) (NoDup_seq 0 _)) length_seq in Hs. lia.
Qed.

(** The nodes at depth [d] are reached. *)
Lemma level_reached d P R v : level d P R → nsteps succ d root v → v ∈ R.
Proof using.
  clear HB Ha Hroot. intros Hl Hv. destruct d as [|d].
  - inversion Hv; subst. apply Hl.
  - apply nsteps_inv_r in Hv as (u & Hu & Huv). by apply (lv_done _ _ _ Hl d u (Nat.lt_succ_diag_r d) Hu v Huv).
Qed.

Lemma level_next d P R X R' : level d P R → P ≠ [] →
  (∀ u, ends P u → ¬ succ u root) → (∀ v, v ∈ R' ↔ v ∈ R ∨ ∃ u, ends P u ∧ succ u v) →
  (∀ q, q ∈ X → ∃ p u e, p ∈ P ∧ walk p u ∧ succ u e ∧ q = p ++ [e]) →
  (∀ v, v ∈ R' → v ∈ R ∨ ends X v) → card R' = card R + length X → level (S d) X R'.
Proof using HB.
  clear Ha Hroot. intros Hl HP H1 H2 H3 H4 H5. pose proof (level_card d P R Hl HP).
  assert (Hex : ∀ v, v ∈ R → expanded R' v).
  { intros v Hv w Hw. destruct (lv_open _ _ _ Hl v Hv) as [He|He].
    - split; [apply H2; right; by exists v|]. intros ->. by apply (H1 v He).
    - destruct (He w Hw). split; [apply H2; by left|done]. }
  split.
  - intros q (p & u & e & Hp & Hpu & Hue & ->)%H3. exists e. split; [by apply (walk_snoc p u e)|].
    destruct (lv_walk _ _ _ Hl p Hp) as (_ & _ & Hlen). rewrite length_app Hlen /=. lia.
  - apply H2. left. apply Hl.
  - intros v [Hv|(u & _ & Hv)]%H2; [by apply (lv_range _ _ _ Hl)|by apply (bo_range B HB u)].
  - intros v [Hv|Hv]%H4; [right; by apply Hex|by left].
  - intros k v Hk Hv. apply Hex. destruct (decide (k = d)) as [->|]; [by apply (level_reached d P R)|].
    destruct k as [|k]; [inversion Hv; subst; apply Hl|].
    apply nsteps_inv_r in Hv as (u & Hu & Huv). apply (lv_done _ _ _ Hl k u); [lia|done|done].
  - intros HX. destruct X; [done|]. pose proof (lv_card _ _ _ Hl HP). simpl in H5. lia.
  - lia.
Qed.

Lemma level_none d R : level d [] R → ¬ tc succ root root.
Proof using.
  clear HB Ha Hroot. intros Hl Hc.
  assert (Hall : ∀ v w, tc succ v w → v ∈ R → w ∈ R ∧ w ≠ root).
  { induction 1 as [v w Hvw|v u w Hvu _ IH]; intros Hv;
      (destruct (lv_open _ _ _ Hl v Hv) as [(q & ?%not_elem_of_nil & _)|He]; [done|]); [by apply He|].
    apply IH, (He u Hvu). }
  destruct (Hall root root Hc (lv_root _ _ _ Hl)) as [_ Hne]. done.
Qed.

Lemma cycle_loop_ok fuel : ∀ d P R, level d P R → length B < fuel + d →
  (∃ q u, cycle_loop fuel g' root P R = rmap (node_t g') q ∧ walk q u ∧ succ u root
     ∧ ∀ k v, S k < length q → nsteps succ k root v → ¬ succ v root)
  ∨ (cycle_loop fuel g' root P R = Panic ∧ ¬ tc succ root root).
Proof using HB Ha Hroot.
  induction fuel as [|fuel IH]; intros d P R Hl Hf; [pose proof (lv_depth _ _ _ Hl); lia|].
  cbn [cycle_loop]. destruct P as [|p P].
  { right. split; [done|]. by apply (level_none d R). }
  destruct (extend_paths_ok (p :: P)) with (R := R) (N := @nil (list nat)) as (r & Hr & Hx).
  { intros q (u & Hu & _)%(lv_walk _ _ _ Hl). by exists u. }
  cbn [length Nat.eqb negb assert rbind]. rewrite Hr. cbn [rbind]. destruct r as [q|[R' X]].
  - left. destruct Hx as (Hq & u & Hqu & Hu). exists q, u. split_and!; [done..|].
    intros k v Hk Hv Hvr. destruct (lv_walk _ _ _ Hl q Hq) as (_ & _ & Hlen).
    destruct (lv_done _ _ _ Hl k v ltac:(lia) Hv root Hvr) as [_ Hne]. done.
  - destruct Hx as (H1 & H2 & Y & -> & H4 & H5 & H6). apply (IH (S d)); [|lia].
    by apply (level_next d (p :: P) R Y R').
Qed.

Lemma names_of_path p : (∀ v, v ∈ p → v < length B) →
  ∃ l, rmap (node_t g') p = Ok l ∧ map Some l = map name p.
Proof using Ha.
  induction p as [|v p IH]; intros Hp; [by exists []|].
  destruct IH as (l & Hl & Hm); [intros w Hw; apply Hp, elem_of_cons; by right|].
  destruct (name_total g v (Hp v (list_elem_of_here _ _))) as [x Hx]. exists (x :: l).
  cbn [rmap map]. rewrite (node_t_ok g g' Ha v x Hx). cbn [rbind]. rewrite Hl Hx Hm. done.
Qed.
End cycle.

(** ** What the graph module promises

    The construction refines sets of nodes and edges; [compute_sccs] returns and
    the queries after it say what they mean on the edges of the graph. *)

(** ** Building a graph *)

Section build.
Context {T : Type} `{Countable T}.

Inductive GraphOp :=
  | AddNode (x : T)
  | AddEdge (x y : T)
  | AddEdgeIfExist (x y : T).

Definition run_op (o : GraphOp) (g : Graph T) : res fuel_error (Graph T) :=
  match o with
  | AddNode x => Ok (add_node g x)
  | AddEdge x y => add_edge g x y
  | AddEdgeIfExist x y => add_directed_edge_if_nodes_exist g x y
  end.
Definition build (ops : list GraphOp) : res fuel_error (Graph T) := rfold run_op ops new_graph.

(** The abstract graph: its nodes and its edges. *)
Definition spec_op (s : gset T * gset (T * T)) (o : GraphOp) : gset T * gset (T * T) :=
  match o with
  | AddNode x => ({[x]} ∪ s.1, s.2)
  | AddEdge x y => ({[x; y]} ∪ s.1, {[(x, y)]} ∪ s.2)
  | AddEdgeIfExist x y => if decide (x ∈ s.1 ∧ y ∈ s.1) then (s.1, {[(x, y)]} ∪ s.2) else s
  end.

Definition graph_is (g : Graph T) (s : gset T * gset (T * T)) : Prop :=
  (∀ x, has_node g x ↔ x ∈ s.1) ∧ (∀ x y, edge g x y ↔ (x, y) ∈ s.2).

Lemma run_op_ok g s o : graph_ok g → graph_is g s →
  ∃ g', run_op o g = Ok g' ∧ graph_ok g' ∧ graph_is g' (spec_op s o).
Proof.
  intros Hg [Hn He]. destruct o as [x|x y|x y]; cbn [run_op spec_op].
  - destruct (add_node_ok g x Hg) as (H1 & N1 & E1). eexists. split_and!; [done|done|].
    split; [intros z; rewrite N1 Hn; set_solver|intros a b; by rewrite E1 He].
  - destruct (add_edge_ok g x y Hg) as (g1 & Hg1 & H1 & N1 & E1). exists g1. split_and!; [done|done|].
    split; [intros z; rewrite N1 Hn; set_solver|intros a b; rewrite E1 He; set_solver].
  - unfold add_directed_edge_if_nodes_exist. case_decide as Hxy.
    + destruct Hxy as [Hx Hy]. apply Hn in Hx as [v Hv], Hy as [w Hw]. rewrite Hv Hw.
      destruct (push_edge_ok g v w x y Hg) as (g1 & Hg1 & H1 & N1 & E1); [by apply (go_h _ Hg)..|].
      exists g1. split_and!; [done|done|]. split; [intros z; by rewrite N1 Hn|intros a b; rewrite E1 He; set_solver].
    + exists g. split; [|done]. destruct (h g !! x) as [v|] eqn:Hv; [|done].
      destruct (h g !! y) as [w|] eqn:Hw; [|done]. exfalso. apply Hxy. split; apply Hn; [by exists v|by exists w].
Qed.

Lemma build_ok ops : ∃ g, build ops = Ok g ∧ graph_ok g ∧ graph_is g (foldl spec_op (∅, ∅) ops).
Proof.
  assert (Hgo : ∀ g s, graph_ok g → graph_is g s →
    ∃ g', rfold run_op ops g = Ok g' ∧ graph_ok g' ∧ graph_is g' (foldl spec_op s ops)).
  { induction ops as [|o ops IH]; intros g s Hg Hs; [by exists g|].
    destruct (run_op_ok g s o Hg Hs) as (g1 & Hg1 & H1 & S1). cbn [rfold foldl]. rewrite Hg1. by apply IH. }
  apply Hgo; [apply new_graph_ok|]. split.
  - intros x. unfold has_node. cbn. rewrite lookup_empty. split; [by intros [? ?]|set_solver].
  - intros x y. split; [by intros (v & w & ? & ?%not_elem_of_nil & _)|set_solver].
Qed.
End build.
Arguments GraphOp : clear implicits.

(** ** Paths between values *)

Section paths.
Context {T : Type} `{Countable T}.
Context (g : Graph T) (HB : base_ok (base g)).
#[local] Abbreviation name := (name_of (base g)).

Lemma edges_nsteps k v w x y : name v = Some x → name w = Some y →
  nsteps (edge g) k x y ↔ nsteps (succ (base g)) k v w.
Proof using HB.
  intros Hv Hw. revert v x Hv. induction k as [|k IH]; intros v x Hv.
  - split; inversion 1; subst.
    + rewrite (name_of_inj _ HB v w y Hv Hw). constructor.
    + rewrite Hv in Hw. injection Hw as ->. constructor.
  - split; inversion 1 as [|? ? z ? Hz Hr]; subst.
    + apply (edge_succ g HB v x z Hv) in Hz as (u & Hu & Huz). eapply nsteps_l; [exact Hu|]. by apply (IH u z).
    + destruct (name_total g z (bo_range _ HB v z Hz)) as [u Hu]. eapply nsteps_l; [|by apply (IH z u)].
      apply (edge_succ g HB v x u Hv). eauto.
Qed.

Lemma edges_tc v w x y : name v = Some x → name w = Some y → tc (edge g) x y ↔ tc (succ (base g)) v w.
Proof using HB. intros Hv Hw. rewrite !tc_nsteps. by setoid_rewrite (edges_nsteps _ v w x y Hv Hw). Qed.

Lemma tc_self_cases `{EqDecision A} (R : A → A → Prop) x :
  tc R x x ↔ R x x ∨ ∃ y, y ≠ x ∧ rtc R x y ∧ rtc R y x.
Proof using.
  split.
  - intros Hc. assert (Hx : ∃ z, R x z ∧ rtc R z x).
    { inversion Hc as [? ? Hz|? z ? Hz Hr]; subst; [by exists x|]. exists z. split; [done|by apply tc_rtc]. }
    destruct Hx as (z & Hxz & Hzx). destruct (decide (z = x)) as [->|Hne]; [by left|].
    right. exists z. split_and!; [done|by apply rtc_once|done].
  - intros [Hx|(y & Hne & Hxy & Hyx)]; [by apply tc_once|].
    apply rtc_tc in Hxy as [->|Hxy]; [done|]. apply rtc_tc in Hyx as [->|Hyx]; [done|]. by trans y.
Qed.
End paths.

(** ** The queries *)

Section queries.
Context {T : Type} `{Countable T}.
Implicit Types (g : Graph T) (x y : T).

(** What the theorems below assume of the graph before [compute_sccs]. *)
Record ready g (fuel : nat) : Prop := {
  rd_ok : graph_ok g;
  rd_size : (N.of_nat (length (nodes g)) < usize_max)%N;
  rd_fuel : length (nodes g) ≤ fuel
}.

Lemma ready_run g fuel : ready g fuel → ∃ g', compute_sccs fuel g = Ok g' ∧ base_ok (base g) ∧ analysed g g'.
Proof.
  intros [Hg Hs Hf]. destruct (compute_analysed g Hg Hs fuel) as (g' & Hg' & Ha); [by rewrite /base length_map|].
  exists g'. split_and!; [done|by apply graph_ok_base|done].
Qed.

Lemma has_name g g' x : graph_ok g → analysed g g' → has_node g x →
  ∃ v i, name_of (base g) v = Some x ∧ h g' !! x = Some v ∧ in_scc (sccs g') i v ∧ mapping g' !! x = Some i.
Proof.
  intros Hg Ha Hx. destruct (has_node_name g g' Ha x Hx Hg) as (v & Hv & Hh).
  destruct (an_all _ _ Ha v (name_of_lt _ _ _ Hv)) as [i Hi]. exists v, i. split_and!; [done..|].
  by apply (an_map _ _ Ha v x i Hv).
Qed.

Lemma get_scc_nodes_ok g g' x : graph_ok g → base_ok (base g) → analysed g g' → has_node g x →
  ∃ l, get_scc_nodes g' x = Ok l ∧ NoDup l
    ∧ ∀ y, y ∈ l ↔ has_node g y ∧ rtc (edge g) x y ∧ rtc (edge g) y x.
Proof.
  intros Hg HB Ha Hx. destruct (has_name g g' x Hg Ha Hx) as (v & i & Hv & _ & Hi & Hm).
  pose proof Hi as (c & Hc & Hvc).
  assert (Hr : ∀ w, w ∈ scc_nodes c → w < length (base g)) by (intros w Hw; apply (an_range _ _ Ha i); by exists c).
  destruct (names_of_path g g' Ha (scc_nodes c) Hr) as (l & Hl & Hn).
  assert (Hlook : ∀ k, Some <$> l !! k = name_of (base g) <$> scc_nodes c !! k).
  { intros k. rewrite -list_lookup_fmap -list_lookup_fmap. exact (f_equal (lookup k) Hn). }
  exists l. split; [|split].
  - unfold get_scc_nodes. rewrite (an_run _ _ Ha) Hm. cbn [assert expect rbind]. by rewrite Hc.
  - apply NoDup_alt. intros a b y Hy1 Hy2. pose proof (Hlook a) as H1. pose proof (Hlook b) as H2.
    rewrite Hy1 in H1. rewrite Hy2 in H2.
    destruct (scc_nodes c !! a) as [u|] eqn:Hu; [|done]. destruct (scc_nodes c !! b) as [w|] eqn:Hw; [|done].
    injection H1 as H1. injection H2 as H2. rewrite (name_of_inj _ HB u w y) // in Hu.
    apply (NoDup_lookup (scc_nodes c) a b w); [apply (so_nodup _ _ _ _ (an_scc _ _ Ha i c Hc))|done|done].
  - intros y. transitivity (∃ w, name_of (base g) w = Some y ∧ w ∈ scc_nodes c).
    + rewrite list_elem_of_lookup. split.
      * intros [k Hk]. pose proof (Hlook k) as H1. rewrite Hk in H1.
        destruct (scc_nodes c !! k) as [w|] eqn:Hw; [|done]. injection H1 as H1. exists w.
        split; [done|by eapply list_elem_of_lookup_2].
      * intros (w & Hw & [k Hk]%list_elem_of_lookup). exists k. pose proof (Hlook k) as H1.
        rewrite Hk /= Hw in H1. destruct (l !! k); [|done]. by injection H1 as ->.
    + split.
      * intros (w & Hw & Hwc). split; [exists w; by apply (go_h _ Hg)|].
        rewrite (edges_reach g HB v w x y Hv Hw) (edges_reach g HB w v y x Hw Hv).
        apply (scc_mutual g g' Ha i v w Hi). by exists c.
      * intros [Hy Hxy]. destruct (has_name g g' y Hg Ha Hy) as (w & _ & Hw & _). exists w. split; [done|].
        rewrite (edges_reach g HB v w x y Hv Hw) (edges_reach g HB w v y x Hw Hv) in Hxy.
        apply (scc_mutual g g' Ha i v w Hi) in Hxy as (d & Hd & Hwd). rewrite Hc in Hd. by injection Hd as ->.
Qed.

Lemma in_cycle_ok g g' x : graph_ok g → base_ok (base g) → analysed g g' → has_node g x →
  ∃ b, node_is_in_cycle g' x = Ok b ∧ (b = true ↔ tc (edge g) x x).
Proof.
  intros Hg HB Ha Hx. destruct (has_name g g' x Hg Ha Hx) as (v & i & Hv & Hh & Hi & Hm).
  pose proof Hi as (c & Hc & Hvc). pose proof (name_of_lt _ _ _ Hv) as Hlt.
  destruct (node_at g g' Ha v Hlt) as (nd & x' & Hnd & _ & _ & He).
  setoid_rewrite (edges_tc g HB v v x x Hv Hv).
  unfold node_is_in_cycle, node_has_direct_edge_to_itself, get_scc_size.
  rewrite (an_run _ _ Ha) Hh. cbn [assert expect rbind]. rewrite Hnd. cbn [expect rbind]. rewrite He.
  assert (Hself : existsb (Nat.eqb v) (edges_from (base g) v) = true ↔ succ (base g) v v).
  { rewrite existsb_exists. unfold succ. setoid_rewrite <- list_elem_of_In. setoid_rewrite Nat.eqb_eq. naive_solver. }
  destruct (existsb _ _); [exists true; split; [done|]|].
  { split; [|done]. intros _. by apply tc_once, Hself. }
  rewrite Hm. cbn [assert expect rbind]. rewrite Hc. cbn [expect rbind]. eexists. split; [done|].
  rewrite tc_self_cases Nat.ltb_lt. unfold size. split.
  - intros Hl. right. destruct (scc_nodes c) as [|a [|b l]] eqn:Hnodes; simpl in Hl; [lia|lia|].
    pose proof (so_nodup _ _ _ _ (an_scc _ _ Ha i c Hc)) as Hnd'. rewrite Hnodes in Hnd'.
    apply NoDup_cons in Hnd' as [Hab _].
    assert (∃ w, w ≠ v ∧ w ∈ scc_nodes c) as (w & Hwv & Hwc).
    { rewrite Hnodes. destruct (decide (a = v)) as [->|]; [|exists a; split; [done|set_solver]].
      exists b. split; [intros ->; set_solver|set_solver]. }
    exists w. split; [done|]. apply (scc_mutual g g' Ha i v w Hi). by exists c.
  - intros [Hs|(w & Hwv & Hw)]; [by apply Hself in Hs|].
    apply (scc_mutual g g' Ha i v w Hi) in Hw as (d & Hd & Hwd). rewrite Hc in Hd. injection Hd as <-.
    destruct (scc_nodes c) as [|a [|b l]]; simpl; [by apply not_elem_of_nil in Hvc| |lia].
    apply list_elem_of_singleton in Hvc, Hwd. congruence.
Qed.

Lemma get_scc_rep_at g g' x v i : analysed g g' → name_of (base g) v = Some x → in_scc (sccs g') i v →
  ∃ c r, sccs g' !! i = Some c ∧ get_scc_rep g' x = Ok r ∧ rep_name g c = Some r.
Proof.
  intros Ha Hv Hi. destruct (get_scc_rep_ok g g' Ha i v x Hi Hv) as (c & r & y & Hc & Hr & _ & Hy & Hrep).
  exists c, y. split_and!; [done|done|]. unfold rep in Hr. unfold rep_name.
  destruct (scc_nodes c !! 0); [|done]. injection Hr as ->. done.
Qed.

(** The position of a representative in the sorted list is the number of its component. *)
Lemma sorted_position g g' l x v i k r : base_ok (base g) → analysed g g' →
  map Some l = map (rep_name g) (sccs g') → name_of (base g) v = Some x → in_scc (sccs g') i v →
  get_scc_rep g' x = Ok r → l !! k = Some r ↔ k = i.
Proof.
  intros HB Ha Hl Hv Hi Hr. destruct (get_scc_rep_at g g' x v i Ha Hv Hi) as (c & r' & Hc & Hr' & Hn).
  rewrite Hr in Hr'. injection Hr' as <-. rewrite (sorted_lookup g g' l k r Hl). split.
  - intros (d & Hd & Hdr). destruct (rep_name_ok g g' Ha i c Hc) as (u & y & _ & _ & Hy & Hiu & Hyu).
    destruct (rep_name_ok g g' Ha k d Hd) as (w & z & _ & _ & Hz & Hkw & Hzw).
    rewrite Hn in Hy. injection Hy as <-. rewrite Hdr in Hz. injection Hz as <-.
    rewrite (name_of_inj _ HB w u r Hzw Hyu) in Hkw. by apply (in_scc_unique g g' Ha k i u).
  - intros ->. by exists c.
Qed.

(** [order] maps the elements of the sorted list to their positions. *)
Definition sorted_order_ok g' (order : option (gmap T nat)) : Prop :=
  ∀ m, order = Some m → ∃ l, sort_sccs 1 g' = Ok l ∧ ∀ i r, l !! i = Some r → m !! r = Some i.

Lemma can_reach_ok g g' x y order fuel : graph_ok g → base_ok (base g) → analysed g g' →
  has_node g x → has_node g y → sorted_order_ok g' order → edge_count g < fuel →
  ∃ b, can_reach fuel g' x y order = Ok b ∧ (b = true ↔ rtc (edge g) x y).
Proof.
  intros Hg HB Ha Hx Hy Ho Hf. destruct (has_name g g' x Hg Ha Hx) as (v & i & Hv & _ & Hi & Hmx).
  destruct (has_name g g' y Hg Ha Hy) as (w & j & Hw & _ & Hj & Hmy).
  setoid_rewrite (edges_reach g HB v w x y Hv Hw). setoid_rewrite <- (scc_edges_ok g g' HB Ha i j v w Hi Hj).
  destruct (get_scc_rep_at g g' y w j Ha Hw Hj) as (d & r & Hd & Hr & Hrd).
  assert (Hio : i < length (sccs g')) by (destruct Hi as (c & Hc & _); by eapply lookup_lt_Some).
  assert (Hfuel : length [i] + pending g g' ∅ ≤ fuel) by (rewrite (pending_all g g' HB Ha) /=; lia).
  unfold can_reach. rewrite (an_run _ _ Ha) Hmx Hmy. cbn [assert expect rbind].
  destruct order as [m|]; cbn [rbind].
  - destruct (Ho m eq_refl) as (l & Hl & Hm).
    destruct (sort_sccs_ok g g' HB Ha 1 (le_n 1)) as (l' & Hl' & Hs). rewrite Hl in Hl'. injection Hl' as <-.
    assert (Hpos : ∀ k c z, sccs g' !! k = Some c → rep_name g c = Some z → m !! z = Some k).
    { intros k c z Hc Hz. apply Hm, (sorted_lookup g g' l k z Hs). by exists c. }
    rewrite Hr. cbn [rbind]. rewrite (Hpos j d r Hd Hrd). cbn [expect rbind].
    apply (reach_loop_ok g g' HB Ha i j (Some (m, j))); [|done|apply reach_start|done].
    intros ? ? [= <- <-]. done.
  - by apply (reach_loop_ok g g' HB Ha i j None); [|done|apply reach_start|done].
Qed.

(** [l] lists the nodes of a cycle from [x], and a shortest one. *)
Record cycle_through g x (l : list T) : Prop := {
  cy_head : l !! 0 = Some x;
  cy_step : ∀ i a b, l !! i = Some a → l !! S i = Some b → edge g a b;
  cy_back : ∃ y, last l = Some y ∧ edge g y x
}.
Definition shortest_cycle g x (l : list T) : Prop :=
  cycle_through g x l ∧ ∀ k, 0 < k → nsteps (edge g) k x x → length l ≤ k.

Lemma walk_cycle g root q u x l : base_ok (base g) → name_of (base g) root = Some x →
  map Some l = map (name_of (base g)) q → walk g root q u → succ (base g) u root → cycle_through g x l.
Proof.
  intros HB Hx Hl Hq Hu.
  assert (Hlook : ∀ k, Some <$> l !! k = name_of (base g) <$> q !! k).
  { intros k. rewrite -list_lookup_fmap -list_lookup_fmap. exact (f_equal (lookup k) Hl). }
  assert (Hat : ∀ k a, l !! k = Some a → ∃ v, q !! k = Some v ∧ name_of (base g) v = Some a).
  { intros k a Hk. pose proof (Hlook k) as H1. rewrite Hk in H1. destruct (q !! k) as [v|]; [|done].
    injection H1 as H1. by exists v. }
  split.
  - pose proof (Hlook 0) as H1. rewrite (walk_head g root q u Hq) /= Hx in H1.
    destruct (l !! 0); [by injection H1 as ->|done].
  - intros i a b Ha Hb. destruct (Hat i a Ha) as (v & Hv & Hva). destruct (Hat (S i) b Hb) as (w & Hw & Hwb).
    exists v, w. split_and!; [done|by apply (walk_step g root q u Hq i)|done].
  - destruct (name_total g u) as [y Hy].
    { destruct (decide (u < length (base g))) as [|Hn]; [done|]. unfold succ, edges_from in Hu.
      rewrite (proj2 (lookup_ge_None _ _)) in Hu; [lia|]. by apply not_elem_of_nil in Hu. }
    exists y. split; [|by exists u, root]. apply (f_equal length) in Hl. rewrite !length_map in Hl.
    rewrite last_lookup Hl. pose proof (Hlook (Nat.pred (length q))) as H1.
    rewrite -last_lookup (walk_last g root q u Hq) /= Hy in H1. destruct (l !! _); [by injection H1 as ->|done].
Qed.

Lemma shortest_cycle_ok g g' x fuel : graph_ok g → base_ok (base g) → analysed g g' → has_node g x →
  length (nodes g) < fuel →
  (tc (edge g) x x → ∃ l, shortest_cycle_back_to_self fuel g' x = Ok l ∧ shortest_cycle g x l)
  ∧ (¬ tc (edge g) x x → shortest_cycle_back_to_self fuel g' x = Panic).
Proof.
  intros Hg HB Ha Hx Hf. destruct (has_name g g' x Hg Ha Hx) as (v & _ & Hv & Hh & _).
  pose proof (name_of_lt _ _ _ Hv) as Hlt. unfold shortest_cycle_back_to_self. rewrite (an_run _ _ Ha) Hh.
  cbn [assert expect rbind]. rewrite (edges_tc g HB v v x x Hv Hv).
  destruct (cycle_loop_ok g g' HB Ha v Hlt fuel 0 [[v]] {[v]}) as [(q & u & Hq & Hw & Hu & Hmin)|[Hp Hn]].
  - by apply level_start.
  - rewrite /base length_map. lia.
  - destruct (names_of_path g g' Ha q (walk_range g HB v Hlt q u Hw)) as (l & Hl & Hm). rewrite Hq.
    split.
    + intros _. exists l. split; [done|]. split; [by apply (walk_cycle g v q u x l)|].
      intros k Hk Hc. apply (edges_nsteps g HB k v v x x Hv Hv) in Hc. destruct k as [|k]; [lia|].
      apply nsteps_inv_r in Hc as (w & Hw' & Hwv). pose proof (f_equal length Hm) as Hlen.
      rewrite !length_map in Hlen. rewrite Hlen. destruct (decide (length q ≤ S k)) as [|Hlt']; [done|].
      destruct (Hmin k w); [lia|done|done].
    + intros Hn. destruct Hn. eapply tc_rtc_l; [|by apply tc_once].
      clear -Hw. induction Hw as [|q u e _ IH Hue]; [done|]. by eapply rtc_r.
  - split; [done|by rewrite Hp].
Qed.
(** What [sort_sccs] returns. *)
Lemma sorted_spec g g' fuel : graph_ok g → base_ok (base g) → analysed g g' → 1 ≤ fuel →
  ∃ l, sort_sccs fuel g' = Ok l
    ∧ (∀ x, has_node g x → ∃ r k, get_scc_rep g' x = Ok r ∧ in_same_scc g' x r = Ok true
        ∧ ∀ k', l !! k' = Some r ↔ k' = k)
    ∧ (∀ r, r ∈ l → has_node g r ∧ get_scc_rep g' r = Ok r)
    ∧ (∀ x y rx ry i j, edge g x y → get_scc_rep g' x = Ok rx → get_scc_rep g' y = Ok ry →
        l !! i = Some rx → l !! j = Some ry → j ≤ i).
Proof.
  intros Hg HB Ha Hfuel. destruct (sort_sccs_ok g g' HB Ha fuel Hfuel) as (l & Hl & Hm). exists l.
  split_and!; [done| | |].
  - intros x Hx. destruct (has_name g g' x Hg Ha Hx) as (v & i & Hv & _ & Hi & _).
    destruct (get_scc_rep_at g g' x v i Ha Hv Hi) as (c & r & Hc & Hxr & Hcr). exists r, i.
    split_and!; [done| |intros k; by apply (sorted_position g g' l x v i k r)].
    destruct (rep_name_ok g g' Ha i c Hc) as (w & z & _ & _ & Hz & Hiw & Hzw).
    rewrite Hcr in Hz. injection Hz as <-.
    destruct (in_same_scc_ok g g' HB Ha v w x r Hv Hzw) as (b & Hb & Hb'). rewrite Hb. f_equal. apply Hb'.
    rewrite (edges_reach g HB v w x r Hv Hzw) (edges_reach g HB w v r x Hzw Hv).
    by apply (scc_mutual g g' Ha i v w Hi).
  - intros r [k Hk]%list_elem_of_lookup. apply (sorted_lookup g g' l k r Hm) in Hk as (c & Hc & Hcr).
    destruct (rep_name_ok g g' Ha k c Hc) as (w & z & _ & _ & Hz & Hkw & Hzw).
    rewrite Hcr in Hz. injection Hz as <-. split; [exists w; by apply (go_h _ Hg)|].
    destruct (get_scc_rep_at g g' r w k Ha Hzw Hkw) as (c' & r' & Hc' & -> & Hr'). congruence.
  - intros x y rx ry i j (v & w & Hv & Hvw & Hw) Hrx Hry Hi Hj.
    destruct (an_all _ _ Ha v (name_of_lt _ _ _ Hv)) as [a Hav].
    destruct (an_all _ _ Ha w (name_of_lt _ _ _ Hw)) as [b Hbw].
    apply (sorted_position g g' l x v a i rx HB Ha Hm Hv Hav Hrx) in Hi as ->.
    apply (sorted_position g g' l y w b j ry HB Ha Hm Hw Hbw Hry) in Hj as ->.
    by apply (scc_edge_down g g' Ha a b v w).
Qed.

(** What a user of the graph relies on after [compute_sccs]. *)
Record computed g g' : Prop := {
  cp_nodes x : has_node g x →
    ∃ l, get_scc_nodes g' x = Ok l ∧ ∀ y, y ∈ l ↔ has_node g y ∧ rtc (edge g) x y ∧ rtc (edge g) y x;
  cp_same x y : has_node g x → has_node g y →
    ∃ b, in_same_scc g' x y = Ok b ∧ (b = true ↔ rtc (edge g) x y ∧ rtc (edge g) y x);
  cp_sorted fuel : 1 ≤ fuel →
    ∃ l, sort_sccs fuel g' = Ok l
    ∧ (∀ x, has_node g x → ∃ r k, get_scc_rep g' x = Ok r ∧ in_same_scc g' x r = Ok true
        ∧ ∀ k', l !! k' = Some r ↔ k' = k)
    ∧ (∀ r, r ∈ l → has_node g r ∧ get_scc_rep g' r = Ok r)
    ∧ (∀ x y rx ry i j, edge g x y → get_scc_rep g' x = Ok rx → get_scc_rep g' y = Ok ry →
        l !! i = Some rx → l !! j = Some ry → j ≤ i);
  cp_cycle x : has_node g x → ∃ b, node_is_in_cycle g' x = Ok b ∧ (b = true ↔ tc (edge g) x x);
  cp_shortest x fuel : has_node g x → length (nodes g) < fuel →
    (tc (edge g) x x → ∃ l, shortest_cycle_back_to_self fuel g' x = Ok l ∧ shortest_cycle g x l)
    ∧ (¬ tc (edge g) x x → shortest_cycle_back_to_self fuel g' x = Panic);
  cp_fuel x fuel : length (nodes g) < fuel → shortest_cycle_back_to_self fuel g' x ≠ Err OutOfFuel
}.

Lemma ready_computed g fuel : ready g fuel → ∃ g', compute_sccs fuel g = Ok g' ∧ computed g g'.
Proof.
  intros Hr. destruct (ready_run g fuel Hr) as (g' & Hg' & HB & Ha). pose proof (rd_ok _ _ Hr) as Hg.
  exists g'. split; [done|]. split.
  - intros x Hx. destruct (get_scc_nodes_ok g g' x Hg HB Ha Hx) as (l & ? & _ & ?). by exists l.
  - intros x y Hx Hy. destruct (has_name g g' x Hg Ha Hx) as (v & _ & Hv & _).
    destruct (has_name g g' y Hg Ha Hy) as (w & _ & Hw & _). by apply (in_same_scc_ok g g' HB Ha v w).
  - intros fuel' Hf. by apply sorted_spec.
  - intros x Hx. by apply (in_cycle_ok g g' x Hg HB Ha).
  - intros x fuel' Hx Hf. by apply (shortest_cycle_ok g g' x fuel' Hg HB Ha).
  - intros x fuel' Hf. destruct (h g !! x) as [v|] eqn:Hx.
    + assert (Hn : has_node g x) by (by exists v). destruct (in_cycle_ok g g' x Hg HB Ha Hn) as (b & _ & Hb).
      destruct (shortest_cycle_ok g g' x fuel' Hg HB Ha Hn Hf) as [H1 H2]. destruct b.
      * destruct H1 as (l & -> & _); [by apply Hb|done].
      * rewrite H2; [|done]. intros Hc. by apply Hb in Hc.
    + unfold shortest_cycle_back_to_self. rewrite (an_run _ _ Ha) (an_h _ _ Ha) Hx. done.
Qed.

End queries.

(** ** The theorems *)

Section theorems.
Context {T : Type} `{Countable T}.
Implicit Types (g : Graph T) (x y : T).

(** Any sequence of the construction's operations succeeds, and builds a graph with the nodes and the edges
    that the same operations build on plain sets: [add_edge] adds its two nodes, and
    [add_directed_edge_if_nodes_exist] adds an edge only between nodes that are already there. *)
Theorem build_refines (ops : list (GraphOp T)) :
  ∃ g, build ops = Ok g ∧ graph_ok g
    ∧ (∀ x, has_node g x ↔ x ∈ (foldl spec_op (∅, ∅) ops).1)
    ∧ (∀ x y, edge g x y ↔ (x, y) ∈ (foldl spec_op (∅, ∅) ops).2).
Proof. destruct (build_ok ops) as (g & Hg & Hok & Hn & He). by exists g. Qed.

(** C35. Tarjan's algorithm returns, with a recursion no deeper than the number of nodes, and finds the strongly
    connected components: two nodes are in the same component when each reaches the other, and
    [get_scc_nodes] lists the component of a node without repetition. *)
Theorem compute_sccs_components fuel g : ready g fuel →
  ∃ g', compute_sccs fuel g = Ok g'
    ∧ ∀ x, has_node g x →
      (∃ l, get_scc_nodes g' x = Ok l ∧ NoDup l
        ∧ ∀ y, y ∈ l ↔ has_node g y ∧ rtc (edge g) x y ∧ rtc (edge g) y x)
      ∧ ∀ y, has_node g y → ∃ b, in_same_scc g' x y = Ok b
        ∧ (b = true ↔ rtc (edge g) x y ∧ rtc (edge g) y x).
Proof.
  intros Hr. destruct (ready_run g fuel Hr) as (g' & Hg' & HB & Ha). exists g'. split; [done|].
  intros x Hx. split; [by apply (get_scc_nodes_ok g g' x (rd_ok _ _ Hr) HB Ha)|]. intros y Hy.
  destruct (has_name g g' x (rd_ok _ _ Hr) Ha Hx) as (v & _ & Hv & _).
  destruct (has_name g g' y (rd_ok _ _ Hr) Ha Hy) as (w & _ & Hw & _).
  by apply (in_same_scc_ok g g' HB Ha v w).
Qed.

(** After [compute_sccs], a node is in a cycle, for [node_is_in_cycle], exactly when a path of at least one edge
    leads from the node back to it. *)
Theorem node_is_in_cycle_correct fuel g : ready g fuel →
  ∃ g', compute_sccs fuel g = Ok g'
    ∧ ∀ x, has_node g x → ∃ b, node_is_in_cycle g' x = Ok b ∧ (b = true ↔ tc (edge g) x x).
Proof.
  intros Hr. destruct (ready_run g fuel Hr) as (g' & Hg' & HB & Ha). exists g'. split; [done|].
  intros x Hx. by apply (in_cycle_ok g g' x (rd_ok _ _ Hr) HB Ha).
Qed.

(** C37. [sort_sccs] returns one representative for each component, in an order in which an edge never leads to a
    later component: later elements point only to earlier elements. *)
Theorem sort_sccs_topological fuel g : ready g fuel →
  ∃ g' l, compute_sccs fuel g = Ok g' ∧ sort_sccs 1 g' = Ok l
    ∧ (∀ x, has_node g x → ∃ r k, get_scc_rep g' x = Ok r ∧ in_same_scc g' x r = Ok true
        ∧ ∀ k', l !! k' = Some r ↔ k' = k)
    ∧ (∀ r, r ∈ l → has_node g r)
    ∧ (∀ x y rx ry i j, edge g x y → get_scc_rep g' x = Ok rx → get_scc_rep g' y = Ok ry →
        l !! i = Some rx → l !! j = Some ry → j ≤ i).
Proof.
  intros Hr. destruct (ready_run g fuel Hr) as (g' & Hg' & HB & Ha).
  destruct (sorted_spec g g' 1 (rd_ok _ _ Hr) HB Ha (le_n 1)) as (l & Hl & Hx & Hr' & Hs).
  exists g', l. split_and!; [done..| |done]. intros r H'. by apply Hr'.
Qed.

(** C36. [can_reach] returns after at most one step more than there are edges, and says whether a path of zero or
    more edges leads from the source to the target; with the positions of [sort_sccs] the search stops early at
    the components that precede the target's, and gives the same answer. *)
Theorem can_reach_correct fuel g : ready g fuel →
  ∃ g', compute_sccs fuel g = Ok g'
    ∧ ∀ x y order fuel', has_node g x → has_node g y → sorted_order_ok g' order → edge_count g < fuel' →
      ∃ b, can_reach fuel' g' x y order = Ok b ∧ (b = true ↔ rtc (edge g) x y).
Proof.
  intros Hr. destruct (ready_run g fuel Hr) as (g' & Hg' & HB & Ha). exists g'. split; [done|].
  intros x y order fuel' Hx Hy Ho Hf. by apply (can_reach_ok g g' x y order fuel' (rd_ok _ _ Hr) HB Ha).
Qed.

(** C38. [shortest_cycle_back_to_self] returns, for a node in a cycle, the nodes of a cycle from it of the least
    possible length, and panics for a node in no cycle; its search is never deeper than the number of nodes. *)
Theorem shortest_cycle_correct fuel g : ready g fuel →
  ∃ g', compute_sccs fuel g = Ok g'
    ∧ ∀ x fuel', has_node g x → length (nodes g) < fuel' →
      (tc (edge g) x x → ∃ l, shortest_cycle_back_to_self fuel' g' x = Ok l ∧ shortest_cycle g x l)
      ∧ (¬ tc (edge g) x x → shortest_cycle_back_to_self fuel' g' x = Panic).
Proof.
  intros Hr. destruct (ready_run g fuel Hr) as (g' & Hg' & HB & Ha). exists g'. split; [done|].
  intros x fuel' Hx Hf. by apply (shortest_cycle_ok g g' x fuel' (rd_ok _ _ Hr) HB Ha).
Qed.
End theorems.

(** ** A graph *)

(** A cycle of three nodes, a node with an edge to itself and one without. *)
Definition demo_ops : list (GraphOp nat) :=
  [AddEdge 10 11; AddEdge 11 12; AddEdge 12 10; AddEdge 12 13; AddEdge 13 13; AddNode 14;
   AddEdgeIfExist 14 15; AddEdgeIfExist 14 10].
Definition demo : Graph nat := match build demo_ops with Ok g => g | _ => new_graph end.
Definition demo_run : Graph nat := match compute_sccs 5 demo with Ok g => g | _ => new_graph end.

Lemma demo_ready : ready demo 5.
Proof.
  assert (Hl : length (nodes demo) = 5) by (vm_compute; reflexivity).
  split; [|rewrite Hl; vm_compute; reflexivity|rewrite Hl; apply le_n].
  destruct (build_ok demo_ops) as (g & Hg & Hok & _). unfold demo. rewrite Hg. exact Hok.
Qed.

Lemma demo_nodes x : bool_decide (x ∈ [10; 11; 12; 13; 14]) = true → has_node demo x.
Proof.
  intros Hx%bool_decide_eq_true. assert (Hall : Forall (λ x, is_Some (h demo !! x)) [10; 11; 12; 13; 14]).
  { repeat (apply Forall_cons; split; [vm_compute; eexists; reflexivity|]). apply Forall_nil, I. }
  rewrite Forall_forall in Hall. by apply Hall.
Qed.

Example demo_sorted : sort_sccs 1 demo_run = Ok [13; 12; 14].
Proof. vm_compute. reflexivity. Qed.
Example demo_cycle : shortest_cycle_back_to_self 6 demo_run 11 = Ok [11; 12; 10].
Proof. vm_compute. reflexivity. Qed.

Lemma demo_run_is g' : compute_sccs 5 demo = Ok g' → demo_run = g'.
Proof. unfold demo_run. by intros ->. Qed.
#[local] Opaque demo demo_run.

Lemma compute_sccs_components_witness :
  ∃ g', compute_sccs 5 demo = Ok g' ∧ in_same_scc g' 10 12 = Ok true ∧ in_same_scc g' 10 13 = Ok false
    ∧ rtc (edge demo) 10 12 ∧ rtc (edge demo) 12 10.
Proof.
  destruct (compute_sccs_components 5 demo demo_ready) as (g' & Hg' & Hx). exists g'.
  pose proof (demo_run_is g' Hg') as <-.
  assert (H1 : in_same_scc demo_run 10 12 = Ok true) by (vm_compute; reflexivity).
  destruct (Hx 10 (demo_nodes 10 eq_refl)) as [_ Hs].
  destruct (Hs 12 (demo_nodes 12 eq_refl)) as (b & Hb & Hb'). rewrite H1 in Hb. injection Hb as <-.
  split; [exact Hg'|]. split; [exact H1|]. split; [vm_compute; reflexivity|]. apply Hb'. reflexivity.
Defined.

Lemma node_is_in_cycle_correct_witness : ∃ g', compute_sccs 5 demo = Ok g'
  ∧ node_is_in_cycle g' 13 = Ok true ∧ node_is_in_cycle g' 14 = Ok false ∧ tc (edge demo) 13 13.
Proof.
  destruct (node_is_in_cycle_correct 5 demo demo_ready) as (g' & Hg' & Hx). exists g'.
  pose proof (demo_run_is g' Hg') as <-.
  assert (H1 : node_is_in_cycle demo_run 13 = Ok true) by (vm_compute; reflexivity).
  destruct (Hx 13 (demo_nodes 13 eq_refl)) as (b & Hb & Hb'). rewrite H1 in Hb. injection Hb as <-.
  split; [exact Hg'|]. split; [exact H1|]. split; [vm_compute; reflexivity|]. apply Hb'. reflexivity.
Defined.

Lemma sort_sccs_topological_witness : ∃ g' l, compute_sccs 5 demo = Ok g' ∧ sort_sccs 1 g' = Ok l ∧ l = [13; 12; 14].
Proof.
  destruct (sort_sccs_topological 5 demo demo_ready) as (g' & l & Hg' & Hl & _). exists g', l.
  split; [exact Hg'|]. split; [exact Hl|]. pose proof (demo_run_is g' Hg') as <-.
  rewrite demo_sorted in Hl. injection Hl as <-. reflexivity.
Defined.

Definition demo_order : gmap nat nat := list_to_map (zip [13; 12; 14] [0; 1; 2]).

Lemma can_reach_correct_witness : ∃ g', compute_sccs 5 demo = Ok g'
  ∧ can_reach 7 g' 10 13 (Some demo_order) = Ok true ∧ can_reach 7 g' 13 10 (Some demo_order) = Ok false
  ∧ rtc (edge demo) 10 13.
Proof.
  destruct (can_reach_correct 5 demo demo_ready) as (g' & Hg' & Hx). exists g'.
  pose proof (demo_run_is g' Hg') as <-.
  assert (Ho : sorted_order_ok demo_run (Some demo_order)).
  { intros m [= <-]. exists [13; 12; 14]. split; [exact demo_sorted|].
    intros [|[|[|i]]] r Hr; [injection Hr as <-; vm_compute; reflexivity..|discriminate]. }
  assert (Hf : edge_count demo < 7) by (apply Nat.ltb_lt; vm_compute; reflexivity).
  assert (H1 : can_reach 7 demo_run 10 13 (Some demo_order) = Ok true) by (vm_compute; reflexivity).
  destruct (Hx 10 13 _ 7 (demo_nodes 10 eq_refl) (demo_nodes 13 eq_refl) Ho Hf) as (b & Hb & Hb').
  rewrite H1 in Hb. injection Hb as <-.
  split; [exact Hg'|]. split; [exact H1|]. split; [vm_compute; reflexivity|]. apply Hb'. reflexivity.
Defined.

Lemma shortest_cycle_correct_witness : ∃ g', compute_sccs 5 demo = Ok g'
  ∧ shortest_cycle_back_to_self 6 g' 11 = Ok [11; 12; 10] ∧ shortest_cycle_back_to_self 6 g' 14 = Panic
  ∧ shortest_cycle demo 11 [11; 12; 10].
Proof.
  destruct (shortest_cycle_correct 5 demo demo_ready) as (g' & Hg' & Hx). exists g'.
  pose proof (demo_run_is g' Hg') as <-.
  destruct (ready_run demo 5 demo_ready) as (g1 & Hg1 & HB & Ha).
  destruct (Hx 11 6 (demo_nodes 11 eq_refl)) as [Hc _]; [apply Nat.ltb_lt; vm_compute; reflexivity|].
  destruct (in_cycle_ok demo g1 11 (rd_ok _ _ demo_ready) HB Ha (demo_nodes 11 eq_refl)) as (b & Hb & Hb').
  pose proof (demo_run_is g1 Hg1) as <-.
  assert (H1 : node_is_in_cycle demo_run 11 = Ok true) by (vm_compute; reflexivity).
  rewrite H1 in Hb. injection Hb as <-. destruct (Hc (proj1 Hb' eq_refl)) as (l & Hl & Hs).
  rewrite demo_cycle in Hl. injection Hl as <-.
  split; [exact Hg'|]. split; [exact demo_cycle|]. split; [vm_compute; reflexivity|exact Hs].
Defined.
