(* ===== verification/ClosureTerm.v ===== *)
(** * Shapes of closures (source/air/src/closure.rs)

    The terms with holes under which closures of the same shape are shared, and
    their use as keys of a map. *)

From S2P Require Import Prelude RustString Ast.
Set Warnings "-rewrite-rw,-register-all,-clear-no-such-hyp".

(** ** Data *)

Inductive App :=
| App_Apply (x : Ident)
| App_ApplyFun
| App_Unary (op : UnaryOp)
| App_Binary (op : BinaryOp)
| App_Multi (op : MultiOp)
| App_IfElse
| App_Let
| App_Quant (q : Quant) (typs : Typs) (trigger_shape : list nat)
| App_Trigger
| App_LabeledAssertion.

Inductive TermX :=
| TermX_Hole (n : nat)
| TermX_Var (depth index : nat)
| TermX_App (app : App) (ts : list TermX).
Definition Term := TermX.

Record ClosureTermX := mkClosureTerm {
  terms : list Term;
  params : Typs;
  hole_typs : Typs;
  cl_wrap : option Ident
}.
Definition ClosureTerm := ClosureTermX.

(** ** Terms as map keys

    Every type is coded as a tree with names and numbers at its leaves. *)

Abbreviation tree := (gen_tree (string + N)).
Abbreviation leaf_s x := (GenLeaf (inl x)).
Abbreviation leaf_n n := (GenLeaf (inr n)).

Definition enc_round (r : RoundingMode) : N :=
  match r with
  | RoundingMode_RNE => 0 | RoundingMode_RNA => 1 | RoundingMode_RTP => 2
  | RoundingMode_RTN => 3 | RoundingMode_RTZ => 4
  end.
Definition dec_round (n : N) : RoundingMode :=
  match n with
  | 0 => RoundingMode_RNE | 1 => RoundingMode_RNA | 2 => RoundingMode_RTP
  | 3 => RoundingMode_RTN | _ => RoundingMode_RTZ
  end%N.
Definition enc_relation (r : Relation) : N :=
  match r with
  | Relation_PartialOrder => 0 | Relation_LinearOrder => 1 | Relation_TreeOrder => 2
  | Relation_PiecewiseLinearOrder => 3
  end.
Definition dec_relation (n : N) : Relation :=
  match n with
  | 0 => Relation_PartialOrder | 1 => Relation_LinearOrder | 2 => Relation_TreeOrder
  | _ => Relation_PiecewiseLinearOrder
  end%N.

Ltac enc_tac :=
  match goal with t : _ |- _ => destruct t end;
  repeat match goal with
  | r : RoundingMode |- _ => destruct r
  | r : Relation |- _ => destruct r
  | b : bool |- _ => destruct b
  end; reflexivity.

Definition enc_typ (t : TypX) : tree :=
  match t with
  | TypX_Bool => GenNode 0 []
  | TypX_Int => GenNode 1 []
  | TypX_Real => GenNode 2 []
  | TypX_Fun => GenNode 3 []
  | TypX_Named x => GenNode 4 [leaf_s x]
  | TypX_BitVec bits => GenNode 5 [leaf_n bits]
  | TypX_Float exp_bits sig_bits => GenNode 6 [leaf_n exp_bits; leaf_n sig_bits]
  end.
Definition dec_typ (t : tree) : TypX :=
  match t with
  | GenNode 0 [] => TypX_Bool
  | GenNode 1 [] => TypX_Int
  | GenNode 2 [] => TypX_Real
  | GenNode 3 [] => TypX_Fun
  | GenNode 4 [GenLeaf (inl x)] => TypX_Named x
  | GenNode 5 [GenLeaf (inr bits)] => TypX_BitVec bits
  | GenNode 6 [GenLeaf (inr exp_bits); GenLeaf (inr sig_bits)] => TypX_Float exp_bits sig_bits
  | _ => TypX_Bool
  end.
Lemma dec_enc_typ t : dec_typ (enc_typ t) = t.
Proof. enc_tac. Qed.
#[global] Instance TypX_countable : Countable TypX := inj_countable' _ _ dec_enc_typ.

Definition enc_unary (t : UnaryOp) : tree :=
  match t with
  | UnaryOp_Not => GenNode 0 []
  | UnaryOp_BitNot => GenNode 1 []
  | UnaryOp_BitNeg => GenNode 2 []
  | UnaryOp_BitExtract high low => GenNode 3 [leaf_n high; leaf_n low]
  | UnaryOp_BitZeroExtend n => GenNode 4 [leaf_n n]
  | UnaryOp_BitSignExtend n => GenNode 5 [leaf_n n]
  | UnaryOp_FloatNeg => GenNode 6 []
  | UnaryOp_FloatRoundToInt r => GenNode 7 [leaf_n (enc_round r)]
  | UnaryOp_FloatIsNormal => GenNode 8 []
  | UnaryOp_FloatIsSubnormal => GenNode 9 []
  | UnaryOp_FloatIsZero => GenNode 10 []
  | UnaryOp_FloatIsInfinite => GenNode 11 []
  | UnaryOp_FloatIsNaN => GenNode 12 []
  | UnaryOp_FloatIsNegative => GenNode 13 []
  | UnaryOp_FloatIsPositive => GenNode 14 []
  | UnaryOp_FloatFromIeeeBits exp_bits sig_bits => GenNode 15 [leaf_n exp_bits; leaf_n sig_bits]
  | UnaryOp_FloatToIeeeBits => GenNode 16 []
  | UnaryOp_FloatFrom exp_bits sig_bits signed round => GenNode 17 [leaf_n exp_bits; leaf_n sig_bits; leaf_n (N.b2n signed); leaf_n (enc_round round)]
  | UnaryOp_FloatToBitVec bits signed round => GenNode 18 [leaf_n bits; leaf_n (N.b2n signed); leaf_n (enc_round round)]
  | UnaryOp_FloatToReal => GenNode 19 []
  | UnaryOp_ToReal => GenNode 20 []
  | UnaryOp_RealToInt => GenNode 21 []
  end.
Definition dec_unary (t : tree) : UnaryOp :=
  match t with
  | GenNode 0 [] => UnaryOp_Not
  | GenNode 1 [] => UnaryOp_BitNot
  | GenNode 2 [] => UnaryOp_BitNeg
  | GenNode 3 [GenLeaf (inr high); GenLeaf (inr low)] => UnaryOp_BitExtract high low
  | GenNode 4 [GenLeaf (inr n)] => UnaryOp_BitZeroExtend n
  | GenNode 5 [GenLeaf (inr n)] => UnaryOp_BitSignExtend n
  | GenNode 6 [] => UnaryOp_FloatNeg
  | GenNode 7 [GenLeaf (inr r)] => UnaryOp_FloatRoundToInt (dec_round r)
  | GenNode 8 [] => UnaryOp_FloatIsNormal
  | GenNode 9 [] => UnaryOp_FloatIsSubnormal
  | GenNode 10 [] => UnaryOp_FloatIsZero
  | GenNode 11 [] => UnaryOp_FloatIsInfinite
  | GenNode 12 [] => UnaryOp_FloatIsNaN
  | GenNode 13 [] => UnaryOp_FloatIsNegative
  | GenNode 14 [] => UnaryOp_FloatIsPositive
  | GenNode 15 [GenLeaf (inr exp_bits); GenLeaf (inr sig_bits)] => UnaryOp_FloatFromIeeeBits exp_bits sig_bits
  | GenNode 16 [] => UnaryOp_FloatToIeeeBits
  | GenNode 17 [GenLeaf (inr exp_bits); GenLeaf (inr sig_bits); GenLeaf (inr signed); GenLeaf (inr round)] => UnaryOp_FloatFrom exp_bits sig_bits (0 <? signed)%N (dec_round round)
  | GenNode 18 [GenLeaf (inr bits); GenLeaf (inr signed); GenLeaf (inr round)] => UnaryOp_FloatToBitVec bits (0 <? signed)%N (dec_round round)
  | GenNode 19 [] => UnaryOp_FloatToReal
  | GenNode 20 [] => UnaryOp_ToReal
  | GenNode 21 [] => UnaryOp_RealToInt
  | _ => UnaryOp_Not
  end.
Lemma dec_enc_unary t : dec_unary (enc_unary t) = t.
Proof. enc_tac. Qed.
#[global] Instance UnaryOp_countable : Countable UnaryOp := inj_countable' _ _ dec_enc_unary.

Definition enc_binary (t : BinaryOp) : tree :=
  match t with
  | BinaryOp_Implies => GenNode 0 []
  | BinaryOp_Eq => GenNode 1 []
  | BinaryOp_Le => GenNode 2 []
  | BinaryOp_Ge => GenNode 3 []
  | BinaryOp_Lt => GenNode 4 []
  | BinaryOp_Gt => GenNode 5 []
  | BinaryOp_EuclideanDiv => GenNode 6 []
  | BinaryOp_EuclideanMod => GenNode 7 []
  | BinaryOp_RealDiv => GenNode 8 []
  | BinaryOp_Relation r n => GenNode 9 [leaf_n (enc_relation r); leaf_n n]
  | BinaryOp_BitXor => GenNode 10 []
  | BinaryOp_BitAnd => GenNode 11 []
  | BinaryOp_BitOr => GenNode 12 []
  | BinaryOp_BitAdd => GenNode 13 []
  | BinaryOp_BitSub => GenNode 14 []
  | BinaryOp_BitMul => GenNode 15 []
  | BinaryOp_BitUDiv => GenNode 16 []
  | BinaryOp_BitURem => GenNode 17 []
  | BinaryOp_BitSDiv => GenNode 18 []
  | BinaryOp_BitSRem => GenNode 19 []
  | BinaryOp_BitULt => GenNode 20 []
  | BinaryOp_BitUGt => GenNode 21 []
  | BinaryOp_BitULe => GenNode 22 []
  | BinaryOp_BitUGe => GenNode 23 []
  | BinaryOp_BitSLt => GenNode 24 []
  | BinaryOp_BitSGt => GenNode 25 []
  | BinaryOp_BitSLe => GenNode 26 []
  | BinaryOp_BitSGe => GenNode 27 []
  | BinaryOp_AShr => GenNode 28 []
  | BinaryOp_LShr => GenNode 29 []
  | BinaryOp_Shl => GenNode 30 []
  | BinaryOp_BitConcat => GenNode 31 []
  | BinaryOp_FloatAdd r => GenNode 32 [leaf_n (enc_round r)]
  | BinaryOp_FloatSub r => GenNode 33 [leaf_n (enc_round r)]
  | BinaryOp_FloatMul r => GenNode 34 [leaf_n (enc_round r)]
  | BinaryOp_FloatDiv r => GenNode 35 [leaf_n (enc_round r)]
  | BinaryOp_FloatEq => GenNode 36 []
  | BinaryOp_FloatLt => GenNode 37 []
  | BinaryOp_FloatGt => GenNode 38 []
  | BinaryOp_FloatLe => GenNode 39 []
  | BinaryOp_FloatGe => GenNode 40 []
  | BinaryOp_FieldUpdate x => GenNode 41 [leaf_s x]
  end.
Definition dec_binary (t : tree) : BinaryOp :=
  match t with
  | GenNode 0 [] => BinaryOp_Implies
  | GenNode 1 [] => BinaryOp_Eq
  | GenNode 2 [] => BinaryOp_Le
  | GenNode 3 [] => BinaryOp_Ge
  | GenNode 4 [] => BinaryOp_Lt
  | GenNode 5 [] => BinaryOp_Gt
  | GenNode 6 [] => BinaryOp_EuclideanDiv
  | GenNode 7 [] => BinaryOp_EuclideanMod
  | GenNode 8 [] => BinaryOp_RealDiv
  | GenNode 9 [GenLeaf (inr r); GenLeaf (inr n)] => BinaryOp_Relation (dec_relation r) n
  | GenNode 10 [] => BinaryOp_BitXor
  | GenNode 11 [] => BinaryOp_BitAnd
  | GenNode 12 [] => BinaryOp_BitOr
  | GenNode 13 [] => BinaryOp_BitAdd
  | GenNode 14 [] => BinaryOp_BitSub
  | GenNode 15 [] => BinaryOp_BitMul
  | GenNode 16 [] => BinaryOp_BitUDiv
  | GenNode 17 [] => BinaryOp_BitURem
  | GenNode 18 [] => BinaryOp_BitSDiv
  | GenNode 19 [] => BinaryOp_BitSRem
  | GenNode 20 [] => BinaryOp_BitULt
  | GenNode 21 [] => BinaryOp_BitUGt
  | GenNode 22 [] => BinaryOp_BitULe
  | GenNode 23 [] => BinaryOp_BitUGe
  | GenNode 24 [] => BinaryOp_BitSLt
  | GenNode 25 [] => BinaryOp_BitSGt
  | GenNode 26 [] => BinaryOp_BitSLe
  | GenNode 27 [] => BinaryOp_BitSGe
  | GenNode 28 [] => BinaryOp_AShr
  | GenNode 29 [] => BinaryOp_LShr
  | GenNode 30 [] => BinaryOp_Shl
  | GenNode 31 [] => BinaryOp_BitConcat
  | GenNode 32 [GenLeaf (inr r)] => BinaryOp_FloatAdd (dec_round r)
  | GenNode 33 [GenLeaf (inr r)] => BinaryOp_FloatSub (dec_round r)
  | GenNode 34 [GenLeaf (inr r)] => BinaryOp_FloatMul (dec_round r)
  | GenNode 35 [GenLeaf (inr r)] => BinaryOp_FloatDiv (dec_round r)
  | GenNode 36 [] => BinaryOp_FloatEq
  | GenNode 37 [] => BinaryOp_FloatLt
  | GenNode 38 [] => BinaryOp_FloatGt
  | GenNode 39 [] => BinaryOp_FloatLe
  | GenNode 40 [] => BinaryOp_FloatGe
  | GenNode 41 [GenLeaf (inl x)] => BinaryOp_FieldUpdate x
  | _ => BinaryOp_Eq
  end.
Lemma dec_enc_binary t : dec_binary (enc_binary t) = t.
Proof. enc_tac. Qed.
#[global] Instance BinaryOp_countable : Countable BinaryOp := inj_countable' _ _ dec_enc_binary.

Definition enc_multi (t : MultiOp) : tree :=
  match t with
  | MultiOp_And => GenNode 0 []
  | MultiOp_Or => GenNode 1 []
  | MultiOp_Xor => GenNode 2 []
  | MultiOp_Add => GenNode 3 []
  | MultiOp_Sub => GenNode 4 []
  | MultiOp_Mul => GenNode 5 []
  | MultiOp_Distinct => GenNode 6 []
  | MultiOp_Float => GenNode 7 []
  end.
Definition dec_multi (t : tree) : MultiOp :=
  match t with
  | GenNode 0 [] => MultiOp_And
  | GenNode 1 [] => MultiOp_Or
  | GenNode 2 [] => MultiOp_Xor
  | GenNode 3 [] => MultiOp_Add
  | GenNode 4 [] => MultiOp_Sub
  | GenNode 5 [] => MultiOp_Mul
  | GenNode 6 [] => MultiOp_Distinct
  | GenNode 7 [] => MultiOp_Float
  | _ => MultiOp_And
  end.
Lemma dec_enc_multi t : dec_multi (enc_multi t) = t.
Proof. enc_tac. Qed.
#[global] Instance MultiOp_countable : Countable MultiOp := inj_countable' _ _ dec_enc_multi.
Definition dec_typs (ts : list tree) : Typs := map dec_typ ts.
Lemma dec_enc_typs ts : dec_typs (map enc_typ ts) = ts.
Proof. unfold dec_typs. induction ts as [|t ts IH]; simpl; [done|]. by rewrite dec_enc_typ IH. Qed.

Definition enc_shape (l : list nat) : list tree := map (λ n, leaf_n (N.of_nat n)) l.
Definition dec_shape (ts : list tree) : list nat :=
  map (λ t, match t with leaf_n n => N.to_nat n | _ => 0 end) ts.
Lemma dec_enc_shape l : dec_shape (enc_shape l) = l.
Proof. unfold dec_shape, enc_shape. induction l as [|n l IH]; simpl; [done|]. by rewrite Nat2N.id IH. Qed.

Definition enc_quant (q : Quant) : N := match q with Quant_Forall => 0 | Quant_Exists => 1 end.
Definition dec_quant (n : N) : Quant := match n with 0%N => Quant_Forall | _ => Quant_Exists end.

Definition enc_app (a : App) : tree :=
  match a with
  | App_Apply x => GenNode 0 [leaf_s x]
  | App_ApplyFun => GenNode 1 []
  | App_Unary op => GenNode 2 [enc_unary op]
  | App_Binary op => GenNode 3 [enc_binary op]
  | App_Multi op => GenNode 4 [enc_multi op]
  | App_IfElse => GenNode 5 []
  | App_Let => GenNode 6 []
  | App_Quant q ts sh =>
    GenNode 7 [leaf_n (enc_quant q); GenNode 0 (map enc_typ ts); GenNode 0 (enc_shape sh)]
  | App_Trigger => GenNode 8 []
  | App_LabeledAssertion => GenNode 9 []
  end.
Definition dec_app (t : tree) : App :=
  match t with
  | GenNode 0 [leaf_s x] => App_Apply x
  | GenNode 1 _ => App_ApplyFun
  | GenNode 2 [t] => App_Unary (dec_unary t)
  | GenNode 3 [t] => App_Binary (dec_binary t)
  | GenNode 4 [t] => App_Multi (dec_multi t)
  | GenNode 5 _ => App_IfElse
  | GenNode 6 _ => App_Let
  | GenNode 7 [leaf_n q; GenNode _ ts; GenNode _ sh] => App_Quant (dec_quant q) (dec_typs ts) (dec_shape sh)
  | GenNode 8 _ => App_Trigger
  | _ => App_LabeledAssertion
  end.
Lemma dec_enc_app a : dec_app (enc_app a) = a.
Proof.
  destruct a as [x| |op|op|op| | |q ts sh| |]; cbn [enc_app dec_app]; try done.
  - by rewrite dec_enc_unary.
  - by rewrite dec_enc_binary.
  - by rewrite dec_enc_multi.
  - by rewrite dec_enc_typs dec_enc_shape; destruct q.
Qed.

Fixpoint enc_term (t : TermX) : tree :=
  match t with
  | TermX_Hole n => GenNode 0 [leaf_n (N.of_nat n)]
  | TermX_Var d i => GenNode 1 [leaf_n (N.of_nat d); leaf_n (N.of_nat i)]
  | TermX_App a ts => GenNode 2 (enc_app a :: map enc_term ts)
  end.
Fixpoint dec_term (t : tree) : TermX :=
  match t with
  | GenNode 0 [leaf_n n] => TermX_Hole (N.to_nat n)
  | GenNode 1 [leaf_n d; leaf_n i] => TermX_Var (N.to_nat d) (N.to_nat i)
  | GenNode _ (a :: ts) => TermX_App (dec_app a) (map dec_term ts)
  | _ => TermX_Hole 0
  end.
Lemma dec_enc_term : ∀ t, dec_term (enc_term t) = t.
Proof.
  fix IH 1. intros [n|d i|a ts]; cbn [enc_term dec_term].
  - by rewrite Nat2N.id.
  - by rewrite !Nat2N.id.
  - rewrite dec_enc_app. f_equal. revert ts. fix IHs 1. intros [|t ts]; cbn [map]; [done|].
    f_equal; [apply IH|apply IHs].
Qed.

Definition enc_closure (c : ClosureTermX) : tree :=
  GenNode 0 [GenNode 0 (map enc_term (terms c)); GenNode 0 (map enc_typ (params c));
    GenNode 0 (map enc_typ (hole_typs c)); GenNode 0 match cl_wrap c with Some x => [leaf_s x] | None => [] end].
Definition dec_closure (t : tree) : ClosureTermX :=
  match t with
  | GenNode _ [GenNode _ ts; GenNode _ ps; GenNode _ hs; GenNode _ w] =>
    mkClosureTerm (map dec_term ts) (dec_typs ps) (dec_typs hs)
      match w with [leaf_s x] => Some x | _ => None end
  | _ => mkClosureTerm [] [] [] None
  end.
Lemma dec_enc_closure c : dec_closure (enc_closure c) = c.
Proof.
  destruct c as [ts ps hs w]. cbn [enc_closure dec_closure terms params hole_typs cl_wrap].
  rewrite !dec_enc_typs. f_equal; [|by destruct w].
  induction ts as [|t ts IH]; simpl; [done|]. by rewrite dec_enc_term IH.
Qed.

#[global] Instance ClosureTermX_eq_dec : EqDecision ClosureTermX.
Proof.
  intros c d. destruct (decide (enc_closure c = enc_closure d)) as [He|He].
  - left. rewrite -(dec_enc_closure c) -(dec_enc_closure d). by rewrite He.
  - right. by intros ->.
Defined.
#[global] Instance ClosureTermX_countable : Countable ClosureTermX := inj_countable' _ _ dec_enc_closure.
