(* ===== verification/Closure.v ===== *)
(** * Closures to first-order functions (source/air/src/closure.rs)

    [simplify_expr] replaces lambda, choose, arrays and applications of function
    values by applications of generated functions.  Inside a closure it also
    computes the closure's shape, the term with holes under which the generated
    function is shared.

    The state is the part of the [Context] that the module uses, with the stack
    of the closures being simplified.  A closure inside another is simplified a
    second time after it has become an application; the recursion is on fuel, and
    [ClosureFacts] gives the fuel that suffices.  The counters are [u64] in the
    code and are not expected to reach [2^64]. *)

From S2P Require Import Prelude StateRes RustString Ast AstUtil ClosureTerm Typecheck.
From S2P Require ScopeMap.
Set Warnings "-rewrite-rw,-register-all,-clear-no-such-hyp".
Local Open Scope res_scope.

(** def.rs *)
Definition ARRAY := "%%array%%".
Definition LAMBDA := "%%lambda%%".
Definition CHOOSE := "%%choose%%".
Definition HOLE := "%%hole%%".
Definition APPLY := "%%apply%%".
Definition TEMP := "%%x%%".
Definition ARRAY_QID := "__AIR_ARRAY_QID__".

(** ** State *)

Record ClosureState := mkClosureState {
  typing_depth : nat;
  holes : list (Ident * Typ * Expr)
}.

(** The calls [on_lambda_decl] and [on_choose_decl] of the observer. *)
Inductive ClosureEvent :=
| OnLambdaDecl (name : Ident) (binders : Binders Typ) (body : Expr)
| OnChooseDecl (name : Ident) (binders : Binders Typ) (triggers : Triggers) (cond body : Expr).

(** The fields of [Context]; the observer as the calls it was given. *)
Record Closures := mkClosures {
  typing : Typing;
  array_map : ScopeMap.ScopeMap ClosureTerm Ident;
  array_count : N;
  lambda_map : ScopeMap.ScopeMap ClosureTerm Ident;
  lambda_count : N;
  choose_map : ScopeMap.ScopeMap ClosureTerm Ident;
  choose_count : N;
  apply_map : ScopeMap.ScopeMap (Typs * Typ) Ident;
  apply_count : N;
  closure_events : list ClosureEvent
}.

(** [State] of the module, with the context. *)
Record ClState := mkClState {
  ctxt : Closures;
  generated_decls : list Decl;
  closure_states : list ClosureState
}.

Definition cm : Type → Type := sm ClState.
Local Open Scope cm_scope.

Definition set_ctxt (s : ClState) (c : Closures) : ClState :=
  mkClState c (generated_decls s) (closure_states s).
Definition set_typing (c : Closures) (t : Typing) : Closures :=
  mkClosures t (array_map c) (array_count c) (lambda_map c) (lambda_count c) (choose_map c)
    (choose_count c) (apply_map c) (apply_count c) (closure_events c).

Definition push_decl (d : Decl) : cm unit := λ s,
  Ok (tt, mkClState (ctxt s) (generated_decls s ++ [d]) (closure_states s)).

(** ** Typing scopes *)

Definition update_decls (f : ScopeMap.ScopeMap Ident DeclaredX → res Empty_set (ScopeMap.ScopeMap Ident DeclaredX))
    : cm unit := λ s,
  let t := typing (ctxt s) in
  let? d := lift_res (f (decls t)) in
  Ok (tt, set_ctxt s (set_typing (ctxt s) (set_decls t d))).

Definition push_decl_scope : cm unit := update_decls (λ d, Ok (ScopeMap.push_scope d true)).
Definition pop_decl_scope : cm unit := update_decls ScopeMap.pop_scope.
(** [let _ = ctxt.typing.insert(..)] *)
Definition insert_var (x : Ident) (typ : Typ) : cm unit :=
  update_decls (λ d, let? (_, d') := ScopeMap.insert_sm d x (DeclaredX_Var typ false) in Ok d').
Definition insert_binders (binders : Binders Typ) : cm unit :=
  cmap (λ b, insert_var (bname b) (ba b)) binders ;* cret tt.

Definition insert_fun_typing (x : Ident) (typs : Typs) (typ : Typ) : cm unit := λ s,
  let n := ScopeMap.num_scopes (apply_map (ctxt s)) in
  if (n =? 0)%nat then Panic
  else
    update_decls (λ d,
      let? (ok, d') := ScopeMap.insert_at d (n - 1) x (DeclaredX_Fun typs typ false) in
      if (ok : bool) then Ok d' else Panic) s.

(** ** Maps from shapes to generated functions *)

Definition get_typed (x : Ident) : cm (option DeclaredX) := λ s, Ok (get (typing (ctxt s)) x, s).

Definition mk_apply (param_typs : Typs) (ret_typ : Typ) : cm Ident := λ s,
  let c := ctxt s in
  match ScopeMap.get (apply_map c) (param_typs, ret_typ) with
  | Some name => Ok (name, s)
  | None =>
    let name := APPLY +:+ N_to_string (apply_count c) in
    let? (ok, m) := lift_res (ScopeMap.insert_sm (apply_map c) (param_typs, ret_typ) name) in
    if negb ok then Panic
    else
      let s := set_ctxt s (mkClosures (typing c) (array_map c) (array_count c) (lambda_map c)
                 (lambda_count c) (choose_map c) (choose_count c) m (apply_count c + 1) (closure_events c)) in
      (push_decl (DeclX_Fun name (TypX_Named FUNCTION :: param_typs) ret_typ) ;*
       insert_fun_typing name param_typs ret_typ ;*
       cret name) s
  end.

(** Which of the three maps a closure goes to. *)
Inductive ClosureKind := KArray | KLambda | KChoose.

Definition kind_map (k : ClosureKind) (c : Closures) : ScopeMap.ScopeMap ClosureTerm Ident :=
  match k with KArray => array_map c | KLambda => lambda_map c | KChoose => choose_map c end.
Definition kind_name (k : ClosureKind) (c : Closures) : Ident :=
  match k with
  | KArray => ARRAY +:+ N_to_string (array_count c)
  | KLambda => LAMBDA +:+ N_to_string (lambda_count c)
  | KChoose => CHOOSE +:+ N_to_string (choose_count c)
  end.
Definition kind_set (k : ClosureKind) (m : ScopeMap.ScopeMap ClosureTerm Ident) (c : Closures) : Closures :=
  match k with
  | KArray => mkClosures (typing c) m (array_count c + 1) (lambda_map c) (lambda_count c) (choose_map c)
                (choose_count c) (apply_map c) (apply_count c) (closure_events c)
  | KLambda => mkClosures (typing c) (array_map c) (array_count c) m (lambda_count c + 1) (choose_map c)
                (choose_count c) (apply_map c) (apply_count c) (closure_events c)
  | KChoose => mkClosures (typing c) (array_map c) (array_count c) (lambda_map c) (lambda_count c) m
                (choose_count c + 1) (apply_map c) (apply_count c) (closure_events c)
  end.

(** [let _ = ctxt.lambda_map.insert(closure, closure_fun)] with the new name, and its kin. *)
Definition new_closure_fun (k : ClosureKind) (closure : ClosureTerm) : cm Ident := λ s,
  let name := kind_name k (ctxt s) in
  let? (_, m) := lift_res (ScopeMap.insert_sm (kind_map k (ctxt s)) closure name) in
  Ok (name, set_ctxt s (kind_set k m (ctxt s))).

Definition observe (e : ClosureEvent) : cm unit := λ s,
  let c := ctxt s in
  Ok (tt, set_ctxt s (mkClosures (typing c) (array_map c) (array_count c) (lambda_map c)
    (lambda_count c) (choose_map c) (choose_count c) (apply_map c) (apply_count c) (closure_events c ++ [e]))).

(** ** Holes *)

Definition num_decl_scopes : cm nat := λ s, Ok (ScopeMap.num_scopes (decls (typing (ctxt s))), s).
Definition push_closure (depth : nat) : cm unit := λ s,
  Ok (tt, mkClState (ctxt s) (generated_decls s) (closure_states s ++ [mkClosureState depth []])).
Definition pop_closure : cm ClosureState := λ s,
  let? cs := expect (last (closure_states s)) in
  Ok (cs, mkClState (ctxt s) (generated_decls s) (removelast (closure_states s))).

(** On [state.closure_states.last_mut().unwrap()]. *)
Definition enclose_force_hole (typ : Typ) (expr : Expr) (term : option Term) : cm (Expr * Term) := λ s,
  match term with
  | Some t => Ok ((expr, t), s)
  | None =>
    let? cs := expect (last (closure_states s)) in
    let n := length (holes cs) in
    let x := HOLE +:+ N_to_string (N.of_nat n) in
    let cs := mkClosureState (typing_depth cs) (holes cs ++ [(x, typ, expr)]) in
    Ok ((ExprX_Var x, TermX_Hole n),
        mkClState (ctxt s) (generated_decls s) (removelast (closure_states s) ++ [cs]))
  end.

Definition SimplifiedExpr := (Typ * Expr * option Term)%type.

Definition enclose (app : App) (exprs : list Expr) (terms : list (Typ * option Term))
    : cm (list Expr * option Term) := λ s,
  match last (closure_states s) with
  | Some _ =>
    if existsb (λ p, bool_decide (is_Some p.2)) terms then
      (let* ets := cmap (λ '(e, (typ, t)), enclose_force_hole typ e t) (zip exprs terms) in
       cret (map fst ets, Some (TermX_App app (map snd ets)))) s
    else Ok ((exprs, None), s)
  | None => Ok ((exprs, None), s)
  end.

Definition simplify_var (x : Ident) : cm (Typ * option Term) := λ s,
  match get (typing (ctxt s)) x with
  | Some (DeclaredX_Var typ _) =>
    match last (closure_states s) with
    | Some cs =>
      let? (depth, index) := expect (ScopeMap.scope_and_index_of_key (decls (typing (ctxt s))) x) in
      Ok ((typ, if (typing_depth cs <=? depth)%nat then Some (TermX_Var (depth - typing_depth cs) index)
                else None), s)
    | None => Ok ((typ, None), s)
    end
  | _ => Panic
  end.

Definition hole_binder (h : Ident * Typ * Expr) : BinderX Typ := mkBinder h.1.1 h.1.2.
Definition hole_var (h : Ident * Typ * Expr) : Expr := ExprX_Var h.1.1.

(** ** Types of operators *)

Section types.
Context (oc : bool).

Definition unary_typ (op : UnaryOp) (t0 : Typ) : res fuel_error Typ :=
  match op with
  | UnaryOp_Not => Ok TypX_Bool
  | UnaryOp_BitExtract high lo =>
    let? h := u32_add oc high 1 in let? w := u32_sub oc h lo in Ok (TypX_BitVec w)
  | UnaryOp_BitNot | UnaryOp_BitNeg => Ok t0
  | UnaryOp_BitZeroExtend w | UnaryOp_BitSignExtend w =>
    match t0 with
    | TypX_BitVec n => let? w := u32_add oc n w in Ok (TypX_BitVec w)
    | _ => Panic
    end
  | UnaryOp_FloatNeg | UnaryOp_FloatRoundToInt _ => Ok t0
  | UnaryOp_FloatIsNormal | UnaryOp_FloatIsSubnormal | UnaryOp_FloatIsZero | UnaryOp_FloatIsInfinite
  | UnaryOp_FloatIsNaN | UnaryOp_FloatIsNegative | UnaryOp_FloatIsPositive => Ok TypX_Bool
  | UnaryOp_FloatFromIeeeBits exp_bits sig_bits => Ok (TypX_Float exp_bits sig_bits)
  | UnaryOp_FloatFrom exp_bits sig_bits _ _ => Ok (TypX_Float exp_bits sig_bits)
  | UnaryOp_FloatToBitVec bits _ _ => Ok (TypX_BitVec bits)
  | UnaryOp_FloatToIeeeBits =>
    match t0 with
    | TypX_Float exp_bits sig_bits => let? w := u32_add oc exp_bits sig_bits in Ok (TypX_BitVec w)
    | _ => Panic
    end
  | UnaryOp_FloatToReal | UnaryOp_ToReal => Ok TypX_Real
  | UnaryOp_RealToInt => Ok TypX_Int
  end.

Definition binary_typ (op : BinaryOp) (t0 t1 : Typ) : res fuel_error Typ :=
  match op with
  | BinaryOp_Implies | BinaryOp_Eq | BinaryOp_Relation _ _ => Ok TypX_Bool
  | BinaryOp_Le | BinaryOp_Ge | BinaryOp_Lt | BinaryOp_Gt => Ok TypX_Bool
  | BinaryOp_EuclideanDiv | BinaryOp_EuclideanMod => Ok TypX_Int
  | BinaryOp_RealDiv => Ok TypX_Real
  | BinaryOp_BitUGt | BinaryOp_BitULt | BinaryOp_BitUGe | BinaryOp_BitULe
  | BinaryOp_BitSGt | BinaryOp_BitSLt | BinaryOp_BitSGe | BinaryOp_BitSLe => Ok TypX_Bool
  | BinaryOp_FloatEq | BinaryOp_FloatLt | BinaryOp_FloatGt | BinaryOp_FloatLe | BinaryOp_FloatGe => Ok TypX_Bool
  | BinaryOp_BitXor | BinaryOp_BitAnd | BinaryOp_BitOr | BinaryOp_BitAdd | BinaryOp_BitSub
  | BinaryOp_BitMul | BinaryOp_BitUDiv | BinaryOp_BitSDiv | BinaryOp_BitSRem | BinaryOp_LShr
  | BinaryOp_AShr | BinaryOp_Shl | BinaryOp_BitURem | BinaryOp_FloatAdd _ | BinaryOp_FloatSub _
  | BinaryOp_FloatMul _ | BinaryOp_FloatDiv _ => if typ_eq t0 t1 then Ok t0 else Panic
  | BinaryOp_BitConcat =>
    match t0, t1 with
    | TypX_BitVec n1, TypX_BitVec n2 => let? w := u32_add oc n1 n2 in Ok (TypX_BitVec w)
    | _, _ => Panic
    end
  | BinaryOp_FieldUpdate _ => Ok t0
  end.

Definition multi_typ (op : MultiOp) (ts : list Typ) : res fuel_error Typ :=
  match op with
  | MultiOp_And | MultiOp_Or | MultiOp_Xor => Ok TypX_Bool
  | MultiOp_Add | MultiOp_Sub | MultiOp_Mul => Ok (default TypX_Int (head ts))
  | MultiOp_Distinct => Ok TypX_Bool
  | MultiOp_Float =>
    match ts with
    | TypX_BitVec w :: TypX_BitVec exp_bits :: TypX_BitVec sig1_bits :: _ =>
      if (w =? 1)%N then let? s := u32_add oc sig1_bits 1 in Ok (TypX_Float exp_bits s) else Panic
    | _ => Panic
    end
  end.
End types.

Definition const_typ (c : Constant) : Typ :=
  match c with
  | Constant_Bool _ => TypX_Bool
  | Constant_Nat _ => TypX_Int
  | Constant_Real _ => TypX_Real
  | Constant_BitVec _ width => TypX_BitVec width
  end.

(** [es[0]], [es[1]], ... *)
Definition nth_expr (es : list Expr) (i : nat) : cm Expr := λ s, let? e := expect (es !! i) in Ok (e, s).

(** Rebuilding the triggers from the first elements of [es]; the rest is left. *)
Fixpoint take_triggers (triggers : Triggers) (es : list Expr) : Triggers * list Expr :=
  match triggers with
  | [] => ([], es)
  | t :: ts =>
    let '(ts', rest) := take_triggers ts (drop (length t) es) in (take (length t) es :: ts', rest)
  end.

(** ** The simplifier *)

Section simplify.
Context (oc : bool) (simplify_expr : Expr → cm SimplifiedExpr).

Definition simplify_exprs (exprs : list Expr) : cm (list Expr * list (Typ * option Term)) :=
  let* rs := cmap simplify_expr exprs in
  cret (map (λ r, r.1.2) rs, map (λ r, (r.1.1, r.2)) rs).

(** [simplify_expr] and [enclose_force_hole] on one part of a closure. *)
Definition simplify_part (e : Expr) : cm (Typ * Expr * Term) :=
  let* (typ, e, t) := simplify_expr e in
  let* (e, t) := enclose_force_hole typ e t in
  cret (typ, e, t).

Definition simplify_triggers (triggers : Triggers) : cm (Triggers * list Term) :=
  let* rs := cmap (λ trigger, cmap simplify_part trigger) triggers in
  cret (map (map (λ r, r.1.2)) rs, map (λ r, TermX_App App_Trigger (map snd r)) rs).

Definition simplify_closure_app (typ : Typ) (app : Expr) : cm SimplifiedExpr := λ s,
  if (length (closure_states s) =? 0)%nat then Ok ((typ, app, None), s) else simplify_expr app s.

(** The function for [closure], with its declarations made by [declare] when it is new. *)
Definition closure_fun_for (k : ClosureKind) (closure : ClosureTerm) (declare : Ident → cm unit) : cm Ident := λ s,
  match ScopeMap.get (kind_map k (ctxt s)) closure with
  | Some closure_fun => Ok (closure_fun, s)
  | None => (let* closure_fun := new_closure_fun k closure in declare closure_fun ;* cret closure_fun) s
  end.

(** [apply(f(captures), i) == ei] *)
Definition array_conjunct (apply_fun : Ident) (i : nat) (e : Expr) : Expr :=
  let expr_i := ExprX_Const (Constant_Nat (N_to_string (N.of_nat i))) in
  ExprX_Binary BinaryOp_Eq (ExprX_Apply apply_fun [ExprX_Var TEMP; expr_i]) e.

Definition declare_array (hs : list (Ident * Typ * Expr)) (typs : list Typ) (es : list Expr)
    (closure_fun : Ident) : cm unit :=
  let hole_ts := map (λ h, h.1.2) hs in
  push_decl (DeclX_Fun closure_fun hole_ts TypX_Fun) ;*
  insert_fun_typing closure_fun hole_ts TypX_Fun ;*
  let call := ExprX_Apply closure_fun (map hole_var hs) in
  let* conjuncts :=
    match typs with
    | [] => cret []
    | t0 :: _ =>
      let* apply_fun := mk_apply [TypX_Int] t0 in
      cret (map (λ '(i, e), array_conjunct apply_fun i e) (zip (seq 0 (length es)) es))
    end in
  let let_and := ExprX_Bind (BindX_Let [ident_binder TEMP call]) (mk_and conjuncts) in
  push_decl (mk_unnamed_axiom (mk_forall (map hole_binder hs) [[call]] (Some ARRAY_QID) let_and)).

Definition simplify_array (exprs : list Expr) : cm SimplifiedExpr :=
  let* depth := num_decl_scopes in
  push_closure depth ;*
  let* parts := cmap simplify_part exprs in
  let* cs := pop_closure in
  let es := map (λ p, p.1.2) parts in
  let closure := mkClosureTerm (map snd parts) [] (map (λ h, h.1.2) (holes cs)) None in
  let* closure_fun := closure_fun_for KArray closure (declare_array (holes cs) (map (λ p, p.1.1) parts) es) in
  simplify_closure_app TypX_Fun (ExprX_Apply closure_fun (map snd (holes cs))).

Definition wrap_call (wrap_ : option (WrapLambda Expr)) (id : WrapLambda Expr → Expr) (call : Expr) : Expr :=
  match wrap_ with Some w => ident_apply (wrap w) [id w; call] | None => call end.

Definition declare_lambda (binders : Binders Typ) (qid : Qid) (wrap_ : option (WrapLambda Expr))
    (hs : list (Ident * Typ * Expr)) (cond : Expr) (typ_body : Typ) (body : Expr)
    (new_triggers : Triggers) (closure_fun : Ident) : cm unit :=
  let hole_ts := map (λ h, h.1.2) hs in
  observe (OnLambdaDecl closure_fun binders body) ;*
  push_decl (DeclX_Fun closure_fun hole_ts TypX_Fun) ;*
  insert_fun_typing closure_fun hole_ts TypX_Fun ;*
  let* wrap_bs :=
    match wrap_ with
    | Some w => let* (typ, _, _) := simplify_expr (wrap_id w) in cret [ident_binder TEMP typ]
    | None => cret []
    end in
  let bs := wrap_bs ++ map hole_binder hs ++ binders in
  let call := wrap_call wrap_ (λ _, ExprX_Var TEMP) (ExprX_Apply closure_fun (map hole_var hs)) in
  let* apply_fun := mk_apply (map ba binders) typ_body in
  let app := ExprX_Apply apply_fun (call :: map (λ b, ExprX_Var (bname b)) binders) in
  let eq := ExprX_Binary BinaryOp_Eq app body in
  push_decl (mk_unnamed_axiom (mk_forall bs ([app] :: new_triggers) qid (mk_implies cond eq))).

Definition simplify_lambda (binders : Binders Typ) (triggers : Triggers) (qid : Qid)
    (wrap_ : option (WrapLambda Expr)) (cond : option Expr) (body : Expr) : cm SimplifiedExpr :=
  let* depth := num_decl_scopes in
  push_decl_scope ;*
  insert_binders binders ;*
  push_closure depth ;*
  let* (cond, cond_terms) :=
     match cond with
     | None => cret (mk_true, [])
     | Some cond => let* (_, cond, t) := simplify_part cond in cret (cond, [t])
     end in
  let* (typ_body, body, t_body) := simplify_part body in
  let* (new_triggers, trigger_terms) := simplify_triggers triggers in
  let* cs := pop_closure in
  pop_decl_scope ;*
  let closure := mkClosureTerm (cond_terms ++ t_body :: trigger_terms) (map ba binders)
                    (map (λ h, h.1.2) (holes cs)) (wrap <$> wrap_) in
  let* closure_fun := closure_fun_for KLambda closure
     (declare_lambda binders qid wrap_ (holes cs) cond typ_body body new_triggers) in
  let app := wrap_call wrap_ wrap_id (ExprX_Apply closure_fun (map snd (holes cs))) in
  simplify_closure_app TypX_Fun app.

Definition declare_choose (binders : Binders Typ) (triggers : Triggers) (qid : Qid)
    (hs : list (Ident * Typ * Expr)) (cond : Expr) (typ_body : Typ) (body : Expr)
    (new_triggers : Triggers) (closure_fun : Ident) : cm unit :=
  let hole_ts := map (λ h, h.1.2) hs in
  observe (OnChooseDecl closure_fun binders triggers cond body) ;*
  push_decl (DeclX_Fun closure_fun hole_ts typ_body) ;*
  insert_fun_typing closure_fun hole_ts typ_body ;*
  let call := ExprX_Apply closure_fun (map hole_var hs) in
  let both := mk_and [cond; mk_eq call body] in
  let existsbind1 := ExprX_Bind (BindX_Quant Quant_Exists binders new_triggers qid) cond in
  let existsbind2 := ExprX_Bind (BindX_Quant Quant_Exists binders new_triggers None) both in
  let imply := ExprX_Binary BinaryOp_Implies existsbind1 existsbind2 in
  push_decl (mk_unnamed_axiom (mk_forall (map hole_binder hs) [[call]] None imply)).

Definition simplify_choose (binders : Binders Typ) (triggers : Triggers) (qid : Qid) (cond body : Expr)
    : cm SimplifiedExpr :=
  let* depth := num_decl_scopes in
  push_decl_scope ;*
  insert_binders binders ;*
  push_closure depth ;*
  let* (typ_cond, cond, t_cond) := simplify_expr cond in
  let* (typ_body, body, t_body) := simplify_expr body in
  let* (cond, t_cond) := enclose_force_hole typ_cond cond t_cond in
  let* (body, t_body) := enclose_force_hole typ_body body t_body in
  let* (new_triggers, trigger_terms) := simplify_triggers triggers in
  let* cs := pop_closure in
  pop_decl_scope ;*
  let closure := mkClosureTerm (t_cond :: t_body :: trigger_terms) (map ba binders)
                    (map (λ h, h.1.2) (holes cs)) None in
  let* closure_fun := closure_fun_for KChoose closure
     (declare_choose binders triggers qid (holes cs) cond typ_body body new_triggers) in
  simplify_closure_app typ_body (ExprX_Apply closure_fun (map snd (holes cs))).

Definition simplify_let (binders : Binders Expr) (e1 : Expr) : cm SimplifiedExpr :=
  let* rs := cmap (λ b, simplify_expr (ba b)) binders in
  push_decl_scope ;*
  cmap (λ '(b, r), insert_var (bname b) r.1.1) (zip binders rs) ;*
  let* (typ1, e1, t1) := simplify_expr e1 in
  pop_decl_scope ;*
  let* (es, t) := enclose App_Let (map (λ r, r.1.2) rs ++ [e1])
                    (map (λ r, (r.1.1, r.2)) rs ++ [(typ1, t1)]) in
  let bs := map (λ '(b, e), mkBinder (bname b) e) (zip binders es) in
  let* e1 := (λ s, let? e := expect (last es) in Ok (e, s)) in
  cret (typ1, ExprX_Bind (BindX_Let bs) e1, t).

Definition simplify_quant (quant : Quant) (binders : Binders Typ) (triggers : Triggers) (qid : Qid) (e1 : Expr)
    : cm SimplifiedExpr :=
  push_decl_scope ;*
  insert_binders binders ;*
  let* (es, ts) := simplify_exprs (concat triggers ++ [e1]) in
  let* (es, t) := enclose (App_Quant quant (map ba binders) (map (@length Expr) triggers)) es ts in
  pop_decl_scope ;*
  let '(new_triggers, rest) := take_triggers triggers es in
  let* e1 := nth_expr rest 0 in
  cret (TypX_Bool, ExprX_Bind (BindX_Quant quant binders new_triggers qid) e1, t).

(** The arms of [simplify_expr]. *)
Definition simplify_arm (expr : Expr) : cm SimplifiedExpr :=
  match expr with
  | ExprX_Const c => cret (const_typ c, expr, None)
  | ExprX_Var x | ExprX_Old _ x => let* (typ, term) := simplify_var x in cret (typ, expr, term)
  | ExprX_Apply x args =>
    let* d := get_typed x in
    match d with
    | Some (DeclaredX_Fun _ ret _) =>
      let* (es, ts) := simplify_exprs args in
      let* (es, t) := enclose (App_Apply x) es ts in
      cret (ret, ExprX_Apply x es, t)
    | _ => cpanic
    end
  | ExprX_ApplyFun typ e0 args =>
    let* (es, ts) := simplify_exprs (e0 :: args) in
    let* (es, t) := enclose App_ApplyFun es ts in
    let* apply_fun := mk_apply (map fst (tail ts)) typ in
    cret (typ, ExprX_Apply apply_fun es, t)
  | ExprX_Unary op e1 =>
    let* (es, ts) := simplify_exprs [e1] in
    let* typ := clift (let? t0 := expect (ts !! 0) in unary_typ oc op t0.1) in
    let* (es, t) := enclose (App_Unary op) es ts in
    let* e1 := nth_expr es 0 in
    cret (typ, ExprX_Unary op e1, t)
  | ExprX_Binary op e1 e2 =>
    let* (es, ts) := simplify_exprs [e1; e2] in
    let* typ := clift (let? t0 := expect (ts !! 0) in let? t1 := expect (ts !! 1) in
                       binary_typ oc op t0.1 t1.1) in
    let* (es, t) := enclose (App_Binary op) es ts in
    let* e1 := nth_expr es 0 in
    let* e2 := nth_expr es 1 in
    cret (typ, ExprX_Binary op e1 e2, t)
  | ExprX_Multi op es =>
    let* (es, ts) := simplify_exprs es in
    let* typ := clift (multi_typ oc op (map fst ts)) in
    let* (es, t) := enclose (App_Multi op) es ts in
    cret (typ, ExprX_Multi op es, t)
  | ExprX_IfElse e0 e1 e2 =>
    let* (es, ts) := simplify_exprs [e0; e1; e2] in
    let* typ := clift (let? t1 := expect (ts !! 1) in Ok t1.1) in
    let* (es, t) := enclose App_IfElse es ts in
    let* e0 := nth_expr es 0 in
    let* e1 := nth_expr es 1 in
    let* e2 := nth_expr es 2 in
    cret (typ, ExprX_IfElse e0 e1 e2, t)
  | ExprX_Array exprs => simplify_array exprs
  | ExprX_Bind bind e1 =>
    match bind with
    | BindX_Let binders => simplify_let binders e1
    | BindX_Quant quant binders triggers qid => simplify_quant quant binders triggers qid e1
    | BindX_Lambda binders triggers qid wrap_ cond => simplify_lambda binders triggers qid wrap_ cond e1
    | BindX_Choose binders triggers qid cond => simplify_choose binders triggers qid cond e1
    end
  | ExprX_LabeledAssertion assert_id l filter e1 =>
    let* (es, ts) := simplify_exprs [e1] in
    let* typ := clift (let? t0 := expect (ts !! 0) in Ok t0.1) in
    let* (es, t) := enclose App_LabeledAssertion es ts in
    let* e1 := nth_expr es 0 in
    cret (typ, ExprX_LabeledAssertion assert_id l filter e1, t)
  | ExprX_LabeledAxiom l filter e1 =>
    let* (es, ts) := simplify_exprs [e1] in
    let* typ := clift (let? t0 := expect (ts !! 0) in Ok t0.1) in
    let* (es, t) := enclose App_LabeledAssertion es ts in
    let* e1 := nth_expr es 0 in
    cret (typ, ExprX_LabeledAxiom l filter e1, t)
  end.
End simplify.

Fixpoint simplify_expr (oc : bool) (fuel : nat) (expr : Expr) : cm SimplifiedExpr :=
  match fuel with
  | O => λ _, Err OutOfFuel
  | S fuel' => simplify_arm oc (simplify_expr oc fuel') expr
  end.

Fixpoint simplify_stmt_rec (oc : bool) (fuel : nat) (stmt : Stmt) : cm Stmt :=
  match stmt with
  | StmtX_Assume expr => let* (_, expr, _) := simplify_expr oc fuel expr in cret (StmtX_Assume expr)
  | StmtX_Assert assert_id span filter expr =>
    let* (_, expr, _) := simplify_expr oc fuel expr in cret (StmtX_Assert assert_id span filter expr)
  | StmtX_Havoc _ => cret stmt
  | StmtX_Assign x expr => let* (_, expr, _) := simplify_expr oc fuel expr in cret (StmtX_Assign x expr)
  | StmtX_Snapshot _ => cret stmt
  | StmtX_DeadEnd stmt => let* stmt := simplify_stmt_rec oc fuel stmt in cret (StmtX_DeadEnd stmt)
  | StmtX_Breakable x stmt => let* stmt := simplify_stmt_rec oc fuel stmt in cret (StmtX_Breakable x stmt)
  | StmtX_Break _ => cret stmt
  | StmtX_Block stmts => let* ss := cmap (simplify_stmt_rec oc fuel) stmts in cret (StmtX_Block ss)
  | StmtX_Switch stmts => let* ss := cmap (simplify_stmt_rec oc fuel) stmts in cret (StmtX_Switch ss)
  end.

(** [State::new()] and the use of its declarations at the end. *)
Definition run_closures {A} (m : cm A) (c : Closures) : res fuel_error (list Decl * A * Closures) :=
  let? (x, s) := m (mkClState c [] []) in Ok (generated_decls s, x, ctxt s).

Definition simplify_stmt (oc : bool) (fuel : nat) (c : Closures) (stmt : Stmt)
    : res fuel_error (list Decl * Stmt * Closures) :=
  run_closures (simplify_stmt_rec oc fuel stmt) c.

Definition simplify_decl (oc : bool) (fuel : nat) (c : Closures) (decl : Decl)
    : res fuel_error (list Decl * Decl * Closures) :=
  if negb (ScopeMap.num_scopes (apply_map c) =? ScopeMap.num_scopes (decls (typing c)))%nat then Panic
  else
    run_closures
      match decl with
      | DeclX_Axiom ax =>
        let* (_, expr, _) := simplify_expr oc fuel (expr ax) in cret (DeclX_Axiom (mkAxiom (named ax) expr))
      | _ => cret decl
      end c.
