(* ===== verification/ClosureFacts.v ===== *)
(** * Closures are eliminated

    The fuel that suffices for [simplify_expr], and what it returns: expressions
    and declarations without closures. *)

From S2P Require Import Prelude StateRes RustString Ast AstUtil ClosureTerm Typecheck Closure.
From S2P Require ScopeMap.
Set Warnings "-rewrite-rw,-register-all,-clear-no-such-hyp".
Local Open Scope res_scope.
Local Open Scope cm_scope.

(** ** Sub-expressions *)

Definition children (e : Expr) : list Expr :=
  match e with
  | ExprX_Const _ | ExprX_Var _ | ExprX_Old _ _ => []
  | ExprX_Apply _ es | ExprX_Multi _ es | ExprX_Array es => es
  | ExprX_ApplyFun _ e0 es => e0 :: es
  | ExprX_Unary _ e1 => [e1]
  | ExprX_Binary _ e1 e2 => [e1; e2]
  | ExprX_IfElse e1 e2 e3 => [e1; e2; e3]
  | ExprX_Bind b e1 => e1 :: bind_exprs b
  | ExprX_LabeledAxiom _ _ e1 | ExprX_LabeledAssertion _ _ _ e1 => [e1]
  end.

(** The greatest sum of [k] along a branch. *)
Section height.
Context (k : Expr → nat).
Fixpoint height (e : Expr) : nat :=
  let all := map height in
  k e + max_list
    match e with
    | ExprX_Const _ | ExprX_Var _ | ExprX_Old _ _ => []
    | ExprX_Apply _ es | ExprX_Multi _ es | ExprX_Array es => all es
    | ExprX_ApplyFun _ e0 es => height e0 :: all es
    | ExprX_Unary _ e1 => [height e1]
    | ExprX_Binary _ e1 e2 => [height e1; height e2]
    | ExprX_IfElse e1 e2 e3 => [height e1; height e2; height e3]
    | ExprX_Bind b e1 =>
      height e1 ::
      match b with
      | BindX_Let bs => map (λ b, height (ba b)) bs
      | BindX_Quant _ _ ts _ => concat (map all ts)
      | BindX_Lambda _ ts _ w cond =>
        concat (map all ts) ++ match w with Some w => [height (wrap_id w)] | None => [] end
        ++ match cond with Some c => [height c] | None => [] end
      | BindX_Choose _ ts _ cond => concat (map all ts) ++ [height cond]
      end
    | ExprX_LabeledAxiom _ _ e1 | ExprX_LabeledAssertion _ _ _ e1 => [height e1]
    end.
End height.

(** [p] holds of every node. *)
Section all_nodes.
Context (p : Expr → bool).
Fixpoint all_nodes (e : Expr) : bool :=
  let all := forallb all_nodes in
  p e &&
    match e with
    | ExprX_Const _ | ExprX_Var _ | ExprX_Old _ _ => true
    | ExprX_Apply _ es | ExprX_Multi _ es | ExprX_Array es => all es
    | ExprX_ApplyFun _ e0 es => all_nodes e0 && all es
    | ExprX_Unary _ e1 => all_nodes e1
    | ExprX_Binary _ e1 e2 => all_nodes e1 && all_nodes e2
    | ExprX_IfElse e1 e2 e3 => all_nodes e1 && all_nodes e2 && all_nodes e3
    | ExprX_Bind b e1 =>
      all_nodes e1 &&
      match b with
      | BindX_Let bs => forallb (λ b, all_nodes (ba b)) bs
      | BindX_Quant _ _ ts _ => forallb all ts
      | BindX_Lambda _ ts _ w cond =>
        forallb all ts && match w with Some w => all_nodes (wrap_id w) | None => true end
        && match cond with Some c => all_nodes c | None => true end
      | BindX_Choose _ ts _ cond => forallb all ts && all_nodes cond
      end
    | ExprX_LabeledAxiom _ _ e1 | ExprX_LabeledAssertion _ _ _ e1 => all_nodes e1
    end.
End all_nodes.

Lemma height_children k e : height k e = k e + max_list (map (height k) (children e)).
Proof.
  destruct e as [c|x|s x|x es|t e0 es|op e|op e1 e2|op es|e1 e2 e3|es|b e|ls f e|i m f e]; try done.
  destruct b as [bs|q bs ts qid|bs ts qid w cond|bs ts qid cond];
    cbn [height children bind_exprs map]; do 3 f_equal; rewrite ?map_app ?concat_map ?map_map //.
  by destruct w, cond.
Qed.

Lemma all_nodes_children p e : all_nodes p e = p e && forallb (all_nodes p) (children e).
Proof.
  destruct e as [c|x|s x|x es|t e0 es|op e|op e1 e2|op es|e1 e2 e3|es|b e|ls f e|i m f e];
    cbn [all_nodes children forallb]; rewrite ?andb_true_r ?andb_assoc //.
  destruct b as [bs|q bs ts qid|bs ts qid w cond|bs ts qid cond]; cbn [bind_exprs]; f_equal.
  - induction bs as [|b bs IH]; simpl; [done|]. by rewrite IH.
  - induction ts as [|t ts IH]; simpl; [done|]. by rewrite forallb_app IH.
  - assert (Ht : forallb (forallb (all_nodes p)) ts = forallb (all_nodes p) (concat ts)).
    { induction ts as [|t ts IH]; simpl; [done|]. by rewrite forallb_app IH. }
    rewrite !forallb_app Ht. destruct w, cond; simpl; by rewrite ?andb_true_r ?andb_assoc.
  - assert (Ht : forallb (forallb (all_nodes p)) ts = forallb (all_nodes p) (concat ts)).
    { induction ts as [|t ts IH]; simpl; [done|]. by rewrite forallb_app IH. }
    rewrite forallb_app Ht /=. by rewrite ?andb_true_r.
Qed.

(** ** First-order expressions *)

Definition is_closure (e : Expr) : bool :=
  match e with
  | ExprX_Array _ | ExprX_Bind (BindX_Lambda _ _ _ _ _) _ | ExprX_Bind (BindX_Choose _ _ _ _) _ => true
  | _ => false
  end.
Definition is_higher (e : Expr) : bool :=
  is_closure e || match e with ExprX_ApplyFun _ _ _ => true | _ => false end.

Definition first_order : Expr → bool := all_nodes (λ e, negb (is_higher e)).
(** The identifier of a wrapper is left as it is; it must have no closure. *)
Definition wraps_simple : Expr → bool := all_nodes (λ e,
  match e with
  | ExprX_Bind (BindX_Lambda _ _ _ (Some w) _) _ => first_order (wrap_id w)
  | _ => true
  end).

Definition depth : Expr → nat := height (λ _, 1).
(** A closure is simplified, and the application that replaces it again. *)
Definition weight : Expr → nat := height (λ e, if is_closure e then 3 else 1).

(** [e] has no closure and is at most [d] deep. *)
Definition good (d : nat) (e : Expr) : Prop := first_order e = true ∧ depth e ≤ d.

Lemma good_le d d' e : d ≤ d' → good d e → good d' e.
Proof. intros Hd [H1 H2]. split; [done|lia]. Qed.

Lemma max_list_bound l d : max_list l ≤ d ↔ Forall (λ n, n ≤ d) l.
Proof.
  induction l as [|n l IH]; simpl; [split; [by constructor|lia]|]. rewrite Forall_cons -IH. lia.
Qed.

Lemma good_children d e : is_higher e = false → Forall (good d) (children e) → good (S d) e.
Proof.
  intros He Hc. split.
  - unfold first_order. rewrite all_nodes_children He /=. apply forallb_true_iff.
    eapply Forall_impl; [exact Hc|]. by intros x [Hx _].
  - unfold depth. rewrite height_children. assert (max_list (map depth (children e)) ≤ d); [|unfold depth in *; lia].
    apply max_list_bound, Forall_map. eapply Forall_impl; [exact Hc|]. by intros x [_ Hx].
Qed.

Lemma first_order_children e : first_order e = true ↔ is_higher e = false ∧ Forall (λ x, first_order x = true) (children e).
Proof.
  unfold first_order. rewrite all_nodes_children andb_true_iff forallb_true_iff negb_true_iff. done.
Qed.

Lemma depth_pos e : 1 ≤ depth e.
Proof. unfold depth. rewrite height_children. lia. Qed.

Lemma good_depth e : first_order e = true → Forall (good (depth e - 1)) (children e) ∧ is_higher e = false.
Proof.
  intros [He Hc]%first_order_children. split; [|done].
  assert (Hd : Forall (λ x, depth x ≤ depth e - 1) (children e)).
  { apply (Forall_map depth (λ n, n ≤ depth e - 1)), max_list_bound. rewrite /depth (height_children _ e). lia. }
  eapply Forall_impl2; [exact Hc|exact Hd|]. by split.
Qed.

(** ** What a step adds to the state *)

Definition decl_first_order (d : Decl) : Prop :=
  match d with DeclX_Axiom ax => first_order (expr ax) = true | _ => True end.

(** Holes are only added to the innermost closure. *)
Definition holes_ext (d : nat) (l l' : list ClosureState) : Prop :=
  (l = [] ∧ l' = []) ∨
  ∃ init td hs hs', l = init ++ [mkClosureState td hs] ∧ l' = init ++ [mkClosureState td (hs ++ hs')]
    ∧ Forall (λ h, good d h.2) hs'.

Record ext (d : nat) (s s' : ClState) : Prop := {
  ex_decls : ∃ ds, generated_decls s' = generated_decls s ++ ds ∧ Forall decl_first_order ds;
  ex_holes : holes_ext d (closure_states s) (closure_states s')
}.

Lemma holes_ext_refl d l : holes_ext d l l.
Proof.
  destruct l as [|[td hs] l _] using rev_ind; [by left|]. right. exists l, td, hs, [].
  by rewrite app_nil_r.
Qed.

Lemma holes_ext_trans d l1 l2 l3 : holes_ext d l1 l2 → holes_ext d l2 l3 → holes_ext d l1 l3.
Proof.
  intros [[-> ->]|(i & td & hs & h1 & -> & -> & H1)] [[Hl ->]|(i' & td' & hs' & h2 & Hl & -> & H2)].
  - by left.
  - by apply app_cons_not_nil in Hl.
  - by destruct i.
  - apply app_inj_tail in Hl as [-> [= <- <-]]. right. exists i', td, hs, (h1 ++ h2).
    rewrite -app_assoc. split_and!; [done..|]. by apply Forall_app.
Qed.

Lemma holes_ext_le d d' l l' : d ≤ d' → holes_ext d l l' → holes_ext d' l l'.
Proof.
  intros Hd [?|(i & td & hs & h & ? & ? & Hh)]; [by left|]. right. exists i, td, hs, h.
  split_and!; [done..|]. eapply Forall_impl; [exact Hh|]. intros x. by apply good_le.
Qed.

Lemma ext_refl d s : ext d s s.
Proof. split; [exists []; by rewrite app_nil_r|apply holes_ext_refl]. Qed.

Lemma ext_trans d s1 s2 s3 : ext d s1 s2 → ext d s2 s3 → ext d s1 s3.
Proof.
  intros [(d1 & G1 & H1) E1] [(d2 & G2 & H2) E2]. split; [|by eapply holes_ext_trans].
  exists (d1 ++ d2). rewrite G2 G1 app_assoc. split; [done|by apply Forall_app].
Qed.

Lemma ext_le d d' s s' : d ≤ d' → ext d s s' → ext d' s s'.
Proof. intros Hd [H1 H2]. split; [done|by eapply holes_ext_le]. Qed.

(** A step that changes the context only. *)
Lemma ext_quiet d s s' : generated_decls s' = generated_decls s → closure_states s' = closure_states s → ext d s s'.
Proof. intros Hg Hc. split; rewrite ?Hg ?Hc; [exists []; by rewrite app_nil_r|apply holes_ext_refl]. Qed.

Lemma wpm_update_decls f d s : wpm (update_decls f) s (λ _ s', ext d s s').
Proof.
  unfold wpm, update_decls. destruct (f _) as [x| |]; simpl; [by apply ext_quiet|done..].
Qed.

Lemma wpm_push_decl dc d s : decl_first_order dc → wpm (push_decl dc) s (λ _ s', ext d s s').
Proof. intros Hd. split; simpl; [|apply holes_ext_refl]. exists [dc]. split; [done|]. by repeat constructor. Qed.

Lemma wpm_insert_fun_typing x ts t d s : wpm (insert_fun_typing x ts t) s (λ _ s', ext d s s').
Proof. unfold wpm, insert_fun_typing. destruct (_ =? _)%nat; [done|]. apply wpm_update_decls. Qed.

Lemma wpm_cmap_quiet {A B} (f : A → cm B) l d s : (∀ x s, wpm (f x) s (λ _ s', ext d s s')) →
  wpm (cmap f l) s (λ _ s', ext d s s').
Proof.
  intros Hf. revert s. induction l as [|x l IH]; intros s; [apply ext_refl|]. cbn [cmap].
  apply wpm_bind. eapply wpm_mono; [apply Hf|]. intros y s1 H1.
  apply wpm_bind. eapply wpm_mono; [apply IH|]. intros ys s2 H2.
  exact (ext_trans _ _ _ _ H1 H2).
Qed.

Lemma wpm_insert_binders bs d s : wpm (insert_binders bs) s (λ _ s', ext d s s').
Proof.
  apply wpm_bind. eapply wpm_mono; [|intros a s' H1; exact H1].
  apply wpm_cmap_quiet. intros b s1. apply wpm_update_decls.
Qed.

Lemma wpm_mk_apply ts t d s : wpm (mk_apply ts t) s (λ _ s', ext d s s').
Proof.
  unfold wpm, mk_apply. destruct (ScopeMap.get _ _) as [x|]; [apply ext_refl|].
  destruct (lift_res _) as [[ok m]|e|] eqn:Hl; simpl; [|by destruct (ScopeMap.insert_sm _ _ _)|done].
  destruct ok; [|done]. simpl. apply wpm_bind. eapply wpm_mono; [by apply (wpm_push_decl _ d)|].
  intros u1 s1 H1. apply wpm_bind. eapply wpm_mono; [apply (wpm_insert_fun_typing _ _ _ d)|].
  intros u2 s2 H2. refine (ext_trans _ _ _ _ _ (ext_trans _ _ _ _ H1 H2)). by apply ext_quiet.
Qed.

Lemma wpm_observe e d s : wpm (observe e) s (λ _ s', ext d s s').
Proof. by apply ext_quiet. Qed.

Lemma wpm_new_closure_fun k c d s : wpm (new_closure_fun k c) s (λ _ s', ext d s s').
Proof.
  unfold wpm, new_closure_fun. destruct (lift_res _) as [[ok m]|e|] eqn:Hl; simpl; [by apply ext_quiet| |done].
  by destruct (ScopeMap.insert_sm _ _ _).
Qed.

(** ** Holes *)

Lemma good_var d x : 1 ≤ d → good d (ExprX_Var x).
Proof. done. Qed.

Lemma wpm_force_hole t e tm d s : good d e →
  wpm (enclose_force_hole t e tm) s (λ r s', good d r.1 ∧ ext d s s').
Proof.
  intros He. assert (1 ≤ d) by (pose proof (depth_pos e); destruct He; lia).
  unfold wpm, enclose_force_hole. destruct tm as [tm|]; [split; [done|apply ext_refl]|].
  destruct (closure_states s) as [|[td hs] l _] eqn:Hl using rev_ind; [done|].
  rewrite last_snoc removelast_app // app_nil_r. split; [done|]. split; simpl.
  - exists []. by rewrite app_nil_r.
  - rewrite Hl. right. exists l, td, hs, [(HOLE +:+ N_to_string (N.of_nat (length hs)), t, e)].
    split_and!; [done..|]. by apply Forall_singleton.
Qed.

(** The results of [simplify_expr] on a list. *)
Definition goods (d : nat) (s : ClState) (n : nat) (es : list Expr) (s' : ClState) : Prop :=
  length es = n ∧ Forall (good d) es ∧ ext d s s'.

Lemma wpm_cmap {A B} (f : A → cm B) (e : B → Expr) l d s :
  Forall (λ x, ∀ s, wpm (f x) s (λ r s', good d (e r) ∧ ext d s s')) l →
  wpm (cmap f l) s (λ rs s', length rs = length l ∧ Forall (λ r, good d (e r)) rs ∧ ext d s s').
Proof.
  intros Hl. revert s. induction Hl as [|x l Hx _ IH]; intros s.
  { apply wpm_ret. split_and!; [done|constructor|apply ext_refl]. }
  apply wpm_bind. eapply wpm_mono; [apply Hx|]. intros r s1 [Hr H1].
  apply wpm_bind. eapply wpm_mono; [apply IH|]. intros rs s2 (Hn & Hrs & H2).
  apply wpm_ret. split_and!; [by simpl; f_equal|by constructor|by apply (ext_trans _ _ _ _ H1 H2)].
Qed.

Lemma wpm_enclose app es ts d s : Forall (good d) es → length ts = length es →
  wpm (enclose app es ts) s (λ r s', goods d s (length es) r.1 s').
Proof.
  intros Hes Hlen. unfold wpm, enclose.
  assert (Hid : goods d s (length es) es s) by (split_and!; [done..|apply ext_refl]).
  destruct (last _); [|done]. destruct (existsb _ _); [|done].
  apply wpm_bind. eapply wpm_mono.
  - apply (wpm_cmap _ fst _ d s). apply Forall_forall. intros [e [t tm]] Hin s1.
    apply wpm_force_hole. apply elem_of_zip_l in Hin. rewrite Forall_forall in Hes. by apply Hes.
  - intros ets s' (Hn & Hg & He). apply wpm_ret. split_and!; [|by apply Forall_map|done].
    simpl. rewrite length_map Hn length_zip. lia.
Qed.

(** ** The arms that are not closures *)

Section arms.
Context (oc : bool).
Implicit Types (f : Expr → cm SimplifiedExpr).

Definition simp_ok (d : nat) f (e : Expr) : Prop :=
  ∀ s, wpm (f e) s (λ r s', good d r.1.2 ∧ ext d s s').

Lemma simp_ok_le d d' f e : d ≤ d' → simp_ok d f e → simp_ok d' f e.
Proof.
  intros Hd He s. eapply wpm_mono; [apply He|]. intros r s' [H1 H2].
  split; [by eapply good_le|by eapply ext_le].
Qed.

Lemma wpm_exprs d f l k s (Q : SimplifiedExpr → ClState → Prop) : Forall (simp_ok d f) l →
  (∀ es ts s1, goods d s (length l) es s1 → length ts = length l → wpm (k es ts) s1 Q) →
  wpm (let* (es, ts) := simplify_exprs f l in k es ts) s Q.
Proof.
  intros Hl Hk. apply wpm_bind. apply wpm_bind. eapply wpm_mono; [by apply (wpm_cmap f (λ r, r.1.2) l d)|].
  intros rs s1 (Hn & Hg & He). apply wpm_ret. apply Hk; [|by rewrite length_map].
  split_and!; [by rewrite length_map|by apply Forall_map|done].
Qed.

Lemma wpm_enclose_then d app n es ts k s0 s (Q : SimplifiedExpr → ClState → Prop) :
  goods d s0 n es s → length ts = n →
  (∀ es' t s', goods d s0 n es' s' → wpm (k es' t) s' Q) →
  wpm (let* (es, t) := enclose app es ts in k es t) s Q.
Proof.
  intros (Hn & Hg & He) Hts Hk. apply wpm_bind. eapply wpm_mono; [apply (wpm_enclose _ _ _ d); [done|by rewrite Hts]|].
  intros [es' t] s' (Hn' & Hg' & He'). apply Hk. split_and!; [by rewrite Hn'|done|].
  exact (ext_trans _ _ _ _ He He').
Qed.

Lemma wpm_nth es i e k s (Q : SimplifiedExpr → ClState → Prop) : es !! i = Some e → wpm (k e) s Q →
  wpm (let* e := nth_expr es i in k e) s Q.
Proof. intros Hi Hk. unfold nth_expr, wpm, cbind. rewrite Hi. exact Hk. Qed.

Lemma u32_add_not_err a b (e : fuel_error) : u32_add oc a b ≠ Err e.
Proof. unfold u32_add, uint_add. by repeat case_match. Qed.
Lemma u32_sub_not_err a b (e : fuel_error) : u32_sub oc a b ≠ Err e.
Proof. unfold u32_sub, uint_sub. by repeat case_match. Qed.

Lemma rbind_not_err {A B} (r : res fuel_error A) (k : A → res fuel_error B) e :
  (∀ e, r ≠ Err e) → (∀ x, k x ≠ Err e) → rbind r k ≠ Err e.
Proof. intros Hr Hk. destruct r as [x|e'|]; simpl; [apply Hk|by destruct (Hr e')|done]. Qed.

Ltac not_err :=
  repeat first
    [ done
    | apply rbind_not_err; [intros ?|intros ?]
    | apply u32_add_not_err | apply u32_sub_not_err | case_match ].

Lemma unary_typ_not_err op t e : unary_typ oc op t ≠ Err e.
Proof. destruct op; cbn [unary_typ]; not_err. Qed.
Lemma binary_typ_not_err op t0 t1 e : binary_typ oc op t0 t1 ≠ Err e.
Proof. destruct op; cbn [binary_typ]; not_err. Qed.
Lemma multi_typ_not_err op ts e : multi_typ oc op ts ≠ Err e.
Proof. destruct op; cbn [multi_typ]; not_err. Qed.
Lemma expect_not_err {A} (o : option A) (e : fuel_error) : expect o ≠ Err e.
Proof. by destruct o. Qed.

Lemma wpm_typ (r : res fuel_error Typ) k s (Q : SimplifiedExpr → ClState → Prop) :
  (∀ e, r ≠ Err e) → (∀ t, wpm (k t) s Q) → wpm (let* typ := clift r in k typ) s Q.
Proof. intros Hr Hk. apply wpm_bind, wpm_lift; auto. Qed.

(** The lists that [good_children] and the arms speak of. *)
Lemma goods_1 d s es s' : goods d s 1 es s' → ∃ a, es = [a] ∧ Forall (good d) [a] ∧ ext d s s'.
Proof. intros (Hn & Hg & He). destruct es as [|a [|b es]]; try done. by exists a. Qed.
Lemma goods_2 d s es s' : goods d s 2 es s' → ∃ a b, es = [a; b] ∧ Forall (good d) [a; b] ∧ ext d s s'.
Proof. intros (Hn & Hg & He). destruct es as [|a [|b [|c es]]]; try done. by exists a, b. Qed.
Lemma goods_3 d s es s' : goods d s 3 es s' →
  ∃ a b c, es = [a; b; c] ∧ Forall (good d) [a; b; c] ∧ ext d s s'.
Proof. intros (Hn & Hg & He). destruct es as [|a [|b [|c [|x es]]]]; try done. by exists a, b, c. Qed.

Lemma arm_result d s e s' : is_higher e = false → Forall (good d) (children e) → ext d s s' →
  good (S d) e ∧ ext (S d) s s'.
Proof. intros H1 H2 H3. split; [by apply good_children|]. eapply ext_le; [|done]. lia. Qed.

Lemma length_take_triggers ts es : length es = length (concat ts) + 1 →
  concat (take_triggers ts es).1 ++ (take_triggers ts es).2 = es ∧ length (take_triggers ts es).2 = 1.
Proof.
  revert es. induction ts as [|t ts IH]; intros es Hes; [done|].
  cbn [take_triggers concat] in *. rewrite length_app in Hes.
  specialize (IH (drop (length t) es)). destruct (take_triggers ts _) as [ts' rest]. cbn [fst snd concat] in *.
  destruct IH as [H1 H2]; [rewrite length_drop; lia|]. split; [|done].
  by rewrite -app_assoc H1 take_drop.
Qed.

Lemma wpm_seq {A B} d (m : cm A) (k : A → cm B) s0 s Q : ext d s0 s →
  (∀ s, wpm m s (λ _ s', ext d s s')) → (∀ x s', ext d s0 s' → wpm (k x) s' Q) → wpm (cbind m k) s Q.
Proof.
  intros He Hm Hk. apply wpm_bind. eapply wpm_mono; [apply Hm|]. intros x s' He'. apply Hk.
  exact (ext_trans _ _ _ _ He He').
Qed.

Lemma wpm_exprs_from d f l k s0 s (Q : SimplifiedExpr → ClState → Prop) : ext d s0 s → Forall (simp_ok d f) l →
  (∀ es ts s1, goods d s0 (length l) es s1 → length ts = length l → wpm (k es ts) s1 Q) →
  wpm (let* (es, ts) := simplify_exprs f l in k es ts) s Q.
Proof.
  intros He Hl Hk. apply (wpm_exprs d); [done|]. intros es ts s1 (H1 & H2 & H3). apply Hk.
  split_and!; [done|done|]. exact (ext_trans _ _ _ _ He H3).
Qed.

Lemma zip_binders_good {A} d (bs : Binders A) l : Forall (good d) l →
  Forall (good d) (ba <$> map (λ '(b, e), mkBinder (bname b) e) (zip bs l)).
Proof.
  intros Hl. revert bs. induction Hl as [|e l He _ IH]; intros [|b bs]; by constructor.
Qed.

Lemma simplify_let_ok d f bs e1 : Forall (simp_ok d f) (e1 :: map ba bs) →
  simp_ok (S d) (λ _, simplify_let f bs e1) (ExprX_Bind (BindX_Let bs) e1).
Proof.
  intros [H1 Hbs]%Forall_cons s. unfold simplify_let. apply wpm_bind.
  eapply wpm_mono; [apply (wpm_cmap _ (λ r, r.1.2) bs d)|].
  { by apply (Forall_map ba (simp_ok d f)) in Hbs. }
  intros rs s1 (Hn & Hrs & E1). apply (wpm_seq d _ _ s); [done|intros; apply wpm_update_decls|]. intros u2 s2 E2.
  apply (wpm_seq d _ _ s); [done| |].
  { intros s3. apply wpm_cmap_quiet. intros [b r] s4. apply wpm_update_decls. }
  intros u3 s3 E3. apply wpm_bind. eapply wpm_mono; [apply H1|]. intros [[t1 e1'] tm1] s4 [G1 E4].
  pose proof (ext_trans _ _ _ _ E3 E4) as E4'.
  apply (wpm_seq d _ _ s); [done|intros; apply wpm_update_decls|]. intros u5 s5 E5.
  apply (wpm_enclose_then d _ (S (length bs)) _ _ _ s).
  - split_and!; [rewrite length_app length_map Hn /=; lia| |done].
    apply Forall_app. split; [by apply Forall_map|by apply Forall_singleton].
  - rewrite length_app length_map Hn /=. lia.
  - intros es t s6 (Hes & Hg & E6). destruct es as [|e2 es2 _] using rev_ind; [done|].
    rewrite length_app /= Nat.add_1_r in Hes. injection Hes as Hes. apply Forall_app in Hg as [Hg Hg2].
    unfold wpm, cbind at 1. rewrite last_snoc. simpl. apply arm_result; [done| |done]. cbn [children bind_exprs].
    apply Forall_cons. split; [by apply Forall_cons in Hg2 as [? _]|].
    apply zip_binders_good, Forall_app. by split.
Qed.

Lemma simplify_quant_ok d f q bs ts qid e1 : Forall (simp_ok d f) (e1 :: concat ts) →
  simp_ok (S d) (λ _, simplify_quant f q bs ts qid e1) (ExprX_Bind (BindX_Quant q bs ts qid) e1).
Proof.
  intros [H1 Hts]%Forall_cons s. unfold simplify_quant.
  apply (wpm_seq d _ _ s); [apply ext_refl|intros; apply wpm_update_decls|]. intros u2 s2 E2.
  apply (wpm_seq d _ _ s); [done|intros; apply wpm_insert_binders|]. intros u3 s3 E3.
  apply (wpm_exprs_from d _ _ _ s); [done|by apply Forall_app; split; [|apply Forall_singleton]|].
  intros es ls s4 G4 Hls. apply (wpm_enclose_then d _ _ _ _ _ s _ _ G4 Hls). intros es' t s5 (Hn & Hg & E5).
  apply (wpm_seq d _ _ s); [done|intros; apply wpm_update_decls|]. intros u6 s6 E6.
  rewrite length_app /= in Hn. destruct (length_take_triggers ts es' Hn) as [Hcat Hone].
  destruct (take_triggers ts es') as [ts' rest]. cbn [fst snd] in *.
  destruct rest as [|e1' [|]]; try done. rewrite -Hcat in Hg. apply Forall_app in Hg as [Hg Hg1].
  apply (wpm_nth _ _ e1'); [done|]. apply (wpm_ret (A := SimplifiedExpr)).
  apply arm_result; [done| |done]. cbn [children bind_exprs].
  apply Forall_cons in Hg1 as [? _]. by apply Forall_cons.
Qed.

Lemma wpm_simplify_var x s : wpm (simplify_var x) s (λ _ s', s' = s).
Proof.
  unfold wpm, simplify_var. destruct (get _ _) as [[|typ m|]|]; try done. destruct (last _) as [cs|]; [|done].
  by destruct (ScopeMap.scope_and_index_of_key _ _) as [[d i]|].
Qed.

Lemma simplify_label_ok d f (mk : Expr → Expr) e s :
  (∀ a, is_higher (mk a) = false ∧ children (mk a) = [a]) → simp_ok d f e →
  wpm (let* (es, ts) := simplify_exprs f [e] in
       let* typ := clift (let? t0 := expect (ts !! 0) in Ok t0.1) in
       let* (es, t) := enclose App_LabeledAssertion es ts in
       let* e1 := nth_expr es 0 in
       cret (typ, mk e1, t)) s (λ r s', good (S d) r.1.2 ∧ ext (S d) s s').
Proof.
  intros Hmk He. apply (wpm_exprs d); [by apply Forall_singleton|]. intros es' ts s1 G1 Hn. apply wpm_typ.
  { intros e'. apply rbind_not_err; [intros; apply expect_not_err|done]. }
  intros typ. apply (wpm_enclose_then d _ _ _ _ _ s _ _ G1 Hn). intros es2 tm s2 G2.
  apply goods_1 in G2 as (a & -> & Hg & E). apply (wpm_nth _ _ a); [done|]. destruct (Hmk a) as [H1 H2].
  apply (wpm_ret (A := SimplifiedExpr)), arm_result; [done|by rewrite /= H2|done].
Qed.

(** One level of [simplify_expr], when it is not a closure. *)
Lemma simplify_arm_ok d f e : is_closure e = false → Forall (simp_ok d f) (children e) →
  simp_ok (S d) (simplify_arm oc f) e.
Proof.
  intros Hc Hf. destruct e as [c|x|sn x|x es|t e0 es|op e|op e1 e2|op es|e1 e2 e3|es|b e|ls fl e|i m fl e];
    cbn [children] in Hf; intros s; cbn [simplify_arm].
  - apply (wpm_ret (A := SimplifiedExpr)), arm_result; [done|constructor|apply ext_refl].
  - apply wpm_bind. eapply wpm_mono; [apply wpm_simplify_var|]. intros [typ tm] s1 ->.
    apply (wpm_ret (A := SimplifiedExpr)), arm_result; [done|constructor|apply ext_refl].
  - apply wpm_bind. eapply wpm_mono; [apply wpm_simplify_var|]. intros [typ tm] s1 ->.
    apply (wpm_ret (A := SimplifiedExpr)), arm_result; [done|constructor|apply ext_refl].
  - apply wpm_bind. unfold wpm at 1, get_typed. destruct (get _ _) as [[| |]|]; try done.
    apply (wpm_exprs d); [done|]. intros es' ts s1 G1 Hn.
    apply (wpm_enclose_then d _ _ _ _ _ s _ _ G1 Hn). intros es2 t s2 (_ & Hg & E).
    by apply (wpm_ret (A := SimplifiedExpr)), arm_result.
  - apply (wpm_exprs d); [done|]. intros es' ts s1 G1 Hn.
    apply (wpm_enclose_then d _ _ _ _ _ s _ _ G1 Hn). intros es2 tm s2 (_ & Hg & E).
    apply (wpm_seq d _ _ s); [done|intros; apply wpm_mk_apply|]. intros x s3 E3.
    by apply (wpm_ret (A := SimplifiedExpr)), arm_result.
  - apply (wpm_exprs d); [done|]. intros es' ts s1 G1 Hn. apply wpm_typ.
    { intros e'. apply rbind_not_err; [intros; apply expect_not_err|intros; apply unary_typ_not_err]. }
    intros typ. apply (wpm_enclose_then d _ _ _ _ _ s _ _ G1 Hn). intros es2 tm s2 G2.
    apply goods_1 in G2 as (a & -> & Hg & E). apply (wpm_nth _ _ a); [done|].
    by apply (wpm_ret (A := SimplifiedExpr)), arm_result.
  - apply (wpm_exprs d); [done|]. intros es' ts s1 G1 Hn. apply wpm_typ.
    { intros e'. not_err; apply expect_not_err || apply binary_typ_not_err. }
    intros typ. apply (wpm_enclose_then d _ _ _ _ _ s _ _ G1 Hn). intros es2 tm s2 G2.
    apply goods_2 in G2 as (a & b & -> & Hg & E). apply (wpm_nth _ _ a); [done|]. apply (wpm_nth _ _ b); [done|].
    by apply (wpm_ret (A := SimplifiedExpr)), arm_result.
  - apply (wpm_exprs d); [done|]. intros es' ts s1 G1 Hn. apply wpm_typ; [intros; apply multi_typ_not_err|].
    intros typ. apply (wpm_enclose_then d _ _ _ _ _ s _ _ G1 Hn). intros es2 tm s2 (_ & Hg & E).
    by apply (wpm_ret (A := SimplifiedExpr)), arm_result.
  - apply (wpm_exprs d); [done|]. intros es' ts s1 G1 Hn. apply wpm_typ.
    { intros e'. apply rbind_not_err; [intros; apply expect_not_err|done]. }
    intros typ. apply (wpm_enclose_then d _ _ _ _ _ s _ _ G1 Hn). intros es2 tm s2 G2.
    apply goods_3 in G2 as (a & b & c & -> & Hg & E). apply (wpm_nth _ _ a); [done|]. apply (wpm_nth _ _ b); [done|].
    apply (wpm_nth _ _ c); [done|]. by apply (wpm_ret (A := SimplifiedExpr)), arm_result.
  - done.
  - destruct b as [bs|q bs ts qid|bs ts qid w cond|bs ts qid cond]; [| |done|done].
    + by apply simplify_let_ok.
    + by apply simplify_quant_ok.
  - apply (simplify_label_ok d f (ExprX_LabeledAxiom ls fl)); [done|by apply Forall_singleton].
  - apply (simplify_label_ok d f (ExprX_LabeledAssertion i m fl)); [done|by apply Forall_singleton].
Qed.

(** The fuel of an expression without closures is its depth. *)
Lemma simplify_first_order fuel e : first_order e = true → depth e ≤ fuel →
  simp_ok (depth e) (simplify_expr oc fuel) e.
Proof.
  revert e. induction fuel as [|fuel IH]; intros e He Hf; [pose proof (depth_pos e); lia|].
  destruct (good_depth e He) as [Hc Hh]. pose proof (depth_pos e).
  replace (depth e) with (S (depth e - 1)) by lia. apply simplify_arm_ok.
  - unfold is_higher in Hh. by apply orb_false_iff in Hh as [? _].
  - eapply Forall_impl; [exact Hc|]. intros x [Hx Hd]. apply (simp_ok_le (depth x)); [done|]. apply IH; [done|lia].
Qed.

(** ** Closures *)

Definition fo (e : Expr) : Prop := first_order e = true.
Lemma fo_intro e : is_higher e = false → Forall fo (children e) → fo e.
Proof. intros H1 H2. by apply first_order_children. Qed.
Lemma fo_unary op e : fo (ExprX_Unary op e) ↔ fo e.
Proof. unfold fo. rewrite first_order_children /= Forall_singleton. naive_solver. Qed.
Lemma fo_binary op a b : fo a → fo b → fo (ExprX_Binary op a b).
Proof. intros Ha Hb. apply fo_intro; [done|]. by repeat constructor. Qed.
Lemma fo_apply x es : Forall fo es → fo (ExprX_Apply x es).
Proof. intros Hes. by apply fo_intro. Qed.
Lemma fo_vars {A} (f : A → Ident) l : Forall fo (map (λ x, ExprX_Var (f x)) l).
Proof. apply Forall_map, Forall_true. done. Qed.

Lemma fo_mk_and es : Forall fo es → fo (mk_and es).
Proof.
  intros Hes. unfold mk_and. destruct (existsb _ _); [done|].
  assert (Hf : Forall fo (List.filter (λ e, negb (is_const_bool true e)) es)).
  { apply Forall_forall. intros e He. apply list_elem_of_In, filter_In in He as [He _].
    rewrite Forall_forall in Hes. by apply Hes, list_elem_of_In. }
  destruct (List.filter _ _) as [|e [|e' l]]; [done|by apply Forall_cons in Hf as [? _]|by apply fo_intro].
Qed.

Lemma fo_mk_not e : fo e → fo (mk_not e).
Proof.
  intros He. unfold mk_not. destruct e as [[[]| | |]| | | | |[]| | | | | | |]; try done; try (by apply fo_unary).
Qed.

Lemma fo_mk_implies a b : fo a → fo b → fo (mk_implies a b).
Proof.
  intros Ha Hb. unfold mk_implies.
  destruct a as [[[]| | |]| | | | | | | | | | | |]; try done;
    destruct b as [[[]| | |]| | | | | | | | | | | |]; try done; (by apply fo_mk_not) || (by apply fo_binary).
Qed.

Lemma fo_mk_forall bs ts qid e : Forall (Forall fo) ts → fo e → fo (mk_forall bs ts qid e).
Proof.
  intros Hts He. unfold mk_forall, mk_quantifier. destruct (_ =? _)%nat; [done|].
  apply fo_intro; [done|]. cbn [children bind_exprs]. apply Forall_cons. split; [done|]. by apply Forall_concat.
Qed.

Lemma good_fo d es : Forall (good d) es → Forall fo es.
Proof. intros H. eapply Forall_impl; [exact H|]. by intros x [? _]. Qed.

Lemma good_apply d x es : Forall (good d) es → good (S d) (ExprX_Apply x es).
Proof. intros Hes. by apply good_children. Qed.

Lemma wpm_part d f e s : simp_ok d f e → wpm (simplify_part f e) s (λ r s', good d r.1.2 ∧ ext d s s').
Proof.
  intros He. apply wpm_bind. eapply wpm_mono; [apply He|]. intros [[t e'] tm] s1 [G1 E1].
  apply wpm_bind. eapply wpm_mono; [by apply (wpm_force_hole _ _ _ d)|]. intros [e2 t2] s2 [G2 E2].
  split; [done|]. exact (ext_trans _ _ _ _ E1 E2).
Qed.

Lemma wpm_parts d f es s : Forall (simp_ok d f) es →
  wpm (cmap (simplify_part f) es) s (λ rs s', Forall (λ r, good d r.1.2) rs ∧ ext d s s').
Proof.
  intros Hes. eapply wpm_mono; [apply (wpm_cmap _ (λ r, r.1.2) es d)|by intros rs s' (_ & ? & ?)].
  eapply Forall_impl; [exact Hes|]. intros e He s1. by apply wpm_part.
Qed.

Lemma wpm_triggers d f ts s : Forall (simp_ok d f) (concat ts) →
  wpm (simplify_triggers f ts) s (λ r s', Forall (Forall fo) r.1 ∧ ext d s s').
Proof.
  intros Hts. apply wpm_bind.
  assert (Hm : wpm (cmap (λ trigger, cmap (simplify_part f) trigger) ts) s
    (λ rs s', Forall (Forall (λ r, good d r.1.2)) rs ∧ ext d s s')).
  { revert s. induction ts as [|t ts IH]; intros s; [split; [constructor|apply ext_refl]|].
    apply Forall_app in Hts as [Ht Hts]. apply wpm_bind. eapply wpm_mono; [by apply (wpm_parts d)|].
    intros r s1 [G1 E1]. apply wpm_bind. eapply wpm_mono; [by apply IH|]. intros rs s2 [G2 E2].
    split; [by constructor|]. exact (ext_trans _ _ _ _ E1 E2). }
  eapply wpm_mono; [exact Hm|]. intros rs s1 [G1 E1]. split; [|done]. apply Forall_map.
  eapply Forall_impl; [exact G1|]. intros r Hr. apply Forall_map. eapply Forall_impl; [exact Hr|].
  by intros x [? _].
Qed.

(** The state when a closure was entered, and when it is left. *)
Definition closure_entered (s : ClState) (td : nat) (s' : ClState) : Prop :=
  generated_decls s' = generated_decls s ∧ closure_states s' = closure_states s ++ [mkClosureState td []].

Lemma wpm_pop {A} d td s0 s1 s (k : ClosureState → cm A) Q : closure_entered s0 td s1 → ext d s1 s →
  (∀ hs s', Forall (good d) (map snd hs) → ext d s0 s' → wpm (k (mkClosureState td hs)) s' Q) →
  wpm (let* cs := pop_closure in k cs) s Q.
Proof.
  intros [Hg Hc] [(ds & Hds & Hfo) Hh] Hk. rewrite Hc in Hh.
  destruct Hh as [[Hn _]|(i & td' & h0 & hs & Hi & Hs & Hhs)]; [by destruct (closure_states s0)|].
  apply app_inj_tail in Hi as [<- [= <- <-]]. simpl in Hs.
  unfold wpm, cbind, pop_closure. rewrite Hs last_snoc. simpl. apply Hk; [by apply Forall_map|].
  rewrite removelast_app // app_nil_r. split; simpl; [|apply holes_ext_refl].
  exists ds. by rewrite Hds Hg.
Qed.

Lemma wpm_num {A} (k : nat → cm A) s Q : (∀ n, wpm (k n) s Q) → wpm (let* n := num_decl_scopes in k n) s Q.
Proof. intros Hk. apply (Hk _). Qed.

Lemma wpm_enter {A} td (m : cm A) s Q : (∀ s1, closure_entered s td s1 → wpm m s1 Q) → wpm (push_closure td ;* m) s Q.
Proof. intros Hm. by apply (Hm (mkClState _ _ _)). Qed.

Lemma wpm_closure_fun_for k cl d declare s : (∀ x s, wpm (declare x) s (λ _ s', ext d s s')) →
  wpm (closure_fun_for k cl declare) s (λ _ s', ext d s s').
Proof.
  intros Hd. unfold wpm, closure_fun_for. destruct (ScopeMap.get _ _) as [x|]; [apply ext_refl|].
  apply wpm_bind. eapply wpm_mono; [apply (wpm_new_closure_fun _ _ d)|]. intros x s1 E1.
  apply wpm_bind. eapply wpm_mono; [apply Hd|]. intros u s2 E2. exact (ext_trans _ _ _ _ E1 E2).
Qed.

Lemma wpm_closure_app d f typ app s : good d app → (∀ a, good d a → simp_ok d f a) →
  wpm (simplify_closure_app f typ app) s (λ r s', good d r.1.2 ∧ ext d s s').
Proof.
  intros Ha Hf. unfold wpm, simplify_closure_app. destruct (_ =? _)%nat; [split; [done|apply ext_refl]|].
  by apply Hf.
Qed.

(** A chain of steps that ends in the simplified application. *)
Lemma wpm_last {A} d s0 s (m : cm A) (Q : A → Prop) : ext d s0 s →
  wpm m s (λ r s', Q r ∧ ext d s s') → wpm m s (λ r s', Q r ∧ ext d s0 s').
Proof.
  intros He Hm. eapply wpm_mono; [exact Hm|]. intros r s' [Hq E']. split; [done|].
  exact (ext_trans _ _ _ _ He E').
Qed.

Lemma wpm_declare_array d hs typs es x s : Forall (good d) es →
  wpm (declare_array hs typs es x) s (λ _ s', ext d s s').
Proof.
  intros Hes. unfold declare_array.
  apply (wpm_seq d _ _ s); [apply ext_refl|intros; by apply wpm_push_decl|]. intros _ s1 E1.
  apply (wpm_seq d _ _ s); [done|intros; apply wpm_insert_fun_typing|]. intros _ s2 E2.
  apply wpm_bind. apply (wpm_mono _ _ (λ cs s', Forall fo cs ∧ ext d s s')).
  - apply wpm_last; [done|]. destruct typs as [|t ts]; [split; [constructor|apply ext_refl]|].
    apply wpm_bind. eapply wpm_mono; [apply (wpm_mk_apply _ _ d)|]. intros f s3 E3. split; [|done].
    apply Forall_map, Forall_forall. intros [i e] Hin%elem_of_zip_r. rewrite Forall_forall in Hes.
    destruct (Hes e Hin) as [He _]. apply fo_binary; [|done]. apply fo_apply. by repeat constructor.
  - intros cs s3 [Hcs E3]. apply (wpm_mono _ _ (λ _ s', ext d s3 s')).
    + apply wpm_push_decl. apply fo_mk_forall.
      * repeat constructor. apply fo_apply, (fo_vars (λ h : Ident * Typ * Expr, h.1.1)).
      * apply fo_intro; [done|]. cbn [children bind_exprs]. apply Forall_cons. split; [by apply fo_mk_and|].
        apply Forall_singleton, fo_apply, (fo_vars (λ h : Ident * Typ * Expr, h.1.1)).
    + intros _ s4 E4. exact (ext_trans _ _ _ _ E3 E4).
Qed.

(** [f] simplifies the children, and again what replaces a closure. *)
Definition simp_both (d : nat) f (e : Expr) : Prop :=
  Forall (simp_ok d f) (children e) ∧ ∀ a, good (2 + d) a → simp_ok (2 + d) f a.

Lemma simplify_array_ok d f es : simp_both d f (ExprX_Array es) →
  simp_ok (3 + d) (λ _, simplify_array f es) (ExprX_Array es).
Proof.
  intros [Hes Hf] s. cbn [children] in Hes. unfold simplify_array.
  apply wpm_num. intros td. apply wpm_enter. intros s0 Hs0. apply wpm_bind.
  eapply wpm_mono; [by apply (wpm_parts d)|]. intros parts s1 [Hp E1].
  apply (wpm_pop d _ s _ _ _ _ Hs0 E1). intros hs s2 Hhs E2. cbn [holes].
  apply (wpm_seq d _ _ s); [done|intros; apply wpm_closure_fun_for; intros|].
  { apply wpm_declare_array. by apply Forall_map. }
  intros x s3 E3. apply (wpm_mono _ _ (λ r s', good (2 + d) r.1.2 ∧ ext (2 + d) s s')).
  - apply wpm_last; [by apply (ext_le d); [lia|]|]. apply wpm_closure_app; [|done].
    apply (good_le (S d)); [lia|]. by apply good_apply.
  - intros r s4 [G E]. split; [by apply (good_le (2 + d)); [lia|]|by apply (ext_le (2 + d)); [lia|]].
Qed.

Lemma wpm_seq_quiet {A B} d (m : cm A) (k : A → cm B) s0 s Q : ext d s0 s →
  wpm m s (λ _ s', ext d s s') → (∀ x s', ext d s0 s' → wpm (k x) s' Q) → wpm (cbind m k) s Q.
Proof.
  intros He Hm Hk. apply wpm_bind. eapply wpm_mono; [exact Hm|]. intros x s' He'. apply Hk.
  exact (ext_trans _ _ _ _ He He').
Qed.

Lemma wpm_declare_lambda d f bs qid w hs cond t body ts x s :
  (∀ w', w = Some w' → simp_ok d f (wrap_id w')) → fo cond → fo body → Forall (Forall fo) ts →
  wpm (declare_lambda f bs qid w hs cond t body ts x) s (λ _ s', ext d s s').
Proof.
  intros Hw Hc Hb Hts. unfold declare_lambda.
  apply (wpm_seq d _ _ s); [apply ext_refl|intros; apply wpm_observe|]. intros _ s1 E1.
  apply (wpm_seq d _ _ s); [done|intros; by apply wpm_push_decl|]. intros _ s2 E2.
  apply (wpm_seq d _ _ s); [done|intros; apply wpm_insert_fun_typing|]. intros _ s3 E3.
  apply (wpm_seq_quiet d _ _ s); [done| |].
  { destruct w as [w'|]; [|apply ext_refl]. apply wpm_bind. eapply wpm_mono; [by apply Hw|].
    by intros [[t' e'] tm] s4 [_ E4]. }
  intros wbs s4 E4. apply (wpm_seq d _ _ s); [done|intros; apply wpm_mk_apply|]. intros ap s5 E5.
  eapply wpm_mono; [apply (wpm_push_decl _ d)|intros u6 s6 E6; exact (ext_trans _ _ _ _ E5 E6)].
  assert (Happ : fo (ExprX_Apply ap (wrap_call w (λ _, ExprX_Var TEMP) (ExprX_Apply x (map hole_var hs))
    :: map (λ b, ExprX_Var (bname b)) bs))).
  { apply fo_apply, Forall_cons. split; [|by apply fo_vars].
    assert (fo (ExprX_Apply x (map hole_var hs))) by apply fo_apply, (fo_vars (λ h : Ident * Typ * Expr, h.1.1)).
    destruct w; [apply fo_apply; by repeat constructor|done]. }
  apply fo_mk_forall; [|by apply fo_mk_implies, fo_binary]. constructor; [by repeat constructor|done].
Qed.

Lemma wpm_declare_choose d bs ts0 qid hs cond t body ts x s : fo cond → fo body → Forall (Forall fo) ts →
  wpm (declare_choose bs ts0 qid hs cond t body ts x) s (λ _ s', ext d s s').
Proof.
  intros Hc Hb Hts. unfold declare_choose.
  apply (wpm_seq d _ _ s); [apply ext_refl|intros; apply wpm_observe|]. intros _ s1 E1.
  apply (wpm_seq d _ _ s); [done|intros; by apply wpm_push_decl|]. intros _ s2 E2.
  apply (wpm_seq d _ _ s); [done|intros; apply wpm_insert_fun_typing|]. intros _ s3 E3.
  eapply wpm_mono; [apply (wpm_push_decl _ d)|intros u6 s6 E6; exact (ext_trans _ _ _ _ E3 E6)].
  assert (Hcall : fo (ExprX_Apply x (map hole_var hs))) by apply fo_apply, (fo_vars (λ h : Ident * Typ * Expr, h.1.1)).
  apply fo_mk_forall; [by repeat constructor|]. apply fo_binary; apply fo_intro; try done; cbn [children bind_exprs];
    apply Forall_cons; (split; [|by apply Forall_concat]); [done|].
  apply fo_mk_and. constructor; [done|]. constructor; [|done]. by apply fo_binary.
Qed.

Lemma wpm_close d f typ app s0 s : good (2 + d) app → (∀ a, good (2 + d) a → simp_ok (2 + d) f a) → ext d s0 s →
  wpm (simplify_closure_app f typ app) s (λ r s', good (3 + d) r.1.2 ∧ ext (3 + d) s0 s').
Proof.
  intros Ha Hf E. apply (wpm_mono _ _ (λ r s', good (2 + d) r.1.2 ∧ ext (2 + d) s0 s')).
  - apply wpm_last; [by apply (ext_le d); [lia|]|]. by apply wpm_closure_app.
  - intros r s4 [G E']. split; [by apply (good_le (2 + d)); [lia|]|by apply (ext_le (2 + d)); [lia|]].
Qed.

Lemma simplify_lambda_ok d f bs ts qid w cond e : simp_both d f (ExprX_Bind (BindX_Lambda bs ts qid w cond) e) →
  (∀ w', w = Some w' → good d (wrap_id w')) →
  simp_ok (3 + d) (λ _, simplify_lambda f bs ts qid w cond e) e.
Proof.
  intros [Hc Hf] Hgw s. cbn [children bind_exprs] in Hc. apply Forall_cons in Hc as [He Hc].
  apply Forall_app in Hc as [Hts Hc]. apply Forall_app in Hc as [Hw Hcond]. unfold simplify_lambda.
  apply wpm_num. intros td.
  apply (wpm_seq d _ _ s); [apply ext_refl|intros; apply wpm_update_decls|]. intros _ s1 E1.
  apply (wpm_seq d _ _ s); [done|intros; apply wpm_insert_binders|]. intros _ s2 E2.
  apply wpm_enter. intros s3 Hs3. apply wpm_bind.
  apply (wpm_mono _ _ (λ r s', fo r.1 ∧ ext d s3 s')).
  { destruct cond as [c|]; [|split; [done|apply ext_refl]]. apply wpm_bind.
    eapply wpm_mono; [apply (wpm_part d); by apply Forall_cons in Hcond as [? _]|].
    intros [[t c'] tm] s4 [[G _] E4]. by split. }
  intros [c' tms] s4 [Gc E4]. apply wpm_bind. eapply wpm_mono; [by apply (wpm_part d)|].
  intros [[tb b'] tmb] s5 [[Gb _] E5]. apply wpm_bind. eapply wpm_mono; [by apply (wpm_triggers d)|].
  intros [ts' tms'] s6 [Gt E6]. cbn [fst snd] in *.
  apply (wpm_pop d _ s2 _ _ _ _ Hs3 (ext_trans _ _ _ _ E4 (ext_trans _ _ _ _ E5 E6))). intros hs s7 Hhs E7.
  pose proof (ext_trans _ _ _ _ E2 E7) as E7'.
  apply (wpm_seq d _ _ s); [done|intros; apply wpm_update_decls|]. intros _ s8 E8. cbn [holes].
  apply (wpm_seq_quiet d _ _ s); [done| |].
  { apply wpm_closure_fun_for. intros x s9. apply wpm_declare_lambda; try done.
    intros w' ->. by apply Forall_cons in Hw as [? _]. }
  intros x s9 E9. apply wpm_close; [|done|done].
  assert (Ha : good (S d) (ExprX_Apply x (map snd hs))) by by apply good_apply.
  destruct w as [w'|]; [|by apply (good_le (S d)); [lia|]]. apply good_apply. constructor; [|by constructor].
  apply (good_le d); [lia|]. by apply Hgw.
Qed.

Lemma simplify_choose_ok d f bs ts qid cond e : simp_both d f (ExprX_Bind (BindX_Choose bs ts qid cond) e) →
  simp_ok (3 + d) (λ _, simplify_choose f bs ts qid cond e) e.
Proof.
  intros [Hc Hf] s. cbn [children bind_exprs] in Hc. apply Forall_cons in Hc as [He Hc].
  apply Forall_app in Hc as [Hts Hc]. apply Forall_cons in Hc as [Hc _]. unfold simplify_choose.
  apply wpm_num. intros td.
  apply (wpm_seq d _ _ s); [apply ext_refl|intros; apply wpm_update_decls|]. intros _ s1 E1.
  apply (wpm_seq d _ _ s); [done|intros; apply wpm_insert_binders|]. intros _ s2 E2.
  apply wpm_enter. intros s3 Hs3. apply wpm_bind. eapply wpm_mono; [apply Hc|].
  intros [[tc c'] tmc] s4 [Gc E4]. apply wpm_bind. eapply wpm_mono; [apply He|].
  intros [[tb b'] tmb] s5 [Gb E5]. apply wpm_bind. eapply wpm_mono; [by apply (wpm_force_hole _ _ _ d)|].
  intros [c2 tmc2] s6 [[Gc2 _] E6]. apply wpm_bind. eapply wpm_mono; [by apply (wpm_force_hole _ _ _ d)|].
  intros [b2 tmb2] s7 [[Gb2 _] E7]. apply wpm_bind. eapply wpm_mono; [by apply (wpm_triggers d)|].
  intros [ts' tms'] s8 [Gt E8]. cbn [fst snd] in *.
  apply (wpm_pop d _ s2 _ _ _ _ Hs3 (ext_trans _ _ _ _ E4 (ext_trans _ _ _ _ E5
    (ext_trans _ _ _ _ E6 (ext_trans _ _ _ _ E7 E8))))). intros hs s9 Hhs E9.
  pose proof (ext_trans _ _ _ _ E2 E9) as E9'.
  apply (wpm_seq d _ _ s); [done|intros; apply wpm_update_decls|]. intros _ s10 E10. cbn [holes].
  apply (wpm_seq_quiet d _ _ s); [done| |].
  { apply wpm_closure_fun_for. intros x s11. by apply wpm_declare_choose. }
  intros x s11 E11. apply wpm_close; [|done|done]. apply (good_le (S d)); [lia|]. by apply good_apply.
Qed.

(** ** Every expression *)

Lemma weight_children e : weight e = (if is_closure e then 3 else 1) + max_list (map weight (children e)).
Proof. apply height_children. Qed.

Lemma weight_pos e : 1 ≤ weight e.
Proof. rewrite weight_children. destruct (is_closure e); lia. Qed.

Lemma expr_ind_children (P : Expr → Prop) : (∀ e, Forall P (children e) → P e) → ∀ e, P e.
Proof.
  intros HP e. induction e as [c|x|sn x|x es IH|t e0 es IH0 IH|op e IH|op e1 e2 IH1 IH2|op es IH|e1 e2 e3 IH1 IH2 IH3
    |es IH|b e IHb IH|ls f e IH|i m f e IH] using ExprX_ind'; apply HP; cbn [children]; by repeat constructor.
Qed.

Lemma depth_le_weight e : depth e ≤ weight e.
Proof.
  induction e as [e IH] using expr_ind_children. rewrite weight_children /depth (height_children _ e).
  apply Nat.add_le_mono; [destruct (is_closure e); lia|]. apply max_list_bound, Forall_map, Forall_forall.
  intros x Hx. rewrite Forall_forall in IH. specialize (IH x Hx). unfold depth in IH. etrans; [exact IH|].
  apply max_list_elem_of_le. apply list_elem_of_In, in_map, list_elem_of_In, Hx.
Qed.

Lemma simplify_weight fuel e : wraps_simple e = true → weight e ≤ fuel →
  simp_ok (weight e) (simplify_expr oc fuel) e.
Proof.
  revert e. induction fuel as [|fuel IH]; intros e Hw Hf; [pose proof (weight_pos e); lia|].
  set (d := max_list (map weight (children e))).
  unfold wraps_simple in Hw. rewrite all_nodes_children in Hw. apply andb_true_iff in Hw as [Hwe Hwc].
  rewrite forallb_true_iff in Hwc. rewrite weight_children in Hf |- *. fold d in Hf |- *.
  assert (Hcd : Forall (λ x, weight x ≤ d) (children e)).
  { apply (Forall_map weight (λ n, n ≤ d)). by apply max_list_bound. }
  assert (Hc : Forall (simp_ok d (simplify_expr oc fuel)) (children e)).
  { eapply Forall_impl2; [exact Hwc|exact Hcd|]. intros x Hx Hxd. cbn beta in Hx, Hxd. apply (simp_ok_le (weight x)); [done|].
    apply IH; [done|]. revert Hf. destruct (is_closure e); lia. }
  destruct (is_closure e) eqn:Hcl; [|by apply simplify_arm_ok]. rewrite ?Hcl in Hf.
  assert (Hb : simp_both d (simplify_expr oc fuel) e).
  { split; [done|]. intros a [Ha Had]. apply (simp_ok_le (depth a)); [done|]. apply simplify_first_order; [done|lia]. }
  destruct e as [| | | | | | | | |es|[|?|bs ts qid w cond|bs ts qid cond] e| |]; try done.
  - by apply simplify_array_ok.
  - intros s. apply simplify_lambda_ok; [done|]. intros w' ->. split; [done|]. etrans; [apply depth_le_weight|].
    rewrite Forall_forall in Hcd. apply Hcd. cbn [children bind_exprs]. set_solver.
  - intros s. by apply simplify_choose_ok.
Qed.
End arms.
