(* ===== verification/ClosureChecked.v ===== *)
(** * Checked expressions without closures

    On an expression without closures that the checker accepts, the simplifier
    does not panic, finds the type the checker found and changes nothing. *)

From S2P Require Import Prelude StateRes RustString Ast AstUtil StmtFacts Typecheck TypecheckFacts ClosureTerm Closure ClosureFacts.
From S2P Require ScopeMap.
Set Warnings "-rewrite-rw,-register-all,-clear-no-such-hyp".
Local Open Scope res_scope.

(** ** Types of operators *)

Lemma uint_add_ok {E F} b oc m n w : @uint_add E b oc m n = Ok w → @uint_add F b oc m n = Ok w.
Proof. unfold uint_add. by repeat case_match; intros [= ->]. Qed.
Lemma uint_sub_ok {E F} b oc m n w : @uint_sub E b oc m n = Ok w → @uint_sub F b oc m n = Ok w.
Proof. unfold uint_sub. by repeat case_match; intros [= ->]. Qed.
Lemma uint_add_comm {E} b oc m n : @uint_add E b oc m n = uint_add b oc n m.
Proof. unfold uint_add. by rewrite (N.add_comm m n). Qed.

(** Take apart the hypothesis [H] that a check succeeded in the state [st]. *)
Ltac check_step H :=
  match type of H with
  | as_result _ _ = _ => apply as_result_ok in H
  | tbind _ _ _ = _ => tinv H
  | tlift _ _ = _ => unfold tlift in H
  | terr _ _ _ = _ => discriminate H
  | rerr _ _ _ = _ => discriminate H
  | rok _ _ = _ => injection H as ? ?
  | tret _ _ = _ => injection H as ? ?
  | (Err _, _) = (Ok _, _) => discriminate H
  | (Panic, _) = (Ok _, _) => discriminate H
  | (Ok _, _) = (Ok _, _) => injection H as ? ?
  | (?r, _) = (Ok _, _) => injection H as ? ?
  | (if ?b then _ else _) _ = _ => destruct b eqn:?
  | (if ?b then _ else _) = _ => destruct b eqn:?
  | match ?x with _ => _ end _ = _ => destruct x eqn:?
  end.
Ltac check_steps := repeat match goal with H : _ = (Ok _, _) |- _ => check_step H; subst end.
(** The first computation is [m], which leaves the state as it was. *)
Ltac check_first Hm H :=
  let t := fresh "t" in let st1 := fresh "st" in let H1 := fresh "H" in
  apply tbind_ok in H as (t & st1 & H1 & H); apply Hm in H1 as Hst; [subst st1|done].

(** The arithmetic on widths is the same in both modules. *)
Ltac width_ok :=
  repeat match goal with
  | H : @uint_add TypeError _ _ _ _ = Ok _ |- _ => apply (uint_add_ok (F := fuel_error)) in H
  | H : @uint_sub TypeError _ _ _ _ = Ok _ |- _ => apply (uint_sub_ok (F := fuel_error)) in H
  end;
  repeat match goal with
  | H : ?a = Ok _ |- context [?a] => rewrite H; cbn [rbind]
  | H : uint_add ?b ?oc ?m ?n = Ok _ |- context [uint_add ?b ?oc ?n ?m] =>
    rewrite (uint_add_comm b oc n m) H; cbn [rbind]
  end; try done.

Section types.
Context (oc : bool) (st : Typing) (Hin : in_scopes st).

Lemma tseq_checked (ms : list (tc Typ)) ts st' : Forall stable ms → tseq ms st = (Ok ts, st') →
  st' = st ∧ Forall2 (λ m t, m st = (Ok t, st)) ms ts.
Proof using Hin.
  intros Hms. revert ts st'. induction Hms as [|m ms Hm _ IH]; intros ts st' H; simpl in H.
  - injection H as <- <-. split; [done|constructor].
  - tinv H. apply Hm in Hm0 as Hst; [|done]. subst st0. tinv H. apply IH in Hm1 as [-> Hf].
    injection H as <- <-. split; [done|]. by constructor.
Qed.

Lemma check_arg_typs_ok f fts ets i u st' : check_arg_typs f fts ets i st = (Ok u, st') →
  length fts = length ets → fts = ets.
Proof using.
  clear Hin. revert ets i. induction fts as [|ft fts IH]; intros [|et ets] i H Hl; try done. simpl in H.
  destruct (typ_eq et ft) eqn:He; [|done]. apply typ_eq_true in He as ->. f_equal.
  apply (IH ets (i + 1)%N H). by injection Hl.
Qed.

Lemma check_has_typs_ok f fts ft ets t st' : check_has_typs f fts ft ets st = (Ok t, st') →
  t = ft ∧ fts = ets.
Proof using.
  clear Hin. unfold check_has_typs. destruct (negb _) eqn:Hl; [done|]. intros H. tinv H. injection H as <- _.
  apply negb_false_iff, Nat.eqb_eq in Hl. split; [done|]. destruct x. by eapply check_arg_typs_ok.
Qed.

Lemma check_exprs_ok f fts ft ms t st' : Forall stable ms → check_exprs f fts ft ms st = (Ok t, st') →
  t = ft ∧ Forall2 (λ m t, m st = (Ok t, st)) ms fts.
Proof using Hin.
  intros Hms H. unfold check_exprs in H. tinv H. apply tseq_checked in Hm as [-> Hf]; [|done].
  apply check_has_typs_ok in H as [-> ->]. done.
Qed.

Lemma check_int_or_real_ok f n ft ms t st' : Forall stable ms →
  check_exprs_int_or_real f n ft ms st = (Ok t, st') →
  ∃ ts, Forall2 (λ m t, m st = (Ok t, st)) ms ts ∧ length ts = n
    ∧ t = default (default TypX_Int (head ts)) ft.
Proof using Hin.
  intros Hms H. unfold check_exprs_int_or_real in H. tinv H. apply tseq_checked in Hm as [-> Hf]; [|done].
  apply check_has_typs_ok in H as [-> Hts]. exists x. split; [done|].
  rewrite -Hts repeat_length. split; [done|]. f_equal. destruct n as [|n]; [by rewrite -Hts|].
  rewrite -Hts /=. by destruct x as [|[]].
Qed.

Lemma check_unary_typ op m t st' : stable m → check_unary oc op m st = (Ok (Ok t), st') →
  ∃ t0, m st = (Ok t0, st) ∧ unary_typ oc op t0 = Ok t.
Proof using Hin.
  intros Hm H. destruct op; cbn [check_unary unary_typ] in *.
  1, 21, 22: apply as_result_ok, check_exprs_ok in H as [-> Hf]; [|by apply Forall_singleton];
    inversion Hf; subst; eexists; done.
  all: try apply as_result_ok in H; try unfold check_bv_unary_exprs, check_float_unary_exprs in H; check_first Hm H;
    exists t0; (split; [done|]); try unfold get_bv_width in H; check_steps; try done.
  all: unfold u32_add, u32_sub in *; width_ok.
Qed.

Lemma check_binary_typ op m1 m2 t st' : stable m1 → stable m2 → check_binary oc op m1 m2 st = (Ok (Ok t), st') →
  ∃ t1 t2, m1 st = (Ok t1, st) ∧ m2 st = (Ok t2, st) ∧ binary_typ oc op t1 t2 = Ok t.
Proof using Hin.
  intros H1 H2 H. destruct op; cbn [check_binary binary_typ] in *.
  all: try (apply as_result_ok in H).
  all: try (apply check_exprs_ok in H as [-> Hf]; [|by apply Forall_two]; inversion Hf as [|? ? ? ? ? Hf2]; subst;
    inversion Hf2; subst; by eexists _, _).
  all: try (apply check_int_or_real_ok in H as (ts & Hf & _ & ->); [|by apply Forall_two];
    inversion Hf as [|? ? ? ? ? Hf2]; subst; inversion Hf2; subst; by eexists _, _).
  all: try unfold check_bv_exprs, check_float_exprs in H; check_first H1 H; check_first H2 H.
  all: exists t0, t1; (split; [done|]); (split; [done|]).
  all: try unfold get_bv_width, check_field_update in H; check_steps; try done.
  all: unfold u32_add in *; width_ok.
  all: repeat match goal with
    | H : negb _ = false |- _ => apply negb_false_iff, N.eqb_eq in H; subst
    | H : _ && _ = true |- _ => apply andb_true_iff in H as [?%N.eqb_eq ?%N.eqb_eq]; subst
    end; by rewrite (proj2 (typ_eq_true _ _) eq_refl).
Qed.

Lemma check_same_ok t0 msg ms u st' : Forall stable ms → check_same t0 msg ms st = (Ok u, st') →
  ∃ ts, Forall2 (λ m t, m st = (Ok t, st)) ms ts.
Proof using Hin.
  induction 1 as [|m ms Hm _ IH]; intros H; simpl in H; [by exists []|].
  check_first Hm H. apply tbind_ok in H as ([] & st1 & [-> ->]%expect_typ_ok & H).
  destruct (IH H) as [ts Hts]. exists (t0 :: ts). by constructor.
Qed.

Lemma check_all_same_ok msg ms u st' : Forall stable ms → check_all_same msg ms st = (Ok u, st') →
  ∃ ts, Forall2 (λ m t, m st = (Ok t, st)) ms ts.
Proof using Hin.
  intros [|m ms' Hm Hms] H; simpl in H; [by exists []|]. check_first Hm H.
  destruct (check_same_ok _ _ _ _ _ Hms H) as [ts Hts]. exists (t :: ts). by constructor.
Qed.

Lemma check_multi_typ op ms t st' : Forall stable ms → check_multi oc op ms st = (Ok (Ok t), st') →
  ∃ ts, Forall2 (λ m t, m st = (Ok t, st)) ms ts ∧ multi_typ oc op ts = Ok t.
Proof using Hin.
  intros Hms H. destruct op; cbn [check_multi multi_typ] in *.
  1-3: apply as_result_ok, check_exprs_ok in H as [-> Hf]; [|done]; by eexists.
  1-3: apply as_result_ok, check_int_or_real_ok in H as (ts & Hf & _ & ->); [|done]; by exists ts.
  - tinv H. injection H as <- _. apply check_all_same_ok in Hm as [ts Hts]; [|done]. by exists ts.
  - destruct Hms as [|m0 ms Hm0 [|m1 ms' Hm1 [|m2 ms'' Hm2 []]]]; try done.
    check_first Hm0 H. check_first Hm1 H. check_first Hm2 H. exists [t0; t1; t2].
    split; [by repeat constructor|]. check_steps; try done. unfold u32_add in *. width_ok.
    repeat match goal with H : _ && _ = true |- _ => apply andb_true_iff in H as [? ?] end.
    case_match; [|congruence]. width_ok.
Qed.
End types.

(** ** The simplifier outside closures *)

Definition with_decls (s : ClState) (D : ScopeMap.ScopeMap Ident DeclaredX) : ClState :=
  set_ctxt s (set_typing (ctxt s) (set_decls (typing (ctxt s)) D)).

Lemma with_decls_with s D D' : with_decls (with_decls s D) D' = with_decls s D'.
Proof. done. Qed.
Lemma with_decls_same s : with_decls s (decls (typing (ctxt s))) = s.
Proof. by destruct s as [[[]]]. Qed.

(** In the scopes [D], [f] gives [e] the type [t] and returns it as it is. *)
Definition same_at (f : Expr → cm SimplifiedExpr) (D : ScopeMap.ScopeMap Ident DeclaredX) (e : Expr) (t : Typ) : Prop :=
  ∀ s, closure_states s = [] → f e (with_decls s D) = Ok ((t, e, None), with_decls s D).

Section same.
Context (oc : bool).
Implicit Types (f : Expr → cm SimplifiedExpr) (D : ScopeMap.ScopeMap Ident DeclaredX).

Lemma cmap_same {A} f D (k : A → Expr) l ts s : closure_states s = [] → Forall2 (λ x t, same_at f D (k x) t) l ts →
  cmap (λ x, f (k x)) l (with_decls s D) = Ok (zip (zip ts (map k l)) (map (λ _, None) l), with_decls s D).
Proof.
  intros Hs. induction 1 as [|x t l ts Hx _ IH]; [done|]. cbn [cmap]. unfold cbind. rewrite (Hx s Hs). cbn [rbind].
  by rewrite IH.
Qed.

Lemma zip3_typs (ts : list Typ) (es : list Expr) (os : list (option Term)) : length ts = length es → length os = length es →
  map (λ r, r.1.1) (zip (zip ts es) os) = ts ∧ map (λ r, r.1.2) (zip (zip ts es) os) = es
  ∧ map (λ r, (r.1.1, r.2)) (zip (zip ts es) os) = zip ts os.
Proof.
  revert ts os. induction es as [|e es IH]; intros [|t ts] [|o os] H1 H2; try done.
  injection H1 as H1. injection H2 as H2. destruct (IH ts os H1 H2) as (I1 & I2 & I3). cbn.
  by rewrite I1 I2 I3.
Qed.

Lemma simplify_exprs_same f D es ts s : closure_states s = [] → Forall2 (same_at f D) es ts →
  simplify_exprs f es (with_decls s D) = Ok ((es, zip ts (map (λ _, None) es)), with_decls s D).
Proof.
  intros Hs H. unfold simplify_exprs, cbind. rewrite (cmap_same f D id es ts s Hs H). cbn [rbind].
  pose proof (Forall2_length _ _ _ H) as Hlen. rewrite map_id.
  destruct (zip3_typs ts es (map (λ _, None) es)) as (_ & -> & ->); [done|by rewrite length_map|done].
Qed.

Lemma enclose_same app es ts s D : closure_states s = [] →
  enclose app es ts (with_decls s D) = Ok ((es, None), with_decls s D).
Proof. intros Hs. unfold enclose. simpl. by rewrite Hs. Qed.

Lemma typs_of {A} (ts : list Typ) (es : list A) : length ts = length es →
  map fst (zip ts (map (λ _, @None Term) es)) = ts.
Proof. revert es. induction ts as [|t ts IH]; intros [|e es] H; try done. cbn. f_equal. apply IH. by injection H. Qed.

(** Opening a scope, as the checker does. *)
Lemma push_same s D : push_decl_scope (with_decls s D) = Ok (tt, with_decls s (ScopeMap.push_scope D true)).
Proof. done. Qed.

Lemma insert_same x t st st' s : insert_decl x (DeclaredX_Var t false) st = (Ok tt, st') →
  insert_var x t (with_decls s (decls st)) = Ok (tt, with_decls s (decls st')).
Proof. intros [Hi _]%insert_decl_ok. unfold insert_var, update_decls. simpl. by rewrite Hi. Qed.

Lemma insert_all_same {A} (k : A → BinderX Typ) l : ∀ st st' s,
  tseq_ (map insert_binder (map k l)) st = (Ok tt, st') →
  cmap (λ x, insert_var (bname (k x)) (ba (k x))) l (with_decls s (decls st))
  = Ok (map (λ _, tt) l, with_decls s (decls st')).
Proof.
  induction l as [|x l IH]; intros st st' s H; simpl in H; [by injection H as <-|].
  tinv H. destruct x0. cbn [cmap]. unfold cbind. rewrite (insert_same _ _ _ _ s Hm). cbn [rbind].
  by rewrite (IH _ _ s H).
Qed.

Lemma pop_same st bs inner s : in_scopes st → entered st bs inner →
  pop_decl_scope (with_decls s (decls inner)) = Ok (tt, with_decls s (decls st)).
Proof. intros Hin He. unfold pop_decl_scope, update_decls. simpl. by rewrite (leave_pop st bs inner Hin He). Qed.

Lemma entered_same st bs inner s : entered st bs inner →
  insert_binders bs (with_decls s (ScopeMap.push_scope (decls st) true)) = Ok (tt, with_decls s (decls inner)).
Proof.
  intros He. unfold entered in He. unfold insert_binders, cbind. rewrite -(map_id bs) in He.
  by rewrite (insert_all_same id bs _ _ s He).
Qed.

Lemma take_triggers_concat ts rest : take_triggers ts (concat ts ++ rest) = (ts, rest).
Proof.
  induction ts as [|t ts IH]; [done|]. cbn [take_triggers concat].
  by rewrite -app_assoc drop_app_length take_app_length IH.
Qed.

(** What the induction gives for the sub-expressions. *)
Definition checks_same f (e : Expr) : Prop := ∀ st t st', in_scopes st → check_expr oc e st = (Ok t, st') →
  same_at f (decls st) e t.

Lemma all_same f es ts st : Forall (checks_same f) es → in_scopes st →
  Forall2 (λ m t, m st = (Ok t, st)) (map (check_expr oc) es) ts → Forall2 (same_at f (decls st)) es ts.
Proof.
  intros Hf Hin Ht. apply (Forall2_fmap_l (check_expr oc) _ es ts) in Ht.
  induction Ht as [|e t es ts He _ IH]; [constructor|]. apply Forall_cons in Hf as [H1 H2].
  constructor; [by eapply H1|by apply IH].
Qed.

(** The arms that simplify their sub-expressions and put them back. *)
Lemma arm_same f l ts s D (k : list Expr → list (Typ * option Term) → cm SimplifiedExpr) r :
  closure_states s = [] → Forall2 (same_at f D) l ts →
  k l (zip ts (map (λ _, None) l)) (with_decls s D) = r →
  (let* (es, ts) := simplify_exprs f l in k es ts)%cm (with_decls s D) = r.
Proof. intros Hs H Hk. unfold cbind. rewrite (simplify_exprs_same f D l ts s Hs H). exact Hk. Qed.

Lemma enclose_then app es ts s D (k : list Expr → option Term → cm SimplifiedExpr) r : closure_states s = [] →
  k es None (with_decls s D) = r → (let* (es, t) := enclose app es ts in k es t)%cm (with_decls s D) = r.
Proof. intros Hs Hk. unfold cbind. rewrite (enclose_same app es ts s D Hs). exact Hk. Qed.

Lemma clift_then r0 t s (k : Typ → cm SimplifiedExpr) r : r0 = Ok t → k t s = r →
  (let* typ := clift r0 in k typ)%cm s = r.
Proof. intros -> Hk. exact Hk. Qed.

Lemma cmap_ext {A B} (f1 f2 : A → cm B) l s : (∀ x s, f1 x s = f2 x s) → cmap f1 l s = cmap f2 l s.
Proof.
  intros Hf. revert s. induction l as [|x l IH]; intros s; [done|]. cbn [cmap]. unfold cbind. rewrite Hf.
  destruct (f2 x s) as [[y s1]| |]; [|done..]. cbn [rbind]. by rewrite IH.
Qed.

Lemma let_types_ok bs binders st : in_scopes st → check_let_types (check_expr oc) bs st = (Ok binders, st) →
  ∃ ts, Forall2 (λ b t, check_expr oc (ba b) st = (Ok t, st)) bs ts
    ∧ binders = map (λ '(b, t), mkBinder (bname b) t) (zip bs ts).
Proof.
  intros Hin. unfold check_let_types. revert binders. induction bs as [|b bs IH]; intros binders H; simpl in H.
  { injection H as <-. exists []. by split; [constructor|]. }
  tinv H. tinv Hm. apply check_expr_stable in Hm0 as Hst; [|done]. subst st1. injection Hm as <- <-.
  tinv H. apply stable_let_types in Hm as Hst; [|by apply Forall_true; intros; apply check_expr_stable|done].
  subst st0. injection H as <-. destruct (IH _ Hm) as (ts & Hts & ->). exists (x0 :: ts).
  split; [by constructor|done].
Qed.

Lemma rebuild_binders (bs : Binders Expr) rest :
  map (λ '(b, e), mkBinder (bname b) e) (zip bs (map ba bs ++ rest)) = bs.
Proof. induction bs as [|[x e] bs IH]; [done|]. cbn. by rewrite IH. Qed.

Lemma simplify_let_same f bs e1 t st st' s : Forall (checks_same f) (e1 :: (ba <$> bs)) → in_scopes st →
  closure_states s = [] → check_expr oc (ExprX_Bind (BindX_Let bs) e1) st = (Ok t, st') →
  simplify_let f bs e1 (with_decls s (decls st)) = Ok ((t, ExprX_Bind (BindX_Let bs) e1, None), with_decls s (decls st)).
Proof.
  intros [H1 Hbs]%Forall_cons Hin Hs H.
  apply check_bind_inv in H as (binders & inner & t1 & [Hb _ He _ _ Hbody Hr] & ->);
    [|apply Forall_true; intros; apply check_expr_stable|apply check_expr_stable|done].
  simpl in Hr. subst t1. destruct (let_types_ok bs binders st Hin Hb) as (ts & Hts & ->).
  assert (Hsame : Forall2 (λ b t, same_at f (decls st) (ba b) t) bs ts).
  { clear -Hbs Hts Hin. induction Hts as [|b t bs ts Hbt _ IH]; [constructor|].
    apply Forall_cons in Hbs as [Hb Hbs]. constructor; [by eapply Hb|by apply IH]. }
  pose proof (Forall2_length _ _ _ Hts) as Hlen. set (nones := map (λ _, @None Term) bs).
  destruct (zip3_typs ts (map ba bs) nones) as (_ & Z2 & _); [by rewrite length_map|by rewrite /nones !length_map|].
  destruct (entered_scopes st _ inner Hin He) as (Hin' & _).
  unfold simplify_let, cbind. rewrite (cmap_same f (decls st) ba bs ts s Hs Hsame). cbn [rbind].
  rewrite push_same. cbn [rbind]. fold nones. set (rs := zip (zip ts (map ba bs)) nones).
  rewrite (cmap_ext _ (λ x, insert_var (bname (mkBinder (bname x.1) x.2.1.1)) (ba (mkBinder (bname x.1) x.2.1.1))));
    [by intros [b r] s1|].
  assert (Hk : map (λ x : BinderX Expr * (Typ * Expr * option Term), mkBinder (bname x.1) x.2.1.1) (zip bs rs)
    = map (λ '(b, t), mkBinder (bname b) t) (zip bs ts)).
  { unfold rs, nones. clear. revert ts. induction bs as [|b bs IH]; intros [|t ts]; try done. cbn. f_equal. apply IH. }
  unfold entered in He. rewrite -Hk in He. rewrite (insert_all_same _ _ _ _ s He). cbn [rbind].
  rewrite (H1 inner t inner Hin' Hbody s Hs). cbn [rbind].
  rewrite Hk in He. rewrite (pop_same st _ inner s Hin He). cbn [rbind]. rewrite enclose_same //. cbn [rbind].
  rewrite Z2 rebuild_binders last_snoc. done.
Qed.

Lemma simplify_quant_same f q bs ts qid e1 t st st' s : Forall (checks_same f) (e1 :: concat ts) → in_scopes st →
  closure_states s = [] → check_expr oc (ExprX_Bind (BindX_Quant q bs ts qid) e1) st = (Ok t, st') →
  simplify_quant f q bs ts qid e1 (with_decls s (decls st))
  = Ok ((t, ExprX_Bind (BindX_Quant q bs ts qid) e1, None), with_decls s (decls st)).
Proof.
  intros [H1 Hts]%Forall_cons Hin Hs H.
  apply check_bind_inv in H as (binders & inner & t1 & [Hb _ He Htr _ Hbody Hr] & ->);
    [|apply Forall_true; intros; apply check_expr_stable|apply check_expr_stable|done].
  simpl in Hr, Hb, Htr. destruct Hr as [-> ->]. injection Hb as <-.
  destruct (entered_scopes st _ inner Hin He) as (Hin' & _).
  assert (Hc : ∃ ls, Forall2 (same_at f (decls inner)) (concat ts) ls).
  { rewrite -Forall_concat in Htr. clear -Htr Hts Hin'. induction Htr as [|e es [t He] _ IH]; [by exists []|].
    apply Forall_cons in Hts as [He' Hts]. destruct (IH Hts) as [ls Hls]. exists (t :: ls).
    constructor; [by eapply He'|done]. }
  destruct Hc as [ls Hls]. unfold simplify_quant, cbind. rewrite push_same. cbn [rbind].
  rewrite (entered_same st bs inner s He). cbn [rbind].
  rewrite (simplify_exprs_same f (decls inner) (concat ts ++ [e1]) (ls ++ [bt]) s Hs).
  { apply Forall2_app; [done|]. constructor; [by eapply H1|done]. }
  cbn [rbind]. rewrite enclose_same //. cbn [rbind]. rewrite (pop_same st bs inner s Hin He). cbn [rbind].
  by rewrite take_triggers_concat.
Qed.

Lemma simplify_arm_same f e : is_higher e = false → Forall (checks_same f) (children e) →
  checks_same (simplify_arm oc f) e.
Proof.
  intros Hh Hc st t st' Hin H s Hs.
  destruct e as [c|x|sn x|x es|ty e0 es|op e|op e1 e2|op es|e1 e2 e3|es|b e|ls fl e|i m fl e];
    cbn [children] in Hc; cbn [simplify_arm]; try done.
  all: try match type of H with check_expr _ (ExprX_Bind ?b _) _ = _ =>
      destruct b as [bs|q bs ts qid|bs ts qid w cond|bs ts qid cond]; try done;
      [by apply (simplify_let_same f bs e t st st')|by apply (simplify_quant_same f q bs ts qid e t st st')]
    end.
  all: cbn [check_expr] in H; apply wrap_error_ok in H.
  - destruct c; by injection H as <- <-.
  - tinv H. injection Hm as <- <-. unfold cbind, simplify_var. simpl.
    destruct (get st x) as [[|ty m|]|] eqn:Hg; try done. injection H as <- <-.
    unfold get in Hg |- *. simpl. rewrite Hg Hs. done.
  - destruct (decide _); [|done]. unfold cbind, simplify_var. simpl.
    destruct (get st x) as [[|ty m|]|] eqn:Hg; try done. injection H as <- <-.
    unfold get in Hg |- *. simpl. rewrite Hg Hs. done.
  - tinv H. unfold get_fun in Hm. tinv Hm. injection Hm0 as <- <-.
    unfold cbind at 1, get_typed. simpl. unfold get in Hm |- *. simpl.
    destruct (ScopeMap.get (decls st) x) as [[|ty m|ps rt fa]|] eqn:Hg; try (by injection Hm as <- <-).
    injection Hm as <- <-. apply as_result_ok, check_exprs_ok in H as [-> Hf]; [|done|].
    2: { apply Forall_map, Forall_true. intros e. apply check_expr_stable. }
    apply (arm_same f es ps); [done|by apply all_same|]. by apply enclose_then.
  - apply check_unary_typ in H as (t0 & H0 & Ht); [|done|apply check_expr_stable].
    apply Forall_cons in Hc as [Hc _].
    apply (arm_same f [e] [t0]); [done|constructor; [by eapply Hc|done]|].
    apply (clift_then _ t); [done|]. by apply enclose_then.
  - apply check_binary_typ in H as (t1 & t2 & H1 & H2 & Ht); [|done|apply check_expr_stable..].
    apply Forall_cons in Hc as [Hc1 Hc]. apply Forall_cons in Hc as [Hc2 _].
    apply (arm_same f [e1; e2] [t1; t2]); [done|constructor; [by eapply Hc1|constructor; [by eapply Hc2|done]]|].
    apply (clift_then _ t); [done|]. by apply enclose_then.
  - apply check_multi_typ in H as (ts & Hf & Ht); [|done|].
    2: { apply Forall_map, Forall_true. intros e. apply check_expr_stable. }
    pose proof (all_same f es ts st Hc Hin Hf) as Hsame.
    apply (arm_same f es ts); [done|done|]. apply (clift_then _ t).
    { by rewrite typs_of //; apply Forall2_length in Hsame. }
    by apply enclose_then.
  - apply Forall_cons in Hc as [Hc1 Hc]. apply Forall_cons in Hc as [Hc2 Hc]. apply Forall_cons in Hc as [Hc3 _].
    check_first (check_expr_stable oc e1) H. check_first (check_expr_stable oc e2) H.
    check_first (check_expr_stable oc e3) H. check_steps; try done.
    apply (arm_same f [e1; e2; e3] [t0; t; t2]); [done| |].
    { repeat constructor; [by eapply Hc1|by eapply Hc2|by eapply Hc3]. }
    apply (clift_then _ t); [done|]. by apply enclose_then.
  - apply as_result_ok in H. apply Forall_cons in Hc as [Hc _].
    apply (arm_same f [e] [t]); [done|constructor; [by eapply Hc|done]|].
    apply (clift_then _ t); [done|]. by apply enclose_then.
  - apply as_result_ok in H. apply Forall_cons in Hc as [Hc _].
    apply (arm_same f [e] [t]); [done|constructor; [by eapply Hc|done]|].
    apply (clift_then _ t); [done|]. by apply enclose_then.
Qed.

Lemma simplify_same fuel e : first_order e = true → depth e ≤ fuel → checks_same (simplify_expr oc fuel) e.
Proof.
  revert e. induction fuel as [|fuel IH]; intros e He Hf; [pose proof (depth_pos e); lia|].
  destruct (good_depth e He) as [Hc Hh]. apply simplify_arm_same; [done|].
  eapply Forall_impl; [exact Hc|]. intros x [Hx Hd]. apply IH; [done|lia].
Qed.
End same.
