(* ===== verification/Emitter.v ===== *)
(** * The text from and to the solver (source/air/src/smt_verify.rs, emitter.rs)

    First the functions of smt_verify.rs and context.rs that take apart the lines a solver
    prints; their white space is that of ASCII, in which solvers answer.  Then the
    commands written to the solver and what they put in force. *)

From Stdlib Require Import Ascii String.
From S2P Require Import Prelude StateRes RustString Ast AstUtil Semantics Node Messages Printer.
From S2P Require Import Parser.
Set Warnings "-rewrite-rw,-register-all,-clear-no-such-hyp".
Local Open Scope string_scope.
Local Open Scope list_scope.

(** ** String functions of the standard library *)

Definition str_rev (s : string) : string := string_of_list_ascii (rev (list_ascii_of_string s)).

(** [s.strip_suffix(p)] *)
Definition strip_suffix (p s : string) : option string := str_rev <$> strip_prefix (str_rev p) (str_rev s).

Fixpoint trim_start_by (p : ascii → bool) (s : string) : string :=
  match s with String c s' => if p c then trim_start_by p s' else s | EmptyString => s end.
Definition trim_end_by (p : ascii → bool) (s : string) : string := str_rev (trim_start_by p (str_rev s)).
(** [s.trim_matches(p)] *)
Definition trim_matches (p : ascii → bool) (s : string) : string := trim_end_by p (trim_start_by p s).

Definition is_space (c : ascii) : bool :=
  let n := N_of_ascii c in (n =? 32)%N || ((9 <=? n)%N && (n <=? 13)%N).

(** The characters before the first that satisfies [p]. *)
Fixpoint take_until (p : ascii → bool) (s : string) : string :=
  match s with String c s' => if p c then EmptyString else String c (take_until p s') | EmptyString => s end.

(** [s.split_whitespace().next()] *)
Definition first_word (s : string) : option string :=
  match trim_start_by is_space s with EmptyString => None | s' => Some (take_until is_space s') end.

(** [s.rsplit(' ').next()] is never [None]. *)
Definition last_field (s : string) : string := str_rev (take_until (Ascii.eqb " ") (str_rev s)).

(** [s.split(' ')] *)
Fixpoint split_spaces (s : string) : list string :=
  match s with
  | EmptyString => [EmptyString]
  | String c s' =>
    if Ascii.eqb " " c then EmptyString :: split_spaces s'
    else match split_spaces s' with w :: ws => String c w :: ws | [] => [] end
  end.
(** [s.split_terminator(' ')]: without a trailing empty field. *)
Definition split_terminator (s : string) : list string :=
  let fields := split_spaces s in
  match last fields with Some EmptyString => removelast fields | _ => fields end.

(** [s.contains(p)] *)
Fixpoint contains (p s : string) : bool :=
  starts_with p s || match s with EmptyString => false | String _ s' => contains p s' end.

(** [&s[1..]], which panics inside a character. *)
Definition str_from_1 (s : string) : res fuel_error string :=
  match s with
  | String c s' => if (N_of_ascii c <? 128)%N then Ok s' else Panic
  | EmptyString => Panic
  end.

(** ** Versions and reasons *)

Definition GET_VERSION_RESPONSE_PREFIX : string := "(:version".

Definition is_space_or_quote (c : ascii) : bool := Ascii.eqb c " " || (N_of_ascii c =? 34)%N.

Definition parse_version_response (line : string) : option string :=
  value ← strip_prefix GET_VERSION_RESPONSE_PREFIX line;
  let value := default value (strip_suffix ")" (trim_end_by is_space value)) in
  first_word (trim_matches is_space_or_quote value).

Definition reason_unknown (text : string) : string :=
  "(:reason-unknown " +:+ quote +:+ text +:+ quote +:+ ")".

Definition reason_unknown_canceled_strs (self : SmtSolver) : list string :=
  match self with
  | SmtSolver_Z3 => [reason_unknown "canceled"; reason_unknown "max. resource limit exceeded"]
  | SmtSolver_Cvc5 => ["(:reason-unknown resourceout)"]
  end.

Definition reason_unknown_incomplete_str (self : SmtSolver) : string :=
  match self with
  | SmtSolver_Z3 => "(:reason-unknown " +:+ quote +:+ "(incomplete"
  | SmtSolver_Cvc5 => "(:reason-unknown incomplete)"
  end.

Inductive SmtOutput := Unsat | Sat | Unknown.

Inductive SmtReasonUnknown := Reason_Canceled | Reason_Incomplete | Reason_Unknown.

Definition parse_smt_output (line : string) : option SmtOutput :=
  if line =? "unsat" then Some Unsat
  else if line =? "sat" then Some Sat
  else if (line =? "unknown") || (line =? "cvc5 interrupted by timeout.") then Some Unknown
  else None.

Definition parse_reason (solver : SmtSolver) (line : string) : option SmtReasonUnknown :=
  if existsb (String.eqb line) (reason_unknown_canceled_strs solver) then Some Reason_Canceled
  else if line =? reason_unknown "unknown" then Some Reason_Unknown
  else if starts_with (reason_unknown_incomplete_str solver) line then Some Reason_Incomplete
  else if line =? reason_unknown "smt tactic failed to show goal to be sat/unsat (incomplete quantifiers)"
    then Some Reason_Incomplete
  else None.

(** ** Unsat cores, values and statistics *)

Definition parse_unsat_core (line : string) : res fuel_error (list Ident) :=
  rbind (expect (strip_prefix "(" line)) (λ s,
  rbind (expect (strip_suffix ")" s)) (λ s, Ok (split_terminator s))).

(** The lines are joined by [output.join] with a space. *)
Definition parse_value (output : list string) : option bool :=
  s ← strip_suffix "))" (String.concat " " output);
  let v := last_field s in
  if v =? "true" then Some true else if v =? "false" then Some false else None.

(** [chunks(2)] *)
Fixpoint chunks2 {A} (l : list A) : list (list A) :=
  match l with
  | [] => []
  | [x] => [[x]]
  | x :: y :: l' => [x; y] :: chunks2 l'
  end.

Definition bad_statistics : string := "expected key-value pair in statistics".

(** The closure of [map] with the [collect] into a [HashMap]; the error is the
    text of [UnexpectedOutput]. *)
Fixpoint stats_map (chunks : list (list Node)) (acc : gmap string string)
    : res fuel_error (string + gmap string string) :=
  match chunks with
  | [] => Ok (inr acc)
  | [Node_Atom key; value] :: rest =>
    rbind (str_from_1 key) (λ key,
    match value with
    | Node_Atom value => stats_map rest (<[key := value]> acc)
    | Node_List _ => Ok (inl bad_statistics)
    end)
  | _ :: _ => Ok (inl bad_statistics)
  end.

Definition rlimit_count_of (statistics : Node) : res fuel_error (string + N) :=
  match statistics with
  | Node_Atom _ => Panic
  | Node_List nodes =>
    rbind (stats_map (chunks2 nodes) ∅) (λ r,
    match r with
    | inl e => Ok (inl e)
    | inr m =>
      match m !! "rlimit-count" with
      | None => Ok (inr 0%N)
      | Some value =>
        match parse_u64 value with
        | Some count => Ok (inr count)
        | None => Ok (inl "expected rlimit-count in smt statistics")
        end
      end
    end)
  end.

(** ** Commands for the solver (source/air/src/emitter.rs)

    The pipe buffer of an [Emitter] is the list of the commands written to it;
    [command_to_node] is the node each of them is written as.  Log files, their
    indentation, comments and blank lines are left out: they are never sent.

    [active] is what the commands mean to the solver: the declarations and
    assertions in force after them, which [push] and [pop] scope. *)

Inductive SmtCommand :=
| SmtDecl (decl : Decl)
| SmtAssert (named : option Ident) (expr : Expr)
| SmtPush
| SmtPop
| SmtSetOption (option value : string)
| SmtGetInfo (param : string)
| SmtWord (word : string)
| SmtEval (expr : Node)
| SmtNode (node : Node).

(** The nodes that [log_decl], [log_assert], ... write. *)
Definition command_to_node `{M : MessageInterface} (p : Printer) (c : SmtCommand) : Node :=
  match c with
  | SmtDecl decl => decl_to_node p decl
  | SmtAssert (Some named) expr =>
    node_list [Node_Atom "assert";
               node_list [Node_Atom "!"; expr_to_node p expr; Node_Atom ":named"; Node_Atom named]]
  | SmtAssert None expr => node_list [Node_Atom "assert"; expr_to_node p expr]
  | SmtPush => node_list [Node_Atom "push"]
  | SmtPop => node_list [Node_Atom "pop"]
  | SmtSetOption option value =>
    node_list [Node_Atom "set"; Node_Atom "-"; Node_Atom "option"; Node_Atom (":" +:+ option); Node_Atom value]
  | SmtGetInfo param => node_list [Node_Atom "get"; Node_Atom "-"; Node_Atom "info"; Node_Atom (":" +:+ param)]
  | SmtWord s => Node_List [Node_Atom s]
  | SmtEval expr => node_list [Node_Atom "eval"; expr]
  | SmtNode node => node
  end.

(** ** The solver's stack *)

(** Innermost scope first; an assertion is kept as an axiom. *)
Definition Stack := list Decls.

Definition add_top (d : Decl) (st : Stack) : Stack :=
  match st with f :: st' => (f ++ [d]) :: st' | [] => [[d]] end.

Definition stack_step (st : Stack) (c : SmtCommand) : Stack :=
  match c with
  | SmtDecl d => add_top d st
  | SmtAssert n e => add_top (DeclX_Axiom (mkAxiom n e)) st
  | SmtPush => [] :: st
  | SmtPop => tail st
  | _ => st
  end.
Definition stack_run : Stack → list SmtCommand → Stack := foldl stack_step.
Definition stack_of (cs : list SmtCommand) : Stack := stack_run [[]] cs.
Definition active (cs : list SmtCommand) : Decls := List.concat (stack_of cs).

(** [cs] only adds [ds] to the innermost scope. *)
Definition adds (cs : list SmtCommand) (ds : Decls) : Prop :=
  ∀ f st, stack_run (f :: st) cs = (f ++ ds) :: st.

Lemma stack_run_app st cs1 cs2 : stack_run st (cs1 ++ cs2) = stack_run (stack_run st cs1) cs2.
Proof. apply foldl_app. Qed.

Lemma adds_nil : adds [] [].
Proof. intros f st. by rewrite app_nil_r. Qed.
Lemma adds_app cs1 cs2 ds1 ds2 : adds cs1 ds1 → adds cs2 ds2 → adds (cs1 ++ cs2) (ds1 ++ ds2).
Proof. intros H1 H2 f st. by rewrite stack_run_app H1 H2 app_assoc. Qed.
Lemma adds_decl d : adds [SmtDecl d] [d].
Proof. done. Qed.
Lemma adds_assert n e : adds [SmtAssert n e] [DeclX_Axiom (mkAxiom n e)].
Proof. done. Qed.

(** Commands that say nothing about the stack. *)
Definition is_query (c : SmtCommand) : bool :=
  match c with SmtDecl _ | SmtAssert _ _ | SmtPush | SmtPop => false | _ => true end.

Lemma adds_queries cs : forallb is_query cs = true → adds cs [].
Proof.
  intros H f st. rewrite app_nil_r. revert H. induction cs as [|c cs IH]; [done|]. cbn.
  intros [Hc H]%andb_true_iff. destruct c; try done; by apply IH.
Qed.

(** What is pushed is popped. *)
Lemma push_pop_run cs ds st : adds cs ds → stack_run st ([SmtPush] ++ cs ++ [SmtPop]) = st.
Proof. intros H. by rewrite !stack_run_app /= H. Qed.

(** Commands that do not close a scope, and what they add. *)
Definition no_pop (c : SmtCommand) : bool := match c with SmtPop => false | _ => true end.
Definition added : list SmtCommand → Decls := omap (λ c,
  match c with SmtDecl d => Some d | SmtAssert n e => Some (DeclX_Axiom (mkAxiom n e)) | _ => None end).

Lemma concat_add_top d st : List.concat (add_top d st) ≡ₚ List.concat st ++ [d].
Proof.
  destruct st as [|f st]; [done|]. cbn. rewrite -!app_assoc. f_equiv. apply Permutation_app_comm.
Qed.

Lemma active_app cs cs' : forallb no_pop cs' = true → active (cs ++ cs') ≡ₚ active cs ++ added cs'.
Proof.
  unfold active, stack_of. rewrite stack_run_app. generalize (stack_run [[]] cs). clear cs.
  induction cs' as [|c cs IH]; intros st; [by rewrite app_nil_r|]. intros [Hc Hcs]%andb_true_iff.
  cbn [stack_run foldl]. etrans; [by apply IH|].
  destruct c; cbn; try done; rewrite concat_add_top -app_assoc //.
Qed.

Lemma added_app cs1 cs2 : added (cs1 ++ cs2) = added cs1 ++ added cs2.
Proof. apply omap_app. Qed.
