(* ===== verification/AirContext.v ===== *)
(** * The context of the verifier (source/air/src/context.rs, model.rs)

    The state that queries share: the scoped names, the commands written to the
    solver and the state of the current query.  The logs of AIR, the clocks, the
    AIR observer and the debug flag are left out.  [sent] has the batches of
    commands that the solver process has received; it answers a batch knowing all
    earlier ones ([send_commands]). *)

From S2P Require Import Prelude StateRes RustString Ast AstUtil IndexMap VarToConst Messages Node Printer Typecheck ClosureTerm Closure Parser Emitter.
From S2P Require ScopeMap.
From Stdlib Require Import Ascii String.
Set Warnings "-rewrite-rw,-register-all,-clear-no-such-hyp".
Local Open Scope string_scope.
Local Open Scope list_scope.
Local Open Scope cm_scope.

Section with_index_map.
Context {IM : IndexMapOps}.

(** ** Models (model.rs) *)

Record Model := mkModel { id_snapshots : Snapshots; parameters : gset Ident }.

Definition new_model (snapshots : Snapshots) (params : list Decl) : Model :=
  mkModel snapshots (list_to_set (omap (λ d, match d with DeclX_Const x _ => Some x | _ => None end) params)).

Definition translate_variable (self : Model) (sid name : Ident) : option string :=
  id_snapshot ← id_snapshots self !! sid;
  match im_get id_snapshot name with
  | Some var_label => Some (rename_var name var_label)
  | None => if decide (name ∈ parameters self) then Some name else None
  end.

(** ** Data *)

Record AssertionInfo := mkAssertionInfo {
  ai_assert_id : option AssertId;
  ai_error : ArcDynMessage;
  ai_label : Ident;
  ai_filter : AxiomInfoFilter;
  ai_decl : Decl;
  ai_disabled : bool
}.

Record AxiomInfo := mkAxiomInfo {
  xi_labels : list ArcDynMessageLabel;
  xi_label : Ident;
  xi_filter : AxiomInfoFilter;
  xi_decl : Decl
}.

Inductive UsageInfo := UsageInfo_None | UsageInfo_UsedAxioms (axioms : list Ident).

Inductive ValidityResult :=
| ValidityResult_Valid (usage : UsageInfo)
| ValidityResult_Invalid (model : option Model) (error : option ArcDynMessage) (assert_id : option AssertId)
| ValidityResult_Canceled
| ValidityResult_TypeError (err : TypeError)
| ValidityResult_UnexpectedOutput (line : string).

Inductive ContextState :=
| ContextState_NotStarted
| ContextState_ReadyForQuery
| ContextState_FoundResult
| ContextState_FoundInvalid (infos : list AssertionInfo) (air_model : option Model)
| ContextState_Canceled
| ContextState_NoMoreQueriesAllowed.

(** query_result_observer.rs: what the observer is told. *)
Inductive CheckValidResult :=
| CheckValidResult_Invalid (model_defs : gmap Ident ModelDefX) (assert_id : option AssertId) (error : ArcDynMessage)
| CheckValidResult_Valid (assert_ids : list (option AssertId)) (usage_info : UsageInfo)
| CheckValidResult_Timeout (assert_id : option AssertId).

(** The fields that settings change. *)
Record Options := mkOptions {
  ignore_unexpected_smt : bool;
  rlimit : N;
  expected_solver_version : option string;
  profile_logfile_name : option string;
  single_check_query : bool;
  usage_info_enabled : bool;
  solver : SmtSolver;
  smt_encoding : SmtEncoding
}.

Record Context := mkContext {
  closures : Closures;
  axiom_infos : ScopeMap.ScopeMap Ident AxiomInfo;
  axiom_infos_count : N;
  smt_log : list SmtCommand;
  sent : list (list SmtCommand);
  rlimit_count : option (N * N);
  state : ContextState;
  opts : Options;
  check_valid_used : bool;
  reports : list ArcDynMessage;
  observed : list CheckValidResult
}.

Definition cx : Type → Type := sm Context.

(** ** Access to the state *)

Definition gets {A} (f : Context → A) : cx A := λ c, Ok (f c, c).
Definition modify (f : Context → Context) : cx unit := λ c, Ok (tt, f c).
Definition assert (b : bool) : cx unit := if b then cret tt else cpanic.

Definition set_closures (c : Context) (x : Closures) : Context :=
  mkContext x (axiom_infos c) (axiom_infos_count c) (smt_log c) (sent c) (rlimit_count c) (state c) (opts c)
    (check_valid_used c) (reports c) (observed c).
Definition set_axiom_infos (c : Context) (x : ScopeMap.ScopeMap Ident AxiomInfo) : Context :=
  mkContext (closures c) x (axiom_infos_count c) (smt_log c) (sent c) (rlimit_count c) (state c) (opts c)
    (check_valid_used c) (reports c) (observed c).
Definition set_axiom_infos_count (c : Context) (n : N) : Context :=
  mkContext (closures c) (axiom_infos c) n (smt_log c) (sent c) (rlimit_count c) (state c) (opts c)
    (check_valid_used c) (reports c) (observed c).
Definition set_pipe (c : Context) (x : list SmtCommand) (y : list (list SmtCommand)) : Context :=
  mkContext (closures c) (axiom_infos c) (axiom_infos_count c) x y (rlimit_count c) (state c) (opts c)
    (check_valid_used c) (reports c) (observed c).
Definition set_rlimit_count (c : Context) (x : option (N * N)) : Context :=
  mkContext (closures c) (axiom_infos c) (axiom_infos_count c) (smt_log c) (sent c) x (state c) (opts c)
    (check_valid_used c) (reports c) (observed c).
Definition set_state (c : Context) (x : ContextState) : Context :=
  mkContext (closures c) (axiom_infos c) (axiom_infos_count c) (smt_log c) (sent c) (rlimit_count c) x (opts c)
    (check_valid_used c) (reports c) (observed c).
Definition set_opts (c : Context) (x : Options) : Context :=
  mkContext (closures c) (axiom_infos c) (axiom_infos_count c) (smt_log c) (sent c) (rlimit_count c) (state c) x
    (check_valid_used c) (reports c) (observed c).
Definition set_used (c : Context) : Context :=
  mkContext (closures c) (axiom_infos c) (axiom_infos_count c) (smt_log c) (sent c) (rlimit_count c) (state c) (opts c)
    true (reports c) (observed c).
Definition add_report (c : Context) (m : ArcDynMessage) : Context :=
  mkContext (closures c) (axiom_infos c) (axiom_infos_count c) (smt_log c) (sent c) (rlimit_count c) (state c) (opts c)
    (check_valid_used c) (reports c ++ [m]) (observed c).
Definition add_observed (c : Context) (r : CheckValidResult) : Context :=
  mkContext (closures c) (axiom_infos c) (axiom_infos_count c) (smt_log c) (sent c) (rlimit_count c) (state c) (opts c)
    (check_valid_used c) (reports c) (observed c ++ [r]).

(** Every [log_*] of [smt_log]. *)
Definition log (cs : list SmtCommand) : cx unit := modify (λ c, set_pipe c (smt_log c ++ cs) (sent c)).
Definition put_state (s : ContextState) : cx unit := modify (λ c, set_state c s).

(** A computation on the typing state; [Err] is the [Err] of the code, a value. *)
Definition run_tc {A} (m : tc A) : cx (TypeError + A) := λ c,
  let cl := closures c in
  match m (typing cl) with
  | (Ok x, t) => Ok (inr x, set_closures c (set_typing cl t))
  | (Err e, t) => Ok (inl e, set_closures c (set_typing cl t))
  | (Panic, _) => Panic
  end.

(** A computation on the fields that closure.rs uses. *)
Definition run_cl {A} (m : Closures → res fuel_error (A * Closures)) : cx A := λ c,
  rbind (m (closures c)) (λ '(x, cl), Ok (x, set_closures c cl)).

(** The operator [?] and the early returns of [Err(e) => return ..]. *)
Definition try {E A B} (m : cx (E + A)) (k : A → cx (E + B)) : cx (E + B) :=
  let* r := m in match r with inl e => cret (inl e) | inr x => k x end.

(** ** Settings *)

Definition is_not_started (s : ContextState) : bool :=
  match s with ContextState_NotStarted => true | _ => false end.
Definition is_z3 (s : SmtSolver) : bool := match s with SmtSolver_Z3 => true | SmtSolver_Cvc5 => false end.

Definition set_single_check_query : cx unit := modify (λ c,
  let o := opts c in
  set_opts c (mkOptions (ignore_unexpected_smt o) (rlimit o) (expected_solver_version o) (profile_logfile_name o)
    true (usage_info_enabled o) (solver o) (smt_encoding o))).

Definition set_rlimit (n : N) : cx unit :=
  modify (λ c,
    let o := opts c in
    set_opts c (mkOptions (ignore_unexpected_smt o) n (expected_solver_version o) (profile_logfile_name o)
      (single_check_query o) (usage_info_enabled o) (solver o) (smt_encoding o))) ;*
  let* o := gets opts in
  let* s := gets state in
  if negb (is_z3 (solver o)) && is_not_started s then log [SmtSetOption "rlimit-per" (N_to_string n)]
  else cret tt.

Definition rlimit_is_mutable (c : Context) : bool :=
  match solver (opts c) with SmtSolver_Z3 => true | SmtSolver_Cvc5 => is_not_started (state c) end.

Definition log_set_solver_option (option value : string) : cx unit := log [SmtSetOption option value].

Definition bool_to_string (b : bool) : string := if b then "true" else "false".

Definition set_plain_option_bool (option : string) (value write_to_logs : bool) : cx unit :=
  if (option =? "single_check_query") && value then set_single_check_query
  else if write_to_logs then log_set_solver_option option (bool_to_string value)
  else cret tt.

Definition set_solver_option_u32 (option : string) (value : N) (write_to_logs : bool) : cx unit :=
  let* o := gets opts in
  if (option =? "rlimit") && write_to_logs && is_z3 (solver o) then set_rlimit value
  else if write_to_logs then log_set_solver_option option (N_to_string value)
  else cret tt.

(** [s] is [value.to_string()]. *)
Definition set_solver_option_f64 (option s : string) (write_to_logs : bool) : cx unit :=
  if write_to_logs then log_set_solver_option option (if contains "." s then s else s +:+ ".0") else cret tt.

Definition set_solver_option_str (option value : string) (write_to_logs : bool) : cx unit :=
  if write_to_logs then log_set_solver_option option value else cret tt.

Definition set_logic : SmtCommand :=
  SmtNode (node_list [Node_Atom "set"; Node_Atom "-"; Node_Atom "logic"; Node_Atom "ALL"]).

Definition set_solver_option_bool (option : string) (value write_to_logs : bool) : cx unit :=
  if (option =? "air_recommended_options") && value then
    let* o := gets opts in
    (match smt_encoding o with SmtEncoding_Cvc5 => log [set_logic] | SmtEncoding_Z3 => cret tt end) ;*
    match solver o with
    | SmtSolver_Z3 =>
      set_plain_option_bool "auto_config" false true ;*
      set_plain_option_bool "smt.mbqi" false true ;*
      set_solver_option_u32 "smt.case_split" 3 true ;*
      set_solver_option_f64 "smt.qi.eager_threshold" "100" true ;*
      set_plain_option_bool "smt.delay_units" true true ;*
      set_solver_option_u32 "smt.arith.solver" 2 true ;*
      set_plain_option_bool "smt.arith.nl" false true ;*
      set_plain_option_bool "pi.enabled" false true ;*
      set_plain_option_bool "rewriter.sort_disjunctions" false true
    | SmtSolver_Cvc5 => set_plain_option_bool "incremental" true true
    end
  else set_plain_option_bool option value write_to_logs.

Definition enable_usage_info : cx unit :=
  let* s := gets state in
  assert (is_not_started s) ;*
  modify (λ c,
    let o := opts c in
    set_opts c (mkOptions (ignore_unexpected_smt o) (rlimit o) (expected_solver_version o) (profile_logfile_name o)
      (single_check_query o) true (solver o) (smt_encoding o))) ;*
  set_solver_option_bool "produce-unsat-cores" true true.

(** [f64_text value] is [v.to_string()] when [value] parses as the float [v]. *)
Definition set_solver_option (f64_text : string → option string) (option value : string) : cx unit :=
  if value =? "true" then set_solver_option_bool option true true
  else if value =? "false" then set_solver_option_bool option false true
  else
    match parse_u32 value with
    | Some v => set_solver_option_u32 option v true
    | None =>
      match f64_text value with
      | Some s => set_solver_option_f64 option s true
      | None =>
        if all_chars (λ c, N_of_ascii c <? 128)%N value then set_solver_option_str option value true
        else cpanic
      end
    end.

(** ** Scopes *)

(** [push_scope(false)] and [pop_scope()] on the maps of closure.rs. *)
Definition push_closure_scopes (cl : Closures) : Closures :=
  let p {V} {K} `{Countable K} (m : ScopeMap.ScopeMap K V) := ScopeMap.push_scope m false in
  mkClosures (set_decls (typing cl) (p (decls (typing cl)))) (p (array_map cl)) (array_count cl)
    (p (lambda_map cl)) (lambda_count cl) (p (choose_map cl)) (choose_count cl) (p (apply_map cl)) (apply_count cl)
    (closure_events cl).

Definition pop_closure_scopes (cl : Closures) : res fuel_error Closures :=
  rbind (ScopeMap.pop_scope (array_map cl)) (λ am,
  rbind (ScopeMap.pop_scope (lambda_map cl)) (λ lm,
  rbind (ScopeMap.pop_scope (choose_map cl)) (λ cm,
  rbind (ScopeMap.pop_scope (apply_map cl)) (λ pm,
  rbind (ScopeMap.pop_scope (decls (typing cl))) (λ d,
  Ok (mkClosures (set_decls (typing cl) d) am (array_count cl) lm (lambda_count cl) cm (choose_count cl)
        pm (apply_count cl) (closure_events cl))))))).

Definition push_name_scope : cx unit := modify (λ c,
  set_closures (set_axiom_infos c (ScopeMap.push_scope (axiom_infos c) false)) (push_closure_scopes (closures c))).

Definition pop_name_scope : cx unit := λ c,
  rbind (ScopeMap.pop_scope (axiom_infos c)) (λ ai,
  rbind (pop_closure_scopes (closures c)) (λ cl,
  Ok (tt, set_closures (set_axiom_infos c ai) cl))).

Definition declare_function_sort : SmtCommand :=
  SmtNode (node_list [Node_Atom "declare"; Node_Atom "-"; Node_Atom "sort"; str_to_node FUNCTION; Node_Atom "0"]).

(** [profile_logfile_name.replace("\\", "/")] *)
Fixpoint replace_backslashes (s : string) : string :=
  match s with
  | String c s' => String (if (N_of_ascii c =? 92)%N then "/" else c)%char (replace_backslashes s')
  | EmptyString => EmptyString
  end.

Definition ensure_started : cx unit :=
  let* s := gets state in
  match s with
  | ContextState_NotStarted =>
    let* o := gets opts in
    match profile_logfile_name o with
    | Some name =>
      set_solver_option_bool "trace" true true ;*
      log_set_solver_option "trace_file_name" (replace_backslashes name)
    | None => cret tt
    end ;*
    log [declare_function_sort] ;*
    put_state ContextState_ReadyForQuery
  | ContextState_ReadyForQuery => cret tt
  | _ => cpanic
  end.

Definition push : cx unit := ensure_started ;* log [SmtPush] ;* push_name_scope.
Definition pop : cx unit := log [SmtPop] ;* pop_name_scope.

(** [Context::new_with_encoding] *)
Definition new_closures : Closures :=
  let p {V} {K} `{Countable K} : ScopeMap.ScopeMap K V := ScopeMap.push_scope ScopeMap.new false in
  mkClosures (mkTyping p ∅ ∅ p) p 0 p 0 p 0 p 0 [].

Definition new_with_encoding (s : SmtSolver) (enc : SmtEncoding) : Context :=
  mkContext new_closures (ScopeMap.push_scope ScopeMap.new false) 0 [] []
    (match s with SmtSolver_Z3 => Some (0, 0)%N | SmtSolver_Cvc5 => None end)
    ContextState_NotStarted (mkOptions false 0 None None false false s enc) false [] [].

End with_index_map.

Notation "'try*' p ':=' m 'in' k" := (try m (λ p, k))
  (at level 10, p pattern, m at level 100, k at level 200) : cm_scope.
