(* ===== verification/CheckClosures.v ===== *)
(** * Checking and rewriting a query (source/air/src/typecheck.rs)

    [check_decl] and [check_query] as the context runs them: the checks of
    [Typecheck], each followed by the rewriting of [Closure].  For what has no closure
    they are those of [Typecheck]. *)

From S2P Require Import Prelude StateRes RustString Ast AstUtil Semantics StmtFacts IndexMap.
From S2P Require Import Typecheck TypecheckFacts CheckedQuery ClosureTerm Closure ClosureFacts.
From S2P Require Import ClosureChecked AirContext.
From S2P Require ScopeMap.
Set Warnings "-rewrite-rw,-register-all,-clear-no-such-hyp".
Local Open Scope cm_scope.

Section with_index_map.
Context {IM : IndexMapOps} (oc : bool) (fuel : nat).

Definition check_decl (decl : Decl) : cx (Typecheck.TypeError + (list Decl * Decl)) :=
  try* _ := run_tc (Typecheck.check_decl oc decl) in
  let* r := run_cl (λ cl, simplify_decl oc fuel cl decl) in
  cret (inr r).

Definition add_decl (decl : Decl) (is_global : bool) : cx (Typecheck.TypeError + unit) :=
  run_tc (Typecheck.add_decl decl is_global).

Definition scopes_agree (c : Context) : bool :=
  (ScopeMap.num_scopes (apply_map (closures c)) =? ScopeMap.num_scopes (Typecheck.decls (typing (closures c))))%nat.

(** The loop over [query.local]; the result is [locals]. *)
Fixpoint check_locals (ds : list Decl) : cx (Typecheck.TypeError + list Decl) :=
  match ds with
  | [] => cret (inr [])
  | decl :: ds' =>
    try* (gen_decls, decl) := check_decl decl in
    try* _ := add_decl decl false in
    try* locals := check_locals ds' in
    cret (inr (gen_decls ++ decl :: locals))
  end.

Definition reset_query_state : Typecheck.tc unit := λ st,
  (Ok tt, Typecheck.mkTyping (Typecheck.decls st) ∅ ∅ (Typecheck.break_labels_in_scope st)).

Definition check_query (query : Query) : cx (Typecheck.TypeError + Query) :=
  let* num_scopes := gets (λ c, ScopeMap.num_scopes (Typecheck.decls (typing (closures c)))) in
  push_name_scope ;*
  try* locals := check_locals (local query) in
  try* _ := run_tc reset_query_state in
  try* _ := run_tc (Typecheck.check_stmt oc (assertion query)) in
  let* b := gets scopes_agree in
  assert b ;*
  let* (gen_decls, assertion) := run_cl (λ cl, simplify_stmt oc fuel cl (assertion query)) in
  let* b := gets scopes_agree in
  assert b ;*
  pop_name_scope ;*
  let* n := gets (λ c, ScopeMap.num_scopes (Typecheck.decls (typing (closures c)))) in
  assert (n =? num_scopes)%nat ;*
  cret (inr (mkQuery (locals ++ gen_decls) assertion)).
End with_index_map.

(** ** Rewriting leaves queries without closures alone, and removes closures

    For a query without closures the checker with the rewriting is the checker of
    [Typecheck]: same errors, same state, and the query comes back unchanged.  For
    every query that fits the fuel the rewritten query has no closures. *)

(** The expressions of a query. *)
Definition decl_exprs (d : Decl) : list Expr := match d with DeclX_Axiom ax => [expr ax] | _ => [] end.
Definition query_exprs (q : Query) : list Expr := concat (map decl_exprs (local q)) ++ stmt_exprs (assertion q).

(** No closures, and the fuel suffices. *)
Definition plain (fuel : nat) (e : Expr) : Prop := first_order e = true ∧ depth e ≤ fuel.
(** Closures, and the fuel suffices. *)
Definition fits (fuel : nat) (e : Expr) : Prop := wraps_simple e = true ∧ weight e ≤ fuel.

(** A statement without its expressions. *)
Fixpoint skeleton (s : Stmt) : Stmt :=
  match s with
  | StmtX_Assume _ => StmtX_Assume mk_true
  | StmtX_Assert aid msg filter _ => StmtX_Assert aid msg filter mk_true
  | StmtX_Assign x _ => StmtX_Assign x mk_true
  | StmtX_DeadEnd s => StmtX_DeadEnd (skeleton s)
  | StmtX_Breakable l s => StmtX_Breakable l (skeleton s)
  | StmtX_Block ss => StmtX_Block (map skeleton ss)
  | StmtX_Switch ss => StmtX_Switch (map skeleton ss)
  | _ => s
  end.

Lemma elem_of_concat_map {A B} (f : A → list B) l x y : x ∈ l → y ∈ f x → y ∈ concat (map f l).
Proof. intros Hx Hy. apply list_elem_of_In, in_concat. exists (f x). split; [|by apply list_elem_of_In]. by apply in_map, list_elem_of_In. Qed.

(** ** Statements without closures *)

Section same.
Context (oc : bool) (fuel : nat).

Lemma simplify_expr_same e st t s : plain fuel e → in_scopes st → check_expr oc e st = (Ok t, st) →
  closure_states s = [] →
  simplify_expr oc fuel e (with_decls s (decls st)) = Ok ((t, e, None), with_decls s (decls st)).
Proof. intros [Hf Hd] Hin Hc. by apply (simplify_same oc fuel e Hf Hd st t st Hin Hc). Qed.

Lemma cmap_id {A} (f : A → cm A) l s : Forall (λ x, f x s = Ok (x, s)) l → cmap f l s = Ok (l, s).
Proof. induction 1 as [|x l Hx _ IH]; [done|]. cbn [cmap]. unfold cbind. by rewrite Hx /= IH. Qed.

Lemma simplify_stmt_same stmt st s : in_scopes st → closure_states s = [] →
  Forall (plain fuel) (stmt_exprs stmt) →
  (∀ e, e ∈ stmt_exprs stmt → ∃ st1 t, decls st1 = decls st ∧ check_expr oc e st1 = (Ok t, st1)) →
  simplify_stmt_rec oc fuel stmt (with_decls s (decls st)) = Ok (stmt, with_decls s (decls st)).
Proof.
  intros Hin Hs. set (s1 := with_decls s (decls st)).
  assert (Hone : ∀ e, Forall (plain fuel) [e] →
    (∀ e', e' ∈ [e] → ∃ st1 t, decls st1 = decls st ∧ check_expr oc e' st1 = (Ok t, st1)) →
    ∃ t, simplify_expr oc fuel e s1 = Ok ((t, e, None), s1)).
  { intros e [Hp _]%Forall_cons He. destruct (He e) as (st1 & t & Hd & Hc); [by left|]. exists t.
    unfold s1. rewrite -Hd. apply simplify_expr_same; [done| |done|done]. by eapply in_scopes_decls. }
  induction stmt as [e|i m f e|x|x e|x|stmt IH|l stmt IH|l|ss IH|ss IH] using StmtX_ind'; cbn [stmt_exprs];
    intros Hp He; cbn [simplify_stmt_rec]; unfold cbind; try done.
  - by destruct (Hone e Hp He) as [t ->].
  - by destruct (Hone e Hp He) as [t ->].
  - by destruct (Hone e Hp He) as [t ->].
  - by rewrite IH.
  - by rewrite IH.
  - rewrite cmap_id //. rewrite Forall_forall in IH. apply Forall_forall. intros x Hx. apply IH; [done| |].
    + by apply Forall_concat_map in Hp; rewrite Forall_forall in Hp; apply Hp.
    + intros e Hex. by apply He, (elem_of_concat_map stmt_exprs ss x).
  - rewrite cmap_id //. rewrite Forall_forall in IH. apply Forall_forall. intros x Hx. apply IH; [done| |].
    + by apply Forall_concat_map in Hp; rewrite Forall_forall in Hp; apply Hp.
    + intros e Hex. by apply He, (elem_of_concat_map stmt_exprs ss x).
Qed.

Lemma simplify_stmt_unchanged stmt cl : in_scopes (typing cl) → Forall (plain fuel) (stmt_exprs stmt) →
  (∀ e, e ∈ stmt_exprs stmt → ∃ st1 t, decls st1 = decls (typing cl) ∧ check_expr oc e st1 = (Ok t, st1)) →
  simplify_stmt oc fuel cl stmt = Ok ([], stmt, cl).
Proof.
  intros Hin Hp He. pose proof (simplify_stmt_same stmt (typing cl) (mkClState cl [] []) Hin eq_refl Hp He) as H.
  rewrite (with_decls_same (mkClState cl [] [])) in H. unfold simplify_stmt, run_closures. by rewrite H.
Qed.

Lemma simplify_decl_unchanged d cl : in_scopes (typing cl) → Forall (plain fuel) (decl_exprs d) →
  ScopeMap.num_scopes (apply_map cl) = ScopeMap.num_scopes (decls (typing cl)) →
  Typecheck.check_decl oc d (typing cl) = (Ok tt, typing cl) → simplify_decl oc fuel cl d = Ok ([], d, cl).
Proof.
  intros Hin Hp Hn Hc. unfold simplify_decl. rewrite Hn Nat.eqb_refl. cbn [negb].
  destruct d as [x|ds|x t|x ts t|x t|ax]; try done.
  unfold Typecheck.check_decl in Hc. apply wrap_error_ok in Hc. apply tbind_ok in Hc as (t & st1 & Hc & _).
  apply check_expr_stable in Hc as Hst; [|done]. subst st1. apply Forall_cons in Hp as [Hp _].
  pose proof (simplify_expr_same (expr ax) (typing cl) t (mkClState cl [] []) Hp Hin Hc eq_refl) as H.
  rewrite (with_decls_same (mkClState cl [] [])) in H. unfold run_closures, cbind. rewrite H. by destruct ax.
Qed.
End same.

(** ** Queries without closures *)

Section query.
Context {IM : IndexMapOps} (oc : bool) (fuel : nat).
Implicit Types (c : Context) (t : Typing).

Definition with_typing (c : Context) (t : Typing) : Context := set_closures c (set_typing (closures c) t).
Definition ctyping (c : Context) : Typing := typing (closures c).

(** The same as a computation on the typing state alone. *)
Definition mirrors {A B} (m : cx (TypeError + A)) (k : tc B) (r : B → A) c : Prop :=
  m c = match k (ctyping c) with
        | (Ok x, t) => Ok (inr (r x), with_typing c t)
        | (Err e, t) => Ok (inl e, with_typing c t)
        | (Panic, _) => Panic
        end.

Lemma with_typing_with c t t' : with_typing (with_typing c t) t' = with_typing c t'.
Proof. done. Qed.
Lemma with_typing_same c : with_typing c (ctyping c) = c.
Proof. by destruct c as [[]]. Qed.

Lemma mirrors_run_tc {A} (m : tc A) c : mirrors (run_tc m) m id c.
Proof. unfold mirrors, run_tc, ctyping. by destruct (m _) as [[]]. Qed.

Lemma mirrors_try {A A' B B'} (m : cx (TypeError + A)) (m' : tc A') r (k : A → cx (TypeError + B)) (k' : A' → tc B') r' c :
  mirrors m m' r c → (∀ x t, m' (ctyping c) = (Ok x, t) → mirrors (k (r x)) (k' x) r' (with_typing c t)) →
  mirrors (try m k) (tbind m' k') r' c.
Proof.
  intros Hm Hk. unfold mirrors, try, cbind, tbind in *. rewrite Hm.
  destruct (m' (ctyping c)) as [[x|e|] t] eqn:E; cbn [rbind]; [|done..]. by rewrite (Hk x t eq_refl).
Qed.

Lemma mirrors_eq {A B} (m : cx (TypeError + A)) (k k' : tc B) r c :
  (∀ t, k t = k' t) → mirrors m k r c → mirrors m k' r c.
Proof. unfold mirrors. by intros ->. Qed.

Definition depths_agree c : Prop :=
  ScopeMap.num_scopes (apply_map (closures c)) = ScopeMap.num_scopes (decls (ctyping c)).

Lemma check_decl_mirrors d c : in_scopes (ctyping c) → Forall (plain fuel) (decl_exprs d) → depths_agree c →
  mirrors (check_decl oc fuel d) (Typecheck.check_decl oc d) (λ _, ([], d)) c.
Proof.
  intros Hin Hp Hn. unfold mirrors, check_decl, try, cbind. rewrite (mirrors_run_tc _ c).
  destruct (Typecheck.check_decl oc d (ctyping c)) as [[[]|e|] t] eqn:E; cbn [rbind]; [|done..].
  apply check_decl_stable in E as Ht; [|done]. subst t. unfold run_cl.
  rewrite with_typing_same (simplify_decl_unchanged oc fuel d (closures c)) //=. by destruct c.
Qed.

Lemma opened_depth st0 xs st : in_scopes st0 → opened st0 xs st →
  ScopeMap.num_scopes (decls st) = S (ScopeMap.num_scopes (decls st0)).
Proof.
  intros [fs Hr] [Hs _ _].
  destruct (ScopeMap.session_represents _ _ Hs _ _ (ScopeMap.push_represents _ _ false Hr)) as (f & [Hf _] & _).
  destruct Hr as [Hr _]. unfold ScopeMap.num_scopes. rewrite Hf Hr. cbn [ScopeMap.concrete ScopeMap.scopes].
  by rewrite !ScopeMap.length_undo_scopes.
Qed.

Lemma check_locals_mirrors st0 ds : in_scopes st0 → Forall (plain fuel) (concat (map decl_exprs ds)) → ∀ xs c,
  opened st0 xs (ctyping c) → depths_agree c →
  mirrors (check_locals oc fuel ds) (tseq_ (map (λ d, Typecheck.check_decl oc d ;! Typecheck.add_decl d false)%tc ds))
    (λ _, ds) c.
Proof.
  intros Hin0. induction ds as [|d ds IH]; intros Hp xs c Ho Hn.
  { unfold mirrors. cbn. by rewrite with_typing_same. }
  cbn [map concat] in Hp. apply Forall_app in Hp as [Hp1 Hp2]. cbn [check_locals map tseq_].
  assert (Hin : in_scopes (ctyping c)) by by eapply opened_scopes.
  eapply (mirrors_eq _ (Typecheck.check_decl oc d ;! Typecheck.add_decl d false ;! tseq_ _)%tc).
  { intros t. unfold tbind at 1 3 4. by destruct (Typecheck.check_decl oc d t) as [[]]. }
  eapply (mirrors_try _ _ (λ _, ([], d))); [by apply check_decl_mirrors|]. intros [] t Ht.
  apply check_decl_stable in Ht as ->; [|done]. rewrite with_typing_same.
  eapply (mirrors_try _ _ id); [apply mirrors_run_tc|]. intros [] t Ht.
  pose proof (add_decl_opened st0 xs _ d t Hin0 Ho Ht) as Ho'.
  assert (Hm := IH Hp2 (xs ++ [d]) (with_typing c t)). specialize (Hm Ho').
  assert (Hn' : depths_agree (with_typing c t)).
  { unfold depths_agree in *. cbn in *. by rewrite Hn (opened_depth st0 _ _ Hin0 Ho) (opened_depth st0 _ _ Hin0 Ho'). }
  specialize (Hm Hn'). unfold mirrors, try, cbind in *. rewrite Hm. cbn.
  destruct (tseq_ _ _) as [[x|e|] t']; done.
Qed.

Lemma pop_pushed {K V E} `{Countable K} (m : ScopeMap.ScopeMap K V) b :
  @ScopeMap.pop_scope _ _ _ _ E (ScopeMap.push_scope m b) = Ok m.
Proof. unfold ScopeMap.pop_scope. cbn. rewrite last_snoc /= removelast_last. by destruct m. Qed.

Lemma pop_scope_error {K V E F} `{Countable K} (m m' : ScopeMap.ScopeMap K V) :
  @ScopeMap.pop_scope _ _ _ _ E m = Ok m' → @ScopeMap.pop_scope _ _ _ _ F m = Ok m'.
Proof. unfold ScopeMap.pop_scope. destruct (last _); [|done]. cbn. by destruct (map_fold _ _ _); intros [= ->]. Qed.

Lemma pop_decls_ok t t' : pop_decls t = (Ok tt, t') →
  @ScopeMap.pop_scope _ _ _ _ fuel_error (decls t) = Ok (decls t') ∧ t' = set_decls t (decls t').
Proof.
  unfold pop_decls. destruct (ScopeMap.pop_scope _) as [d|e|] eqn:E; intros H; try done.
  injection H as <-. split; [|done]. by eapply pop_scope_error.
Qed.

(** The state after [push_name_scope] when the typing state has become [t]. *)
Definition pushed c t : Context := with_typing (set_closures
  (set_axiom_infos c (ScopeMap.push_scope (axiom_infos c) false)) (push_closure_scopes (closures c))) t.

Lemma push_name_scope_eq c : push_name_scope c
  = Ok (tt, pushed c (set_decls (ctyping c) (ScopeMap.push_scope (decls (ctyping c)) false))).
Proof. done. Qed.

Lemma pop_name_scope_eq c t t' : pop_decls t = (Ok tt, t') →
  pop_name_scope (pushed c t) = Ok (tt, with_typing c t').
Proof.
  intros [Hd Ht]%pop_decls_ok. unfold pop_name_scope, pop_closure_scopes. cbn.
  rewrite !pop_pushed. cbn. rewrite Hd. cbn. by rewrite -Ht.
Qed.

(** The state in which the statement of a query is checked. *)
Definition query_state t : Typing := mkTyping (decls t) ∅ ∅ (break_labels_in_scope t).

Lemma query_state_checked c0 xs t s t' : between_queries (ctyping c0) → depths_agree c0 →
  opened (ctyping c0) xs t → check_stmt oc s (query_state t) = (Ok tt, t') →
  in_scopes (query_state t) ∧ stmt_checked oc s (query_state t) t' ∧ scopes_agree (pushed c0 t') = true.
Proof.
  intros [Hin Hlab _] Hn Hop E.
  assert (Hin3 : in_scopes (query_state t)) by (eapply (in_scopes_decls t); [done|by eapply opened_scopes]).
  assert (Hl3 : labels_scoped (query_state t)).
  { pose proof (op_rest _ _ _ Hop) as (_ & _ & Hbl). split; unfold query_state; simpl; rewrite Hbl Hlab.
    - exists [ScopeMap.mkFrame ∅ false 0]. done.
    - intros l [? Hl]. done. }
  pose proof (check_stmt_ok oc _ _ _ Hin3 Hl3 E) as Hst. split_and!; [done..|].
  apply Nat.eqb_eq. cbn [closures pushed with_typing set_closures typing set_typing].
  rewrite (sc_decls _ _ _ _ Hst) /= (opened_depth _ _ _ Hin Hop) -Hn.
  unfold ScopeMap.num_scopes. cbn. rewrite length_app /=. lia.
Qed.

Lemma check_query_mirrors q c : between_queries (ctyping c) → Forall (plain fuel) (query_exprs q) → depths_agree c →
  match Typecheck.check_query oc q (ctyping c) with
  | (Ok _, t) => check_query oc fuel q c = Ok (inr q, with_typing c t)
  | (Err e, _) => ∃ c', check_query oc fuel q c = Ok (inl e, c')
  | (Panic, _) => check_query oc fuel q c = Panic
  end.
Proof.
  intros Hb [Hp1 Hp2]%Forall_app Hn. pose proof Hb as [Hin _ Hglob].
  pose proof (check_query_ok oc q (ctyping c)) as Hcq. remember (check_query oc fuel q c) as r eqn:Hr.
  unfold check_query in Hr. unfold Typecheck.check_query in *. unfold cbind at 1 in Hr. cbn [gets rbind] in Hr.
  unfold cbind at 1 in Hr. rewrite push_name_scope_eq in Hr. cbn [rbind] in Hr.
  unfold tbind at 1 in Hcq. unfold tbind at 1. cbn [push_decls] in Hcq |- *.
  set (t1 := set_decls (ctyping c) (ScopeMap.push_scope (decls (ctyping c)) false)) in *.
  assert (Ho1 : opened (ctyping c) [] t1).
  { split; [constructor|done|]. intros y t Hy. by destruct (Hglob y t). }
  assert (Hn1 : depths_agree (pushed c t1)).
  { unfold depths_agree in *. cbn. unfold ScopeMap.num_scopes in *. cbn. by rewrite !length_app Hn. }
  pose proof (check_locals_mirrors (ctyping c) (local q) Hin Hp1 [] (pushed c t1) Ho1 Hn1) as Hl.
  pose proof (decls_opened oc (local q) (ctyping c) Hin [] t1) as Hop.
  unfold try at 1, cbind at 1 in Hr. rewrite Hl in Hr. change (ctyping (pushed c t1)) with t1 in Hr.
  unfold tbind at 1 in Hcq. unfold tbind at 1. clear Hl.
  destruct (tseq_ _ t1) as [[[]|e|] t2] eqn:E2; cbn [rbind] in Hr; [|by exists (with_typing (pushed c t1) t2)|done].
  specialize (Hop t2 Ho1 eq_refl).
  set (t3 := mkTyping (decls t2) ∅ ∅ (break_labels_in_scope t2)) in *.
  change (with_typing (pushed c t1) t2) with (pushed c t2) in Hr. unfold try at 1, cbind at 1, run_tc at 1 in Hr.
  cbn [reset_query_state rbind] in Hr. change (typing (closures (pushed c t2))) with t2 in Hr. fold t3 in Hr.
  change (set_closures (pushed c t2) _) with (pushed c t3) in Hr.
  unfold tbind at 1 in Hcq. unfold tbind at 1. cbn beta iota in Hcq |- *. fold t3 in Hcq |- *.
  unfold try, cbind at 1, run_tc at 1 in Hr.
  change (typing (closures (pushed c t3))) with t3 in Hr. unfold tbind at 1 in Hcq. unfold tbind at 1.
  destruct (check_stmt oc (assertion q) t3) as [[[]|e|] t4] eqn:E4; cbn [rbind] in Hr;
    [|by exists (pushed c t4)|done].
  change (set_closures (pushed c t3) _) with (pushed c t4) in Hr.
  destruct (query_state_checked c _ t2 _ t4 Hb Hn Hop E4) as (Hin3 & Hst & Hag).
  change (query_state t2) with t3 in Hin3, Hst.
  pose proof (sc_decls _ _ _ _ Hst) as Hd4.
  unfold cbind at 1, gets at 1 in Hr. cbn [rbind] in Hr. rewrite Hag in Hr. cbn [assert] in Hr.
  unfold cbind at 1 in Hr. cbn [cret rbind] in Hr. unfold cbind at 1, run_cl in Hr.
  rewrite (simplify_stmt_unchanged oc fuel (assertion q)) in Hr.
  - by eapply (in_scopes_decls t3).
  - done.
  - cbn [closures pushed with_typing set_closures typing set_typing]. rewrite Hd4. apply (sc_exprs _ _ _ _ Hst).
  - cbn [rbind] in Hr. change (set_closures (pushed c t4) _) with (pushed c t4) in Hr.
    unfold cbind at 1, gets at 1 in Hr. cbn [rbind] in Hr. rewrite Hag in Hr. cbn [assert] in Hr.
    unfold cbind at 1 in Hr. cbn [cret rbind] in Hr. unfold cbind at 1 in Hr.
    destruct (pop_decls t4) as [[[]|e|] t5] eqn:E5.
    + destruct (Hcq t5 Hb eq_refl) as (_ & _ & Hd5). rewrite (pop_name_scope_eq c t4 t5 E5) in Hr.
      cbn [rbind] in Hr. unfold cbind at 1, gets at 1 in Hr. cbn [rbind] in Hr.
      change (decls (typing (closures (with_typing c t5)))) with (decls t5) in Hr. rewrite Hd5 Nat.eqb_refl in Hr.
      rewrite Hr. unfold cbind. cbn. rewrite app_nil_r. by destruct q.
    + unfold pop_decls in E5. by destruct (ScopeMap.pop_scope _).
    + rewrite Hr. unfold pop_name_scope, pop_closure_scopes. cbn. rewrite !pop_pushed. cbn.
      unfold pop_decls, ScopeMap.pop_scope in *. destruct (last _); [|done]. cbn in *. by destruct (map_fold _ _ _).
Qed.
End query.
