(* ===== verification/ClosureCorrect.v ===== *)
(** * Properties of closure rewriting *)

From S2P Require Import Prelude StateRes RustString Ast AstUtil Semantics StmtFacts IndexMap VarToConstCorrect Typecheck TypecheckFacts CheckedQuery ClosureTerm Closure ClosureFacts AirContext CheckClosures.
From S2P Require ScopeMap.
Set Warnings "-rewrite-rw,-register-all,-clear-no-such-hyp".
Local Open Scope cm_scope.

(** ** Statements and declarations *)

Section eliminate.
Context (oc : bool) (fuel : nat).

Lemma fits_ok e s : fits fuel e → wpm (simplify_expr oc fuel e) s (λ r s', fo r.1.2 ∧ ext fuel s s').
Proof.
  intros [Hw Hf]. eapply wpm_mono; [by apply (simplify_weight oc fuel)|]. intros r s' [[Hg _] He].
  split; [done|]. by eapply ext_le.
Qed.

(** What rewriting returns for a statement. *)
Definition rewritten (s s' : Stmt) : Prop := Forall fo (stmt_exprs s') ∧ skeleton s' = skeleton s.

Lemma rewritten_list ss ss' : Forall2 rewritten ss ss' →
  Forall fo (concat (map stmt_exprs ss')) ∧ map skeleton ss' = map skeleton ss.
Proof.
  induction 1 as [|s s' ss ss' [H1 H2] _ [IH1 IH2]]; [done|]. cbn. split; [by apply Forall_app|by rewrite H2 IH2].
Qed.

Lemma wpm_cmap_rel {A B} (f : A → cm B) (R : A → B → Prop) l s :
  Forall (λ x, ∀ s, wpm (f x) s (λ y s', R x y ∧ ext fuel s s')) l →
  wpm (cmap f l) s (λ ys s', Forall2 R l ys ∧ ext fuel s s').
Proof.
  intros Hl. revert s. induction Hl as [|x l Hx _ IH]; intros s; [by split; [|apply ext_refl]|].
  cbn [cmap]. apply wpm_bind. eapply wpm_mono; [apply Hx|]. intros y s1 [Hy E1].
  apply wpm_bind. eapply wpm_mono; [apply IH|]. intros ys s2 [Hys E2].
  split; [by constructor|]. exact (ext_trans _ _ _ _ E1 E2).
Qed.

(** One expression, put back by [mk]. *)
Lemma rewritten_one (mk : Expr → Stmt) e s : (∀ e', stmt_exprs (mk e') = [e']) →
  (∀ e', skeleton (mk e') = skeleton (mk e)) → Forall (fits fuel) [e] →
  wpm (let* (_, e', _) := simplify_expr oc fuel e in cret (mk e')) s
    (λ s1 s', rewritten (mk e) s1 ∧ ext fuel s s').
Proof.
  intros Hm Hk [He _]%Forall_cons. apply wpm_bind. eapply wpm_mono; [by apply fits_ok|].
  intros [[t e'] tm] s' [Hf E]. split; [|done]. split; [by rewrite Hm; constructor|done].
Qed.

Lemma simplify_stmt_ok stmt : Forall (fits fuel) (stmt_exprs stmt) → ∀ s,
  wpm (simplify_stmt_rec oc fuel stmt) s (λ stmt' s', rewritten stmt stmt' ∧ ext fuel s s').
Proof.
  assert (Hleaf : ∀ st, stmt_exprs st = [] → ∀ s, rewritten st st ∧ ext fuel s s).
  { intros st He s. split; [split; [by rewrite He|done]|apply ext_refl]. }
  induction stmt as [e|i m f e|x|x e|x|stmt IH|l stmt IH|l|ss IH|ss IH] using StmtX_ind'; cbn [stmt_exprs];
    intros Hp s; cbn [simplify_stmt_rec]; try by apply Hleaf.
  - by apply (rewritten_one StmtX_Assume).
  - by apply (rewritten_one (StmtX_Assert i m f)).
  - by apply (rewritten_one (StmtX_Assign x)).
  - apply wpm_bind. eapply wpm_mono; [by apply IH|]. intros s1 s' [[H1 H2] E]. split; [|done].
    split; [done|]. cbn. by rewrite H2.
  - apply wpm_bind. eapply wpm_mono; [by apply IH|]. intros s1 s' [[H1 H2] E]. split; [|done].
    split; [done|]. cbn. by rewrite H2.
  - apply wpm_bind. eapply wpm_mono; [apply (wpm_cmap_rel _ rewritten)|].
    + apply Forall_concat_map in Hp. eapply Forall_impl2; [exact IH|exact Hp|auto].
    + intros ss' s' [[H1 H2]%rewritten_list E]. split; [|done]. split; [done|]. cbn. by rewrite H2.
  - apply wpm_bind. eapply wpm_mono; [apply (wpm_cmap_rel _ rewritten)|].
    + apply Forall_concat_map in Hp. eapply Forall_impl2; [exact IH|exact Hp|auto].
    + intros ss' s' [[H1 H2]%rewritten_list E]. split; [|done]. split; [done|]. cbn. by rewrite H2.
Qed.

Lemma run_closures_ok {A} (m : cm A) (P : A → Prop) cl :
  (∀ s, wpm m s (λ x s', P x ∧ ext fuel s s')) →
  match run_closures m cl with
  | Ok (ds, x, _) => Forall decl_first_order ds ∧ P x
  | Err _ => False
  | Panic => True
  end.
Proof.
  intros Hm. specialize (Hm (mkClState cl [] [])). unfold run_closures, wpm in *.
  destruct (m _) as [[x s']| |]; [|done..]. destruct Hm as [HP [(ds & Hds & Hf) _]]. cbn in *. by rewrite Hds.
Qed.

Lemma simplify_decl_ok d cl : Forall (fits fuel) (decl_exprs d) →
  match simplify_decl oc fuel cl d with
  | Ok (ds, d', _) => Forall decl_first_order ds ∧ decl_first_order d'
  | Err _ => False
  | Panic => True
  end.
Proof.
  intros Hd. unfold simplify_decl. destruct (negb _); [done|]. apply run_closures_ok. intros s.
  destruct d as [x|ds|x t|x ts t|x t|ax]; try (split; [done|apply ext_refl]).
  apply Forall_cons in Hd as [Hd _]. apply wpm_bind. eapply wpm_mono; [by apply fits_ok|].
  intros [[t e'] tm] s' [Hf E]. by split.
Qed.
End eliminate.

(** ** Queries *)

Section query.
Context {IM : IndexMapOps} (oc : bool) (fuel : nat).

Lemma wpm_run_tc {A} (m : tc A) c (Q : TypeError + A → Context → Prop) :
  (∀ r c', Q r c') → wpm (run_tc m) c Q.
Proof. intros HQ. unfold wpm, run_tc. destruct (m _) as [[x|e|] t]; auto. Qed.

(** An error is passed on. *)
Lemma wpm_try {A B} (m : cx (TypeError + A)) (k : A → cx (TypeError + B)) c (P : A → Prop) (Q : B → Prop) :
  wpm m c (λ r _, match r with inr x => P x | inl _ => True end) →
  (∀ x c', P x → wpm (k x) c' (λ r _, match r with inr y => Q y | inl _ => True end)) →
  wpm (try m k) c (λ r _, match r with inr y => Q y | inl _ => True end).
Proof.
  intros Hm Hk. apply wpm_bind. eapply wpm_mono; [exact Hm|]. intros [e|x] c' H; [done|]. by apply Hk.
Qed.

Lemma check_decl_ok d c : Forall (fits fuel) (decl_exprs d) →
  wpm (check_decl oc fuel d) c (λ r _, match r with
    | inr (ds, d') => Forall decl_first_order ds ∧ decl_first_order d' | inl _ => True end).
Proof.
  intros Hd. eapply wpm_mono.
  1: eapply (wpm_try _ _ c (λ _, True) (λ r, Forall decl_first_order r.1 ∧ decl_first_order r.2)).
  - apply wpm_run_tc. by intros [] c'.
  - intros _ c' _. apply wpm_bind. unfold wpm at 1, run_cl.
    pose proof (simplify_decl_ok oc fuel d (closures c') Hd) as H.
    by destruct (simplify_decl oc fuel _ d) as [[[ds d'] cl]| |].
  - by intros [e|[ds d']] c'.
Qed.

Lemma check_locals_ok ds c : Forall (fits fuel) (concat (map decl_exprs ds)) →
  wpm (check_locals oc fuel ds) c (λ r _, match r with inr ds' => Forall decl_first_order ds' | inl _ => True end).
Proof.
  revert c. induction ds as [|d ds IH]; intros c Hp; [constructor|].
  cbn [map concat] in Hp. apply Forall_app in Hp as [Hd Hp]. cbn [check_locals].
  apply (wpm_try _ _ _ (λ r, Forall decl_first_order r.1 ∧ decl_first_order r.2) (Forall decl_first_order)).
  { eapply wpm_mono; [by apply check_decl_ok|]. by intros [e|[ds1 d1]] c'. }
  intros [ds1 d1] c1 [H1 H2]. apply (wpm_try _ _ _ (λ _, True) (Forall decl_first_order)).
  { apply wpm_run_tc. by intros [] c'. }
  intros _ c2 _. apply (wpm_try _ _ _ (Forall decl_first_order) (Forall decl_first_order)); [by apply IH|]. intros locals c3 H3. apply wpm_ret.
  apply Forall_app. split; [done|]. by constructor.
Qed.

Lemma wpm_assert b (k : cx (TypeError + Query)) c Q : wpm k c Q → wpm (assert b ;* k) c Q.
Proof. intros Hk. unfold wpm, cbind, assert. by destruct b. Qed.

Lemma wpm_pop_name_scope c Q : (∀ c', Q tt c') → wpm pop_name_scope c Q.
Proof.
  intros HQ. unfold wpm, pop_name_scope, pop_closure_scopes, ScopeMap.pop_scope.
  repeat (destruct (last _); [cbn|done]; destruct (map_fold _ _ _); cbn). apply HQ.
Qed.

Lemma check_query_eliminates q c : Forall (fits fuel) (query_exprs q) →
  wpm (check_query oc fuel q) c (λ r _, match r with
    | inr q' => Forall decl_first_order (local q') ∧ Forall fo (stmt_exprs (assertion q'))
                ∧ skeleton (assertion q') = skeleton (assertion q)
    | inl _ => True end).
Proof.
  intros [Hp1 Hp2]%Forall_app. unfold check_query. apply wpm_bind, wpm_bind.
  apply (wpm_try _ _ _ (Forall decl_first_order)); [by apply check_locals_ok|]. intros locals c1 Hl.
  apply (wpm_try _ _ _ (λ _, True)); [apply wpm_run_tc; by intros [] ?|]. intros _ c2 _.
  apply (wpm_try _ _ _ (λ _, True)); [apply wpm_run_tc; by intros [] ?|]. intros _ c3 _.
  apply wpm_bind, wpm_assert, wpm_bind. unfold wpm at 1, run_cl, simplify_stmt.
  pose proof (run_closures_ok fuel (simplify_stmt_rec oc fuel (assertion q)) (rewritten (assertion q))
    (closures c3) (simplify_stmt_ok oc fuel _ Hp2)) as H.
  destruct (run_closures _ _) as [[[gen s'] cl]| |]; [|done..]. destruct H as (Hg & Hs & Hk). cbn [rbind].
  apply wpm_bind, wpm_assert, wpm_bind, wpm_pop_name_scope. intros c4. apply wpm_bind, wpm_assert, wpm_ret.
  split_and!; [by apply Forall_app|done|done].
Qed.
End query.

(** ** Properties *)

(** C19. Rewriting ends: fuel as large as the weight of every expression of the
    query suffices.  The query it returns has the same statement up to its
    expressions, and no lambda, choose, array or application of a function value
    is left in it or in a declaration generated for it. *)
Theorem closures_eliminated {IM : IndexMapOps} oc fuel q c :
  Forall (fits fuel) (query_exprs q) →
  check_query oc fuel q c ≠ Err OutOfFuel
  ∧ ∀ q' c', check_query oc fuel q c = Ok (inr q', c') →
      Forall decl_first_order (local q') ∧ Forall fo (stmt_exprs (assertion q'))
      ∧ skeleton (assertion q') = skeleton (assertion q).
Proof.
  intros Hf. pose proof (check_query_eliminates oc fuel q c Hf) as H. unfold wpm in H.
  split; [intros E; by rewrite E in H|]. intros q' c' E. by rewrite E in H.
Qed.

(** C21. On a query without closures the checker with rewriting is the checker
    without it: it accepts and rejects the same queries with the same errors, and
    an accepted query comes back unchanged, with nothing generated for it. *)
Theorem plain_query_unchanged {IM : IndexMapOps} oc fuel q c :
  between_queries (ctyping c) → Forall (plain fuel) (query_exprs q) → depths_agree c →
  match Typecheck.check_query oc q (ctyping c) with
  | (Ok _, t) => check_query oc fuel q c = Ok (inr q, with_typing c t)
  | (Err e, _) => ∃ c', check_query oc fuel q c = Ok (inl e, c')
  | (Panic, _) => check_query oc fuel q c = Panic
  end.
Proof. apply check_query_mirrors. Qed.

(** ** Witnesses *)

(** The conditions as boolean functions. *)
Definition all_exprs (p : Expr → bool) (fuel : nat) (measure : Expr → nat) (q : Query) : bool :=
  forallb (λ e, p e && (measure e <=? fuel)%nat) (query_exprs q).

Lemma all_exprs_spec p fuel measure q : all_exprs p fuel measure q = true →
  Forall (λ e, p e = true ∧ measure e ≤ fuel) (query_exprs q).
Proof.
  intros H%forallb_true_iff. eapply Forall_impl; [exact H|]. by intros e [? ?%Nat.leb_le]%andb_true_iff.
Qed.

#[local] Existing Instance entry_list.

Definition sample_msg : ArcDynMessage := Build_AirMessage MessageLevel_Error "" None [].

(** [x + n] as a function of [x]. *)
Definition sample_lambda (x : Ident) (n : string) : Expr :=
  ExprX_Bind (BindX_Lambda [mkBinder x TypX_Int] [] None None None)
    (ExprX_Multi MultiOp_Add [ExprX_Var x; ExprX_Const (Constant_Nat n)]).
Definition sample_closures : Query :=
  mkQuery [DeclX_Const "y" TypX_Int]
    (StmtX_Assert None sample_msg None
       (ExprX_Binary BinaryOp_Eq
          (ExprX_ApplyFun TypX_Int (sample_lambda "x" "4") [ExprX_Var "y"])
          (ExprX_ApplyFun TypX_Int (sample_lambda "z" "5") [ExprX_Var "y"]))).
Definition start_context : Context := new_with_encoding Printer.SmtSolver_Z3 Printer.SmtEncoding_Z3.

(** Both functions have the shape of a sum with a hole. *)
Definition sample_call (n : string) : Expr :=
  ExprX_Apply "%%apply%%0" [ExprX_Apply "%%lambda%%0" [ExprX_Const (Constant_Nat n)]; ExprX_Var "y"].

Definition accepted {A E C} (r : res fuel_error ((E + A) * C)) : option A :=
  match r with Ok (inr x, _) => Some x | _ => None end.

Lemma accepted_inv {A E C} (r : res fuel_error ((E + A) * C)) x : accepted r = Some x → ∃ c, r = Ok (inr x, c).
Proof. destruct r as [[[e|y] c]| |]; try done. intros [= ->]. by exists c. Qed.

Lemma closures_eliminated_witness :
  ∃ q' c', check_query false 7 sample_closures start_context = Ok (inr q', c')
    ∧ assertion q' = StmtX_Assert None sample_msg None (ExprX_Binary BinaryOp_Eq (sample_call "4") (sample_call "5"))
    ∧ length (local q') = 4
    ∧ Forall decl_first_order (local q').
Proof.
  destruct (accepted (check_query false 7 sample_closures start_context)) as [q'|] eqn:E;
    [|by vm_compute in E].
  assert (Hq : assertion q' = StmtX_Assert None sample_msg None (ExprX_Binary BinaryOp_Eq (sample_call "4") (sample_call "5"))
    ∧ length (local q') = 4).
  { vm_compute in E. injection E as <-. by split. }
  apply accepted_inv in E as [c' E]. exists q', c'. split; [done|].
  split; [apply Hq|]. split; [apply Hq|].
  destruct (closures_eliminated false 7 sample_closures start_context) as [_ H]; [|by apply (H q' c')].
  apply (all_exprs_spec wraps_simple 7 weight). vm_compute. reflexivity.
Defined.

Lemma plain_query_unchanged_witness :
  check_query false 4 sample_versions start_context
  = Ok (inr sample_versions, with_typing start_context (Typecheck.check_query false sample_versions (ctyping start_context)).2).
Proof.
  pose proof (plain_query_unchanged false 4 sample_versions start_context) as H.
  destruct (Typecheck.check_query false sample_versions (ctyping start_context)) as [r t] eqn:E.
  assert (Hr : r = Ok tt) by (vm_compute in E; by injection E).
  subst r. apply H.
  - exact empty_between.
  - apply (all_exprs_spec first_order 4 depth). vm_compute. reflexivity.
  - done.
Defined.
