(* ===== verification/SmtQuery.v ===== *)
(** * Asking the solver (source/air/src/smt_verify.rs)

    A lowered query becomes declarations, one negated assertion with a label for
    each [Assert], and a [check-sat]; the answer becomes a [ValidityResult] and
    the next state of the context.  The solver process is the parameter
    [send_commands], a function of all batches it has received; timing and the
    reports on long-running queries are left out. *)

From stdpp Require Import sorting.
From Stdlib Require Import Ascii String.
From Stdlib Require Import String.
From S2P Require Import Prelude StateRes RustString Ast AstUtil BlockToAssert IndexMap Visitor.
From S2P Require Import VarToConst Node Messages Printer Parser Emitter AirContext.
From S2P Require Import CheckClosures.
From S2P Require ScopeMap Typecheck.
Set Warnings "-rewrite-rw,-register-all,-clear-no-such-hyp".
Local Open Scope string_scope.
Local Open Scope list_scope.
Local Open Scope cm_scope.

(** What an observer does in its callback with [eval_bool_expr]. *)
Inductive EvalTree :=
| EvalDone
| EvalBool (expr : Expr) (k : option bool → EvalTree).

(** Code outside: the solver, the S-expression library and a registered observer,
    which knows what it was told before. *)
Class SmtEnv := {
  send_commands : list (list SmtCommand) → list string;
  parse_sexpression : list string → option Node;
  node_text : Node → string;
  observer : option (list CheckValidResult → EvalTree)
}.

(** ** Labels *)

(** [context.axiom_infos_count] and the two vectors. *)
Record Labelling := mkLabelling {
  lb_count : N;
  lb_infos : list AssertionInfo;
  lb_axiom_infos : list AxiomInfo
}.

Section label_list.
Context (f : Expr → Labelling → Expr * Labelling).
Fixpoint label_list (es : list Expr) (s : Labelling) : list Expr * Labelling :=
  match es with
  | [] => ([], s)
  | e :: es' => let '(e, s) := f e s in let '(es', s) := label_list es' s in (e :: es', s)
  end.
End label_list.

Definition assertion_label (infos : list AssertionInfo) : Ident :=
  PREFIX_LABEL +:+ N_to_string (N.of_nat (List.length infos)).

Fixpoint label_asserts (expr : Expr) (s : Labelling) : Expr * Labelling :=
  match expr with
  | ExprX_Binary op lhs rhs =>
    match op with
    | BinaryOp_Implies | BinaryOp_Eq =>
      let '(rhs, s) := label_asserts rhs s in (ExprX_Binary op lhs rhs, s)
    | _ => (expr, s)
    end
  | ExprX_Multi op exprs =>
    match op with
    | MultiOp_And | MultiOp_Or =>
      let '(exprs, s) := label_list label_asserts exprs s in (ExprX_Multi op exprs, s)
    | _ => (expr, s)
    end
  | ExprX_Bind bind body =>
    match bind with
    | BindX_Quant Quant_Forall _ _ _ => let '(body, s) := label_asserts body s in (ExprX_Bind bind body, s)
    | _ => (expr, s)
    end
  | ExprX_LabeledAssertion assert_id error filter expr =>
    let label := assertion_label (lb_infos s) in
    let info := mkAssertionInfo assert_id error label filter (DeclX_Const label TypX_Bool) false in
    let '(rhs, s) := label_asserts expr (mkLabelling (lb_count s) (lb_infos s ++ [info]) (lb_axiom_infos s)) in
    (ExprX_Binary BinaryOp_Implies (ExprX_Var label) rhs, s)
  | ExprX_LabeledAxiom labels filter expr =>
    let label := GLOBAL_PREFIX_LABEL +:+ N_to_string (lb_count s) in
    let info := mkAxiomInfo labels label filter (DeclX_Const label TypX_Bool) in
    let '(rhs, s) := label_asserts expr (mkLabelling (lb_count s + 1) (lb_infos s) (lb_axiom_infos s ++ [info])) in
    (ExprX_Binary BinaryOp_Implies (ExprX_Var label) rhs, s)
  | _ => (expr, s)
  end.

Definition elim_zero_args (expr : Expr) : Expr :=
  match expr with ExprX_Apply x [] => ExprX_Var x | _ => expr end.
Definition elim_zero_args_expr (expr : Expr) : Expr := map_expr_visitor elim_zero_args expr.

Section verify.
Context {IM : IndexMapOps} `{MI : MessageInterface} {env : SmtEnv}.

(** [label_asserts(context, &mut infos, &mut axiom_infos, expr)] with empty vectors. *)
Definition run_labels (expr : Expr) : cx (Expr * list AssertionInfo * list AxiomInfo) := λ c,
  let '(e, s) := label_asserts expr (mkLabelling (axiom_infos_count c) [] []) in
  Ok ((e, lb_infos s, lb_axiom_infos s), set_axiom_infos_count c (lb_count s)).

(** ** Declarations *)

(** [context.axiom_infos.insert(..).expect(..)] *)
Definition insert_axiom_info (info : AxiomInfo) : cx unit := λ c,
  match ScopeMap.insert_sm (axiom_infos c) (xi_label info) info with
  | Ok (true, m) => Ok (tt, set_axiom_infos c m)
  | _ => Panic
  end.

Definition add_axiom_info (info : AxiomInfo) : cx unit :=
  let* r := add_decl (xi_decl info) true in
  match r with
  | inl _ => cpanic
  | inr _ => insert_axiom_info info ;* log [SmtDecl (xi_decl info)]
  end.

Definition smt_add_decl (decl : Decl) : cx unit :=
  match decl with
  | DeclX_Sort _ | DeclX_Datatypes _ | DeclX_Const _ _ | DeclX_Fun _ _ _ => log [SmtDecl decl]
  | DeclX_Var _ _ => cret tt
  | DeclX_Axiom ax =>
    let* (labeled_expr, _, axiom_infos) := run_labels (elim_zero_args_expr (expr ax)) in
    cmap add_axiom_info axiom_infos ;*
    log [SmtAssert (named ax) labeled_expr]
  end.

(** ** Batches *)

(** [take_pipe_data] and [send_commands]. *)
Definition send : cx (list string) := λ c,
  let batches := sent c ++ [smt_log c] in
  Ok (send_commands batches, set_pipe c [] batches).

Definition report (m : ArcDynMessage) : cx unit := modify (λ c, add_report c m).
Definition report_unexpected (line : string) : cx unit :=
  report (bare MessageLevel_Warning ("warning: unexpected SMT output: " +:+ line)).
Definition notify (r : CheckValidResult) : cx unit := modify (λ c, add_observed c r).

(** ** Results *)

(** The message of [unexpected_solver_version] is reported before the panic. *)
Fixpoint check_version_lines (lines : list string) : cx (ValidityResult + unit) :=
  match lines with
  | [] => cret (inr tt)
  | line :: lines' =>
    let* o := gets opts in
    match parse_version_response line with
    | Some version =>
      match expected_solver_version o with
      | Some expected => if version =? expected then check_version_lines lines' else cpanic
      | None => check_version_lines lines'
      end
    | None =>
      if ignore_unexpected_smt o then report_unexpected line ;* check_version_lines lines'
      else cret (inl (ValidityResult_UnexpectedOutput line))
    end
  end.

(** The loops over the lines of an answer; a second result fails an [assert!]. *)
Section results.
Context {A : Type} (parse : SmtSolver → string → option A).
Fixpoint result_lines (lines : list string) (found : option A) : cx (ValidityResult + option A) :=
  match lines with
  | [] => cret (inr found)
  | line :: lines' =>
    let* o := gets opts in
    match parse (solver o) line with
    | Some r =>
      match found with
      | None => result_lines lines' (Some r)
      | Some _ => cpanic
      end
    | None =>
      if ignore_unexpected_smt o then report_unexpected line ;* result_lines lines' found
      else cret (inl (ValidityResult_UnexpectedOutput line))
    end
  end.
End results.

Definition expect_cx {A} (o : option A) : cx A := clift (expect o).

(** Only for Z3. *)
Definition smt_get_rlimit_count : cx (ValidityResult + N) :=
  let* o := gets opts in
  assert (is_z3 (solver o)) ;*
  log [SmtGetInfo "all-statistics"] ;*
  let* smt_output := send in
  let* statistics := expect_cx (parse_sexpression smt_output) in
  let* r := clift (rlimit_count_of statistics) in
  cret match r with inl text => inl (ValidityResult_UnexpectedOutput text) | inr n => inr n end.

Definition set_rlimit_z3 (value : string) : cx unit :=
  let* o := gets opts in
  if is_z3 (solver o) then log [SmtSetOption "rlimit" value] else cret tt.

Definition not_label (info : AssertionInfo) : Expr := mk_not (ident_var (ai_label info)).

(** ** The model *)

(** [context.evaluate_bool]: its printer is made for the solver. *)
Definition evaluate_bool (expr : Expr) : cx (option bool) :=
  let* o := gets opts in
  let node := expr_to_node (Printer.new true (solver o)) expr in
  log [SmtNode (Node_List [str_to_node "get-value"; Node_List [node]])] ;*
  let* output := send in
  cret (parse_value output).

Fixpoint run_observer (t : EvalTree) : cx unit :=
  match t with
  | EvalDone => cret tt
  | EvalBool expr k => let* b := evaluate_bool expr in run_observer (k b)
  end.

(** The assertions that disable every enabled label but the [i]th. *)
Definition isolate (infos : list AssertionInfo) (i : nat) : list SmtCommand :=
  omap (λ '(j, info),
    if negb (j =? i)%nat && negb (ai_disabled info) then Some (SmtAssert None (not_label info)) else None)
    (zip (seq 0 (List.length infos)) infos).

Definition last_answer (lines : list string) : bool :=
  foldl (λ r line, if line =? "unsat" then false else if line =? "sat" then true else r) true lines.

Definition rlimit_text (o : Options) : string := N_to_string (rlimit o).

Definition confirm_label (infos : list AssertionInfo) (i : nat) : cx bool :=
  let* o := gets opts in
  log [SmtPush] ;*
  log (isolate infos i) ;*
  set_rlimit_z3 (rlimit_text o) ;*
  log [SmtWord "check-sat"] ;*
  set_rlimit_z3 "0" ;*
  log [SmtPop] ;*
  let* smt_output := send in
  cret (last_answer smt_output).

Definition check_sat_again : cx bool :=
  let* o := gets opts in
  set_rlimit_z3 (rlimit_text o) ;*
  log [SmtWord "check-sat"] ;*
  set_rlimit_z3 "0" ;*
  let* smt_output := send in
  cret (existsb (String.eqb "sat") smt_output).

Definition restore_model_for_observer (infos : list AssertionInfo) (i : nat) : cx bool :=
  log [SmtPush] ;*
  log (isolate infos i) ;*
  let* sat := check_sat_again in
  if sat then cret true
  else
    log [SmtPop] ;*
    let* _ := check_sat_again in
    cret false.

(** The enabled labels that are true in the model. *)
Definition candidates (model_defs : gmap Ident ModelDefX) (infos : list AssertionInfo) : list nat :=
  omap (λ '(i, info),
    if negb (ai_disabled info)
       && match model_defs !! ai_label info with Some def => md_body def =? "true" | None => false end
    then Some i else None) (zip (seq 0 (List.length infos)) infos).

Fixpoint find_confirmed (infos : list AssertionInfo) (needs_confirmation : bool) (indices : list nat)
    : cx (option nat) :=
  match indices with
  | [] => cret None
  | i :: indices' =>
    if needs_confirmation then
      let* ok := confirm_label infos i in
      if ok then cret (Some i) else find_confirmed infos needs_confirmation indices'
    else cret (Some i)
  end.

Definition label_le (a b : AxiomInfo) : Prop := String.leb (xi_label a) (xi_label b) = true.
#[global] Instance label_le_dec : RelDecision label_le := λ a b, decide (String.leb (xi_label a) (xi_label b) = true).

(** The labels of the first axiom, in the order of their names, that is true in
    the model and has the error's filter or none. *)
Definition additional_info (m : gmap Ident AxiomInfo) (model_defs : gmap Ident ModelDefX)
    (filter : AxiomInfoFilter) : list ArcDynMessageLabel :=
  let sorted := merge_sort label_le (map snd (map_to_list m)) in
  let matches info :=
    match model_defs !! xi_label info with
    | Some def => (md_body def =? "true") && (bool_decide (xi_filter info = None) || bool_decide (xi_filter info = filter))
    | None => false
    end in
  match List.find matches sorted with Some info => xi_labels info | None => [] end.

Definition disable (info : AssertionInfo) : AssertionInfo :=
  mkAssertionInfo (ai_assert_id info) (ai_error info) (ai_label info) (ai_filter info) (ai_decl info) true.

Definition model_not_available : string := "model is not available".

Definition read_model (smt_output : list string) : cx (gmap Ident ModelDefX) :=
  let* node := expect_cx (parse_sexpression smt_output) in
  let* model := clift (lift_res (lines_to_model node_text (λ _, node) smt_output)) in
  cret (foldl (λ m def, <[md_name def := def]> m) ∅ model).

Definition no_location (infos : list AssertionInfo) : cx ValidityResult :=
  put_state (ContextState_FoundInvalid infos None) ;*
  cret (ValidityResult_Invalid None None None).

(** The report of the assertion [infos[i]], after which its label is disabled. *)
Definition report_assertion (infos : list AssertionInfo) (air_model : Model) (model_defs : gmap Ident ModelDefX)
    (needs_confirmation : bool) (i : nat) (info : AssertionInfo) : cx ValidityResult :=
  let* axioms := gets (λ c, ScopeMap.map (axiom_infos c)) in
  let e := append_labels (ai_error info) (additional_info axioms model_defs (ai_filter info)) in
  let* scoped :=
    match observer with
    | Some _ => if needs_confirmation then restore_model_for_observer infos i else cret false
    | None => cret false
    end in
  match observer with
  | Some obs =>
    let* before := gets observed in
    let event := CheckValidResult_Invalid model_defs (ai_assert_id info) e in
    notify event ;*
    run_observer (obs (before ++ [event]))
  | None => cret tt
  end ;*
  (if scoped then log [SmtPop] else cret tt) ;*
  log [SmtAssert None (not_label info)] ;*
  put_state (ContextState_FoundInvalid (<[i := disable info]> infos) (Some air_model)) ;*
  cret (ValidityResult_Invalid (Some air_model) (Some e) (ai_assert_id info)).

Definition smt_get_model (infos : list AssertionInfo) (air_model : Model) : cx ValidityResult :=
  log [SmtWord "get-model"] ;*
  let* smt_output := send in
  if existsb (contains model_not_available) smt_output then no_location infos
  else
    let* model_defs := read_model smt_output in
    let cands := candidates model_defs infos in
    let needs_confirmation := (1 <? List.length cands)%nat in
    let* confirmed := find_confirmed infos needs_confirmation cands in
    let index := match confirmed with Some i => Some i | None => head cands end in
    match index with
    | None => no_location infos
    | Some i =>
      let* info := expect_cx (infos !! i) in
      report_assertion infos air_model model_defs needs_confirmation i info
    end.
End verify.

(** ** Queries (source/air/src/smt_verify.rs, context.rs)

    [smt_check_assertion] and [smt_check_query], and the operations of [Context]
    that use them: [global], [check_valid], [check_valid_again], [finish_query] and
    [command]. *)

Section query.
Context {IM : IndexMapOps} `{MI : MessageInterface} {env : SmtEnv} (oc : bool) (fuel : nat).

(** ** One check *)

(** The loop that disables the labels after the first disabled one; the result
    has the new infos, [disabled] and [found_enabled]. *)
Fixpoint disable_later (infos : list AssertionInfo) (found_disabled : bool)
    : list AssertionInfo * list Expr * bool :=
  match infos with
  | [] => ([], [], false)
  | info :: infos' =>
    let later := found_disabled && negb (ai_disabled info) in
    let info' := if later then disable info else info in
    let '(later_infos, es, found_enabled) := disable_later infos' (found_disabled || ai_disabled info') in
    (info' :: later_infos, if later then not_label info :: es else es, negb (ai_disabled info') || found_enabled)
  end.

Definition notify_observer (r : CheckValidResult) : cx unit :=
  match observer with Some _ => notify r | None => cret tt end.

(** [Some b]: undetermined, with [b] for unsat; [None]: canceled. *)
Definition smt_reason (solver : SmtSolver) : cx (ValidityResult + option bool) :=
  log [SmtGetInfo "reason-unknown"] ;*
  let* smt_output := send in
  try* reason := result_lines parse_reason smt_output None in
  let* reason := expect_cx reason in
  match reason with
  | Reason_Canceled | Reason_Unknown =>
    put_state ContextState_Canceled ;*
    notify_observer (CheckValidResult_Timeout None) ;*
    cret (inr None)
  | Reason_Incomplete => cret (inr (Some false))
  end.

Definition get_usage_info : cx UsageInfo :=
  let* o := gets opts in
  if usage_info_enabled o then
    log [SmtWord "get-unsat-core"] ;*
    let* smt_output := send in
    match smt_output with
    | [line] => let* axioms := clift (parse_unsat_core line) in cret (UsageInfo_UsedAxioms axioms)
    | _ => cpanic
    end
  else cret UsageInfo_None.

(** From [get-info version] to the lines of [check-sat]. *)
Definition ask_solver (disabled_expr : option Expr) : cx (ValidityResult + SmtOutput) :=
  let* o := gets opts in
  log [SmtGetInfo "version"] ;*
  let* early_smt_output := send in
  try* _ := check_version_lines early_smt_output in
  log (match disabled_expr with Some e => [SmtAssert None e] | None => [] end) ;*
  set_rlimit_z3 (rlimit_text o) ;*
  log [SmtWord "check-sat"] ;*
  let* smt_output := send in
  try* unsat := result_lines (λ _, parse_smt_output) smt_output None in
  set_rlimit_z3 "0" ;*
  let* unsat := expect_cx unsat in
  cret (inr unsat).

Definition determine (solver : SmtSolver) (unsat : SmtOutput) : cx (ValidityResult + option bool) :=
  match unsat with
  | Unsat => cret (inr (Some true))
  | Sat => cret (inr (Some false))
  | Unknown => smt_reason solver
  end.

(** The arms after the answer is determined. *)
Definition conclude (infos : list AssertionInfo) (air_model : Model) (result : option bool) : cx ValidityResult :=
  match result with
  | None => cret ValidityResult_Canceled
  | Some true =>
    put_state ContextState_FoundResult ;*
    let* usage_info := get_usage_info in
    notify_observer (CheckValidResult_Valid (map ai_assert_id infos) usage_info) ;*
    cret (ValidityResult_Valid usage_info)
  | Some false =>
    let* o := gets opts in
    if single_check_query o then no_location infos else smt_get_model infos air_model
  end.

(** A [return] out of the function is its result. *)
Definition returned {A} (m : cx (A + A)) : cx A :=
  let* r := m in cret match r with inl x => x | inr x => x end.

Definition smt_check_assertion (infos : list AssertionInfo) (air_model : Model) (only_check_earlier : bool)
    : cx ValidityResult :=
  let '(infos, disabled, found_enabled) :=
    if only_check_earlier then disable_later infos false else (infos, [], true) in
  if only_check_earlier && negb found_enabled then cret (ValidityResult_Valid UsageInfo_None)
  else
    returned
      (let* o := gets opts in
       try* unsat := ask_solver (if only_check_earlier then Some (mk_and disabled) else None) in
       try* result := determine (solver o) unsat in
       let* r := conclude infos air_model result in
       cret (inr r)).

(** ** One query *)

(** [Err(err) => return ValidityResult::TypeError(err)] *)
Definition typed {A} (m : cx (Typecheck.TypeError + A)) : cx (ValidityResult + A) :=
  let* r := m in cret match r with inl err => inl (ValidityResult_TypeError err) | inr x => inr x end.

Fixpoint add_query_decls (ds : list Decl) : cx (ValidityResult + unit) :=
  match ds with
  | [] => cret (inr tt)
  | decl :: ds' =>
    try* _ := typed (add_decl decl false) in
    smt_add_decl decl ;*
    add_query_decls ds'
  end.

(** [smt_get_rlimit_count] with Z3, and [None] with cvc5. *)
Definition rlimit_count_z3 : cx (ValidityResult + option N) :=
  let* o := gets opts in
  if is_z3 (solver o) then try* n := smt_get_rlimit_count in cret (inr (Some n)) else cret (inr None).

Definition u64_sub : N → N → res fuel_error N := uint_sub u64_bound oc.

(** The resources used before and during the check are added to the context's. *)
Definition account (n1 n2 n3 : N) : cx unit :=
  let* count := gets rlimit_count in
  let* (ctx_init, ctx_run) := expect_cx count in
  let* init := clift (u64_sub n2 n1) in
  let* run := clift (u64_sub n3 n2) in
  let* i := clift (u64_add oc ctx_init init) in
  let* r := clift (u64_add oc ctx_run run) in
  modify (λ c, set_rlimit_count c (Some (i, r))).

Definition smt_check_query (query : Query) (air_model : Model) : cx ValidityResult :=
  returned
    (let* o := gets opts in
     (if single_check_query o then cret tt else log [SmtPush] ;* push_name_scope) ;*
     try* rlimit_count_1 := rlimit_count_z3 in
     try* _ := add_query_decls (local query) in
     match assertion query with
     | StmtX_Assert _ _ _ expr =>
       let* (labeled_assertion, infos, _) := run_labels (elim_zero_args_expr expr) in
       try* _ := add_query_decls (map ai_decl infos) in
       log [SmtAssert None (ExprX_Unary UnaryOp_Not labeled_assertion)] ;*
       try* rlimit_count_2 := rlimit_count_z3 in
       let* result := smt_check_assertion infos air_model false in
       try* rlimit_count_3 := rlimit_count_z3 in
       match rlimit_count_1, rlimit_count_2, rlimit_count_3 with
       | Some n1, Some n2, Some n3 => account n1 n2 n3
       | _, _, _ => cret tt
       end ;*
       cret (inr result)
     | _ => cpanic
     end).

(** ** The operations of [Context] *)

Definition global (decl : Decl) : cx (Typecheck.TypeError + unit) :=
  ensure_started ;*
  try* (gen_decls, decl) := check_decl oc fuel decl in
  cmap smt_add_decl gen_decls ;*
  try* _ := add_decl decl true in
  smt_add_decl decl ;*
  cret (inr tt).

Definition check_valid (query : Query) : cx ValidityResult :=
  ensure_started ;*
  let* r := check_query oc fuel query in
  match r with
  | inl err => cret (ValidityResult_TypeError err)
  | inr query =>
    let* lowered := clift (lift_res (VarToConst.lower_query oc query)) in
    let* query := clift (lift_res (BlockToAssert.lower_query oc mi_empty (lq_query lowered))) in
    let* validity := smt_check_query query (new_model (lq_snapshots lowered) (lq_local_vars lowered)) in
    modify set_used ;*
    cret validity
  end.

Definition check_valid_again (only_check_earlier : bool) : cx ValidityResult :=
  let* s := gets state in
  match s with
  | ContextState_FoundInvalid infos (Some air_model) =>
    let* res := smt_check_assertion infos air_model only_check_earlier in
    modify set_used ;*
    cret res
  | _ => cpanic
  end.

Definition finish_query : cx unit :=
  let* o := gets opts in
  if single_check_query o then put_state ContextState_NoMoreQueriesAllowed
  else pop_name_scope ;* log [SmtPop] ;* put_state ContextState_ReadyForQuery.

Definition eval_expr (expr : Node) : cx string :=
  log [SmtEval expr] ;*
  let* smt_output := send in
  match smt_output with [line] => cret line | _ => cpanic end.

Definition no_usage : ValidityResult := ValidityResult_Valid UsageInfo_None.

Definition command (f64_text : string → option string) (c : Command) : cx ValidityResult :=
  match c with
  | CommandX_Push => push ;* cret no_usage
  | CommandX_Pop => pop ;* cret no_usage
  | CommandX_SetOption option value => set_solver_option f64_text option value ;* cret no_usage
  | CommandX_Global decl =>
    let* r := global decl in
    cret match r with inl err => ValidityResult_TypeError err | inr _ => no_usage end
  | CommandX_CheckValid query => check_valid query
  end.

(** ** The driver's loop (main.rs)

    After an error with a model, look for further ones; the result has the
    results in order.  [checks_remaining] is the number of further errors asked for. *)
Fixpoint check_errors (fuel : nat) (result : ValidityResult) (checks_remaining : N) (only_check_earlier : bool)
    : cx (list ValidityResult) :=
  match result with
  | ValidityResult_TypeError _ | ValidityResult_UnexpectedOutput _ => cpanic
  | ValidityResult_Invalid (Some _) (Some _) _ =>
    if (0 <? checks_remaining)%N then
      match fuel with
      | O => λ _, Err OutOfFuel
      | S fuel =>
        let checks := if only_check_earlier then checks_remaining else (checks_remaining - 1)%N in
        let earlier := only_check_earlier || (checks =? 0)%N in
        let* result' := check_valid_again earlier in
        let* results := check_errors fuel result' checks earlier in
        cret (result :: results)
      end
    else cret [result]
  | _ => cret [result]
  end.
End query.
