(* ===== verification/SmtFacts.v ===== *)
(** * What the operations write to the solver

    The commands that each operation adds, what the answer unsat means for them, and,
    from the section on names on, the queries without closures that the passes make: their
    free names, their labels and their weakest preconditions. *)

From Stdlib Require Import String.
From S2P Require Import Prelude StateRes RustString Ast AstUtil Semantics ExprFacts StmtFacts.
From S2P Require Import BlockToAssert BlockToAssertCorrect IndexMap Visitor VarToConst Ssa.
From S2P Require Import VersionSim VarToConstCorrect Node Messages Printer Parser ClosureFacts.
From S2P Require Import Emitter AirContext CheckClosures SmtQuery.
From S2P Require ScopeMap Typecheck.
Set Warnings "-rewrite-rw,-register-all,-clear-no-such-hyp".
Local Open Scope string_scope.
Local Open Scope list_scope.
Local Open Scope cm_scope.

Section trace.
Context {IM : IndexMapOps}.
Implicit Types c : Context.

(** All commands so far. *)
Definition trace c : list SmtCommand := List.concat (sent c) ++ smt_log c.

(** The commands from [c] to [c'] close no scope and add [ds]. *)
Definition adds_to c c' (ds : Decls) : Prop :=
  ∃ cs, trace c' = trace c ++ cs ∧ forallb no_pop cs = true ∧ added cs = ds.

Lemma adds_refl c c' : trace c' = trace c → adds_to c c' [].
Proof. intros H. exists []. by rewrite app_nil_r. Qed.

Lemma adds_trans c1 c2 c3 ds1 ds2 : adds_to c1 c2 ds1 → adds_to c2 c3 ds2 → adds_to c1 c3 (ds1 ++ ds2).
Proof.
  intros (cs1 & T1 & N1 & A1) (cs2 & T2 & N2 & A2). exists (cs1 ++ cs2).
  rewrite T2 T1 app_assoc added_app forallb_app N1 N2 A1 A2. done.
Qed.

Lemma adds_nil_r c1 c2 c3 ds : adds_to c1 c2 ds → adds_to c2 c3 [] → adds_to c1 c3 ds.
Proof. intros H1 H2. rewrite -(app_nil_r ds). by eapply adds_trans. Qed.

Lemma adds_active c c' ds : adds_to c c' ds → active (trace c') ≡ₚ active (trace c) ++ ds.
Proof. intros (cs & -> & Hn & <-). by apply active_app. Qed.

(** The steps that do not write. *)
Lemma returns_log cs c (Q : unit → Context → Prop) :
  (∀ c', trace c' = trace c ++ cs → state c' = state c → Q tt c') → returns (log cs) c Q.
Proof. intros HQ [] c' [= <-]. apply HQ; [|done]. unfold trace. cbn. by rewrite app_assoc. Qed.

Lemma adds_log cs c : forallb no_pop cs = true → returns (log cs) c (λ _ c', adds_to c c' (added cs)).
Proof. intros Hn. apply returns_log. intros c' Ht _. by exists cs. Qed.

Lemma adds_modify (f : Context → Context) c : (∀ c, trace (f c) = trace c) →
  returns (modify f) c (λ _ c', adds_to c c' []).
Proof. intros Hf [] c' [= <-]. by apply adds_refl. Qed.

Lemma adds_run_tc {A} (m : Typecheck.tc A) c : returns (run_tc m) c (λ _ c', adds_to c c' []).
Proof. intros r c'. unfold run_tc. destruct (m _) as [[x|e|] t]; intros [= <- <-] || intros [=]; by apply adds_refl. Qed.

Lemma adds_run_cl {A} (m : Closure.Closures → res fuel_error (A * Closure.Closures)) c :
  returns (run_cl m) c (λ _ c', adds_to c c' []).
Proof. intros r c'. unfold run_cl. destruct (m _) as [[x cl]| |]; intros [= <- <-] || intros [=]; by apply adds_refl. Qed.

Lemma adds_pop_name_scope c : returns pop_name_scope c (λ _ c', adds_to c c' []).
Proof.
  intros u c'. unfold pop_name_scope. destruct (ScopeMap.pop_scope _); [|done..]. cbn.
  destruct (pop_closure_scopes _); [|done..]. intros [= _ <-]. by apply adds_refl.
Qed.

(** A step that adds [ds1], followed by the rest. *)
Lemma adds_bind {A B} (m : cx A) (k : A → cx B) c0 c ds (Q : B → Context → Prop) :
  adds_to c0 c ds → returns m c (λ _ c', adds_to c c' []) →
  (∀ x c', adds_to c0 c' ds → returns (k x) c' Q) → returns (cbind m k) c Q.
Proof.
  intros H0 Hm Hk. apply returns_bind. eapply returns_mono; [exact Hm|]. intros x c' H. apply Hk.
  by eapply adds_nil_r.
Qed.

Lemma adds_bind_more {A B} (m : cx A) (k : A → cx B) c0 c ds ds1 (Q : B → Context → Prop) :
  adds_to c0 c ds → returns m c (λ _ c', adds_to c c' ds1) →
  (∀ x c', adds_to c0 c' (ds ++ ds1) → returns (k x) c' Q) → returns (cbind m k) c Q.
Proof.
  intros H0 Hm Hk. apply returns_bind. eapply returns_mono; [exact Hm|]. intros x c' H. apply Hk.
  by eapply adds_trans.
Qed.

Lemma returns_try {E A B} (m : cx (E + A)) (k : A → cx (E + B)) c (Q : E + B → Context → Prop) :
  returns m c (λ r c', match r with inl e => Q (inl e) c' | inr x => returns (k x) c' Q end) →
  returns (try m k) c Q.
Proof.
  intros Hm. apply returns_bind. eapply returns_mono; [exact Hm|]. intros [e|x] c' H; [|done]. by apply returns_ret.
Qed.

Lemma returns_any {A B} (m : cx A) (k : A → cx B) c (Q : B → Context → Prop) :
  (∀ x c', returns (k x) c' Q) → returns (cbind m k) c Q.
Proof. intros Hk. apply returns_bind. eapply returns_mono; [apply returns_true|]. auto. Qed.
End trace.

#[global] Hint Extern 1 (_ = _) => reflexivity : core.

Section answers.
Context {IM : IndexMapOps} `{MI : MessageInterface} {env : SmtEnv}.
Implicit Types c : Context.

Lemma trace_send c : trace (set_pipe c [] (sent c ++ [smt_log c])) = trace c.
Proof. unfold trace. cbn. by rewrite List.concat_app /= !app_nil_r. Qed.

Lemma adds_send c : returns send c (λ _ c', adds_to c c' []).
Proof. intros lines c' [= <- <-]. apply adds_refl, trace_send. Qed.

Lemma adds_report line c : returns (report_unexpected line) c (λ _ c', adds_to c c' []).
Proof. by apply adds_modify. Qed.

Definition is_valid (r : ValidityResult) : bool := match r with ValidityResult_Valid _ => true | _ => false end.
(** What is returned early is not [Valid]. *)
Definition early_ok {A} (r : ValidityResult + A) : Prop := match r with inl v => is_valid v = false | inr _ => True end.

Definition same_pipe c c' : Prop := smt_log c' = smt_log c ∧ sent c' = sent c.

Lemma version_lines_pipe lines c :
  returns (check_version_lines lines) c (λ r c', same_pipe c c' ∧ early_ok r).
Proof.
  assert (H0 : same_pipe c c) by done. revert H0. generalize c at 1 4. intros c0 H0. revert c H0.
  induction lines as [|line lines IH]; intros c H0; [by apply returns_ret|]. cbn [check_version_lines].
  apply returns_bind. intros o c1 [= <- <-]. destruct (parse_version_response line) as [v|].
  - destruct (expected_solver_version _) as [ev|]; [|by apply IH]. destruct (v =? ev); [by apply IH|apply returns_panic].
  - destruct (ignore_unexpected_smt _); [|by apply returns_ret].
    apply returns_bind. intros u c1 [= <- <-]. by apply IH.
Qed.

(** The lines are those of the answer, and one of them gave the result. *)
Lemma result_lines_found {A} (parse : SmtSolver → string → option A) lines found c :
  returns (result_lines parse lines found) c (λ r c', adds_to c c' [] ∧
    match r with
    | inl v => is_valid v = false
    | inr (Some x) => found = Some x ∨ ∃ s line, line ∈ lines ∧ parse s line = Some x
    | inr None => True
    end).
Proof.
  assert (H0 := adds_refl c c eq_refl). revert H0. generalize c at 1 4. intros c0 H0. revert c found H0.
  induction lines as [|line lines IH]; intros c found H0.
  { apply returns_ret. split; [done|]. destruct found; auto. }
  cbn [result_lines]. apply returns_bind. intros o c1 [= <- <-]. destruct (parse _ line) as [x|] eqn:Hp.
  - destruct found; [apply returns_panic|]. eapply returns_mono; [by apply IH|].
    intros [v|[y|]] c' [H1 H2]; split; try done. right. destruct H2 as [[= ->]|(s & l & Hl & Hy)].
    + exists (solver (opts c)), line. split; [by left|done].
    + exists s, l. split; [by right|done].
  - destruct (ignore_unexpected_smt _); [|by apply returns_ret].
    eapply adds_bind; [exact H0|apply adds_report|]. intros _ c1 H1.
    eapply returns_mono; [by apply IH|]. intros [v|[y|]] c' [H2 H3]; split; try done.
    destruct H3 as [?|(s & l & Hl & Hy)]; [by left|]. right. exists s, l. split; [by right|done].
Qed.

Lemma adds_rlimit_z3 v c : returns (set_rlimit_z3 v) c (λ _ c', adds_to c c' []).
Proof.
  apply returns_bind. intros o c1 [= <- <-]. destruct (is_z3 _); [by apply adds_log|].
  apply returns_ret. by apply adds_refl.
Qed.

Lemma adds_rlimit_count c : returns rlimit_count_z3 c (λ r c', adds_to c c' [] ∧ early_ok r).
Proof.
  assert (H0 := adds_refl c c eq_refl). apply returns_bind. intros o c1 [= <- <-].
  destruct (is_z3 _); [|by apply returns_ret]. apply returns_try. apply returns_bind. intros o c1 [= <- <-].
  eapply adds_bind; [exact H0| |].
  { unfold assert. destruct (is_z3 _); [|apply returns_panic]. by apply returns_ret, adds_refl. }
  intros _ c1 H1. eapply adds_bind; [exact H1|by apply adds_log|]. intros _ c2 H2.
  eapply adds_bind; [exact H2|apply adds_send|]. intros lines c3 H3.
  apply returns_bind, returns_lift. intros node _. apply returns_bind, returns_lift. intros [t|n] _.
  - by apply returns_ret.
  - by apply returns_ret, returns_ret.
Qed.

(** ** The answer unsat *)

(** The last batch ends in the only [check-sat] of it and was answered by a line [unsat]. *)
Definition answers_unsat (batches : list (list SmtCommand)) : Prop :=
  ∃ hist pre, batches = hist ++ [pre ++ [SmtWord "check-sat"]] ∧ SmtWord "check-sat" ∉ pre
    ∧ "unsat" ∈ send_commands batches.

(** The solver answered unsat after the commands of [c] and [ds]. *)
Definition concluded c (ds : Decls) : Prop :=
  ∃ batches cs, answers_unsat batches ∧ List.concat batches = trace c ++ cs
    ∧ forallb no_pop cs = true ∧ added cs = ds.

Lemma concluded_adds c0 c ds ds' : adds_to c0 c ds → concluded c ds' → concluded c0 (ds ++ ds').
Proof.
  intros (cs & Ht & Hn & Ha) (bs & cs' & Hb & Hc & Hn' & Ha'). exists bs, (cs ++ cs').
  rewrite Hc Ht -app_assoc forallb_app Hn Hn' added_app Ha Ha'. done.
Qed.

Lemma parse_unsat line : parse_smt_output line = Some Unsat → line = "unsat".
Proof.
  unfold parse_smt_output. destruct (line =? "unsat") eqn:E; [by apply String.eqb_eq in E|].
  by repeat case_match.
Qed.

(** Only settings after the pipe was emptied. *)
Lemma rlimit_z3_pipe v c : returns (set_rlimit_z3 v) c (λ _ c', sent c' = sent c ∧
  (smt_log c' = smt_log c ∨ smt_log c' = smt_log c ++ [SmtSetOption "rlimit" v])).
Proof.
  apply returns_bind. intros o c1 [= <- <-]. destruct (is_z3 _).
  - intros [] c' [= <-]. split; [done|by right].
  - apply returns_ret. split; [done|by left].
Qed.

(** The part of [ask_solver] that sends [check-sat]. *)
Lemma check_sat_concluded (d : option Expr) (text : string) c : smt_log c = [] →
  returns (log (match d with Some e => [SmtAssert None e] | None => [] end) ;*
           set_rlimit_z3 text ;* log [SmtWord "check-sat"] ;*
           let* smt_output := send in
           try* unsat := result_lines (λ _, parse_smt_output) smt_output None in
           set_rlimit_z3 "0" ;*
           let* unsat := expect_cx unsat in
           cret (inr unsat)) c
    (λ r c', match r with
      | inl v => is_valid v = false
      | inr Unsat => concluded c (match d with Some e => [DeclX_Axiom (mkAxiom None e)] | None => [] end)
      | _ => True
      end).
Proof.
  intros He. set (as_ := match d with Some e => [SmtAssert None e] | None => [] end).
  apply returns_bind. intros [] c1 [= <-]. apply returns_bind.
  eapply returns_mono; [apply rlimit_z3_pipe|]. intros _ c2 [Hs Hp]. cbn in Hs, Hp. rewrite He in Hp. cbn in Hp.
  apply returns_bind. intros [] c3 [= <-]. apply returns_bind. intros lines c4 [= <- <-].
  apply returns_try. eapply returns_mono; [apply result_lines_found|]. intros [v|[x|]] c5 [_ Hx]; try done.
  2: { apply returns_any. intros _ c6. apply returns_bind, returns_lift. intros y [=]. }
  apply returns_any. intros _ c6. apply returns_bind, returns_lift. intros y [= <-]. apply returns_ret.
  destruct x; [|done..]. destruct Hx as [[=]|(s & line & Hl & ->%parse_unsat)]. cbn in Hl. rewrite Hs in Hl.
  set (pre := smt_log c2) in *.
  assert (Hpre : pre = as_ ∨ pre = as_ ++ [SmtSetOption "rlimit" text]) by exact Hp.
  exists (sent c ++ [pre ++ [SmtWord "check-sat"]]), (pre ++ [SmtWord "check-sat"]). split_and!.
  - exists (sent c), pre. split_and!; [done| |done].
    destruct Hpre as [-> | ->]; unfold as_; destruct d; set_solver.
  - unfold trace. rewrite He List.concat_app /= !app_nil_r. done.
  - destruct Hpre as [-> | ->]; unfold as_; by destruct d.
  - destruct Hpre as [-> | ->]; unfold as_; by destruct d.
Qed.
End answers.

(** ** Names a statement does not mention, and plain queries

    Executions from two states that differ only at names that the statement does
    not mention have the same outcomes, up to those names.  The passes give
    statements that labelling expects. *)

Section ignore.
Context (M : Interp) (Γ : Vars) (P : Ident → bool).
Context (HΓ : ∀ x t, Γ !! x = Some t → P x = false).
Implicit Types (σ τ : State M) (ρ : Env M).

Definition same_env ρ ρ' : Prop := ∀ x, P x = false → ρ x = ρ' x.
Definition same_state σ τ : Prop :=
  same_env (env σ) (env τ) ∧ ∀ s, option_Forall2 same_env (snaps σ !! s) (snaps τ !! s).
Definition same_outcome (o o' : outcome M) : Prop :=
  match o, o' with
  | ONormal σ, ONormal τ => same_state σ τ
  | OBreak l σ, OBreak l' τ => l = l' ∧ same_state σ τ
  | OFail i, OFail j => i = j
  | _, _ => False
  end.

Definition avoids (e : Expr) : Prop := Forall (λ x, P x = false) (mentions e).

Lemma same_olds σ τ : same_state σ τ → ∀ s x, olds M Γ σ s x = olds M Γ τ s x.
Proof using HΓ.
  intros [_ Hs] s x. unfold olds. destruct (Γ !! x) as [t|] eqn:Hx; [|done].
  specialize (Hs s). destruct (snaps σ !! s), (snaps τ !! s); inversion Hs as [? ? H|]; subst; [|done].
  by rewrite (H x (HΓ x t Hx)).
Qed.

Lemma same_eval σ τ e : same_state σ τ → avoids e → eval M (olds M Γ σ) (env σ) e = eval M (olds M Γ τ) (env τ) e.
Proof using HΓ.
  intros Hs He. apply eval_agree.
  - eapply Forall_impl; [exact He|]. intros x. apply Hs.
  - apply Forall_forall. intros s _ x. by apply same_olds.
Qed.

Lemma same_holds σ τ e : same_state σ τ → avoids e → holds M Γ σ e = holds M Γ τ e.
Proof using HΓ. intros Hs He. unfold holds, truth. by rewrite (same_eval σ τ e). Qed.

Lemma same_set σ τ x v : same_state σ τ → same_state (set_var M σ x v) (set_var M τ x v).
Proof using. intros [H1 H2]. split; [|done]. intros y Hy. simpl. case_decide; auto. Qed.

Lemma exec_same s : Forall avoids (stmt_exprs s) → ∀ σ τ o, same_state σ τ → exec M Γ s σ o →
  ∃ o', exec M Γ s τ o' ∧ same_outcome o o'.
Proof using HΓ.
  induction s as [e|i msg f e|x|x e|x|s IH|l s IH|l|ss IH|ss IH] using StmtX_ind'; intros Hav σ τ o Hs He;
    cbn [stmt_exprs] in Hav; cbn [exec] in *.
  - apply Forall_cons in Hav as [Ha _]. destruct He as [Hh ->]. exists (ONormal τ).
    split; [|done]. by rewrite -(same_holds σ).
  - apply Forall_cons in Hav as [Ha _]. subst o. eexists. split; [reflexivity|].
    rewrite (same_holds σ τ) //. by destruct (holds _ _ _ _).
  - destruct He as (t & v & Ht & Hv & ->). exists (ONormal (set_var M τ x v)). split; [by exists t, v|by apply same_set].
  - apply Forall_cons in Hav as [Ha _]. subst o. eexists. split; [reflexivity|].
    rewrite (same_eval σ τ) //. by apply same_set.
  - subst o. eexists. split; [reflexivity|]. destruct Hs as [H1 H2]. split; [done|]. intros s. simpl.
    destruct (decide (s = x)) as [->|]; [rewrite !lookup_insert_eq; by constructor|]. by rewrite !lookup_insert_ne.
  - destruct He as [->|[He Hn]]; [exists (ONormal τ); split; [by left|done]|].
    destruct (IH Hav σ τ o Hs He) as (o' & He' & Ho). exists o'. split; [|done]. right. split; [done|].
    by destruct o, o'.
  - destruct He as (o1 & He & ->). destruct (IH Hav σ τ o1 Hs He) as (o2 & He' & Ho). exists (catch M l o2).
    split; [by exists o2|]. destruct o1, o2; try done. destruct Ho as [-> Ho]. simpl. by case_decide.
  - subst o. by exists (OBreak l τ).
  - revert σ τ Hs He. induction IH as [|s ss IHs _ IHss]; intros σ τ Hs He; simpl in *.
    { subst o. by exists (ONormal τ). }
    apply Forall_app in Hav as [Ha1 Ha2]. destruct He as [(σ1 & H1 & H2)|[H1 Hn]].
    + destruct (IHs Ha1 σ τ _ Hs H1) as ([τ1| |] & He1 & Ho1); try done.
      destruct (IHss Ha2 σ1 τ1 Ho1 H2) as (o' & He' & Ho). exists o'. split; [|done]. left. by exists τ1.
    + destruct (IHs Ha1 σ τ o Hs H1) as (o' & He' & Ho). exists o'. split; [|done]. right. split; [done|].
      by destruct o, o'.
  - induction IH as [|s ss IHs _ IHss]; simpl in *; [done|].
    apply Forall_app in Hav as [Ha1 Ha2]. destruct He as [(o1 & H1 & ->)|H1].
    + destruct (IHs Ha1 σ τ o1 Hs H1) as (o2 & He2 & Ho2). exists (drop_snaps M (snaps τ) o2).
      split; [left; by exists o2|]. destruct o1, o2; try done. split; [apply Ho2|apply Hs].
    + destruct (IHss Ha2 H1) as (o' & He' & Ho). exists o'. split; [by right|done].
Qed.
End ignore.

(** ** Expressions as the solver reads them

    [smt_plain]: no label and no application to zero arguments.  [labelled]: labels
    only where [label_asserts] looks for them, below [and], [or] and to the right
    of [=>], as lowered queries have them.  There labelling keeps the truth value
    when all labels are true. *)

Definition no_nullary : Expr → bool := all_nodes (λ e, match e with ExprX_Apply _ [] => false | _ => true end).
Definition smt_plain : Expr → bool := all_nodes (λ e,
  match e with
  | ExprX_Apply _ [] | ExprX_LabeledAxiom _ _ _ | ExprX_LabeledAssertion _ _ _ _ => false
  | _ => true
  end).

Fixpoint labelled (e : Expr) : bool :=
  smt_plain e ||
  match e with
  | ExprX_Multi MultiOp_And es | ExprX_Multi MultiOp_Or es => forallb labelled es
  | ExprX_Binary BinaryOp_Implies l r => smt_plain l && labelled r
  | ExprX_LabeledAssertion _ _ _ e1 => smt_plain e1
  | _ => false
  end.

Lemma smt_plain_children e : smt_plain e = true → Forall (λ x, smt_plain x = true) (children e).
Proof. unfold smt_plain. rewrite all_nodes_children andb_true_iff forallb_true_iff. by intros [_ H]. Qed.

Lemma smt_plain_intro e : smt_plain e = match e with
  | ExprX_Apply _ [] | ExprX_LabeledAxiom _ _ _ | ExprX_LabeledAssertion _ _ _ _ => false
  | _ => forallb smt_plain (children e) end.
Proof. unfold smt_plain at 1. rewrite all_nodes_children. by destruct e as [| | |x []| | | | | | | | |]. Qed.

Lemma plain_labelled e : smt_plain e = true → labelled e = true.
Proof. intros H. destruct e; cbn [labelled]; by rewrite H. Qed.

(** ** Zero arguments *)

Lemma plain_no_nullary e : smt_plain e = true → no_nullary e = true.
Proof.
  induction e as [e IH] using expr_ind_children. intros H. pose proof (smt_plain_children e H) as Hc.
  unfold no_nullary. rewrite all_nodes_children. apply andb_true_iff. split.
  - rewrite smt_plain_intro in H. by destruct e as [| | |x []| | | | | | | | |].
  - apply forallb_true_iff. eapply Forall_impl2; [exact IH|exact Hc|]. auto.
Qed.

Lemma labelled_no_nullary e : labelled e = true → no_nullary e = true.
Proof.
  assert (Hn : ∀ e, no_nullary e = (match e with ExprX_Apply _ [] => false | _ => true end)
    && forallb no_nullary (children e)) by (intros; apply all_nodes_children).
  induction e as [c|x|s x|x es IH|t e0 es IH0 IH|op e IH|op e1 e2 IH1 IH2|op es IH|e1 e2 e3 IH1 IH2 IH3
    |es IH|b e IHb IH|ls f e IH|i m f e IH] using ExprX_ind'; cbn [labelled];
    intros [H|H]%orb_true_iff; try done; try (by apply plain_no_nullary); rewrite Hn; cbn [children].
  - destruct op; try done. apply andb_true_iff in H as [H1 H2]. cbn. by rewrite plain_no_nullary // IH2.
  - destruct op; try done; rewrite forallb_true_iff in H; cbn [andb]; apply forallb_true_iff;
      eapply Forall_impl2; [exact IH|exact H|auto|exact IH|exact H|auto].
  - cbn. by rewrite plain_no_nullary.
Qed.

Lemma map_id_Forall {A} (f : A → A) l : Forall (λ x, f x = x) l → map f l = l.
Proof. intros H. rewrite -{2}(map_id l). by apply map_ext_Forall. Qed.

Lemma elim_no_nullary e : no_nullary e = true → elim_zero_args_expr e = e.
Proof.
  unfold elim_zero_args_expr. set (v := map_expr_visitor elim_zero_args).
  assert (Hn : ∀ e, no_nullary e = (match e with ExprX_Apply _ [] => false | _ => true end)
    && forallb no_nullary (children e)) by (intros; apply all_nodes_children).
  assert (Hl : ∀ es, Forall (λ e, no_nullary e = true → v e = e) es → Forall (λ e, no_nullary e = true) es → map v es = es).
  { intros es H1 H2. apply map_id_Forall. eapply Forall_impl2; [exact H1|exact H2|auto]. }
  induction e as [c|x|s x|x es IH|t e0 es IH0 IH|op e IH|op e1 e2 IH1 IH2|op es IH|e1 e2 e3 IH1 IH2 IH3
    |es IH|b e IHb IH|ls f e IH|i m f e IH] using ExprX_ind';
    rewrite Hn; intros [Ha Hc]%andb_true_iff; apply forallb_true_iff in Hc; cbn [children] in Hc;
    unfold v; cbn [map_expr_visitor]; fold v; rewrite ?Forall_cons in Hc; try done.
  - rewrite Hl //. by destruct es.
  - destruct Hc as [H0 Hc]. by rewrite Hl // IH0.
  - by rewrite IH; [apply Hc|].
  - destruct Hc as (H1 & H2 & _). by rewrite IH1 // IH2.
  - by rewrite Hl.
  - destruct Hc as (H1 & H2 & H3 & _). by rewrite IH1 // IH2 // IH3.
  - by rewrite Hl.
  - destruct Hc as [He Hb]. rewrite IH //. cbn [elim_zero_args]. f_equal.
    assert (Ht : ∀ ts, Forall (λ e, no_nullary e = true → v e = e) (concat ts) →
      Forall (λ e, no_nullary e = true) (concat ts) → map (map v) ts = ts).
    { clear -Hl. induction ts as [|t ts IH]; cbn [concat]; [done|]. intros [H1 H2]%Forall_app [H3 H4]%Forall_app.
      cbn [map]. by rewrite Hl // IH. }
    destruct b as [bs|q bs ts qid|bs ts qid w c|bs ts qid c]; cbn [bind_exprs] in IHb, Hb.
    + f_equal. apply map_id_Forall. rewrite !Forall_map in IHb, Hb.
      eapply Forall_impl2; [exact IHb|exact Hb|]. intros [x e'] H1 H2. cbn in *. by rewrite H1.
    + by rewrite Ht.
    + rewrite !Forall_app in IHb, Hb. destruct IHb as (I1 & I2 & I3), Hb as (B1 & B2 & B3). rewrite Ht //. f_equal.
      * destruct w as [[wn we]|]; [|done]. cbn in *. apply Forall_cons in I2 as [I2 _], B2 as [B2 _]. by rewrite I2.
      * destruct c as [c|]; [|done]. cbn in *. apply Forall_cons in I3 as [I3 _], B3 as [B3 _]. by rewrite I3.
    + rewrite !Forall_app in IHb, Hb. destruct IHb as (I1 & I2), Hb as (B1 & B2).
      apply Forall_cons in I2 as [I2 _], B2 as [B2 _]. by rewrite Ht // I2.
  - by rewrite IH; [apply Hc|].
  - by rewrite IH; [apply Hc|].
Qed.

(** ** The passes *)

Definition plains : list Expr → Prop := Forall (λ e, smt_plain e = true).

Section passes.
Context {IM : IndexMapOps}.

Lemma lower_expr_plain m S e : smt_plain e = true → smt_plain (lower_expr m S e) = true.
Proof.
  unfold lower_expr. set (v := map_expr_visitor (lower_expr_visitor m S)).
  assert (Hl : ∀ es, Forall (λ e, smt_plain e = true → smt_plain (v e) = true) es → plains es → forallb smt_plain (map v es) = true).
  { intros es H1 H2. apply forallb_true_iff, Forall_map. eapply Forall_impl2; [exact H1|exact H2|auto]. }
  induction e as [c|x|s x|x es IH|t e0 es IH0 IH|op e IH|op e1 e2 IH1 IH2|op es IH|e1 e2 e3 IH1 IH2 IH3
    |es IH|b e IHb IH|ls f e IH|i msg f e IH] using ExprX_ind';
    intros H; pose proof (smt_plain_children _ H) as Hc; cbn [children] in Hc;
    unfold v; cbn [map_expr_visitor lower_expr_visitor]; fold v; rewrite ?Forall_cons in Hc; try done.
  - by destruct (im_get m x).
  - by destruct (_ ≫= _).
  - destruct es as [|e es]; [done|]. rewrite smt_plain_intro. by apply (Hl (e :: es)).
  - rewrite smt_plain_intro. cbn. rewrite IH0; [apply Hc|]. apply Hl; [done|apply Hc].
  - rewrite smt_plain_intro. cbn. by rewrite IH; [apply Hc|].
  - rewrite smt_plain_intro. cbn. by rewrite IH1 ?IH2; [apply Hc|apply Hc|].
  - rewrite smt_plain_intro. by apply Hl.
  - rewrite smt_plain_intro. cbn. by rewrite IH1 ?IH2 ?IH3; [apply Hc|apply Hc|apply Hc|].
  - rewrite smt_plain_intro. by apply Hl.
  - destruct Hc as [He Hb]. rewrite smt_plain_intro. cbn [children forallb]. rewrite IH //. cbn [andb].
    assert (Ht : ∀ ts, Forall (λ e, smt_plain e = true → smt_plain (v e) = true) (concat ts) →
      plains (concat ts) → forallb smt_plain (concat (map (map v) ts)) = true).
    { intros ts H1 H2. rewrite -concat_map. by apply Hl. }
    destruct b as [bs|q bs ts qid|bs ts qid w c|bs ts qid c]; cbn [bind_exprs] in *.
    + assert (Hb' : ba <$> map (λ b, mkBinder (bname b) (v (ba b))) bs = map v (ba <$> bs)).
      { clear. induction bs as [|b bs IH]; [done|]. cbn. by f_equal. }
      rewrite Hb'. by apply Hl.
    + by apply Ht.
    + rewrite !forallb_app. rewrite !Forall_app in IHb, Hb. destruct IHb as (I1 & I2 & I3), Hb as (B1 & B2 & B3).
      rewrite Ht //. destruct w as [w|], c as [c|]; cbn in *; rewrite ?Forall_cons in I2, I3, B2, B3;
        rewrite ?(proj1 I2) ?(proj1 I3) //; naive_solver.
    + rewrite !forallb_app. rewrite !Forall_app in IHb, Hb. destruct IHb as (I1 & I2), Hb as (B1 & B2).
      rewrite Ht //=. apply Forall_cons in I2 as [I2 _], B2 as [B2 _]. by rewrite I2.
Qed.

Lemma lower_root_plain m S e : smt_plain e = true → smt_plain (lower_root m S e) = true.
Proof.
  intros He%(lower_expr_plain m S). unfold lower_root. revert He. generalize (lower_expr m S e). intros e' He.
  destruct e'; try done; cbn; [by destruct (im_get m x)|by destruct (_ ≫= _)].
Qed.

Lemma version_eqs_plain from to : plains (concat (map stmt_exprs (version_eqs from to))).
Proof.
  apply Forall_concat_map. unfold version_eqs. apply Forall_concat_map, Forall_true. intros x. unfold version_eq.
  destruct (_ <? _)%N; by repeat constructor.
Qed.

Lemma ssa_plain s : plains (stmt_exprs s) → ∀ T m S, plains (stmt_exprs (ssa T s m S)).
Proof.
  assert (Hcons : ∀ s ss, plains (stmt_exprs (StmtX_Block (s :: ss))) ↔ plains (stmt_exprs s) ∧ plains (concat (map stmt_exprs ss))).
  { intros. apply Forall_app. }
  induction s as [e|i msg f e|x|x e|x|s IH|l s IH|l|ss IH|ss IH] using StmtX_ind'; intros He T m S; try done.
  - apply Forall_cons in He as [He _]. constructor; [by apply lower_root_plain|done].
  - apply Forall_cons in He as [He _]. constructor; [by apply lower_root_plain|done].
  - apply Forall_cons in He as [He _]. constructor; [|done]. rewrite smt_plain_intro. cbn.
    by rewrite lower_root_plain.
  - by apply IH.
  - cbn [ssa]. apply Hcons. split; [by apply IH|apply version_eqs_plain].
  - cbn [ssa]. destruct (T !! l); [|done]. cbn [stmt_exprs]. rewrite map_app concat_app.
    apply Forall_app. split; [apply version_eqs_plain|done].
  - cbn [stmt_exprs ssa] in *. revert m S. induction IH as [|s ss Hs _ IHss]; intros m S; [constructor|].
    apply Hcons in He as [He1 He2]. apply Forall_app. split; [by apply Hs|by apply IHss].
  - cbn [stmt_exprs ssa] in *. set (mt := final _ _). clearbody mt. rewrite map_map. unfold plains in *.
    rewrite Forall_concat_map in He. rewrite Forall_concat_map. eapply Forall_impl2; [exact IH|exact He|].
    intros s Hs Hes. apply Hcons. split; [by apply Hs|apply version_eqs_plain].
Qed.

Definition decl_plain (d : Decl) : Prop := match d with DeclX_Axiom ax => smt_plain (expr ax) = true | _ => True end.

Lemma lowered_decls_plain ds : Forall decl_plain ds → ∀ K, Forall decl_plain (lowered_decls K ds).
Proof.
  induction 1 as [|d ds Hd _ IH]; intros K; [constructor|]. cbn [lowered_decls]. apply Forall_app. split; [|done].
  destruct d; repeat constructor; try done. by apply lower_expr_plain.
Qed.
End passes.

(** ** Weakest preconditions *)

Lemma labelled_mk_and es : Forall (λ e, labelled e = true) es → labelled (mk_and es) = true.
Proof.
  intros Hes. unfold mk_and. destruct (existsb _ _); [done|].
  assert (Hf : Forall (λ e, labelled e = true) (List.filter (λ e, negb (is_const_bool true e)) es)).
  { apply Forall_forall. intros e He. apply list_elem_of_In, filter_In in He as [He _].
    rewrite Forall_forall in Hes. by apply Hes, list_elem_of_In. }
  destruct (List.filter _ _) as [|e [|e' l]]; [done|by apply Forall_cons in Hf as [? _]|].
  cbn [labelled]. apply orb_true_iff. right. by apply forallb_true_iff.
Qed.

Lemma labelled_mk_or es : Forall (λ e, labelled e = true) es → labelled (mk_or es) = true.
Proof.
  intros Hes. unfold mk_or. destruct (existsb _ _); [done|].
  assert (Hf : Forall (λ e, labelled e = true) (List.filter (λ e, negb (is_const_bool false e)) es)).
  { apply Forall_forall. intros e He. apply list_elem_of_In, filter_In in He as [He _].
    rewrite Forall_forall in Hes. by apply Hes, list_elem_of_In. }
  destruct (List.filter _ _) as [|e [|e' l]]; [done|by apply Forall_cons in Hf as [? _]|].
  cbn [labelled]. apply orb_true_iff. right. by apply forallb_true_iff.
Qed.

Lemma plain_mk_not e : smt_plain e = true → smt_plain (mk_not e) = true.
Proof.
  intros He. pose proof (smt_plain_children e He) as Hc. unfold mk_not.
  destruct e as [[[]| | |]| | | | |[]| | | | | | |]; try done; cbn [children] in Hc;
    try (apply Forall_cons in Hc as [Hc _]); try done; rewrite smt_plain_intro; cbn [children forallb]; by rewrite He.
Qed.

Lemma labelled_mk_implies a b : smt_plain a = true → labelled b = true → labelled (mk_implies a b) = true.
Proof.
  intros Ha Hb.
  assert (Hi : labelled (ExprX_Binary BinaryOp_Implies a b) = true).
  { cbn [labelled]. by rewrite Ha Hb orb_true_r. }
  unfold mk_implies. destruct a as [[[]| | |]| | | | | | | | | | | |]; try done;
    destruct b as [[[]| | |]| | | | | | | | | | | |]; try done; by apply plain_labelled, plain_mk_not.
Qed.

Lemma stmt_to_expr_labelled oc s : plains (stmt_exprs s) → ∀ st pred e st', labelled pred = true →
  stmt_to_expr oc s st pred = Ok (e, st') → labelled e = true.
Proof.
  induction s as [e|i msg f e|x|x e|x|s IH|l s IH|l|ss IH|ss IH] using StmtX_ind'; intros He st pred e0 st' Hp H;
    cbn [stmt_to_expr stmt_exprs] in *; try done.
  - injection H as <- <-. apply Forall_cons in He as [He _]. by apply labelled_mk_implies.
  - injection H as <- <-. apply Forall_cons in He as [He _]. apply labelled_mk_and. repeat constructor; [|done].
    cbn [labelled]. by rewrite He orb_true_r.
  - apply rbind_ok_inv in H as ([w st1] & Hw & [= <- <-]). apply labelled_mk_and. repeat constructor; [|done].
    by eapply (IH He _ mk_true).
  - apply rbind_ok_inv in H as ([w st1] & Hw & [= <- <-]). apply labelled_mk_or. repeat constructor.
    + apply labelled_mk_and. by repeat constructor.
    + by eapply (IH He _ (ExprX_Var _)).
  - by injection H as <- <-.
  - revert st' e0 H. apply Forall_concat_map in He. induction IH as [|s ss Hs _ IHss]; intros st' e0 H; cbn in H.
    { by injection H as <- <-. }
    apply Forall_cons in He as [He1 He2]. apply rbind_ok_inv in H as ([p st1] & Hb & H).
    eapply (Hs He1); [|exact H]. by eapply IHss.
  - apply rbind_ok_inv in H as (n & _ & H). apply rbind_ok_inv in H as ([es st2] & Hes & [= <- <-]).
    apply labelled_mk_or. repeat constructor; [|apply labelled_mk_and; by repeat constructor].
    apply labelled_mk_and. apply Forall_concat_map in He.
    revert Hes. generalize (n, st.2 ++ [DeclX_Const (switch_label st.1) bool_typ]). generalize (switch_label st.1). intros x.
    clear Hp. revert es st2. induction IH as [|s ss Hs _ IHss]; intros es st2 st1 H; cbn in H.
    { by injection H as <- <-. }
    apply Forall_cons in He as [He1 He2]. apply rbind_ok_inv in H as ([e1 st3] & He' & H).
    apply rbind_ok_inv in H as ([es' st4] & Hes' & [= <- <-]). constructor; [|by eapply IHss].
    by eapply (Hs He1 _ (ExprX_Var x)).
Qed.

(** ** Labels *)

(** The names of assertion labels, as opposed to versions. *)
Definition is_assert_label (x : Ident) : bool := starts_with PREFIX_LABEL x && negb (version_like x).

Lemma version_like_prefix s : version_like (PREFIX_LABEL +:+ s) = version_like s.
Proof. done. Qed.

Lemma assertion_label_is infos : is_assert_label (assertion_label infos) = true.
Proof.
  unfold is_assert_label, assertion_label. rewrite starts_with_app version_like_prefix.
  generalize (N_to_string_digits (N.of_nat (List.length infos))). generalize (N_to_string (N.of_nat (List.length infos))).
  intros s. induction s as [|a s IH]; [done|]. cbn [all_chars]. intros [Ha Hs]%andb_true_iff. cbn [version_like].
  destruct (Ascii.eqb _ _) eqn:He; [by apply Ascii.eqb_eq in He as ->|]. by apply IH.
Qed.

Lemma assert_label_other x : is_assert_label x = true → fresh x ∧ is_label x = false.
Proof.
  intros [Hp Hv]%andb_true_iff. split; [by apply negb_true_iff|]. unfold is_label.
  apply starts_with_inv in Hp as [s ->]. reflexivity.
Qed.

Lemma label_list_plain f es s : Forall (λ e, ∀ s, f e s = (e, s)) es → label_list f es s = (es, s).
Proof. intros H. revert s. induction H as [|e es He _ IH]; intros s; [done|]. cbn. by rewrite He IH. Qed.

Lemma label_plain e : smt_plain e = true → ∀ s, label_asserts e s = (e, s).
Proof.
  induction e as [c|x|s x|x es IH|t e0 es IH0 IH|op e IH|op e1 e2 IH1 IH2|op es IH|e1 e2 e3 IH1 IH2 IH3
    |es IH|b e IHb IH|ls f e IH|i msg f e IH] using ExprX_ind'; intros H s0;
    pose proof (smt_plain_children _ H) as Hc; cbn [children] in Hc; cbn [label_asserts]; try done.
  - apply Forall_cons in Hc as [_ Hc]. apply Forall_cons in Hc as [Hc _]. destruct op; try done; by rewrite IH2.
  - destruct op; try done; rewrite label_list_plain //; eapply Forall_impl2; [exact IH|exact Hc|auto|exact IH|exact Hc|auto].
  - apply Forall_cons in Hc as [Hc _]. destruct b as [bs|[] bs ts qid|bs ts qid w c|bs ts qid c]; try done. by rewrite IH.
Qed.

(** What labelling adds for a lowered assertion. *)
Record label_adds (s s' : Labelling) : Prop := {
  la_axioms : lb_axiom_infos s' = lb_axiom_infos s;
  la_infos : ∃ new, lb_infos s' = lb_infos s ++ new ∧
    Forall (λ i, ai_decl i = DeclX_Const (ai_label i) TypX_Bool ∧ is_assert_label (ai_label i) = true ∧ ai_disabled i = false) new
}.

Lemma label_adds_refl s : label_adds s s.
Proof. split; [done|]. exists []. by rewrite app_nil_r. Qed.
Lemma label_adds_trans s1 s2 s3 : label_adds s1 s2 → label_adds s2 s3 → label_adds s1 s3.
Proof.
  intros [A1 (n1 & E1 & F1)] [A2 (n2 & E2 & F2)]. split; [by rewrite A2|]. exists (n1 ++ n2).
  rewrite E2 E1 app_assoc. split; [done|by apply Forall_app].
Qed.

Section truth.
Context (M : Interp) (old : Olds M) (ρ : Env M) (Hρ : ∀ x, is_assert_label x = true → ρ x = i_bool M true).

Definition keeps_truth (f : Expr → Labelling → Expr * Labelling) (e : Expr) : Prop := ∀ s,
  truth M old ρ (f e s).1 = truth M old ρ e ∧ label_adds s (f e s).2.

Lemma keeps_list f es : Forall (keeps_truth f) es → ∀ s,
  map (truth M old ρ) (label_list f es s).1 = map (truth M old ρ) es ∧ label_adds s (label_list f es s).2.
Proof using.
  induction 1 as [|e es He _ IH]; intros s; [split; [done|apply label_adds_refl]|]. cbn.
  destruct (He s) as [H1 H2]. destruct (f e s) as [e' s1]. destruct (IH s1) as [H3 H4].
  destruct (label_list f es s1) as [es' s2]. cbn in *. split; [by rewrite H1 H3|by eapply label_adds_trans].
Qed.

Lemma forallb_truth es : forallb (i_truth M) (map (eval M old ρ) es) = forallb id (map (truth M old ρ) es).
Proof using. induction es as [|e es IH]; [done|]. cbn. by rewrite IH. Qed.
Lemma existsb_truth es : existsb (i_truth M) (map (eval M old ρ) es) = existsb id (map (truth M old ρ) es).
Proof using. induction es as [|e es IH]; [done|]. cbn. by rewrite IH. Qed.

Lemma label_keeps_truth e : labelled e = true → keeps_truth label_asserts e.
Proof using Hρ.
  assert (Hpl : ∀ e, smt_plain e = true → keeps_truth label_asserts e).
  { intros e' He s. rewrite label_plain //. split; [done|apply label_adds_refl]. }
  induction e as [c|x|sn x|x es IH|t e0 es IH0 IH|op e IH|op e1 e2 IH1 IH2|op es IH|e1 e2 e3 IH1 IH2 IH3
    |es IH|b e IHb IH|ls f e IH|i msg f e IH] using ExprX_ind'; cbn [labelled];
    intros [H|H]%orb_true_iff; try done; try (by apply Hpl); intros s; cbn [label_asserts].
  - destruct op; try done. apply andb_true_iff in H as [_ H]. destruct (IH2 H s) as [H1 H2].
    destruct (label_asserts e2 s) as [r s1]. cbn in *. split; [|done]. unfold truth in *. cbn. by rewrite !i_truth_bool H1.
  - assert (Hl : ∀ s, map (truth M old ρ) (label_list label_asserts es s).1 = map (truth M old ρ) es
      ∧ label_adds s (label_list label_asserts es s).2).
    { apply keeps_list. destruct op; try done; rewrite forallb_true_iff in H;
        eapply Forall_impl2; [exact IH|exact H|auto|exact IH|exact H|auto]. }
    destruct (Hl s) as [H1 H2]. destruct op; try done; destruct (label_list _ es s) as [es' s']; cbn in *; split; try done;
      unfold truth in *; cbn; rewrite !i_truth_bool.
    + by rewrite !forallb_truth H1.
    + by rewrite !existsb_truth H1.
  - assert (Hl : is_assert_label (assertion_label (lb_infos s)) = true) by apply assertion_label_is.
    destruct (Hpl e H (mkLabelling (lb_count s) (lb_infos s ++ [mkAssertionInfo i msg (assertion_label (lb_infos s)) f
      (DeclX_Const (assertion_label (lb_infos s)) TypX_Bool) false]) (lb_axiom_infos s))) as [H1 H2].
    rewrite label_plain // in H1 H2 |- *. cbn in *. split.
    + unfold truth. cbn. rewrite Hρ // !i_truth_bool. done.
    + split; [done|]. cbn. eexists. split; [done|]. by repeat constructor.
Qed.
End truth.
