(* ===== verification/SmtProcess.v ===== *)
(** * The solver process (source/air/src/smt_process.rs)

    Three threads of ours and the solver run at the same time: the caller of
    [send_commands], [writer_thread], [reader_thread], and the child process at the
    other end of two pipes of bounded capacity.  Each is a function that takes its
    next step or is blocked; a run interleaves them in any order.  The solver may die
    at any time.  Text in the pipe to the solver is a sequence of commands, text in
    the pipe back a sequence of lines.  Launching, the transcript log and [Drop] are
    left out; [wait_timeout] that times out changes nothing. *)

From Stdlib Require Import Ascii String.
From S2P Require Import Prelude RustString Ast Node Printer Parser Emitter.
Set Warnings "-rewrite-rw,-register-all,-clear-no-such-hyp".
Local Open Scope string_scope.
Local Open Scope list_scope.

Definition DONE : string := "<<DONE>>".
Definition DONE_QUOTED : string := quote +:+ DONE +:+ quote.
Definition done_line (solver : SmtSolver) : string :=
  match solver with SmtSolver_Z3 => DONE | SmtSolver_Cvc5 => DONE_QUOTED end.

(** [line.replace("\n", "").replace("\r", "")] *)
Fixpoint clean_line (s : string) : string :=
  match s with
  | EmptyString => EmptyString
  | String c s' => if (N_of_ascii c =? 10)%N || (N_of_ascii c =? 13)%N then clean_line s' else String c (clean_line s')
  end.

(** What is written to the solver: its commands, and [(echo "<<DONE>>")]. *)
Inductive Item := ICmd (c : SmtCommand) | IEcho.
Definition request_items (req : list SmtCommand) : list Item := map ICmd req ++ [IEcho].

Inductive Reader :=
| RIdle (* in [recv_requests.recv()] *)
| RReading (lines : list string) (empty_lines : nat)
| RPanicked.

(** One turn of the reader's loop, with the text of [read_line]. *)
Definition read_one (solver : SmtSolver) (text : string) (lines : list string) (empty_lines : nat)
    : list string + Reader :=
  let line := clean_line text in
  if line =? "" then
    inr (if (2 <? S empty_lines)%nat then RPanicked else RReading (lines ++ [line]) (S empty_lines))
  else if line =? done_line solver then inl lines
  else inr (RReading (lines ++ [line]) 0).

Inductive Caller := Ready | Waiting | Panicked.

Record Proc := mkProc {
  caller : Caller;
  requests : list (list SmtCommand);     (* channel to the writer *)
  writer : option (list Item);           (* what it has yet to write; [None]: panicked *)
  stdin : list Item;
  alive : bool;
  history : list SmtCommand;             (* what the solver has read *)
  pending : list string;                 (* what it has yet to print *)
  stdout : list string;
  recv_requests : nat;                   (* channel to the reader *)
  reader : Reader;
  responses : list (list string);        (* channel from the reader *)
  sent_batches : list (list SmtCommand); (* all calls of [send_commands] *)
  results : list (list string)           (* and what they have returned *)
}.

Definition start : Proc := mkProc Ready [] (Some []) [] true [] [] [] 0 RIdle [] [] [].

Section process.
Context (solver : SmtSolver).
(** What the solver prints for a command after those before, and for the echo. *)
Context (respond : list SmtCommand → SmtCommand → list string) (echo_text : string).
Context (in_capacity out_capacity : nat).

Definition item_lines (hist : list SmtCommand) (i : Item) : list string :=
  match i with ICmd c => respond hist c | IEcho => [echo_text] end.
Definition after_item (hist : list SmtCommand) (i : Item) : list SmtCommand :=
  match i with ICmd c => hist ++ [c] | IEcho => hist end.

Definition writer_step (s : Proc) : option Proc :=
  match s with
  | mkProc m rs (Some w) i a h p o n r q b z =>
    match w with
    | [] =>
      match rs with
      | req :: rs => Some (mkProc m rs (Some (request_items req)) i a h p o n r q b z)
      | [] => None
      end
    | x :: w =>
      if negb a then Some (mkProc m rs None i a h p o n r q b z)
      else if (List.length i <? in_capacity)%nat then Some (mkProc m rs (Some w) (i ++ [x]) a h p o n r q b z)
      else None
    end
  | _ => None
  end.

Definition solver_step (s : Proc) : option Proc :=
  match s with
  | mkProc m rs w i true h (l :: p) o n r q b z =>
    if (List.length o <? out_capacity)%nat then Some (mkProc m rs w i true h p (o ++ [l]) n r q b z) else None
  | mkProc m rs w (x :: i) true h [] o n r q b z =>
    Some (mkProc m rs w i true (after_item h x) (item_lines h x) o n r q b z)
  | _ => None
  end.

(** The end of the file reads as an empty line. *)
Definition reader_step (s : Proc) : option Proc :=
  match s with
  | mkProc m rs w i a h p o n r q b z =>
    let turn text o lines k :=
      match read_one solver text lines k with
      | inl lines => Some (mkProc m rs w i a h p o n RIdle (q ++ [lines]) b z)
      | inr r => Some (mkProc m rs w i a h p o n r q b z)
      end in
    match r, n, o with
    | RIdle, S n, _ => Some (mkProc m rs w i a h p o n (RReading [] 0) q b z)
    | RReading lines k, _, text :: o => turn text o lines k
    | RReading lines k, _, [] => if a then None else turn "" [] lines k
    | _, _, _ => None
    end
  end.

Inductive Thread := TWriter | TSolver | TReader.
Definition thread_step (t : Thread) : Proc → option Proc :=
  match t with TWriter => writer_step | TSolver => solver_step | TReader => reader_step end.

(** [send_commands_async]: a channel whose receiver is gone panics. *)
Definition caller_send (req : list SmtCommand) (s : Proc) : option Proc :=
  match s with
  | mkProc Ready rs w i a h p o n r q b z =>
    match w, r with
    | None, _ => Some (mkProc Panicked rs w i a h p o n r q b z)
    | Some _, RPanicked => Some (mkProc Panicked (rs ++ [req]) w i a h p o n r q (b ++ [req]) z)
    | Some _, _ => Some (mkProc Waiting (rs ++ [req]) w i a h p o (S n) r q (b ++ [req]) z)
    end
  | _ => None
  end.

(** [wait] *)
Definition caller_wait (s : Proc) : option Proc :=
  match s with
  | mkProc Waiting rs w i a h p o n r (x :: q) b z => Some (mkProc Ready rs w i a h p o n r q b (z ++ [x]))
  | mkProc Waiting rs w i a h p o n RPanicked [] b z => Some (mkProc Panicked rs w i a h p o n RPanicked [] b z)
  | _ => None
  end.

Definition solver_dies (s : Proc) : option Proc :=
  match s with
  | mkProc m rs w i true h p o n r q b z => Some (mkProc m rs w i false h [] o n r q b z)
  | _ => None
  end.

Inductive Event := EThread (t : Thread) | ESend (req : list SmtCommand) | EWait | EDies.
Definition step (e : Event) : Proc → option Proc :=
  match e with
  | EThread t => thread_step t
  | ESend req => caller_send req
  | EWait => caller_wait
  | EDies => solver_dies
  end.
Fixpoint run (es : list Event) (s : Proc) : option Proc :=
  match es with [] => Some s | e :: es' => s' ← step e s; run es' s' end.

(** ** What the callers are promised *)

(** What the solver prints for items after [hist]. *)
Fixpoint outputs (hist : list SmtCommand) (is_ : list Item) : list string :=
  match is_ with [] => [] | i :: is' => item_lines hist i ++ outputs (after_item hist i) is' end.

(** The answer to the last of the batches. *)
Definition batch_lines (hist req : list SmtCommand) : list string := outputs hist (map ICmd req).
Definition solver_answer (batches : list (list SmtCommand)) : list string :=
  match last batches with
  | Some req => map clean_line (batch_lines (List.concat (removelast batches)) req)
  | None => []
  end.

(** The empty lines counted after [lines], and that there are never too many. *)
Fixpoint empties (k : nat) (lines : list string) : nat :=
  match lines with [] => k | l :: ls => empties (if clean_line l =? "" then S k else 0) ls end.
Fixpoint calm (k : nat) (lines : list string) : bool :=
  match lines with
  | [] => true
  | l :: ls => let k := if clean_line l =? "" then S k else 0 in (k <=? 2)%nat && calm k ls
  end.
End process.

(** ** The threads answer as one function

    However the threads and the solver are interleaved, a call of [send_commands]
    returns what the solver prints for its batch, and it always returns: it cannot
    wait for ever, whatever the capacity of the pipes, not even for a solver that
    dies. *)

Local Close Scope string_scope.

Section process.
Context (solver : SmtSolver) (respond : list SmtCommand → SmtCommand → list string) (echo_text : string).
Context (in_capacity out_capacity : nat).
Implicit Types (s : Proc) (h : list SmtCommand) (b : list SmtCommand).
Abbreviation item_lines := (item_lines respond echo_text).
Abbreviation outputs := (outputs respond echo_text).
Abbreviation batch_lines := (batch_lines respond echo_text).
Abbreviation solver_answer := (solver_answer respond echo_text).
Abbreviation thread_step := (thread_step solver respond echo_text in_capacity out_capacity).
Abbreviation step := (step solver respond echo_text in_capacity out_capacity).
Abbreviation run := (run solver respond echo_text in_capacity out_capacity).

(** What the code relies on: the echo prints its line, and no answer has that line
    or three empty lines in a row. *)
Context (Hecho : clean_line echo_text = done_line solver).
Context (Hlines : ∀ h b, Forall (λ l, clean_line l ≠ done_line solver) (batch_lines h b)).
Context (Hcalm : ∀ h b, calm 0 (batch_lines h b) = true).

(** ** The commands and lines under way *)

Definition after_items : list SmtCommand → list Item → list SmtCommand := foldl after_item.

Lemma outputs_app h is1 is2 : outputs h (is1 ++ is2) = outputs h is1 ++ outputs (after_items h is1) is2.
Proof using. revert h. induction is1 as [|i is1 IH]; intros h; [done|]. cbn. by rewrite IH app_assoc. Qed.

Lemma after_items_app h is1 is2 : after_items h (is1 ++ is2) = after_items (after_items h is1) is2.
Proof using. apply foldl_app. Qed.

Lemma after_request h b : after_items h (request_items b) = h ++ b.
Proof using.
  unfold request_items. rewrite after_items_app. cbn. revert h.
  induction b as [|c b IH]; intros h; [by rewrite app_nil_r|]. cbn. by rewrite IH -app_assoc.
Qed.

Lemma outputs_request h b : outputs h (request_items b) = batch_lines h b ++ [echo_text].
Proof using. unfold request_items. by rewrite outputs_app. Qed.

Definition unwritten s : list Item :=
  match writer s with Some w => w ++ concat (map request_items (requests s)) | None => [] end.
Definition ahead s : list Item := stdin s ++ unwritten s.
(** All lines that will reach the reader. *)
Definition stream s : list string :=
  stdout s ++ (if alive s then pending s ++ outputs (history s) (ahead s) else []).

(** A step that the reader and the caller do not see. *)
Record unseen s s' : Prop := {
  us_stream : stream s' = stream s;
  us_total : alive s = true → after_items (history s') (ahead s') = after_items (history s) (ahead s)
             ∧ (is_Some (writer s) → is_Some (writer s'));
  us_alive : alive s' = alive s;
  us_recv : recv_requests s' = recv_requests s;
  us_reader : reader s' = reader s;
  us_responses : responses s' = responses s;
  us_caller : caller s' = caller s;
  us_sent : sent_batches s' = sent_batches s;
  us_results : results s' = results s
}.

Lemma writer_unseen s s' : writer_step in_capacity s = Some s' → unseen s s'.
Proof using.
  destruct s as [m rs [[|x w]|] i a h p o n r q b z]; cbn; [destruct rs as [|req rs]| |]; try done.
  - intros [= <-]. split; done.
  - destruct a; cbn; [case_match; [|done]|]; intros [= <-]; split; try done;
      by unfold stream, ahead, unwritten; cbn; rewrite -?app_assoc.
Qed.

Lemma solver_unseen s s' : solver_step respond echo_text out_capacity s = Some s' → unseen s s'.
Proof using.
  destruct s as [m rs w i [] h p o n r q b z]; cbn; [|by destruct i].
  destruct p as [|l p]; cbn; [destruct i as [|x i]; [done|]|destruct i; case_match; try done];
    intros [= <-]; split; try done; by unfold stream, ahead, unwritten; cbn; rewrite -?app_assoc.
Qed.

(** ** The invariant *)

(** The lines [ls] are due: all of them, or the first few from a dead solver. *)
Definition due s (ls : list string) : Prop := stream s `prefix_of` ls ∧ (alive s = true → stream s = ls).

Inductive waiting s (raw : list string) : Prop :=
| w_asked : recv_requests s = 1 → reader s = RIdle → responses s = [] → due s (raw ++ [echo_text]) → waiting s raw
| w_reading pre rest : recv_requests s = 0 → responses s = [] → raw = pre ++ rest →
    reader s = RReading (map clean_line pre) (empties 0 pre) → due s (rest ++ [echo_text]) → waiting s raw
| w_closed lines k : recv_requests s = 0 → responses s = [] → reader s = RReading lines k →
    alive s = false → stream s = [] → waiting s raw
| w_answered : recv_requests s = 0 → reader s = RIdle → responses s = [map clean_line raw] → stream s = [] → waiting s raw
| w_broken : recv_requests s = 0 → reader s = RPanicked → responses s = [] → alive s = false → waiting s raw.

Record inv s : Prop := {
  in_live : alive s = true → after_items (history s) (ahead s) = concat (sent_batches s) ∧ is_Some (writer s);
  in_results : ∀ i r, results s !! i = Some r → r = solver_answer (take (S i) (sent_batches s));
  in_caller : match caller s with
    | Ready => length (results s) = length (sent_batches s) ∧ recv_requests s = 0 ∧ reader s = RIdle
               ∧ responses s = [] ∧ stream s = []
    | Waiting => ∃ bs b, sent_batches s = bs ++ [b] ∧ length (results s) = length bs
               ∧ waiting s (batch_lines (concat bs) b)
    | Panicked => alive s = false
    end
}.

Lemma start_proc_inv : inv start.
Proof using. split; [done|by intros i r ?|done]. Qed.

Lemma unseen_waiting s s' raw : unseen s s' → waiting s raw → waiting s' raw.
Proof using.
  intros [H1 _ H3 H4 H5 H6 _ _ _].
  intros [|pre rest|lines k| |]; [apply w_asked|apply (w_reading _ _ pre rest)|apply (w_closed _ _ lines k)
    |apply w_answered|apply w_broken]; unfold due in *; by rewrite ?H1 ?H3 ?H4 ?H5 ?H6.
Qed.

Lemma unseen_inv s s' : unseen s s' → inv s → inv s'.
Proof using.
  intros Hu [Hl Hr Hc]. pose proof Hu as [H1 H2 H3 H4 H5 H6 H7 H8 H9]. split.
  - rewrite H3 H8. intros Ha. destruct (H2 Ha) as [Ht Hw], (Hl Ha) as [Hl1 Hl2]. split; [congruence|auto].
  - by rewrite H9 H8.
  - rewrite H7. destruct (caller s); rewrite ?H9 ?H8 ?H4 ?H5 ?H6 ?H1 ?H3; try done.
    destruct Hc as (bs & b & ? & ? & Hw). exists bs, b. split_and!; try done. by eapply unseen_waiting.
Qed.

(** ** The reader *)

Lemma done_nonempty : done_line solver ≠ "".
Proof using. clear -solver. by destruct solver. Qed.

Lemma read_one_line l lines k : clean_line l ≠ done_line solver → (calm k [l] = true) →
  read_one solver l lines k = inr (RReading (lines ++ [clean_line l]) (empties k [l])).
Proof using.
  intros Hd Hc. unfold read_one. cbn [calm empties] in Hc |- *. rewrite andb_true_r in Hc.
  destruct (String.eqb_spec (clean_line l) "") as [He|Hne].
  - apply Nat.leb_le in Hc. by destruct (Nat.ltb_spec 2 (S k)); [lia|].
  - by destruct (String.eqb_spec (clean_line l) (done_line solver)).
Qed.

Lemma read_one_done lines k : read_one solver echo_text lines k = inl lines.
Proof using Hecho.
  unfold read_one. rewrite Hecho. destruct (String.eqb_spec (done_line solver) "") as [He|_].
  - by apply done_nonempty in He.
  - by rewrite String.eqb_refl.
Qed.

Lemma calm_app k l1 l2 : calm k (l1 ++ l2) = calm k l1 && calm (empties k l1) l2.
Proof using. revert k. induction l1 as [|l l1 IH]; intros k; [done|]. cbn. by rewrite IH andb_assoc. Qed.
Lemma empties_app k l1 l2 : empties k (l1 ++ l2) = empties (empties k l1) l2.
Proof using. revert k. induction l1 as [|l l1 IH]; intros k; [done|]. cbn. by rewrite IH. Qed.

Lemma due_cons s s' l ls x : stream s = x :: stream s' → alive s' = alive s → due s (l :: ls) → x = l ∧ due s' ls.
Proof using.
  intros Hs Ha [Hp He]. rewrite Hs in Hp, He. apply prefix_cons_inv_1 in Hp as Hx. subst x. split; [done|].
  apply prefix_cons_inv_2 in Hp. split; [done|]. rewrite Ha. intros E. by injection (He E).
Qed.

(** ** Steps *)

(** One line of a live answer. *)
Lemma read_waiting s s' raw text lines k : reader s = RReading lines k → stream s = text :: stream s' →
  alive s' = alive s → recv_requests s' = recv_requests s →
  match read_one solver text lines k with
  | inl lines => reader s' = RIdle ∧ responses s' = responses s ++ [lines]
  | inr r => reader s' = r ∧ responses s' = responses s
  end →
  calm 0 raw = true → Forall (λ l, clean_line l ≠ done_line solver) raw → waiting s raw → waiting s' raw.
Proof using Hecho.
  intros Hr Hs Ha Hn Hone Hcalm' Hraw Hw.
  destruct Hw as [? Hr'|pre rest ? Hq -> Hr' Hd|? ? ? ? ? ? He|? Hr'|? Hr']; try (rewrite Hr in Hr'; done).
  2: by rewrite He in Hs.
  rewrite Hr in Hr'. injection Hr' as -> ->. destruct rest as [|l rest].
  - destruct (due_cons s s' echo_text [] text Hs Ha Hd) as [-> [Hp _]].
    rewrite read_one_done in Hone. destruct Hone as [H1 H2]. rewrite Hq in H2.
    apply w_answered; [by rewrite Hn|done|by rewrite app_nil_r|]. by apply prefix_nil_inv in Hp.
  - destruct (due_cons s s' l (rest ++ [echo_text]) text Hs Ha Hd) as [-> Hd'].
    rewrite !calm_app in Hcalm'. apply andb_true_iff in Hcalm' as [_ Hc]. cbn [calm] in Hc.
    apply andb_true_iff in Hc as [Hc _]. apply Forall_app in Hraw as [_ [Hl _]%Forall_cons].
    rewrite read_one_line // in Hone; [by cbn; rewrite Hc|]. destruct Hone as [H1 H2].
    apply (w_reading _ _ (pre ++ [l]) rest); [by rewrite Hn|by rewrite H2|by rewrite -app_assoc| |done].
    by rewrite map_app empties_app H1.
Qed.

Lemma reader_inv s s' : reader_step solver s = Some s' → inv s → inv s'.
Proof using Hecho Hlines Hcalm.
  intros Hst [Hl Hr Hc].
  assert (Hsame : caller s' = caller s ∧ sent_batches s' = sent_batches s ∧ results s' = results s ∧ alive s' = alive s
    ∧ history s' = history s ∧ ahead s' = ahead s ∧ writer s' = writer s ∧ pending s' = pending s).
  { destruct s as [m rs w i a h p o n r q b z]. cbn in Hst.
    destruct r as [|lines k|], n as [|n], o as [|text o]; try done; repeat case_match; try done;
      by injection Hst as <-. }
  destruct Hsame as (Hm & Hb & Hz & Ha & Hh & Hi & Hwr & Hp). split.
  - rewrite Ha Hh Hi Hb Hwr. exact Hl.
  - rewrite Hz Hb. exact Hr.
  - rewrite Hm. destruct (caller s) eqn:Hcs; [| |by rewrite Ha].
    + destruct Hc as (_ & Hn & Hre & _). destruct s. cbn in *. subst. done.
    + destruct Hc as (bs & b & Hsent & Hlen & Hw). exists bs, b. rewrite Hb Hz. split_and!; [done|done|].
      revert Hw. generalize (Hlines (concat bs) b) (Hcalm (concat bs) b). generalize (batch_lines (concat bs) b).
      intros raw Hraw Hcalm' Hw. clear Hr Hl Hsent Hlen.
      destruct s as [m rs w i a h p o n r q b' z]. cbn in *. destruct r as [|lines k|]; [destruct n as [|n]; [done|]| |done].
      * injection Hst as <-. destruct Hw as [[= ->] _ Hq Hd|? ? ? ? ? ?|? ? ? ? ?|?|?]; try done. cbn in Hq.
        by apply (w_reading _ _ [] raw).
      * destruct o as [|text o].
        -- destruct a; [done|]. destruct Hw as [? [=]|pre rest Hn Hq ? _ _|? ? Hn Hq _ _ _|? [=]|? [=]]; cbn in Hn, Hq; subst n q.
           all: unfold read_one in Hst; cbn in Hst; destruct k as [|[|k]]; injection Hst as <-.
           all: try (by eapply w_closed); by apply w_broken.
        -- apply (read_waiting (mkProc m rs w i a h p (text :: o) n (RReading lines k) q b' z) s' raw text lines k); try done.
           all: destruct (read_one solver text lines k) as [lines'|r]; injection Hst as <-; done.
Qed.

#[local] Opaque request_items.

Lemma send_inv req s s' : caller_send req s = Some s' → inv s → inv s'.
Proof using.
  destruct s as [[] rs w i a h p o n r q b z]; try done. cbn. intros Hst [Hl Hr (Hlen & Hn & Hre & Hq & Hs)].
  cbn in *. subst n r q. destruct w as [w|]; injection Hst as <-.
  - split.
    + cbn. intros Ha. destruct (Hl Ha) as [Ht _]. split; [|done]. revert Ht. unfold ahead, unwritten. cbn.
      rewrite map_app !concat_app /= !app_nil_r. intros Ht.
      by rewrite (app_assoc w) (app_assoc i) (after_items_app _ _ (request_items req)) Ht after_request.
    + cbn. intros j x Hx. apply lookup_lt_Some in Hx as Hj. rewrite take_app_le; [lia|]. by apply Hr.
    + cbn. exists b, req. split_and!; [done|done|]. apply w_asked; [done|done|done|].
      unfold due, stream in *. cbn in *. destruct a; [|by apply app_nil in Hs as [-> _]; split; [apply prefix_nil|]].
      destruct (Hl eq_refl) as [Ht _]. apply app_nil in Hs as [-> [-> Ho]%app_nil]. cbn.
      unfold ahead, unwritten in *. cbn in *.
      assert (He : outputs h (i ++ w ++ concat (map request_items (rs ++ [req]))) = batch_lines (concat b) req ++ [echo_text]).
      { rewrite map_app concat_app /= app_nil_r (app_assoc w) (app_assoc i) outputs_app. by rewrite Ho Ht -outputs_request. }
      by rewrite He.
  - split.
    + cbn. intros Ha. by destruct (Hl Ha) as [_ [? ?]].
    + exact Hr.
    + cbn. destruct a; [|done]. by destruct (Hl eq_refl) as [_ [? ?]].
Qed.

Lemma answer_snoc bs b : solver_answer (bs ++ [b]) = map clean_line (batch_lines (concat bs) b).
Proof using. unfold SmtProcess.solver_answer. by rewrite last_snoc removelast_last. Qed.

Lemma wait_inv s s' : caller_wait s = Some s' → inv s → inv s'.
Proof using.
  destruct s as [[] rs w i a h p o n r q b z]; try done. cbn. intros Hst [Hl Hr (bs & req & Hsent & Hlen & Hw)].
  cbn in *. subst b. destruct q as [|x q].
  - destruct r; try done. injection Hst as <-. split; [exact Hl|exact Hr|]. cbn.
    by destruct Hw as [? [=]|? ? ? ? ? [=]|? ? ? ? [=]|? [=]|? ? ? Ha].
  - assert (Some (mkProc Ready rs w i a h p o n r q (bs ++ [req]) (z ++ [x])) = Some s') as [= <-] by by destruct r.
    clear Hst. destruct Hw as [? ? [=]|? ? ? [=]|? ? ? [=]|Hn Hre [= -> ->] Hs|? ? [=]]. cbn in Hn, Hre. subst n r.
    split; [exact Hl| |].
    + cbn. intros j y Hj. apply lookup_app_Some in Hj as [Hj|[Hge Hj]]; [by apply Hr|].
      apply list_lookup_singleton_Some in Hj as [Hz <-]. rewrite take_ge; [rewrite length_app /=; lia|]. by rewrite answer_snoc.
    + cbn. rewrite !length_app /= Hlen. by split_and!.
Qed.

Lemma dies_inv s s' : solver_dies s = Some s' → inv s → inv s'.
Proof using.
  destruct s as [m rs w i [] h p o n r q b z]; [|by destruct m, r]. intros [= <-] [Hl Hr Hc]. split; [done|exact Hr|].
  set (s := mkProc m rs w i true h p o n r q b z) in *. set (s' := mkProc m rs w i false h [] o n r q b z).
  assert (Hpre : stream s' `prefix_of` stream s).
  { unfold stream. cbn. rewrite app_nil_r. by apply prefix_app_r. }
  assert (Hnil : stream s = [] → stream s' = []).
  { intros H. rewrite H in Hpre. by apply prefix_nil_inv in Hpre. }
  assert (Hdue : ∀ ls, due s ls → due s' ls) by (intros ls [H _]; split; [by etrans|done]).
  cbn in Hc |- *. destruct m; [|destruct Hc as (bs & req & ? & ? & Hw); exists bs, req; split_and!; try done|done].
  - destruct Hc as (? & ? & ? & ? & ?). split_and!; auto.
  - destruct Hw as [|pre rest|lines k| |]; [apply w_asked|apply (w_reading _ _ pre rest)|apply (w_closed _ _ lines k)
      |apply w_answered|apply w_broken]; auto.
Qed.

Lemma step_inv e s s' : step e s = Some s' → inv s → inv s'.
Proof using Hecho Hlines Hcalm.
  destruct e as [[]|req| |]; cbn; intros H Hi.
  - by eapply unseen_inv; [eapply writer_unseen|].
  - by eapply unseen_inv; [eapply solver_unseen|].
  - by eapply reader_inv.
  - by eapply send_inv.
  - by eapply wait_inv.
  - by eapply dies_inv.
Qed.

Lemma run_inv es s s' : run es s = Some s' → inv s → inv s'.
Proof using Hecho Hlines Hcalm.
  revert s. induction es as [|e es IH]; intros s; cbn; [by intros [= <-]|].
  destruct (step e s) as [s1|] eqn:E; [|done]. cbn. intros H Hi. eapply IH; [exact H|]. by eapply step_inv.
Qed.

(** ** No thread waits for ever *)

Definition writer_cost s : nat :=
  match writer s with
  | Some w => S (length w) + sum_list (map (λ req, S (length (request_items req))) (requests s))
  | None => 0
  end.
Definition reader_cost (r : Reader) : nat := match r with RReading _ k => 1 + (3 - k) | _ => 0 end.
(** More than the steps the threads can still take. *)
Definition work s : nat :=
  writer_cost s + length (ahead s) + 5 * length (outputs (history s) (ahead s)) + 5 * length (pending s)
  + 4 * length (stdout s) + 5 * recv_requests s + reader_cost (reader s).

Lemma read_one_cost text lines k r : read_one solver text lines k = inr r → reader_cost r ≤ 4.
Proof using.
  clear -solver. unfold read_one. case_match; [intros [= <-]; case_match; cbn; lia|].
  case_match; [done|]. intros [= <-]. cbn. lia.
Qed.

Lemma read_eof_cost lines k : ∃ r, read_one solver "" lines k = inr r ∧ reader_cost r < reader_cost (RReading lines k).
Proof using.
  clear -solver. eexists. split; [reflexivity|].
  destruct (Nat.ltb_spec 2 (S k)); cbn [reader_cost]; lia.
Qed.

Lemma writer_work s s' : writer_step in_capacity s = Some s' → work s' < work s.
Proof using.
  clear -in_capacity. destruct s as [m rs [[|x w]|] i a h p o n r q b z]; cbn [writer_step]; [destruct rs as [|req rs]| |]; try done.
  - intros [= <-]. unfold work, writer_cost, ahead, unwritten. cbn. lia.
  - destruct a; cbn [negb]; [case_match; [|done]|]; intros [= <-].
    + unfold work, writer_cost, ahead, unwritten. cbn. rewrite -!app_assoc /=. lia.
    + unfold work, writer_cost, ahead, unwritten. cbn. rewrite app_nil_r !outputs_app !length_app /=. lia.
Qed.

Lemma solver_work s s' : solver_step respond echo_text out_capacity s = Some s' → work s' < work s.
Proof using.
  clear -out_capacity. destruct s as [m rs w i [] h p o n r q b z]; cbn [solver_step]; [|by destruct i].
  destruct p as [|l p]; [destruct i as [|x i]; [done|]|destruct i; case_match; try done];
    intros [= <-]; unfold work, writer_cost, ahead, unwritten; cbn; rewrite ?length_app /=; lia.
Qed.

Lemma reader_work s s' : reader_step solver s = Some s' → work s' < work s.
Proof using.
  clear -solver. destruct s as [m rs w i a h p o n r q b z]. cbn [reader_step].
  assert (Hw : ∀ o' n' r' q', 4 * length o' + 5 * n' + reader_cost r' < 4 * length o + 5 * n + reader_cost r →
    work (mkProc m rs w i a h p o' n' r' q' b z) < work (mkProc m rs w i a h p o n r q b z)).
  { intros o' n' r' q' H. unfold work, writer_cost, ahead, unwritten. cbn. lia. }
  destruct r as [|lines k|]; [destruct n as [|n]; [done|]| |done].
  - intros [= <-]. apply Hw. cbn. lia.
  - destruct o as [|text o]; [destruct a; [done|]|].
    + destruct (read_eof_cost lines k) as (r & -> & Hc). intros [= <-]. apply Hw. cbn [length reader_cost] in *. lia.
    + pose proof (read_one_cost text lines k) as Hc. destruct (read_one solver text lines k) as [l|r]; intros [= <-];
        apply Hw; cbn [length reader_cost]; [|specialize (Hc r eq_refl)]; lia.
Qed.

Lemma threads_work ts s s' : run (map EThread ts) s = Some s' → length ts + work s' ≤ work s.
Proof using.
  revert s. induction ts as [|t ts IH]; intros s; cbn; [by intros [= <-]|].
  destruct (thread_step t s) as [s1|] eqn:E; [|done]. cbn. intros H%IH.
  assert (work s1 < work s); [|lia].
  destruct t; [by eapply writer_work|by eapply solver_work|by eapply reader_work].
Qed.

Lemma threads_keep ts s s' : run (map EThread ts) s = Some s' → caller s' = caller s ∧ alive s' = alive s.
Proof using.
  revert s. induction ts as [|t ts IH]; intros s; cbn; [by intros [= <-]|].
  destruct (thread_step t s) as [s1|] eqn:E; [|done]. cbn. intros [-> ->]%IH.
  destruct t; [apply writer_unseen in E as []|apply solver_unseen in E as []|]; try done.
  destruct s as [m rs w i a h p o n r q b z]. cbn in E.
  destruct r as [|lines k|], n as [|n], o as [|text o]; try done; repeat case_match; try done; by injection E as <-.
Qed.

(** While lines are to come, a live solver or the writer can go on. *)
Lemma lines_come s : 0 < in_capacity → 0 < out_capacity → alive s = true → is_Some (writer s) → stdout s = [] →
  stream s ≠ [] → writer_step in_capacity s = None → solver_step respond echo_text out_capacity s = None → False.
Proof using.
  clear -in_capacity out_capacity. intros Hin Hout Ha [w Hw] Ho Hs Hbw Hbs.
  destruct s as [m rs w' i a h p o n r q b z]. cbn in Ha, Hw, Ho. subst a w' o. cbn in Hbs.
  destruct p as [|l p]; [|destruct out_capacity; [lia|by destruct i]].
  destruct i as [|x i]; [|done]. cbn in Hbw. destruct w as [|x w].
  - destruct rs; [|done]. by apply Hs.
  - destruct in_capacity; [lia|done].
Qed.

Lemma blocked_answered s : 0 < in_capacity → 0 < out_capacity → inv s → caller s = Waiting →
  (∀ t, thread_step t s = None) → ∃ s', caller_wait s = Some s' ∧ (alive s = true → caller s' = Ready).
Proof using Hecho Hlines Hcalm.
  intros Hin Hout [Hl _ Hc] Hm Hb. rewrite Hm in Hc. destruct Hc as (bs & b & _ & _ & Hw).
  pose proof (Hb TReader) as Hbr. pose proof (lines_come s Hin Hout) as Hcome.
  destruct s as [m rs w i a h p o n r q b' z]. cbn in Hm. subst m.
  destruct Hw as [Hn Hr _ _|pre rest _ _ _ Hr [_ Hd]|lines k _ _ Hr Ha Hs|_ Hr Hq _|_ Hr Hq Ha];
    cbn [recv_requests reader responses alive] in *; subst r.
  - by subst n.
  - exfalso. destruct o as [|text o]; [|cbn in Hbr; by repeat case_match].
    destruct a; [|cbn in Hbr; by repeat case_match].
    apply Hcome; [done|by apply Hl|done|by rewrite Hd; destruct rest|exact (Hb TWriter)|exact (Hb TSolver)].
  - subst a. exfalso. cbn in Hbr. destruct o; by repeat case_match.
  - subst q. eexists. by split.
  - subst q a. eexists. by split.
Qed.

Lemma dies_dec (es : list Event) : EDies ∈ es ∨ EDies ∉ es.
Proof using. clear. induction es as [|[] es IH]; set_solver. Qed.

Lemma alive_run es s s' : run es s = Some s' → EDies ∉ es → alive s = true → alive s' = true.
Proof using.
  revert s. induction es as [|e es IH]; intros s; cbn; [by intros [= <-]|].
  destruct (step e s) as [s1|] eqn:E; [|done]. cbn. intros H [He Hes]%not_elem_of_cons Ha.
  apply (IH s1 H Hes). destruct e as [t|req| |]; [| | |done].
  - destruct (threads_keep [t] s s1) as [_ ->]; [cbn; cbn in E; by rewrite E|done].
  - destruct s as [[] rs [w|] i a h p o n [] q b z]; try done; by injection E as <-.
  - destruct s as [[] rs w i a h p o n [] [|x q] b z]; try done; by injection E as <-.
Qed.

(** ** Properties *)

(** C22. In every interleaving of the caller, the writer, the reader and the solver,
    each result of [send_commands] is what the solver prints for its batch, line by
    line, and the calls are answered in order, one at a time; a call panics only if
    the solver died. *)
Theorem answers_in_order es s : run es start = Some s →
  (∀ i r, results s !! i = Some r → r = solver_answer (take (S i) (sent_batches s)))
  ∧ (caller s = Ready → length (results s) = length (sent_batches s))
  ∧ (caller s = Waiting → S (length (results s)) = length (sent_batches s))
  ∧ (caller s = Panicked → EDies ∈ es).
Proof using Hecho Hlines Hcalm.
  intros H. destruct (run_inv _ _ _ H start_proc_inv) as [_ Hr Hc]. split_and!; [exact Hr|..]; intros Hm; rewrite Hm in Hc.
  - apply Hc.
  - destruct Hc as (bs & b & -> & -> & _). rewrite length_app /=. lia.
  - destruct (dies_dec es) as [Hes|Hes]; [done|]. pose proof (alive_run es start s H Hes eq_refl). congruence.
Qed.

(** C23. [send_commands] returns: while the caller waits, the other threads and the
    solver together take at most [work] steps in any order, and when none of them
    can take one the answer has come, or the reader has given up on a dead solver;
    pipes of any capacity suffice. *)
Theorem wait_returns es s ts s' : 0 < in_capacity → 0 < out_capacity →
  run es start = Some s → caller s = Waiting → run (map EThread ts) s = Some s' →
  length ts ≤ work s
  ∧ ((∀ t, thread_step t s' = None) →
     ∃ s2, caller_wait s' = Some s2 ∧ (EDies ∉ es → caller s2 = Ready)).
Proof using Hecho Hlines Hcalm.
  intros Hin Hout H Hm Hts. split; [pose proof (threads_work _ _ _ Hts); lia|]. intros Hb.
  destruct (threads_keep _ _ _ Hts) as [Hm' Ha']. rewrite Hm in Hm'.
  destruct (blocked_answered s') as (s2 & Hw & Hr); try done.
  { eapply run_inv; [exact Hts|]. eapply run_inv; [exact H|]. apply start_proc_inv. }
  exists s2. split; [done|]. intros Hes. apply Hr. rewrite Ha'. by eapply alive_run.
Qed.
End process.

(** ** Witnesses: a solver that answers every word command *)

Definition word_answer (_ : list SmtCommand) (c : SmtCommand) : list string :=
  match c with SmtWord _ => ["unsat"%string] | _ => [] end.

Lemma word_answer_lines h b : Forall (λ l, clean_line l ≠ DONE) (batch_lines word_answer DONE h b).
Proof.
  unfold batch_lines. revert h. induction b as [|c b IH]; intros h; cbn; [done|].
  apply Forall_app. split; [|apply IH]. destruct c; cbn; repeat constructor. discriminate.
Qed.

Lemma word_answer_calm h b : calm 0 (batch_lines word_answer DONE h b) = true.
Proof.
  unfold batch_lines. revert h. induction b as [|c b IH]; intros h; cbn; [done|]. destruct c; apply IH.
Qed.

(** Two calls over pipes with room for one item; the second waits for its answer. *)
Definition answering : list Thread :=
  [TWriter; TWriter; TReader; TSolver; TSolver; TWriter; TReader; TSolver; TSolver; TReader].
Definition two_calls : list Event :=
  ESend [SmtWord "check-sat"] :: map EThread answering ++ [EWait; ESend [SmtWord "get-model"]].

Definition after_two_calls : Proc :=
  default start (run SmtSolver_Z3 word_answer DONE 1 1 two_calls start).

Lemma answers_in_order_witness :
  let s := after_two_calls in
  results s = [["unsat"%string]] ∧ caller s = Waiting
  ∧ (∀ i r, results s !! i = Some r →
       r = SmtProcess.solver_answer word_answer DONE (take (S i) (sent_batches s))).
Proof.
  cbv zeta. split; [vm_compute; reflexivity|]. split; [vm_compute; reflexivity|].
  refine (proj1 (answers_in_order SmtSolver_Z3 word_answer DONE 1 1 eq_refl word_answer_lines word_answer_calm
    two_calls after_two_calls _)).
  vm_compute. reflexivity.
Defined.

Definition blocked_state : Proc :=
  default start (run SmtSolver_Z3 word_answer DONE 1 1 (map EThread answering) after_two_calls).

Lemma wait_returns_witness :
  (∀ t, thread_step SmtSolver_Z3 word_answer DONE 1 1 t blocked_state = None)
  ∧ ∃ s2, caller_wait blocked_state = Some s2 ∧ (EDies ∉ two_calls → caller s2 = Ready).
Proof.
  assert (Hb : ∀ t, thread_step SmtSolver_Z3 word_answer DONE 1 1 t blocked_state = None)
    by (intros []; vm_compute; reflexivity).
  split; [exact Hb|].
  refine (proj2 (wait_returns SmtSolver_Z3 word_answer DONE 1 1 eq_refl word_answer_lines word_answer_calm
    two_calls after_two_calls answering blocked_state _ _ _ _ _) Hb).
  all: vm_compute; try reflexivity; lia.
Defined.
