(* ===== verification/SmtSound.v ===== *)
(** * A query reported valid is safe

    When the solver only answers [unsat] for unsatisfiable assertions, [Valid]
    means that no assertion of the query can fail. *)

From S2P Require Import Prelude StateRes RustString Ast AstUtil Semantics ExprFacts StmtFacts IndexMap VarToConst BlockToAssert BlockToAssertCorrect VarToConstCorrect VersionSim VersionSound Lowering CheckedQuery Messages Node Printer Parser Emitter ClosureFacts AirContext CheckClosures SmtQuery SmtFacts.
From S2P Require ScopeMap Typecheck.
Set Warnings "-rewrite-rw,-register-all,-clear-no-such-hyp".
Local Open Scope cm_scope.

Section sound.
Context {IM : IndexMapOps} {IML : IndexMapLaws IM} `{MI : MessageInterface} {env : SmtEnv} (oc : bool) (fuel : nat).
Implicit Types c : Context.

(** ** Declarations *)

(** Variables are not declared to the solver. *)
Definition emitted (ds : Decls) : Decls := omap (λ d, match d with DeclX_Var _ _ => None | _ => Some d end) ds.

Lemma adds_smt_add_decl d c : decl_plain d → returns (smt_add_decl d) c (λ _ c', adds_to c c' (emitted [d])).
Proof.
  intros Hd. destruct d as [x|ds|x t|x ts t|x t|ax]; cbn [smt_add_decl]; try by apply adds_log.
  - by apply returns_ret, adds_refl.
  - cbn in Hd. apply returns_bind. unfold run_labels. intros r c1.
    rewrite elim_no_nullary; [by apply plain_no_nullary|]. rewrite label_plain //. cbn. intros [= <- <-].
    apply returns_bind, returns_ret. set (c1 := set_axiom_infos_count _ _).
    eapply returns_mono; [by apply (adds_log [SmtAssert (named ax) (expr ax)] c1)|].
    intros u c2 H2. destruct ax as [n e]. by apply (adds_trans c c1 c2 [] _ (adds_refl c c1 eq_refl)).
Qed.

Lemma adds_query_decls ds c : Forall decl_plain ds → returns (add_query_decls ds) c (λ r c',
  match r with inl v => is_valid v = false | inr _ => adds_to c c' (emitted ds) end).
Proof.
  revert c. induction ds as [|d ds IH]; intros c Hds; [by apply returns_ret, adds_refl|].
  apply Forall_cons in Hds as [Hd Hds]. cbn [add_query_decls]. apply returns_try, returns_bind.
  eapply returns_mono; [apply adds_run_tc|]. intros [e|u] c1 H1; apply returns_ret; [done|].
  apply returns_bind. eapply returns_mono; [by apply adds_smt_add_decl|]. intros u2 c2 H2.
  eapply returns_mono; [by apply IH|]. intros [v|[]] c3 H3; [done|].
  assert (He : emitted (d :: ds) = [] ++ emitted [d] ++ emitted ds) by by destruct d.
  rewrite He. exact (adds_trans _ _ _ _ _ H1 (adds_trans _ _ _ _ _ H2 H3)).
Qed.

(** ** One check *)

Lemma no_location_invalid infos c : returns (no_location infos) c (λ r _, is_valid r = false).
Proof. apply returns_any. intros _ c'. by apply returns_ret. Qed.

Lemma get_model_invalid infos m c : returns (smt_get_model infos m) c (λ r _, is_valid r = false).
Proof.
  apply returns_any. intros u1 c1. apply returns_any. intros lines c2. destruct (existsb _ _).
  { apply no_location_invalid. }
  apply returns_any. intros defs c3. apply returns_any. intros found c4.
  destruct (match found with Some i => Some i | None => _ end) as [i|]; [|apply no_location_invalid].
  apply returns_any. intros info c5. repeat (apply returns_any; intros ? ?). by apply returns_ret.
Qed.

Lemma conclude_valid infos m result c : returns (conclude infos m result) c
  (λ r _, is_valid r = true → result = Some true).
Proof.
  destruct result as [[]|]; cbn [conclude].
  - by intros r c' _.
  - apply returns_bind. intros o c1 _. destruct (single_check_query o).
    + eapply returns_mono; [apply no_location_invalid|]. by intros r c2 ->.
    + eapply returns_mono; [apply get_model_invalid|]. by intros r c2 ->.
  - by apply returns_ret.
Qed.

Lemma ask_solver_concluded (d : option Expr) c : returns (ask_solver d) c
  (λ r _, match r with
    | inl v => is_valid v = false
    | inr Unsat => concluded c (match d with Some e => [DeclX_Axiom (mkAxiom None e)] | None => [] end)
    | _ => True
    end).
Proof.
  apply returns_bind. intros o c1 [= <- <-]. apply returns_bind. eapply returns_mono; [by apply adds_log|].
  intros u2 c2 H2. apply returns_bind. intros lines c3 [= <- <-].
  assert (H3 : adds_to c (set_pipe c2 [] (sent c2 ++ [smt_log c2])) []).
  { eapply (adds_nil_r _ c2); [exact H2|]. apply adds_refl, trace_send. }
  revert H3. set (c3 := set_pipe _ _ _). intros H3. apply returns_try.
  eapply returns_mono; [apply version_lines_pipe|]. intros [v|u] c4 [[Hp Hs] Hv]; [done|].
  eapply returns_mono; [by apply (check_sat_concluded d)|]. intros [v|[]] c5 H5; try done.
  change (match d with Some e => _ | None => _ end)
    with ([] ++ match d with Some e => [DeclX_Axiom (mkAxiom None e)] | None => [] end).
  apply (concluded_adds c c4); [|done]. eapply adds_nil_r; [exact H3|]. apply adds_refl.
  unfold trace. by rewrite Hp Hs.
Qed.

Lemma determine_valid s u c : returns (determine s u) c (λ r _,
  match r with inl v => is_valid v = false | inr b => b = Some true → u = Unsat end).
Proof.
  destruct u; cbn [determine]; try by apply returns_ret. apply returns_any. intros u1 c1. apply returns_any.
  intros lines c2. apply returns_try. eapply returns_mono; [apply result_lines_found|].
  intros [v|reason] c3 [_ H]; [done|]. apply returns_any. intros reason' c4.
  destruct reason'; try by apply returns_ret.
  all: apply returns_any; intros u5 c5; apply returns_any; intros u6 c6; by apply returns_ret.
Qed.

Lemma returned_ok {A} (m : cx (A + A)) c (Q : A → Context → Prop) :
  returns m c (λ r c', match r with inl x | inr x => Q x c' end) → returns (returned m) c Q.
Proof. intros Hm. apply returns_bind. eapply returns_mono; [exact Hm|]. intros [x|x] c' H; by apply returns_ret. Qed.

Lemma check_assertion_valid infos m c : returns (smt_check_assertion infos m false) c
  (λ r _, is_valid r = true → concluded c []).
Proof.
  unfold smt_check_assertion. cbn [andb negb]. apply returned_ok. apply returns_bind. intros o c1 [= <- <-].
  apply returns_try. eapply returns_mono; [apply (ask_solver_concluded None)|].
  intros [v|u] c2 Hu; [by rewrite Hu|]. apply returns_try. eapply returns_mono; [apply determine_valid|].
  intros [v|b] c3 Hb; [by rewrite Hb|]. apply returns_bind. eapply returns_mono; [apply conclude_valid|].
  intros r c4 Hr. apply returns_ret. intros Hv. by rewrite (Hb (Hr Hv)) in Hu.
Qed.

(** ** One query *)

(** The declarations before the check of a lowered query. *)
Definition query_decls (q : Query) (e : Expr) (infos : list AssertionInfo) : Decls :=
  emitted (local q) ++ map ai_decl infos ++ [DeclX_Axiom (mkAxiom None (ExprX_Unary UnaryOp_Not e))].

Lemma check_query_concluded q aid msg f e m c : assertion q = StmtX_Assert aid msg f e →
  Forall decl_plain (local q) → labelled e = true →
  returns (smt_check_query oc q m) c (λ r _, is_valid r = true →
    ∃ n, let '(e', s) := label_asserts e (mkLabelling n [] []) in concluded c (query_decls q e' (lb_infos s))).
Proof.
  intros Ha Hds He. unfold smt_check_query. apply returned_ok. apply returns_bind. intros o c1 [= <- <-].
  assert (H0 := adds_refl c c eq_refl). eapply adds_bind; [exact H0| |].
  { destruct (single_check_query _); [by apply returns_ret, adds_refl|]. apply returns_bind.
    eapply returns_mono; [by apply (adds_log [SmtPush])|]. intros u2 c2 H2.
    intros u c3 [= _ <-]. eapply (adds_nil_r _ c2); [exact H2|]. by apply adds_refl. }
  intros u1 c1 H1. apply returns_try. eapply returns_mono; [apply adds_rlimit_count|].
  intros [v|n1] c2 [H2 Hv]; [by rewrite Hv|]. apply (adds_nil_r c c1 c2 [] H1) in H2.
  apply returns_try. eapply returns_mono; [by apply adds_query_decls|]. intros [v|[]] c3 H3; [by rewrite H3|].
  apply (adds_trans c _ _ [] _ H2) in H3. rewrite Ha. rewrite elim_no_nullary; [by apply labelled_no_nullary|].
  apply returns_bind. intros r c4. unfold run_labels.
  pose proof (label_keeps_truth bool_interp (λ _ _, None) (λ _, true) (λ _ _, eq_refl) e He
    (mkLabelling (axiom_infos_count c3) [] [])) as [_ [_ (new & Hnew & Hlab)]].
  destruct (label_asserts e (mkLabelling (axiom_infos_count c3) [] [])) as [e' s] eqn:El. intros [= <- <-].
  cbn in Hnew. apply returns_try.
  assert (Hi : Forall decl_plain (map ai_decl (lb_infos s))
    ∧ emitted (map ai_decl (lb_infos s)) = map ai_decl (lb_infos s)).
  { rewrite Hnew. clear -Hlab. induction Hlab as [|i new (Hd & _) _ [IH1 IH2]]; [done|]. cbn. rewrite Hd. cbn.
    split; [by constructor|]. by f_equal. }
  destruct Hi as [Hi1 Hi2]. eapply returns_mono; [by apply adds_query_decls|].
  intros [v|[]] c5 H5; [by rewrite H5|]. rewrite Hi2 in H5.
  assert (H5' : adds_to c c5 (emitted (local q) ++ map ai_decl (lb_infos s))).
  { eapply adds_trans; [exact H3|]. by apply (adds_trans _ _ _ [] _ (adds_refl c3 _ eq_refl)) in H5. }
  eapply adds_bind_more; [exact H5'|by apply adds_log|]. intros u6 c6 H6. apply returns_try.
  eapply returns_mono; [apply adds_rlimit_count|]. intros [v|n2] c7 [H7 Hv2]; [by rewrite Hv2|].
  apply (adds_nil_r c _ _ _ H6) in H7. apply returns_bind. eapply returns_mono; [apply check_assertion_valid|].
  intros r c8 Hr. apply returns_try. eapply returns_mono; [apply adds_rlimit_count|].
  intros [v|n3] c9 [_ Hv3]; [by rewrite Hv3|]. apply returns_any. intros ? c10. apply returns_ret. intros Hval.
  exists (axiom_infos_count c3). rewrite El. specialize (Hr Hval).
  apply (concluded_adds c c7 _ [] H7) in Hr. rewrite app_nil_r -app_assoc in Hr. exact Hr.
Qed.

(** ** The whole pipeline *)

Lemma ensure_started_quiet c : returns ensure_started c (λ _ c', adds_to c c' [] ∧ closures c' = closures c).
Proof.
  assert (Hlog : ∀ cs c1, forallb no_pop cs = true → added cs = [] → adds_to c c1 [] ∧ closures c1 = closures c →
    returns (log cs) c1 (λ _ c', adds_to c c' [] ∧ closures c' = closures c)).
  { intros cs c1 Hn Ha [H1 H2] u c2 E. split; [|by unfold log, modify in E; injection E as _ <-].
    pose proof (adds_log cs c1 Hn u c2 E) as H3. rewrite Ha in H3. by eapply adds_nil_r. }
  assert (H0 : adds_to c c [] ∧ closures c = closures c) by by split; [apply adds_refl|].
  apply returns_bind. intros s c1 [= <- <-].
  destruct (state c); try apply returns_panic; [|by apply returns_ret].
  apply returns_bind. intros o c1 [= <- <-]. destruct (profile_logfile_name _) as [name|].
  - apply returns_bind, returns_bind.
    eapply returns_mono; [by apply (Hlog [SmtSetOption "trace" "true"])|]. intros u1 c1 H1.
    eapply returns_mono; [by apply Hlog|]. intros u2 c2 H2.
    apply returns_bind. eapply returns_mono; [by apply Hlog|]. intros u3 c3 [H3 H4]. intros u c4 [= _ <-].
    split; [|exact H4]. exact (adds_nil_r c c3 _ [] H3 (adds_refl c3 _ eq_refl)).
  - apply returns_bind, returns_ret.
    apply returns_bind. eapply returns_mono; [by apply Hlog|]. intros u3 c3 [H3 H4]. intros u c4 [= _ <-].
    split; [|exact H4]. exact (adds_nil_r c c3 _ [] H3 (adds_refl c3 _ eq_refl)).
Qed.

(** Names that neither a pass nor the labels use. *)
Definition user_name (x : Ident) : Prop := fresh x ∧ is_label x = false ∧ is_assert_label x = false.
Definition user_decl (d : Decl) : Prop := Forall user_name (decl_mentions d).

(** Queries in reach of the theorem. *)
Record solver_query (q : Query) : Prop := {
  sq_apart : names_apart q;
  sq_free : label_free q;
  sq_order : Forall (plain fuel) (query_exprs q);
  sq_plain : plains (query_exprs q);
  sq_stmt : Forall (avoids is_assert_label) (stmt_exprs (assertion q));
  sq_decls : Forall (λ d, Forall (λ x, is_assert_label x = false) (decl_mentions d)) (local q)
}.

Lemma query_plain q : plains (query_exprs q) → Forall decl_plain (local q) ∧ plains (stmt_exprs (assertion q)).
Proof.
  intros [H1 H2]%Forall_app. split; [|done]. apply Forall_concat_map in H1. eapply Forall_impl; [exact H1|].
  intros [| | | | |ax] H; try done. by apply Forall_cons in H as [H _].
Qed.

(** All labels are true. *)
Definition labels_true {M : Interp} (ρ : Env M) : Env M := λ x, if is_assert_label x then i_bool M true else ρ x.

Lemma labels_true_agree {M : Interp} (ρ : Env M) xs : Forall (λ x, is_assert_label x = false) xs →
  ∀ x, x ∈ xs → ρ x = labels_true ρ x.
Proof. intros H x Hx. rewrite Forall_forall in H. unfold labels_true. by rewrite H. Qed.

Lemma labels_true_decls M ds (ρ : Env M) : Forall (λ d, Forall (λ x, is_assert_label x = false) (decl_mentions d)) ds →
  decls_hold M ds ρ → decls_hold M ds (labels_true ρ).
Proof.
  intros Hn H. eapply Forall_impl2; [exact Hn|exact H|]. intros d Hd Hh.
  eapply decl_holds_agree; [|exact Hh]. by apply labels_true_agree.
Qed.

Lemma user_decls_agree M ds (ρ ρ' : Env M) : Forall user_decl ds →
  (∀ x, user_name x → ρ' x = ρ x) → decls_hold M ds ρ → decls_hold M ds ρ'.
Proof.
  intros Hn Hag H. eapply Forall_impl2; [exact Hn|exact H|]. intros d Hd Hh.
  eapply decl_holds_agree; [|exact Hh]. intros x Hx. symmetry. apply Hag.
  unfold user_decl in Hd. rewrite Forall_forall in Hd. by apply Hd.
Qed.

(** The solver answers [unsat] only when no interpretation in [theory] satisfies
    the declarations and assertions in force. *)
Definition sound_solver (theory : Interp → Prop) : Prop := ∀ batches, answers_unsat batches →
  ∀ M ρ, theory M → ¬ decls_hold M (active (List.concat batches)) ρ.

(** Where the background holds and the labels are true, the assertion is true. *)
Lemma concluded_true theory c q e n M (ρ : Env M) : sound_solver theory → theory M → labelled e = true →
  (let '(e', s) := label_asserts e (mkLabelling n [] []) in concluded c (query_decls q e' (lb_infos s))) →
  (∀ x, is_assert_label x = true → ρ x = i_bool M true) →
  decls_hold M (active (trace c)) ρ → decls_hold M (local q) ρ → truth M (λ _ _, None) ρ e = true.
Proof.
  intros Hs HM He Hc Hlab Hbg Hloc. apply not_false_is_true. intros Hf.
  destruct (label_keeps_truth M (λ _ _, None) ρ Hlab e He (mkLabelling n [] [])) as [Ht [_ (new & Hnew & Hnl)]].
  destruct (label_asserts e _) as [e' s]. cbn in Ht, Hnew. subst new.
  destruct Hc as (batches & cs & Hu & Hb & Hn & Ha). apply (Hs batches Hu M ρ HM).
  assert (Hact : active (List.concat batches) ≡ₚ active (trace c) ++ query_decls q e' (lb_infos s)).
  { rewrite Hb -Ha. by apply active_app. }
  unfold decls_hold. rewrite Hact. apply Forall_app. split; [done|]. unfold query_decls.
  apply Forall_app. split; [|apply Forall_app; split; [|apply Forall_singleton]].
  - clear -Hloc. induction Hloc as [|d ds Hd _ IH]; [constructor|]. destruct d; by try constructor.
  - apply Forall_map. eapply Forall_impl; [exact Hnl|]. intros i (Hd & Hl & _). rewrite Hd. cbn. rewrite Hlab //.
    apply i_typ_bool.
  - cbn. unfold truth in *. cbn. by rewrite i_truth_bool Ht Hf.
Qed.

Lemma check_query_quiet q c : between_queries (ctyping c) → depths_agree c → Forall (plain fuel) (query_exprs q) →
  returns (check_query oc fuel q) c (λ r c', match r with
    | inr q' => q' = q ∧ trace c' = trace c ∧ ∃ t, Typecheck.check_query oc q (ctyping c) = (Ok tt, t)
    | inl _ => True end).
Proof.
  intros Hb Hd Hp r c' Hr. pose proof (check_query_mirrors oc fuel q c Hb Hp Hd) as H.
  destruct (Typecheck.check_query oc q (ctyping c)) as [[[]|e|] t]; rewrite Hr in H; [|destruct H as [c1 H]|done];
    injection H as -> ->; [|done]. split_and!; try done. by exists t.
Qed.

Lemma lowered_plain q r q' msg : versionable q → label_free q → plains (query_exprs q) →
  VarToConst.lower_query oc q = Ok r → BlockToAssert.lower_query oc msg (lq_query r) = Ok q' →
  Forall decl_plain (local q') ∧ ∃ e, assertion q' = StmtX_Assert None msg None e ∧ labelled e = true.
Proof.
  intros Hq Hl [Hds Hst]%query_plain Hr Hq'.
  pose proof (lowered_lowerable oc q r Hq Hl Hr) as Hlow.
  destruct (block_failure oc msg _ _ Hlow Hq') as (e & st & L & Ha & He & Hloc & _).
  destruct (lower_query_shape q Hq oc) as (r' & evs & Hr' & Hlq & _). rewrite Hr in Hr'. injection Hr' as <-.
  rewrite Hlq in Hloc He. cbn in Hloc, He. split.
  - rewrite Hloc. apply Forall_app. split; [apply Forall_app; split|].
    + by apply lowered_decls_plain.
    + by apply Forall_map, Forall_true.
    + by apply Forall_map, Forall_true.
  - exists e. split; [done|]. eapply stmt_to_expr_labelled; [| |exact He]; [by apply ssa_plain|done].
Qed.

(** What [Valid] says of the commands sent. *)
Lemma check_valid_concluded q c : between_queries (ctyping c) → depths_agree c → solver_query q →
  returns (check_valid oc fuel q) c (λ v _, is_valid v = true → ∃ r q' e n,
    versionable q ∧ VarToConst.lower_query oc q = Ok r ∧ BlockToAssert.lower_query oc mi_empty (lq_query r) = Ok q'
    ∧ assertion q' = StmtX_Assert None mi_empty None e ∧ labelled e = true
    ∧ let '(e', s) := label_asserts e (mkLabelling n [] []) in concluded c (query_decls q' e' (lb_infos s))).
Proof.
  intros Hb Hd [Ha Hf Hp Hs _ _]. apply returns_bind. eapply returns_mono; [apply ensure_started_quiet|].
  intros u1 c1 [H1 Hcl]. apply returns_bind. eapply returns_mono; [apply (check_query_quiet q c1)|].
  { by unfold ctyping in *; rewrite Hcl. }
  { by unfold depths_agree, ctyping in *; rewrite Hcl. }
  { done. }
  intros [e|q0] c2; [intros _; by apply returns_ret|]. intros (-> & Ht & t & Hc).
  assert (Hq : versionable q).
  { unfold ctyping in Hc. rewrite Hcl in Hc. eapply checked_versionable; [|done].
    by eapply check_query_ok. }
  assert (H2 : adds_to c c2 []) by (eapply adds_nil_r; [exact H1|]; by apply adds_refl).
  apply returns_bind, returns_lift. intros r Hr. apply returns_bind, returns_lift. intros q' Hq'.
  apply lift_res_ok in Hr, Hq'. destruct (lowered_plain q r q' _ Hq Hf Hs Hr Hq') as (Hds & e & He & Hl).
  apply returns_bind. eapply returns_mono; [by apply (check_query_concluded q' None mi_empty None e)|].
  intros v c3 Hv. apply returns_any. intros u4 c4. apply returns_ret. intros [n Hn]%Hv. exists r, q', e, n.
  split_and!; try done. destruct (label_asserts e _) as [e' s]. by apply (concluded_adds c c2 []).
Qed.

(** The background and the labels, whatever the other names stand for. *)
Definition scene M c (ρ : Env M) : Prop :=
  decls_hold M (active (trace c)) ρ ∧ ∀ x, is_assert_label x = true → ρ x = i_bool M true.

Lemma concluded_safe theory c q r q' e n M : sound_solver theory → theory M → Forall user_decl (active (trace c)) →
  versionable q → label_free q → VarToConst.lower_query oc q = Ok r →
  BlockToAssert.lower_query oc mi_empty (lq_query r) = Ok q' →
  assertion q' = StmtX_Assert None mi_empty None e → labelled e = true →
  (let '(e', s) := label_asserts e (mkLabelling n [] []) in concluded c (query_decls q' e' (lb_infos s))) →
  ∀ ρ aid, scene M c ρ → decls_hold M (local (lq_query r)) ρ →
    ¬ exec M (decl_vars (local (lq_query r))) (assertion (lq_query r)) (mkState ρ ∅) (OFail aid).
Proof.
  intros Hs HM Hu Hq Hf Hr Hq' Ha He Hc.
  destruct (block_failure oc mi_empty _ _ (lowered_lowerable oc q r Hq Hf Hr) Hq') as (e0 & st & L & Ha0 & _ & _ & Hw).
  rewrite Ha in Ha0. injection Ha0 as <-. apply (Hw M (scene M c)).
  - intros ρ ρ' Hag [H1 H2]. split.
    + eapply user_decls_agree; [exact Hu| |exact H1]. intros x (_ & Hx & _). by apply Hag.
    + intros x Hx. rewrite Hag; [by apply assert_label_other|by apply H2].
  - intros ρ [H1 H2] Hloc. pose proof (concluded_true theory c q' e n M ρ Hs HM He Hc H2 H1 Hloc) as Ht.
    unfold is_true. rewrite -Ht. apply truth_agree; [by apply Forall_forall|].
    apply Forall_forall. intros s _ x. unfold olds. cbn. by destruct (_ !! x).
Qed.

(** C1. End to end: when [check_valid] answers [Valid] to a query without closures
    and the solver is sound for [theory], no assertion of the query can fail, in any
    interpretation in [theory] and from any values that satisfy the declarations and
    axioms in force and those of the query. *)
Theorem valid_query_safe theory q c u c' : sound_solver theory →
  between_queries (ctyping c) → depths_agree c → Forall user_decl (active (trace c)) → solver_query q →
  check_valid oc fuel q c = Ok (ValidityResult_Valid u, c') →
  ∀ M Δ (ρ : Env M) aid, theory M →
    (∀ x t, Δ !! x = Some t → is_assert_label x = false) → decl_vars (local q) ⊆ Δ →
    assigns_typed M (decl_vars (local q)) Δ (assertion q) → env_typed M Δ ρ →
    decls_hold M (active (trace c)) ρ → decls_hold M (local q) ρ →
    ¬ exec M (decl_vars (local q)) (assertion q) (mkState ρ ∅) (OFail aid).
Proof.
  intros Hs Hb Hd Hu Hsq Hv M Δ ρ aid HM HΔ Hsub Hat Hty Hbg Hloc Hex.
  destruct (check_valid_concluded q c Hb Hd Hsq _ _ Hv eq_refl) as (r & q' & e & n & Hq & Hr & Hq' & Ha & He & Hc).
  destruct Hsq as [_ Hf _ _ Hst Hds].
  assert (Hlab : same_env M is_assert_label ρ (labels_true ρ)) by (intros x Hx; by rewrite /labels_true Hx).
  assert (Hvars : ∀ x t, decl_vars (local q) !! x = Some t → is_assert_label x = false).
  { intros x t Hx. by eapply HΔ, lookup_weaken. }
  assert (Hstart : same_state M is_assert_label (mkState ρ ∅) (mkState (labels_true ρ) ∅)).
  { split; [done|]. intros s. cbn. rewrite lookup_empty. constructor. }
  destruct (exec_same M _ is_assert_label Hvars _ Hst _ _ _ Hstart Hex) as (o & Hex' & Ho).
  destruct o as [| |aid']; try done. cbn in Ho. subst aid'.
  destruct (lower_failure M q Hq oc r Δ (labels_true ρ) aid) as (ρ1 & Hf1 & Hd1 & Hex1); try done.
  { intros x t Hx. rewrite -Hlab; [by eapply HΔ|by apply Hty]. }
  { by apply labels_true_decls. }
  eapply (concluded_safe theory c q r q' e n M); try done. split.
  - eapply user_decls_agree; [exact Hu| |exact Hbg]. intros x (Hx & _ & Hx'). rewrite Hf1 // /labels_true Hx' //.
  - intros x Hx. rewrite Hf1; [by apply assert_label_other|]. by rewrite /labels_true Hx.
Qed.
End sound.

(** ** A solver *)

(** Proves [e] from the variables in [hyps]. *)
Fixpoint proves (hyps : list Ident) (e : Expr) : bool :=
  match e with
  | ExprX_Const (Constant_Bool b) => b
  | ExprX_Var x => bool_decide (x ∈ hyps)
  | ExprX_Binary BinaryOp_Implies l r => proves (match l with ExprX_Var x => x :: hyps | _ => hyps end) r
  | ExprX_Multi MultiOp_And es => forallb (proves hyps) es
  | _ => false
  end.

Lemma proves_sound M old (ρ : Env M) e : ∀ hyps, proves hyps e = true →
  (∀ x, x ∈ hyps → i_truth M (ρ x) = true) → truth M old ρ e = true.
Proof.
  induction e as [c|x|s x|x es IH|t e0 es IH0 IH|op e IH|op e1 e2 IH1 IH2|op es IH|e1 e2 e3 IH1 IH2 IH3
    |es IH|b e IHb IH|ls f e IH|i msg f e IH] using ExprX_ind'; intros hyps H Hh; cbn [proves] in H; try done.
  - destruct c as [[]| | |]; try done. unfold truth. cbn. apply i_truth_bool.
  - apply bool_decide_eq_true in H. by apply Hh.
  - destruct op; try done. unfold truth in *. cbn. rewrite i_truth_bool.
    destruct (i_truth M (eval M old ρ e1)) eqn:E1; [|done]. cbn. apply (IH2 _ H). intros x Hx.
    destruct e1; try by apply Hh. apply elem_of_cons in Hx as [->|Hx]; [done|by apply Hh].
  - destruct op; try done. unfold truth. cbn. rewrite i_truth_bool. apply forallb_true_iff, Forall_map.
    apply forallb_true_iff in H. eapply Forall_impl2; [exact IH|exact H|]. intros e He H1. by apply (He hyps).
Qed.

(** Refuted by the negation of what can be proved. *)
Definition refuted (ds : Decls) : bool :=
  existsb (λ d, match d with DeclX_Axiom (mkAxiom _ (ExprX_Unary UnaryOp_Not e)) => proves [] e | _ => false end) ds.

Definition is_check_sat (c : SmtCommand) : bool := match c with SmtWord "check-sat" => true | _ => false end.

Definition sample_send (batches : list (list SmtCommand)) : list string :=
  if existsb is_check_sat (default [] (last batches))
  then [if refuted (active (List.concat batches)) then "unsat" else "unknown"]
  else [].

Definition sample_solver : SmtEnv := {|
  send_commands := sample_send; parse_sexpression := λ _, None; node_text := λ _, ""; observer := None |}.

Lemma sample_solver_sound : @sound_solver sample_solver (λ _, True).
Proof.
  intros batches (hist & pre & _ & _ & Ha) M ρ _ Hd. cbn in Ha. unfold sample_send in Ha.
  destruct (existsb is_check_sat _); [|by apply not_elem_of_nil in Ha].
  destruct (refuted _) eqn:Hr; [|by apply list_elem_of_singleton in Ha].
  apply existsb_exists in Hr as (d & Hin%list_elem_of_In & Hp).
  pose proof (proj1 (Forall_forall _ _) Hd d Hin) as Hh. destruct d as [| | | | |[nm e]]; try done.
  destruct e as [| | | | |[]| | | | | | |]; try done. cbn in Hh.
  pose proof (proves_sound M (λ _ _, None) ρ _ [] Hp) as Ht. unfold truth in *. cbn in Hh.
  rewrite i_truth_bool Ht // in Hh. by intros x ?%not_elem_of_nil.
Qed.

#[local] Existing Instance sample_solver.
Import AirMessageInterface.
#[local] Existing Instance entry_list.

Definition sample_assumed : Query :=
  mkQuery [DeclX_Const "p" TypX_Bool; DeclX_Var "x" TypX_Bool]
    (StmtX_Block [StmtX_Assume (ExprX_Var "p"); StmtX_Assert None mi_empty None (ExprX_Var "p")]).

Definition sample_start : Context := new_with_encoding Printer.SmtSolver_Cvc5 Printer.SmtEncoding_Cvc5.

Definition answer {A} (r : res fuel_error (A * Context)) : option A := match r with Ok (x, _) => Some x | _ => None end.

Lemma answer_inv {A} (r : res fuel_error (A * Context)) x : answer r = Some x → ∃ c, r = Ok (x, c).
Proof. destruct r as [[y c]| |]; intros [= ->]. by exists c. Qed.

Lemma decl_types_names ds : Forall (λ p, is_assert_label p.1 = false) (omap decl_typed ds) →
  ∀ x t, decl_types ds !! x = Some t → is_assert_label x = false.
Proof. intros H x t Hx%elem_of_list_to_map_2. rewrite Forall_forall in H. exact (H _ Hx). Qed.

Lemma sample_assumed_query : solver_query 4 sample_assumed.
Proof.
  split.
  - split; [|apply (bool_decide_unpack _); by vm_compute|by repeat constructor|done| |done].
    + split; [apply (bool_decide_unpack _); by vm_compute|by repeat constructor|].
      intros x y ->%list_elem_of_singleton ->%list_elem_of_singleton _. done.
    + repeat split; repeat constructor.
  - split; [|by repeat constructor..|done]. apply Forall_forall. intros e He x Hx.
    repeat (apply elem_of_cons in He as [->|He]; [by apply list_elem_of_singleton in Hx as ->|]).
    by apply not_elem_of_nil in He.
  - by repeat constructor.
  - by repeat constructor.
  - by repeat constructor.
  - by repeat constructor.
Qed.

Lemma valid_query_safe_witness :
  answer (check_valid false 4 sample_assumed sample_start) = Some (ValidityResult_Valid UsageInfo_None)
  ∧ query_safe bool_interp sample_assumed.
Proof.
  assert (Hv : answer (check_valid false 4 sample_assumed sample_start) = Some (ValidityResult_Valid UsageInfo_None))
    by (vm_compute; reflexivity).
  split; [exact Hv|]. apply answer_inv in Hv as [c' Hv]. intros ρ aid Hd.
  apply (valid_query_safe false 4 (λ _, True) sample_assumed sample_start UsageInfo_None c' sample_solver_sound)
    with (Δ := decl_types (local sample_assumed)).
  - exact empty_between.
  - done.
  - constructor.
  - exact sample_assumed_query.
  - exact Hv.
  - done.
  - apply decl_types_names. by repeat constructor.
  - apply decl_vars_types. apply (bool_decide_unpack _). by vm_compute.
  - by repeat constructor.
  - apply decl_holds_typed; [|done]. apply (bool_decide_unpack _). by vm_compute.
  - constructor.
  - done.
Defined.
