(* ===== verification/SmtErrors.v ===== *)
(** * Asking for further errors

    Every further error that the driver's loop reports is another assertion of the
    query, and the loop ends. *)

From S2P Require Import Prelude StateRes RustString Ast AstUtil IndexMap VarToConst Messages Node Printer Parser Emitter AirContext CheckClosures SmtQuery SmtFacts.
From S2P Require ScopeMap Typecheck.
Set Warnings "-rewrite-rw,-register-all,-clear-no-such-hyp".
Local Open Scope cm_scope.

(** ** Computations that do not run out of fuel *)

Section fine.
Context {S : Type}.

Definition fine {A} (m : sm S A) : Prop := ∀ s, wpm m s (λ _ _, True).

Lemma fine_ret {A} (x : A) : fine (cret x).
Proof. done. Qed.
Lemma fine_panic {A} : fine (cpanic (A := A)).
Proof. done. Qed.
Lemma fine_bind {A B} (m : sm S A) (k : A → sm S B) : fine m → (∀ x, fine (k x)) → fine (cbind m k).
Proof. intros Hm Hk s. apply wpm_bind. eapply wpm_mono; [apply Hm|]. intros x s' _. apply Hk. Qed.
Lemma fine_lift {E A} (r : res E A) : fine (clift (lift_res r)).
Proof. intros s. unfold wpm, clift. by destruct r. Qed.
Lemma fine_expect {A} (o : option A) : fine (clift (expect o)).
Proof. intros s. unfold wpm, clift. by destruct o. Qed.

Lemma wpm_any {A B} (m : sm S A) (k : A → sm S B) s Q : fine m → (∀ x s', wpm (k x) s' Q) → wpm (cbind m k) s Q.
Proof. intros Hm Hk. apply wpm_bind. eapply wpm_mono; [apply Hm|]. auto. Qed.
End fine.

Create HintDb fine.
#[export] Hint Resolve fine_ret fine_panic fine_lift fine_expect : fine.

(** Takes a computation apart; the leaves are in the database. *)
Ltac fine_step :=
  match goal with
  | |- ∀ _, _ => intro
  | |- fine (cbind _ _) => apply fine_bind
  | |- fine (let '_ := ?x in _) => destruct x
  | |- fine (match ?x with _ => _ end) => destruct x
  | |- _ => solve [eauto with fine]
  end.
Ltac fine := repeat fine_step.

Section errors.
Context {IM : IndexMapOps} `{MI : MessageInterface} {env : SmtEnv}.
Implicit Types (c : Context) (infos : list AssertionInfo).

Lemma fine_log cs : fine (log cs).
Proof. done. Qed.
Lemma fine_gets {A} (f : Context → A) : fine (gets f).
Proof. done. Qed.
Lemma fine_modify (f : Context → Context) : fine (modify f).
Proof. done. Qed.
Lemma fine_send : fine send.
Proof. done. Qed.
#[local] Hint Resolve fine_log fine_gets fine_modify fine_send : fine.

(** The result after which the driver asks for a further error. *)
Definition is_error (r : ValidityResult) : bool :=
  match r with ValidityResult_Invalid (Some _) (Some _) _ => true | _ => false end.

(** An early return is no such result. *)
Definition quiet {A} (m : cx (ValidityResult + A)) : Prop :=
  ∀ c, wpm m c (λ r _, match r with inl v => is_error v = false | inr _ => True end).

Lemma quiet_bind {A B} (m : cx A) (k : A → cx (ValidityResult + B)) : fine m → (∀ x, quiet (k x)) → quiet (cbind m k).
Proof. intros Hm Hk c. apply wpm_any; [done|]. intros x c'. apply Hk. Qed.
Lemma quiet_try {A B} (m : cx (ValidityResult + A)) (k : A → cx (ValidityResult + B)) :
  quiet m → (∀ x, quiet (k x)) → quiet (try m k).
Proof. intros Hm Hk c. apply wpm_bind. eapply wpm_mono; [apply Hm|]. intros [v|x] c' H; [done|apply Hk]. Qed.
Lemma quiet_inr {A} (x : A) : quiet (cret (inr x)).
Proof. done. Qed.
Lemma quiet_unexpected {A} line : quiet (A := A) (cret (inl (ValidityResult_UnexpectedOutput line))).
Proof. done. Qed.
Lemma quiet_panic {A} : quiet (A := A) cpanic.
Proof. done. Qed.
#[local] Hint Resolve quiet_inr quiet_unexpected quiet_panic : fine.

Ltac quiet := repeat
  match goal with
  | |- quiet (try _ _) => apply quiet_try
  | |- quiet (cbind _ _) => apply quiet_bind
  | |- quiet (match ?x with _ => _ end) => destruct x
  | _ => fine_step
  end.

Lemma quiet_version_lines lines : quiet (check_version_lines lines).
Proof. induction lines; cbn [check_version_lines]; unfold report_unexpected, report; quiet. Qed.
Lemma quiet_result_lines {A} (parse : SmtSolver → string → option A) lines : ∀ found, quiet (result_lines parse lines found).
Proof. induction lines; intros; cbn [result_lines]; unfold report_unexpected, report; quiet. Qed.
Lemma fine_rlimit v : fine (set_rlimit_z3 v).
Proof. unfold set_rlimit_z3. fine. Qed.
Lemma fine_notify r : fine (notify_observer r).
Proof. unfold notify_observer, notify. fine. Qed.
#[local] Hint Resolve quiet_version_lines quiet_result_lines fine_rlimit fine_notify : fine.

Lemma quiet_ask d : quiet (ask_solver d).
Proof. unfold ask_solver, expect_cx. quiet. Qed.
Lemma quiet_determine s u : quiet (determine s u).
Proof. unfold determine, smt_reason, expect_cx, put_state. quiet. Qed.
Lemma fine_usage : fine get_usage_info.
Proof.
  unfold get_usage_info. fine. intros s'. unfold wpm, clift, parse_unsat_core, expect.
  destruct (strip_prefix "(" _) as [t|]; cbn [rbind]; [|done]. by destruct (strip_suffix ")" t).
Qed.
#[local] Hint Resolve fine_usage : fine.

Lemma fine_eval e : fine (evaluate_bool e).
Proof. unfold evaluate_bool. fine. Qed.
#[local] Hint Resolve fine_eval : fine.
Lemma fine_observer t : fine (run_observer t).
Proof. induction t; cbn [run_observer]; fine. Qed.
Lemma fine_confirm infos i : fine (confirm_label infos i).
Proof. unfold confirm_label. fine. Qed.
Lemma fine_restore infos i : fine (restore_model_for_observer infos i).
Proof. unfold restore_model_for_observer, check_sat_again. fine. Qed.
#[local] Hint Resolve fine_observer fine_confirm fine_restore : fine.

(** ** The reported assertion *)

(** The result for the enabled assertion [i]. *)
Definition reported infos (m : Model) (i : nat) (r : ValidityResult) : Prop := ∃ info labels,
  infos !! i = Some info ∧ ai_disabled info = false
  ∧ r = ValidityResult_Invalid (Some m) (Some (append_labels (ai_error info) labels)) (ai_assert_id info).

(** What one check leaves: the assertion it reports is disabled. *)
Definition one_reported infos (m : Model) (r : ValidityResult) c : Prop := is_error r = true → ∃ i info,
  reported infos m i r ∧ infos !! i = Some info ∧ state c = ContextState_FoundInvalid (<[i := disable info]> infos) (Some m).

Lemma candidates_enabled defs infos i : i ∈ candidates defs infos →
  ∃ info, infos !! i = Some info ∧ ai_disabled info = false.
Proof.
  unfold candidates. intros ([j info] & Hin & H)%list_elem_of_omap.
  destruct (negb _ && _) eqn:E; [|done]. injection H as ->. apply andb_true_iff in E as [E%negb_true_iff _].
  apply list_elem_of_lookup in Hin as [k Hk]. apply lookup_zip_Some in Hk as [H1 H2].
  apply lookup_seq in H1 as [-> _]. by exists info.
Qed.

Lemma find_confirmed_found infos b l c :
  wpm (find_confirmed infos b l) c (λ r _, match r with Some i => i ∈ l | None => True end).
Proof.
  revert c. induction l as [|i l IH]; intros c; [done|]. cbn [find_confirmed].
  assert (Hl : ∀ c, wpm (find_confirmed infos b l) c (λ r _, match r with Some j => j ∈ i :: l | None => True end)).
  { intros c1. eapply wpm_mono; [apply IH|]. intros [j|] _ H; [|done]. by apply elem_of_cons; right. }
  destruct b; [|by apply elem_of_cons; left]. apply wpm_any; [apply fine_confirm|].
  intros [] c1; [by apply elem_of_cons; left|apply Hl].
Qed.

Lemma fine_read lines : fine (read_model lines).
Proof. unfold read_model, expect_cx. fine. Qed.

Lemma report_spec infos m defs b i info c : infos !! i = Some info → ai_disabled info = false →
  wpm (report_assertion infos m defs b i info) c (λ r c', one_reported infos m r c').
Proof.
  intros Hi He. unfold report_assertion. apply wpm_any; [fine|]. intros axioms c1.
  apply wpm_any; [fine|]. intros scoped c2. apply wpm_any; [unfold notify; fine|]. intros u3 c3.
  apply wpm_any; [fine|]. intros u4 c4. apply wpm_any; [fine|]. intros u5 c5. apply wpm_bind. cbn.
  intros _. exists i, info. split; [|done]. by eexists info, _.
Qed.

Lemma get_model_spec infos m c : wpm (smt_get_model infos m) c (λ r c', one_reported infos m r c').
Proof.
  unfold smt_get_model. apply wpm_any; [fine|]. intros u1 c1. apply wpm_any; [fine|]. intros lines c2.
  destruct (existsb _ _); [done|]. apply wpm_any; [apply fine_read|]. intros defs c3.
  apply wpm_bind. eapply wpm_mono; [apply find_confirmed_found|]. intros found c4 Hf.
  set (index := match found with Some i => Some i | None => _ end).
  assert (Hin : ∀ i, index = Some i → i ∈ candidates defs infos).
  { intros i. unfold index. destruct found; [by intros [= <-]|]. destruct (candidates defs infos); [done|].
    intros [= ->]. apply list_elem_of_here. }
  destruct index as [i|]; [|done]. destruct (candidates_enabled defs infos i) as (info & Hi & He); [by apply Hin|].
  unfold expect_cx. rewrite Hi. apply wpm_bind. cbn. by apply report_spec.
Qed.

Lemma conclude_spec infos m result c : wpm (conclude infos m result) c (λ r c', one_reported infos m r c').
Proof.
  destruct result as [[]|]; cbn [conclude].
  - apply wpm_any; [fine|]. intros u1 c1. apply wpm_any; [fine|]. intros u2 c2. by apply wpm_any; [fine|].
  - apply wpm_any; [fine|]. intros o c1. destruct (single_check_query o); [done|apply get_model_spec].
  - done.
Qed.

(** ** Several checks *)

(** The same assertions, some of them disabled since. *)
Definition kept (a b : AssertionInfo) : Prop := b = a ∨ b = disable a.
Definition later : list AssertionInfo → list AssertionInfo → Prop := Forall2 kept.
Definition disabled_at infos (i : nat) : Prop := ∃ info, infos !! i = Some info ∧ ai_disabled info = true.

Lemma kept_trans a b d : kept a b → kept b d → kept a d.
Proof. intros [->| ->] [->| ->]; unfold kept; auto. Qed.
Lemma later_refl infos : later infos infos.
Proof. apply Forall2_same_length_lookup. split; [done|]. intros i a b -> [= ->]. by left. Qed.
Lemma later_trans a b d : later a b → later b d → later a d.
Proof. intros H1 H2. eapply Forall2_trans; [exact kept_trans|exact H1|exact H2]. Qed.
Lemma later_disable infos i info : infos !! i = Some info → later infos (<[i := disable info]> infos).
Proof.
  intros Hi. rewrite -{1}(list_insert_id infos i info Hi). apply Forall2_insert; [apply later_refl|by right].
Qed.

Lemma later_disabled infos infos' i : later infos infos' → disabled_at infos i → disabled_at infos' i.
Proof.
  intros Hl (info & Hi & Hd). destruct (Forall2_lookup_l _ _ _ _ _ Hl Hi) as (info' & Hi' & [->| ->]); [by exists info|].
  by exists (disable info).
Qed.

Lemma later_reported infos infos' m i r : later infos infos' → reported infos' m i r → reported infos m i r.
Proof.
  intros Hl (info' & labels & Hi & Hd & ->). destruct (Forall2_lookup_r _ _ _ _ _ Hl Hi) as (info & Hi' & [->| ->]); [|done].
  by exists info, labels.
Qed.

Lemma reported_enabled infos m i r : reported infos m i r → ¬ disabled_at infos i.
Proof. intros (info & labels & Hi & He & _) (info' & Hi' & Hd). rewrite Hi in Hi'. injection Hi' as <-. congruence. Qed.

(** The labels left enabled come before the first disabled one. *)
Lemma disable_later_spec infos : ∀ b, let '(infos', _, _) := disable_later infos b in
  later infos infos' ∧ ∀ i info, infos' !! i = Some info → ai_disabled info = false →
    b = false ∧ ∀ j, disabled_at infos j → i < j.
Proof.
  induction infos as [|a infos IH]; intros b; [split; [constructor|done]|]. cbn [disable_later].
  set (a' := if b && negb (ai_disabled a) then disable a else a). specialize (IH (b || ai_disabled a')).
  destruct (disable_later infos _) as [[infos' es] found]. destruct IH as [Hl Hd]. split.
  { constructor; [|done]. unfold a'. destruct (b && _); [by right|by left]. }
  intros [|i] info; cbn.
  - intros [= <-] He. unfold a' in *. destruct b, (ai_disabled a) eqn:Ha; cbn in He; try done; try congruence.
    split; [done|]. intros [|j] (info & Hj & Hj'); [|lia]. cbn in Hj. congruence.
  - intros Hi He. destruct (Hd i info Hi He) as [[-> Ha]%orb_false_iff Hj]. split; [done|].
    intros [|j] (info' & Hj1 & Hj2); cbn in Hj1.
    + injection Hj1 as <-. unfold a' in Ha. cbn in Ha. congruence.
    + assert (i < j); [|lia]. apply Hj. by exists info'.
Qed.

Lemma assertion_spec infos m earlier c : wpm (smt_check_assertion infos m earlier) c (λ r c', ∃ infos',
  one_reported infos' m r c' ∧ later infos infos' ∧ (earlier = true → ∀ i j info,
    infos' !! i = Some info → ai_disabled info = false → disabled_at infos j → i < j)).
Proof.
  unfold smt_check_assertion.
  assert (Hinfos : ∃ infos' es found,
    (if earlier then disable_later infos false else (infos, [], true)) = (infos', es, found)
    ∧ later infos infos' ∧ (earlier = true → ∀ i j info,
      infos' !! i = Some info → ai_disabled info = false → disabled_at infos j → i < j)).
  { destruct earlier; [|exists infos, [], true; split; [done|]; split; [apply later_refl|done]].
    pose proof (disable_later_spec infos false) as H. destruct (disable_later infos false) as [[infos' es] found].
    destruct H as [Hl Hd]. exists infos', es, found. split_and!; [done|done|]. intros _ i j info Hi He Hj.
    by apply (Hd i info Hi He). }
  destruct Hinfos as (infos' & es & found & -> & Hl & He). destruct (earlier && negb found); [by exists infos'|].
  unfold returned. apply wpm_bind.
  apply (wpm_mono _ _ (λ r c', one_reported infos' m (match r with inl x | inr x => x end) c')); [|by intros r c' H; exists infos'].
  assert (Hearly : ∀ v c', is_error v = false → one_reported infos' m v c') by (intros v c' H H'; congruence).
  apply wpm_any; [fine|]. intros o c1. apply wpm_bind. eapply wpm_mono; [apply quiet_ask|].
  intros [v|u] c2; [apply Hearly|]. intros _. apply wpm_bind. eapply wpm_mono; [apply quiet_determine|].
  intros [v|r] c3; [apply Hearly|]. intros _. apply wpm_bind. eapply wpm_mono; [apply conclude_spec|]. done.
Qed.

(** What another check reports and leaves. *)
Lemma check_again_spec infos m earlier c : state c = ContextState_FoundInvalid infos (Some m) →
  wpm (check_valid_again earlier) c (λ r c', is_error r = true → ∃ infos' i,
    reported infos m i r ∧ later infos infos' ∧ disabled_at infos' i ∧ state c' = ContextState_FoundInvalid infos' (Some m)
    ∧ (earlier = true → ∀ j, disabled_at infos j → i < j)).
Proof.
  intros Hs. unfold check_valid_again. apply wpm_bind. cbn. rewrite Hs. apply wpm_bind.
  eapply wpm_mono; [apply assertion_spec|]. intros r c1 (infos' & Hr & Hl & He). cbn. intros (i & info & Hi & Hinfo & Hst)%Hr.
  exists (<[i := disable info]> infos'), i. split_and!.
  - by eapply later_reported.
  - by eapply later_trans, later_disable.
  - exists (disable info). split; [|done]. apply list_lookup_insert_eq. by eapply lookup_lt_Some.
  - done.
  - intros E j. destruct Hi as (info' & _ & Hi & Hd & _). exact (He E i j info' Hi Hd).
Qed.

(** The further errors are of the assertions [idx], in this order. *)
Record further infos (m : Model) (n : nat) (idx : list nat) (errs : list ValidityResult) : Prop := {
  fu_reported : Forall2 (reported infos m) idx errs;
  fu_distinct : NoDup idx;
  fu_bound : length errs ≤ n;
  fu_earlier : length errs = n → ∀ i j, last idx = Some i → disabled_at infos j ∨ j ∈ idx → j ≠ i → i < j
}.

Definition all_results infos (m : Model) (n : nat) (r : ValidityResult) (rs : list ValidityResult) : Prop :=
  ∃ idx errs rest, rs = r :: errs ++ rest ∧ further infos m n idx errs
    ∧ length rest ≤ 1 ∧ Forall (λ r, is_error r = false) rest.

Lemma no_further infos m n r : all_results infos m n r [r].
Proof. exists [], [], []. split_and!; [done| |cbn; lia|done]. split; [constructor|constructor|cbn; lia|by intros _ i j [=]]. Qed.

(** One more error before the others. *)
Lemma one_further infos infos' m n i r r' rs : reported infos m i r' → later infos infos' → disabled_at infos' i →
  (n = 0 → ∀ j, disabled_at infos j → i < j) → all_results infos' m n r' rs → all_results infos m (S n) r (r :: rs).
Proof.
  intros Hi Hl Hd He (idx & errs & rest & -> & [Hr Hnd Hb Hlast] & H1 & H2).
  exists (i :: idx), (r' :: errs), rest. split_and!; [done| |done|done]. split.
  - constructor; [done|]. eapply Forall2_impl; [exact Hr|]. intros. by eapply later_reported.
  - constructor; [|done]. intros Hin%list_elem_of_lookup. destruct Hin as [k Hk].
    destruct (Forall2_lookup_l _ _ _ _ _ Hr Hk) as (r1 & _ & H). by apply (reported_enabled _ _ _ _ H).
  - cbn. lia.
  - cbn. intros [= Hn] i0 j. specialize (Hlast Hn). destruct idx as [|i1 idx].
    + assert (errs = []) as -> by (by inversion Hr). cbn in *. intros [= <-] [H|H] Hne; [by apply He|].
      apply list_elem_of_singleton in H. done.
    + intros H [Hj|Hj] Hne.
      * apply (Hlast i0 j); [done|left; by eapply later_disabled|done].
      * apply elem_of_cons in Hj as [->|Hj]; apply (Hlast i0 _); [done|by left|done|done|by right|done].
Qed.

Lemma check_errors_spec fuel : ∀ n earlier r c infos m, (earlier = true → n = 0%N) → N.to_nat n ≤ fuel →
  (is_error r = true → state c = ContextState_FoundInvalid infos (Some m)) →
  wpm (check_errors fuel r n earlier) c (λ rs _, all_results infos m (N.to_nat n) r rs).
Proof.
  induction fuel as [|fuel IH]; intros n earlier r c infos m He Hn Hs; cbn [check_errors].
  { assert (n = 0%N) as -> by lia. cbn. destruct r as [|[] []| | |]; try done; apply no_further. }
  destruct r as [u|[air_model|] [e|] aid| |t|t]; try done; try apply no_further.
  destruct (N.ltb_spec 0 n) as [Hpos|]; [|apply no_further].
  assert (earlier = false) as -> by (destruct earlier; [|done]; by rewrite He // in Hpos).
  cbn [orb]. set (b := (n - 1 =? 0)%N). apply wpm_bind.
  eapply wpm_mono; [by apply check_again_spec, Hs|]. intros r' c1 Hr'. apply wpm_bind.
  assert (Hb : b = true → (n - 1)%N = 0%N) by (by intros Hb%N.eqb_eq).
  assert (Hsn : N.to_nat n = S (N.to_nat (n - 1))) by lia. rewrite Hsn.
  destruct (is_error r') eqn:Er.
  - destruct Hr' as (infos' & i & Hi & Hl & Hd & Hst & Hj); [done|].
    eapply wpm_mono; [apply (IH _ b r' c1 infos' m Hb); [lia|done]|]. intros rs c2 Hrs. apply wpm_ret.
    eapply one_further; try done. intros Hz. apply Hj. apply N.eqb_eq. lia.
  - assert (Hone : wpm (check_errors fuel r' (n - 1) b) c1 (λ rs _, rs = [r'])).
    { destruct fuel, r' as [|[] []| | |]; done. }
    eapply wpm_mono; [exact Hone|]. intros rs c2 ->. apply wpm_ret. exists [], [], [r'].
    split_and!; [done| |cbn; lia|by constructor]. split; [constructor|constructor|cbn; lia|by intros _ i j [=]].
Qed.

(** C20. The loop of the driver ends, in as many rounds as errors were asked for.
    The errors it reports after the first are of distinct assertions that were
    enabled when it started, at most as many as were asked for, and the last of
    the asked for comes before all other failed assertions of the query; after
    them comes at most one result, which is no error with a model. *)
Theorem further_errors_distinct fuel n e aid c infos m : N.to_nat n ≤ fuel →
  state c = ContextState_FoundInvalid infos (Some m) →
  check_errors fuel (ValidityResult_Invalid (Some m) (Some e) aid) n false c ≠ Err OutOfFuel
  ∧ ∀ rs c', check_errors fuel (ValidityResult_Invalid (Some m) (Some e) aid) n false c = Ok (rs, c') →
      ∃ idx errs rest, rs = ValidityResult_Invalid (Some m) (Some e) aid :: errs ++ rest
        ∧ further infos m (N.to_nat n) idx errs ∧ length rest ≤ 1 ∧ Forall (λ r, is_error r = false) rest.
Proof.
  intros Hn Hs. assert (H := check_errors_spec fuel n false (ValidityResult_Invalid (Some m) (Some e) aid) c infos m).
  specialize (H ltac:(done) Hn ltac:(done)). split.
  - intros E. unfold wpm in H. by rewrite E in H.
  - intros rs c' E. by eapply wpm_ok in H.
Qed.
End errors.

(** ** A failed query *)

From Stdlib Require Import String.
Local Open Scope string_scope.
Local Open Scope list_scope.
Import AirMessageInterface.
#[local] Existing Instance entry_list.

(** A solver that finds the second assertion of a query false. *)
#[local] Instance failing_solver : SmtEnv := {|
  send_commands batches := match last (default [] (last batches)) with
    | Some (SmtWord "check-sat") => ["sat"] | Some (SmtWord "get-model") => ["(model)"] | _ => [] end;
  parse_sexpression lines := Some (Node_List [node_list [Node_Atom "define-fun"; Node_Atom "%%location_label%%1";
    Node_List []; Node_Atom "Bool"; Node_Atom "true"]]);
  node_text := λ _, "true";
  observer := None
|}.

Definition sample_info (aid : N) (label : Ident) (disabled : bool) : AssertionInfo :=
  mkAssertionInfo (Some [aid]) mi_empty label None (DeclX_Const label TypX_Bool) disabled.
(** The first assertion was reported already. *)
Definition sample_infos : list AssertionInfo :=
  [sample_info 7 "%%location_label%%0" true; sample_info 8 "%%location_label%%1" false;
   sample_info 9 "%%location_label%%2" false].
Definition sample_model : Model := new_model ∅ [].
Definition failed_context : Context :=
  set_state (new_with_encoding Printer.SmtSolver_Cvc5 Printer.SmtEncoding_Cvc5)
    (ContextState_FoundInvalid sample_infos (Some sample_model)).
Definition first_error : ValidityResult := ValidityResult_Invalid (Some sample_model) (Some mi_empty) (Some [7%N]).

Definition results (r : res fuel_error (list ValidityResult * Context)) : option (list ValidityResult) :=
  match r with Ok (rs, _) => Some rs | _ => None end.

Lemma results_inv r rs : results r = Some rs → ∃ c, r = Ok (rs, c).
Proof. destruct r as [[rs' c]| |]; intros [= ->]. by exists c. Qed.

Lemma further_errors_distinct_witness :
  let rs := [first_error; ValidityResult_Invalid (Some sample_model) (Some mi_empty) (Some [8%N]); ValidityResult_Valid UsageInfo_None] in
  results (check_errors 2 first_error 2 false failed_context) = Some rs
  ∧ ∃ idx errs rest, rs = first_error :: errs ++ rest ∧ further sample_infos sample_model 2 idx errs
      ∧ (List.length rest ≤ 1)%nat ∧ Forall (λ r, is_error r = false) rest.
Proof.
  intros rs.
  assert (Hr : results (check_errors 2 first_error 2 false failed_context) = Some rs) by (vm_compute; reflexivity).
  split; [exact Hr|]. apply results_inv in Hr as [c' Hr].
  apply (further_errors_distinct 2 2 mi_empty (Some [7%N]) failed_context sample_infos sample_model) with (c' := c').
  - done.
  - done.
  - exact Hr.
Defined.
