(* ===== verification/VirMessages.v ===== *)
(** * Messages of VIR (source/vir/src/messages.rs)

    Spans, messages and the builders that the modelled parts of VIR call.  The raw
    span of rustc ([Arc<dyn Any>]) is erased: nothing here reads it. *)

From S2P Require Import Prelude Ast.
Set Warnings "-rewrite-rw,-register-all,-clear-no-such-hyp".
Local Open Scope string_scope.
Local Open Scope list_scope.

Record Span := mkSpan { span_id : N; data : list N; span_as_string : string }.
#[global] Instance vir_span_eq_dec : EqDecision Span.
Proof. solve_decision. Defined.

Inductive WarningAllow :=
| UndeclaredExternalTrait | AssertForallImplication | DecreasesWhenExecAllowsNoDecreasesClause
| BroadcastWithoutTrigger | TriggerOnSpecFn | DeadReveal | AssertComputeUnsimplified
| OldStyleAcceptRejectRecursiveTypes | UnknownAutomaticDerive | AutoderiveCloneWithoutSpec
| NonExecGhostTrackedWrappers.
#[global] Instance warning_allow_eq_dec : EqDecision WarningAllow.
Proof. solve_decision. Defined.

Definition to_str (w : WarningAllow) : string :=
  match w with
  | UndeclaredExternalTrait => "undeclared_external_trait"
  | AssertForallImplication => "assert_forall_implication"
  | DecreasesWhenExecAllowsNoDecreasesClause => "decreases_when_exec_allows_no_decreases_clause"
  | BroadcastWithoutTrigger => "broadcast_without_trigger"
  | TriggerOnSpecFn => "trigger_on_spec_fn"
  | DeadReveal => "dead_reveal"
  | AssertComputeUnsimplified => "assert_compute_unsimplified"
  | OldStyleAcceptRejectRecursiveTypes => "old_style_accept_reject_recursive_types"
  | UnknownAutomaticDerive => "unknown_automatic_derive"
  | AutoderiveCloneWithoutSpec => "autoderive_clone_without_spec"
  | NonExecGhostTrackedWrappers => "non_exec_ghost_tracked_wrappers"
  end.

Definition from_str (s : string) : option WarningAllow :=
  if s =? "undeclared_external_trait" then Some UndeclaredExternalTrait
  else if s =? "assert_forall_implication" then Some AssertForallImplication
  else if s =? "decreases_when_exec_allows_no_decreases_clause" then Some DecreasesWhenExecAllowsNoDecreasesClause
  else if s =? "broadcast_without_trigger" then Some BroadcastWithoutTrigger
  else if s =? "trigger_on_spec_fn" then Some TriggerOnSpecFn
  else if s =? "dead_reveal" then Some DeadReveal
  else if s =? "assert_compute_unsimplified" then Some AssertComputeUnsimplified
  else if s =? "old_style_accept_reject_recursive_types" then Some OldStyleAcceptRejectRecursiveTypes
  else if s =? "unknown_automatic_derive" then Some UnknownAutomaticDerive
  else if s =? "autoderive_clone_without_spec" then Some AutoderiveCloneWithoutSpec
  else if s =? "non_exec_ghost_tracked_wrappers" then Some NonExecGhostTrackedWrappers
  else None.

Lemma from_str_to_str w : from_str (to_str w) = Some w.
Proof. by destruct w. Qed.

Record MessageLabel := mkLabel { lspan : Span; lnote : string; is_proof_note : bool; is_custom_err : bool }.
Record MessageX := mkMessage {
  mlevel : MessageLevel;
  mnote : string;
  spans : list Span;
  mlabels : list MessageLabel;
  mhelp : list string;
  mfancy_note : option string
}.
Definition Message := MessageX.
Definition VirErr := Message.

Definition message (level : MessageLevel) (note : string) (span : Span) : Message :=
  mkMessage level note [span] [] [] None.
Definition message_bare (level : MessageLevel) (note : string) : Message :=
  mkMessage level note [] [] [] None.
Definition message_with_label (level : MessageLevel) (note : string) (span : Span) (label : string) : Message :=
  mkMessage level note [span] [mkLabel span label false false] [] None.

Definition warning (span : Span) (note : string) : Message := message MessageLevel_Warning note span.
Definition error_bare (note : string) : Message := message_bare MessageLevel_Error note.
Definition error (span : Span) (note : string) : Message := message MessageLevel_Error note span.
Definition error_with_label (span : Span) (note label : string) : Message :=
  message_with_label MessageLevel_Error note span label.

Definition primary_span (self : Message) (span : Span) : Message :=
  let (l, n, ss, ls, h, f) := self in mkMessage l n (ss ++ [span]) ls h f.
Definition primary_label (self : Message) (span : Span) (label : string) : Message :=
  let (l, n, ss, ls, h, f) := self in
  mkMessage l n (ss ++ [span]) (ls ++ [mkLabel span label false false]) h f.
Definition secondary_label (self : Message) (span : Span) (label : string) : Message :=
  let (l, n, ss, ls, h, f) := self in mkMessage l n ss (ls ++ [mkLabel span label false false]) h f.
Definition help (self : Message) (text : string) : Message :=
  let (l, n, ss, ls, h, f) := self in mkMessage l n ss ls (h ++ [text]) f.

(** [get_verus_github_bug_report_url] reads an environment variable of the build. *)
Definition internal_error (bug_report_url : option string) (span : Span) (note : string) : Message :=
  let e := message MessageLevel_Error ("Verus internal error: " +:+ note) span in
  match bug_report_url with
  | Some url => help e ("this is a bug in the verifier; please report it at " +:+ url)
  | None => e
  end.

(** [emit] appends to a list in every use here. *)
Definition warning_maybe (allowed : WarningAllow → bool) (span : Span) (allow : WarningAllow) (note : string)
    (msgs : list Message) : list Message :=
  if allowed allow then msgs
  else
    let s := to_str allow in
    msgs ++ [help (warning span note)
      ("to suppress this warning, use `#[verifier::allow(" +:+ s
       +:+ ")]` on the surrounding function, datatype, or module or `#![verifier::allow(" +:+ s
       +:+ ")]` in the module or crate")].
Definition warning_maybe_if_in_local_crate (check_allow : option (WarningAllow → bool)) (span : Span)
    (allow : WarningAllow) (note : string) (msgs : list Message) : list Message :=
  match check_allow with
  | Some allowed => warning_maybe allowed span allow note msgs
  | None => msgs
  end.
