(* ===== verification/VirAst.v ===== *)
(** * The VIR abstract syntax: names, types, operators, datatypes (source/vir/src/ast.rs)

    The part of ast.rs that the types, the expressions of SST and the datatypes are
    made of.  As in [Ast], [Arc] is erased, a variant [T::C] is the constructor [T_C],
    [Vec] is [list]; [u32], [u64], [usize] and [char] are [N], [BigInt] is [Z].  Names
    that AIR uses for other things ([TypX], [UnaryOp], ...) are this file's: a file
    that works on VIR does not import [Ast]. *)

From S2P Require Import Prelude VirMessages.
From S2P Require Ast.
Set Warnings "-rewrite-rw,-register-all,-clear-no-such-hyp".

(** ** Names *)

Definition Ident := string.
Definition Idents := list Ident.

Inductive CrateId := CrateId_Internal | CrateId_Core | CrateId_Alloc | CrateId_Vstd | CrateId_Id (x : Ident) (id : N).
#[global] Instance crate_id_eq_dec : EqDecision CrateId.
Proof. solve_decision. Defined.

Inductive Segment :=
| Segment_V (name : Ident) (d : N)
| Segment_T (name : Ident) (d : N)
| Segment_Ctor (d : N)
| Segment_Impl (d : N)
| Segment_ForeignMod (d : N)
| Segment_OpaqueTy (d : N)
| Segment_Closure (d : N)
| Segment_AnonConst (d : N).
#[global] Instance segment_eq_dec : EqDecision Segment.
Proof. solve_decision. Defined.
Definition Segments := list Segment.

Record PathX := mkPath { krate : CrateId; segments : Segments }.
Definition Path := PathX.
#[global] Instance path_eq_dec : EqDecision PathX.
Proof. solve_decision. Defined.

Inductive VarIdentDisambiguate :=
| VarIdentDisambiguate_AirLocal
| VarIdentDisambiguate_NoBodyParam
| VarIdentDisambiguate_TypParamBare
| VarIdentDisambiguate_TypParamSuffixed
| VarIdentDisambiguate_TypParamDecorated
| VarIdentDisambiguate_Field
| VarIdentDisambiguate_RustcId (id : N)
| VarIdentDisambiguate_VirRenumbered (is_stmt does_shadow : bool) (id : N)
| VarIdentDisambiguate_VirExprNoNumber
| VarIdentDisambiguate_VirParam
| VarIdentDisambiguate_VirParamRecursion (n : N)
| VarIdentDisambiguate_VirSubst (id : N)
| VarIdentDisambiguate_VirTemp (id : N)
| VarIdentDisambiguate_ExpandErrorsDecl (id : N)
| VarIdentDisambiguate_BitVectorToAirDecl (id : N)
| VarIdentDisambiguate_ResInfTemp (id : N).
#[global] Instance disambiguate_eq_dec : EqDecision VarIdentDisambiguate.
Proof. solve_decision. Defined.

(** [VarIdent(name, disambiguate)] *)
Definition VarIdent : Type := Ident * VarIdentDisambiguate.

Record VarBinderX (A : Type) := mkVarBinder { vname : VarIdent; va : A }.
Arguments mkVarBinder {A} vname va.
Arguments vname {A} b : rename.
Arguments va {A} b : rename.
Definition VarBinders (A : Type) := list (VarBinderX A).

(** [FunX { path }] *)
Record FunX := mkFun { path : Path }.
Definition Fun := FunX.
#[global] Instance fun_eq_dec : EqDecision FunX.
Proof. solve_decision. Defined.

Record Visibility := mkVisibility { restricted_to : option Path }.
Inductive Mode := Mode_Spec | Mode_Proof | Mode_Exec.
#[global] Instance mode_eq_dec : EqDecision Mode.
Proof. solve_decision. Defined.

Inductive Dt := Dt_Path (p : Path) | Dt_Tuple (arity : N).
#[global] Instance dt_eq_dec : EqDecision Dt.
Proof. solve_decision. Defined.

Inductive ImplPath := ImplPath_TraitImplPath (p : Path) | ImplPath_FnDefImplPath (f : Fun).
#[global] Instance impl_path_eq_dec : EqDecision ImplPath.
Proof. solve_decision. Defined.
Definition ImplPaths := list ImplPath.

(** ** Types *)

Inductive IntRange :=
| IntRange_Int | IntRange_Nat | IntRange_U (bits : N) | IntRange_I (bits : N)
| IntRange_USize | IntRange_ISize | IntRange_Char.
#[global] Instance int_range_eq_dec : EqDecision IntRange.
Proof. solve_decision. Defined.

Inductive TypDecoration :=
| TypDecoration_Ref | TypDecoration_Box | TypDecoration_Rc | TypDecoration_Arc | TypDecoration_Ghost
| TypDecoration_Tracked | TypDecoration_Never | TypDecoration_ConstPtr.
#[global] Instance typ_decoration_eq_dec : EqDecision TypDecoration.
Proof. solve_decision. Defined.

Inductive Primitive := Primitive_Array | Primitive_Slice | Primitive_StrSlice | Primitive_Ptr | Primitive_Global.
#[global] Instance primitive_eq_dec : EqDecision Primitive.
Proof. solve_decision. Defined.

Inductive ClosureKind := ClosureKind_Fn | ClosureKind_FnMut | ClosureKind_FnOnce.
#[global] Instance closure_kind_eq_dec : EqDecision ClosureKind.
Proof. solve_decision. Defined.

(** [TypDecorationArg { allocator_typ }] is its field. *)
Inductive TypX :=
| TypX_Bool
| TypX_Int (range : IntRange)
| TypX_Real
| TypX_Float (bits : N)
| TypX_SpecFn (ts : list TypX) (t : TypX)
| TypX_AnonymousClosure (ts : list TypX) (t : TypX) (kind : ClosureKind) (id : N)
| TypX_FnDef (f : Fun) (ts : list TypX) (resolved : option Fun)
| TypX_Datatype (dt : Dt) (ts : list TypX) (impl_paths : ImplPaths)
| TypX_Dyn (trait : Path) (ts : list TypX) (impl_paths : ImplPaths)
| TypX_Opaque (def_path : Path) (args : list TypX)
| TypX_Primitive (p : Primitive) (ts : list TypX)
| TypX_Decorate (d : TypDecoration) (arg : option TypX) (t : TypX)
| TypX_Boxed (t : TypX)
| TypX_TypParam (x : Ident)
| TypX_Projection (trait_typ_args : list TypX) (trait_path : Path) (name : Ident)
| TypX_PointeeMetadata (t : TypX)
| TypX_TypeId
| TypX_ConstInt (i : Z)
| TypX_ConstBool (b : bool)
| TypX_Air (t : Ast.Typ)
| TypX_MutRef (t : TypX).
Definition Typ := TypX.
Definition Typs := list Typ.

Inductive Sizedness := Sizedness_Sized | Sizedness_MetaSized | Sizedness_PointeeSized.
Inductive TraitId := TraitId_Path (p : Path) | TraitId_Sizedness (s : Sizedness).
Inductive GenericBoundX :=
| GenericBoundX_Trait (t : TraitId) (ts : Typs)
| GenericBoundX_TypEquality (trait : Path) (ts : Typs) (name : Ident) (t : Typ)
| GenericBoundX_ConstTyp (t1 t2 : Typ).
Definition GenericBound := GenericBoundX.
Definition GenericBounds := list GenericBound.

(** ** Operators *)

Inductive TriggerAnnotation :=
| TriggerAnnotation_AutoTrigger | TriggerAnnotation_AllTriggers | TriggerAnnotation_Trigger (group : option N).
#[global] Instance trigger_annotation_eq_dec : EqDecision TriggerAnnotation.
Proof. solve_decision. Defined.

Inductive ModeCoercion := ModeCoercion_Constructor | ModeCoercion_Field.
#[global] Instance mode_coercion_eq_dec : EqDecision ModeCoercion.
Proof. solve_decision. Defined.

Inductive NullaryOpr :=
| NullaryOpr_ConstGeneric (t : Typ)
| NullaryOpr_TraitBound (t : TraitId) (ts : Typs)
| NullaryOpr_TypEqualityBound (trait : Path) (ts : Typs) (name : Ident) (t : Typ)
| NullaryOpr_ConstTypBound (t1 t2 : Typ).

Inductive ArrayKind := ArrayKind_Array | ArrayKind_Slice.
#[global] Instance array_kind_eq_dec : EqDecision ArrayKind.
Proof. solve_decision. Defined.

Inductive IeeeFloatUnaryOp :=
| IeeeFloatUnaryOp_Cast | IeeeFloatUnaryOp_Neg | IeeeFloatUnaryOp_Floor | IeeeFloatUnaryOp_Ceil
| IeeeFloatUnaryOp_Round | IeeeFloatUnaryOp_RoundTiesEven | IeeeFloatUnaryOp_Trunc
| IeeeFloatUnaryOp_IsNormal | IeeeFloatUnaryOp_IsSubnormal | IeeeFloatUnaryOp_IsZero
| IeeeFloatUnaryOp_IsInfinite | IeeeFloatUnaryOp_IsNaN | IeeeFloatUnaryOp_IsNegative
| IeeeFloatUnaryOp_IsPositive.
#[global] Instance ieee_unary_eq_dec : EqDecision IeeeFloatUnaryOp.
Proof. solve_decision. Defined.

Inductive IntegerTypeBitwidth := IntegerTypeBitwidth_Width (w : N) | IntegerTypeBitwidth_ArchWordSize.
#[global] Instance bitwidth_eq_dec : EqDecision IntegerTypeBitwidth.
Proof. solve_decision. Defined.

Inductive MutRefFutureSourceName := MutRefFutureSourceName_MutRefFuture | MutRefFutureSourceName_Final.
#[global] Instance mut_ref_future_eq_dec : EqDecision MutRefFutureSourceName.
Proof. solve_decision. Defined.

Inductive UnaryOp :=
| UnaryOp_Not
| UnaryOp_BitNot (w : option IntegerTypeBitwidth)
| UnaryOp_Trigger (a : TriggerAnnotation)
| UnaryOp_Clip (range : IntRange) (truncate : bool)
| UnaryOp_IntToReal
| UnaryOp_RealToInt
| UnaryOp_FloatToBits
| UnaryOp_IeeeFloat (op : IeeeFloatUnaryOp)
| UnaryOp_CoerceMode (op_mode from_mode to_mode : Mode) (kind : ModeCoercion)
| UnaryOp_MustBeFinalized
| UnaryOp_MustBeElaborated
| UnaryOp_HeightTrigger
| UnaryOp_NewStrLit
| UnaryOp_StrLen
| UnaryOp_CastToInteger
| UnaryOp_MutRefCurrent
| UnaryOp_MutRefFuture (s : MutRefFutureSourceName)
| UnaryOp_MutRefFinal (migrated : bool)
| UnaryOp_Length (k : ArrayKind).
#[global] Instance vir_unary_op_eq_dec : EqDecision UnaryOp.
Proof. solve_decision. Defined.

Inductive VariantCheck := VariantCheck_None | VariantCheck_Union | VariantCheck_Recommends.
#[global] Instance variant_check_eq_dec : EqDecision VariantCheck.
Proof. solve_decision. Defined.

Record FieldOpr := mkFieldOpr {
  datatype : Dt; variant : Ident; field : Ident; get_variant : bool; fcheck : VariantCheck
}.
#[global] Instance field_opr_eq_dec : EqDecision FieldOpr.
Proof. solve_decision. Defined.

Inductive IntegerTypeBoundKind :=
| IntegerTypeBoundKind_UnsignedMax | IntegerTypeBoundKind_SignedMin
| IntegerTypeBoundKind_SignedMax | IntegerTypeBoundKind_ArchWordBits.
#[global] Instance bound_kind_eq_dec : EqDecision IntegerTypeBoundKind.
Proof. solve_decision. Defined.

Record ProofNoteLabel := mkProofNoteLabel { text : string; pn_is_custom_err : bool }.
Record Label := mkLoopLabel { label_id : N; label_name : option string }.

Inductive UnaryOpr :=
| UnaryOpr_Box (t : Typ)
| UnaryOpr_Unbox (t : Typ)
| UnaryOpr_HasType (t : Typ)
| UnaryOpr_IsVariant (datatype : Dt) (variant : Ident)
| UnaryOpr_Field (f : FieldOpr)
| UnaryOpr_IntegerTypeBound (kind : IntegerTypeBoundKind)
| UnaryOpr_CustomErr (msg : string)
| UnaryOpr_AutoDecreases
| UnaryOpr_AutoLoopEnsures
| UnaryOpr_ProofNote (l : ProofNoteLabel)
| UnaryOpr_HasResolved (t : Typ)
| UnaryOpr_ToDyn (t : Typ) (impl_paths : ImplPaths)
| UnaryOpr_LoopIsolationBoundary (l : Label).

Inductive RealArithOp := RealArithOp_Add | RealArithOp_Sub | RealArithOp_Mul | RealArithOp_Div.
#[global] Instance real_arith_eq_dec : EqDecision RealArithOp.
Proof. solve_decision. Defined.

Inductive BitwiseOp :=
| BitwiseOp_BitXor | BitwiseOp_BitAnd | BitwiseOp_BitOr | BitwiseOp_Shr
| BitwiseOp_Shl (w : IntegerTypeBitwidth) (signed : bool).
#[global] Instance bitwise_eq_dec : EqDecision BitwiseOp.
Proof. solve_decision. Defined.

Inductive InequalityOp := InequalityOp_Le | InequalityOp_Ge | InequalityOp_Lt | InequalityOp_Gt.
#[global] Instance inequality_eq_dec : EqDecision InequalityOp.
Proof. solve_decision. Defined.

Inductive IeeeFloatBinaryOp :=
| IeeeFloatBinaryOp_Add | IeeeFloatBinaryOp_Sub | IeeeFloatBinaryOp_Mul | IeeeFloatBinaryOp_Div
| IeeeFloatBinaryOp_Eq | IeeeFloatBinaryOp_InEq (op : InequalityOp).
#[global] Instance ieee_binary_eq_dec : EqDecision IeeeFloatBinaryOp.
Proof. solve_decision. Defined.

Inductive BinaryOpr := BinaryOpr_ExtEq (deep : bool) (t : Typ).

Inductive Constant :=
| Constant_Bool (b : bool)
| Constant_Int (i : Z)
| Constant_Real (s : string)
| Constant_StrSlice (s : string)
| Constant_ByteStr (bytes : list N)
| Constant_Char (c : N)
| Constant_Float32 (bits : N)
| Constant_Float64 (bits : N).
#[global] Instance vir_constant_eq_dec : EqDecision Constant.
Proof. solve_decision. Defined.

Inductive VarAt := VarAt_Pre.
#[global] Instance var_at_eq_dec : EqDecision VarAt.
Proof. solve_decision. Defined.

(** [Quant { quant }] *)
Record Quant := mkQuant { quant : Ast.Quant }.
#[global] Instance vir_quant_eq_dec : EqDecision Quant.
Proof. solve_decision. Defined.

Inductive ComputeMode := ComputeMode_Z3 | ComputeMode_ComputeOnly.

(** ** Datatypes and the architecture *)

Inductive AcceptRecursiveType :=
| AcceptRecursiveType_Reject | AcceptRecursiveType_RejectInGround | AcceptRecursiveType_Accept.
#[global] Instance accept_recursive_type_eq_dec : EqDecision AcceptRecursiveType.
Proof. solve_decision. Defined.
Definition TypPositives := list (Ident * AcceptRecursiveType).

Definition Fields := Ast.Binders (Typ * Mode * Visibility).
Inductive CtorPrintStyle := CtorPrintStyle_Tuple | CtorPrintStyle_Parens | CtorPrintStyle_Braces | CtorPrintStyle_Const.
Record Variant := mkVariant { variant_name : Ident; fields : Fields; ctor_style : CtorPrintStyle }.
Definition Variants := list Variant.
Inductive DatatypeTransparency := DatatypeTransparency_Never | DatatypeTransparency_WhenVisible (v : Visibility).
Record FunWithVis := mkFunWithVis { fv_visibility : Visibility; fv_fun : Fun }.

(** [Datatype] is [Spanned<DatatypeX>]: its span and its fields. *)
Record Datatype := mkDatatype {
  dt_span : Span;
  dt_name : Dt;
  proxy : option (Span * Path);
  owning_module : option Path;
  dt_visibility : Visibility;
  transparency : DatatypeTransparency;
  typ_params : TypPositives;
  typ_bounds : GenericBounds;
  variants : Variants;
  dt_mode : Mode;
  ext_equal : bool;
  user_defined_invariant_fn : option FunWithVis;
  sized_constraint : option Typ;
  destructor : bool
}.

Inductive FunctionKind :=
| FunctionKind_Static
| FunctionKind_TraitMethodDecl (trait_path : Path) (has_default : bool)
| FunctionKind_TraitMethodImpl (method : Fun) (impl_path trait_path : Path) (trait_typ_args : Typs)
    (inherit_body_from : option Fun)
| FunctionKind_ForeignTraitMethodImpl (method : Fun) (impl_path trait_path : Path) (trait_typ_args : Typs).

Inductive ArchWordBits := ArchWordBits_Either32Or64 | ArchWordBits_Exactly (n : N).
#[global] Instance arch_word_bits_eq_dec : EqDecision ArchWordBits.
Proof. solve_decision. Defined.

(** ** Keys of maps *)

Definition disambiguate_code (d : VarIdentDisambiguate) : N * N * bool * bool :=
  match d with
  | VarIdentDisambiguate_AirLocal => (0, 0, false, false)
  | VarIdentDisambiguate_NoBodyParam => (1, 0, false, false)
  | VarIdentDisambiguate_TypParamBare => (2, 0, false, false)
  | VarIdentDisambiguate_TypParamSuffixed => (3, 0, false, false)
  | VarIdentDisambiguate_TypParamDecorated => (4, 0, false, false)
  | VarIdentDisambiguate_Field => (5, 0, false, false)
  | VarIdentDisambiguate_RustcId i => (6, i, false, false)
  | VarIdentDisambiguate_VirRenumbered s d i => (7, i, s, d)
  | VarIdentDisambiguate_VirExprNoNumber => (8, 0, false, false)
  | VarIdentDisambiguate_VirParam => (9, 0, false, false)
  | VarIdentDisambiguate_VirParamRecursion n => (10, n, false, false)
  | VarIdentDisambiguate_VirSubst i => (11, i, false, false)
  | VarIdentDisambiguate_VirTemp i => (12, i, false, false)
  | VarIdentDisambiguate_ExpandErrorsDecl i => (13, i, false, false)
  | VarIdentDisambiguate_BitVectorToAirDecl i => (14, i, false, false)
  | VarIdentDisambiguate_ResInfTemp i => (15, i, false, false)
  end%N.
Definition disambiguate_of (c : N * N * bool * bool) : VarIdentDisambiguate :=
  let '(k, i, s, d) := c in
  match k with
  | 0 => VarIdentDisambiguate_AirLocal
  | 1 => VarIdentDisambiguate_NoBodyParam
  | 2 => VarIdentDisambiguate_TypParamBare
  | 3 => VarIdentDisambiguate_TypParamSuffixed
  | 4 => VarIdentDisambiguate_TypParamDecorated
  | 5 => VarIdentDisambiguate_Field
  | 6 => VarIdentDisambiguate_RustcId i
  | 7 => VarIdentDisambiguate_VirRenumbered s d i
  | 8 => VarIdentDisambiguate_VirExprNoNumber
  | 9 => VarIdentDisambiguate_VirParam
  | 10 => VarIdentDisambiguate_VirParamRecursion i
  | 11 => VarIdentDisambiguate_VirSubst i
  | 12 => VarIdentDisambiguate_VirTemp i
  | 13 => VarIdentDisambiguate_ExpandErrorsDecl i
  | 14 => VarIdentDisambiguate_BitVectorToAirDecl i
  | _ => VarIdentDisambiguate_ResInfTemp i
  end%N.
#[global] Instance disambiguate_countable : Countable VarIdentDisambiguate.
Proof. apply (inj_countable' disambiguate_code disambiguate_of). by intros []. Defined.

Definition crate_code (k : CrateId) : N * Ident * N :=
  match k with
  | CrateId_Internal => (0, "", 0)
  | CrateId_Core => (1, "", 0)
  | CrateId_Alloc => (2, "", 0)
  | CrateId_Vstd => (3, "", 0)
  | CrateId_Id x i => (4, x, i)
  end%N%string.
Definition crate_of (c : N * Ident * N) : CrateId :=
  let '(k, x, i) := c in
  match k with
  | 0 => CrateId_Internal | 1 => CrateId_Core | 2 => CrateId_Alloc | 3 => CrateId_Vstd | _ => CrateId_Id x i
  end%N.
#[global] Instance crate_id_countable : Countable CrateId.
Proof. apply (inj_countable' crate_code crate_of). by intros []. Defined.

Definition segment_code (s : Segment) : N * Ident * N :=
  match s with
  | Segment_V x d => (0, x, d)
  | Segment_T x d => (1, x, d)
  | Segment_Ctor d => (2, "", d)
  | Segment_Impl d => (3, "", d)
  | Segment_ForeignMod d => (4, "", d)
  | Segment_OpaqueTy d => (5, "", d)
  | Segment_Closure d => (6, "", d)
  | Segment_AnonConst d => (7, "", d)
  end%N%string.
Definition segment_of (c : N * Ident * N) : Segment :=
  let '(k, x, d) := c in
  match k with
  | 0 => Segment_V x d | 1 => Segment_T x d | 2 => Segment_Ctor d | 3 => Segment_Impl d
  | 4 => Segment_ForeignMod d | 5 => Segment_OpaqueTy d | 6 => Segment_Closure d | _ => Segment_AnonConst d
  end%N.
#[global] Instance segment_countable : Countable Segment.
Proof. apply (inj_countable' segment_code segment_of). by intros []. Defined.
#[global] Instance path_countable : Countable PathX.
Proof. apply (inj_countable' (λ p, (krate p, segments p)) (λ c, mkPath c.1 c.2)). by intros []. Defined.
#[global] Instance fun_countable : Countable FunX.
Proof. apply (inj_countable' path mkFun). by intros []. Defined.
