(* ===== verification/VirAstUtil.v ===== *)
(** * Types and names of VIR (source/vir/src/ast_util.rs, def.rs, unicode.rs)

    The helpers on types, paths and integer ranges that the modelled parts call.
    [types_equal] is equality of types without the impl paths and resolved functions
    that the code stores in them ([erase_typ]). *)

From S2P Require Import Prelude RustString Escape VirMessages VirAst.
From Stdlib Require Import Ascii.
Set Warnings "-rewrite-rw,-register-all,-clear-no-such-hyp".
Local Open Scope string_scope.
Local Open Scope list_scope.

(** ** Induction on types *)

Section typ_induction.
Variable P : Typ → Prop.
Hypothesis HBool : P TypX_Bool.
Hypothesis HInt : ∀ r, P (TypX_Int r).
Hypothesis HReal : P TypX_Real.
Hypothesis HFloat : ∀ n, P (TypX_Float n).
Hypothesis HSpecFn : ∀ ts t, Forall P ts → P t → P (TypX_SpecFn ts t).
Hypothesis HClosure : ∀ ts t k i, Forall P ts → P t → P (TypX_AnonymousClosure ts t k i).
Hypothesis HFnDef : ∀ f ts r, Forall P ts → P (TypX_FnDef f ts r).
Hypothesis HDatatype : ∀ d ts i, Forall P ts → P (TypX_Datatype d ts i).
Hypothesis HDyn : ∀ d ts i, Forall P ts → P (TypX_Dyn d ts i).
Hypothesis HOpaque : ∀ d ts, Forall P ts → P (TypX_Opaque d ts).
Hypothesis HPrimitive : ∀ p ts, Forall P ts → P (TypX_Primitive p ts).
Hypothesis HDecorate : ∀ d a t, match a with Some a => P a | None => True end → P t → P (TypX_Decorate d a t).
Hypothesis HBoxed : ∀ t, P t → P (TypX_Boxed t).
Hypothesis HTypParam : ∀ x, P (TypX_TypParam x).
Hypothesis HProjection : ∀ ts p n, Forall P ts → P (TypX_Projection ts p n).
Hypothesis HPointee : ∀ t, P t → P (TypX_PointeeMetadata t).
Hypothesis HTypeId : P TypX_TypeId.
Hypothesis HConstInt : ∀ i, P (TypX_ConstInt i).
Hypothesis HConstBool : ∀ b, P (TypX_ConstBool b).
Hypothesis HAir : ∀ t, P (TypX_Air t).
Hypothesis HMutRef : ∀ t, P t → P (TypX_MutRef t).

Fixpoint typ_ind' (t : Typ) : P t.
Proof.
  pose (all := fix all (ts : list Typ) : Forall P ts :=
    match ts with [] => Forall_nil_2 P | t' :: ts' => Forall_cons_2 P t' ts' (typ_ind' t') (all ts') end).
  destruct t as [| | | |ts t|ts t k i|f ts r|d ts i|d ts i|d ts|p ts|d a t|t| |ts p n|t| | | | |t].
  - exact HBool.
  - apply HInt.
  - exact HReal.
  - apply HFloat.
  - apply HSpecFn; [apply all|apply typ_ind'].
  - apply HClosure; [apply all|apply typ_ind'].
  - apply HFnDef, all.
  - apply HDatatype, all.
  - apply HDyn, all.
  - apply HOpaque, all.
  - apply HPrimitive, all.
  - apply HDecorate; [|apply typ_ind']. destruct a as [a|]; [apply typ_ind'|exact I].
  - apply HBoxed, typ_ind'.
  - apply HTypParam.
  - apply HProjection, all.
  - apply HPointee, typ_ind'.
  - exact HTypeId.
  - apply HConstInt.
  - apply HConstBool.
  - apply HAir.
  - apply HMutRef, typ_ind'.
Qed.
End typ_induction.

(** ** Types *)

Definition int_typ : Typ := TypX_Int IntRange_Int.
Definition bool_typ : Typ := TypX_Bool.

(** [l.iter().zip(r.iter()).all(|(x, y)| p(x, y))] *)
Section forallb2.
Context {A B : Type} (p : A → B → bool).
Fixpoint forallb2 (l : list A) (r : list B) : bool :=
  match l, r with x :: l', y :: r' => p x y && forallb2 l' r' | _, _ => true end.
End forallb2.

Definition n_equal {A} (p : A → A → bool) (l r : list A) : bool :=
  (length l =? length r)%nat && forallb2 p l r.

Fixpoint types_equal (typ1 typ2 : Typ) : bool :=
  match typ1, typ2 with
  | TypX_Bool, TypX_Bool => true
  | TypX_Int r1, TypX_Int r2 => bool_decide (r1 = r2)
  | TypX_Real, TypX_Real => true
  | TypX_Float f1, TypX_Float f2 => (f1 =? f2)%N
  | TypX_SpecFn ts1 t1, TypX_SpecFn ts2 t2 => n_equal types_equal ts1 ts2 && types_equal t1 t2
  | TypX_AnonymousClosure ts1 t1 id1 kind1, TypX_AnonymousClosure ts2 t2 id2 kind2 =>
    n_equal types_equal ts1 ts2 && types_equal t1 t2 && bool_decide (id1 = id2) && (kind1 =? kind2)%N
  | TypX_Datatype path1 ts1 _, TypX_Datatype path2 ts2 _ =>
    bool_decide (path1 = path2) && n_equal types_equal ts1 ts2
  | TypX_Dyn path1 ts1 _, TypX_Dyn path2 ts2 _ => bool_decide (path1 = path2) && n_equal types_equal ts1 ts2
  | TypX_Primitive p1 ts1, TypX_Primitive p2 ts2 => bool_decide (p1 = p2) && n_equal types_equal ts1 ts2
  | TypX_Decorate d1 a1 t1, TypX_Decorate d2 a2 t2 =>
    bool_decide (d1 = d2) && types_equal t1 t2
    && match a1, a2 with
       | None, None => true
       | Some at1, Some at2 => types_equal at1 at2
       | Some _, None | None, Some _ => false
       end
  | TypX_Boxed t1, TypX_Boxed t2 => types_equal t1 t2
  | TypX_TypParam x1, TypX_TypParam x2 => x1 =? x2
  | TypX_Projection ts1 p1 n1, TypX_Projection ts2 p2 n2 =>
    n_equal types_equal ts1 ts2 && bool_decide (p1 = p2) && (n1 =? n2)
  | TypX_TypeId, TypX_TypeId => true
  | TypX_ConstInt i1, TypX_ConstInt i2 => (i1 =? i2)%Z
  | TypX_ConstBool b1, TypX_ConstBool b2 => Bool.eqb b1 b2
  | TypX_Air a1, TypX_Air a2 => bool_decide (a1 = a2)
  | TypX_FnDef f1 ts1 _, TypX_FnDef f2 ts2 _ => bool_decide (f1 = f2) && n_equal types_equal ts1 ts2
  | TypX_PointeeMetadata t1, TypX_PointeeMetadata t2 => types_equal t1 t2
  | TypX_MutRef t1, TypX_MutRef t2 => types_equal t1 t2
  | TypX_Opaque p1 ts1, TypX_Opaque p2 ts2 => bool_decide (p1 = p2) && n_equal types_equal ts1 ts2
  | _, _ => false
  end.
Definition n_types_equal (typs1 typs2 : Typs) : bool := n_equal types_equal typs1 typs2.

Fixpoint undecorate_typ (typ : Typ) : Typ :=
  match typ with TypX_Decorate _ _ t => undecorate_typ t | _ => typ end.

(** [int_range_from_type] recurses under decorations and [Boxed]. *)
Fixpoint int_range_from_type (typ : Typ) : option IntRange :=
  match typ with
  | TypX_Decorate _ _ t => int_range_from_type t
  | TypX_Int range => Some range
  | TypX_Boxed t => int_range_from_type t
  | _ => None
  end.

Definition to_exact (w : IntegerTypeBitwidth) (arch : ArchWordBits) : option N :=
  match w, arch with
  | IntegerTypeBitwidth_Width w, _ => Some w
  | IntegerTypeBitwidth_ArchWordSize, ArchWordBits_Exactly w => Some w
  | IntegerTypeBitwidth_ArchWordSize, ArchWordBits_Either32Or64 => None
  end.

(** ** What [types_equal] compares *)

Fixpoint erase_typ (t : Typ) : Typ :=
  match t with
  | TypX_SpecFn ts t => TypX_SpecFn (map erase_typ ts) (erase_typ t)
  | TypX_AnonymousClosure ts t k i => TypX_AnonymousClosure (map erase_typ ts) (erase_typ t) k i
  | TypX_FnDef f ts _ => TypX_FnDef f (map erase_typ ts) None
  | TypX_Datatype d ts _ => TypX_Datatype d (map erase_typ ts) []
  | TypX_Dyn d ts _ => TypX_Dyn d (map erase_typ ts) []
  | TypX_Opaque d ts => TypX_Opaque d (map erase_typ ts)
  | TypX_Primitive p ts => TypX_Primitive p (map erase_typ ts)
  | TypX_Decorate d a t => TypX_Decorate d (option_map erase_typ a) (erase_typ t)
  | TypX_Boxed t => TypX_Boxed (erase_typ t)
  | TypX_Projection ts p n => TypX_Projection (map erase_typ ts) p n
  | TypX_PointeeMetadata t => TypX_PointeeMetadata (erase_typ t)
  | TypX_MutRef t => TypX_MutRef (erase_typ t)
  | _ => t
  end.

(** Type arguments for type parameters ([subst_typ] of sst_util.rs, [visit_typ_rec] of
    ast_visitor.rs). *)
Fixpoint subst_typ (σ : gmap Ident Typ) (t : Typ) : Typ :=
  match t with
  | TypX_TypParam x => match σ !! x with Some u => u | None => t end
  | TypX_SpecFn ts t => TypX_SpecFn (map (subst_typ σ) ts) (subst_typ σ t)
  | TypX_AnonymousClosure ts t k i => TypX_AnonymousClosure (map (subst_typ σ) ts) (subst_typ σ t) k i
  | TypX_FnDef f ts r => TypX_FnDef f (map (subst_typ σ) ts) r
  | TypX_Datatype d ts i => TypX_Datatype d (map (subst_typ σ) ts) i
  | TypX_Dyn d ts i => TypX_Dyn d (map (subst_typ σ) ts) i
  | TypX_Opaque d ts => TypX_Opaque d (map (subst_typ σ) ts)
  | TypX_Primitive p ts => TypX_Primitive p (map (subst_typ σ) ts)
  | TypX_Decorate d a t => TypX_Decorate d (option_map (subst_typ σ) a) (subst_typ σ t)
  | TypX_Boxed t => TypX_Boxed (subst_typ σ t)
  | TypX_Projection ts p n => TypX_Projection (map (subst_typ σ) ts) p n
  | TypX_PointeeMetadata t => TypX_PointeeMetadata (subst_typ σ t)
  | TypX_MutRef t => TypX_MutRef (subst_typ σ t)
  | _ => t
  end.

Lemma n_equal_spec {A B} (p : A → A → bool) (f : A → B) (l r : list A) :
  Forall (λ x, ∀ y, p x y = true ↔ f x = f y) l → n_equal p l r = true ↔ map f l = map f r.
Proof.
  intros H. revert r. induction H as [|x l Hx _ IH]; intros [|y r]; try by split.
  unfold n_equal in *. cbn. specialize (IH r). rewrite andb_true_iff in IH. rewrite !andb_true_iff Hx Nat.eqb_eq.
  rewrite Nat.eqb_eq in IH. split.
  - intros (Hl & Hxy & Hp). f_equal; [done|]. by apply IH.
  - intros [= Hxy Hr]. apply IH in Hr as [Hl Hp]. done.
Qed.

Lemma types_equal_erase t1 t2 : types_equal t1 t2 = true ↔ erase_typ t1 = erase_typ t2.
Proof.
  revert t2. induction t1 using typ_ind'; intros t2; destruct t2; cbn -[n_equal];
    try (by split); try (split; discriminate);
    repeat match goal with
    | a : option Typ |- _ => destruct a; cbn -[n_equal]
    | a : option TypX |- _ => destruct a; cbn -[n_equal]
    | H : Forall _ ?l |- context [n_equal types_equal ?l ?r] =>
      pose proof (n_equal_spec _ erase_typ l r H); clear H; destruct (n_equal types_equal l r)
    | H : ∀ t2, types_equal ?t t2 = true ↔ _ |- context [types_equal ?t ?u] =>
      pose proof (H u); clear H; destruct (types_equal t u)
    end;
    rewrite ?andb_true_iff ?bool_decide_eq_true ?N.eqb_eq ?Z.eqb_eq ?String.eqb_eq ?Bool.eqb_true_iff;
    (split; [intuition congruence|intros E; injection E; intuition congruence]).
Qed.

Lemma n_types_equal_erase ts1 ts2 : n_types_equal ts1 ts2 = true ↔ map erase_typ ts1 = map erase_typ ts2.
Proof. apply n_equal_spec, Forall_forall. intros t _ t2. apply types_equal_erase. Qed.

(** ** Paths *)

(** The macros [path!] and [fun!]. *)
Definition path_of (krate : CrateId) (names : list string) : Path := mkPath krate (map (λ n, Segment_T n 0) names).
Definition fun_of (krate : CrateId) (names : list string) (name : string) : Fun :=
  mkFun (mkPath krate (map (λ n, Segment_T n 0) names ++ [Segment_V name 0])).

Definition iset_type_path : Path := path_of CrateId_Vstd ["iset"; "ISet"].
Definition fn_iset_empty_name : Fun := fun_of CrateId_Vstd ["iset"; "ISet"] "empty".
Definition fn_iset_full_name : Fun := fun_of CrateId_Vstd ["iset"; "ISet"] "full".
Definition fn_iset_subset_of_name : Fun := fun_of CrateId_Vstd ["iset"; "ISet"] "subset_of".
Definition fn_iset_insert_name : Fun := fun_of CrateId_Vstd ["iset"; "ISet"] "insert".
Definition fn_iset_remove_name : Fun := fun_of CrateId_Vstd ["iset"; "ISet"] "remove".
Definition fn_iset_contains_name : Fun := fun_of CrateId_Vstd ["iset"; "ISet"] "contains".

(** Names for messages (def.rs). *)
Definition RUST_DEF_VALUE_NS_DISAMBIGUATED : string := "vdis%".
Definition RUST_DEF_TYPE_NS : string := "t%".
Definition RUST_DEF_TYPE_NS_DISAMBIGUATED : string := "tdis%".
Definition RUST_DEF_CTOR : string := "ctor%".
Definition RUST_DEF_FOREIGN_MOD : string := "foreign_mod%".
Definition RUST_DEF_OPAQUE_TYPE : string := "opaque%".
Definition RUST_DEF_CLOSURE : string := "closure%".
Definition RUST_DEF_ANON_CONST : string := "anon_const%".
Definition PREFIX_IMPL_IDENT : string := "impl&%".
Definition PREFIX_ESCAPE : string := "$~".
Definition impl_ident (disambiguator : N) : string := PREFIX_IMPL_IDENT +:+ N_to_string disambiguator.

Definition numbered (prefix : string) (d : N) : string :=
  if (d =? 0)%N then prefix else prefix +:+ N_to_string d.
Definition segment_to_string (s : Segment) : string :=
  match s with
  | Segment_V name d =>
    if (d =? 0)%N then name else RUST_DEF_VALUE_NS_DISAMBIGUATED +:+ N_to_string d +:+ "%" +:+ name
  | Segment_T name d =>
    if (d =? 0)%N then RUST_DEF_TYPE_NS +:+ name
    else RUST_DEF_TYPE_NS_DISAMBIGUATED +:+ N_to_string d +:+ "%" +:+ name
  | Segment_Ctor d => numbered RUST_DEF_CTOR d
  | Segment_Impl d => impl_ident d
  | Segment_ForeignMod d => RUST_DEF_FOREIGN_MOD +:+ N_to_string d
  | Segment_OpaqueTy d => RUST_DEF_OPAQUE_TYPE +:+ N_to_string d
  | Segment_Closure d => RUST_DEF_CLOSURE +:+ N_to_string d
  | Segment_AnonConst d => RUST_DEF_ANON_CONST +:+ N_to_string d
  end.
Definition friendly_name (s : Segment) : string :=
  match s with Segment_V name _ | Segment_T name _ => name | _ => segment_to_string s end.
Definition is_foreign_mod (s : Segment) : bool := match s with Segment_ForeignMod _ => true | _ => false end.

(** [str::escape_default] of one character *)
Definition escape_default_char (c : N) : string :=
  if (c =? 9)%N then "\t" else if (c =? 13)%N then "\r" else if (c =? 10)%N then "\n"
  else if (c =? 39)%N || (c =? 34)%N || (c =? 92)%N then "\" +:+ of_chars [c]
  else if (32 <=? c)%N && (c <=? 126)%N then of_chars [c]
  else "\u{" +:+ lowercase (to_hex c) +:+ "}".
(** [s.replace(c, by)] for each character [c] of [cs] *)
Definition replace_chars (cs : list N) (by_ : string) (s : string) : string :=
  String.concat "" (map (λ c, if bool_decide (c ∈ cs) then by_ else of_chars [c]) (chars s)).
Definition krate_ident_to_string (krate : string) : string :=
  let krate := String.concat "" (map escape_default_char (chars krate)) in
  let krate := replace_chars [92; 123; 125]%N PREFIX_ESCAPE krate in
  match krate with
  | String c _ => if is_ascii_digit c then PREFIX_ESCAPE +:+ krate else krate
  | EmptyString => krate
  end.
Definition krate_to_string_ignore_stable_id (k : CrateId) : string :=
  match k with
  | CrateId_Internal => "crate"
  | CrateId_Core => "core"
  | CrateId_Alloc => "alloc"
  | CrateId_Vstd => "vstd"
  | CrateId_Id ident _ => krate_ident_to_string ident
  end.
Definition path_as_friendly_rust_name_raw (p : Path) : string :=
  String.concat "::" (krate_to_string_ignore_stable_id (krate p)
    :: map friendly_name (filter (λ s, is_foreign_mod s = false) (segments p))).

(** [PATH_AS_RUST_NAME_MAP], a global of the process, is an argument. *)
Definition path_as_friendly_rust_name (names : Path → option string) (p : Path) : string :=
  match names p with Some name => name | None => path_as_friendly_rust_name_raw p end.

Definition VERUSLIB_PREFIX : string := "vstd::".
Definition PERVASIVE_PREFIX : string := "pervasive::".
Definition name_as_vstd_name (name : string) : option string :=
  match strip_prefix VERUSLIB_PREFIX name with
  | Some x => match strip_prefix PERVASIVE_PREFIX x with Some x => Some x | None => Some x end
  | None =>
    match strip_prefix "crate::" name with
    | Some x => strip_prefix PERVASIVE_PREFIX x
    | None => None
    end
  end.

Definition path_as_vstd_name (names : Path → option string) (p : Path) : option string :=
  name_as_vstd_name (path_as_friendly_rust_name names p).

(** ** Characters (unicode.rs) *)

Definition CHAR_RANGE_1_MIN : N := 0.
Definition CHAR_RANGE_1_MAX : N := 55295.
Definition CHAR_RANGE_2_MIN : N := 57344.
Definition CHAR_RANGE_2_MAX : N := 1114111.
Definition valid_unicode_scalar (i : N) : bool :=
  ((CHAR_RANGE_1_MIN <=? i) && (i <=? CHAR_RANGE_1_MAX) || (CHAR_RANGE_2_MIN <=? i) && (i <=? CHAR_RANGE_2_MAX))%N.
Definition valid_unicode_scalar_bigint (i : Z) : bool :=
  if (0 <=? i)%Z && (i <? 2 ^ 32)%Z then valid_unicode_scalar (Z.to_N i) else false.
