(* ===== verification/Sst.v ===== *)
(** * SST expressions (source/vir/src/sst.rs)

    The pure expressions of VIR-SST, with the interpreter's own values
    ([InterpExp], interpreter.rs).  An [Exp] is [SpannedTyped<ExpX>]. *)

From S2P Require Import Prelude VirMessages VirAst VirAstUtil.
From S2P Require Ast.
Set Warnings "-rewrite-rw,-register-all,-clear-no-such-hyp".

Definition UniqueIdent := VarIdent.

Inductive InternalFun :=
| InternalFun_ClosureReq | InternalFun_ClosureEns | InternalFun_ClosureOpensInvariants
| InternalFun_DefaultEns | InternalFun_CheckDecreaseHeight | InternalFun_OpenInvariantMask (f : Fun) (n : N).
#[global] Instance internal_fun_eq_dec : EqDecision InternalFun.
Proof. solve_decision. Defined.

Inductive CallFun :=
| CallFun_Fun (f : Fun) (resolved : option (Fun * Typs))
| CallFun_Recursive (f : Fun)
| CallFun_InternalFun (f : InternalFun).

Inductive ArithOp := ArithOp_Add | ArithOp_Sub | ArithOp_Mul | ArithOp_EuclideanDiv | ArithOp_EuclideanMod.
#[global] Instance sst_arith_op_eq_dec : EqDecision ArithOp.
Proof. solve_decision. Defined.

Inductive BinaryOp :=
| BinaryOp_And
| BinaryOp_Or
| BinaryOp_Xor
| BinaryOp_Implies
| BinaryOp_HeightCompare (strictly_lt recursive_function_field : bool)
| BinaryOp_Eq
| BinaryOp_Ne
| BinaryOp_Inequality (op : InequalityOp)
| BinaryOp_Arith (op : ArithOp)
| BinaryOp_RealArith (op : RealArithOp)
| BinaryOp_Bitwise (op : BitwiseOp)
| BinaryOp_IeeeFloat (op : IeeeFloatBinaryOp)
| BinaryOp_StrGetChar
| BinaryOp_Index (k : ArrayKind).
#[global] Instance sst_binary_op_eq_dec : EqDecision BinaryOp.
Proof. solve_decision. Defined.

(** [BndX] and [InterpExp] refer to [Exp] in the code, here through [E].  The span of
    [Bnd] ([Spanned<BndX>]) is in [ExpX_Bind]; the [HashMap] of a closure is the list
    of its entries. *)
Inductive BndX (E : Type) :=
| BndX_Let (bs : VarBinders E)
| BndX_Quant (q : Quant) (bs : VarBinders Typ) (ts : list (list E)) (locals : option (list VarIdent))
| BndX_Lambda (bs : VarBinders Typ) (ts : list (list E))
| BndX_Choose (bs : VarBinders Typ) (ts : list (list E)) (cond : E).
Arguments BndX_Let {E} bs.
Arguments BndX_Quant {E} q bs ts locals.
Arguments BndX_Lambda {E} bs ts.
Arguments BndX_Choose {E} bs ts cond.

Inductive InterpExp (E : Type) :=
| InterpExp_FreeVar (x : UniqueIdent)
| InterpExp_Seq (v : list E)
| InterpExp_Closure (e : E) (context : list (UniqueIdent * E))
| InterpExp_Array (v : list E).
Arguments InterpExp_FreeVar {E} x.
Arguments InterpExp_Seq {E} v.
Arguments InterpExp_Closure {E} e context.
Arguments InterpExp_Array {E} v.

Inductive Exp := mkExp (span : Span) (typ : Typ) (x : ExpX)
with ExpX :=
| ExpX_Const (c : Constant)
| ExpX_Var (id : UniqueIdent)
| ExpX_StaticVar (f : Fun)
| ExpX_VarLoc (id : UniqueIdent)
| ExpX_VarAt (id : UniqueIdent) (at_ : VarAt)
| ExpX_Loc (e : Exp)
| ExpX_Old (snap : Ident) (id : UniqueIdent)
| ExpX_Call (f : CallFun) (typs : Typs) (args : list Exp)
| ExpX_CallLambda (lambda : Exp) (args : list Exp)
| ExpX_Ctor (dt : Dt) (variant : Ident) (bs : Ast.Binders Exp)
| ExpX_NullaryOpr (op : NullaryOpr)
| ExpX_Unary (op : UnaryOp) (e : Exp)
| ExpX_UnaryOpr (op : UnaryOpr) (e : Exp)
| ExpX_Binary (op : BinaryOp) (e1 e2 : Exp)
| ExpX_BinaryOpr (op : BinaryOpr) (e1 e2 : Exp)
| ExpX_If (e1 e2 e3 : Exp)
| ExpX_WithTriggers (ts : list (list Exp)) (e : Exp)
| ExpX_Bind (bspan : Span) (bnd : BndX Exp) (e : Exp)
| ExpX_ExecFnByName (f : Fun)
| ExpX_ArrayLiteral (es : list Exp)
| ExpX_Interp (i : InterpExp Exp)
| ExpX_FuelConst (n : N).
Definition Exps := list Exp.
Definition Trig := Exps.
Definition Trigs := list Trig.
Definition Bnd := BndX Exp.

Definition exp_span (e : Exp) : Span := let 'mkExp s _ _ := e in s.
Definition exp_typ (e : Exp) : Typ := let 'mkExp _ t _ := e in t.
Definition exp_x (e : Exp) : ExpX := let 'mkExp _ _ x := e in x.
(** [e.new_x(x)] *)
Definition new_x (e : Exp) (y : ExpX) : Exp := mkExp (exp_span e) (exp_typ e) y.

(** ** Induction *)

Definition bnd_children {E} (b : BndX E) : list E :=
  match b with
  | BndX_Let bs => map va bs
  | BndX_Quant _ _ ts _ | BndX_Lambda _ ts => concat ts
  | BndX_Choose _ ts cond => concat ts ++ [cond]
  end.
Definition interp_children {E} (i : InterpExp E) : list E :=
  match i with
  | InterpExp_FreeVar _ => []
  | InterpExp_Seq v | InterpExp_Array v => v
  | InterpExp_Closure e ctx => e :: map snd ctx
  end.

(** The expressions directly below. *)
Definition children (y : ExpX) : list Exp :=
  match y with
  | ExpX_Loc e | ExpX_Unary _ e | ExpX_UnaryOpr _ e => [e]
  | ExpX_Call _ _ es | ExpX_ArrayLiteral es => es
  | ExpX_CallLambda e es => e :: es
  | ExpX_Ctor _ _ bs => map Ast.ba bs
  | ExpX_Binary _ e1 e2 | ExpX_BinaryOpr _ e1 e2 => [e1; e2]
  | ExpX_If e1 e2 e3 => [e1; e2; e3]
  | ExpX_WithTriggers ts e => concat ts ++ [e]
  | ExpX_Bind _ b e => bnd_children b ++ [e]
  | ExpX_Interp i => interp_children i
  | _ => []
  end.

Section exp_induction.
Variable P : Exp → Prop.
Hypothesis H : ∀ s t y, Forall P (children y) → P (mkExp s t y).

Fixpoint exp_ind' (e : Exp) : P e.
Proof.
  pose (all := fix all (es : list Exp) : Forall P es :=
    match es with [] => Forall_nil_2 P | e' :: es' => Forall_cons_2 P e' es' (exp_ind' e') (all es') end).
  pose (alls := fix alls (ts : list (list Exp)) : Forall P (concat ts) :=
    match ts with
    | [] => Forall_nil_2 P
    | t :: ts' => Forall_app_2 P t (concat ts') (all t) (alls ts')
    end).
  destruct e as [s t y]. apply H.
  destruct y as [| | | | |e| |f ts es|e es|d v bs| |o e|o e|o e1 e2|o e1 e2|e1 e2 e3|ts e|sp b e| |es|i|];
    cbn [children]; first [apply Forall_nil_2 | exact (all es) | idtac].
  - repeat constructor. apply exp_ind'.
  - constructor; [apply exp_ind'|exact (all es)].
  - induction bs as [|[n e] bs IH]; constructor; [apply exp_ind'|apply IH].
  - repeat constructor. apply exp_ind'.
  - repeat constructor. apply exp_ind'.
  - repeat constructor; apply exp_ind'.
  - repeat constructor; apply exp_ind'.
  - repeat constructor; apply exp_ind'.
  - apply Forall_app_2; [exact (alls ts)|]. repeat constructor. apply exp_ind'.
  - apply Forall_app_2; [|repeat constructor; apply exp_ind'].
    destruct b as [bs|q bs ts l|bs ts|bs ts c]; cbn.
    + induction bs as [|[n e'] bs IH]; constructor; [apply exp_ind'|apply IH].
    + exact (alls ts).
    + exact (alls ts).
    + apply Forall_app_2; [exact (alls ts)|]. repeat constructor. apply exp_ind'.
  - destruct i as [x|v|e ctx|v]; cbn; [constructor|exact (all v)| |exact (all v)].
    constructor; [apply exp_ind'|]. induction ctx as [|[n e'] ctx IH]; constructor; [apply exp_ind'|apply IH].
Qed.
End exp_induction.

(** Nested [Fixpoint]s over binders. *)
Definition binder_map {A B} (f : A → B) (b : Ast.BinderX A) : Ast.BinderX B :=
  let 'Ast.mkBinder n a := b in Ast.mkBinder n (f a).
Definition var_binder_map {A B} (f : A → B) (b : VarBinderX A) : VarBinderX B :=
  let 'mkVarBinder n a := b in mkVarBinder n (f a).
