(* ===== verification/SstSemantics.v ===== *)
(** * What SST expressions mean

    A partial semantics: [den φ e ρ] is the value of [e] when the variables have the
    values [ρ], or [None] when an operation is applied outside its domain (a negative
    shift, a value of the wrong kind, an unbound variable).  The interpreter hides the
    variables that were free when it started ([FreeVar]); [φ] has their values.  What belongs to the
    program or the solver (functions, floating point, values out of range, ...) is a
    parameter, [SstModel].  [den] covers the interpreter's own values, whose variables
    are the hidden ones: they have a value in every environment or in none. *)

From S2P Require Import Prelude VirMessages VirAst VirAstUtil Sst.
From S2P Require Ast.
Set Warnings "-rewrite-rw,-register-all,-clear-no-such-hyp".

Class SstModel := {
  V : Type;
  V_eq_dec :: EqDecision V;
  VInt : Z → V;
  VBool : bool → V;
  VSeq : list V → V;
  VArray : list V → V;
  VCtor : Dt → Ident → list (Ident * V) → V;
  to_int : V → option Z;
  to_bool : V → option bool;
  to_seq : V → option (list V);
  to_array : V → option (list V);
  to_ctor : V → option (Dt * Ident * list (Ident * V));
  to_int_spec : ∀ v z, to_int v = Some z ↔ v = VInt z;
  to_bool_spec : ∀ v b, to_bool v = Some b ↔ v = VBool b;
  to_seq_spec : ∀ v l, to_seq v = Some l ↔ v = VSeq l;
  to_array_spec : ∀ v l, to_array v = Some l ↔ v = VArray l;
  to_ctor_spec : ∀ v d c fs, to_ctor v = Some (d, c, fs) ↔ v = VCtor d c fs;
  (** Constants that are neither [Bool] nor [Int]. *)
  const_val : Constant → V;
  const_val_inj : ∀ c1 c2, const_val c1 = const_val c2 → c1 = c2;
  (** The program: functions, first-class functions, the fields of each variant. *)
  fun_val : Fun → Typs → list V → option V;
  internal_val : InternalFun → Typs → list V → option V;
  lambda_val : VarBinders Typ → Exp → gmap VarIdent V → V;
  app : V → list V → option V;
  field_names : Dt → Ident → list Ident;
  static_val : Fun → option V;
  exec_fn_val : Fun → option V;
  var_loc_val : VarIdent → option V;
  var_at_val : VarIdent → option V;
  old_val : Ident → VarIdent → option V;
  fuel_val : N → option V;
  (** The machine, and operations outside their domain. *)
  word_bits : N;
  clip_other : IntRange → Z → Z;
  div_by_zero : Z → Z;
  mod_by_zero : Z → Z;
  index_other : list V → Z → option V;
  nullary_other : NullaryOpr → option V;
  unary_other : UnaryOp → Typ → V → option V;
  unary_opr_other : UnaryOpr → V → option V;
  has_type_val : Typ → V → option V;
  binary_other : BinaryOp → V → V → option V;
  quant_val : Quant → VarBinders Typ → (list V → option bool) → option V;
  choose_val : VarBinders Typ → (list V → option bool) → (list V → option V) → option V
}.

(** Types without decorations, impl paths and resolved functions. *)
Fixpoint core_typ (t : Typ) : Typ :=
  match t with
  | TypX_SpecFn ts t => TypX_SpecFn (map core_typ ts) (core_typ t)
  | TypX_AnonymousClosure ts t k i => TypX_AnonymousClosure (map core_typ ts) (core_typ t) k i
  | TypX_FnDef f ts _ => TypX_FnDef f (map core_typ ts) None
  | TypX_Datatype d ts _ => TypX_Datatype d (map core_typ ts) []
  | TypX_Dyn d ts _ => TypX_Dyn d (map core_typ ts) []
  | TypX_Opaque d ts => TypX_Opaque d (map core_typ ts)
  | TypX_Primitive p ts => TypX_Primitive p (map core_typ ts)
  | TypX_Decorate _ _ t => core_typ t
  | TypX_Boxed t => TypX_Boxed (core_typ t)
  | TypX_Projection ts p n => TypX_Projection (map core_typ ts) p n
  | TypX_PointeeMetadata t => TypX_PointeeMetadata (core_typ t)
  | TypX_MutRef t => TypX_MutRef (core_typ t)
  | _ => t
  end.

(** ** Free variables *)

Definition typ_param_var (x : Ident) : VarIdent := (x, VarIdentDisambiguate_TypParamBare).

Definition binder_names {A} (bs : VarBinders A) : list VarIdent := map vname bs.

Definition fvs_with (fv : Exp → gset VarIdent) (es : list Exp) : gset VarIdent := ⋃ map fv es.

Fixpoint fv (e : Exp) : gset VarIdent :=
  let 'mkExp _ _ y := e in
  match y with
  | ExpX_Var x => {[x]}
  | ExpX_NullaryOpr (NullaryOpr_ConstGeneric (TypX_TypParam x)) => {[typ_param_var x]}
  | ExpX_Loc e | ExpX_Unary _ e | ExpX_UnaryOpr _ e | ExpX_WithTriggers _ e => fv e
  | ExpX_Call _ _ es | ExpX_ArrayLiteral es => ⋃ map fv es
  | ExpX_CallLambda e es => fv e ∪ ⋃ map fv es
  | ExpX_Ctor _ _ bs => ⋃ map (λ b, let 'Ast.mkBinder _ a := b in fv a) bs
  | ExpX_Binary _ e1 e2 | ExpX_BinaryOpr _ e1 e2 => fv e1 ∪ fv e2
  | ExpX_If e1 e2 e3 => fv e1 ∪ fv e2 ∪ fv e3
  | ExpX_Bind _ b e =>
    match b with
    | BndX_Let bs => ⋃ map (λ b, let 'mkVarBinder _ a := b in fv a) bs ∪ (fv e ∖ list_to_set (binder_names bs))
    | BndX_Quant _ bs _ _ | BndX_Lambda bs _ => fv e ∖ list_to_set (binder_names bs)
    | BndX_Choose bs _ c => (fv c ∪ fv e) ∖ list_to_set (binder_names bs)
    end
  | _ => ∅
  end.

(** ** Integers *)

Definition in_bits (n : N) (z : Z) : bool := ((0 <=? z) && (z <? 2 ^ Z.of_N n))%Z.
Definition in_signed_bits (n : N) (z : Z) : bool :=
  ((- 2 ^ (Z.of_N n - 1) <=? z) && (z <? 2 ^ (Z.of_N n - 1)))%Z.
Definition in_range (word_bits : N) (r : IntRange) (z : Z) : bool :=
  match r with
  | IntRange_Int => true
  | IntRange_Nat => (0 <=? z)%Z
  | IntRange_U n => in_bits n z
  | IntRange_I n => in_signed_bits n z
  | IntRange_USize => in_bits word_bits z
  | IntRange_ISize => in_signed_bits word_bits z
  | IntRange_Char => valid_unicode_scalar_bigint z
  end.

(** The low [n] bits of [z], and those read as a signed number. *)
Definition low_bits (n : N) (z : Z) : Z := (z mod 2 ^ Z.of_N n)%Z.
Definition signed_low_bits (n : N) (z : Z) : Z :=
  ((z + 2 ^ (Z.of_N n - 1)) mod 2 ^ Z.of_N n - 2 ^ (Z.of_N n - 1))%Z.

Definition bits_of (word_bits : N) (w : IntegerTypeBitwidth) : N :=
  match w with IntegerTypeBitwidth_Width n => n | IntegerTypeBitwidth_ArchWordSize => word_bits end.

Definition inequality (op : InequalityOp) (i j : Z) : bool :=
  match op with
  | InequalityOp_Le => (i <=? j)%Z
  | InequalityOp_Ge => (j <=? i)%Z
  | InequalityOp_Lt => (i <? j)%Z
  | InequalityOp_Gt => (j <? i)%Z
  end.

(** Euclidean division: the remainder is not negative. *)
Definition euclid_mod (i j : Z) : Z := (i mod Z.abs j)%Z.
Definition euclid_div (i j : Z) : Z := ((i - i mod Z.abs j) / j)%Z.

Section den.
Context `{M : SstModel}.

Definition restrict (xs : gset VarIdent) (ρ : gmap VarIdent V) : gmap VarIdent V :=
  filter (λ p, p.1 ∈ xs) ρ.
Definition bind_env {A} (bs : VarBinders A) (vs : list V) (ρ : gmap VarIdent V) : gmap VarIdent V :=
  list_to_map (zip (binder_names bs) vs) ∪ ρ.

Definition resolve_fun (f : Fun) (resolved : option (Fun * Typs)) (typs : Typs) : Fun * Typs :=
  match resolved with None => (f, typs) | Some p => p end.

Definition arith (op : ArithOp) (i j : Z) : Z :=
  match op with
  | ArithOp_Add => (i + j)%Z
  | ArithOp_Sub => (i - j)%Z
  | ArithOp_Mul => (i * j)%Z
  | ArithOp_EuclideanDiv => if (j =? 0)%Z then div_by_zero i else euclid_div i j
  | ArithOp_EuclideanMod => if (j =? 0)%Z then mod_by_zero i else euclid_mod i j
  end.

(** Shifts by a negative amount have no meaning, nor shifts of numbers that no
    integer type of Rust holds. *)
Definition bitwise (op : BitwiseOp) (i j : Z) : option Z :=
  match op with
  | BitwiseOp_BitXor => Some (Z.lxor i j)
  | BitwiseOp_BitAnd => Some (Z.land i j)
  | BitwiseOp_BitOr => Some (Z.lor i j)
  | BitwiseOp_Shr => if in_bits 128 j then Some (Z.shiftr i j) else None
  | BitwiseOp_Shl w signed =>
    let n := bits_of word_bits w in
    if in_bits 128 j then
      if signed then if in_signed_bits 128 i then Some (signed_low_bits n (Z.shiftl i j)) else None
      else if in_bits 128 i then Some (low_bits n (Z.shiftl i j)) else None
    else None
  end.

Definition unary (op : UnaryOp) (t : Typ) (v : V) : option V :=
  match op, to_bool v, to_int v with
  | UnaryOp_Not, Some b, _ => Some (VBool (negb b))
  | UnaryOp_Not, None, _ => None
  | UnaryOp_BitNot None, _, Some i => Some (VInt (Z.lnot i))
  | UnaryOp_BitNot (Some w), _, Some i => Some (VInt (low_bits (bits_of word_bits w) (Z.lnot i)))
  | UnaryOp_Clip r _, _, Some i => Some (VInt (if in_range word_bits r i then i else clip_other r i))
  | UnaryOp_CastToInteger, _, Some i => Some (VInt i)
  | _, _, _ => unary_other op (core_typ t) v
  end.

(** The largest and the smallest number of [i] bits. *)
Definition type_bound (kind : IntegerTypeBoundKind) (i : Z) : option V :=
  match kind with
  | IntegerTypeBoundKind_ArchWordBits => Some (VInt (Z.of_N word_bits))
  | _ =>
    if (0 <? i)%Z then
      match kind with
      | IntegerTypeBoundKind_UnsignedMax => Some (VInt (2 ^ i - 1))
      | IntegerTypeBoundKind_SignedMax => Some (VInt (2 ^ (i - 1) - 1))
      | _ => Some (VInt (- 2 ^ (i - 1)))
      end%Z
    else None
  end.

Definition find_field (name : Ident) (fs : list (Ident * V)) : option V :=
  snd <$> find (λ p, String.eqb p.1 name) fs.

Definition unary_opr (op : UnaryOpr) (v : V) : option V :=
  match op with
  | UnaryOpr_HasType t => has_type_val (core_typ t) v
  | UnaryOpr_IsVariant d c =>
    match to_ctor v with
    | Some (d', c', _) => Some (VBool (bool_decide (d' = d) && bool_decide (c' = c)))
    | None => unary_opr_other op v
    end
  | UnaryOpr_Field f =>
    match to_ctor v with
    | Some (_, c, fs) =>
      if bool_decide (c = variant f) then find_field (field f) fs else unary_opr_other op v
    | None => unary_opr_other op v
    end
  | UnaryOpr_IntegerTypeBound kind => i ← to_int v; type_bound kind i
  | UnaryOpr_CustomErr _ | UnaryOpr_AutoDecreases | UnaryOpr_AutoLoopEnsures | UnaryOpr_ProofNote _
  | UnaryOpr_LoopIsolationBoundary _ => Some v
  | _ => unary_opr_other op v
  end.

Definition bool2 (f : bool → bool → bool) (v1 v2 : V) : option V :=
  a ← to_bool v1; b ← to_bool v2; Some (VBool (f a b)).

Definition binary (op : BinaryOp) (v1 v2 : V) : option V :=
  match op with
  | BinaryOp_And => bool2 andb v1 v2
  | BinaryOp_Or => bool2 orb v1 v2
  | BinaryOp_Xor => bool2 xorb v1 v2
  | BinaryOp_Implies => bool2 implb v1 v2
  | BinaryOp_Eq => Some (VBool (bool_decide (v1 = v2)))
  | BinaryOp_Ne => Some (VBool (negb (bool_decide (v1 = v2))))
  | BinaryOp_Inequality op => i ← to_int v1; j ← to_int v2; Some (VBool (inequality op i j))
  | BinaryOp_Arith op => i ← to_int v1; j ← to_int v2; Some (VInt (arith op i j))
  | BinaryOp_Bitwise op => i ← to_int v1; j ← to_int v2; VInt <$> bitwise op i j
  | BinaryOp_Index ArrayKind_Array =>
    l ← to_array v1; i ← to_int v2;
    if (0 <=? i)%Z then match l !! Z.to_nat i with Some v => Some v | None => index_other l i end
    else index_other l i
  | _ => binary_other op v1 v2
  end.

(** A const generic argument is a value of its declared type. *)
Definition const_generic (declared t : Typ) (ρ : gmap VarIdent V) : option V :=
  match t with
  | TypX_ConstInt i =>
    match int_range_from_type declared with
    | Some r => Some (VInt (if in_range word_bits r i then i else clip_other r i))
    | None => nullary_other (NullaryOpr_ConstGeneric t)
    end
  | TypX_ConstBool b => Some (VBool b)
  | TypX_TypParam x => ρ !! typ_param_var x
  | _ => nullary_other (NullaryOpr_ConstGeneric t)
  end.

Definition const (c : Constant) : V :=
  match c with Constant_Bool b => VBool b | Constant_Int i => VInt i | _ => const_val c end.

(** Fields in the order of their names. *)
Fixpoint insert_field {A} (f : Ident * A) (fs : list (Ident * A)) : list (Ident * A) :=
  match fs with
  | [] => [f]
  | g :: fs' => if String.leb f.1 g.1 then f :: fs else g :: insert_field f fs'
  end.
Definition sort_fields {A} (fs : list (Ident * A)) : list (Ident * A) := foldr insert_field [] fs.

Definition ctor_val (d : Dt) (c : Ident) (fs : list (Ident * V)) : option V :=
  let fs := sort_fields fs in
  if decide (map fst fs = field_names d c) then Some (VCtor d c fs) else None.

Fixpoint den (φ : gmap VarIdent V) (e : Exp) (ρ : gmap VarIdent V) : option V :=
  let 'mkExp _ t y := e in
  match y with
  | ExpX_Const c => Some (const c)
  | ExpX_Var x => ρ !! x
  | ExpX_StaticVar f => static_val f
  | ExpX_VarLoc x => var_loc_val x
  | ExpX_VarAt x _ => var_at_val x
  | ExpX_Loc e => den φ e ρ
  | ExpX_Old s x => old_val s x
  | ExpX_Call f typs args =>
    vs ← mapM (λ e, den φ e ρ) args;
    match f with
    | CallFun_Fun f resolved => let '(f, typs) := resolve_fun f resolved typs in fun_val f (map erase_typ typs) vs
    | CallFun_Recursive f => None
    | CallFun_InternalFun f => internal_val f (map erase_typ typs) vs
    end
  | ExpX_CallLambda e args => v ← den φ e ρ; vs ← mapM (λ e, den φ e ρ) args; app v vs
  | ExpX_Ctor d c bs => fs ← mapM (λ b, let 'Ast.mkBinder n a := b in pair n <$> den φ a ρ) bs; ctor_val d c fs
  | ExpX_NullaryOpr op =>
    match op with NullaryOpr_ConstGeneric t' => const_generic t t' ρ | _ => nullary_other op end
  | ExpX_Unary op e => v ← den φ e ρ; unary op t v
  | ExpX_UnaryOpr op e => v ← den φ e ρ; unary_opr op v
  | ExpX_Binary op e1 e2 => v1 ← den φ e1 ρ; v2 ← den φ e2 ρ; binary op v1 v2
  | ExpX_BinaryOpr (BinaryOpr_ExtEq _ _) e1 e2 =>
    v1 ← den φ e1 ρ; v2 ← den φ e2 ρ; Some (VBool (bool_decide (v1 = v2)))
  | ExpX_If e1 e2 e3 => v ← den φ e1 ρ; b ← to_bool v; if (b : bool) then den φ e2 ρ else den φ e3 ρ
  | ExpX_WithTriggers _ e => den φ e ρ
  | ExpX_Bind _ b e1 =>
    match b with
    | BndX_Let bs =>
      vs ← mapM (λ b, let 'mkVarBinder _ a := b in den φ a ρ) bs; den φ e1 (bind_env bs vs ρ)
    | BndX_Quant q bs _ _ => quant_val q bs (λ vs, v ← den φ e1 (bind_env bs vs ρ); to_bool v)
    | BndX_Lambda bs _ =>
      if decide (fv e ⊆ dom ρ) then Some (lambda_val bs e1 (restrict (fv e) ρ)) else None
    | BndX_Choose bs _ c =>
      choose_val bs (λ vs, v ← den φ c (bind_env bs vs ρ); to_bool v) (λ vs, den φ e1 (bind_env bs vs ρ))
    end
  | ExpX_ExecFnByName f => exec_fn_val f
  | ExpX_ArrayLiteral es => VArray <$> mapM (λ e, den φ e ρ) es
  | ExpX_Interp i =>
    match i with
    | InterpExp_FreeVar x => φ !! x
    | InterpExp_Seq v => VSeq <$> mapM (λ e, den φ e φ) v
    | InterpExp_Closure e ctx =>
      c ← mapM (λ p, let '(k, a) := p in pair k <$> den φ a φ) ctx; den φ e (list_to_map c ∪ φ)
    | InterpExp_Array v => VArray <$> mapM (λ e, den φ e φ) v
    end
  | ExpX_FuelConst n => fuel_val n
  end.
End den.

(** ** Injectivity of the values *)

Section values.
Context `{M : SstModel}.
Lemma VInt_inj i j : VInt i = VInt j → i = j.
Proof. intros H. pose proof (proj2 (to_int_spec (VInt j) i) (eq_sym H)) as E. by rewrite (proj2 (to_int_spec _ j) eq_refl) in E; injection E. Qed.
Lemma VBool_inj a b : VBool a = VBool b → a = b.
Proof. intros H. pose proof (proj2 (to_bool_spec (VBool b) a) (eq_sym H)) as E. by rewrite (proj2 (to_bool_spec _ b) eq_refl) in E; injection E. Qed.
Lemma VSeq_inj l l' : VSeq l = VSeq l' → l = l'.
Proof. intros H. pose proof (proj2 (to_seq_spec (VSeq l') l) (eq_sym H)) as E. by rewrite (proj2 (to_seq_spec _ l') eq_refl) in E; injection E. Qed.
Lemma VArray_inj l l' : VArray l = VArray l' → l = l'.
Proof. intros H. pose proof (proj2 (to_array_spec (VArray l') l) (eq_sym H)) as E. by rewrite (proj2 (to_array_spec _ l') eq_refl) in E; injection E. Qed.
Lemma VCtor_inj d c fs d' c' fs' : VCtor d c fs = VCtor d' c' fs' → d = d' ∧ c = c' ∧ fs = fs'.
Proof. intros H. pose proof (proj2 (to_ctor_spec (VCtor d' c' fs') d c fs) (eq_sym H)) as E. by rewrite (proj2 (to_ctor_spec _ d' c' fs') eq_refl) in E; injection E. Qed.
Lemma to_int_VInt i : to_int (VInt i) = Some i. Proof. by apply to_int_spec. Qed.
Lemma to_bool_VBool b : to_bool (VBool b) = Some b. Proof. by apply to_bool_spec. Qed.
Lemma to_array_VArray l : to_array (VArray l) = Some l. Proof. by apply to_array_spec. Qed.
Lemma to_ctor_VCtor d c fs : to_ctor (VCtor d c fs) = Some (d, c, fs). Proof. by apply to_ctor_spec. Qed.
End values.
