(* ===== verification/SstUtil.v ===== *)
(** * Visiting SST expressions (source/vir/src/sst_visitor.rs, visitor.rs)

    [visit_exp_rec] is the method of the trait [Visitor], for [Rewrite]: a visitor gives
    the methods [visit_typ] and [visit_exp] and, when it tracks the bound variables, a
    scoper.  A visitor for [Walk] visits the same parts in the same order and drops what
    they return.  Statements are not modelled. *)

From S2P Require Import Prelude VirMessages VirAst VirAstUtil Sst StateRes.
From S2P Require Ast ScopeMap.
Set Warnings "-rewrite-rw,-register-all,-clear-no-such-hyp".
Local Open Scope st_scope.

(** Membership in a list given by its parts. *)
Ltac mem :=
  repeat match goal with H : _ ∈ _ |- _ => apply list_elem_of_In in H end;
  apply list_elem_of_In; cbn [In]; rewrite ?in_app_iff; cbn [In]; tauto.

Inductive BndKind := BndKind_Let | BndKind_Quant | BndKind_Lambda | BndKind_Choose | BndKind_OuterTrigger.
(** [ScopeEntry { bnd_kind }] *)
Definition VisitorScopeMap := ScopeMap.ScopeMap VarIdent BndKind.

(** The trait [Scoper], on the state of a visitor. *)
Record Scoper (S : Type) := mkScoper {
  sc_push : S → S;
  sc_pop : S → option S;
  sc_insert : VarIdent → BndKind → S → option S
}.
Arguments sc_push {S}.
Arguments sc_pop {S}.
Arguments sc_insert {S}.

Definition no_scoper {S} : Scoper S := mkScoper S id Some (λ _ _, Some).

(** [impl Scoper for VisitorScopeMap]; [insert] fails without effect on the scoping for
    a name bound twice, and panics without a scope. *)
Definition map_scoper : Scoper VisitorScopeMap := mkScoper VisitorScopeMap
  (λ m, ScopeMap.push_scope m true)
  (λ m, match ScopeMap.pop_scope (E := Empty_set) m with Ok m => Some m | _ => None end)
  (λ x k m, match ScopeMap.insert_sm m x k with Ok (_, m) => Some m | _ => None end).

Section visitor.
Context {S E : Type} (visit_typ : Typ → st S E Typ) (visit_exp : Exp → st S E Exp) (scoper : Scoper S).

Definition v_push : st S E unit := smodify (sc_push scoper).
Definition v_pop : st S E unit := λ s, match sc_pop scoper s with Some s => Ok (tt, s) | None => Panic end.
Definition v_insert (k : BndKind) (x : VarIdent) : st S E unit :=
  λ s, match sc_insert scoper x k s with Some s => Ok (tt, s) | None => Panic end.

Definition visit_typs (ts : Typs) : st S E Typs := smap visit_typ ts.
Definition visit_exps (es : list Exp) : st S E (list Exp) := smap visit_exp es.
Definition visit_triggers (ts : list (list Exp)) : st S E (list (list Exp)) := smap (λ t, smap visit_exp t) ts.
Definition visit_var_binders_typ (bs : VarBinders Typ) : st S E (VarBinders Typ) :=
  smap (λ b, let 'mkVarBinder n t := b in let! t := visit_typ t in sret (mkVarBinder n t)) bs.
Definition enter_binders {A} (k : BndKind) (bs : VarBinders A) : st S E unit :=
  v_push;! siter (v_insert k) (map vname bs).

Definition visit_call_fun (f : CallFun) : st S E CallFun :=
  match f with
  | CallFun_Fun f (Some (r, ts)) => let! ts := visit_typs ts in sret (CallFun_Fun f (Some (r, ts)))
  | _ => sret f
  end.

Definition visit_nullary (op : NullaryOpr) : st S E NullaryOpr :=
  match op with
  | NullaryOpr_ConstGeneric t => let! t := visit_typ t in sret (NullaryOpr_ConstGeneric t)
  | NullaryOpr_TraitBound p ts => let! ts := visit_typs ts in sret (NullaryOpr_TraitBound p ts)
  | NullaryOpr_TypEqualityBound p ts x t =>
    let! ts := visit_typs ts in let! t := visit_typ t in sret (NullaryOpr_TypEqualityBound p ts x t)
  | NullaryOpr_ConstTypBound t1 t2 =>
    let! t1 := visit_typ t1 in let! t2 := visit_typ t2 in sret (NullaryOpr_ConstTypBound t1 t2)
  end.

Definition visit_unary_opr (op : UnaryOpr) : st S E UnaryOpr :=
  match op with
  | UnaryOpr_Box t => let! t := visit_typ t in sret (UnaryOpr_Box t)
  | UnaryOpr_Unbox t => let! t := visit_typ t in sret (UnaryOpr_Unbox t)
  | UnaryOpr_HasType t => let! t := visit_typ t in sret (UnaryOpr_HasType t)
  | UnaryOpr_HasResolved t => let! t := visit_typ t in sret (UnaryOpr_HasResolved t)
  | UnaryOpr_ToDyn t i => let! t := visit_typ t in sret (UnaryOpr_ToDyn t i)
  | _ => sret op
  end.

Definition visit_bnd (bnd : BndX Exp) : st S E (BndX Exp) :=
  match bnd with
  | BndX_Let bs =>
    let! bs := smap (λ b, let 'mkVarBinder n e := b in let! e := visit_exp e in sret (mkVarBinder n e)) bs in
    enter_binders BndKind_Let bs;! sret (BndX_Let bs)
  | BndX_Quant q bs ts ab =>
    let! bs := visit_var_binders_typ bs in
    enter_binders BndKind_Quant bs;!
    let! ts := visit_triggers ts in sret (BndX_Quant q bs ts ab)
  | BndX_Lambda bs ts =>
    let! bs := visit_var_binders_typ bs in
    enter_binders BndKind_Lambda bs;!
    let! ts := visit_triggers ts in sret (BndX_Lambda bs ts)
  | BndX_Choose bs ts cond =>
    let! bs := visit_var_binders_typ bs in
    enter_binders BndKind_Choose bs;!
    let! ts := visit_triggers ts in
    let! cond := visit_exp cond in sret (BndX_Choose bs ts cond)
  end.

(** The expressions directly below; [Interp] has none for a visitor. *)
Definition visit_expx (x : ExpX) : st S E ExpX :=
  match x with
  | ExpX_Const _ | ExpX_Var _ | ExpX_VarAt _ _ | ExpX_VarLoc _ | ExpX_StaticVar _ | ExpX_ExecFnByName _
  | ExpX_FuelConst _ | ExpX_Old _ _ | ExpX_Interp _ => sret x
  | ExpX_Loc e => let! e := visit_exp e in sret (ExpX_Loc e)
  | ExpX_Call f ts es =>
    let! f := visit_call_fun f in
    let! ts := visit_typs ts in
    let! es := visit_exps es in sret (ExpX_Call f ts es)
  | ExpX_CallLambda e es =>
    let! e := visit_exp e in
    let! es := visit_exps es in sret (ExpX_CallLambda e es)
  | ExpX_Ctor d c bs =>
    let! bs := smap (λ b, let 'Ast.mkBinder n e := b in
                          let! e := visit_exp e in sret (Ast.mkBinder n e)) bs in
    sret (ExpX_Ctor d c bs)
  | ExpX_NullaryOpr op => let! op := visit_nullary op in sret (ExpX_NullaryOpr op)
  | ExpX_Unary op e => let! e := visit_exp e in sret (ExpX_Unary op e)
  | ExpX_UnaryOpr op e =>
    let! e := visit_exp e in
    let! op := visit_unary_opr op in sret (ExpX_UnaryOpr op e)
  | ExpX_Binary op e1 e2 =>
    let! e1 := visit_exp e1 in
    let! e2 := visit_exp e2 in sret (ExpX_Binary op e1 e2)
  | ExpX_BinaryOpr (BinaryOpr_ExtEq deep t) e1 e2 =>
    let! t := visit_typ t in
    let! e1 := visit_exp e1 in
    let! e2 := visit_exp e2 in sret (ExpX_BinaryOpr (BinaryOpr_ExtEq deep t) e1 e2)
  | ExpX_If e1 e2 e3 =>
    let! e1 := visit_exp e1 in
    let! e2 := visit_exp e2 in
    let! e3 := visit_exp e3 in sret (ExpX_If e1 e2 e3)
  | ExpX_WithTriggers ts e =>
    let! ts := visit_triggers ts in
    let! e := visit_exp e in sret (ExpX_WithTriggers ts e)
  | ExpX_Bind sp bnd e =>
    let! bnd := visit_bnd bnd in
    let! e := visit_exp e in
    v_pop;! sret (ExpX_Bind sp bnd e)
  | ExpX_ArrayLiteral es => let! es := visit_exps es in sret (ExpX_ArrayLiteral es)
  end.

Definition visit_exp_rec (exp : Exp) : st S E Exp :=
  let 'mkExp sp t x := exp in
  let! t := visit_typ t in
  let! x := visit_expx x in
  sret (mkExp sp t x).
End visitor.

Inductive VisitorControlFlow (T : Type) :=
| VisitorControlFlow_Recurse | VisitorControlFlow_Return | VisitorControlFlow_Stop (val : T).
Arguments VisitorControlFlow_Recurse {T}.
Arguments VisitorControlFlow_Return {T}.
Arguments VisitorControlFlow_Stop {T} val.

(** [map_shallow_exp]: the types and expressions directly below. *)
Definition map_shallow_exp {S E} (exp : Exp) (ft : Typ → st S E Typ) (fe : Exp → st S E Exp) : st S E Exp :=
  visit_exp_rec ft fe no_scoper exp.

(** [exp_visitor_dfs], whose error is the value it stops with; the closure [f] also has
    a state of its own.  [visit_exp] is a walk: the expression returned is the one given. *)
Section dfs.
Context {S T : Type} (f : Exp → VisitorScopeMap → st S T (VisitorControlFlow T)).

Definition dfs_scoper : Scoper (VisitorScopeMap * S) := mkScoper (VisitorScopeMap * S)
  (λ s, (sc_push map_scoper s.1, s.2))
  (λ s, (λ m, (m, s.2)) <$> sc_pop map_scoper s.1)
  (λ x k s, (λ m, (m, s.2)) <$> sc_insert map_scoper x k s.1).

Fixpoint dfs_visit_exp (exp : Exp) : st (VisitorScopeMap * S) T Exp :=
  let! m := sread fst in
  let! c := on_part snd (λ t s, (s.1, t)) (f exp m) in
  match c with
  | VisitorControlFlow_Stop val => serr val
  | VisitorControlFlow_Return => sret exp
  | VisitorControlFlow_Recurse => visit_exp_rec sret dfs_visit_exp dfs_scoper exp
  end.
End dfs.

(** ** What a visitor rebuilds

    [rebuilt R x x']: [x'] is [x] with the expressions that are visited replaced by
    related ones.  The types are the same. *)
Section rebuilt.
Variable R : Exp → Exp → Prop.
Definition rebuilt_binder (b b' : Ast.BinderX Exp) : Prop := Ast.bname b = Ast.bname b' ∧ R (Ast.ba b) (Ast.ba b').
Definition rebuilt_var_binder (b b' : VarBinderX Exp) : Prop := vname b = vname b' ∧ R (va b) (va b').
Definition rebuilt_trigs : list (list Exp) → list (list Exp) → Prop := Forall2 (Forall2 R).

Inductive rebuilt_bnd : BndX Exp → BndX Exp → Prop :=
| rebuilt_Let bs bs' : Forall2 rebuilt_var_binder bs bs' → rebuilt_bnd (BndX_Let bs) (BndX_Let bs')
| rebuilt_Quant q bs ts ts' l : rebuilt_trigs ts ts' → rebuilt_bnd (BndX_Quant q bs ts l) (BndX_Quant q bs ts' l)
| rebuilt_Lambda bs ts ts' : rebuilt_trigs ts ts' → rebuilt_bnd (BndX_Lambda bs ts) (BndX_Lambda bs ts')
| rebuilt_Choose bs ts ts' c c' : rebuilt_trigs ts ts' → R c c' →
  rebuilt_bnd (BndX_Choose bs ts c) (BndX_Choose bs ts' c').

Inductive rebuilt : ExpX → ExpX → Prop :=
| rebuilt_leaf x :
  match x with
  | ExpX_Const _ | ExpX_Var _ | ExpX_VarAt _ _ | ExpX_VarLoc _ | ExpX_StaticVar _ | ExpX_ExecFnByName _
  | ExpX_FuelConst _ | ExpX_Old _ _ | ExpX_Interp _ | ExpX_NullaryOpr _ => True
  | _ => False
  end → rebuilt x x
| rebuilt_Loc e e' : R e e' → rebuilt (ExpX_Loc e) (ExpX_Loc e')
| rebuilt_Call f ts es es' : Forall2 R es es' → rebuilt (ExpX_Call f ts es) (ExpX_Call f ts es')
| rebuilt_CallLambda e e' es es' : R e e' → Forall2 R es es' →
  rebuilt (ExpX_CallLambda e es) (ExpX_CallLambda e' es')
| rebuilt_Ctor d c bs bs' : Forall2 rebuilt_binder bs bs' → rebuilt (ExpX_Ctor d c bs) (ExpX_Ctor d c bs')
| rebuilt_Unary op e e' : R e e' → rebuilt (ExpX_Unary op e) (ExpX_Unary op e')
| rebuilt_UnaryOpr op e e' : R e e' → rebuilt (ExpX_UnaryOpr op e) (ExpX_UnaryOpr op e')
| rebuilt_Binary op e1 e1' e2 e2' : R e1 e1' → R e2 e2' → rebuilt (ExpX_Binary op e1 e2) (ExpX_Binary op e1' e2')
| rebuilt_BinaryOpr op e1 e1' e2 e2' : R e1 e1' → R e2 e2' →
  rebuilt (ExpX_BinaryOpr op e1 e2) (ExpX_BinaryOpr op e1' e2')
| rebuilt_If e1 e1' e2 e2' e3 e3' : R e1 e1' → R e2 e2' → R e3 e3' → rebuilt (ExpX_If e1 e2 e3) (ExpX_If e1' e2' e3')
| rebuilt_WithTriggers ts ts' e e' : rebuilt_trigs ts ts' → R e e' →
  rebuilt (ExpX_WithTriggers ts e) (ExpX_WithTriggers ts' e')
| rebuilt_Bind sp b b' e e' : rebuilt_bnd b b' → R e e' → rebuilt (ExpX_Bind sp b e) (ExpX_Bind sp b' e')
| rebuilt_ArrayLiteral es es' : Forall2 R es es' → rebuilt (ExpX_ArrayLiteral es) (ExpX_ArrayLiteral es').

Definition rebuilt_exp (e e' : Exp) : Prop :=
  exp_span e = exp_span e' ∧ exp_typ e = exp_typ e' ∧ rebuilt (exp_x e) (exp_x e').
End rebuilt.

(** The expressions that a visitor visits directly. *)
Definition visited (x : ExpX) : list Exp := match x with ExpX_Interp _ => [] | _ => children x end.

(** A visitor that leaves types as they are rebuilds expressions without binders, for every
    property [G P m] of computations, "[m] returns something that satisfies [P]", that is
    closed under [sret] and [sbind]. *)
Section visit_spec.
Context {S E : Type} (G : ∀ A, (A → Prop) → st S E A → Prop).
Hypothesis G_ret : ∀ A (P : A → Prop) x, P x → G A P (sret x).
Hypothesis G_bind : ∀ A B (P : A → Prop) (Q : B → Prop) m k, G A P m → (∀ x, P x → G B Q (k x)) → G B Q (sbind m k).
Hypothesis G_mono : ∀ A (P Q : A → Prop) m, G A P m → (∀ x, P x → Q x) → G A Q m.
Context (visit_typ : Typ → st S E Typ) (visit_exp : Exp → st S E Exp) (R : Exp → Exp → Prop).
Hypothesis G_typ : ∀ t, G _ (eq t) (visit_typ t).

Lemma spec_smap {A B} (Q : A → B → Prop) (f : A → st S E B) l :
  (∀ x, x ∈ l → G _ (Q x) (f x)) → G _ (Forall2 Q l) (smap f l).
Proof using G_ret G_bind.
  induction l as [|x l IH]; intros Hf; cbn [smap]; [apply G_ret; constructor|].
  eapply G_bind; [apply Hf; left|]. intros y Hy. eapply G_bind; [apply IH; intros z Hz; apply Hf; by right|].
  intros ys Hys. apply G_ret. by constructor.
Qed.
Lemma spec_same {A} (f : A → st S E A) l : (∀ x, x ∈ l → G _ (eq x) (f x)) → G _ (eq l) (smap f l).
Proof using G_ret G_bind G_mono.
  intros H. eapply G_mono; [by apply spec_smap|]. intros ys Hys. clear H.
  induction Hys as [|x y l ys -> _ IH]; [done|by rewrite IH].
Qed.
Lemma spec_typs ts : G _ (eq ts) (visit_typs visit_typ ts).
Proof using G_ret G_bind G_mono G_typ. by apply spec_same. Qed.
Lemma spec_triggers ts : (∀ e, e ∈ concat ts → G _ (R e) (visit_exp e)) →
  G _ (rebuilt_trigs R ts) (visit_triggers visit_exp ts).
Proof using G_ret G_bind.
  intros H. apply spec_smap. intros t Ht. apply spec_smap. intros e He. apply H.
  apply list_elem_of_In, in_concat. eexists. split; by apply list_elem_of_In.
Qed.
Lemma spec_var_binders bs : G _ (eq bs) (visit_var_binders_typ visit_typ bs).
Proof using G_ret G_bind G_mono G_typ.
  apply spec_same. intros [n t] _. eapply G_bind; [apply G_typ|]. intros t' <-. by apply G_ret.
Qed.
Lemma spec_call_fun f : G _ (eq f) (visit_call_fun visit_typ f).
Proof using G_ret G_bind G_mono G_typ.
  destruct f as [f [[r ts]|]| |]; try by apply G_ret. cbn. eapply G_bind; [apply spec_typs|].
  intros ts' <-. by apply G_ret.
Qed.
Lemma spec_nullary op : G _ (eq op) (visit_nullary visit_typ op).
Proof using G_ret G_bind G_mono G_typ.
  destruct op; cbn; repeat (eapply G_bind; [first [apply spec_typs|apply G_typ]|intros ? <-]); by apply G_ret.
Qed.
Lemma spec_unary_opr op : G _ (eq op) (visit_unary_opr visit_typ op).
Proof using G_ret G_bind G_typ.
  destruct op; cbn; repeat (eapply G_bind; [apply G_typ|intros ? <-]); by apply G_ret.
Qed.

Lemma spec_visit_expx scoper x : match x with ExpX_Bind _ _ _ => False | _ => True end →
  (∀ e', e' ∈ visited x → G _ (R e') (visit_exp e')) → G _ (rebuilt R x) (visit_expx visit_typ visit_exp scoper x).
Proof using G_ret G_bind G_mono G_typ.
  intros Hx H. destruct x; cbn [visited children visit_expx] in *; try done;
    try (apply G_ret; by constructor);
    try (eapply G_bind; [apply H; mem|]; intros e' He');
    try (by apply G_ret; constructor).
  - eapply G_bind; [apply spec_call_fun|]. intros f' <-. eapply G_bind; [apply spec_typs|].
    intros ts <-. eapply G_bind; [by apply spec_smap|]. intros es He. apply G_ret. by constructor.
  - eapply G_bind; [apply spec_smap; intros e1 He1; apply H; mem|]. intros es He. apply G_ret. by constructor.
  - eapply G_bind.
    { apply (spec_smap (rebuilt_binder R)). intros [n e] Hb. eapply G_bind.
      { apply H, list_elem_of_fmap. by eexists (Ast.mkBinder _ _). }
      intros e' He'. by apply G_ret. }
    intros bs' Hbs. by apply G_ret; constructor.
  - eapply G_bind; [apply spec_nullary|]. intros op' <-. by apply G_ret; constructor.
  - eapply G_bind; [apply spec_unary_opr|]. intros op' <-. by apply G_ret; constructor.
  - eapply G_bind; [apply H; mem|]. intros e3 He3. by apply G_ret; constructor.
  - destruct op. eapply G_bind; [apply G_typ|]. intros t' <-. eapply G_bind; [apply H; mem|]. intros e3 He3.
    eapply G_bind; [apply H; mem|]. intros e4 He4. by apply G_ret; constructor.
  - eapply G_bind; [apply H; mem|]. intros e4 He4. eapply G_bind; [apply H; mem|]. intros e5 He5.
    by apply G_ret; constructor.
  - eapply G_bind; [apply spec_triggers; intros e1 He1; apply H; mem|]. intros ts' Hts.
    eapply G_bind; [apply H; mem|]. intros e' He'. by apply G_ret; constructor.
  - eapply G_bind; [by apply spec_smap|]. intros es' Hes. by apply G_ret; constructor.
Qed.
End visit_spec.

Lemma rebuilt_mono (R Q : Exp → Exp → Prop) e e' : (∀ a b, R a b → Q a b) → rebuilt_exp R e e' → rebuilt_exp Q e e'.
Proof.
  intros HR (Hs & Ht & H). split; [done|]. split; [done|].
  assert (Hts : ∀ ts ts', rebuilt_trigs R ts ts' → rebuilt_trigs Q ts ts').
  { intros ts ts' Hr. eapply Forall2_impl; [exact Hr|]. intros t t' Hr'. by eapply Forall2_impl. }
  destruct H; constructor; auto; try (by eapply Forall2_impl).
  - eapply Forall2_impl; [exact H|]. intros b b' [? ?]. split; auto.
  - destruct H; constructor; auto. eapply Forall2_impl; [exact H|]. intros b b' [? ?]. split; auto.
Qed.

(** ** Free variables and substitution in SST expressions (source/vir/src/sst_util.rs)

    [free_vars_exp] and the capture-avoiding [subst_exp], whose three scoped maps are
    those of the code.  The search for a fresh name takes as fuel one more than the number
    of names it must avoid. *)

Definition sst_bool (span : Span) (b : bool) : Exp := mkExp span bool_typ (ExpX_Const (Constant_Bool b)).

(** ** Free variables *)

Definition free_vars_visit (allow_unfinalized : bool) (e : Exp) (scope_map : VisitorScopeMap)
    : st (gmap UniqueIdent Typ) unit (VisitorControlFlow unit) :=
  match exp_x e with
  | ExpX_Var x | ExpX_VarLoc x =>
    (if ScopeMap.contains_key scope_map x then sret tt else smodify (<[x := exp_typ e]>));!
    sret VisitorControlFlow_Recurse
  | ExpX_Unary UnaryOp_MustBeFinalized _ =>
    if allow_unfinalized then sret VisitorControlFlow_Recurse else spanic
  | _ => sret VisitorControlFlow_Recurse
  end.

(** The visitor returns no value to stop with. *)
Definition free_vars_exp_scope (exp : Exp) (vars : gmap UniqueIdent Typ) (allow_unfinalized : bool)
    : res fuel_error (gmap UniqueIdent Typ) :=
  match dfs_visit_exp (free_vars_visit allow_unfinalized) exp (ScopeMap.new, vars) with
  | Ok (_, (_, vars)) => Ok vars
  | _ => Panic
  end.

Definition free_vars_exp (exp : Exp) : res fuel_error (gmap UniqueIdent Typ) := free_vars_exp_scope exp ∅ false.

Fixpoint free_vars_from (exps : list Exp) (vars : gmap UniqueIdent Typ)
    : res fuel_error (gmap UniqueIdent Typ) :=
  match exps with
  | [] => Ok vars
  | exp :: exps => rbind (free_vars_exp_scope exp vars false) (free_vars_from exps)
  end.
Definition free_vars_exps (exps : list Exp) : res fuel_error (gmap UniqueIdent Typ) := free_vars_from exps ∅.

(** ** Substitution *)

Definition unique_bound (id : VarIdent) : VarIdent := id.
Definition subst_rename_ident (x : VarIdent) (n : N) : VarIdent := (x.1, VarIdentDisambiguate_VirSubst n).

Record SubstState := mkSubstState {
  substs : ScopeMap.ScopeMap UniqueIdent Exp;
  free_vars : ScopeMap.ScopeMap UniqueIdent unit;
  fresh_var_blacklist : ScopeMap.ScopeMap UniqueIdent unit
}.

(** [map.insert(..).expect(..)] *)
Definition insert_new {V} (m : ScopeMap.ScopeMap UniqueIdent V) (x : UniqueIdent) (v : V)
    : res fuel_error (ScopeMap.ScopeMap UniqueIdent V) :=
  match ScopeMap.insert_sm m x v with Ok (true, m) => Ok m | _ => Panic end.
(** [let _ = map.insert(..);] *)
Definition insert_any {V} (m : ScopeMap.ScopeMap UniqueIdent V) (x : UniqueIdent) (v : V)
    : res fuel_error (ScopeMap.ScopeMap UniqueIdent V) :=
  match ScopeMap.insert_sm m x v with Ok (_, m) => Ok m | _ => Panic end.
Definition pop {V} (m : ScopeMap.ScopeMap UniqueIdent V) : res fuel_error (ScopeMap.ScopeMap UniqueIdent V) :=
  ScopeMap.pop_scope m.

Section subst.
Variable typ_substs : gmap Ident Typ.
Variable allow_unfinalized : bool.
Local Abbreviation M := (st SubstState fuel_error).

(** The [loop] of [subst_rename_binders]. *)
Fixpoint fresh_name (fuel : nat) (blacklist : ScopeMap.ScopeMap UniqueIdent unit) (x : VarIdent) (n : N)
    : res fuel_error VarIdent :=
  match fuel with
  | O => Err OutOfFuel
  | S fuel =>
    let name := subst_rename_ident x n in
    if ScopeMap.contains_key blacklist (unique_bound name) then fresh_name fuel blacklist x (n + 1)
    else Ok name
  end.

Definition rename_binder {A} (span : Span) (fa : A → A) (f_typ : A → Typ) (b : VarBinderX A)
    : M (VarBinderX A) := λ s,
  let 'mkSubstState su fr bl := s in
  let unique := unique_bound (vname b) in
  if ScopeMap.contains_key fr unique then
    rbind (fresh_name (S (size (ScopeMap.map bl))) bl (vname b) 0) (λ name,
    let rename := unique_bound name in
    rbind (insert_new fr rename tt) (λ fr,
    rbind (insert_new bl rename tt) (λ bl,
    let var := mkExp span (f_typ (va b)) (ExpX_Var rename) in
    rbind (insert_new su unique var) (λ su,
    Ok (mkVarBinder name (fa (va b)), mkSubstState su fr bl)))))
  else
    rbind (insert_new bl unique tt) (λ bl,
    Ok (mkVarBinder (vname b) (fa (va b)), mkSubstState su fr bl)).

Definition subst_rename_binders {A} (span : Span) (bs : VarBinders A) (fa : A → A) (f_typ : A → Typ)
    : M (VarBinders A) :=
  smodify (λ s, mkSubstState (ScopeMap.push_scope (substs s) false)
                  (ScopeMap.push_scope (free_vars s) true)
                  (ScopeMap.push_scope (fresh_var_blacklist s) true));!
  smap (rename_binder span fa f_typ) bs.

Definition pop_scopes : M unit := λ s,
  rbind (pop (substs s)) (λ su,
  rbind (pop (free_vars s)) (λ fr,
  rbind (pop (fresh_var_blacklist s)) (λ bl, Ok (tt, mkSubstState su fr bl)))).

Section rec.
Variable subst_exp_rec : Exp → M Exp.

(** [ft] and the second closure [ft] of [subst_exp_rec]. *)
Definition ft (t : Typ) : Typ := subst_typ typ_substs t.
Definition ftrigs (triggers : Trigs) : M Trigs := smap (λ t, smap subst_exp_rec t) triggers.

Definition subst_bnd (span : Span) (bnd : BndX Exp) : M (BndX Exp) :=
  match bnd with
  | BndX_Let bs =>
    let! binders := smap (λ b, let 'mkVarBinder n e := b in
                               let! e := subst_exp_rec e in sret (mkVarBinder n e)) bs in
    let! binders := subst_rename_binders span binders id exp_typ in
    sret (BndX_Let binders)
  | BndX_Quant q bs ts ab =>
    let! binders := subst_rename_binders span bs ft ft in
    let! ts := ftrigs ts in sret (BndX_Quant q binders ts ab)
  | BndX_Lambda bs ts =>
    let! binders := subst_rename_binders span bs ft ft in
    let! ts := ftrigs ts in sret (BndX_Lambda binders ts)
  | BndX_Choose bs ts cond =>
    let! binders := subst_rename_binders span bs ft ft in
    let! cond := subst_exp_rec cond in
    let! ts := ftrigs ts in sret (BndX_Choose binders ts cond)
  end.
End rec.

Fixpoint subst_exp_rec (exp : Exp) : M Exp := λ s,
  let 'mkExp span t x := exp in
  if allow_unfinalized && negb (bool_decide (size (ScopeMap.map (substs s)) = 0)) then Panic
  else
    let typ := subst_typ typ_substs t in
    let mk_exp := mkExp span typ in
    match x with
    | ExpX_Var x =>
      if ScopeMap.contains_key (fresh_var_blacklist s) x then
        match ScopeMap.get (substs s) x with
        | None => Ok (mk_exp (ExpX_Var x), s)
        | Some e => Ok (e, s)
        end
      else Panic
    | ExpX_VarLoc x =>
      match ScopeMap.get (substs s) x with None => Ok (mk_exp (ExpX_VarLoc x), s) | Some _ => Panic end
    | ExpX_VarAt x a =>
      match ScopeMap.get (substs s) x with None => Ok (mk_exp (ExpX_VarAt x a), s) | Some _ => Panic end
    | ExpX_Bind bspan bnd e1 =>
      (let! bnd := subst_bnd subst_exp_rec bspan bnd in
       let! e1 := subst_exp_rec e1 in
       pop_scopes;! sret (mk_exp (ExpX_Bind bspan bnd e1))) s
    | ExpX_ArrayLiteral es =>
      (let! es := smap subst_exp_rec es in sret (mk_exp (ExpX_ArrayLiteral es))) s
    | ExpX_Interp _ => Panic
    | ExpX_Unary UnaryOp_MustBeFinalized _ =>
      if allow_unfinalized
      then map_shallow_exp exp (λ t, sret (subst_typ typ_substs t)) subst_exp_rec s
      else Panic
    | _ => map_shallow_exp exp (λ t, sret (subst_typ typ_substs t)) subst_exp_rec s
    end.
End subst.

(** [for (y, _) in .. { let _ = m.insert(y.clone(), ()); }] *)
Definition insert_names (ys : list UniqueIdent) (m : ScopeMap.ScopeMap UniqueIdent unit)
    : res fuel_error (ScopeMap.ScopeMap UniqueIdent unit) :=
  foldl (λ r y, rbind r (λ m, insert_any m y tt)) (Ok m) ys.

(** One iteration of the loop of [subst_exp] over [substs]. *)
Definition insert_subst (s : SubstState) (p : UniqueIdent * Exp) : res fuel_error SubstState :=
  rbind (insert_new (substs s) p.1 p.2) (λ su,
  rbind (free_vars_exp p.2) (λ vars,
  let ys := map fst (map_to_list vars) in
  rbind (insert_names ys (free_vars s)) (λ fr,
  rbind (insert_names ys (fresh_var_blacklist s)) (λ bl, Ok (mkSubstState su fr bl))))).

Definition subst_exp (typ_substs : gmap Ident Typ) (new_substs : gmap UniqueIdent Exp) (exp : Exp)
    : res fuel_error Exp :=
  if bool_decide (size typ_substs = 0) && bool_decide (size new_substs = 0) then Ok exp
  else
    let allow_unfinalized := bool_decide (size new_substs = 0) in
    let s := mkSubstState (ScopeMap.push_scope ScopeMap.new false) (ScopeMap.push_scope ScopeMap.new true)
               (ScopeMap.push_scope ScopeMap.new true) in
    rbind (free_vars_exp_scope exp ∅ allow_unfinalized) (λ vars,
    rbind (insert_names (map fst (map_to_list vars)) (fresh_var_blacklist s)) (λ bl,
    rbind (foldl (λ r p, rbind r (λ s, insert_subst s p))
             (Ok (mkSubstState (substs s) (free_vars s) bl)) (map_to_list new_substs)) (λ s,
    rbind (subst_exp_rec typ_substs allow_unfinalized exp s) (λ '(e, s),
    rbind (pop_scopes s) (λ '(_, s),
    if bool_decide (ScopeMap.num_scopes (substs s) = 0)
       && bool_decide (ScopeMap.num_scopes (free_vars s) = 0)
       && bool_decide (ScopeMap.num_scopes (fresh_var_blacklist s) = 0)
    then Ok e else Panic))))).
