(* ===== verification/TriggersAuto.v ===== *)
(** * Choosing triggers (source/vir/src/triggers_auto.rs)

    Expressions are abstracted to terms, those that may loop are dropped, and covers of
    the variables of the quantifier are searched.  A [HashMap] or [HashSet] whose keys
    are terms is the list of its entries in the order of insertion; whenever the code
    iterates over one and the order can matter, [hash_order] gives the order, at each
    iteration another.  [compute_triggers] takes fuel: one more than the number of
    variables is enough.  The sums of [u64] do not overflow.  The [Debug] text of a term,
    which is only for the report on the chosen triggers, is left out. *)

From stdpp Require Import sorting.
From S2P Require Import Prelude StateRes VirMessages VirAst VirAstUtil Sst SstUtil.
From S2P Require Ast.
Set Warnings "-rewrite-rw,-register-all,-clear-no-such-hyp".
Local Open Scope st_scope.

Inductive AutoType := AutoType_Regular | AutoType_All | AutoType_None.
#[global] Instance auto_type_eq_dec : EqDecision AutoType.
Proof. solve_decision. Defined.

Inductive BitOpName :=
| BitOpName_BitXor | BitOpName_BitAnd | BitOpName_BitOr | BitOpName_Shr | BitOpName_Shl | BitOpName_BitNot.
#[global] Instance bit_op_name_eq_dec : EqDecision BitOpName.
Proof. solve_decision. Defined.

Inductive App :=
| App_Const (c : Constant)
| App_Field (d : Dt) (x y : Ident)
| App_MutRefCurrent
| App_MutRefFuture
| App_Call (f : Fun)
| App_Ctor (d : Dt) (variant : Ident)
| App_Tuple
| App_ClosureSpec
| App_Other (id : N)
| App_VarAt (x : UniqueIdent) (at_ : VarAt)
| App_BitOp (b : BitOpName)
| App_StaticVar (f : Fun)
| App_ExecFnByName (f : Fun)
| App_ExtEq.
#[global] Instance trigger_app_eq_dec : EqDecision App.
Proof. solve_decision. Defined.

Inductive TermX :=
| TermX_Var (x : UniqueIdent)
| TermX_App (a : App) (args : list TermX).
Definition Term := TermX.
Fixpoint term_decide (t u : TermX) : Decision (t = u).
Proof.
  destruct t as [x|a ts], u as [y|b us]; [|right; discriminate..|].
  - destruct (decide (x = y)) as [->|]; [by left|right; congruence].
  - destruct (decide (a = b)) as [->|]; [|right; congruence].
    destruct (list_eq_dec (dec := term_decide) ts us) as [->|]; [by left|right; congruence].
Defined.
#[global] Instance term_eq_dec : EqDecision TermX := term_decide.

(** ** Maps as lists of entries *)

Section entries.
Context {K V : Type} `{EqDecision K}.
Fixpoint hget (m : list (K * V)) (k : K) : option V :=
  match m with [] => None | (k', v) :: m => if decide (k = k') then Some v else hget m k end.
Definition hcontains (m : list (K * V)) (k : K) : bool := match hget m k with Some _ => true | None => false end.
Fixpoint hinsert (m : list (K * V)) (k : K) (v : V) : list (K * V) :=
  match m with
  | [] => [(k, v)]
  | (k', w) :: m => if decide (k = k') then (k', v) :: m else (k', w) :: hinsert m k v
  end.
Definition hremove (m : list (K * V)) (k : K) : list (K * V) := filter (λ p, p.1 ≠ k) m.
End entries.

(** ** The state *)

Record Score := mkScore { num_operators : N; num_special : N; no_calls : N; sdepth : N; ssize : N }.
Definition lex (s : Score) : list N := [num_operators s; num_special s; no_calls s; sdepth s; ssize s].

(** The order of Rust on tuples and vectors. *)
Section lexicographic.
Context {A : Type} (lt : A → A → bool) (eqb : A → A → bool).
Fixpoint lex_lt (l r : list A) : bool :=
  match l, r with
  | [], _ :: _ => true
  | x :: l, y :: r => lt x y || (eqb x y && lex_lt l r)
  | _, [] => false
  end.
End lexicographic.
Definition score_lt (s t : Score) : bool := lex_lt N.ltb N.eqb (lex s) (lex t).

Record Ctxt := mkCtxt {
  trigger_vars : gset VarIdent;
  all_terms : list (Term * Span);
  pure_terms : list (Term * (Exp * nat));
  all_terms_by_app : list (App * list (Term * Span));
  pure_terms_by_var : gmap VarIdent (list (Term * Span));
  pure_best_scores : list (Term * Score);
  next_id : N;
  gather_for_all_triggers : bool
}.

#[global] Instance dt_countable : Countable Dt.
Proof.
  apply (inj_countable' (λ d, match d with Dt_Path p => inl p | Dt_Tuple n => inr n end)
    (λ c, match c with inl p => Dt_Path p | inr n => Dt_Tuple n end)).
  by intros [].
Defined.

(** What is read of the context [Ctx]: the attribute [no_auto_trigger] of the functions
    in [func_map], the datatypes, the mangled name of a variant, and the module that the
    triggers are reported for. *)
Record Ctx := mkTriggerCtx {
  no_auto_trigger : gmap Fun bool;
  datatype_map : gmap Dt Datatype;
  variant_ident : Dt → Ident → Ident;
  module_for_chosen_triggers : option Path;
  module : Path
}.
Record ChosenTriggers := mkChosenTriggers {
  ct_module : Path; ct_span : Span; ct_triggers : list (list Span); ct_low_confidence : bool; manual : bool
}.
Definition chosen_for (ctx : Ctx) : Path := default (module ctx) (module_for_chosen_triggers ctx).

(** ** Types (source/vir/src/ast_visitor.rs) *)

Section typ_visitor.
Context {S E : Type}.
Definition visit_typ_rec (visit_typ : Typ → st S E Typ) (typ : Typ) : st S E Typ :=
  match typ with
  | TypX_Bool | TypX_Int _ | TypX_Real | TypX_Float _ | TypX_TypParam _ | TypX_TypeId | TypX_ConstInt _
  | TypX_ConstBool _ | TypX_Air _ => sret typ
  | TypX_Opaque p ts => let! ts := smap visit_typ ts in sret (TypX_Opaque p ts)
  | TypX_SpecFn ts tr => let! ts := smap visit_typ ts in let! tr := visit_typ tr in sret (TypX_SpecFn ts tr)
  | TypX_AnonymousClosure ts tr k id =>
    let! ts := smap visit_typ ts in let! tr := visit_typ tr in sret (TypX_AnonymousClosure ts tr k id)
  | TypX_FnDef f ts r => let! ts := smap visit_typ ts in sret (TypX_FnDef f ts r)
  | TypX_Datatype d ts i => let! ts := smap visit_typ ts in sret (TypX_Datatype d ts i)
  | TypX_Dyn p ts i => let! ts := smap visit_typ ts in sret (TypX_Dyn p ts i)
  | TypX_Primitive p ts => let! ts := smap visit_typ ts in sret (TypX_Primitive p ts)
  | TypX_Decorate d targ t =>
    let! targ := match targ with Some t => let! t := visit_typ t in sret (Some t) | None => sret None end in
    let! t := visit_typ t in sret (TypX_Decorate d targ t)
  | TypX_Boxed t => let! t := visit_typ t in sret (TypX_Boxed t)
  | TypX_Projection ts p n => let! ts := smap visit_typ ts in sret (TypX_Projection ts p n)
  | TypX_PointeeMetadata t => let! t := visit_typ t in sret (TypX_PointeeMetadata t)
  | TypX_MutRef t => let! t := visit_typ t in sret (TypX_MutRef t)
  end.
Fixpoint map_typ_visitor_env (ft : Typ → st S E Typ) (typ : Typ) : st S E Typ :=
  let! t := visit_typ_rec (map_typ_visitor_env ft) typ in ft t.
End typ_visitor.

(** def.rs *)
Definition suffix_typ_param_id (x : Ident) : VarIdent := (x, VarIdentDisambiguate_TypParamSuffixed).

Definition append_typ_params_as_terms {E} (typ : Typ) : st (list Term) E unit :=
  let! _ := map_typ_visitor_env (λ t,
    match t with
    | TypX_TypParam x => smodify (λ ts, ts ++ [TermX_Var (unique_bound (suffix_typ_param_id x))]);! sret t
    | _ => sret t
    end) typ in sret tt.
Definition typ_terms {E} (typs : Typs) : res E (list Term) :=
  rbind (siter append_typ_params_as_terms typs []) (λ '(_, ts), Ok ts).

(** ** Terms *)

Fixpoint trigger_vars_in_term (ctxt : Ctxt) (term : Term) (vars : gset VarIdent) : gset VarIdent :=
  match term with
  | TermX_Var x => if decide (x ∈ trigger_vars ctxt) then {[x]} ∪ vars else vars
  | TermX_App _ args => fold_left (λ vars arg, trigger_vars_in_term ctxt arg vars) args vars
  end.

Definition sum_list (l : list N) : N := foldr N.add 0%N l.
Fixpoint term_size (term : Term) : N :=
  match term with TermX_Var _ => 1 | TermX_App _ args => 1 + sum_list (map term_size args) end%N.

Definition option_max (l : list (option N)) : option N :=
  foldr (λ o m, match o, m with Some a, Some b => Some (N.max a b) | Some a, None => Some a | None, m => m end) None l.
Fixpoint trigger_var_depth (ctxt : Ctxt) (term : Term) (depth : N) : option N :=
  match term with
  | TermX_Var x => if decide (x ∈ trigger_vars ctxt) then Some depth else None
  | TermX_App _ args => option_max (map (λ t, trigger_var_depth ctxt t (depth + 1)) args)
  end%N.

Fixpoint count_bit_operators (term : Term) : N :=
  match term with
  | TermX_App (App_BitOp _) args => 1 + sum_list (map count_bit_operators args)
  | TermX_App _ args => sum_list (map count_bit_operators args)
  | TermX_Var _ => 0
  end%N.
Fixpoint count_special (term : Term) : N :=
  match term with
  | TermX_App App_ClosureSpec args => 1 + sum_list (map count_special args)
  | TermX_App _ args => sum_list (map count_special args)
  | TermX_Var _ => 0
  end%N.
Fixpoint count_calls (term : Term) : N :=
  match term with
  | TermX_App (App_Call _) args => 1 + sum_list (map count_calls args)
  | TermX_App _ args => sum_list (map count_calls args)
  | TermX_Var _ => 0
  end%N.
Definition make_score (term : Term) (depth : N) : Score :=
  mkScore (count_bit_operators term) (count_special term) (if (count_calls term =? 0)%N then 1 else 0)%N
    depth (term_size term).

(** First: is the term equal to the template for some values of the variables?
    Second: may these values be bigger than the variables? *)
Fixpoint structure_matches (ctxt : Ctxt) (template term : Term) : bool * bool :=
  match template, term with
  | TermX_Var x1, _ =>
    if decide (x1 ∈ trigger_vars ctxt) then
      (true, match term with TermX_App (App_VarAt _ _) _ | TermX_Var _ => false | _ => true end)
    else match term with TermX_Var x2 => (bool_decide (x1 = x2), false) | _ => (false, false) end
  | TermX_App a1 args1, TermX_App a2 args2 =>
    if bool_decide (a1 = a2) && bool_decide (length args1 = length args2) then
      let both := zip_with (structure_matches ctxt) args1 args2 in
      (forallb fst both, existsb snd both)
    else (false, false)
  | _, _ => (false, false)
  end.

(** ** Gathering the terms of an expression *)

Section gather.
Context {E : Type} (ctx : Ctx).
Implicit Types c : Ctxt.

Definition other : st Ctxt E App := λ c,
  let id := (next_id c + 1)%N in
  Ok (App_Other id, mkCtxt (trigger_vars c) (all_terms c) (pure_terms c) (all_terms_by_app c)
    (pure_terms_by_var c) (pure_best_scores c) id (gather_for_all_triggers c)).
Definition other_app (args : list Term) : st Ctxt E (bool * Term) :=
  let! a := other in sret (false, TermX_App a args).

Definition add_to_all (term : Term) (span : Span) (c : Ctxt) : Ctxt :=
  if hcontains (all_terms c) term then c
  else
    let by_app :=
      match term with
      | TermX_App app _ =>
        hinsert (all_terms_by_app c) app (hinsert (default [] (hget (all_terms_by_app c) app)) term span)
      | TermX_Var _ => all_terms_by_app c
      end in
    mkCtxt (trigger_vars c) (hinsert (all_terms c) term span) (pure_terms c) by_app
      (pure_terms_by_var c) (pure_best_scores c) (next_id c) (gather_for_all_triggers c).
Definition add_pure (term : Term) (exp : Exp) (depth : N) (c : Ctxt) : Ctxt :=
  match trigger_var_depth c term depth with
  | None => c
  | Some var_depth =>
    let pure :=
      if hcontains (pure_terms c) term then pure_terms c
      else hinsert (pure_terms c) term (exp, length (pure_terms c)) in
    let score := make_score term var_depth in
    let scores :=
      match hget (pure_best_scores c) term with
      | Some best => if score_lt score best then hinsert (pure_best_scores c) term score else pure_best_scores c
      | None => hinsert (pure_best_scores c) term score
      end in
    mkCtxt (trigger_vars c) (all_terms c) pure (all_terms_by_app c)
      (pure_terms_by_var c) scores (next_id c) (gather_for_all_triggers c)
  end.
(** What [gather_terms] does once it has the term. *)
Definition record_term (exp : Exp) (depth : N) (is_pure : bool) (term : Term) : st Ctxt E (bool * Term) :=
  match term with
  | TermX_Var _ | TermX_App (App_VarAt _ _) _ | TermX_App App_Tuple _ => sret (is_pure, term)
  | _ =>
    smodify (add_to_all term (exp_span exp));!
    smodify (λ c, if is_pure then add_pure term exp depth c else c);!
    sret (is_pure, term)
  end.

Definition bit_op_name (op : BitwiseOp) : BitOpName :=
  match op with
  | BitwiseOp_BitXor => BitOpName_BitXor
  | BitwiseOp_BitAnd => BitOpName_BitAnd
  | BitwiseOp_Shr => BitOpName_Shr
  | BitwiseOp_Shl _ _ => BitOpName_Shl
  | BitwiseOp_BitOr => BitOpName_BitOr
  end.
Definition unary_depth (op : UnaryOp) : N :=
  match op with
  | UnaryOp_Not | UnaryOp_CoerceMode _ _ _ _ | UnaryOp_MustBeFinalized | UnaryOp_MustBeElaborated
  | UnaryOp_Length _ => 0
  | _ => 1
  end%N.
Definition binary_depth (op : BinaryOp) : N :=
  match op with
  | BinaryOp_And | BinaryOp_Or | BinaryOp_Xor | BinaryOp_Implies | BinaryOp_Eq => 0
  | _ => 1
  end%N.
Definition all_pure (rs : list (bool * Term)) : bool := forallb fst rs.

(** The names of the fields of a variant, in the order of its declaration ([ctor_to_apply]
    of sst_to_air.rs). *)
Definition ctor_to_apply (dt : Dt) (variant : Ident) : res E (Ident * list Ident) :=
  match datatype_map ctx !! dt with
  | None => Panic
  | Some d =>
    match List.find (λ v, String.eqb (variant_name v) variant) (variants d) with
    | None => Panic
    | Some v => Ok (variant_ident ctx dt variant, map Ast.bname (fields v))
    end
  end.

Definition call_term (f : CallFun) (is_pure : bool) (args : list Term) : st Ctxt E (bool * Term) :=
  match f with
  | CallFun_Fun x _ =>
    match no_auto_trigger ctx !! x with
    | Some true => other_app args
    | _ => sret (is_pure, TermX_App (App_Call x) args)
    end
  | CallFun_Recursive _ => spanic
  | CallFun_InternalFun (InternalFun_ClosureReq | InternalFun_ClosureEns | InternalFun_ClosureOpensInvariants
                         | InternalFun_DefaultEns) =>
    sret (is_pure, TermX_App App_ClosureSpec args)
  | CallFun_InternalFun (InternalFun_CheckDecreaseHeight | InternalFun_OpenInvariantMask _ _) =>
    let! a := other in sret (is_pure, TermX_App a args)
  end.

Fixpoint gather_terms (exp : Exp) (depth : N) : st Ctxt E (bool * Term) :=
  let 'mkExp sp t x := exp in
  let! (is_pure, term) :=
    match x with
    | ExpX_Const c => sret (true, TermX_App (App_Const c) [])
    | ExpX_Var x => sret (true, TermX_Var x)
    | ExpX_VarLoc _ | ExpX_Loc _ | ExpX_Old _ _ => spanic
    | ExpX_VarAt x _ => sret (true, TermX_App (App_VarAt x VarAt_Pre) [])
    | ExpX_StaticVar x => sret (true, TermX_App (App_StaticVar x) [])
    | ExpX_ExecFnByName f => sret (true, TermX_App (App_ExecFnByName f) [])
    | ExpX_Call f typs args =>
      let! rs := smap (λ e, gather_terms e (depth + 1)%N) args in
      let! ts := lifts (typ_terms typs) in
      call_term f (all_pure rs) (ts ++ map snd rs)
    | ExpX_CallLambda e0 es =>
      let! (_, term0) := gather_terms e0 1%N in
      let! rs := smap (λ e, gather_terms e 1%N) es in
      other_app (term0 :: map snd rs)
    | ExpX_Ctor dt variant binders =>
      let! (variant, names) := lifts (ctor_to_apply dt variant) in
      let bs := map (λ b, let 'Ast.mkBinder n e := b in (n, gather_terms e (depth + 1)%N)) binders in
      let! rs := smap (λ n, match hget bs n with Some gather => gather | None => spanic end) names in
      let app := match dt with Dt_Path _ => App_Ctor dt variant | Dt_Tuple _ => App_Tuple end in
      sret (all_pure rs, TermX_App app (map snd rs))
    | ExpX_NullaryOpr _ => other_app []
    | ExpX_Unary (UnaryOp_Trigger _ | UnaryOp_CoerceMode _ _ _ _ | UnaryOp_MustBeFinalized
                  | UnaryOp_MustBeElaborated) e1 => gather_terms e1 depth
    | ExpX_Unary UnaryOp_MutRefCurrent e1 =>
      let! (p, arg) := gather_terms e1 (depth + 1)%N in sret (p, TermX_App App_MutRefCurrent [arg])
    | ExpX_Unary (UnaryOp_MutRefFuture _) e1 =>
      let! (p, arg) := gather_terms e1 (depth + 1)%N in sret (p, TermX_App App_MutRefFuture [arg])
    | ExpX_Unary op e1 =>
      let! (p, term1) := gather_terms e1 (unary_depth op) in
      match op with
      | UnaryOp_BitNot _ => sret (p, TermX_App (App_BitOp BitOpName_BitNot) [term1])
      | _ => other_app [term1]
      end
    | ExpX_UnaryOpr op e1 =>
      match op with
      | UnaryOpr_Box _ | UnaryOpr_Unbox _ | UnaryOpr_LoopIsolationBoundary _ => spanic
      | UnaryOpr_CustomErr _ | UnaryOpr_ProofNote _ | UnaryOpr_AutoDecreases | UnaryOpr_AutoLoopEnsures
      | UnaryOpr_IntegerTypeBound _ => gather_terms e1 depth
      | UnaryOpr_HasType _ => other_app []
      | UnaryOpr_IsVariant _ _ | UnaryOpr_ToDyn _ _ =>
        let! (_, term1) := gather_terms e1 1%N in other_app [term1]
      | UnaryOpr_HasResolved _ =>
        let! (p, term1) := gather_terms e1 (depth + 1)%N in
        let! a := other in sret (p, TermX_App a [term1])
      | UnaryOpr_Field f =>
        let! (p, arg) := gather_terms e1 (depth + 1)%N in
        sret (p, TermX_App (App_Field (datatype f) (variant f) (field f)) [arg])
      end
    | ExpX_Binary op e1 e2 =>
      let! (p1, term1) := gather_terms e1 (binary_depth op) in
      let! (p2, term2) := gather_terms e2 (binary_depth op) in
      match op with
      | BinaryOp_Bitwise bp => sret (p1 && p2, TermX_App (App_BitOp (bit_op_name bp)) [term1; term2])
      | _ => other_app [term1; term2]
      end
    | ExpX_BinaryOpr (BinaryOpr_ExtEq _ typ) e1 e2 =>
      let! (p1, term1) := gather_terms e1 0%N in
      let! (p2, term2) := gather_terms e2 0%N in
      let! all := sread gather_for_all_triggers in
      if all : bool then
        let! ts := lifts (typ_terms [typ]) in
        sret (p1 && p2, TermX_App App_ExtEq ([term1; term2] ++ ts))
      else other_app [term1; term2]
    | ExpX_If e1 e2 e3 =>
      let! (_, term1) := gather_terms e1 1%N in
      let! (_, term2) := gather_terms e2 1%N in
      let! (_, term3) := gather_terms e3 1%N in
      other_app [term1; term2; term3]
    | ExpX_WithTriggers _ _ => spanic
    | ExpX_Bind _ _ _ => other_app []
    | ExpX_ArrayLiteral es =>
      let! rs := smap (λ e, gather_terms e (depth + 1)%N) es in
      let! a := other in sret (all_pure rs, TermX_App a (map snd rs))
    | ExpX_Interp _ | ExpX_FuelConst _ => spanic
    end in
  record_term exp depth is_pure term.
End gather.

(** ** The search *)

(** The error of [build_triggers], or a recursion whose fuel ran out. *)
Inductive TriggerErr := TriggerErr_Err (e : VirErr) | TriggerErr_Fuel.

(** [iterations] counts the iterations over hash maps. *)
Record Timer := mkTimer { timeout_countdown : N; iterations : N }.

Definition Trigger : Type := list (Term * Span).
Record State := mkState {
  remaining_vars : gset VarIdent;
  accumulated_terms : list (Term * Span);
  chosen_triggers : list Trigger;
  low_confidence : bool;
  timer : Timer
}.
Definition set_remaining (f : gset VarIdent → gset VarIdent) (s : State) : State :=
  mkState (f (remaining_vars s)) (accumulated_terms s) (chosen_triggers s) (low_confidence s) (timer s).
Definition set_accumulated (f : list (Term * Span) → list (Term * Span)) (s : State) : State :=
  mkState (remaining_vars s) (f (accumulated_terms s)) (chosen_triggers s) (low_confidence s) (timer s).
Definition set_chosen (ts : list Trigger) (low : bool) (s : State) : State :=
  mkState (remaining_vars s) (accumulated_terms s) ts low (timer s).
Definition set_timer (t : Timer) (s : State) : State :=
  mkState (remaining_vars s) (accumulated_terms s) (chosen_triggers s) (low_confidence s) t.

Definition too_large : string :=
  "could not infer triggers, because quantifier is too large (use manual `#[trigger]` instead)".
Definition not_inferred : string :=
  "could not automatically infer triggers for this quantifier; use `#[trigger]` annotations to manually mark trigger terms instead".

Definition terms_of (trigger : Trigger) : list Term := map fst trigger.
Definition subset_of_terms (l r : list Term) : bool := forallb (λ t, bool_decide (t ∈ r)) l.

Definition score_add (s t : Score) : Score :=
  mkScore (num_operators s + num_operators t) (num_special s + num_special t) (no_calls s + no_calls t)
    (sdepth s + sdepth t) (ssize s + ssize t).
Definition trigger_score {E} (ctxt : Ctxt) (trigger : Trigger) : res E Score :=
  foldl (λ total '(t, _),
    rbind total (λ total, rbind (expect (hget (pure_best_scores ctxt) t)) (λ score, Ok (score_add total score))))
    (Ok (mkScore 0 0 0 0 0)) trigger.

Section search.
(** The [n]th iteration over a map is in the order [hash_order n]. *)
Context (hash_order : N → ∀ A, list A → list A) (span : Span) (ctxt : Ctxt).

Definition check_timeout : st Timer TriggerErr unit := λ t,
  if (timeout_countdown t =? 0)%N then Err (TriggerErr_Err (error span too_large))
  else Ok (tt, mkTimer (timeout_countdown t - 1) (iterations t)).
Definition iterate {A} (l : list A) : st Timer TriggerErr (list A) := λ t,
  Ok (hash_order (iterations t) A l, mkTimer (timeout_countdown t) (iterations t + 1)).
Definition timed {A} (m : st Timer TriggerErr A) : st State TriggerErr A := on_part timer set_timer m.

Fixpoint matches_any (pure : Term) (terms : list Term) : st Timer TriggerErr bool :=
  match terms with
  | [] => sret false
  | term :: terms =>
    check_timeout;!
    let '(eq, bigger) := structure_matches ctxt pure term in
    if eq && bigger then sret true else matches_any pure terms
  end.
Definition may_loop (pure : Term) : st Timer TriggerErr bool :=
  match pure with
  | TermX_Var _ | TermX_App (App_VarAt _ _) _ => sret false
  | TermX_App app _ =>
    match hget (all_terms_by_app ctxt) app with
    | Some terms => let! terms := iterate (map fst terms) in matches_any pure terms
    | None => sret false
    end
  end.
Definition set_pure (c : Ctxt) (pure : list (Term * (Exp * nat))) : Ctxt :=
  mkCtxt (trigger_vars c) (all_terms c) pure (all_terms_by_app c) (pure_terms_by_var c)
    (pure_best_scores c) (next_id c) (gather_for_all_triggers c).
Definition remove_obvious_potential_loops : st Timer TriggerErr Ctxt :=
  let! keys := iterate (map fst (pure_terms ctxt)) in
  let! loops := smap (λ pure, let! b := may_loop pure in sret (if b : bool then [pure] else [])) keys in
  sret (set_pure ctxt (foldl hremove (pure_terms ctxt) (concat loops))).

(** A cover is complete. *)
Definition add_trigger (all_triggers : bool) (trigger : Trigger) : st State TriggerErr unit :=
  let! s := sget in
  let old := chosen_triggers s in
  if all_triggers then
    let old_sub_new := existsb (λ t, subset_of_terms (terms_of t) (terms_of trigger)) old in
    let old := List.filter (λ t, negb (subset_of_terms (terms_of trigger) (terms_of t)
      && (length (remove_dups (terms_of trigger)) <? length (remove_dups (terms_of t)))%nat)) old in
    smodify (set_chosen (if old_sub_new then old else old ++ [trigger]) (low_confidence s))
  else
    match old with
    | [] => smodify (set_chosen [trigger] (low_confidence s))
    | t :: _ =>
      if (length trigger <? length t)%nat then smodify (set_chosen [trigger] false)
      else
        let! prev := lifts (trigger_score ctxt t) in
        let! new := lifts (trigger_score ctxt trigger) in
        if score_lt new prev then smodify (set_chosen [trigger] true)
        else if score_lt prev new then smodify (set_chosen old true)
        else smodify (set_chosen (old ++ [trigger]) (low_confidence s))
    end.

Definition found_better (all_triggers : bool) (s : State) : bool :=
  match chosen_triggers s with
  | [] => false
  | t :: _ => negb all_triggers && (length t <=? length (accumulated_terms s))%nat
  end.

Fixpoint compute_triggers (fuel : nat) (all_triggers : bool) : st State TriggerErr unit :=
  match fuel with
  | O => serr TriggerErr_Fuel
  | S fuel =>
    let! s := sget in
    if bool_decide (remaining_vars s = ∅) then
      let! trigger := timed (iterate (accumulated_terms s)) in
      add_trigger all_triggers trigger
    else if found_better all_triggers s then sret tt
    else
      timed check_timeout;!
      let! xs := timed (iterate (elements (remaining_vars s))) in
      match xs with
      | [] => spanic
      | x :: _ =>
        match pure_terms_by_var ctxt !! x with
        | None => spanic
        | Some terms =>
          let! terms := timed (iterate terms) in
          siter (λ p,
            let '(term, tspan) := p in
            let! s := sget in
            if hcontains (accumulated_terms s) term then sret tt
            else
              smodify (set_accumulated (λ m, hinsert m term tspan));!
              let removed := trigger_vars_in_term ctxt term ∅ ∩ remaining_vars s in
              smodify (set_remaining (λ v, v ∖ removed));!
              compute_triggers fuel all_triggers;!
              smodify (set_remaining (λ v, v ∪ removed));!
              smodify (set_accumulated (λ m, hremove m term))) terms
        end
      end
  end.
End search.

(** [sort_by_key]. *)
Definition lex_le (l r : list nat) : bool := negb (lex_lt Nat.ltb Nat.eqb r l).
Definition term_index (ctxt : Ctxt) (t : Term) : option nat := snd <$> hget (pure_terms ctxt) t.
Definition with_key {A K E} (key : A → option K) (l : list A) : res E (list (K * A)) :=
  expect (mapM (λ x, (λ k, (k, x)) <$> key x) l).
Definition index_le {A} (p q : nat * A) : Prop := p.1 ≤ q.1.
Definition indices_le {A} (p q : list nat * A) : Prop := lex_le p.1 q.1 = true.
#[global] Instance index_le_dec {A} : RelDecision (index_le (A := A)).
Proof. intros p q. unfold index_le. apply _. Defined.
#[global] Instance indices_le_dec {A} : RelDecision (indices_le (A := A)).
Proof. intros p q. unfold indices_le. apply _. Defined.
Definition sort_trigger {E} (ctxt : Ctxt) (trigger : Trigger) : res E Trigger :=
  rbind (with_key (λ p, term_index ctxt p.1) trigger) (λ l,
    Ok (map snd (merge_sort index_le l))).
Definition sort_triggers {E} (ctxt : Ctxt) (triggers : list Trigger) : res E (list Trigger) :=
  rbind (with_key (mapM (λ p, term_index ctxt p.1)) triggers) (λ l,
    Ok (map snd (merge_sort indices_le l))).

Section build.
Context (hash_order : N → ∀ A, list A → list A) (ctx : Ctx).

Definition initial_ctxt (vars : list VarIdent) (auto_trigger : AutoType) : Ctxt :=
  mkCtxt (list_to_set vars) [] [] [] (list_to_map (map (λ x, (x, [])) vars)) [] 0
    (bool_decide (auto_trigger = AutoType_All)).
(** Every variable of a term is a key. *)
Definition fill_by_var (ctxt : Ctxt) : Ctxt :=
  mkCtxt (trigger_vars ctxt) (all_terms ctxt) (pure_terms ctxt) (all_terms_by_app ctxt)
    (foldl (λ m '(term, (e, _)),
       foldl (λ m x, alter (λ ts, hinsert ts term (exp_span e)) x m) m (elements (trigger_vars_in_term ctxt term ∅)))
       (pure_terms_by_var ctxt) (pure_terms ctxt))
    (pure_best_scores ctxt) (next_id ctxt) (gather_for_all_triggers ctxt).

(** The context in which covers are searched, with the timer. *)
Definition candidates (span : Span) (vars : list VarIdent) (exp : Exp) (auto_trigger : AutoType)
    : res TriggerErr (Ctxt * Timer) :=
  rbind (gather_terms ctx exp 0 (initial_ctxt vars auto_trigger)) (λ '(_, ctxt),
  rbind (remove_obvious_potential_loops hash_order span ctxt (mkTimer 10000 0)) (λ '(ctxt, timer),
  Ok (fill_by_var ctxt, timer))).

(** What [build_triggers] returns, and what it adds to [chosen_triggers]. *)
Definition build_triggers (span : Span) (vars : list VarIdent) (exp : Exp) (auto_trigger : AutoType)
    : res TriggerErr (ChosenTriggers * res VirErr Trigs) :=
  rbind (candidates span vars exp auto_trigger) (λ '(ctxt, timer),
  let s := mkState (trigger_vars ctxt) [] [] false timer in
  rbind (compute_triggers hash_order span ctxt (S (size (trigger_vars ctxt)))
           (bool_decide (auto_trigger = AutoType_All)) s) (λ '(_, s),
  rbind (rmap (sort_trigger ctxt) (chosen_triggers s)) (λ chosen,
  rbind (sort_triggers ctxt chosen) (λ chosen,
  let report := mkChosenTriggers (chosen_for ctx) span (map (map snd) chosen)
    (low_confidence s && bool_decide (auto_trigger = AutoType_None)) false in
  match chosen with
  | [] => Ok (report, Err (error span not_inferred))
  | _ =>
    rbind (rmap (λ trig, rmap (λ '(term, _), rbind (expect (hget (pure_terms ctxt) term)) (λ '(e, _), Ok e)) trig) chosen)
      (λ trigs, Ok (report, Ok trigs))
  end)))).
End build.
