(* ===== verification/TriggersSearch.v ===== *)
(** * The search for triggers is exact

    A cover is a list of candidate terms in which every variable of the quantifier
    occurs.  [search_ok]: a search below an accumulated list [acc] deals with every cover
    that includes [acc], where the two modes differ in what that means: when all triggers
    are asked for, a chosen cover is included in it; otherwise, no chosen one is longer,
    and none is worse when they have the same length. *)

From stdpp Require Import sorting.
From S2P Require Import Prelude StateRes VirMessages VirAst VirAstUtil Sst SstUtil TriggersAuto.
Set Warnings "-rewrite-rw,-register-all,-clear-no-such-hyp".
Local Open Scope st_scope.

(** ** Entries of a map *)

Section entries.
Context {K V : Type} `{EqDecision K}.
Implicit Types m : list (K * V).

Lemma hget_In m k v : hget m k = Some v → (k, v) ∈ m.
Proof.
  induction m as [|[k' w] m IH]; [done|]. cbn. case_decide as E.
  - intros [= ->]. subst. left.
  - intros H. right. auto.
Qed.
Lemma hget_None m k : hget m k = None ↔ k ∉ map fst m.
Proof.
  induction m as [|[k' w] m IH]; cbn; [split; [intros _; apply not_elem_of_nil|done]|].
  rewrite not_elem_of_cons -IH. case_decide; naive_solver.
Qed.
Lemma hget_NoDup m k v : NoDup (map fst m) → (k, v) ∈ m → hget m k = Some v.
Proof.
  induction m as [|[k' w] m IH]; [by intros _ ?%elem_of_nil|]. cbn. intros [Hk Hm]%NoDup_cons [[= -> ->]|H]%elem_of_cons.
  - by rewrite decide_True.
  - rewrite decide_False; [|auto]. intros ->. apply Hk. apply list_elem_of_fmap. by exists (k', v).
Qed.
Lemma hcontains_false m k : hcontains m k = false ↔ k ∉ map fst m.
Proof. unfold hcontains. rewrite -hget_None. by destruct (hget m k). Qed.
Lemma hinsert_new m k v : k ∉ map fst m → hinsert m k v = m ++ [(k, v)].
Proof.
  induction m as [|[k' w] m IH]; [done|]. cbn. intros [Hk Hm]%not_elem_of_cons.
  rewrite decide_False //. by rewrite IH.
Qed.
Lemma hremove_new m k v : k ∉ map fst m → hremove (m ++ [(k, v)]) k = m.
Proof.
  intros Hk. unfold hremove. rewrite filter_app. cbn. rewrite decide_False; [by intros Hn; apply Hn|]. rewrite app_nil_r.
  induction m as [|[k' w] m IH]; [done|]. cbn in *. apply not_elem_of_cons in Hk as [Hne Hk].
  rewrite decide_True; [congruence|]. by rewrite IH.
Qed.
Lemma hget_hinsert m k v k' : hget (hinsert m k v) k' = if decide (k' = k) then Some v else hget m k'.
Proof.
  induction m as [|[k1 w] m IH]; cbn; [done|].
  destruct (decide (k = k1)) as [->|]; cbn; [|rewrite IH]; repeat case_decide; congruence.
Qed.
Lemma hget_hremove m k k' : hget (hremove m k) k' = if decide (k' = k) then None else hget m k'.
Proof.
  unfold hremove. induction m as [|[k1 w] m IH]; [by case_decide|]. rewrite filter_cons. cbn [fst].
  destruct (decide (k1 ≠ k)) as [Hne|He]; cbn [hget]; rewrite IH; repeat case_decide; naive_solver.
Qed.
Lemma hinsert_keys_NoDup m k v : NoDup (map fst m) → NoDup (map fst (hinsert m k v)).
Proof.
  intros Hm. destruct (decide (k ∈ map fst m)) as [Hin|Hnin].
  - assert (map fst (hinsert m k v) = map fst m) as ->; [|done]. clear Hm.
    induction m as [|[k' w] m IH]; [by apply elem_of_nil in Hin|]. cbn in *. case_decide; [done|]. cbn.
    apply elem_of_cons in Hin as [?|Hin]; [done|]. by rewrite IH.
  - rewrite hinsert_new // map_app. apply NoDup_app. split; [done|]. split.
    + intros x Hx Hx'. apply list_elem_of_singleton in Hx' as ->. done.
    + apply NoDup_singleton.
Qed.
Lemma hremove_all m ks k : hget (foldl hremove m ks) k = if decide (k ∈ ks) then None else hget m k.
Proof.
  revert m. induction ks as [|k0 ks IH]; intros m; cbn [foldl].
  - case_decide as H; [by apply elem_of_nil in H|done].
  - rewrite IH hget_hremove. repeat case_decide; set_solver.
Qed.
End entries.

(** ** Scores *)

Lemma score_add_comm s t : score_add s t = score_add t s.
Proof. unfold score_add. f_equal; lia. Qed.
Lemma score_add_assoc s t u : score_add s (score_add t u) = score_add (score_add s t) u.
Proof. unfold score_add. cbn. f_equal; lia. Qed.
Definition no_score : Score := mkScore 0 0 0 0 0.

Lemma score_lt_spec s t : score_lt s t = true ↔
  (num_operators s < num_operators t)%N ∨ (num_operators s = num_operators t ∧
  ((num_special s < num_special t)%N ∨ (num_special s = num_special t ∧
  ((no_calls s < no_calls t)%N ∨ (no_calls s = no_calls t ∧
  ((sdepth s < sdepth t)%N ∨ (sdepth s = sdepth t ∧ (ssize s < ssize t)%N))))))).
Proof.
  unfold score_lt, lex. cbn. rewrite andb_false_r orb_false_r. rewrite !orb_true_iff !andb_true_iff !orb_true_iff !andb_true_iff !orb_true_iff
    !andb_true_iff !orb_true_iff !andb_true_iff !N.ltb_lt !N.eqb_eq.
  tauto.
Qed.
Lemma score_lt_trans s t u : score_lt s t = true → score_lt t u = true → score_lt s u = true.
Proof. rewrite !score_lt_spec. cbn. lia. Qed.
Lemma score_lt_irrefl s : score_lt s s = false.
Proof. apply not_true_iff_false. rewrite score_lt_spec. cbn. lia. Qed.
Lemma score_total s t : score_lt s t = false → score_lt t s = false → s = t.
Proof.
  rewrite -!not_true_iff_false !score_lt_spec. destruct s, t. cbn. intros H1 H2. f_equal; lia.
Qed.

(** ** Covers *)

Definition tv (c : Ctxt) (t : Term) : gset VarIdent := trigger_vars_in_term c t ∅.
Definition candidate (c : Ctxt) (t : Term) : Prop := is_Some (hget (pure_terms c) t).
Definition covers (c : Ctxt) (T : list Term) : Prop :=
  Forall (candidate c) T ∧ ∀ x, x ∈ trigger_vars c → ∃ t, t ∈ T ∧ x ∈ tv c t.
Definition minimal_cover (c : Ctxt) (T : list Term) : Prop :=
  NoDup T ∧ covers c T ∧ ∀ T', T' ⊆ T → covers c T' → T ⊆ T'.

Definition score_of (c : Ctxt) (t : Term) : Score := default no_score (hget (pure_best_scores c) t).
Definition total_score (c : Ctxt) (T : list Term) : Score := foldr score_add no_score (map (score_of c) T).
(** [T] is at most as long as [T'], and at most as bad if they are equally long. *)
Definition no_worse (c : Ctxt) (T T' : list Term) : Prop :=
  length T < length T' ∨ length T = length T' ∧ score_lt (total_score c T') (total_score c T) = false.
Definition best_cover (c : Ctxt) (T : list Term) : Prop :=
  NoDup T ∧ covers c T ∧ ∀ T', NoDup T' → covers c T' → no_worse c T T'.

(** What the terms gathered from an expression satisfy. *)
Record ctxt_ok (c : Ctxt) : Prop := {
  ok_scores t : candidate c t → is_Some (hget (pure_best_scores c) t);
  ok_index t u p q i : hget (pure_terms c) t = Some (p, i) → hget (pure_terms c) u = Some (q, i) → t = u;
  ok_by_var x : x ∈ trigger_vars c → ∃ ts, pure_terms_by_var c !! x = Some ts
    ∧ NoDup (map fst ts) ∧ (∀ t sp, (t, sp) ∈ ts → candidate c t ∧ x ∈ tv c t)
    ∧ ∀ t, candidate c t → x ∈ tv c t → t ∈ map fst ts
}.

Section facts.
Context (c : Ctxt).

Fixpoint term_ind' (P : Term → Prop) (Hv : ∀ x, P (TermX_Var x))
    (Ha : ∀ a ts, Forall P ts → P (TermX_App a ts)) (t : Term) : P t :=
  match t with
  | TermX_Var x => Hv x
  | TermX_App a ts => Ha a ts ((fix go ts := match ts return Forall P ts with
      | [] => Forall_nil_2 P | t :: ts => Forall_cons_2 P t ts (term_ind' P Hv Ha t) (go ts) end) ts)
  end.

Lemma trigger_vars_acc t vars : trigger_vars_in_term c t vars = tv c t ∪ vars.
Proof.
  unfold tv. revert vars. induction t as [x|a ts IH] using term_ind'; intros vars; cbn.
  - case_decide; set_solver.
  - assert (H : ∀ vs, fold_left (λ vars arg, trigger_vars_in_term c arg vars) ts vs
      = fold_left (λ vars arg, trigger_vars_in_term c arg vars) ts ∅ ∪ vs); [|apply H].
    induction IH as [|t ts Ht _ IHts]; intros vs; cbn; [set_solver|].
    rewrite Ht IHts (IHts (trigger_vars_in_term c t ∅)). set_solver.
Qed.
Lemma tv_var x : tv c (TermX_Var x) = if decide (x ∈ trigger_vars c) then {[x]} else ∅.
Proof. unfold tv. cbn. case_decide; set_solver. Qed.
Lemma elem_of_tv_app x a ts : x ∈ tv c (TermX_App a ts) ↔ ∃ t, t ∈ ts ∧ x ∈ tv c t.
Proof.
  unfold tv. cbn. assert (H : ∀ vs, x ∈ fold_left (λ vars arg, trigger_vars_in_term c arg vars) ts vs
    ↔ x ∈ vs ∨ ∃ t, t ∈ ts ∧ x ∈ tv c t).
  { induction ts as [|t ts IH]; intros vs; cbn.
    - split; [by left|]. intros [?|(t & Ht & _)]; [done|by apply elem_of_nil in Ht].
    - rewrite IH trigger_vars_acc elem_of_union. setoid_rewrite elem_of_cons. naive_solver. }
  rewrite H. set_solver.
Qed.
Lemma tv_trigger_vars t : tv c t ⊆ trigger_vars c.
Proof.
  induction t as [x|a ts IH] using term_ind'.
  - rewrite tv_var. case_decide; set_solver.
  - intros x (t & Ht & Hx)%elem_of_tv_app. rewrite Forall_forall in IH. by apply (IH t Ht).
Qed.

Lemma total_score_perm T T' : T ≡ₚ T' → total_score c T = total_score c T'.
Proof.
  unfold total_score. induction 1; cbn; [done|by f_equal| |congruence].
  rewrite !score_add_assoc. f_equal. apply score_add_comm.
Qed.
Lemma trigger_score_ok (H : ctxt_ok c) {E} (tr : Trigger) : Forall (candidate c) (terms_of tr) →
  trigger_score (E := E) c tr = Ok (total_score c (terms_of tr)).
Proof.
  intros Hc. unfold trigger_score, total_score.
  assert (Ha : ∀ a, foldl (λ total '(t, _),
    rbind total (λ total, rbind (expect (hget (pure_best_scores c) t)) (λ score, Ok (score_add total score))))
    (Ok (E := E) a) tr = Ok (score_add a (foldr score_add no_score (map (score_of c) (terms_of tr))))).
  { induction tr as [|[t sp] tr IH]; intros a; cbn in *.
    - f_equal. destruct a. unfold score_add. cbn. f_equal; lia.
    - apply Forall_cons in Hc as [Ht Hc]. destruct (ok_scores c H t Ht) as [s Hs]. rewrite {1}Hs. cbn.
      rewrite IH //. unfold score_of at 2. rewrite Hs. cbn. by rewrite score_add_assoc. }
  rewrite Ha. f_equal. unfold score_add. cbn. by destruct (foldr _ _ _).
Qed.

Lemma covers_perm T T' : T ≡ₚ T' → covers c T → covers c T'.
Proof. intros Hp [H1 H2]. split; [by rewrite -Hp|]. intros x Hx. setoid_rewrite <- Hp. auto. Qed.
Lemma subset_of_terms_spec l r : subset_of_terms l r = true ↔ l ⊆ r.
Proof.
  unfold subset_of_terms. rewrite forallb_forall. split.
  - intros H t Ht. apply list_elem_of_In, H in Ht. by apply bool_decide_eq_true in Ht.
  - intros H t Ht%list_elem_of_In. apply bool_decide_eq_true. auto.
Qed.
End facts.

Lemma subseteq_perm {A} (T C : list A) : NoDup T → T ⊆ C → length C ≤ length T → T ≡ₚ C.
Proof. intros HT Hs Hl. apply NoDup_submseteq in Hs; [|done]. by apply submseteq_length_Permutation. Qed.

(** ** The search *)

Definition acc (s : State) : list Term := terms_of (accumulated_terms s).

Section search.
Context (hash_order : N → ∀ A, list A → list A) (hash_order_perm : ∀ n A l, hash_order n A l ≡ₚ l).
Context (span : Span) (c : Ctxt) (Hc : ctxt_ok c).

(** What the variables left mean. *)
Definition state_ok (s : State) : Prop :=
  NoDup (acc s) ∧ Forall (candidate c) (acc s)
  ∧ ∀ x, x ∈ remaining_vars s ↔ x ∈ trigger_vars c ∧ ∀ t, t ∈ acc s → x ∉ tv c t.

Definition same_but_chosen (s s' : State) : Prop :=
  remaining_vars s' = remaining_vars s ∧ accumulated_terms s' = accumulated_terms s.
Lemma state_ok_same s s' : same_but_chosen s s' → state_ok s → state_ok s'.
Proof using. intros [H1 H2]. unfold state_ok, acc. by rewrite H1 H2. Qed.

(** A term is put on the accumulated list, and taken off it. *)
Definition push_term (t : Term) (sp : Span) (s : State) : State :=
  set_remaining (λ v, v ∖ (tv c t ∩ remaining_vars s)) (set_accumulated (λ m, hinsert m t sp) s).
Lemma push_term_ok t sp s : state_ok s → candidate c t → t ∉ acc s →
  state_ok (push_term t sp s) ∧ acc (push_term t sp s) = acc s ++ [t].
Proof using.
  clear hash_order_perm hash_order Hc. intros (Hnd & Hcand & Hrem) Ht Hnew.
  assert (Ha1 : acc (push_term t sp s) = acc s ++ [t]) by (unfold acc, terms_of; cbn; by rewrite hinsert_new // map_app).
  split; [|done]. split; [|split].
  - rewrite Ha1. apply NoDup_app. split; [done|]. split; [|apply NoDup_singleton]. set_solver.
  - rewrite Ha1. apply Forall_app. split; [done|by apply Forall_singleton].
  - intros x. rewrite Ha1. cbn. setoid_rewrite elem_of_app. setoid_rewrite list_elem_of_singleton.
    rewrite elem_of_difference elem_of_intersection Hrem. destruct (decide (x ∈ tv c t)); naive_solver.
Qed.
Lemma pop_term_same t sp s s2 : t ∉ acc s → same_but_chosen (push_term t sp s) s2 →
  same_but_chosen s (set_accumulated (λ m, hremove m t) (set_remaining (λ v, v ∪ (tv c t ∩ remaining_vars s)) s2)).
Proof using.
  clear hash_order_perm hash_order Hc. intros Hnew [Hr2 Ha2]. split; cbn.
  - rewrite Hr2. cbn. apply set_eq. intros x. destruct (decide (x ∈ tv c t)); set_solver.
  - rewrite Ha2. cbn. rewrite hinsert_new //. by apply hremove_new.
Qed.

Section mode.
Variable all : bool.

(** Unless all triggers are asked for, those chosen have at least [n] terms. *)
Definition fits (ch : list Trigger) (n : nat) : Prop :=
  all = true ∨ match ch with [] => True | t :: _ => n ≤ length t end.

Variables (good : list Trigger → Prop) (dealt : list Trigger → list Term → Prop).

(** [ch'] deals with what [ch] deals with. *)
Definition better (ch ch' : list Trigger) : Prop := ∀ C, NoDup C → covers c C → dealt ch C → dealt ch' C.

(** After a search from [s] for the covers that satisfy [P]. *)
Definition searched (s : State) (n : nat) (P : list Term → Prop) (s' : State) : Prop :=
  same_but_chosen s s' ∧ good (chosen_triggers s') ∧ fits (chosen_triggers s') n
  ∧ better (chosen_triggers s) (chosen_triggers s')
  ∧ ∀ C, NoDup C → covers c C → acc s ⊆ C → P C → dealt (chosen_triggers s') C.

Definition searches (m : st State TriggerErr unit) : Prop := ∀ s, state_ok s → good (chosen_triggers s) →
  fits (chosen_triggers s) (length (acc s)) →
  yields m s (λ _ s', searched s (length (acc s)) (λ _, True) s').

Lemma timed_iterate {A} (l : list A) s (Q : list A → State → Prop) :
  (∀ l' t, l' ≡ₚ l → Q l' (set_timer t s)) → yields (timed (iterate hash_order l)) s Q.
Proof using hash_order_perm. intros HQ x s' [= <- <-]. apply HQ, hash_order_perm. Qed.
Lemma timed_check s (Q : unit → State → Prop) :
  (∀ t, Q tt (set_timer t s)) → yields (timed (check_timeout span)) s Q.
Proof using.
  intros HQ x s'. unfold timed, on_part, check_timeout. destruct (_ =? _)%N; [done|]. intros [= <- <-]. apply HQ.
Qed.

(** One term of the loop. *)
Lemma try_term (m : st State TriggerErr unit) (t : Term) (sp : Span) s : searches m → state_ok s →
  good (chosen_triggers s) → fits (chosen_triggers s) (S (length (acc s))) →
  candidate c t → t ∉ acc s →
  let removed := tv c t ∩ remaining_vars s in
  yields (smodify (set_accumulated (λ m, hinsert m t sp));!
    smodify (set_remaining (λ v, v ∖ removed));! m;!
    smodify (set_remaining (λ v, v ∪ removed));!
    smodify (set_accumulated (λ m, hremove m t))) s
    (λ _ s', searched s (S (length (acc s))) (λ C, t ∈ C) s').
Proof using Hc hash_order_perm.
  intros Hm Hs Hg Hf Ht Hnew removed. destruct (push_term_ok t sp s Hs Ht Hnew) as [Hs1 Ha1].
  apply yields_bind, yields_modify, yields_bind, yields_modify, yields_bind. change (set_remaining _ _) with (push_term t sp s).
  assert (Hl1 : length (acc (push_term t sp s)) = S (length (acc s))) by (rewrite Ha1 length_app; cbn; lia).
  eapply yields_mono; [apply (Hm (push_term t sp s)); [done|done|by rewrite Hl1]|].
  intros _ s2 (Hsame & Hg2 & Hf2 & Hb2 & Hd2). apply yields_bind, yields_modify, yields_modify.
  split; [by apply (pop_term_same t sp)|split; [done|split; [by rewrite -Hl1|split; [done|]]]].
  intros C HC Hcov Hsub HtC. apply Hd2; [done..| |done]. rewrite Ha1. set_solver.
Qed.

Hypothesis good_add : ∀ s tr, good (chosen_triggers s) → NoDup (terms_of tr) → covers c (terms_of tr) →
  fits (chosen_triggers s) (length tr) →
  yields (add_trigger c all tr) s (λ _ s', same_but_chosen s s' ∧ good (chosen_triggers s')
    ∧ fits (chosen_triggers s') (length tr) ∧ better (chosen_triggers s) (chosen_triggers s')
    ∧ dealt (chosen_triggers s') (terms_of tr)).
Hypothesis dealt_up : ∀ ch L C, NoDup L → covers c L → NoDup C → covers c C → L ⊆ C → dealt ch L → dealt ch C.
Hypothesis dealt_longer : ∀ s C, found_better all s = true → NoDup C → covers c C → length (acc s) < length C →
  dealt (chosen_triggers s) C.

(** The loop over the terms in which [x] occurs. *)
Lemma try_terms (m : st State TriggerErr unit) x ts : searches m →
  (∀ t sp, (t, sp) ∈ ts → candidate c t ∧ x ∈ tv c t) → ∀ s, state_ok s → x ∈ remaining_vars s →
  good (chosen_triggers s) → fits (chosen_triggers s) (S (length (acc s))) →
  yields (siter (λ p,
    let '(term, tspan) := p in
    let! s := sget in
    if hcontains (accumulated_terms s) term then sret tt
    else
      smodify (set_accumulated (λ m, hinsert m term tspan));!
      let removed := trigger_vars_in_term c term ∅ ∩ remaining_vars s in
      smodify (set_remaining (λ v, v ∖ removed));! m;!
      smodify (set_remaining (λ v, v ∪ removed));!
      smodify (set_accumulated (λ m, hremove m term))) ts) s
    (λ _ s', searched s (S (length (acc s))) (λ C, ∃ t, t ∈ map fst ts ∧ t ∈ C) s').
Proof using Hc hash_order_perm.
  intros Hm. induction ts as [|[t sp] ts IH]; intros Hts s Hs Hx Hg Hf; cbn [siter].
  { apply yields_ret. repeat (split; [done|]). split; [by intros C|]. intros C _ _ _ (t & Ht & _). by apply elem_of_nil in Ht. }
  destruct (Hts t sp) as [Ht Hxt]; [left|]. apply yields_bind, yields_bind, yields_get.
  assert (Hnew : t ∉ acc s). { destruct Hs as (_ & _ & Hrem). apply Hrem in Hx as [_ Hx]. intros Hin. by apply (Hx t). }
  rewrite (proj2 (hcontains_false (accumulated_terms s) t) Hnew).
  eapply yields_mono; [by apply (try_term m t sp s)|]. intros _ s1 (Hsame & Hg1 & Hf1 & Hb1 & Hd1).
  pose proof Hsame as [Hr1 Ha1]. assert (Hacc : acc s1 = acc s) by (unfold acc; by rewrite Ha1).
  eapply yields_mono; [apply IH|].
  - intros u sp' Hu. apply (Hts u sp'). by right.
  - by apply (state_ok_same s).
  - by rewrite Hr1.
  - done.
  - by rewrite Hacc.
  - intros _ s2 ([Hr2 Ha2] & Hg2 & Hf2 & Hb2 & Hd2). rewrite Hacc in Hf2.
    split; [split; congruence|split; [done|split; [done|split]]].
    + intros C HC Hcov H. by apply Hb2, Hb1.
    + intros C HC Hcov Hsub (u & Hu & HuC). apply elem_of_cons in Hu as [-> |Hu].
      * apply Hb2; [done..|]. by apply Hd1.
      * apply Hd2; [done..|by rewrite Hacc|by exists u].
Qed.

(** An accumulated list that is not a cover is shorter than any cover that includes it. *)
Lemma acc_shorter s C : state_ok s → remaining_vars s ≠ ∅ → NoDup C → covers c C → acc s ⊆ C → length (acc s) < length C.
Proof using.
  intros (Hnd & _ & Hrem) Hne HC [_ Hcov] Hsub. destruct (decide (length C ≤ length (acc s))) as [Hle|]; [|lia].
  exfalso. apply set_choose_L in Hne as [x Hx]. apply Hrem in Hx as [Hx Hno].
  destruct (Hcov x Hx) as (t & Ht & Hxt). apply (Hno t); [|done]. by rewrite (subseteq_perm (acc s) C).
Qed.

Lemma search_ok fuel : searches (compute_triggers hash_order span c fuel all).
Proof using hash_order_perm Hc good_add dealt_up dealt_longer.
  induction fuel as [|fuel IH]; intros s Hs Hg Hf; cbn [compute_triggers]; [by apply yields_err|].
  apply yields_bind, yields_get. case_bool_decide as Hrem.
  - apply yields_bind, timed_iterate. intros tr t Htr.
    assert (Hp : terms_of tr ≡ₚ acc s) by by apply Permutation_map.
    pose proof Hs as (Hnd & Hcand & Hvars).
    assert (Hcov : covers c (acc s)).
    { split; [done|]. intros x Hx. destruct (decide (Exists (λ t, x ∈ tv c t) (acc s))) as [(t' & ? & ?)%Exists_exists|Hn].
      - by exists t'.
      - exfalso. assert (x ∈ remaining_vars s); [|set_solver]. apply Hvars. split; [done|]. intros u Hu Hxu.
        apply Hn, Exists_exists. by exists u. }
    assert (Hlen : length tr = length (acc s)) by (rewrite -Hp; unfold terms_of; by rewrite length_map).
    eapply yields_mono; [apply good_add|]; cbn.
    + done.
    + by rewrite Hp.
    + by eapply covers_perm.
    + by rewrite Hlen.
    + intros _ s' (Hsame & Hg' & Hf' & Hb' & Hd'). split; [done|]. rewrite -Hlen.
      split; [done|]. split; [done|]. split; [done|]. intros C HC HcC Hsub _.
      eapply (dealt_up _ (terms_of tr)); [by rewrite Hp|by eapply covers_perm|done..|by rewrite Hp|done].
  - destruct (found_better all s) eqn:Hfb.
    + apply yields_ret. split; [done|]. split; [done|]. split; [done|]. split; [by intros C|].
      intros C HC HcC Hsub _. apply dealt_longer; [done..|]. by apply acc_shorter.
    + apply yields_bind, timed_check. intros t1. apply yields_bind, timed_iterate. intros xs t2 Hxs.
      destruct xs as [|x xs]; [by apply yields_panic|].
      assert (Hx : x ∈ remaining_vars s). { apply elem_of_elements. cbn in Hxs. rewrite -Hxs. left. }
      pose proof Hs as (_ & _ & Hvars). pose proof Hx as [Hxv _]%Hvars.
      destruct (ok_by_var c Hc x Hxv) as (ts & -> & Hnd & Hts & Hall). apply yields_bind, timed_iterate. intros ts' t3 Hts'.
      eapply yields_mono; [apply (try_terms _ x ts' IH)|].
      * intros t sp Hin. apply (Hts t sp). by rewrite -Hts'.
      * done.
      * done.
      * done.
      * cbn. destruct Hf as [Hf|Hf]; [by left|]. destruct (bool_dec all true) as [Ht|Ht%not_true_is_false]; [by left|]. right. cbn.
        unfold found_better in Hfb. rewrite Ht in Hfb. destruct (chosen_triggers s) as [|t0 ch]; [done|]. cbn in Hfb.
        apply Nat.leb_gt in Hfb. unfold acc, terms_of. by rewrite length_map.
      * intros _ s' (Hsame & Hg' & Hf' & Hb' & Hd'). split; [done|]. split; [done|]. split.
        { destruct Hf' as [?|Hf']; [by left|]. right. destruct (chosen_triggers s'); [done|]. apply Nat.lt_le_incl, Hf'. }
        split; [done|]. intros C HC HcC Hsub _. apply Hd'; [done..|].
        destruct HcC as [HcC1 HcC2]. destruct (HcC2 x Hxv) as (t & HtC & Hxt). exists t. split; [|done].
        assert (Hp : map fst ts' ≡ₚ map fst ts) by by apply Permutation_map. rewrite Hp. apply Hall; [|done].
        rewrite Forall_forall in HcC1. by apply HcC1.
Qed.
End mode.
End search.

(** ** All triggers *)

Section all_triggers.
Context (c : Ctxt).

Definition cover_trigger (tr : Trigger) : Prop := NoDup (terms_of tr) ∧ covers c (terms_of tr).
Definition incomparable (t u : Trigger) : Prop := ¬ terms_of t ⊆ terms_of u ∧ ¬ terms_of u ⊆ terms_of t.
Definition good_all (ch : list Trigger) : Prop := Forall cover_trigger ch ∧ StronglySorted incomparable ch.
Definition dealt_all (ch : list Trigger) (C : list Term) : Prop := ∃ tr, tr ∈ ch ∧ terms_of tr ⊆ C.

Lemma StronglySorted_filter_bool {A} (R : A → A → Prop) (p : A → bool) l :
  StronglySorted R l → StronglySorted R (List.filter p l).
Proof.
  induction 1 as [|x l _ IH Hx]; cbn; [constructor|]. destruct (p x); [|done]. constructor; [done|].
  apply Forall_forall. intros y Hy%list_elem_of_In%filter_In. rewrite Forall_forall in Hx.
  apply Hx, list_elem_of_In, Hy.
Qed.
Lemma StronglySorted_snoc {A} (R : A → A → Prop) l x :
  StronglySorted R l → Forall (λ y, R y x) l → StronglySorted R (l ++ [x]).
Proof.
  induction 1 as [|y l _ IH Hy]; cbn; intros Hx; [repeat constructor|].
  apply Forall_cons in Hx as [Hyx Hx]. constructor; [by apply IH|]. apply Forall_app. split; [done|by apply Forall_singleton].
Qed.

(** The larger covers that a new one replaces. *)
Definition replaced (tr t : Trigger) : bool :=
  subset_of_terms (terms_of tr) (terms_of t)
  && (length (remove_dups (terms_of tr)) <? length (remove_dups (terms_of t)))%nat.
Lemma replaced_spec tr t : NoDup (terms_of tr) → NoDup (terms_of t) →
  replaced tr t = true ↔ terms_of tr ⊆ terms_of t ∧ ¬ terms_of t ⊆ terms_of tr.
Proof.
  intros Htr Ht. unfold replaced. rewrite andb_true_iff subset_of_terms_spec Nat.ltb_lt.
  assert (Hd : ∀ l : list Term, NoDup l → length (remove_dups l) = length l).
  { intros l Hl. apply Permutation_length, NoDup_Permutation; [apply NoDup_remove_dups|done|]. intros x. apply elem_of_remove_dups. }
  rewrite !Hd //. split; intros [Hs Hl]; (split; [done|]).
  - intros Hs'. apply (NoDup_submseteq (terms_of t)) in Hs'; [|done]. apply submseteq_length in Hs'. lia.
  - destruct (decide (length (terms_of t) ≤ length (terms_of tr))); [|lia].
    destruct Hl. by rewrite (subseteq_perm (terms_of tr) (terms_of t)).
Qed.

Lemma good_all_cover ch t : good_all ch → t ∈ ch → cover_trigger t.
Proof. intros [H _]. rewrite Forall_forall in H. auto. Qed.
Lemma good_all_incomparable ch t u : good_all ch → t ∈ ch → u ∈ ch → t ≠ u → incomparable t u.
Proof.
  intros [_ H]. induction H as [|x ch _ IH Hx]; [by intros ?%elem_of_nil|]. rewrite Forall_forall in Hx.
  intros [-> |Ht]%elem_of_cons [-> |Hu]%elem_of_cons Hne; [done|by apply Hx| |by apply IH].
  apply Hx in Ht as [? ?]. by split.
Qed.

Lemma good_all_add s tr : good_all (chosen_triggers s) → NoDup (terms_of tr) → covers c (terms_of tr) →
  fits true (chosen_triggers s) (length tr) →
  yields (add_trigger c true tr) s (λ _ s', same_but_chosen s s' ∧ good_all (chosen_triggers s')
    ∧ fits true (chosen_triggers s') (length tr) ∧ better c dealt_all (chosen_triggers s) (chosen_triggers s')
    ∧ dealt_all (chosen_triggers s') (terms_of tr)).
Proof.
  intros Hg Hnd Hcov _. unfold add_trigger. apply yields_bind, yields_get, yields_modify. set (ch := chosen_triggers s).
  change (List.filter _ ch) with (List.filter (λ t, negb (replaced tr t)) ch). set (kept := List.filter _ ch).
  assert (Hkept : ∀ t, t ∈ kept ↔ t ∈ ch ∧ ¬ (terms_of tr ⊆ terms_of t ∧ ¬ terms_of t ⊆ terms_of tr)).
  { intros t. unfold kept. rewrite list_elem_of_In filter_In -list_elem_of_In negb_true_iff. rewrite -not_true_iff_false.
    split; intros [Hin Ht]; (split; [done|]); pose proof (good_all_cover ch t Hg Hin) as [Hndt _];
      by rewrite (replaced_spec tr t Hnd Hndt) in Ht |- *. }
  assert (Hgk : good_all kept).
  { destruct Hg as [H1 H2]. split; [|by apply StronglySorted_filter_bool]. rewrite Forall_forall in H1.
    apply Forall_forall. intros t [Ht _]%Hkept. auto. }
  split; [done|]. cbn. set (ch' := if existsb _ ch then kept else kept ++ [tr]).
  assert (Hd : dealt_all ch' (terms_of tr)).
  { unfold ch'. destruct (existsb _ ch) eqn:Hex.
    - apply existsb_exists in Hex as (t & Ht%list_elem_of_In & Hs%subset_of_terms_spec). exists t. split; [|done].
      apply Hkept. split; [done|]. naive_solver.
    - exists tr. split; [|done]. apply elem_of_app. right. by apply list_elem_of_singleton. }
  split; [|split; [by left|split; [|done]]].
  - unfold ch'. destruct (existsb _ ch) eqn:Hex; [done|]. destruct Hgk as [H1 H2]. split.
    + apply Forall_app. split; [done|by apply Forall_singleton].
    + apply StronglySorted_snoc; [done|]. apply Forall_forall. intros t [Ht Hn]%Hkept.
      assert (¬ terms_of t ⊆ terms_of tr) as Hno; [|split; [done|tauto]]. intros Hs.
      apply not_true_iff_false in Hex. apply Hex, existsb_exists. exists t. split; [by apply list_elem_of_In|].
      by apply subset_of_terms_spec.
  - intros C HC HcC (t & Ht & HtC). destruct (decide (terms_of tr ⊆ terms_of t)) as [Hs|Hn].
    + destruct Hd as (u & Hu & Hus). exists u. split; [done|]. set_solver.
    + exists t. split; [|done]. unfold ch'. assert (t ∈ kept) by (apply Hkept; split; [done|tauto]).
      destruct (existsb _ ch); [done|]. apply elem_of_app. by left.
Qed.
End all_triggers.

(** ** The best triggers *)

Section best_triggers.
Context (c : Ctxt) (Hc : ctxt_ok c).

Definition tscore (tr : Trigger) : Score := total_score c (terms_of tr).
(** The chosen ones are equally long and good. *)
Definition good_best (ch : list Trigger) : Prop :=
  match ch with
  | [] => True
  | t0 :: _ => Forall (λ t, cover_trigger c t ∧ length t = length t0 ∧ tscore t = tscore t0) ch
  end.
Definition dealt_best (ch : list Trigger) (C : list Term) : Prop :=
  match ch with
  | [] => False
  | t0 :: _ => length t0 < length C ∨ length t0 = length C ∧
      (score_lt (tscore t0) (total_score c C) = true
       ∨ tscore t0 = total_score c C ∧ ∃ t, t ∈ ch ∧ terms_of t ≡ₚ C)
  end.

Lemma length_terms (tr : Trigger) : length (terms_of tr) = length tr.
Proof using. apply length_map. Qed.
Lemma dealt_self ch tr : tr ∈ ch → good_best ch → dealt_best ch (terms_of tr).
Proof using.
  destruct ch as [|t0 ch]; [by intros ?%elem_of_nil|]. intros Hin Hg. cbn in Hg. rewrite Forall_forall in Hg.
  destruct (Hg tr Hin) as (_ & Hl & Hs). right. rewrite length_terms. split; [done|]. right. split; [done|]. by exists tr.
Qed.
Lemma dealt_only tr C : length tr = length C → tscore tr = total_score c C → terms_of tr ≡ₚ C → dealt_best [tr] C.
Proof using. intros Hl Hs Hp. right. split; [done|]. right. split; [done|]. exists tr. split; [left|done]. Qed.

(** A single trigger that beats the head deals with what is dealt with. *)
Lemma better_single t0 ch tr : length tr < length t0 ∨ length tr = length t0 ∧ score_lt (tscore tr) (tscore t0) = true →
  ∀ C, dealt_best (t0 :: ch) C → dealt_best [tr] C.
Proof using.
  intros Hb C. cbn. intros [Hl|[Hl Hd]]; [left; lia|]. destruct Hb as [Hb|[Hb Hlt]]; [left; lia|].
  right. split; [lia|]. left. destruct Hd as [Hd|[<- _]]; [by eapply score_lt_trans|done].
Qed.
Lemma better_more t0 ch tr C : dealt_best (t0 :: ch) C → dealt_best ((t0 :: ch) ++ [tr]) C.
Proof using.
  cbn. intros [?|[? [?|[? (t & Ht & Hp)]]]]; [by left|right; split; [done|by left]|].
  right. split; [done|]. right. split; [done|]. exists t. split; [|done]. change (t ∈ (t0 :: ch) ++ [tr]).
  apply elem_of_app. by left.
Qed.

Lemma good_best_add s tr : good_best (chosen_triggers s) → NoDup (terms_of tr) → covers c (terms_of tr) →
  fits false (chosen_triggers s) (length tr) →
  yields (add_trigger c false tr) s (λ _ s', same_but_chosen s s' ∧ good_best (chosen_triggers s')
    ∧ fits false (chosen_triggers s') (length tr) ∧ better c dealt_best (chosen_triggers s) (chosen_triggers s')
    ∧ dealt_best (chosen_triggers s') (terms_of tr)).
Proof using Hc.
  intros Hg Hnd Hcov [?|Hf]; [done|]. unfold add_trigger. apply yields_bind, yields_get.
  assert (Hone : good_best [tr]) by by apply Forall_singleton.
  assert (Hself : dealt_best [tr] (terms_of tr)) by (apply dealt_self; [left|done]).
  destruct (chosen_triggers s) as [|t0 ch] eqn:Hch.
  { apply yields_modify. split; [done|]. split; [done|]. split; [right; cbn; lia|]. split; [|done]. by intros C _ _ []. }
  destruct (Nat.ltb_spec (length tr) (length t0)) as [Hlt|Hge].
  { apply yields_modify. split; [done|]. split; [done|]. split; [right; cbn; lia|]. split; [|done].
    intros C _ _. apply better_single. by left. }
  pose proof Hg as Hg'. cbn in Hg'. pose proof (Forall_inv Hg') as ((_ & [Hc0 _]) & _).
  rewrite (trigger_score_ok c Hc t0) // (trigger_score_ok c Hc tr (proj1 Hcov)).
  apply yields_bind, yields_lift. intros x [= <-]. apply yields_bind, yields_lift. intros x [= <-].
  fold (tscore t0) (tscore tr). assert (Hl : length tr = length t0) by lia.
  destruct (score_lt (tscore tr) (tscore t0)) eqn:H1.
  { apply yields_modify. split; [done|]. split; [done|]. split; [right; cbn; lia|]. split; [|done].
    intros C _ _. apply better_single. by right. }
  destruct (score_lt (tscore t0) (tscore tr)) eqn:H2.
  { apply yields_modify. split; [done|]. split; [done|]. split; [right; cbn; lia|]. split; [by intros C|].
    right. rewrite length_terms. split; [done|]. by left. }
  assert (Hs : tscore tr = tscore t0) by by apply score_total.
  apply yields_modify. cbn [chosen_triggers set_chosen].
  assert (Hgn : good_best ((t0 :: ch) ++ [tr])).
  { apply (Forall_app _ (t0 :: ch) [tr]). split; [done|]. by apply Forall_singleton. }
  split; [done|]. split; [done|]. split; [right; cbn; lia|]. split.
  - intros C _ _. apply better_more.
  - apply dealt_self; [|done]. apply elem_of_app. right. by apply list_elem_of_singleton.
Qed.

Lemma dealt_best_up ch L C : NoDup L → covers c L → NoDup C → covers c C → L ⊆ C → dealt_best ch L → dealt_best ch C.
Proof using.
  intros HL _ HC _ Hs. destruct ch as [|t0 ch]; [done|]. assert (Hle : length L ≤ length C).
  { by apply submseteq_length, NoDup_submseteq. }
  destruct (decide (length C ≤ length L)) as [Hge|].
  - assert (Hp : L ≡ₚ C) by by apply subseteq_perm. cbn. rewrite -(total_score_perm c L C Hp) -(Permutation_length Hp).
    intros [?|[? [?|[? (t & ? & Ht)]]]]; [by left|right; split; [done|by left]|].
    right. split; [done|]. right. split; [done|]. exists t. by rewrite -Hp.
  - cbn. intros [?|[? _]]; left; lia.
Qed.
Lemma dealt_best_longer s C : found_better false s = true → NoDup C → covers c C → length (acc s) < length C →
  dealt_best (chosen_triggers s) C.
Proof using.
  clear Hc. unfold found_better. destruct (chosen_triggers s) as [|t0 ch]; [done|]. cbn. intros H%Nat.leb_le _ _ Hl. left.
  unfold acc in Hl. rewrite length_terms in Hl. lia.
Qed.
Lemma dealt_all_up ch L C : NoDup L → covers c L → NoDup C → covers c C → L ⊆ C → dealt_all ch L → dealt_all ch C.
Proof using. clear Hc. intros _ _ _ _ Hs (t & Ht & HtL). exists t. set_solver. Qed.
End best_triggers.

(** ** What a search from the start finds *)

Definition same_terms (tr : Trigger) (T : list Term) : Prop := terms_of tr ≡ₚ T.
Definition wanted (all : bool) (c : Ctxt) (T : list Term) : Prop := if all then minimal_cover c T else best_cover c T.

Section from_start.
Context (hash_order : N → ∀ A, list A → list A) (hash_order_perm : ∀ n A l, hash_order n A l ≡ₚ l).
Context (span : Span) (c : Ctxt) (Hc : ctxt_ok c).

Lemma start_ok t : state_ok c (mkState (trigger_vars c) [] [] false t).
Proof using. split; [constructor|]. split; [constructor|]. intros x. cbn. split; [|by intros []]. intros Hx. split; [done|]. by intros u ?%elem_of_nil. Qed.

(** The chosen triggers are those wanted; when all are asked for, none is chosen twice. *)
Lemma search_exact all fuel t s : compute_triggers hash_order span c fuel all (mkState (trigger_vars c) [] [] false t) = Ok (tt, s) →
  Forall (cover_trigger c) (chosen_triggers s)
  ∧ (∀ T, wanted all c T ↔ NoDup T ∧ ∃ tr, tr ∈ chosen_triggers s ∧ same_terms tr T)
  ∧ (all = true → StronglySorted incomparable (chosen_triggers s))
  ∧ (∀ C, NoDup C → covers c C → chosen_triggers s ≠ []).
Proof using hash_order_perm Hc.
  intros Hs. destruct all.
  - destruct (search_ok hash_order hash_order_perm span c Hc true (good_all c) dealt_all) with
      (fuel := fuel) (s := mkState (trigger_vars c) [] [] false t) (x := tt) (s' := s) as (_ & Hg & _ & _ & Hd).
    + apply good_all_add.
    + apply dealt_all_up.
    + intros s0 C. unfold found_better. by destruct (chosen_triggers s0).
    + apply start_ok.
    + split; constructor.
    + by left.
    + done.
    + split; [apply Hg|]. split; [|split; [intros _; apply Hg|]].
      2: { intros C HC HcC Hnil. destruct (Hd C HC HcC) as (tr & Htr & _); [apply list_subseteq_nil|done|].
           rewrite Hnil in Htr. by apply elem_of_nil in Htr. }
      intros T. cbn [wanted].
      assert (Hmin : ∀ tr, tr ∈ chosen_triggers s → ∀ T', T' ⊆ terms_of tr → covers c T' → terms_of tr ⊆ T').
      { intros tr Htr T' Hs' Hc'. destruct (Hd (remove_dups T')) as (u & Hu & Hus).
        - apply NoDup_remove_dups.
        - destruct Hc' as [H1 H2]. split.
          + rewrite Forall_forall. rewrite Forall_forall in H1. intros x. rewrite elem_of_remove_dups. apply H1.
          + intros x Hx. setoid_rewrite elem_of_remove_dups. by apply H2.
        - apply list_subseteq_nil.
        - done.
        - assert (Hus' : terms_of u ⊆ T') by (intros x Hx; apply elem_of_remove_dups, Hus, Hx).
          destruct (decide (tr = u)) as [<-|Hne]; [done|]. exfalso.
          destruct (good_all_incomparable c _ tr u Hg Htr Hu Hne) as [_ Hno]. apply Hno. set_solver. }
      split.
      * intros (Hnd & Hcov & HT). split; [done|]. destruct (Hd T) as (tr & Htr & Hsub); [done..|apply list_subseteq_nil|done|].
        destruct (good_all_cover c _ tr Hg Htr) as [Hndt Hct]. exists tr. split; [done|].
        apply NoDup_Permutation; [done..|]. intros x. split; [apply Hsub|]. by apply HT.
      * intros (Hnd & tr & Htr & Hp). destruct (good_all_cover c _ tr Hg Htr) as [Hndt Hct]. split; [done|].
        split; [by eapply covers_perm|]. intros T' Hs' Hc'. unfold same_terms in Hp.
        assert (terms_of tr ⊆ T') as Hsub. { apply Hmin; [done| |done]. by rewrite Hp. }
        by rewrite -Hp.
  - destruct (search_ok hash_order hash_order_perm span c Hc false (good_best c) (dealt_best c)) with
      (fuel := fuel) (s := mkState (trigger_vars c) [] [] false t) (x := tt) (s' := s) as (_ & Hg & _ & _ & Hd).
    + by apply good_best_add.
    + apply dealt_best_up.
    + apply dealt_best_longer.
    + apply start_ok.
    + done.
    + right. done.
    + done.
    + assert (Hd' : ∀ C, NoDup C → covers c C → dealt_best c (chosen_triggers s) C).
      { intros C HC HcC. apply Hd; [done..|apply list_subseteq_nil|done]. }
      clear Hd. destruct (chosen_triggers s) as [|t0 ch] eqn:Hch.
      { split; [constructor|]. split; [|split; [done|intros C HC HcC; by destruct (Hd' C HC HcC)]]. intros T. cbn [wanted]. split.
        - intros (HT & HcT & _). by destruct (Hd' T HT HcT).
        - by intros (_ & tr & ?%elem_of_nil & _). }
      cbn in Hg. assert (Hcover : Forall (cover_trigger c) (t0 :: ch)) by (eapply Forall_impl; [exact Hg|]; by intros x [? _]).
      split; [done|]. split; [|by split]. rewrite Forall_forall in Hg. intros T. cbn [wanted]. split.
      * intros (HT & HcT & Hbest). split; [done|]. destruct (Hg t0) as ([Hnd0 Hc0] & _); [left|].
        pose proof (Hbest (terms_of t0) Hnd0 Hc0) as Hw. unfold no_worse in Hw. rewrite length_terms in Hw. fold (tscore c t0) in Hw.
        destruct (Hd' T HT HcT) as [Hl|[Hl [Hl'|[_ Hex]]]]; [lia| |done].
        destruct Hw as [?|[_ Hw]]; [lia|congruence].
      * intros (HT & tr & Htr & Hp). destruct (Hg tr Htr) as ([Hndt Hct] & Hl & Hsc). split; [done|].
        split; [by eapply covers_perm|]. intros T' HT' Hc'. unfold no_worse. rewrite -(Permutation_length Hp) -(total_score_perm c _ _ Hp) length_terms.
        fold (tscore c tr). rewrite Hl Hsc. destruct (Hd' T' HT' Hc') as [?|[? [Hlt|[Heq _]]]]; [by left|right..].
        { split; [done|]. apply not_true_iff_false. intros Hlt'. eapply score_lt_trans in Hlt'; [|exact Hlt].
          by rewrite score_lt_irrefl in Hlt'. }
        { split; [done|]. by rewrite Heq score_lt_irrefl. }
Qed.
End from_start.
