(* ===== verification/TriggersGather.v ===== *)
(** * Terms gathered for triggers

    The expression kept for a pure term is a part of the quantified expression outside
    inner binders ([within]), it only applies what [triggerable] allows, and it mentions
    every variable that occurs in the term.  The context in which covers are searched
    satisfies [TriggersSearch.ctxt_ok], in whatever order the maps are iterated over. *)

From stdpp Require Import sorting.
From S2P Require Import Prelude StateRes VirMessages VirAst VirAstUtil Sst SstUtil TriggersAuto.
From S2P Require Import TriggersSearch.
From S2P Require Ast.
Set Warnings "-rewrite-rw,-register-all,-clear-no-such-hyp".
Local Open Scope st_scope.

(** ** What a trigger may be *)

(** The variables that stand for the type parameters of a type. *)
Fixpoint typ_param_vars (t : Typ) : gset VarIdent :=
  match t with
  | TypX_TypParam x => {[ suffix_typ_param_id x ]}
  | TypX_SpecFn ts r | TypX_AnonymousClosure ts r _ _ => ⋃ map typ_param_vars ts ∪ typ_param_vars r
  | TypX_FnDef _ ts _ | TypX_Datatype _ ts _ | TypX_Dyn _ ts _ | TypX_Opaque _ ts | TypX_Primitive _ ts
  | TypX_Projection ts _ _ => ⋃ map typ_param_vars ts
  | TypX_Decorate _ a t => match a with Some a => typ_param_vars a | None => ∅ end ∪ typ_param_vars t
  | TypX_Boxed t | TypX_PointeeMetadata t | TypX_MutRef t => typ_param_vars t
  | _ => ∅
  end.

(** The variables and the type arguments in an expression, outside inner binders. *)
Fixpoint mentions (e : Exp) : gset VarIdent :=
  let 'mkExp _ _ y := e in
  match y with
  | ExpX_Var x => {[ x ]}
  | ExpX_Call _ ts es => ⋃ map typ_param_vars ts ∪ ⋃ map mentions es
  | ExpX_Loc e | ExpX_Unary _ e | ExpX_UnaryOpr _ e => mentions e
  | ExpX_CallLambda e es => mentions e ∪ ⋃ map mentions es
  | ExpX_Ctor _ _ bs => ⋃ map (λ b, let 'Ast.mkBinder _ a := b in mentions a) bs
  | ExpX_Binary _ e1 e2 => mentions e1 ∪ mentions e2
  | ExpX_BinaryOpr (BinaryOpr_ExtEq _ t) e1 e2 => mentions e1 ∪ mentions e2 ∪ typ_param_vars t
  | ExpX_If e1 e2 e3 => mentions e1 ∪ mentions e2 ∪ mentions e3
  | ExpX_ArrayLiteral es => ⋃ map mentions es
  | _ => ∅
  end.

(** [e'] is a part of [e] outside inner binders. *)
Inductive within : Exp → Exp → Prop :=
| within_refl e : within e e
| within_child e' e s t y : e ∈ children y → match y with ExpX_Bind _ _ _ => False | _ => True end →
    within e' e → within e' (mkExp s t y).

Lemma within_step s t y e e0 : within (mkExp s t y) e0 → e ∈ children y →
  match y with ExpX_Bind _ _ _ => False | _ => True end → within e e0.
Proof.
  intros H He Hy. remember (mkExp s t y) as e1 eqn:E1. induction H as [|e' e2 s2 t2 y2 H1 H2 H IH]; subst.
  - eapply within_child; [done|done|constructor].
  - eapply within_child; [done..|]. by apply IH.
Qed.

(** No conditional, quantifier, arithmetic, comparison or logical operator. *)
Section triggerable.
Context (ctx : Ctx) (all : bool).
Definition triggerable_fun (f : CallFun) : Prop :=
  match f with CallFun_Fun x _ => no_auto_trigger ctx !! x ≠ Some true | CallFun_Recursive _ => False | _ => True end.
Fixpoint triggerable (e : Exp) : Prop :=
  let 'mkExp _ _ y := e in
  match y with
  | ExpX_Const _ | ExpX_Var _ | ExpX_VarAt _ _ | ExpX_StaticVar _ | ExpX_ExecFnByName _ => True
  | ExpX_Call f _ es => triggerable_fun f ∧ allP triggerable es
  | ExpX_ArrayLiteral es => allP triggerable es
  | ExpX_Ctor dt v bs =>
    match ctor_to_apply (E := TriggerErr) ctx dt v with
    | Ok (_, names) =>
      let fields := map (λ b, let 'Ast.mkBinder n a := b in (n, triggerable a)) bs in
      allP (λ n, match hget fields n with Some P => P | None => False end) names
    | _ => False
    end
  | ExpX_Unary (UnaryOp_Trigger _ | UnaryOp_CoerceMode _ _ _ _ | UnaryOp_MustBeFinalized | UnaryOp_MustBeElaborated
                | UnaryOp_MutRefCurrent | UnaryOp_MutRefFuture _ | UnaryOp_BitNot _) e => triggerable e
  | ExpX_UnaryOpr (UnaryOpr_CustomErr _ | UnaryOpr_ProofNote _ | UnaryOpr_AutoDecreases | UnaryOpr_AutoLoopEnsures
                   | UnaryOpr_IntegerTypeBound _ | UnaryOpr_HasResolved _ | UnaryOpr_Field _) e => triggerable e
  | ExpX_Binary (BinaryOp_Bitwise _) e1 e2 => triggerable e1 ∧ triggerable e2
  | ExpX_BinaryOpr _ e1 e2 => all = true ∧ triggerable e1 ∧ triggerable e2
  | _ => False
  end.
End triggerable.

(** ** Gathering *)

Lemma elem_of_union_map {A} (f : A → gset VarIdent) l x : x ∈ ⋃ map f l ↔ ∃ a, a ∈ l ∧ x ∈ f a.
Proof. rewrite elem_of_union_list. setoid_rewrite list_elem_of_In. setoid_rewrite in_map_iff. naive_solver. Qed.

(** The terms that stand for type parameters. *)
Definition typ_terms_of (V : gset VarIdent) (ts : list Term) : Prop := ∀ t, t ∈ ts → ∃ x, t = TermX_Var x ∧ x ∈ V.

Section typ_terms.
Context {E : Type} (V : gset VarIdent).
(** [m] returns [a] and collects only variables in [V]. *)
Definition collects {A} (m : st (list Term) E A) (a : A) : Prop :=
  ∀ l, typ_terms_of V l → yields m l (λ a' l', a' = a ∧ typ_terms_of V l').
Lemma collects_ret {A} (a : A) : collects (sret a) a.
Proof using. intros l Hl. by apply yields_ret. Qed.
Lemma collects_bind {A B} (m : st (list Term) E A) (k : A → st (list Term) E B) a b :
  collects m a → collects (k a) b → collects (sbind m k) b.
Proof using.
  intros Hm Hk l Hl. apply yields_bind. eapply yields_mono; [by apply Hm|]. intros a' l' [-> Hl']. by apply Hk.
Qed.
Lemma collects_same {A} (m : st (list Term) E A) (k : A → st (list Term) E A) a :
  collects m a → collects (k a) a → collects (sbind m k) a.
Proof using. apply collects_bind. Qed.
Lemma collects_smap {A} (f : A → st (list Term) E A) ts : Forall (λ t, collects (f t) t) ts → collects (smap f ts) ts.
Proof using.
  induction 1 as [|t ts Ht _ IH]; cbn [smap]; [apply collects_ret|].
  apply (collects_bind _ _ t); [done|]. apply (collects_bind _ _ ts); [done|apply collects_ret].
Qed.

Lemma append_typ_params_collects t : typ_param_vars t ⊆ V → collects (append_typ_params_as_terms t) tt.
Proof using.
  intros HV. unfold append_typ_params_as_terms. set (ft := λ t : Typ, _ : st (list Term) E Typ).
  apply (collects_bind _ _ t); [|apply collects_ret].
  assert (Hsub : ∀ ts, ⋃ map typ_param_vars ts ⊆ V →
    Forall (λ t, typ_param_vars t ⊆ V → collects (map_typ_visitor_env ft t) t) ts → collects (smap (map_typ_visitor_env ft) ts) ts).
  { intros ts Hts H. apply collects_smap. apply Forall_forall. intros u Hu. rewrite Forall_forall in H. apply H; [done|].
    intros x Hx. apply Hts, elem_of_union_map. by exists u. }
  induction t as [| | | |ts t Hts IH|ts t k i Hts IH|f ts r Hts|d ts i Hts|d ts i Hts|d ts Hts|p ts Hts|d a t Ha IH|t IH|x
    |ts p n Hts|t IH| | | | |t IH] using typ_ind'; cbn [map_typ_visitor_env visit_typ_rec typ_param_vars] in *;
    (apply collects_same; [|try apply collects_ret]);
    try (by apply collects_ret);
    try (eapply collects_bind; [first [by apply Hsub | by apply IH]|apply collects_ret]).
  - eapply collects_bind; [apply Hsub; [set_solver|done]|]. eapply collects_bind; [apply IH; set_solver|apply collects_ret].
  - eapply collects_bind; [apply Hsub; [set_solver|done]|]. eapply collects_bind; [apply IH; set_solver|apply collects_ret].
  - apply (collects_bind _ _ a).
    + destruct a as [a|]; [|apply collects_ret]. eapply collects_bind; [apply Ha; set_solver|apply collects_ret].
    + eapply collects_bind; [apply IH; set_solver|apply collects_ret].
  - eapply (collects_bind _ _ tt); [|apply collects_ret]. intros l Hl. apply yields_modify. split; [done|].
    intros t [Ht|Ht]%elem_of_app; [by apply Hl|]. apply list_elem_of_singleton in Ht as ->. eexists. split; [done|]. set_solver.
Qed.

Lemma typ_terms_ok ts l : ⋃ map typ_param_vars ts ⊆ V → typ_terms (E := E) ts = Ok l → typ_terms_of V l.
Proof using.
  intros Hts. unfold typ_terms. destruct (siter _ ts []) as [[[] l']| |] eqn:Es; [|done..]. intros [= <-].
  enough (H : collects (siter append_typ_params_as_terms ts) tt).
  { eapply (H []) in Es as [_ H']; [done|]. by intros t ?%elem_of_nil. }
  clear Es. induction ts as [|t ts IH]; cbn [siter]; [apply collects_ret|]. cbn in Hts.
  apply (collects_bind _ _ tt); [apply append_typ_params_collects; set_solver|]. apply IH. set_solver.
Qed.
End typ_terms.

Lemma ctor_to_apply_err {E E'} ctx dt v r : ctor_to_apply (E := E) ctx dt v = Ok r → ctor_to_apply (E := E') ctx dt v = Ok r.
Proof. unfold ctor_to_apply. destruct (_ !! _); [|done]. destruct (List.find _ _); [|done]. by intros [= <-]. Qed.

Section gather.
Context {E : Type} (ctx : Ctx) (c0 : Ctxt) (exp0 : Exp).
Let all : bool := gather_for_all_triggers c0.
Implicit Types c : Ctxt.

Record inv c : Prop := {
  inv_vars : trigger_vars c = trigger_vars c0;
  inv_by_var : pure_terms_by_var c = pure_terms_by_var c0;
  inv_all : gather_for_all_triggers c = all;
  inv_keys : NoDup (map fst (pure_terms c));
  inv_index k t e j : pure_terms c !! k = Some (t, (e, j)) → j = k;
  inv_entry t e j : (t, (e, j)) ∈ pure_terms c → within e exp0 ∧ triggerable ctx all e ∧ tv c0 t ⊆ mentions e;
  inv_scores t : t ∈ map fst (pure_terms c) → is_Some (hget (pure_best_scores c) t)
}.
(** [r] is what [gather_terms] may return for [e]. *)
Definition gathered (e : Exp) (r : bool * Term) : Prop :=
  tv c0 r.2 ⊆ mentions e ∧ (r.1 = true → triggerable ctx all e).

Lemma tv_app_sub (a : App) (ts : list Term) (X : gset VarIdent) : (∀ t, t ∈ ts → tv c0 t ⊆ X) → tv c0 (TermX_App a ts) ⊆ X.
Proof using. intros H x (t & Ht & Hx)%elem_of_tv_app. by apply (H t). Qed.
Lemma tv_typ_term (V : gset VarIdent) t : (∃ x, t = TermX_Var x ∧ x ∈ V) → tv c0 t ⊆ V.
Proof using. intros (x & -> & Hx). rewrite tv_var. case_decide; set_solver. Qed.

Lemma add_to_all_inv term span c : inv c → inv (add_to_all term span c).
Proof using. intros []. unfold add_to_all. destruct (hcontains _ _); by split. Qed.

Lemma add_pure_inv term exp depth c : within exp exp0 → triggerable ctx all exp → tv c0 term ⊆ mentions exp →
  inv c → inv (add_pure term exp depth c).
Proof using.
  intros Hw Ht Hv []. unfold add_pure. destruct (trigger_var_depth c term depth) as [d|]; [|by split].
  assert (Hscore : ∀ best, (best = pure_best_scores c ∧ is_Some (hget best term)) ∨ best = hinsert (pure_best_scores c) term (make_score term d) →
    is_Some (hget best term) ∧ ∀ t, is_Some (hget (pure_best_scores c) t) → is_Some (hget best t)).
  { intros best [[-> H]| ->]; [done|]. rewrite hget_hinsert decide_True //. split; [by eexists|].
    intros t Ht'. rewrite hget_hinsert. case_decide; [by eexists|done]. }
  set (best := match hget (pure_best_scores c) term with Some _ => _ | None => _ end).
  destruct (Hscore best) as [Hb1 Hb2].
  { unfold best. destruct (hget (pure_best_scores c) term) eqn:Eb; [|by right]. destruct (score_lt _ _); [by right|].
    left. split; [done|]. by rewrite Eb. }
  destruct (hcontains (pure_terms c) term) eqn:Hk.
  - split; cbn; try done. intros t Hin. apply Hb2. auto.
  - apply hcontains_false in Hk. rewrite hinsert_new //. split; cbn; try done.
    + rewrite map_app. apply NoDup_app. split; [done|]. split; [|apply NoDup_singleton].
      intros t Hin Hin'. apply list_elem_of_singleton in Hin' as ->. done.
    + intros k t e j [H|[Hle H]]%lookup_app_Some; [eauto|]. apply list_lookup_singleton_Some in H as [H0 [= <- <- <-]]. lia.
    + intros t e j [H|H]%elem_of_app; [eauto|]. by apply list_elem_of_singleton in H as [= -> -> ->].
    + intros t. rewrite map_app. intros [H|H]%elem_of_app; [apply Hb2; auto|]. by apply list_elem_of_singleton in H as ->.
Qed.

Lemma record_term_ok exp depth p term c : within exp exp0 → tv c0 term ⊆ mentions exp → (p = true → triggerable ctx all exp) →
  inv c → yields (record_term (E := E) exp depth p term) c (λ r c', gathered exp r ∧ inv c').
Proof using.
  intros Hw Hv Hp Hi. unfold record_term.
  assert (Hret : yields (E := E) (sret (p, term)) c (λ r c', gathered exp r ∧ inv c')) by by apply yields_ret.
  assert (Hrec : yields (E := E) (smodify (add_to_all term (exp_span exp));!
    smodify (λ c, if p then add_pure term exp depth c else c);! sret (p, term)) c (λ r c', gathered exp r ∧ inv c')).
  { apply yields_bind, yields_modify, yields_bind, yields_modify, yields_ret. split; [done|].
    destruct p; [|by apply add_to_all_inv]. apply add_pure_inv; auto. by apply add_to_all_inv. }
  destruct term as [x|a ts]; [done|]. by destruct a.
Qed.

Lemma other_inv c : inv c → yields (other (E := E)) c (λ _ c', inv c').
Proof using. intros [] a c' [= <- <-]. by split. Qed.
Lemma other_app_ok (ts : list Term) (X : gset VarIdent) c : inv c → (∀ t, t ∈ ts → tv c0 t ⊆ X) →
  yields (other_app (E := E) ts) c (λ r c', r.1 = false ∧ tv c0 r.2 ⊆ X ∧ inv c').
Proof using.
  intros Hi Hts. unfold other_app. apply yields_bind. eapply yields_mono; [by apply other_inv|]. intros a c' Hi'.
  apply yields_ret. split; [done|]. split; [by apply tv_app_sub|done].
Qed.

(** The terms of a list of expressions. *)
Lemma gathered_args es rs : Forall2 gathered es rs →
  (∀ t, t ∈ map snd rs → tv c0 t ⊆ ⋃ map mentions es) ∧ (all_pure rs = true → allP (triggerable ctx all) es).
Proof using.
  induction 1 as [|e [p t] es rs [H1 H2] _ [IH1 IH2]]; cbn in *.
  - split; [by intros t ?%elem_of_nil|done].
  - split.
    + intros u [-> |Hu]%elem_of_cons; [set_solver|]. apply IH1 in Hu. set_solver.
    + intros [Hp Hps]%andb_true_iff. auto.
Qed.

Definition ctor_field (bs : Ast.Binders Exp) (n : Ident) : option Exp :=
  hget (map (λ b, let 'Ast.mkBinder n a := b in (n, a)) bs) n.
Lemma hget_fields {A} (f : Exp → A) bs n :
  hget (map (λ b, let 'Ast.mkBinder n a := b in (n, f a)) bs) n = f <$> ctor_field bs n.
Proof using. unfold ctor_field. induction bs as [|[m a] bs IH]; [done|]. cbn. by case_decide. Qed.
Lemma ctor_field_in bs n a : ctor_field bs n = Some a → a ∈ map Ast.ba bs.
Proof using.
  intros H%hget_In. apply list_elem_of_fmap in H as ([m b] & [= -> ->] & Hb). apply list_elem_of_fmap. by exists (Ast.mkBinder m b).
Qed.

Definition gathers (e : Exp) : Prop := ∀ d, within e exp0 → ∀ c, inv c →
  yields (gather_terms (E := E) ctx e d) c (λ r c', gathered e r ∧ inv c').

Lemma gather_list (es : list Exp) (d : Exp → N) c : Forall gathers es → (∀ e, e ∈ es → within e exp0) → inv c →
  yields (smap (λ e, gather_terms (E := E) ctx e (d e)) es) c (λ rs c', Forall2 gathered es rs ∧ inv c').
Proof using.
  intros Hes Hw Hi. rewrite Forall_forall in Hes. apply (yields_smap _ inv gathered); [done| |done].
  intros e c1 He Hi1. apply Hes; auto.
Qed.

(** The fields of a constructor application, in the order of the declaration. *)
Lemma gather_fields bs names d c : Forall gathers (map Ast.ba bs) → (∀ e, e ∈ map Ast.ba bs → within e exp0) → inv c →
  yields (smap (λ n, match hget (map (λ b, let 'Ast.mkBinder n e := b in (n, gather_terms (E := E) ctx e d)) bs) n with
                     | Some gather => gather | None => spanic end) names) c
    (λ rs c', (∀ t, t ∈ map snd rs → tv c0 t ⊆ ⋃ map (λ b, let 'Ast.mkBinder _ a := b in mentions a) bs)
      ∧ (all_pure rs = true → allP (λ n, match hget (map (λ b, let 'Ast.mkBinder n a := b in (n, triggerable ctx all a)) bs) n
                                        with Some P => P | None => False end) names)
      ∧ inv c').
Proof using.
  intros Hes Hw Hi. rewrite Forall_forall in Hes.
  apply (yields_smap _ inv (λ n r, ∃ a, ctor_field bs n = Some a ∧ gathered a r)); [done| |].
  - intros n c1 _ Hi1. rewrite hget_fields. destruct (ctor_field bs n) as [a|] eqn:Hn; [|by apply yields_panic].
    pose proof (ctor_field_in bs n a Hn) as Ha. cbn. eapply yields_mono; [by apply Hes; auto|]. intros r c2 [Hr Hi2].
    split; [by exists a|done].
  - intros rs c1 Hrs Hi1. split; [|split; [|done]].
    + intros t Ht. apply list_elem_of_fmap in Ht as (r & -> & Hr).
      apply list_elem_of_lookup in Hr as [k Hk]. destruct (Forall2_lookup_r _ _ _ _ _ Hrs Hk) as (n & _ & a & Hn & [Hv _]).
      apply ctor_field_in, list_elem_of_fmap in Hn as ([m b] & -> & Hb). intros x Hx. apply elem_of_union_map.
      exists (Ast.mkBinder m b). split; [done|]. by apply Hv.
    + clear Hi1. induction Hrs as [|n [p t] names rs (a & Hn & [_ Hp]) _ IH]; [done|]. cbn. intros [Ht Hts]%andb_true_iff.
      split; [|by apply IH]. rewrite hget_fields Hn. by apply Hp.
Qed.

Definition one (e : Exp) (m : st Ctxt E (bool * Term)) : Prop := ∀ c, inv c → yields m c (λ r c', gathered e r ∧ inv c').

Lemma one_ret e p t : tv c0 t ⊆ mentions e → (p = true → triggerable ctx all e) → one e (sret (p, t)).
Proof using. intros Hv Hp c Hi. by apply yields_ret. Qed.
Lemma one_other e ts : (∀ t, t ∈ ts → tv c0 t ⊆ mentions e) → one e (other_app ts).
Proof using.
  intros Hts c Hi. eapply yields_mono; [by apply (other_app_ok ts (mentions e))|]. intros r c' (Hr & Hv & Hi').
  split; [|done]. split; [done|]. by rewrite Hr.
Qed.
Lemma one_other_pure e p ts : (∀ t, t ∈ ts → tv c0 t ⊆ mentions e) → (p = true → triggerable ctx all e) →
  one e (let! a := other in sret (p, TermX_App a ts)).
Proof using.
  intros Hts Hp c Hi. apply yields_bind. eapply yields_mono; [by apply other_inv|]. intros a c' Hi'.
  apply yields_ret. split; [|done]. split; [by apply tv_app_sub|done].
Qed.
Lemma one_panic e : one e spanic.
Proof using. intros c Hi. apply yields_panic. Qed.
Lemma one_bind e e1 d (k : bool * Term → st Ctxt E (bool * Term)) : gathers e1 → within e1 exp0 →
  (∀ r, gathered e1 r → one e (k r)) → one e (sbind (gather_terms ctx e1 d) k).
Proof using.
  intros H1 Hw Hk c Hi. apply yields_bind. eapply yields_mono; [by apply H1|]. intros r c' [Hr Hi']. by apply Hk.
Qed.
Lemma one_same e e1 d : gathers e1 → within e1 exp0 → mentions e1 ⊆ mentions e → (triggerable ctx all e1 → triggerable ctx all e) →
  one e (gather_terms ctx e1 d).
Proof using.
  intros H1 Hw Hm Ht c Hi. eapply yields_mono; [by apply H1|]. intros r c' [[Hr1 Hr2] Hi']. split; [|done]. split; [set_solver|auto].
Qed.
Lemma single (e1 : Exp) t : tv c0 t ⊆ mentions e1 → ∀ u, u ∈ [t] → tv c0 u ⊆ mentions e1.
Proof using. intros H u ->%list_elem_of_singleton. done. Qed.

Lemma one_unary s t op e1 d : gathers e1 → within e1 exp0 →
  one (mkExp s t (ExpX_Unary op e1)) (let 'mkExp _ _ x := mkExp s t (ExpX_Unary op e1) in
    match x with
    | ExpX_Unary (UnaryOp_Trigger _ | UnaryOp_CoerceMode _ _ _ _ | UnaryOp_MustBeFinalized
                  | UnaryOp_MustBeElaborated) e1 => gather_terms ctx e1 d
    | ExpX_Unary UnaryOp_MutRefCurrent e1 =>
      let! (p, arg) := gather_terms ctx e1 (d + 1)%N in sret (p, TermX_App App_MutRefCurrent [arg])
    | ExpX_Unary (UnaryOp_MutRefFuture _) e1 =>
      let! (p, arg) := gather_terms ctx e1 (d + 1)%N in sret (p, TermX_App App_MutRefFuture [arg])
    | ExpX_Unary op e1 =>
      let! (p, term1) := gather_terms ctx e1 (unary_depth op) in
      match op with
      | UnaryOp_BitNot _ => sret (p, TermX_App (App_BitOp BitOpName_BitNot) [term1])
      | _ => other_app [term1]
      end
    | _ => spanic
    end).
Proof using.
  intros H1 Hw. destruct op; cbn; try (by apply one_same);
    (apply (one_bind _ e1); [done..|]); intros [p u] [Hv Hp]; cbn in Hv, Hp;
    first [by apply one_other, single | by apply one_ret; [apply tv_app_sub, single|]].
Qed.
Lemma one_unary_opr s t op e1 d : gathers e1 → within e1 exp0 →
  one (mkExp s t (ExpX_UnaryOpr op e1)) (
      match op with
      | UnaryOpr_Box _ | UnaryOpr_Unbox _ | UnaryOpr_LoopIsolationBoundary _ => spanic
      | UnaryOpr_CustomErr _ | UnaryOpr_ProofNote _ | UnaryOpr_AutoDecreases | UnaryOpr_AutoLoopEnsures
      | UnaryOpr_IntegerTypeBound _ => gather_terms ctx e1 d
      | UnaryOpr_HasType _ => other_app []
      | UnaryOpr_IsVariant _ _ | UnaryOpr_ToDyn _ _ =>
        let! (_, term1) := gather_terms ctx e1 1%N in other_app [term1]
      | UnaryOpr_HasResolved _ =>
        let! (p, term1) := gather_terms ctx e1 (d + 1)%N in
        let! a := other in sret (p, TermX_App a [term1])
      | UnaryOpr_Field f =>
        let! (p, arg) := gather_terms ctx e1 (d + 1)%N in
        sret (p, TermX_App (App_Field (datatype f) (variant f) (field f)) [arg])
      end).
Proof using.
  intros H1 Hw. destruct op; cbn; try (by apply one_same); try apply one_panic;
    try (apply one_other; by intros ? ?%elem_of_nil);
    (apply (one_bind _ e1); [done..|]); intros [p u] [Hv Hp]; cbn in Hv, Hp;
    first [by apply one_other, single | by apply one_ret; [apply tv_app_sub, single|] | by apply one_other_pure; [apply single|]].
Qed.

Lemma pair_mentions (t1 t2 : Term) (X : gset VarIdent) : tv c0 t1 ⊆ X → tv c0 t2 ⊆ X → ∀ t, t ∈ [t1; t2] → tv c0 t ⊆ X.
Proof using. intros H1 H2 t [-> |H]%elem_of_cons; [done|]. by apply list_elem_of_singleton in H as ->. Qed.
Lemma one_binary s t op e1 e2 : gathers e1 → gathers e2 → within e1 exp0 → within e2 exp0 →
  one (mkExp s t (ExpX_Binary op e1 e2)) (
      let! (p1, term1) := gather_terms ctx e1 (binary_depth op) in
      let! (p2, term2) := gather_terms ctx e2 (binary_depth op) in
      match op with
      | BinaryOp_Bitwise bp => sret (p1 && p2, TermX_App (App_BitOp (bit_op_name bp)) [term1; term2])
      | _ => other_app [term1; term2]
      end).
Proof using.
  intros H1 H2 Hw1 Hw2. apply (one_bind _ e1); [done..|]. intros [p1 t1] [Hv1 Hp1]. apply (one_bind _ e2); [done..|].
  intros [p2 t2] [Hv2 Hp2]. cbn in *.
  assert (Hts : ∀ t, t ∈ [t1; t2] → tv c0 t ⊆ mentions e1 ∪ mentions e2) by (apply pair_mentions; set_solver).
  destruct op; try by apply one_other. apply one_ret; [by apply tv_app_sub|]. intros [H1' H2']%andb_true_iff. cbn. auto.
Qed.
Lemma one_ext_eq s t deep typ e1 e2 : gathers e1 → gathers e2 → within e1 exp0 → within e2 exp0 →
  one (mkExp s t (ExpX_BinaryOpr (BinaryOpr_ExtEq deep typ) e1 e2)) (
      let! (p1, term1) := gather_terms ctx e1 0%N in
      let! (p2, term2) := gather_terms ctx e2 0%N in
      let! all := sread gather_for_all_triggers in
      if all : bool then
        let! ts := lifts (typ_terms [typ]) in
        sret (p1 && p2, TermX_App App_ExtEq ([term1; term2] ++ ts))
      else other_app [term1; term2]).
Proof using.
  intros H1 H2 Hw1 Hw2. apply (one_bind _ e1); [done..|]. intros [p1 t1] [Hv1 Hp1]. apply (one_bind _ e2); [done..|].
  intros [p2 t2] [Hv2 Hp2]. cbn in *. intros c Hi. apply yields_bind, yields_read. rewrite (inv_all c Hi).
  assert (Hts : ∀ t, t ∈ [t1; t2] → tv c0 t ⊆ mentions e1 ∪ mentions e2 ∪ typ_param_vars typ) by (apply pair_mentions; set_solver).
  destruct all eqn:Hall.
  - apply yields_bind, yields_lift. intros ts Hty. apply yields_ret. split; [|done]. split.
    + apply tv_app_sub. intros u Hu. change (u ∈ [t1; t2] ++ ts) in Hu. apply elem_of_app in Hu as [Hu|Hu]; [by apply Hts|]. eapply typ_terms_ok in Hty; [|reflexivity].
      apply Hty, tv_typ_term in Hu. cbn in *. set_solver.
    + intros [H1' H2']%andb_true_iff. cbn. rewrite Hall. auto.
  - by apply one_other.
Qed.
Lemma one_call s t f typs args d : Forall gathers args → (∀ e, e ∈ args → within e exp0) →
  one (mkExp s t (ExpX_Call f typs args)) (
      let! rs := smap (λ e, gather_terms ctx e (d + 1)%N) args in
      let! ts := lifts (typ_terms typs) in
      call_term ctx f (all_pure rs) (ts ++ map snd rs)).
Proof using.
  intros Hes Hw c Hi. apply yields_bind. eapply yields_mono; [by apply (gather_list args (λ _, (d + 1)%N))|].
  intros rs c1 [Hrs Hi1]. apply gathered_args in Hrs as [Hv Hp]. apply yields_bind, yields_lift. intros ts Hty.
  set (e := mkExp s t (ExpX_Call f typs args)). assert (Hts : ∀ u, u ∈ ts ++ map snd rs → tv c0 u ⊆ mentions e).
  { intros u [Hu|Hu]%elem_of_app; cbn; [|apply Hv in Hu; set_solver]. eapply typ_terms_ok in Hty; [|reflexivity].
    apply Hty, tv_typ_term in Hu. set_solver. }
  unfold call_term. destruct f as [x r|x|fn]; [|by apply yields_panic|].
  - assert (Hret : no_auto_trigger ctx !! x ≠ Some true → one e (sret (all_pure rs, TermX_App (App_Call x) (ts ++ map snd rs)))).
    { intros Hn. apply one_ret; [by apply tv_app_sub|]. intros Hall. split; [done|by apply Hp]. }
    destruct (no_auto_trigger ctx !! x) as [[]|]; [by apply one_other|by apply Hret..].
  - assert (Hp' : all_pure rs = true → triggerable ctx all e) by (intros Hall; split; [done|by apply Hp]).
    destruct fn; first [by apply one_other_pure | by apply one_ret; [apply tv_app_sub|..]].
Qed.

Lemma gather_ok e : gathers e.
Proof using.
  induction e as [s t y IH] using exp_ind'. intros d Hw c Hi. cbn [gather_terms].
  enough (H : ∀ m, one (mkExp s t y) m → yields (sbind m (λ '(p, term), record_term (mkExp s t y) d p term)) c
      (λ r c', gathered (mkExp s t y) r ∧ inv c')).
  2: { intros m Hm. apply yields_bind. eapply yields_mono; [by apply Hm|]. intros [p u] c' [[Hv Hp] Hi']. by apply record_term_ok. }
  apply H. clear H c Hi.
  assert (Hsub : match y with ExpX_Bind _ _ _ => False | _ => True end → ∀ e, e ∈ children y → within e exp0).
  { intros Hy e He. by eapply within_step. }
  destruct y as [|x| | | | | |f ts es|e es|dt v bs|op|op e|op e|op e1 e2|[deep typ] e1 e2|e1 e2 e3|ts e|sp b e| |es|i|];
    cbn [children] in IH, Hsub; try apply one_panic; try (specialize (Hsub I)); rewrite ?Forall_cons in IH;
    repeat match goal with H : _ ∧ _ |- _ => destruct H end.
  - apply one_ret; [by apply tv_app_sub; intros ? ?%elem_of_nil|done].
  - apply one_ret; [|done]. rewrite tv_var. cbn. case_decide; set_solver.
  - apply one_ret; [by apply tv_app_sub; intros ? ?%elem_of_nil|done].
  - apply one_ret; [by apply tv_app_sub; intros ? ?%elem_of_nil|done].
  - by apply one_call.
  - assert (Hes : ∀ e, e ∈ es → within e exp0) by (intros e' He'; apply Hsub; by right).
    apply (one_bind _ e); [done|apply Hsub; left|]. intros [p0 t0] [Hv0 _] c Hi. apply yields_bind.
    eapply yields_mono; [by apply (gather_list es (λ _, 1%N))|]. intros rs c1 [Hrs Hi1]. apply gathered_args in Hrs as [Hv _].
    apply one_other; [|done]. cbn in *. intros u [-> |Hu]%elem_of_cons; [set_solver|]. apply Hv in Hu. set_solver.
  - intros c Hi. apply yields_bind, yields_lift. intros [v' names] Hnames. apply yields_bind.
    eapply yields_mono; [by apply gather_fields|]. intros rs c1 (Hv & Hp & Hi1). apply yields_ret. split; [|done]. split.
    + by apply tv_app_sub.
    + intros Hall. cbn. rewrite (ctor_to_apply_err (E' := TriggerErr) _ _ _ _ Hnames). by apply Hp.
  - apply one_other. by intros ? ?%elem_of_nil.
  - apply one_unary; [done|apply Hsub; left].
  - apply one_unary_opr; [done|apply Hsub; left].
  - apply one_binary; [done..|apply Hsub; left|apply Hsub; right; left].
  - apply one_ext_eq; [done..|apply Hsub; left|apply Hsub; right; left].
  - apply (one_bind _ e1); [done|apply Hsub; left|]. intros [p1 t1] [Hv1 _]. apply (one_bind _ e2); [done|apply Hsub; right; left|].
    intros [p2 t2] [Hv2 _]. apply (one_bind _ e3); [done|apply Hsub; right; right; left|]. intros [p3 t3] [Hv3 _].
    apply one_other. cbn in *. intros u [-> |[-> |Hu%list_elem_of_singleton]%elem_of_cons]%elem_of_cons; set_solver.
  - apply one_other. by intros ? ?%elem_of_nil.
  - apply one_ret; [by apply tv_app_sub; intros ? ?%elem_of_nil|done].
  - intros c Hi. apply yields_bind. eapply yields_mono; [by apply (gather_list es (λ _, (d + 1)%N))|].
    intros rs c1 [Hrs Hi1]. apply gathered_args in Hrs as [Hv Hp]. by apply one_other_pure.
Qed.
End gather.

(** ** Terms that may loop *)

Lemma foldl_hremove {K V} `{EqDecision K} (m : list (K * V)) ks : foldl hremove m ks = filter (λ p, p.1 ∉ ks) m.
Proof.
  revert m. induction ks as [|k ks IH]; intros m; cbn [foldl].
  - induction m as [|p m IHm]; [done|]. rewrite filter_cons_True; [apply not_elem_of_nil|]. by rewrite -IHm.
  - rewrite IH. unfold hremove. rewrite list_filter_filter. apply list_filter_iff. intros p. rewrite not_elem_of_cons. tauto.
Qed.

Lemma filter_Forall_iff {A} (P Q : A → Prop) `{!∀ x, Decision (P x), !∀ x, Decision (Q x)} l :
  Forall (λ x, P x ↔ Q x) l → filter P l = filter Q l.
Proof.
  induction 1 as [|x l Hx _ IH]; [done|]. destruct (decide (P x)) as [Hp|Hp].
  - rewrite !filter_cons_True //; [by apply Hx|]. by rewrite IH.
  - rewrite !filter_cons_False //. by rewrite -Hx.
Qed.

Section loops.
Context (hash_order : N → ∀ A, list A → list A) (hash_order_perm : ∀ n A l, hash_order n A l ≡ₚ l) (span : Span).
Implicit Types c : Ctxt.

Definition loops_with c (pure term : Term) : bool :=
  let '(eq, bigger) := structure_matches c pure term in eq && bigger.
Definition loops c (pure : Term) : bool :=
  match pure with
  | TermX_Var _ | TermX_App (App_VarAt _ _) _ => false
  | TermX_App app _ =>
    match hget (all_terms_by_app c) app with
    | Some terms => existsb (loops_with c pure) (map fst terms)
    | None => false
    end
  end.
(** The context in which covers are searched, from what was gathered. *)
Definition without_loops c : Ctxt := set_pure c (filter (λ p, loops c p.1 = false) (pure_terms c)).

Lemma iterate_yields {A} (l : list A) t (Q : list A → Timer → Prop) :
  (∀ l' t', l' ≡ₚ l → Q l' t') → yields (iterate hash_order l) t Q.
Proof using hash_order_perm. intros HQ x s' [= <- <-]. apply HQ, hash_order_perm. Qed.
Lemma matches_any_yields c pure ts t : yields (matches_any span c pure ts) t (λ b _, b = existsb (loops_with c pure) ts).
Proof using.
  revert t. induction ts as [|u ts IH]; intros t; cbn [matches_any]; [by apply yields_ret|].
  apply yields_bind. intros [] t'. unfold check_timeout. destruct (_ =? _)%N; [done|]. intros _.
  cbn [existsb]. unfold loops_with at 1. destruct (structure_matches c pure u) as [eq bigger].
  destruct (eq && bigger); [by apply yields_ret|]. eapply yields_mono; [apply IH|]. by intros b t2 ->.
Qed.
Lemma may_loop_yields c pure t : yields (may_loop hash_order span c pure) t (λ b _, b = loops c pure).
Proof using hash_order_perm.
  unfold may_loop, loops. destruct pure as [x|a ts]; [by apply yields_ret|].
  assert (H : yields (match hget (all_terms_by_app c) a with
    | Some terms => let! terms := iterate hash_order (map fst terms) in matches_any span c (TermX_App a ts) terms
    | None => sret false end) t (λ b _, b = match hget (all_terms_by_app c) a with
    | Some terms => existsb (loops_with c (TermX_App a ts)) (map fst terms) | None => false end)).
  { destruct (hget _ a) as [us|]; [|by apply yields_ret]. apply yields_bind, iterate_yields. intros us' t' Hp.
    eapply yields_mono; [apply matches_any_yields|]. intros b _ ->. clear -Hp.
    apply eq_true_iff_eq. rewrite !existsb_exists. setoid_rewrite <- list_elem_of_In. by setoid_rewrite Hp. }
  destruct a; try exact H. by apply yields_ret.
Qed.
Lemma remove_loops_yields c t : yields (remove_obvious_potential_loops hash_order span c) t (λ c' _, c' = without_loops c).
Proof using hash_order_perm.
  unfold remove_obvious_potential_loops. apply yields_bind, iterate_yields. intros keys t1 Hkeys. apply yields_bind.
  apply (yields_smap _ (λ _, True) (λ pure l, l = if loops c pure then [pure] else [])); [done| |].
  - intros pure t2 _ _. apply yields_bind. eapply yields_mono; [apply may_loop_yields|]. intros b t3 ->. by apply yields_ret.
  - intros ls t2 Hls _. apply yields_ret. unfold without_loops. f_equal. rewrite foldl_hremove.
    assert (Hin : ∀ k, k ∈ concat ls ↔ k ∈ keys ∧ loops c k = true).
    { intros k. clear Hkeys. induction Hls as [|pure l keys ls -> _ IH]; cbn.
      - split; [by intros ?%elem_of_nil|by intros [?%elem_of_nil _]].
      - rewrite elem_of_app IH elem_of_cons. destruct (loops c pure) eqn:Hl.
        + rewrite list_elem_of_singleton. naive_solver.
        + split; [intros [?%elem_of_nil|?]; naive_solver|]. intros [[-> |?] ?]; [congruence|naive_solver]. }
    apply filter_Forall_iff, Forall_forall. intros p Hp. rewrite Hin Hkeys -not_true_iff_false.
    split; [|naive_solver]. intros Hn Ht. apply Hn. split; [|done]. by apply list_elem_of_fmap_2.
Qed.
End loops.

(** ** The terms of each variable *)

Definition add_terms_of (V : list VarIdent) (term : Term) (sp : Span) (m : gmap VarIdent (list (Term * Span))) :=
  foldl (λ m x, alter (λ ts, hinsert ts term sp) x m) m V.
Lemma add_terms_of_lookup V term sp m x : NoDup V →
  add_terms_of V term sp m !! x = if decide (x ∈ V) then (λ ts, hinsert ts term sp) <$> m !! x else m !! x.
Proof.
  unfold add_terms_of. intros HV. revert m. induction HV as [|y V Hy _ IH]; intros m; cbn [foldl].
  - case_decide as H; [by apply elem_of_nil in H|done].
  - rewrite IH. destruct (decide (x = y)) as [-> |Hne].
    + rewrite (decide_False (P := y ∈ V)) // lookup_alter_eq. destruct (decide (y ∈ y :: V)) as [|[]]; [done|left].
    + rewrite lookup_alter_ne //. repeat case_decide; set_solver.
Qed.

Section by_var.
Context (c : Ctxt).
(** [ts] lists those of the terms [ks] in which [x] occurs. *)
Definition lists_terms (x : VarIdent) (ks : list Term) (ts : list (Term * Span)) : Prop :=
  NoDup (map fst ts) ∧ ∀ t, t ∈ map fst ts ↔ t ∈ ks ∧ x ∈ tv c t.

Lemma hinsert_keys (ts : list (Term * Span)) t sp u : u ∈ map fst (hinsert ts t sp) ↔ u = t ∨ u ∈ map fst ts.
Proof.
  destruct (decide (u = t)) as [->|Hne].
  - split; [by left|]. intros _. destruct (decide (t ∈ map fst (hinsert ts t sp))) as [|Hn]; [done|].
    apply hget_None in Hn. rewrite hget_hinsert decide_True // in Hn.
  - assert (H : u ∉ map fst (hinsert ts t sp) ↔ u ∉ map fst ts) by by rewrite -!hget_None hget_hinsert decide_False.
    destruct (decide (u ∈ map fst (hinsert ts t sp))), (decide (u ∈ map fst ts)); tauto.
Qed.

Lemma fill_lookup (pure : list (Term * (Exp * nat))) x : ∀ ks (m : gmap VarIdent (list (Term * Span))) ts, m !! x = Some ts → lists_terms x ks ts →
  ∃ ts', foldl (λ m '(term, (e, _)),
       foldl (λ m x, alter (λ ts, hinsert ts term (exp_span e)) x m) m (elements (trigger_vars_in_term c term ∅))) m pure !! x = Some ts'
    ∧ lists_terms x (map fst pure ++ ks) ts'.
Proof.
  induction pure as [|[t [e i]] pure IH]; intros ks m ts Hm Hts; cbn [foldl]; [by exists ts|].
  destruct (IH (t :: ks) (add_terms_of (elements (tv c t)) t (exp_span e) m)
    (if decide (x ∈ tv c t) then hinsert ts t (exp_span e) else ts)) as (ts' & H1 & H2 & H3).
  - rewrite add_terms_of_lookup; [apply NoDup_elements|]. rewrite Hm. repeat case_decide; set_solver.
  - destruct Hts as [Hnd Hts]. split; [case_decide; [by apply hinsert_keys_NoDup|done]|]. intros u.
    case_decide as Hx; [rewrite hinsert_keys|]; rewrite Hts elem_of_cons; naive_solver.
  - exists ts'. split; [exact H1|]. split; [done|]. intros u. rewrite H3 !elem_of_app elem_of_cons. cbn. rewrite elem_of_cons. tauto.
Qed.
End by_var.

Section candidates.
Context (hash_order : N → ∀ A, list A → list A) (hash_order_perm : ∀ n A l, hash_order n A l ≡ₚ l).
Context (ctx : Ctx) (span : Span) (vars : list VarIdent) (exp : Exp) (auto_trigger : AutoType).
Let c0 : Ctxt := initial_ctxt vars auto_trigger.
Let all : bool := bool_decide (auto_trigger = AutoType_All).

Lemma gather_initial_inv : inv ctx c0 exp c0.
Proof using.
  split; try done; cbn.
  - constructor.
  - by intros t e j ?%elem_of_nil.
  - by intros t ?%elem_of_nil.
Qed.

Lemma initial_lookup x : x ∈ vars → pure_terms_by_var c0 !! x = Some [].
Proof using.
  cbn. induction vars as [|y l IH]; [by intros ?%elem_of_nil|]. intros Hx. cbn. destruct (decide (x = y)) as [->|].
  - apply lookup_insert_eq.
  - rewrite lookup_insert_ne //. apply IH. by apply elem_of_cons in Hx as [?|?].
Qed.

(** The entries that the search uses. *)
Record entries_ok (c : Ctxt) : Prop := {
  entries_vars : trigger_vars c = list_to_set vars;
  entries_all : gather_for_all_triggers c = all;
  entries_exp t e j : hget (pure_terms c) t = Some (e, j) → within e exp ∧ triggerable ctx all e ∧ tv c t ⊆ mentions e
}.

Lemma tv_vars c c' t : trigger_vars c = trigger_vars c' → tv c t = tv c' t.
Proof using.
  intros H. apply set_eq. induction t as [x|a ts IH] using term_ind'; intros y.
  - by rewrite !tv_var H.
  - rewrite !elem_of_tv_app. rewrite Forall_forall in IH. split; intros (t & Ht & Hy); exists t; (split; [done|]); by apply (IH t Ht).
Qed.

(** A context that was gathered, without what may loop. *)
Lemma gathered_ok c : inv ctx c0 exp c → ctxt_ok (fill_by_var (without_loops c)) ∧ entries_ok (fill_by_var (without_loops c)).
Proof using.
  intros Hi. set (c' := fill_by_var (without_loops c)).
  assert (Hentry : ∀ t p, hget (pure_terms c') t = Some p → (t, p) ∈ pure_terms c).
  { intros t p H%hget_In. by apply list_elem_of_filter in H as [_ H]. }
  assert (Hv : trigger_vars c' = list_to_set vars) by apply (inv_vars ctx c0 exp c Hi).
  split; split.
  - intros t [p Hp]. apply (inv_scores ctx c0 exp c Hi). apply Hentry in Hp. by apply (list_elem_of_fmap_2 fst) in Hp.
  - intros t u p q i Ht Hu. apply Hentry, list_elem_of_lookup in Ht as [k Ht], Hu as [k' Hu].
    pose proof (inv_index ctx c0 exp c Hi _ _ _ _ Ht). pose proof (inv_index ctx c0 exp c Hi _ _ _ _ Hu). subst. rewrite Ht in Hu. by injection Hu.
  - intros x Hx. destruct (fill_lookup (without_loops c) (pure_terms c') x [] (pure_terms_by_var c) []) as (ts & H1 & H2 & H3).
    + rewrite (inv_by_var ctx c0 exp c Hi). apply initial_lookup. rewrite Hv in Hx. by apply elem_of_list_to_set in Hx.
    + split; [constructor|]. intros t. split; [by intros ?%elem_of_nil|by intros [?%elem_of_nil _]].
    + exists ts. split; [|split; [done|split]].
      * by rewrite -H1.
      * intros t sp Ht. apply (list_elem_of_fmap_2 fst), H3 in Ht as [Ht Hxt]. split; [|by rewrite (tv_vars c' (without_loops c))].
        rewrite app_nil_r in Ht. destruct (hget (pure_terms c') t) as [p|] eqn:Hg; [by exists p|]. by apply hget_None in Hg.
      * intros t [p Hp] Hxt. apply H3. split; [|by rewrite -(tv_vars c' (without_loops c))]. rewrite app_nil_r. apply hget_In in Hp.
        by apply (list_elem_of_fmap_2 fst) in Hp.
  - done.
  - apply (inv_all ctx c0 exp c Hi).
  - intros t e j Ht. destruct (inv_entry ctx c0 exp c Hi t e j) as (Hw & Ht' & Hm); [by apply Hentry|].
    split; [done|]. split; [done|]. by rewrite (tv_vars c' c0).
Qed.
End candidates.
