(* ===== verification/Triggers.v ===== *)
(** * Manual triggers (source/vir/src/triggers.rs)

    Annotated triggers are collected with the variables that they cover; without any, the
    triggers are chosen by [TriggersAuto].  The report on the triggers keeps their spans,
    not their text. *)

From S2P Require Import Prelude StateRes RustString VirMessages VirAst VirAstUtil Sst SstUtil TriggersAuto.
From S2P Require Ast ScopeMap.
Set Warnings "-rewrite-rw,-register-all,-clear-no-such-hyp".
Local Open Scope string_scope.
Local Open Scope list_scope.
Local Open Scope st_scope.

(** ** Visiting expressions and their types (source/vir/src/sst_visitor.rs) *)

Section exp_typ_dfs.
Context {S T : Type}.
Variable fe : Exp → VisitorScopeMap → st S T (VisitorControlFlow T).
Variable ft : Typ → VisitorScopeMap → st S T (VisitorControlFlow T).

Definition controlled {A} (f : A → VisitorScopeMap → st S T (VisitorControlFlow T))
    (visit_rec : A → st (VisitorScopeMap * S) T A) (x : A) : st (VisitorScopeMap * S) T A :=
  let! m := sread fst in
  let! c := on_part snd (λ t s, (s.1, t)) (f x m) in
  match c with
  | VisitorControlFlow_Stop val => serr val
  | VisitorControlFlow_Return => sret x
  | VisitorControlFlow_Recurse => visit_rec x
  end.
Fixpoint walk_typ (typ : Typ) : st (VisitorScopeMap * S) T Typ := controlled ft (visit_typ_rec walk_typ) typ.
Fixpoint walk_exp (exp : Exp) : st (VisitorScopeMap * S) T Exp :=
  controlled fe (visit_exp_rec walk_typ walk_exp dfs_scoper) exp.
End exp_typ_dfs.

(** [exp_typ_visitor_check] and [exp_visitor_check], whose visitors return nothing. *)
Definition checked {A S T} (f : A → VisitorScopeMap → st S T unit) (x : A) (m : VisitorScopeMap)
    : st S T (VisitorControlFlow T) :=
  f x m;! sret VisitorControlFlow_Recurse.
Definition exp_typ_visitor_check {S T} (exp : Exp) (fe : Exp → VisitorScopeMap → st S T unit)
    (ft : Typ → VisitorScopeMap → st S T unit) : st (VisitorScopeMap * S) T unit :=
  walk_exp (checked fe) (checked ft) exp;! sret tt.
Definition exp_visitor_check {S T} (exp : Exp) (f : Exp → VisitorScopeMap → st S T unit)
    : st (VisitorScopeMap * S) T unit :=
  dfs_visit_exp (checked f) exp;! sret tt.

(** ** Variables with a native type *)

Section native.
Variable bs : VarBinders Typ.
Local Abbreviation M := (st (gset VarIdent * gset VarIdent) Empty_set).

Definition check_arg (e : Exp) (is_native : bool) : M unit :=
  match exp_x e with
  | ExpX_Var x =>
    if existsb (λ b, bool_decide (vname b = x)) bs then
      smodify (λ '(natives, polys), if is_native then ({[ x ]} ∪ natives, polys) else (natives, {[ x ]} ∪ polys))
    else sret tt
  | _ => sret tt
  end.
Definition native_args (exp : Exp) : M unit :=
  match exp_x exp with
  | ExpX_Unary op arg =>
    check_arg arg (match op with UnaryOp_Clip _ _ | UnaryOp_NewStrLit => true | _ => false end)
  | ExpX_UnaryOpr op arg =>
    check_arg arg (match op with UnaryOpr_IntegerTypeBound _ => true | _ => false end)
  | ExpX_Binary op arg1 arg2 =>
    let native := match op with
                  | BinaryOp_Inequality _ | BinaryOp_Arith _ | BinaryOp_StrGetChar => true
                  | _ => false
                  end in
    check_arg arg1 native;! check_arg arg2 native
  | ExpX_BinaryOpr _ arg1 arg2 => check_arg arg1 false;! check_arg arg2 false
  | ExpX_Call _ _ args | ExpX_CallLambda _ args => siter (λ arg, check_arg arg false) args
  | _ => sret tt
  end.
Fixpoint native_vars (exp : Exp) : M Exp := native_args exp;! visit_exp_rec sret native_vars no_scoper exp.
Definition native_quant_vars (triggers : Trigs) : res Empty_set (gset VarIdent) :=
  rbind (smap (smap native_vars) triggers (∅, ∅)) (λ '(_, (natives, polys)), Ok (natives ∖ polys)).
End native.

(** ** Checking a trigger *)

Definition preprocess_exp {E} (exp : Exp) : res E Exp :=
  match exp_x exp with
  | ExpX_UnaryOpr (UnaryOpr_Box _ | UnaryOpr_Unbox _) _ => Panic
  | ExpX_Binary (BinaryOp_HeightCompare _ _) e1 _ =>
    Ok (mkExp (exp_span exp) bool_typ (ExpX_Unary UnaryOp_HeightTrigger e1))
  | _ => Ok exp
  end.

Fixpoint check_trigger_expr_arg {E} (arg : Exp) : res E unit :=
  let 'mkExp _ _ x := arg in
  match x with
  | ExpX_Unary (UnaryOp_Trigger _ | UnaryOp_HeightTrigger | UnaryOp_CoerceMode _ _ _ _ | UnaryOp_MustBeFinalized
                | UnaryOp_MustBeElaborated) arg => check_trigger_expr_arg arg
  | ExpX_UnaryOpr (UnaryOpr_Box _ | UnaryOpr_Unbox _) _ => Panic
  | ExpX_UnaryOpr (UnaryOpr_ProofNote _ | UnaryOpr_CustomErr _ | UnaryOpr_ToDyn _ _ | UnaryOpr_AutoDecreases
                   | UnaryOpr_AutoLoopEnsures) arg => check_trigger_expr_arg arg
  | _ => Ok tt
  end.
Definition check_trigger_expr_args {E} (args : list Exp) : res E unit :=
  rbind (rmap check_trigger_expr_arg args) (λ _, Ok tt).

Definition contain_binders : string := "triggers cannot contain `let`/`forall`/`exists`/`lambda`/`choose`".

Definition get_free_vars (exp : Exp) : res VirErr (gset VarIdent) :=
  rbind (exp_typ_visitor_check exp
    (λ exp _,
      match exp_x exp with
      | ExpX_Var x => smodify (union {[ x ]})
      | ExpX_Bind _ _ _ => serr (error (exp_span exp) contain_binders)
      | _ => sret tt
      end)
    (λ typ _, match typ with TypX_TypParam x => smodify (union {[ suffix_typ_param_id x ]}) | _ => sret tt end)
    (ScopeMap.new, ∅)) (λ '(_, (_, free_vars)), Ok free_vars).

(** The operators that a trigger may start with. *)
Definition trigger_head (exp : Exp) : bool :=
  match exp_x exp with
  | ExpX_Call _ _ _ | ExpX_CallLambda _ _ => true
  | ExpX_UnaryOpr (UnaryOpr_Field _ | UnaryOpr_IsVariant _ _ | UnaryOpr_HasResolved _ | UnaryOpr_AutoDecreases
                   | UnaryOpr_AutoLoopEnsures) _ => true
  | ExpX_Unary (UnaryOp_Trigger _ | UnaryOp_HeightTrigger | UnaryOp_BitNot _ | UnaryOp_Clip _ _ | UnaryOp_IeeeFloat _) _ => true
  | ExpX_Binary (BinaryOp_Bitwise _ | BinaryOp_Index _ | BinaryOp_StrGetChar | BinaryOp_Arith _ | BinaryOp_IeeeFloat _) _ _ => true
  | ExpX_BinaryOpr (BinaryOpr_ExtEq _ _) _ _ => true
  | _ => false
  end.

(** What [check_trigger_expr] checks of each expression in a trigger. *)
Definition check_trigger_part (scope_map : VisitorScopeMap) (exp : Exp) : res VirErr unit :=
  let err s := Err (error (exp_span exp) s) in
  match exp_x exp with
  | ExpX_Const _ | ExpX_StaticVar _ | ExpX_Loc _ | ExpX_VarLoc _ | ExpX_ExecFnByName _ | ExpX_VarAt _ _ => Ok tt
  | ExpX_CallLambda _ args | ExpX_Call _ _ args => check_trigger_expr_args args
  | ExpX_Ctor _ _ bs => check_trigger_expr_args (map Ast.ba bs)
  | ExpX_ArrayLiteral _ => err "triggers cannot contain array literals"
  | ExpX_Var x =>
    match ScopeMap.get scope_map x with
    | Some BndKind_Let => err "let variables in triggers not supported, use `#![trigger ...]` instead"
    | _ => Ok tt
    end
  | ExpX_Old _ _ => Panic
  | ExpX_NullaryOpr (NullaryOpr_ConstGeneric _) => Ok tt
  | ExpX_NullaryOpr (NullaryOpr_TraitBound _ _ | NullaryOpr_TypEqualityBound _ _ _ _) =>
    err "triggers cannot contain trait bounds"
  | ExpX_NullaryOpr (NullaryOpr_ConstTypBound _ _) => err "triggers cannot contain const type bounds"
  | ExpX_Unary op arg =>
    match op with
    | UnaryOp_NewStrLit | UnaryOp_StrLen | UnaryOp_BitNot _ | UnaryOp_MutRefCurrent | UnaryOp_MutRefFuture _
    | UnaryOp_MutRefFinal _ | UnaryOp_Clip _ _ | UnaryOp_IntToReal | UnaryOp_RealToInt | UnaryOp_FloatToBits
    | UnaryOp_IeeeFloat _ => check_trigger_expr_arg arg
    | UnaryOp_Trigger _ | UnaryOp_HeightTrigger | UnaryOp_CoerceMode _ _ _ _ | UnaryOp_MustBeFinalized
    | UnaryOp_MustBeElaborated | UnaryOp_CastToInteger => Ok tt
    | UnaryOp_Not => err "triggers cannot contain boolean operators"
    | UnaryOp_Length _ => err "triggers cannot contain the array/slice length operator"
    end
  | ExpX_UnaryOpr op arg =>
    match op with
    | UnaryOpr_Box _ | UnaryOpr_Unbox _ | UnaryOpr_HasType _ => Panic
    | UnaryOpr_CustomErr _ | UnaryOpr_AutoDecreases | UnaryOpr_AutoLoopEnsures | UnaryOpr_ProofNote _
    | UnaryOpr_ToDyn _ _ => Ok tt
    | UnaryOpr_IsVariant _ _ | UnaryOpr_Field _ | UnaryOpr_IntegerTypeBound _ | UnaryOpr_HasResolved _ =>
      check_trigger_expr_arg arg
    | UnaryOpr_LoopIsolationBoundary _ => err "triggers cannot contain `loop_isolation_boundary`"
    end
  | ExpX_Binary op arg1 arg2 =>
    match op with
    | BinaryOp_And | BinaryOp_Or | BinaryOp_Xor | BinaryOp_Implies | BinaryOp_Eq | BinaryOp_Ne =>
      err "triggers cannot contain boolean operators"
    | BinaryOp_HeightCompare _ _ => err "triggers cannot contain interior `is_smaller_than` expressions"
    | BinaryOp_Inequality _ => err "triggers cannot contain inequalities"
    | _ => check_trigger_expr_args [arg1; arg2]
    end
  | ExpX_BinaryOpr (BinaryOpr_ExtEq _ _) arg1 arg2 => check_trigger_expr_args [arg1; arg2]
  | ExpX_If _ _ _ => err "triggers cannot contain `if`/`else`"
  | ExpX_WithTriggers _ _ => err "triggers cannot contain `#![trigger ...]`"
  | ExpX_Bind _ _ _ => err contain_binders
  | ExpX_Interp _ | ExpX_FuelConst _ => Panic
  end.
Definition check_trigger_expr (exp : Exp) (scope_map : VisitorScopeMap) : res VirErr unit :=
  if negb (trigger_head exp) then
    Err (error (exp_span exp) "trigger must be a function call, a field access, or arithmetic operator")
  else
    rbind (exp_visitor_check exp (λ exp _, lifts (check_trigger_part scope_map exp)) (ScopeMap.new, tt)) (λ _, Ok tt).

(** ** Collecting the triggers *)

Definition is_inner_trigger (k : BndKind) : bool :=
  match k with BndKind_Quant | BndKind_Choose | BndKind_Lambda => true | BndKind_Let | BndKind_OuterTrigger => false end.
Definition is_outer_trigger (k : BndKind) : bool := match k with BndKind_OuterTrigger => true | _ => false end.

(** [triggers] is a [BTreeMap]: its entries in the order of their keys. *)
Definition Group := option N.
Record State := mkManual {
  auto_trigger : AutoType;
  triggers : list (Group * list Exp);
  coverage : gmap Group (gset VarIdent)
}.
Definition group_lt (g h : Group) : bool :=
  match g, h with None, Some _ => true | Some m, Some n => (m <? n)%N | _, None => false end.
Fixpoint btree_insert (m : list (Group * list Exp)) (g : Group) (es : list Exp) : list (Group * list Exp) :=
  match m with
  | [] => [(g, es)]
  | (h, es') :: m' =>
    if decide (g = h) then (h, es) :: m'
    else if group_lt g h then (g, es) :: m
    else (h, es') :: btree_insert m' g es
  end.

Definition set_auto (a : AutoType) (s : State) : State := mkManual a (triggers s) (coverage s).
(** Adds a trigger expression, and the variables it covers, to a group. *)
Definition push_trigger (group : Group) (e : Exp) (covered : gset VarIdent) (s : State) : State :=
  mkManual (auto_trigger s) (btree_insert (triggers s) group (default [] (hget (triggers s) group) ++ [e]))
    (<[ group := default ∅ (coverage s !! group) ∪ covered ]> (coverage s)).
Definition set_group (group : Group) (es : list Exp) (covered : gset VarIdent) (s : State) : State :=
  mkManual (auto_trigger s) (btree_insert (triggers s) group es) (<[ group := covered ]> (coverage s)).

(** The variables that [map] binds in a given way. *)
Definition is_bound_as (p : BndKind → bool) (map : VisitorScopeMap) (x : VarIdent) : bool :=
  match ScopeMap.get map x with Some k => p k | None => false end.
Definition bound_as (p : BndKind → bool) (map : VisitorScopeMap) (vars : gset VarIdent) : gset VarIdent :=
  filter (λ x, is_bound_as p map x = true) vars.

Definition annotated (group : Group) (e1 : Exp) (map : VisitorScopeMap) : st State VirErr unit :=
  let! free_vars := lifts (get_free_vars e1) in
  let! e1 := lifts (preprocess_exp e1) in
  if bool_decide (bound_as is_inner_trigger map free_vars = ∅) then
    lifts (check_trigger_expr e1 map);!
    let outer := bound_as is_outer_trigger map free_vars in
    if bool_decide (outer = ∅) then sret tt else smodify (push_trigger group e1 outer)
  else sret tt.

Definition with_triggers_expr (map : VisitorScopeMap) (e : Exp) : res VirErr (gset VarIdent) :=
  rbind (get_free_vars e) (λ free_vars,
  rbind (check_trigger_expr e map) (λ _, Ok (bound_as is_outer_trigger map free_vars))).
Definition with_triggers (map : VisitorScopeMap) (p : nat * list Exp) : st State VirErr unit :=
  let '(n, trigger) := p in
  let! es := lifts (rmap preprocess_exp trigger) in
  let! covered := lifts (rmap (with_triggers_expr map) es) in
  smodify (set_group (Some (N.of_nat n)) es (⋃ covered)).

Definition manual_visit (exp : Exp) (map : VisitorScopeMap) : st State VirErr unit :=
  match exp_x exp with
  | ExpX_Unary (UnaryOp_Trigger TriggerAnnotation_AutoTrigger) _ =>
    if (ScopeMap.num_scopes map =? 1)%nat then smodify (set_auto AutoType_Regular) else sret tt
  | ExpX_Unary (UnaryOp_Trigger TriggerAnnotation_AllTriggers) _ =>
    if (ScopeMap.num_scopes map =? 1)%nat then smodify (set_auto AutoType_All) else sret tt
  | ExpX_Unary (UnaryOp_Trigger (TriggerAnnotation_Trigger group)) e1 => annotated group e1 map
  | ExpX_WithTriggers triggers _ =>
    if (ScopeMap.num_scopes map =? 1)%nat then siter (with_triggers map) (imap pair triggers) else sret tt
  | _ => sret tt
  end.

(** The scope of the variables of the quantifier. *)
Definition insert_outer (x : VarIdent) (m : VisitorScopeMap) : res VirErr VisitorScopeMap :=
  match ScopeMap.insert_sm m x BndKind_OuterTrigger with Ok (true, m) => Ok m | _ => Panic end.
Definition outer_scope (vars : gset VarIdent) : res VirErr VisitorScopeMap :=
  foldr (λ x r, rbind r (insert_outer x)) (Ok (ScopeMap.push_scope ScopeMap.new false)) (elements vars).
Definition get_manual_triggers (trigger_vars : gset VarIdent) (exp : Exp) : res VirErr State :=
  rbind (outer_scope trigger_vars) (λ map,
  rbind (exp_visitor_check exp manual_visit (map, mkManual AutoType_None [] ∅)) (λ '(_, (map, s)),
  rbind (ScopeMap.pop_scope map) (λ map,
  if (ScopeMap.num_scopes map =? 0)%nat then Ok s else Panic))).

(** ** The triggers of a quantifier *)

Definition not_covered (group : Group) (x : VarIdent) : string :=
  "trigger" ++ match group with None => "" | Some id => " group " ++ N_to_string id end
  ++ " does not cover variable " ++ x.1.
Definition check_group (s : State) (span : Span) (vars : list VarIdent) (p : Group * list Exp) : res VirErr (list Exp) :=
  let '(group, trig) := p in
  rbind (rmap (λ x,
    match coverage s !! group with
    | None => Panic
    | Some covered => if decide (x ∈ covered) then Ok tt else Err (error span (not_covered group x))
    end) vars) (λ _, Ok trig).

Definition lift_vir_err {A} (r : res VirErr A) : res TriggerErr A :=
  match r with Ok x => Ok x | Err e => Err (TriggerErr_Err e) | Panic => Panic end.
Definition both_used : string :=
  "cannot use both manual triggers (`#[trigger]` or `#![trigger ...]`) and `#![auto]`".

Section build.
Context (hash_order : N → ∀ A, list A → list A) (ctx : Ctx).
Definition build_triggers (span : Span) (vars : list VarIdent) (exp : Exp) (allow_empty : bool)
    : res TriggerErr (ChosenTriggers * res VirErr Trigs) :=
  rbind (lift_vir_err (get_manual_triggers (list_to_set vars) exp)) (λ s,
  if negb (bool_decide (triggers s = [])) || allow_empty then
    if bool_decide (auto_trigger s = AutoType_None) then
      rbind (lift_vir_err (rmap (check_group s span vars) (triggers s))) (λ trigs,
      Ok (mkChosenTriggers (chosen_for ctx) span (map (map exp_span) trigs) false true, Ok trigs))
    else Err (TriggerErr_Err (error span both_used))
  else TriggersAuto.build_triggers hash_order ctx span vars exp (auto_trigger s)).
End build.
