(* ===== verification/TriggersCorrect.v ===== *)
(** * The triggers chosen for a quantifier

    [auto_triggers_return] (the search ends), [all_triggers_exact] and
    [best_triggers_exact] (what is chosen), [trigger_choice_stable] (the order of hash maps does
    not matter), [triggers_cover] (manual triggers too) and the defects found. *)

From stdpp Require Import sorting.
From S2P Require Import Prelude StateRes VirMessages VirAst VirAstUtil Sst SstUtil TriggersAuto.
From S2P Require Import TriggersSearch TriggersGather Triggers.
From S2P Require Ast ScopeMap.
Set Warnings "-rewrite-rw,-register-all,-clear-no-such-hyp".
Local Open Scope st_scope.

(** ** The search ends *)

Section settles.
Context {S : Type} (timed_out : TriggerErr).
(** [m] returns, or fails because the time is up. *)
Definition settles {A} (m : st S TriggerErr A) (s : S) (Q : A → S → Prop) : Prop :=
  match m s with Ok (a, s') => Q a s' | Err e => e = timed_out | Panic => False end.

Lemma settles_bind {A B} (m : st S TriggerErr A) (k : A → st S TriggerErr B) s Q :
  settles m s (λ a s', settles (k a) s' Q) → settles (sbind m k) s Q.
Proof using. unfold settles, sbind. by destruct (m s) as [[a s']| |]. Qed.
Lemma settles_mono {A} (m : st S TriggerErr A) s (P Q : A → S → Prop) :
  settles m s P → (∀ a s', P a s' → Q a s') → settles m s Q.
Proof using. unfold settles. destruct (m s) as [[a s']| |]; auto. Qed.
Lemma settles_intro {A} (m : st S TriggerErr A) s (Q : A → S → Prop) :
  match m s with Ok (a, s') => Q a s' | Err e => e = timed_out | Panic => False end → settles m s Q.
Proof using. done. Qed.
Lemma settles_ok {A} (x : A) s (Q : A → S → Prop) : Q x s → settles (lifts (Ok x)) s Q.
Proof using. done. Qed.
Lemma settles_modify f s (Q : unit → S → Prop) : Q tt (f s) → settles (smodify f) s Q.
Proof using. done. Qed.
Lemma settles_get s (Q : S → S → Prop) : Q s s → settles sget s Q.
Proof using. done. Qed.
End settles.

Section search.
Context (hash_order : N → ∀ A, list A → list A) (hash_order_perm : ∀ n A l, hash_order n A l ≡ₚ l).
Context (span : Span) (c : Ctxt) (Hc : ctxt_ok c) (all : bool).
Definition timed_out : TriggerErr := TriggerErr_Err (error span too_large).
Local Abbreviation settles := (settles timed_out).

Definition known (ch : list Trigger) : Prop := Forall (λ tr, Forall (candidate c) (terms_of tr)) ch.

Lemma settles_iterate {A} (l : list A) s (Q : list A → TriggersAuto.State → Prop) :
  (∀ l' t, l' ≡ₚ l → Q l' (set_timer t s)) → settles (timed (iterate hash_order l)) s Q.
Proof using hash_order_perm. intros HQ. apply HQ, hash_order_perm. Qed.
Lemma settles_check s (Q : unit → TriggersAuto.State → Prop) :
  (∀ t, Q tt (set_timer t s)) → settles (timed (check_timeout span)) s Q.
Proof using. intros HQ. apply settles_intro. unfold timed, on_part, check_timeout. by destruct (_ =? _)%N; cbn. Qed.

Lemma add_trigger_settles s tr : known (chosen_triggers s) → Forall (candidate c) (terms_of tr) →
  settles (add_trigger c all tr) s (λ _ s', same_but_chosen s s' ∧ known (chosen_triggers s')).
Proof using Hc.
  intros Hk Htr. unfold add_trigger. apply settles_bind, settles_get.
  assert (Hsnoc : ∀ ch, known ch → known (ch ++ [tr])) by (intros ch Hch; apply Forall_app; split; [done|by apply Forall_singleton]).
  assert (Hone : known [tr]) by by apply Forall_singleton.
  destruct all.
  - split; [done|]. cbn. set (kept := List.filter _ _). assert (Hkept : known kept).
    { apply Forall_forall. intros t Ht%list_elem_of_In%filter_In. unfold known in Hk. rewrite Forall_forall in Hk.
      apply Hk, list_elem_of_In, Ht. }
    destruct (existsb _ _); [done|by apply Hsnoc].
  - destruct (chosen_triggers s) as [|t0 ch] eqn:Hch; [done|]. destruct (_ <? _)%nat; [done|].
    unfold known in Hk. pose proof (Forall_inv Hk) as Ht0.
    rewrite (trigger_score_ok c Hc t0 Ht0) (trigger_score_ok c Hc tr Htr). apply settles_bind, settles_ok, settles_bind, settles_ok.
    destruct (score_lt _ _); [done|]. destruct (score_lt _ _); [done|]. split; [done|]. by apply (Hsnoc (t0 :: ch)).
Qed.

Lemma search_settles fuel : ∀ s, state_ok c s → known (chosen_triggers s) → size (remaining_vars s) < fuel →
  settles (compute_triggers hash_order span c fuel all) s (λ _ s', same_but_chosen s s' ∧ known (chosen_triggers s')).
Proof using hash_order_perm Hc.
  induction fuel as [|fuel IH]; intros s Hs Hk Hfuel; [lia|]. cbn [compute_triggers].
  apply settles_bind, settles_get. case_bool_decide as Hrem.
  { apply settles_bind, settles_iterate. intros tr t Htr. apply (add_trigger_settles (set_timer t s)); [done|].
    destruct Hs as (_ & Hcand & _). unfold terms_of. by rewrite Htr. }
  destruct (found_better all s); [done|]. apply settles_bind, settles_check. intros t1.
  apply settles_bind, settles_iterate. intros xs t2 Hxs. destruct xs as [|x xs].
  { destruct Hrem. apply leibniz_equiv, elements_empty_inv. by apply Permutation_nil_l in Hxs. }
  assert (Hx : x ∈ remaining_vars s) by (apply elem_of_elements; cbn in Hxs; rewrite -Hxs; left).
  pose proof Hs as (_ & _ & Hvars). pose proof Hx as [Hxv _]%Hvars.
  destruct (ok_by_var c Hc x Hxv) as (ts & -> & _ & Hts & _). apply settles_bind, settles_iterate. intros ts' t3 Hts'.
  assert (Hgen : ∀ s0, same_but_chosen s s0 → known (chosen_triggers s0) → settles (siter (λ p,
    let '(term, tspan) := p in
    let! s := sget in
    if hcontains (accumulated_terms s) term then sret tt
    else
      smodify (set_accumulated (λ m, hinsert m term tspan));!
      let removed := trigger_vars_in_term c term ∅ ∩ remaining_vars s in
      smodify (set_remaining (λ v, v ∖ removed));! compute_triggers hash_order span c fuel all;!
      smodify (set_remaining (λ v, v ∪ removed));!
      smodify (set_accumulated (λ m, hremove m term))) ts') s0
    (λ _ s', same_but_chosen s s' ∧ known (chosen_triggers s'))); [|by apply Hgen].
  assert (Hts0 : ∀ t sp, (t, sp) ∈ ts' → candidate c t ∧ x ∈ tv c t) by (intros t sp Hin; apply (Hts t sp); by rewrite -Hts').
  clear Hts Hts' ts. induction ts' as [|[t sp] ts IHts]; intros s0 Hsame Hk0; [done|].
  destruct (Hts0 t sp) as [Hcand Hxt]; [left|]. cbn [siter]. apply settles_bind.
  enough (Hone : settles (smodify (set_accumulated (λ m, hinsert m t sp));!
      let removed := trigger_vars_in_term c t ∅ ∩ remaining_vars s0 in
      smodify (set_remaining (λ v, v ∖ removed));! compute_triggers hash_order span c fuel all;!
      smodify (set_remaining (λ v, v ∪ removed));!
      smodify (set_accumulated (λ m, hremove m t))) s0
    (λ _ s', same_but_chosen s s' ∧ known (chosen_triggers s'))).
  { apply settles_bind, settles_get. pose proof Hsame as [_ Ha]. rewrite (proj2 (hcontains_false (accumulated_terms s0) t)).
    - rewrite Ha. intros Hin. apply Hvars in Hx as [_ Hx]. by apply (Hx t).
    - eapply settles_mono; [exact Hone|]. intros _ s1 [? ?]. apply IHts; [|done..]. intros u sp' Hu. apply (Hts0 u sp'). by right. }
  assert (Hs0 : state_ok c s0) by by apply (state_ok_same c s).
  assert (Hnew : t ∉ acc s0). { destruct Hsame as [_ Ha]. unfold acc. rewrite Ha. intros Hin. apply Hvars in Hx as [_ Hx]. by apply (Hx t). }
  destruct (push_term_ok c t sp s0 Hs0 Hcand Hnew) as [Hs1 _].
  apply settles_bind, settles_modify, settles_bind, settles_modify, settles_bind.
  eapply settles_mono; [apply (IH (push_term c t sp s0)); [done|done|]|].
  - assert (remaining_vars (push_term c t sp s0) ⊂ remaining_vars s); [|by apply subset_size in H; lia].
    destruct Hsame as [Hr _]. cbn. rewrite Hr. set_solver.
  - intros _ s2 [Hsame2 Hk2]. apply settles_bind, settles_modify, settles_modify. split; [|done].
    destruct (pop_term_same c t sp s0 s2 Hnew Hsame2) as [H1 H2]. destruct Hsame as [H3 H4].
    split; [by rewrite -H3|by rewrite -H4].
Qed.
End search.

(** ** Sorting *)

Section lex.
Local Abbreviation lt := (lex_lt Nat.ltb Nat.eqb).
Lemma lex_lt_cons x y l r : lt (x :: l) (y :: r) = true ↔ x < y ∨ x = y ∧ lt l r = true.
Proof. cbn. by rewrite orb_true_iff andb_true_iff Nat.ltb_lt Nat.eqb_eq. Qed.
Lemma lex_lt_trans l r k : lt l r = true → lt r k = true → lt l k = true.
Proof.
  revert r k. induction l as [|x l IH]; intros [|y r] [|z k]; try done. rewrite !lex_lt_cons.
  intros [?|[ -> ?]] [?|[-> ?]]; [left; lia|by left..|]. right. split; [done|]. by eapply IH.
Qed.
Lemma lex_lt_total l r : lt l r = true ∨ l = r ∨ lt r l = true.
Proof.
  revert r. induction l as [|x l IH]; intros [|y r]; [by right; left|by left|by right; right|]. rewrite !lex_lt_cons.
  destruct (lt_eq_lt_dec x y) as [[?| ->]|?]; [by left; left| |by right; right; left].
  destruct (IH r) as [?|[ -> |?]]; [by left; right|by right; left|by right; right; right].
Qed.
Lemma lex_lt_irrefl l : lt l l = false.
Proof.
  induction l as [|x l IH]; [done|]. apply not_true_iff_false. rewrite lex_lt_cons IH. intros [?|[_ ?]]; [lia|done].
Qed.
Lemma lex_le_spec l r : lex_le l r = true ↔ lt l r = true ∨ l = r.
Proof.
  unfold lex_le. rewrite negb_true_iff. split.
  - intros H. destruct (lex_lt_total l r) as [?|[?|?]]; [by left|by right|congruence].
  - intros [H| ->]; [|apply lex_lt_irrefl]. apply not_true_iff_false. intros H'. eapply lex_lt_trans in H; [|exact H'].
    by rewrite lex_lt_irrefl in H.
Qed.
End lex.
#[export] Instance indices_le_trans {A} : Transitive (indices_le (A := A)).
Proof.
  intros p q r. unfold indices_le. rewrite !lex_le_spec. intros [H1|H1] [H2|H2]; rewrite ?H1; try (by rewrite -?H2; eauto).
  left. by eapply lex_lt_trans.
Qed.
#[export] Instance indices_le_total {A} : Total (indices_le (A := A)).
Proof. intros p q. unfold indices_le. rewrite !lex_le_spec. destruct (lex_lt_total p.1 q.1) as [?|[?|?]]; auto. Qed.
#[export] Instance index_le_trans {A} : Transitive (index_le (A := A)).
Proof. intros p q r. unfold index_le. lia. Qed.
#[export] Instance index_le_total {A} : Total (index_le (A := A)).
Proof. intros p q. unfold index_le. lia. Qed.

(** The position of a term in the expression. *)
Definition index_of (c : Ctxt) (t : Term) : nat := default 0 (term_index c t).
Definition in_order (c : Ctxt) (T : list Term) : Prop := StronglySorted (λ t u, index_of c t < index_of c u) T.

Lemma with_key_ok {A K E} (key : A → option K) (f : A → K) l : Forall (λ x, key x = Some (f x)) l →
  with_key (E := E) key l = Ok (map (λ x, (f x, x)) l).
Proof.
  intros H. unfold with_key. assert (mapM (λ x, (λ k, (k, x)) <$> key x) l = Some (map (λ x, (f x, x)) l)) as ->; [|done].
  induction H as [|x l Hx _ IH]; [done|]. cbn. by rewrite Hx /= IH.
Qed.
Lemma StronglySorted_map {A B} (f : A → B) (R : A → A → Prop) (S : B → B → Prop) l :
  (∀ x y, x ∈ l → y ∈ l → R x y → S (f x) (f y)) → StronglySorted R l → StronglySorted S (map f l).
Proof.
  intros Hf H. induction H as [|x l _ IH Hx]; cbn; constructor.
  - apply IH. intros y z Hy Hz. apply Hf; by right.
  - apply Forall_forall. intros y (z & -> & Hz)%list_elem_of_fmap. rewrite Forall_forall in Hx.
    apply Hf; [left|by right|by apply Hx].
Qed.
Lemma in_order_unique c T T' : in_order c T → in_order c T' → T ≡ₚ T' → T = T'.
Proof. intros H1 H2. eapply StronglySorted_unique_strong; [|exact H1|exact H2]. cbn. intros. lia. Qed.

Section sorting.
Context (c : Ctxt) (Hc : ctxt_ok c).
Lemma candidate_index t : candidate c t → term_index c t = Some (index_of c t).
Proof using. intros [[e i] H]. unfold index_of, term_index. by rewrite H. Qed.
Lemma index_of_inj t u : candidate c t → candidate c u → index_of c t = index_of c u → t = u.
Proof using Hc.
  intros [[e i] Ht] [[e' j] Hu]. unfold index_of, term_index. rewrite Ht Hu. cbn. intros <-. by eapply (ok_index c Hc).
Qed.

Lemma in_order_strict T : NoDup T → Forall (candidate c) T → StronglySorted (λ t u, index_of c t ≤ index_of c u) T → in_order c T.
Proof using Hc.
  intros Hnd Hall H. induction H as [|t T _ IH Ht]; [constructor|].
  apply NoDup_cons in Hnd as [Hnot Hnd]. apply Forall_cons in Hall as [Htc Hall]. constructor; [by apply IH|].
  apply Forall_forall. intros u Hu. pose proof (proj1 (Forall_forall _ _) Hall u Hu) as Huc. pose proof (proj1 (Forall_forall _ _) Ht u Hu) as Hle. cbn beta in Hle.
  destruct (decide (index_of c t = index_of c u)) as [He|]; [|lia]. apply index_of_inj in He as ->; done.
Qed.

Lemma sort_trigger_ok {E} tr : cover_trigger c tr →
  ∃ tr', sort_trigger (E := E) c tr = Ok tr' ∧ tr' ≡ₚ tr ∧ in_order c (terms_of tr').
Proof using Hc.
  intros [Hnd [Hcand _]]. unfold sort_trigger.
  rewrite (with_key_ok _ (λ p, index_of c p.1)).
  { apply Forall_forall. intros p Hp. apply candidate_index. rewrite Forall_forall in Hcand. apply Hcand.
    by apply list_elem_of_fmap_2. }
  cbn. set (l := map _ tr). eexists. split; [reflexivity|].
  assert (Hp : map snd (merge_sort index_le l) ≡ₚ tr).
  { rewrite merge_sort_Permutation. unfold l. rewrite map_map. by rewrite map_id. }
  assert (Hp' : terms_of (map snd (merge_sort index_le l)) ≡ₚ terms_of tr) by by apply Permutation_map.
  split; [done|]. apply in_order_strict; [by rewrite Hp'|by rewrite Hp'|]. unfold terms_of. rewrite map_map.
  apply (StronglySorted_map _ index_le); [|by apply StronglySorted_merge_sort; apply _].
  assert (Hkey : ∀ p, p ∈ merge_sort index_le l → p.1 = index_of c p.2.1).
  { intros p. rewrite merge_sort_Permutation. by intros (x & -> & Hx)%list_elem_of_fmap. }
  intros p q Hpl Hql. unfold index_le. by rewrite (Hkey p Hpl) (Hkey q Hql).
Qed.

(** The chosen triggers are put in order. *)
Definition positions (T : list Term) : list nat := map (index_of c) T.
Lemma sort_triggers_ok {E} ch : Forall (λ tr, Forall (candidate c) (terms_of tr)) ch →
  ∃ ch', sort_triggers (E := E) c ch = Ok ch' ∧ ch' ≡ₚ ch
    ∧ StronglySorted (λ T U, lex_le (positions T) (positions U) = true) (map terms_of ch').
Proof using.
  intros Hcand. unfold sort_triggers.
  rewrite (with_key_ok _ (λ tr, positions (terms_of tr))).
  { eapply Forall_impl; [exact Hcand|]. intros tr Htr. clear -Htr. unfold positions.
    induction tr as [|[t sp] tr IH]; [done|]. cbn in *. apply Forall_cons in Htr as [Ht Htr].
    by rewrite (candidate_index t Ht) /= IH. }
  cbn. set (l := map _ ch). eexists. split; [reflexivity|].
  assert (Hp : map snd (merge_sort indices_le l) ≡ₚ ch).
  { rewrite merge_sort_Permutation. unfold l. rewrite map_map. by rewrite map_id. }
  split; [done|]. rewrite map_map. apply (StronglySorted_map _ indices_le); [|by apply StronglySorted_merge_sort; apply _].
  assert (Hkey : ∀ p, p ∈ merge_sort indices_le l → p.1 = positions (terms_of p.2)).
  { intros p. rewrite merge_sort_Permutation. by intros (x & -> & Hx)%list_elem_of_fmap. }
  intros p q Hpl Hql. unfold indices_le. by rewrite (Hkey p Hpl) (Hkey q Hql).
Qed.
Lemma positions_inj T U : Forall (candidate c) T → Forall (candidate c) U → positions T = positions U → T = U.
Proof using Hc.
  intros HT. revert U. induction HT as [|t T Ht _ IH]; intros [|u U] HU Hp; try done.
  apply Forall_cons in HU as [Hu HU]. cbn in Hp. injection Hp as Hp1 Hp2. f_equal; [by apply index_of_inj|by apply IH].
Qed.
End sorting.

(** ** The triggers of a quantifier *)

Section auto.
Context (ctx : Ctx) (span : Span) (vars : list VarIdent) (exp : Exp) (auto_trigger : AutoType).
Let all : bool := bool_decide (auto_trigger = AutoType_All).

(** The candidates, in whatever order the maps are iterated over. *)
Definition search_ctxt : res TriggerErr Ctxt :=
  rbind (gather_terms ctx exp 0 (initial_ctxt vars auto_trigger)) (λ '(_, c), Ok (fill_by_var (without_loops c))).
Lemma search_ctxt_ok c : search_ctxt = Ok c → ctxt_ok c ∧ entries_ok ctx vars exp auto_trigger c.
Proof using.
  unfold search_ctxt. destruct (gather_terms _ _ _ _) as [[r c']| |] eqn:Hg; [|done..]. intros [= <-].
  apply gathered_ok. eapply (gather_ok ctx (initial_ctxt vars auto_trigger) exp exp 0%N); [constructor|by apply gather_initial_inv|exact Hg].
Qed.

(** The expressions of the terms of a trigger. *)
Definition exps_of (c : Ctxt) (T : list Term) : option Trig := mapM (λ t, fst <$> hget (pure_terms c) t) T.
(** The chosen covers, sorted: those wanted; [r] are their expressions. *)
Definition chosen_covers (c : Ctxt) (Ts : list (list Term)) : Prop :=
  (∀ T, T ∈ Ts ↔ wanted all c T ∧ in_order c T)
  ∧ StronglySorted (λ T U, lex_le (positions c T) (positions c U) = true) Ts.
Definition result_of (c : Ctxt) (Ts : list (list Term)) (r : res VirErr Trigs) : Prop :=
  match r with
  | Ok trigs => Ts ≠ [] ∧ mapM (exps_of c) Ts = Some trigs
  | Err e => e = error span not_inferred ∧ ∀ T, ¬ covers c T
  | Panic => False
  end.

Section order.
Context (hash_order : N → ∀ A, list A → list A) (hash_order_perm : ∀ n A l, hash_order n A l ≡ₚ l).

Lemma candidates_ctxt c t : candidates hash_order ctx span vars exp auto_trigger = Ok (c, t) → search_ctxt = Ok c.
Proof using hash_order_perm.
  unfold candidates, search_ctxt. destruct (gather_terms _ _ _ _) as [[r c']| |]; [|done..]. cbn [rbind].
  destruct (remove_obvious_potential_loops hash_order _ _ _) as [[c2 t2]| |] eqn:Hl; [|done..]. intros [= <- <-].
  by rewrite (remove_loops_yields hash_order hash_order_perm span c' _ _ _ Hl).
Qed.

Lemma sorted_all {E} c chosen : ctxt_ok c → Forall (cover_trigger c) chosen →
  ∃ chosen', rmap (E := E) (sort_trigger c) chosen = Ok chosen'
    ∧ Forall2 (λ tr tr', tr' ≡ₚ tr ∧ in_order c (terms_of tr')) chosen chosen'.
Proof using.
  intros Hc. induction 1 as [|tr chosen Htr _ (chosen' & IH1 & IH2)]; [by exists []; split|].
  destruct (sort_trigger_ok (E := E) c Hc tr Htr) as (tr' & H1 & H2). exists (tr' :: chosen'). cbn. rewrite H1 IH1. by split; [|constructor].
Qed.

(** What is done with the chosen covers. *)
Lemma sorted_covers {E} c chosen : ctxt_ok c → Forall (cover_trigger c) chosen →
  ∃ chosen' sorted, rmap (E := E) (sort_trigger c) chosen = Ok chosen' ∧ sort_triggers (E := E) c chosen' = Ok sorted
    ∧ length sorted = length chosen
    ∧ (∀ T, T ∈ map terms_of sorted ↔ in_order c T ∧ ∃ tr, tr ∈ chosen ∧ same_terms tr T)
    ∧ StronglySorted (λ T U, lex_le (positions c T) (positions c U) = true) (map terms_of sorted)
    ∧ Forall (λ tr, Forall (candidate c) (terms_of tr)) sorted
    ∧ (StronglySorted incomparable chosen → NoDup (map terms_of sorted)).
Proof using.
  intros Hc Hcov. destruct (sorted_all (E := E) c chosen Hc Hcov) as (chosen' & H1 & H2).
  assert (Hcand : Forall (λ tr, Forall (candidate c) (terms_of tr)) chosen').
  { clear H1. induction H2 as [|tr tr' ch ch' [Hp _] _ IH]; [constructor|]. apply Forall_cons in Hcov as [[_ [Htr _]] Hcov].
    constructor; [|by apply IH]. unfold terms_of. by rewrite Hp. }
  destruct (sort_triggers_ok (E := E) c chosen' Hcand) as (sorted & H3 & Hp & Hs). exists chosen', sorted.
  split; [done|]. split; [done|]. split; [by rewrite (Permutation_length Hp) (Forall2_length _ _ _ H2)|]. split; [|split; [done|split]].
  - intros T. rewrite list_elem_of_fmap. setoid_rewrite Hp. split.
    + intros (tr' & -> & Htr'). apply list_elem_of_lookup in Htr' as [i Hi]. destruct (Forall2_lookup_r _ _ _ _ _ H2 Hi) as (tr & Htr & Hpt & Ho).
      split; [done|]. exists tr. split; [by eapply list_elem_of_lookup_2|]. unfold same_terms, terms_of. by rewrite Hpt.
    + intros (Ho & tr & Htr & Hst). apply list_elem_of_lookup in Htr as [i Hi]. destruct (Forall2_lookup_l _ _ _ _ _ H2 Hi) as (tr' & Htr' & Hpt & Ho').
      exists tr'. split; [|by eapply list_elem_of_lookup_2]. eapply in_order_unique; [done|exact Ho'|]. rewrite -Hst. unfold terms_of. by rewrite Hpt.
  - by rewrite Hp.
  - intros Hinc. assert (Hnd : NoDup (map terms_of chosen')); [|by rewrite (Permutation_map terms_of Hp)].
    clear -H2 Hinc. induction H2 as [|tr tr' ch ch' [Hpt _] H2 IH]; [constructor|]. apply StronglySorted_inv in Hinc as [Hinc Htr].
    constructor; [|by apply IH]. intros (u' & He & Hu')%list_elem_of_fmap. apply list_elem_of_lookup in Hu' as [i Hi].
    destruct (Forall2_lookup_r _ _ _ _ _ H2 Hi) as (u & Hu & Hpu & _). rewrite Forall_forall in Htr.
    destruct (Htr u) as [Hn _]; [by eapply list_elem_of_lookup_2|]. apply Hn. intros x. unfold terms_of.
    rewrite -Hpt -Hpu. by fold (terms_of tr') (terms_of u'); rewrite He.
Qed.

Lemma exps_ok c Ts : Forall (λ tr, Forall (candidate c) (terms_of tr)) Ts →
  ∃ trigs, rmap (E := TriggerErr) (λ trig, rmap (λ '(term, _), rbind (expect (hget (pure_terms c) term)) (λ '(e, _), Ok e)) trig) Ts = Ok trigs
    ∧ mapM (exps_of c) (map terms_of Ts) = Some trigs.
Proof using.
  induction 1 as [|tr Ts Htr _ (trigs & IH1 & IH2)]; [by exists []|].
  assert (∃ es, rmap (E := TriggerErr) (λ '(term, _), rbind (expect (hget (pure_terms c) term)) (λ '(e, _), Ok e)) tr = Ok es
    ∧ exps_of c (terms_of tr) = Some es) as (es & H1 & H2).
  { clear -Htr. unfold exps_of. induction tr as [|[t sp] tr IH]; [by exists []|]. cbn in Htr. apply Forall_cons in Htr as [[[e i] Ht] Htr].
    destruct (IH Htr) as (es & H1 & H2). exists (e :: es). cbn. rewrite Ht. cbn. by rewrite H1 H2. }
  exists (es :: trigs). cbn. by rewrite H1 IH1 H2 IH2.
Qed.

Lemma same_in_order c tr : ctxt_ok c → cover_trigger c tr → ∃ T, in_order c T ∧ same_terms tr T.
Proof using.
  intros Hc Htr. destruct (sort_trigger_ok (E := TriggerErr) c Hc tr Htr) as (tr' & _ & Hp & Ho). exists (terms_of tr').
  split; [done|]. unfold same_terms, terms_of. by rewrite Hp.
Qed.

(** After a search, the rest neither fails nor panics. *)
Lemma build_covers c t s rest : ctxt_ok c →
  candidates hash_order ctx span vars exp auto_trigger = Ok (c, t) →
  compute_triggers hash_order span c (S (size (trigger_vars c))) all (mkState (trigger_vars c) [] [] false t) = Ok (tt, s) →
  TriggersAuto.build_triggers hash_order ctx span vars exp auto_trigger = rest →
  ∃ report r Ts, rest = Ok (report, r) ∧ chosen_covers c Ts ∧ (all = true → NoDup Ts) ∧ result_of c Ts r.
Proof using hash_order_perm.
  intros Hc Hcand Hs. unfold TriggersAuto.build_triggers. rewrite Hcand. cbn [rbind]. fold all. rewrite Hs. cbn [rbind].
  destruct (search_exact hash_order hash_order_perm span c Hc all _ t s Hs) as (Hcov & Hw & Hinc & Hne).
  destruct (sorted_covers (E := TriggerErr) c (chosen_triggers s) Hc Hcov) as (ch' & sorted & -> & H2 & Hlen & Hin & Hsort & Hcands & Hnd).
  cbn [rbind]. rewrite H2. cbn [rbind]. intros <-.
  assert (Hchosen : chosen_covers c (map terms_of sorted)).
  { split; [|done]. intros T. rewrite Hin Hw. split.
    - intros (Ho & tr & Htr & Hp). split; [|done]. split; [|by exists tr]. rewrite Forall_forall in Hcov.
      destruct (Hcov tr Htr) as [Hndt _]. unfold same_terms in Hp. by rewrite -Hp.
    - intros [[_ Hex] Ho]. done. }
  destruct sorted as [|tr0 sorted].
  - eexists _, _, []. split; [reflexivity|]. split; [done|]. split; [intros; constructor|]. split; [done|]. intros T HT.
    assert (Hch : chosen_triggers s = []) by by destruct (chosen_triggers s).
    apply (Hne (remove_dups T)); [apply NoDup_remove_dups| |done]. destruct HT as [H3 H4]. rewrite Forall_forall in H3.
    split; [apply Forall_forall|]; intros x; [|setoid_rewrite elem_of_remove_dups; apply H4]. rewrite elem_of_remove_dups. apply H3.
  - destruct (exps_ok c (tr0 :: sorted) Hcands) as (trigs & -> & Ht). eexists _, _, _. split; [reflexivity|]. split; [exact Hchosen|].
    split; [by intros Ha%Hinc; apply Hnd|]. by split.
Qed.

Lemma build_inv report r : TriggersAuto.build_triggers hash_order ctx span vars exp auto_trigger = Ok (report, r) →
  ∃ c Ts, search_ctxt = Ok c ∧ chosen_covers c Ts ∧ (all = true → NoDup Ts) ∧ result_of c Ts r.
Proof using hash_order_perm.
  intros Hb. pose proof Hb as Hb'. unfold TriggersAuto.build_triggers in Hb'.
  destruct (candidates _ _ _ _ _ _) as [[c t]| |] eqn:Hcand; [|done..]. cbn [rbind] in Hb'.
  destruct (compute_triggers _ _ _ _ _ _) as [[[] s]| |] eqn:Hs; [|done..]. clear Hb'.
  pose proof (candidates_ctxt c t Hcand) as Hctxt. destruct (search_ctxt_ok c Hctxt) as [Hc _].
  destruct (build_covers c t s _ Hc Hcand Hs Hb) as (report' & r' & Ts & [= <- <-] & H). by exists c, Ts.
Qed.
End order.
End auto.

(** ** Theorems *)

Section returning.
Context (hash_order : N → ∀ A, list A → list A) (hash_order_perm : ∀ n A l, hash_order n A l ≡ₚ l) (span : Span).
Local Abbreviation settled m t := (settles (timed_out span) m t (λ _ _, True)).

Lemma settled_bind {A B} (m : st Timer TriggerErr A) (k : A → st Timer TriggerErr B) t :
  settled m t → (∀ a t', settled (k a) t') → settled (sbind m k) t.
Proof using. intros Hm Hk. apply settles_bind. eapply settles_mono; [exact Hm|]. intros a t' _. apply Hk. Qed.
Lemma settled_check t : settled (check_timeout span) t.
Proof using. apply settles_intro. unfold check_timeout. by destruct (_ =? _)%N. Qed.
Lemma matches_any_settled c pure ts t : settled (matches_any span c pure ts) t.
Proof using.
  revert t. induction ts as [|u ts IH]; intros t; [done|]. cbn [matches_any]. apply settled_bind; [apply settled_check|].
  intros _ t'. destruct (structure_matches _ _ _) as [eq bigger]. destruct (eq && bigger); [done|apply IH].
Qed.
Lemma may_loop_settled c pure t : settled (may_loop hash_order span c pure) t.
Proof using.
  unfold may_loop. destruct pure as [x|a ts]; [done|]. assert (H : ∀ us : option (list (Term * Span)), settled (match us with
    | Some terms => let! terms := iterate hash_order (map fst terms) in matches_any span c (TermX_App a ts) terms
    | None => sret false end) t).
  { intros [us|]; [|done]. apply settled_bind; [done|]. intros us' t'. apply matches_any_settled. }
  destruct a; try apply H. done.
Qed.
Lemma settled_smap {A B} (f : A → st Timer TriggerErr B) l : (∀ x t, settled (f x) t) → ∀ t, settled (smap f l) t.
Proof using.
  intros Hf. induction l as [|x l IH]; intros t; [done|]. cbn [smap]. apply settled_bind; [apply Hf|]. intros y t'.
  apply settled_bind; [apply IH|done].
Qed.
Lemma remove_loops_settled c t : settled (remove_obvious_potential_loops hash_order span c) t.
Proof using.
  unfold remove_obvious_potential_loops. apply settled_bind; [done|]. intros keys t1. apply settled_bind; [|done].
  apply settled_smap. intros pure t2. apply settled_bind; [apply may_loop_settled|done].
Qed.
End returning.

(** C14. The search for triggers ends: once the terms are gathered, [build_triggers] of
    triggers_auto.rs returns, or reports that the quantifier is too large; it does not
    panic, and the depth of its recursion is at most the number of variables. *)
Theorem auto_triggers_return (hash_order : N → ∀ A, list A → list A) (hash_order_perm : ∀ n A l, hash_order n A l ≡ₚ l)
    ctx span vars exp auto_trigger c : search_ctxt ctx vars exp auto_trigger = Ok c →
  (∃ report r, TriggersAuto.build_triggers hash_order ctx span vars exp auto_trigger = Ok (report, r) ∧ r ≠ Panic)
  ∨ TriggersAuto.build_triggers hash_order ctx span vars exp auto_trigger = Err (TriggerErr_Err (error span too_large)).
Proof.
  intros Hctxt. destruct (search_ctxt_ok ctx vars exp auto_trigger c Hctxt) as [Hc _].
  destruct (candidates hash_order ctx span vars exp auto_trigger) as [[c' t]|e|] eqn:Hcand.
  - pose proof (candidates_ctxt ctx span vars exp auto_trigger hash_order hash_order_perm c' t Hcand) as Hctxt'.
    rewrite Hctxt in Hctxt'. injection Hctxt' as <-.
    pose proof (search_settles hash_order hash_order_perm span c Hc (bool_decide (auto_trigger = AutoType_All))
      (S (size (trigger_vars c))) (mkState (trigger_vars c) [] [] false t)) as Hs.
    unfold settles in Hs. destruct (compute_triggers _ _ _ _ _ _) as [[[] s]|e|] eqn:He.
    + left. destruct (build_covers ctx span vars exp auto_trigger hash_order hash_order_perm c t s _ Hc Hcand He eq_refl)
        as (report & r & Ts & Hb & _ & _ & Hr). exists report, r. split; [done|]. by destruct r.
    + right. unfold TriggersAuto.build_triggers. rewrite Hcand. cbn [rbind]. rewrite He. rewrite Hs //; [apply start_ok|constructor|cbn; lia].
    + exfalso. apply Hs; [apply start_ok|constructor|cbn; lia].
  - right. unfold TriggersAuto.build_triggers. rewrite Hcand. cbn. unfold candidates in Hcand. unfold search_ctxt in Hctxt.
    destruct (gather_terms _ _ _ _) as [[r c']| |]; [|done..]. cbn [rbind] in Hcand.
    pose proof (remove_loops_settled hash_order span c' (mkTimer 10000 0)) as Hl. unfold settles in Hl.
    destruct (remove_obvious_potential_loops _ _ _) as [[]| |]; cbn in Hcand; [done| |done]. injection Hcand as <-. by rewrite Hl.
  - exfalso. unfold candidates in Hcand. unfold search_ctxt in Hctxt.
    destruct (gather_terms _ _ _ _) as [[r c']| |]; [|done..]. cbn [rbind] in Hcand.
    pose proof (remove_loops_settled hash_order span c' (mkTimer 10000 0)) as Hl. unfold settles in Hl.
    by destruct (remove_obvious_potential_loops _ _ _) as [[]| |].
Qed.

(** C10. With [#![all_triggers]], the triggers are exactly the minimal covers of the variables
    by candidate terms, each once, sorted: none has a term that it can do without, and
    every such cover is chosen.  The error is reported exactly when no cover exists. *)
Theorem all_triggers_exact (hash_order : N → ∀ A, list A → list A) (hash_order_perm : ∀ n A l, hash_order n A l ≡ₚ l)
    ctx span vars exp report r :
  TriggersAuto.build_triggers hash_order ctx span vars exp AutoType_All = Ok (report, r) →
  ∃ c Ts, search_ctxt ctx vars exp AutoType_All = Ok c
    ∧ (∀ T, T ∈ Ts ↔ minimal_cover c T ∧ in_order c T) ∧ NoDup Ts
    ∧ StronglySorted (λ T U, lex_le (positions c T) (positions c U) = true) Ts
    ∧ match r with
      | Ok trigs => Ts ≠ [] ∧ mapM (exps_of c) Ts = Some trigs
      | Err e => e = error span not_inferred ∧ ∀ T, ¬ covers c T
      | Panic => False
      end.
Proof.
  intros Hb. destruct (build_inv ctx span vars exp AutoType_All hash_order hash_order_perm report r Hb)
    as (c & Ts & Hc & [Hin Hs] & Hnd & Hr). exists c, Ts. split; [done|]. split; [exact Hin|]. split; [by apply Hnd|]. by split.
Qed.

(** C11. Without [#![all_triggers]], the triggers chosen automatically are exactly the covers
    of the variables by candidate terms with the fewest terms and, among those, the
    least total score. *)
Theorem best_triggers_exact (hash_order : N → ∀ A, list A → list A) (hash_order_perm : ∀ n A l, hash_order n A l ≡ₚ l)
    ctx span vars exp auto_trigger report r : auto_trigger ≠ AutoType_All →
  TriggersAuto.build_triggers hash_order ctx span vars exp auto_trigger = Ok (report, r) →
  ∃ c Ts, search_ctxt ctx vars exp auto_trigger = Ok c
    ∧ (∀ T, T ∈ Ts ↔ best_cover c T ∧ in_order c T)
    ∧ StronglySorted (λ T U, lex_le (positions c T) (positions c U) = true) Ts
    ∧ match r with
      | Ok trigs => Ts ≠ [] ∧ mapM (exps_of c) Ts = Some trigs
      | Err e => e = error span not_inferred ∧ ∀ T, ¬ covers c T
      | Panic => False
      end.
Proof.
  intros Ha Hb. destruct (build_inv ctx span vars exp auto_trigger hash_order hash_order_perm report r Hb)
    as (c & Ts & Hc & [Hin Hs] & _ & Hr). exists c, Ts. split; [done|]. split; [|by split].
  rewrite bool_decide_eq_false_2 // in Hin.
Qed.

Section stable.
Context (c : Ctxt) (Hc : ctxt_ok c).
Lemma wanted_candidates all T : wanted all c T → Forall (candidate c) T.
Proof using. destruct all; intros (_ & [? _] & _); done. Qed.
Lemma exps_of_elem Ts trigs trig : mapM (exps_of c) Ts = Some trigs → trig ∈ trigs ↔ ∃ T, T ∈ Ts ∧ exps_of c T = Some trig.
Proof using.
  intros H%mapM_Some. split.
  - intros [i Hi]%list_elem_of_lookup. destruct (Forall2_lookup_r _ _ _ _ _ H Hi) as (T & HT & He). exists T.
    split; [by eapply list_elem_of_lookup_2|done].
  - intros (T & [i Hi]%list_elem_of_lookup & He). destruct (Forall2_lookup_l _ _ _ _ _ H Hi) as (t & Ht & He').
    rewrite He in He'. injection He' as ->. by eapply list_elem_of_lookup_2.
Qed.
Lemma lex_le_antisym l r : lex_le l r = true → lex_le r l = true → l = r.
Proof using. rewrite !lex_le_spec. intros [H1|H1] [H2|H2]; try done. eapply lex_lt_trans in H2; [|exact H1]. by rewrite lex_lt_irrefl in H2. Qed.
Lemma chosen_unique auto_trigger Ts Ts' : chosen_covers auto_trigger c Ts → chosen_covers auto_trigger c Ts' →
  NoDup Ts → NoDup Ts' → Ts = Ts'.
Proof using Hc.
  intros [H1 H2] [H3 H4] H5 H6. assert (Hp : Ts ≡ₚ Ts') by (apply NoDup_Permutation; [done..|]; intros T; by rewrite H1 H3).
  eapply StronglySorted_unique_strong; [|exact H2|exact H4|exact Hp]. cbn. intros T U HT HU Hle Hge.
  apply H1 in HT as [HT _]. rewrite -Hp in HU. apply H1 in HU as [HU _].
  eapply (positions_inj c Hc); [by eapply wanted_candidates..|]. by apply lex_le_antisym.
Qed.
End stable.

(** C13. For two orders of the hash maps with both of which the search ends, that is without the
    error that the quantifier is too large, the triggers chosen are the same as a set, or
    both report the same error, that there is none; with [#![all_triggers]], the lists are
    equal.  Otherwise a list may have the same trigger several times. *)
Theorem trigger_choice_stable (h1 h2 : N → ∀ A, list A → list A) (h1_perm : ∀ n A l, h1 n A l ≡ₚ l) (h2_perm : ∀ n A l, h2 n A l ≡ₚ l)
    ctx span vars exp auto_trigger report1 report2 r1 r2 :
  TriggersAuto.build_triggers h1 ctx span vars exp auto_trigger = Ok (report1, r1) →
  TriggersAuto.build_triggers h2 ctx span vars exp auto_trigger = Ok (report2, r2) →
  match r1, r2 with
  | Ok trigs1, Ok trigs2 => (∀ trig, trig ∈ trigs1 ↔ trig ∈ trigs2) ∧ (auto_trigger = AutoType_All → trigs1 = trigs2)
  | Err e1, Err e2 => e1 = e2
  | _, _ => False
  end.
Proof.
  intros Hb1 Hb2. apply build_inv in Hb1 as (c & Ts1 & Hctxt & Hin1 & Hnd1 & Hr1); [|done].
  apply build_inv in Hb2 as (c' & Ts2 & Hctxt' & Hin2 & Hnd2 & Hr2); [|done]. rewrite Hctxt in Hctxt'. injection Hctxt' as <-.
  destruct (search_ctxt_ok _ _ _ _ _ Hctxt) as [Hc _].
  assert (Hsome : ∀ T Ts, chosen_covers auto_trigger c Ts → T ∈ Ts → covers c T).
  { intros T Ts [H _] [HT _]%H. revert HT. destruct (bool_decide _); by intros (_ & ? & _). }
  assert (Hnone : ∀ Ts, chosen_covers auto_trigger c Ts → (∀ T, ¬ covers c T) → Ts = []).
  { intros [|T Ts] H Hn; [done|]. destruct (Hn T). apply (Hsome T (T :: Ts)); [done|left]. }
  destruct r1 as [trigs1|e1|], r2 as [trigs2|e2|]; cbn in Hr1, Hr2; try done.
  - destruct Hr1 as [_ Hr1], Hr2 as [_ Hr2]. split.
    + intros trig. rewrite (exps_of_elem c _ _ _ Hr1) (exps_of_elem c _ _ _ Hr2). destruct Hin1 as [H1 _], Hin2 as [H2 _].
      by setoid_rewrite H1; setoid_rewrite H2.
    + intros ->. rewrite (chosen_unique c Hc AutoType_All Ts1 Ts2 Hin1 Hin2 (Hnd1 eq_refl) (Hnd2 eq_refl)) in Hr1. congruence.
  - destruct Hr1 as [Hne _], Hr2 as [_ Hn]. by apply Hne, Hnone.
  - destruct Hr2 as [Hne _], Hr1 as [_ Hn]. by apply Hne, Hnone.
  - destruct Hr1 as [-> _], Hr2 as [-> _]. done.
Qed.

(** ** An example: [forall |x, y, z| f(x, y) && g(x, z)] *)

Module Example.
Definition sp : Span := mkSpan 0 [] "".
Definition v (s : string) : VarIdent := (s, VarIdentDisambiguate_VirParam).
Definition var (s : string) : Exp := mkExp sp int_typ (ExpX_Var (v s)).
Definition call (f : string) (es : list Exp) : Exp :=
  mkExp sp bool_typ (ExpX_Call (CallFun_Fun (fun_of (CrateId_Id "t" 0) [] f) None) [] es).
Definition f_x_y : Exp := call "f" [var "x"; var "y"].
Definition g_x_z : Exp := call "g" [var "x"; var "z"].
Definition body : Exp := mkExp sp bool_typ (ExpX_Binary BinaryOp_And f_x_y g_x_z).
Definition vars : list VarIdent := [v "x"; v "y"; v "z"].
Definition ctx : Ctx := mkTriggerCtx ∅ ∅ (λ _ i, i) None (mkPath CrateId_Vstd []).
Definition in_turn : N → ∀ A, list A → list A := λ _ _ l, l.
Definition backwards : N → ∀ A, list A → list A := λ _ _ l, rev l.
Lemma in_turn_perm n A (l : list A) : in_turn n A l ≡ₚ l.
Proof. done. Qed.
Lemma backwards_perm n A (l : list A) : backwards n A l ≡ₚ l.
Proof. symmetry. apply Permutation_rev. Qed.
(** Without the calls, no term is a candidate. *)
Definition no_terms : Exp := mkExp sp bool_typ (ExpX_Binary BinaryOp_Eq (var "x") (var "y")).
Definition chosen (r : res TriggerErr (ChosenTriggers * res VirErr Trigs)) : option (res VirErr Trigs) :=
  match r with Ok (_, r) => Some r | _ => None end.
End Example.

Section witnesses.
Import Example.
Lemma auto_triggers_return_witness :
  (∃ report r, TriggersAuto.build_triggers in_turn ctx sp vars body AutoType_None = Ok (report, r) ∧ r ≠ Panic)
  ∨ TriggersAuto.build_triggers in_turn ctx sp vars body AutoType_None = Err (TriggerErr_Err (error sp too_large)).
Proof. eapply (auto_triggers_return in_turn in_turn_perm ctx sp vars body AutoType_None). vm_compute. reflexivity. Defined.

Lemma all_triggers_exact_witness : ∃ c Ts, search_ctxt ctx vars body AutoType_All = Ok c
  ∧ (∀ T, T ∈ Ts ↔ minimal_cover c T ∧ in_order c T) ∧ NoDup Ts
  ∧ StronglySorted (λ T U, lex_le (positions c T) (positions c U) = true) Ts
  ∧ Ts ≠ [] ∧ mapM (exps_of c) Ts = Some [[f_x_y; g_x_z]].
Proof.
  apply (all_triggers_exact in_turn in_turn_perm ctx sp vars body
    (mkChosenTriggers (mkPath CrateId_Vstd []) sp [[sp; sp]] false false) (Ok [[f_x_y; g_x_z]])).
  vm_compute. reflexivity.
Defined.

Lemma best_triggers_exact_witness : ∃ c Ts, search_ctxt ctx vars no_terms AutoType_None = Ok c
  ∧ (∀ T, T ∈ Ts ↔ best_cover c T ∧ in_order c T)
  ∧ StronglySorted (λ T U, lex_le (positions c T) (positions c U) = true) Ts
  ∧ error sp not_inferred = error sp not_inferred ∧ ∀ T, ¬ covers c T.
Proof.
  apply (best_triggers_exact in_turn in_turn_perm ctx sp vars no_terms AutoType_None
    (mkChosenTriggers (mkPath CrateId_Vstd []) sp [] false false) (Err (error sp not_inferred))); [discriminate|].
  vm_compute. reflexivity.
Defined.

Lemma trigger_choice_stable_witness :
  (∀ trig, trig ∈ [[f_x_y; g_x_z]] ↔ trig ∈ [[f_x_y; g_x_z]; [f_x_y; g_x_z]])
  ∧ (AutoType_None = AutoType_All → [[f_x_y; g_x_z]] = [[f_x_y; g_x_z]; [f_x_y; g_x_z]]).
Proof.
  apply (trigger_choice_stable in_turn backwards in_turn_perm backwards_perm ctx sp vars body AutoType_None
    (mkChosenTriggers (mkPath CrateId_Vstd []) sp [[sp; sp]] false false)
    (mkChosenTriggers (mkPath CrateId_Vstd []) sp [[sp; sp]; [sp; sp]] false false)
    (Ok [[f_x_y; g_x_z]]) (Ok [[f_x_y; g_x_z]; [f_x_y; g_x_z]])); vm_compute; reflexivity.
Defined.
End witnesses.

(** C40. Unless all triggers are asked for, the same one may be chosen twice: once for each
    order in which its terms are tried. *)
Theorem duplicate_triggers : ∃ hash_order : N → ∀ A, list A → list A, (∀ n A l, hash_order n A l ≡ₚ l)
  ∧ ∃ report trig, TriggersAuto.build_triggers hash_order Example.ctx Example.sp Example.vars Example.body AutoType_None
    = Ok (report, Ok [trig; trig]).
Proof.
  exists Example.backwards. split; [apply Example.backwards_perm|].
  exists (mkChosenTriggers (mkPath CrateId_Vstd []) Example.sp [[Example.sp; Example.sp]; [Example.sp; Example.sp]] false false),
    [Example.f_x_y; Example.g_x_z].
  vm_compute. reflexivity.
Qed.

(** ** What a visit preserves *)

Section stays.
Context {S E : Type} (I : S → Prop).
(** If [m] returns, it has kept [I]. *)
Definition stays {A} (m : st S E A) : Prop := ∀ s, I s → yields m s (λ _, I).

Lemma stays_ret {A} (x : A) : stays (sret x).
Proof using. intros s Hs. by apply yields_ret. Qed.
Lemma stays_bind {A B} (m : st S E A) (k : A → st S E B) : stays m → (∀ x, stays (k x)) → stays (sbind m k).
Proof using. intros Hm Hk s Hs. apply yields_bind. eapply yields_mono; [by apply Hm|]. intros x s'. apply Hk. Qed.
Lemma stays_lift {A} (r : res E A) : stays (lifts r).
Proof using. intros s Hs. by apply yields_lift. Qed.
Lemma stays_read {A} (f : S → A) : stays (sread f).
Proof using. intros s Hs. by apply yields_read. Qed.
Lemma stays_modify f : (∀ s, I s → I (f s)) → stays (smodify f).
Proof using. intros Hf s Hs. by apply yields_modify, Hf. Qed.
Lemma stays_smap {A B} (f : A → st S E B) l : (∀ x, x ∈ l → stays (f x)) → stays (smap f l).
Proof using.
  intros Hf s Hs. apply (yields_smap f I (λ _ _, True)); [done| |by intros].
  intros x s0 Hx Hs0. eapply yields_mono; [by apply Hf|]. by intros.
Qed.
Lemma stays_siter {A} (f : A → st S E unit) l : (∀ x, x ∈ l → stays (f x)) → stays (siter f l).
Proof using.
  induction l as [|x l IH]; intros Hf; cbn [siter]; [apply stays_ret|].
  apply stays_bind; [apply Hf; left|]. intros []. apply IH. intros z Hz. apply Hf. by right.
Qed.
End stays.

(** Goals [stays I m]: follow [m]; what remains are the calls it makes. *)
Ltac stay_step :=
  match goal with
  | |- stays _ (sret _) => apply stays_ret
  | |- stays _ (sbind _ _) => apply stays_bind; [|intros ?]
  | |- stays _ (lifts _) => apply stays_lift
  | |- stays _ (sread _) => apply stays_read
  | |- stays _ (smap _ _) => apply stays_smap; intros ? ?
  | |- stays _ (siter _ _) => apply stays_siter; intros ? ?
  | |- stays _ (smodify _) => apply stays_modify; intros ? ?
  | |- stays _ (match ?x with _ => _ end) => destruct x
  | |- stays _ (serr _) => intros ? ?; apply yields_err
  | |- stays _ spanic => intros ? ?; apply yields_panic
  end.
Ltac stay := repeat stay_step; try assumption; auto.

Section visit.
Context {S E : Type} (I : S → Prop).
Context (visit_typ : Typ → st S E Typ) (visit_exp : Exp → st S E Exp) (scoper : Scoper S).
Hypothesis Htyp : ∀ t, stays I (visit_typ t).
Hypothesis Hpush : ∀ s, I s → I (sc_push scoper s).
Hypothesis Hpop : ∀ s s', I s → sc_pop scoper s = Some s' → I s'.
Hypothesis Hinsert : ∀ x k s s', I s → sc_insert scoper x k s = Some s' → I s'.

Lemma stays_pop : stays I (v_pop (E := E) scoper).
Proof using Hpop. intros s Hs x s'. unfold v_pop. destruct (sc_pop scoper s) eqn:H; [|done]. intros [= <- <-]. by eapply Hpop. Qed.
Lemma stays_enter {A} k (bs : VarBinders A) : stays I (enter_binders (E := E) scoper k bs).
Proof using Hpush Hinsert.
  unfold enter_binders, v_push. stay. intros s Hs y s'. unfold v_insert. destruct (sc_insert _ _ _ s) eqn:He; [|done].
  intros [= <- <-]. by eapply Hinsert.
Qed.
Lemma stays_triggers ts : (∀ e, e ∈ concat ts → stays I (visit_exp e)) → stays I (visit_triggers visit_exp ts).
Proof using.
  intros H. unfold visit_triggers. stay. apply H. apply list_elem_of_In, in_concat. eexists. split; by apply list_elem_of_In.
Qed.
Lemma stays_visit_exp_rec e : (∀ e', e' ∈ children (exp_x e) → stays I (visit_exp e')) →
  stays I (visit_exp_rec visit_typ visit_exp scoper e).
Proof using Htyp Hpush Hpop Hinsert.
  pose proof stays_pop. pose proof (@stays_enter Exp). pose proof (@stays_enter Typ).
  assert (∀ ts, stays I (visit_typs visit_typ ts)) by (intros ts; unfold visit_typs; stay).
  assert (∀ bs, stays I (visit_var_binders_typ visit_typ bs)) by (intros bs; unfold visit_var_binders_typ; stay).
  destruct e as [sp t x]. intros Hexp. cbn [exp_x] in Hexp. cbn [visit_exp_rec]. apply stays_bind; [apply Htyp|].
  intros t'. apply stays_bind; [|intros; apply stays_ret].
  destruct x; cbn [children visit_expx] in *; unfold visit_exps; stay; try (apply Hexp; mem).
  - unfold visit_call_fun. stay.
  - apply Hexp, list_elem_of_fmap. by eexists (Ast.mkBinder _ _).
  - unfold visit_nullary. stay.
  - unfold visit_unary_opr. stay.
  - apply stays_triggers. intros e' He'. apply Hexp. mem.
  - unfold visit_bnd. destruct bnd; stay; try (apply stays_triggers; intros e' He');
      try (apply Hexp; cbn [bnd_children]; mem).
    apply Hexp, elem_of_app. left. apply list_elem_of_fmap. by eexists (mkVarBinder _ _).
Qed.
End visit.

(** The scopes do not concern an invariant of the state of the closures. *)
Section walks.
Context {S T : Type} (J : S → Prop).
Local Abbreviation I := (λ s : VisitorScopeMap * S, J s.2).
Lemma stays_controlled {A} (f : A → VisitorScopeMap → st S T (VisitorControlFlow T)) rec (x : A) :
  (∀ m, stays J (f x m)) → stays I (rec x) → stays I (controlled f rec x).
Proof using.
  intros Hf Hrec. unfold controlled. apply stays_bind; [apply stays_read|]. intros m. apply stays_bind.
  - intros s Hs c s'. unfold on_part. destruct (f x m s.2) as [[c' t]| |] eqn:He; [|done..]. intros [= <- <-]. by eapply Hf.
  - intros []; stay.
Qed.
Lemma stays_walk_typ ft t : (∀ t m, stays J (ft t m)) → stays (E := T) I (walk_typ ft t).
Proof using.
  intros Hft. induction t using typ_ind'; cbn [walk_typ]; (apply stays_controlled; [apply Hft|]); cbn [visit_typ_rec]; stay;
    try match goal with H : Forall _ ?l, Hx : ?x ∈ ?l |- _ => rewrite Forall_forall in H; by apply H end.
Qed.
Lemma stays_dfs_scoped visit_typ visit_exp e : (∀ t, stays (E := T) I (visit_typ t)) →
  (∀ e', e' ∈ children (exp_x e) → stays (E := T) I (visit_exp e')) → stays (E := T) I (visit_exp_rec visit_typ visit_exp dfs_scoper e).
Proof using.
  intros Ht He. apply stays_visit_exp_rec; [done|by intros [m s]| | |done].
  - intros [m s] s' Hs. cbn. destruct (ScopeMap.pop_scope m); cbn; by intros [= <-].
  - intros x k [m s] s' Hs. cbn. destruct (ScopeMap.insert_sm m x k) as [[? ?]| |]; cbn; by intros [= <-].
Qed.
End walks.

(** ** The variables of a trigger *)

(** [x] occurs in [e] outside inner binders. *)
Definition occurs (x : VarIdent) (e : Exp) : Prop := ∃ e', within e' e ∧ exp_x e' = ExpX_Var x.
Definition stands_for_type (x : VarIdent) : Prop := x.2 = VarIdentDisambiguate_TypParamSuffixed.

Lemma typ_param_vars_suffixed t x : x ∈ typ_param_vars t → stands_for_type x.
Proof.
  assert (H : ∀ ts, Forall (λ t, x ∈ typ_param_vars t → stands_for_type x) ts → x ∈ ⋃ map typ_param_vars ts → stands_for_type x).
  { intros ts H (t' & Ht & Hx)%elem_of_union_map. rewrite Forall_forall in H. by apply (H t'). }
  induction t using typ_ind'; cbn [typ_param_vars]; try set_solver.
  destruct a; set_solver.
Qed.
Lemma occurs_child x e s t y : e ∈ children y → match y with ExpX_Bind _ _ _ => False | _ => True end → occurs x e → occurs x (mkExp s t y).
Proof. intros He Hy (e' & Hw & Hx). exists e'. split; [|done]. by eapply within_child. Qed.
Lemma mentions_occurs e x : x ∈ mentions e → occurs x e ∨ stands_for_type x.
Proof.
  induction e as [s t y IH] using exp_ind'. intros Hx. rewrite Forall_forall in IH.
  assert (Hc : ∀ e, e ∈ children y → match y with ExpX_Bind _ _ _ => False | _ => True end → x ∈ mentions e → occurs x (mkExp s t y) ∨ stands_for_type x).
  { intros e He Hy Hxe. destruct (IH e He Hxe); [left; by eapply occurs_child|by right]. }
  assert (Hts : ∀ ts, x ∈ ⋃ map typ_param_vars ts → stands_for_type x).
  { intros ts (t' & _ & Hx')%elem_of_union_map. by eapply typ_param_vars_suffixed. }
  destruct y as [|z| | | |e| |f ts es|e es|dt v bs|op|op e|op e|op e1 e2|[deep typ] e1 e2|e1 e2 e3|ts e|sp b e| |es|i|];
    cbn [mentions children] in Hx, Hc; try (by apply elem_of_empty in Hx); rewrite ?elem_of_union in Hx;
    repeat match goal with H : _ ∨ _ |- _ => destruct H as [H|H] end;
    try (by right; eapply Hts); try (by right; eapply typ_param_vars_suffixed);
    try (by match goal with H : x ∈ mentions ?e |- _ => apply (Hc e); [mem| |] end).
  - apply elem_of_singleton in Hx as ->. left. exists (mkExp s t (ExpX_Var z)). split; [constructor|done].
  - apply elem_of_union_map in Hx as (e & He & Hx). by apply (Hc e).
  - apply elem_of_union_map in Hx as (e' & He & Hx). apply (Hc e'); [by right|done..].
  - apply elem_of_union_map in Hx as ([n e] & He & Hx). apply (Hc e); [|done..]. by apply (list_elem_of_fmap_2 Ast.ba) in He.
  - apply elem_of_union_map in Hx as (e & He & Hx). by apply (Hc e).
Qed.

Lemma free_vars_occur e vars x : get_free_vars e = Ok vars → x ∈ vars → occurs x e ∨ stands_for_type x.
Proof.
  unfold get_free_vars. set (J := λ V : gset VarIdent, ∀ x, x ∈ V → occurs x e ∨ stands_for_type x).
  set (fe := λ (exp : Exp) (_ : VisitorScopeMap), _). set (ft := λ (typ : Typ) (_ : VisitorScopeMap), _).
  assert (Ht : ∀ t, stays (λ s : VisitorScopeMap * gset VarIdent, J s.2) (walk_typ (checked ft) t)).
  { intros t. apply stays_walk_typ. intros t' m. unfold checked, ft. destruct t'; stay.
    intros y [->%elem_of_singleton|?]%elem_of_union; [by right|auto]. }
  assert (He : ∀ e', within e' e → stays (λ s : VisitorScopeMap * gset VarIdent, J s.2) (walk_exp (checked fe) (checked ft) e')).
  { induction e' as [s t y IH] using exp_ind'. intros Hw. cbn [walk_exp]. rewrite Forall_forall in IH.
    destruct (match y with ExpX_Bind _ _ _ => true | _ => false end) eqn:Hy.
    - by destruct y.
    - apply stays_controlled.
      + intros m. unfold checked, fe. cbn [exp_x]. destruct y; stay.
        intros z [->%elem_of_singleton|?]%elem_of_union; [left; by eexists|auto].
      + apply stays_dfs_scoped; [done|]. intros e1 He1. apply IH; [done|]. eapply within_step; [exact Hw|done|by destruct y]. }
  destruct (exp_typ_visitor_check e fe ft _) as [[r [m V]]| |] eqn:Hr; cbn; [|done..]. intros [= <-] Hx. revert Hx.
  assert (Hs : stays (λ s : VisitorScopeMap * gset VarIdent, J s.2) (exp_typ_visitor_check e fe ft)).
  { apply stays_bind; [apply He; constructor|]. intros. apply stays_ret. }
  apply (Hs (ScopeMap.new, ∅) ltac:(by intros y ?%elem_of_empty) _ _ Hr).
Qed.

(** ** Manual triggers cover what they should *)

(** [e'] occurs in [e], under binders or in a trigger too. *)
Inductive inside : Exp → Exp → Prop :=
| inside_refl e : inside e e
| inside_child e' e s t y : e ∈ children y → inside e' e → inside e' (mkExp s t y).

Lemma inside_step s t y e e0 : inside (mkExp s t y) e0 → e ∈ children y → inside e e0.
Proof.
  intros H He. remember (mkExp s t y) as e1 eqn:E. induction H as [e0|e1 e2 s2 t2 y2 Hc _ IH].
  - subst e0. eapply inside_child; [done|constructor].
  - eapply inside_child; [done|]. by apply IH.
Qed.

(** [e0] is annotated as a trigger in [exp], by [#[trigger]] or in [#![trigger ...]]. *)
Definition annotation (exp : Exp) (group : Group) (e0 : Exp) : Prop := ∃ n, inside n exp
  ∧ exp_x n = ExpX_Unary (UnaryOp_Trigger (TriggerAnnotation_Trigger group)) e0.
Definition listed (exp e0 : Exp) : Prop := ∃ n ts e1 trig, inside n exp
  ∧ exp_x n = ExpX_WithTriggers ts e1 ∧ trig ∈ ts ∧ e0 ∈ trig.
(** [e] is kept for an annotated expression. *)
Definition kept (exp e : Exp) : Prop := ∃ e0, ((∃ group, annotation exp group e0) ∨ listed exp e0)
  ∧ preprocess_exp (E := VirErr) e0 = Ok e.
(** [e] is kept for an annotated height comparison, and [x] occurs in its other side. *)
Definition height_compared (exp : Exp) (x : VarIdent) (e : Exp) : Prop := ∃ group h strict rec e1 e2,
  annotation exp group h ∧ exp_x h = ExpX_Binary (BinaryOp_HeightCompare strict rec) e1 e2
  ∧ e = mkExp (exp_span h) bool_typ (ExpX_Unary UnaryOp_HeightTrigger e1) ∧ occurs x e2.

Section manual.
Variable exp : Exp.
Definition covered_by (x : VarIdent) (e : Exp) : Prop := occurs x e ∨ height_compared exp x e.
Definition group_covers (es : list Exp) (covered : gset VarIdent) : Prop :=
  ∀ x, x ∈ covered → (∃ e, e ∈ es ∧ covered_by x e) ∨ stands_for_type x.
Record manual_ok (s : State) : Prop := {
  manual_sorted : StronglySorted (λ p q, group_lt p.1 q.1 = true) (triggers s);
  manual_covered g : match hget (triggers s) g with
                     | Some es => Forall (kept exp) es ∧ ∃ covered, coverage s !! g = Some covered ∧ group_covers es covered
                     | None => coverage s !! g = None
                     end
}.

Lemma hget_btree_insert (m : list (Group * list Exp)) g es h : hget (btree_insert m g es) h = if decide (h = g) then Some es else hget m h.
Proof.
  induction m as [|[k es'] m IH]; cbn; [done|]. destruct (decide (g = k)) as [->|]; cbn; [by repeat case_decide|].
  destruct (group_lt g k); cbn; [done|]. rewrite IH. repeat case_decide; congruence.
Qed.
Lemma group_lt_trans g h k : group_lt g h = true → group_lt h k = true → group_lt g k = true.
Proof. destruct g, h, k; cbn; rewrite ?N.ltb_lt; try done. lia. Qed.
Lemma group_lt_total g h : g ≠ h → group_lt g h = false → group_lt h g = true.
Proof. destruct g as [m|], h as [n|]; cbn; try done. rewrite N.ltb_ge N.ltb_lt. intros Hne ?. assert (m ≠ n) by congruence. lia. Qed.
Lemma btree_insert_sorted m g es : StronglySorted (λ p q : Group * list Exp, group_lt p.1 q.1 = true) m →
  StronglySorted (λ p q, group_lt p.1 q.1 = true) (btree_insert m g es).
Proof.
  induction 1 as [|[k es'] m Hm IH Hk]; cbn; [by repeat constructor|]. destruct (decide (g = k)) as [->|Hne]; [by constructor|].
  destruct (group_lt g k) eqn:Hlt.
  - constructor; [by constructor|]. constructor; [done|]. eapply Forall_impl; [exact Hk|]. intros q. cbn. by apply group_lt_trans.
  - constructor; [done|]. assert (Hg : group_lt k g = true) by by apply group_lt_total. clear -Hk Hg.
    induction Hk as [|[h es2] m Hh Hm IH]; cbn; [by constructor|]. destruct (decide (g = h)); [by constructor|].
    destruct (group_lt g h); [by repeat constructor|by constructor].
Qed.

Lemma set_group_ok s g es covered : manual_ok s → Forall (kept exp) es → group_covers es covered →
  manual_ok (set_group g es covered s).
Proof using.
  intros [H1 H2] Hk Hc. split; cbn; [by apply btree_insert_sorted|]. intros h. rewrite hget_btree_insert. case_decide as Hh.
  - subst. split; [done|]. exists covered. by rewrite lookup_insert_eq.
  - rewrite lookup_insert_ne //. apply H2.
Qed.
Lemma push_trigger_ok s g e covered : manual_ok s → kept exp e → (∀ x, x ∈ covered → covered_by x e ∨ stands_for_type x) →
  manual_ok (push_trigger g e covered s).
Proof using.
  intros Hs Hk Hc. pose proof (manual_covered s Hs g) as Hg. apply set_group_ok; [done| |].
  - apply Forall_app_2; [|by repeat constructor]. destruct (hget (triggers s) g); [apply Hg|constructor].
  - intros x [Hx|Hx]%elem_of_union.
    + destruct (hget (triggers s) g) as [es|]; [|by rewrite Hg in Hx; apply elem_of_empty in Hx].
      destruct Hg as (_ & old & Hg & Ho). rewrite Hg in Hx. destruct (Ho x Hx) as [(e' & He & Hx')|]; [|by right].
      left. exists e'. split; [|done]. by apply elem_of_app; left.
    + destruct (Hc x Hx); [|by right]. left. exists e. split; [|done]. apply elem_of_app. right. by apply list_elem_of_singleton.
Qed.

Lemma bound_as_sub p m V x : x ∈ bound_as p m V → x ∈ V.
Proof. by intros [_ ?]%elem_of_filter. Qed.
Lemma occurs_binary x s t op e1 e2 : occurs x (mkExp s t (ExpX_Binary op e1 e2)) → occurs x e1 ∨ occurs x e2.
Proof using.
  intros (e' & Hw & Hx). inversion Hw as [|? e s' t' y Hc _ Hw1]; subst; [done|].
  apply elem_of_cons in Hc as [Hc|Hc%list_elem_of_singleton]; subst; [left|right]; by exists e'.
Qed.
(** The variables of an annotated expression are covered by what is kept for it. *)
Lemma preprocess_covers g e e' x : annotation exp g e → preprocess_exp (E := VirErr) e = Ok e' → occurs x e → covered_by x e'.
Proof using.
  destruct e as [s t y]. unfold preprocess_exp. cbn [exp_x]. intros Ha.
  destruct y as [| | | | | | | | | | | |op e|op e1 e2| | | | | | | |]; try (intros [= <-]; by left).
  - destruct op; try done; intros [= <-]; by left.
  - destruct op; try (intros [= <-]; by left). intros [= <-] [Hx|Hx]%occurs_binary.
    + left. eapply occurs_child; [left|done|done].
    + right. by eexists _, _, _, _, _, _.
Qed.

Lemma annotated_stays g e m : annotation exp g e → stays manual_ok (annotated g e m).
Proof using.
  intros Ha s Hs. unfold annotated. apply yields_bind, yields_lift. intros V HV. apply yields_bind, yields_lift. intros e' He'.
  destruct (bool_decide _); [|by apply yields_ret]. apply yields_bind, yields_lift. intros _ _.
  destruct (bool_decide _); [by apply yields_ret|]. apply yields_modify, push_trigger_ok; [done| |].
  - exists e. split; [left; by exists g|done].
  - intros x Hx%bound_as_sub. destruct (free_vars_occur _ _ _ HV Hx); [|by right]. left. by eapply preprocess_covers.
Qed.
Lemma with_triggers_stays m n trig : (∀ e, e ∈ trig → listed exp e) → stays manual_ok (with_triggers m (n, trig)).
Proof using.
  intros Hl s Hs. unfold with_triggers. apply yields_bind, yields_lift. intros es Hes.
  apply yields_bind, yields_lift. intros covered Hcov. apply yields_modify.
  apply rmap_Forall2 in Hes, Hcov. apply set_group_ok; [done| |].
  - apply Forall_forall. intros e [i Hi]%list_elem_of_lookup. destruct (Forall2_lookup_r _ _ _ _ _ Hes Hi) as (e0 & He0 & Hp).
    exists e0. split; [right|done]. apply Hl. by eapply list_elem_of_lookup_2.
  - intros x (V & HV & Hx)%elem_of_union_list. apply list_elem_of_lookup in HV as [i Hi].
    destruct (Forall2_lookup_r _ _ _ _ _ Hcov Hi) as (e & He & Hv).
    revert Hv. unfold with_triggers_expr. destruct (get_free_vars e) as [W| |] eqn:HW; [|done..]. cbn.
    destruct (check_trigger_expr e m); [|done..]. intros [= <-]. apply bound_as_sub in Hx.
    destruct (free_vars_occur _ _ _ HW Hx); [|by right]. left. exists e. split; [by eapply list_elem_of_lookup_2|by left].
Qed.
Lemma manual_visit_stays e m : inside e exp → stays manual_ok (manual_visit e m).
Proof using.
  intros Hin. assert (Ha : ∀ a s, manual_ok s → manual_ok (set_auto a s)) by by intros a s [].
  unfold manual_visit. destruct (exp_x e) as [| | | | | | | | | | |op e1| | | | |ts e1| | | | |] eqn:He; stay.
  - apply annotated_stays. by exists e.
  - destruct x as [n trig]. apply with_triggers_stays. intros e0 He0. exists e, ts, e1, trig. split_and!; [done..| |done].
    match goal with H : (n, trig) ∈ imap pair ts |- _ => apply elem_of_lookup_imap_1 in H as (? & ? & [= -> ->] & ?) end.
    by eapply list_elem_of_lookup_2.
Qed.
Lemma dfs_stays {S T} (J : S → Prop) (f : Exp → VisitorScopeMap → st S T (VisitorControlFlow T)) e :
  (∀ e m, inside e exp → stays J (f e m)) → inside e exp → stays (λ s : VisitorScopeMap * S, J s.2) (dfs_visit_exp f e).
Proof using.
  intros Hf. induction e as [s t y IH] using exp_ind'. intros Hin. cbn [dfs_visit_exp]. rewrite Forall_forall in IH.
  apply (stays_controlled J f (visit_exp_rec sret (dfs_visit_exp f) dfs_scoper)); [by intros; apply Hf|].
  apply stays_dfs_scoped; [intros t'; apply stays_ret|]. intros e' He'. apply IH; [done|]. by eapply inside_step.
Qed.

Lemma get_manual_triggers_ok vars s : get_manual_triggers vars exp = Ok s → manual_ok s.
Proof using.
  unfold get_manual_triggers. destruct (outer_scope vars) as [m| |]; [|done..]. cbn [rbind].
  destruct (exp_visitor_check _ _ _) as [[[] [m' s']]| |] eqn:Hv; [|done..]. cbn [rbind].
  destruct (ScopeMap.pop_scope m') as [m2| |]; [|done..]. cbn [rbind]. destruct (_ =? _)%nat; [|done]. intros [= <-].
  assert (Hs : stays (λ s : VisitorScopeMap * State, manual_ok s.2) (exp_visitor_check exp manual_visit)).
  { apply stays_bind; [|intros; apply stays_ret]. apply (dfs_stays manual_ok); [|constructor]. intros e' m3 Hin. unfold checked.
    apply stays_bind; [by apply manual_visit_stays|]. intros. apply stays_ret. }
  apply (Hs (m, mkManual AutoType_None [] ∅)) in Hv; [done|]. split; [constructor|done].
Qed.
End manual.

Lemma check_group_ok s span vars es g es' : check_group s span vars (g, es) = Ok es' →
  es' = es ∧ ∀ x, x ∈ vars → ∃ covered, coverage s !! g = Some covered ∧ x ∈ covered.
Proof.
  unfold check_group. destruct (rmap _ vars) as [us| |] eqn:Hu; [|done..]. intros [= <-]. split; [done|]. intros x Hx.
  apply rmap_Forall2 in Hu. apply list_elem_of_lookup in Hx as [i Hi]. destruct (Forall2_lookup_l _ _ _ _ _ Hu Hi) as (u & _ & Hc).
  destruct (coverage s !! g) as [covered|]; [|done]. exists covered. split; [done|]. by destruct (decide (x ∈ covered)).
Qed.
Lemma sorted_hget m (g : Group) (es : list Exp) : StronglySorted (λ p q : Group * list Exp, group_lt p.1 q.1 = true) m → (g, es) ∈ m → hget m g = Some es.
Proof.
  induction 1 as [|[k es'] m _ IH Hk]; [by intros ?%elem_of_nil|]. rewrite Forall_forall in Hk.
  intros [[= <- <-]|Hin]%elem_of_cons; cbn; [by rewrite decide_True|]. rewrite decide_False; [|by apply IH].
  intros ->. apply Hk in Hin. cbn in Hin. destruct k as [n|]; cbn in Hin; [|done]. apply N.ltb_lt in Hin. lia.
Qed.
Lemma lift_vir_err_ok {A} (r : res VirErr A) x : lift_vir_err r = Ok x → r = Ok x.
Proof. by destruct r; intros [= ->]. Qed.

Lemma auto_not_manual hash_order ctx span vars exp auto_trigger report r :
  TriggersAuto.build_triggers hash_order ctx span vars exp auto_trigger = Ok (report, r) → manual report = false.
Proof.
  unfold TriggersAuto.build_triggers. intros H. apply rbind_ok_inv in H as ([c t] & _ & H).
  apply rbind_ok_inv in H as ([[] s] & _ & H). apply rbind_ok_inv in H as (ch & _ & H).
  apply rbind_ok_inv in H as (chosen & _ & H). destruct chosen; [by injection H as <- _|].
  apply rbind_ok_inv in H as (trigs & _ & H). by injection H as <- _.
Qed.

(** C12. [build_triggers] of triggers.rs: a trigger consists of what is kept for expressions
    annotated in the body or, if the triggers are chosen automatically, of expressions of
    the body outside inner binders.  Every variable of the quantifier that does not stand
    for a type parameter occurs, outside inner binders, in an expression of every trigger,
    or that is the height of one side of an annotated comparison in whose other side the
    variable occurs. *)
Theorem triggers_cover (hash_order : N → ∀ A, list A → list A) (hash_order_perm : ∀ n A l, hash_order n A l ≡ₚ l)
    ctx span vars exp allow_empty report trigs :
  build_triggers hash_order ctx span vars exp allow_empty = Ok (report, Ok trigs) →
  ∀ trig, trig ∈ trigs →
    (∀ e, e ∈ trig → if manual report then kept exp e else within e exp)
    ∧ ∀ x, x ∈ vars → ¬ stands_for_type x → ∃ e, e ∈ trig ∧ (occurs x e ∨ height_compared exp x e).
Proof.
  unfold build_triggers. destruct (lift_vir_err _) as [s| |] eqn:Hs; [|done..]. cbn [rbind].
  apply lift_vir_err_ok, get_manual_triggers_ok in Hs. destruct (negb _ || allow_empty).
  - destruct (bool_decide _); [|done]. destruct (lift_vir_err _) as [trigs'| |] eqn:Ht; [|done..]. cbn [rbind].
    apply lift_vir_err_ok, rmap_Forall2 in Ht. intros [= <- <-] trig [i Hi]%list_elem_of_lookup.
    destruct (Forall2_lookup_r _ _ _ _ _ Ht Hi) as ([g es] & Hg & Hc). destruct (check_group_ok _ _ _ _ _ _ Hc) as [-> Hcov].
    pose proof (manual_covered _ s Hs g) as Hm.
    rewrite (sorted_hget _ g es (manual_sorted _ s Hs)) in Hm; [by eapply list_elem_of_lookup_2|].
    destruct Hm as (Hk & V' & HV' & Hm). split; [by apply Forall_forall|]. intros x Hx Hty.
    destruct (Hcov x Hx) as (V & HV & HxV). rewrite HV in HV'. injection HV' as <-. by destruct (Hm x HxV) as [?|?].
  - intros Hb trig Htrig. rewrite (auto_not_manual _ _ _ _ _ _ _ _ Hb).
    apply build_inv in Hb as (c & Ts & Hctxt & [Hin _] & _ & Hr); [|done].
    destruct (search_ctxt_ok _ _ _ _ _ Hctxt) as [_ Hent]. cbn in Hr. destruct Hr as [_ Hr].
    apply (exps_of_elem c _ _ _ Hr) in Htrig as (T & HT & He). apply Hin in HT as [Hw _].
    assert (Hcov : covers c T) by (revert Hw; destruct (bool_decide _); by intros (_ & ? & _)). destruct Hcov as [_ Hcov].
    assert (Hexp : ∀ t e' j, hget (pure_terms c) t = Some (e', j) → within e' exp ∧ tv c t ⊆ mentions e').
    { intros t e' j Ht. by destruct (entries_exp _ _ _ _ c Hent t e' j Ht) as (? & _ & ?). }
    unfold exps_of in He. apply mapM_Some in He. split.
    + intros e [i Hi]%list_elem_of_lookup. destruct (Forall2_lookup_r _ _ _ _ _ He Hi) as (t & _ & Hte).
      apply fmap_Some in Hte as ([e' j] & Hte & ->). by apply (Hexp t e' j).
    + intros x Hx Hty. destruct (Hcov x) as (t & Ht & Hxt).
      { rewrite (entries_vars _ _ _ _ c Hent). by apply elem_of_list_to_set. }
      apply list_elem_of_lookup in Ht as [i Hi].
      destruct (Forall2_lookup_l _ _ _ _ _ He Hi) as (e & Hei & Hte). apply fmap_Some in Hte as ([e' j] & Hte & ->).
      destruct (Hexp t e' j Hte) as [_ Hm]. exists e'. split; [by eapply list_elem_of_lookup_2|].
      destruct (mentions_occurs e' x); [by apply Hm|by left|done].
Qed.

(** [forall |x, y| #[trigger] (x decreases to y)]: the trigger kept is the height of one
    side, and the variables of the other count as covered. *)
Module Height.
Import Example.
Definition sides : Exp := mkExp sp bool_typ (ExpX_Binary (BinaryOp_HeightCompare true false) (var "x") (var "y")).
Definition body : Exp := mkExp sp bool_typ (ExpX_Unary (UnaryOp_Trigger (TriggerAnnotation_Trigger None)) sides).
Definition height_of_x : Exp := mkExp sp bool_typ (ExpX_Unary UnaryOp_HeightTrigger (var "x")).
Definition report : ChosenTriggers := mkChosenTriggers (mkPath CrateId_Vstd []) sp [[sp]] false true.
End Height.

(** [forall |x, y| #[trigger] f(x, y)] *)
Definition annotated_body : Exp :=
  mkExp Example.sp bool_typ (ExpX_Unary (UnaryOp_Trigger (TriggerAnnotation_Trigger None)) Example.f_x_y).
Lemma triggers_cover_witness :
  (∀ e, e ∈ [Example.f_x_y] → kept annotated_body e)
  ∧ ∃ e, e ∈ [Example.f_x_y] ∧ (occurs (Example.v "y") e ∨ height_compared annotated_body (Example.v "y") e).
Proof.
  destruct (triggers_cover Example.in_turn Example.in_turn_perm Example.ctx Example.sp [Example.v "x"; Example.v "y"] annotated_body
    false Height.report [[Example.f_x_y]]) with (trig := [Example.f_x_y]) as [H1 H2].
  - vm_compute. reflexivity.
  - left.
  - split; [exact H1|]. apply H2; [right; left|discriminate].
Defined.

(** C39. The variables of the expression kept for an annotated height comparison are not those
    that are counted: a trigger is accepted in which a variable of the quantifier does not
    occur. *)
Theorem height_trigger_uncovered (hash_order : N → ∀ A, list A → list A) : ∃ e,
  build_triggers hash_order Example.ctx Example.sp [Example.v "x"; Example.v "y"] Height.body false = Ok (Height.report, Ok [[e]])
  ∧ ¬ occurs (Example.v "y") e.
Proof.
  exists Height.height_of_x. split; [vm_compute; reflexivity|]. intros (e' & Hw & He').
  inversion Hw as [|? e1 s t y Hc _ Hw1]; subst; [done|]. apply list_elem_of_singleton in Hc as ->.
  inversion Hw1 as [|? e2 s2 t2 y2 Hc2 _ Hw2]; subst; [discriminate|]. by apply elem_of_nil in Hc2.
Qed.
