(* ===== verification/InterpSynt.v ===== *)
(** * The interpreter's expressions: restoring, comparing and hashing them

    [cleanup_exp], [seq_to_sst], [SyntacticEquality] and [hash_exp] of
    source/vir/src/interpreter.rs.

    [cleanup_exp] and [syntactic_eq] call themselves on expressions that they have built:
    they take fuel, and [clean_depth] of their (last) argument is enough.  [Arc::ptr_eq] is a
    parameter: whether two equal expressions are the same object is not modelled, and it
    only decides whether [syntactic_eq] says so at once. *)

From S2P Require Import Prelude StateRes VirMessages VirAst VirAstUtil Sst SstUtil.
From S2P Require SstSemantics.
From S2P Require Ast ScopeMap.
Set Warnings "-rewrite-rw,-register-all,-clear-no-such-hyp".
Local Open Scope st_scope.

(** A [VirErr], or no more fuel. *)
Inductive interp_error := IErr (m : VirErr) | IFuel.
Definition lift_fuel {A} (r : res fuel_error A) : res interp_error A :=
  match r with Ok x => Ok x | Err OutOfFuel => Err IFuel | Panic => Panic end.

(** ** Restoring expressions *)

Definition seq_path : Path := path_of CrateId_Vstd ["seq"; "Seq"].
Definition fun_empty : Fun := fun_of CrateId_Vstd ["seq"; "Seq"] "empty".
Definition fun_push : Fun := fun_of CrateId_Vstd ["seq"; "Seq"] "push".
Definition fun_view : Fun := fun_of CrateId_Vstd ["array"] "array_view".

Definition array_to_sst (cleanup_exp : Exp → res interp_error Exp) (span : Span) (arr_typ : Typ) (arr : list Exp)
    : res interp_error Exp :=
  rbind (rmap cleanup_exp arr) (λ exps, Ok (mkExp span arr_typ (ExpX_ArrayLiteral exps))).

Definition cleanup_array (cleanup_exp : Exp → res interp_error Exp) (span : Span) (typ : Typ) (v : list Exp)
    : res interp_error Exp := array_to_sst cleanup_exp span typ v.

Definition seq_to_sst (cleanup_exp : Exp → res interp_error Exp) (span : Span) (inner_typ : Typ) (s : list Exp)
    : res interp_error Exp :=
  let seq_typ := TypX_Datatype (Dt_Path seq_path) [inner_typ] [] in
  let new_seq_exp := mkExp span seq_typ in
  if length s <=? 1 then
    let typs := [inner_typ] in
    let empty := new_seq_exp (ExpX_Call (CallFun_Fun fun_empty None) typs []) in
    Ok (foldl (λ acc e, new_seq_exp (ExpX_Call (CallFun_Fun fun_push None) typs [acc; e])) empty s)
  else
    let array_len_typ := TypX_ConstInt (Z.of_nat (length s)) in
    let array_typ := TypX_Primitive Primitive_Array [inner_typ; array_len_typ] in
    rbind (cleanup_array cleanup_exp span array_typ s) (λ array,
    Ok (new_seq_exp (ExpX_Call (CallFun_Fun fun_view None) [inner_typ; array_len_typ] [array]))).

(** [internal_error] reads an environment variable of the build; its message, which
    prints the type, is [not_a_seq]. *)
Definition cleanup_seq (not_a_seq : Span → Typ → Message) (cleanup_exp : Exp → res interp_error Exp)
    (span : Span) (typ : Typ) (v : list Exp) : res interp_error Exp :=
  match typ with
  | TypX_Datatype _ typs _ =>
    rbind (expect (typs !! 0)) (λ inner_typ,
    rbind (rmap cleanup_exp v) (λ cleaned, seq_to_sst cleanup_exp span inner_typ cleaned))
  | _ => Err (IErr (not_a_seq span typ))
  end.

Definition unapplied_closure : string :=
  "Verus does not currently support proof by computation that includes a closure literal that isn't applied".

Section cleanup.
Variable not_a_seq : Span → Typ → Message.

(** The closure that [cleanup_exp] gives to [map_exp_visitor_result]. *)
Definition cleanup_node (cleanup_exp : Exp → res interp_error Exp) (e : Exp) : res interp_error Exp :=
  match exp_x e with
  | ExpX_Interp (InterpExp_FreeVar v) =>
    Ok (new_x e (if decide (v.2 = VarIdentDisambiguate_TypParamBare)
                 then ExpX_NullaryOpr (NullaryOpr_ConstGeneric (TypX_TypParam v.1))
                 else ExpX_Var v))
  | ExpX_Interp (InterpExp_Array v) => cleanup_array cleanup_exp (exp_span e) (exp_typ e) v
  | ExpX_Interp (InterpExp_Seq v) => cleanup_seq not_a_seq cleanup_exp (exp_span e) (exp_typ e) v
  | ExpX_Interp (InterpExp_Closure _ _) => Err (IErr (error (exp_span e) unapplied_closure))
  | _ => Ok e
  end.

(** [map_exp_visitor_bind]: what is below first, then the node. *)
Fixpoint cleanup_rec (fuel : nat) (exp : Exp) : st VisitorScopeMap interp_error Exp :=
  match fuel with
  | O => serr IFuel
  | S fuel =>
    let! e := visit_exp_rec sret (cleanup_rec fuel) map_scoper exp in
    lifts (cleanup_node (λ e, rbind (cleanup_rec fuel e ScopeMap.new) (λ '(e, _), Ok e)) e)
  end.
Definition cleanup_fuel (fuel : nat) (exp : Exp) : res interp_error Exp :=
  rbind (cleanup_rec fuel exp ScopeMap.new) (λ '(e, _), Ok e).

(** The depth of an expression once it has been restored. *)
Fixpoint clean_depth (e : Exp) : nat :=
  let 'mkExp _ _ x := e in
  let all := λ es, list_max (map clean_depth es) in
  let trigs := λ ts, list_max (map (λ t, list_max (map clean_depth t)) ts) in
  S (match x with
    | ExpX_Loc e | ExpX_Unary _ e | ExpX_UnaryOpr _ e => clean_depth e
    | ExpX_Call _ _ es | ExpX_ArrayLiteral es => all es
    | ExpX_CallLambda e es => clean_depth e `max` all es
    | ExpX_Ctor _ _ bs => list_max (map (λ b, let 'Ast.mkBinder _ a := b in clean_depth a) bs)
    | ExpX_Binary _ e1 e2 | ExpX_BinaryOpr _ e1 e2 => clean_depth e1 `max` clean_depth e2
    | ExpX_If e1 e2 e3 => Nat.max (clean_depth e1) (Nat.max (clean_depth e2) (clean_depth e3))
    | ExpX_WithTriggers ts e => trigs ts `max` clean_depth e
    | ExpX_Bind _ b e =>
      clean_depth e `max`
      match b with
      | BndX_Let bs => list_max (map (λ b, let 'mkVarBinder _ a := b in clean_depth a) bs)
      | BndX_Quant _ _ ts _ | BndX_Lambda _ ts => trigs ts
      | BndX_Choose _ ts c => trigs ts `max` clean_depth c
      end
    | ExpX_Interp (InterpExp_Seq v) => S (S (all v))
    | ExpX_Interp (InterpExp_Array v) => all v
    | _ => 0
    end).

Definition cleanup_exp (exp : Exp) : res interp_error Exp := cleanup_fuel (clean_depth exp) exp.
End cleanup.

(** ** Syntactic equality *)

Definition resolve_call (fun_ : Fun) (resolved : option (Fun * Typs)) (typs : Typs) : Fun * Typs :=
  match resolved with None => (fun_, typs) | Some (f, ts) => (f, ts) end.

Local Abbreviation R A := (res fuel_error A).
(** The operator [?] on an option. *)
Definition qbind {A B} (m : R (option A)) (k : A → R (option B)) : R (option B) :=
  rbind m (λ o, match o with Some x => k x | None => Ok None end).
Notation "'let&' p ':=' m 'in' k" := (qbind m (λ p, k))
  (at level 10, p pattern, m at level 100, k at level 200) : st_scope.
(** [a && m?] *)
Definition qand (a : bool) (m : R (option bool)) : R (option bool) := if a then m else Ok (Some false).
Definition definitely (m : R (option bool)) : R bool :=
  rbind m (λ o, Ok (match o with Some true => true | _ => false end)).
(** [conservative_eq] *)
Definition conservative (m : R (option bool)) : R (option bool) :=
  rbind (definitely m) (λ b, Ok (if b : bool then Some true else None)).
Definition def_eq (b : bool) : option bool := if b then Some true else None.

(** [impl SyntacticEquality for Arc<Vec<T>>] and for [Vector<T>]. *)
Section vec.
Context {A : Type} (eq : A → A → R (option bool)).
Fixpoint vec_fold (l r : list A) (def_true : bool) : R (option bool) :=
  match l, r with
  | x :: l, y :: r =>
    rbind (eq x y) (λ o,
    match o with
    | None => vec_fold l r false
    | Some false => Ok (Some false)
    | Some true => vec_fold l r def_true
    end)
  | _, _ => Ok (def_eq def_true)
  end.
Definition vec_eq (l r : list A) : R (option bool) :=
  if decide (length l = length r) then vec_fold l r true else Ok (Some false).

(** The [try_fold] over two lists of binders. *)
Context {X : Type} `{EqDecision X}.
Fixpoint binders_fold (l r : list (X * A)) (acc : bool) : R (option bool) :=
  match l, r with
  | (n1, x) :: l, (n2, y) :: r =>
    let& b := qand (acc && bool_decide (n1 = n2)) (eq x y) in binders_fold l r b
  | _, _ => Ok (Some acc)
  end.
(** [VarBinders<..>] *)
Definition var_binders_eq (l r : list (X * A)) : R (option bool) :=
  if decide (length l = length r) then binders_fold l r true else Ok None.
End vec.

Definition var_binder_pairs {A} (bs : VarBinders A) : list (VarIdent * A) := map (λ b, (vname b, va b)) bs.
Definition sorted_ctor_fields (fields : Ast.Binders Exp) : list (Ident * Exp) :=
  SstSemantics.sort_fields (map (λ b, (Ast.bname b, Ast.ba b)) fields).

(** [undecorate_typ] of the first type is part of the recursion. *)
Fixpoint typ_syntactic_eq (self other : Typ) : R (option bool) :=
  match self with
  | TypX_Decorate _ _ t => typ_syntactic_eq t other
  | _ =>
    match self, undecorate_typ other with
    | TypX_Bool, TypX_Bool => Ok (Some true)
    | TypX_Int l, TypX_Int r => Ok (Some (bool_decide (l = r)))
    | TypX_SpecFn formals_l res_l, TypX_SpecFn formals_r res_r =>
      let& b := vec_eq typ_syntactic_eq formals_l formals_r in qand b (typ_syntactic_eq res_l res_r)
    | TypX_Datatype path_l typs_l _, TypX_Datatype path_r typs_r _ =>
      qand (bool_decide (path_l = path_r)) (vec_eq typ_syntactic_eq typs_l typs_r)
    | TypX_TypParam l, TypX_TypParam r => Ok (def_eq (String.eqb l r))
    | TypX_TypeId, TypX_TypeId => Ok (Some true)
    | TypX_Air l, TypX_Air r => Ok (Some (bool_decide (l = r)))
    | _, _ => Ok None
    end
  end.

Definition constant_eq (l r : Constant) : option bool :=
  match l, r with
  | Constant_Bool l, Constant_Bool r => Some (Bool.eqb l r)
  | Constant_Int l, Constant_Int r => Some (Z.eqb l r)
  | Constant_StrSlice l, Constant_StrSlice r => Some (String.eqb l r)
  | Constant_ByteStr l, Constant_ByteStr r => Some (bool_decide (l = r))
  | Constant_Char l, Constant_Char r => Some (N.eqb l r)
  | _, _ => None
  end.

Definition unary_opr_eq (l r : UnaryOpr) : R (option bool) :=
  match l, r with
  | UnaryOpr_HasType l, UnaryOpr_HasType r => let& b := typ_syntactic_eq l r in Ok (def_eq b)
  | UnaryOpr_IsVariant dt_l var_l, UnaryOpr_IsVariant dt_r var_r =>
    Ok (def_eq (bool_decide (dt_l = dt_r) && String.eqb var_l var_r))
  | UnaryOpr_Field l, UnaryOpr_Field r => Ok (def_eq (bool_decide (l = r)))
  | _, _ => Ok None
  end.

Definition undecorated_equal (l r : Exp) : bool :=
  types_equal (undecorate_typ (exp_typ l)) (undecorate_typ (exp_typ r)).

Section syntactic_eq.
Variable not_a_seq : Span → Typ → Message.
Variable ptr_eq : Exp → Exp → bool.

(** [cleanup_exp(e).ok()] *)
Definition cleanup_ok (e : Exp) : R (option Exp) :=
  match cleanup_exp not_a_seq e with
  | Ok e => Ok (Some e)
  | Err (IErr _) => Ok None
  | Err IFuel => Err OutOfFuel
  | Panic => Panic
  end.

(** The loop that renames the variables of one quantifier to those of the other; [None]
    is an early return. *)
Fixpoint quant_renaming (span : Span) (free_vars : gmap UniqueIdent Typ) (l r : VarBinders Typ)
    (substs : gmap UniqueIdent Exp) : option (gmap UniqueIdent Exp) :=
  match l, r with
  | b_l :: l, b_r :: r =>
    if negb (types_equal (va b_l) (va b_r)) || bool_decide (is_Some (free_vars !! vname b_r)) then None
    else
      quant_renaming span free_vars l r (<[vname b_l := mkExp span (va b_r) (ExpX_Var (vname b_r))]> substs)
  | _, _ => Some substs
  end.

Section node.
Variable syn : Exp → Exp → R (option bool).

Definition bnd_syntactic_eq (l r : BndX Exp) : R (option bool) :=
  match l, r with
  | BndX_Let bnds_l, BndX_Let bnds_r =>
    let& b := var_binders_eq syn (var_binder_pairs bnds_l) (var_binder_pairs bnds_r) in Ok (def_eq b)
  | BndX_Quant q_l bnds_l _ _, BndX_Quant q_r bnds_r _ _ =>
    if decide (q_l = q_r)
    then conservative (var_binders_eq typ_syntactic_eq (var_binder_pairs bnds_l) (var_binder_pairs bnds_r))
    else Ok None
  | BndX_Lambda bnds_l _, BndX_Lambda bnds_r _ =>
    conservative (var_binders_eq typ_syntactic_eq (var_binder_pairs bnds_l) (var_binder_pairs bnds_r))
  | BndX_Choose bnds_l _ e_l, BndX_Choose bnds_r _ e_r =>
    let& b := conservative (var_binders_eq typ_syntactic_eq (var_binder_pairs bnds_l) (var_binder_pairs bnds_r)) in
    qand b (conservative (syn e_l e_r))
  | _, _ => Ok None
  end.

Definition quant_syntactic_eq (q_l : Quant) (bnds_l : VarBinders Typ) (e_l : Exp)
    (q_r : Quant) (bnds_r : VarBinders Typ) (e_r : Exp) : R (option bool) :=
  if negb (bool_decide (q_l = q_r)) || negb (bool_decide (length bnds_l = length bnds_r)) then Ok None
  else
    let& e_l := cleanup_ok e_l in
    let& e_r := cleanup_ok e_r in
    rbind (free_vars_exp e_l) (λ free_vars,
    let free_vars := foldl (λ m b, delete (vname b) m) free_vars bnds_l in
    match quant_renaming (exp_span e_l) free_vars bnds_l bnds_r ∅ with
    | None => Ok None
    | Some substs =>
      rbind (subst_exp ∅ substs e_l) (λ e_l,
      let& b := syn e_l e_r in Ok (def_eq b))
    end).

(** The match of [syntactic_eq] for [Exp]. *)
Definition exp_node_eq (self other : Exp) : R (option bool) :=
  match exp_x self, exp_x other with
  | ExpX_Const l, ExpX_Const r => Ok (constant_eq l r)
  | ExpX_Var l, ExpX_Var r => Ok (def_eq (bool_decide (l = r)))
  | ExpX_VarLoc l, ExpX_VarLoc r => Ok (def_eq (bool_decide (l = r)))
  | ExpX_VarAt l at_l, ExpX_VarAt r at_r => Ok (def_eq (bool_decide (l = r) && bool_decide (at_l = at_r)))
  | ExpX_Loc l, ExpX_Loc r => syn l r
  | ExpX_Old id_l u_l, ExpX_Old id_r u_r => Ok (def_eq (String.eqb id_l id_r && bool_decide (u_l = u_r)))
  | ExpX_Call (CallFun_Fun f_l resolved_l) typs_l exps_l, ExpX_Call (CallFun_Fun f_r resolved_r) typs_r exps_r =>
    let '(f_l, typs_l) := resolve_call f_l resolved_l typs_l in
    let '(f_r, typs_r) := resolve_call f_r resolved_r typs_r in
    if bool_decide (f_l = f_r) && n_types_equal typs_l typs_r && bool_decide (length exps_l = length exps_r)
    then let& b := vec_eq syn exps_l exps_r in Ok (def_eq b)
    else Ok None
  | ExpX_CallLambda exp_l exps_l, ExpX_CallLambda exp_r exps_r =>
    let& b := conservative (syn exp_l exp_r) in qand b (conservative (vec_eq syn exps_l exps_r))
  | ExpX_Ctor path_l id_l bnds_l, ExpX_Ctor path_r id_r bnds_r =>
    if negb (bool_decide (path_l = path_r)) || negb (String.eqb id_l id_r) then Ok (Some false)
    else
      let& b := binders_fold syn (sorted_ctor_fields bnds_l) (sorted_ctor_fields bnds_r) true in
      if b : bool then Ok (def_eq (undecorated_equal self other)) else Ok (Some false)
  | ExpX_Unary op_l e_l, ExpX_Unary op_r e_r =>
    let& b := qand (bool_decide (op_l = op_r) && undecorated_equal self other) (syn e_l e_r) in Ok (def_eq b)
  | ExpX_UnaryOpr op_l e_l, ExpX_UnaryOpr op_r e_r =>
    let& op_eq := unary_opr_eq op_l op_r in
    let& b := qand op_eq (syn e_l e_r) in Ok (def_eq b)
  | ExpX_Binary op_l e1_l e2_l, ExpX_Binary op_r e1_r e2_r =>
    let& b := qand (bool_decide (op_l = op_r)) (syn e1_l e1_r) in
    let& b := qand b (syn e2_l e2_r) in Ok (def_eq b)
  | ExpX_If e1_l e2_l e3_l, ExpX_If e1_r e2_r e3_r =>
    rbind (definitely (syn e1_l e1_r)) (λ b,
    if b : bool then
      let& then_eq := syn e2_l e2_r in
      let& else_eq := syn e3_l e3_r in
      Ok (if Bool.eqb then_eq else_eq then Some then_eq else None)
    else Ok None)
  | ExpX_WithTriggers _ e_l, ExpX_WithTriggers _ e_r => syn e_l e_r
  | ExpX_Bind _ (BndX_Quant q_l bnds_l _ _) e_l, ExpX_Bind _ (BndX_Quant q_r bnds_r _ _) e_r =>
    quant_syntactic_eq q_l bnds_l e_l q_r bnds_r e_r
  | ExpX_Bind _ bnd_l e_l, ExpX_Bind _ bnd_r e_r =>
    let& b := bnd_syntactic_eq bnd_l bnd_r in
    let& b := qand b (syn e_l e_r) in Ok (def_eq b)
  | ExpX_Interp (InterpExp_FreeVar l), ExpX_Interp (InterpExp_FreeVar r) => Ok (def_eq (bool_decide (l = r)))
  | ExpX_Interp (InterpExp_Seq l), ExpX_Interp (InterpExp_Seq r) => vec_eq syn l r
  | _, _ => Ok None
  end.
End node.

Fixpoint syn_fuel (fuel : nat) (self other : Exp) : R (option bool) :=
  match fuel with
  | O => Err OutOfFuel
  | S fuel => if ptr_eq self other then Ok (Some true) else exp_node_eq (syn_fuel fuel) self other
  end.
Definition syntactic_eq (self other : Exp) : R (option bool) := syn_fuel (clean_depth other) self other.
Definition syntactic_eq_exps (l r : list Exp) : R (option bool) := vec_eq syntactic_eq l r.
Definition definitely_eq (self other : Exp) : R bool := definitely (syntactic_eq self other).
End syntactic_eq.
