(* ===== verification/InterpState.v ===== *)
(** * The interpreter's state (source/vir/src/interpreter.rs)

    Keys of the call cache and their hashes, [State], [Ctx], and the truncation of
    integers.  The log, the clocks and the statistics that are only printed are not
    modelled, except the counters that other code updates.

    A [HashMap] looks a key up among those that its probe sequence reaches: [probe] is a
    parameter, on the data that the two keys feed to the hasher.  The first key in the
    order of insertion that is reached and equal is found. *)

From S2P Require Import Prelude VirMessages VirAst VirAstUtil Sst StateRes SstUtil InterpSynt.
From S2P Require Ast ScopeMap.
Set Warnings "-rewrite-rw,-register-all,-clear-no-such-hyp".
Local Open Scope st_scope.

(** ** Hashing

    What an expression feeds to the hasher: one element for each call of [hash]. *)
Inductive hashed :=
| H_num (n : Z)
| H_constant (c : Constant)
| H_var (x : UniqueIdent)
| H_var_at (a : VarAt)
| H_ident (x : Ident)
| H_call (f : CallFun)
| H_fun (f : Fun)
| H_typs (ts : Typs)
| H_typ (t : Typ)
| H_dt (d : Dt)
| H_nullary (op : NullaryOpr)
| H_unary (op : UnaryOp)
| H_unary_opr (op : UnaryOpr)
| H_binary (op : BinaryOp)
| H_binary_opr (op : BinaryOpr)
| H_quant (q : Quant)
| H_fuel (n : N).

Section hash.
Context {A : Type} (f : A → list hashed).
(** [hash_iter] over [enumerate()] *)
Fixpoint hash_enumerate (i : Z) (l : list A) : list hashed :=
  match l with [] => [] | x :: l => H_num i :: f x ++ hash_enumerate (i + 1) l end.
(** [hash_iter] over pairs *)
Fixpoint hash_pairs {X} (h : X → hashed) (l : list (X * A)) : list hashed :=
  match l with [] => [] | (n, x) :: l => h n :: f x ++ hash_pairs h l end.
End hash.

Definition hash_var_binders_typ (bnds : VarBinders Typ) : list hashed :=
  hash_pairs (λ t, [H_typ t]) H_var (var_binder_pairs bnds).

(** [sorted_ctor_fields], on what the fields feed. *)
Fixpoint hash_exp (exp : Exp) : list hashed :=
  let 'mkExp _ _ x := exp in
  let hash_exps := hash_enumerate hash_exp 0 in
  let hash_trigs := hash_enumerate hash_exps 0 in
  match x with
  | ExpX_Const c => [H_num 0; H_constant c]
  | ExpX_Var id => [H_num 1; H_var id]
  | ExpX_VarLoc id => [H_num 2; H_var id]
  | ExpX_VarAt id va => [H_num 3; H_var id; H_var_at va]
  | ExpX_Loc e => H_num 4 :: hash_exp e
  | ExpX_Old id uid => [H_num 5; H_ident id; H_var uid]
  | ExpX_Call f typs exps => H_num 6 :: H_call f :: H_typs typs :: hash_exps exps
  | ExpX_CallLambda lambda args => H_num 7 :: hash_exp lambda ++ hash_exps args
  | ExpX_Ctor path x bnds =>
    H_num 8 :: H_dt path :: H_ident x
    :: hash_pairs id H_ident
         (SstSemantics.sort_fields (map (λ b, let 'Ast.mkBinder n a := b in (n, hash_exp a)) bnds))
  | ExpX_NullaryOpr op => [H_num (-1); H_nullary op]
  | ExpX_Unary op e => H_num 9 :: H_unary op :: hash_exp e
  | ExpX_UnaryOpr op e => H_num 10 :: H_unary_opr op :: hash_exp e
  | ExpX_Binary op e1 e2 => H_num 11 :: H_binary op :: hash_exp e1 ++ hash_exp e2
  | ExpX_BinaryOpr op e1 e2 => H_num 111 :: H_binary_opr op :: hash_exp e1 ++ hash_exp e2
  | ExpX_If e1 e2 e3 => H_num 12 :: hash_exp e1 ++ hash_exp e2 ++ hash_exp e3
  | ExpX_WithTriggers trigs e => H_num 13 :: hash_trigs trigs ++ hash_exp e
  | ExpX_Bind _ bnd e =>
    H_num 14 ::
    match bnd with
    | BndX_Let bnds =>
      H_num 0 :: hash_pairs id H_var (map (λ b, let 'mkVarBinder n a := b in (n, hash_exp a)) bnds) ++ hash_exp e
    | BndX_Quant q bnds _ _ => [H_num 1; H_quant q; H_num (Z.of_nat (length bnds))]
    | BndX_Lambda bnds trigs => H_num 2 :: hash_var_binders_typ bnds ++ hash_trigs trigs ++ hash_exp e
    | BndX_Choose bnds trigs c =>
      H_num 3 :: hash_var_binders_typ bnds ++ hash_trigs trigs ++ hash_exp c ++ hash_exp e
    end
  | ExpX_Interp e =>
    H_num 15 ::
    match e with
    | InterpExp_FreeVar id => [H_num 0; H_var id]
    | InterpExp_Seq exps => H_num 1 :: hash_exps exps
    | InterpExp_Closure e _ => H_num 2 :: hash_exp e
    | InterpExp_Array exps => H_num 3 :: hash_exps exps
    end
  | ExpX_StaticVar f => [H_num 16; H_fun f]
  | ExpX_ExecFnByName f => [H_num 17; H_fun f]
  | ExpX_ArrayLiteral es => H_num 18 :: hash_exps es
  | ExpX_FuelConst i => [H_num 19; H_fuel i]
  end.
Definition hash_exps (exps : list Exp) : list hashed := hash_enumerate hash_exp 0 exps.

(** ** Functions (sst.rs, ast.rs)

    The fields of [FunctionSst] that the interpreter reads; a parameter is its name. *)
Record FuncSpecBodySst := mkFuncSpecBody { decrease_when : option Exp; body_exp : Exp }.
Record FunctionSst := mkFunctionSst {
  fsst_kind : FunctionKind;
  fsst_typ_params : Idents;
  pars : list VarIdent;
  memoize : bool;
  spec_axioms : option FuncSpecBodySst
}.

Definition inline_okay (self : FunctionKind) : bool :=
  match self with
  | FunctionKind_Static | FunctionKind_TraitMethodImpl _ _ _ _ _ => true
  | FunctionKind_TraitMethodDecl _ _ | FunctionKind_ForeignTraitMethodImpl _ _ _ _ => false
  end.

(** ** The state *)

Definition Env := ScopeMap.ScopeMap UniqueIdent Exp.
Definition TypeEnv := ScopeMap.ScopeMap Ident Typ.

Record CallKey := mkCallKey { key_typs : Typs; key_args : list Exp }.

Record State := mkState {
  depth : N;
  env : Env;
  iterations : N;
  msgs : list Message;
  perf : bool;
  cache : gmap Fun (list (CallKey * Exp));
  enable_cache : bool;
  simplified : list Exp;
  enable_simplified_cache : bool;
  cache_hits : N;
  cache_misses : N;
  ptr_hits : N;
  ptr_misses : N;
  fun_calls : gmap Fun N
}.

Definition set_depth (f : N → N) (s : State) : State :=
  let (d, e, i, m, p, c, ec, si, es, ch, cm, ph, pm, fc) := s in mkState (f d) e i m p c ec si es ch cm ph pm fc.
Definition set_env (f : Env → Env) (s : State) : State :=
  let (d, e, i, m, p, c, ec, si, es, ch, cm, ph, pm, fc) := s in mkState d (f e) i m p c ec si es ch cm ph pm fc.
Definition set_iterations (f : N → N) (s : State) : State :=
  let (d, e, i, m, p, c, ec, si, es, ch, cm, ph, pm, fc) := s in mkState d e (f i) m p c ec si es ch cm ph pm fc.
Definition set_msgs (f : list Message → list Message) (s : State) : State :=
  let (d, e, i, m, p, c, ec, si, es, ch, cm, ph, pm, fc) := s in mkState d e i (f m) p c ec si es ch cm ph pm fc.
Definition set_cache (f : gmap Fun (list (CallKey * Exp)) → gmap Fun (list (CallKey * Exp))) (s : State) : State :=
  let (d, e, i, m, p, c, ec, si, es, ch, cm, ph, pm, fc) := s in mkState d e i m p (f c) ec si es ch cm ph pm fc.
Definition set_simplified (f : list Exp → list Exp) (s : State) : State :=
  let (d, e, i, m, p, c, ec, si, es, ch, cm, ph, pm, fc) := s in mkState d e i m p c ec (f si) es ch cm ph pm fc.
Definition count_cache (hit : bool) (s : State) : State :=
  let (d, e, i, m, p, c, ec, si, es, ch, cm, ph, pm, fc) := s in
  if hit then mkState d e i m p c ec si es (ch + 1) cm ph pm fc else mkState d e i m p c ec si es ch (cm + 1) ph pm fc.
Definition count_ptr (hit : bool) (s : State) : State :=
  let (d, e, i, m, p, c, ec, si, es, ch, cm, ph, pm, fc) := s in
  if hit then mkState d e i m p c ec si es ch cm (ph + 1) pm fc else mkState d e i m p c ec si es ch cm ph (pm + 1) fc.
Definition count_call (f : Fun) (s : State) : State :=
  let (d, e, i, m, p, c, ec, si, es, ch, cm, ph, pm, fc) := s in
  mkState d e i m p c ec si es ch cm ph pm (<[f := (default 0 (fc !! f) + 1)%N]> fc).

(** [State { .. }] of [eval_expr_launch] *)
Definition initial_state (logging : bool) : State :=
  mkState 0 ScopeMap.new 1 [] logging ∅ true [] false 0 0 0 0 ∅.

Record Ctx := mkCtx {
  fun_ssts : gmap Fun FunctionSst;
  max_iterations : N;
  max_depth : N;
  arch : ArchWordBits;
  fun_warn_configs : gmap Fun (option (WarningAllow → bool));
  current_fun : option Fun
}.

Local Abbreviation M := (st State interp_error).

(** [Ctx::warning], with [state.msgs.push] *)
Definition ctx_warning (ctx : Ctx) (span : Span) (allow : WarningAllow) (note : string) : M unit :=
  match current_fun ctx with
  | Some f =>
    match fun_warn_configs ctx !! f with
    | None => spanic
    | Some check_allow =>
      smodify (set_msgs (warning_maybe_if_in_local_crate check_allow span allow note))
    end
  | None => smodify (set_msgs (λ m, m ++ [warning span note]))
  end.

(** ** The cache *)

Section cache.
Variable not_a_seq : Span → Typ → Message.
Variable ptr_eq : Exp → Exp → bool.
Variable probe : list hashed → list hashed → bool.

(** [impl PartialEq for CallKey] *)
Definition key_eq (self other : CallKey) : res fuel_error bool :=
  if n_types_equal (key_typs self) (key_typs other)
  then definitely (syntactic_eq_exps not_a_seq ptr_eq (key_args self) (key_args other))
  else Ok false.

Definition key_found (key k : CallKey) : res fuel_error bool :=
  if probe (hash_exps (key_args key)) (hash_exps (key_args k)) then key_eq key k else Ok false.

Fixpoint map_get (m : list (CallKey * Exp)) (key : CallKey) : res fuel_error (option Exp) :=
  match m with
  | [] => Ok None
  | (k, v) :: m => rbind (key_found key k) (λ b, if b : bool then Ok (Some v) else map_get m key)
  end.
Fixpoint map_insert (m : list (CallKey * Exp)) (key : CallKey) (v : Exp)
    : res fuel_error (list (CallKey * Exp)) :=
  match m with
  | [] => Ok [(key, v)]
  | (k, w) :: m =>
    rbind (key_found key k) (λ b,
    if b : bool then Ok ((k, v) :: m) else rbind (map_insert m key v) (λ m, Ok ((k, w) :: m)))
  end.

Definition insert_call (f : Fun) (typs : Typs) (args : list Exp) (result : Exp) (memoize : bool) : M unit := λ s,
  if enable_cache s && memoize then
    rbind (lift_fuel (map_insert (default [] (cache s !! f)) (mkCallKey typs args) result)) (λ m,
    Ok (tt, set_cache <[f := m]> s))
  else Ok (tt, s).

Definition lookup_call (f : Fun) (typs : Typs) (args : list Exp) (memoize : bool) : M (option Exp) := λ s,
  if enable_cache s && memoize then
    let s := if perf s then count_call f s else s in
    match cache s !! f with
    | None => Ok (None, s)
    | Some m => rbind (lift_fuel (map_get m (mkCallKey typs args))) (λ o, Ok (o, s))
    end
  else Ok (None, s).
End cache.

(** ** Truncation of integers *)

(** [u as u8], ...: the low bits; [i as i8], ...: those read as a signed number. *)
Definition u128_as (bits : N) (u : Z) : Z := (u mod 2 ^ Z.of_N bits)%Z.
Definition i128_as (bits : N) (i : Z) : Z :=
  let u := u128_as bits i in if (u <? 2 ^ (Z.of_N bits - 1))%Z then u else (u - 2 ^ Z.of_N bits)%Z.

Definition u128_to_fixed_width {E} (u : Z) (width : N) : res E Z :=
  match width with
  | 8 => Ok (u128_as 8 u)
  | 16 => Ok (u128_as 16 u)
  | 32 => Ok (u128_as 32 u)
  | 64 => Ok (u128_as 64 u)
  | 128 => Ok u
  | _ => Panic
  end%N.
Definition i128_to_fixed_width {E} (i : Z) (width : N) : res E Z :=
  match width with
  | 8 => Ok (i128_as 8 i)
  | 16 => Ok (i128_as 16 i)
  | 32 => Ok (i128_as 32 i)
  | 64 => Ok (i128_as 64 i)
  | 128 => Ok i
  | _ => Panic
  end%N.

Definition u128_to_arch_width {E} (u : Z) (arch : ArchWordBits) : res E (option Z) :=
  match arch with
  | ArchWordBits_Either32Or64 =>
    rbind (u128_to_fixed_width u 32) (λ v32,
    rbind (u128_to_fixed_width u 64) (λ v64, Ok (if (v32 =? v64)%Z then Some v32 else None)))
  | ArchWordBits_Exactly v => rbind (u128_to_fixed_width u v) (λ i, Ok (Some i))
  end.
Definition i128_to_arch_width {E} (i : Z) (arch : ArchWordBits) : res E (option Z) :=
  match arch with
  | ArchWordBits_Either32Or64 =>
    rbind (i128_to_fixed_width i 32) (λ v32,
    rbind (i128_to_fixed_width i 64) (λ v64, Ok (if (v32 =? v64)%Z then Some v32 else None)))
  | ArchWordBits_Exactly v => rbind (i128_to_fixed_width i v) (λ i, Ok (Some i))
  end.

Definition u128_to_width {E} (u : Z) (width : IntegerTypeBitwidth) (arch : ArchWordBits) : res E (option Z) :=
  match width with
  | IntegerTypeBitwidth_Width w => rbind (u128_to_fixed_width u w) (λ i, Ok (Some i))
  | IntegerTypeBitwidth_ArchWordSize => u128_to_arch_width u arch
  end.
Definition i128_to_width {E} (i : Z) (width : IntegerTypeBitwidth) (arch : ArchWordBits) : res E (option Z) :=
  match width with
  | IntegerTypeBitwidth_Width w => rbind (i128_to_fixed_width i w) (λ i, Ok (Some i))
  | IntegerTypeBitwidth_ArchWordSize => i128_to_arch_width i arch
  end.

(** [to_u128] and [to_i128] of [BigInt]. *)
Definition to_u128 (i : Z) : option Z := if ((0 <=? i) && (i <? 2 ^ 128))%Z then Some i else None.
Definition to_i128 (i : Z) : option Z := if ((- 2 ^ 127 <=? i) && (i <? 2 ^ 127))%Z then Some i else None.
Definition to_u32 (i : Z) : option Z := if ((0 <=? i) && (i <? 2 ^ 32))%Z then Some i else None.
(** [to_usize]; the verifier runs on a 64-bit machine. *)
Definition to_usize (i : Z) : option Z := if ((0 <=? i) && (i <? 2 ^ 64))%Z then Some i else None.

(** [i1 << i2] for an [i128] and a [u128] with [i2 < 128], whose lost bits are dropped. *)
Definition shl_i128 (i1 i2 : Z) : Z := if (128 <=? i2)%Z then 0%Z else i128_as 128 (Z.shiftl i1 i2).
Definition shl_u128 (i1 i2 : Z) : Z := if (128 <=? i2)%Z then 0%Z else u128_as 128 (Z.shiftl i1 i2).

(** ** Arrays and sequences in the interpreter (source/vir/src/interpreter.rs)

    The functions of vstd with an interpretation of their own.  [eval] is
    [eval_expr_internal]. *)

Inductive ArrayFn := ArrayFn_View.
Inductive SeqFn :=
| SeqFn_Empty | SeqFn_New | SeqFn_Push | SeqFn_Update | SeqFn_Subrange | SeqFn_Add | SeqFn_Len | SeqFn_Index
| SeqFn_ExtEqual | SeqFn_Last.

Section names.
Variable names : Path → option string.

Definition is_array_fn (f : Fun) : option ArrayFn :=
  match path_as_vstd_name names (path f) with
  | Some n => if String.eqb n "array::array_view" then Some ArrayFn_View else None
  | None => None
  end.

Definition is_sequence_fn (f : Fun) : option SeqFn :=
  match path_as_vstd_name names (path f) with
  | Some n =>
    if String.eqb n "seq::Seq::empty" then Some SeqFn_Empty
    else if String.eqb n "seq::Seq::new" then Some SeqFn_New
    else if String.eqb n "seq::Seq::push" then Some SeqFn_Push
    else if String.eqb n "seq::Seq::update" then Some SeqFn_Update
    else if String.eqb n "seq::Seq::subrange" then Some SeqFn_Subrange
    else if String.eqb n "seq::Seq::add" then Some SeqFn_Add
    else if String.eqb n "seq::Seq::len" then Some SeqFn_Len
    else if String.eqb n "seq::Seq::index" then Some SeqFn_Index
    else if String.eqb n "seq::Seq::ext_equal" then Some SeqFn_ExtEqual
    else if String.eqb n "seq::Seq::last" then Some SeqFn_Last
    else None
  | None => None
  end.

Definition is_seq_to_sst_fun (f : Fun) : bool :=
  match is_sequence_fn f with Some SeqFn_Empty | Some SeqFn_Push => true | _ => false end.
End names.


(** [(0..len).map(f).collect()] *)
Fixpoint collect_range (f : Z → M Exp) (n : nat) (i : Z) : M (list Exp) :=
  match n with
  | O => sret []
  | S n => let! e := f i in let! es := collect_range f n (i + 1) in sret (e :: es)
  end.

Definition get_int (e : Exp) : option Z :=
  match exp_x e with ExpX_Const (Constant_Int index) => to_usize index | _ => None end.
Definition is_seq (e : Exp) : option (list Exp) :=
  match exp_x e with ExpX_Interp (InterpExp_Seq s) => Some s | _ => None end.
(** [s.update(i, x)] of [im::Vector], in bounds. *)
Definition vec_update {A} (i : Z) (x : A) (s : list A) : list A := <[Z.to_nat i := x]> s.
(** [s.slice(start..end)], in bounds. *)
Definition vec_slice {A} (start end_ : Z) (s : list A) : list A :=
  take (Z.to_nat end_ - Z.to_nat start) (drop (Z.to_nat start) s).
Definition vec_len {A} (s : list A) : Z := Z.of_nat (length s).

Section eval_seq.
Variable not_a_seq : Span → Typ → Message.
Variable ptr_eq : Exp → Exp → bool.
Variable ctx : Ctx.
Variable eval : Exp → M Exp.

Definition eval_array (array_fn : ArrayFn) (exp : Exp) (args : list Exp) : M Exp :=
  match exp_x exp with
  | ExpX_Call _ _ _ =>
    let! array_exp := lifts (expect (args !! 0)) in
    match exp_x array_exp with
    | ExpX_Interp (InterpExp_Array es) =>
      let! inner_typ :=
        match exp_typ array_exp with
        | TypX_Primitive Primitive_Array typs => lifts (expect (typs !! 0))
        | TypX_Decorate _ _ t =>
          match t with
          | TypX_Primitive Primitive_Array typs => lifts (expect (typs !! 0))
          | _ => spanic
          end
        | _ => spanic
        end in
      let seq_typ := TypX_Datatype (Dt_Path seq_path) [inner_typ] [] in
      sret (mkExp (exp_span exp) seq_typ (ExpX_Interp (InterpExp_Seq es)))
    | _ => spanic
    end
  | _ => spanic
  end.

Definition warn_unsimplified (exp : Exp) (note : string) : M unit :=
  ctx_warning ctx (exp_span exp) AssertComputeUnsimplified note.

Definition seq_index_usize : string :=
  "computation tried to index into a sequence using a value that does not fit into usize".
Definition seq_index_length : string := "computation tried to index past the length of a sequence".
Definition array_index_usize : string :=
  "computation tried to index into an array using a value that does not fit into usize".
Definition array_index_length : string := "computation tried to index past the length of an array".

Section call.
Variables (exp : Exp) (fun_ : CallFun) (typs : Typs) (args : list Exp).

Definition exp_new (x : ExpX) : Exp := mkExp (exp_span exp) (exp_typ exp) x.
Definition arg (i : nat) : M Exp := lifts (expect (args !! i)).
(** [seq_to_sst(&args[index].span, typs[0].clone(), &seq)?] *)
Definition seq_arg_to_sst (index : nat) (seq : list Exp) : M Exp :=
  let! a := arg index in
  let! t := lifts (expect (typs !! 0)) in
  lifts (seq_to_sst (cleanup_exp not_a_seq) (exp_span a) t seq).
Definition ok_seq (index : nat) (seq : list Exp) : M Exp :=
  let! a := seq_arg_to_sst index seq in
  sret (exp_new (ExpX_Call fun_ typs (<[index := a]> args))).
Definition ok_call : M Exp := sret (exp_new (ExpX_Call fun_ typs args)).
Definition seq_new (v : list Exp) : M Exp := sret (exp_new (ExpX_Interp (InterpExp_Seq v))).

Definition eval_seq_call (seq_fn : SeqFn) : M Exp :=
  match seq_fn with
  | SeqFn_Empty => seq_new []
  | SeqFn_New =>
    let! a0 := arg 0 in
    match get_int a0 with
    | Some len =>
      let! lambda := arg 1 in
      let! v := collect_range (λ i,
          let int_i := mkExp (exp_span exp) int_typ (ExpX_Const (Constant_Int i)) in
          let! t := lifts (expect (typs !! 0)) in
          eval (mkExp (exp_span exp) t (ExpX_CallLambda lambda [int_i]))) (Z.to_nat len) 0 in
      seq_new v
    | None => ok_call
    end
  | SeqFn_Push =>
    let! a0 := arg 0 in
    match is_seq a0 with
    | Some s => let! a1 := arg 1 in seq_new (s ++ [a1])
    | None => ok_call
    end
  | SeqFn_Update =>
    let! a0 := arg 0 in
    match is_seq a0 with
    | Some s =>
      let! a1 := arg 1 in
      match get_int a1 with
      | Some index =>
        if (index <? vec_len s)%Z then let! a2 := arg 2 in seq_new (vec_update index a2 s) else ok_seq 0 s
      | None => ok_seq 0 s
      end
    | None => ok_call
    end
  | SeqFn_Subrange =>
    let! a0 := arg 0 in
    match is_seq a0 with
    | Some s =>
      let! a1 := arg 1 in
      let! a2 := arg 2 in
      match get_int a1, get_int a2 with
      | Some start, Some end_ =>
        if ((start <=? end_) && (end_ <=? vec_len s))%Z then seq_new (vec_slice start end_ s) else ok_seq 0 s
      | _, _ => ok_seq 0 s
      end
    | None => ok_call
    end
  | SeqFn_Add =>
    let! a0 := arg 0 in
    let! a1 := arg 1 in
    match is_seq a0, is_seq a1 with
    | Some s1, Some s2 => seq_new (s1 ++ s2)
    | None, Some s2 => ok_seq 1 s2
    | Some s1, None => ok_seq 0 s1
    | None, None => ok_call
    end
  | SeqFn_Len =>
    let! a0 := arg 0 in
    match is_seq a0 with
    | Some s => sret (exp_new (ExpX_Const (Constant_Int (vec_len s))))
    | None => ok_call
    end
  | SeqFn_Index =>
    let! a0 := arg 0 in
    match is_seq a0 with
    | Some s =>
      let! a1 := arg 1 in
      match exp_x a1 with
      | ExpX_Const (Constant_Int index) =>
        match to_usize index with
        | None => warn_unsimplified exp seq_index_usize;! ok_seq 0 s
        | Some index =>
          if (index <? vec_len s)%Z then lifts (expect (s !! Z.to_nat index))
          else warn_unsimplified exp seq_index_length;! ok_seq 0 s
        end
      | _ => ok_seq 0 s
      end
    | None => ok_call
    end
  | SeqFn_ExtEqual =>
    let! a0 := arg 0 in
    let! a1 := arg 1 in
    match is_seq a0, is_seq a1 with
    | Some l, Some r =>
      let! o := lifts (lift_fuel (vec_eq (syntactic_eq not_a_seq ptr_eq) l r)) in
      match o with
      | None =>
        let! l := seq_arg_to_sst 0 l in
        let! r := seq_arg_to_sst 1 r in
        sret (exp_new (ExpX_Call fun_ typs [l; r]))
      | Some b => sret (exp_new (ExpX_Const (Constant_Bool b)))
      end
    | None, Some r => ok_seq 1 r
    | Some l, None => ok_seq 0 l
    | None, None => ok_call
    end
  | SeqFn_Last =>
    let! a0 := arg 0 in
    match is_seq a0 with
    | Some s => match last s with Some e => sret e | None => ok_seq 0 s end
    | None => ok_call
    end
  end.
End call.

Definition eval_seq (seq_fn : SeqFn) (exp : Exp) (args : list Exp) : M Exp :=
  match exp_x exp with
  | ExpX_Call fun_ typs _ => eval_seq_call exp fun_ typs args seq_fn
  | _ => spanic
  end.

Definition eval_array_index (exp arr index_exp : Exp) : M Exp :=
  let ok := sret (exp_new exp (ExpX_Binary (BinaryOp_Index ArrayKind_Array) arr index_exp)) in
  match exp_x arr with
  | ExpX_Interp (InterpExp_Array s) =>
    match exp_x index_exp with
    | ExpX_Const (Constant_Int i) =>
      match to_usize i with
      | None => warn_unsimplified exp array_index_usize;! ok
      | Some index =>
        if (index <? vec_len s)%Z then lifts (expect (s !! Z.to_nat index))
        else warn_unsimplified exp array_index_length;! ok
      end
    | _ => ok
    end
  | _ => ok
  end.
End eval_seq.
