(* ===== verification/InterpEval.v ===== *)
(** * The symbolic interpreter (source/vir/src/interpreter.rs)

    [eval_expr_internal] takes fuel for its recursion; two more than the maximal depth is
    enough.  Its cases are definitions that take it as [eval].  [user_string] prints an
    expression in a message.  The limits, computed by the code in floating point from
    [rlimit], are in [Ctx].  [oc] says whether the build checks overflow. *)

From S2P Require Import Prelude StateRes RustString VirMessages VirAst VirAstUtil Sst SstUtil.
From S2P Require Import InterpSynt InterpState.
From S2P Require SstSemantics Ast ScopeMap.
Set Warnings "-rewrite-rw,-register-all,-clear-no-such-hyp".
Local Open Scope st_scope.
Local Abbreviation M := (st State interp_error).

Definition timed_out : string := "`assert_by_compute` timed out".
Definition too_deep : string := "`assert_by_compute` exceeded maximum recursion depth".
Definition clip_out_of_range : string := "computation clipped an integer that was out of range".
Definition clip_arch_out_of_range : string := "computation clipped an arch-dependent integer that was out of range".
Definition compute_suffix : string := "$compute".

(** [env.insert(..).unwrap()] *)
Definition env_insert {K} `{Countable K} {V} (m : ScopeMap.ScopeMap K V) (x : K) (v : V)
    : res interp_error (ScopeMap.ScopeMap K V) :=
  match ScopeMap.insert_sm m x v with Ok (true, m) => Ok m | _ => Panic end.
Definition env_insert_all {K} `{Countable K} {V} (m : ScopeMap.ScopeMap K V) (l : list (K * V))
    : res interp_error (ScopeMap.ScopeMap K V) :=
  foldl (λ r p, rbind r (λ m, env_insert m p.1 p.2)) (Ok m) l.
Definition env_pop {K} `{Countable K} {V} (m : ScopeMap.ScopeMap K V) : res interp_error (ScopeMap.ScopeMap K V) :=
  ScopeMap.pop_scope m.
(** An operation on [state.env]. *)
Definition on_env (f : Env → res interp_error Env) : M unit := λ s,
  rbind (f (env s)) (λ e, Ok (tt, set_env (λ _, e) s)).

Section interpreter.
Variable names : Path → option string.
Variable user_string : Exp → string.
Variable not_a_seq : Span → Typ → Message.
Variable ptr_eq : Exp → Exp → bool.
Variable probe : list hashed → list hashed → bool.
Variable oc : bool.
Variable ctx : Ctx.

Definition syn_eq (l r : Exp) : M (option bool) := lifts (lift_fuel (syntactic_eq not_a_seq ptr_eq l r)).
Definition def_eq_m (l r : Exp) : M bool := lifts (lift_fuel (definitely_eq not_a_seq ptr_eq l r)).

(** [subst_env_into_trigger] *)
Definition subst_env_into_trigger (env : Env) (trig : list Exp) : res fuel_error (list Exp) :=
  rbind (free_vars_exps trig) (λ vars,
  let env_substs := map_imap (λ id _, ScopeMap.get env id) vars in
  rmap (subst_exp ∅ env_substs) trig).

Section cases.
Variable eval : Exp → M Exp.

Section node.
Variable exp : Exp.

Definition node_new (x : ExpX) : M Exp := sret (mkExp (exp_span exp) (exp_typ exp) x).
Definition bool_new (b : bool) : M Exp := node_new (ExpX_Const (Constant_Bool b)).
Definition int_new (i : Z) : M Exp := node_new (ExpX_Const (Constant_Int i)).
Definition zero : M Exp := int_new 0.

Definition as_bool (e : Exp) : option bool :=
  match exp_x e with ExpX_Const (Constant_Bool b) => Some b | _ => None end.
Definition as_int (e : Exp) : option Z :=
  match exp_x e with ExpX_Const (Constant_Int i) => Some i | _ => None end.

Definition eval_const_generic (typ : Typ) : M Exp :=
  match typ with
  | TypX_ConstInt i =>
    match int_range_from_type (exp_typ exp) with
    | Some IntRange_Int => int_new i
    | Some range =>
      let value := new_x exp (ExpX_Const (Constant_Int i)) in
      let clipped := new_x exp (ExpX_Unary (UnaryOp_Clip range false) value) in
      let! value := eval clipped in
      match as_int value with Some _ => sret value | None => sret exp end
    | None => sret exp
    end
  | TypX_ConstBool b => bool_new b
  | TypX_TypParam id => node_new (ExpX_Interp (InterpExp_FreeVar (id, VarIdentDisambiguate_TypParamBare)))
  | _ => sret exp
  end.

(** ** Unary operators *)

(** [n - 1] for a [u32] *)
Definition pred_u32 (n : N) : res interp_error Z :=
  if (n =? 0)%N then if oc then Panic else Ok (2 ^ 32 - 1)%Z else Ok (Z.of_N n - 1)%Z.
(** [apply_range], for the constant [e]; [ok] is the cast of [e]. *)
Definition apply_range (op : UnaryOp) (e : Exp) (i lower upper : Z) : M Exp :=
  if ((i <? lower) || (upper <? i))%Z then
    warn_unsimplified ctx exp clip_out_of_range;! node_new (ExpX_Unary op e)
  else sret (mkExp (exp_span e) (exp_typ exp) (exp_x e)).

Definition signed_range (n : N) : res interp_error (Z * Z) :=
  rbind (pred_u32 n) (λ m, Ok (- 2 ^ m, 2 ^ m - 1)%Z).

Definition eval_clip (op : UnaryOp) (range : IntRange) (e : Exp) (i : Z) : M Exp :=
  let ok := node_new (ExpX_Unary op e) in
  match range with
  | IntRange_Int => ok
  | IntRange_Nat => apply_range op e i 0 i
  | IntRange_Char =>
    if negb (valid_unicode_scalar_bigint i) then warn_unsimplified ctx exp clip_out_of_range;! ok
    else sret (mkExp (exp_span e) (exp_typ exp) (exp_x e))
  | IntRange_U n => apply_range op e i 0 (2 ^ Z.of_N n - 1)
  | IntRange_I n => let! r := lifts (signed_range n) in apply_range op e i r.1 r.2
  | IntRange_USize =>
    match arch ctx with
    | ArchWordBits_Either32Or64 =>
      if ((i <? 0) || (2 ^ 32 - 1 <? i))%Z then warn_unsimplified ctx exp clip_arch_out_of_range;! ok
      else apply_range op e i 0 (2 ^ 32 - 1)
    | ArchWordBits_Exactly n => apply_range op e i 0 (2 ^ Z.of_N n - 1)
    end
  | IntRange_ISize =>
    match arch ctx with
    | ArchWordBits_Either32Or64 =>
      if ((i <? - 2 ^ 31) || (2 ^ 31 - 1 <? i))%Z then warn_unsimplified ctx exp clip_arch_out_of_range;! ok
      else apply_range op e i (- 2 ^ 31) (2 ^ 31 - 1)
    | ArchWordBits_Exactly n => let! r := lifts (signed_range n) in apply_range op e i r.1 r.2
    end
  end.

Definition eval_unary_bool (op : UnaryOp) (e : Exp) (b : bool) : M Exp :=
  match op with
  | UnaryOp_Not => bool_new (negb b)
  | UnaryOp_MustBeFinalized | UnaryOp_MustBeElaborated => spanic
  | _ => node_new (ExpX_Unary op e)
  end.

Definition eval_unary_int (op : UnaryOp) (e : Exp) (i : Z) : M Exp :=
  let ok := node_new (ExpX_Unary op e) in
  match op with
  | UnaryOp_BitNot None => match to_i128 i with Some i => int_new (Z.lnot i) | None => ok end
  | UnaryOp_BitNot (Some w) =>
    match to_u128 i with
    | Some i =>
      let! o := lifts (u128_to_width (2 ^ 128 - 1 - i) w (arch ctx)) in
      match o with Some i => int_new i | None => ok end
    | None => ok
    end
  | UnaryOp_Clip range _ => eval_clip op range e i
  | UnaryOp_MustBeFinalized | UnaryOp_MustBeElaborated => spanic
  | UnaryOp_CastToInteger => sret e
  | _ => ok
  end.

Definition eval_unary (op : UnaryOp) (e : Exp) : M Exp :=
  let! e := eval e in
  match exp_x e with
  | ExpX_Const (Constant_Bool b) => eval_unary_bool op e b
  | ExpX_Const (Constant_Int i) => eval_unary_int op e i
  | ExpX_Unary UnaryOp_Not e_inner =>
    match op with UnaryOp_Not => sret e_inner | _ => node_new (ExpX_Unary op e) end
  | _ => node_new (ExpX_Unary op e)
  end.

Definition find_binder (f : Ident) (binders : Ast.Binders Exp) : option Exp :=
  Ast.ba <$> find (λ b, String.eqb (Ast.bname b) f) binders.

Definition eval_bound (kind : IntegerTypeBoundKind) (ok : M Exp) (i : Z) : M Exp :=
  match kind with
  | IntegerTypeBoundKind_ArchWordBits =>
    match arch ctx with ArchWordBits_Exactly b => int_new (Z.of_N b) | _ => ok end
  | _ =>
    if (i =? 0)%Z then int_new 0
    else
      match kind with
      | IntegerTypeBoundKind_UnsignedMax => int_new (2 ^ i - 1)
      | IntegerTypeBoundKind_SignedMax => int_new (2 ^ (i - 1) - 1)
      | _ => int_new (- 2 ^ (i - 1))
      end
  end.

Definition eval_unary_opr (op : UnaryOpr) (e : Exp) : M Exp :=
  let! e := eval e in
  let ok := node_new (ExpX_UnaryOpr op e) in
  match op with
  | UnaryOpr_Box _ | UnaryOpr_Unbox _ => spanic
  | UnaryOpr_HasType _ | UnaryOpr_ToDyn _ _ | UnaryOpr_HasResolved _ => ok
  | UnaryOpr_IsVariant datatype variant =>
    match exp_x e with
    | ExpX_Ctor dt var _ => bool_new (bool_decide (dt = datatype) && String.eqb var variant)
    | _ => ok
    end
  | UnaryOpr_Field f =>
    match exp_x e with
    | ExpX_Ctor _ var binders =>
      if String.eqb var (variant f) then
        match find_binder (field f) binders with Some a => sret a | None => ok end
      else ok
    | _ => ok
    end
  | UnaryOpr_IntegerTypeBound kind =>
    match as_int e with
    | Some i =>
      match to_u32 i with Some i => if (i <=? 1024)%Z then eval_bound kind ok i else ok | None => ok end
    | None => ok
    end
  | UnaryOpr_CustomErr _ | UnaryOpr_AutoDecreases | UnaryOpr_AutoLoopEnsures | UnaryOpr_ProofNote _
  | UnaryOpr_LoopIsolationBoundary _ => sret e
  end.

(** ** Binary operators *)

Section binary.
Variables (op : BinaryOp) (e1 : Exp).
(** [ok_e2]; [e1] is the value of the first operand, [e2] the second operand. *)
Definition ok_e2 (e2 : Exp) : M Exp := node_new (ExpX_Binary op e1 e2).

Definition eval_and (e2 : Exp) : M Exp :=
  match as_bool e1 with
  | Some true => eval e2
  | Some false => bool_new false
  | None =>
    let! e2 := eval e2 in
    match as_bool e2 with Some true => sret e1 | Some false => bool_new false | None => ok_e2 e2 end
  end.
Definition eval_or (e2 : Exp) : M Exp :=
  match as_bool e1 with
  | Some true => bool_new true
  | Some false => eval e2
  | None =>
    let! e2 := eval e2 in
    match as_bool e2 with Some true => bool_new true | Some false => sret e1 | None => ok_e2 e2 end
  end.
Definition eval_xor (e2 : Exp) : M Exp :=
  let! e2 := eval e2 in
  match as_bool e1, as_bool e2 with
  | Some b1, Some b2 => bool_new ((b1 && negb b2) || (negb b1 && b2))
  | Some true, None => node_new (ExpX_Unary UnaryOp_Not e2)
  | Some false, None => sret e2
  | None, Some true => node_new (ExpX_Unary UnaryOp_Not e1)
  | None, Some false => sret e1
  | None, None => ok_e2 e2
  end.
Definition eval_implies (e2 : Exp) : M Exp :=
  match as_bool e1 with
  | Some true => eval e2
  | Some false => bool_new true
  | None =>
    let! e2 := eval e2 in
    match as_bool e2 with
    | Some true => bool_new true
    | Some false => let! n := node_new (ExpX_Unary UnaryOp_Not e1) in eval n
    | None => ok_e2 e2
    end
  end.
Definition eval_eq (positive : bool) (e2 : Exp) : M Exp :=
  let! e2 := eval e2 in
  let! o := syn_eq e1 e2 in
  match o with None => ok_e2 e2 | Some b => bool_new (if positive then b else negb b) end.
Definition eval_inequality (iop : InequalityOp) (e2 : Exp) : M Exp :=
  let! e2 := eval e2 in
  match as_int e1, as_int e2 with
  | Some i1, Some i2 => bool_new (SstSemantics.inequality iop i1 i2)
  | _, _ => ok_e2 e2
  end.

Definition eval_arith (aop : ArithOp) (e2 : Exp) : M Exp :=
  let! e2 := eval e2 in
  match as_int e1, as_int e2 with
  | Some i1, Some i2 =>
    match aop with
    | ArithOp_Add => int_new (i1 + i2)
    | ArithOp_Sub => int_new (i1 - i2)
    | ArithOp_Mul => int_new (i1 * i2)
    | ArithOp_EuclideanDiv => if (i2 =? 0)%Z then ok_e2 e2 else int_new (SstSemantics.euclid_div i1 i2)
    | ArithOp_EuclideanMod => if (i2 =? 0)%Z then ok_e2 e2 else int_new (SstSemantics.euclid_mod i1 i2)
    end
  | Some i1, None =>
    if (i1 =? 0)%Z && bool_decide (aop = ArithOp_Add) then sret e2
    else if (i1 =? 0)%Z && bool_decide (aop = ArithOp_Mul) then zero
    else if (i1 =? 1)%Z && bool_decide (aop = ArithOp_Mul) then sret e2
    else
      if decide (aop = ArithOp_Sub) then
        let! b := def_eq_m e1 e2 in if b : bool then zero else ok_e2 e2
      else ok_e2 e2
  | None, Some i2 =>
    if (i2 =? 0)%Z then
      match aop with
      | ArithOp_Add | ArithOp_Sub => sret e1
      | ArithOp_Mul => zero
      | ArithOp_EuclideanDiv | ArithOp_EuclideanMod => ok_e2 e2
      end
    else if (i2 =? 1)%Z && bool_decide (aop = ArithOp_EuclideanMod) then int_new 0
    else if (i2 =? 1)%Z && (bool_decide (aop = ArithOp_Mul) || bool_decide (aop = ArithOp_EuclideanDiv))
    then sret e1
    else
      if decide (aop = ArithOp_Sub) then
        let! b := def_eq_m e1 e2 in if b : bool then zero else ok_e2 e2
      else ok_e2 e2
  | None, None =>
    if decide (aop = ArithOp_Sub) then
      let! b := def_eq_m e1 e2 in if b : bool then zero else ok_e2 e2
    else ok_e2 e2
  end.

(** The [ok] of the shifts is the expression before its operands are evaluated. *)
Definition eval_shift (bop : BitwiseOp) (i1 i2 : Z) : M Exp :=
  let ok := sret exp in
  match bop with
  | BitwiseOp_BitXor => int_new (Z.lxor i1 i2)
  | BitwiseOp_BitAnd => int_new (Z.land i1 i2)
  | BitwiseOp_BitOr => int_new (Z.lor i1 i2)
  | BitwiseOp_Shr => match to_u128 i2 with None => ok | Some i2 => int_new (Z.shiftr i1 i2) end
  | BitwiseOp_Shl w true =>
    match to_i128 i1, to_u128 i2 with
    | Some i1, Some i2 =>
      let! o := lifts (i128_to_width (shl_i128 i1 i2) w (arch ctx)) in
      match o with Some i => int_new i | None => ok end
    | _, _ => ok
    end
  | BitwiseOp_Shl w false =>
    match to_u128 i1, to_u128 i2 with
    | Some i1, Some i2 =>
      let! o := lifts (u128_to_width (shl_u128 i1 i2) w (arch ctx)) in
      match o with Some i => int_new i | None => ok end
    | _, _ => ok
    end
  end.

Definition eval_bitwise (bop : BitwiseOp) (e2 : Exp) : M Exp :=
  let! e2 := eval e2 in
  let is_zero := λ o, match o with Some i => (i =? 0)%Z | None => false end in
  match as_int e1, as_int e2 with
  | Some i1, Some i2 => eval_shift bop i1 i2
  | o1, o2 =>
    if (is_zero o1 || is_zero o2) && bool_decide (bop = BitwiseOp_BitAnd) then zero
    else if is_zero o1 && bool_decide (bop = BitwiseOp_BitOr) then sret e2
    else if is_zero o2 && bool_decide (bop = BitwiseOp_BitOr) then sret e1
    else
      match bop with
      | BitwiseOp_BitXor => let! b := def_eq_m e1 e2 in if b : bool then zero else ok_e2 e2
      | BitwiseOp_BitAnd | BitwiseOp_BitOr =>
        let! b := def_eq_m e1 e2 in if b : bool then sret e1 else ok_e2 e2
      | _ => ok_e2 e2
      end
  end.

Definition eval_binary_op (e2 : Exp) : M Exp :=
  match op with
  | BinaryOp_And => eval_and e2
  | BinaryOp_Or => eval_or e2
  | BinaryOp_Xor => eval_xor e2
  | BinaryOp_Implies => eval_implies e2
  | BinaryOp_Eq => eval_eq true e2
  | BinaryOp_Ne => eval_eq false e2
  | BinaryOp_Inequality iop => eval_inequality iop e2
  | BinaryOp_Arith aop => eval_arith aop e2
  | BinaryOp_Bitwise bop => eval_bitwise bop e2
  | BinaryOp_Index ArrayKind_Array => let! e2 := eval e2 in eval_array_index ctx exp e1 e2
  | BinaryOp_Index ArrayKind_Slice | BinaryOp_HeightCompare _ _ | BinaryOp_StrGetChar
  | BinaryOp_RealArith _ | BinaryOp_IeeeFloat _ => let! e2 := eval e2 in ok_e2 e2
  end.
End binary.

Definition eval_binary (op : BinaryOp) (e1 e2 : Exp) : M Exp :=
  let! same :=
    match op with BinaryOp_Eq | BinaryOp_Ne => def_eq_m e1 e2 | _ => sret false end in
  if same : bool then bool_new (bool_decide (op = BinaryOp_Eq))
  else let! e1 := eval e1 in eval_binary_op op e1 e2.

Definition eval_binary_opr (op : BinaryOpr) (e1 e2 : Exp) : M Exp :=
  let! e1 := eval e1 in
  let! e2 := eval e2 in
  let! o := syn_eq e1 e2 in
  match o with None => node_new (ExpX_BinaryOpr op e1 e2) | Some b => bool_new b end.

Definition eval_if (e1 e2 e3 : Exp) : M Exp :=
  let! e1 := eval e1 in
  match as_bool e1 with
  | Some b => if b then eval e2 else eval e3
  | None =>
    let! e2 := eval e2 in
    let! e3 := eval e3 in node_new (ExpX_If e1 e2 e3)
  end.

(** ** Calls *)

(** The branch of [Call] that runs the body of the function. *)
Definition call_env (func : FunctionSst) (args : list Exp) : res interp_error Env :=
  env_insert_all (ScopeMap.push_scope ScopeMap.new true) (zip (pars func) args).
Definition call_type_env (func : FunctionSst) (typs : Typs) : res interp_error TypeEnv :=
  env_insert_all (ScopeMap.push_scope ScopeMap.new true) (zip (fsst_typ_params func) typs).

Definition eval_body (func : FunctionSst) (axioms : FuncSpecBodySst) (typs : Typs) (args : list Exp)
    (unevaluated : Exp) : M Exp :=
  let! env := lifts (call_env func args) in
  let! type_env := lifts (call_type_env func typs) in
  let! prev_env := sread InterpState.env in
  smodify (set_env (λ _, env));!
  let! when_holds :=
    match decrease_when axioms with
    | None => sret true
    | Some w =>
      let! w := lifts (lift_fuel (subst_exp (ScopeMap.map type_env) ∅ w)) in
      let! w := eval w in
      sret (match as_bool w with Some true => true | _ => false end)
    end in
  let! result :=
    (if when_holds : bool then
       let! body := lifts (lift_fuel (subst_exp (ScopeMap.map type_env) ∅ (body_exp axioms))) in
       eval body
     else sret unevaluated) in
  smodify (set_env (λ _, prev_env));!
  sret result.

Definition eval_call (f : Fun) (resolved_method : option (Fun * Typs)) (typs : Typs) (args : list Exp) : M Exp :=
  let '(reduced_fun, reduced_typs) := resolve_call f resolved_method typs in
  let! s := sget in
  (if perf s then smodify (count_call reduced_fun) else sret tt);!
  let! new_args := smap eval args in
  let unevaluated := mkExp (exp_span exp) (exp_typ exp) (ExpX_Call (CallFun_Fun f resolved_method) typs new_args) in
  match is_array_fn names reduced_fun with
  | Some array_fn => eval_array array_fn exp new_args
  | None =>
    match is_sequence_fn names reduced_fun with
    | Some seq_fn => eval_seq not_a_seq ptr_eq ctx eval seq_fn exp new_args
    | None =>
      match fun_ssts ctx !! reduced_fun with
      | Some func =>
        match spec_axioms func, inline_okay (fsst_kind func) with
        | Some axioms, true =>
          let! prev := lookup_call not_a_seq ptr_eq probe reduced_fun reduced_typs new_args (memoize func) in
          match prev with
          | Some prev_result => smodify (count_cache true);! sret prev_result
          | None =>
            smodify (count_cache false);!
            let! result := eval_body func axioms reduced_typs new_args unevaluated in
            insert_call not_a_seq ptr_eq probe reduced_fun reduced_typs new_args result (memoize func);!
            sret result
          end
        | _, _ => sret unevaluated
        end
      | None => sret unevaluated
      end
    end
  end.

Definition eval_internal_call (f : CallFun) (typs : Typs) (args : list Exp) : M Exp :=
  let! new_args := smap eval args in node_new (ExpX_Call f typs new_args).

Definition closure_env (context : list (UniqueIdent * Exp)) (bnds : VarBinders Typ) (args : list Exp)
    : res interp_error Env :=
  rbind (env_insert_all (ScopeMap.push_scope ScopeMap.new true) context) (λ env,
  env_insert_all (ScopeMap.push_scope env true) (zip (map vname bnds) args)).

Definition eval_call_lambda (lambda : Exp) (args : list Exp) : M Exp :=
  let! lambda := eval lambda in
  let! new_args := smap eval args in
  let ok := node_new (ExpX_CallLambda lambda new_args) in
  match exp_x lambda with
  | ExpX_Interp (InterpExp_Closure lambda context) =>
    match exp_x lambda with
    | ExpX_Bind _ (BndX_Lambda bnds _) body =>
      let! env := lifts (closure_env context bnds new_args) in
      let! prev_env := sread InterpState.env in
      smodify (set_env (λ _, env));!
      let! e := eval body in
      smodify (set_env (λ _, prev_env));! sret e
    | ExpX_Bind _ _ _ => spanic
    | _ => ok
    end
  | _ => ok
  end.

(** ** Binders *)

Fixpoint eval_let_binders (bnds : VarBinders Exp) : M unit :=
  match bnds with
  | [] => sret tt
  | b :: bnds =>
    let! val := eval (va b) in
    on_env (λ env, env_insert env (vname b) val);! eval_let_binders bnds
  end.
Definition eval_let (bnds : VarBinders Exp) (e : Exp) : M Exp :=
  on_env (λ env, Ok (ScopeMap.push_scope env true));!
  eval_let_binders bnds;!
  let! e := eval e in
  on_env env_pop;! sret e.

(** The binders with fresh names, and the variables to substitute. *)
Fixpoint number_binders (span : Span) (bnds : VarBinders Typ) (substs : gmap UniqueIdent Exp)
    : M (VarBinders Typ * gmap UniqueIdent Exp) :=
  match bnds with
  | [] => sret ([], substs)
  | b :: bnds =>
    if ends_with compute_suffix (vname b).1 then
      let! r := number_binders span bnds substs in sret (b :: r.1, r.2)
    else
      smodify (set_iterations N.succ);!
      let! n := sread iterations in
      let id := ((vname b).1 +:+ compute_suffix, VarIdentDisambiguate_VirSubst n) in
      let val := mkExp span (va b) (ExpX_Var id) in
      let! r := number_binders span bnds (<[vname b := val]> substs) in
      sret (mkVarBinder id (va b) :: r.1, r.2)
  end.

Definition eval_quant (bspan : Span) (quant_type : Quant) (bnds : VarBinders Typ) (triggers : Trigs)
    (by_locals : option (list VarIdent)) (e : Exp) : M Exp :=
  let! r := number_binders (exp_span e) bnds ∅ in
  let '(bnds, substs) := r in
  let! e := lifts (lift_fuel (subst_exp ∅ substs e)) in
  on_env (λ env, Ok (ScopeMap.push_scope env true));!
  on_env (λ env, env_insert_all env
    (map (λ b, (vname b, mkExp (exp_span e) (va b) (ExpX_Interp (InterpExp_FreeVar (vname b))))) bnds));!
  let! env := sread InterpState.env in
  let! triggers := lifts (lift_fuel (rmap (λ trig,
      rbind (rmap (subst_exp ∅ substs) trig) (subst_env_into_trigger env)) triggers)) in
  let! e := eval e in
  on_env env_pop;!
  match as_bool e with
  | Some _ => sret e
  | None => node_new (ExpX_Bind bspan (BndX_Quant quant_type bnds triggers by_locals) e)
  end.

(** The variables of [free_vars] that the environment binds, restored. *)
Definition choose_substs (env : Env) (free_vars : gmap UniqueIdent Typ)
    : res interp_error (gmap UniqueIdent Exp) :=
  rbind (rmap (λ p, rbind (cleanup_exp not_a_seq p.2) (λ e, Ok (p.1, e)))
           (map_to_list (map_imap (λ id (_ : Typ), ScopeMap.get env id) free_vars)))
    (λ l, Ok (list_to_map l)).

Definition eval_choose : M Exp :=
  let! free_vars := lifts (lift_fuel (free_vars_exp exp)) in
  if decide (free_vars = ∅) then sret exp
  else
    let! env := sread InterpState.env in
    let! substs := lifts (choose_substs env free_vars) in
    let! e := lifts (lift_fuel (subst_exp ∅ substs exp)) in
    let! rest := lifts (lift_fuel (free_vars_exp e)) in
    let substs := map_imap (λ id typ, Some (mkExp (exp_span exp) typ (ExpX_Interp (InterpExp_FreeVar id)))) rest in
    lifts (lift_fuel (subst_exp ∅ substs e)).

Definition eval_bind (bspan : Span) (bnd : BndX Exp) (e : Exp) : M Exp :=
  match bnd with
  | BndX_Let bnds => eval_let bnds e
  | BndX_Lambda _ _ =>
    let! env := sread InterpState.env in
    node_new (ExpX_Interp (InterpExp_Closure exp (map_to_list (ScopeMap.map env))))
  | BndX_Quant quant_type bnds triggers by_locals => eval_quant bspan quant_type bnds triggers by_locals e
  | BndX_Choose _ _ _ => eval_choose
  end.

Definition eval_ctor (path : Dt) (id : Ident) (bnds : Ast.Binders Exp) : M Exp :=
  let! new_bnds := smap (λ b, let 'Ast.mkBinder name a := b in
                              let! a := eval a in sret (Ast.mkBinder name a)) bnds in
  node_new (ExpX_Ctor path id new_bnds).

Definition eval_var (id : UniqueIdent) : M Exp :=
  let! env := sread InterpState.env in
  match ScopeMap.get env id with
  | None => node_new (ExpX_Interp (InterpExp_FreeVar id))
  | Some e => sret e
  end.

(** The match of [eval_expr_internal]. *)
Definition eval_node : M Exp :=
  let ok := sret exp in
  match exp_x exp with
  | ExpX_Const _ => ok
  | ExpX_Var id => eval_var id
  | ExpX_NullaryOpr (NullaryOpr_ConstGeneric typ) => eval_const_generic typ
  | ExpX_NullaryOpr _ => ok
  | ExpX_Unary op e => eval_unary op e
  | ExpX_UnaryOpr op e => eval_unary_opr op e
  | ExpX_Binary op e1 e2 => eval_binary op e1 e2
  | ExpX_BinaryOpr op e1 e2 => eval_binary_opr op e1 e2
  | ExpX_If e1 e2 e3 => eval_if e1 e2 e3
  | ExpX_Call (CallFun_Fun f resolved_method) typs args => eval_call f resolved_method typs args
  | ExpX_Call (CallFun_Recursive _) _ _ => ok
  | ExpX_Call (CallFun_InternalFun f) typs args => eval_internal_call (CallFun_InternalFun f) typs args
  | ExpX_CallLambda lambda args => eval_call_lambda lambda args
  | ExpX_Bind bspan bnd e => eval_bind bspan bnd e
  | ExpX_Ctor path id bnds => eval_ctor path id bnds
  | ExpX_ArrayLiteral exprs =>
    let! es := smap eval exprs in node_new (ExpX_Interp (InterpExp_Array es))
  | ExpX_Interp _ => ok
  | ExpX_WithTriggers triggers body =>
    let! env := sread InterpState.env in
    let! triggers := lifts (lift_fuel (rmap (subst_env_into_trigger env) triggers)) in
    let! body := eval body in
    node_new (ExpX_WithTriggers triggers body)
  | ExpX_VarAt _ _ | ExpX_VarLoc _ | ExpX_Loc _ | ExpX_Old _ _ | ExpX_StaticVar _ => ok
  | ExpX_ExecFnByName _ => ok
  | ExpX_FuelConst _ => ok
  end.
End node.
End cases.

Fixpoint eval_expr_internal (fuel : nat) (exp : Exp) : M Exp :=
  match fuel with
  | O => serr IFuel
  | S fuel =>
    smodify (set_iterations N.succ);!
    let! s := sget in
    if (max_iterations ctx <? iterations s)%N then serr (IErr (error (exp_span exp) timed_out))
    else if (max_depth ctx <? depth s)%N then serr (IErr (error (exp_span exp) too_deep))
    else if enable_simplified_cache s && existsb (ptr_eq exp) (simplified s) then
      smodify (count_ptr true);! sret exp
    else
      smodify (count_ptr false);!
      smodify (set_depth N.succ);!
      let! res := eval_node (eval_expr_internal fuel) exp in
      smodify (set_depth N.pred);!
      smodify (λ s, if enable_simplified_cache s then set_simplified (cons res) s else s);!
      sret res
  end.

(** ** The top level *)

Inductive SimplificationResult :=
| SimplificationResult_True
| SimplificationResult_False (small_exp : option Exp)
| SimplificationResult_Complex (e : Exp).

Section top.
Variable eval : Exp → M Exp.

Definition eval_expr_top (exp : Exp) : M SimplificationResult :=
  let compare := λ op e1 e2,
    let! e1 := eval e1 in
    let! e2 := eval e2 in
    let simpl_exp := new_x exp (ExpX_Binary op e1 e2) in
    let! final_exp := eval simpl_exp in
    sret match as_bool final_exp with
         | Some true => SimplificationResult_True
         | Some false => SimplificationResult_False (Some simpl_exp)
         | None => SimplificationResult_Complex final_exp
         end in
  match exp_x exp with
  | ExpX_Binary BinaryOp_Eq e1 e2 =>
    let! b := def_eq_m e1 e2 in
    if b : bool then sret SimplificationResult_True else compare BinaryOp_Eq e1 e2
  | ExpX_Binary BinaryOp_Ne e1 e2 =>
    let! b := def_eq_m e1 e2 in
    if b : bool then sret (SimplificationResult_False (Some exp)) else compare BinaryOp_Ne e1 e2
  | ExpX_Binary (BinaryOp_Inequality iop) e1 e2 => compare (BinaryOp_Inequality iop) e1 e2
  | _ =>
    let! final_exp := eval exp in
    sret match as_bool final_exp with
         | Some true => SimplificationResult_True
         | Some false => SimplificationResult_False None
         | None => SimplificationResult_Complex final_exp
         end
  end.
End top.

Definition simplifies_to_false : string := "expression simplifies to false".

(** [eval_expr_launch]; [fuel] bounds the recursion. *)
Definition eval_expr_launch (fuel : nat) (exp : Exp) (mode : ComputeMode) (logging quiet : bool)
    : res interp_error (Exp * list Message) :=
  rbind (eval_expr_top (eval_expr_internal fuel) exp (initial_state logging)) (λ '(result, state),
  match result with
  | SimplificationResult_True => Ok (sst_bool (exp_span exp) true, msgs state)
  | SimplificationResult_False None =>
    if quiet then Ok (sst_bool (exp_span exp) false, msgs state)
    else Err (IErr (error (exp_span exp) simplifies_to_false))
  | SimplificationResult_False (Some small_exp) =>
    rbind (cleanup_exp not_a_seq small_exp) (λ small_exp,
    if quiet then Ok (sst_bool (exp_span exp) false, msgs state)
    else Err (IErr (error (exp_span exp)
           ("expression simplifies to `" +:+ user_string small_exp +:+ "`, which evaluates to false"))))
  | SimplificationResult_Complex res =>
    match mode with
    | ComputeMode_Z3 =>
      rbind (cleanup_exp not_a_seq res) (λ res,
      rbind (lift_fuel (definitely_eq not_a_seq ptr_eq exp res)) (λ same,
      if same : bool then
        rbind (warn_unsimplified ctx exp
                 ("failed to simplify expression <<" +:+ user_string exp +:+ ">> before sending to Z3") state)
          (λ '(_, state), Ok (res, msgs state))
      else Ok (res, msgs state)))
    | ComputeMode_ComputeOnly =>
      rbind (cleanup_exp not_a_seq res) (λ res,
      Err (IErr (error (exp_span exp)
        ("`assert_by_compute_only` failed to simplify down to true; instead got: " +:+ user_string res))))
    end
  end).

(** [eval_expr]: the thread that it starts runs [eval_expr_launch]; the messages are
    reported when there is somewhere to report them to, and an error drops them. *)
Definition interp_fuel : nat := S (S (N.to_nat (max_depth ctx))).
Definition eval_expr (exp : Exp) (diagnostics : bool) (mode : ComputeMode) (logging : bool)
    : res interp_error (Exp * list Message) :=
  rbind (eval_expr_launch interp_fuel exp mode logging (negb diagnostics)) (λ '(e, msgs),
  Ok (e, if diagnostics then msgs else [])).
End interpreter.
