(* ===== verification/InterpTerm.v ===== *)
(** * The interpreter returns

    No recursion on fuel of the interpreter runs out: the search for a fresh name, the
    restoring and comparing of expressions, whose fuel is [clean_depth], and the evaluation
    itself, which stops at the maximal depth. *)

From S2P Require Import Prelude RustString VirMessages VirAst VirAstUtil Sst StateRes SstUtil.
From S2P Require Import InterpSynt InterpState InterpEval.
From S2P Require Ast ScopeMap SstSemantics.
Set Warnings "-rewrite-rw,-register-all,-clear-no-such-hyp".
Local Open Scope st_scope.

Definition trivial {S} (_ : S) : Prop := True.
#[export] Hint Extern 0 (trivial _) => exact I : keeps.

(** ** Visitors *)

Section visit.
Context {S E : Type} (e0 : E) (visit_typ : Typ → st S E Typ) (visit_exp : Exp → st S E Exp) (scoper : Scoper S).
Variable R : Exp → Exp → Prop.
Hypothesis Htyp : ∀ t, gives e0 (eq t) (visit_typ t).
Local Abbreviation gives := (gives e0).

Lemma gives_pop : gives (λ _, True) (v_pop (E := E) scoper).
Proof using. intros s. unfold avoids, v_pop. by destruct (sc_pop scoper s). Qed.
Lemma gives_enter {A} k (bs : VarBinders A) : gives (λ _, True) (enter_binders (E := E) scoper k bs).
Proof using.
  unfold enter_binders. apply (gives_bind _ (λ _, True)); [by intros s|]. intros [] _.
  induction (map vname bs) as [|x l IH]; [by apply gives_ret|]. apply (gives_bind _ (λ _, True)); [|by intros].
  intros s. unfold avoids, v_insert. by destruct (sc_insert scoper x k s).
Qed.

Local Abbreviation G := (λ A (P : A → Prop) (m : st S E A), gives P m).
Lemma G_ret A (P : A → Prop) x : P x → gives P (sret (S := S) (E := E) x).
Proof using. apply gives_ret. Qed.
Lemma G_bind A B (P : A → Prop) (Q : B → Prop) (m : st S E A) k : gives P m → (∀ x, P x → gives Q (k x)) → gives Q (sbind m k).
Proof using. apply gives_bind. Qed.
Lemma G_mono A (P Q : A → Prop) (m : st S E A) : gives P m → (∀ x, P x → Q x) → gives Q m.
Proof using. apply gives_mono. Qed.

Lemma gives_triggers ts : (∀ e, e ∈ concat ts → gives (R e) (visit_exp e)) →
  gives (rebuilt_trigs R ts) (visit_triggers visit_exp ts).
Proof using. apply (spec_triggers G G_ret G_bind). Qed.
Lemma gives_var_binders bs : gives (eq bs) (visit_var_binders_typ visit_typ bs).
Proof using Htyp. by apply (spec_var_binders G G_ret G_bind G_mono). Qed.

Lemma gives_bnd b : (∀ e, e ∈ bnd_children b → gives (R e) (visit_exp e)) →
  gives (rebuilt_bnd R b) (visit_bnd visit_typ visit_exp scoper b).
Proof using Htyp.
  intros H. destruct b as [bs|q bs ts l|bs ts|bs ts c]; cbn [visit_bnd bnd_children] in *.
  - eapply gives_bind.
    { apply (gives_smap _ (rebuilt_var_binder R)). intros [n e] Hb. eapply gives_bind.
      { apply H, list_elem_of_fmap. by eexists (mkVarBinder _ _). }
      intros e' He'. by apply gives_ret. }
    intros bs' Hbs. eapply gives_bind; [apply gives_enter|]. intros [] _. by apply gives_ret; constructor.
  - eapply gives_bind; [apply gives_var_binders|]. intros bs' <-. eapply gives_bind; [apply gives_enter|]. intros [] _.
    eapply gives_bind; [by apply gives_triggers|]. intros ts' Hts. by apply gives_ret; constructor.
  - eapply gives_bind; [apply gives_var_binders|]. intros bs' <-. eapply gives_bind; [apply gives_enter|]. intros [] _.
    eapply gives_bind; [by apply gives_triggers|]. intros ts' Hts. by apply gives_ret; constructor.
  - eapply gives_bind; [apply gives_var_binders|]. intros bs' <-. eapply gives_bind; [apply gives_enter|]. intros [] _.
    eapply gives_bind; [apply gives_triggers; intros e He; apply H; mem|]. intros ts' Hts.
    eapply gives_bind; [apply H; mem|]. intros c' Hc. by apply gives_ret; constructor.
Qed.

(** A visitor whose [visit_typ] is the identity rebuilds the expression. *)
Lemma gives_visit_exp_rec e : (∀ e', e' ∈ visited (exp_x e) → gives (R e') (visit_exp e')) →
  gives (rebuilt_exp R e) (visit_exp_rec visit_typ visit_exp scoper e).
Proof using Htyp.
  destruct e as [sp t x]. intros H. cbn [exp_x] in H. cbn [visit_exp_rec].
  eapply gives_bind; [apply Htyp|]. intros t' <-. eapply (gives_bind _ (rebuilt R x));
    [|intros x' Hx; by apply gives_ret].
  assert (Hspec : match x with ExpX_Bind _ _ _ => False | _ => True end → gives (rebuilt R x) (visit_expx visit_typ visit_exp scoper x)).
  { intros Hx. by apply (spec_visit_expx G G_ret G_bind G_mono). }
  destruct x; try by apply Hspec. clear Hspec. cbn [visited children visit_expx] in *.
  eapply gives_bind; [apply gives_bnd; intros e1 He1; apply H; mem|]. intros b' Hb.
  eapply gives_bind; [apply H; mem|]. intros e' He'. eapply gives_bind; [apply gives_pop|]. intros [] _.
  by apply gives_ret; constructor.
Qed.
End visit.

(** Whatever [visit_typ] does to the types. *)
Section keeps.
Context {S E : Type} (e0 : E) (visit_typ : Typ → st S E Typ) (visit_exp : Exp → st S E Exp) (scoper : Scoper S).
Hypothesis Htyp : ∀ t, keeps e0 trivial (visit_typ t).

Lemma keeps_pop : keeps e0 trivial (v_pop (E := E) scoper).
Proof using. exact (gives_keeps _ _ _ (gives_pop e0 scoper)). Qed.
Lemma keeps_enter {A} k (bs : VarBinders A) : keeps e0 trivial (enter_binders (E := E) scoper k bs).
Proof using. exact (gives_keeps _ _ _ (gives_enter e0 scoper k bs)). Qed.
Lemma keeps_triggers ts : (∀ e, e ∈ concat ts → keeps e0 trivial (visit_exp e)) →
  keeps e0 trivial (visit_triggers visit_exp ts).
Proof using.
  intros H. unfold visit_triggers. keep. apply H. apply list_elem_of_In, in_concat.
  eexists. split; by apply list_elem_of_In.
Qed.
Lemma keeps_visit_typs ts : keeps e0 trivial (visit_typs visit_typ ts).
Proof using Htyp. unfold visit_typs. keep. Qed.
Lemma keeps_var_binders bs : keeps e0 trivial (visit_var_binders_typ visit_typ bs).
Proof using Htyp. unfold visit_var_binders_typ. keep. Qed.
#[local] Hint Resolve keeps_pop keeps_enter keeps_visit_typs keeps_var_binders : keeps.

Lemma keeps_visit_exp_rec e : (∀ e', e' ∈ visited (exp_x e) → keeps e0 trivial (visit_exp e')) →
  keeps e0 trivial (visit_exp_rec visit_typ visit_exp scoper e).
Proof using Htyp.
  destruct e as [sp t x]. intros Hexp. cbn [exp_x] in Hexp. cbn [visit_exp_rec].
  apply keeps_bind; [apply Htyp|]. intros t'. apply keeps_bind; [|intros; apply keeps_ret].
  destruct x; cbn [visited children visit_expx] in *; unfold visit_exps; keep; try (apply Hexp; mem).
  - unfold visit_call_fun. keep.
  - apply Hexp, list_elem_of_fmap. by eexists (Ast.mkBinder _ _).
  - unfold visit_nullary. keep.
  - unfold visit_unary_opr. keep.
  - apply keeps_triggers. intros e' He'. apply Hexp. mem.
  - unfold visit_bnd. destruct bnd; keep; try (apply keeps_triggers; intros e' He');
      try (apply Hexp; cbn [bnd_children]; mem).
    apply Hexp, elem_of_app. left. apply list_elem_of_fmap. by eexists (mkVarBinder _ _).
Qed.
End keeps.

(** ** Substitution *)

Lemma fresh_name_ok fuel bl x n : size (ScopeMap.map bl) < fuel → fresh_name fuel bl x n ≠ Err OutOfFuel.
Proof.
  intros Hf Hn.
  assert (Hall : ∀ i, i < fuel → is_Some (ScopeMap.map bl !! subst_rename_ident x (n + N.of_nat i))).
  { clear Hf. revert n Hn. induction fuel as [|fuel IH]; intros n Hn i Hi; [lia|]. cbn [fresh_name] in Hn.
    unfold ScopeMap.contains_key, unique_bound in Hn. case_bool_decide as Hs; [|done]. destruct i as [|i].
    - by rewrite N.add_0_r.
    - replace (n + N.of_nat (S i))%N with (n + 1 + N.of_nat i)%N by lia. apply IH; [done|lia]. }
  set (l := map (λ i, subst_rename_ident x (n + N.of_nat i)) (seq 0 fuel)).
  assert (Hnd : NoDup l).
  { apply NoDup_fmap_2; [|apply NoDup_seq]. intros i j [= H]. lia. }
  assert (Hsub : list_to_set l ⊆ dom (ScopeMap.map bl)).
  { intros y Hy. apply elem_of_list_to_set, list_elem_of_fmap in Hy as (i & -> & Hi).
    apply elem_of_seq in Hi. apply elem_of_dom, Hall. lia. }
  apply subseteq_size in Hsub. rewrite size_list_to_set // size_dom in Hsub.
  unfold l in Hsub. rewrite length_map length_seq in Hsub. lia.
Qed.

Lemma rbind_no_fuel {A B} (r : res fuel_error A) (k : A → res fuel_error B) :
  r ≠ Err OutOfFuel → (∀ x, k x ≠ Err OutOfFuel) → rbind r k ≠ Err OutOfFuel.
Proof. destruct r as [x|[]|]; cbn; auto; congruence. Qed.
Lemma rbind_no_ifuel {A B} (r : res interp_error A) (k : A → res interp_error B) :
  r ≠ Err IFuel → (∀ x, k x ≠ Err IFuel) → rbind r k ≠ Err IFuel.
Proof. destruct r as [x|[]|]; cbn; auto; congruence. Qed.
Lemma rmap_no_fuel {A B} (f : A → res fuel_error B) l : (∀ x, f x ≠ Err OutOfFuel) → rmap f l ≠ Err OutOfFuel.
Proof.
  intros Hf. induction l as [|x l IH]; cbn [rmap]; [done|]. apply rbind_no_fuel; [done|]. intros y.
  by apply rbind_no_fuel.
Qed.
Lemma lift_fuel_ok {A} (r : res fuel_error A) : r ≠ Err OutOfFuel → lift_fuel r ≠ Err IFuel.
Proof. by destruct r as [x|[]|]. Qed.
#[export] Hint Resolve lift_fuel_ok : keeps.

Lemma insert_new_ok {V} (m : ScopeMap.ScopeMap UniqueIdent V) x v : insert_new m x v ≠ Err OutOfFuel.
Proof. unfold insert_new. by destruct (ScopeMap.insert_sm m x v) as [[[] m']| |]. Qed.
Lemma insert_any_ok {V} (m : ScopeMap.ScopeMap UniqueIdent V) x v : insert_any m x v ≠ Err OutOfFuel.
Proof. unfold insert_any. by destruct (ScopeMap.insert_sm m x v) as [[b m']| |]. Qed.
Lemma pop_ok {V} (m : ScopeMap.ScopeMap UniqueIdent V) : pop m ≠ Err OutOfFuel.
Proof. unfold pop, ScopeMap.pop_scope. destruct (last _); cbn; [|done]. by destruct (map_fold _ _ _). Qed.
#[export] Hint Resolve insert_new_ok insert_any_ok pop_ok : keeps.

Lemma keeps_no_fuel {S A} (m : st S fuel_error A) : (∀ s, m s ≠ Err OutOfFuel) ↔ keeps OutOfFuel trivial m.
Proof.
  unfold keeps, avoids. split; intros H s; specialize (H s).
  - intros _. destruct (m s) as [[x s']|[]|]; done.
  - specialize (H I). intros He. by rewrite He in H.
Qed.

Section subst.
Variables (σ : gmap Ident Typ) (allow : bool).
Local Abbreviation keeps := (keeps OutOfFuel trivial).

Lemma keeps_rename_binder {A} span fa f_typ (b : VarBinderX A) : keeps (rename_binder span fa f_typ b).
Proof.
  apply keeps_no_fuel. intros [su fr bl]. unfold rename_binder.
  case_match; repeat (apply rbind_no_fuel; [|intros ?]); auto with keeps; try done. apply fresh_name_ok. lia.
Qed.
Lemma keeps_rename_binders {A} span (bs : VarBinders A) fa f_typ : keeps (subst_rename_binders span bs fa f_typ).
Proof. unfold subst_rename_binders. keep. apply keeps_rename_binder. Qed.
Lemma keeps_pop_scopes : keeps pop_scopes.
Proof.
  apply keeps_no_fuel. intros s. unfold pop_scopes. by do 3 (apply rbind_no_fuel; [apply pop_ok|intros ?]).
Qed.
#[local] Hint Resolve (@keeps_rename_binders) keeps_pop_scopes : keeps.

Lemma keeps_subst_bnd f span b : (∀ e, e ∈ bnd_children b → keeps (f e)) → keeps (subst_bnd σ f span b).
Proof.
  intros H. assert (Htrigs : ∀ ts, (∀ e, e ∈ concat ts → keeps (f e)) → keeps (ftrigs f ts)).
  { intros ts Hts. by apply keeps_triggers. }
  destruct b; cbn [subst_bnd bnd_children] in *; keep; try (apply Htrigs; intros e He); try (apply H; mem).
  apply H, list_elem_of_fmap. by eexists (mkVarBinder _ _).
Qed.

Lemma keeps_subst_exp_rec e : keeps (subst_exp_rec σ allow e).
Proof.
  induction e as [span t x IH] using exp_ind'. rewrite Forall_forall in IH. intros s _.
  assert (Hsh : keeps (map_shallow_exp (mkExp span t x) (λ t, sret (subst_typ σ t)) (subst_exp_rec σ allow))).
  { apply keeps_visit_exp_rec; [intros ?; apply keeps_ret|]. cbn [exp_x].
    intros e' He'. apply IH. destruct x; first [exact He'|by inversion He']. }
  cbn [subst_exp_rec]. unfold avoids. destruct (_ && _); [done|].
  destruct x; try done; try by apply Hsh.
  - destruct (ScopeMap.contains_key _ _); [|done]. by destruct (ScopeMap.get _ _).
  - by destruct (ScopeMap.get _ _).
  - by destruct (ScopeMap.get _ _).
  - destruct op; try by apply Hsh. destruct allow; [by apply Hsh|done].
  - enough (K : keeps (let! bnd := subst_bnd σ (subst_exp_rec σ allow) bspan bnd in
       let! e1 := subst_exp_rec σ allow e in
       pop_scopes;! sret (mkExp span (subst_typ σ t) (ExpX_Bind bspan bnd e1)))) by exact (K s I).
    keep; [apply keeps_subst_bnd; intros e' He'|]; apply IH; cbn [children]; mem.
  - enough (K : keeps (let! es := smap (subst_exp_rec σ allow) es in
       sret (mkExp span (subst_typ σ t) (ExpX_ArrayLiteral es)))) by exact (K s I).
    keep.
Qed.
End subst.

Lemma foldl_no_fuel {A B} (f : A → B → res fuel_error A) l r : r ≠ Err OutOfFuel →
  (∀ x y, f x y ≠ Err OutOfFuel) → foldl (λ r y, rbind r (λ x, f x y)) r l ≠ Err OutOfFuel.
Proof. intros Hr Hf. revert r Hr. induction l as [|y l IH]; intros r Hr; cbn; [done|]. apply IH, rbind_no_fuel; auto. Qed.

Lemma free_vars_exp_scope_ok e vars b : free_vars_exp_scope e vars b ≠ Err OutOfFuel.
Proof. unfold free_vars_exp_scope. by destruct (dfs_visit_exp _ _ _) as [[? []]| |]. Qed.
Lemma free_vars_exp_ok e : free_vars_exp e ≠ Err OutOfFuel.
Proof. apply free_vars_exp_scope_ok. Qed.
Lemma free_vars_exps_ok es : free_vars_exps es ≠ Err OutOfFuel.
Proof.
  unfold free_vars_exps. generalize (∅ : gmap UniqueIdent Typ). induction es as [|e es IH]; intros vars; cbn; [done|].
  apply rbind_no_fuel; [apply free_vars_exp_scope_ok|]. apply IH.
Qed.
Lemma insert_names_ok ys m : insert_names ys m ≠ Err OutOfFuel.
Proof. apply foldl_no_fuel; [done|]. intros. apply insert_any_ok. Qed.

Lemma subst_exp_ok σ m e : subst_exp σ m e ≠ Err OutOfFuel.
Proof.
  unfold subst_exp. destruct (_ && _); [done|].
  apply rbind_no_fuel; [apply free_vars_exp_scope_ok|]. intros vars.
  apply rbind_no_fuel; [apply insert_names_ok|]. intros bl.
  apply rbind_no_fuel.
  { apply (foldl_no_fuel insert_subst); [done|]. intros s [x v]. unfold insert_subst.
    repeat (apply rbind_no_fuel; [|intros ?]); auto using insert_names_ok, free_vars_exp_ok with keeps. }
  intros s. apply rbind_no_fuel.
  { apply keeps_no_fuel, keeps_subst_exp_rec. }
  intros [e' s']. apply rbind_no_fuel; [apply keeps_no_fuel, keeps_pop_scopes|].
  intros [[] s'']. by destruct (_ && _).
Qed.
#[export] Hint Resolve free_vars_exp_ok free_vars_exps_ok subst_exp_ok : keeps.

(** ** Restoring *)

Definition shallower (e e' : Exp) : Prop := clean_depth e' ≤ clean_depth e.

Lemma list_max_cons x l : list_max (x :: l) = x `max` list_max l.
Proof. done. Qed.
Lemma list_max_elem n l : n ∈ l → n ≤ list_max l.
Proof.
  intros H. pose proof (proj1 (list_max_le l (list_max l)) (le_n _)) as Hl.
  rewrite Forall_forall in Hl. by apply Hl.
Qed.
Lemma list_max_map2 {A B} (f : A → nat) (g : B → nat) l l' :
  Forall2 (λ x y, g y ≤ f x) l l' → list_max (map g l') ≤ list_max (map f l).
Proof.
  induction 1 as [|x y l l' H _ IH]; [done|]. cbn [map]. rewrite !list_max_cons. lia.
Qed.
Lemma list_max_map_elem {A} (f : A → nat) x l : x ∈ l → f x ≤ list_max (map f l).
Proof. intros H. apply list_max_elem, list_elem_of_fmap. by exists x. Qed.

Lemma trigs_depth ts e : e ∈ concat ts → clean_depth e ≤ list_max (map (λ t, list_max (map clean_depth t)) ts).
Proof.
  intros He. apply list_elem_of_In, in_concat in He as (t & Ht & He).
  apply list_elem_of_In in Ht, He.
  etrans; [by apply (list_max_map_elem clean_depth)|].
  by apply (list_max_map_elem (λ t, list_max (map clean_depth t))).
Qed.

(** Every expression below is shallower, the elements of a sequence by two more levels. *)
Lemma child_depth e e' : e' ∈ visited (exp_x e) → clean_depth e' < clean_depth e.
Proof.
  destruct e as [sp t x]. cbn [exp_x]. intros H.
  assert (Hl : ∀ es, e' ∈ es → clean_depth e' ≤ list_max (map clean_depth es)) by (intros; by apply list_max_map_elem).
  destruct x; cbn [visited children] in H; try (by inversion H); cbn [clean_depth];
    rewrite ?elem_of_cons ?elem_of_app in H;
    repeat match type of H with
    | _ ∈ [] => by inversion H
    | _ ∨ _ => destruct H as [H|H]; [try (subst; lia)|]
    | _ ∈ map _ _ => fail 1
    | _ ∈ concat _ => fail 1
    | _ ∈ _ => apply Hl in H; lia
    end.
  - apply list_elem_of_fmap in H as ([n a] & -> & H).
    apply (list_max_map_elem (λ b, let 'Ast.mkBinder _ a := b in clean_depth a)) in H. cbn. lia.
  - apply trigs_depth in H. lia.
  - apply list_elem_of_singleton in H as ->. lia.
  - destruct bnd as [bs|q bs ts l|bs ts|bs ts c]; cbn [bnd_children] in H.
    + apply list_elem_of_fmap in H as ([n a] & -> & H).
      apply (list_max_map_elem (λ b, let 'mkVarBinder _ a := b in clean_depth a)) in H. cbn. lia.
    + apply trigs_depth in H. lia.
    + apply trigs_depth in H. lia.
    + apply elem_of_app in H as [H|H]; [apply trigs_depth in H; lia|].
      apply list_elem_of_singleton in H as ->. lia.
  - apply list_elem_of_singleton in H as ->. lia.
Qed.

Lemma trigs_shallower ts ts' : rebuilt_trigs shallower ts ts' →
  list_max (map (λ t, list_max (map clean_depth t)) ts') ≤ list_max (map (λ t, list_max (map clean_depth t)) ts).
Proof.
  intros H. apply list_max_map2. eapply Forall2_impl; [exact H|]. intros t t'. apply list_max_map2.
Qed.

Lemma rebuilt_shallower e e' : rebuilt_exp shallower e e' → shallower e e'.
Proof.
  destruct e as [sp t x], e' as [sp' t' x']. intros (_ & _ & H). cbn [exp_x] in H. unfold shallower at 1.
  assert (Hl : ∀ es es', Forall2 shallower es es' → list_max (map clean_depth es') ≤ list_max (map clean_depth es)).
  { intros es es'. apply list_max_map2. }
  destruct H; cbn [clean_depth]; try done;
    repeat match goal with
    | H : Forall2 shallower _ _ |- _ => apply Hl in H
    | H : rebuilt_trigs shallower _ _ |- _ => apply trigs_shallower in H
    end; try (unfold shallower in *; lia).
  - apply le_n_S, list_max_map2. eapply Forall2_impl; [exact H|]. by intros [n a] [n' a'] [_ Ha].
  - destruct H as [bs bs' H|q bs ts ts' l H|bs ts ts' H|bs ts ts' c c' H Hc]; try apply trigs_shallower in H;
      unfold shallower in *; try lia.
    assert (Hb : list_max (map (λ b : VarBinderX Exp, let 'mkVarBinder _ a := b in clean_depth a) bs')
      ≤ list_max (map (λ b : VarBinderX Exp, let 'mkVarBinder _ a := b in clean_depth a) bs)); [|lia].
    apply list_max_map2. eapply Forall2_impl; [exact H|]. by intros [n a] [n' a'] [_ Ha].
Qed.

Section cleanup.
Variable not_a_seq : Span → Typ → Message.
Local Abbreviation cleanup_rec := (cleanup_rec not_a_seq).
Local Abbreviation cleanup_fuel := (cleanup_fuel not_a_seq).

(** [P] holds of what [r] returns, and the fuel does not run out. *)
Definition rgives {A} (P : A → Prop) (r : res interp_error A) : Prop := r ≠ Err IFuel ∧ ∀ x, r = Ok x → P x.

Lemma rgives_bind {A B} (P : A → Prop) (Q : B → Prop) r (k : A → res interp_error B) :
  rgives P r → (∀ x, P x → rgives Q (k x)) → rgives Q (rbind r k).
Proof.
  intros [Hr HP] Hk. destruct r as [x|e|]; cbn; [by apply Hk, HP| |by split].
  split; [congruence|done].
Qed.
Lemma rgives_rmap {A B} (R : A → B → Prop) (f : A → res interp_error B) l :
  (∀ x, x ∈ l → rgives (R x) (f x)) → rgives (Forall2 R l) (rmap f l).
Proof.
  induction l as [|x l IH]; intros Hf; cbn [rmap].
  { split; [done|]. intros ys [= <-]. constructor. }
  eapply rgives_bind; [apply Hf; left|]. intros y Hy. eapply rgives_bind; [apply IH; intros z Hz; apply Hf; by right|].
  intros ys Hys. split; [done|]. intros zs [= <-]. by constructor.
Qed.
Lemma rgives_mono {A} (P Q : A → Prop) r : rgives P r → (∀ x, P x → Q x) → rgives Q r.
Proof. intros [? ?] ?. split; auto. Qed.
Lemma gives_rgives {A S} (P : A → Prop) (r : res interp_error A) :
  rgives P r → gives IFuel P (lifts (S := S) r).
Proof. intros [? ?]. by apply gives_lift. Qed.
Lemma rgives_run {A S} (P : A → Prop) (m : st S interp_error A) s :
  gives IFuel P m → rgives P (rbind (m s) (λ '(x, _), Ok x)).
Proof.
  intros H. specialize (H s). unfold avoids in H. destruct (m s) as [[x s']|e|]; cbn; split; try done; try congruence.
Qed.

(** What is needed of the call that restores the elements. *)
Lemma array_to_sst_gives f sp t v : (∀ e, e ∈ v → rgives (shallower e) (f e)) →
  rgives (λ e', clean_depth e' ≤ S (list_max (map clean_depth v))) (array_to_sst f sp t v).
Proof.
  intros H. eapply rgives_bind; [by apply rgives_rmap|]. intros es Hes. split; [done|]. intros e' [= <-].
  cbn [clean_depth]. apply le_n_S. by apply list_max_map2.
Qed.
Lemma seq_to_sst_gives f sp t v : (∀ e, e ∈ v → rgives (shallower e) (f e)) →
  rgives (λ e', clean_depth e' ≤ S (S (S (list_max (map clean_depth v))))) (seq_to_sst f sp t v).
Proof.
  intros H. unfold seq_to_sst. destruct (length v <=? 1) eqn:Hl.
  - split; [done|]. intros e' [= <-]. destruct v as [|e [|e1 v]]; [cbn; lia| |discriminate].
    cbn [foldl map clean_depth]. rewrite !list_max_cons. cbn. lia.
  - eapply rgives_bind; [by apply array_to_sst_gives|]. intros a Ha. split; [done|]. intros e' [= <-].
    cbn beta in Ha. cbn [clean_depth map]. rewrite list_max_cons. change (list_max []) with 0. lia.
Qed.
Lemma cleanup_seq_gives f sp t v n : (∀ e, clean_depth e ≤ n → rgives (shallower e) (f e)) →
  list_max (map clean_depth v) ≤ n →
  rgives (λ e', clean_depth e' ≤ S (S (S (list_max (map clean_depth v))))) (cleanup_seq not_a_seq f sp t v).
Proof.
  intros H Hn. destruct t; cbn [cleanup_seq]; try by split.
  assert (Hv : ∀ e, e ∈ v → clean_depth e ≤ n).
  { intros e He. apply (list_max_map_elem clean_depth) in He. lia. }
  eapply (rgives_bind (λ _, True)); [destruct (ts !! 0); cbn; by split|]. intros t _.
  eapply rgives_bind; [by apply rgives_rmap; intros e He; apply H, Hv|]. intros es Hes.
  assert (Hle : list_max (map clean_depth es) ≤ list_max (map clean_depth v)) by by apply list_max_map2.
  eapply rgives_mono; [apply seq_to_sst_gives|].
  - intros e He. apply H. apply (list_max_map_elem clean_depth) in He. lia.
  - intros e' He'. cbn beta in He'. lia.
Qed.

Lemma cleanup_rec_gives n e : clean_depth e ≤ n → gives IFuel (shallower e) (cleanup_rec n e).
Proof.
  revert e. induction n as [|n IH]; intros e Hn.
  { destruct e. cbn [clean_depth] in Hn. lia. }
  cbn [InterpSynt.cleanup_rec]. eapply gives_bind.
  { apply (gives_visit_exp_rec _ _ _ _ shallower); [intros t; by apply gives_ret|].
    intros e' He'. apply child_depth in He'. apply IH. lia. }
  intros e1 He1. apply gives_rgives. unfold cleanup_node.
  assert (Hf : ∀ e', clean_depth e' ≤ n →
    rgives (shallower e') (rbind (cleanup_rec n e' ScopeMap.new) (λ '(e, _), Ok e))).
  { intros e' He'. by apply rgives_run, IH. }
  assert (Hok : rgives (shallower e) (Ok e1)).
  { split; [done|]. intros e2 [= <-]. by apply rebuilt_shallower. }
  destruct e as [sp t x], e1 as [sp1 t1 x1], He1 as (Hsp & Ht & Hx). cbn [exp_x exp_span exp_typ] in *. subst sp1 t1.
  destruct x1 as [| | | | | | | | | | | | | | | | | | | |i|]; try exact Hok.
  inversion Hx; subst. destruct i as [y|v|c l|v].
  - split; [done|]. intros e2 [= <-]. unfold shallower, new_x. cbn [exp_span exp_typ]. by case_decide.
  - cbn [clean_depth] in Hn. eapply rgives_mono; [apply (cleanup_seq_gives _ _ _ _ n); [exact Hf|lia]|]. done.
  - by split.
  - cbn [clean_depth] in Hn. eapply rgives_mono; [apply array_to_sst_gives|done].
    intros e' He'. apply Hf. apply (list_max_map_elem clean_depth) in He'. lia.
Qed.

Lemma cleanup_exp_gives e : rgives (shallower e) (cleanup_exp not_a_seq e).
Proof. by apply rgives_run, cleanup_rec_gives. Qed.
End cleanup.

(** ** Comparing *)

Abbreviation no_fuel r := (r ≠ Err OutOfFuel) (only parsing).

Lemma qbind_ok {A B} (m : res fuel_error (option A)) (k : A → res fuel_error (option B)) :
  no_fuel m → (∀ x, no_fuel (k x)) → no_fuel (qbind m k).
Proof. intros Hm Hk. apply rbind_no_fuel; [done|]. by intros [x|]. Qed.
Lemma qand_ok a m : no_fuel m → no_fuel (qand a m).
Proof. by destruct a. Qed.
Lemma definitely_ok m : no_fuel m → no_fuel (definitely m).
Proof. intros H. by apply rbind_no_fuel. Qed.
Lemma conservative_ok m : no_fuel m → no_fuel (conservative m).
Proof. intros H. by apply rbind_no_fuel; [apply definitely_ok|]. Qed.

Section vec.
Context {A : Type} (eq : A → A → res fuel_error (option bool)).
Lemma vec_eq_ok l r : (∀ x y, y ∈ r → no_fuel (eq x y)) → no_fuel (vec_eq eq l r).
Proof.
  intros H. unfold vec_eq. case_decide as Hl; [|done]. clear Hl. generalize true.
  revert r H. induction l as [|x l IH]; intros [|y r] H b; cbn; try done.
  apply rbind_no_fuel; [apply H; left|]. assert (Hr : ∀ x y, y ∈ r → no_fuel (eq x y)) by (intros; apply H; by right).
  intros [[]|]; auto.
Qed.
Lemma binders_fold_ok {X} `{EqDecision X} (l r : list (X * A)) b :
  (∀ x p, p ∈ r → no_fuel (eq x p.2)) → no_fuel (binders_fold eq l r b).
Proof.
  revert r b. induction l as [|[n x] l IH]; intros [|[m y] r] b H; cbn; try done.
  apply qbind_ok; [apply qand_ok; apply (H x (m, y)); left|]. intros b'. apply IH. intros; apply H; by right.
Qed.
Lemma var_binders_eq_ok {X} `{EqDecision X} (l r : list (X * A)) :
  (∀ x p, p ∈ r → no_fuel (eq x p.2)) → no_fuel (var_binders_eq eq l r).
Proof. intros H. unfold var_binders_eq. case_decide; [|done]. by apply binders_fold_ok. Qed.
End vec.

(** [typ_syntactic_eq] on lists, by induction on the first. *)
Lemma vec_fold_ok {A} (eq : A → A → res fuel_error (option bool)) l r b :
  Forall (λ x, ∀ y, no_fuel (eq x y)) l → no_fuel (vec_fold eq l r b).
Proof.
  intros H. revert r b. induction H as [|x l Hx _ IH]; intros [|y r] b; cbn; try done.
  apply rbind_no_fuel; [done|]. intros [[]|]; auto; done.
Qed.
Lemma vec_eq_ok_l {A} (eq : A → A → res fuel_error (option bool)) l r :
  Forall (λ x, ∀ y, no_fuel (eq x y)) l → no_fuel (vec_eq eq l r).
Proof. intros H. unfold vec_eq. case_decide; [|done]. by apply vec_fold_ok. Qed.

Lemma typ_syntactic_eq_ok t t' : no_fuel (typ_syntactic_eq t t').
Proof.
  revert t'. induction t using typ_ind'; intros t'; cbn [typ_syntactic_eq]; auto;
    destruct (undecorate_typ t'); try done.
  - apply qbind_ok; [by apply vec_eq_ok_l|]. intros b. by apply qand_ok.
  - apply qand_ok. by apply vec_eq_ok_l.
Qed.

Lemma sort_fields_perm {A} (l : list (Ident * A)) : SstSemantics.sort_fields l ≡ₚ l.
Proof.
  unfold SstSemantics.sort_fields. induction l as [|x l IH]; cbn [foldr]; [done|].
  transitivity (x :: foldr SstSemantics.insert_field [] l); [|by rewrite IH].
  generalize (foldr SstSemantics.insert_field [] l). clear. intros l.
  induction l as [|y l IH]; cbn; [done|]. case_match; [done|]. rewrite IH. constructor.
Qed.

Lemma sorted_field_depth bnds p : p ∈ sorted_ctor_fields bnds →
  clean_depth p.2 ≤ list_max (map (λ b, let 'Ast.mkBinder _ a := b in clean_depth a) bnds).
Proof.
  unfold sorted_ctor_fields. rewrite sort_fields_perm. intros ([n a] & -> & H)%list_elem_of_fmap.
  apply (list_max_map_elem (λ b, let 'Ast.mkBinder _ a := b in clean_depth a)) in H. exact H.
Qed.
Lemma var_pair_depth (bs : VarBinders Exp) p : p ∈ var_binder_pairs bs →
  clean_depth p.2 ≤ list_max (map (λ b : VarBinderX Exp, let 'mkVarBinder _ a := b in clean_depth a) bs).
Proof.
  intros ([n a] & -> & H)%list_elem_of_fmap.
  apply (list_max_map_elem (λ b : VarBinderX Exp, let 'mkVarBinder _ a := b in clean_depth a)) in H. exact H.
Qed.

Section syn.
Variable not_a_seq : Span → Typ → Message.
Variable ptr_eq : Exp → Exp → bool.

Lemma cleanup_ok_gives e : no_fuel (cleanup_ok not_a_seq e) ∧
  ∀ e', cleanup_ok not_a_seq e = Ok (Some e') → shallower e e'.
Proof.
  destruct (cleanup_exp_gives not_a_seq e) as [H1 H2]. unfold cleanup_ok.
  destruct (cleanup_exp not_a_seq e) as [e1|[m|]|]; split; try done.
  intros e' [= <-]. by apply H2.
Qed.

Lemma unary_opr_eq_ok l r : no_fuel (unary_opr_eq l r).
Proof. destruct l, r; try done. apply qbind_ok; [apply typ_syntactic_eq_ok|done]. Qed.

Lemma exp_node_eq_ok syn l r : (∀ l' r', clean_depth r' < clean_depth r → no_fuel (syn l' r')) →
  no_fuel (exp_node_eq not_a_seq syn l r).
Proof.
  intros Hs. destruct l as [spl tl l], r as [spr tr r]. unfold exp_node_eq. cbn [exp_x].
  cbn [clean_depth] in Hs.
  assert (Hv : ∀ es es', list_max (map clean_depth es') < clean_depth (mkExp spr tr r) → no_fuel (vec_eq syn es es')).
  { intros es es' H. apply vec_eq_ok. intros x y Hy. apply Hs. apply (list_max_map_elem clean_depth) in Hy.
    cbn [clean_depth] in H. lia. }
  cbn [clean_depth] in Hv.
  assert (Ht : ∀ (bs bs' : VarBinders Typ),
    no_fuel (conservative (var_binders_eq typ_syntactic_eq (var_binder_pairs bs) (var_binder_pairs bs')))).
  { intros. apply conservative_ok, var_binders_eq_ok. intros. apply typ_syntactic_eq_ok. }
  destruct l; try done; destruct r; try done; try (by destruct f); try (by destruct bnd); try (by destruct i).
  - apply Hs. lia.
  - destruct f; try done. destruct f0; try done.
    destruct (resolve_call f resolved typs) as [f1 t1], (resolve_call f0 resolved0 typs0) as [f2 t2].
    case_match; [|done]. apply qbind_ok; [|done]. apply Hv. lia.
  - apply qbind_ok; [apply conservative_ok, Hs; lia|]. intros b. apply qand_ok, conservative_ok, Hv. lia.
  - case_match; [done|]. apply qbind_ok; [|by intros []]. apply binders_fold_ok. intros x p Hp. apply Hs.
    apply sorted_field_depth in Hp. lia.
  - apply qbind_ok; [|done]. apply qand_ok, Hs. lia.
  - apply qbind_ok; [apply unary_opr_eq_ok|]. intros b. apply qbind_ok; [|done]. apply qand_ok, Hs. lia.
  - apply qbind_ok; [apply qand_ok, Hs; lia|]. intros b. apply qbind_ok; [|done]. apply qand_ok, Hs. lia.
  - apply rbind_no_fuel; [apply definitely_ok, Hs; lia|]. intros []; [|done].
    apply qbind_ok; [apply Hs; lia|]. intros b. apply qbind_ok; [apply Hs; lia|done].
  - apply Hs. lia.
  - assert (Hg : no_fuel (let& b := bnd_syntactic_eq syn bnd bnd0 in let& b := qand b (syn e e0) in Ok (def_eq b))).
    { apply qbind_ok; [|intros b; apply qbind_ok; [apply qand_ok, Hs; lia|done]].
      destruct bnd, bnd0; cbn [bnd_syntactic_eq]; try done; try apply Ht.
      - apply qbind_ok; [|done]. apply var_binders_eq_ok. intros x p Hp. apply Hs. apply var_pair_depth in Hp. lia.
      - case_decide; [apply Ht|done].
      - apply qbind_ok; [apply Ht|]. intros b. apply qand_ok, conservative_ok, Hs. lia. }
    destruct bnd; try exact Hg; destruct bnd0; try exact Hg. unfold quant_syntactic_eq. case_match; [done|].
    destruct (cleanup_ok_gives e) as [H1 _], (cleanup_ok_gives e0) as [H2 H3].
    apply qbind_ok; [done|]. intros e1. destruct (cleanup_ok not_a_seq e0) as [[e2|]|[]|]; try done. cbn [qbind rbind].
    apply rbind_no_fuel; [apply free_vars_exp_ok|]. intros vars. case_match; [|done].
    apply rbind_no_fuel; [apply subst_exp_ok|]. intros e3. apply qbind_ok; [|done]. apply Hs.
    specialize (H3 e2 eq_refl). unfold shallower in H3. lia.
  - destruct i; try done; destruct i0; try done. apply Hv. lia.
Qed.

Lemma syn_fuel_ok n l r : clean_depth r ≤ n → no_fuel (syn_fuel not_a_seq ptr_eq n l r).
Proof.
  revert l r. induction n as [|n IH]; intros l r Hn.
  { destruct r. cbn [clean_depth] in Hn. lia. }
  cbn [syn_fuel]. case_match; [done|]. apply exp_node_eq_ok. intros l' r' Hr. apply IH. lia.
Qed.
Lemma syntactic_eq_ok l r : no_fuel (syntactic_eq not_a_seq ptr_eq l r).
Proof. by apply syn_fuel_ok. Qed.
Lemma definitely_eq_ok l r : no_fuel (definitely_eq not_a_seq ptr_eq l r).
Proof. apply definitely_ok, syntactic_eq_ok. Qed.
End syn.

(** ** The interpreter stops

    The fuel of [eval_expr_internal] is never used up: a call one level deeper has a
    depth one greater, and the depth is checked before anything else. *)

Abbreviation no_ifuel r := (r ≠ Err IFuel) (only parsing).

Lemma expect_ok {A} (o : option A) : no_ifuel (expect o).
Proof. by destruct o. Qed.
Lemma seq_to_sst_ok not_a_seq sp t s : no_ifuel (seq_to_sst (cleanup_exp not_a_seq) sp t s).
Proof. apply seq_to_sst_gives. intros e _. apply cleanup_exp_gives. Qed.
Lemma cleanup_exp_ok not_a_seq e : no_ifuel (cleanup_exp not_a_seq e).
Proof. apply cleanup_exp_gives. Qed.
Lemma vec_eq_exps_ok not_a_seq ptr_eq l r : vec_eq (syntactic_eq not_a_seq ptr_eq) l r ≠ Err OutOfFuel.
Proof. apply vec_eq_ok. intros. apply syntactic_eq_ok. Qed.
Lemma u128_to_fixed_width_ok u w : no_ifuel (u128_to_fixed_width u w).
Proof. unfold u128_to_fixed_width. by repeat case_match. Qed.
Lemma i128_to_fixed_width_ok u w : no_ifuel (i128_to_fixed_width u w).
Proof. unfold i128_to_fixed_width. by repeat case_match. Qed.
Lemma u128_to_width_ok u w a : no_ifuel (u128_to_width u w a).
Proof. destruct w, a; cbn; repeat (apply rbind_no_ifuel; [apply u128_to_fixed_width_ok|intros ?]); done. Qed.
Lemma i128_to_width_ok u w a : no_ifuel (i128_to_width u w a).
Proof. destruct w, a; cbn; repeat (apply rbind_no_ifuel; [apply i128_to_fixed_width_ok|intros ?]); done. Qed.
Lemma signed_range_ok oc n : no_ifuel (signed_range oc n).
Proof. unfold signed_range, pred_u32. by repeat case_match. Qed.
Lemma env_insert_all_ok {K} `{Countable K} {V} (m : ScopeMap.ScopeMap K V) l : no_ifuel (env_insert_all m l).
Proof.
  unfold env_insert_all.
  assert (H1 : no_ifuel (Ok (E := interp_error) m)) by done. revert H1. generalize (Ok (E := interp_error) m).
  induction l as [|[k v] l IH]; intros r Hr; cbn; [done|]. apply IH, rbind_no_ifuel; [done|]. intros m'.
  unfold env_insert. by destruct (ScopeMap.insert_sm m' k v) as [[[] ?]| |].
Qed.
Lemma env_pop_ok {K} `{Countable K} {V} (m : ScopeMap.ScopeMap K V) : no_ifuel (env_pop m).
Proof. unfold env_pop, ScopeMap.pop_scope. destruct (last _); cbn; [|done]. by destruct (map_fold _ _ _). Qed.
Lemma env_insert_ok {K} `{Countable K} {V} (m : ScopeMap.ScopeMap K V) x v : no_ifuel (env_insert m x v).
Proof. unfold env_insert. by destruct (ScopeMap.insert_sm m x v) as [[[] ?]| |]. Qed.
Lemma subst_env_into_trigger_ok env t : subst_env_into_trigger env t ≠ Err OutOfFuel.
Proof.
  unfold subst_env_into_trigger. apply rbind_no_fuel; [apply free_vars_exps_ok|]. intros vars.
  apply rmap_no_fuel. intros e. apply subst_exp_ok.
Qed.
Lemma rmap_no_ifuel {A B} (f : A → res interp_error B) l : (∀ x, no_ifuel (f x)) → no_ifuel (rmap f l).
Proof.
  intros Hf. induction l as [|x l IH]; cbn [rmap]; [done|]. apply rbind_no_ifuel; [done|]. intros y.
  by apply rbind_no_ifuel.
Qed.
Lemma choose_substs_ok not_a_seq env vars : no_ifuel (choose_substs not_a_seq env vars).
Proof.
  unfold choose_substs. apply rbind_no_ifuel; [|done]. apply rmap_no_ifuel. intros p.
  by apply rbind_no_ifuel; [apply cleanup_exp_ok|].
Qed.
Lemma key_found_ok not_a_seq ptr_eq probe k1 k2 : key_found not_a_seq ptr_eq probe k1 k2 ≠ Err OutOfFuel.
Proof.
  unfold key_found, key_eq. case_match; [|done]. case_match; [|done]. apply definitely_ok, vec_eq_exps_ok.
Qed.
Lemma map_get_ok not_a_seq ptr_eq probe m k : map_get not_a_seq ptr_eq probe m k ≠ Err OutOfFuel.
Proof.
  induction m as [|[k' v] m IH]; cbn; [done|]. apply rbind_no_fuel; [apply key_found_ok|]. by intros [].
Qed.
Lemma map_insert_ok not_a_seq ptr_eq probe m k v : map_insert not_a_seq ptr_eq probe m k v ≠ Err OutOfFuel.
Proof.
  induction m as [|[k' v'] m IH]; cbn; [done|]. apply rbind_no_fuel; [apply key_found_ok|]. intros []; [done|].
  by apply rbind_no_fuel.
Qed.
#[export] Hint Resolve expect_ok seq_to_sst_ok cleanup_exp_ok vec_eq_exps_ok u128_to_width_ok i128_to_width_ok
  signed_range_ok subst_env_into_trigger_ok choose_substs_ok
  map_get_ok map_insert_ok syntactic_eq_ok definitely_eq_ok rmap_no_fuel : keeps.
#[export] Hint Extern 1 (env_insert_all _ _ ≠ _) => apply env_insert_all_ok : keeps.
#[export] Hint Extern 1 (env_insert _ _ _ ≠ _) => apply env_insert_ok : keeps.
#[export] Hint Extern 1 (env_pop _ ≠ _) => apply env_pop_ok : keeps.

(** Every part of the state but the depth can change. *)
Definition at_depth (d : N) (s : State) : Prop := depth s = d.
Lemma at_set_env d f s : at_depth d s → at_depth d (set_env f s). Proof. by destruct s. Qed.
Lemma at_set_iterations d f s : at_depth d s → at_depth d (set_iterations f s). Proof. by destruct s. Qed.
Lemma at_set_msgs d f s : at_depth d s → at_depth d (set_msgs f s). Proof. by destruct s. Qed.
Lemma at_set_cache d f s : at_depth d s → at_depth d (set_cache f s). Proof. by destruct s. Qed.
Lemma at_set_simplified d f s : at_depth d s → at_depth d (set_simplified f s). Proof. by destruct s. Qed.
Lemma at_count_cache d b s : at_depth d s → at_depth d (count_cache b s). Proof. by destruct s, b. Qed.
Lemma at_count_ptr d b s : at_depth d s → at_depth d (count_ptr b s). Proof. by destruct s, b. Qed.
Lemma at_count_call d f s : at_depth d s → at_depth d (count_call f s). Proof. by destruct s. Qed.
#[export] Hint Resolve at_set_env at_set_iterations at_set_msgs at_set_cache at_set_simplified at_count_cache
  at_count_ptr at_count_call : keeps.

Section interpreter.
Variable names : Path → option string.
Variable user_string : Exp → string.
Variable not_a_seq : Span → Typ → Message.
Variable ptr_eq : Exp → Exp → bool.
Variable probe : list hashed → list hashed → bool.
Variable oc : bool.
Variable ctx : Ctx.

Section cases.
Variable d : N.
Local Abbreviation keeps := (keeps IFuel (at_depth d)).
Variable eval : Exp → st State interp_error Exp.
Hypothesis Heval : ∀ e, keeps (eval e).

Lemma keeps_ctx_warning sp a n : keeps (ctx_warning ctx sp a n).
Proof. unfold ctx_warning. keep. Qed.
#[local] Hint Resolve keeps_ctx_warning : keeps.
Lemma keeps_on_env f : (∀ e, no_ifuel (f e)) → keeps (on_env f).
Proof.
  intros Hf s Hs. unfold on_env, avoids. specialize (Hf (env s)).
  destruct (f (env s)) as [e|[]|]; cbn; try done. auto with keeps.
Qed.
Lemma keeps_insert_call f ts es e b : keeps (insert_call not_a_seq ptr_eq probe f ts es e b).
Proof.
  intros s Hs. unfold insert_call, avoids. destruct (_ && _); [|exact Hs].
  pose proof (map_insert_ok not_a_seq ptr_eq probe (default [] (cache s !! f)) (mkCallKey ts es) e) as H1.
  destruct (map_insert _ _ _ _ _ _) as [m|[]|]; cbn; try done. auto with keeps.
Qed.
Lemma keeps_lookup_call f ts es b : keeps (lookup_call not_a_seq ptr_eq probe f ts es b).
Proof.
  intros s Hs. unfold lookup_call, avoids. destruct (_ && _); [|exact Hs].
  set (s' := if perf s then _ else _). assert (Hs' : at_depth d s') by (unfold s'; case_match; auto with keeps).
  destruct (cache s' !! f) as [l|]; [|exact Hs']. pose proof (map_get_ok not_a_seq ptr_eq probe l (mkCallKey ts es)) as H1.
  destruct (map_get _ _ _ _ _) as [m|[]|]; done.
Qed.
#[local] Hint Resolve keeps_on_env keeps_insert_call keeps_lookup_call : keeps.

Lemma keeps_collect_range f n i : (∀ i, keeps (f i)) → keeps (collect_range f n i).
Proof. intros Hf. revert i. induction n as [|n IH]; intros i; cbn; keep. Qed.

Lemma keeps_eval_seq fn exp args : keeps (eval_seq not_a_seq ptr_eq ctx eval fn exp args).
Proof using Heval.
  unfold eval_seq. destruct (exp_x exp); keep. unfold eval_seq_call, arg, ok_seq, seq_arg_to_sst, ok_call, seq_new,
    warn_unsimplified, arg. destruct fn; keep. apply keeps_collect_range. intros i. keep.
Qed.
Lemma keeps_eval_array fn exp args : keeps (eval_array fn exp args).
Proof. unfold eval_array. keep. Qed.
Lemma keeps_eval_array_index exp a i : keeps (eval_array_index ctx exp a i).
Proof. unfold eval_array_index, warn_unsimplified. keep. Qed.
#[local] Hint Resolve keeps_eval_seq keeps_eval_array keeps_eval_array_index : keeps.

Lemma keeps_eval_clip exp op r e i : keeps (eval_clip oc ctx exp op r e i).
Proof. unfold eval_clip, apply_range, node_new, warn_unsimplified. keep. Qed.
#[local] Hint Resolve keeps_eval_clip : keeps.

Lemma keeps_eval_binary exp op e1 e2 : keeps (eval_binary not_a_seq ptr_eq ctx eval exp op e1 e2).
Proof using Heval.
  unfold eval_binary, def_eq_m, bool_new, node_new, eval_binary_op, eval_and, eval_or, eval_xor, eval_implies, eval_eq,
    eval_inequality, eval_arith, eval_bitwise, eval_shift, ok_e2, syn_eq, def_eq_m, zero, int_new, bool_new, node_new.
  keep.
Qed.
Lemma keeps_eval_unary exp op e : keeps (eval_unary oc ctx eval exp op e).
Proof using Heval. unfold eval_unary, eval_unary_bool, eval_unary_int, bool_new, int_new, node_new. keep. Qed.
Lemma keeps_eval_unary_opr exp op e : keeps (eval_unary_opr ctx eval exp op e).
Proof using Heval. unfold eval_unary_opr, eval_bound, bool_new, int_new, node_new. keep. Qed.
Lemma keeps_eval_const_generic exp t : keeps (eval_const_generic eval exp t).
Proof using Heval. unfold eval_const_generic, bool_new, int_new, node_new. keep. Qed.

Lemma keeps_eval_body func ax ts args u : keeps (eval_body eval func ax ts args u).
Proof using Heval. unfold eval_body, call_env, call_type_env. keep. Qed.
#[local] Hint Resolve keeps_eval_body : keeps.
Lemma keeps_eval_call exp f r ts args : keeps (eval_call names not_a_seq ptr_eq probe ctx eval exp f r ts args).
Proof using Heval. unfold eval_call. keep. Qed.
Lemma keeps_eval_call_lambda exp l args : keeps (eval_call_lambda eval exp l args).
Proof using Heval.
  unfold eval_call_lambda, node_new. keep. unfold closure_env. apply rbind_no_ifuel; auto with keeps.
Qed.

Lemma keeps_eval_let bs e : keeps (eval_let eval bs e).
Proof using Heval.
  unfold eval_let. assert (Hb : keeps (eval_let_binders eval bs)).
  { induction bs as [|b bs IH]; cbn [eval_let_binders]; keep. }
  keep.
Qed.
Lemma keeps_number_binders sp bs m : keeps (number_binders sp bs m).
Proof. revert m. induction bs as [|b bs IH]; intros m; cbn [number_binders]; keep. Qed.
#[local] Hint Resolve keeps_number_binders keeps_eval_let : keeps.
Lemma keeps_eval_quant exp sp q bs ts l e : keeps (eval_quant eval exp sp q bs ts l e).
Proof using Heval.
  unfold eval_quant, node_new. keep. apply lift_fuel_ok, rmap_no_fuel. intros t.
  apply rbind_no_fuel; [|intros; apply subst_env_into_trigger_ok]. apply rmap_no_fuel. auto with keeps.
Qed.
Lemma keeps_eval_choose exp : keeps (eval_choose not_a_seq exp).
Proof. unfold eval_choose. keep. Qed.
#[local] Hint Resolve keeps_eval_quant keeps_eval_choose keeps_eval_unary keeps_eval_unary_opr
  keeps_eval_const_generic keeps_eval_binary keeps_eval_call keeps_eval_call_lambda : keeps.
Lemma keeps_eval_bind exp sp b e : keeps (eval_bind not_a_seq eval exp sp b e).
Proof using Heval. unfold eval_bind, node_new. keep. Qed.
#[local] Hint Resolve keeps_eval_bind : keeps.

Lemma keeps_eval_node exp : keeps (eval_node names not_a_seq ptr_eq probe oc ctx eval exp).
Proof using Heval.
  unfold eval_node, eval_var, eval_binary_opr, eval_if, eval_internal_call, eval_ctor, syn_eq, bool_new, node_new.
  keep.
Qed.
End cases.

(** A call at depth [d] with fuel for what is left below the maximal depth. *)
Lemma keeps_eval fuel d exp : (max_depth ctx + 2 ≤ d + N.of_nat fuel)%N → (d ≤ max_depth ctx + 1)%N →
  keeps IFuel (at_depth d) (eval_expr_internal names not_a_seq ptr_eq probe oc ctx fuel exp).
Proof.
  revert d exp. induction fuel as [|fuel IH]; intros d exp Hf Hd; [lia|]. cbn [eval_expr_internal].
  apply keeps_bind; [apply keeps_modify; intros; by apply at_set_iterations|]. intros [].
  intros s Hs. apply avoids_bind, avoids_get.
  assert (Hd' : depth s = d) by exact Hs. rewrite Hd'.
  destruct (_ <? _)%N; [by apply avoids_err|]. destruct (N.ltb_spec (max_depth ctx) d); [by apply avoids_err|].
  destruct (_ && _).
  { revert s Hs Hd'. enough (K : keeps IFuel (at_depth d) (smodify (E := interp_error) (count_ptr true);! sret exp)) by
      (intros; by apply K). keep. }
  apply avoids_bind, avoids_modify. apply avoids_bind, avoids_modify.
  apply avoids_bind. eapply avoids_mono; [apply (keeps_eval_node (N.succ d)); [intros e; apply IH; lia|]|].
  { destruct s. unfold at_depth in *. cbn in *. by subst. }
  intros res s1 Hs1. apply avoids_bind, avoids_modify, avoids_bind, avoids_modify, avoids_ret.
  unfold at_depth in *. destruct s1. cbn in Hs1. subst. cbn. destruct enable_simplified_cache; cbn; lia.
Qed.

Lemma keeps_eval_top eval exp d : (∀ e, keeps IFuel (at_depth d) (eval e)) →
  keeps IFuel (at_depth d) (eval_expr_top not_a_seq ptr_eq eval exp).
Proof. intros Heval. unfold eval_expr_top, def_eq_m. keep. Qed.

Lemma eval_expr_launch_ok exp mode logging quiet :
  eval_expr_launch names user_string not_a_seq ptr_eq probe oc ctx (interp_fuel ctx) exp mode logging quiet ≠ Err IFuel.
Proof.
  unfold eval_expr_launch.
  pose proof (keeps_eval_top (eval_expr_internal names not_a_seq ptr_eq probe oc ctx (interp_fuel ctx)) exp 0) as H.
  specialize (H (λ e, keeps_eval (interp_fuel ctx) 0 e ltac:(unfold interp_fuel; lia) ltac:(lia)) (initial_state logging) eq_refl).
  unfold avoids in H. destruct (eval_expr_top _ _ _ _ _) as [[r s]|e|]; cbn; [|congruence|done].
  destruct r as [|[e|]|e].
  - done.
  - apply rbind_no_ifuel; [apply cleanup_exp_ok|]. intros x. by destruct quiet.
  - by destruct quiet.
  - destruct mode; (apply rbind_no_ifuel; [apply cleanup_exp_ok|]; intros e1); [|done].
    apply rbind_no_ifuel; [apply lift_fuel_ok, definitely_eq_ok|]. intros []; [|done].
    apply rbind_no_ifuel; [|by intros [? ?]]. unfold warn_unsimplified, ctx_warning. by repeat case_match.
Qed.

(** C6. [eval_expr] ends: its recursion is bounded by the limit on its depth (two more than it are
    enough fuel), and comparing and restoring expressions is bounded by their size. *)
Theorem eval_expr_terminates exp diagnostics mode logging :
  eval_expr names user_string not_a_seq ptr_eq probe oc ctx exp diagnostics mode logging ≠ Err IFuel.
Proof.
  unfold eval_expr. pose proof (eval_expr_launch_ok exp mode logging (negb diagnostics)) as H.
  by destruct (eval_expr_launch _ _ _ _ _ _ _ _ _ _ _ _) as [[e ms]|e|]; [|intros [= ->]|].
Qed.
End interpreter.
