(* ===== verification/InterpSem.v ===== *)
(** * What the interpreter relies on, and truncation of integers

    [InterpLaws] and [den_source] say what the interpreter relies on of the meaning of
    programs.  The functions on [u128] and [i128] compute the low bits of the
    mathematical result, unsigned or signed; for an unknown word size they answer when
    both sizes agree. *)

From S2P Require Import Prelude VirMessages VirAst VirAstUtil Sst SstSemantics StateRes SstUtil.
From S2P Require Import InterpSynt InterpState InterpEval.
From S2P Require Ast ScopeMap.
Set Warnings "-rewrite-rw,-register-all,-clear-no-such-hyp".
Local Open Scope Z_scope.

(** The widths of the integer types of Rust. *)
Definition rust_width (n : N) : Prop := (n = 8 ∨ n = 16 ∨ n = 32 ∨ n = 64 ∨ n = 128)%N.
Definition arch_width (arch : ArchWordBits) (word_bits : N) : Prop :=
  match arch with
  | ArchWordBits_Exactly n => n = word_bits
  | ArchWordBits_Either32Or64 => (word_bits = 32 ∨ word_bits = 64)%N
  end.

Lemma pow2_pos n : 0 < 2 ^ Z.of_N n.
Proof. apply Z.pow_pos_nonneg; lia. Qed.
Lemma pow2_split a b : (a ≤ b)%N → 2 ^ Z.of_N b = 2 ^ Z.of_N (b - a) * 2 ^ Z.of_N a.
Proof. intros H. rewrite -Z.pow_add_r; [lia|lia|f_equal; lia]. Qed.

Lemma in_bits_spec n z : in_bits n z = true ↔ 0 ≤ z < 2 ^ Z.of_N n.
Proof. unfold in_bits. lia. Qed.
Lemma in_signed_bits_spec n z : in_signed_bits n z = true ↔ - 2 ^ (Z.of_N n - 1) ≤ z < 2 ^ (Z.of_N n - 1).
Proof. unfold in_signed_bits. lia. Qed.
Lemma to_u128_spec z : to_u128 z = if in_bits 128 z then Some z else None.
Proof. done. Qed.
Lemma to_i128_spec z : to_i128 z = if in_signed_bits 128 z then Some z else None.
Proof. done. Qed.

(** ** Low bits *)

Lemma low_bits_mod n m z : (n ≤ m)%N → low_bits n (z mod 2 ^ Z.of_N m) = low_bits n z.
Proof.
  intros H. unfold low_bits. rewrite (pow2_split n m H). rewrite Z.mul_comm.
  pose proof (pow2_pos n). pose proof (pow2_pos (m - n)).
  rewrite Z.rem_mul_r; [lia|lia|]. rewrite Z.mul_comm Z_mod_plus_full. by rewrite Zmod_mod.
Qed.
Lemma low_bits_id n z : in_bits n z = true → low_bits n z = z.
Proof. intros H%in_bits_spec. by apply Z.mod_small. Qed.
Lemma low_bits_cong n x y : (2 ^ Z.of_N n | x - y) → low_bits n x = low_bits n y.
Proof.
  intros [k Hk]. unfold low_bits. replace x with (y + k * 2 ^ Z.of_N n) by lia. apply Z_mod_plus_full.
Qed.
Lemma signed_low_bits_cong n x y : (2 ^ Z.of_N n | x - y) → signed_low_bits n x = signed_low_bits n y.
Proof.
  intros [k Hk]. unfold signed_low_bits. f_equal.
  replace (x + 2 ^ (Z.of_N n - 1)) with (y + 2 ^ (Z.of_N n - 1) + k * 2 ^ Z.of_N n) by lia. apply Z_mod_plus_full.
Qed.
Lemma half_pow n : (0 < n)%N → 2 ^ Z.of_N n = 2 * 2 ^ (Z.of_N n - 1).
Proof. intros H. rewrite -Z.pow_succ_r; [lia|f_equal; lia]. Qed.
Lemma signed_low_bits_id n z : (0 < n)%N → in_signed_bits n z = true → signed_low_bits n z = z.
Proof.
  intros Hn H%in_signed_bits_spec. pose proof (half_pow n Hn). unfold signed_low_bits.
  rewrite Z.mod_small; [lia|]. lia.
Qed.
Lemma signed_low_bits_range n z : (0 < n)%N → in_signed_bits n (signed_low_bits n z) = true.
Proof.
  intros Hn. apply in_signed_bits_spec. pose proof (half_pow n Hn). unfold signed_low_bits.
  pose proof (Z.mod_pos_bound (z + 2 ^ (Z.of_N n - 1)) (2 ^ Z.of_N n) (pow2_pos n)). lia.
Qed.
Lemma signed_low_bits_div n z : (2 ^ Z.of_N n | signed_low_bits n z - z).
Proof.
  unfold signed_low_bits. set (x := z + 2 ^ (Z.of_N n - 1)). pose proof (pow2_pos n).
  exists (- (x / 2 ^ Z.of_N n)). pose proof (Z_div_mod_eq_full x (2 ^ Z.of_N n)). unfold x in *. lia.
Qed.
Lemma signed_low_bits_twice n m z : (n ≤ m)%N → signed_low_bits n (signed_low_bits m z) = signed_low_bits n z.
Proof.
  intros H. apply signed_low_bits_cong. eapply Z.divide_trans; [|apply signed_low_bits_div].
  rewrite (pow2_split n m H). apply Z.divide_factor_r.
Qed.

(** ** The casts *)

Lemma u128_as_low n u : u128_as n u = low_bits n u.
Proof. done. Qed.
Lemma i128_as_signed n i : (0 < n)%N → i128_as n i = signed_low_bits n i.
Proof.
  intros Hn. pose proof (half_pow n Hn) as Hh. pose proof (pow2_pos n) as Hp.
  pose proof (Z.mod_pos_bound i _ Hp). pose proof (Z_div_mod_eq_full i (2 ^ Z.of_N n)) as Hd.
  rewrite -(signed_low_bits_id n (i128_as n i)) //.
  - apply in_signed_bits_spec. unfold i128_as, u128_as. case_match; lia.
  - apply signed_low_bits_cong. unfold i128_as, u128_as. case_match.
    + exists (- (i / 2 ^ Z.of_N n)). lia.
    + exists (- (i / 2 ^ Z.of_N n) - 1). lia.
Qed.

Lemma u128_to_fixed_width_eq {E} u n (r : Z) : in_bits 128 u = true → u128_to_fixed_width (E := E) u n = Ok r →
  r = low_bits n u.
Proof.
  intros Hu. unfold u128_to_fixed_width.
  repeat (case_match; try discriminate); intros [= <-]; try done. by rewrite low_bits_id.
Qed.
Lemma i128_to_fixed_width_eq {E} i n (r : Z) : in_signed_bits 128 i = true → i128_to_fixed_width (E := E) i n = Ok r →
  r = signed_low_bits n i.
Proof.
  intros Hi. unfold i128_to_fixed_width.
  repeat (case_match; try discriminate); intros [= <-]; try by apply i128_as_signed. by rewrite signed_low_bits_id.
Qed.

Lemma u128_fixed_le {E} u n (r : Z) : u128_to_fixed_width (E := E) u n = Ok r → (n ≤ 128)%N.
Proof. unfold u128_to_fixed_width. repeat (case_match; try discriminate); intros _; lia. Qed.
Lemma i128_fixed_le {E} i n (r : Z) : i128_to_fixed_width (E := E) i n = Ok r → (0 < n ≤ 128)%N.
Proof. unfold i128_to_fixed_width. repeat (case_match; try discriminate); intros _; lia. Qed.

Section width.
Context {E : Type} (w : IntegerTypeBitwidth) (arch : ArchWordBits) (word_bits : N).
Hypothesis Harch : arch_width arch word_bits.

(** [x] is the mathematical result, [u] or [i] what is left of it. *)
Lemma u128_to_width_eq u x r : in_bits 128 u = true → (∀ n, (n ≤ 128)%N → low_bits n u = low_bits n x) →
  u128_to_width (E := E) u w arch = Ok (Some r) → r = low_bits (bits_of word_bits w) x.
Proof using Harch.
  intros Hu Hx. destruct w as [n|]; cbn [u128_to_width bits_of].
  - destruct (u128_to_fixed_width u n) as [v| |] eqn:Ev; cbn; try discriminate. intros [= <-].
    rewrite -(Hx n); [by eapply u128_fixed_le|]. by eapply u128_to_fixed_width_eq.
  - destruct arch as [|n]; cbn [u128_to_arch_width arch_width] in *.
    + cbn. destruct (Z.eqb_spec (u128_as 32 u) (u128_as 64 u)) as [Heq|]; [|discriminate]. intros [= <-].
      destruct Harch as [-> | ->]; [rewrite -(Hx 32%N)|rewrite -(Hx 64%N)]; done.
    + subst n. destruct (u128_to_fixed_width u word_bits) as [v| |] eqn:Ev; cbn; try discriminate. intros [= <-].
      rewrite -(Hx word_bits); [by eapply u128_fixed_le|]. by eapply u128_to_fixed_width_eq.
Qed.
Lemma i128_to_width_eq i x r : in_signed_bits 128 i = true →
  (∀ n, (0 < n ≤ 128)%N → signed_low_bits n i = signed_low_bits n x) →
  i128_to_width (E := E) i w arch = Ok (Some r) → r = signed_low_bits (bits_of word_bits w) x.
Proof using Harch.
  intros Hu Hx. destruct w as [n|]; cbn [i128_to_width bits_of].
  - destruct (i128_to_fixed_width i n) as [v| |] eqn:Ev; cbn; try discriminate. intros [= <-].
    rewrite -(Hx n); [by eapply i128_fixed_le|]. by eapply i128_to_fixed_width_eq.
  - destruct arch as [|n]; cbn [i128_to_arch_width arch_width] in *.
    + cbn. destruct (Z.eqb_spec (i128_as 32 i) (i128_as 64 i)) as [Heq|]; [|discriminate]. intros [= <-].
      rewrite !i128_as_signed // in Heq |- *.
      destruct Harch as [-> | ->]; [rewrite -(Hx 32%N)|rewrite -(Hx 64%N)]; done.
    + subst n. destruct (i128_to_fixed_width i word_bits) as [v| |] eqn:Ev; cbn; try discriminate. intros [= <-].
      rewrite -(Hx word_bits); [by eapply i128_fixed_le|]. by eapply i128_to_fixed_width_eq.
Qed.

Lemma shiftl_far i j n : 128 ≤ j → (n ≤ 128)%N → (2 ^ Z.of_N n | Z.shiftl i j).
Proof using.
  intros Hj Hn. rewrite Z.shiftl_mul_pow2; [lia|]. apply Z.divide_mul_r. exists (2 ^ (j - Z.of_N n)).
  rewrite -Z.pow_add_r; [lia|lia|f_equal; lia].
Qed.
Lemma shl_u128_range i j : in_bits 128 (shl_u128 i j) = true.
Proof using.
  unfold shl_u128. destruct (128 <=? j); [done|]. apply in_bits_spec. apply Z.mod_pos_bound. done.
Qed.
Lemma shl_i128_range i j : in_signed_bits 128 (shl_i128 i j) = true.
Proof using.
  unfold shl_i128. destruct (128 <=? j); [done|]. rewrite i128_as_signed //. by apply signed_low_bits_range.
Qed.
Lemma shl_u128_low n i j : (n ≤ 128)%N → low_bits n (shl_u128 i j) = low_bits n (Z.shiftl i j).
Proof using.
  intros Hn. unfold shl_u128. destruct (Z.leb_spec 128 j); [|by apply low_bits_mod].
  apply low_bits_cong. replace (0 - Z.shiftl i j) with (- Z.shiftl i j) by lia.
  by apply Z.divide_opp_r, shiftl_far.
Qed.
Lemma shl_i128_low n i j : (n ≤ 128)%N → signed_low_bits n (shl_i128 i j) = signed_low_bits n (Z.shiftl i j).
Proof using.
  intros Hn. unfold shl_i128. destruct (Z.leb_spec 128 j).
  - apply signed_low_bits_cong. replace (0 - Z.shiftl i j) with (- Z.shiftl i j) by lia.
    by apply Z.divide_opp_r, shiftl_far.
  - rewrite i128_as_signed //. by apply signed_low_bits_twice.
Qed.

Lemma shl_u128_eq i j r : u128_to_width (E := E) (shl_u128 i j) w arch = Ok (Some r) →
  r = low_bits (bits_of word_bits w) (Z.shiftl i j).
Proof using Harch. apply u128_to_width_eq; [apply shl_u128_range|]. intros n. apply shl_u128_low. Qed.
Lemma shl_i128_eq i j r : i128_to_width (E := E) (shl_i128 i j) w arch = Ok (Some r) →
  r = signed_low_bits (bits_of word_bits w) (Z.shiftl i j).
Proof using Harch. apply i128_to_width_eq; [apply shl_i128_range|]. intros n [_ Hn]. by apply shl_i128_low. Qed.
Lemma lnot_u128_eq i r : in_bits 128 i = true → u128_to_width (E := E) (2 ^ 128 - 1 - i) w arch = Ok (Some r) →
  r = low_bits (bits_of word_bits w) (Z.lnot i).
Proof using Harch.
  intros Hi%in_bits_spec. apply u128_to_width_eq; [apply in_bits_spec; lia|]. intros n Hn. apply low_bits_cong.
  replace (2 ^ 128 - 1 - i - Z.lnot i) with (2 ^ Z.of_N 128) by (unfold Z.lnot; lia).
  rewrite (pow2_split n 128 Hn). apply Z.divide_factor_r.
Qed.
Lemma to_width_none u : u128_to_width (E := E) u w arch = Ok None →
  w = IntegerTypeBitwidth_ArchWordSize ∧ arch = ArchWordBits_Either32Or64.
Proof using.
  clear Harch. destruct w as [n|]; cbn; [by destruct (u128_to_fixed_width u n)|]. destruct arch as [|n]; [done|].
  cbn. by destruct (u128_to_fixed_width u n).
Qed.
Lemma to_signed_width_none i : i128_to_width (E := E) i w arch = Ok None →
  w = IntegerTypeBitwidth_ArchWordSize ∧ arch = ArchWordBits_Either32Or64.
Proof using.
  clear Harch. destruct w as [n|]; cbn; [by destruct (i128_to_fixed_width i n)|]. destruct arch as [|n]; [done|].
  cbn. by destruct (i128_to_fixed_width i n).
Qed.

(** A truncation to the width of an integer type returns. *)
Lemma fixed_width_ok {E'} u i n : rust_width n →
  (∃ r, u128_to_fixed_width (E := E') u n = Ok r) ∧ (∃ r, i128_to_fixed_width (E := E') i n = Ok r).
Proof using. intros [-> | [-> | [-> | [-> | ->]]]]; by split; eexists. Qed.
End width.

(** C7. The truncation of a [u128] and of an [i128] to the width of an integer type never panics;
    its result is the low bits, unsigned or signed, of the number, for the word size of the
    machine; there is no result only when the word size is unknown and the two possible
    sizes disagree. *)
Theorem truncation_exact {E} u i w arch wb :
  in_bits 128 u = true → in_signed_bits 128 i = true → arch_width arch wb → rust_width (bits_of wb w) →
  (∃ o, u128_to_width (E := E) u w arch = Ok o ∧ match o with
    | Some r => r = low_bits (bits_of wb w) u
    | None => w = IntegerTypeBitwidth_ArchWordSize ∧ arch = ArchWordBits_Either32Or64 ∧ low_bits 32 u ≠ low_bits 64 u
    end) ∧
  (∃ o, i128_to_width (E := E) i w arch = Ok o ∧ match o with
    | Some r => r = signed_low_bits (bits_of wb w) i
    | None => w = IntegerTypeBitwidth_ArchWordSize ∧ arch = ArchWordBits_Either32Or64
      ∧ signed_low_bits 32 i ≠ signed_low_bits 64 i
    end).
Proof.
  intros Hu Hi Ha Hw. pose proof (fixed_width_ok (E' := E) u i _ Hw) as [[r Hr] [s Hs]]. split.
  - destruct (u128_to_width (E := E) u w arch) as [[v|]| |] eqn:Ev.
    + exists (Some v). split; [done|]. by eapply (u128_to_width_eq (E := E) w arch wb Ha u u).
    + exists None. split; [done|]. pose proof (to_width_none w arch u Ev) as [-> ->]. split; [done|]. split; [done|].
      cbn in Ev. by destruct (Z.eqb_spec (u128_as 32 u) (u128_as 64 u)).
    + exfalso. destruct w as [n|]; cbn in Ev, Hr; [by rewrite Hr in Ev|]. destruct arch as [|n]; cbn in Ev, Ha; [by destruct (_ =? _)|].
      subst n. by rewrite Hr in Ev.
    + exfalso. destruct w as [n|]; cbn in Ev, Hr; [by rewrite Hr in Ev|]. destruct arch as [|n]; cbn in Ev, Ha; [by destruct (_ =? _)|].
      subst n. by rewrite Hr in Ev.
  - destruct (i128_to_width (E := E) i w arch) as [[v|]| |] eqn:Ev.
    + exists (Some v). split; [done|]. by eapply (i128_to_width_eq (E := E) w arch wb Ha i i).
    + exists None. split; [done|]. pose proof (to_signed_width_none w arch i Ev) as [-> ->]. split; [done|]. split; [done|].
      cbn in Ev. rewrite -!i128_as_signed //. by destruct (Z.eqb_spec (i128_as 32 i) (i128_as 64 i)).
    + exfalso. destruct w as [n|]; cbn in Ev, Hs; [by rewrite Hs in Ev|]. destruct arch as [|n]; cbn in Ev, Ha; [by destruct (_ =? _)|].
      subst n. by rewrite Hs in Ev.
    + exfalso. destruct w as [n|]; cbn in Ev, Hs; [by rewrite Hs in Ev|]. destruct arch as [|n]; cbn in Ev, Ha; [by destruct (_ =? _)|].
      subst n. by rewrite Hs in Ev.
Qed.
(** [300 as u8] and [-200 as i8] *)
Lemma truncation_exact_witness :
  (∃ o, u128_to_width (E := unit) 300 (IntegerTypeBitwidth_Width 8) ArchWordBits_Either32Or64 = Ok o ∧ match o with
    | Some r => r = low_bits 8 300 | None => IntegerTypeBitwidth_Width 8 = IntegerTypeBitwidth_ArchWordSize
      ∧ ArchWordBits_Either32Or64 = ArchWordBits_Either32Or64 ∧ low_bits 32 300 ≠ low_bits 64 300 end) ∧
  (∃ o, i128_to_width (E := unit) (-200) (IntegerTypeBitwidth_Width 8) ArchWordBits_Either32Or64 = Ok o ∧ match o with
    | Some r => r = signed_low_bits 8 (-200) | None => IntegerTypeBitwidth_Width 8 = IntegerTypeBitwidth_ArchWordSize
      ∧ ArchWordBits_Either32Or64 = ArchWordBits_Either32Or64 ∧ signed_low_bits 32 (-200) ≠ signed_low_bits 64 (-200) end).
Proof.
  apply (truncation_exact 300 (-200) (IntegerTypeBitwidth_Width 8) ArchWordBits_Either32Or64 32);
    [reflexivity|reflexivity|by left|by left].
Defined.

(** ** What the soundness of the interpreter rests on

    [plain B arch src e] says of an expression that the interpreter may run: no [Loc],
    quantifier or [choose], one variable in each [let], every field of a constructor, and
    the names it binds are in [B]; with [src], none of the interpreter's own values either.
    The body of a lambda is always such: the interpreter makes a lambda a closure.  [den_mono]: the meaning of a plain expression does not change when
    more variables have values.  [InterpLaws] is what the interpreter takes the functions
    to mean. *)

Lemma mapM_mono {A B} (f g : A → option B) l vs :
  Forall (λ x, ∀ v, f x = Some v → g x = Some v) l → mapM f l = Some vs → mapM g l = Some vs.
Proof.
  intros H Hm%mapM_Some_1. apply mapM_Some_2. induction Hm as [|x v l vs Hx _ IH]; [constructor|].
  inversion H; subst. constructor; auto.
Qed.
Lemma bind_mono {A B} (o o' : option A) (f g : A → option B) r :
  (∀ v, o = Some v → o' = Some v) → (∀ v w, f v = Some w → g v = Some w) → o ≫= f = Some r → o' ≫= g = Some r.
Proof. intros Ho Hf (v & Hv & Hr)%bind_Some. rewrite (Ho v Hv). by apply Hf. Qed.

(** ** Plain expressions *)

Section plain.
Context `{M : SstModel} (B : gset VarIdent).

(** A shift by a word is run only for a known word size. *)
Variable arch : ArchWordBits.
Definition op_plain (op : BinaryOp) : Prop :=
  match op, arch with
  | BinaryOp_Bitwise (BitwiseOp_Shl IntegerTypeBitwidth_ArchWordSize _), ArchWordBits_Either32Or64 => False
  | _, _ => True
  end.

(** No integer type has no bits at all. *)
Definition range_plain (r : option IntRange) : Prop := match r with Some (IntRange_I 0) => False | _ => True end.
Definition unary_plain (op : UnaryOp) : Prop :=
  match op with UnaryOp_Clip r _ => range_plain (Some r) | _ => True end.
Definition nullary_plain (op : NullaryOpr) (t : Typ) : Prop :=
  match op with NullaryOpr_ConstGeneric (TypX_ConstInt _) => range_plain (int_range_from_type t) | _ => True end.

Definition ctor_names {A} (bs : list (Ident * A)) : list Ident := map fst (sort_fields bs).
Definition is_lambda (e : Exp) : Prop :=
  match exp_x e with ExpX_Bind _ (BndX_Lambda _ _) _ => True | _ => False end.

Fixpoint plain (src : bool) (e : Exp) : Prop :=
  let 'mkExp _ t y := e in
  let all := allP (plain src) in
  match y with
  | ExpX_Loc _ => False
  | ExpX_Call _ _ es | ExpX_ArrayLiteral es => all es
  | ExpX_CallLambda e es => plain src e ∧ all es
  | ExpX_Ctor d c bs =>
    ctor_names (map (λ b, (Ast.bname b, ())) bs) = field_names d c
    ∧ allP (λ b, let 'Ast.mkBinder _ a := b in plain src a) bs
  | ExpX_NullaryOpr op => nullary_plain op t
  | ExpX_Unary op e => unary_plain op ∧ plain src e
  | ExpX_UnaryOpr _ e | ExpX_WithTriggers _ e => plain src e
  | ExpX_Binary op e1 e2 => op_plain op ∧ plain src e1 ∧ plain src e2
  | ExpX_BinaryOpr _ e1 e2 => plain src e1 ∧ plain src e2
  | ExpX_If e1 e2 e3 => plain src e1 ∧ plain src e2 ∧ plain src e3
  | ExpX_Bind _ (BndX_Let bs) e =>
    match bs with [mkVarBinder n a] => n ∈ B ∧ plain src a | _ => False end ∧ plain src e
  | ExpX_Bind _ (BndX_Lambda bs _) e => list_to_set (binder_names bs) ⊆ B ∧ plain true e
  | ExpX_Bind _ _ _ => False
  | ExpX_Interp i =>
    src = false ∧
    match i with
    | InterpExp_FreeVar _ => True
    | InterpExp_Seq v | InterpExp_Array v => all v
    | InterpExp_Closure e ctx =>
      is_lambda e ∧ plain src e ∧ allP (λ p, let '(x, a) := p in x ∈ B ∧ plain src a) ctx
    end
  | _ => True
  end.

Lemma plain_source src e : plain true e → plain src e.
Proof.
  induction e as [sp t y IH] using exp_ind'. intros Hp.
  assert (Hes : ∀ es, Forall (λ e, plain true e → plain src e) es → allP (plain true) es → allP (plain src) es).
  { intros es H1 H2. rewrite allP_Forall. rewrite allP_Forall in H2. by eapply Forall_impl2; [exact H1|exact H2|]. }
  destruct y; cbn [children] in IH; cbn [plain] in Hp |- *; try done;
    repeat match goal with
    | H : Forall _ (_ :: _) |- _ => apply Forall_cons in H as [? H]
    | H : _ ∧ _ |- _ => destruct H
    end; auto.
  - split; [done|]. rewrite allP_Forall. rewrite allP_Forall in H0. rewrite Forall_map in IH.
    eapply Forall_impl2; [exact IH|exact H0|]. by intros [n a].
  - apply Forall_app in IH as [_ IH]. apply Forall_cons in IH as [IH _]. auto.
  - apply Forall_app in IH as [IHb IH]. apply Forall_cons in IH as [IH _].
    destruct bnd as [bs|q bs ts l|bs ts|bs ts c]; try done; destruct Hp as [Hb He].
    destruct bs as [|[n a] [|]]; try done. destruct Hb. cbn in IHb. apply Forall_cons in IHb as [? _]. auto.
  - discriminate.
Qed.

Lemma restrict_mono (X : gset VarIdent) (ρ ρ' : gmap VarIdent V) : ρ ⊆ ρ' → X ⊆ dom ρ → restrict X ρ = restrict X ρ'.
Proof.
  intros Hs HX. apply map_eq. intros x. apply option_eq. intros v. unfold restrict. rewrite !map_lookup_filter_Some. cbn.
  split; intros [Hx Hin]; (split; [|done]).
  - by eapply lookup_weaken.
  - apply HX in Hin. apply elem_of_dom in Hin as [w Hw]. rewrite Hw. eapply lookup_weaken in Hs; [|exact Hw]. congruence.
Qed.
Lemma bind_env_mono {A} (bs : VarBinders A) (vs : list V) (ρ ρ' : gmap VarIdent V) :
  ρ ⊆ ρ' → bind_env bs vs ρ ⊆ bind_env bs vs ρ'.
Proof. intros H. by apply map_union_mono_l. Qed.

Lemma const_generic_mono (t t' : Typ) (ρ ρ' : gmap VarIdent V) (v : V) :
  ρ ⊆ ρ' → const_generic t t' ρ = Some v → const_generic t t' ρ' = Some v.
Proof. intros Hs. destruct t'; cbn; try done. intros H. by eapply lookup_weaken. Qed.

(** More variables with values, the same meaning. *)
Lemma den_mono (φ φ' : gmap VarIdent V) (src : bool) (e : Exp) : φ ⊆ φ' → plain src e → ∀ (ρ ρ' : gmap VarIdent V) v, ρ ⊆ ρ' → den φ e ρ = Some v → den φ' e ρ' = Some v.
Proof.
  intros Hφ. induction e as [sp t y IH] using exp_ind'. intros Hp ρ ρ' v Hρ.
  assert (Hes : ∀ (ρ ρ' : gmap VarIdent V) es vs, ρ ⊆ ρ' →
    Forall (λ e, plain src e → ∀ ρ ρ' v, ρ ⊆ ρ' → den φ e ρ = Some v → den φ' e ρ' = Some v) es →
    allP (plain src) es → mapM (λ e, den φ e ρ) es = Some vs → mapM (λ e, den φ' e ρ') es = Some vs).
  { clear ρ ρ' Hρ. intros ρ ρ' es vs Hρ H1 H2%allP_Forall. apply mapM_mono. eapply Forall_impl2; [exact H1|exact H2|]. eauto. }
  destruct y; cbn [children] in IH; cbn [plain] in Hp; cbn [den]; try done;
    repeat match goal with
    | H : Forall _ (_ :: _) |- _ => apply Forall_cons in H as [? H]
    | H : _ ∧ _ |- _ => destruct H
    end.
  - intros H. by eapply lookup_weaken.
  - apply bind_mono; [intros vs; by apply (Hes ρ ρ')|done].
  - apply bind_mono; [eauto|]. intros w u. apply bind_mono; [intros vs; by apply (Hes ρ ρ')|done].
  - apply bind_mono; [|done]. intros fs. apply mapM_mono. rewrite allP_Forall in H0. rewrite Forall_map in IH.
    eapply Forall_impl2; [exact IH|exact H0|]. intros [n a] Ha Hpa [m w]. cbn in *.
    intros (w' & Hw & [= -> ->])%fmap_Some. erewrite Ha; eauto.
  - destruct op; try done. by apply const_generic_mono.
  - apply bind_mono; [eauto|done].
  - apply bind_mono; [eauto|done].
  - apply bind_mono; [eauto|]. intros v1 w. apply bind_mono; [eauto|done].
  - destruct op. apply bind_mono; [eauto|]. intros v1 w. apply bind_mono; [eauto|done].
  - apply bind_mono; [eauto|]. intros v1 w. apply bind_mono; [done|]. intros [] w'; eauto.
  - apply Forall_app in IH as [_ IH]. apply Forall_cons in IH as [IH _]. eauto.
  - apply Forall_app in IH as [IHb IH]. apply Forall_cons in IH as [IH _].
    destruct bnd as [bs|q bs ts l|bs ts|bs ts c]; try done; destruct Hp as [Hb He].
    + destruct bs as [|[n a] [|]]; try done. destruct Hb as [_ Ha]. cbn in IHb. apply Forall_cons in IHb as [IHa _].
      cbn. intros H. apply bind_Some in H as (vs & Hvs & H).
      apply bind_Some in Hvs as (w & Hw & Hvs). rewrite (IHa Ha _ _ _ Hρ Hw). cbn in *. injection Hvs as <-. cbn.
      eapply IH; [done| |exact H]. by apply bind_env_mono.
    + case_decide as Hd; [|done]. intros [= <-]. rewrite decide_True; [|by rewrite (restrict_mono _ ρ ρ')].
      etrans; [exact Hd|]. by apply subseteq_dom.
  - intros (vs & Hvs & ->)%fmap_Some. by rewrite (Hes ρ ρ' es vs).
  - destruct i as [x|es|e c|es]; cbn [interp_children] in IH.
    + intros Hl. by eapply lookup_weaken.
    + intros (vs & Hvs & ->)%fmap_Some. by rewrite (Hes φ φ' es vs).
    + apply Forall_cons in IH as [IHe IHc]. destruct H0 as (Hl & He & Hc). apply bind_mono.
      * intros vs. apply mapM_mono. rewrite allP_Forall in Hc. rewrite Forall_map in IHc.
        eapply Forall_impl2; [exact IHc|exact Hc|]. intros [x a] Ha [_ Hpa] [y w]. cbn in *.
        intros (w' & Hw & [= -> ->])%fmap_Some. erewrite Ha; eauto.
      * intros vs w. apply IHe; [done|]. by apply map_union_mono_l.
    + intros (vs & Hvs & ->)%fmap_Some. by rewrite (Hes φ φ' es vs).
Qed.

(** Expressions of the program do not depend on the hidden variables. *)
Lemma den_source (φ φ' : gmap VarIdent V) (e : Exp) : plain true e → ∀ ρ, den φ e ρ = den φ' e ρ.
Proof.
  induction e as [sp t y IH] using exp_ind'. intros Hp ρ.
  assert (Hes : ∀ es, Forall (λ e, plain true e → ∀ ρ, den φ e ρ = den φ' e ρ) es → allP (plain true) es →
    mapM (λ e, den φ e ρ) es = mapM (λ e, den φ' e ρ) es).
  { intros es H1 H2%allP_Forall. apply Forall_mapM_ext. eapply Forall_impl2; [exact H1|exact H2|]. auto. }
  destruct y; cbn [children] in IH; cbn [plain] in Hp; cbn [den]; try done;
    repeat match goal with
    | H : Forall _ (_ :: _) |- _ => apply Forall_cons in H as [? H]
    | H : _ ∧ _ |- _ => destruct H
    end.
  - by rewrite Hes.
  - rewrite H // Hes //.
  - f_equal. apply Forall_mapM_ext. rewrite allP_Forall in H0. rewrite Forall_map in IH.
    eapply Forall_impl2; [exact IH|exact H0|]. intros [n a] Ha Hpa. cbn in *. by rewrite Ha.
  - by rewrite H.
  - by rewrite H.
  - by rewrite H // H0.
  - by rewrite H // H0.
  - rewrite H // H0 // H1 //.
  - apply Forall_app in IH as [_ IH]. apply Forall_cons in IH as [IH _]. by apply IH.
  - apply Forall_app in IH as [IHb IH]. apply Forall_cons in IH as [IH _].
    destruct bnd as [bs|q bs ts l|bs ts|bs ts c]; try done; destruct Hp as [Hb He].
    destruct bs as [|[n a] [|]]; try done. destruct Hb as [_ Ha]. cbn in IHb. apply Forall_cons in IHb as [IHa _].
    cbn. rewrite IHa //. destruct (den φ' a ρ); cbn; [|done]. by apply IH.
  - by rewrite Hes.
  - discriminate.
Qed.
End plain.

(** ** What the functions mean *)

(** [seq_fun k vs v]: the function [k] of vstd applied to [vs] has the value [v]. *)
Definition seq_fun `{M : SstModel} (k : SeqFn) (vs : list V) (v : V) : Prop :=
  match k, vs with
  | SeqFn_Empty, [] => v = VSeq []
  | SeqFn_New, [n; g] => ∀ i, n = VInt i → (0 ≤ i)%Z →
    ∃ l, mapM (λ j, app g [VInt (Z.of_nat j)]) (seq 0 (Z.to_nat i)) = Some l ∧ v = VSeq l
  | SeqFn_Push, [s; x] => ∀ l, s = VSeq l → v = VSeq (l ++ [x])
  | SeqFn_Update, [s; n; x] => ∀ l i, s = VSeq l → n = VInt i → (0 ≤ i < Z.of_nat (length l))%Z →
    v = VSeq (<[Z.to_nat i := x]> l)
  | SeqFn_Subrange, [s; m; n] => ∀ l i j, s = VSeq l → m = VInt i → n = VInt j →
    (0 ≤ i ≤ j)%Z → (j ≤ Z.of_nat (length l))%Z → v = VSeq (take (Z.to_nat j - Z.to_nat i) (drop (Z.to_nat i) l))
  | SeqFn_Add, [s; t] => ∀ l r, s = VSeq l → t = VSeq r → v = VSeq (l ++ r)
  | SeqFn_Len, [s] => ∀ l, s = VSeq l → v = VInt (Z.of_nat (length l))
  | SeqFn_Index, [s; n] => ∀ l i, s = VSeq l → n = VInt i → (0 ≤ i < Z.of_nat (length l))%Z → l !! Z.to_nat i = Some v
  | SeqFn_ExtEqual, [s; t] => ∀ l r, s = VSeq l → t = VSeq r → v = VBool (bool_decide (l = r))
  | SeqFn_Last, [s] => ∀ l, s = VSeq l → l ≠ [] → last l = Some v
  | _, _ => False
  end.

(** What the interpreter relies on: beta reduction, extensionality of lambdas, the
    functions of vstd that it knows, and that a call of a function of the program means
    its body where its [when] condition holds.  [ρ0] has the values of the const
    generics in force. *)
Class InterpLaws `{M : SstModel} (names : Path → option string) (ctx : Ctx) (B : gset VarIdent)
    (ρ0 : gmap VarIdent V) := {
  law_app bs e ρ vs v : app (lambda_val bs e ρ) vs = Some v → den ∅ e (bind_env bs vs ρ) = Some v;
  law_lambda_ext bs bs' e e' ρ : binder_names bs = binder_names bs' →
    (∀ vs, den ∅ e (bind_env bs vs ρ) = den ∅ e' (bind_env bs' vs ρ)) → lambda_val bs e ρ = lambda_val bs' e' ρ;
  law_array f ts vs v : is_array_fn names f = Some ArrayFn_View → fun_val f ts vs = Some v →
    match vs with [a] => ∀ l, a = VArray l → v = VSeq l | _ => False end;
  law_seq f k ts vs v : is_sequence_fn names f = Some k → fun_val f ts vs = Some v → seq_fun k vs v;
  law_empty t : fun_val fun_empty [t] [] = Some (VSeq []);
  law_push t l x : fun_val fun_push [t] [VSeq l; x] = Some (VSeq (l ++ [x]));
  law_view t l : fun_val fun_view [t; TypX_ConstInt (Z.of_nat (length l))] [VArray l] = Some (VSeq l);
  law_body f func ax ts te body vs v : fun_ssts ctx !! f = Some func → spec_axioms func = Some ax →
    inline_okay (fsst_kind func) = true → is_array_fn names f = None → is_sequence_fn names f = None →
    call_type_env func ts = Ok te → subst_exp (ScopeMap.map te) ∅ (body_exp ax) = Ok body →
    fun_val f (map erase_typ ts) vs = Some v →
    let ρ := list_to_map (zip (pars func) vs) ∪ ρ0 in
    match decrease_when ax with
    | None => den ∅ body ρ = Some v
    | Some w => ∀ w', subst_exp (ScopeMap.map te) ∅ w = Ok w' →
      ∃ b, den ∅ w' ρ = Some (VBool b) ∧ (b = true → den ∅ body ρ = Some v)
    end;
  (** The program is plain, and [B] has the names it binds. *)
  law_plain f func ax ts te e e' : fun_ssts ctx !! f = Some func → spec_axioms func = Some ax →
    (e = body_exp ax ∨ decrease_when ax = Some e) → call_type_env func ts = Ok te →
    subst_exp (ScopeMap.map te) ∅ e = Ok e' → plain B (arch ctx) true e';
  law_pars f func : fun_ssts ctx !! f = Some func → list_to_set (pars func) ⊆ B;
  law_bare x : typ_param_var x ∉ B;
  law_arch : arch_width (arch ctx) word_bits;
  law_bits : (0 < word_bits)%N
}.
