(* ===== verification/InterpSynFacts.v ===== *)
(** * Syntactic equality is sound

    When [syntactic_eq] answers [Some(true)] the two expressions have the same meaning,
    when it answers [Some(false)] their values differ. *)

From S2P Require Import Prelude StateRes VirMessages VirAst VirAstUtil Sst SstSemantics SstUtil.
From S2P Require Import InterpSynt InterpState InterpEval InterpTerm InterpSem.
From S2P Require Ast ScopeMap.
Set Warnings "-rewrite-rw,-register-all,-clear-no-such-hyp".

(** ** The combinators *)

Abbreviation yes r := (r = Ok (Some true)) (only parsing).
Abbreviation no r := (r = Ok (Some false)) (only parsing).

Lemma qbind_inv {A B} (m : res fuel_error (option A)) (k : A → res fuel_error (option B)) y :
  qbind m k = Ok (Some y) → ∃ x, m = Ok (Some x) ∧ k x = Ok (Some y).
Proof. destruct m as [[x|]|e|]; cbn; try done. eauto. Qed.
Lemma qand_yes a m : yes (qand a m) → a = true ∧ yes m.
Proof. by destruct a. Qed.
Lemma qand_no a m : no (qand a m) → a = false ∨ no m.
Proof. destruct a; cbn; auto. Qed.
Lemma definitely_yes m : definitely m = Ok true → yes m.
Proof. by destruct m as [[[]|]|e|]. Qed.
Lemma conservative_yes m b : conservative m = Ok (Some b) → yes m ∧ b = true.
Proof. destruct m as [[[]|]|e|]; cbn; try done. intros [= <-]. done. Qed.
Lemma def_eq_some a b : def_eq a = Some b → a = true ∧ b = true.
Proof. by destruct a; intros [= <-]. Qed.

Section vec.
Context {A : Type} (eq : A → A → res fuel_error (option bool)).
Lemma vec_eq_yes l r : yes (vec_eq eq l r) → Forall2 (λ x y, yes (eq x y)) l r.
Proof.
  unfold vec_eq. case_decide as Hl; [|done].
  enough (H : ∀ b, yes (vec_fold eq l r b) → b = true ∧ Forall2 (λ x y, yes (eq x y)) l r) by (by intros [_ ?]%H).
  revert r Hl. induction l as [|x l IH]; intros [|y r] Hl b; cbn in *; try done.
  { by destruct b; [repeat constructor|]. }
  injection Hl as Hl. destruct (eq x y) as [[[]|]|e|] eqn:E; cbn; try done.
  - intros [-> H]%(IH _ Hl). split; [done|]. by constructor.
  - by intros [? H]%(IH _ Hl).
Qed.
Lemma vec_eq_no l r : no (vec_eq eq l r) →
  length l ≠ length r ∨ ∃ i x y, l !! i = Some x ∧ r !! i = Some y ∧ no (eq x y).
Proof.
  unfold vec_eq. case_decide as Hl; [|by left]. intros H. right. revert H. generalize true.
  revert r Hl. induction l as [|x l IH]; intros [|y r] Hl b; cbn in *; try done.
  { by destruct b. }
  injection Hl as Hl. destruct (eq x y) as [[[]|]|e|] eqn:E; cbn; try done.
  - intros (i & H)%(IH _ Hl). by exists (S i).
  - intros _. by exists 0, x, y.
  - intros (i & H)%(IH _ Hl). by exists (S i).
Qed.

Context {K : Type} `{EqDecision K}.
Lemma binders_fold_yes (l r : list (K * A)) b : length l = length r → yes (binders_fold eq l r b) →
  b = true ∧ Forall2 (λ p q, p.1 = q.1 ∧ yes (eq p.2 q.2)) l r.
Proof.
  revert r b. induction l as [|[n x] l IH]; intros [|[m y] r] b Hl; cbn in *; try done.
  { intros [= ->]. by repeat constructor. }
  injection Hl as Hl. intros (b' & Hb & H)%qbind_inv. apply (IH _ _ Hl) in H as [-> H].
  apply qand_yes in Hb as [[-> Hn%bool_decide_eq_true]%andb_true_iff Hx]. split; [done|]. by constructor.
Qed.
Lemma binders_fold_no (l r : list (K * A)) b : no (binders_fold eq l r b) →
  b = false ∨ ∃ i n x m y, l !! i = Some (n, x) ∧ r !! i = Some (m, y) ∧ (n ≠ m ∨ no (eq x y)).
Proof.
  revert r b. induction l as [|[n x] l IH]; intros [|[m y] r] b; cbn in *; try (intros [= ->]; by left).
  intros (b' & Hb & H)%qbind_inv. apply IH in H as [->|(i & n' & x' & m' & y' & H)].
  - apply qand_no in Hb as [Hb|Hb].
    + apply andb_false_iff in Hb as [->|Hn%bool_decide_eq_false]; [by left|]. right. exists 0, n, x, m, y. auto.
    + right. exists 0, n, x, m, y. auto.
  - right. by exists (S i), n', x', m', y'.
Qed.
Lemma var_binders_eq_yes (l r : list (K * A)) : yes (var_binders_eq eq l r) →
  Forall2 (λ p q, p.1 = q.1 ∧ yes (eq p.2 q.2)) l r.
Proof. unfold var_binders_eq. case_decide; [|done]. intros Hb. by apply binders_fold_yes in Hb as [_ Hb]. Qed.
End vec.

(** ** Types *)

Lemma core_undecorate t : core_typ (undecorate_typ t) = core_typ t.
Proof. induction t using typ_ind'; cbn; auto. Qed.
Lemma core_erase t : core_typ (erase_typ t) = core_typ t.
Proof.
  assert (Hm : ∀ ts, Forall (λ t, core_typ (erase_typ t) = core_typ t) ts →
    map core_typ (map erase_typ ts) = map core_typ ts).
  { intros ts H. rewrite map_map. by apply map_ext_Forall. }
  induction t using typ_ind'; cbn; rewrite ?Hm //; congruence.
Qed.
Lemma types_equal_core t t' : types_equal t t' = true → core_typ t = core_typ t'.
Proof. intros H%types_equal_erase. by rewrite -(core_erase t) -(core_erase t') H. Qed.
Lemma undecorated_equal_core l r : undecorated_equal l r = true → core_typ (exp_typ l) = core_typ (exp_typ r).
Proof. intros H%types_equal_core. by rewrite !core_undecorate in H. Qed.

Lemma typ_syntactic_eq_core t t' : yes (typ_syntactic_eq t t') → core_typ t = core_typ t'.
Proof.
  revert t'. induction t using typ_ind'; intros t'; cbn [typ_syntactic_eq core_typ]; auto;
    rewrite -(core_undecorate t'); destruct (undecorate_typ t'); try done; cbn [core_typ].
  - intros [= ->%bool_decide_eq_true]. done.
  - intros (b & Hb & [-> Ht]%qand_yes)%qbind_inv. f_equal; [|by apply IHt].
    apply vec_eq_yes in Hb. clear -Hb H. induction Hb; inversion H; subst; cbn; [done|]. f_equal; auto.
  - intros [->%bool_decide_eq_true Hb%vec_eq_yes]%qand_yes. f_equal.
    clear -Hb H. induction Hb; inversion H; subst; cbn; [done|]. f_equal; auto.
  - intros [= He]. by apply def_eq_some in He as [->%String.eqb_eq _].
  - intros [= ->%bool_decide_eq_true]. done.
Qed.

(** ** Sorted fields *)

Lemma insert_field_map {A B} (g : A → B) (p : Ident * A) l :
  insert_field (p.1, g p.2) (map (λ q, (q.1, g q.2)) l) = map (λ q, (q.1, g q.2)) (insert_field p l).
Proof. induction l as [|q l IH]; cbn; [done|]. destruct (String.leb p.1 q.1); cbn; [done|]. by rewrite IH. Qed.
Lemma sort_fields_map {A B} (g : A → B) (l : list (Ident * A)) :
  sort_fields (map (λ q, (q.1, g q.2)) l) = map (λ q, (q.1, g q.2)) (sort_fields l).
Proof. unfold sort_fields. induction l as [|p l IH]; cbn; [done|]. by rewrite IH insert_field_map. Qed.

Lemma insert_field_Forall2 {A B} (R : A → B → Prop) (p : Ident * A) (q : Ident * B) l r :
  p.1 = q.1 → R p.2 q.2 → Forall2 (λ p q, p.1 = q.1 ∧ R p.2 q.2) l r →
  Forall2 (λ p q, p.1 = q.1 ∧ R p.2 q.2) (insert_field p l) (insert_field q r).
Proof.
  intros Hn HR H. induction H as [|p' q' l r [Hn' HR'] H IH]; cbn; [by repeat constructor|].
  rewrite -Hn -Hn'. destruct (String.leb p.1 p'.1); by repeat constructor.
Qed.
Lemma sort_fields_Forall2 {A B} (R : A → B → Prop) (l : list (Ident * A)) (r : list (Ident * B)) :
  Forall2 (λ p q, p.1 = q.1 ∧ R p.2 q.2) l r →
  Forall2 (λ p q, p.1 = q.1 ∧ R p.2 q.2) (sort_fields l) (sort_fields r).
Proof.
  unfold sort_fields. induction 1 as [|p q l r [Hn HR] H IH]; cbn; [constructor|]. by apply insert_field_Forall2.
Qed.

(** A computation on each field, before or after sorting. *)
Definition on_field {A B} (f : A → option B) (p : Ident * A) : option (Ident * B) := pair p.1 <$> f p.2.
Lemma mapM_sort_fields {A B} (f : A → option B) l :
  mapM (on_field f) (sort_fields l) = sort_fields <$> mapM (on_field f) l.
Proof.
  destruct (mapM (on_field f) l) as [fs|] eqn:E; cbn.
  - apply mapM_Some_2. apply mapM_Some_1 in E.
    assert (H : Forall2 (λ p q, p.1 = q.1 ∧ f p.2 = Some q.2) l fs).
    { eapply Forall2_impl; [exact E|]. by intros [n x] [m y] (z & Hz & [= -> ->])%fmap_Some. }
    apply (sort_fields_Forall2 (λ x y, f x = Some y)) in H. eapply Forall2_impl; [exact H|].
    intros [n x] [m y] [Hn Hf]. cbn in *. subst. unfold on_field. cbn. by rewrite Hf.
  - apply eq_None_not_Some. intros Hs%mapM_is_Some. rewrite sort_fields_perm in Hs.
    apply mapM_is_Some in Hs. rewrite E in Hs. by destruct Hs.
Qed.

(** ** Expressions *)

Lemma mapM_Forall2_eq {A A' B : Type} (f : A → option B) (g : A' → option B) l r :
  Forall2 (λ x y, f x = g y) l r → mapM f l = mapM g r.
Proof. induction 1 as [|x y l r H _ IH]; cbn; [done|]. rewrite H. destruct (g y); cbn; [|done]. by rewrite IH. Qed.
Lemma union_map_Forall2 {A A' : Type} (f : A → gset VarIdent) (g : A' → gset VarIdent) l r :
  Forall2 (λ x y, f x = g y) l r → ⋃ map f l = ⋃ map g r.
Proof. induction 1 as [|x y l r H _ IH]; cbn; [done|]. by rewrite H IH. Qed.
Lemma union_map_perm {A : Type} (f : A → gset VarIdent) l r : l ≡ₚ r → ⋃ map f l = ⋃ map f r.
Proof.
  intros H. apply set_eq. intros x. rewrite !elem_of_union_list. setoid_rewrite list_elem_of_fmap.
  by setoid_rewrite H.
Qed.

Section sound.
Context `{L : InterpLaws}.
Local Abbreviation plain := (plain B (arch ctx) false).

Definition agree (l r : Exp) : Prop := (∀ φ ρ, den φ l ρ = den φ r ρ) ∧ fv l = fv r.
Definition differ (l r : Exp) : Prop := ∀ φ ρ v w, den φ l ρ = Some v → den φ r ρ = Some w → v ≠ w.

Lemma agree_den es es' : Forall2 agree es es' → ∀ φ ρ, mapM (λ e, den φ e ρ) es = mapM (λ e, den φ e ρ) es'.
Proof. intros H φ ρ. apply mapM_Forall2_eq. eapply Forall2_impl; [exact H|]. intros x y [Hd _]. apply Hd. Qed.
Lemma agree_fv es es' : Forall2 agree es es' → ⋃ map fv es = ⋃ map fv es'.
Proof. intros H. apply union_map_Forall2. eapply Forall2_impl; [exact H|]. by intros x y [_ Hd]. Qed.

(** A constructor through its sorted fields. *)
Lemma den_ctor φ ρ sp t d c bs :
  den φ (mkExp sp t (ExpX_Ctor d c bs)) ρ
  = fs ← mapM (on_field (λ a, den φ a ρ)) (sorted_ctor_fields bs);
    if decide (map fst fs = field_names d c) then Some (VCtor d c fs) else None.
Proof.
  cbn [den]. unfold sorted_ctor_fields. rewrite mapM_sort_fields.
  assert (E : mapM (λ b : Ast.BinderX Exp, let 'Ast.mkBinder n a := b in pair n <$> den φ a ρ) bs
    = mapM (on_field (λ a, den φ a ρ)) (map (λ b, (Ast.bname b, Ast.ba b)) bs)).
  { apply mapM_Forall2_eq. induction bs as [|[n a] bs IH]; cbn; by constructor. }
  rewrite E. by destruct (mapM _ (map _ bs)).
Qed.
Lemma den_ctor_inv φ ρ sp t d c bs v : den φ (mkExp sp t (ExpX_Ctor d c bs)) ρ = Some v →
  ∃ fs, mapM (on_field (λ a, den φ a ρ)) (sorted_ctor_fields bs) = Some fs ∧ v = VCtor d c fs.
Proof. rewrite den_ctor. intros (fs & Hfs & Hv)%bind_Some. case_decide; [|done]. injection Hv as <-. by exists fs. Qed.
Lemma fv_ctor sp t d c bs : fv (mkExp sp t (ExpX_Ctor d c bs)) = ⋃ map (λ p, fv p.2) (sorted_ctor_fields bs).
Proof.
  cbn [fv]. unfold sorted_ctor_fields. rewrite (union_map_perm _ _ _ (sort_fields_perm _)) map_map.
  f_equal. apply map_ext. by intros [n a].
Qed.
Lemma plain_ctor sp t d c bs : plain (mkExp sp t (ExpX_Ctor d c bs)) →
  map fst (sorted_ctor_fields bs) = field_names d c ∧ Forall (λ p, plain p.2) (sorted_ctor_fields bs).
Proof.
  intros [Hn Hp%allP_Forall]. unfold sorted_ctor_fields. split.
  - rewrite -Hn /ctor_names.
    pose proof (sort_fields_map (λ _ : Exp, ()) (map (λ b, (Ast.bname b, Ast.ba b)) bs)) as E.
    rewrite map_map in E. cbn in E. rewrite E map_map. by apply map_ext.
  - rewrite sort_fields_perm Forall_map. eapply Forall_impl; [exact Hp|]. by intros [n a].
Qed.

Lemma constant_eq_sound l r b : constant_eq l r = Some b → b = bool_decide (const l = const r).
Proof.
  intros H. symmetry. destruct l, r; try done; cbn in H; injection H as <-; cbn [const].
  - destruct (Bool.eqb_spec b0 b1) as [->|Hn]; [by rewrite bool_decide_true|].
    apply bool_decide_false. by intros ?%VBool_inj.
  - destruct (Z.eqb_spec i i0) as [->|Hn]; [by rewrite bool_decide_true|].
    apply bool_decide_false. by intros ?%VInt_inj.
  - destruct (String.eqb_spec s s0) as [->|Hn]; [by rewrite bool_decide_true|].
    apply bool_decide_false. intros ?%const_val_inj; congruence.
  - destruct (decide (bytes = bytes0)) as [->|Hn]; [by rewrite !bool_decide_true|]. rewrite (bool_decide_false (bytes = bytes0)) //. apply bool_decide_false. intros ?%const_val_inj; congruence.
  - destruct (N.eqb_spec c c0) as [->|Hn]; [by rewrite bool_decide_true|].
    apply bool_decide_false. intros ?%const_val_inj; congruence.
Qed.

Lemma unary_opr_eq_sound l r b : unary_opr_eq l r = Ok (Some b) → ∀ v, unary_opr l v = unary_opr r v.
Proof.
  destruct l, r; try done; cbn [unary_opr_eq].
  - intros (b' & Hb & [= H])%qbind_inv v. apply def_eq_some in H as [-> ->]. cbn [unary_opr].
    by apply typ_syntactic_eq_core in Hb as ->.
  - intros [= H] v. apply def_eq_some in H as [[->%bool_decide_eq_true ->%String.eqb_eq]%andb_true_iff _]. done.
  - intros [= H] v. apply def_eq_some in H as [->%bool_decide_eq_true _]. done.
Qed.

Context (not_a_seq : Span → Typ → Message) (ptr_eq : Exp → Exp → bool).

(** What an answer of [syntactic_eq] says. *)
Definition answers (m : res fuel_error (option bool)) (l r : Exp) : Prop :=
  (yes m → agree l r) ∧ (no m → differ l r).

Section node.
Variable syn : Exp → Exp → res fuel_error (option bool).
Hypothesis Hsyn : ∀ l r, plain l → plain r → answers (syn l r) l r.

Lemma vec_agree ls rs : Forall plain ls → Forall plain rs → yes (vec_eq syn ls rs) → Forall2 agree ls rs.
Proof using Hsyn.
  intros Hl Hr H%vec_eq_yes. induction H as [|x y ls rs Hx _ IH]; [constructor|].
  apply Forall_cons in Hl as [? ?], Hr as [? ?]. constructor; [|by apply IH]. by apply Hsyn.
Qed.
Lemma vec_differ ls rs φ ρ vs ws : Forall plain ls → Forall plain rs → no (vec_eq syn ls rs) →
  mapM (λ e, den φ e ρ) ls = Some vs → mapM (λ e, den φ e ρ) rs = Some ws → vs ≠ ws.
Proof using Hsyn.
  intros Hl Hr [Hn|(i & x & y & Hx & Hy & Hn)]%vec_eq_no Hvs%mapM_Some Hws%mapM_Some <-.
  - by rewrite (Forall2_length _ _ _ Hvs) (Forall2_length _ _ _ Hws) in Hn.
  - destruct (Forall2_lookup_l _ _ _ _ _ Hvs Hx) as (v & Hv & Hdx).
    destruct (Forall2_lookup_l _ _ _ _ _ Hws Hy) as (w & Hw & Hdy).
    rewrite Hv in Hw. injection Hw as <-.
    rewrite Forall_lookup in Hl. rewrite Forall_lookup in Hr.
    by eapply (proj2 (Hsyn x y (Hl _ _ Hx) (Hr _ _ Hy)) Hn).
Qed.

Lemma call_answers sp t f o ts es sp' t' f' o' ts' es' :
  let l := mkExp sp t (ExpX_Call (CallFun_Fun f o) ts es) in
  let r := mkExp sp' t' (ExpX_Call (CallFun_Fun f' o') ts' es') in
  plain l → plain r → answers (exp_node_eq not_a_seq syn l r) l r.
Proof using Hsyn.
  intros l r; subst l r. intros Hl Hr. unfold exp_node_eq, answers; cbn [exp_x].
  assert (E : ∀ f (o : option (Fun * Typs)) ts, resolve_call f o ts = resolve_fun f o ts) by by intros ? [[? ?]|] ?.
  rewrite !E. cbn [plain] in Hl, Hr. rewrite allP_Forall in Hl. rewrite allP_Forall in Hr.
  destruct (resolve_fun f o ts) as [g us] eqn:Eg, (resolve_fun f' o' ts') as [g' us'] eqn:Eg'.
  destruct (_ && _) eqn:Hb; [|done]. apply andb_true_iff in Hb as [[->%bool_decide_eq_true Hts]%andb_true_iff _].
  split; intros (b & Hb & [= H])%qbind_inv; apply def_eq_some in H as [-> ?]; [|done].
  apply (vec_agree _ _ Hl Hr) in Hb. split.
  - intros φ ρ. cbn [den]. rewrite (agree_den _ _ Hb) Eg Eg'. by apply n_types_equal_erase in Hts as ->.
  - by apply agree_fv.
Qed.

Lemma ctor_answers sp t d c bs sp' t' d' c' bs' :
  let l := mkExp sp t (ExpX_Ctor d c bs) in let r := mkExp sp' t' (ExpX_Ctor d' c' bs') in
  plain l → plain r → answers (exp_node_eq not_a_seq syn l r) l r.
Proof using Hsyn.
  intros l r; subst l r. intros [Hn Hl]%plain_ctor [Hn' Hr]%plain_ctor. unfold exp_node_eq, answers; cbn [exp_x].
  destruct (_ || _) eqn:Hb.
  { split; [done|]. intros _ φ ρ v w (fs & _ & ->)%den_ctor_inv (fs' & _ & ->)%den_ctor_inv E.
    apply VCtor_inj in E as (-> & -> & _). by rewrite bool_decide_true // String.eqb_refl in Hb. }
  apply orb_false_iff in Hb as [->%negb_false_iff%bool_decide_eq_true ->%negb_false_iff%String.eqb_eq].
  split; intros (b & Hb & H)%qbind_inv; destruct b; simplify_eq.
  - clear H. apply binders_fold_yes in Hb as [_ Hb].
    2: { apply (f_equal length) in Hn, Hn'. rewrite !length_map in Hn, Hn'. congruence. }
    assert (Ha : Forall2 (λ p q, p.1 = q.1 ∧ agree p.2 q.2) (sorted_ctor_fields bs) (sorted_ctor_fields bs')).
    { clear Hn Hn'. induction Hb as [|p q fs fs' [Hpq Hs] _ IH]; [constructor|].
      apply Forall_cons in Hl as [? ?], Hr as [? ?]. constructor; [|by apply IH]. split; [done|]. by apply Hsyn. }
    split.
    + intros φ ρ. rewrite !den_ctor. erewrite mapM_Forall2_eq; [done|]. eapply Forall2_impl; [exact Ha|].
      intros [n x] [m y] [Hnm [Hd _]]. cbn in *. unfold on_field. cbn. by rewrite Hnm Hd.
    + rewrite !fv_ctor. apply union_map_Forall2. eapply Forall2_impl; [exact Ha|]. by intros p q [_ [_ ?]].
  - exfalso. unfold def_eq in H. by destruct (undecorated_equal _ _).
  - intros φ ρ v w (fs & Hfs & ->)%den_ctor_inv (fs' & Hfs' & ->)%den_ctor_inv E.
    apply VCtor_inj in E as (_ & _ & <-). apply mapM_Some in Hfs, Hfs'.
    apply binders_fold_no in Hb as [?|(i & n & x & m & y & Hx & Hy & Hor)]; [done|].
    destruct (Forall2_lookup_l _ _ _ _ _ Hfs Hx) as ([k v] & Hv & (? & Hdx & [= -> ->])%fmap_Some).
    destruct (Forall2_lookup_l _ _ _ _ _ Hfs' Hy) as ([k' v'] & Hv' & (? & Hdy & [= -> ->])%fmap_Some).
    rewrite Hv in Hv'. simplify_eq/=. destruct Hor as [?|Hno]; [done|].
    rewrite Forall_lookup in Hl. rewrite Forall_lookup in Hr.
    by eapply (proj2 (Hsyn x y (Hl _ _ Hx) (Hr _ _ Hy)) Hno).
Qed.

Lemma if_answers sp t c x y sp' t' c' x' y' :
  let l := mkExp sp t (ExpX_If c x y) in let r := mkExp sp' t' (ExpX_If c' x' y') in
  plain l → plain r → answers (exp_node_eq not_a_seq syn l r) l r.
Proof using Hsyn.
  intros l r; subst l r. intros (Hc & Hx & Hy) (Hc' & Hx' & Hy'). unfold exp_node_eq, answers; cbn [exp_x].
  destruct (definitely (syn c c')) as [[]|e|] eqn:Ec; cbn [rbind]; try done.
  apply definitely_yes, (proj1 (Hsyn _ _ Hc Hc')) in Ec as [Hdc Hfc].
  split; intros (b1 & H1 & (b2 & H2 & [= H])%qbind_inv)%qbind_inv;
    destruct b1, b2; simplify_eq/=.
  - apply (proj1 (Hsyn _ _ Hx Hx')) in H1 as [Hdx Hfx]. apply (proj1 (Hsyn _ _ Hy Hy')) in H2 as [Hdy Hfy].
    split; [|cbn [fv]; by rewrite Hfc Hfx Hfy].
    intros φ ρ. cbn [den]. by rewrite Hdc Hdx Hdy.
  - apply (proj2 (Hsyn _ _ Hx Hx')) in H1. apply (proj2 (Hsyn _ _ Hy Hy')) in H2.
    intros φ ρ v w. cbn [den]. rewrite Hdc. destruct (den φ c' ρ) as [u|]; cbn; [|done].
    destruct (to_bool u) as [[]|]; cbn; [apply H1|apply H2|done].
Qed.

Lemma bind_env_names {A A' : Type} (bs : VarBinders A) (bs' : VarBinders A') (vs : list V) (ρ : gmap VarIdent V) :
  binder_names bs = binder_names bs' → bind_env bs vs ρ = bind_env bs' vs ρ.
Proof. intros H. unfold bind_env. by rewrite H. Qed.
Lemma var_binder_names {A A' : Type} (R : A → A' → Prop) (bs : VarBinders A) (bs' : VarBinders A') :
  Forall2 (λ p q, p.1 = q.1 ∧ R p.2 q.2) (var_binder_pairs bs) (var_binder_pairs bs') →
  binder_names bs = binder_names bs'.
Proof.
  unfold var_binder_pairs. rewrite Forall2_fmap. unfold binder_names.
  induction 1 as [|x y l l' [H _] _ IH]; [done|]. cbn in *. by rewrite H IH.
Qed.

Lemma lambda_agree sp t s bs ts e sp' t' s' bs' ts' e' : binder_names bs = binder_names bs' → agree e e' →
  agree (mkExp sp t (ExpX_Bind s (BndX_Lambda bs ts) e)) (mkExp sp' t' (ExpX_Bind s' (BndX_Lambda bs' ts') e')).
Proof using L.
  intros Hn [Hd Hf]. split; [|cbn [fv]; by rewrite Hn Hf]. intros φ ρ. cbn [den fv]. rewrite Hn Hf.
  case_decide; [|done]. f_equal. apply law_lambda_ext; [done|]. intros vs.
  by rewrite Hd (bind_env_names bs bs').
Qed.
Lemma let_agree sp t s n a e sp' t' s' a' e' : agree a a' → agree e e' →
  agree (mkExp sp t (ExpX_Bind s (BndX_Let [mkVarBinder n a]) e))
    (mkExp sp' t' (ExpX_Bind s' (BndX_Let [mkVarBinder n a']) e')).
Proof.
  intros [Hda Hfa] [Hd Hf]. split; [|cbn [fv map]; by rewrite Hfa Hf].
  intros φ ρ. cbn [den mapM]. rewrite Hda. destruct (den φ a' ρ); cbn; [|done]. apply Hd.
Qed.

Lemma bind_answers sp t s b e sp' t' s' b' e' :
  let l := mkExp sp t (ExpX_Bind s b e) in let r := mkExp sp' t' (ExpX_Bind s' b' e') in
  plain l → plain r → answers (exp_node_eq not_a_seq syn l r) l r.
Proof using Hsyn L.
  intros l r; subst l r. cbn [plain]. unfold exp_node_eq; cbn [exp_x].
  destruct b as [bs|q bs ts lo|bs ts|bs ts c]; try done; intros [Hb He];
    destruct b' as [bs'|q' bs' ts' lo'|bs' ts'|bs' ts' c']; try done; intros [Hb' He'];
    try apply plain_source with (src := false) in He; try apply plain_source with (src := false) in He';
    unfold answers; (split; intros (b1 & H1 & (b2 & H2 & [= H])%qbind_inv)%qbind_inv;
      apply def_eq_some in H as [-> ?]; [|done]);
    apply qand_yes in H2 as [-> H2]; apply (proj1 (Hsyn _ _ He He')) in H2; cbn [bnd_syntactic_eq] in H1.
  - apply qbind_inv in H1 as (b & H1 & [= H1']). apply def_eq_some in H1' as [-> _].
    destruct bs as [|[n a] [|]], bs' as [|[n' a'] [|]]; try done. destruct Hb as [_ Ha], Hb' as [_ Ha'].
    apply var_binders_eq_yes in H1. cbn in H1. apply Forall2_cons in H1 as [[Hn H1] _]. cbn in Hn, H1. subst n'.
    apply let_agree; [|done]. by apply Hsyn.
  - apply conservative_yes in H1 as [H1 _]. apply var_binders_eq_yes in H1. apply lambda_agree; [|done].
    exact (var_binder_names (λ x y, yes (typ_syntactic_eq x y)) _ _ H1).
Qed.

(** Answers that can only be [Some(true)]. *)
Lemma answers_def m l r : (yes m → agree l r) → (∀ b, m = Ok (Some b) → b = true) → answers m l r.
Proof. intros H1 H2. split; [done|]. by intros ?%H2. Qed.
Lemma answers_def_eq b l r : (b = true → agree l r) → answers (Ok (def_eq b)) l r.
Proof. intros H. destruct b; split; try done. by intros _; apply H. Qed.
Lemma qbind_def_eq (m : res fuel_error (option bool)) b :
  qbind m (λ b, Ok (def_eq b)) = Ok (Some b) → yes m ∧ b = true.
Proof. intros (b' & Hm & [= H])%qbind_inv. by apply def_eq_some in H as [-> ->]. Qed.

Lemma call_lambda_answers sp t e es sp' t' e' es' :
  let l := mkExp sp t (ExpX_CallLambda e es) in let r := mkExp sp' t' (ExpX_CallLambda e' es') in
  plain l → plain r → answers (exp_node_eq not_a_seq syn l r) l r.
Proof using Hsyn.
  intros l r; subst l r. cbn [plain]. rewrite !allP_Forall. intros [He Hes] [He' Hes'].
  unfold exp_node_eq; cbn [exp_x].
  assert (H : ∀ b, qbind (conservative (syn e e')) (λ b, qand b (conservative (vec_eq syn es es'))) = Ok (Some b) →
    b = true ∧ yes (syn e e') ∧ yes (vec_eq syn es es')).
  { intros b (b1 & [H1 ->]%conservative_yes & H2)%qbind_inv. by apply conservative_yes in H2 as [? ->]. }
  apply answers_def; [|by intros b [-> _]%H]. intros (_ & H1 & H2)%H.
  apply (proj1 (Hsyn _ _ He He')) in H1 as [Hd Hf]. apply (vec_agree _ _ Hes Hes') in H2.
  split; [intros φ ρ; cbn [den]; by rewrite Hd (agree_den _ _ H2)|]. cbn [fv]. by rewrite Hf (agree_fv _ _ H2).
Qed.

Lemma unary_core op t t' v : core_typ t = core_typ t' → unary op t v = unary op t' v.
Proof. intros H. unfold unary. by rewrite H. Qed.

Lemma unary_answers sp t op e sp' t' op' e' :
  let l := mkExp sp t (ExpX_Unary op e) in let r := mkExp sp' t' (ExpX_Unary op' e') in
  plain l → plain r → answers (exp_node_eq not_a_seq syn l r) l r.
Proof using Hsyn.
  intros l r; subst l r. cbn [plain]. intros [_ Hl] [_ Hr]. apply answers_def; unfold exp_node_eq; cbn [exp_x]; [|by intros b [_ ->]%qbind_def_eq].
  intros [[[->%bool_decide_eq_true Hc%undecorated_equal_core]%andb_true_iff H]%qand_yes _]%qbind_def_eq.
  apply (proj1 (Hsyn _ _ Hl Hr)) in H as [Hd Hf]. split; [|done]. intros φ ρ. cbn [den]. rewrite Hd.
  destruct (den φ e' ρ); cbn; [|done]. by apply unary_core.
Qed.
Lemma unary_opr_answers sp t op e sp' t' op' e' :
  let l := mkExp sp t (ExpX_UnaryOpr op e) in let r := mkExp sp' t' (ExpX_UnaryOpr op' e') in
  plain l → plain r → answers (exp_node_eq not_a_seq syn l r) l r.
Proof using Hsyn.
  intros l r; subst l r. cbn [plain]. intros Hl Hr. unfold exp_node_eq; cbn [exp_x]. apply answers_def.
  - intros (b & Ho & [[-> H]%qand_yes _]%qbind_def_eq)%qbind_inv.
    apply (proj1 (Hsyn _ _ Hl Hr)) in H as [Hd Hf]. split; [|done]. intros φ ρ. cbn [den]. rewrite Hd.
    destruct (den φ e' ρ); cbn; [|done]. by eapply unary_opr_eq_sound.
  - by intros b (b' & _ & [_ ->]%qbind_def_eq)%qbind_inv.
Qed.
Lemma binary_answers sp t op e1 e2 sp' t' op' e1' e2' :
  let l := mkExp sp t (ExpX_Binary op e1 e2) in let r := mkExp sp' t' (ExpX_Binary op' e1' e2') in
  plain l → plain r → answers (exp_node_eq not_a_seq syn l r) l r.
Proof using Hsyn.
  intros l r; subst l r. intros (_ & Hl1 & Hl2) (_ & Hr1 & Hr2). unfold exp_node_eq; cbn [exp_x]. apply answers_def.
  - intros (b & H1 & [[-> H2]%qand_yes _]%qbind_def_eq)%qbind_inv.
    apply qand_yes in H1 as [->%bool_decide_eq_true H1].
    apply (proj1 (Hsyn _ _ Hl1 Hr1)) in H1 as [Hd1 Hf1]. apply (proj1 (Hsyn _ _ Hl2 Hr2)) in H2 as [Hd2 Hf2].
    split; [|cbn [fv]; by rewrite Hf1 Hf2]. intros φ ρ. cbn [den]. by rewrite Hd1 Hd2.
  - by intros b (b' & _ & [_ ->]%qbind_def_eq)%qbind_inv.
Qed.
Lemma interp_answers sp t i sp' t' i' :
  let l := mkExp sp t (ExpX_Interp i) in let r := mkExp sp' t' (ExpX_Interp i') in
  plain l → plain r → answers (exp_node_eq not_a_seq syn l r) l r.
Proof using Hsyn.
  intros l r; subst l r. unfold exp_node_eq; cbn [exp_x]. destruct i, i'; try done; cbn [plain].
  - intros _ _. apply answers_def_eq. by intros ->%bool_decide_eq_true.
  - rewrite !allP_Forall. intros [_ Hl] [_ Hr]. split.
    + intros H%vec_agree; [|done..]. split; [|done].
      intros φ ρ. cbn [den]. by rewrite (agree_den _ _ H).
    + intros Hn φ ρ u w. cbn [den]. intros (vs & Hvs & ->)%fmap_Some (ws & Hws & ->)%fmap_Some E%VSeq_inj.
      exact (vec_differ _ _ φ φ vs ws Hl Hr Hn Hvs Hws E).
Qed.

Lemma node_answers l r : plain l → plain r → answers (exp_node_eq not_a_seq syn l r) l r.
Proof using Hsyn L.
  intros Hl Hr. destruct l as [sp t y], r as [sp' t' y'].
  assert (Hno : exp_node_eq not_a_seq syn (mkExp sp t y) (mkExp sp' t' y') = Ok None →
    answers (exp_node_eq not_a_seq syn (mkExp sp t y) (mkExp sp' t' y')) (mkExp sp t y) (mkExp sp' t' y')) by by intros ->.
  destruct y; destruct y'; try (by apply Hno); try (by destruct f; apply Hno);
    try (by destruct i; apply Hno); try (by destruct bnd; apply Hno).
  all: clear Hno; try (by apply if_answers); try (by apply ctor_answers); try (by apply bind_answers);
    try (by apply call_lambda_answers); try (by apply unary_answers); try (by apply unary_opr_answers);
    try (by apply binary_answers); try (by apply interp_answers).
  all: cbn [plain] in Hl, Hr; unfold exp_node_eq; cbn [exp_x].
  - destruct (constant_eq c c0) as [b|] eqn:E; [|done]. apply constant_eq_sound in E as ->. split.
    + intros [= H%bool_decide_eq_true]. split; [intros φ ρ; cbn [den]; by rewrite H|done].
    + intros [= H%bool_decide_eq_false] φ ρ v w [= <-] [= <-]. done.
  - apply answers_def_eq. by intros ->%bool_decide_eq_true.
  - apply answers_def_eq. by intros ->%bool_decide_eq_true.
  - apply answers_def_eq. by intros [->%bool_decide_eq_true ->%bool_decide_eq_true]%andb_true_iff.
  - apply answers_def_eq. by intros [->%String.eqb_eq ->%bool_decide_eq_true]%andb_true_iff.
  - destruct f, f0; try done. by apply call_answers.
  - split; intros H; [|by apply (proj2 (Hsyn _ _ Hl Hr))]. by apply (proj1 (Hsyn _ _ Hl Hr)) in H as [? ?].
Qed.
End node.

Hypothesis ptr_eq_sound : ∀ l r, ptr_eq l r = true → l = r.

Lemma syn_fuel_answers fuel l r : plain l → plain r → answers (syn_fuel not_a_seq ptr_eq fuel l r) l r.
Proof using ptr_eq_sound L.
  revert l r. induction fuel as [|fuel IH]; intros l r Hl Hr; cbn [syn_fuel]; [done|].
  destruct (ptr_eq l r) eqn:E; [|by apply node_answers]. apply ptr_eq_sound in E as ->. by split.
Qed.
Lemma syntactic_eq_answers l r : plain l → plain r → answers (syntactic_eq not_a_seq ptr_eq l r) l r.
Proof using ptr_eq_sound L. apply syn_fuel_answers. Qed.
Lemma definitely_eq_agree l r : plain l → plain r → definitely_eq not_a_seq ptr_eq l r = Ok true → agree l r.
Proof using ptr_eq_sound L. intros Hl Hr H%definitely_yes. by apply (proj1 (syntactic_eq_answers l r Hl Hr)). Qed.
Lemma syntactic_eq_exps_agree ls rs : Forall plain ls → Forall plain rs →
  definitely (syntactic_eq_exps not_a_seq ptr_eq ls rs) = Ok true → Forall2 agree ls rs.
Proof using ptr_eq_sound L.
  intros Hl Hr H%definitely_yes. unfold syntactic_eq_exps in H. apply vec_agree in H; [done| |done..].
  intros l r. apply syntactic_eq_answers.
Qed.
End sound.
