(* ===== verification/InterpInv.v ===== *)
(** * The invariant of the interpreter

    First, restoring an expression keeps its value: what [cleanup_exp] and [seq_to_sst]
    return has the value of what they are given, when the hidden variables have the values
    that the variables of the same names have.  Then what the cache and the environments
    of a state stand for, which the evaluation keeps. *)

From S2P Require Import Prelude StateRes VirMessages VirAst VirAstUtil Sst SstSemantics SstUtil.
From S2P Require Import InterpSynt InterpState InterpEval InterpTerm InterpSem InterpSynFacts.
From S2P Require Ast ScopeMap.
Set Warnings "-rewrite-rw,-register-all,-clear-no-such-hyp".

Section clean.
Context `{L : InterpLaws}.
Local Abbreviation plain := (plain B (arch ctx)).

Lemma agree_refl e : agree e e.
Proof. done. Qed.

(** [e'] has the value of [e], where the hidden variables are among the variables and
    are not bound anywhere. *)
Definition preserves (e e' : Exp) : Prop := ∀ (φ ρ : gmap VarIdent V) v,
  φ ⊆ ρ → dom φ ## B → den φ e ρ = Some v → den φ e' ρ = Some v.

Lemma preserves_refl e : preserves e e.
Proof. by intros φ ρ v. Qed.
Lemma preserves_list (es es' : list Exp) (φ ρ : gmap VarIdent V) vs : Forall2 preserves es es' → φ ⊆ ρ → dom φ ## B →
  mapM (λ e, den φ e ρ) es = Some vs → mapM (λ e, den φ e ρ) es' = Some vs.
Proof.
  intros H Hs Hd. revert vs. induction H as [|e e' es es' He _ IH]; intros vs; cbn; [done|].
  intros (v & Hv & (ws & Hws & [= <-])%bind_Some)%bind_Some.
  rewrite (He φ ρ v Hs Hd Hv). cbn. by rewrite (IH ws Hws).
Qed.

Lemma bind_env_hidden {A : Type} (bs : VarBinders A) (vs : list V) (φ ρ : gmap VarIdent V) :
  list_to_set (binder_names bs) ⊆ B → φ ⊆ ρ → dom φ ## B → φ ⊆ bind_env bs vs ρ.
Proof.
  intros Hb Hs Hd. apply map_subseteq_spec. intros x v Hx. unfold bind_env. rewrite lookup_union_r; [|by eapply lookup_weaken].
  apply not_elem_of_list_to_map_1. intros Hin. apply (Hd x); [by apply elem_of_dom|]. apply Hb, elem_of_list_to_set.
  apply list_elem_of_fmap in Hin as ([y w] & -> & Hin). by apply elem_of_zip_l in Hin.
Qed.

(** ** What a visitor rebuilds *)

(** Expressions of the program, whose lambdas must keep their value in every environment. *)
Definition same_source (e e' : Exp) : Prop := plain true e → plain true e' ∧ agree e e'.

(** What holds of the parts of an expression that has been rebuilt. *)
Section parts.
Context (src : bool) (R Q : Exp → Exp → Prop).
Hypothesis HR : ∀ e e', R e e' → plain src e → plain true e' ∧ Q e e'.
Lemma parts_list es es' : Forall2 R es es' → allP (plain src) es → allP (plain true) es' ∧ Forall2 Q es es'.
Proof using HR.
  rewrite !allP_Forall. induction 1 as [|e e' es es' He _ IH]; [by split; constructor|].
  intros [Hp Hps]%Forall_cons. destruct (HR _ _ He Hp) as [Hp' Ha], (IH Hps) as [Hps' Has]. by split; constructor.
Qed.
Lemma parts_binders (bs bs' : Ast.Binders Exp) : Forall2 (rebuilt_binder R) bs bs' →
  allP (λ b, let 'Ast.mkBinder _ a := b in plain src a) bs →
  allP (λ b, let 'Ast.mkBinder _ a := b in plain true a) bs' ∧ Forall2 (rebuilt_binder Q) bs bs'.
Proof using HR.
  rewrite !allP_Forall. induction 1 as [|[n e] [m e'] es es' [Hn He] _ IH]; [by split; constructor|].
  intros [Hp Hps]%Forall_cons. destruct (HR _ _ He Hp) as [Hp' Ha], (IH Hps) as [Hps' Has]. by split; constructor.
Qed.
End parts.
Lemma rebuilt_binder_names R (bs bs' : Ast.Binders Exp) : Forall2 (rebuilt_binder R) bs bs' →
  map (λ b, (Ast.bname b, ())) bs = map (λ b, (Ast.bname b, ())) bs'.
Proof. induction 1 as [|b b' bs bs' [Hn _] _ IH]; [done|]. cbn. by rewrite Hn IH. Qed.

Lemma agree_ctor sp t d c bs bs' : Forall2 (rebuilt_binder agree) bs bs' →
  agree (mkExp sp t (ExpX_Ctor d c bs)) (mkExp sp t (ExpX_Ctor d c bs')).
Proof.
  intros H. split.
  - intros φ ρ. cbn [den]. erewrite mapM_Forall2_eq; [done|]. eapply Forall2_impl; [exact H|].
    intros [n a] [m b] [Hn [Hd _]]. cbn in *. by rewrite Hn Hd.
  - cbn [fv]. apply union_map_Forall2. eapply Forall2_impl; [exact H|]. by intros [n a] [m b] [_ [_ Hf]].
Qed.

(** One node with equal parts. *)
Ltac agree_node :=
  repeat match goal with
  | H : agree _ _ |- _ => destruct H as [? ?]
  | H : Forall2 agree _ _ |- _ => pose proof (agree_den _ _ H); pose proof (agree_fv _ _ H); clear H
  end;
  split; [intros ? ?; cbn [den]|cbn [fv]];
  repeat match goal with H : _ |- _ => rewrite H end; done.

Lemma rebuilt_source e e' : rebuilt_exp same_source e e' → same_source e e'.
Proof using L.
  destruct e as [sp t y], e' as [sp' t' y']. intros (Hs & Ht & H). cbn in Hs, Ht, H. subst sp' t'.
  intros Hp. destruct H; cbn [InterpSem.plain] in Hp |- *;
    repeat match goal with
    | H : Forall2 same_source _ _ |- _ => apply (parts_list true same_source agree) in H as [? ?]; [|by intros ? ? HR; apply HR|by destruct_and?]
    | H : _ ∧ _ |- _ => destruct H
    | H : same_source _ _ |- _ => destruct H as [? ?]; [by destruct_and?|]
    end; try done; try (split; [by auto|]; agree_node).
  - apply (parts_binders true same_source agree) in H as [? ?]; [|by intros ? ? HR; apply HR|done].
    split; [|by apply agree_ctor]. by rewrite -(rebuilt_binder_names agree bs bs').
  - destruct H; try done; destruct Hp as [Hb He].
    + destruct H as [|[n a] [m a'] bs bs' [Hn Ha] H]; [done|]. destruct bs; [|done]. inversion H; subst.
      cbn in Hn, Ha. subst m. destruct Hb as [Hb Hpa], (Ha Hpa) as [? ?], (H0 He) as [? ?].
      split; [done|]. by apply let_agree.
    + destruct (H0 He) as [? ?]. split; [done|]. by eapply lambda_agree.
Qed.

(** The other expressions: none of the interpreter's values is left. *)
Definition restored (e e' : Exp) : Prop := same_source e e' ∧ (plain false e → plain true e' ∧ preserves e e').
Lemma plain_weaken src e : plain src e → plain false e.
Proof. destruct src; [apply plain_source|done]. Qed.

Lemma preserves_ctor sp t d c bs bs' : Forall2 (rebuilt_binder preserves) bs bs' →
  preserves (mkExp sp t (ExpX_Ctor d c bs)) (mkExp sp t (ExpX_Ctor d c bs')).
Proof.
  intros H φ ρ v Hs Hd. cbn [den]. apply bind_mono; [|done]. intros fs.
  revert fs. induction H as [|[n e] [m e'] bs bs' [Hn He] _ IH]; intros fs; [done|]. cbn in Hn, He |- *. subst m.
  intros (w & (u & Hu & ->)%fmap_Some & (ws & Hws & [= <-])%bind_Some)%bind_Some.
  rewrite (He φ ρ u Hs Hd Hu). cbn. by rewrite (IH _ Hws).
Qed.

(** One node whose parts keep their values. *)
Ltac preserves_node :=
  intros φ ρ v Hs Hd; cbn [den];
  repeat (apply bind_mono; [|intros ? ?]);
  match goal with
  | H : preserves ?e ?e' |- ∀ _, den _ ?e _ = _ → _ => intros ?; by apply H
  | H : preserves ?e ?e' |- den _ ?e _ = _ → _ => by apply H
  | H : Forall2 preserves ?es ?es' |- ∀ _, mapM _ ?es = _ → _ => intros ?; by apply preserves_list
  | |- _ => done
  end.

Lemma let_preserves sp t s n a e a' e' : n ∈ B → preserves a a' → preserves e e' →
  preserves (mkExp sp t (ExpX_Bind s (BndX_Let [mkVarBinder n a]) e))
    (mkExp sp t (ExpX_Bind s (BndX_Let [mkVarBinder n a']) e')).
Proof.
  intros Hn Ha He φ ρ v Hs Hd. cbn [den mapM]. apply bind_mono.
  - intros vs. apply bind_mono; [|done]. intros w. by apply Ha.
  - intros vs w. rewrite (bind_env_names _ [mkVarBinder n a']) //. apply He; [|done]. apply bind_env_hidden; [|done..].
    cbn. set_solver.
Qed.

Lemma if_preserves sp t c x y c' x' y' : preserves c c' → preserves x x' → preserves y y' →
  preserves (mkExp sp t (ExpX_If c x y)) (mkExp sp t (ExpX_If c' x' y')).
Proof.
  intros Hc Hx Hy φ ρ v Hs Hd. cbn [den].
  apply bind_mono; [intros u; by apply Hc|]. intros u w. apply bind_mono; [done|].
  intros [] z; [by apply Hx|by apply Hy].
Qed.

Lemma rebuilt_preserves e e' : rebuilt_exp restored e e' → (∀ i, exp_x e' ≠ ExpX_Interp i) →
  plain false e → plain true e' ∧ preserves e e'.
Proof using L.
  destruct e as [sp t y], e' as [sp' t' y']. intros (Hs & Ht & H). cbn in Hs, Ht, H. subst sp' t'.
  intros Hi Hp. destruct H; cbn [InterpSem.plain] in Hp |- *;
    repeat match goal with
    | H : Forall2 restored _ _ |- _ =>
      apply (parts_list false restored preserves) in H as [? ?]; [|by intros ? ? HR; apply HR|by destruct_and?]
    | H : _ ∧ _ |- _ => destruct H
    | H : restored _ _ |- _ => destruct H as [? H]
    | H : plain false ?e → _ |- _ => destruct H as [? ?]; [by destruct_and?|]
    end; try done; try (split; [by auto|]; preserves_node).
  - destruct x; try done; try (by split; [|apply preserves_refl]). by edestruct Hi.
  - apply (parts_binders false restored preserves) in H as [? ?]; [|by intros ? ? HR; apply HR|done].
    split; [|by apply preserves_ctor]. by rewrite -(rebuilt_binder_names preserves bs bs').
  - split; [by auto|]. destruct op. preserves_node.
  - split; [by auto|]. by apply if_preserves.
  - destruct H; try done; destruct Hp as [Hb He].
    + destruct H as [|[n a] [m a'] bs bs' [Hn Ha] H]; [done|]. destruct bs; [|done]. inversion H; subst.
      cbn in Hn, Ha. subst m. destruct Hb as [Hb Hpa]. destruct (proj2 Ha Hpa) as [? ?], (H0 He) as [? ?].
      split; [done|]. by apply let_preserves.
    + destruct (H1 He) as [? Hag]. split; [done|]. intros φ ρ v _ _ Hv. rewrite -Hv. symmetry.
      by apply lambda_agree.
Qed.

(** ** Sequences and arrays *)

Definition value_of (src : bool) (i : InterpExp Exp) (e : Exp) : Prop :=
  plain src e ∧ ∀ sp t, preserves (mkExp sp t (ExpX_Interp i)) e.

Section values.
Context (src : bool) (f : Exp → res interp_error Exp) (s : list Exp).
Hypothesis Hf : ∀ e e', e ∈ s → f e = Ok e' → plain false e → plain true e' ∧ preserves e e'.
Hypothesis Hs : Forall (plain src) s.

Lemma rmap_restored es : rmap f s = Ok es → Forall (plain true) es ∧ Forall2 preserves s es.
Proof using Hf Hs.
  clear L. rewrite rmap_Forall2. intros H. induction H as [|e e' s' es He H IH]; [by split; constructor|].
  apply Forall_cons in Hs as [Hp Hps]. apply plain_weaken in Hp. destruct (Hf e e') as [? ?]; [left|done..|].
  destruct IH as [? ?]; [|done|by split; constructor]. intros x y Hx. apply Hf. by right.
Qed.

(** What the elements of an interpreter value mean where the hidden variables are in scope. *)
Lemma hidden_up (es : list Exp) (φ ρ : gmap VarIdent V) vs : Forall (plain false) es → φ ⊆ ρ →
  mapM (λ e, den φ e φ) es = Some vs → mapM (λ e, den φ e ρ) es = Some vs.
Proof using.
  clear Hf Hs. intros Hp Hs. apply mapM_mono. eapply Forall_impl; [exact Hp|]. intros e He v. by apply (den_mono B (arch ctx) φ φ false e).
Qed.

Lemma array_to_sst_value sp t e : array_to_sst f sp t s = Ok e → value_of true (InterpExp_Array s) e.
Proof using Hf Hs.
  unfold array_to_sst. destruct (rmap f s) as [es| |] eqn:Es; cbn; [|done..]. intros [= <-].
  apply rmap_restored in Es as [Hp Hes]. split; [by apply allP_Forall|].
  intros sp' t' φ ρ v Hφ Hd. cbn [den]. intros (vs & Hvs & ->)%fmap_Some.
  rewrite (hidden_up es φ ρ vs); [by eapply Forall_impl; [exact Hp|intros x; apply plain_source]|done|by eapply preserves_list|done].
Qed.

Lemma seq_to_sst_value sp t e : seq_to_sst f sp t s = Ok e → value_of src (InterpExp_Seq s) e.
Proof using Hf Hs L.
  unfold seq_to_sst. destruct (length s <=? 1) eqn:Hl.
  - destruct s as [|a [|]]; [| |discriminate]; cbn [foldl]; intros [= <-].
    + split; [done|]. intros sp' t' φ ρ v _ _ [= <-]. cbn. apply law_empty.
    + apply Forall_cons in Hs as [Ha _]. split; [done|]. intros sp' t' φ ρ v Hφ _.
      cbn [den mapM]. intros (vs & Hvs & ->)%fmap_Some.
      apply bind_Some in Hvs as (w & Hw & [= <-]). cbn. rewrite law_empty. cbn.
      rewrite (den_mono B (arch ctx) φ φ src a (reflexivity _) Ha φ ρ w Hφ Hw). cbn.
      exact (law_push (erase_typ t) [] w).
  - destruct (cleanup_array f sp _ s) as [a| |] eqn:Ea; cbn; [|done..]. intros [= <-].
    apply array_to_sst_value in Ea as [Hp Ha]. split; [by split; [apply plain_source|]|]. intros sp' t' φ ρ v Hφ Hd.
    cbn [den mapM]. intros (vs & Hvs & ->)%fmap_Some.
    rewrite (Ha sp t φ ρ (VArray vs) Hφ Hd); [by cbn [den]; rewrite Hvs|]. cbn.
    apply mapM_Some in Hvs. rewrite (Forall2_length _ _ _ Hvs). apply law_view.
Qed.
End values.

(** ** [cleanup_exp] *)

Variable not_a_seq : Span → Typ → Message.
Local Abbreviation cleanup_rec := (cleanup_rec not_a_seq).

Definition restores (e e' : Exp) : Prop := shallower e e' ∧ restored e e'.

Lemma rgives_conj {A} (P Q : A → Prop) r : rgives P r → rgives Q r → rgives (λ x, P x ∧ Q x) r.
Proof. intros [? HP] [_ HQ]. split; auto. Qed.

Lemma cleanup_seq_value f sp t v e n : (∀ e, clean_depth e ≤ n → rgives (restores e) (f e)) →
  list_max (map clean_depth v) ≤ n → Forall (plain false) v → cleanup_seq not_a_seq f sp t v = Ok e →
  value_of true (InterpExp_Seq v) e.
Proof using L.
  intros Hf Hn Hv. destruct t; cbn [cleanup_seq]; try done.
  destruct (expect (ts !! 0)) as [t| |]; cbn; [|done..].
  destruct (rmap f v) as [es| |] eqn:Es; cbn; [|done..]. intros H.
  assert (Hr : ∀ e, e ∈ v → rgives (restores e) (f e)).
  { intros x Hx. apply Hf. apply (list_max_map_elem clean_depth) in Hx. lia. }
  pose proof (rgives_rmap restores f v Hr) as [_ Hes]. specialize (Hes _ Es).
  assert (Hle : list_max (map clean_depth es) ≤ n).
  { transitivity (list_max (map clean_depth v)); [|done]. apply list_max_map2. eapply Forall2_impl; [exact Hes|].
    by intros ? ? [? _]. }
  destruct (rmap_restored false f v) with es as [Hpes Hpres]; [|done..|].
  { intros x x' Hx Hfx. by apply (proj2 (Hr x Hx)). }
  destruct (seq_to_sst_value true f es) with sp t e as [Hp He]; [|done..|].
  { intros x x' Hx Hfx. apply (list_max_map_elem clean_depth) in Hx. apply (Hf x); [lia|done]. }
  split; [done|]. intros sp' t' φ ρ w Hs Hd Hw. apply (He sp' t' φ ρ w Hs Hd). cbn [den] in Hw |- *.
  apply fmap_Some in Hw as (vs & Hvs & ->). by rewrite (preserves_list v es φ φ vs).
Qed.

Lemma cleanup_rec_restores n e : clean_depth e ≤ n → gives IFuel (restores e) (cleanup_rec n e).
Proof using L.
  revert e. induction n as [|n IH]; intros e Hn.
  { destruct e. cbn [clean_depth] in Hn. lia. }
  assert (Hsh := cleanup_rec_gives not_a_seq (S n) e Hn).
  enough (Hre : gives IFuel (restored e) (cleanup_rec (S n) e)).
  { intros s. specialize (Hsh s). specialize (Hre s). unfold avoids in *. by destruct (cleanup_rec (S n) e s) as [[]| |]. }
  clear Hsh. cbn [InterpSynt.cleanup_rec]. eapply gives_bind.
  { apply (gives_visit_exp_rec _ _ _ _ restored); [intros t; by apply gives_ret|].
    intros e' He'. apply child_depth in He'. eapply gives_mono; [apply IH; lia|]. by intros ? [_ ?]. }
  intros e1 He1. apply gives_rgives. unfold cleanup_node.
  assert (Hf : ∀ e', clean_depth e' ≤ n →
    rgives (restores e') (rbind (cleanup_rec n e' ScopeMap.new) (λ '(e, _), Ok e))).
  { intros e' He'. by apply rgives_run, IH. }
  assert (Hok : (∀ i, exp_x e1 ≠ ExpX_Interp i) → rgives (restored e) (Ok e1)).
  { intros Hi. split; [done|]. intros e2 [= <-]. split; [|by apply rebuilt_preserves]. apply rebuilt_source.
    eapply rebuilt_mono; [|exact He1]. by intros ? ? [? _]. }
  destruct e as [sp t x], e1 as [sp1 t1 x1], He1 as (Hsp & Ht & Hx). cbn [exp_x exp_span exp_typ] in *. subst sp1 t1.
  destruct x1 as [| | | | | | | | | | | | | | | | | | | |i|]; try by apply Hok.
  inversion Hx; subst. clear Hok Hx.
  assert (Hval : ∀ e', (plain false (mkExp sp t (ExpX_Interp i)) → value_of true i e') →
    restored (mkExp sp t (ExpX_Interp i)) e').
  { intros e' He'. split; [by intros [? _]|]. intros Hp. by destruct (He' Hp) as [? ?]. }
  destruct i as [y|v|c l|v].
  - split; [done|]. intros e2 [= <-]. apply Hval. intros _. unfold new_x. cbn [exp_span exp_typ]. split; [by case_decide|].
    intros sp' t' φ ρ w Hs _ Hw. cbn [den] in Hw. eapply lookup_weaken in Hs; [|exact Hw].
    case_decide as Hy; cbn [den const_generic]; [|done]. unfold typ_param_var. destruct y. cbn in *. by subst.
  - cbn [clean_depth] in Hn. split.
    + apply (cleanup_seq_gives not_a_seq _ sp t v n); [|lia]. intros e' He'.
      eapply rgives_mono; [by apply Hf|]. by intros ? [? _].
    + intros e' He'. apply Hval. intros [_ Hp]. eapply (cleanup_seq_value _ sp t v e' n); [exact Hf|lia| |done].
      by apply allP_Forall.
  - by split.
  - cbn [clean_depth] in Hn. split.
    + apply array_to_sst_gives. intros e' He'. eapply rgives_mono; [apply Hf|by intros ? [? _]].
      apply (list_max_map_elem clean_depth) in He'. lia.
    + intros e' He'. apply Hval. intros [_ Hp]. eapply array_to_sst_value; [| |exact He'].
      * intros x x' Hx Hfx. apply (list_max_map_elem clean_depth) in Hx. apply (Hf x); [lia|done].
      * by apply allP_Forall.
Qed.

Lemma cleanup_exp_restores e e' : cleanup_exp not_a_seq e = Ok e' → plain false e → plain true e' ∧ preserves e e'.
Proof using L.
  intros He. apply (rgives_run (restores e) (cleanup_rec (clean_depth e) e) ScopeMap.new); [|exact He].
  by apply cleanup_rec_restores.
Qed.
Lemma seq_to_sst_restores sp t s e : seq_to_sst (cleanup_exp not_a_seq) sp t s = Ok e → Forall (plain false) s →
  value_of false (InterpExp_Seq s) e.
Proof using L.
  intros He Hs. eapply seq_to_sst_value; [|exact Hs|exact He]. intros x x' _. apply cleanup_exp_restores.
Qed.
End clean.

(** ** The invariant of the interpreter

    [means η e r]: wherever the variables of the environment [η] have the values of the
    expressions that it gives them and the others those of the hidden variables, if [e]
    has a value then [r] has that value. *)

Local Open Scope st_scope.

(** ** The environment *)

Section env.
Context {K : Type} `{Countable K} {A : Type}.
Implicit Types m t : ScopeMap.ScopeMap K A.

Definition env_wf m : Prop := ∃ fs, ScopeMap.represents m fs.

Lemma env_wf_new : env_wf ScopeMap.new.
Proof. exists []. by split. Qed.

Lemma env_insert_frames m f fs x v t : ScopeMap.represents m (f :: fs) → env_insert m x v = Ok t →
  ∃ f', ScopeMap.represents t (f' :: fs) ∧ ScopeMap.map t = <[x := v]> (ScopeMap.map m)
    ∧ dom (ScopeMap.items f') = {[x]} ∪ dom (ScopeMap.items f) ∧ x ∉ dom (ScopeMap.items f).
Proof.
  intros Hr. unfold env_insert. destruct (ScopeMap.insert_sm m x v) as [[[] m']| |] eqn:E; try done. intros [= ->].
  destruct (ScopeMap.insert_represents _ _ _ _ _ _ Hr E) as (Hr' & Hn & _). exists (ScopeMap.frame_insert f x v).
  split; [done|]. split; [|cbn; rewrite dom_insert_L; split; [done|by apply not_elem_of_dom]].
  destruct Hr as [-> _], Hr' as [-> _]. cbn. by rewrite fmap_insert insert_union_l.
Qed.

Lemma env_insert_all_frames l : ∀ m f fs t, ScopeMap.represents m (f :: fs) → env_insert_all m l = Ok t →
  ∃ f', ScopeMap.represents t (f' :: fs) ∧ ScopeMap.map t = list_to_map l ∪ ScopeMap.map m ∧ NoDup l.*1
    ∧ list_to_set l.*1 ## dom (ScopeMap.items f).
Proof.
  unfold env_insert_all. induction l as [|[x v] l IH]; intros m f fs t Hr; cbn.
  { intros [= <-]. exists f. rewrite left_id_L. split; [done|]. split; [done|]. split; [constructor|set_solver]. }
  destruct (env_insert m x v) as [m1|e|] eqn:E; cbn.
  - destruct (env_insert_frames _ _ _ _ _ _ Hr E) as (f1 & Hr1 & Hm1 & Hd1 & Hx). intros Ht.
    destruct (IH _ _ _ _ Hr1 Ht) as (f' & Hr' & Hm & Hnd & Hdis). exists f'. split; [done|].
    rewrite Hd1 in Hdis. split; [|split; [constructor; [set_solver|done]|set_solver]].
    rewrite Hm Hm1 -insert_union_r; [|by rewrite insert_union_l].
    apply not_elem_of_list_to_map_1. set_solver.
  - intros Ht. exfalso. clear -Ht. by induction l.
  - intros Ht. exfalso. clear -Ht. by induction l.
Qed.

Lemma env_insert_all_spec m l t : env_wf m → env_insert_all (ScopeMap.push_scope m true) l = Ok t →
  env_wf t ∧ ScopeMap.map t = list_to_map l ∪ ScopeMap.map m ∧ NoDup l.*1.
Proof.
  intros [fs Hr] Ht. apply (ScopeMap.push_represents _ _ true) in Hr as Hr'.
  destruct (env_insert_all_frames _ _ _ _ _ Hr' Ht) as (f' & Hr1 & Hm & Hnd & _). split; [by eexists|].
  by rewrite Hm.
Qed.

(** A scope with one name, and back. *)
Lemma env_scope m x v t : env_wf m → env_insert (ScopeMap.push_scope m true) x v = Ok t →
  env_wf t ∧ ScopeMap.map t = <[x := v]> (ScopeMap.map m) ∧ env_pop t = Ok m.
Proof.
  intros [fs Hr] Ht. apply (ScopeMap.push_represents _ _ true) in Hr as Hr'.
  destruct (env_insert_frames _ _ _ _ _ _ Hr' Ht) as (f' & [-> Hok] & Hm & _). split; [by eexists|].
  split; [by rewrite Hm|]. unfold env_pop. rewrite ScopeMap.concrete_pop //. by destruct Hr as [-> _].
Qed.
End env.

(** ** Values under an environment *)

Section inv.
Context `{L : InterpLaws}.
Local Abbreviation plain := (plain B (arch ctx)).
Implicit Types (η : gmap VarIdent Exp) (φ σ : gmap VarIdent V).

(** The hidden variables: those free at the start, and the const generics. *)
Definition hidden φ : Prop := ρ0 ⊆ φ ∧ dom φ ## B.

Definition env_den η φ σ : Prop := ∀ x, match η !! x with
  | Some e => ∃ v, den φ e φ = Some v ∧ σ !! x = Some v
  | None => σ !! x = φ !! x
  end.

Definition means η (e r : Exp) : Prop := ∀ φ σ v, hidden φ → env_den η φ σ → den φ e σ = Some v → den φ r φ = Some v.

Definition env_ok η : Prop := dom η ⊆ B ∧ map_Forall (λ _ e, plain false e) η.

Lemma env_den_hidden η φ σ : env_ok η → hidden φ → env_den η φ σ → φ ⊆ σ.
Proof.
  intros [HB _] [_ Hd] Hσ. apply map_subseteq_spec. intros x v Hx. specialize (Hσ x).
  destruct (η !! x) as [e|] eqn:E; [|by rewrite Hσ]. exfalso. apply (Hd x); [by apply elem_of_dom|].
  apply HB. by apply elem_of_dom.
Qed.
Lemma env_den_empty φ : env_den ∅ φ φ.
Proof. intros x. by rewrite lookup_empty. Qed.
Lemma env_den_insert η φ σ x e v : env_den η φ σ → den φ e φ = Some v → env_den (<[x := e]> η) φ (<[x := v]> σ).
Proof.
  intros Hσ Hv y. destruct (decide (y = x)) as [->|Hn].
  - rewrite !lookup_insert_eq. by exists v.
  - rewrite !lookup_insert_ne //. apply Hσ.
Qed.
Lemma env_ok_insert η x e : env_ok η → x ∈ B → plain false e → env_ok (<[x := e]> η).
Proof. intros [HB Hp] Hx He. split; [rewrite dom_insert; set_solver|by apply map_Forall_insert_2]. Qed.
Lemma env_ok_empty : env_ok ∅.
Proof. split; [set_solver|apply map_Forall_empty]. Qed.

(** Several bindings at once. *)
Lemma env_den_union η φ σ (xs : list VarIdent) es vs : env_den η φ σ → mapM (λ e, den φ e φ) es = Some vs →
  env_den (list_to_map (zip xs es) ∪ η) φ (list_to_map (zip xs vs) ∪ σ).
Proof.
  intros Hσ Hvs%mapM_Some. revert xs. induction Hvs as [|e v es vs Hv _ IH]; intros [|x xs]; cbn; rewrite ?left_id_L //.
  rewrite -!insert_union_l. by apply env_den_insert.
Qed.
Lemma env_ok_union η (xs : list VarIdent) es : env_ok η → list_to_set xs ⊆ B → Forall (plain false) es →
  env_ok (list_to_map (zip xs es) ∪ η).
Proof.
  intros Hη Hx He. revert xs Hx. induction He as [|e es He _ IH]; intros [|x xs] Hx; cbn; rewrite ?left_id_L //.
  rewrite -insert_union_l. cbn in Hx. apply env_ok_insert; [apply IH| |done]; set_solver.
Qed.
Lemma env_den_bindings φ (l : list (VarIdent * Exp)) c :
  mapM (λ p, let '(k, a) := p in pair k <$> den φ a φ) l = Some c → env_den (list_to_map l) φ (list_to_map c ∪ φ).
Proof.
  intros Hc%mapM_Some. induction Hc as [|[x e] [y v] l c Hx _ IH]; cbn.
  { rewrite left_id_L. apply env_den_empty. }
  apply fmap_Some in Hx as (w & Hw & [= -> ->]). rewrite -insert_union_l. by apply env_den_insert.
Qed.
Lemma env_ok_bindings (l : list (VarIdent * Exp)) :
  allP (λ p, let '(x, a) := p in x ∈ B ∧ plain false a) l → env_ok (list_to_map l).
Proof.
  rewrite allP_Forall. induction 1 as [|[x e] l [Hx He] _ IH]; cbn; [apply env_ok_empty|]. by apply env_ok_insert.
Qed.

(** An environment as the list of its entries. *)
Lemma env_den_entries η φ σ : env_den η φ σ →
  ∃ c, mapM (λ p, let '(k, a) := p in pair k <$> den φ a φ) (map_to_list η) = Some c ∧ list_to_map c ∪ φ = σ.
Proof.
  intros Hσ.
  assert (Hc : ∃ c, mapM (λ p, let '(k, a) := p in pair k <$> den φ a φ) (map_to_list η) = Some c).
  { apply mapM_is_Some. apply Forall_forall. intros [x e] Hx%elem_of_map_to_list. specialize (Hσ x). rewrite Hx in Hσ.
    destruct Hσ as (v & Hv & _). cbn. rewrite Hv. by eexists. }
  destruct Hc as [c Hc]. exists c. split; [done|]. pose proof (env_den_bindings φ _ c Hc) as Hd.
  rewrite list_to_map_to_list in Hd. apply map_eq. intros x. specialize (Hσ x). specialize (Hd x).
  destruct (η !! x); [|by rewrite Hd]. destruct Hσ as (v & Hv & ->), Hd as (w & Hw & ->). congruence.
Qed.

(** A value does not depend on what is not hidden. *)
Lemma den_up e φ σ v : φ ⊆ σ → plain false e → den φ e φ = Some v → den φ e σ = Some v.
Proof. intros Hs Hp. by apply (den_mono B (arch ctx) φ φ false e). Qed.

(** ** The state *)

Definition entry_ok (f : Fun) (k : CallKey) (r : Exp) : Prop :=
  Forall (plain false) (key_args k) ∧ plain false r ∧ ∀ φ vs v, hidden φ →
    mapM (λ a, den φ a φ) (key_args k) = Some vs → fun_val f (map erase_typ (key_typs k)) vs = Some v →
    den φ r φ = Some v.
Definition cache_ok (c : gmap Fun (list (CallKey * Exp))) : Prop :=
  ∀ f l k r, c !! f = Some l → (k, r) ∈ l → entry_ok f k r.

Record Inv (s : State) : Prop := {
  inv_wf : env_wf (env s);
  inv_env : env_ok (ScopeMap.map (env s));
  inv_cache : cache_ok (cache s);
  inv_simplified : enable_simplified_cache s = false
}.

(** What the evaluation of [e] gives, and what it leaves. *)
Definition good (s s' : State) : Prop := Inv s' ∧ env s' = env s.
Definition result (s : State) (e r : Exp) (s' : State) : Prop :=
  good s s' ∧ plain false r ∧ means (ScopeMap.map (env s)) e r.

Lemma good_refl s : Inv s → good s s.
Proof. done. Qed.
Lemma good_trans s s' s'' : good s s' → good s' s'' → good s s''.
Proof. intros [_ He] [Hi He']. split; [done|by rewrite He' He]. Qed.
Lemma good_inv s s' : good s s' → Inv s'.
Proof. by intros []. Qed.

(** Changes that the invariant does not see. *)
Definition unseen (f : State → State) : Prop := ∀ s, env (f s) = env s ∧ cache (f s) = cache s
  ∧ enable_simplified_cache (f s) = enable_simplified_cache s.
Lemma unseen_good f s s' : unseen f → good s s' → good s (f s').
Proof.
  intros Hf [[H1 H2 H3 H4] He]. destruct (Hf s') as (Ee & Ec & Es). split; [|by rewrite Ee].
  by split; rewrite ?Ee ?Ec ?Es.
Qed.
Lemma unseen_iterations f : unseen (set_iterations f). Proof. by intros []. Qed.
Lemma unseen_depth f : unseen (set_depth f). Proof. by intros []. Qed.
Lemma unseen_msgs f : unseen (set_msgs f). Proof. by intros []. Qed.
Lemma unseen_count_cache b : unseen (count_cache b). Proof. by intros []; destruct b. Qed.
Lemma unseen_count_ptr b : unseen (count_ptr b). Proof. by intros []; destruct b. Qed.
Lemma unseen_count_call f : unseen (count_call f). Proof. by intros []. Qed.
End inv.
Create HintDb interp.
#[export] Hint Resolve unseen_iterations unseen_depth unseen_msgs unseen_count_cache unseen_count_ptr
  unseen_count_call : interp.
