(* ===== verification/InterpOps.v ===== *)
(** * The operators in the interpreter are sound

    Each case of [eval_expr_internal] for a variable, a constant, an operator or a
    conditional keeps the invariant and returns an expression with the meaning of the
    expression evaluated, if [eval] does. *)

From S2P Require Import Prelude StateRes VirMessages VirAst VirAstUtil Sst SstSemantics SstUtil.
From S2P Require Import InterpSynt InterpState InterpEval InterpTerm InterpSem InterpSynFacts.
From S2P Require Import InterpInv.
From S2P Require Ast ScopeMap.
Set Warnings "-rewrite-rw,-register-all,-clear-no-such-hyp".
Local Open Scope st_scope.

Section ops.
Context `{L : InterpLaws}.
Variable not_a_seq : Span → Typ → Message.
Variable ptr_eq : Exp → Exp → bool.
Hypothesis ptr_eq_sound : ∀ l r, ptr_eq l r = true → l = r.
Variable oc : bool.
Variable eval : Exp → st State interp_error Exp.
Local Abbreviation plain := (plain B (arch ctx)).
Local Abbreviation Inv := (Inv (ctx := ctx) (B := B) (ρ0 := ρ0)).
Local Abbreviation good := (good (ctx := ctx) (B := B) (ρ0 := ρ0)).
Local Abbreviation result := (result (ctx := ctx) (B := B) (ρ0 := ρ0)).
Local Abbreviation means := (means (B := B) (ρ0 := ρ0)).
Local Abbreviation hidden := (hidden (B := B) (ρ0 := ρ0)).
Hypothesis Heval : ∀ e s, Inv s → plain false e → yields (eval e) s (result s e).
Implicit Types (η : gmap VarIdent Exp) (φ σ : gmap VarIdent V).

(** ** Steps *)

Section steps.
Variable s0 : State.
Local Abbreviation η := (ScopeMap.map (env s0)).

Lemma result_from s e r s' : good s0 s → result s e r s' → result s0 e r s'.
Proof using. intros Hs [Hg H]. split; [by eapply good_trans|]. by destruct Hs as [_ <-]. Qed.

Lemma yields_eval {A} s e (k : Exp → st State interp_error A) Q : good s0 s → plain false e →
  (∀ r s', good s0 s' → plain false r → means η e r → yields (k r) s' Q) → yields (sbind (eval e) k) s Q.
Proof using Heval.
  intros Hs He Hk. apply yields_bind. eapply yields_mono; [by apply Heval; [eapply good_inv|]|].
  intros r s' Hr. apply (result_from _ _ _ _ Hs) in Hr as (Hg & Hp & Hm). by apply Hk.
Qed.
Lemma yields_eval_end s e exp : good s0 s → plain false e → (∀ r, plain false r → means η e r → means η exp r) →
  yields (eval e) s (result s0 exp).
Proof using Heval.
  intros Hs He Hk. eapply yields_mono; [by apply Heval; [eapply good_inv|]|].
  intros r s' Hr. apply (result_from _ _ _ _ Hs) in Hr as (Hg & Hp & Hm). split; [done|]. auto.
Qed.
Lemma yields_done s exp r : good s0 s → plain false r → means η exp r → yields (sret (E := interp_error) r) s (result s0 exp).
Proof using. intros. by apply yields_ret. Qed.
Lemma yields_unseen {A} s f (k : st State interp_error A) Q : good s0 s → unseen f →
  (∀ s', good s0 s' → yields k s' Q) → yields (smodify f;! k) s Q.
Proof using. intros Hs Hf Hk. apply yields_bind, yields_modify, Hk. by apply unseen_good. Qed.
Lemma yields_warning {A} s sp a n (k : st State interp_error A) Q : good s0 s →
  (∀ s', good s0 s' → yields k s' Q) → yields (ctx_warning ctx sp a n;! k) s Q.
Proof using.
  intros Hs Hk. unfold ctx_warning. destruct (current_fun ctx) as [f|].
  - destruct (fun_warn_configs ctx !! f); [|by apply yields_bind, yields_panic].
    apply yields_unseen; [done|apply unseen_msgs|done].
  - apply yields_unseen; [done|apply unseen_msgs|done].
Qed.
Lemma yields_lifts {A C} s (m : res interp_error A) (k : A → st State interp_error C) Q :
  (∀ x, m = Ok x → yields (k x) s Q) → yields (sbind (lifts m) k) s Q.
Proof using. intros Hk. by apply yields_bind, yields_lift. Qed.

Lemma yields_evals {A} s es (k : list Exp → st State interp_error A) Q : good s0 s → Forall (plain false) es →
  (∀ rs s', good s0 s' → Forall (plain false) rs → Forall2 (means η) es rs → yields (k rs) s' Q) →
  yields (sbind (smap eval es) k) s Q.
Proof using Heval.
  intros Hs Hes Hk. apply yields_bind.
  apply (yields_smap _ (good s0) (λ e r, plain false r ∧ means η e r)); [done| |].
  - intros e s1 He Hs1. rewrite Forall_forall in Hes. eapply yields_mono; [by apply Heval; [eapply good_inv|apply Hes]|].
    intros r s2 Hr. by apply (result_from _ _ _ _ Hs1) in Hr as (Hg & Hp & Hm).
  - intros rs s1 Hrs Hs1. apply Hk; [done| |by eapply Forall2_impl; [exact Hrs|intros ? ? []]].
    eapply Forall2_Forall_r; [exact Hrs|]. apply Forall_true. by intros ? ? [].
Qed.

Lemma means_list es rs φ σ vs : Forall2 (means η) es rs → hidden φ → env_den η φ σ →
  mapM (λ e, den φ e σ) es = Some vs → mapM (λ e, den φ e φ) rs = Some vs.
Proof using.
  intros H Hφ Hσ. revert vs. induction H as [|e r es rs He _ IH]; intros vs; cbn; [done|].
  intros (v & Hv & (ws & Hws & [= <-])%bind_Some)%bind_Some. rewrite (He φ σ v Hφ Hσ Hv). cbn. by rewrite (IH ws Hws).
Qed.
End steps.

(** ** Constants *)

Lemma as_bool_const e b : as_bool e = Some b → exp_x e = ExpX_Const (Constant_Bool b).
Proof using. unfold as_bool. destruct (exp_x e) as [[]| | | | | | | | | | | | | | | | | | | | |]; try done. by intros [= ->]. Qed.
Lemma as_int_const e i : as_int e = Some i → exp_x e = ExpX_Const (Constant_Int i).
Proof using. unfold as_int. destruct (exp_x e) as [[]| | | | | | | | | | | | | | | | | | | | |]; try done. by intros [= ->]. Qed.
Lemma den_const e c φ : exp_x e = ExpX_Const c → den φ e φ = Some (const c).
Proof using. destruct e. cbn [exp_x]. by intros ->. Qed.
Lemma den_as_bool e b φ v : as_bool e = Some b → den φ e φ = Some v → v = VBool b.
Proof using. intros H%as_bool_const. rewrite (den_const _ _ _ H). by intros [= <-]. Qed.
Lemma den_as_int e i φ v : as_int e = Some i → den φ e φ = Some v → v = VInt i.
Proof using. intros H%as_int_const. rewrite (den_const _ _ _ H). by intros [= <-]. Qed.
Lemma plain_const sp t c : plain false (mkExp sp t (ExpX_Const c)).
Proof using. done. Qed.

(** ** Unary operators *)

Section unary.
Variables (s0 : State) (sp : Span) (t : Typ) (op : UnaryOp) (e e1 : Exp).
Local Abbreviation η := (ScopeMap.map (env s0)).
Local Abbreviation exp := (mkExp sp t (ExpX_Unary op e)).
Hypothesis Hop : unary_plain op.
Hypothesis Hp1 : plain false e1.
Hypothesis Hm1 : means η e e1.

Lemma unary_means r : (∀ φ v w, den φ e1 φ = Some v → unary op t v = Some w → den φ r φ = Some w) → means η exp r.
Proof using Hm1.
  intros H φ σ v Hφ Hσ (u & Hu & Hv)%bind_Some. eapply H; [|exact Hv]. by apply (Hm1 φ σ).
Qed.
Lemma unary_kept s : good s0 s → yields (node_new exp (ExpX_Unary op e1)) s (result s0 exp).
Proof using Hop Hp1 Hm1.
  intros Hs. apply yields_done; [done|by split|]. apply unary_means. intros φ v w Hv Hw. cbn [den]. by rewrite Hv.
Qed.

(** A constant operand. *)
Lemma unary_const c r s : exp_x e1 = ExpX_Const c → good s0 s → plain false r →
  (∀ φ w, unary op t (const c) = Some w → den φ r φ = Some w) → yields (sret (E := interp_error) r) s (result s0 exp).
Proof using Hm1.
  intros Hc Hs Hr H. apply yields_done; [done..|]. apply unary_means. intros φ v w Hv Hw. rewrite (den_const _ _ _ Hc) in Hv.
  injection Hv as <-. by apply H.
Qed.

End unary.

(** The operand has been evaluated to [e1]. *)
Definition operand (s0 s : State) (op : UnaryOp) (e e1 : Exp) : Prop :=
  unary_plain op ∧ plain false e1 ∧ means (ScopeMap.map (env s0)) e e1 ∧ good s0 s.

Section cases.
Variables (s0 : State) (sp : Span) (t : Typ) (e e1 : Exp).
Local Abbreviation exp op := (mkExp sp t (ExpX_Unary op e)).

Lemma eval_unary_bool_sound op b s : operand s0 s op e e1 → exp_x e1 = ExpX_Const (Constant_Bool b) →
  yields (eval_unary_bool (exp op) op e1 b) s (result s0 (exp op)).
Proof using.
  intros (Hop & Hp & Hm & Hs) Hb. pose proof (unary_kept s0 sp t op e e1 Hop Hp Hm s Hs) as Hk.
  destruct op; try exact Hk; try apply yields_panic.
  eapply unary_const; [done|exact Hb|done..|]. intros φ w. cbn [unary const]. by rewrite to_bool_VBool.
Qed.

Section clip.
Variables (range : IntRange) (truncate : bool) (i : Z).
Local Abbreviation op := (UnaryOp_Clip range truncate).
Hypothesis Hi : exp_x e1 = ExpX_Const (Constant_Int i).

Lemma clip_in_range s : operand s0 s op e e1 → in_range word_bits range i = true →
  yields (sret (E := interp_error) (mkExp (exp_span e1) t (exp_x e1))) s (result s0 (exp op)).
Proof using Hi.
  intros (Hop & Hp & Hm & Hs) Hr. eapply unary_const; [done|exact Hi|done|by rewrite Hi|]. intros φ w.
  cbn [unary const]. rewrite to_int_VInt Hr Hi. by destruct (to_bool (VInt i)).
Qed.
Lemma clip_warned n s : operand s0 s op e e1 →
  yields (warn_unsimplified ctx (exp op) n;! node_new (exp op) (ExpX_Unary op e1)) s (result s0 (exp op)).
Proof using.
  intros (Hop & Hp & Hm & Hs). apply (yields_warning s0); [done|]. intros s' Hs'. by apply unary_kept.
Qed.
Lemma apply_range_sound lower upper s : operand s0 s op e e1 →
  ((i <? lower)%Z || (upper <? i)%Z = false → in_range word_bits range i = true) →
  yields (apply_range ctx (exp op) op e1 i lower upper) s (result s0 (exp op)).
Proof using Hi.
  intros Ho Hr. unfold apply_range. destruct (_ || _); [by apply clip_warned|]. apply clip_in_range; auto.
Qed.
End clip.

Lemma signed_range_in n r (z : Z) : n ≠ 0%N → signed_range oc n = Ok r →
  (z <? r.1)%Z || (r.2 <? z)%Z = false → in_signed_bits n z = true.
Proof using.
  intros Hn. unfold signed_range, pred_u32. destruct (N.eqb_spec n 0); [done|]. cbn. intros [= <-]. cbn.
  intros H. apply in_signed_bits_spec. lia.
Qed.
Lemma word_range (z : Z) : arch ctx = ArchWordBits_Either32Or64 → in_bits 32 z = true → in_bits word_bits z = true.
Proof using L.
  intros Ha. pose proof law_arch as H. rewrite Ha in H. rewrite !in_bits_spec. destruct H as [-> | ->]; lia.
Qed.
Lemma word_signed_range (z : Z) : arch ctx = ArchWordBits_Either32Or64 → in_signed_bits 32 z = true →
  in_signed_bits word_bits z = true.
Proof using L.
  intros Ha. pose proof law_arch as H. rewrite Ha in H. rewrite !in_signed_bits_spec. destruct H as [-> | ->]; lia.
Qed.

Lemma eval_clip_sound range truncate i s : operand s0 s (UnaryOp_Clip range truncate) e e1 →
  exp_x e1 = ExpX_Const (Constant_Int i) →
  yields (eval_clip oc ctx (exp (UnaryOp_Clip range truncate)) (UnaryOp_Clip range truncate) range e1 i) s
    (result s0 (exp (UnaryOp_Clip range truncate))).
Proof using L.
  clear Heval eval. intros Ho Hi. pose proof law_arch as Harch. pose proof law_bits as Hbits.
  destruct range as [| |n|n| | |]; cbn [eval_clip].
  - destruct Ho as (Hop & Hp & Hm & Hs). by apply unary_kept.
  - apply apply_range_sound; [done..|]. cbn. lia.
  - apply apply_range_sound; [done..|]. intros H. apply in_bits_spec. lia.
  - apply yields_lifts. intros r Hr. apply apply_range_sound; [done..|]. intros H. apply (signed_range_in n r i); [|done|done].
    destruct Ho as [Hop _]. by intros ->.
  - destruct (arch ctx) as [|n] eqn:Ea.
    + destruct (_ || _) eqn:H; [by apply clip_warned|]. apply apply_range_sound; [done..|]. intros _.
      apply word_range; [done|]. apply in_bits_spec. lia.
    + apply apply_range_sound; [done..|]. intros H. cbn in Harch. subst n. apply in_bits_spec. lia.
  - destruct (arch ctx) as [|n] eqn:Ea.
    + destruct (_ || _) eqn:H; [by apply clip_warned|]. apply apply_range_sound; [done..|]. intros _.
      apply word_signed_range; [done|]. apply in_signed_bits_spec. change (Z.of_N 32 - 1)%Z with 31%Z. lia.
    + cbn in Harch. subst n. apply yields_lifts. intros r Hr. apply apply_range_sound; [done..|].
      intros H. apply (signed_range_in word_bits r i); [lia|done|done].
  - destruct (valid_unicode_scalar_bigint i) eqn:Hv; cbn [negb]; [|by apply clip_warned]. by apply (clip_in_range IntRange_Char truncate i).
Qed.

Lemma eval_unary_int_sound op i s : operand s0 s op e e1 → exp_x e1 = ExpX_Const (Constant_Int i) →
  yields (eval_unary_int oc ctx (exp op) op e1 i) s (result s0 (exp op)).
Proof using L.
  intros Ho Hi. pose proof Ho as (Hop & Hp & Hm & Hs). pose proof (unary_kept s0 sp t op e e1 Hop Hp Hm s Hs) as Hk.
  destruct op as [|[w|]| | | | | | | | | | | | | | | | |]; try exact Hk; try apply yields_panic; cbn [eval_unary_int].
  - rewrite to_u128_spec. destruct (in_bits 128 i) eqn:Hb; [|exact Hk]. apply yields_lifts. intros [r|] Hr; [|exact Hk].
    eapply unary_const; [done|exact Hi|done..|]. intros φ w0. cbn [unary const]. rewrite to_int_VInt.
    apply (lnot_u128_eq _ _ word_bits law_arch) in Hr as ->; [|done]. by destruct (to_bool (VInt i)).
  - rewrite to_i128_spec. destruct (in_signed_bits 128 i); [|exact Hk].
    eapply unary_const; [done|exact Hi|done..|]. intros φ w0. cbn [unary const]. rewrite to_int_VInt.
    by destruct (to_bool (VInt i)).
  - by apply eval_clip_sound.
  - eapply unary_const; [done|exact Hi|done..|]. intros φ w0. cbn [unary]. rewrite (den_const _ _ _ Hi). cbn [const].
    rewrite to_int_VInt. by destruct (to_bool (VInt i)).
Qed.
End cases.

Lemma double_not t t' (v w : V) : unary UnaryOp_Not t v = Some w → unary UnaryOp_Not t' w = Some v.
Proof using.
  unfold unary. destruct (to_bool v) as [b|] eqn:E; [|done]. intros [= <-]. rewrite to_bool_VBool negb_involutive.
  by apply to_bool_spec in E as ->.
Qed.

Lemma eval_unary_sound sp t op e s : Inv s → plain false (mkExp sp t (ExpX_Unary op e)) →
  yields (eval_unary oc ctx eval (mkExp sp t (ExpX_Unary op e)) op e) s (result s (mkExp sp t (ExpX_Unary op e))).
Proof using Heval L.
  intros Hs [Hop He]. apply (yields_eval s); [done..|]. intros e1 s1 Hs1 Hp Hm.
  assert (Ho : operand s s1 op e e1) by done.
  assert (Hk : yields (node_new (mkExp sp t (ExpX_Unary op e)) (ExpX_Unary op e1)) s1
    (result s (mkExp sp t (ExpX_Unary op e)))) by by apply unary_kept.
  destruct (exp_x e1) as [c| | | | | | | | | | |op' e'| | | | | | | | | |] eqn:Ex; try exact Hk.
  - destruct c; try exact Hk; [by apply eval_unary_bool_sound|by apply eval_unary_int_sound].
  - destruct op'; try exact Hk. destruct op; try exact Hk. destruct e1 as [sp1 t1 x1]. cbn [exp_x] in Ex. subst x1.
    destruct Hp as [_ Hp]. apply yields_done; [done..|]. eapply unary_means; [exact Hm|]. intros φ v w Hv Hw.
    cbn [den] in Hv. apply bind_Some in Hv as (u & Hu & Hv). rewrite Hu. f_equal.
    apply (double_not t1 t) in Hv. congruence.
Qed.

(** ** Variables, constants, and expressions that stay as they are *)

Lemma kept_sound e s : Inv s → plain false e → (∀ φ σ, den φ e σ = den φ e φ) →
  yields (sret (E := interp_error) e) s (result s e).
Proof using. intros Hs Hp He. apply yields_done; [done..|]. intros φ σ v _ _ Hv. by rewrite -(He φ σ). Qed.

Lemma eval_var_sound sp t x s : Inv s → yields (eval_var (mkExp sp t (ExpX_Var x)) x) s (result s (mkExp sp t (ExpX_Var x))).
Proof using.
  intros Hs. apply yields_bind, yields_read. unfold ScopeMap.get.
  destruct (ScopeMap.map (env s) !! x) as [e|] eqn:Hx.
  - apply yields_done; [done| |]; [by apply (proj2 (inv_env s Hs) x)|].
    intros φ σ v _ Hσ Hv. specialize (Hσ x). rewrite Hx in Hσ. destruct Hσ as (w & Hw & Hσ). change (σ !! x = Some v) in Hv. by rewrite Hσ in Hv; simplify_eq.
  - apply yields_done; [done..|]. intros φ σ v _ Hσ Hv. specialize (Hσ x). rewrite Hx in Hσ. change (φ !! x = Some v). by rewrite -Hσ.
Qed.

Lemma eval_const_generic_sound sp t typ s : Inv s → plain false (mkExp sp t (ExpX_NullaryOpr (NullaryOpr_ConstGeneric typ))) →
  yields (eval_const_generic eval (mkExp sp t (ExpX_NullaryOpr (NullaryOpr_ConstGeneric typ))) typ) s
    (result s (mkExp sp t (ExpX_NullaryOpr (NullaryOpr_ConstGeneric typ)))).
Proof using Heval L.
  intros Hs Hp. set (exp := mkExp sp t _) in *.
  assert (Hkeep : ∀ s', good s s' → match typ with TypX_TypParam _ => False | _ => True end →
    yields (sret (E := interp_error) exp) s' (result s exp)).
  { intros s' Hs' Ht. apply yields_done; [done..|]. intros φ σ v _ _ Hv. rewrite -Hv. cbn [den exp]. by destruct typ. }
  destruct typ; try (by apply Hkeep); cbn [eval_const_generic].
  - apply yields_done; [done..|]. intros φ σ v Hφ Hσ Hv. change (σ !! typ_param_var x = Some v) in Hv.
    specialize (Hσ (typ_param_var x)). destruct (ScopeMap.map (env s) !! typ_param_var x) as [e|] eqn:Hx.
    2: { rewrite Hx in Hσ. change (φ !! typ_param_var x = Some v). by rewrite -Hσ. }
    exfalso. apply (law_bare x). apply (proj1 (inv_env s Hs)). by apply elem_of_dom.
  - assert (Hint : ∀ r v φ σ, int_range_from_type t = Some r → den φ exp σ = Some v →
      v = VInt (if in_range word_bits r i then i else clip_other r i)).
    { intros r v φ σ Hr Hv. cbn [den exp const_generic] in Hv. rewrite Hr in Hv. by injection Hv. }
    change (exp_typ exp) with t. destruct (int_range_from_type t) as [r|] eqn:Hr; [|by apply Hkeep].
    assert (Hgen : yields (let! value := eval (new_x exp (ExpX_Unary (UnaryOp_Clip r false) (new_x exp (ExpX_Const (Constant_Int i))))) in
      match as_int value with Some _ => sret value | None => sret exp end) s (result s exp)).
    { apply (yields_eval s); [done| |].
      { split; [|done]. cbn in Hp. by rewrite Hr in Hp. }
      intros v s' Hs' Hpv Hm. destruct (as_int v); [|by apply Hkeep]. apply yields_done; [done..|].
      intros φ σ w Hφ Hσ Hw. apply (Hm φ σ); [done..|]. apply (Hint r) in Hw as ->; [|done].
      cbn [den new_x exp_span exp_typ const mbind option_bind unary]. rewrite to_int_VInt. by destruct (to_bool (VInt i)). }
    destruct r; try exact Hgen. apply yields_done; [done..|]. intros φ σ w _ _ Hw. by apply (Hint IntRange_Int) in Hw as ->.
  - apply yields_done; [done..|]. intros φ σ v _ _ [= <-]. done.
Qed.

(** ** Fields, variants and other postfix operators *)

Lemma string_leb_refl n : String.leb n n = true.
Proof using. pose proof (String.leb_total n n) as [H|H]; exact H. Qed.
Lemma find_insert_field {A : Type} n (p : Ident * A) l :
  find (λ q, String.eqb q.1 n) (insert_field p l)
  = if String.eqb p.1 n then Some p else find (λ q, String.eqb q.1 n) l.
Proof using.
  destruct p as [k b]. induction l as [|[m a] l IH]; cbn; [done|]. destruct (String.leb k m) eqn:Hl; cbn; [done|].
  rewrite IH. cbn. destruct (String.eqb_spec k n) as [->|], (String.eqb_spec m n) as [->|]; try done.
  by rewrite string_leb_refl in Hl.
Qed.
Lemma find_sort_fields {A : Type} n (l : list (Ident * A)) :
  find (λ q, String.eqb q.1 n) (sort_fields l) = find (λ q, String.eqb q.1 n) l.
Proof using. induction l as [|p l IH]; [done|]. change (sort_fields (p :: l)) with (insert_field p (sort_fields l)).
  by rewrite find_insert_field IH. Qed.

Lemma find_binder_pairs n bs :
  find (λ q, String.eqb q.1 n) (map (λ b, (Ast.bname b, Ast.ba b)) bs) = pair n <$> find_binder n bs.
Proof using.
  unfold find_binder. induction bs as [|[m a] bs IH]; [done|]. cbn. destruct (String.eqb_spec m n) as [->|]; [done|].
  by rewrite IH.
Qed.

(** What a field of a constructor means. *)
Lemma find_field_den φ n bs fs a : mapM (on_field (λ a, den φ a φ)) (sorted_ctor_fields bs) = Some fs →
  find_binder n bs = Some a → ∃ v, den φ a φ = Some v ∧ find_field n fs = Some v.
Proof using.
  unfold sorted_ctor_fields, find_field. intros Hfs Ha. pose proof (find_binder_pairs n bs) as Hf. rewrite Ha /= in Hf.
  rewrite -find_sort_fields in Hf. revert fs Hfs Hf. induction (sort_fields _) as [|[m x] l IH]; intros fs; [done|].
  cbn. intros ((m' & y) & (w & Hw & [= -> ->])%fmap_Some & (gs & Hgs & [= <-])%bind_Some)%bind_Some. cbn.
  destruct (String.eqb_spec m n) as [->|]; [intros [= ->]; by exists w|]. by apply IH.
Qed.
Lemma plain_find_binder n bs a : allP (λ b, let 'Ast.mkBinder _ a := b in plain false a) bs → find_binder n bs = Some a →
  plain false a.
Proof using.
  rewrite allP_Forall. unfold find_binder. intros H. induction H as [|[m x] bs Hx _ IH]; [done|]. cbn.
  destruct (String.eqb m n); [by intros [= <-]|done].
Qed.
Lemma den_ctor_value φ e d c bs v : exp_x e = ExpX_Ctor d c bs → den φ e φ = Some v →
  ∃ fs, mapM (on_field (λ a, den φ a φ)) (sorted_ctor_fields bs) = Some fs ∧ v = VCtor d c fs.
Proof using. destruct e. cbn [exp_x]. intros ->. apply den_ctor_inv. Qed.

Section opr.
Variables (s0 : State) (sp : Span) (t : Typ) (op : UnaryOpr) (e e1 : Exp) (s : State).
Local Abbreviation η := (ScopeMap.map (env s0)).
Local Abbreviation exp := (mkExp sp t (ExpX_UnaryOpr op e)).
Hypothesis Hs : good s0 s.
Hypothesis Hp1 : plain false e1.
Hypothesis Hm1 : means η e e1.

Lemma opr_done r : plain false r →
  (∀ φ v w, den φ e1 φ = Some v → unary_opr op v = Some w → den φ r φ = Some w) →
  yields (sret (E := interp_error) r) s (result s0 exp).
Proof using Hs Hm1.
  intros Hr H. apply yields_done; [done..|]. intros φ σ v Hφ Hσ (u & Hu & Hv)%bind_Some. eapply H; [|exact Hv].
  by apply (Hm1 φ σ).
Qed.
Lemma opr_kept : yields (node_new exp (ExpX_UnaryOpr op e1)) s (result s0 exp).
Proof using Hs Hp1 Hm1. apply opr_done; [done|]. intros φ v w Hv Hw. cbn [den]. by rewrite Hv. Qed.

Lemma eval_bound_sound kind i : op = UnaryOpr_IntegerTypeBound kind → exp_x e1 = ExpX_Const (Constant_Int i) →
  yields (eval_bound ctx exp kind (node_new exp (ExpX_UnaryOpr op e1)) i) s (result s0 exp).
Proof using Hs Hp1 Hm1 L.
  clear Heval eval. intros Hop Hi.
  assert (Hb : ∀ k, (∀ w, type_bound kind i = Some w → w = VInt k) → yields (int_new exp k) s (result s0 exp)).
  { intros k Hk. apply opr_done; [done|]. intros φ v w Hv. rewrite (den_const _ _ _ Hi) in Hv. injection Hv as <-.
    rewrite Hop. cbn [unary_opr const]. rewrite to_int_VInt. by intros ->%Hk. }
  pose proof opr_kept as Hk. pose proof law_arch as Ha. destruct kind; cbn [eval_bound];
    try (destruct (Z.eqb_spec i 0) as [->|Hn]; apply Hb; cbn [type_bound]; case_match; by intros w [= <-]).
  destruct (arch ctx) as [|n]; [exact Hk|]. cbn in Ha. subst n. apply Hb. by intros w [= <-].
Qed.
End opr.

Lemma eval_unary_opr_sound sp t op e s : let exp := mkExp sp t (ExpX_UnaryOpr op e) in Inv s → plain false exp →
  yields (eval_unary_opr ctx eval exp op e) s (result s exp).
Proof using Heval L.
  intros exp Hs He. apply (yields_eval s); [done..|]. intros e1 s1 Hs1 Hp1 Hm1.
  pose proof (opr_kept s sp t op e e1 s1 Hs1 Hp1 Hm1) as Hk. pose proof (opr_done s sp t op e e1 s1 Hs1 Hm1) as Hdone.
  destruct op as [| | |d c|f|kind| | | | | | |]; try exact Hk; try apply yields_panic; try by (apply Hdone; [done|]; intros φ v w Hv [= <-]).
  - destruct (exp_x e1) as [| | | | | | | | |d' c' bs| | | | | | | | | | | |] eqn:Ex; try exact Hk. apply Hdone; [done|].
    intros φ v w Hv Hw. apply (den_ctor_value _ _ _ _ _ _ Ex) in Hv as (fs & _ & ->). cbn [unary_opr] in Hw.
    rewrite to_ctor_VCtor in Hw. injection Hw as <-. cbn [den const]. do 3 f_equal.
    destruct (String.eqb_spec c' c) as [->|]; by [rewrite bool_decide_true|rewrite bool_decide_false].
  - destruct (exp_x e1) as [| | | | | | | | |d' c' bs| | | | | | | | | | | |] eqn:Ex; try exact Hk.
    destruct (String.eqb_spec c' (variant f)) as [->|]; [|exact Hk]. destruct (find_binder (field f) bs) as [a|] eqn:Ef; [|exact Hk].
    apply Hdone.
    + destruct e1 as [sp1 t1 x1]. cbn [exp_x] in Ex. subst x1. destruct Hp1 as [_ Hp1]. by eapply plain_find_binder.
    + intros φ v w Hv Hw. apply (den_ctor_value _ _ _ _ _ _ Ex) in Hv as (fs & Hfs & ->). cbn [unary_opr] in Hw.
      rewrite to_ctor_VCtor bool_decide_true // in Hw. destruct (find_field_den _ _ _ _ _ Hfs Ef) as (u & Hu & Hf). congruence.
  - destruct (as_int e1) as [i|] eqn:Ei; [|exact Hk]. destruct (to_u32 i) as [i'|] eqn:Eu; [|exact Hk].
    unfold to_u32 in Eu. destruct (_ && _); [|done]. injection Eu as <-. destruct (i <=? 1024)%Z; [|exact Hk].
    apply eval_bound_sound; [done..|]. by apply as_int_const.
Qed.

(** ** Conditionals, and expressions whose parts are evaluated *)

Lemma eval_if_sound sp t e1 e2 e3 s : let exp := mkExp sp t (ExpX_If e1 e2 e3) in Inv s → plain false exp →
  yields (eval_if eval exp e1 e2 e3) s (result s exp).
Proof using Heval.
  intros exp Hs (He1 & He2 & He3). apply (yields_eval s); [done..|]. intros r1 s1 Hs1 Hp1 Hm1.
  destruct (as_bool r1) as [b|] eqn:E1.
  - assert (Hb : ∀ φ σ v, hidden φ → env_den (ScopeMap.map (env s)) φ σ → den φ exp σ = Some v →
      den φ (if b then e2 else e3) σ = Some v).
    { intros φ σ v Hφ Hσ (u & Hu & (b' & ->%to_bool_spec & Hv)%bind_Some)%bind_Some.
      apply (Hm1 φ σ _ Hφ Hσ) in Hu. apply (den_as_bool _ _ _ _ E1) in Hu as ->%VBool_inj. by destruct b. }
    destruct b; apply (yields_eval_end s); try done; intros r _ Hr φ σ v Hφ Hσ Hv; apply (Hr φ σ); auto; by apply Hb.
  - apply (yields_eval s); [done..|]. intros r2 s2 Hs2 Hp2 Hm2. apply (yields_eval s); [done..|]. intros r3 s3 Hs3 Hp3 Hm3.
    apply yields_done; [done..|]. intros φ σ v Hφ Hσ (u & Hu & (b & Hb & Hv)%bind_Some)%bind_Some.
    cbn [den]. rewrite (Hm1 φ σ u Hφ Hσ Hu). cbn. rewrite Hb. cbn. destruct b; [by apply (Hm2 φ σ)|by apply (Hm3 φ σ)].
Qed.

Lemma eval_array_literal_sound sp t es s : let exp := mkExp sp t (ExpX_ArrayLiteral es) in Inv s → plain false exp →
  yields (let! es := smap eval es in node_new exp (ExpX_Interp (InterpExp_Array es))) s (result s exp).
Proof using Heval.
  intros exp Hs He. cbn in He. rewrite allP_Forall in He. apply (yields_evals s); [done..|]. intros rs s1 Hs1 Hrs Hm.
  apply yields_done; [done|split; [done|by rewrite allP_Forall]|]. intros φ σ v Hφ Hσ (vs & Hvs & ->)%fmap_Some.
  cbn [den]. by rewrite (means_list s _ _ φ σ vs Hm Hφ Hσ Hvs).
Qed.

Lemma eval_internal_call_sound sp t f ts es s : let exp := mkExp sp t (ExpX_Call (CallFun_InternalFun f) ts es) in
  Inv s → plain false exp →
  yields (eval_internal_call eval exp (CallFun_InternalFun f) ts es) s (result s exp).
Proof using Heval.
  intros exp Hs He. cbn in He. rewrite allP_Forall in He. apply (yields_evals s); [done..|]. intros rs s1 Hs1 Hrs Hm.
  apply yields_done; [done|cbn; by rewrite allP_Forall|]. intros φ σ v Hφ Hσ (vs & Hvs & Hv)%bind_Some.
  cbn [den]. by rewrite (means_list s _ _ φ σ vs Hm Hφ Hσ Hvs).
Qed.

Lemma eval_with_triggers_sound sp t trigs body s : let exp := mkExp sp t (ExpX_WithTriggers trigs body) in
  Inv s → plain false exp →
  yields (let! env := sread InterpState.env in
    let! triggers := lifts (lift_fuel (rmap (subst_env_into_trigger env) trigs)) in
    let! body := eval body in node_new exp (ExpX_WithTriggers triggers body)) s (result s exp).
Proof using Heval.
  intros exp Hs He. apply yields_bind, yields_read. apply yields_lifts. intros ts _. apply (yields_eval s); [done..|].
  intros r s1 Hs1 Hp Hm. by apply yields_done.
Qed.

Lemma eval_ctor_sound sp t d c bs s : let exp := mkExp sp t (ExpX_Ctor d c bs) in Inv s → plain false exp →
  yields (eval_ctor eval exp d c bs) s (result s exp).
Proof using Heval.
  intros exp Hs [Hn He]. rewrite allP_Forall in He. apply yields_bind.
  apply (yields_smap _ (good s) (rebuilt_binder (λ e r, plain false r ∧ means (ScopeMap.map (env s)) e r))); [done| |].
  - intros [n a] s1 Hin Hs1. rewrite Forall_forall in He. specialize (He _ Hin). cbn in He.
    apply (yields_eval s); [done..|]. intros r s2 Hs2 Hp Hm. by apply yields_ret.
  - intros bs' s1 Hbs Hs1. apply yields_done; [done| |].
    + split; [by rewrite -(rebuilt_binder_names _ _ _ Hbs)|]. rewrite allP_Forall.
      eapply Forall2_Forall_r; [exact Hbs|]. apply Forall_true. by intros [n a] [m a'] [_ [? _]].
    + intros φ σ v Hφ Hσ. cbn [den]. intros (fs & Hfs & Hv)%bind_Some.
      enough (E : mapM (λ b : Ast.BinderX Exp, let 'Ast.mkBinder n a := b in pair n <$> den φ a φ) bs' = Some fs) by by rewrite E.
      clear Hv Hn He. revert fs Hfs. induction Hbs as [|[n a] [m a'] bs bs' [Hn [_ Ha]] _ IH]; intros fs; [done|]. cbn in *. subst m.
      intros (? & (u & Hu & ->)%fmap_Some & (gs & Hgs & [= <-])%bind_Some)%bind_Some.
      rewrite (Ha φ σ u Hφ Hσ Hu). cbn. by rewrite (IH gs Hgs).
Qed.
End ops.
