(* ===== verification/InterpBinary.v ===== *)
(** * The binary operators in the interpreter are sound *)

From S2P Require Import Prelude StateRes VirMessages VirAst VirAstUtil Sst SstSemantics SstUtil.
From S2P Require Import InterpSynt InterpState InterpEval InterpTerm InterpSem InterpSynFacts.
From S2P Require Import InterpInv InterpOps.
From S2P Require Ast ScopeMap.
Set Warnings "-rewrite-rw,-register-all,-clear-no-such-hyp".
Local Open Scope st_scope.

Section ops.
Context `{L : InterpLaws}.
Variable not_a_seq : Span → Typ → Message.
Variable ptr_eq : Exp → Exp → bool.
Hypothesis ptr_eq_sound : ∀ l r, ptr_eq l r = true → l = r.
Variable eval : Exp → st State interp_error Exp.
Local Abbreviation plain := (plain B (arch ctx)).
Local Abbreviation Inv := (Inv (ctx := ctx) (B := B) (ρ0 := ρ0)).
Local Abbreviation good := (good (ctx := ctx) (B := B) (ρ0 := ρ0)).
Local Abbreviation result := (result (ctx := ctx) (B := B) (ρ0 := ρ0)).
Local Abbreviation means := (means (B := B) (ρ0 := ρ0)).
Local Abbreviation hidden := (hidden (B := B) (ρ0 := ρ0)).
Hypothesis Heval : ∀ e s, Inv s → plain false e → yields (eval e) s (result s e).
Implicit Types (η : gmap VarIdent Exp) (φ σ : gmap VarIdent V).

(** The comparisons, when they return. *)
Lemma syn_eq_answer {A} l r s (k : option bool → st State interp_error A) Q : plain false l → plain false r →
  (∀ o, (o = Some true → agree l r) → (o = Some false → differ l r) → yields (k o) s Q) →
  yields (sbind (syn_eq not_a_seq ptr_eq l r) k) s Q.
Proof using ptr_eq_sound L.
  intros Hl Hr Hk. apply yields_lifts. intros o Ho.
  destruct (syntactic_eq_answers not_a_seq ptr_eq ptr_eq_sound l r Hl Hr) as [Hy Hn].
  destruct (syntactic_eq not_a_seq ptr_eq l r) as [o'|[]|]; try done. injection Ho as ->.
  apply Hk; intros ->; auto.
Qed.
Lemma def_eq_answer {A} l r s (k : bool → st State interp_error A) Q : plain false l → plain false r →
  (∀ b, (b = true → agree l r) → yields (k b) s Q) → yields (sbind (def_eq_m not_a_seq ptr_eq l r) k) s Q.
Proof using ptr_eq_sound L.
  intros Hl Hr Hk. apply yields_lifts. intros b Hb.
  pose proof (definitely_eq_agree not_a_seq ptr_eq ptr_eq_sound l r Hl Hr) as H.
  destruct (definitely_eq not_a_seq ptr_eq l r) as [b'|[]|]; try done. injection Hb as ->.
  apply Hk. intros ->. by apply H.
Qed.

Definition known_zero (e : Exp) : bool := match as_int e with Some i => (i =? 0)%Z | None => false end.
Lemma known_zero_int e : known_zero e = true → as_int e = Some 0%Z.
Proof using. unfold known_zero. destruct (as_int e) as [i|]; [|done]. by intros ->%Z.eqb_eq. Qed.

Section binary.
Variables (s0 : State) (sp : Span) (t : Typ) (e1 e2 r1 : Exp).
Local Abbreviation η := (ScopeMap.map (env s0)).
Local Abbreviation exp op := (mkExp sp t (ExpX_Binary op e1 e2)).
Hypothesis Hp1 : plain false r1.
Hypothesis Hm1 : means η e1 r1.

(** The second operand may not be evaluated. *)
Lemma binary_means_l op r :
  (∀ φ σ v1 v2 w, hidden φ → env_den η φ σ → den φ r1 φ = Some v1 → den φ e2 σ = Some v2 →
    binary op v1 v2 = Some w → den φ r φ = Some w) → means η (exp op) r.
Proof using Hm1.
  intros H φ σ w Hφ Hσ Hw. cbn [den] in Hw. apply bind_Some in Hw as (v1 & Hv1 & Hw).
  apply bind_Some in Hw as (v2 & Hv2 & Hw). apply (Hm1 φ σ v1 Hφ Hσ) in Hv1. eauto.
Qed.

Section second.
Variables (s : State) (r2 : Exp).
Hypothesis Hs : good s0 s.
Hypothesis Hp2 : plain false r2.
Hypothesis Hm2 : means η e2 r2.

Lemma binary_means op r :
  (∀ φ v1 v2 w, den φ r1 φ = Some v1 → den φ r2 φ = Some v2 → binary op v1 v2 = Some w → den φ r φ = Some w) →
  means η (exp op) r.
Proof using Hm1 Hm2.
  intros H. apply binary_means_l. intros φ σ v1 v2 w Hφ Hσ Hv1 Hv2. apply (Hm2 φ σ v2 Hφ Hσ) in Hv2. eauto.
Qed.
Lemma ok_e2_sound op : op_plain (arch ctx) op → yields (ok_e2 (exp op) op r1 r2) s (result s0 (exp op)).
Proof using Hs Hp1 Hm1 Hp2 Hm2.
  intros Hop. apply yields_done; [done..|]. apply binary_means. intros φ v1 v2 w Hv1 Hv2 Hw. cbn [den].
  by rewrite Hv1 Hv2.
Qed.
Lemma binary_done op r : plain false r →
  (∀ φ v1 v2 w, den φ r1 φ = Some v1 → den φ r2 φ = Some v2 → binary op v1 v2 = Some w → den φ r φ = Some w) →
  yields (sret (E := interp_error) r) s (result s0 (exp op)).
Proof using Hs Hm1 Hm2. intros Hr H. apply yields_done; [done..|]. by apply binary_means. Qed.

Lemma arith_done aop r : plain false r →
  (∀ φ i j, den φ r1 φ = Some (VInt i) → den φ r2 φ = Some (VInt j) → den φ r φ = Some (VInt (arith aop i j))) →
  yields (sret (E := interp_error) r) s (result s0 (exp (BinaryOp_Arith aop))).
Proof using Hs Hm1 Hm2.
  intros Hr H. apply binary_done; [done|]. intros φ v1 v2 w Hv1 Hv2 (i & Hi & (j & Hj & [= <-])%bind_Some)%bind_Some.
  apply to_int_spec in Hi as ->. apply to_int_spec in Hj as ->. by apply H.
Qed.
Lemma bitwise_done bop r : plain false r →
  (∀ φ i j k, den φ r1 φ = Some (VInt i) → den φ r2 φ = Some (VInt j) → bitwise bop i j = Some k →
    den φ r φ = Some (VInt k)) →
  yields (sret (E := interp_error) r) s (result s0 (exp (BinaryOp_Bitwise bop))).
Proof using Hs Hm1 Hm2.
  intros Hr H. apply binary_done; [done|]. intros φ v1 v2 w Hv1 Hv2 (i & Hi & (j & Hj & (k & Hk & ->)%fmap_Some)%bind_Some)%bind_Some.
  apply to_int_spec in Hi as ->. apply to_int_spec in Hj as ->. by apply (H φ i j).
Qed.

(** [X - X], [X ^ X], [X & X], [X | X]. *)
Lemma same_or_kept op r : op_plain (arch ctx) op → plain false r →
  (∀ φ v w, den φ r1 φ = Some v → binary op v v = Some w → den φ r φ = Some w) →
  yields (let! b := def_eq_m not_a_seq ptr_eq r1 r2 in if b : bool then sret r else ok_e2 (exp op) op r1 r2) s
    (result s0 (exp op)).
Proof using Hs Hp1 Hm1 Hp2 Hm2 ptr_eq_sound L.
  intros Hop Hr H. apply def_eq_answer; [done..|]. intros [] Hb; [|by apply ok_e2_sound].
  destruct (Hb eq_refl) as [Hd _]. apply binary_done; [done|]. intros φ v1 v2 w Hv1 Hv2 Hw.
  rewrite Hd Hv2 in Hv1. injection Hv1 as <-. apply (H φ v2); [by rewrite Hd|done].
Qed.

Lemma logic_done op (f : bool → bool → bool) r : (∀ v1 v2, binary op v1 v2 = bool2 f v1 v2) → plain false r →
  (∀ φ a b, den φ r1 φ = Some (VBool a) → den φ r2 φ = Some (VBool b) → den φ r φ = Some (VBool (f a b))) →
  yields (sret (E := interp_error) r) s (result s0 (exp op)).
Proof using Hs Hm1 Hm2.
  intros Hop Hr H. apply binary_done; [done|]. intros φ v1 v2 w Hv1 Hv2. rewrite Hop.
  intros (a & ->%to_bool_spec & (b & ->%to_bool_spec & [= <-])%bind_Some)%bind_Some. by apply H.
Qed.
End second.

(** ** Boolean operators *)

Section logic.
Variable s : State.
Hypothesis Hs : good s0 s.
Hypothesis He2 : plain false e2.

(** The second operand is evaluated to [r2], or not at all. *)
Lemma logic_means_l op (f : bool → bool → bool) r : (∀ v1 v2, binary op v1 v2 = bool2 f v1 v2) →
  (∀ φ σ a b, hidden φ → env_den η φ σ → den φ r1 φ = Some (VBool a) → den φ e2 σ = Some (VBool b) →
    den φ r φ = Some (VBool (f a b))) → means η (exp op) r.
Proof using Hm1.
  intros Hop H. apply binary_means_l. intros φ σ v1 v2 w Hφ Hσ Hv1 Hv2. rewrite Hop.
  intros (a & ->%to_bool_spec & (b & ->%to_bool_spec & [= <-])%bind_Some)%bind_Some. by eapply H.
Qed.
Lemma logic_second op (f : bool → bool → bool) a : (∀ v1 v2, binary op v1 v2 = bool2 f v1 v2) → as_bool r1 = Some a → (∀ b, f a b = b) →
  yields (eval e2) s (result s0 (exp op)).
Proof using Heval Hs He2 Hm1.
  intros Hop Ha Hf. apply (yields_eval_end eval Heval s0); [done..|]. intros r _ Hr. apply (logic_means_l op f); [done|].
  intros φ σ a' b Hφ Hσ Hv1 Hv2. apply (den_as_bool _ _ _ _ Ha) in Hv1 as ->%VBool_inj. rewrite Hf. by apply (Hr φ σ).
Qed.
Lemma logic_first op (f : bool → bool → bool) a c : (∀ v1 v2, binary op v1 v2 = bool2 f v1 v2) → as_bool r1 = Some a → (∀ b, f a b = c) →
  yields (bool_new (exp op) c) s (result s0 (exp op)).
Proof using Hs Hm1.
  intros Hop Ha Hf. apply yields_done; [done..|]. apply (logic_means_l op f); [done|].
  intros φ σ a' b Hφ Hσ Hv1 Hv2. apply (den_as_bool _ _ _ _ Ha) in Hv1 as ->%VBool_inj. by rewrite Hf.
Qed.
Lemma eval_and_sound : yields (eval_and eval (exp BinaryOp_And) BinaryOp_And r1 e2) s (result s0 (exp BinaryOp_And)).
Proof using Heval Hs He2 Hp1 Hm1.
  unfold eval_and. destruct (as_bool r1) as [[]|] eqn:E1.
  - by apply (logic_second _ andb true).
  - by apply (logic_first _ andb false).
  - apply (yields_eval eval Heval s0); [done..|]. intros r2 s' Hs' Hp2 Hm2. destruct (as_bool r2) as [[]|] eqn:E2; [| |by apply ok_e2_sound].
    all: apply (logic_done s' r2 Hs' Hm2 _ andb); [done..|]; intros φ a b Ha Hb;
      apply (den_as_bool _ _ _ _ E2) in Hb as ->%VBool_inj.
    + by rewrite andb_true_r.
    + by rewrite andb_false_r.
Qed.
Lemma eval_or_sound : yields (eval_or eval (exp BinaryOp_Or) BinaryOp_Or r1 e2) s (result s0 (exp BinaryOp_Or)).
Proof using Heval Hs He2 Hp1 Hm1.
  unfold eval_or. destruct (as_bool r1) as [[]|] eqn:E1.
  - by apply (logic_first _ orb true).
  - by apply (logic_second _ orb false).
  - apply (yields_eval eval Heval s0); [done..|]. intros r2 s' Hs' Hp2 Hm2. destruct (as_bool r2) as [[]|] eqn:E2; [| |by apply ok_e2_sound].
    all: apply (logic_done s' r2 Hs' Hm2 _ orb); [done..|]; intros φ a b Ha Hb;
      apply (den_as_bool _ _ _ _ E2) in Hb as ->%VBool_inj.
    + by rewrite orb_true_r.
    + by rewrite orb_false_r.
Qed.

Lemma den_not (φ : gmap VarIdent V) sp' t' e b : den φ e φ = Some (VBool b) →
  den φ (mkExp sp' t' (ExpX_Unary UnaryOp_Not e)) φ = Some (VBool (negb b)).
Proof using. intros H. cbn [den]. rewrite H. cbn [mbind option_bind unary]. by rewrite to_bool_VBool. Qed.

Lemma eval_xor_sound : yields (eval_xor eval (exp BinaryOp_Xor) BinaryOp_Xor r1 e2) s (result s0 (exp BinaryOp_Xor)).
Proof using Heval Hs He2 Hp1 Hm1.
  unfold eval_xor. apply (yields_eval eval Heval s0); [done..|]. intros r2 s' Hs' Hp2 Hm2.
  destruct (as_bool r1) as [b1|] eqn:E1, (as_bool r2) as [b2|] eqn:E2; [| | |by apply ok_e2_sound].
  - destruct b1, b2; apply (logic_done s' r2 Hs' Hm2 _ xorb); try done; intros φ a b Ha Hb;
      apply (den_as_bool _ _ _ _ E1) in Ha as ->%VBool_inj; by apply (den_as_bool _ _ _ _ E2) in Hb as ->%VBool_inj.
  - destruct b1; apply (logic_done s' r2 Hs' Hm2 _ xorb); try done; intros φ a b Ha Hb;
      apply (den_as_bool _ _ _ _ E1) in Ha as ->%VBool_inj; cbn [xorb]; [by apply den_not|by destruct b].
  - destruct b2; apply (logic_done s' r2 Hs' Hm2 _ xorb); try done; intros φ a b Ha Hb;
      apply (den_as_bool _ _ _ _ E2) in Hb as ->%VBool_inj; [rewrite xorb_true_r; by apply den_not|by rewrite xorb_false_r].
Qed.

(** [_ ==> false]: the negation of the first operand, already evaluated, is evaluated again. *)
Lemma eval_implies_sound : Inv s0 →
  yields (eval_implies eval (exp BinaryOp_Implies) BinaryOp_Implies r1 e2) s (result s0 (exp BinaryOp_Implies)).
Proof using Heval Hs He2 Hp1 Hm1.
  intros Hs0. unfold eval_implies. destruct (as_bool r1) as [[]|] eqn:E1.
  - by apply (logic_second _ implb true).
  - by apply (logic_first _ implb false).
  - apply (yields_eval eval Heval s0); [done..|]. intros r2 s' Hs' Hp2 Hm2. destruct (as_bool r2) as [[]|] eqn:E2; [| |by apply ok_e2_sound].
    + apply (logic_done s' r2 Hs' Hm2 _ implb); [done..|]; intros φ a b Ha Hb.
      apply (den_as_bool _ _ _ _ E2) in Hb as ->%VBool_inj. by destruct a.
    + apply yields_bind, yields_ret. apply (yields_eval_end eval Heval s0); [done|by split|]. intros r Hr Hmr.
      apply binary_means_l. intros φ σ v1 v2 w Hφ Hσ Hv1 Hv2 (a & ->%to_bool_spec & (b & ->%to_bool_spec & [= <-])%bind_Some)%bind_Some.
      apply (Hm2 φ σ _ Hφ Hσ) in Hv2. apply (den_as_bool _ _ _ _ E2) in Hv2 as ->%VBool_inj.
      apply (Hmr φ σ); [done..|]. replace (implb a false) with (negb a) by by destruct a.
      cbn [den]. rewrite (den_up (ctx := ctx) (B := B) r1 φ σ (VBool a)); [by eapply env_den_hidden; [by apply (inv_env s0 Hs0)| |]|done|done|].
      cbn [mbind option_bind unary]. by rewrite to_bool_VBool.
Qed.
End logic.

Lemma as_int_eq (φ : gmap VarIdent V) e i j : as_int e = Some i → den φ e φ = Some (VInt j) → j = i.
Proof using. intros He Hv. by apply (den_as_int _ _ _ _ He) in Hv as ->%VInt_inj. Qed.


(** ** Arithmetic *)

Section arith.
Variables (s : State) (r2 : Exp) (aop : ArithOp).
Hypothesis Hs : good s0 s.
Hypothesis Hp2 : plain false r2.
Hypothesis Hm2 : means η e2 r2.
Local Abbreviation op := (BinaryOp_Arith aop).

(** [0 + x], [x * 1], ... *)
Lemma arith_left i r : as_int r1 = Some i → plain false r →
  (∀ φ j, den φ r2 φ = Some (VInt j) → den φ r φ = Some (VInt (arith aop i j))) →
  yields (sret (E := interp_error) r) s (result s0 (exp op)).
Proof using Hs Hm1 Hm2.
  intros Hi Hr H. apply (arith_done s r2 Hs Hm2); [done|]. intros φ i' j Hv1 Hv2. rewrite (as_int_eq _ _ _ _ Hi Hv1). auto.
Qed.
Lemma arith_right j r : as_int r2 = Some j → plain false r →
  (∀ φ i, den φ r1 φ = Some (VInt i) → den φ r φ = Some (VInt (arith aop i j))) →
  yields (sret (E := interp_error) r) s (result s0 (exp op)).
Proof using Hs Hm1 Hm2.
  intros Hj Hr H. apply (arith_done s r2 Hs Hm2); [done|]. intros φ i j' Hv1 Hv2. rewrite (as_int_eq _ _ _ _ Hj Hv2). auto.
Qed.
Lemma arith_ints i j k : as_int r1 = Some i → as_int r2 = Some j → k = arith aop i j →
  yields (int_new (exp op) k) s (result s0 (exp op)).
Proof using Hs Hm1 Hm2.
  intros Hi Hj ->. apply (arith_left i); [done..|]. intros φ j' Hv. by rewrite (as_int_eq _ _ _ _ Hj Hv).
Qed.
Lemma arith_kept : yields (ok_e2 (exp op) op r1 r2) s (result s0 (exp op)).
Proof using Hs Hp1 Hm1 Hp2 Hm2. by apply ok_e2_sound. Qed.
(** [x - x] *)
Lemma arith_same : yields (if decide (aop = ArithOp_Sub)
    then let! b := def_eq_m not_a_seq ptr_eq r1 r2 in if b : bool then zero (exp op) else ok_e2 (exp op) op r1 r2
    else ok_e2 (exp op) op r1 r2) s (result s0 (exp op)).
Proof using Hs Hp1 Hm1 Hp2 Hm2 ptr_eq_sound L.
  destruct (decide _) as [Ha|]; [|by apply arith_kept].
  apply (same_or_kept s r2 Hs Hp2 Hm2); [done..|]. intros φ v w _ (i & ->%to_int_spec & (j & Hj & [= <-])%bind_Some)%bind_Some.
  rewrite to_int_VInt in Hj. injection Hj as <-. cbn [den]. cbn [const]. rewrite Ha. cbn [arith]. do 2 f_equal. lia.
Qed.

End arith.

(** ** Bitwise operators *)

Section bits.
Variables (s : State) (r2 : Exp) (bop : BitwiseOp).
Hypothesis Hs : good s0 s.
Hypothesis Hp2 : plain false r2.
Hypothesis Hm2 : means η e2 r2.
Local Abbreviation op := (BinaryOp_Bitwise bop).
Hypothesis Hexp : plain false (exp op).

Section ints.
Variables (i1 i2 : Z).
Hypothesis Hi1 : as_int r1 = Some i1.
Hypothesis Hi2 : as_int r2 = Some i2.
Lemma bits_int k : (∀ k', bitwise bop i1 i2 = Some k' → k' = k) → yields (int_new (exp op) k) s (result s0 (exp op)).
Proof using Hs Hm1 Hm2 Hi1 Hi2.
  intros H. apply (bitwise_done s r2 Hs Hm2); [done|]. intros φ i j k' Hv1 Hv2.
  rewrite (as_int_eq φ r1 i1 i Hi1 Hv1) (as_int_eq φ r2 i2 j Hi2 Hv2). by intros ->%H.
Qed.
(** The expression that is not evaluated has no value. *)
Lemma bits_none : bitwise bop i1 i2 = None → yields (sret (E := interp_error) (exp op)) s (result s0 (exp op)).
Proof using Hs Hm1 Hm2 Hi1 Hi2 Hexp.
  intros H. apply (bitwise_done s r2 Hs Hm2); [done|]. intros φ i j k' Hv1 Hv2.
  by rewrite (as_int_eq φ r1 i1 i Hi1 Hv1) (as_int_eq φ r2 i2 j Hi2 Hv2) H.
Qed.

(** A shift whose width is known. *)
Lemma bits_width w signed (m : res interp_error (option Z)) : bop = BitwiseOp_Shl w signed →
  (m = Ok None → w = IntegerTypeBitwidth_ArchWordSize ∧ arch ctx = ArchWordBits_Either32Or64) →
  (∀ k k', m = Ok (Some k) → bitwise bop i1 i2 = Some k' → k' = k) →
  yields (let! o := lifts m in match o with Some i => int_new (exp op) i | None => sret (exp op) end) s
    (result s0 (exp op)).
Proof using Hs Hm1 Hm2 Hi1 Hi2 Hexp.
  intros Hb Hn Hk. apply yields_lifts. intros [k|] Hm; [apply bits_int; eauto|].
  destruct (Hn Hm) as [-> Ha]. destruct Hexp as [Hop _]. exfalso. rewrite Hb /op_plain Ha in Hop. done.
Qed.
End ints.

Lemma eval_shift_sound i1 i2 : as_int r1 = Some i1 → as_int r2 = Some i2 →
  yields (eval_shift ctx (exp op) bop i1 i2) s (result s0 (exp op)).
Proof using Hs Hm1 Hm2 Hexp L.
  intros H1 H2. pose proof (bits_none i1 i2 H1 H2) as Hnone. pose proof (bits_int i1 i2 H1 H2) as Hint. pose proof (bits_width i1 i2 H1 H2) as Hwidth.
  destruct bop as [| | | |w signed] eqn:Hb; cbn [eval_shift].
  - apply Hint. by intros k' [= <-].
  - apply Hint. by intros k' [= <-].
  - apply Hint. by intros k' [= <-].
  - rewrite to_u128_spec. destruct (in_bits 128 i2) eqn:E2; [|apply Hnone; cbn [bitwise]; by rewrite E2].
    apply Hint. cbn [bitwise]. rewrite E2. by intros k' [= <-].
  - destruct signed; rewrite to_u128_spec ?to_i128_spec.
    + destruct (in_signed_bits 128 i1) eqn:E1; [|apply Hnone; cbn [bitwise]; rewrite E1; by case_match].
      destruct (in_bits 128 i2) eqn:E2; [|apply Hnone; cbn [bitwise]; by rewrite E2].
      eapply Hwidth; [done|apply to_signed_width_none|]. intros k k' Hk. cbn [bitwise]. rewrite E1 E2. intros [= <-].
      symmetry. by eapply shl_i128_eq; [apply law_arch|].
    + rewrite to_u128_spec. destruct (in_bits 128 i1) eqn:E1; [|apply Hnone; cbn [bitwise]; rewrite E1; by case_match].
      destruct (in_bits 128 i2) eqn:E2; [|apply Hnone; cbn [bitwise]; by rewrite E2].
      eapply Hwidth; [done|apply to_width_none|]. intros k k' Hk. cbn [bitwise]. rewrite E1 E2. intros [= <-].
      symmetry. by eapply shl_u128_eq; [apply law_arch|].
Qed.

(** Not both operands are known. *)
Lemma bits_partial :
  yields (if (known_zero r1 || known_zero r2) && bool_decide (bop = BitwiseOp_BitAnd) then zero (exp op)
    else if known_zero r1 && bool_decide (bop = BitwiseOp_BitOr) then sret r2
    else if known_zero r2 && bool_decide (bop = BitwiseOp_BitOr) then sret r1
    else
      match bop with
      | BitwiseOp_BitXor => let! b := def_eq_m not_a_seq ptr_eq r1 r2 in if b : bool then zero (exp op) else ok_e2 (exp op) op r1 r2
      | BitwiseOp_BitAnd | BitwiseOp_BitOr =>
        let! b := def_eq_m not_a_seq ptr_eq r1 r2 in if b : bool then sret r1 else ok_e2 (exp op) op r1 r2
      | _ => ok_e2 (exp op) op r1 r2
      end) s (result s0 (exp op)).
Proof using Hs Hp1 Hm1 Hp2 Hm2 Hexp ptr_eq_sound L.
  destruct (_ && _) eqn:E.
  { apply andb_true_iff in E as [E Hb%bool_decide_eq_true]. apply (bitwise_done s r2 Hs Hm2); [done|].
    intros φ i j k Hv1 Hv2. rewrite Hb. intros [= <-].
    apply orb_true_iff in E as [E%known_zero_int|E%known_zero_int].
    - by rewrite (as_int_eq _ _ _ _ E Hv1).
    - by rewrite (as_int_eq _ _ _ _ E Hv2) Z.land_0_r. }
  clear E. destruct (_ && _) eqn:E.
  { apply andb_true_iff in E as [E%known_zero_int Hb%bool_decide_eq_true]. apply (bitwise_done s r2 Hs Hm2); [done|].
    intros φ i j k Hv1 Hv2. rewrite Hb. intros [= <-]. by rewrite (as_int_eq _ _ _ _ E Hv1). }
  clear E. destruct (_ && _) eqn:E.
  { apply andb_true_iff in E as [E%known_zero_int Hb%bool_decide_eq_true]. apply (bitwise_done s r2 Hs Hm2); [done|].
    intros φ i j k Hv1 Hv2. rewrite Hb. intros [= <-]. by rewrite (as_int_eq _ _ _ _ E Hv2) Z.lor_0_r. }
  assert (Hk : yields (ok_e2 (exp op) op r1 r2) s (result s0 (exp op))).
  { apply (ok_e2_sound s r2 Hs Hp2 Hm2). by destruct Hexp. }
  assert (Hself : ∀ v w, binary op v v = Some w → ∃ i, v = VInt i ∧ VInt <$> bitwise bop i i = Some w).
  { intros v w (i & ->%to_int_spec & (j & Hj & H)%bind_Some)%bind_Some. exists i. split; [done|].
    by rewrite to_int_VInt in Hj; injection Hj as <-. }
  destruct bop as [| | | |w signed] eqn:Hb; try exact Hk; apply (same_or_kept s r2 Hs Hp2 Hm2); try done;
    intros φ v w Hv (i & -> & [= <-])%Hself; rewrite ?Hv.
  - by rewrite Z.lxor_nilpotent.
  - by rewrite Z.land_diag.
  - by rewrite Z.lor_diag.
Qed.
End bits.

(** ** Comparisons *)

Section compare.
Variable s : State.
Hypothesis Hs : good s0 s.
Hypothesis He2 : plain false e2.

Lemma eval_eq_sound (positive : bool) : let op := if positive then BinaryOp_Eq else BinaryOp_Ne in
  yields (eval_eq not_a_seq ptr_eq eval (exp op) op r1 positive e2) s (result s0 (exp op)).
Proof using Heval Hs He2 Hp1 Hm1 ptr_eq_sound L.
  intros op. apply (yields_eval eval Heval s0); [done..|]. intros r2 s' Hs' Hp2 Hm2.
  apply syn_eq_answer; [done..|]. intros [b|] Hy Hn; [|by apply ok_e2_sound; [..|subst op; destruct positive]].
  apply (binary_done s' r2 Hs' Hm2); [done|]. intros φ v1 v2 w Hv1 Hv2.
  assert (Hb : b = bool_decide (v1 = v2)).
  { destruct b.
    - destruct (Hy eq_refl) as [Hd _]. rewrite Hd Hv2 in Hv1. injection Hv1 as ->. by rewrite bool_decide_true.
    - rewrite bool_decide_false //. by eapply (Hn eq_refl). }
  subst op b. by destruct positive; intros [= <-].
Qed.

Lemma eval_inequality_sound iop : let op := BinaryOp_Inequality iop in
  yields (eval_inequality eval (exp op) op r1 iop e2) s (result s0 (exp op)).
Proof using Heval Hs He2 Hp1 Hm1.
  intros op. apply (yields_eval eval Heval s0); [done..|]. intros r2 s' Hs' Hp2 Hm2.
  destruct (as_int r1) as [i1|] eqn:E1; [|by apply ok_e2_sound]. destruct (as_int r2) as [i2|] eqn:E2; [|by apply ok_e2_sound].
  apply (binary_done s' r2 Hs' Hm2); [done|].
  intros φ v1 v2 w Hv1 Hv2 (i & ->%to_int_spec & (j & ->%to_int_spec & [= <-])%bind_Some)%bind_Some.
  by rewrite (as_int_eq φ r1 i1 i E1 Hv1) (as_int_eq φ r2 i2 j E2 Hv2).
Qed.


Lemma eval_arith_sound aop : let op := BinaryOp_Arith aop in
  yields (eval_arith not_a_seq ptr_eq eval (exp op) op r1 aop e2) s (result s0 (exp op)).
Proof using Heval Hs He2 Hp1 Hm1 ptr_eq_sound L.
  intros op. apply (yields_eval eval Heval s0); [done..|]. intros r2 s' Hs' Hp2 Hm2.
  pose proof (arith_kept s' r2 aop Hs' Hp2 Hm2) as Hk. pose proof (arith_same s' r2 aop Hs' Hp2 Hm2) as Hsame.
  destruct (as_int r1) as [i1|] eqn:E1, (as_int r2) as [i2|] eqn:E2; [| | |exact Hsame].
  - destruct aop; try (by eapply arith_ints); destruct (Z.eqb_spec i2 0) as [|Hn]; try exact Hk;
      (eapply arith_ints; [done..|]); cbn [arith]; by rewrite (proj2 (Z.eqb_neq _ _) Hn).
  - destruct (Z.eqb_spec i1 0) as [->|Hn]; cbn [andb].
    { destruct aop; cbn -[arith]; try exact Hk; try exact Hsame; (eapply arith_left; [done..|]); intros φ j Hj; cbn [arith]; done. }
    destruct (Z.eqb_spec i1 1) as [->|Hn1]; cbn [andb]; [|exact Hsame].
    case_bool_decide as Ha; [|exact Hsame]. subst aop. eapply arith_left; [done..|]. intros φ j Hj. cbn [arith].
    by rewrite Z.mul_1_l.
  - destruct (Z.eqb_spec i2 0) as [->|Hn]; cbn [andb].
    { destruct aop; try exact Hk; (eapply arith_right; [done..|]); intros φ i Hi; cbn [arith]; rewrite ?Z.add_0_r ?Z.sub_0_r //.
      cbn. by rewrite Z.mul_0_r. }
    destruct (Z.eqb_spec i2 1) as [->|Hn1]; cbn [andb orb]; [|exact Hsame].
    destruct aop; cbn -[arith]; try exact Hsame; (eapply arith_right; [done..|]); intros φ i Hi; cbn [arith].
    + by rewrite Z.mul_1_r.
    + rewrite Hi. do 2 f_equal. unfold euclid_div. by rewrite /= Z.mod_1_r Z.sub_0_r Z.div_1_r.
    + cbn. unfold euclid_mod. by rewrite /= Z.mod_1_r.
Qed.

Lemma eval_bitwise_sound bop : let op := BinaryOp_Bitwise bop in plain false (exp op) →
  yields (eval_bitwise not_a_seq ptr_eq ctx eval (exp op) op r1 bop e2) s (result s0 (exp op)).
Proof using Heval Hs He2 Hp1 Hm1 ptr_eq_sound L.
  intros op Hexp. apply (yields_eval eval Heval s0); [done..|]. intros r2 s' Hs' Hp2 Hm2.
  pose proof (bits_partial s' r2 bop Hs' Hp2 Hm2 Hexp) as Hpart. unfold known_zero in Hpart.
  destruct (as_int r1) as [i1|] eqn:E1, (as_int r2) as [i2|] eqn:E2; try exact Hpart.
  by apply (eval_shift_sound s' r2 bop Hs' Hm2 Hexp).
Qed.

(** ** Array indexing *)

Lemma den_array (φ : gmap VarIdent V) e es v : exp_x e = ExpX_Interp (InterpExp_Array es) → den φ e φ = Some v →
  ∃ l, mapM (λ e, den φ e φ) es = Some l ∧ v = VArray l.
Proof using. destruct e. cbn [exp_x]. intros ->. by intros (l & Hl & ->)%fmap_Some; exists l. Qed.
Lemma plain_array e es : exp_x e = ExpX_Interp (InterpExp_Array es) → plain false e → Forall (plain false) es.
Proof using. destruct e. cbn [exp_x]. intros -> [_ H]. by rewrite allP_Forall in H. Qed.
Lemma den_lookup φ (es : list Exp) l n e : mapM (λ e, den φ e φ) es = Some l → es !! n = Some e →
  ∃ v, l !! n = Some v ∧ den φ e φ = Some v.
Proof using. intros Hl%mapM_Some He. destruct (Forall2_lookup_l _ _ _ _ _ Hl He) as (v & Hv & Hd). by exists v. Qed.
Lemma to_usize_in i n : to_usize i = Some n → n = i ∧ (0 ≤ i)%Z.
Proof using. unfold to_usize. destruct (_ && _) eqn:E; [|done]. intros [= <-]. lia. Qed.

Lemma eval_array_index_sound : let op := BinaryOp_Index ArrayKind_Array in
  yields (let! e2 := eval e2 in eval_array_index ctx (exp op) r1 e2) s (result s0 (exp op)).
Proof using Heval Hs He2 Hp1 Hm1.
  intros op. apply (yields_eval eval Heval s0); [done..|]. intros r2 s' Hs' Hp2 Hm2.
  assert (Hk : ∀ s', good s0 s' → yields (ok_e2 (exp op) op r1 r2) s' (result s0 (exp op))).
  { intros s1 Hs1. by apply ok_e2_sound. }
  unfold eval_array_index. specialize (Hk s' Hs') as Hk'.
  destruct (exp_x r1) as [| | | | | | | | | | | | | | | | | | | |[| | |es]|] eqn:E1; try exact Hk'.
  destruct (exp_x r2) as [[]| | | | | | | | | | | | | | | | | | | | |] eqn:E2; try exact Hk'.
  assert (Hw : ∀ n, yields (warn_unsimplified ctx (exp op) n;! ok_e2 (exp op) op r1 r2) s'
    (result s0 (exp op))) by by intros n; apply (yields_warning (ctx := ctx) (B := B) (ρ0 := ρ0) s0).
  destruct (to_usize i) as [n|] eqn:Ei; [|apply Hw]. destruct (n <? vec_len es)%Z; [|apply Hw].
  apply to_usize_in in Ei as [-> Hi]. apply yields_lift. intros e He. destruct (es !! Z.to_nat i) as [e'|] eqn:El; [|done].
  injection He as ->. split; [done|]. pose proof (plain_array _ _ E1 Hp1) as Hes.
  split; [by eapply Forall_lookup_1|]. apply (binary_means r2 Hm2). intros φ v1 v2 w Hv1 Hv2.
  apply (den_array _ _ _ _ E1) in Hv1 as (l & Hl & ->).
  rewrite (den_const _ _ _ E2) in Hv2. injection Hv2 as <-. unfold op. cbn [binary const]. rewrite to_array_VArray to_int_VInt.
  destruct (den_lookup _ _ _ _ _ Hl El) as (v & Hv & Hd). cbn. rewrite Hv. destruct (Z.leb_spec 0 i); [|lia]. by intros [= <-].
Qed.

Lemma eval_binary_op_sound op : Inv s0 → plain false (exp op) →
  yields (eval_binary_op not_a_seq ptr_eq ctx eval (exp op) op r1 e2) s (result s0 (exp op)).
Proof using Heval Hs He2 Hp1 Hm1 ptr_eq_sound L.
  intros Hs0 Hexp.
  assert (Hk : yields (let! e2 := eval e2 in ok_e2 (exp op) op r1 e2) s (result s0 (exp op))).
  { apply (yields_eval eval Heval s0); [done..|]. intros r2 s' Hs' Hp2 Hm2. apply ok_e2_sound; try done. by destruct Hexp. }
  destruct op as [| | | | | | | | | | | | |k]; cbn [eval_binary_op]; try exact Hk.
  - by apply eval_and_sound.
  - by apply eval_or_sound.
  - by apply eval_xor_sound.
  - by apply eval_implies_sound.
  - apply (eval_eq_sound true).
  - apply (eval_eq_sound false).
  - apply eval_inequality_sound.
  - apply eval_arith_sound.
  - by apply eval_bitwise_sound.
  - destruct k; [apply eval_array_index_sound|exact Hk].
Qed.
End compare.
End binary.

Lemma eval_binary_sound sp t op e1 e2 s : let exp := mkExp sp t (ExpX_Binary op e1 e2) in Inv s → plain false exp →
  yields (eval_binary not_a_seq ptr_eq ctx eval exp op e1 e2) s (result s exp).
Proof using Heval ptr_eq_sound L.
  intros exp Hs Hexp. pose proof Hexp as (_ & He1 & He2).
  assert (Hgo : yields (let! e1 := eval e1 in eval_binary_op not_a_seq ptr_eq ctx eval exp op e1 e2) s (result s exp)).
  { apply (yields_eval eval Heval s); [done..|]. intros r1 s' Hs' Hp1 Hm1. by apply eval_binary_op_sound. }
  unfold eval_binary. destruct op; try exact Hgo; (apply def_eq_answer; [done..|]); intros [] Hb; try exact Hgo;
    destruct (Hb eq_refl) as [Hd _]; apply (yields_done s); try done; intros φ σ v _ _;
    rewrite /exp; cbn [den]; rewrite Hd; destruct (den φ e2 σ) as [w|]; try done; cbn; by rewrite bool_decide_true.
Qed.

Lemma eval_binary_opr_sound sp t op e1 e2 s : let exp := mkExp sp t (ExpX_BinaryOpr op e1 e2) in Inv s → plain false exp →
  yields (eval_binary_opr not_a_seq ptr_eq eval exp op e1 e2) s (result s exp).
Proof using Heval ptr_eq_sound L.
  intros exp Hs [He1 He2]. apply (yields_eval eval Heval s); [done..|]. intros r1 s1 Hs1 Hp1 Hm1.
  apply (yields_eval eval Heval s); [done..|]. intros r2 s2 Hs2 Hp2 Hm2.
  assert (Hm : ∀ r, (∀ φ v1 v2, den φ r1 φ = Some v1 → den φ r2 φ = Some v2 →
    den φ r φ = Some (VBool (bool_decide (v1 = v2)))) → means (ScopeMap.map (env s)) exp r).
  { intros r H φ σ v Hφ Hσ. rewrite /exp; cbn [den]. destruct op. intros (v1 & Hv1 & (v2 & Hv2 & [= <-])%bind_Some)%bind_Some.
    apply H; [by apply (Hm1 φ σ)|by apply (Hm2 φ σ)]. }
  apply syn_eq_answer; [done..|]. intros [b|] Hy Hn; apply (yields_done s); try done; apply Hm; intros φ v1 v2 Hv1 Hv2.
  - cbn [den const]. do 2 f_equal. destruct b.
    + destruct (Hy eq_refl) as [Hd _]. rewrite Hd Hv2 in Hv1. injection Hv1 as ->. by rewrite bool_decide_true.
    + rewrite bool_decide_false //. by eapply (Hn eq_refl).
  - cbn [den]. destruct op. by rewrite Hv1 Hv2.
Qed.
End ops.
