(* ===== verification/InterpCalls.v ===== *)
(** * Calls in the interpreter are sound

    The functions of vstd on arrays and sequences, calls of functions of the program with
    the call cache, calls of closures, and [let].  The arguments of a call have been
    evaluated to [rs]. *)

From S2P Require Import Prelude StateRes VirMessages VirAst VirAstUtil Sst SstSemantics SstUtil.
From S2P Require Import InterpSynt InterpState InterpEval InterpTerm InterpSem InterpSynFacts.
From S2P Require Import InterpInv InterpOps InterpBinary.
From S2P Require Ast ScopeMap.
Set Warnings "-rewrite-rw,-register-all,-clear-no-such-hyp".
Local Open Scope st_scope.

(** ** Lists of values *)

Section lists.
Context {A B : Type} (f : A → option B).
Implicit Types (l : list A) (vs : list B).
Lemma mapM_app_some l l' vs vs' : mapM f l = Some vs → mapM f l' = Some vs' → mapM f (l ++ l') = Some (vs ++ vs').
Proof. rewrite !mapM_Some. apply Forall2_app. Qed.
Lemma mapM_insert_some l vs n x v : mapM f l = Some vs → f x = Some v → mapM f (<[n := x]> l) = Some (<[n := v]> vs).
Proof. rewrite !mapM_Some. intros H Hx. by apply Forall2_insert. Qed.
Lemma mapM_insert_same l vs n x x' : mapM f l = Some vs → l !! n = Some x →
  (∀ v, f x = Some v → f x' = Some v) → mapM f (<[n := x']> l) = Some vs.
Proof.
  rewrite !mapM_Some. intros H Hx Hx'. destruct (Forall2_lookup_l _ _ _ _ _ H Hx) as (v & Hv & Hf).
  rewrite -(list_insert_id _ _ _ Hv). by apply Forall2_insert; [|apply Hx'].
Qed.
Lemma mapM_slice_some l vs n m : mapM f l = Some vs → mapM f (take n (drop m l)) = Some (take n (drop m vs)).
Proof. rewrite !mapM_Some. intros H. by apply Forall2_take, Forall2_drop. Qed.
Lemma mapM_last_some l vs x : mapM f l = Some vs → last l = Some x → ∃ v, last vs = Some v ∧ f x = Some v.
Proof.
  rewrite !mapM_Some !last_lookup. intros H Hx. rewrite -(Forall2_length _ _ _ H).
  destruct (Forall2_lookup_l _ _ _ _ _ H Hx) as (v & Hv & Hf). by exists v.
Qed.
End lists.

Section calls.
Context `{L : InterpLaws}.
Variable not_a_seq : Span → Typ → Message.
Variable ptr_eq : Exp → Exp → bool.
Hypothesis ptr_eq_sound : ∀ l r, ptr_eq l r = true → l = r.
Variable eval : Exp → st State interp_error Exp.
Local Abbreviation plain := (plain B (arch ctx)).
Local Abbreviation Inv := (Inv (ctx := ctx) (B := B) (ρ0 := ρ0)).
Local Abbreviation good := (good (ctx := ctx) (B := B) (ρ0 := ρ0)).
Local Abbreviation result := (result (ctx := ctx) (B := B) (ρ0 := ρ0)).
Local Abbreviation means := (means (B := B) (ρ0 := ρ0)).
Local Abbreviation hidden := (hidden (B := B) (ρ0 := ρ0)).
Hypothesis Heval : ∀ e s, Inv s → plain false e → yields (eval e) s (result s e).
Implicit Types (η : gmap VarIdent Exp) (φ σ : gmap VarIdent V).

Lemma is_seq_value φ e s v : is_seq e = Some s → den φ e φ = Some v →
  ∃ l, mapM (λ e, den φ e φ) s = Some l ∧ v = VSeq l.
Proof using.
  destruct e as [sp t x]. unfold is_seq. cbn [exp_x]. destruct x as [| | | | | | | | | | | | | | | | | | | |[|s'| |]|]; try done.
  intros [= ->] (l & Hl & ->)%fmap_Some. by exists l.
Qed.
Lemma is_seq_plain e s : is_seq e = Some s → plain false e → Forall (plain false) s.
Proof using.
  destruct e as [sp t x]. unfold is_seq. cbn [exp_x]. destruct x as [| | | | | | | | | | | | | | | | | | | |[|s'| |]|]; try done.
  intros [= ->] [_ H]. by rewrite allP_Forall in H.
Qed.
Lemma get_int_value φ e i v : get_int e = Some i → den φ e φ = Some v → v = VInt i ∧ (0 ≤ i)%Z.
Proof using.
  unfold get_int. destruct (exp_x e) as [[]| | | | | | | | | | | | | | | | | | | | |] eqn:E; try done.
  intros [-> Hi]%to_usize_in. rewrite (den_const _ _ _ E). by intros [= <-].
Qed.
Lemma clean_seq_value φ e s sp t e' : seq_to_sst (cleanup_exp not_a_seq) sp t s = Ok e' → is_seq e = Some s →
  plain false e → hidden φ → plain false e' ∧ ∀ v, den φ e φ = Some v → den φ e' φ = Some v.
Proof using L.
  intros He Hs Hp Hφ. destruct (seq_to_sst_restores not_a_seq sp t s e' He (is_seq_plain _ _ Hs Hp)) as [Hp' Hv].
  split; [done|]. intros v H. apply (Hv sp t φ φ v); [done|apply Hφ|].
  destruct (is_seq_value φ e s v Hs H) as (l & Hl & ->). cbn [den]. by rewrite Hl.
Qed.

Section call.
Variables (s0 : State) (sp : Span) (t : Typ) (f : Fun) (o : option (Fun * Typs)) (ts : Typs) (args rs : list Exp).
Local Abbreviation η := (ScopeMap.map (env s0)).
Local Abbreviation exp := (mkExp sp t (ExpX_Call (CallFun_Fun f o) ts args)).
Local Abbreviation rf := (resolve_call f o ts).1.
Local Abbreviation rts := (resolve_call f o ts).2.
Hypothesis Hps : Forall (plain false) rs.
Hypothesis Hms : Forall2 (means η) args rs.

Lemma call_means r :
  (∀ φ σ vs v, hidden φ → env_den η φ σ → mapM (λ e, den φ e φ) rs = Some vs → fun_val rf (map erase_typ rts) vs = Some v →
    den φ r φ = Some v) → means η exp r.
Proof using Hms.
  intros H φ σ v Hφ Hσ. cbn [den]. intros (vs & Hvs & Hv)%bind_Some.
  apply (H φ σ vs); [done..|by eapply means_list|]. by destruct o as [[? ?]|].
Qed.
Lemma call_done s r : good s0 s → plain false r →
  (∀ φ σ vs v, hidden φ → env_den η φ σ → mapM (λ e, den φ e φ) rs = Some vs → fun_val rf (map erase_typ rts) vs = Some v →
    den φ r φ = Some v) → yields (sret (E := interp_error) r) s (result s0 exp).
Proof using Hms. intros Hs Hr H. apply yields_done; [done..|]. by apply call_means. Qed.

(** The call with its arguments replaced. *)
Lemma call_args_done s rs' : good s0 s → Forall (plain false) rs' →
  (∀ φ vs, hidden φ → mapM (λ e, den φ e φ) rs = Some vs → mapM (λ e, den φ e φ) rs' = Some vs) →
  yields (sret (E := interp_error) (mkExp sp t (ExpX_Call (CallFun_Fun f o) ts rs'))) s (result s0 exp).
Proof using Hms.
  intros Hs Hp H. apply call_done; [done|cbn; by rewrite allP_Forall|]. intros φ σ vs v Hφ _ Hvs Hv. cbn [den].
  rewrite (H φ vs Hφ Hvs). by destruct o as [[? ?]|].
Qed.
Lemma call_kept s : good s0 s →
  yields (sret (E := interp_error) (mkExp sp t (ExpX_Call (CallFun_Fun f o) ts rs))) s (result s0 exp).
Proof using Hms Hps. intros Hs. by apply call_args_done. Qed.

Lemma ok_seq_sound s n a sq : good s0 s → rs !! n = Some a → is_seq a = Some sq →
  yields (ok_seq not_a_seq exp (CallFun_Fun f o) ts rs n sq) s (result s0 exp).
Proof using Hms Hps L.
  clear Heval eval. intros Hs Ha Hq. unfold ok_seq, seq_arg_to_sst, arg. rewrite Ha. apply yields_bind.
  apply yields_bind, yields_ret. apply yields_bind, yields_lift. intros t' _. apply yields_lift. intros a' Ha'.
  assert (Hpa : plain false a) by by eapply Forall_lookup_1.
  apply call_args_done; [done| |].
  - apply Forall_insert; [done|]. destruct (seq_to_sst_restores _ _ _ _ _ Ha' (is_seq_plain _ _ Hq Hpa)) as [H _]. exact H.
  - intros φ vs Hφ Hvs. eapply mapM_insert_same; [exact Hvs|exact Ha|]. by eapply clean_seq_value.
Qed.

(** ** Arrays *)

Lemma eval_array_sound s k : good s0 s → is_array_fn names rf = Some k →
  yields (eval_array k exp rs) s (result s0 exp).
Proof using Hms Hps L.
  clear Heval eval. intros Hs Hk. unfold eval_array. cbn [exp_x]. apply yields_lifts. intros a Ha.
  destruct (rs !! 0) as [a'|] eqn:Ea; [|done]. injection Ha as ->.
  destruct (exp_x a) as [| | | | | | | | | | | | | | | | | | | |[| | |es]|] eqn:Ex; try apply yields_panic.
  apply yields_bind. eapply yields_mono with (P := λ _, eq s).
  { repeat (case_match; try apply yields_panic); by apply yields_lift. }
  intros t' ? <-. destruct k.
  assert (Hpa : plain false a) by by eapply Forall_lookup_1. pose proof (plain_array _ _ Ex Hpa) as Hes.
  apply call_done; [done|split; [done|by rewrite allP_Forall]|]. intros φ σ vs v Hφ _ Hvs Hv.
  pose proof (law_array _ _ _ _ Hk Hv) as Hlaw. destruct vs as [|u [|]]; [done| |done].
  apply mapM_Some in Hvs. destruct (Forall2_lookup_l _ _ _ _ _ Hvs Ea) as (u' & [= <-] & Hu).
  apply (den_array _ _ _ _ Ex) in Hu as (l & Hl & ->). rewrite (Hlaw l eq_refl). cbn [den]. by rewrite Hl.
Qed.

(** ** Sequences *)

Lemma arg_step {A} n s (k : Exp → st State interp_error A) Q :
  (∀ a, rs !! n = Some a → plain false a → yields (k a) s Q) → yields (sbind (arg rs n) k) s Q.
Proof using Hps.
  intros H. apply yields_lifts. intros a Ha. destruct (rs !! n) as [a'|] eqn:E; [|done]. injection Ha as ->.
  apply H; [done|]. by eapply Forall_lookup_1.
Qed.

Section seq.
Variables (k : SeqFn) (s : State).
Hypothesis Hs : good s0 s.
Hypothesis Hk : is_sequence_fn names rf = Some k.

Lemma seq_done r : plain false r →
  (∀ φ σ vs v, hidden φ → env_den η φ σ → mapM (λ e, den φ e φ) rs = Some vs → seq_fun k vs v → den φ r φ = Some v) →
  yields (sret (E := interp_error) r) s (result s0 exp).
Proof using Hms Hs Hk L. intros Hr H. apply call_done; [done..|]. intros φ σ vs v Hφ Hσ Hvs Hv. by eapply H, law_seq. Qed.
Lemma seq_new_done es : Forall (plain false) es →
  (∀ φ σ vs v, hidden φ → env_den η φ σ → mapM (λ e, den φ e φ) rs = Some vs → seq_fun k vs v →
    ∃ l, mapM (λ e, den φ e φ) es = Some l ∧ v = VSeq l) →
  yields (seq_new exp es) s (result s0 exp).
Proof using Hms Hs Hk L.
  intros Hr H. apply seq_done; [split; [done|by rewrite allP_Forall]|]. intros φ σ vs v Hφ Hσ Hvs Hv.
  destruct (H φ σ vs v Hφ Hσ Hvs Hv) as (l & Hl & ->). cbn [den exp_new]. by rewrite Hl.
Qed.
End seq.

(** The value of an argument; [vs] has been destructed. *)
Local Ltac arg_value Hvs Ha Hd :=
  let u := fresh "u" in let Hu := fresh in
  destruct (den_lookup _ _ _ _ _ Hvs Ha) as (u & Hu & Hd); injection Hu as ->.
Local Ltac seq_value Hvs Ha Hq l Hl :=
  let Hd := fresh in arg_value Hvs Ha Hd; apply (is_seq_value _ _ _ _ Hq) in Hd as (l & Hl & ->).
Local Ltac int_value Hvs Ha Hi Hpos :=
  let Hd := fresh in arg_value Hvs Ha Hd; apply (get_int_value _ _ _ _ Hi) in Hd as [-> Hpos].

Section seqs.
Variable s : State.
Hypothesis Hs : good s0 s.
Local Abbreviation call k := (eval_seq_call not_a_seq ptr_eq ctx eval exp (CallFun_Fun f o) ts rs k).
Local Abbreviation is_fn k := (is_sequence_fn names rf = Some k).

Lemma seq_empty_sound : is_fn SeqFn_Empty → yields (call SeqFn_Empty) s (result s0 exp).
Proof using Hs Hms L.
  clear Heval. intros Hk. apply (seq_new_done _ s Hs Hk); [done|]. intros φ σ vs v _ _ Hvs Hv.
  destruct vs; [|done]. rewrite Hv. by exists [].
Qed.
Lemma seq_push_sound : is_fn SeqFn_Push → yields (call SeqFn_Push) s (result s0 exp).
Proof using Hs Hms Hps L.
  clear Heval. intros Hk. apply arg_step. intros a0 Ha0 Hp0. destruct (is_seq a0) as [q|] eqn:Hq; [|by apply call_kept].
  apply arg_step. intros a1 Ha1 Hp1. apply (seq_new_done _ s Hs Hk).
  - apply Forall_app. split; [by eapply is_seq_plain|by repeat constructor].
  - intros φ σ vs v _ _ Hvs Hv. destruct vs as [|? [|? [|]]]; try done. seq_value Hvs Ha0 Hq l Hl. arg_value Hvs Ha1 Hd.
    exists (l ++ [u]). split; [|by apply Hv]. apply mapM_app_some; [done|]. cbn. by rewrite Hd.
Qed.
Lemma seq_update_sound : is_fn SeqFn_Update → yields (call SeqFn_Update) s (result s0 exp).
Proof using Hs Hms Hps L.
  clear Heval. intros Hk. apply arg_step. intros a0 Ha0 Hp0. destruct (is_seq a0) as [q|] eqn:Hq; [|by apply call_kept].
  apply arg_step. intros a1 Ha1 Hp1. destruct (get_int a1) as [i|] eqn:Hi; [|by eapply ok_seq_sound].
  destruct (Z.ltb_spec i (vec_len q)) as [Hlt|]; [|by eapply ok_seq_sound].
  apply arg_step. intros a2 Ha2 Hp2. pose proof (is_seq_plain _ _ Hq Hp0) as Hpq. apply (seq_new_done _ s Hs Hk).
  - by apply Forall_insert.
  - intros φ σ vs v _ _ Hvs Hv. destruct vs as [|? [|? [|? [|]]]]; try done.
    seq_value Hvs Ha0 Hq l Hl. int_value Hvs Ha1 Hi Hpos. arg_value Hvs Ha2 Hd.
    eexists. split; [by apply mapM_insert_some|]. apply Hv; [done..|]. apply mapM_Some, Forall2_length in Hl.
    unfold vec_len in Hlt. lia.
Qed.
Lemma seq_subrange_sound : is_fn SeqFn_Subrange → yields (call SeqFn_Subrange) s (result s0 exp).
Proof using Hs Hms Hps L.
  clear Heval. intros Hk. apply arg_step. intros a0 Ha0 Hp0. destruct (is_seq a0) as [q|] eqn:Hq; [|by apply call_kept].
  apply arg_step. intros a1 Ha1 Hp1. apply arg_step. intros a2 Ha2 Hp2.
  destruct (get_int a1) as [i|] eqn:Hi; [|by eapply ok_seq_sound]. destruct (get_int a2) as [j|] eqn:Hj; [|by eapply ok_seq_sound].
  destruct (_ && _) eqn:Hin; [|by eapply ok_seq_sound]. pose proof (is_seq_plain _ _ Hq Hp0) as Hpq. apply (seq_new_done _ s Hs Hk).
  - by apply Forall_take, Forall_drop.
  - intros φ σ vs v _ _ Hvs Hv. destruct vs as [|? [|? [|? [|]]]]; try done.
    seq_value Hvs Ha0 Hq l Hl. int_value Hvs Ha1 Hi Hpos. int_value Hvs Ha2 Hj Hpos'.
    eexists. split; [by apply mapM_slice_some|]. apply mapM_Some, Forall2_length in Hl.
    unfold vec_len in Hin. apply (Hv l i j); [done..| |]; lia.
Qed.
Lemma seq_add_sound : is_fn SeqFn_Add → yields (call SeqFn_Add) s (result s0 exp).
Proof using Hs Hms Hps L.
  clear Heval. intros Hk. apply arg_step. intros a0 Ha0 Hp0. apply arg_step. intros a1 Ha1 Hp1.
  destruct (is_seq a0) as [q|] eqn:Hq, (is_seq a1) as [q'|] eqn:Hq'; try by (try eapply ok_seq_sound; try apply call_kept).
  apply (seq_new_done _ s Hs Hk).
  - apply Forall_app. split; by eapply is_seq_plain.
  - intros φ σ vs v _ _ Hvs Hv. destruct vs as [|? [|? [|]]]; try done. seq_value Hvs Ha0 Hq l Hl. seq_value Hvs Ha1 Hq' l' Hl'.
    exists (l ++ l'). split; [by apply mapM_app_some|]. by apply Hv.
Qed.
Lemma seq_len_sound : is_fn SeqFn_Len → yields (call SeqFn_Len) s (result s0 exp).
Proof using Hs Hms Hps L.
  clear Heval. intros Hk. apply arg_step. intros a0 Ha0 Hp0. destruct (is_seq a0) as [q|] eqn:Hq; [|by apply call_kept].
  apply (seq_done _ s Hs Hk); [done|]. intros φ σ vs v _ _ Hvs Hv. destruct vs as [|? [|]]; try done.
  seq_value Hvs Ha0 Hq l Hl. rewrite (Hv l eq_refl). cbn. do 2 f_equal. apply mapM_Some, Forall2_length in Hl.
  unfold vec_len. by rewrite Hl.
Qed.
Lemma seq_index_sound : is_fn SeqFn_Index → yields (call SeqFn_Index) s (result s0 exp).
Proof using Hs Hms Hps L.
  clear Heval. intros Hk. apply arg_step. intros a0 Ha0 Hp0. destruct (is_seq a0) as [q|] eqn:Hq; [|by apply call_kept].
  assert (Hok : ∀ s, good s0 s → yields (ok_seq not_a_seq exp (CallFun_Fun f o) ts rs 0 q) s (result s0 exp)).
  { intros s' Hs'. by eapply ok_seq_sound. }
  assert (Hw : ∀ n, yields (warn_unsimplified ctx exp n;! ok_seq not_a_seq exp (CallFun_Fun f o) ts rs 0 q) s (result s0 exp)).
  { intros n. by apply (yields_warning (ctx := ctx) (B := B) (ρ0 := ρ0) s0). }
  apply arg_step. intros a1 Ha1 Hp1.
  destruct (exp_x a1) as [[]| | | | | | | | | | | | | | | | | | | | |] eqn:E1; try by apply Hok.
  destruct (to_usize i) as [n|] eqn:Ei; [|apply Hw]. destruct (Z.ltb_spec n (vec_len q)) as [Hlt|]; [|apply Hw].
  apply yields_lift. intros a Ha. destruct (q !! Z.to_nat n) as [a'|] eqn:El; [|done]. injection Ha as ->.
  assert (Hi : get_int a1 = Some n) by by unfold get_int; rewrite E1.
  eapply (seq_done _ s Hs Hk); [|intros φ σ vs v _ _ Hvs Hv|done].
  - eapply Forall_lookup_1; [|exact El]. by eapply is_seq_plain.
  - destruct vs as [|? [|? [|]]]; try done. seq_value Hvs Ha0 Hq l Hl. int_value Hvs Ha1 Hi Hpos.
    destruct (den_lookup _ _ _ _ _ Hl El) as (u & Hu & Hd). apply mapM_Some, Forall2_length in Hl. unfold vec_len in Hlt.
    rewrite (Hv l n eq_refl eq_refl) in Hu; [lia|]. congruence.
Qed.
Lemma seq_last_sound : is_fn SeqFn_Last → yields (call SeqFn_Last) s (result s0 exp).
Proof using Hs Hms Hps L.
  clear Heval. intros Hk. apply arg_step. intros a0 Ha0 Hp0. destruct (is_seq a0) as [q|] eqn:Hq; [|by apply call_kept].
  destruct (last q) as [e|] eqn:El; [|by eapply ok_seq_sound]. apply (seq_done _ s Hs Hk).
  - pose proof (is_seq_plain _ _ Hq Hp0) as Hpq. rewrite last_lookup in El. by eapply Forall_lookup_1.
  - intros φ σ vs v _ _ Hvs Hv. destruct vs as [|? [|]]; try done. seq_value Hvs Ha0 Hq l Hl.
    destruct (mapM_last_some _ _ _ _ Hl El) as (u & Hu & Hd). assert (l ≠ []) as Hne by by intros ->; discriminate Hu.
    rewrite (Hv l eq_refl Hne) in Hu. congruence.
Qed.

(** [Seq::new]: the lambda, already evaluated, is applied to each index. *)
Section new.
Hypothesis Hs0 : Inv s0.
Variables (a1 : Exp) (len : nat).
Hypothesis Hp1 : plain false a1.
Definition applied (j : Z) (r : Exp) : Prop := ∀ φ σ g w, hidden φ → env_den η φ σ → den φ a1 φ = Some g →
  app g [VInt j] = Some w → den φ r φ = Some w.

Lemma apply_index_sound s1 sp' t' tj j : good s0 s1 →
  yields (eval (mkExp sp' t' (ExpX_CallLambda a1 [mkExp sp' tj (ExpX_Const (Constant_Int j))]))) s1
    (λ r s', good s0 s' ∧ plain false r ∧ applied j r).
Proof using Heval Hs0 Hp1.
  intros Hs1. eapply yields_mono; [apply Heval; [by eapply good_inv|by repeat split]|].
  intros r s' Hr. apply (result_from s0 _ _ _ _ Hs1) in Hr as (Hg & Hp & Hm). split; [done|]. split; [done|].
  intros φ σ g w Hφ Hσ Hg' Hw. apply (Hm φ σ w Hφ Hσ). cbn [den].
  rewrite (den_up (ctx := ctx) (B := B) a1 φ σ g); [|done|done|done].
  by eapply env_den_hidden; [by apply (inv_env s0 Hs0)| |].
Qed.
Lemma collect_range_sound (h : Z → st State interp_error Exp) :
  (∀ j s1, good s0 s1 → yields (h j) s1 (λ r s', good s0 s' ∧ plain false r ∧ applied j r)) →
  ∀ n i s1, good s0 s1 → yields (collect_range h n i) s1 (λ es s', good s0 s' ∧ Forall (plain false) es
    ∧ length es = n ∧ ∀ j r, es !! j = Some r → applied (i + Z.of_nat j) r).
Proof using.
  intros Hh n. induction n as [|n IH]; intros i s1 Hs1; cbn [collect_range].
  { apply yields_ret. split; [done|]. split; [constructor|]. split; [done|]. intros j r. by rewrite lookup_nil. }
  apply yields_bind. eapply yields_mono; [by apply Hh|]. intros e s2 (Hs2 & He & Ha).
  apply yields_bind. eapply yields_mono; [by apply IH|]. intros es s3 (Hs3 & Hes & Hlen & Has).
  apply yields_ret. split; [done|]. split; [by constructor|]. split; [by cbn; rewrite Hlen|].
  intros [|j] r; cbn.
  - intros [= <-]. by rewrite Z.add_0_r.
  - intros Hj%Has. by replace (i + Z.of_nat (S j))%Z with (i + 1 + Z.of_nat j)%Z by (clear; lia).
Qed.
Lemma applied_all φ σ g es l : hidden φ → env_den η φ σ → den φ a1 φ = Some g → length es = len →
  (∀ j r, es !! j = Some r → applied (Z.of_nat j) r) →
  mapM (λ j, app g [VInt (Z.of_nat j)]) (seq 0 len) = Some l → mapM (λ e, den φ e φ) es = Some l.
Proof using.
  clear Heval eval. intros Hφ Hσ Hg Hlen Has Hl%mapM_Some. apply mapM_Some. apply Forall2_same_length_lookup. split.
  - rewrite Hlen -(Forall2_length _ _ _ Hl). by rewrite length_seq.
  - intros j r w Hr Hw. destruct (Forall2_lookup_r _ _ _ _ _ Hl Hw) as (j' & Hj & Happ).
    apply lookup_seq in Hj as [-> Hj]. by eapply (Has j r).
Qed.
End new.

Lemma seq_new_sound : Inv s0 → is_fn SeqFn_New → yields (call SeqFn_New) s (result s0 exp).
Proof using Heval Hs Hms Hps L.
  intros Hs0 Hk. apply arg_step. intros a0 Ha0 Hp0. destruct (get_int a0) as [len|] eqn:Hi; [|by apply call_kept].
  apply arg_step. intros a1 Ha1 Hp1. apply yields_bind.
  eapply yields_mono; [apply (collect_range_sound a1); [|exact Hs]|].
  { intros j s1 Hs1. apply yields_lifts. intros t' _. by apply apply_index_sound. }
  intros es s1 (Hs1 & Hes & Hlen & Has). apply (seq_new_done _ s1 Hs1 Hk); [done|]. intros φ σ vs v Hφ Hσ Hvs Hv.
  destruct vs as [|? [|? [|]]]; try done. int_value Hvs Ha0 Hi Hpos. arg_value Hvs Ha1 Hg.
  destruct (Hv len eq_refl Hpos) as (l & Hl & ->). exists l. split; [|done]. by eapply (applied_all a1 (Z.to_nat len)).
Qed.

Lemma seq_arg_step n q s1 (k : Exp → st State interp_error Exp) a Q : rs !! n = Some a → is_seq a = Some q →
  (∀ a', plain false a' → (∀ φ v, hidden φ → den φ a φ = Some v → den φ a' φ = Some v) → yields (k a') s1 Q) →
  yields (let! a' := seq_arg_to_sst not_a_seq ts rs n q in k a') s1 Q.
Proof using Hps L.
  clear Heval eval. intros Ha Hq Hk. unfold seq_arg_to_sst, arg. rewrite Ha. apply yields_bind.
  apply yields_bind, yields_ret. apply yields_bind, yields_lift. intros t' _. apply yields_lift. intros a' Ha'.
  assert (Hpa : plain false a) by by eapply Forall_lookup_1.
  destruct (seq_to_sst_restores _ _ _ _ _ Ha' (is_seq_plain _ _ Hq Hpa)) as [H _].
  apply Hk; [exact H|]. intros φ v Hφ. by eapply clean_seq_value.
Qed.
Lemma seq_ext_equal_sound : is_fn SeqFn_ExtEqual → yields (call SeqFn_ExtEqual) s (result s0 exp).
Proof using Hs Hms Hps L ptr_eq_sound.
  clear Heval. intros Hk. apply arg_step. intros a0 Ha0 Hp0. apply arg_step. intros a1 Ha1 Hp1.
  destruct (is_seq a0) as [q|] eqn:Hq, (is_seq a1) as [q'|] eqn:Hq'; try by (try eapply ok_seq_sound; try apply call_kept).
  pose proof (is_seq_plain _ _ Hq Hp0) as Hpq. pose proof (is_seq_plain _ _ Hq' Hp1) as Hpq'.
  assert (Hsyn : ∀ l r, plain false l → plain false r → answers (syntactic_eq not_a_seq ptr_eq l r) l r).
  { by apply syntactic_eq_answers. }
  apply yields_lifts. intros b Hb. destruct (vec_eq (syntactic_eq not_a_seq ptr_eq) q q') as [b'|[]|] eqn:E; try done.
  injection Hb as ->. destruct b as [b|].
  - apply (seq_done _ s Hs Hk); [done|]. intros φ σ vs v _ _ Hvs Hv. destruct vs as [|? [|? [|]]]; try done.
    seq_value Hvs Ha0 Hq l Hl. seq_value Hvs Ha1 Hq' l' Hl'. rewrite (Hv l l' eq_refl eq_refl). cbn. do 2 f_equal. destruct b.
    + apply (vec_agree _ Hsyn _ _ Hpq Hpq') in E. rewrite bool_decide_true //.
      rewrite (agree_den _ _ E) in Hl. congruence.
    + rewrite bool_decide_false //. exact (vec_differ _ Hsyn _ _ φ φ l l' Hpq Hpq' E Hl Hl').
  - eapply seq_arg_step; [done..|]. intros a0' Hp0' Hm0. eapply seq_arg_step; [done..|]. intros a1' Hp1' Hm1.
    apply call_done; [done|done|]. intros φ σ vs v Hφ _ Hvs Hf. pose proof (law_seq _ _ _ _ _ Hk Hf) as Hv.
    destruct vs as [|? [|? [|]]]; try done. arg_value Hvs Ha0 Hd0. arg_value Hvs Ha1 Hd1.
    cbn [den exp_new mapM]. rewrite (Hm0 φ _ Hφ Hd0) (Hm1 φ _ Hφ Hd1). cbn. by destruct o as [[? ?]|].
Qed.

Lemma eval_seq_sound k : Inv s0 → is_fn k → yields (eval_seq not_a_seq ptr_eq ctx eval k exp rs) s (result s0 exp).
Proof using Heval Hs Hms Hps L ptr_eq_sound.
  intros Hs0 Hk. unfold eval_seq. cbn [exp_x]. destruct k.
  - by apply seq_empty_sound.
  - by apply seq_new_sound.
  - by apply seq_push_sound.
  - by apply seq_update_sound.
  - by apply seq_subrange_sound.
  - by apply seq_add_sound.
  - by apply seq_len_sound.
  - by apply seq_index_sound.
  - by apply seq_ext_equal_sound.
  - by apply seq_last_sound.
Qed.
End seqs.
End call.
End calls.
