(* ===== verification/InterpFuns.v ===== *)
(** * Functions, closures and [let] in the interpreter are sound

    The body of a function runs in an environment of its own; the cache of calls keeps
    results with the meaning of the call. *)

From S2P Require Import Prelude StateRes VirMessages VirAst VirAstUtil Sst SstSemantics SstUtil.
From S2P Require Import InterpSynt InterpState InterpEval InterpTerm InterpSem InterpSynFacts.
From S2P Require Import InterpInv InterpOps InterpBinary InterpCalls.
From S2P Require Ast ScopeMap.
Set Warnings "-rewrite-rw,-register-all,-clear-no-such-hyp".
Local Open Scope st_scope.

Lemma lift_fuel_inv {A} (m : res fuel_error A) x : lift_fuel m = Ok x → m = Ok x.
Proof. by destruct m as [y|[]|]; try intros [= ->]. Qed.

Section calls.
Context `{L : InterpLaws}.
Variable not_a_seq : Span → Typ → Message.
Variable ptr_eq : Exp → Exp → bool.
Hypothesis ptr_eq_sound : ∀ l r, ptr_eq l r = true → l = r.
Variable probe : list hashed → list hashed → bool.
Variable eval : Exp → st State interp_error Exp.
Local Abbreviation plain := (plain B (arch ctx)).
Local Abbreviation Inv := (Inv (ctx := ctx) (B := B) (ρ0 := ρ0)).
Local Abbreviation good := (good (ctx := ctx) (B := B) (ρ0 := ρ0)).
Local Abbreviation result := (result (ctx := ctx) (B := B) (ρ0 := ρ0)).
Local Abbreviation means := (means (B := B) (ρ0 := ρ0)).
Local Abbreviation hidden := (hidden (B := B) (ρ0 := ρ0)).
Local Abbreviation env_ok := (env_ok (ctx := ctx) (B := B)).
Local Abbreviation entry_ok := (entry_ok (ctx := ctx) (B := B) (ρ0 := ρ0)).
Local Abbreviation cache_ok := (cache_ok (ctx := ctx) (B := B) (ρ0 := ρ0)).
Hypothesis Heval : ∀ e s, Inv s → plain false e → yields (eval e) s (result s e).
Implicit Types (η : gmap VarIdent Exp) (φ σ : gmap VarIdent V).

(** ** The cache *)

Lemma cache_set_env g s : cache (set_env g s) = cache s.
Proof using. by destruct s. Qed.
Lemma simplified_set_env g s : enable_simplified_cache (set_env g s) = enable_simplified_cache s.
Proof using. by destruct s. Qed.
Lemma env_set_env g s : env (set_env g s) = g (env s).
Proof using. by destruct s. Qed.

Lemma entry_same f k k' r : key_eq not_a_seq ptr_eq k k' = Ok true → Forall (plain false) (key_args k) →
  Forall (plain false) (key_args k') → entry_ok f k r ↔ entry_ok f k' r.
Proof using ptr_eq_sound L.
  clear Heval eval. unfold key_eq. destruct (n_types_equal _ _) eqn:Ht; [|done]. intros Ha Hp Hp'.
  apply n_types_equal_erase in Ht. apply (syntactic_eq_exps_agree not_a_seq ptr_eq ptr_eq_sound _ _ Hp Hp') in Ha.
  unfold entry_ok. rewrite Ht. pose proof (agree_den _ _ Ha) as Hd.
  split; intros (_ & Hr & H); split; try done; split; try done; intros φ vs v Hφ Hvs; apply H; try done.
  - by rewrite Hd.
  - by rewrite -Hd.
Qed.

Lemma map_get_sound f m k r : Forall (λ p, entry_ok f p.1 p.2) m → Forall (plain false) (key_args k) →
  map_get not_a_seq ptr_eq probe m k = Ok (Some r) → entry_ok f k r.
Proof using ptr_eq_sound L.
  clear Heval eval. intros Hm Hk. induction Hm as [|[k' r'] m He _ IH]; cbn [map_get]; [done|].
  unfold key_found. destruct (probe _ _); [|done]. destruct (key_eq _ _ k k') as [[]| |] eqn:E; try done; cbn.
  intros [= ->]. apply (entry_same f k k' r E Hk); [apply He|done].
Qed.
Lemma map_insert_sound f m k r m' : Forall (λ p, entry_ok f p.1 p.2) m → entry_ok f k r →
  map_insert not_a_seq ptr_eq probe m k r = Ok m' → Forall (λ p, entry_ok f p.1 p.2) m'.
Proof using ptr_eq_sound L.
  clear Heval eval. intros Hm Hr. revert m'. induction Hm as [|[k' r'] m He Hm IH]; intros m'; cbn [map_insert].
  { intros [= <-]. by constructor; [|constructor]. }
  destruct (key_found _ _ _ k k') as [[]| |] eqn:E; try done; cbn.
  - intros [= <-]. constructor; [|done]. unfold key_found in E. destruct (probe _ _); [|done].
    by apply (entry_same f k k' r E (proj1 Hr) (proj1 He)).
  - destruct (map_insert _ _ _ m k r) as [m1| |] eqn:Em; try done. intros [= <-]. constructor; [done|]. by apply IH.
Qed.
Lemma cache_entries s f m : Inv s → cache s !! f = Some m → Forall (λ p, entry_ok f p.1 p.2) m.
Proof using.
  intros Hs Hf. apply Forall_forall. intros [k r] Hin. by apply (inv_cache s Hs f m).
Qed.

Lemma lookup_call_sound s0 s f ts rs mm (K : option Exp → st State interp_error Exp) Q : good s0 s → Forall (plain false) rs →
  (∀ s', good s0 s' → yields (K None) s' Q) →
  (∀ r s', good s0 s' → entry_ok f (mkCallKey ts rs) r → yields (K (Some r)) s' Q) →
  yields (let! prev := lookup_call not_a_seq ptr_eq probe f ts rs mm in K prev) s Q.
Proof using ptr_eq_sound L.
  clear Heval eval. intros Hs Hrs Hn Hr. apply yields_bind. intros o s'. unfold lookup_call.
  destruct (_ && _); [|by intros [= <- <-]; apply Hn].
  set (s1 := if perf s then count_call f s else s). assert (Hs1 : good s0 s1).
  { unfold s1. destruct (perf s); [|done]. apply unseen_good; [apply unseen_count_call|done]. }
  destruct (cache s1 !! f) as [m|] eqn:Em; [|by intros [= <- <-]; apply Hn].
  destruct (map_get _ _ _ m _) as [[r|]|[]|] eqn:Eg; try done; intros [= <- <-]; [|by apply Hn].
  apply Hr; [done|]. eapply map_get_sound; [|done|exact Eg]. eapply cache_entries; [by eapply good_inv|done].
Qed.
Lemma insert_call_sound s0 s f ts rs r mm (K : st State interp_error Exp) Q : good s0 s → entry_ok f (mkCallKey ts rs) r →
  (∀ s', good s0 s' → yields K s' Q) → yields (insert_call not_a_seq ptr_eq probe f ts rs r mm;! K) s Q.
Proof using ptr_eq_sound L.
  clear Heval eval. intros Hs Hr HK. apply yields_bind. intros [] s'. unfold insert_call.
  destruct (_ && _); [|by intros [= <-]; apply HK].
  destruct (map_insert _ _ _ _ _ _) as [m'|[]|] eqn:Em; try done. intros [= <-]. apply HK.
  destruct Hs as [Hi He]. split; [|by destruct s]. destruct Hi as [H1 H2 H3 H4].
  split; [by destruct s|by destruct s| |by destruct s].
  intros g l k r' Hl Hin. assert (Ec : cache (set_cache <[f := m']> s) = <[f := m']> (cache s)) by by destruct s.
  rewrite Ec in Hl. destruct (decide (g = f)) as [->|Hg].
  - rewrite lookup_insert_eq in Hl. injection Hl as <-.
    assert (Hm : Forall (λ p, entry_ok f p.1 p.2) m').
    { eapply map_insert_sound; [|exact Hr|exact Em]. destruct (cache s !! f) as [m|] eqn:E; [|constructor]. cbn.
      apply Forall_forall. intros [k1 r1] Hin1. by apply (H3 f m). }
    rewrite Forall_forall in Hm. by apply (Hm (k, r')).
  - rewrite lookup_insert_ne // in Hl. by apply (H3 g l).
Qed.

(** ** An environment of its own *)

Lemma enter_env s e' : Inv s → env_wf e' → env_ok (ScopeMap.map e') → Inv (set_env (λ _, e') s).
Proof using.
  intros [H1 H2 H3 H4] Hwf Hok. split; rewrite ?env_set_env ?cache_set_env ?simplified_set_env //.
Qed.
Lemma leave_env s0 s : Inv s0 → Inv s → good s0 (set_env (λ _, env s0) s).
Proof using.
  intros Hs0 Hs. split; [|by rewrite env_set_env]. apply enter_env; [done|apply Hs0|apply Hs0].
Qed.

Section body.
Variables (func : FunctionSst) (ax : FuncSpecBodySst) (f : Fun) (ts : Typs) (rs : list Exp).
Hypothesis Hf : fun_ssts ctx !! f = Some func.
Hypothesis Hax : spec_axioms func = Some ax.
Hypothesis Hinline : inline_okay (fsst_kind func) = true.
Hypothesis Hna : is_array_fn names f = None.
Hypothesis Hns : is_sequence_fn names f = None.
Hypothesis Hps : Forall (plain false) rs.

Lemma call_env_spec e : call_env func rs = Ok e →
  env_wf e ∧ ScopeMap.map e = list_to_map (zip (pars func) rs) ∪ ∅ ∧ env_ok (ScopeMap.map e).
Proof using Hf Hps L.
  clear Heval eval. intros He. apply env_insert_all_spec in He as (Hwf & Hm & _); [|apply env_wf_new].
  change (ScopeMap.map ScopeMap.new) with (∅ : gmap VarIdent Exp) in Hm. split; [done|]. split; [done|]. rewrite Hm.
  apply env_ok_union; [apply env_ok_empty|by eapply law_pars|done].
Qed.

(** [e] is the body or the condition of [when], for these type arguments. *)
Definition source (te : TypeEnv) (e e' : Exp) : Prop := call_type_env func ts = Ok te
  ∧ subst_exp (ScopeMap.map te) ∅ e = Ok e' ∧ (e = body_exp ax ∨ decrease_when ax = Some e).
Lemma source_plain te e e' : source te e e' → plain true e'.
Proof using Hf Hax L. clear Heval eval. intros (Hte & Hs & He). by eapply law_plain. Qed.

(** [σ] is the environment of a call with the arguments [vs]. *)
Local Abbreviation args_env φ vs := (list_to_map (zip (pars func) vs) ∪ φ).
Lemma source_up te e e' φ vs v : source te e e' → hidden φ → den ∅ e' (args_env ρ0 vs) = Some v →
  den φ e' (args_env φ vs) = Some v.
Proof using Hf Hax L.
  clear Heval eval. intros He Hφ Hv.
  eapply (den_mono B (arch ctx) ∅ φ true e'); [apply map_empty_subseteq|by eapply source_plain| |exact Hv].
  apply map_union_mono_l, Hφ.
Qed.
Lemma args_env_den φ vs e : call_env func rs = Ok e → mapM (λ e, den φ e φ) rs = Some vs →
  env_den (ScopeMap.map e) φ (args_env φ vs).
Proof using Hf Hps L.
  clear Heval eval. intros (_ & -> & _)%call_env_spec Hvs. apply env_den_union; [apply env_den_empty|done].
Qed.

(** The value of the call: [e'] has it in the environment of the call. *)
Definition call_value e' : Prop := ∀ φ vs v, hidden φ → mapM (λ e, den φ e φ) rs = Some vs →
  fun_val f (map erase_typ ts) vs = Some v → den φ e' (args_env φ vs) = Some v.

Lemma body_value te body : source te (body_exp ax) body → decrease_when ax = None → call_value body.
Proof using Hf Hax Hinline Hna Hns L.
  clear Heval eval Hps. intros Hb Hw φ vs v Hφ Hvs Hv. eapply source_up; [exact Hb|done|]. destruct Hb as (Hte & Hb & _).
  pose proof (law_body f func ax ts te body vs v Hf Hax Hinline Hna Hns Hte Hb Hv) as H. by rewrite Hw in H.
Qed.
Lemma when_value te body w w' : source te (body_exp ax) body → source te w w' → decrease_when ax = Some w →
  ∀ φ vs v, hidden φ → mapM (λ e, den φ e φ) rs = Some vs → fun_val f (map erase_typ ts) vs = Some v →
  ∃ b, den φ w' (args_env φ vs) = Some (VBool b) ∧ (b = true → den φ body (args_env φ vs) = Some v).
Proof using Hf Hax Hinline Hna Hns L.
  clear Heval eval Hps. intros Hb Hw Hwh φ vs v Hφ Hvs Hv. pose proof Hb as (Hte & Hsb & _). pose proof Hw as (_ & Hsw & _).
  pose proof (law_body f func ax ts te body vs v Hf Hax Hinline Hna Hns Hte Hsb Hv) as H. rewrite Hwh in H.
  destruct (H w' Hsw) as (b & Hd & Hbody). exists b. split; [by eapply source_up|]. intros Hb1. eapply source_up; [exact Hb|done|auto].
Qed.

Lemma result_entry e body r : call_env func rs = Ok e → plain false r → means (ScopeMap.map e) body r → call_value body →
  entry_ok f (mkCallKey ts rs) r.
Proof using Hf Hps L.
  clear Heval eval Hinline Hna Hns. intros He Hr Hm Hb. split; [done|]. split; [done|]. intros φ vs v Hφ Hvs Hv.
  apply (Hm φ (args_env φ vs)); [done|by apply args_env_den|by apply Hb].
Qed.

Lemma eval_body_sound s0 s una (K : Exp → st State interp_error Exp) Q : Inv s0 → good s0 s →
  entry_ok f (mkCallKey ts rs) una →
  (∀ r s', good s0 s' → entry_ok f (mkCallKey ts rs) r → yields (K r) s' Q) →
  yields (let! r := eval_body eval func ax ts rs una in K r) s Q.
Proof using Heval Hf Hax Hinline Hna Hns Hps L.
  intros Hs0 Hs Huna HK. apply yields_bind. eapply yields_mono with (P := λ r s', good s0 s' ∧ entry_ok f (mkCallKey ts rs) r);
    [|by intros r s' []; apply HK].
  clear HK K. apply yields_lifts. intros e He. destruct (call_env_spec e He) as (Hwf & Hm & Hok). apply yields_lifts. intros te Hte.
  apply yields_bind, yields_read. apply yields_bind, yields_modify.
  assert (Hs1 : Inv (set_env (λ _, e) s)) by (apply enter_env; [by eapply good_inv|done|done]).
  assert (He1 : env (set_env (λ _, e) s) = e) by apply env_set_env. revert Hs1 He1.
  generalize (set_env (λ _, e) s) as s1. intros s1 Hs1 He1.
  assert (Hout : env s = env s0) by by destruct Hs.
  apply yields_bind. eapply yields_mono with (P := λ b s', (Inv s' ∧ env s' = e) ∧
    (b = true → ∀ body, source te (body_exp ax) body → call_value body)).
  { destruct (decrease_when ax) as [w|] eqn:Hw.
    - apply yields_lifts. intros w' Hw'%lift_fuel_inv. assert (Hsrc : source te w w') by by split; [|split; [|right]].
      apply (yields_eval eval Heval s1); [done| |].
      { eapply plain_source, source_plain, Hsrc. }
      intros r s2 [Hs2 He2] Hr Hmr. apply yields_ret. split; [by split; [|rewrite He2]|].
      destruct (as_bool r) as [[]|] eqn:Er; try done. intros _ body Hb φ vs v Hφ Hvs Hv.
      destruct (when_value te body w w' Hb Hsrc Hw φ vs v Hφ Hvs Hv) as (b & Hd & Hbody). apply Hbody.
      rewrite He1 in Hmr. apply (Hmr φ (args_env φ vs) _ Hφ) in Hd; [|by apply args_env_den].
      by apply (den_as_bool _ _ _ _ Er), VBool_inj in Hd.
    - apply yields_ret. split; [done|]. intros _ body Hb. by eapply body_value. }
  intros b s2 [[Hs2 He2] Hb]. apply yields_bind.
  eapply yields_mono with (P := λ r s', Inv s' ∧ entry_ok f (mkCallKey ts rs) r).
  { destruct b; [|by apply yields_ret]. apply yields_lifts. intros body Hbody%lift_fuel_inv.
    assert (Hsrc : source te (body_exp ax) body) by by split; [|split; [|left]].
    eapply yields_mono; [apply Heval; [done|by eapply plain_source, source_plain]|].
    intros r s3 ([Hs3 _] & Hr & Hmr). split; [done|]. rewrite He2 in Hmr. eapply result_entry; [done..|]. by apply Hb. }
  intros r s3 [Hs3 Hr]. apply yields_bind, yields_modify, yields_ret. split; [|done]. rewrite Hout. by apply leave_env.
Qed.
End body.

(** ** Calls of functions *)

Lemma eval_call_sound sp t f o ts args s : let exp := mkExp sp t (ExpX_Call (CallFun_Fun f o) ts args) in
  Inv s → plain false exp →
  yields (eval_call names not_a_seq ptr_eq probe ctx eval exp f o ts args) s (result s exp).
Proof using Heval ptr_eq_sound L.
  intros exp Hs Hexp. cbn in Hexp. rewrite allP_Forall in Hexp. unfold eval_call.
  destruct (resolve_call f o ts) as [rf rts] eqn:Er. apply yields_bind, yields_get.
  apply yields_bind. eapply yields_mono with (P := λ _, good s).
  { destruct (perf s); [|by apply yields_ret]. apply yields_modify, unseen_good; [apply unseen_count_call|done]. }
  intros _ s1 Hs1. apply (yields_evals eval Heval s); [done..|]. intros rs s2 Hs2 Hps Hms.
  pose proof (call_kept s sp t f o ts args rs Hps Hms) as Hkept. cbv zeta.
  destruct (is_array_fn names rf) as [k|] eqn:Hna.
  { eapply eval_array_sound; [done..|]. by rewrite Er. }
  destruct (is_sequence_fn names rf) as [k|] eqn:Hns.
  { eapply eval_seq_sound; [done..|]. by rewrite Er. }
  destruct (fun_ssts ctx !! rf) as [func|] eqn:Hf; [|by apply Hkept].
  destruct (spec_axioms func) as [ax|] eqn:Hax; [|by apply Hkept].
  destruct (inline_okay (fsst_kind func)) eqn:Hin; [|by apply Hkept].
  assert (Hdone : ∀ r s', good s s' → entry_ok rf (mkCallKey rts rs) r → yields (sret (E := interp_error) r) s' (result s exp)).
  { intros r s' Hs' (_ & Hr & H). eapply call_done; [done..|]. rewrite Er. intros φ σ vs v Hφ _. by apply H. }
  apply (lookup_call_sound s); [done|done| |].
  - intros s3 Hs3. apply (yields_unseen (ctx := ctx) (B := B) (ρ0 := ρ0) s); [done|apply unseen_count_cache|]. intros s4 Hs4.
    eapply (eval_body_sound func ax rf rts rs Hf Hax Hin Hna Hns Hps s); [done|done| |].
    + split; [done|]. split; [cbn; by rewrite allP_Forall|]. intros φ vs v Hφ Hvs Hv. cbn [den]. cbn [key_args] in Hvs. rewrite Hvs.
      cbn. cbn [key_typs] in Hv. by destruct o as [[? ?]|]; injection Er as -> ->.
    + intros r s5 Hs5 Hr. apply (insert_call_sound s); [done..|]. intros s6 Hs6. by apply Hdone.
  - intros r s3 Hs3 Hr. apply (yields_unseen (ctx := ctx) (B := B) (ρ0 := ρ0) s); [done|apply unseen_count_cache|]. intros s4 Hs4. by apply Hdone.
Qed.

(** ** Closures *)

Section closure.
Variables (c : list (VarIdent * Exp)) (bs : VarBinders Typ) (body : Exp) (rs : list Exp).
Hypothesis Hc : allP (λ p, let '(x, a) := p in x ∈ B ∧ plain false a) c.
Hypothesis Hbs : list_to_set (binder_names bs) ⊆ B.
Hypothesis Hps : Forall (plain false) rs.

Lemma closure_env_spec e : closure_env c bs rs = Ok e →
  env_wf e ∧ ScopeMap.map e = list_to_map (zip (binder_names bs) rs) ∪ list_to_map c ∧ env_ok (ScopeMap.map e).
Proof using Hc Hbs Hps L.
  clear Heval eval. unfold closure_env, rbind. case_match eqn:E1; try done. rename a into e1. intros E2.
  apply env_insert_all_spec in E1 as (Hwf1 & Hm1 & _); [|apply env_wf_new].
  change (ScopeMap.map ScopeMap.new) with (∅ : gmap VarIdent Exp) in Hm1. rewrite right_id_L in Hm1.
  apply env_insert_all_spec in E2 as (Hwf & Hm & _); [|done]. rewrite Hm1 in Hm. split; [done|]. split; [done|]. rewrite Hm.
  apply env_ok_union; [by apply env_ok_bindings|done..].
Qed.

Lemma restrict_sub (X : gset VarIdent) (ρ : gmap VarIdent V) : restrict X ρ ⊆ ρ.
Proof using. apply map_filter_subseteq. Qed.

(** A closure applied means its body in the environment of the closure. *)
Lemma closure_value e r φ cv vs g v sp t : closure_env c bs rs = Ok e → plain true body → means (ScopeMap.map e) body r →
  hidden φ → mapM (λ p, let '(k, a) := p in pair k <$> den φ a φ) c = Some cv → mapM (λ e, den φ e φ) rs = Some vs →
  ∀ trigs bsp, den φ (mkExp sp t (ExpX_Bind bsp (BndX_Lambda bs trigs) body)) (list_to_map cv ∪ φ) = Some g →
  app g vs = Some v → den φ r φ = Some v.
Proof using Hc Hbs Hps L.
  clear Heval eval. intros (_ & Hm & _)%closure_env_spec Hbody Hr Hφ Hcv Hvs trigs bsp Hg Hv.
  cbn [den] in Hg. case_decide; [|done]. injection Hg as <-. apply law_app in Hv.
  apply (Hr φ (list_to_map (zip (binder_names bs) vs) ∪ (list_to_map cv ∪ φ))); [done| |].
  - rewrite Hm. apply env_den_union; [|done]. by apply env_den_bindings.
  - eapply (den_mono B (arch ctx) ∅ φ true body); [apply map_empty_subseteq|done| |exact Hv].
    apply map_union_mono_l, restrict_sub.
Qed.
End closure.

Lemma plain_closure src sp t lam c : plain src (mkExp sp t (ExpX_Interp (InterpExp_Closure lam c))) →
  ∃ sp' t' bsp bs trigs body, lam = mkExp sp' t' (ExpX_Bind bsp (BndX_Lambda bs trigs) body)
    ∧ list_to_set (binder_names bs) ⊆ B ∧ plain true body ∧ allP (λ p, let '(x, a) := p in x ∈ B ∧ plain src a) c.
Proof using.
  intros (_ & Hl & Hp & Hc). destruct lam as [sp' t' x]. unfold is_lambda in Hl. cbn [exp_x] in Hl.
  destruct x as [| | | | | | | | | | | | | | | | |bsp bnd body| | | |]; try done. destruct bnd as [|?|bs trigs|]; try done.
  destruct Hp as [Hb Hp]. by exists sp', t', bsp, bs, trigs, body.
Qed.

Lemma eval_call_lambda_sound sp t lam args s : let exp := mkExp sp t (ExpX_CallLambda lam args) in
  Inv s → plain false exp → yields (eval_call_lambda eval exp lam args) s (result s exp).
Proof using Heval L.
  intros exp Hs [Hlam Hargs]. rewrite allP_Forall in Hargs. apply (yields_eval eval Heval s); [done..|].
  intros r0 s1 Hs1 Hp0 Hm0. apply (yields_evals eval Heval s); [done..|]. intros rs s2 Hs2 Hps Hms. cbv zeta.
  assert (Hmeans : ∀ r, (∀ φ g vs v, hidden φ → den φ r0 φ = Some g → mapM (λ e, den φ e φ) rs = Some vs →
    app g vs = Some v → den φ r φ = Some v) → means (ScopeMap.map (env s)) exp r).
  { intros r H φ σ v Hφ Hσ. unfold exp; cbn [den]. intros (g & Hg & (vs & Hvs & Hv)%bind_Some)%bind_Some.
    apply (H φ g vs); [done|by apply (Hm0 φ σ)|by eapply means_list|done]. }
  assert (Hk : yields (node_new exp (ExpX_CallLambda r0 rs)) s2 (result s exp)).
  { apply (yields_done s); [done|split; [done|by rewrite allP_Forall]|]. apply Hmeans. intros φ g vs v _ Hg Hvs Hv.
    cbn [den]. by rewrite Hg; cbn; rewrite Hvs. }
  destruct r0 as [sp0 t0 x0]. cbn [exp_x]. destruct x0 as [| | | | | | | | | | | | | | | | | | | |[| |lam' c|]|]; try exact Hk.
  apply plain_closure in Hp0 as (sp' & t' & bsp & bs & trigs & body & -> & Hbs & Hbody & Hc). cbn [exp_x]. clear Hk.
  apply yields_lifts. intros e He. destruct (closure_env_spec c bs rs Hc Hbs Hps e He) as (Hwf & Hm & Hok).
  apply yields_bind, yields_read. apply yields_bind, yields_modify.
  assert (Hs3 : Inv (set_env (λ _, e) s2)) by (apply enter_env; [by eapply good_inv|done|done]).
  apply (yields_eval eval Heval (set_env (λ _, e) s2)); [done|by apply plain_source|]. rewrite env_set_env.
  intros r s3 [Hs4 _] Hr Hmr. apply yields_bind, yields_modify. apply (yields_done s); [|done|].
  - assert (Hout : env s2 = env s) by by destruct Hs2. rewrite Hout. by apply leave_env.
  - apply Hmeans. intros φ g vs v Hφ Hg Hvs Hv. cbn [den] in Hg. apply bind_Some in Hg as (cv & Hcv & Hg).
    eapply (closure_value c bs body rs Hc Hbs Hps e r φ cv vs g v); [done..|exact Hg|done].
Qed.

Lemma eval_lambda_sound sp t bsp bs trigs body s : let exp := mkExp sp t (ExpX_Bind bsp (BndX_Lambda bs trigs) body) in
  Inv s → plain false exp → yields (let! env := sread InterpState.env in
    node_new exp (ExpX_Interp (InterpExp_Closure exp (map_to_list (ScopeMap.map env))))) s (result s exp).
Proof using.
  clear Heval eval. intros exp Hs Hexp. apply yields_bind, yields_read. apply (yields_done s); [done| |].
  - split; [done|]. split; [done|]. split; [done|]. rewrite allP_Forall. apply Forall_forall. intros [x a] Hx%elem_of_map_to_list.
    destruct (inv_env s Hs) as [HB Hp]. split; [apply HB; by apply elem_of_dom|by apply (Hp x)].
  - intros φ σ v Hφ Hσ Hv. destruct (env_den_entries _ φ σ Hσ) as (cv & Hcv & Hc). cbn [den]. rewrite Hcv. cbn [mbind option_bind].
    by rewrite Hc.
Qed.

(** ** [let] *)

Lemma eval_let_sound sp t bsp x a e s : let exp := mkExp sp t (ExpX_Bind bsp (BndX_Let [mkVarBinder x a]) e) in
  Inv s → plain false exp → yields (eval_let eval [mkVarBinder x a] e) s (result s exp).
Proof using Heval L.
  intros exp Hs [[Hx Ha] He]. unfold eval_let. apply yields_bind. intros [] s1 [= <-].
  set (s1 := set_env _ s). assert (Hm1 : ScopeMap.map (env s1) = ScopeMap.map (env s)) by by unfold s1; rewrite env_set_env.
  assert (Hs1 : Inv s1).
  { apply enter_env; [done| |by apply Hs]. destruct (inv_wf s Hs) as [fs Hfs]. eexists. by apply ScopeMap.push_represents. }
  apply yields_bind. cbn [eval_let_binders va vname]. apply (yields_eval eval Heval s1); [done..|].
  intros ra s2 [Hs2 He2] Hra Hma. rewrite Hm1 in Hma. apply yields_bind. intros [] s3. unfold on_env.
  assert (Hpush : env s2 = ScopeMap.push_scope (env s) true) by by rewrite He2 /s1 env_set_env.
  destruct (env_insert (env s2) x ra) as [t'| |] eqn:Et; try done. intros [= <-]. rewrite Hpush in Et.
  destruct (env_scope _ _ _ _ (inv_wf s Hs) Et) as (Hwf & Hm & Hpop).
  apply yields_ret. assert (Hs3 : Inv (set_env (λ _, t') s2)).
  { apply enter_env; [done..|]. rewrite Hm. apply env_ok_insert; [apply Hs|done..]. }
  apply (yields_eval eval Heval (set_env (λ _, t') s2)); [done..|]. intros r s4 [Hs4 He4] Hr Hmr. rewrite env_set_env in He4, Hmr.
  apply yields_bind. intros [] s5. rewrite He4 Hpop. intros [= <-]. apply (yields_done s); [by apply leave_env|done|].
  intros φ σ v Hφ Hσ. unfold exp; cbn [den mapM]. intros (vs & (w & Hw & [= <-])%bind_Some & Hv)%bind_Some.
  apply (Hmr φ (<[x := w]> σ)); [done| |].
  - rewrite Hm. apply env_den_insert; [done|]. by apply (Hma φ σ).
  - revert Hv. unfold bind_env. cbn. by rewrite insert_empty insert_union_singleton_l.
Qed.
End calls.
