(* ===== verification/InvMasks.v ===== *)
(** * Invariant masks (source/vir/src/inv_masks.rs)

    The set of invariants that may be opened at a program point, and the assertions
    that query it.  Building an error message panics ([unreachable!]) for some kinds
    of query.  The context [ctx] is not read. *)

From S2P Require Import Prelude VirMessages VirAst VirAstUtil Sst SstSemantics.
From S2P Require Ast.
Set Warnings "-rewrite-rw,-register-all,-clear-no-such-hyp".
Local Open Scope string_scope.
Local Open Scope list_scope.
Local Open Scope res_scope.

Inductive MaskSet :=
| MaskSet_Empty (span : Span)
| MaskSet_Full (span : Span)
| MaskSet_Insert (base : MaskSet) (elem : Exp)
| MaskSet_Remove (base : MaskSet) (elem : Exp)
| MaskSet_Arbitrary (set : Exp).

Record Assertion := mkAssertion { err : Message; cond : Exp }.

Inductive MaskQueryKind :=
| MaskQueryKind_OpenInvariant
| MaskQueryKind_FunctionCall
| MaskQueryKind_OpenAtomicUpdate
| MaskQueryKind_UpdateFunctionCall
| MaskQueryKind_AtomicUpdateWellFormed.
#[global] Instance mask_query_kind_eq_dec : EqDecision MaskQueryKind.
Proof. solve_decision. Defined.

(** ** The messages *)

(** These functions have no error result. *)
Definition result : Type → Type := res Empty_set.

Definition err_elem_removed (self : MaskQueryKind) (primary elem removed_elem : Span) : result Message :=
  let base_err :=
    primary_label (error_with_label removed_elem "possible invariant collision" "this invariant")
      elem "might be the same as this invariant" in
  match self with
  | MaskQueryKind_OpenInvariant => Ok base_err
  | MaskQueryKind_FunctionCall | MaskQueryKind_UpdateFunctionCall =>
    Ok (primary_label base_err primary "at this call-site")
  | MaskQueryKind_OpenAtomicUpdate =>
    Ok (primary_label
      (primary_label
        (error_with_label removed_elem "possible invariant collision with atomic update inner mask" "this invariant")
        elem "might be the same as this invariant")
      primary "tried to open atomic update here")
  | MaskQueryKind_AtomicUpdateWellFormed => Panic
  end.

Definition inner_mask_error (primary : Span) : Message :=
  error primary
    ("inner mask of atomic update is not contained in the outer mask; " +:+
     "this may make it impossible to construct the atomic update").

Definition err_elem_not_member (self : MaskQueryKind) (primary elem _set : Span) : result Message :=
  match self with
  | MaskQueryKind_OpenInvariant =>
    Ok (error_with_label elem "cannot show invariant namespace is in the mask given by the scope"
      "invariant opened here")
  | MaskQueryKind_FunctionCall | MaskQueryKind_UpdateFunctionCall =>
    Ok (primary_label
      (error_with_label elem "cannot show this invariant namespace is allowed to be opened"
        "function might open this invariant namespace")
      primary "might not be allowed at this call-site")
  | MaskQueryKind_OpenAtomicUpdate =>
    Ok (primary_label
      (error_with_label elem "cannot show this invariant namespace is allowed to be opened"
        "atomic update might open this invariant namespace")
      primary "might not be allowed when opening atomic update here")
  | MaskQueryKind_AtomicUpdateWellFormed => Ok (inner_mask_error primary)
  end.

Definition err_set_removed_elem (self : MaskQueryKind) (primary _set removed_elem : Span) : result Message :=
  match self with
  | MaskQueryKind_OpenInvariant => Panic
  | MaskQueryKind_FunctionCall | MaskQueryKind_UpdateFunctionCall =>
    Ok (primary_label
      (error_with_label removed_elem "callee may open invariants disallowed at call-site" "invariant opened here")
      primary "might be opened again in this call")
  | MaskQueryKind_OpenAtomicUpdate =>
    Ok (primary_label
      (error_with_label removed_elem "atomic update may open invariants disallowed at call-site"
        "invariant opened here")
      primary "might be opened again here")
  | MaskQueryKind_AtomicUpdateWellFormed => Panic
  end.

Definition err_not_subset (self : MaskQueryKind) (primary left_set right_set : Span) : result Message :=
  match self with
  | MaskQueryKind_OpenInvariant => Panic
  | MaskQueryKind_FunctionCall | MaskQueryKind_UpdateFunctionCall =>
    Ok (primary_label
      (primary_label
        (error_with_label primary "callee may open invariants that caller cannot" "at this call-site")
        left_set "invariants opened by callee")
      right_set "invariants opened by caller")
  | MaskQueryKind_OpenAtomicUpdate =>
    Ok (primary_label
      (primary_label
        (error_with_label primary "atomic update may open invariants that caller cannot"
          "tried to open atomic update here")
        left_set "atomic update inner mask here")
      right_set "invariants opened here")
  | MaskQueryKind_AtomicUpdateWellFormed => Ok (inner_mask_error primary)
  end.

(** ** Masks *)

Definition namespace_id_typ : Typ := TypX_Int IntRange_Int.
Definition namespace_set_typs : Typs := [namespace_id_typ].
Definition namespace_set_typ : Typ := TypX_Datatype (Dt_Path iset_type_path) namespace_set_typs [].

Definition span (self : MaskSet) : Span :=
  match self with
  | MaskSet_Empty span | MaskSet_Full span => span
  | MaskSet_Insert _ elem | MaskSet_Remove _ elem => exp_span elem
  | MaskSet_Arbitrary set => exp_span set
  end.

Fixpoint to_exp (self : MaskSet) : Exp :=
  match self with
  | MaskSet_Empty span =>
    mkExp span namespace_set_typ (ExpX_Call (CallFun_Fun fn_iset_empty_name None) namespace_set_typs [])
  | MaskSet_Full span =>
    mkExp span namespace_set_typ (ExpX_Call (CallFun_Fun fn_iset_full_name None) namespace_set_typs [])
  | MaskSet_Insert base elem =>
    mkExp (exp_span elem) namespace_set_typ
      (ExpX_Call (CallFun_Fun fn_iset_insert_name None) namespace_set_typs [to_exp base; elem])
  | MaskSet_Remove base elem =>
    mkExp (exp_span elem) namespace_set_typ
      (ExpX_Call (CallFun_Fun fn_iset_remove_name None) namespace_set_typs [to_exp base; elem])
  | MaskSet_Arbitrary set => set
  end.

Definition empty (span : Span) : MaskSet := MaskSet_Empty span.
Definition full (span : Span) : MaskSet := MaskSet_Full span.
Definition insert (self : MaskSet) (elem : Exp) : MaskSet := MaskSet_Insert self elem.
Definition remove (self : MaskSet) (elem : Exp) : MaskSet := MaskSet_Remove self elem.
Definition arbitrary (exp : Exp) : MaskSet := MaskSet_Arbitrary exp.
Definition from_list (exps : list Exp) (span : Span) : MaskSet := fold_left insert exps (empty span).
Definition from_list_complement (exps : list Exp) (span : Span) : MaskSet := fold_left remove exps (full span).

Fixpoint contains (self : MaskSet) (elem : Exp) (call_span : Span) (kind : MaskQueryKind)
    : result (list Assertion) :=
  match self with
  | MaskSet_Full _ => Ok []
  | MaskSet_Remove base removed =>
    let? asserts := contains base elem call_span kind in
    let neq_exp := mkExp (exp_span elem) TypX_Bool (ExpX_Binary BinaryOp_Ne removed elem) in
    let? err := err_elem_removed kind call_span (exp_span elem) (exp_span removed) in
    Ok (asserts ++ [mkAssertion err neq_exp])
  | _ =>
    let set_exp := to_exp self in
    let contains_exp :=
      mkExp (exp_span elem) TypX_Bool
        (ExpX_Call (CallFun_Fun fn_iset_contains_name None) namespace_set_typs [set_exp; elem]) in
    let? err := err_elem_not_member kind call_span (exp_span elem) (exp_span set_exp) in
    Ok [mkAssertion err contains_exp]
  end.

(** [removed_in_self], the loop over the assertions of [contains] *)
Definition conjoin (sp : Span) (asserts : list Assertion) : Exp :=
  fold_left (λ acc a, mkExp sp TypX_Bool (ExpX_Binary BinaryOp_And acc (cond a))) asserts
    (mkExp sp TypX_Bool (ExpX_Const (Constant_Bool true))).

(** The code recurs on [self] in its first [match] and on [other] in the second. *)
Definition subset_of : MaskSet → MaskSet → Span → MaskQueryKind → result (list Assertion) :=
  fix subset_of self := fix subset_of_self other call_span kind :=
  let subset_of_exp :=
    let self_exp := to_exp self in
    let other_exp := to_exp other in
    let subset_of_exp :=
      mkExp call_span TypX_Bool
        (ExpX_Call (CallFun_Fun fn_iset_subset_of_name None) namespace_set_typs [self_exp; other_exp]) in
    let? err := err_not_subset kind call_span (exp_span self_exp) (exp_span other_exp) in
    Ok [mkAssertion err subset_of_exp] in
  match self with
  | MaskSet_Empty _ => Ok []
  | MaskSet_Insert base inserted =>
    let? asserts := subset_of base other call_span kind in
    let? more := contains other inserted call_span kind in
    Ok (asserts ++ more)
  | _ =>
    match other with
    | MaskSet_Full _ => Ok []
    | MaskSet_Remove base removed =>
      let? asserts := subset_of_self base call_span kind in
      let? member := contains self removed call_span kind in
      let removed_in_self := conjoin (exp_span removed) member in
      let removed_not_in_self := mkExp (exp_span removed) TypX_Bool (ExpX_Unary UnaryOp_Not removed_in_self) in
      let? err := err_set_removed_elem kind call_span (span self) (exp_span removed) in
      Ok (asserts ++ [mkAssertion err removed_not_in_self])
    | _ => subset_of_exp
    end
  end.

(** ** The assertions about a mask say what they should

    Under the specification of [vstd::iset::ISet] ([ISetLaws]), the assertions of
    [contains] hold together exactly when the element is in the mask, those of
    [subset_of] exactly when the mask is included in the other; and which kinds of
    query can panic. *)

(** The documented meaning of [ISet<int>], in a model of SST. *)
Class ISetLaws `{M : SstModel} := {
  mem : V → Z → bool;
  is_iset : V → Prop;
  iset_fun f vs := fun_val f namespace_set_typs vs;
  iset_empty : ∃ s, iset_fun fn_iset_empty_name [] = Some s ∧ is_iset s ∧ ∀ z, mem s z = false;
  iset_full : ∃ s, iset_fun fn_iset_full_name [] = Some s ∧ is_iset s ∧ ∀ z, mem s z = true;
  iset_insert s z : is_iset s →
    ∃ s', iset_fun fn_iset_insert_name [s; VInt z] = Some s' ∧ is_iset s' ∧ ∀ y, mem s' y = (y =? z)%Z || mem s y;
  iset_remove s z : is_iset s →
    ∃ s', iset_fun fn_iset_remove_name [s; VInt z] = Some s' ∧ is_iset s'
      ∧ ∀ y, mem s' y = negb (y =? z)%Z && mem s y;
  iset_contains s z : is_iset s → iset_fun fn_iset_contains_name [s; VInt z] = Some (VBool (mem s z));
  iset_subset_of s1 s2 : is_iset s1 → is_iset s2 →
    ∃ b, iset_fun fn_iset_subset_of_name [s1; s2] = Some (VBool b)
      ∧ (b = true ↔ ∀ z, mem s1 z = true → mem s2 z = true)
}.

Section masks.
Context `{L : ISetLaws} (φ : gmap VarIdent V).
Local Abbreviation den := (SstSemantics.den φ).
Implicit Types (m other : MaskSet) (ρ : gmap VarIdent V).

(** The set that a mask stands for. *)
Fixpoint in_mask ρ m (z : Z) : Prop :=
  match m with
  | MaskSet_Empty _ => False
  | MaskSet_Full _ => True
  | MaskSet_Insert base e => den e ρ = Some (VInt z) ∨ in_mask ρ base z
  | MaskSet_Remove base e => den e ρ ≠ Some (VInt z) ∧ in_mask ρ base z
  | MaskSet_Arbitrary set => ∃ s, den set ρ = Some s ∧ mem s z = true
  end.

(** Its parts have values: the elements are integers, the sets are sets. *)
Definition elem_ok ρ (e : Exp) : Prop := ∃ z, den e ρ = Some (VInt z).
Fixpoint mask_ok ρ m : Prop :=
  match m with
  | MaskSet_Empty _ | MaskSet_Full _ => True
  | MaskSet_Insert base e | MaskSet_Remove base e => elem_ok ρ e ∧ mask_ok ρ base
  | MaskSet_Arbitrary set => ∃ s, den set ρ = Some s ∧ is_iset s
  end.

(** The conjunction of the assertions is a boolean, and is true exactly when [P]. *)
Definition holds ρ (a : Assertion) : Prop := den (cond a) ρ = Some (VBool true).
Definition says ρ (asserts : list Assertion) (P : Prop) : Prop :=
  Forall (λ a, ∃ b, den (cond a) ρ = Some (VBool b)) asserts ∧ (Forall (holds ρ) asserts ↔ P).


Lemma says_nil ρ P : P → says ρ [] P.
Proof. done. Qed.

Lemma says_app ρ as1 as2 P Q : says ρ as1 P → says ρ as2 Q → says ρ (as1 ++ as2) (P ∧ Q).
Proof. unfold says. rewrite !Forall_app. tauto. Qed.

Lemma says_one ρ msg e b : den e ρ = Some (VBool b) → says ρ [mkAssertion msg e] (b = true).
Proof.
  unfold says, holds. rewrite !Forall_singleton. cbn. intros ->. split; [eauto|].
  split; [by intros [= ?%VBool_inj]|by intros ->].
Qed.

Lemma says_iff ρ asserts P Q : says ρ asserts P → (P ↔ Q) → says ρ asserts Q.
Proof. unfold says. tauto. Qed.

(** ** The expression of a mask *)

Lemma den_call ρ f args vs s t :
  mapM (λ e, den e ρ) args = Some vs →
  den (mkExp s t (ExpX_Call (CallFun_Fun f None) namespace_set_typs args)) ρ = iset_fun f vs.
Proof. intros H. cbn. by rewrite H. Qed.

Lemma to_exp_den ρ m :
  mask_ok ρ m → ∃ s, den (to_exp m) ρ = Some s ∧ is_iset s ∧ ∀ z, mem s z = true ↔ in_mask ρ m z.
Proof.
  induction m as [sp|sp|base IH e|base IH e|set]; cbn -[den in_mask]; intros Hm.
  - destruct iset_empty as (s & Hs & ? & E). exists s. rewrite (den_call _ _ _ []) //. split_and!; [done..|].
    intros z. cbn. by rewrite E.
  - destruct iset_full as (s & Hs & ? & E). exists s. by rewrite (den_call _ _ _ []).
  - destruct Hm as [[z Hz] (s & Hs & Hi & E)%IH]. destruct (iset_insert s z Hi) as (s' & Hs' & ? & E').
    exists s'. rewrite (den_call _ _ _ [s; VInt z]); [cbn; by rewrite Hs Hz|]. split_and!; [done..|].
    intros y. cbn. rewrite E' orb_true_iff Z.eqb_eq E Hz. split; [intros [->|?]; auto|].
    intros [[= ->%VInt_inj]|?]; auto.
  - destruct Hm as [[z Hz] (s & Hs & Hi & E)%IH]. destruct (iset_remove s z Hi) as (s' & Hs' & ? & E').
    exists s'. rewrite (den_call _ _ _ [s; VInt z]); [cbn; by rewrite Hs Hz|]. split_and!; [done..|].
    intros y. cbn. rewrite E' andb_true_iff negb_true_iff Z.eqb_neq E Hz.
    split; intros [Hy ?]; (split; [|done]); [by intros [= ->%VInt_inj]|by intros ->].
  - destruct Hm as (s & Hs & ?). exists s. split_and!; [done..|]. intros z. cbn. rewrite Hs. split; [eauto|].
    by intros (? & [= <-] & ?).
Qed.

(** ** Membership *)

Lemma member_says ρ m elem z msg sp :
  mask_ok ρ m → den elem ρ = Some (VInt z) →
  says ρ [mkAssertion msg (mkExp sp TypX_Bool
    (ExpX_Call (CallFun_Fun fn_iset_contains_name None) namespace_set_typs [to_exp m; elem]))] (in_mask ρ m z).
Proof.
  intros (s & Hs & Hi & E)%to_exp_den He. eapply says_iff; [|apply E]. apply says_one.
  rewrite (den_call _ _ _ [s; VInt z]); [cbn; by rewrite Hs He|]. by apply iset_contains.
Qed.

Lemma contains_says ρ m elem z call_span kind asserts :
  mask_ok ρ m → den elem ρ = Some (VInt z) →
  contains m elem call_span kind = Ok asserts → says ρ asserts (in_mask ρ m z).
Proof.
  intros Hm He. revert asserts. induction m as [sp|sp|base IH e|base IH e|set]; intros asserts Ha;
    cbn [contains] in Ha; inv_ok; try exact (member_says ρ _ _ _ _ _ Hm He).
  { by apply says_nil. }
  destruct Hm as [[y Hy] Hb]. eapply says_iff.
  - eapply says_app; [by apply (IH Hb)|]. apply says_one. cbn. by rewrite Hy He.
  - cbn. rewrite Hy negb_true_iff bool_decide_eq_false. split; intros [? ?]; (split; [|done]) || (split; [done|]); congruence.
Qed.

(** [contains] panics only for an element that was removed, in a query of the kind
    [AtomicUpdateWellFormed]. *)
Lemma contains_panics m elem call_span kind :
  contains m elem call_span kind = Panic ↔
  kind = MaskQueryKind_AtomicUpdateWellFormed ∧ ∃ base e, m = MaskSet_Remove base e.
Proof.
  induction m as [sp|sp|base IH e|base IH e|set]; cbn [contains].
  4: {
    destruct (contains base elem call_span kind) as [a|[]|] eqn:E; cbn.
    - destruct kind; cbn; (split; [try discriminate; intros _|by intros [? _]]). eauto.
    - destruct IH as [IH _]. destruct (IH eq_refl) as [-> _]. split; [|done]. eauto. }
  all: destruct kind; cbn; (split; [discriminate|by intros (_ & ? & ? & ?)]).
Qed.

(** ** Inclusion *)

Lemma den_conjoin ρ sp asserts :
  Forall (λ a, ∃ b, den (cond a) ρ = Some (VBool b)) asserts →
  ∃ b, den (conjoin sp asserts) ρ = Some (VBool b) ∧ (b = true ↔ Forall (holds ρ) asserts).
Proof.
  intros H.
  assert (G : ∀ acc a, den acc ρ = Some (VBool a) →
    ∃ b, den (fold_left (λ acc a, mkExp sp TypX_Bool (ExpX_Binary BinaryOp_And acc (cond a))) asserts acc) ρ
      = Some (VBool b) ∧ (b = true ↔ a = true ∧ Forall (holds ρ) asserts)).
  { induction H as [|[msg c] asserts [b Hb] _ IH]; intros acc a Ha; cbn.
    - exists a. rewrite Forall_nil. tauto.
    - destruct (IH (mkExp sp TypX_Bool (ExpX_Binary BinaryOp_And acc c)) (a && b)) as (b' & Hb' & E).
      { cbn in *. rewrite Ha Hb. cbn. unfold bool2. by rewrite !(proj2 (to_bool_spec _ _) eq_refl). }
      exists b'. split; [done|]. rewrite E Forall_cons andb_true_iff. unfold holds at 2. cbn in *. rewrite Hb.
      split; [intros [[? ->] ?]; done|]. intros (? & [= ->%VBool_inj] & ?). done. }
  destruct (G (mkExp sp TypX_Bool (ExpX_Const (Constant_Bool true))) true eq_refl) as (b' & Hb' & E).
  exists b'. split; [done|]. rewrite E. tauto.
Qed.

Definition set_like m : bool := match m with MaskSet_Empty _ | MaskSet_Insert _ _ => false | _ => true end.

Lemma subset_of_insert base e other call_span kind :
  subset_of (MaskSet_Insert base e) other call_span kind =
  let? asserts := subset_of base other call_span kind in
  let? more := contains other e call_span kind in Ok (asserts ++ more).
Proof. by destruct other. Qed.

Lemma subset_of_set m other call_span kind :
  set_like m = true →
  subset_of m other call_span kind =
  match other with
  | MaskSet_Full _ => Ok []
  | MaskSet_Remove base removed =>
    let? asserts := subset_of m base call_span kind in
    let? member := contains m removed call_span kind in
    let? err := err_set_removed_elem kind call_span (span m) (exp_span removed) in
    Ok (asserts ++ [mkAssertion err (mkExp (exp_span removed) TypX_Bool
      (ExpX_Unary UnaryOp_Not (conjoin (exp_span removed) member)))])
  | _ =>
    let? err := err_not_subset kind call_span (exp_span (to_exp m)) (exp_span (to_exp other)) in
    Ok [mkAssertion err (mkExp call_span TypX_Bool
      (ExpX_Call (CallFun_Fun fn_iset_subset_of_name None) namespace_set_typs [to_exp m; to_exp other]))]
  end.
Proof. by destruct m, other. Qed.

Lemma included_says ρ m other msg sp :
  mask_ok ρ m → mask_ok ρ other →
  says ρ [mkAssertion msg (mkExp sp TypX_Bool
    (ExpX_Call (CallFun_Fun fn_iset_subset_of_name None) namespace_set_typs [to_exp m; to_exp other]))]
    (∀ z, in_mask ρ m z → in_mask ρ other z).
Proof.
  intros (s1 & Hs1 & Hi1 & E1)%to_exp_den (s2 & Hs2 & Hi2 & E2)%to_exp_den.
  destruct (iset_subset_of s1 s2 Hi1 Hi2) as (b & Hb & E).
  eapply says_iff; [apply says_one; rewrite (den_call _ _ _ [s1; s2]); [cbn; by rewrite Hs1 Hs2|done]|].
  rewrite E. by setoid_rewrite E1; setoid_rewrite E2.
Qed.

(** The complement of [contains]: the single assertion that negates them all. *)
Lemma not_contains_says ρ m elem z call_span kind asserts sp sp' msg :
  mask_ok ρ m → den elem ρ = Some (VInt z) → contains m elem call_span kind = Ok asserts →
  says ρ [mkAssertion msg (mkExp sp TypX_Bool (ExpX_Unary UnaryOp_Not (conjoin sp' asserts)))]
    (¬ in_mask ρ m z).
Proof.
  intros Hm He Ha. destruct (contains_says ρ m elem z _ _ _ Hm He Ha) as [Hd E].
  destruct (den_conjoin ρ sp' asserts Hd) as (b & Hb & Eb). eapply says_iff; [apply (says_one _ _ _ (negb b))|].
  - cbn -[conjoin]. rewrite Hb. cbn. by rewrite (proj2 (to_bool_spec _ _) eq_refl).
  - rewrite -E -Eb. destruct b; naive_solver.
Qed.

Lemma subset_of_set_says ρ m other call_span kind asserts :
  set_like m = true → mask_ok ρ m → mask_ok ρ other →
  subset_of m other call_span kind = Ok asserts →
  says ρ asserts (∀ z, in_mask ρ m z → in_mask ρ other z).
Proof.
  intros Hset Hm. revert asserts. induction other as [sp|sp|base IH e|base IH e|set]; intros asserts Ho Ha;
    rewrite subset_of_set // in Ha; inv_ok; try exact (included_says ρ m _ _ _ Hm Ho).
  { by apply says_nil. }
  destruct Ho as [[y Hy] Hb].
  eapply says_iff; [eapply says_app; [by apply IH|by eapply (not_contains_says ρ m e y)]|].
  cbn. split.
  - intros [Hs ?] z Hz. split; [|auto]. rewrite Hy. by intros [= ->%VInt_inj].
  - intros Hs. split; [by intros z [_ ?]%Hs|]. by intros [? _]%Hs.
Qed.

Lemma subset_of_says ρ m other call_span kind asserts :
  mask_ok ρ m → mask_ok ρ other →
  subset_of m other call_span kind = Ok asserts →
  says ρ asserts (∀ z, in_mask ρ m z → in_mask ρ other z).
Proof.
  intros Hm Ho. revert asserts. induction m as [sp|sp|base IH e|base IH e|set]; intros asserts Ha.
  2, 4, 5: by eapply subset_of_set_says.
  - assert (asserts = []) as -> by (destruct other; by inversion Ha). by apply says_nil.
  - rewrite subset_of_insert in Ha. inv_ok. destruct Hm as [[y Hy] Hb].
    eapply says_iff; [eapply says_app; [by apply IH|by eapply contains_says]|].
    cbn. rewrite Hy. split; [|naive_solver]. intros [Hs ?] z [[= ->%VInt_inj]|?]; auto.
Qed.

(** ** Panics *)

(** No element of the mask was removed. *)
Fixpoint plain_mask m : bool :=
  match m with MaskSet_Remove _ _ => false | MaskSet_Insert base _ => plain_mask base | _ => true end.

Lemma contains_total m elem call_span kind :
  kind ≠ MaskQueryKind_AtomicUpdateWellFormed ∨ set_like m = false ∨ plain_mask m = true →
  ∃ asserts, contains m elem call_span kind = Ok asserts.
Proof.
  intros H. destruct (contains m elem call_span kind) as [a|[]|] eqn:E; [eauto|].
  apply contains_panics in E as (-> & base & e & ->). cbn in H. naive_solver.
Qed.

Lemma subset_of_set_total m other call_span kind :
  kind ≠ MaskQueryKind_OpenInvariant → set_like m = true →
  kind ≠ MaskQueryKind_AtomicUpdateWellFormed ∨ plain_mask other = true →
  ∃ asserts, subset_of m other call_span kind = Ok asserts.
Proof.
  intros Hk Hset H. induction other as [sp|sp|base IH e|base IH e|set]; rewrite subset_of_set //; [|eauto| | |].
  3: {
    destruct H as [H|H]; [|done]. destruct IH as [as1 ->]; [by left|].
    destruct (contains_total m e call_span kind) as [as2 ->]; [by left|]. destruct kind; cbn; eauto; congruence. }
  all: destruct kind; cbn; eauto; congruence.
Qed.

Lemma subset_of_total m other call_span kind :
  kind ≠ MaskQueryKind_OpenInvariant →
  kind ≠ MaskQueryKind_AtomicUpdateWellFormed ∨ plain_mask other = true →
  ∃ asserts, subset_of m other call_span kind = Ok asserts.
Proof.
  intros Hk H. induction m as [sp|sp|base IH e|base IH e|set]; try by apply subset_of_set_total.
  - destruct other; eexists; reflexivity.
  - rewrite subset_of_insert. destruct IH as [as1 ->]. cbn.
    destruct (contains_total other e call_span kind) as [as2 ->]; [naive_solver|cbn; eauto].
Qed.
End masks.
