(* ===== verification/SstExample.v ===== *)
(** * A model of SST

    Concrete values for [SstModel]: integers, booleans, constants, sequences, arrays,
    datatype values, sets of integers that are finite or have a finite complement, and
    lambdas as tokens.  It shows that the hypotheses of the theorems can hold. *)

From S2P Require Import Prelude VirMessages VirAst VirAstUtil Sst SstSemantics InvMasks.
From S2P Require Ast.
Set Warnings "-rewrite-rw,-register-all,-clear-no-such-hyp".

(** Lists of values are [CNil] and [CCons], fields are [CField]. *)
Inductive cval :=
| CInt (z : Z)
| CBool (b : bool)
| CConst (c : Constant)
| CSet (elems : gset Z) (complement : bool)
| CSeq (l : cval)
| CArray (l : cval)
| CCtor (d : Dt) (c : Ident) (fs : cval)
| CLambda
| CNil
| CCons (v l : cval)
| CField (x : Ident) (v : cval).
#[global] Instance cval_eq_dec : EqDecision cval.
Proof. solve_decision. Defined.

Fixpoint encode (l : list cval) : cval :=
  match l with [] => CNil | v :: l' => CCons v (encode l') end.
Fixpoint decode (v : cval) : option (list cval) :=
  match v with CNil => Some [] | CCons v l => cons v <$> decode l | _ => None end.
Definition encode_field (p : Ident * cval) : cval := CField p.1 p.2.
Definition decode_field (v : cval) : option (Ident * cval) :=
  match v with CField x v => Some (x, v) | _ => None end.

Lemma decode_spec v l : decode v = Some l ↔ v = encode l.
Proof.
  split.
  - revert l. induction v as [| | | | | | | | |v _ l IH|]; intros r H; try discriminate; cbn in H.
    + by injection H as <-.
    + destruct (decode l) as [l'|]; [|discriminate]. injection H as <-. cbn. by rewrite (IH l').
  - intros ->. induction l as [|v l IH]; cbn; [done|]. by rewrite IH.
Qed.

Definition decode_fields (v : cval) : option (list (Ident * cval)) := l ← decode v; mapM decode_field l.
Lemma decode_fields_spec v fs : decode_fields v = Some fs ↔ v = encode (map encode_field fs).
Proof.
  unfold decode_fields. split.
  - destruct (decode v) as [l|] eqn:E; [|discriminate]. apply decode_spec in E as ->. cbn. intros H%mapM_Some_1.
    f_equal. induction H as [|v [x w] l fs Hv _ IH]; cbn; [done|]. by destruct v; inversion Hv; subst; f_equal.
  - intros ->. rewrite (proj2 (decode_spec _ _) eq_refl). cbn. apply mapM_Some_2.
    induction fs as [|[x v] fs IH]; constructor; [done|exact IH].
Qed.

Definition cset_mem (v : cval) (z : Z) : bool :=
  match v with CSet s co => xorb co (bool_decide (z ∈ s)) | _ => false end.
Definition cset_is (v : cval) : Prop := match v with CSet _ _ => True | _ => False end.
(** Inclusion, for each combination of sets and complements. *)
Definition cset_subset (s1 : gset Z) (co1 : bool) (s2 : gset Z) (co2 : bool) : bool :=
  match co1, co2 with
  | false, false => bool_decide (s1 ⊆ s2)
  | false, true => bool_decide (s1 ∩ s2 = ∅)
  | true, false => false
  | true, true => bool_decide (s2 ⊆ s1)
  end.
Definition iset_funs (f : Fun) (vs : list cval) : option cval :=
  match vs with
  | [] =>
    if decide (f = fn_iset_empty_name) then Some (CSet ∅ false)
    else if decide (f = fn_iset_full_name) then Some (CSet ∅ true) else None
  | [CSet s co; CInt z] =>
    if decide (f = fn_iset_insert_name) then Some (CSet (if co then s ∖ {[z]} else s ∪ {[z]}) co)
    else if decide (f = fn_iset_remove_name) then Some (CSet (if co then s ∪ {[z]} else s ∖ {[z]}) co)
    else if decide (f = fn_iset_contains_name) then Some (CBool (cset_mem (CSet s co) z)) else None
  | [CSet s1 co1; CSet s2 co2] =>
    if decide (f = fn_iset_subset_of_name) then Some (CBool (cset_subset s1 co1 s2 co2)) else None
  | _ => None
  end.

Section model.
Variable bits : N.
(** Further functions of the program. *)
Variable funs : Fun → Typs → list cval → option cval.

#[refine] Definition example_model : SstModel := {|
  V := cval;
  VInt := CInt;
  VBool := CBool;
  VSeq l := CSeq (encode l);
  VArray l := CArray (encode l);
  VCtor d c fs := CCtor d c (encode (map encode_field fs));
  to_int v := match v with CInt z => Some z | _ => None end;
  to_bool v := match v with CBool b => Some b | _ => None end;
  to_seq v := match v with CSeq l => decode l | _ => None end;
  to_array v := match v with CArray l => decode l | _ => None end;
  to_ctor v := match v with CCtor d c fs => pair (d, c) <$> decode_fields fs | _ => None end;
  const_val := CConst;
  fun_val f ts vs := match funs f ts vs with Some v => Some v | None => iset_funs f vs end;
  internal_val _ _ _ := None;
  lambda_val _ _ _ := CLambda;
  app _ _ := None;
  field_names _ _ := [];
  static_val _ := None;
  exec_fn_val _ := None;
  var_loc_val _ := None;
  var_at_val _ := None;
  old_val _ _ := None;
  fuel_val _ := None;
  word_bits := bits;
  clip_other _ _ := 0%Z;
  div_by_zero _ := 0%Z;
  mod_by_zero _ := 0%Z;
  index_other _ _ := None;
  nullary_other _ := None;
  unary_other _ _ _ := None;
  unary_opr_other _ _ := None;
  has_type_val _ _ := Some (CBool true);
  binary_other _ _ _ := None;
  quant_val _ _ _ := None;
  choose_val _ _ _ := None
|}.
Proof.
  - intros [] i; (split; [by intros [= ->]|by intros [= ->]]).
  - intros [] a; (split; [by intros [= ->]|by intros [= ->]]).
  - intros [] r; try (split; discriminate). rewrite decode_spec. split; [by intros ->|by intros [= ->]].
  - intros [] r; try (split; discriminate). rewrite decode_spec. split; [by intros ->|by intros [= ->]].
  - intros [] d' c' fs'; try (split; discriminate). split.
    + destruct (decode_fields _) as [fs0|] eqn:E; [|discriminate]. intros [= -> -> ->].
      apply decode_fields_spec in E as ->. done.
    + intros [= -> -> ->]. by rewrite (proj2 (decode_fields_spec _ _) eq_refl).
  - by intros c1 c2 [= ->].
Defined.
End model.

Lemma cset_subset_spec s1 co1 s2 co2 :
  cset_subset s1 co1 s2 co2 = true ↔ ∀ z, cset_mem (CSet s1 co1) z = true → cset_mem (CSet s2 co2) z = true.
Proof.
  destruct co1, co2; cbn; rewrite ?bool_decide_eq_true.
  - setoid_rewrite negb_true_iff. setoid_rewrite bool_decide_eq_false. split; [set_solver|].
    intros H z Hz. destruct (decide (z ∈ s1)); [done|]. by destruct (H z).
  - split; [done|]. intros H. destruct (exist_fresh (s1 ∪ s2)) as [z Hz]. exfalso. apply Hz.
    specialize (H z). rewrite negb_true_iff bool_decide_eq_false bool_decide_eq_true in H. set_solver.
  - setoid_rewrite negb_true_iff. setoid_rewrite bool_decide_eq_false. setoid_rewrite bool_decide_eq_true. set_solver.
  - setoid_rewrite bool_decide_eq_true. set_solver.
Qed.

(** Its sets are as specified. *)
#[refine] Definition example_isets bits : @ISetLaws (example_model bits (λ _ _ _, None)) :=
  @Build_ISetLaws (example_model bits (λ _ _ _, None)) cset_mem cset_is _ _ _ _ _ _.
Proof.
  - by exists (CSet ∅ false).
  - by exists (CSet ∅ true).
  - intros v n Hv. destruct v as [| | |s co| | | | | | |]; try done. eexists. split_and!; [done..|].
    intros y. destruct co; cbn; repeat case_bool_decide; destruct (Z.eqb_spec y n); cbn; set_solver.
  - intros v n Hv. destruct v as [| | |s co| | | | | | |]; try done. eexists. split_and!; [done..|].
    intros y. destruct co; cbn; repeat case_bool_decide; destruct (Z.eqb_spec y n); cbn; set_solver.
  - intros v n Hv. by destruct v.
  - intros v w Hv Hw. destruct v as [| | |s1 co1| | | | | | |]; try done. destruct w as [| | |s2 co2| | | | | | |]; try done.
    eexists. split; [done|]. apply cset_subset_spec.
Defined.
