(* ===== verification/InterpCorrect.v ===== *)
(** * The interpreter is sound

    [compute_sound]: what [eval_expr] returns for an assertion by(compute) has the value
    of the assertion. *)

From S2P Require Import Prelude StateRes RustString VirMessages VirAst VirAstUtil Sst SstSemantics SstUtil.
From S2P Require Import InterpSynt InterpState InterpEval InterpTerm InterpSem InterpSynFacts.
From S2P Require Import InterpInv InterpOps InterpBinary InterpCalls InterpFuns SstExample.
From S2P Require Ast ScopeMap.
Set Warnings "-rewrite-rw,-register-all,-clear-no-such-hyp".
Local Open Scope st_scope.

Section sound.
Context `{L : InterpLaws}.
Variable user_string : Exp → string.
Variable not_a_seq : Span → Typ → Message.
Variable ptr_eq : Exp → Exp → bool.
Hypothesis ptr_eq_sound : ∀ l r, ptr_eq l r = true → l = r.
Variable probe : list hashed → list hashed → bool.
Variable oc : bool.
Local Abbreviation plain := (plain B (arch ctx)).
Local Abbreviation Inv := (Inv (ctx := ctx) (B := B) (ρ0 := ρ0)).
Local Abbreviation good := (good (ctx := ctx) (B := B) (ρ0 := ρ0)).
Local Abbreviation result := (result (ctx := ctx) (B := B) (ρ0 := ρ0)).
Local Abbreviation means := (means (B := B) (ρ0 := ρ0)).
Local Abbreviation hidden := (hidden (B := B) (ρ0 := ρ0)).
Local Abbreviation eval_expr_internal := (eval_expr_internal names not_a_seq ptr_eq probe oc ctx).
Implicit Types (η : gmap VarIdent Exp) (φ σ ρ : gmap VarIdent V).

(** ** Every expression *)

Section node.
Variable eval : Exp → st State interp_error Exp.
Hypothesis Heval : ∀ e s, Inv s → plain false e → yields (eval e) s (result s e).

Lemma eval_node_sound exp s : Inv s → plain false exp →
  yields (eval_node names not_a_seq ptr_eq probe oc ctx eval exp) s (result s exp).
Proof using Heval ptr_eq_sound L.
  intros Hs Hp. destruct exp as [sp t x]. unfold eval_node. cbn [exp_x].
  assert (Hk : (∀ φ σ, den φ (mkExp sp t x) σ = den φ (mkExp sp t x) φ) →
    yields (sret (E := interp_error) (mkExp sp t x)) s (result s (mkExp sp t x))) by by apply kept_sound.
  destruct x as [| | | | | | |f ts es| | |op|op|op|op|op| | |bsp bnd e| | |i|]; try (by apply Hk).
  - by apply eval_var_sound.
  - destruct f as [f o|f|f].
    + by apply eval_call_sound.
    + apply (yields_done s); [done..|]. intros φ σ v _ _. cbn [den]. by intros (? & _ & ?)%bind_Some.
    + by apply eval_internal_call_sound.
  - by apply eval_call_lambda_sound.
  - by apply eval_ctor_sound.
  - destruct op; try (by apply Hk). by apply eval_const_generic_sound.
  - by apply eval_unary_sound.
  - by apply eval_unary_opr_sound.
  - by apply eval_binary_sound.
  - by apply eval_binary_opr_sound.
  - by apply eval_if_sound.
  - by apply eval_with_triggers_sound.
  - destruct bnd as [bs|q bs ts l|bs ts|bs ts c]; try (by destruct Hp).
    + destruct Hp as [Hb Hp]. destruct bs as [|[n a] [|]]; try done. by apply eval_let_sound.
    + by apply eval_lambda_sound.
  - by apply eval_array_literal_sound.
Qed.
End node.

Lemma eval_expr_internal_sound fuel e s : Inv s → plain false e → yields (eval_expr_internal fuel e) s (result s e).
Proof using ptr_eq_sound L.
  revert e s. induction fuel as [|fuel IH]; intros e s Hs Hp; cbn [InterpEval.eval_expr_internal]; [apply yields_err|].
  assert (Hu : ∀ f s' (K : st State interp_error Exp), good s s' → unseen f →
    (∀ s', good s s' → yields K s' (result s e)) → yields (smodify f;! K) s' (result s e)).
  { intros f s' K. apply (yields_unseen (ctx := ctx) (B := B) (ρ0 := ρ0) s). }
  apply Hu; [done|apply unseen_iterations|]. intros s1 Hs1. apply yields_bind, yields_get.
  destruct (_ <? _)%N; [apply yields_err|]. destruct (_ <? _)%N; [apply yields_err|].
  rewrite (inv_simplified s1 (good_inv _ _ Hs1)). cbn [andb].
  apply Hu; [done|apply unseen_count_ptr|]. intros s2 Hs2. apply Hu; [done|apply unseen_depth|]. intros s3 Hs3.
  apply yields_bind. eapply yields_mono; [apply eval_node_sound; [exact IH|by eapply good_inv|done]|].
  intros r s4 Hr. apply (result_from s _ _ _ _ Hs3) in Hr as (Hs4 & Hpr & Hm).
  apply Hu; [done|apply unseen_depth|]. intros s5 Hs5. apply yields_bind, yields_modify.
  rewrite (inv_simplified s5 (good_inv _ _ Hs5)). by apply yields_ret.
Qed.

(** ** The top level *)

(** [r] says what the value of [exp] is. *)
Definition simplified_ok (exp : Exp) (r : SimplificationResult) : Prop := ∀ φ v, hidden φ → den φ exp φ = Some v →
  match r with
  | SimplificationResult_True => v = VBool true
  | SimplificationResult_False _ => v = VBool false
  | SimplificationResult_Complex e => plain false e ∧ den φ e φ = Some v
  end.

Lemma initial_inv logging : Inv (initial_state logging).
Proof using L.
  split; [apply env_wf_new|apply env_ok_empty| |done]. intros f l k r. cbn. by rewrite lookup_empty.
Qed.
Lemma as_bool_simplified exp r e : plain false r → (∀ φ v, hidden φ → den φ exp φ = Some v → den φ r φ = Some v) →
  simplified_ok exp match as_bool r with
    | Some true => SimplificationResult_True
    | Some false => SimplificationResult_False e
    | None => SimplificationResult_Complex r
    end.
Proof using.
  intros Hp Hr φ v Hφ Hv. apply (Hr φ v Hφ) in Hv. destruct (as_bool r) as [[]|] eqn:E; [| |done];
    by apply (den_as_bool _ _ _ _ E) in Hv.
Qed.

Section top.
Variable fuel : nat.
Local Abbreviation eval := (eval_expr_internal fuel).

Lemma eval_source s e (K : Exp → st State interp_error SimplificationResult) Q : Inv s → ScopeMap.map (env s) = ∅ →
  plain false e →
  (∀ r s', Inv s' → ScopeMap.map (env s') = ∅ → plain false r →
    (∀ φ v, hidden φ → den φ e φ = Some v → den φ r φ = Some v) → yields (K r) s' Q) →
  yields (sbind (eval e) K) s Q.
Proof using ptr_eq_sound L.
  intros Hs He Hp HK. apply (yields_eval eval (eval_expr_internal_sound fuel) s); [done..|].
  intros r s' [Hs' He'] Hr Hm. apply HK; [done|by rewrite He'|done|]. intros φ v Hφ.
  apply (Hm φ φ); [done|]. rewrite He. apply env_den_empty.
Qed.

Lemma compare_sound sp t op e1 e2 s : Inv s → ScopeMap.map (env s) = ∅ → op_plain (arch ctx) op →
  plain false (mkExp sp t (ExpX_Binary op e1 e2)) →
  yields (let! r1 := eval e1 in
    let! r2 := eval e2 in
    let simpl_exp := mkExp sp t (ExpX_Binary op r1 r2) in
    let! final_exp := eval simpl_exp in
    sret match as_bool final_exp with
         | Some true => SimplificationResult_True
         | Some false => SimplificationResult_False (Some simpl_exp)
         | None => SimplificationResult_Complex final_exp
         end) s (λ r _, simplified_ok (mkExp sp t (ExpX_Binary op e1 e2)) r).
Proof using ptr_eq_sound L.
  intros Hs He Hop (_ & Hp1 & Hp2). apply eval_source; [done..|]. intros r1 s1 Hs1 He1 Hr1 Hm1.
  apply eval_source; [done..|]. intros r2 s2 Hs2 He2 Hr2 Hm2. cbv zeta.
  apply eval_source; [done..|]. intros r s3 Hs3 _ Hr Hm. apply yields_ret, as_bool_simplified; [done|].
  intros φ v Hφ (v1 & Hv1 & (v2 & Hv2 & Hv)%bind_Some)%bind_Some. apply Hm; [done|]. cbn [den].
  by rewrite (Hm1 φ v1 Hφ Hv1) (Hm2 φ v2 Hφ Hv2).
Qed.

Lemma eval_expr_top_sound exp logging : plain false exp →
  yields (eval_expr_top not_a_seq ptr_eq eval exp) (initial_state logging) (λ r _, simplified_ok exp r).
Proof using ptr_eq_sound L.
  intros Hp. pose proof (initial_inv logging) as Hs. revert Hs.
  assert (He : ScopeMap.map (env (initial_state logging)) = ∅) by done. revert He.
  generalize (initial_state logging) as s. intros s He Hs.
  assert (Hgo : yields (let! final_exp := eval exp in
      sret match as_bool final_exp with
           | Some true => SimplificationResult_True
           | Some false => SimplificationResult_False None
           | None => SimplificationResult_Complex final_exp
           end) s (λ r _, simplified_ok exp r)).
  { apply eval_source; [done..|]. intros r s' _ _ Hr Hm. by apply yields_ret, as_bool_simplified. }
  unfold eval_expr_top. destruct exp as [sp t x]. cbn [exp_x].
  destruct x as [| | | | | | | | | | | | |op e1 e2| | | | | | | |]; try exact Hgo.
  destruct op; try exact Hgo; try by apply compare_sound. all: clear Hgo; pose proof Hp as (_ & Hp1 & Hp2).
  all: apply (def_eq_answer not_a_seq ptr_eq ptr_eq_sound); [done..|]; intros [] Hb; [|by apply compare_sound];
    apply yields_ret; intros φ v _; destruct (Hb eq_refl) as [Hd _]; cbn [den]; rewrite Hd;
    intros (w & Hw & (w' & Hw' & Hv)%bind_Some)%bind_Some; rewrite Hw in Hw'; injection Hw' as <-;
    injection Hv as <-; by rewrite bool_decide_true.
Qed.

(** The value of what [eval_expr_launch] returns. *)
Lemma launch_sound exp mode logging quiet e msgs φ v : plain false exp → hidden φ → den φ exp φ = Some v →
  eval_expr_launch names user_string not_a_seq ptr_eq probe oc ctx fuel exp mode logging quiet = Ok (e, msgs) →
  plain true e ∧ den φ e φ = Some v ∧ (mode = ComputeMode_ComputeOnly → ∃ b, e = sst_bool (exp_span exp) b ∧ (b = false → quiet = true)).
Proof using ptr_eq_sound L.
  intros Hp Hφ Hv. unfold eval_expr_launch.
  pose proof (eval_expr_top_sound exp logging Hp) as Htop.
  destruct (eval_expr_top not_a_seq ptr_eq eval exp (initial_state logging)) as [[r s]| |] eqn:Etop; [|done..].
  specialize (Htop r s Etop φ v Hφ Hv). cbn [rbind].
  destruct r as [|[small|]|res]; cbn [simplified_ok] in Htop.
  - intros [= <- <-]. rewrite Htop. split; [done|]. split; [done|]. intros _. by exists true.
  - destruct (cleanup_exp not_a_seq small); [|done..]. cbn [rbind]. destruct quiet; [|done]. intros [= <- <-]. rewrite Htop.
    split; [done|]. split; [done|]. intros _. by exists false.
  - destruct quiet; [|done]. intros [= <- <-]. rewrite Htop. split; [done|]. split; [done|]. intros _. by exists false.
  - destruct Htop as [Hr Hres].
    assert (Hclean : ∀ res', cleanup_exp not_a_seq res = Ok res' → plain true res' ∧ den φ res' φ = Some v).
    { intros res' Hc. destruct (cleanup_exp_restores not_a_seq _ _ Hc Hr) as [Hp' Hpres]. split; [done|].
      apply (Hpres φ φ v); [done|apply Hφ|done]. }
    destruct mode.
    all: destruct (cleanup_exp not_a_seq res) as [res'| |]; try done; cbn [rbind]; destruct (Hclean res' eq_refl) as [Hp' Hv'].
    destruct (lift_fuel _) as [same| |]; try done. cbn [rbind]. destruct same; [|by intros [= <- <-]].
    destruct (warn_unsimplified _ _ _ _) as [[? ?]| |]; try done. by intros [= <- <-].
Qed.
End top.

(** C4. What [syntactic_eq] answers of two [plain] expressions is true of the values: if it
    finds them equal they have the same values in every environment, and if it finds them
    different they never have equal values.  A [plain] expression has no [Loc], quantifier,
    [choose] or [let] of several variables, every field of each constructor, no signed type
    without bits, and no shift by a word size that is unknown, so the answers on quantifiers
    and [choose] are outside this theorem. *)
Theorem syntactic_eq_sound l r b : plain false l → plain false r → syntactic_eq not_a_seq ptr_eq l r = Ok (Some b) →
  (b = true → ∀ φ ρ, den φ l ρ = den φ r ρ) ∧
  (∀ φ ρ v w, den φ l ρ = Some v → den φ r ρ = Some w → (b = true ↔ v = w)).
Proof using ptr_eq_sound L.
  intros Hl Hr Hb. destruct (syntactic_eq_answers not_a_seq ptr_eq ptr_eq_sound l r Hl Hr) as [Hy Hn]. split.
  - intros ->. by apply Hy.
  - intros φ ρ v w Hv Hw. destruct b.
    + destruct (Hy Hb) as [Hd _]. rewrite Hd Hw in Hv. by injection Hv as <-.
    + split; [done|]. intros E. by destruct (Hn Hb φ ρ v w Hv Hw E).
Qed.

(** C3. What [eval_expr] makes of an assertion by(compute) is an expression of the program that
    has the value of the assertion wherever the assertion has one; in the mode that must
    compute, it returns the constant [true], or [false] when errors are not reported.  The
    conditions: the assertion and the functions of the program are [plain] (no [Loc],
    quantifier, [choose] or [let] of several variables, every field of a constructor, no signed
    type without bits, and no shift by a word size that is unknown), the functions mean their
    bodies and those of vstd what the interpreter takes them to mean ([InterpLaws]), and no
    variable in scope has a name that the program binds. *)
Theorem compute_sound exp diagnostics mode logging e msgs ρ v :
  plain true exp → ρ0 ⊆ ρ → dom ρ ## B → den ∅ exp ρ = Some v →
  eval_expr names user_string not_a_seq ptr_eq probe oc ctx exp diagnostics mode logging = Ok (e, msgs) →
  plain true e ∧ den ∅ e ρ = Some v
  ∧ (mode = ComputeMode_ComputeOnly → ∃ b, e = sst_bool (exp_span exp) b ∧ (b = false → diagnostics = false)).
Proof using ptr_eq_sound L.
  intros Hp H0 HB Hv. unfold eval_expr. destruct (eval_expr_launch _ _ _ _ _ _ _ _ _ _ _ _) as [[e' ms]| |] eqn:E; try done.
  intros [= <- _]. rewrite (den_source B (arch ctx) ∅ ρ exp Hp) in Hv.
  destruct (launch_sound (interp_fuel ctx) exp mode logging (negb diagnostics) e' ms ρ v) as (Hpe & He & Hm);
    [by apply plain_source|done|done|exact E|].
  split; [done|]. split; [by rewrite (den_source B (arch ctx) ∅ ρ e' Hpe)|]. intros Hmode.
  destruct (Hm Hmode) as (b & -> & Hb). exists b. split; [done|]. intros Hf. specialize (Hb Hf). by destruct diagnostics.
Qed.
End sound.

(** ** An example

    A recursive function and sequences, in the model of [SstExample]. *)

Module Factorial.
Open Scope string_scope.

Definition no_names : Path → option string := λ _, None.
Definition sp : Span := mkSpan 0 [] "".
Definition int_exp (x : ExpX) : Exp := mkExp sp int_typ x.
Definition bool_exp (x : ExpX) : Exp := mkExp sp bool_typ x.
Definition n_var : VarIdent := ("n", VarIdentDisambiguate_RustcId 1).
Definition y_var : VarIdent := ("y", VarIdentDisambiguate_RustcId 2).
Definition num z := int_exp (ExpX_Const (Constant_Int z)).
Definition var x := int_exp (ExpX_Var x).
Definition fact_name : Fun := fun_of (CrateId_Id "test" 0) [] "fact".
Definition call f ts es : ExpX := ExpX_Call (CallFun_Fun f None) ts es.
Definition arith_exp op a b := int_exp (ExpX_Binary (BinaryOp_Arith op) a b).
Definition eq_exp a b := bool_exp (ExpX_Binary BinaryOp_Eq a b).

(** [fact(n) = if n <= 0 { 1 } else { n * fact(n - 1) }] *)
Definition fact_body : Exp :=
  int_exp (ExpX_If (bool_exp (ExpX_Binary (BinaryOp_Inequality InequalityOp_Le) (var n_var) (num 0))) (num 1)
    (arith_exp ArithOp_Mul (var n_var) (int_exp (call fact_name [] [arith_exp ArithOp_Sub (var n_var) (num 1)])))).
Definition fact_sst : FunctionSst :=
  mkFunctionSst FunctionKind_Static [] [n_var] true (Some (mkFuncSpecBody None fact_body)).
Definition ctx : Ctx := mkCtx {[ fact_name := fact_sst ]} 1000 100 (ArchWordBits_Exactly 64) ∅ None.

Fixpoint nat_fact (n : nat) : Z := match n with O => 1 | S n' => Z.of_nat n * nat_fact n' end.

Definition cseq (v : cval) : option (list cval) := match v with CSeq l => decode l | _ => None end.
Definition seq_op (k : SeqFn) (vs : list cval) : option cval :=
  match k, vs with
  | SeqFn_Empty, [] => Some (CSeq CNil)
  | SeqFn_Push, [s; x] => l ← cseq s; Some (CSeq (encode (l ++ [x])))
  | SeqFn_Update, [s; CInt i; x] => l ← cseq s; Some (CSeq (encode (<[Z.to_nat i := x]> l)))
  | SeqFn_Subrange, [s; CInt i; CInt j] =>
    l ← cseq s; Some (CSeq (encode (take (Z.to_nat j - Z.to_nat i) (drop (Z.to_nat i) l))))
  | SeqFn_Add, [s; t] => l ← cseq s; r ← cseq t; Some (CSeq (encode (l ++ r)))
  | SeqFn_Len, [s] => l ← cseq s; Some (CInt (Z.of_nat (length l)))
  | SeqFn_Index, [s; CInt i] => l ← cseq s; l !! Z.to_nat i
  | SeqFn_ExtEqual, [s; t] => l ← cseq s; r ← cseq t; Some (CBool (bool_decide (l = r)))
  | SeqFn_Last, [s] => l ← cseq s; last l
  | _, _ => None
  end.
Definition funs (f : Fun) (_ : Typs) (vs : list cval) : option cval :=
  if decide (f = fact_name) then match vs with [CInt n] => Some (CInt (nat_fact (Z.to_nat n))) | _ => None end
  else
    match is_sequence_fn no_names f, is_array_fn no_names f, vs with
    | Some k, _, _ => seq_op k vs
    | None, Some ArrayFn_View, [CArray l] => Some (CSeq l)
    | _, _, _ => None
    end.
#[export] Instance model : SstModel := example_model 64 funs.
Definition bound : gset VarIdent := {[ n_var ]}.

Lemma nat_fact_step n : (0 < n)%Z → nat_fact (Z.to_nat n) = (n * nat_fact (Z.to_nat (n - 1)))%Z.
Proof.
  intros Hn. replace (Z.to_nat n) with (S (Z.to_nat (n - 1))) by lia. cbn [nat_fact]. f_equal. lia.
Qed.
Lemma cseq_encode l : cseq (CSeq (encode l)) = Some l.
Proof. by apply decode_spec. Qed.
Lemma iset_not_vstd f vs v : iset_funs f vs = Some v → is_sequence_fn no_names f = None ∧ is_array_fn no_names f = None.
Proof.
  unfold iset_funs. intros H.
  repeat (case_match; try discriminate H); subst f; vm_compute; done.
Qed.
Lemma fun_val_seq f k ts vs v : is_sequence_fn no_names f = Some k → fun_val f ts vs = Some v → seq_op k vs = Some v.
Proof.
  intros Hk. cbn [fun_val model example_model]. unfold funs. case_decide as Hf; [by subst f|]. rewrite Hk.
  destruct (seq_op k vs); [done|]. intros [H _]%iset_not_vstd. congruence.
Qed.
Lemma seq_op_sound k vs v : seq_op k vs = Some v → seq_fun k vs v.
Proof.
  unfold seq_op, seq_fun. intros H.
  destruct k; repeat (case_match; try discriminate H); try (by injection H as <-); intros; simplify_eq;
    repeat match goal with E : _ = @VInt _ _ |- _ => cbn in E; injection E as ->  end;
    rewrite ?cseq_encode in H; cbn in H; try (by injection H as <-); try done.
Qed.

Definition fact_env (n : V) : gmap VarIdent V := list_to_map (zip (pars fact_sst) [n]) ∪ ∅.
Lemma fact_body_value n : den ∅ fact_body (fact_env (CInt n)) = Some (CInt (nat_fact (Z.to_nat n))).
Proof.
  assert (Hn : fact_env (CInt n) !! n_var = Some (CInt n)) by done.
  cbn [den mapM fact_body int_exp bool_exp arith_exp num var call]. rewrite Hn. cbn.
  destruct (Z.leb_spec n 0) as [Hle|Hlt]; cbn.
  - by replace (Z.to_nat n) with O by lia.
  - by rewrite nat_fact_step.
Qed.

#[export] Instance laws : InterpLaws no_names ctx bound ∅.
Proof.
  split.
  - done.
  - done.
  - intros f ts vs v Hk. cbn [fun_val model example_model]. unfold funs. case_decide as Hf; [by subst f|].
    destruct (is_sequence_fn no_names f) as [k|] eqn:Hs.
    { exfalso. clear -Hk Hs. unfold is_array_fn, is_sequence_fn in *. destruct (path_as_vstd_name _ _) as [n|]; [|done].
      destruct (String.eqb n "array::array_view") eqn:E; [|done]. apply String.eqb_eq in E. by subst n. }
    rewrite Hk. assert (Hi : iset_funs f vs = None).
    { destruct (iset_funs f vs) eqn:E; [|done]. apply iset_not_vstd in E as [_ E]. congruence. }
    destruct vs as [|[] [|]]; try (rewrite Hi; done). intros [= <-] l0. by intros [= ->].
  - intros f k ts vs v Hk Hv. by apply seq_op_sound, (fun_val_seq f k ts).
  - done.
  - intros t l x. cbn. change (funs fun_push [t] [CSeq (encode l); x]) with (seq_op SeqFn_Push [CSeq (encode l); x]).
    cbn [seq_op]. by rewrite cseq_encode.
  - done.
  - intros f func ax ts te body vs v Hf Hax Hin Ha Hq Hte Hb Hv. cbn [fun_ssts ctx] in Hf.
    apply lookup_singleton_Some in Hf as [<- <-]. injection Hax as <-. cbn [decrease_when body_exp] in Hb |- *.
    injection Hte as <-. injection Hb as <-. cbn [fun_val model example_model] in Hv. unfold funs in Hv.
    destruct (decide _) as [_|Hne] in Hv; [|by destruct Hne].
    assert (Hi : iset_funs fact_name vs = None) by by unfold iset_funs; repeat case_match.
    destruct vs as [|[] [|]]; try by rewrite Hi in Hv.
    injection Hv as <-. apply fact_body_value.
  - intros f func ax ts te e e' Hf Hax He Hte Hs. cbn [fun_ssts ctx] in Hf.
    apply lookup_singleton_Some in Hf as [<- <-]. injection Hax as <-. destruct He as [->|]; [|done]. injection Hte as <-.
    injection Hs as <-. done.
  - intros f func Hf. cbn [fun_ssts ctx] in Hf. apply lookup_singleton_Some in Hf as [<- <-]. cbn. set_solver.
  - intros x. unfold bound. rewrite elem_of_singleton. done.
  - done.
  - done.
Qed.
End Factorial.
#[local] Existing Instances Factorial.model Factorial.laws.

Definition sample_exp : Exp :=
  let seq_exp x := mkExp Factorial.sp (TypX_Datatype (Dt_Path seq_path) [int_typ] []) x in
  let push s e := seq_exp (Factorial.call fun_push [int_typ] [s; e]) in
  let y := Factorial.var Factorial.y_var in
  let len := Factorial.int_exp (Factorial.call (fun_of CrateId_Vstd ["seq"; "Seq"]%string "len") [int_typ]
               [push (push (seq_exp (Factorial.call fun_empty [int_typ] [])) y) (Factorial.num 1)]) in
  Factorial.bool_exp (ExpX_Binary BinaryOp_And
    (Factorial.eq_exp (Factorial.int_exp (Factorial.call Factorial.fact_name [] [Factorial.num 10])) (Factorial.num 3628800))
    (Factorial.eq_exp len (Factorial.num 2))).

(** [fact(10) == 3628800 && seq![y, 1].len() == 2] *)
Lemma compute_sound_witness :
  let res := sst_bool Factorial.sp true in
  let scope : gmap VarIdent V := {[ Factorial.y_var := VInt 7 ]} in
  plain Factorial.bound (arch Factorial.ctx) true res ∧ den ∅ res scope = Some (VBool true)
  ∧ (ComputeMode_ComputeOnly = ComputeMode_ComputeOnly → ∃ b, res = sst_bool (exp_span sample_exp) b ∧ (b = false → true = false)).
Proof.
  intros res scope.
  apply (compute_sound (ctx := Factorial.ctx) (B := Factorial.bound) (λ _, ""%string) (λ s _, error s ""%string) (λ _ _, false)
    (λ l r (H : false = true), False_ind _ (Bool.diff_false_true H)) (λ _ _, true) true sample_exp true
    ComputeMode_ComputeOnly false res [] scope (VBool true)).
  - vm_compute. tauto.
  - apply map_empty_subseteq.
  - rewrite /scope dom_singleton_L. apply disjoint_singleton_l. by vm_compute.
  - vm_compute. reflexivity.
  - vm_compute. reflexivity.
Defined.

(** [[1, 2]] and [[1, 3]], as values *)
Definition seq_value (i j : Z) : Exp :=
  Factorial.int_exp (ExpX_Interp (InterpExp_Seq [Factorial.num i; Factorial.num j])).
Lemma syntactic_eq_sound_witness :
  (false = true → ∀ φ ρ, den φ (seq_value 1 2) ρ = den φ (seq_value 1 3) ρ) ∧
  (∀ φ ρ v w, den φ (seq_value 1 2) ρ = Some v → den φ (seq_value 1 3) ρ = Some w → (false = true ↔ v = w)).
Proof.
  apply (syntactic_eq_sound (ctx := Factorial.ctx) (B := Factorial.bound) (λ s _, error s ""%string) (λ _ _, false)
    (λ l r (H : false = true), False_ind _ (Bool.diff_false_true H)) (seq_value 1 2) (seq_value 1 3) false).
  - vm_compute. tauto.
  - vm_compute. tauto.
  - vm_compute. reflexivity.
Defined.

(** ** Two assertions that are evaluated wrongly *)

Module Wrong.
Import Factorial.
Open Scope string_scope.
Definition x_var : VarIdent := ("x", VarIdentDisambiguate_RustcId 1).
Definition j_var : VarIdent := ("j", VarIdentDisambiguate_RustcId 2).
Definition f_name : Fun := fun_of (CrateId_Id "test" 0) [] "f".
Definition run (arch : ArchWordBits) (pars : list VarIdent) (body : Exp) (mode : ComputeMode) (e : Exp) :=
  eval_expr no_names (λ _, "") (λ s _, error s "") (λ _ _, false) (λ _ _, true) true
    (mkCtx {[ f_name := mkFunctionSst FunctionKind_Static [] pars true (Some (mkFuncSpecBody None body)) ]}
       1000 100 arch ∅ None) e true mode false.

(** [f(x) = x << 4] on [usize], for an unknown word size *)
Definition shift_body : Exp :=
  int_exp (ExpX_Binary (BinaryOp_Bitwise (BitwiseOp_Shl IntegerTypeBitwidth_ArchWordSize false)) (var x_var) (num 4)).
Definition shift_val (word_bits : N) (f : Fun) (_ : Typs) (vs : list cval) : option cval :=
  match vs with [CInt x] => Some (CInt (low_bits word_bits (Z.shiftl x 4))) | _ => None end.
Definition shift_exp : Exp :=
  eq_exp (int_exp (call f_name [] [num 0xffffffff])) (int_exp (call f_name [] [num 0x1fffffff])).

(** [f(x, j) = seq![x, 0][j] == 5 ==> false] *)
Definition seq_exp (x : ExpX) : Exp := mkExp sp (TypX_Datatype (Dt_Path seq_path) [int_typ] []) x.
Definition push s e := seq_exp (call fun_push [int_typ] [s; e]).
Definition index s i := int_exp (call (fun_of CrateId_Vstd ["seq"; "Seq"] "index") [int_typ] [s; i]).
Definition capture_body : Exp :=
  bool_exp (ExpX_Binary BinaryOp_Implies
    (eq_exp (index (push (push (seq_exp (call fun_empty [int_typ] [])) (var x_var)) (num 0)) (var j_var)) (num 5))
    (bool_exp (ExpX_Const (Constant_Bool false)))).
Definition capture_exp : Exp := bool_exp (call f_name [] [arith_exp ArithOp_Add (var x_var) (num 1); var j_var]).
Definition capture_val (f : Fun) (ts : Typs) (vs : list cval) : option cval :=
  if decide (f = f_name) then
    match vs with
    | [CInt x; CInt j] => v ← [CInt x; CInt 0] !! Z.to_nat j; Some (CBool (negb (bool_decide (v = CInt 5))))
    | _ => None
    end
  else funs f ts vs.
Definition capture_result : Exp :=
  match run (ArchWordBits_Exactly 64) [x_var; j_var] capture_body ComputeMode_Z3 capture_exp with
  | Ok (e, _) => e
  | _ => capture_exp
  end.
End Wrong.
Import Factorial Wrong.

(** C9. A shift by the word size is left unevaluated when the word sizes give different results:
    the parameter [x] escapes from the body, and [f(0xffff_ffff) == f(0x1fff_ffff)] for
    [f(x) = x << 4] is found true, although it is false for 64-bit words. *)
Theorem shift_wrong :
  let M := example_model 64 (shift_val 64) in
  (∀ i, in_bits 128 i = true → den (M := M) ∅ shift_body {[ x_var := CInt i ]} = fun_val (SstModel := M) f_name [] [CInt i])
  ∧ run ArchWordBits_Either32Or64 [x_var] shift_body ComputeMode_ComputeOnly shift_exp = Ok (sst_bool sp true, [])
  ∧ den (M := M) ∅ shift_exp ∅ = Some (CBool false).
Proof.
  intros M. split; [|by vm_compute]. intros i Hi. cbn [den shift_body int_exp var num]. rewrite lookup_singleton_eq.
  cbn [mbind option_bind binary to_int M example_model const bitwise]. change (in_bits 128 4) with true. cbn iota.
  by rewrite Hi.
Qed.

(** C8. Restoring a sequence for an operation that stays in the expression restores variables that
    were hidden, and a second evaluation captures them: for
    [f(x, j) = (seq![x, 0][j] == 5 ==> false)] the assertion [f(x + 1, j)] is changed into one
    that is true for [x = 4] and [j = 0], where [f(5, 0)] is false.  The hypothesis of
    [compute_sound] on the names in scope cannot be dropped. *)
Theorem capture_wrong :
  let M := example_model 64 capture_val in
  let scope : gmap VarIdent cval := {[ x_var := CInt 4; j_var := CInt 0 ]} in
  (∀ x j v, fun_val (SstModel := M) f_name [] [CInt x; CInt j] = Some v → (0 ≤ j)%Z →
    den (M := M) ∅ capture_body {[ x_var := CInt x; j_var := CInt j ]} = Some v)
  ∧ den (M := M) ∅ capture_exp scope = Some (CBool false)
  ∧ ∃ e, run (ArchWordBits_Exactly 64) [x_var; j_var] capture_body ComputeMode_Z3 capture_exp = Ok (e, [])
    ∧ den (M := M) ∅ e scope = Some (CBool true).
Proof.
  intros M scope. split; [|split; [by vm_compute|exists capture_result; split; by vm_compute]].
  intros x j v Hv Hj. set (ρ := {[ x_var := CInt x; j_var := CInt j ]} : gmap VarIdent cval).
  assert (Hs : den (M := M) ∅ (push (push (seq_exp (call fun_empty [int_typ] [])) (var x_var)) (num 0)) ρ
    = Some (CSeq (encode [CInt x; CInt 0]))) by reflexivity.
  assert (Hf : fun_val (SstModel := M) f_name [] [CInt x; CInt j]
    = match [CInt x; CInt 0] !! Z.to_nat j with Some u => Some (CBool (negb (bool_decide (u = CInt 5)))) | None => None end).
  { cbn [fun_val M example_model]. unfold capture_val. destruct (decide _) as [_|[]]; [|done]. by destruct (_ !! _). }
  rewrite Hf in Hv. destruct ([CInt x; CInt 0] !! Z.to_nat j) as [u|] eqn:Hu; [|done]. injection Hv as <-.
  cbn [den capture_body bool_exp eq_exp index int_exp call mapM]. unfold ρ in Hs. rewrite Hs.
  assert (Hi : fun_val (SstModel := M) (fun_of CrateId_Vstd ["seq"; "Seq"]%string "index") [int_typ]
    [CSeq (encode [CInt x; CInt 0]); CInt j] = Some u).
  { transitivity (match [CInt x; CInt 0] !! Z.to_nat j with Some u => Some u | None => None end); [|by rewrite Hu].
    reflexivity. }
  assert (Hjv : den (M := M) ∅ (var j_var) ρ = Some (CInt j)) by reflexivity. unfold ρ in Hjv. rewrite Hjv.
  cbn [mbind option_bind mret option_ret resolve_fun map]. change (erase_typ int_typ) with int_typ. rewrite Hi.
  cbn. by destruct (bool_decide _).
Qed.
