(* ===== verification/SubstSound.v ===== *)
(** * Substitution does not capture variables

    The meaning of [subst_exp] (sst_util.rs).  [den_same]: a value depends only on the free
    variables.  [free_vars_complete]: [free_vars_exp] finds them.  [subst_exp_rec_node]: what
    the recursion returns, with the scopes that it opens closed again.  The groups of
    renamed binders ([group]) and the free variables of the replacements ([safe]) give
    [becomes_faithful], and the loops that fill the three scoped maps give the property
    [subst_exp_sound].  [subst_shadow_wrong] is about the binders that it excludes. *)

From S2P Require Import Prelude StateRes VirMessages VirAst VirAstUtil Sst SstSemantics.
From S2P Require Import SstUtil SstExample InterpSynFacts InterpTerm.
From S2P Require Ast ScopeMap.
Set Warnings "-rewrite-rw,-register-all,-clear-no-such-hyp".

(** The meaning of functions, quantifiers and [choose] depends on the types of the binders
    and on what the bodies mean, not on the names. *)
Class SubstLaws `{M : SstModel} := {
  sl_lambda bs bs' e e' ρ ρ' : map va bs = map va bs' →
    (∀ vs, length vs = length bs → den ∅ e (bind_env bs vs ρ) = den ∅ e' (bind_env bs' vs ρ')) →
    lambda_val bs e ρ = lambda_val bs' e' ρ';
  sl_quant q bs bs' f g : map va bs = map va bs' → (∀ vs, length vs = length bs → f vs = g vs) →
    quant_val q bs f = quant_val q bs' g;
  sl_choose bs bs' f g h k : map va bs = map va bs' → (∀ vs, length vs = length bs → f vs = g vs) →
    (∀ vs, length vs = length bs → h vs = k vs) → choose_val bs f h = choose_val bs' g k
}.

(** ** The value depends on the free variables *)

Lemma mapM_ext_in {A B} (f g : A → option B) l : (∀ x, x ∈ l → f x = g x) → mapM f l = mapM g l.
Proof. intros H. apply mapM_Forall2_eq, Forall2_same_length_lookup. split; [done|]. intros i x y Hx Hy.
  rewrite Hx in Hy. injection Hy as <-. apply H. by eapply list_elem_of_lookup_2. Qed.
Lemma elem_of_union_fv {A} (f : A → gset VarIdent) l x : x ∈ ⋃ map f l ↔ ∃ a, a ∈ l ∧ x ∈ f a.
Proof. rewrite elem_of_union_list. setoid_rewrite list_elem_of_fmap. naive_solver. Qed.

Section den_fv.
Context `{M : SstModel}.
Implicit Types ρ : gmap VarIdent V.

Definition same_on (X : gset VarIdent) ρ ρ' : Prop := ∀ x, x ∈ X → ρ !! x = ρ' !! x.
Lemma same_on_sub X Y ρ ρ' : same_on X ρ ρ' → Y ⊆ X → same_on Y ρ ρ'.
Proof using. intros H Hs x Hx. apply H, Hs, Hx. Qed.

Lemma bind_env_bound {A} (bs : VarBinders A) vs ρ ρ' x : length vs = length bs → x ∈ binder_names bs →
  bind_env bs vs ρ !! x = bind_env bs vs ρ' !! x.
Proof using.
  intros Hl Hx. unfold bind_env. rewrite !lookup_union.
  assert (is_Some (list_to_map (M := gmap VarIdent V) (zip (binder_names bs) vs) !! x)) as [v ->].
  { apply elem_of_dom. rewrite dom_list_to_map_L elem_of_list_to_set fst_zip //. unfold binder_names.
    rewrite length_map. lia. }
  by rewrite !union_Some_l.
Qed.
Lemma bind_env_free {A} (bs : VarBinders A) vs ρ x : x ∉ binder_names bs → bind_env bs vs ρ !! x = ρ !! x.
Proof using.
  intros Hx. unfold bind_env. rewrite lookup_union. rewrite (not_elem_of_list_to_map_1 _ x); [|by rewrite left_id_L].
  intros (p & -> & Hp)%list_elem_of_fmap. apply Hx. destruct p as [y w]. by apply elem_of_zip_l in Hp.
Qed.
Lemma bind_env_same {A} (bs : VarBinders A) vs ρ ρ' X : length vs = length bs →
  same_on (X ∖ list_to_set (binder_names bs)) ρ ρ' → same_on X (bind_env bs vs ρ) (bind_env bs vs ρ').
Proof using.
  intros Hl H x Hx. destruct (decide (x ∈ binder_names bs)) as [Hb|Hb]; [by apply bind_env_bound|].
  rewrite !bind_env_free //. apply H. set_solver.
Qed.
Lemma bind_env_at {A} (bs : VarBinders A) vs ρ i x : NoDup (binder_names bs) → length vs = length bs →
  binder_names bs !! i = Some x → bind_env bs vs ρ !! x = vs !! i.
Proof using.
  intros Hn Hl Hi. unfold bind_env. assert (is_Some (vs !! i)) as [v Hv].
  { apply lookup_lt_is_Some. apply lookup_lt_Some in Hi. unfold binder_names in Hi. rewrite length_map in Hi. lia. }
  assert (Hm : list_to_map (M := gmap VarIdent V) (zip (binder_names bs) vs) !! x = Some v).
  { apply elem_of_list_to_map_1.
    - rewrite fst_zip //. unfold binder_names. rewrite length_map. lia.
    - apply list_elem_of_lookup. exists i. by rewrite lookup_zip_Some. }
  by rewrite lookup_union Hm union_Some_l Hv.
Qed.
Lemma restrict_same (X : gset VarIdent) (ρ : gmap VarIdent V) : same_on X (restrict X ρ) ρ.
Proof using.
  intros x Hx. unfold restrict. destruct (ρ !! x) as [v|] eqn:Hv; [by apply map_lookup_filter_Some|].
  apply map_lookup_filter_None. by left.
Qed.
Lemma restrict_eq (X : gset VarIdent) (ρ ρ' : gmap VarIdent V) : same_on X ρ ρ' → restrict X ρ = restrict X ρ'.
Proof using.
  intros H. apply map_eq. intros x. apply option_eq. intros v. unfold restrict. rewrite !map_lookup_filter_Some /=.
  split; intros [Hv Hx]; (split; [|done]); [by rewrite -H|by rewrite H].
Qed.
Lemma same_dom (X Y : gset VarIdent) (ρ ρ' : gmap VarIdent V) : same_on X ρ ρ' → Y ⊆ X → Y ⊆ dom ρ → Y ⊆ dom ρ'.
Proof using. intros H HY Hd x Hx. specialize (Hd x Hx). rewrite elem_of_dom in Hd. rewrite elem_of_dom -H; auto. Qed.

Context {L : SubstLaws}.
Lemma den_same φ e : ∀ ρ ρ', same_on (fv e) ρ ρ' → den φ e ρ = den φ e ρ'.
Proof using L.
  induction e as [s t y IH] using exp_ind'. intros ρ ρ' H. rewrite Forall_forall in IH.
  assert (Hl : ∀ es, (∀ e, e ∈ es → e ∈ children y) → ⋃ map fv es ⊆ fv (mkExp s t y) →
    mapM (λ e, den φ e ρ) es = mapM (λ e, den φ e ρ') es).
  { intros es Hc Hs. apply mapM_ext_in. intros e He. apply IH; [by apply Hc|]. eapply same_on_sub; [exact H|].
    intros x Hx. apply Hs, elem_of_union_fv. by exists e. }
  assert (H1 : ∀ e, e ∈ children y → fv e ⊆ fv (mkExp s t y) → den φ e ρ = den φ e ρ').
  { intros e He Hs. apply IH; [done|]. by eapply same_on_sub. }
  destruct y as [|z| | | |e| |f ts es|e es|dt v bs|op|op e|op e|op e1 e2|[deep typ] e1 e2|e1 e2 e3|ts e|sp b e| |es|i|];
    cbn [den children fv] in H, Hl, H1 |- *; try done.
  all: try (rewrite (H1 e); [mem|set_solver|]).
  all: try (rewrite (H1 e1); [mem|set_solver|]).
  all: try (rewrite (H1 e2); [mem|set_solver|]).
  all: try (rewrite (H1 e3); [mem|set_solver|]).
  all: try (rewrite (Hl es); [intros; mem|set_solver|]).
  all: try done.
  - apply H. set_solver.
  - f_equal. apply mapM_ext_in. intros [n a] Hb.
    rewrite (H1 a); [|intros x Hx; apply elem_of_union_fv; by exists (Ast.mkBinder n a)|done].
    by apply (list_elem_of_fmap_2 Ast.ba) in Hb.
  - destruct op as [typ|typ ts|typ ts x typ'|t1 t2]; try done. destruct typ; try done. apply H. cbn. set_solver.
  - assert (Hb : ∀ (X : gset VarIdent) (bs : list VarIdent), X ∖ list_to_set bs ⊆ fv (mkExp s t (ExpX_Bind sp b e)) →
      same_on (X ∖ list_to_set bs) ρ ρ') by by intros; eapply same_on_sub.
    assert (He : ∀ ρ ρ', same_on (fv e) ρ ρ' → den φ e ρ = den φ e ρ') by (apply IH; mem).
    destruct b as [bs|q bs ts l|bs ts|bs ts c]; cbn [fv bnd_children] in *.
    + rewrite (mapM_ext_in _ (λ b, let 'mkVarBinder _ a := b in den φ a ρ') bs).
      * intros [n a] Ha.
        apply H1; [|intros x Hx; apply elem_of_union; left; apply elem_of_union_fv; by exists (mkVarBinder n a)].
        apply (list_elem_of_fmap_2 va) in Ha. cbn in Ha. mem.
      * destruct (mapM _ bs) as [vs|] eqn:Hvs; [|done]. cbn. apply He, bind_env_same; [|apply Hb; set_solver].
        by apply mapM_Some_1, Forall2_length in Hvs.
    + apply sl_quant; [done|]. intros vs Hvs. rewrite (He _ (bind_env bs vs ρ')) //. apply bind_env_same; [done|].
      by apply Hb.
    + assert (Hd : fv e ∖ list_to_set (binder_names bs) ⊆ dom ρ ↔ fv e ∖ list_to_set (binder_names bs) ⊆ dom ρ').
      { split; (eapply same_dom; [|done]); [done|]. intros x Hx. symmetry. by apply H. }
      repeat case_decide; try tauto. by rewrite (restrict_eq _ _ _ H).
    + apply sl_choose; [done|..]; intros vs Hvs.
      * rewrite (IH c ltac:(mem) _ (bind_env bs vs ρ')) //. apply bind_env_same; [done|]. apply Hb. set_solver.
      * apply He, bind_env_same; [done|]. apply Hb. set_solver.
Qed.
End den_fv.

(** ** The state of a substitution *)

(** The const generics of a function, which no binder binds. *)
Definition bare (x : VarIdent) : Prop := x.2 = VarIdentDisambiguate_TypParamBare.

Section scopes.
Local Abbreviation SM := (ScopeMap.ScopeMap UniqueIdent).

(** The names inserted since the innermost scope was opened. *)
Definition inner {V} (m : SM V) : gset VarIdent :=
  match last (ScopeMap.scopes m) with Some sc => dom (ScopeMap.undo_map sc) | None => ∅ end.
Definition keys {V} (m : SM V) : gset VarIdent := dom (ScopeMap.map m).

Lemma insert_sm_spec {V} (m m' : SM V) x v : ScopeMap.insert_sm m x v = Ok (true, m') →
  ScopeMap.map m' = <[x := v]> (ScopeMap.map m) ∧ x ∉ inner m ∧ inner m' = {[x]} ∪ inner m.
Proof.
  unfold ScopeMap.insert_sm, ScopeMap.insert_at, inner.
  destruct (ScopeMap.scopes m) as [|sc0 scs _] eqn:Hs using rev_ind; [done|].
  rewrite length_app /= decide_False; [lia|]. destruct (decide (x ∈ _)); [done|].
  rewrite Nat.add_sub list_lookup_middle //. cbn [expect rbind].
  destruct (ScopeMap.undo_map sc0 !! x) eqn:Hx; intros [= <-]. cbn [ScopeMap.map ScopeMap.scopes]. split; [done|].
  rewrite insert_app_r_alt // Nat.sub_diag /= !last_snoc. cbn [ScopeMap.undo_map].
  split; [by apply not_elem_of_dom|]. by rewrite dom_insert_L.
Qed.
Lemma insert_new_spec {V} (m m' : SM V) x v : insert_new m x v = Ok m' →
  ScopeMap.map m' = <[x := v]> (ScopeMap.map m) ∧ x ∉ inner m ∧ inner m' = {[x]} ∪ inner m
  ∧ ∀ m0 a, ScopeMap.extends m0 a m → ScopeMap.extends m0 a m'.
Proof.
  unfold insert_new. destruct (ScopeMap.insert_sm m x v) as [[[] m1]| |] eqn:H; [|done..]. intros [= ->].
  destruct (insert_sm_spec _ _ _ _ H) as (? & ? & ?). split_and!; [done..|]. intros. by eapply ScopeMap.extends_insert.
Qed.
Lemma inner_push {V} (m : SM V) a : inner (ScopeMap.push_scope m a) = ∅.
Proof. unfold inner, ScopeMap.push_scope. cbn. by rewrite last_snoc. Qed.
Lemma keys_insert {V} (m m' : SM V) x v : ScopeMap.map m' = <[x := v]> (ScopeMap.map m) → keys m' = {[x]} ∪ keys m.
Proof. unfold keys. intros ->. by rewrite dom_insert_L. Qed.
Lemma contains_key_keys {V} (m : SM V) x : ScopeMap.contains_key m x = true ↔ x ∈ keys m.
Proof. unfold ScopeMap.contains_key, keys. by rewrite bool_decide_eq_true elem_of_dom. Qed.
End scopes.

Definition FR (s : SubstState) : gset VarIdent := keys (free_vars s).
Definition BL (s : SubstState) : gset VarIdent := keys (fresh_var_blacklist s).
Definition SU (s : SubstState) : gmap VarIdent Exp := ScopeMap.map (substs s).

(** [s] is [s0] with one more scope in each map. *)
Definition opened (s0 s : SubstState) : Prop :=
  ScopeMap.extends (substs s0) false (substs s) ∧ ScopeMap.extends (free_vars s0) true (free_vars s)
  ∧ ScopeMap.extends (fresh_var_blacklist s0) true (fresh_var_blacklist s).
Lemma opened_pop s0 s : opened s0 s → pop_scopes s = Ok (tt, s0).
Proof.
  destruct s0. intros (H1 & H2 & H3). unfold pop_scopes, pop.
  by rewrite (ScopeMap.extends_pop _ _ _ H1) (ScopeMap.extends_pop _ _ _ H2) (ScopeMap.extends_pop _ _ _ H3).
Qed.

Lemma fresh_name_spec fuel bl x n name : fresh_name fuel bl x n = Ok name → name ∉ keys bl ∧ ¬ bare name.
Proof.
  revert n. induction fuel as [|fuel IH]; intros n; cbn; [done|]. unfold unique_bound.
  destruct (ScopeMap.contains_key bl _) eqn:H; [apply IH|]. intros [= <-]. split; [|done].
  intros Hk%contains_key_keys. cbn in Hk. congruence.
Qed.

(** One binder: it is renamed when its name is free in a replacement. *)
Record renamed (n n' : VarIdent) (s s' : SubstState) : Prop := {
  rn_inner : n' ∉ inner (fresh_var_blacklist s);
  rn_inner' : inner (fresh_var_blacklist s') = {[n']} ∪ inner (fresh_var_blacklist s);
  rn_BL : BL s' = {[n']} ∪ BL s;
  rn_opened s0 : opened s0 s → opened s0 s';
  rn_or :
    (n ∈ FR s ∧ n' ∉ BL s ∧ ¬ bare n' ∧ FR s' = {[n']} ∪ FR s
     ∧ (∃ sp t, SU s' = <[n := mkExp sp t (ExpX_Var n')]> (SU s))
     ∧ n ∉ inner (substs s) ∧ inner (substs s') = {[n]} ∪ inner (substs s))
    ∨ (n ∉ FR s ∧ n' = n ∧ substs s' = substs s ∧ free_vars s' = free_vars s)
}.

Lemma rename_binder_spec {A} span (fa : A → A) f_typ b s b' s' : rename_binder span fa f_typ b s = Ok (b', s') →
  va b' = fa (va b) ∧ renamed (vname b) (vname b') s s'.
Proof.
  destruct s as [su fr bl]. unfold rename_binder, unique_bound. cbn [substs free_vars fresh_var_blacklist].
  destruct (ScopeMap.contains_key fr (vname b)) eqn:Hc; intros H; inv_ok; cbn [va vname]; (split; [done|]).
  - match goal with H : fresh_name _ _ _ _ = Ok _ |- _ => apply fresh_name_spec in H as [Hf1 Hf2] end.
    repeat match goal with H : insert_new _ _ _ = Ok _ |- _ => apply insert_new_spec in H as (? & ? & ? & ?) end.
    apply contains_key_keys in Hc. constructor; cbn [substs free_vars fresh_var_blacklist]; try done.
    + by eapply keys_insert.
    + intros s0 (? & ? & ?). split_and!; cbn; auto.
    + left. split_and!; try done; [by eapply keys_insert|by eexists _, _].
  - match goal with H : insert_new _ _ _ = Ok _ |- _ => apply insert_new_spec in H as (? & ? & ? & ?) end.
    constructor; cbn [substs free_vars fresh_var_blacklist]; try done.
    + by eapply keys_insert.
    + intros s0 (? & ? & ?). split_and!; cbn; auto.
    + right. split_and!; try done. intros Hk%contains_key_keys. cbn in Hk. congruence.
Qed.

(** A group of binders. *)
Record group (names names' : list VarIdent) (s s' : SubstState) : Prop := {
  g_names : NoDup names;
  g_names' : NoDup names';
  g_length : length names' = length names;
  g_FR : FR s ⊆ FR s';
  g_FR_new : FR s' ⊆ FR s ∪ list_to_set names';
  g_BL : BL s' = BL s ∪ list_to_set names';
  g_each i n n' : names !! i = Some n → names' !! i = Some n' →
    (n' = n ∧ n ∉ FR s ∧ SU s' !! n = SU s !! n)
    ∨ (n' ∉ BL s ∧ ¬ bare n' ∧ n ∈ FR s' ∧ n' ∈ FR s' ∧ ∃ sp t, SU s' !! n = Some (mkExp sp t (ExpX_Var n')));
  g_other x : x ∉ names → SU s' !! x = SU s !! x
}.

(** Names of the group seen before have been renamed or not. *)
Definition seen (N : gset VarIdent) (s : SubstState) : Prop := ∀ n, n ∈ N →
  (n ∈ inner (substs s) ∧ n ∈ FR s) ∨ (n ∈ inner (fresh_var_blacklist s) ∧ n ∈ BL s ∧ n ∉ FR s).

Lemma renamed_seen N n n' s s' : renamed n n' s s' → seen N s → n ∉ N ∧ seen ({[n]} ∪ N) s'.
Proof.
  intros H HN. pose proof (rn_inner _ _ _ _ H) as Hi. pose proof (rn_inner' _ _ _ _ H) as Hi'.
  pose proof (rn_BL _ _ _ _ H) as HB.
  destruct (rn_or _ _ _ _ H) as [(H1 & H2 & _ & HF & _ & Hs & Hs')|(H1 & -> & Hs & HF)].
  - split; [intros Hn; destruct (HN n Hn) as [?|?]; tauto|].
    intros m [->%elem_of_singleton|Hm]%elem_of_union; [left; rewrite Hs' HF; set_solver|].
    destruct (HN m Hm) as [[? ?]|(? & ? & ?)]; [left; rewrite Hs' HF; set_solver|right; rewrite Hi' HB HF; set_solver].
  - assert (HF' : FR s' = FR s) by by unfold FR; rewrite HF.
    split; [intros Hn; destruct (HN n Hn) as [?|?]; tauto|].
    intros m [->%elem_of_singleton|Hm]%elem_of_union; [right; rewrite Hi' HB HF'; set_solver|].
    destruct (HN m Hm) as [[? ?]|(? & ? & ?)]; [left; by rewrite Hs HF'|right; rewrite Hi' HB HF'; set_solver].
Qed.

Lemma group_cons n n' ns ns' s s1 s2 : renamed n n' s s1 → group ns ns' s1 s2 → n ∉ ns → n' ∉ ns' →
  group (n :: ns) (n' :: ns') s s2.
Proof.
  intros [_ _ HB _ Hor] [Hn1 Hn2 Hl HF HFn HBg He Ho] Hn Hn'.
  assert (HF1 : FR s ⊆ FR s1 ∧ FR s1 ⊆ {[n']} ∪ FR s).
  { destruct Hor as [(_ & _ & _ & -> & _)|(_ & _ & _ & HF1)]; [set_solver|]. unfold FR. rewrite HF1. set_solver. }
  assert (HS : ∀ x, x ≠ n → SU s1 !! x = SU s !! x).
  { intros x Hx. destruct Hor as [(_ & _ & _ & _ & (sp & t & ->) & _)|(_ & _ & HS & _)]; [by rewrite lookup_insert_ne|]. unfold SU. by rewrite HS. }
  split.
  - by constructor.
  - by constructor.
  - cbn. by rewrite Hl.
  - clear -HF HF1. set_solver.
  - cbn. clear -HFn HF1. set_solver.
  - cbn. rewrite HBg HB. clear. set_solver.
  - intros [|i] m m' Hm Hm'; cbn in Hm, Hm'.
    + injection Hm as ->. injection Hm' as ->. rewrite Ho //.
      destruct Hor as [(H1 & H2 & H3 & H4 & (sp & t & HS1) & _)|(H1 & -> & HS1 & _)].
      * right. split_and!; [done..| | |]; [by apply HF, HF1|apply HF; rewrite H4; clear; set_solver|]. eexists _, _.
        by rewrite HS1 lookup_insert_eq.
      * left. split_and!; [done..|]. unfold SU. by rewrite HS1.
    + assert (m ≠ n) by (intros ->; apply Hn; by eapply list_elem_of_lookup_2).
      destruct (He i m m' Hm Hm') as [(-> & H1 & H2)|(H1 & H2 & H3 & H4 & H5)].
      * left. rewrite H2 HS //. split_and!; [done|intros Hx; by apply H1, HF1|done].
      * right. split_and!; [rewrite HB in H1; clear -H1; set_solver|done..].
  - intros x [Hx1 Hx2]%not_elem_of_cons. rewrite Ho //. by apply HS.
Qed.

Lemma rename_binders_spec {A} span (fa : A → A) f_typ bs : ∀ N s bs' s', seen N s →
  smap (rename_binder span fa f_typ) bs s = Ok (bs', s') →
  map va bs' = map (λ b, fa (va b)) bs ∧ group (binder_names bs) (binder_names bs') s s'
  ∧ (∀ n, n ∈ binder_names bs → n ∉ N) ∧ (∀ n, n ∈ binder_names bs' → n ∉ inner (fresh_var_blacklist s))
  ∧ ∀ s0, opened s0 s → opened s0 s'.
Proof.
  induction bs as [|b bs IH]; intros N s bs' s2 HN; cbn [smap].
  - intros [= <- <-]. split; [done|]. split; [|split_and!; [by intros ? ?%elem_of_nil..|done]].
    split; cbn; try constructor; try done; set_solver.
  - intros H. unfold sbind in H. apply rbind_ok_inv in H as ([b' s1] & Hb & H).
    apply rbind_ok_inv in H as ([bs1 s1'] & Hbs & H). injection H as <- <-.
    apply rename_binder_spec in Hb as [Hva Hr]. destruct (renamed_seen _ _ _ _ _ Hr HN) as [Hn HN'].
    destruct (IH _ _ _ _ HN' Hbs) as (Hvas & Hg & Hns & Hns' & Ho).
    split; [by cbn; rewrite Hva Hvas|]. split; [|split_and!].
    + eapply group_cons; [done|done|intros Hb; apply (Hns _ Hb), elem_of_union_l, elem_of_singleton; done|].
      intros Hb. apply (Hns' _ Hb). rewrite (rn_inner' _ _ _ _ Hr). by apply elem_of_union_l, elem_of_singleton.
    + intros n [->|Hb]%elem_of_cons; [done|]. intros HN0. by apply (Hns n Hb), elem_of_union_r.
    + intros n [->|Hb]%elem_of_cons; [apply (rn_inner _ _ _ _ Hr)|]. intros HN0. apply (Hns' n Hb).
      rewrite (rn_inner' _ _ _ _ Hr). by apply elem_of_union_r.
    + intros s0 H0. by apply Ho, (rn_opened _ _ _ _ Hr).
Qed.

Lemma subst_rename_binders_spec {A} span bs (fa : A → A) f_typ s bs' s' :
  subst_rename_binders span bs fa f_typ s = Ok (bs', s') →
  map va bs' = map (λ b, fa (va b)) bs ∧ group (binder_names bs) (binder_names bs') s s' ∧ opened s s'.
Proof.
  unfold subst_rename_binders.
  set (s1 := mkSubstState (ScopeMap.push_scope (substs s) false) (ScopeMap.push_scope (free_vars s) true)
    (ScopeMap.push_scope (fresh_var_blacklist s) true)). intros H.
  destruct (rename_binders_spec span fa f_typ bs ∅ s1 bs' s') as (H1 & H2 & _ & _ & H3); [by intros n ?%elem_of_empty|exact H|].
  split; [done|]. split; [split; apply H2|]. apply H3. split_and!; apply ScopeMap.extends_push.
Qed.

(** ** What a substitution returns *)

Lemma subst_typ_empty t : subst_typ ∅ t = t.
Proof.
  induction t using typ_ind'; cbn; try done;
    repeat match goal with H : Forall _ _ |- _ => apply map_ext_Forall in H; rewrite map_id in H end; try congruence.
  destruct a; cbn; congruence.
Qed.

Section node.
Variable allow : bool.
Local Abbreviation subst := (subst_exp_rec ∅ allow).

(** [e] becomes [e'] in the state [s], which is left as it was. *)
Definition becomes (s : SubstState) (e e' : Exp) : Prop := subst e s = Ok (e', s).

Definition renames {A} (bs bs' : VarBinders A) (s s' : SubstState) : Prop :=
  map va bs' = map va bs ∧ group (binder_names bs) (binder_names bs') s s' ∧ opened s s'.
Definition binds (s : SubstState) (b b' : BndX Exp) (s' : SubstState) : Prop :=
  match b, b' with
  | BndX_Let bs, BndX_Let bs' => ∃ bs1, Forall2 (rebuilt_var_binder (becomes s)) bs bs1 ∧ renames bs1 bs' s s'
  | BndX_Quant q bs _ _, BndX_Quant q' bs' _ _ => q' = q ∧ renames bs bs' s s'
  | BndX_Lambda bs _, BndX_Lambda bs' _ => renames bs bs' s s'
  | BndX_Choose bs _ c, BndX_Choose bs' _ c' => renames bs bs' s s' ∧ becomes s' c c'
  | _, _ => False
  end.
(** What is put for the variable [x], whose expression is [e]. *)
Definition replaced (S : gmap VarIdent Exp) (x : VarIdent) (e : Exp) : Exp := default e (S !! x).
Definition node (s : SubstState) (e e' : Exp) : Prop :=
  match exp_x e with
  | ExpX_Var x => x ∈ BL s ∧ e' = replaced (SU s) x e
  | ExpX_Bind sp b e1 => ∃ b' e1' s', e' = mkExp (exp_span e) (exp_typ e) (ExpX_Bind sp b' e1')
                                      ∧ binds s b b' s' ∧ becomes s' e1 e1'
  | ExpX_Interp _ => False
  | _ => rebuilt_exp (becomes s) e e'
  end.

(** [m] leaves the state as it was. *)
Definition fixes (s : SubstState) (A : Type) (P : A → Prop) (m : st SubstState fuel_error A) : Prop :=
  ∀ x s', m s = Ok (x, s') → s' = s ∧ P x.
Lemma fixes_ret s A (P : A → Prop) x : P x → fixes s A P (sret x).
Proof using. by intros H y s' [= <- <-]. Qed.
Lemma fixes_bind s A B (P : A → Prop) (Q : B → Prop) m k :
  fixes s A P m → (∀ x, P x → fixes s B Q (k x)) → fixes s B Q (sbind m k).
Proof using.
  intros Hm Hk y s2 H. apply rbind_ok_inv in H as ([x s1] & H1 & H2). destruct (Hm _ _ H1) as [-> Hx]. by apply (Hk x).
Qed.
Lemma fixes_mono s A (P Q : A → Prop) m : fixes s A P m → (∀ x, P x → Q x) → fixes s A Q m.
Proof using. intros Hm H x s' H1. destruct (Hm _ _ H1). auto. Qed.
Lemma fixes_typ s t : fixes s Typ (eq t) (sret (subst_typ ∅ t)).
Proof using. apply fixes_ret. by rewrite subst_typ_empty. Qed.

Lemma renames_binders {A} sp (bs : VarBinders A) f f_typ s bs' s' : (∀ a, f a = a) →
  subst_rename_binders sp bs f f_typ s = Ok (bs', s') → renames bs bs' s s'.
Proof using.
  intros Hf H. apply subst_rename_binders_spec in H as (H1 & H2 & H3). split_and!; [|done..].
  rewrite H1. by apply map_ext.
Qed.
Lemma fixes_triggers s ts : (∀ e, e ∈ concat ts → fixes s _ (becomes s e) (subst e)) →
  fixes s _ (λ _, True) (ftrigs subst ts).
Proof using.
  intros H. eapply fixes_mono; [|done]. by apply (spec_triggers (fixes s) (fixes_ret s) (fixes_bind s) subst (becomes s)).
Qed.
Lemma subst_bnd_binds sp b s b' s' : (∀ e s, e ∈ bnd_children b → fixes s _ (becomes s e) (subst e)) →
  subst_bnd ∅ subst sp b s = Ok (b', s') → binds s b b' s' ∧ opened s s'.
Proof using.
  intros Hc. destruct b as [bs|q bs ts l|bs ts|bs ts c]; cbn [subst_bnd bnd_children] in *; intros H;
    apply rbind_ok_inv in H as ([bs1 s1] & H1 & H).
  - assert (Hbs : fixes s _ (Forall2 (rebuilt_var_binder (becomes s)) bs)
      (smap (λ b, let 'mkVarBinder n e := b in sbind (subst e) (λ e, sret (mkVarBinder n e))) bs)).
    { apply (spec_smap (fixes s) (fixes_ret s) (fixes_bind s)). intros [n e] Hb. eapply fixes_bind.
      - apply Hc. by apply (list_elem_of_fmap_2 va) in Hb.
      - intros e' He. by apply fixes_ret. }
    destruct (Hbs _ _ H1) as [-> Hbs1]. apply rbind_ok_inv in H as ([bs2 s2] & H2 & H). injection H as <- <-.
    apply renames_binders in H2; [|done]. split; [by exists bs1|apply H2].
  - apply renames_binders in H1; [|apply subst_typ_empty]. apply rbind_ok_inv in H as ([ts' s2] & H2 & H).
    injection H as <- <-. destruct (fixes_triggers s1 ts (λ e, Hc e s1) _ _ H2) as [-> _]. by repeat split; apply H1.
  - apply renames_binders in H1; [|apply subst_typ_empty]. apply rbind_ok_inv in H as ([ts' s2] & H2 & H).
    injection H as <- <-. destruct (fixes_triggers s1 ts (λ e, Hc e s1) _ _ H2) as [-> _]. by repeat split; apply H1.
  - apply renames_binders in H1; [|apply subst_typ_empty]. apply rbind_ok_inv in H as ([c' s2] & H2 & H).
    apply rbind_ok_inv in H as ([ts' s3] & H3 & H). injection H as <- <-.
    destruct (Hc c s1 ltac:(mem) _ _ H2) as [-> Hc']. 
    destruct (fixes_triggers s1 ts ltac:(intros; apply Hc; mem) _ _ H3) as [-> _]. split; [split|]; try done. apply H1.
Qed.

Lemma subst_exp_rec_node e : ∀ s e' s', subst e s = Ok (e', s') → s' = s ∧ node s e e'.
Proof using.
  induction e as [sp t y IH] using exp_ind'. intros s e2 s2. rewrite Forall_forall in IH.
  assert (Hc : ∀ e s, e ∈ children y → fixes s _ (becomes s e) (subst e)).
  { intros e s1 He e' s' H. destruct (IH e He _ _ _ H) as [-> _]. by split. }
  assert (Hsh : (match y with ExpX_Bind _ _ _ | ExpX_Interp _ => False | _ => True end) →
    fixes s _ (rebuilt_exp (becomes s) (mkExp sp t y)) (map_shallow_exp (mkExp sp t y) (λ t, sret (subst_typ ∅ t)) subst)).
  { intros Hy. eapply fixes_bind; [apply fixes_typ|]. intros t' <-. eapply fixes_bind.
    - apply (spec_visit_expx (fixes s) (fixes_ret s) (fixes_bind s) (fixes_mono s) _ _ (becomes s)); [apply fixes_typ|by destruct y|].
      intros e He. apply Hc. by destruct y.
    - intros y' Hy'. apply fixes_ret. by split_and!. }
  cbn [subst_exp_rec]. destruct (_ && _); [done|]. rewrite subst_typ_empty. unfold node. cbn [exp_x exp_span exp_typ].
  destruct y; try done; try by apply Hsh.
  - destruct (ScopeMap.contains_key _ id) eqn:Hk; [|done]. apply contains_key_keys in Hk. unfold ScopeMap.get.
    intros H. assert (He : e2 = replaced (SU s) id (mkExp sp t (ExpX_Var id)) ∧ s2 = s); [|by destruct He].
    revert H. unfold replaced. case_match eqn:Ha; intros [= <- <-]; (split; [|done]).
    + by replace (SU s !! (id : VarIdent)) with (Some e) by (symmetry; exact Ha).
    + by replace (SU s !! (id : VarIdent)) with (@None Exp) by (symmetry; exact Ha).
  - destruct (ScopeMap.get _ _); [done|]. intros [= <- <-]. by repeat constructor.
  - destruct (ScopeMap.get _ _); [done|]. intros [= <- <-]. by repeat constructor.
  - destruct op; try by apply Hsh. destruct allow; [by apply Hsh|done].
  - intros H. apply rbind_ok_inv in H as ([b' s1] & H1 & H).
    apply subst_bnd_binds in H1 as [H1 Ho]; [|intros; apply Hc; cbn; mem].
    apply rbind_ok_inv in H as ([e' s3] & H2 & H). destruct (Hc e s1 ltac:(cbn; mem) _ _ H2) as [-> He].
    apply rbind_ok_inv in H as ([[] s4] & H3 & H). rewrite (opened_pop _ _ Ho) in H3. injection H3 as <-.
    injection H as <- <-.
    split; [done|]. by eexists _, _, _.
  - assert (Hes : fixes s _ (rebuilt_exp (becomes s) (mkExp sp t (ExpX_ArrayLiteral es)))
      (sbind (smap subst es) (λ es, sret (mkExp sp t (ExpX_ArrayLiteral es))))).
    { eapply fixes_bind; [by apply (spec_smap (fixes s) (fixes_ret s) (fixes_bind s)), (λ e, Hc e s)|].
      intros es' Hes. apply fixes_ret. by repeat constructor. }
    apply Hes.
Qed.
End node.

(** ** Substitution and binders *)

Definition bnd_names (b : BndX Exp) : list VarIdent :=
  match b with
  | BndX_Let bs => binder_names bs
  | BndX_Quant _ bs _ _ | BndX_Lambda bs _ | BndX_Choose bs _ _ => binder_names bs
  end.

(** No binder of [e] binds a name twice, a variable of [D] or a const generic. *)
Inductive well_bound (D : gset VarIdent) : Exp → Prop :=
| well_bound_exp s t y :
  (∀ sp b e, y = ExpX_Bind sp b e → NoDup (bnd_names b) ∧ ∀ x, x ∈ bnd_names b → x ∉ D ∧ ¬ bare x) →
  Forall (well_bound D) (children y) → well_bound D (mkExp s t y).

(** [D] has the variables that are substituted, [X] the free variables of what they are
    substituted in. *)
Record safe (D X : gset VarIdent) (s : SubstState) : Prop := {
  safe_FR : FR s ⊆ BL s;
  safe_key x a : SU s !! x = Some a → (x ∈ D ∨ x ∈ FR s) ∧ ¬ bare x;
  safe_free x a z : SU s !! x = Some a → z ∈ fv a → z ∈ FR s ∨ bare z;
  safe_X z : z ∈ X → z ∈ BL s ∨ bare z
}.
Lemma safe_sub D X Y s : safe D X s → Y ⊆ X → safe D Y s.
Proof. intros [] H. split; auto. Qed.

(** The free variables of what becomes of the variable [y]. *)
Definition image (S : gmap VarIdent Exp) (y : VarIdent) : gset VarIdent :=
  match S !! y with Some a => fv a | None => {[y]} end.
Definition image_of (S : gmap VarIdent Exp) (X : gset VarIdent) (x : VarIdent) : Prop := ∃ y, y ∈ X ∧ x ∈ image S y.

Section group.
Context (D X : gset VarIdent) (ns ns' : list VarIdent) (s s' : SubstState).
Hypothesis Hg : group ns ns' s s'.
Hypothesis Hns : ∀ x, x ∈ ns → x ∉ D ∧ ¬ bare x.
Hypothesis Hs : safe D (X ∖ list_to_set ns) s.

Lemma group_old x : x ∈ ns → ∃ i n', ns !! i = Some x ∧ ns' !! i = Some n'
  ∧ ((n' = x ∧ x ∉ FR s ∧ SU s' !! x = SU s !! x)
     ∨ (n' ∉ BL s ∧ ¬ bare n' ∧ x ∈ FR s' ∧ n' ∈ FR s' ∧ ∃ sp t, SU s' !! x = Some (mkExp sp t (ExpX_Var n')))).
Proof using Hg.
  intros [i Hi]%list_elem_of_lookup. destruct (ns' !! i) as [n'|] eqn:Hi'.
  - exists i, n'. split_and!; [done..|]. by eapply g_each.
  - apply lookup_ge_None in Hi'. apply lookup_lt_Some in Hi. pose proof (g_length _ _ _ _ Hg). lia.
Qed.
Lemma group_new x : x ∈ ns' → (x ∈ ns ∧ x ∉ FR s) ∨ (x ∉ BL s ∧ ¬ bare x).
Proof using Hg.
  intros [i Hi]%list_elem_of_lookup. destruct (ns !! i) as [n|] eqn:Hn.
  - destruct (g_each _ _ _ _ Hg i n x Hn Hi) as [(-> & ? & _)|(? & ? & _)]; [left|by right].
    split; [by eapply list_elem_of_lookup_2|done].
  - apply lookup_ge_None in Hn. apply lookup_lt_Some in Hi. pose proof (g_length _ _ _ _ Hg). lia.
Qed.
Lemma group_uncaptured x a z : SU s !! x = Some a → z ∈ fv a → z ∉ ns'.
Proof using Hg Hns Hs.
  intros Ha Hz Hn. destruct (safe_free _ _ _ Hs _ _ _ Ha Hz) as [HF|Hb].
  - destruct (group_new z Hn) as [[_ ?]|[HB _]]; [done|]. by apply HB, (safe_FR _ _ _ Hs).
  - destruct (group_new z Hn) as [[Hz' _]|[_ ?]]; [|done]. by destruct (Hns z Hz').
Qed.
Lemma group_other z : z ∈ X → z ∉ ns → z ∉ ns'.
Proof using Hg Hs.
  intros Hz Hzn Hn. destruct (group_new z Hn) as [[? _]|[HB Hb]]; [done|].
  destruct (safe_X _ _ _ Hs z ltac:(by rewrite elem_of_difference elem_of_list_to_set)); done.
Qed.
(** A name that is kept is not substituted. *)
Lemma group_kept x : x ∈ ns → x ∉ FR s → SU s !! x = None.
Proof using Hns Hs.
  intros Hx HF. destruct (SU s !! x) as [a|] eqn:Ha; [|done]. destruct (safe_key _ _ _ Hs _ _ Ha) as [[?|?] _]; [|done].
  by destruct (Hns x Hx).
Qed.

Lemma group_safe : safe D X s'.
Proof using Hg Hns Hs.
  split.
  - pose proof (g_FR_new _ _ _ _ Hg). rewrite (g_BL _ _ _ _ Hg). pose proof (safe_FR _ _ _ Hs). set_solver.
  - intros x a Ha. destruct (decide (x ∈ ns)) as [Hx|Hx].
    + split; [|by apply Hns].
      destruct (group_old x Hx) as (i & n' & _ & _ & [(-> & HF & H)|(_ & _ & ? & _)]); [|by right].
      rewrite H (group_kept x) // in Ha.
    + rewrite (g_other _ _ _ _ Hg x Hx) in Ha.
      destruct (safe_key _ _ _ Hs _ _ Ha) as [[?|?] ?]; (split; [|done]); [by left|].
      right. by apply (g_FR _ _ _ _ Hg).
  - intros x a z Ha Hz. destruct (decide (x ∈ ns)) as [Hx|Hx].
    + destruct (group_old x Hx) as (i & n' & _ & _ & [(-> & HF & H)|(_ & _ & _ & ? & sp & t & H)]).
      * rewrite H (group_kept x) // in Ha.
      * rewrite H in Ha. injection Ha as <-. cbn in Hz. apply elem_of_singleton in Hz as ->. by left.
    + rewrite (g_other _ _ _ _ Hg x Hx) in Ha. destruct (safe_free _ _ _ Hs _ _ _ Ha Hz); [left|by right].
      by apply (g_FR _ _ _ _ Hg).
  - intros z Hz. rewrite (g_BL _ _ _ _ Hg). destruct (decide (z ∈ ns)) as [Hx|Hx].
    + left. destruct (group_old z Hx) as (i & n' & _ & Hi & [(-> & _)|(_ & _ & HF & _)]).
      * apply elem_of_union_r, elem_of_list_to_set. by eapply list_elem_of_lookup_2.
      * apply (g_FR_new _ _ _ _ Hg) in HF. pose proof (safe_FR _ _ _ Hs). set_solver.
    + destruct (safe_X _ _ _ Hs z ltac:(by rewrite elem_of_difference elem_of_list_to_set)); [left; set_solver|by right].
Qed.

Lemma group_image (Y : gset VarIdent) : (∀ x, x ∈ Y ↔ image_of (SU s') X x) →
  ∀ x, x ∈ Y ∖ list_to_set ns' ↔ image_of (SU s) (X ∖ list_to_set ns) x.
Proof using Hg Hns Hs.
  intros HY x. rewrite elem_of_difference elem_of_list_to_set HY. split.
  - intros [(y & Hy & Hx) Hxn]. exists y. destruct (decide (y ∈ ns)) as [Hyn|Hyn].
    + exfalso. apply Hxn. revert Hx. unfold image.
      destruct (group_old y Hyn) as (i & n' & _ & Hi & [(-> & HF & H)|(_ & _ & _ & _ & sp & t & H)]).
      * rewrite H (group_kept y) //. intros ->%elem_of_singleton. by eapply list_elem_of_lookup_2.
      * rewrite H. cbn. intros ->%elem_of_singleton. by eapply list_elem_of_lookup_2.
    + unfold image in *. rewrite (g_other _ _ _ _ Hg y Hyn) in Hx. split; [set_solver|done].
  - intros (y & [Hy Hyn]%elem_of_difference & Hx). rewrite elem_of_list_to_set in Hyn. unfold image in Hx. split.
    + exists y. split; [done|]. unfold image. by rewrite (g_other _ _ _ _ Hg y Hyn).
    + destruct (SU s !! y) as [a|] eqn:Ha; [by eapply group_uncaptured|]. apply elem_of_singleton in Hx as ->.
      by apply group_other.
Qed.
End group.

(** ** Expressions without binders *)

Section rebuilt_image.
Context (R : Exp → Exp → Prop) (S : gmap VarIdent Exp) (s : Span) (t : Typ) (y y' : ExpX).
Local Abbreviation e0 := (mkExp s t y).
Hypothesis HR : ∀ a a', a ∈ children y → fv a ⊆ fv e0 → R a a' → ∀ x, x ∈ fv a' ↔ image_of S (fv a) x.
Hypothesis Hbare : ∀ x, bare x → S !! x = None.

Lemma image_union (X Y : gset VarIdent) x : image_of S (X ∪ Y) x ↔ image_of S X x ∨ image_of S Y x.
Proof using. clear. unfold image_of. set_solver. Qed.
Lemma image_empty x : x ∈ (∅ : gset VarIdent) ↔ image_of S ∅ x.
Proof using. clear. unfold image_of. set_solver. Qed.
Lemma image_list {A B : Type} (f : A → gset VarIdent) (g : B → gset VarIdent) l l' (Q : A → B → Prop) : Forall2 Q l l' →
  (∀ a a', a ∈ l → Q a a' → ∀ x, x ∈ g a' ↔ image_of S (f a) x) → ∀ x, x ∈ ⋃ map g l' ↔ image_of S (⋃ map f l) x.
Proof using.
  intros HQ H x. induction HQ as [|a a' l l' Ha _ IH]; cbn; [apply image_empty|].
  rewrite image_union elem_of_union (H a a') //; [left|]. rewrite IH //. intros. apply H; [by right|done].
Qed.

Lemma rebuilt_image : rebuilt R y y' → match y with ExpX_Var _ | ExpX_Bind _ _ _ | ExpX_Interp _ => False | _ => True end →
  ∀ x, x ∈ fv (mkExp s t y') ↔ image_of S (fv e0) x.
Proof using HR Hbare.
  assert (Hl : ∀ es es', Forall2 R es es' → (∀ e, e ∈ es → e ∈ children y) → ⋃ map fv es ⊆ fv e0 →
    ∀ x, x ∈ ⋃ map fv es' ↔ image_of S (⋃ map fv es) x).
  { intros es es' H Hc Hs. eapply image_list; [exact H|]. intros a a' Ha. apply HR; [by apply Hc|].
    intros z Hz. apply Hs, elem_of_union_fv. by exists a. }
  intros H Hy x. destruct H as [y Hl'| | | |d c bs bs' Hbs| | | | | | | |]; cbn [fv children] in *; try done.
  - destruct y as [| | | | | | | | | |op| | | | | | | | | | |]; try done; try apply image_empty.
    destruct op as [typ| | |]; try apply image_empty.
    destruct typ; try apply image_empty. unfold image_of, image. split.
    + intros ->%elem_of_singleton. eexists. split; [by apply elem_of_singleton|]. rewrite Hbare //.
      by apply elem_of_singleton.
    + intros (z & ->%elem_of_singleton & Hz). by rewrite Hbare in Hz.
  - apply HR; [mem|done|done].
  - apply Hl; [done|intros; mem|done].
  - rewrite image_union elem_of_union. f_equiv; [apply HR|apply Hl]; try done; first [mem|set_solver|intros; mem].
  - apply (image_list _ _ _ _ _ Hbs). intros [n a] [n' a'] Hb [_ Ha].
    apply HR; [by apply (list_elem_of_fmap_2 Ast.ba) in Hb| |done].
    intros z Hz. apply elem_of_union_fv. by exists (Ast.mkBinder n a).
  - apply HR; [mem|done|done].
  - apply HR; [mem|done|done].
  - rewrite image_union elem_of_union. f_equiv; apply HR; try done; first [mem|set_solver].
  - rewrite image_union elem_of_union. f_equiv; apply HR; try done; first [mem|set_solver].
  - rewrite !image_union !elem_of_union. repeat f_equiv; apply HR; try done; first [mem|set_solver].
  - apply HR; [mem|done|done].
  - apply Hl; [done|intros; mem|done].
Qed.
End rebuilt_image.

Section rebuilt_den.
Context `{M : SstModel}.
Context (R : Exp → Exp → Prop) (ρ ρ2 : gmap VarIdent V) (s : Span) (t : Typ) (y y' : ExpX).
Local Abbreviation e0 := (mkExp s t y).
Hypothesis HR : ∀ a a', a ∈ children y → fv a ⊆ fv e0 → R a a' → den ∅ a' ρ = den ∅ a ρ2.
Hypothesis Hbare : ∀ x, bare x → x ∈ fv e0 → ρ !! x = ρ2 !! x.

Lemma mapM_Forall2 {A B C} (f : A → option C) (g : B → option C) l l' (Q : A → B → Prop) : Forall2 Q l l' →
  (∀ a a', a ∈ l → Q a a' → g a' = f a) → mapM g l' = mapM f l.
Proof using.
  intros HQ H. induction HQ as [|a a' l l' Ha _ IH]; cbn; [done|]. rewrite (H a a'); [left|done|].
  rewrite IH //. intros. apply H; [by right|done].
Qed.

Lemma rebuilt_den : rebuilt R y y' → match y with ExpX_Var _ | ExpX_Bind _ _ _ | ExpX_Interp _ => False | _ => True end →
  den ∅ (mkExp s t y') ρ = den ∅ e0 ρ2.
Proof using HR Hbare.
  assert (Hl : ∀ es es', Forall2 R es es' → (∀ e, e ∈ es → e ∈ children y) → ⋃ map fv es ⊆ fv e0 →
    mapM (λ e, den ∅ e ρ) es' = mapM (λ e, den ∅ e ρ2) es).
  { intros es es' H Hc Hs. eapply mapM_Forall2; [exact H|]. intros a a' Ha. apply HR; [by apply Hc|].
    intros z Hz. apply Hs, elem_of_union_fv. by exists a. }
  intros H Hy. destruct H as [y Hl'|e e' He|f ts es es' Hes|e e' es es' He Hes|d c bs bs' Hbs|op e e' He|op e e' He|op e1 e1' e2 e2' He1 He2
    |op e1 e1' e2 e2' He1 He2|e1 e1' e2 e2' e3 e3' He1 He2 He3|ts ts' e e' Hts He|?|es es' Hes]; cbn [den fv children] in *; try done.
  - destruct y as [| | | | | | | | | |op| | | | | | | | | | |]; try done. destruct op as [typ| | |]; try done.
    destruct typ; try done. apply Hbare; [done|]. by apply elem_of_singleton.
  - apply HR; [mem|done|done].
  - rewrite (Hl es es') //; intros; mem.
  - rewrite (HR e e') // ?(Hl es es') //; first [mem|set_solver|intros; mem].
  - f_equal. apply (mapM_Forall2 _ _ _ _ _ Hbs). intros [n a] [n' a'] Hb [Hn Ha]. cbn in Hn, Ha. subst n'. f_equal.
    apply HR; [by apply (list_elem_of_fmap_2 Ast.ba) in Hb| |done]. intros z Hz. apply elem_of_union_fv.
    by exists (Ast.mkBinder n a).
  - rewrite (HR e e') //; mem.
  - rewrite (HR e e') //; mem.
  - rewrite (HR e1 e1') // ?(HR e2 e2') //; first [mem|set_solver].
  - rewrite (HR e1 e1') // ?(HR e2 e2') //; first [mem|set_solver].
  - rewrite (HR e1 e1') // ?(HR e2 e2') // ?(HR e3 e3') //; first [mem|set_solver].
  - apply HR; [mem|done|done].
  - rewrite (Hl es es') //; intros; mem.
Qed.
End rebuilt_den.

(** ** Values *)

Section values.
Context `{M : SstModel}.

(** [ρ2] gives the variables of [X] the values that they have after the substitution. *)
Definition agree (S : gmap VarIdent Exp) (X : gset VarIdent) (ρ ρ2 : gmap VarIdent V) : Prop :=
  ∀ x, x ∈ X → ρ2 !! x = match S !! x with Some a => den ∅ a ρ | None => ρ !! x end.
Definition valued (S : gmap VarIdent Exp) (ρ : gmap VarIdent V) : Prop :=
  ∀ x a, S !! x = Some a → is_Some (den ∅ a ρ) ∧ fv a ⊆ dom ρ.

Lemma agree_sub S X Y ρ ρ2 : agree S X ρ ρ2 → Y ⊆ X → agree S Y ρ ρ2.
Proof using. intros H HY x Hx. by apply H, HY. Qed.

(** The variables have values before exactly when they have values after. *)
Lemma image_dom S X Y ρ ρ2 : (∀ x, x ∈ Y ↔ image_of S X x) → valued S ρ → agree S X ρ ρ2 → Y ⊆ dom ρ ↔ X ⊆ dom ρ2.
Proof using.
  intros HY Hv Ha. split; intros H x Hx.
  - apply elem_of_dom. rewrite (Ha x Hx). destruct (S !! x) as [a|] eqn:HS; [by apply (Hv x a)|].
    apply elem_of_dom, H, HY. exists x. split; [done|]. unfold image. rewrite HS. by apply elem_of_singleton.
  - apply HY in Hx as (y & Hy & Hx). specialize (H y Hy). unfold image in Hx. destruct (S !! y) as [a|] eqn:HS.
    + by apply (Hv y a).
    + apply elem_of_singleton in Hx as ->. apply elem_of_dom in H. rewrite (Ha y Hy) HS in H. by apply elem_of_dom.
Qed.

Context {L : SubstLaws}.
Section group.
Context {A : Type} (D X : gset VarIdent) (bs bs' : VarBinders A) (s s' : SubstState).
Local Abbreviation ns := (binder_names bs).
Hypothesis Hg : group ns (binder_names bs') s s'.
Hypothesis Hns : ∀ x, x ∈ ns → x ∉ D ∧ ¬ bare x.
Hypothesis Hs : safe D (X ∖ list_to_set ns) s.
Context (vs : list V) (ρ ρ2 : gmap VarIdent V).
Hypothesis Hvs : length vs = length bs.
Hypothesis Hv : valued (SU s) ρ.
Hypothesis Ha : agree (SU s) (X ∖ list_to_set ns) ρ ρ2.
Local Abbreviation ρ' := (bind_env bs' vs ρ).

Lemma bound_at (i : nat) (x n' : VarIdent) (ρ0 : gmap VarIdent V) : ns !! i = Some x → binder_names bs' !! i = Some n' →
  bind_env bs vs ρ0 !! x = vs !! i ∧ ρ' !! n' = vs !! i ∧ is_Some (vs !! i).
Proof using Hg Hvs.
  intros Hi Hi'. pose proof (g_length _ _ _ _ Hg) as Hl. unfold binder_names in Hl. rewrite !length_map in Hl. split_and!.
  - apply bind_env_at; [apply (g_names _ _ _ _ Hg)|done|done].
  - apply bind_env_at; [apply (g_names' _ _ _ _ Hg)|congruence|done].
  - apply lookup_lt_is_Some. apply lookup_lt_Some in Hi. unfold binder_names in Hi. rewrite length_map in Hi. lia.
Qed.
Lemma replacement_same x a : SU s !! x = Some a → den ∅ a ρ' = den ∅ a ρ.
Proof using Hg Hns Hs L.
  intros Hx. apply den_same. intros z Hz. apply bind_env_free. by eapply group_uncaptured.
Qed.

Lemma group_valued : valued (SU s') ρ'.
Proof using Hg Hns Hs Hvs Hv L.
  assert (Hold : ∀ x a, SU s !! x = Some a → is_Some (den ∅ a ρ') ∧ fv a ⊆ dom ρ').
  { intros x a Hx. rewrite (replacement_same x a Hx). destruct (Hv x a Hx) as [? Hd]. split; [done|].
    unfold bind_env. rewrite dom_union_L. intros z Hz. by apply elem_of_union_r, Hd. }
  intros x a Hx. destruct (decide (x ∈ ns)) as [Hn|Hn]; [|rewrite (g_other _ _ _ _ Hg x Hn) in Hx; by eapply Hold].
  destruct (group_old _ _ _ _ Hg x Hn) as (i & n' & Hi & Hi' & [(-> & _ & H)|(_ & _ & _ & _ & sp & t & H)]); rewrite H in Hx; [by eapply Hold|].
  injection Hx as <-. cbn. destruct (bound_at i x n' ρ Hi Hi') as (_ & H2 & H3). rewrite H2. split; [done|].
  intros z ->%elem_of_singleton. apply elem_of_dom. by rewrite H2.
Qed.
Lemma group_agree : agree (SU s') X ρ' (bind_env bs vs ρ2).
Proof using Hg Hns Hs Hvs Ha L.
  intros x Hx. destruct (decide (x ∈ ns)) as [Hn|Hn].
  - destruct (group_old _ _ _ _ Hg x Hn) as (i & n' & Hi & Hi' & [(-> & HF & H)|(_ & _ & _ & _ & sp & t & H)]);
      destruct (bound_at i x _ ρ2 Hi Hi') as (H1 & H2 & _); rewrite H1 H.
    + by rewrite (group_kept D X _ s Hns Hs x Hn HF).
    + cbn. by rewrite H2.
  - rewrite bind_env_free // (g_other _ _ _ _ Hg x Hn) Ha; [by rewrite elem_of_difference elem_of_list_to_set|].
    destruct (SU s !! x) as [a|] eqn:HS; [by rewrite (replacement_same x a HS)|].
    rewrite bind_env_free //. by eapply group_other.
Qed.
End group.
End values.

Section sound.
Context `{M : SstModel} {L : SubstLaws}.
Context (allow : bool) (D : gset VarIdent).

(** What [becomes] keeps. *)
Definition faithful (s : SubstState) (e e' : Exp) : Prop :=
  (∀ x, x ∈ fv e' ↔ image_of (SU s) (fv e) x)
  ∧ ∀ ρ ρ2, valued (SU s) ρ → agree (SU s) (fv e) ρ ρ2 → den ∅ e' ρ = den ∅ e ρ2.
(** ... of the body of a group of binders. *)
Definition faithful_body {A} (s : SubstState) (bs bs' : VarBinders A) (e e' : Exp) : Prop :=
  (∀ x, x ∈ fv e' ∖ list_to_set (binder_names bs') ↔ image_of (SU s) (fv e ∖ list_to_set (binder_names bs)) x)
  ∧ ∀ vs ρ ρ2, length vs = length bs → valued (SU s) ρ → agree (SU s) (fv e ∖ list_to_set (binder_names bs)) ρ ρ2 →
    den ∅ e' (bind_env bs' vs ρ) = den ∅ e (bind_env bs vs ρ2).

Lemma body_faithful {A} (bs bs' : VarBinders A) s s' e e' : group (binder_names bs) (binder_names bs') s s' →
  (∀ x, x ∈ binder_names bs → x ∉ D ∧ ¬ bare x) → safe D (fv e ∖ list_to_set (binder_names bs)) s →
  (safe D (fv e) s' → faithful s' e e') → faithful_body s bs bs' e e'.
Proof using L.
  intros Hg Hns Hs He. destruct He as [H1 H2]; [by eapply group_safe|]. split; [by eapply group_image|].
  intros vs ρ ρ2 Hvs Hv Ha. apply H2; [by eapply group_valued|by eapply group_agree].
Qed.
Lemma body_lambda {A} (bs bs' : VarBinders A) s e e' vs ρ ρ2 : faithful_body s bs bs' e e' → length vs = length bs →
  length bs' = length bs → valued (SU s) ρ → agree (SU s) (fv e ∖ list_to_set (binder_names bs)) ρ ρ2 →
  den ∅ e' (bind_env bs' vs (restrict (fv e' ∖ list_to_set (binder_names bs')) ρ))
  = den ∅ e (bind_env bs vs (restrict (fv e ∖ list_to_set (binder_names bs)) ρ2)).
Proof using L.
  intros [_ H] Hvs Hl Hv Ha. trans (den ∅ e' (bind_env bs' vs ρ)); [|trans (den ∅ e (bind_env bs vs ρ2))].
  - apply den_same, bind_env_same; [congruence|]. apply restrict_same.
  - by apply H.
  - apply den_same, bind_env_same; [done|]. intros x Hx. symmetry. by apply restrict_same.
Qed.

Lemma map_binders {B} (f : Exp → B) (bs : VarBinders Exp) : map (λ b, let 'mkVarBinder _ a := b in f a) bs = map f (map va bs).
Proof using. rewrite map_map. apply map_ext. by intros []. Qed.
Lemma mapM_binders {B} (f : Exp → option B) (bs : VarBinders Exp) :
  mapM (λ b, let 'mkVarBinder _ a := b in f a) bs = mapM f (map va bs).
Proof using. induction bs as [|[n a] bs IH]; cbn; [done|]. by rewrite IH. Qed.
Lemma rebuilt_binders R bs bs' : Forall2 (rebuilt_var_binder R) bs bs' →
  binder_names bs' = binder_names bs ∧ Forall2 R (map va bs) (map va bs').
Proof using.
  unfold binder_names. induction 1 as [|b b' bs bs' [Hn Ha] _ [IH1 IH2]]; cbn; [done|].
  split; [by rewrite Hn IH1|by constructor].
Qed.

Lemma bind_faithful sp t bsp b e1 b' e1' s s' : let e := mkExp sp t (ExpX_Bind bsp b e1) in
  binds allow s b b' s' → becomes allow s' e1 e1' → (∀ x, x ∈ bnd_names b → x ∉ D ∧ ¬ bare x) → safe D (fv e) s →
  (∀ a a', a ∈ children (exp_x e) → fv a ⊆ fv e → becomes allow s a a' → faithful s a a') →
  (∀ a a', a ∈ children (exp_x e) → becomes allow s' a a' → safe D (fv a) s' → faithful s' a a') →
  faithful s e (mkExp sp t (ExpX_Bind bsp b' e1')).
Proof using L.
  intros e Hbinds He1 Hns Hs HR Hbody. subst e. cbn [exp_x] in HR, Hbody.
  assert (He1b : safe D (fv e1) s' → faithful s' e1 e1') by (apply Hbody; [cbn; mem|done]).
  destruct b as [bs|q bs ts l|bs ts|bs ts c], b' as [bs'|q' bs' ts' l'|bs' ts'|bs' ts' c']; try done; cbn [binds bnd_names] in *.
  - destruct Hbinds as (bs1 & Hbs1 & Hva & Hg & _). apply rebuilt_binders in Hbs1 as [Hn Hbs1].
    rewrite -Hva in Hbs1. rewrite Hn in Hg.
    assert (Hf : faithful_body s bs bs' e1 e1').
    { eapply body_faithful; [done..| |done]. eapply safe_sub; [exact Hs|]. cbn. clear. set_solver. }
    assert (Hva1 : ∀ a a', a ∈ map va bs → becomes allow s a a' → faithful s a a').
    { intros a a' Hin. apply HR; [cbn; by apply elem_of_app; left|]. cbn. rewrite (map_binders fv bs). intros x Hx.
      apply elem_of_union_l, elem_of_union_fv. by exists a. }
    split.
    + intros x. cbn [fv]. rewrite (map_binders fv bs) (map_binders fv bs') elem_of_union image_union.
      f_equiv; [|apply Hf].
      eapply image_list; [exact Hbs1|]. intros a a' Hin Hb. by apply (Hva1 a a' Hin Hb).
    + intros ρ ρ2 Hv Ha. cbn [den]. rewrite (mapM_binders (λ a, den ∅ a ρ)) (mapM_binders (λ a, den ∅ a ρ2)).
      cbn [fv] in Ha. rewrite (map_binders fv bs) in Ha.
      rewrite (mapM_Forall2 (λ a, den ∅ a ρ2) (λ a, den ∅ a ρ) _ _ _ Hbs1).
      * intros a a' Hin Hb. apply (Hva1 a a' Hin Hb); [done|]. eapply agree_sub; [exact Ha|]. intros x Hx.
         apply elem_of_union_l, elem_of_union_fv. by exists a.
      * destruct (mapM _ (map va bs)) as [vs|] eqn:Hvs; [|done]. cbn.
        apply Hf; [|done|eapply agree_sub; [exact Ha|clear; set_solver]].
         apply mapM_Some_1, Forall2_length in Hvs. by rewrite length_map in Hvs.
  - destruct Hbinds as [-> (Hva & Hg & _)]. pose proof (body_faithful _ _ _ _ _ _ Hg Hns Hs He1b) as Hf.
    split; [apply Hf|]. intros ρ ρ2 Hv Ha. cbn. apply sl_quant; [done|]. intros vs Hvs.
    rewrite (proj2 Hf vs ρ ρ2) //. rewrite Hvs. rewrite -(length_map va bs') Hva length_map //.
  - destruct Hbinds as (Hva & Hg & _). pose proof (body_faithful _ _ _ _ _ _ Hg Hns Hs He1b) as Hf.
    split; [apply Hf|]. intros ρ ρ2 Hv Ha. cbn. pose proof (image_dom _ _ _ _ _ (proj1 Hf) Hv Ha) as Hd.
    repeat case_decide; try tauto. f_equal. apply sl_lambda; [done|]. intros vs Hvs.
    assert (Hl : length bs' = length bs) by by rewrite -(length_map va bs') Hva length_map.
    eapply body_lambda; [exact Hf|congruence|done..].
  - destruct Hbinds as [(Hva & Hg & _) Hc']. set (names := list_to_set (binder_names bs) : gset VarIdent) in *.
    assert (Hsub : ∀ a, a ∈ [c; e1] → fv a ∖ names ⊆ (fv c ∪ fv e1) ∖ names).
    { intros a [->| ->%list_elem_of_singleton]%elem_of_cons; clear; set_solver. }
    assert (Hcf : faithful_body s bs bs' c c').
    { eapply body_faithful; [done..| |apply Hbody; [cbn; mem|done]]. eapply safe_sub; [exact Hs|apply Hsub; mem]. }
    assert (Hf : faithful_body s bs bs' e1 e1').
    { eapply body_faithful; [done..| |done]. eapply safe_sub; [exact Hs|apply Hsub; mem]. }
    split.
    + intros x. cbn [fv]. rewrite !difference_union_distr_l_L elem_of_union image_union. f_equiv; [apply Hcf|apply Hf].
    + intros ρ ρ2 Hv Ha. cbn.
      assert (Hl : length bs' = length bs) by by rewrite -(length_map va bs') Hva length_map.
      apply sl_choose; [done|..]; rewrite Hl; intros vs Hvs.
      * rewrite (proj2 Hcf vs ρ ρ2) //. eapply agree_sub; [exact Ha|apply Hsub; mem].
      * apply Hf; [done..|]. eapply agree_sub; [exact Ha|apply Hsub; mem].
Qed.

Lemma becomes_faithful e : ∀ s e', becomes allow s e e' → well_bound D e → safe D (fv e) s → faithful s e e'.
Proof using L.
  induction e as [sp t y IH] using exp_ind'. intros s e' H Hw Hs. rewrite Forall_forall in IH.
  apply subst_exp_rec_node in H as [_ H]. inversion Hw as [sp0 t0 y0 Hb Hc]; subst sp0 t0 y0. rewrite Forall_forall in Hc.
  assert (HR : ∀ a a', a ∈ children y → fv a ⊆ fv (mkExp sp t y) → becomes allow s a a' → faithful s a a').
  { intros a a' Ha Hsub H1. apply IH; auto. by eapply safe_sub. }
  assert (Hbare : ∀ x, bare x → SU s !! x = None).
  { intros x Hx. destruct (SU s !! x) as [a|] eqn:HS; [|done]. by destruct (safe_key _ _ _ Hs _ _ HS) as [_ ?]. }
  destruct (match y with ExpX_Var _ | ExpX_Bind _ _ _ | ExpX_Interp _ => true | _ => false end) eqn:Hy.
  2: { assert (Hr : rebuilt_exp (becomes allow s) (mkExp sp t y) e') by (unfold node in H; by destruct y).
    destruct Hr as (Hsp & Ht & Hr), e' as [sp' t' y']. cbn [exp_span exp_typ exp_x] in Hsp, Ht, Hr. subst sp' t'. split.
    - eapply rebuilt_image; [|done|exact Hr|by destruct y]. intros a a' Ha Hsub H1. by apply HR.
    - intros ρ ρ2 Hv Ha. eapply rebuilt_den; [| |exact Hr|by destruct y].
      + intros a a' Hca Hsub H1. destruct (HR a a' Hca Hsub H1) as [_ HH]. apply HH; [done|]. by eapply agree_sub.
      + intros x Hx Hf. by rewrite (Ha x Hf) Hbare. }
  destruct y as [|x| | | | | | | | | | | | | | | |bsp b e1| | |i|]; try done; unfold node in H; cbn [exp_x exp_span exp_typ] in H.
  - destruct H as [_ ->]. split.
    + intros z. unfold replaced, image_of, image. cbn [fv]. split.
      * intros Hz. exists x. split; [by apply elem_of_singleton|]. revert Hz. by destruct (SU s !! (x : VarIdent)).
      * intros (w & ->%elem_of_singleton & Hz). by destruct (SU s !! (x : VarIdent)).
    + intros ρ ρ2 Hv Ha. specialize (Ha x (proj2 (elem_of_singleton _ _) eq_refl)). unfold replaced.
      destruct (SU s !! (x : VarIdent)); by cbn [den default].
  - destruct H as (b' & e1' & s' & -> & Hbinds & He1). destruct (Hb bsp b e1 eq_refl) as [_ Hns].
    eapply bind_faithful; [done..|]. intros a a' Ha. intros. apply IH; auto.
Qed.
End sound.

(** ** The free variables that are collected *)

Section free.
Variable x : VarIdent.
Implicit Types (m : VisitorScopeMap) (P : Prop).
Local Abbreviation Vars := (gmap UniqueIdent Typ).
Local Abbreviation W := (VisitorScopeMap * Vars)%type.

(** Started in the scopes [m], [mm] ends with a result and scopes that satisfy [Q]; it
    forgets no variable, and it finds [x] if [P]. *)
Definition seeks {A : Type} (m : VisitorScopeMap) (mm : st W unit A) (Q : A → VisitorScopeMap → Prop) (P : Prop) : Prop :=
  ∀ s y s', s.1 = m → mm s = Ok (y, s') → Q y s'.1 ∧ dom s.2 ⊆ dom s'.2 ∧ (P → x ∈ dom s'.2).

Lemma seeks_ret {A : Type} m (y : A) (Q : A → VisitorScopeMap → Prop) : Q y m → seeks m (sret y) Q False.
Proof using. by intros H s z s' <- [= <- <-]. Qed.
Lemma seeks_bind {A B : Type} m (mm : st W unit A) (k : A → st W unit B) (Q : A → VisitorScopeMap → Prop) (R : B → VisitorScopeMap → Prop) (P1 P2 : Prop) :
  seeks m mm Q P1 → (∀ y m', Q y m' → seeks m' (k y) R P2) → seeks m (sbind mm k) R (P1 ∨ P2).
Proof using.
  intros Hm Hk s z s2 <- H. apply rbind_ok_inv in H as ([y s1] & H1 & H2).
  destruct (Hm s y s1 eq_refl H1) as (HQ & Hd & HP). destruct (Hk y s1.1 HQ s1 z s2 eq_refl H2) as (HR & Hd2 & HP2).
  split; [done|]. split; [by etrans|]. intros [?|?]; auto.
Qed.
Lemma seeks_weak {A : Type} m (mm : st W unit A) (Q Q' : A → VisitorScopeMap → Prop) (P P' : Prop) :
  seeks m mm Q P → (∀ y m', Q y m' → Q' y m') → (P' → P) → seeks m mm Q' P'.
Proof using. intros H HQ HP s y s' Hs H1. destruct (H s y s' Hs H1) as (? & ? & ?). auto. Qed.
Lemma seeks_or {A : Type} m (mm : st W unit A) (Q : A → VisitorScopeMap → Prop) P :
  seeks m mm Q (P ∨ False) → seeks m mm Q P.
Proof using. intros H. eapply seeks_weak; [exact H|done|by left]. Qed.
Lemma seeks_smap {A B : Type} m (f : A → st W unit B) l (R : A → B → Prop) (P : A → Prop) :
  (∀ a, a ∈ l → seeks m (f a) (λ b m', m' = m ∧ R a b) (P a)) →
  seeks m (smap f l) (λ l' m', m' = m ∧ Forall2 R l l') (∃ a, a ∈ l ∧ P a).
Proof using.
  induction l as [|a l IH]; intros H; cbn [smap].
  - eapply seeks_weak; [by apply (seeks_ret _ _ (λ l' m', m' = m ∧ Forall2 R [] l'))|done|].
    by intros (? & ?%elem_of_nil & _).
  - eapply seeks_weak.
    + eapply seeks_bind; [apply H; left|]. intros b m' [-> Hb]. eapply seeks_bind; [apply IH; intros; apply H; by right|].
      intros l' m' [-> Hl]. apply (seeks_ret _ _ (λ l' m', m' = m ∧ Forall2 R (a :: l) l')). by split; [|constructor].
    + done.
    + intros (c & [->|Hc]%elem_of_cons & HP); [by left|]. right. left. by exists c.
Qed.

(** ... in the scopes in which it started. *)
Definition finds {A : Type} (m : VisitorScopeMap) (mm : st W unit A) (P : Prop) : Prop := seeks m mm (λ _ m', m' = m) P.
Lemma finds_ret {A : Type} m (y : A) : finds m (sret y) False.
Proof using. by apply seeks_ret. Qed.
Lemma finds_bind {A B : Type} m (mm : st W unit A) (k : A → st W unit B) (P1 P2 : Prop) :
  finds m mm P1 → (∀ y, finds m (k y) P2) → finds m (sbind mm k) (P1 ∨ P2).
Proof using. intros H1 H2. eapply seeks_bind; [exact H1|]. intros y m' ->. apply H2. Qed.
Lemma finds_weak {A : Type} m (mm : st W unit A) (P P' : Prop) : finds m mm P → (P' → P) → finds m mm P'.
Proof using. intros H HP. by eapply seeks_weak. Qed.
Lemma finds_smap {A B : Type} m (f : A → st W unit B) l (P : A → Prop) :
  (∀ a, a ∈ l → finds m (f a) (P a)) → finds m (smap f l) (∃ a, a ∈ l ∧ P a).
Proof using.
  intros H. eapply seeks_weak; [apply (seeks_smap m f l (λ _ _, True) P)| |done].
  - intros a Ha. eapply seeks_weak; [by apply H|by intros ? ? ->|done].
  - by intros l' m' [-> _].
Qed.

(** Types. *)
Lemma finds_quiet {A : Type} m (f : A → st W unit A) l : (∀ a, finds m (f a) False) → finds m (smap f l) False.
Proof using. intros H. eapply finds_weak; [by apply (finds_smap m f l (λ _, False))|done]. Qed.
Ltac quiet := repeat first
  [ apply finds_ret
  | eapply finds_weak; [eapply finds_bind; [|intros ?]|intros []]
  | apply finds_quiet; intros ? ].
Lemma finds_typs m ts : finds m (visit_typs sret ts) False.
Proof using. unfold visit_typs. quiet. Qed.
Lemma finds_call_fun m f : finds m (visit_call_fun sret f) False.
Proof using. destruct f as [f [[r ts]|]| |]; cbn; unfold visit_typs; quiet. Qed.
Lemma finds_nullary m op : finds m (visit_nullary sret op) False.
Proof using. destruct op; cbn; unfold visit_typs; quiet. Qed.
Lemma finds_unary_opr m op : finds m (visit_unary_opr sret op) False.
Proof using. destruct op; cbn; quiet. Qed.

(** Binders. *)
Lemma inner_last {V : Type} (m : ScopeMap.ScopeMap UniqueIdent V) ss sc : ScopeMap.scopes m = ss ++ [sc] →
  inner m = dom (ScopeMap.undo_map sc).
Proof using. unfold inner. intros ->. by rewrite last_snoc. Qed.

Definition entered (m m' : VisitorScopeMap) (ns : list VarIdent) : Prop :=
  ScopeMap.extends m true m' ∧ keys m' = keys m ∪ list_to_set ns.

Lemma inserts_entered k ns : ∀ m m1 (t : Vars) u s', NoDup ns → ScopeMap.cannot_shadow m = ∅ → ScopeMap.extends m true m1 →
  (∀ n, n ∈ ns → n ∉ inner m1) → siter (v_insert (E := unit) dfs_scoper k) ns (m1, t) = Ok (u, s') →
  s'.2 = t ∧ ScopeMap.extends m true s'.1 ∧ keys s'.1 = keys m1 ∪ list_to_set ns.
Proof using.
  induction ns as [|n ns IH]; intros m m1 t u s' Hn Hm He Hi H.
  - injection H as <- <-. split_and!; [done..|]. cbn. by rewrite right_id_L.
  - apply NoDup_cons in Hn as [Hn1 Hn2]. apply rbind_ok_inv in H as ([u1 s1] & H1 & H). unfold v_insert in H1. cbn in H1.
    assert (Hc : ScopeMap.cannot_shadow m1 = ∅).
    { destruct He as (sc & _ & _ & _ & -> & _). rewrite Hm. by rewrite right_id_L. }
    destruct (ScopeMap.insert_sm m1 n k) as [[b m2]| |] eqn:Hins; [|done..]. injection H1 as <- <-.
    assert (b = true) as ->.
    { destruct He as (sc & Hsc & _). specialize (Hi n ltac:(left)). rewrite (inner_last _ _ _ Hsc) in Hi.
      apply not_elem_of_dom in Hi.
      revert Hins. unfold ScopeMap.insert_sm, ScopeMap.insert_at. rewrite Hsc length_app /= decide_False; [lia|].
      destruct (decide _) as [Hin|_]; [exfalso; apply (not_elem_of_empty (C := gset VarIdent) n); rewrite <- Hc; exact Hin|]. rewrite Nat.add_sub list_lookup_middle //. cbn [expect rbind].
      intros H1. injection H1 as <- _. by rewrite Hi. }
    pose proof (ScopeMap.extends_insert _ _ _ _ _ _ He Hins) as He2. apply insert_sm_spec in Hins as (Hk & Hi1 & Hi2).
    destruct (IH m m2 t u s' Hn2 Hm He2) as (H2 & H3 & H4); [|exact H|].
    + intros n' Hn'. rewrite Hi2. intros [->%elem_of_singleton|?]%elem_of_union; [done|]. apply (Hi n'); [by right|done].
    + split_and!; [done..|]. rewrite H4 (keys_insert _ _ _ _ Hk). clear. set_solver.
Qed.
Lemma seeks_enter {A} m k (bs : VarBinders A) : NoDup (binder_names bs) → ScopeMap.cannot_shadow m = ∅ →
  seeks m (enter_binders dfs_scoper k bs) (λ _ m', entered m m' (binder_names bs)) False.
Proof using.
  intros Hn Hm [m1 t] u s' Hs H. cbn in Hs. subst m1. apply rbind_ok_inv in H as ([u1 s1] & [= <- <-] & H).
  eapply (inserts_entered k) in H as (H1 & H2 & H3); [|exact Hn|exact Hm|apply ScopeMap.extends_push|].
  - split; [done|]. cbn. by rewrite H1.
  - intros n _. cbn. by rewrite inner_push.
Qed.
Lemma entered_shadow m m' ns : entered m m' ns → ScopeMap.cannot_shadow m = ∅ → ScopeMap.cannot_shadow m' = ∅.
Proof using. intros [(sc & _ & _ & _ & -> & _) _] ->. by rewrite right_id_L. Qed.
Lemma seeks_pop m m' ns : entered m m' ns → seeks m' (v_pop dfs_scoper) (λ _ m2, m2 = m) False.
Proof using.
  intros [He _] [m1 t] u s' Hs H. cbn in Hs. subst m1. unfold v_pop in H. cbn in H.
  rewrite (ScopeMap.extends_pop (E := Empty_set) _ _ _ He) in H. by injection H as <- <-.
Qed.

Lemma same_names {A B : Type} (bs : VarBinders A) (bs' : VarBinders B) :
  Forall2 (λ b b', vname b' = vname b) bs bs' → binder_names bs' = binder_names bs.
Proof using. unfold binder_names. induction 1 as [|b b' bs bs' Hb _ IH]; cbn; [done|]. by rewrite Hb IH. Qed.

(** The expressions directly below. *)
Section visit.
Context (visit_exp : Exp → st W unit Exp) (below : list Exp).
Hypothesis Hc : ∀ e m, e ∈ below → ScopeMap.cannot_shadow m = ∅ → finds m (visit_exp e) (x ∈ fv e ∧ x ∉ keys m).
Lemma finds_exps m es : (∀ e, e ∈ es → e ∈ below) → ScopeMap.cannot_shadow m = ∅ →
  finds m (visit_exps visit_exp es) (x ∈ ⋃ map fv es ∧ x ∉ keys m).
Proof using Hc.
  intros Hes Hm. eapply finds_weak; [apply finds_smap; intros e He; apply Hc; [by apply Hes|done]|].
  intros [(e & He & Hxe)%elem_of_union_fv Hk]. by exists e.
Qed.
Lemma finds_triggers m ts : (∀ e, e ∈ concat ts → e ∈ below) → ScopeMap.cannot_shadow m = ∅ →
  finds m (visit_triggers visit_exp ts) False.
Proof using Hc.
  intros Hts Hm. eapply finds_weak; [apply finds_smap; intros es Hes; apply finds_smap; intros e He; apply Hc; [|done]|].
  - apply Hts, list_elem_of_In, in_concat. exists es. split; by apply list_elem_of_In.
  - done.
Qed.
Lemma seeks_binders m bs : seeks m (visit_var_binders_typ sret bs) (λ bs' m', m' = m ∧ binder_names bs' = binder_names bs) False.
Proof using.
  eapply seeks_weak; [apply (seeks_smap m _ bs (λ b b', vname b' = vname b) (λ _, False))| |by intros []].
  - intros [n t] _. eapply seeks_weak; [|by intros ? ? H; exact H|by intros []].
    eapply seeks_bind; [by apply (seeks_ret _ _ (λ _ m', m' = m))|]. intros t' m' ->. by apply seeks_ret.
  - intros bs' m' [-> H]. split; [done|by apply same_names].
Qed.

End visit.

Ltac find Hc := repeat first
  [ apply finds_ret | apply finds_typs | apply finds_call_fun | apply finds_nullary | apply finds_unary_opr
  | apply (finds_triggers _ _ Hc); [intros; cbn [children]; mem|done]
  | apply (finds_exps _ _ Hc); [intros; cbn [children]; mem|done]
  | apply Hc; [cbn [children]; mem|done]
  | eapply finds_bind; [|intros ?] ].

Lemma finds_expx visit_exp s t y m :
  (∀ e m, e ∈ children y → ScopeMap.cannot_shadow m = ∅ → finds m (visit_exp e) (x ∈ fv e ∧ x ∉ keys m)) →
  ¬ bare x → match y with ExpX_Var _ | ExpX_Bind _ _ _ => False | _ => True end → ScopeMap.cannot_shadow m = ∅ →
  finds m (visit_expx sret visit_exp dfs_scoper y) (x ∈ fv (mkExp s t y) ∧ x ∉ keys m).
Proof using.
  intros Hc Hx Hy Hm. assert (Hbs : ∀ d c bs, y = ExpX_Ctor d c bs → finds m (smap (λ b : Ast.BinderX Exp, let 'Ast.mkBinder n e := b in
    sbind (visit_exp e) (λ e, sret (Ast.mkBinder n e))) bs) (x ∈ ⋃ map (λ b, let 'Ast.mkBinder _ a := b in fv a) bs ∧ x ∉ keys m)).
  { intros d c bs ->. eapply finds_weak; [apply (finds_smap m _ bs (λ b, x ∈ fv (Ast.ba b) ∧ x ∉ keys m))|].
    - intros [n e] Hb. eapply finds_weak; [eapply finds_bind; [apply Hc; [|done]|intros ?; apply finds_ret]|by left].
      by apply (list_elem_of_fmap_2 Ast.ba) in Hb.
    - intros [(b & Hb & Hxb)%elem_of_union_fv Hk]. exists b. by destruct b. }
  destruct y as [|z| | | |e| |f ts es|e es|d c bs|op|op e|op e|op e1 e2|[deep typ] e1 e2|e1 e2 e3|ts e|sp b e| |es|i|]; try done;
    cbn [visit_expx fv]; (eapply finds_weak; [find Hc|]);
    try (by intros [? ?]); try (by rewrite ?elem_of_union; tauto).
  - by eapply Hbs.
  - tauto.
  - intros [Hf _]. destruct op as [typ| | |]; try done. destruct typ; try done. apply elem_of_singleton in Hf as ->.
    by destruct Hx.
Qed.

Lemma finds_bnd visit_exp b m :
  (∀ e m, e ∈ bnd_children b → ScopeMap.cannot_shadow m = ∅ → finds m (visit_exp e) (x ∈ fv e ∧ x ∉ keys m)) →
  NoDup (bnd_names b) → ScopeMap.cannot_shadow m = ∅ →
  seeks m (visit_bnd sret visit_exp dfs_scoper b) (λ _ m', entered m m' (bnd_names b))
    (match b with
     | BndX_Let bs => x ∈ ⋃ map fv (map va bs) ∧ x ∉ keys m
     | BndX_Choose bs _ c => x ∈ fv c ∧ x ∉ keys m ∪ list_to_set (binder_names bs)
     | _ => False
     end).
Proof using.
  intros Hc Hn Hm. destruct b as [bs|q bs ts l|bs ts|bs ts c]; cbn [visit_bnd bnd_children bnd_names] in *.
  - eapply seeks_weak; [eapply seeks_bind| |].
    + apply (seeks_smap m _ bs (λ b b', vname b' = vname b) (λ b, x ∈ fv (va b) ∧ x ∉ keys m)). intros [n e] Hb.
      apply seeks_or. eapply seeks_bind; [apply Hc; [|done]|].
      * by apply (list_elem_of_fmap_2 va) in Hb.
      * intros e' m' ->. by apply seeks_ret.
    + intros bs' m' [-> H]. apply same_names in H. rewrite -H in Hn.
      eapply seeks_bind; [by apply seeks_enter|]. intros ? m' He; cbn beta in He. rewrite H in He.
      by apply (seeks_ret _ _ (λ _ m', entered m m' (binder_names bs))).
    + done.
    + intros [(a & Ha & Hx)%elem_of_union_fv Hk]. left. apply list_elem_of_fmap in Ha as (b & -> & Hb). by exists b.
  - eapply seeks_weak; [|by intros ? ? H; exact H|by intros []].
    eapply seeks_bind; [apply seeks_binders|]. intros bs' m' [-> H]. rewrite -H in Hn |- *.
    eapply seeks_bind; [by apply seeks_enter|]. intros ? m' He; cbn beta in He.
    eapply seeks_bind; [apply (finds_triggers _ _ Hc); [intros; mem|by eapply entered_shadow]|]. intros ts' m2 ->.
    by apply (seeks_ret _ _ (λ _ m', entered m m' (binder_names bs'))).
  - eapply seeks_weak; [|by intros ? ? H; exact H|by intros []].
    eapply seeks_bind; [apply seeks_binders|]. intros bs' m' [-> H]. rewrite -H in Hn |- *.
    eapply seeks_bind; [by apply seeks_enter|]. intros ? m' He; cbn beta in He.
    eapply seeks_bind; [apply (finds_triggers _ _ Hc); [intros; mem|by eapply entered_shadow]|]. intros ts' m2 ->.
    by apply (seeks_ret _ _ (λ _ m', entered m m' (binder_names bs'))).
  - eapply (seeks_weak _ _ _ _ (False ∨ False ∨ False ∨ (x ∈ fv c ∧ x ∉ keys m ∪ list_to_set (binder_names bs)) ∨ False));
      [|by intros ? ? H; exact H|tauto].
    eapply seeks_bind; [apply seeks_binders|]. intros bs' m' [-> H]. rewrite -H in Hn |- *.
    eapply seeks_bind; [by apply seeks_enter|]. intros ? m' He; cbn beta in He.
    assert (Hm' : ScopeMap.cannot_shadow m' = ∅) by by eapply entered_shadow.
    eapply seeks_bind; [apply (finds_triggers _ _ Hc); [intros; mem|done]|]. intros ts' m2 ->.
    eapply seeks_bind; [eapply finds_weak; [apply Hc; [mem|done]|by destruct He as [_ ->]]|]. intros c' m2 ->.
    by apply (seeks_ret _ _ (λ _ m', entered m m' (binder_names bs'))).
Qed.

Lemma finds_bind_expx visit_exp sp b e s t m : let y := ExpX_Bind sp b e in
  (∀ e m, e ∈ children y → ScopeMap.cannot_shadow m = ∅ → finds m (visit_exp e) (x ∈ fv e ∧ x ∉ keys m)) →
  NoDup (bnd_names b) → ScopeMap.cannot_shadow m = ∅ →
  finds m (visit_expx sret visit_exp dfs_scoper y) (x ∈ fv (mkExp s t y) ∧ x ∉ keys m).
Proof using.
  intros y Hc Hn Hm. subst y. cbn [visit_expx]. eapply finds_weak.
  - eapply seeks_bind; [apply finds_bnd; [intros; apply Hc; [cbn; mem|done]|done|done]|]. intros b' m' He. cbn beta in He.
    eapply seeks_bind; [eapply finds_weak; [apply Hc; [cbn; mem|by eapply entered_shadow]|]|].
    { intros H. destruct He as [_ Hk]. rewrite Hk. exact H. }
    intros e' m2 ->. eapply seeks_bind; [by eapply seeks_pop|]. intros u m2 ->. by apply (seeks_ret m _ (λ _ m', m' = m)).
  - cbn [fv]. intros [Hx Hk]. destruct b as [bs|q bs ts l|bs ts|bs ts c]; cbn [bnd_names].
    + rewrite (map_binders fv bs) in Hx. set_solver.
    + set_solver.
    + set_solver.
    + set_solver.
Qed.

Lemma free_visit (allow : bool) (e : Exp) m (vars vars' : Vars) (c : VisitorControlFlow unit) : free_vars_visit allow e m vars = Ok (c, vars') →
  c = VisitorControlFlow_Recurse ∧ dom vars ⊆ dom vars' ∧ ∀ z, exp_x e = ExpX_Var z → z ∉ keys m → z ∈ dom vars'.
Proof using.
  unfold free_vars_visit.
  assert (Hadd : ∀ z, ((if ScopeMap.contains_key m z then sret tt else smodify (<[z := exp_typ e]>));!
      sret (S := Vars) (E := unit) (A := VisitorControlFlow unit) VisitorControlFlow_Recurse)%st vars = Ok (c, vars') →
      c = VisitorControlFlow_Recurse ∧ dom vars ⊆ dom vars' ∧ (z ∉ keys m → z ∈ dom vars')).
  { intros z. destruct (ScopeMap.contains_key m z) eqn:Hz; unfold sbind, sret, smodify; cbn [rbind]; intros [= <- <-]; (split; [done|]).
    - split; [done|]. intros Hn. exfalso. apply Hn. by apply contains_key_keys.
    - rewrite dom_insert_L. split; intros; set_solver. }
  destruct (exp_x e) as [|z| |z| | | | | | | |op e1| | | | | | | | | |] eqn:He; try (intros [= <- <-]; by split_and!).
  - intros H. destruct (Hadd z H) as (H1 & H2 & H3). split_and!; [done..|]. by intros ? [= <-].
  - intros H. destruct (Hadd z H) as (H1 & H2 & H3). by split_and!.
  - destruct op; try (intros [= <- <-]; by split_and!). destruct allow; [intros [= <- <-]; by split_and!|done].
Qed.

Lemma finds_free allow D e : ¬ bare x → well_bound D e → ∀ m, ScopeMap.cannot_shadow m = ∅ →
  finds m (dfs_visit_exp (free_vars_visit allow) e) (x ∈ fv e ∧ x ∉ keys m).
Proof using.
  intros Hx. induction e as [s t y IH] using exp_ind'. intros Hw m Hm. inversion Hw as [s0 t0 y0 Hb Hc]; subst s0 t0 y0.
  rewrite Forall_forall in IH. rewrite Forall_forall in Hc.
  assert (HC : ∀ e m, e ∈ children y → ScopeMap.cannot_shadow m = ∅ →
    finds m (dfs_visit_exp (free_vars_visit allow) e) (x ∈ fv e ∧ x ∉ keys m)) by (intros; apply IH; auto).
  assert (Hrec : finds m (visit_exp_rec sret (dfs_visit_exp (free_vars_visit allow)) dfs_scoper (mkExp s t y))
    (match y with ExpX_Var _ => False | _ => x ∈ fv (mkExp s t y) ∧ x ∉ keys m end)).
  { cbn [visit_exp_rec]. eapply finds_weak.
    - eapply finds_bind; [apply finds_ret|intros t']. eapply finds_bind; [|intros y'; apply finds_ret].
      instantiate (1 := match y with ExpX_Var _ => False | _ => x ∈ fv (mkExp s t y) ∧ x ∉ keys m end).
      destruct y as [|z| | | | | | | | | | | | | | | |sp b e1| | | |]; try by apply finds_expx; [exact HC|..].
      + apply finds_ret.
      + apply finds_bind_expx; [done| |done]. by apply (Hb sp b e1).
    - auto. }
  intros [m0 vars] r s' Hs H. cbn in Hs. subst m0. cbn [dfs_visit_exp] in H. unfold sread in H.
  apply rbind_ok_inv in H as ([c s1] & H1 & H).
  apply rbind_ok_inv in H1 as ([c1 vars1] & H1 & H0). injection H0 as <- <-. cbn [fst snd] in *.
  apply free_visit in H1 as (-> & Hd & Hz). destruct (Hrec (m, vars1) r s' eq_refl H) as (H2 & H3 & H4). cbn in H3.
  split; [done|]. split; [by etrans|]. intros [Hxe Hk]. destruct y; try by apply H4.
  cbn [fv] in Hxe. apply elem_of_singleton in Hxe as ->. apply H3. by apply Hz.
Qed.
End free.

Lemma free_vars_complete allow D e vars vars' : free_vars_exp_scope e vars allow = Ok vars' → well_bound D e →
  dom vars ⊆ dom vars' ∧ ∀ x, x ∈ fv e → x ∈ dom vars' ∨ bare x.
Proof.
  unfold free_vars_exp_scope. destruct (dfs_visit_exp _ _ _) as [[e' [m vars1]]| |] eqn:H; [|done..]. intros [= <-] Hw.
  assert (Hf : ∀ x, ¬ bare x → dom vars ⊆ dom vars1 ∧ (x ∈ fv e → x ∈ dom vars1)).
  { intros x Hx. destruct (finds_free x allow D e Hx Hw ScopeMap.new eq_refl (ScopeMap.new, vars) _ _ eq_refl H) as (_ & H1 & H2). split; [done|].
    intros Hxe. apply H2. split; [done|]. unfold keys. cbn. rewrite dom_empty_L. apply not_elem_of_empty. }
  split.
  - by apply (Hf (EmptyString, VarIdentDisambiguate_TypParamSuffixed)).
  - intros x Hxe. destruct (decide (x.2 = VarIdentDisambiguate_TypParamBare)); [by right|]. left. by apply Hf.
Qed.

(** ** The start *)

(** One scope, which allows shadowing. *)
Definition top (m : ScopeMap.ScopeMap UniqueIdent unit) : Prop :=
  ScopeMap.cannot_shadow m = ∅ ∧ ∃ sc, ScopeMap.scopes m = [sc] ∧ ScopeMap.allow_shadowing sc = true.

Lemma insert_any_top m y m' : top m → insert_any m y tt = Ok m' → top m' ∧ keys m' = {[y]} ∪ keys m.
Proof.
  intros (Hc & sc & Hs & Ha). unfold insert_any, ScopeMap.insert_sm, ScopeMap.insert_at. rewrite Hs. cbn [length decide].
  destruct (decide (y ∈ _)) as [Hy|_].
  { exfalso. apply (not_elem_of_empty (C := gset UniqueIdent) y). rewrite -Hc. exact Hy. }
  cbn. rewrite Ha. intros H. injection H as <-. split; [|by apply keys_insert with tt].
  split; [done|]. by eexists.
Qed.

Lemma foldl_ok {A B E} (f : A → B → res E A) l r t : foldl (λ r y, rbind r (λ x, f x y)) r l = Ok t →
  ∃ s, r = Ok s ∧ foldl (λ r y, rbind r (λ x, f x y)) (Ok s) l = Ok t.
Proof.
  revert r. induction l as [|y l IH]; intros r; cbn; [intros ->; by exists t|]. intros H.
  destruct r as [s|e|]; [by exists s|..]; by destruct (IH _ H) as (? & ? & _).
Qed.

Lemma insert_names_top ys : ∀ m m', top m → insert_names ys m = Ok m' → top m' ∧ keys m' = keys m ∪ list_to_set ys.
Proof.
  unfold insert_names. induction ys as [|y ys IH]; intros m m' Hm; cbn [foldl].
  - intros [= <-]. split; [done|]. cbn. by rewrite right_id_L.
  - intros (m1 & H1 & H)%foldl_ok. cbn in H1. apply insert_any_top in H1 as [Hm1 Hk]; [|done].
    destruct (IH _ _ Hm1 H) as [Hm' Hk']. split; [done|]. rewrite Hk' Hk. clear. set_solver.
Qed.
Lemma names_dom (vars : gmap UniqueIdent Typ) : list_to_set (map fst (map_to_list vars)) = dom vars.
Proof.
  apply set_eq. intros x. rewrite elem_of_list_to_set elem_of_dom list_elem_of_fmap. split.
  - intros ([y t] & -> & H%elem_of_map_to_list). by exists t.
  - intros [t H%elem_of_map_to_list]. by exists (x, t).
Qed.

(** The substitution [l] has been entered. *)
Record loaded (l : list (VarIdent * Exp)) (s0 s : SubstState) : Prop := {
  ld_SU : SU s = list_to_map l ∪ SU s0;
  ld_FR : FR s0 ⊆ FR s;
  ld_BL : BL s0 ⊆ BL s;
  ld_sub : FR s ⊆ BL s;
  ld_free x a z : (x, a) ∈ l → z ∈ fv a → z ∈ FR s ∨ bare z
}.
Lemma inserts_loaded (l : list (VarIdent * Exp)) : ∀ s0 s, top (free_vars s0) → top (fresh_var_blacklist s0) → FR s0 ⊆ BL s0 → NoDup (map fst l) →
  (∀ x a, (x, a) ∈ l → well_bound ∅ a) →
  foldl (λ r p, rbind r (λ s, insert_subst s p)) (Ok s0) l = Ok s → loaded l s0 s.
Proof.
  induction l as [|[x a] l IH]; intros s0 s Hf Hb Hs Hn Hw; cbn [foldl].
  - intros [= <-]. split; try done. + by rewrite left_id_L. + by intros ? ? ? ?%elem_of_nil.
  - intros (s1 & H1 & H)%foldl_ok. cbn [rbind] in H1. unfold insert_subst in H1. cbn [fst snd] in H1.
    apply NoDup_cons in Hn as [Hx Hn].
    apply rbind_ok_inv in H1 as (su & Hsu & H1). apply rbind_ok_inv in H1 as (vars & Hv & H1).
    apply rbind_ok_inv in H1 as (fr & Hfr & H1). apply rbind_ok_inv in H1 as (bl & Hbl & H1). injection H1 as <-.
    apply insert_new_spec in Hsu as (Hsu & _). apply insert_names_top in Hfr as [Hf1 Hfr]; [|done].
    apply insert_names_top in Hbl as [Hb1 Hbl]; [|done]. rewrite names_dom in Hfr Hbl.
    destruct (free_vars_complete _ _ _ _ _ Hv (Hw x a ltac:(left))) as [_ Hfree].
    destruct (IH (mkSubstState su fr bl) s Hf1 Hb1) as [Hsu' HF HB Hs' Hfr']; [|done|intros y b Hy; apply (Hw y); by right|exact H|].
    + unfold FR, BL in *. cbn. rewrite Hfr Hbl. clear -Hs. set_solver.
    + assert (HF1 : FR s0 ⊆ FR s ∧ dom vars ⊆ FR s). { revert HF. unfold FR in *. cbn. rewrite Hfr. clear. set_solver. }
      split.
      * rewrite Hsu'. replace (SU (mkSubstState su fr bl)) with (<[x : VarIdent := a]> (SU s0)) by (symmetry; exact Hsu).
        change (list_to_map ((x, a) :: l) : gmap VarIdent Exp) with (<[x := a]> (list_to_map l : gmap VarIdent Exp)).
        rewrite -insert_union_l -insert_union_r //. by apply not_elem_of_list_to_map_1.
      * apply HF1.
      * revert HB. unfold BL in *. cbn. rewrite Hbl. clear. set_solver.
      * done.
      * intros y b z [[= -> ->]|Hy]%elem_of_cons Hz; [|by eapply Hfr'].
        destruct (Hfree z Hz); [left; by apply HF1|by right].
Qed.

(** ** Properties *)

(** The values that the variables of [σ] have after the substitution. *)
Definition subst_env `{SstModel} (σ : gmap VarIdent Exp) (ρ : gmap VarIdent V) : gmap VarIdent V :=
  omap (λ a, den ∅ a ρ) σ ∪ ρ.
Lemma subst_env_agree `{SstModel} σ X ρ : valued σ ρ → agree σ X ρ (subst_env σ ρ).
Proof.
  intros Hv x _. unfold subst_env. rewrite lookup_union lookup_omap.
  destruct (σ !! x) as [a|] eqn:Ha; cbn; [|by rewrite left_id_L].
  destruct (Hv x a Ha) as [[v ->] _]. by rewrite union_Some_l.
Qed.

Lemma subst_start σ e e' : σ ≠ ∅ → subst_exp ∅ σ e = Ok e' → ∃ vars s0 s s', free_vars_exp_scope e ∅ false = Ok vars
  ∧ SU s0 = ∅ ∧ FR s0 = ∅ ∧ BL s0 = dom vars ∧ top (free_vars s0) ∧ top (fresh_var_blacklist s0)
  ∧ foldl (λ r p, rbind r (λ s, insert_subst s p)) (Ok s0) (map_to_list σ) = Ok s
  ∧ subst_exp_rec ∅ false e s = Ok (e', s').
Proof.
  intros Hσ. unfold subst_exp. rewrite (bool_decide_eq_false_2 (size σ = 0)); [by rewrite map_size_empty_iff|].
  rewrite andb_false_r.
  intros H. apply rbind_ok_inv in H as (vars & Hv & H). apply rbind_ok_inv in H as (bl & Hbl & H).
  apply rbind_ok_inv in H as (s & Hs & H). apply rbind_ok_inv in H as ([e1 s'] & He & H).
  apply rbind_ok_inv in H as ([[] s2] & _ & H).
  destruct (_ && _); [|done]. injection H as ->.
  assert (Htop : top (ScopeMap.push_scope ScopeMap.new true)) by (split; [done|by eexists]).
  apply insert_names_top in Hbl as [Hb1 Hb2]; [|exact Htop]. eexists vars, _, s, s'.
  split_and!; [done|..|exact Hs|exact He]; try done.
  unfold BL. cbn. rewrite Hb2 names_dom. unfold keys. cbn. by rewrite dom_empty_L left_id_L.
Qed.

(** C5. Substitution for variables, without a substitution of types.  The conditions: no binder
    of the expression has the name of a substituted variable, no group of binders has a name
    twice, neither binders nor substituted variables are const generics, and every
    replacement has a value.  Then [subst_exp] does not run out of fuel, and if it does not
    panic, what it returns has the value that the expression has when the substituted
    variables have the values of their replacements, and exactly the free variables that
    this makes, however the binders that would capture one are renamed. *)
Theorem subst_exp_sound `{M : SstModel} `{L : !SubstLaws} σ e ρ :
  well_bound (dom σ) e → (∀ x a, σ !! x = Some a → ¬ bare x ∧ well_bound ∅ a) → valued σ ρ →
  subst_exp ∅ σ e ≠ Err OutOfFuel
  ∧ ∀ e', subst_exp ∅ σ e = Ok e' →
    den ∅ e' ρ = den ∅ e (subst_env σ ρ) ∧ ∀ x, x ∈ fv e' ↔ image_of σ (fv e) x.
Proof.
  intros Hw Hσ Hv. split; [apply subst_exp_ok|]. intros e' H. destruct (decide (σ = ∅)) as [->|Hne].
  { injection H as <-. split.
    - unfold subst_env. by rewrite omap_empty left_id_L.
    - intros x. unfold image_of, image. setoid_rewrite lookup_empty. set_solver. }
  apply subst_start in H as (vars & s0 & s & s' & Hvars & HS & HF & HB & Hf & Hb & Hl & H); [|done].
  destruct (free_vars_complete _ _ _ _ _ Hvars Hw) as [_ Hfree].
  destruct (inserts_loaded (map_to_list σ) s0 s Hf Hb) as [HSU HFR HBL Hsub Hfr]; [..|exact Hl|].
  { rewrite HF. apply empty_subseteq. }
  { apply NoDup_fst_map_to_list. }
  { intros x a Ha%elem_of_map_to_list. by apply (Hσ x a). }
  rewrite HS list_to_map_to_list right_id_L in HSU. assert (Hbec : becomes false s e e').
  { unfold becomes. rewrite H. by destruct (subst_exp_rec_node false e s e' s' H) as [-> _]. }
  destruct (becomes_faithful false (dom σ) e s e' Hbec Hw) as [H1 H2].
  - split; rewrite ?HSU; [done|..].
    + intros x a Ha. split; [left; by eapply elem_of_dom_2|by apply (Hσ x a)].
    + intros x a z Ha. apply (Hfr x a). by apply elem_of_map_to_list.
    + intros z Hz. destruct (Hfree z Hz) as [Hd|]; [left|by right]. apply HBL. by rewrite HB.
  - rewrite HSU in H1 H2. split; [|done]. apply H2; [done|by apply subst_env_agree].
Qed.

(** [let y = 5 in x + y] with [y] for [x] becomes [let y' = 5 in y + y']. *)
Definition sp0 : Span := mkSpan 0 [] "".
Definition var_x : VarIdent := ("x", VarIdentDisambiguate_RustcId 0).
Definition var_y : VarIdent := ("y", VarIdentDisambiguate_RustcId 1).
Definition mk_int (y : ExpX) : Exp := mkExp sp0 int_typ y.
Definition int_const (i : Z) : Exp := mk_int (ExpX_Const (Constant_Int i)).
Definition let_y_plus : Exp :=
  mk_int (ExpX_Bind sp0 (BndX_Let [mkVarBinder var_y (int_const 5)])
    (mk_int (ExpX_Binary (BinaryOp_Arith ArithOp_Add) (mk_int (ExpX_Var var_x)) (mk_int (ExpX_Var var_y))))).
Definition y_for_x : gmap VarIdent Exp := {[var_x := mk_int (ExpX_Var var_y)]}.

Definition plain_model : SstModel := example_model 64 (λ _ _ _, None).
#[refine] Definition plain_laws : @SubstLaws plain_model := @Build_SubstLaws plain_model _ _ _.
Proof. all: done. Defined.

Lemma let_y_plus_well_bound : well_bound (dom y_for_x) let_y_plus.
Proof.
  constructor.
  - intros sp b e [= <- <- <-]. cbn. split; [by apply NoDup_singleton|]. intros x ->%list_elem_of_singleton.
    split; [|done].
    unfold y_for_x. rewrite dom_singleton_L. by intros ?%elem_of_singleton.
  - repeat constructor; try done.
Qed.
Lemma subst_exp_sound_witness : ∃ e', subst_exp ∅ y_for_x let_y_plus = Ok e'
  ∧ @den plain_model ∅ e' {[var_y := CInt 7]} = Some (CInt 12).
Proof.
  assert (Hv : @valued plain_model y_for_x {[var_y := CInt 7]}).
  { intros x a Ha. unfold y_for_x in Ha. apply lookup_singleton_Some in Ha as [<- <-].
    split; [by eexists; vm_compute|]. cbn. by rewrite dom_singleton_L. }
  destruct (@subst_exp_sound plain_model plain_laws y_for_x let_y_plus {[var_y := CInt 7]} let_y_plus_well_bound) as [_ H]; [|exact Hv|].
  { intros x a Ha. unfold y_for_x in Ha. apply lookup_singleton_Some in Ha as [<- <-]. split; [done|].
    repeat constructor; done. }
  eexists. split; [vm_compute; reflexivity|]. edestruct H as [-> _]; [vm_compute; reflexivity|]. vm_compute. reflexivity.
Defined.

(** A binder that shadows a substituted variable and is not free in a replacement hides
    nothing: in [let x = 1 in x], which has no free variable, the substitution of 5 for
    [x] replaces the bound occurrence, so that the value changes from 1 to 5. *)
Definition let_x : Exp := mk_int (ExpX_Bind sp0 (BndX_Let [mkVarBinder var_x (int_const 1)]) (mk_int (ExpX_Var var_x))).
Theorem subst_shadow_wrong : fv let_x = ∅ ∧ ∃ e', subst_exp ∅ {[var_x := int_const 5]} let_x = Ok e'
  ∧ ∀ (M : SstModel) ρ, den ∅ let_x ρ = Some (VInt 1) ∧ den ∅ e' ρ = Some (VInt 5).
Proof.
  split; [by vm_compute|]. eexists. split; [vm_compute; reflexivity|]. intros M ρ. split; cbn; [|done].
  unfold bind_env. cbn. by rewrite lookup_union lookup_insert_eq union_Some_l.
Qed.
