(* ===== verification/InvMasksCorrect.v ===== *)
(** * Correctness of the invariant masks *)

From S2P Require Import Prelude VirMessages VirAst VirAstUtil Sst SstSemantics InvMasks SstExample.
From S2P Require Ast.
Set Warnings "-rewrite-rw,-register-all,-clear-no-such-hyp".
Local Open Scope string_scope.
Local Open Scope list_scope.

Section theorems.
Context `{L : ISetLaws} (φ : gmap VarIdent V).
Local Abbreviation den := (SstSemantics.den φ).
Local Abbreviation mask_ok := (InvMasks.mask_ok φ).
Local Abbreviation in_mask := (InvMasks.in_mask φ).
Local Abbreviation holds := (InvMasks.holds φ).

(** C25. The assertions of [contains] are booleans, and hold together exactly when the
    element is in the mask: no opening of an invariant that is already open is
    accepted, and none that is allowed is refused. *)
Theorem contains_exact ρ m elem z call_span kind asserts
    (Hm : mask_ok ρ m) (He : den elem ρ = Some (VInt z)) (Ha : contains m elem call_span kind = Ok asserts) :
  Forall (λ a, ∃ b, den (cond a) ρ = Some (VBool b)) asserts
  ∧ (Forall (holds ρ) asserts ↔ in_mask ρ m z).
Proof. exact (contains_says φ ρ m elem z call_span kind asserts Hm He Ha). Qed.

(** The assertions of [subset_of] are booleans, and hold together exactly when the
    mask is included in the other, whatever way the two were built and despite the
    checks elided for empty and full masks. *)
Theorem subset_of_exact ρ m other call_span kind asserts
    (Hm : mask_ok ρ m) (Ho : mask_ok ρ other) (Ha : subset_of m other call_span kind = Ok asserts) :
  Forall (λ a, ∃ b, den (cond a) ρ = Some (VBool b)) asserts
  ∧ (Forall (holds ρ) asserts ↔ ∀ z, in_mask ρ m z → in_mask ρ other z).
Proof. exact (subset_of_says φ ρ m other call_span kind asserts Hm Ho Ha). Qed.
End theorems.

(** The [unreachable!]s of the messages are not reached by the queries made:
    [contains] returns for every kind but [AtomicUpdateWellFormed], [subset_of] for
    every kind but [OpenInvariant], provided that for [AtomicUpdateWellFormed] nothing
    was removed from the other mask. *)
Theorem mask_queries_return kind :
  (kind ≠ MaskQueryKind_AtomicUpdateWellFormed → ∀ m elem call_span,
    ∃ asserts, contains m elem call_span kind = Ok asserts)
  ∧ (kind ≠ MaskQueryKind_OpenInvariant → ∀ m other call_span,
    kind ≠ MaskQueryKind_AtomicUpdateWellFormed ∨ plain_mask other = true →
    ∃ asserts, subset_of m other call_span kind = Ok asserts).
Proof.
  split; intros Hk m.
  - intros elem call_span. apply contains_total. by left.
  - intros other call_span. by apply subset_of_total.
Qed.

(** ** Witnesses *)

Definition example_span : Span := mkSpan 0 [] "".
Definition int_exp (z : Z) : Exp := mkExp example_span namespace_id_typ (ExpX_Const (Constant_Int z)).
(** Everything but the invariants 1 and 2. *)
Definition example_mask : MaskSet := from_list_complement [int_exp 1; int_exp 2] example_span.

Abbreviation example_den := (@den (example_model 64 (λ _ _ _, None)) ∅).

Lemma contains_exact_witness :
  ∃ a1 a2, contains example_mask (int_exp 2) example_span MaskQueryKind_OpenInvariant = Ok [a1; a2]
  ∧ example_den (cond a1) ∅ = Some (CBool true) ∧ example_den (cond a2) ∅ = Some (CBool false)
  ∧ ¬ in_mask (M := example_model 64 (λ _ _ _, None)) (L := example_isets 64) ∅ ∅ example_mask 2.
Proof.
  eexists _, _. split; [reflexivity|]. split_and!; [by vm_compute|by vm_compute|].
  assert (Hm : mask_ok (L := example_isets 64) ∅ ∅ example_mask) by (by repeat split; eexists).
  destruct (contains_exact (L := example_isets 64) ∅ ∅ example_mask (int_exp 2) 2 example_span
    MaskQueryKind_OpenInvariant _ Hm eq_refl eq_refl) as [_ E].
  intros H%E%Forall_inv_tail%Forall_inv. by vm_compute in H.
Defined.

Lemma subset_of_exact_witness :
  ∃ asserts, subset_of (from_list [int_exp 3] example_span) example_mask example_span MaskQueryKind_FunctionCall
    = Ok asserts
  ∧ Forall (holds (M := example_model 64 (λ _ _ _, None)) ∅ ∅) asserts
  ∧ ∀ z, in_mask (M := example_model 64 (λ _ _ _, None)) (L := example_isets 64) ∅ ∅ (from_list [int_exp 3] example_span) z →
    in_mask (M := example_model 64 (λ _ _ _, None)) (L := example_isets 64) ∅ ∅ example_mask z.
Proof.
  eexists. split; [reflexivity|].
  assert (Hm : mask_ok (L := example_isets 64) ∅ ∅ (from_list [int_exp 3] example_span)) by (by repeat split; eexists).
  assert (Ho : mask_ok (L := example_isets 64) ∅ ∅ example_mask) by (by repeat split; eexists).
  destruct (subset_of_exact (L := example_isets 64) ∅ ∅ (from_list [int_exp 3] example_span) example_mask
    example_span MaskQueryKind_FunctionCall _ Hm Ho eq_refl) as [_ E].
  split; [repeat constructor|]. apply E. repeat constructor.
Defined.

Lemma mask_queries_return_witness :
  ∃ asserts, contains example_mask (int_exp 2) example_span MaskQueryKind_OpenInvariant = Ok asserts.
Proof. apply mask_queries_return. discriminate. Defined.
