(* ===== verification/RecursiveTypes.v ===== *)
(** * Recursive types (source/vir/src/recursive_types.rs, the types' part)

    The checks that every datatype has a value without recursion and that datatypes
    recur only in positive positions, over the graph of the types.  The check of
    traits, which needs the call graph of the functions, is not here.

    Of the crate, the declarations are as in ast.rs; a function is its name, kind,
    type parameters and the types that [visit_function] visits ([fun_typs]), in
    order, since the traversal of its body is not modelled.  The global map of Rust
    names for paths is the argument [names]. *)

From S2P Require Import Prelude RustString Escape VirMessages VirAst VirAstUtil.
From S2P Require Ast Scc.
Set Warnings "-rewrite-rw,-register-all,-clear-no-such-hyp".
Local Open Scope string_scope.
Local Open Scope list_scope.
Local Open Scope res_scope.

(** ** The crate *)

Inductive DynCompatible :=
| DynCompatible_Accept | DynCompatible_Reject (reason : string) | DynCompatible_RejectUnsizedBlanketImpl (p : Path).
Record Trait := mkTrait {
  tr_span : Span;
  tr_name : Path;
  tr_proxy : option (Span * Path);
  tr_visibility : Visibility;
  tr_typ_params : TypPositives;
  tr_typ_bounds : GenericBounds;
  assoc_typs : list Ident;
  assoc_typs_bounds : GenericBounds;
  methods : list Fun;
  is_unsafe : bool;
  dyn_compatible : option DynCompatible;
  external_trait_extension : option (Path * Path)
}.
Record AssocTypeImpl := mkAssocTypeImpl {
  ati_span : Span;
  ati_name : Ident;
  ati_impl_path : Path;
  ati_typ_params : Idents;
  ati_typ_bounds : GenericBounds;
  ati_trait_path : Path;
  ati_trait_typ_args : Typs;
  ati_typ : Typ;
  ati_impl_paths : ImplPaths
}.
Record TraitImpl := mkTraitImpl {
  ti_span : Span;
  ti_impl_path : Path;
  ti_typ_params : Idents;
  ti_typ_bounds : GenericBounds;
  ti_trait_path : Path;
  ti_trait_typ_args : Typs;
  ti_trait_typ_arg_impls : Span * ImplPaths;
  ti_owning_module : option Path;
  auto_imported : bool;
  external_trait_blanket : bool
}.
Record Function := mkFunction {
  fun_name : Fun;
  fun_kind : FunctionKind;
  fun_typ_params : Idents;
  fun_typs : Typs
}.
Record Krate := mkKrate {
  functions : list Function;
  datatypes : list Datatype;
  traits : list Trait;
  trait_impls : list TraitImpl;
  assoc_type_impls : list AssocTypeImpl
}.

(** ** Results: the errors of the code, and running out of fuel *)

Inductive type_error := TypeError (e : VirErr) | TypeFuel.
Definition result : Type → Type := res type_error.
Definition lift {A} (r : res fuel_error A) : result A :=
  match r with Ok a => Ok a | Err OutOfFuel => Err TypeFuel | Panic => Panic end.

(** [for x in l { if !f(x) { return false } } true] *)
Section rall.
Context {E A : Type} (f : A → res E bool).
Fixpoint rall (l : list A) : res E bool :=
  match l with
  | [] => Ok true
  | x :: l' => let? b := f x in if b : bool then rall l' else Ok false
  end.
End rall.

(** [for x in l { f(x)? }] *)
Section riter.
Context {E A : Type} (f : A → res E unit).
Fixpoint riter (l : list A) : res E unit :=
  match l with [] => Ok tt | x :: l' => let? _ := f x in riter l' end.
End riter.

(** The same loops over [ps.iter().zip(l.iter())]. *)
Section zip.
Context {E P A : Type}.
Section rall_zip.
Context (f : P → A → res E bool).
Fixpoint rall_zip (ps : list P) (l : list A) {struct l} : res E bool :=
  match l, ps with
  | x :: l', p :: ps' => let? b := f p x in if b : bool then rall_zip ps' l' else Ok false
  | _, _ => Ok true
  end.
End rall_zip.
Section riter_zip.
Context (f : P → A → res E unit).
Fixpoint riter_zip (ps : list P) (l : list A) {struct l} : res E unit :=
  match l, ps with
  | x :: l', p :: ps' => let? _ := f p x in riter_zip ps' l'
  | _, _ => Ok tt
  end.
End riter_zip.
End zip.

(** ** Base cases *)

Definition Accepts := gmap Ident AcceptRecursiveType.
(** [HashMap]s filled by insertions in order. *)
Definition accepts_of (ps : TypPositives) : Accepts := fold_left (λ m '(x, a), <[x := a]> m) ps ∅.

Section wf_typ.
Context (datatypes : gmap Path Datatype) (wf : gset Path) (typ_param_accept : Accepts).
Fixpoint check_well_founded_typ (typ : Typ) : result bool :=
  match typ with
  | TypX_Bool | TypX_Int _ | TypX_Real | TypX_Float _ => Ok true
  | TypX_ConstInt _ | TypX_ConstBool _ => Ok true
  | TypX_Primitive Primitive_Array typs =>
    match typs with
    | t0 :: t1 :: _ =>
      match t1 with
      | TypX_ConstInt n => if (n =? 0)%Z then Ok true else check_well_founded_typ t0
      | _ => check_well_founded_typ t0
      end
    | _ => Panic
    end
  | TypX_Primitive _ _ => Ok true
  | TypX_Boxed _ | TypX_TypeId | TypX_Air _ => Panic
  | TypX_TypParam x =>
    let? a := expect (typ_param_accept !! x) in
    match a with
    | AcceptRecursiveType_Reject => Ok true
    | AcceptRecursiveType_RejectInGround => Ok true
    | AcceptRecursiveType_Accept => Ok false
    end
  | TypX_SpecFn _ ret => check_well_founded_typ ret
  | TypX_Datatype (Dt_Tuple _) typs _ => rall check_well_founded_typ typs
  | TypX_Datatype (Dt_Path path) targs _ =>
    if decide (path ∈ wf) then
      let? d := expect (datatypes !! path) in
      let tparams := typ_params d in
      if (length targs =? length tparams)%nat then
        rall_zip (λ '(_, accept_rec) targ,
          if decide (accept_rec ≠ AcceptRecursiveType_Accept) then check_well_founded_typ targ else Ok true)
          tparams targs
      else Panic
    else Ok false
  | TypX_Dyn _ _ _ => Ok true
  | TypX_Decorate _ _ t => check_well_founded_typ t
  | TypX_Projection _ _ _ | TypX_PointeeMetadata _ => Ok true
  | TypX_FnDef _ _ _ => Panic
  | TypX_AnonymousClosure _ _ _ _ => Panic
  | TypX_MutRef t => check_well_founded_typ t
  | TypX_Opaque _ _ => Panic
  end.
End wf_typ.

Definition field_typ (f : Ast.BinderX (Typ * Mode * Visibility)) : Typ := (Ast.ba f).1.1.

(** The loop over the variants: whether one is a base case. *)
Fixpoint find_base_case (check : Typ → result bool) (vs : Variants) : result bool :=
  match vs with
  | [] => Ok false
  | v :: vs' =>
    let? base := rall (λ f, check (field_typ f)) (fields v) in
    if (base : bool) then Ok true else find_base_case check vs'
  end.

(** It returns the set as well. *)
Definition check_well_founded (datatypes : gmap Path Datatype) (wf : gset Path) (path : Path)
    : result (bool * gset Path) :=
  if decide (path ∈ wf) then Ok (true, wf)
  else
    let? datatype := expect (datatypes !! path) in
    let typ_param_accept := accepts_of (typ_params datatype) in
    let? base := find_base_case (check_well_founded_typ datatypes wf typ_param_accept) (variants datatype) in
    if (base : bool) then Ok (true, {[path]} ∪ wf) else Ok (false, wf).

(** ** The graph of types *)

Inductive TypNode :=
| TypNode_Datatype (d : Dt)
| TypNode_Trait (p : Path)
| TypNode_TraitImpl (i : ImplPath)
| TypNode_SpanInfo (span_infos_index : nat) (text : string).
#[global] Instance typ_node_eq_dec : EqDecision TypNode.
Proof. solve_decision. Defined.
#[global] Instance dt_countable : Countable Dt.
Proof.
  apply (inj_countable' (λ d, match d with Dt_Path p => inl p | Dt_Tuple n => inr n end)
    (λ c, match c with inl p => Dt_Path p | inr n => Dt_Tuple n end)). by intros [].
Defined.
#[global] Instance impl_path_countable : Countable ImplPath.
Proof.
  apply (inj_countable'
    (λ i, match i with ImplPath_TraitImplPath p => inl p | ImplPath_FnDefImplPath f => inr f end)
    (λ c, match c with inl p => ImplPath_TraitImplPath p | inr f => ImplPath_FnDefImplPath f end)). by intros [].
Defined.
#[global] Instance typ_node_countable : Countable TypNode.
Proof.
  apply (inj_countable'
    (λ n, match n with
          | TypNode_Datatype d => inl (inl d) | TypNode_Trait p => inl (inr p)
          | TypNode_TraitImpl i => inr (inl i) | TypNode_SpanInfo k s => inr (inr (k, s)) end)
    (λ c, match c with
          | inl (inl d) => TypNode_Datatype d | inl (inr p) => TypNode_Trait p
          | inr (inl i) => TypNode_TraitImpl i | inr (inr (k, s)) => TypNode_SpanInfo k s end)). by intros [].
Defined.
Definition TypeGraph := Scc.Graph TypNode.

(** [visit_typ] of a visitor: the types it applies its function to, in order
    (ast_visitor.rs). *)
Fixpoint visit_typ (typ : Typ) : list Typ :=
  match typ with
  | TypX_Opaque _ ts | TypX_FnDef _ ts _ | TypX_Datatype _ ts _ | TypX_Dyn _ ts _ | TypX_Primitive _ ts
  | TypX_Projection ts _ _ => concat (map visit_typ ts)
  | TypX_SpecFn ts tr | TypX_AnonymousClosure ts tr _ _ => concat (map visit_typ ts) ++ visit_typ tr
  | TypX_Decorate _ targ t => match targ with Some a => visit_typ a | None => [] end ++ visit_typ t
  | TypX_Boxed t | TypX_PointeeMetadata t | TypX_MutRef t => visit_typ t
  | _ => []
  end ++ [typ].
Definition visit_typs (ts : Typs) : list Typ := concat (map visit_typ ts).
Definition visit_generic_bound (b : GenericBound) : list Typ :=
  match b with
  | GenericBoundX_Trait _ ts => visit_typs ts
  | GenericBoundX_TypEquality _ ts _ t => visit_typs ts ++ visit_typ t
  | GenericBoundX_ConstTyp t1 t2 => visit_typ t1 ++ visit_typ t2
  end.
Definition visit_generic_bounds (bs : GenericBounds) : list Typ := concat (map visit_generic_bound bs).
Definition visit_field (f : Ast.BinderX (Typ * Mode * Visibility)) : list Typ := visit_typ (field_typ f).
Definition visit_variant (v : Variant) : list Typ := concat (map visit_field (fields v)).
Definition visit_datatype (d : Datatype) : list Typ :=
  visit_generic_bounds (typ_bounds d) ++ concat (map visit_variant (variants d))
  ++ match sized_constraint d with Some t => visit_typ t | None => [] end.
Definition visit_trait (tr : Trait) : list Typ :=
  visit_generic_bounds (tr_typ_bounds tr) ++ visit_generic_bounds (assoc_typs_bounds tr).
Definition visit_assoc_type_impl (a : AssocTypeImpl) : list Typ :=
  visit_generic_bounds (ati_typ_bounds a) ++ visit_typs (ati_trait_typ_args a) ++ visit_typ (ati_typ a).

Definition new_span_info_typ_node (span_infos : list Span) (span : Span) (text : string) : TypNode * list Span :=
  (TypNode_SpanInfo (length span_infos) text, span_infos ++ [span]).

Definition add_impl_edges (src : TypNode) (impl_paths : ImplPaths) : TypeGraph → res fuel_error TypeGraph :=
  Scc.rfold (λ impl_path g, Scc.add_edge g src (TypNode_TraitImpl impl_path)) impl_paths.
Definition add_one_type_to_graph (src : TypNode) (typ : Typ) (g : TypeGraph) : res fuel_error TypeGraph :=
  match typ with
  | TypX_Datatype path _ impl_paths =>
    let? g := Scc.add_edge g src (TypNode_Datatype path) in add_impl_edges src impl_paths g
  | TypX_Dyn path _ impl_paths =>
    let? g := Scc.add_edge g src (TypNode_Trait path) in add_impl_edges src impl_paths g
  | _ => Ok g
  end.
(** A node with the edges for the types visited. *)
Definition add_types (src : TypNode) (typs : list Typ) (g : TypeGraph) : res fuel_error TypeGraph :=
  Scc.rfold (add_one_type_to_graph src) typs g.
Definition add_item (src : TypNode) (typs : list Typ) (g : TypeGraph) : res fuel_error TypeGraph :=
  add_types src typs (Scc.add_node g src).
Definition add_trait_method (f : Function) (g : TypeGraph) : res fuel_error TypeGraph :=
  match fun_kind f with
  | FunctionKind_TraitMethodDecl trait_path _ => add_item (TypNode_Trait trait_path) (fun_typs f) g
  | _ => Ok g
  end.
Definition add_assoc_type (a : AssocTypeImpl) (s : TypeGraph * list Span) : res fuel_error (TypeGraph * list Span) :=
  let '(g, span_infos) := s in
  let trait_impl_src := TypNode_TraitImpl (ImplPath_TraitImplPath (ati_impl_path a)) in
  let '(src, span_infos) := new_span_info_typ_node span_infos (ati_span a)
    (": associated type definition, which may depend on other trait implementations " +:+
     "to satisfy type bounds") in
  let? g := Scc.add_edge g trait_impl_src src in
  let? g := add_impl_edges src (ati_impl_paths a) g in
  let? g := add_types src (visit_assoc_type_impl a) g in
  Ok (g, span_infos).

(** The graph before its components are computed. *)
Definition add_datatype_graph (krate : Krate) (span_infos : list Span) : res fuel_error (TypeGraph * list Span) :=
  let? g := Scc.rfold (λ d, add_item (TypNode_Datatype (dt_name d)) (visit_datatype d)) (datatypes krate)
              Scc.new_graph in
  let? g := Scc.rfold (λ tr, add_item (TypNode_Trait (tr_name tr)) (visit_trait tr)) (traits krate) g in
  let? g := Scc.rfold add_trait_method (functions krate) g in
  Scc.rfold add_assoc_type (assoc_type_impls krate) (g, span_infos).
Definition build_datatype_graph (fuel : nat) (krate : Krate) (span_infos : list Span)
    : res fuel_error (TypeGraph * list Span) :=
  let? (g, span_infos) := add_datatype_graph krate span_infos in
  let? g := Scc.compute_sccs fuel g in
  Ok (g, span_infos).

(** ** The error of a cycle *)

Definition node_span (krate : Krate) (span_infos : list Span) (node : TypNode) : result (option (Span * string)) :=
  match node with
  | TypNode_Datatype dt =>
    Ok ((λ d, (dt_span d, ": type definition")) <$> find (λ d, bool_decide (dt_name d = dt)) (datatypes krate))
  | TypNode_Trait path =>
    Ok ((λ t, (tr_span t, ": trait declaration")) <$> find (λ t, bool_decide (tr_name t = path)) (traits krate))
  | TypNode_TraitImpl impl_path =>
    Ok ((λ t, (ti_span t, ": implementation of trait for a type")) <$>
      find (λ t, bool_decide (ImplPath_TraitImplPath (ti_impl_path t) = impl_path)) (trait_impls krate))
  | TypNode_SpanInfo i text => let? span := expect (span_infos !! i) in Ok (Some (span, text))
  end.

Fixpoint label_nodes (krate : Krate) (span_infos : list Span) (head : TypNode) (len i : nat) (nodes : list TypNode)
    (err : VirErr) : result VirErr :=
  match nodes with
  | [] => Ok err
  | node :: nodes' =>
    let? s := node_span krate span_infos node in
    let err :=
      match s with
      | Some (span, text) =>
        let err := if decide (node = head) then primary_span err span else err in
        secondary_label err span
          ("may be part of cycle (node " +:+ N_to_string (N.of_nat (i + 1)) +:+ " of "
           +:+ N_to_string (N.of_nat len) +:+ " in cycle)" +:+ text)
      | None => err
      end in
    label_nodes krate span_infos head len (i + 1) nodes' err
  end.

Definition type_scc_error (krate : Krate) (span_infos : list Span) (head : TypNode) (nodes : list TypNode)
    : result VirErr :=
  label_nodes krate span_infos head (length nodes) 0 nodes
    (error_bare "found a cyclic self-reference in a definition, which may result in nontermination").

(** ** Positive positions *)

Record CheckPositiveGlobal := mkGlobal {
  g_krate : Krate;
  g_datatypes : gmap Path Datatype;
  type_graph : TypeGraph;
  g_span_infos : list Span
}.
Record CheckPositiveLocal := mkLocal { l_span : Span; my_datatype : Path; tparams : Accepts }.

Definition dt_as_friendly_rust_name (names : Path → option string) (dt : Dt) : string :=
  match dt with
  | Dt_Path p => path_as_friendly_rust_name names p
  | Dt_Tuple arity => N_to_string arity +:+ "-tuple"
  end.

Section positive.
Context (fuel : nat) (names : Path → option string).
Context (datatype : Datatype) (global : CheckPositiveGlobal) (local : CheckPositiveLocal).

(** [return Err(type_scc_error(..))] for a cycle through the representative of a node *)
Definition cycle_error (my_node : TypNode) : result unit :=
  let? scc_rep := lift (Scc.get_scc_rep (type_graph global) my_node) in
  let? scc_nodes := lift (Scc.shortest_cycle_back_to_self fuel (type_graph global) scc_rep) in
  let? e := type_scc_error (g_krate global) (g_span_infos global) my_node scc_nodes in
  Err (TypeError e).

Definition check_impl_paths (impl_paths : ImplPaths) (my_node : TypNode) : result unit :=
  riter (λ impl_path,
    let? same := lift (Scc.in_same_scc (type_graph global) (TypNode_TraitImpl impl_path) my_node) in
    if (same : bool) then cycle_error my_node else Ok tt) impl_paths.

Fixpoint check_positive_uses (polarity : option bool) (typ : Typ) : result unit :=
  match typ with
  | TypX_Bool | TypX_Int _ | TypX_Real | TypX_Float _ => Ok tt
  | TypX_Opaque _ _ => Panic
  | TypX_SpecFn ts tr =>
    let? _ := riter (check_positive_uses None) ts in
    check_positive_uses polarity tr
  | TypX_AnonymousClosure _ _ _ _ => Panic
  | TypX_Datatype (Dt_Tuple _) ts _ => riter (check_positive_uses polarity) ts
  | TypX_Datatype (Dt_Path path) ts impl_paths =>
    let target_node := TypNode_Datatype (Dt_Path path) in
    let my_node := TypNode_Datatype (Dt_Path (my_datatype local)) in
    let? same := lift (Scc.in_same_scc (type_graph global) target_node my_node) in
    let? _ :=
      if (same : bool) then
        match polarity with
        | Some true => Ok tt
        | _ =>
          Err (TypeError (error (l_span local)
            ("type " +:+ path_as_friendly_rust_name names (my_datatype local) +:+ " recursively uses type "
             +:+ path_as_friendly_rust_name names path +:+ " in a non-positive position")))
        end
      else Ok tt in
    let? d := expect (g_datatypes global !! path) in
    let? _ :=
      riter_zip (λ '(_, accept_rec) t,
        let strictly_positive := bool_decide (accept_rec ≠ AcceptRecursiveType_Reject) in
        let t_polarity := if strictly_positive && bool_decide (polarity = Some true) then Some true else None in
        check_positive_uses t_polarity t)
        (typ_params d) ts in
    check_impl_paths impl_paths my_node
  | TypX_Dyn trait_path ts impl_paths =>
    let? _ := riter (check_positive_uses None) ts in
    let trait_node := TypNode_Trait trait_path in
    let my_node := TypNode_Datatype (Dt_Path (my_datatype local)) in
    let? _ := check_impl_paths impl_paths my_node in
    let? same := lift (Scc.in_same_scc (type_graph global) trait_node my_node) in
    if (same : bool) then cycle_error my_node else Ok tt
  | TypX_Decorate _ _ t => check_positive_uses polarity t
  | TypX_Primitive _ ts => riter (check_positive_uses polarity) ts
  | TypX_FnDef _ _ _ => Panic
  | TypX_Boxed t => check_positive_uses polarity t
  | TypX_TypParam x =>
    let? a := expect (tparams local !! x) in
    let strictly_positive := bool_decide (a ≠ AcceptRecursiveType_Reject) in
    match strictly_positive, polarity with
    | false, _ => Ok tt
    | true, Some true => Ok tt
    | true, _ =>
      Err (TypeError (error (l_span local)
        ("type parameter " +:+ x +:+ " of " +:+ dt_as_friendly_rust_name names (dt_name datatype)
         +:+ " must be declared `#[verifier::reject_recursive_types]` to be used in a non-positive position")))
    end
  | TypX_Projection _ _ _ | TypX_PointeeMetadata _ => Ok tt
  | TypX_TypeId | TypX_ConstInt _ | TypX_ConstBool _ | TypX_Air _ => Ok tt
  | TypX_MutRef t => check_positive_uses polarity t
  end.
End positive.

(** ** The check of a crate *)

Definition trait_self_type_param : Ident := "Self%".

Definition datatype_path (d : Datatype) : result Path :=
  match dt_name d with Dt_Path p => Ok p | Dt_Tuple _ => Panic end.

Definition check_function_params (f : Function) : result unit :=
  match fun_kind f with
  | FunctionKind_TraitMethodDecl _ _ =>
    let? x := expect (fun_typ_params f !! 0) in
    if x =? trait_self_type_param then Ok tt else Panic
  | _ => Ok tt
  end.

Definition check_datatype (fuel : nat) (names : Path → option string) (global : CheckPositiveGlobal) (datatype : Datatype)
    : result unit :=
  let? path := datatype_path datatype in
  let tparams := accepts_of (typ_params datatype) in
  let local := mkLocal (dt_span datatype) path tparams in
  let? _ :=
    riter (λ bound,
      match bound with
      | GenericBoundX_TypEquality _ _ _ typ => check_positive_uses fuel names datatype global local None typ
      | _ => Ok tt
      end) (typ_bounds datatype) in
  riter (λ variant,
    riter (λ field, check_positive_uses fuel names datatype global local (Some true) (field_typ field)) (fields variant))
    (variants datatype).

(** The loop over the nodes of a component: an error once nothing more is found. *)
Definition check_node (datatypes : gmap Path Datatype) (converged : bool) (node : TypNode) (wf : gset Path)
    : result (gset Path) :=
  match node with
  | TypNode_Datatype (Dt_Path path) =>
    let? (ok, wf) := check_well_founded datatypes wf path in
    if converged && negb ok then
      let? d := expect (datatypes !! path) in
      Err (TypeError (error (dt_span d) "datatype must have at least one non-recursive variant"))
    else Ok wf
  | _ => Ok wf
  end.

Fixpoint converge (fuel : nat) (datatypes : gmap Path Datatype) (nodes : list TypNode) (converged : bool) (wf : gset Path)
    : result (gset Path) :=
  match fuel with
  | O => Err TypeFuel
  | S fuel' =>
    let count := size wf in
    let? wf := Scc.rfold (check_node datatypes converged) nodes wf in
    if converged then Ok wf
    else converge fuel' datatypes nodes (count =? size wf)%nat wf
  end.

Definition check_impl_node (fuel : nat) (global : CheckPositiveGlobal) (scc node : TypNode) : result unit :=
  match node with
  | TypNode_TraitImpl _ =>
    let? cyclic := lift (Scc.node_is_in_cycle (type_graph global) node) in
    if (cyclic : bool) then
      let? nodes := lift (Scc.shortest_cycle_back_to_self fuel (type_graph global) scc) in
      let? e := type_scc_error (g_krate global) (g_span_infos global) node nodes in
      Err (TypeError e)
    else Ok tt
  | _ => Ok tt
  end.

Definition check_scc (fuel : nat) (global : CheckPositiveGlobal) (scc : TypNode) (wf : gset Path) : result (gset Path) :=
  let? nodes := lift (Scc.get_scc_nodes (type_graph global) scc) in
  let? _ := riter (check_impl_node fuel global scc) nodes in
  converge fuel (g_datatypes global) nodes false wf.

Definition collect_datatypes (ds : list Datatype) : result (gmap Path Datatype) :=
  Scc.rfold (λ d m, let? path := datatype_path d in Ok (<[path := d]> m)) ds ∅.

Definition check_recursive_types (fuel : nat) (names : Path → option string) (krate : Krate) : result unit :=
  let? (type_graph, span_infos) := lift (build_datatype_graph fuel krate []) in
  let? ds := collect_datatypes (datatypes krate) in
  let global := mkGlobal krate ds type_graph span_infos in
  let? _ := riter check_function_params (functions krate) in
  let? _ := riter (check_datatype fuel names global) (datatypes krate) in
  let? type_sccs := lift (Scc.sort_sccs fuel type_graph) in
  let? _ := Scc.rfold (check_scc fuel global) type_sccs ∅ in
  Ok tt.
