(* ===== verification/RecursiveGraph.v ===== *)
(** * Base cases of datatypes

    [base_typ P] says that a type has a value that needs no value of a datatype
    outside [P]; a datatype is [grounded] when it is in every set closed under the
    construction of such values.  [check_well_founded_typ] decides [base_typ]; every
    grounded datatype has a finite value. *)

From S2P Require Import Prelude Escape VirMessages VirAst VirAstUtil RecursiveTypes.
From S2P Require Ast Scc SccGraph.
Set Warnings "-rewrite-rw,-register-all,-clear-no-such-hyp".
Local Open Scope res_scope.

(** ** Loops *)

Lemma rall_Forall {E A} (f : A → res E bool) (P : A → Prop) l b :
  Forall (λ x, ∀ b, f x = Ok b → (b = true ↔ P x)) l →
  rall f l = Ok b → (b = true ↔ Forall P l).
Proof.
  intros H. revert b. induction H as [|x l Hx _ IH]; intros b; cbn.
  - intros [= <-]. by rewrite Forall_nil.
  - destruct (f x) as [c|e|] eqn:E'; cbn; [|discriminate..]. specialize (Hx c eq_refl). rewrite Forall_cons -Hx.
    destruct c; [intros ->%IH; naive_solver|intros [= <-]; naive_solver].
Qed.

(** [Forall] over [zip ps l], for nested recursion. *)
Section all_zip.
Context {P A : Type} (Q : P → A → Prop).
Fixpoint all_zip (ps : list P) (l : list A) {struct l} : Prop :=
  match l, ps with x :: l', p :: ps' => Q p x ∧ all_zip ps' l' | _, _ => True end.
End all_zip.

Lemma all_zip_lookup {P A} (Q : P → A → Prop) ps l :
  all_zip Q ps l ↔ ∀ i p x, ps !! i = Some p → l !! i = Some x → Q p x.
Proof.
  revert ps. induction l as [|x l IH]; intros [|p ps]; cbn.
  - by split; [intros _ i|].
  - split; [|done]. intros _ i q y _ Hy. by rewrite lookup_nil in Hy.
  - by split; [intros _ i|].
  - rewrite IH. split.
    + intros [Hx H] [|i] q y; cbn; [by intros [= <-] [= <-]|apply H].
    + intros H. split; [by apply (H 0)|]. intros i. apply (H (S i)).
Qed.

Lemma all_zip_impl {P A} (Q R : P → A → Prop) ps l :
  (∀ p, Forall (λ x, Q p x → R p x) l) → all_zip Q ps l → all_zip R ps l.
Proof.
  revert ps. induction l as [|x l IH]; intros [|p ps] H; cbn; try done.
  intros [Hx Hl]. split.
  - specialize (H p). inversion H; auto.
  - apply IH; [|done]. intros q. specialize (H q). by inversion H.
Qed.

Lemma rall_zip_Forall {E P A} (f : P → A → res E bool) (Q : P → A → Prop) ps l b :
  (∀ p, Forall (λ x, ∀ b, f p x = Ok b → (b = true ↔ Q p x)) l) →
  rall_zip f ps l = Ok b → (b = true ↔ all_zip Q ps l).
Proof.
  revert ps b. induction l as [|x l IH]; intros [|p ps] b H; cbn; try by intros [= <-].
  pose proof (H p) as Hp. inversion Hp as [|? ? Hx Hl]; subst.
  destruct (f p x) as [c|e|] eqn:E'; cbn; [|discriminate..]. specialize (Hx c eq_refl). rewrite -Hx.
  destruct c; [|intros [= <-]; naive_solver].
  intros ->%IH; [naive_solver|]. intros q. specialize (H q). by inversion H.
Qed.

Section base.
Context (datatypes : gmap Path Datatype).

(** ** Values that need no datatype outside [P] *)

Section base_typ.
Context (P : Path → Prop) (accept : Accepts).
Fixpoint base_typ (typ : Typ) : Prop :=
  match typ with
  | TypX_Bool | TypX_Int _ | TypX_Real | TypX_Float _ | TypX_ConstInt _ | TypX_ConstBool _ => True
  | TypX_Primitive Primitive_Array typs =>
    match typs with t0 :: t1 :: _ => t1 = TypX_ConstInt 0 ∨ base_typ t0 | _ => False end
  | TypX_Primitive _ _ | TypX_Dyn _ _ _ | TypX_Projection _ _ _ | TypX_PointeeMetadata _ => True
  | TypX_TypParam x => ∃ a, accept !! x = Some a ∧ a ≠ AcceptRecursiveType_Accept
  | TypX_SpecFn _ ret => base_typ ret
  | TypX_Datatype (Dt_Tuple _) typs _ => allP base_typ typs
  | TypX_Datatype (Dt_Path p) targs _ =>
    P p ∧ ∃ d, datatypes !! p = Some d ∧ length targs = length (typ_params d)
      ∧ all_zip (λ '(_, a) targ, a ≠ AcceptRecursiveType_Accept → base_typ targ) (typ_params d) targs
  | TypX_Decorate _ _ t | TypX_MutRef t => base_typ t
  | _ => False
  end.
End base_typ.

(** [check_well_founded_typ] decides it, when it returns. *)
Lemma check_typ_base W accept typ b :
  check_well_founded_typ datatypes W accept typ = Ok b → (b = true ↔ base_typ (λ p, p ∈ W) accept typ).
Proof.
  revert b. induction typ using typ_ind'; intros out; cbn; try discriminate; try (by intros [= <-]); auto.
  - (* datatypes *) destruct d as [p|n].
    2: { rewrite allP_Forall. by apply rall_Forall. }
    case_decide as Hp; [|intros [= <-]; naive_solver].
    destruct (datatypes !! p) as [d|]; cbn; [|discriminate].
    destruct (Nat.eqb _ _) eqn:Hl; intros Hr; [apply Nat.eqb_eq in Hl|discriminate Hr].
    rewrite (rall_zip_Forall _ (λ '(_, a) targ, a ≠ AcceptRecursiveType_Accept →
      base_typ (λ p, p ∈ W) accept targ) _ _ _ _ Hr); [|naive_solver].
    intros [x a]. apply Forall_forall. intros t Ht c. rewrite Forall_forall in H. specialize (H t Ht).
    case_decide; [|intros [= <-]; naive_solver]. intros ->%H. naive_solver.
  - (* primitives *) destruct p; try by intros [= <-].
    destruct ts as [|t0 [|t1 ts]]; try discriminate. inversion H as [|? ? H0 _]; subst.
    destruct t1; try (intros ->%H0; naive_solver).
    destruct (Z.eqb_spec i 0) as [->|]; [intros [= <-]; naive_solver|intros ->%H0; naive_solver].
  - (* parameters *) destruct (accept !! x) as [[]|]; cbn; try discriminate; intros [= <-]; naive_solver.
Qed.

(** The datatypes that a type mentions. *)
Definition mentions (typ : Typ) (p : Path) : Prop := ∃ ts i, TypX_Datatype (Dt_Path p) ts i ∈ visit_typ typ.

Lemma visit_sub ts t x : t ∈ ts → x ∈ visit_typ t → x ∈ concat (map visit_typ ts).
Proof.
  intros Ht Hx. induction ts as [|t' ts IH]; [by apply not_elem_of_nil in Ht|]. cbn. apply elem_of_app.
  apply elem_of_cons in Ht as [->|Ht]; auto.
Qed.

Lemma base_typ_impl (P Q : Path → Prop) accept typ :
  (∀ p, mentions typ p → P p → Q p) → base_typ P accept typ → base_typ Q accept typ.
Proof.
  unfold mentions.
  induction typ using typ_ind'; cbn; intros HPQ; auto; try (apply IHtyp; set_solver).
  - (* datatypes *) rewrite Forall_forall in H.
    assert (HF : ∀ t, t ∈ ts → base_typ P accept t → base_typ Q accept t).
    { intros t Ht. apply (H t Ht). intros p (us & j & Hp). apply HPQ. exists us, j.
      apply elem_of_app. left. by eapply visit_sub. }
    destruct d as [p|n].
    + intros (Hp & d & Hd & Hl & Hz). split.
      * apply HPQ; [|done]. exists ts, i. apply elem_of_app. right. set_solver.
      * exists d. split_and!; [done..|]. eapply all_zip_impl; [|exact Hz].
        intros [x a]. apply Forall_forall. intros t Ht Hb Ha. auto.
    + rewrite !allP_Forall !Forall_forall. auto.
  - (* primitives *) destruct p; try done. destruct ts as [|t0 [|t1 ts]]; try done.
    inversion H as [|? ? H0 _]; subst. intros [?|Hb]; [by left|right].
    apply H0; [|done]. cbn in HPQ. set_solver.
Qed.

(** ** Closed sets *)

(** A variant is a base case when the datatypes of [P] have values. *)
Definition has_base (P : Path → Prop) (p : Path) : Prop :=
  ∃ d v, datatypes !! p = Some d ∧ v ∈ variants d
    ∧ Forall (λ f, base_typ P (accepts_of (typ_params d)) (field_typ f)) (fields v).
Definition closed (P : Path → Prop) : Prop := ∀ p, has_base P p → P p.
(** The datatypes that have a value without recursion: the least closed set. *)
Definition grounded (p : Path) : Prop := ∀ P, closed P → P p.

Lemma has_base_mono (P Q : Path → Prop) p : (∀ q, P q → Q q) → has_base P p → has_base Q p.
Proof.
  intros HPQ (d & v & Hd & Hv & Hf). exists d, v. split_and!; [done..|].
  eapply Forall_impl; [exact Hf|]. intros f. apply base_typ_impl. auto.
Qed.

Lemma grounded_closed : closed grounded.
Proof. intros p Hp P HP. apply HP. eapply has_base_mono; [|exact Hp]. intros q Hq. by apply Hq. Qed.

Lemma dom_closed : closed (λ p, p ∈ dom datatypes).
Proof. intros p (d & v & Hd & _). by eapply elem_of_dom_2. Qed.

(** [P] contains [W] whenever it is closed and contains [W0]. *)
Definition below (W0 W : gset Path) : Prop := ∀ P, closed P → (∀ p, p ∈ W0 → P p) → ∀ p, p ∈ W → P p.
Lemma below_refl W : below W W.
Proof. by intros P _ H. Qed.
Lemma below_trans W1 W2 W3 : below W1 W2 → below W2 W3 → below W1 W3.
Proof. intros H1 H2 P HP H. apply H2; [done|]. by apply H1. Qed.
Lemma below_dom W1 W2 : below W1 W2 → W1 ⊆ dom datatypes → W2 ⊆ dom datatypes.
Proof. intros H HW. exact (H _ dom_closed HW). Qed.

Lemma find_base_case_spec W accept vs b :
  find_base_case (check_well_founded_typ datatypes W accept) vs = Ok b →
  (b = true ↔ ∃ v, v ∈ vs ∧ Forall (λ f, base_typ (λ p, p ∈ W) accept (field_typ f)) (fields v)).
Proof.
  induction vs as [|v vs IH]; cbn.
  - intros [= <-]. split; [done|]. by intros (v & Hv%not_elem_of_nil & _).
  - intros (c & Hc & H)%rbind_ok_inv.
    apply (rall_Forall _ (λ f, base_typ (λ p, p ∈ W) accept (field_typ f))) in Hc.
    2: { apply Forall_forall. intros f _ b'. apply check_typ_base. }
    destruct c.
    + injection H as <-. split; [|done]. intros _. exists v. split; [left|by apply Hc].
    + rewrite (IH H). setoid_rewrite elem_of_cons. split; [naive_solver|].
      intros (v' & [->|Hv] & Hf); [|by exists v']. by apply Hc in Hf.
Qed.

Lemma check_well_founded_spec W p b W' :
  check_well_founded datatypes W p = Ok (b, W') →
  if b then p ∈ W ∧ W' = W ∨ has_base (λ q, q ∈ W) p ∧ W' = {[p]} ∪ W
  else (W' = W ∧ (p ∉ W) ∧ ¬ has_base (λ q, q ∈ W) p).
Proof.
  unfold check_well_founded. case_decide as Hp; [intros [= <- <-]; by left|].
  destruct (datatypes !! p) as [d|] eqn:Hd; cbn; [|discriminate].
  intros (c & Hc%find_base_case_spec & H)%rbind_ok_inv. destruct c; injection H as <- <-.
  - right. split; [|done]. destruct (proj1 Hc eq_refl) as (v & Hv & Hf). by exists d, v.
  - split_and!; [done..|]. intros (d' & v & Hd' & Hv & Hf). simplify_eq.
    by assert (false = true) by (apply Hc; eauto).
Qed.

Lemma below_add W p : has_base (λ q, q ∈ W) p → below W ({[p]} ∪ W).
Proof.
  intros Hp P HP HW q [->%elem_of_singleton|Hq]%elem_of_union; [|auto].
  apply HP. eapply has_base_mono; [exact HW|done].
Qed.

Lemma rall_no_err {E A} (f : A → res E bool) l e : Forall (λ x, f x ≠ Err e) l → rall f l ≠ Err e.
Proof. induction 1 as [|x l Hx _ IH]; cbn; [done|]. destruct (f x) as [[]|e'|]; cbn; congruence. Qed.
Lemma rall_zip_no_err {E P A} (f : P → A → res E bool) ps l e :
  (∀ p, Forall (λ x, f p x ≠ Err e) l) → rall_zip f ps l ≠ Err e.
Proof.
  revert ps. induction l as [|x l IH]; intros [|p ps] H; cbn; try done.
  pose proof (Forall_inv (H p)) as Hp. cbn in Hp.
  assert (rall_zip f ps l ≠ Err e) by (apply IH; intros q; exact (Forall_inv_tail (H q))).
  destruct (f p x) as [[]|e'|]; cbn; congruence.
Qed.

Lemma check_typ_no_err W accept typ e : check_well_founded_typ datatypes W accept typ ≠ Err e.
Proof.
  induction typ using typ_ind'; cbn; try done.
  - destruct d as [p|n]; [|by apply rall_no_err]. case_decide; [|done].
    destruct (datatypes !! p) as [d|]; cbn; [|done]. destruct (Nat.eqb _ _); [|done].
    apply rall_zip_no_err. intros [x a]. apply Forall_forall. intros t Ht. case_decide; [|done].
    by apply (proj1 (Forall_forall _ _) H).
  - destruct p; try done. destruct ts as [|t0 [|t1 ts]]; try done. inversion H; subst.
    destruct t1; try done. by destruct (i =? 0)%Z.
  - by destruct (accept !! x) as [[]|].
Qed.

Lemma check_well_founded_no_err W p e : check_well_founded datatypes W p ≠ Err e.
Proof.
  unfold check_well_founded. case_decide; [done|]. destruct (datatypes !! p) as [d|]; cbn; [|done].
  induction (variants d) as [|v vs IH]; cbn; [done|].
  destruct (rall _ (fields v)) as [[]|e'|] eqn:E; cbn; try done.
  by apply (rall_no_err _ _ e' (proj2 (Forall_forall _ _) (λ f _, check_typ_no_err W _ _ e'))) in E.
Qed.

(** ** The passes over a component *)

Definition no_base_error (d : Datatype) : VirErr :=
  error (dt_span d) "datatype must have at least one non-recursive variant".

(** A datatype of the component without a base case, once nothing more is found. *)
Definition stuck (nodes : list TypNode) (W : gset Path) (e : VirErr) : Prop :=
  ∃ p d, TypNode_Datatype (Dt_Path p) ∈ nodes ∧ datatypes !! p = Some d ∧ (p ∉ W) ∧ e = no_base_error d.
(** Every datatype of the component is in [W] or has no base case relative to it. *)
Definition saturated (nodes : list TypNode) (W : gset Path) : Prop :=
  ∀ p, TypNode_Datatype (Dt_Path p) ∈ nodes → p ∈ W ∨ ¬ has_base (λ q, q ∈ W) p.
Definition covered (nodes : list TypNode) (W : gset Path) : Prop :=
  ∀ p, TypNode_Datatype (Dt_Path p) ∈ nodes → p ∈ W.

Lemma check_node_spec conv n W W' :
  check_node datatypes conv n W = Ok W' →
  W ⊆ W' ∧ below W W' ∧ (W' = W → saturated [n] W) ∧ (conv = true → covered [n] W').
Proof.
  unfold saturated, covered. setoid_rewrite list_elem_of_singleton.
  destruct n as [[p|]| | |]; cbn;
    try (intros [= <-]; split_and!; [done|apply below_refl|by intros ? ?|by intros ? ?]).
  intros ([b W1] & H1%check_well_founded_spec & H)%rbind_ok_inv.
  destruct b; cbn in H; [rewrite andb_false_r in H; injection H as <-|].
  - destruct H1 as [[? ->]|[? ->]]; (split_and!; [set_solver| | |]).
    + apply below_refl.
    + intros _ q [= ->]. by left.
    + intros _ q [= ->]. done.
    + by apply below_add.
    + intros E q [= ->]. left. set_solver.
    + intros _ q [= ->]. set_solver.
  - destruct H1 as (-> & ? & ?). rewrite andb_true_r in H. destruct conv; [by destruct (datatypes !! p)|].
    injection H as <-. split_and!; [done|apply below_refl| |done]. intros _ q [= ->]. by right.
Qed.

Lemma elem_cons {A} (x y : A) l : x ∈ y :: l ↔ x ∈ [y] ∨ x ∈ l.
Proof. by rewrite elem_of_cons list_elem_of_singleton. Qed.
Lemma saturated_cons n nodes W : saturated (n :: nodes) W ↔ saturated [n] W ∧ saturated nodes W.
Proof. unfold saturated. setoid_rewrite elem_cons at 1. split; [|intros [??] ? []]; auto. Qed.
Lemma covered_cons n nodes W : covered (n :: nodes) W ↔ covered [n] W ∧ covered nodes W.
Proof. unfold covered. setoid_rewrite elem_cons at 1. split; [|intros [??] ? []]; auto. Qed.

Lemma pass_spec conv nodes W W' :
  Scc.rfold (check_node datatypes conv) nodes W = Ok W' →
  W ⊆ W' ∧ below W W' ∧ (W' = W → saturated nodes W) ∧ (conv = true → covered nodes W').
Proof.
  revert W. induction nodes as [|n nodes IH]; intros W; cbn.
  - intros [= <-]. split_and!; [done|apply below_refl|by intros _ p ?%not_elem_of_nil..].
  - intros (W1 & (Hs1 & Hb1 & Hsat1 & Hc1)%check_node_spec & (Hs & Hb & Hsat & Hc)%IH)%rbind_ok_inv.
    split_and!; [set_solver|by eapply below_trans| |].
    + intros ->. assert (W1 = W) as -> by set_solver. rewrite saturated_cons. auto.
    + intros ->. rewrite covered_cons. split; [|auto]. intros p Hp. apply Hs. by apply Hc1.
Qed.

(** The last pass changes nothing. *)
Lemma last_pass nodes W e :
  saturated nodes W →
  Scc.rfold (check_node datatypes true) nodes W = Err (TypeError e) → stuck nodes W e.
Proof.
  induction nodes as [|n nodes IH]; cbn; [discriminate|].
  rewrite saturated_cons. intros [Hn Hsat].
  destruct (check_node datatypes true n W) as [W1|e1|] eqn:E; cbn; [|intros [= ->]|discriminate].
  - intros He. assert (W1 = W) as ->.
    { destruct n as [[p|]| | |]; cbn in E; try congruence.
      apply rbind_ok_inv in E as ([b W2] & H1%check_well_founded_spec & E).
      destruct b; cbn in E; [injection E as ->|by destruct (datatypes !! p)].
      destruct H1 as [[_ ->]|[Hb ->]]; [done|]. destruct (Hn p) as [Hp|]; [by left|clear -Hp; set_solver|done]. }
    destruct (IH Hsat He) as (p & d & ? & ?). exists p, d. by split; [right|].
  - destruct n as [[p|]| | |]; cbn in E; try discriminate.
    destruct (check_well_founded datatypes W p) as [[b W2]|e'|] eqn:E1; cbn in E.
    + apply check_well_founded_spec in E1. destruct b; cbn in E; [discriminate|].
      destruct E1 as (-> & ? & ?). destruct (datatypes !! p) as [d|] eqn:Hd; cbn in E; [|discriminate].
      injection E as <-. exists p, d. split_and!; [left|done..].
    + by apply check_well_founded_no_err in E1.
    + done.
Qed.

(** ** The loop *)

Lemma check_node_no_fuel conv n W : check_node datatypes conv n W ≠ Err TypeFuel.
Proof.
  destruct n as [[p|]| | |]; cbn; try done.
  destruct (check_well_founded datatypes W p) as [[b W2]|e'|] eqn:E1; cbn; [|by intros _; apply check_well_founded_no_err in E1|done].
  destruct (conv && negb b); [|done]. by destruct (datatypes !! p).
Qed.

Lemma converge_spec fuel nodes conv W :
  (conv = true → saturated nodes W) →
  match converge fuel datatypes nodes conv W with
  | Ok W' => W ⊆ W' ∧ below W W' ∧ covered nodes W'
  | Err (TypeError e) => ∃ W', W ⊆ W' ∧ below W W' ∧ saturated nodes W' ∧ stuck nodes W' e
  | _ => True
  end.
Proof.
  revert conv W. induction fuel as [|fuel IH]; intros conv W Hsat; cbn; [done|].
  destruct (Scc.rfold (check_node datatypes conv) nodes W) as [W1|[e|]|] eqn:E; cbn; [| |done..].
  - apply pass_spec in E as (Hs & Hb & Hst & Hc). destruct conv; [by auto|].
    assert (Hsat1 : (size W =? size W1)%nat = true → saturated nodes W1).
    { intros Hsz%Nat.eqb_eq. assert (W1 = W) as -> by (symmetry; apply set_subseteq_size_eq; [done|lia]). auto. }
    specialize (IH (size W =? size W1)%nat W1 Hsat1).
    destruct (converge fuel datatypes nodes (size W =? size W1)%nat W1) as [W2|[e|]|]; [| |done..].
    + destruct IH as (? & ? & ?). split_and!; [set_solver|by eapply below_trans|done].
    + destruct IH as (W2 & ? & ? & ? & ?). exists W2. split_and!; [set_solver|by eapply below_trans|done..].
  - destruct conv.
    + exists W. split_and!; [done|apply below_refl|auto|]. apply last_pass; auto.
    + exfalso. clear -E. revert W E. induction nodes as [|n nodes IH]; intros W; cbn; [done|].
      destruct (check_node datatypes false n W) as [W1|e1|] eqn:E; cbn; [by intros ?%IH| |done].
      intros [= ->]. destruct n as [[p|]| | |]; cbn in E; try done.
      destruct (check_well_founded datatypes W p) as [[b W2]|e'|] eqn:E1; cbn in E; [done| |done].
      by apply check_well_founded_no_err in E1.
Qed.

(** Each pass but the last two adds a datatype. *)
Lemma converge_fuel fuel nodes (conv : bool) (W : gset Path) :
  W ⊆ dom datatypes → size (dom datatypes : gset Path) - size W + (if conv then 1 else 2) ≤ fuel →
  converge fuel datatypes nodes conv W ≠ Err TypeFuel.
Proof.
  revert conv W. induction fuel as [|fuel IH]; intros conv W HW Hf; [destruct conv; lia|]. cbn.
  destruct (Scc.rfold (check_node datatypes conv) nodes W) as [W1|[e|]|] eqn:E; cbn; try done.
  - destruct conv; [done|]. apply pass_spec in E as (Hs & Hb & _).
    pose proof (below_dom W W1 Hb HW) as HW1. apply IH; [done|].
    pose proof (subseteq_size W W1 Hs). pose proof (subseteq_size W1 _ HW1).
    destruct (Nat.eqb_spec (size W) (size W1)); lia.
  - exfalso. clear -E. revert W E. induction nodes as [|n nodes IH]; intros W; cbn; [done|].
    destruct (check_node datatypes conv n W) as [W1|e1|] eqn:E; cbn; [by intros ?%IH| |done].
    intros [= ->]. by apply check_node_no_fuel in E.
Qed.
End base.

(** ** Values of datatypes

    Finite values, what it is for a value to have a type, and that every grounded
    datatype ([RecursiveGraph.grounded]) has one, whatever its parameters declared
    [#[verifier::accept_recursive_types]] are, once the others have values. *)

(** Trees of constructors.  [VFn] is the constant function; [VLeaf] stands for the
    values of the types that have one whatever the datatypes are. *)
Inductive value :=
| VLeaf
| VFn (v : value)
| VElems (vs : list value)
| VCtor (d : Dt) (variant : Ident) (vs : list value).

Definition args_of (ps : TypPositives) (targs : Typs) : gmap Ident Typ :=
  fold_left (λ m '((x, _), t), <[x := t]> m) (zip ps targs) ∅.

(** The types that have a value whatever the datatypes are. *)
Definition leaf_typ (t : Typ) : bool :=
  match t with
  | TypX_Bool | TypX_Int _ | TypX_Real | TypX_Float _ | TypX_ConstInt _ | TypX_ConstBool _
  | TypX_Dyn _ _ _ | TypX_Projection _ _ _ | TypX_PointeeMetadata _
  | TypX_Primitive (Primitive_Slice | Primitive_StrSlice | Primitive_Ptr | Primitive_Global) _ => true
  | _ => false
  end.

Section values.
Context (datatypes : gmap Path Datatype).

(** An array whose length is not a constant can have any length. *)
Definition array_length (t : Typ) (n : nat) : Prop :=
  match t with TypX_ConstInt i => n = Z.to_nat i | _ => True end.

Inductive has_type : value → Typ → Prop :=
| HLeaf t : leaf_typ t = true → has_type VLeaf t
| HFn ts t v : has_type v t → has_type (VFn v) (TypX_SpecFn ts t)
| HElems vs t0 t1 ts :
  array_length t1 (length vs) → Forall (λ v, has_type v t0) vs →
  has_type (VElems vs) (TypX_Primitive Primitive_Array (t0 :: t1 :: ts))
| HTuple n vs ts i : Forall2 has_type vs ts → has_type (VCtor (Dt_Tuple n) "" vs) (TypX_Datatype (Dt_Tuple n) ts i)
| HCtor p d v vs targs i :
  datatypes !! p = Some d → v ∈ variants d → length targs = length (typ_params d) →
  Forall2 has_type vs (map (λ f, subst_typ (args_of (typ_params d) targs) (field_typ f)) (fields v)) →
  has_type (VCtor (Dt_Path p) (variant_name v) vs) (TypX_Datatype (Dt_Path p) targs i)
| HDecorate d a t v : has_type v t → has_type v (TypX_Decorate d a t)
| HMutRef t v : has_type v t → has_type v (TypX_MutRef t).

Definition inhabited_typ (t : Typ) : Prop := ∃ v, has_type v t.

(** Type arguments that have values, except for the parameters that accept recursion. *)
Definition targs_ok (d : Datatype) (targs : Typs) : Prop :=
  length targs = length (typ_params d)
  ∧ ∀ i x a t, typ_params d !! i = Some (x, a) → targs !! i = Some t →
    a ≠ AcceptRecursiveType_Accept → inhabited_typ t.

Definition has_values (p : Path) : Prop :=
  ∃ d, datatypes !! p = Some d
    ∧ ∀ targs i, targs_ok d targs → inhabited_typ (TypX_Datatype (Dt_Path p) targs i).

Lemma args_of_accepts ps targs x a :
  length targs = length ps → accepts_of ps !! x = Some a →
  ∃ i t, ps !! i = Some (x, a) ∧ targs !! i = Some t ∧ args_of ps targs !! x = Some t.
Proof.
  unfold accepts_of, args_of. revert targs. induction ps as [|[y b] ps IH] using rev_ind; intros targs Hl; [done|].
  rewrite length_app /= in Hl. destruct (decide (targs = [])) as [->|Hne]; [cbn in Hl; lia|].
  destruct (exists_last Hne) as (ts & t & ->). rewrite length_app /= in Hl.
  assert (length ts = length ps) as Hl' by lia. rewrite zip_with_app // !fold_left_app /=.
  destruct (decide (x = y)) as [->|Hxy].
  - rewrite !lookup_insert_eq. intros [= ->]. exists (length ps), t.
    rewrite (lookup_app_r ps) // (lookup_app_r ts); [lia|]. by rewrite Hl' Nat.sub_diag.
  - rewrite !lookup_insert_ne //. intros (i & u & Hi & Hu & ->)%(IH ts Hl'). exists i, u.
    split_and!; [by apply lookup_app_l_Some..|done].
Qed.

Lemma Forall2_inhabited (ts : list Typ) : Forall inhabited_typ ts → ∃ vs, Forall2 has_type vs ts.
Proof. induction 1 as [|t ts [v Hv] _ [vs Hvs]]; [by exists []|by exists (v :: vs); constructor]. Qed.

Lemma base_typ_value accept σ t :
  (∀ x a, accept !! x = Some a → a ≠ AcceptRecursiveType_Accept → ∃ u, σ !! x = Some u ∧ inhabited_typ u) →
  base_typ datatypes has_values accept t → inhabited_typ (subst_typ σ t).
Proof.
  intros Hσ. induction t using typ_ind'; cbn; intros Hb; try done;
    try (exists VLeaf; by constructor).
  - destruct (IHt Hb) as [v Hv]. exists (VFn v). by constructor.
  - destruct d as [p|n].
    + destruct Hb as ((d & Hd & Hv) & d' & Hd' & Hl & Hz). simplify_eq. apply Hv.
      split; [by rewrite length_map|]. intros j x a u Hj Hu Ha.
      apply list_lookup_fmap_Some in Hu as (t & -> & Ht). rewrite all_zip_lookup in Hz.
      rewrite Forall_lookup in H. eapply H; [done|]. by apply (Hz j (x, a) t).
    + rewrite allP_Forall in Hb. destruct (Forall2_inhabited (map (subst_typ σ) ts)) as [vs Hvs].
      { apply Forall_fmap. by eapply Forall_impl2; [exact H|exact Hb|auto]. }
      exists (VCtor (Dt_Tuple n) "" vs). by constructor.
  - destruct p; try (exists VLeaf; by constructor).
    destruct ts as [|t0 [|t1 ts]]; try done. inversion H as [|? ? H0 _]; subst. cbn.
    destruct Hb as [->|Hb].
    + exists (VElems []). by constructor.
    + destruct (H0 Hb) as [v Hv].
      set (n := match subst_typ σ t1 with TypX_ConstInt i => Z.to_nat i | _ => 0 end).
      exists (VElems (replicate n v)). constructor; [|by apply Forall_replicate].
      rewrite length_replicate. unfold n, array_length. by destruct (subst_typ σ t1).
  - destruct (IHt Hb) as [v Hv]. exists v. by constructor.
  - destruct Hb as (a & Ha & Hn). destruct (Hσ x a Ha Hn) as (u & -> & Hu). done.
  - destruct (IHt Hb) as [v Hv]. exists v. by constructor.
Qed.

Lemma has_values_closed : closed datatypes has_values.
Proof.
  intros p (d & v & Hd & Hv & Hf). exists d. split; [done|]. intros targs i [Hl Ht].
  destruct (Forall2_inhabited (map (λ f, subst_typ (args_of (typ_params d) targs) (field_typ f)) (fields v)))
    as [vs Hvs].
  { apply Forall_fmap. eapply Forall_impl; [exact Hf|]. intros f. apply base_typ_value.
    intros x a Ha Hn. destruct (args_of_accepts _ targs x a Hl Ha) as (j & t & Hj & Htj & Hx).
    exists t. split; [done|]. by eapply Ht. }
  eexists. by eapply HCtor.
Qed.

Lemma grounded_values p : grounded datatypes p → has_values p.
Proof. intros H. apply H, has_values_closed. Qed.
End values.

(** ** The graph of the types

    [add_datatype_graph] succeeds, has a node for every datatype and an edge from it
    to every datatype that its declaration mentions. *)

Import SccGraph.

Implicit Types (g : TypeGraph).

(** The graph only grows. *)
Record ext g g' : Prop := {
  ext_ok : graph_ok g';
  ext_node x : has_node g x → has_node g' x;
  ext_edge x y : edge g x y → edge g' x y
}.
Lemma graph_ext_refl g : graph_ok g → ext g g.
Proof. by split. Qed.
Lemma graph_ext_trans g1 g2 g3 : ext g1 g2 → ext g2 g3 → ext g1 g3.
Proof. intros [] []; split; eauto. Qed.

(** A loop of operations that extend the graph [gr s] of the state and establish [Q]. *)
Section loop.
Context {S A : Type} (gr : S → TypeGraph) (f : A → S → res fuel_error S) (Q : A → TypeGraph → Prop).
Hypothesis Hmono : ∀ x g g', ext g g' → Q x g → Q x g'.
Hypothesis Hstep : ∀ x s, graph_ok (gr s) → ∃ s', f x s = Ok s' ∧ ext (gr s) (gr s') ∧ Q x (gr s').

Lemma loop_ext l s : graph_ok (gr s) →
  ∃ s', Scc.rfold f l s = Ok s' ∧ ext (gr s) (gr s') ∧ ∀ x, x ∈ l → Q x (gr s').
Proof using All.
  revert s. induction l as [|x l IH]; intros s Hs; cbn.
  - exists s. split_and!; [done|by apply graph_ext_refl|by intros x ?%not_elem_of_nil].
  - destruct (Hstep x s Hs) as (s1 & -> & E1 & Q1). destruct (IH s1 (ext_ok _ _ E1)) as (s2 & H2 & E2 & Q2).
    exists s2. split_and!; [done|by eapply graph_ext_trans|].
    intros y [->|Hy]%elem_of_cons; [by eapply Hmono|auto].
Qed.
End loop.

Lemma add_node_ext g x : graph_ok g → ext g (Scc.add_node g x) ∧ has_node (Scc.add_node g x) x.
Proof.
  intros (Hok & Hn & He)%(add_node_ok g x). split; [split; [done|..]|].
  - intros y Hy. apply Hn. by left.
  - intros a b. apply He.
  - apply Hn. by right.
Qed.

Lemma add_edge_ext g x y : graph_ok g →
  ∃ g', Scc.add_edge g x y = Ok g' ∧ ext g g' ∧ edge g' x y ∧ has_node g' x ∧ has_node g' y.
Proof.
  intros (g' & Hg' & Hok & Hn & He)%(add_edge_ok g x y). exists g'. split_and!; [done|split; [done|..]| | |].
  - intros z Hz. apply Hn. by left.
  - intros a b Hab. apply He. by left.
  - apply He. by right.
  - apply Hn. auto.
  - apply Hn. auto.
Qed.

Lemma add_impl_edges_ext src is_ g : graph_ok g → ∃ g', add_impl_edges src is_ g = Ok g' ∧ ext g g'.
Proof.
  intros Hg. destruct (loop_ext id (λ i g, Scc.add_edge g src (TypNode_TraitImpl i)) (λ _ _, True))
    with (l := is_) (s := g) as (g' & ? & ? & _); [done| |done|by exists g'].
  intros i g1 H1. destruct (add_edge_ext g1 src (TypNode_TraitImpl i) H1) as (g2 & ? & ? & _). by exists g2.
Qed.

(** The edge for a type that is visited. *)
Definition edge_for (src : TypNode) (typ : Typ) g : Prop :=
  match typ with
  | TypX_Datatype d _ _ => edge g src (TypNode_Datatype d) ∧ has_node g (TypNode_Datatype d)
  | _ => True
  end.
Lemma edge_for_mono src typ g g' : ext g g' → edge_for src typ g → edge_for src typ g'.
Proof. intros [_ Hn He]. destruct typ; cbn; try done. intros [??]. eauto. Qed.

Lemma add_one_type_ext src typ g : graph_ok g →
  ∃ g', add_one_type_to_graph src typ g = Ok g' ∧ ext g g' ∧ edge_for src typ g'.
Proof.
  intros Hg. destruct typ; try (exists g; split_and!; [done|by apply graph_ext_refl|done]); cbn.
  - destruct (add_edge_ext g src (TypNode_Datatype dt) Hg) as (g1 & -> & E1 & He & _ & Hn). cbn.
    destruct (add_impl_edges_ext src impl_paths g1 (ext_ok _ _ E1)) as (g2 & -> & E2). exists g2.
    split_and!; [done|by eapply graph_ext_trans|by eapply ext_edge|by eapply ext_node].
  - destruct (add_edge_ext g src (TypNode_Trait trait) Hg) as (g1 & -> & E1 & _). cbn.
    destruct (add_impl_edges_ext src impl_paths g1 (ext_ok _ _ E1)) as (g2 & -> & E2). exists g2.
    split_and!; [done|by eapply graph_ext_trans|done].
Qed.

Lemma add_types_ext src typs g : graph_ok g →
  ∃ g', add_types src typs g = Ok g' ∧ ext g g' ∧ ∀ t, t ∈ typs → edge_for src t g'.
Proof.
  apply (loop_ext id); [apply edge_for_mono|]. intros t g1. apply add_one_type_ext.
Qed.

(** The node and the edges of an item. *)
Definition item_in (src : TypNode) (typs : list Typ) g : Prop :=
  has_node g src ∧ ∀ t, t ∈ typs → edge_for src t g.
Lemma item_in_mono src typs g g' : ext g g' → item_in src typs g → item_in src typs g'.
Proof. intros E [Hn He]. split; [by eapply ext_node|]. intros t Ht. eapply edge_for_mono; eauto. Qed.

Lemma add_item_ext src typs g : graph_ok g →
  ∃ g', add_item src typs g = Ok g' ∧ ext g g' ∧ item_in src typs g'.
Proof.
  intros [E1 Hn]%(add_node_ext g src). destruct (add_types_ext src typs _ (ext_ok _ _ E1)) as (g2 & H2 & E2 & He).
  exists g2. split_and!; [done|by eapply graph_ext_trans|]. split; [by eapply ext_node|done].
Qed.

Lemma add_assoc_type_ext a (s : TypeGraph * list Span) : graph_ok s.1 →
  ∃ s', add_assoc_type a s = Ok s' ∧ ext s.1 s'.1.
Proof.
  destruct s as [g infos]. cbn. intros Hg.
  destruct (add_edge_ext g (TypNode_TraitImpl (ImplPath_TraitImplPath (ati_impl_path a)))
    (new_span_info_typ_node infos (ati_span a) (": associated type definition, which may depend on other trait implementations to satisfy type bounds")).1 Hg)
    as (g1 & H1 & E1 & _).
  cbn in H1. rewrite H1. cbn.
  set (src := TypNode_SpanInfo _ _).
  destruct (add_impl_edges_ext src (ati_impl_paths a) g1 (ext_ok _ _ E1)) as (g2 & -> & E2). cbn.
  destruct (add_types_ext src (visit_assoc_type_impl a) g2 (ext_ok _ _ E2)) as (g3 & -> & E3 & _). cbn.
  eexists. split; [done|]. cbn. eapply graph_ext_trans; [done|]. by eapply graph_ext_trans.
Qed.

Lemma add_datatype_graph_ok krate infos :
  ∃ g infos', add_datatype_graph krate infos = Ok (g, infos') ∧ graph_ok g
    ∧ ∀ d, d ∈ datatypes krate → item_in (TypNode_Datatype (dt_name d)) (visit_datatype d) g.
Proof.
  unfold add_datatype_graph.
  destruct (loop_ext id (λ d, add_item (TypNode_Datatype (dt_name d)) (visit_datatype d))
    (λ d, item_in (TypNode_Datatype (dt_name d)) (visit_datatype d))) with (l := datatypes krate) (s := @Scc.new_graph TypNode _ _)
    as (g1 & -> & E1 & Q1); [intros d; apply item_in_mono|intros d g; apply add_item_ext|apply new_graph_ok|]. cbn.
  destruct (loop_ext id (λ tr, add_item (TypNode_Trait (tr_name tr)) (visit_trait tr)) (λ _ _, True))
    with (l := traits krate) (s := g1) as (g2 & -> & E2 & _); [done| |exact (ext_ok _ _ E1)|].
  { intros tr g (g' & ? & ? & _)%(add_item_ext (TypNode_Trait (tr_name tr)) (visit_trait tr)). by exists g'. }
  cbn. destruct (loop_ext id add_trait_method (λ _ _, True))
    with (l := functions krate) (s := g2) as (g3 & -> & E3 & _); [done| |exact (ext_ok _ _ E2)|].
  { intros f g Hg. unfold add_trait_method. destruct (fun_kind f) as [|p b| |]; try (exists g; by split_and!; [|apply graph_ext_refl|]).
    destruct (add_item_ext (TypNode_Trait p) (fun_typs f) g Hg) as (g' & ? & ? & _). by exists g'. }
  cbn. destruct (loop_ext fst add_assoc_type (λ _ _, True))
    with (l := assoc_type_impls krate) (s := (g3, infos)) as ([g4 infos'] & -> & E4 & _); [done| |exact (ext_ok _ _ E3)|].
  { intros a s Hs. destruct (add_assoc_type_ext a s Hs) as (s' & ? & ?). by exists s'. }
  exists g4, infos'. split_and!; [done|apply E4|]. intros d Hd. eapply item_in_mono; [|by apply Q1].
  eapply graph_ext_trans; [exact E2|]. eapply graph_ext_trans; [exact E3|exact E4].
Qed.

(** ** What a field mentions *)

Lemma visit_typ_field d v f p :
  v ∈ variants d → f ∈ fields v → mentions (field_typ f) p → ∃ ts i, TypX_Datatype (Dt_Path p) ts i ∈ visit_datatype d.
Proof.
  intros Hv Hf (ts & i & Hp). exists ts, i. unfold visit_datatype. rewrite !elem_of_app. right. left.
  assert (Hc : ∀ {A} (k : A → list Typ) l a x, a ∈ l → x ∈ k a → x ∈ concat (map k l)).
  { intros A k l a x. induction l as [|b l IH]; [by intros ?%not_elem_of_nil|]. cbn.
    rewrite elem_of_cons elem_of_app. intros [->|?] ?; auto. }
  eapply Hc; [exact Hv|]. unfold visit_variant. by eapply Hc; [exact Hf|].
Qed.
