(* ===== verification/RecursiveSound.v ===== *)
(** * What the check of recursive types establishes

    The components are visited so that every datatype comes after those it mentions:
    when [check_recursive_types] returns [Ok], every datatype is grounded; when it
    reports a datatype without a base case, that datatype is not. *)

From S2P Require Import Prelude Escape VirMessages VirAst VirAstUtil RecursiveTypes.
From S2P Require Import RecursiveGraph.
From S2P Require Ast Scc SccGraph SccCorrect.
Set Warnings "-rewrite-rw,-register-all,-clear-no-such-hyp".
Import SccGraph SccCorrect.
Local Open Scope string_scope.
Local Open Scope list_scope.
Local Open Scope res_scope.

(** ** Errors in loops *)

Lemma rfold_err {E A B} (f : A → B → res E B) l s e :
  Scc.rfold f l s = Err e → ∃ pre x suf s', l = pre ++ x :: suf ∧ Scc.rfold f pre s = Ok s' ∧ f x s' = Err e.
Proof.
  revert s. induction l as [|x l IH]; intros s; cbn; [done|].
  destruct (f x s) as [s1|e1|] eqn:Ex; cbn; [|intros [= ->]|done].
  - intros (pre & y & suf & s' & -> & Hp & Hy)%IH. exists (x :: pre), y, suf, s'. cbn. by rewrite Ex.
  - by exists [], x, l, s.
Qed.

Lemma riter_err {E A} (f : A → res E unit) l e : riter f l = Err e → ∃ x, x ∈ l ∧ f x = Err e.
Proof.
  induction l as [|x l IH]; cbn; [done|]. destruct (f x) as [|e1|] eqn:Ex; cbn; [|intros [= ->]|done].
  - intros (y & Hy & He)%IH. exists y. by split; [right|].
  - exists x. by split; [left|].
Qed.

Lemma riter_ok {E A} (f : A → res E unit) l : riter f l = Ok tt ↔ Forall (λ x, f x = Ok tt) l.
Proof.
  induction l as [|x l IH]; cbn; [by rewrite Forall_nil|]. rewrite Forall_cons -IH.
  destruct (f x) as [[]| |]; cbn; naive_solver.
Qed.

Lemma riter_zip_err {E P A} (f : P → A → res E unit) ps l e :
  riter_zip f ps l = Err e → ∃ p x, x ∈ l ∧ f p x = Err e.
Proof.
  revert ps. induction l as [|x l IH]; intros [|p ps]; cbn; try done.
  destruct (f p x) as [|e1|] eqn:Ex; cbn; [|intros [= ->]|done].
  - intros (q & y & Hy & He)%IH. exists q, y. by split; [right|].
  - exists p, x. by split; [left|].
Qed.

Lemma lift_ok {A} (r : res fuel_error A) a : lift r = Ok a ↔ r = Ok a.
Proof. destruct r as [?|[]|]; cbn; naive_solver. Qed.
Lemma lift_err {A} (r : res fuel_error A) e : lift r ≠ Err (TypeError e).
Proof. by destruct r as [?|[]|]. Qed.

(** ** The datatypes *)

Lemma collect_datatypes_spec l ds :
  collect_datatypes l = Ok ds →
  (∀ p d, ds !! p = Some d → d ∈ l ∧ dt_name d = Dt_Path p)
  ∧ ∀ d, d ∈ l → ∃ p, dt_name d = Dt_Path p ∧ p ∈ dom ds.
Proof.
  unfold collect_datatypes.
  enough (H : ∀ ds0, Scc.rfold (λ d m, let? path := datatype_path d in Ok (<[path := d]> m)) l ds0 = Ok ds →
    (∀ p d, ds !! p = Some d → d ∈ l ∧ dt_name d = Dt_Path p ∨ ds0 !! p = Some d)
    ∧ (∀ p, p ∈ dom ds0 → p ∈ dom ds) ∧ ∀ d, d ∈ l → ∃ p, dt_name d = Dt_Path p ∧ p ∈ dom ds).
  { intros (H1 & _ & H2)%H. split; [|done]. intros p d [?|Hd]%H1; [done|]. by rewrite lookup_empty in Hd. }
  induction l as [|d l IH]; intros ds0; cbn.
  - intros [= <-]. split_and!; [by right|done|by intros d ?%not_elem_of_nil].
  - unfold datatype_path at 1. destruct (dt_name d) as [p|n] eqn:Hn; cbn; [|done].
    intros (H1 & H2 & H3)%IH. split_and!.
    + intros q d' [[? ?]|Hq]%H1; [left; by split; [right|]|].
      destruct (decide (p = q)) as [->|Hpq].
      * rewrite lookup_insert_eq in Hq. injection Hq as <-. left. by split; [left|].
      * rewrite lookup_insert_ne // in Hq. by right.
    + intros q Hq. apply H2. rewrite dom_insert. set_solver.
    + intros d' [->|Hd]%elem_of_cons; [|auto]. exists p. split; [done|]. apply H2. rewrite dom_insert. set_solver.
Qed.

(** ** The components in order *)

Abbreviation Dnode p := (TypNode_Datatype (Dt_Path p)).

Section sccs.
Context (ds : gmap Path Datatype) (g g' : TypeGraph) (fuel : nat) (l : list TypNode).
Context (global : CheckPositiveGlobal) (Hds : g_datatypes global = ds) (Hgr : type_graph global = g').
Hypothesis Hcp : computed g g'.
Hypothesis Hnode : ∀ p d, ds !! p = Some d → has_node g (Dnode p)
  ∧ ∀ v f q, v ∈ variants d → f ∈ fields v → mentions (field_typ f) q →
      edge g (Dnode p) (Dnode q) ∧ has_node g (Dnode q).
Hypothesis Hl : (∀ x, has_node g x → ∃ r k, Scc.get_scc_rep g' x = Ok r ∧ Scc.in_same_scc g' x r = Ok true
    ∧ ∀ k', l !! k' = Some r ↔ k' = k)
  ∧ (∀ r, r ∈ l → has_node g r ∧ Scc.get_scc_rep g' r = Ok r)
  ∧ (∀ x y rx ry (i j : nat), edge g x y → Scc.get_scc_rep g' x = Ok rx → Scc.get_scc_rep g' y = Ok ry →
      l !! i = Some rx → l !! j = Some ry → (j ≤ i)%nat).

(** The component of a representative consists of the nodes it represents. *)
Lemma scc_nodes_rep r : r ∈ l →
  ∃ nodes, Scc.get_scc_nodes g' r = Ok nodes ∧ ∀ x, has_node g x → (x ∈ nodes ↔ Scc.get_scc_rep g' x = Ok r).
Proof using All.
  destruct Hl as (H1 & H2 & _). intros Hr. destruct (H2 r Hr) as [Hrn Hrr].
  destruct (cp_nodes _ _ Hcp r Hrn) as (nodes & Hnodes & Hin). exists nodes. split; [done|].
  intros x Hx. rewrite Hin. destruct (H1 x Hx) as (rx & _ & Hrx & Hsx & _). split.
  - intros (_ & Hrtc). destruct (cp_same _ _ Hcp x r Hx Hrn) as (b & Hb & Hb').
    assert (b = true) as -> by (apply Hb'; tauto). unfold Scc.in_same_scc in Hb.
    case_decide as E; [by subst|]. rewrite Hrx Hrr in Hb. cbn in Hb. injection Hb as Hb.
    apply bool_decide_eq_true in Hb. by subst.
  - intros E. rewrite Hrx in E. injection E as ->. split; [done|].
    destruct (cp_same _ _ Hcp x r Hx Hrn) as (b & Hb & Hb'). rewrite Hsx in Hb. injection Hb as <-. tauto.
Qed.

Lemma check_scc_ok r W W' : check_scc fuel global r W = Ok W' → r ∈ l →
  W ⊆ W' ∧ below ds W W' ∧ ∀ p, has_node g (Dnode p) → Scc.get_scc_rep g' (Dnode p) = Ok r → p ∈ W'.
Proof using All.
  intros Hc Hr. destruct (scc_nodes_rep r Hr) as (nodes & Hnodes & Hin).
  unfold check_scc in Hc. rewrite Hgr Hnodes Hds in Hc. cbn in Hc. apply rbind_ok_inv in Hc as (_ & _ & Hc).
  pose proof (converge_spec ds fuel nodes false W) as H. rewrite Hc in H.
  destruct H as (? & ? & Hcov); [done|]. split_and!; [done..|]. intros p Hp Hrep. by apply Hcov, Hin.
Qed.

Lemma check_sccs_ok pre W W' : Scc.rfold (check_scc fuel global) pre W = Ok W' → (∀ r, r ∈ pre → r ∈ l) →
  W ⊆ W' ∧ below ds W W'
  ∧ ∀ p r, r ∈ pre → has_node g (Dnode p) → Scc.get_scc_rep g' (Dnode p) = Ok r → p ∈ W'.
Proof using All.
  revert W. induction pre as [|r pre IH]; intros W; cbn.
  - intros [= <-] _. split_and!; [done|apply below_refl|by intros p r ?%not_elem_of_nil].
  - intros (W1 & H1 & H2)%rbind_ok_inv Hin.
    destruct (check_scc_ok r W W1 H1) as (Hs1 & Hb1 & Hc1); [apply Hin; left|].
    destruct (IH W1 H2) as (Hs2 & Hb2 & Hc2); [intros r' Hr'; apply Hin; by right|].
    split_and!; [set_solver|by eapply below_trans|].
    intros p r' [->|Hr']%elem_of_cons Hp Hrep; [apply Hs2; auto|by eapply Hc2].
Qed.

Lemma all_grounded W : Scc.rfold (check_scc fuel global) l ∅ = Ok W → ∀ p, p ∈ dom ds → grounded ds p.
Proof using All.
  intros (_ & Hb & Hc)%check_sccs_ok; [|done]. intros p [d Hd]%elem_of_dom P HP.
  apply (Hb P HP); [by intros q ?%not_elem_of_empty|].
  destruct (Hnode p d Hd) as [Hn _]. destruct Hl as (H1 & _). destruct (H1 _ Hn) as (r & k & Hr & _ & Hk).
  eapply Hc; [|done|done]. by eapply list_elem_of_lookup_2, Hk.
Qed.

(** A component in which a datatype is stuck: it is not grounded. *)
Lemma stuck_not_grounded pre r suf W0 W nodes e :
  l = pre ++ r :: suf → Scc.rfold (check_scc fuel global) pre ∅ = Ok W0 →
  Scc.get_scc_nodes g' r = Ok nodes → W0 ⊆ W → below ds W0 W → saturated ds nodes W → stuck ds nodes W e →
  ∃ p d, ds !! p = Some d ∧ e = no_base_error d ∧ ¬ grounded ds p.
Proof using All.
  intros El Hpre Hnodes HW Hb Hsat (p & d & Hp & Hd & HpW & ->). exists p, d. split_and!; [done..|].
  intros Hg. apply HpW. assert (Hr : r ∈ l) by (rewrite El; set_solver).
  destruct (scc_nodes_rep r Hr) as (nodes' & Hn' & Hin). rewrite Hnodes in Hn'. injection Hn' as <-.
  apply check_sccs_ok in Hpre as (_ & _ & Hcov); [|intros r' Hr'; rewrite El; set_solver].
  set (i := length pre). assert (Hi : l !! i = Some r) by (rewrite El; by apply list_lookup_middle).
  set (P q := ∀ r' k, Scc.get_scc_rep g' (Dnode q) = Ok r' → l !! k = Some r' → (k ≤ i)%nat → q ∈ W).
  assert (HP : closed ds P).
  { intros q (dq & v & Hdq & Hv & Hf) r' k Hrep Hk Hki. destruct (Hnode q dq Hdq) as [Hnq Hmq].
    destruct (decide (k = i)) as [->|Hne].
    - rewrite Hi in Hk. injection Hk as <-. destruct (Hsat q) as [|Hno]; [by apply Hin|done|].
      destruct Hno. exists dq, v. split_and!; [done..|]. rewrite Forall_forall in Hf. apply Forall_forall.
      intros f Hff. eapply base_typ_impl; [|by apply Hf]. intros q' Hm HP.
      destruct (Hmq v f q' Hv Hff Hm) as [He Hnq']. destruct Hl as (H1 & H2 & H3).
      destruct (H1 _ Hnq') as (r2 & k2 & Hr2 & _ & Hk2). apply (HP r2 k2 Hr2); [by apply Hk2|].
      eapply (H3 _ _ r r2 i k2); [exact He|done|done|done|by apply Hk2].
    - apply HW. eapply Hcov; [|done|done]. rewrite El lookup_app_l in Hk; [lia|].
      by eapply list_elem_of_lookup_2. }
  destruct (Hnode p d Hd) as [Hnp _]. eapply (Hg P HP r i); [|done|done]. by apply Hin.
Qed.
End sccs.

(** ** The other errors *)

Definition no_base_note : string := "datatype must have at least one non-recursive variant".
(** An error of the code that is not that of a datatype without base case. *)
Definition other_error (e : type_error) : Prop :=
  match e with TypeError e => mnote e ≠ no_base_note | TypeFuel => False end.

Lemma label_nodes_note krate infos head len i nodes err r :
  mnote err ≠ no_base_note → label_nodes krate infos head len i nodes err = r →
  match r with Ok e => mnote e ≠ no_base_note | Err _ => False | Panic => True end.
Proof.
  intros Herr <-. revert i err Herr. induction nodes as [|n nodes IH]; intros i err Herr; cbn; [done|].
  destruct (node_span krate infos n) as [s|e|] eqn:Es; cbn; [| |done].
  - apply IH. destruct s as [[sp text]|]; [|done]. by case_decide; destruct err.
  - destruct n; cbn in Es; try done. by destruct (infos !! span_infos_index).
Qed.

Lemma type_scc_error_note krate infos head nodes :
  match type_scc_error krate infos head nodes with
  | Ok e => mnote e ≠ no_base_note | Err _ => False | Panic => True end.
Proof. eapply label_nodes_note; [|reflexivity]. by vm_compute. Qed.

(** The queries of the graph do not run out of fuel. *)
Lemma get_scc_rep_no_err (g : TypeGraph) x e : Scc.get_scc_rep g x ≠ Err e.
Proof.
  unfold Scc.get_scc_rep, Scc.assert, Scc.rep, Scc.node_t. destruct (Scc.has_run g); cbn; [|done].
  destruct (Scc.mapping g !! x); cbn; [|done]. destruct (Scc.sccs g !! _) as [c|]; cbn; [|done].
  destruct (Scc.scc_nodes c !! 0); cbn; [|done]. by destruct (Scc.nodes g !! _).
Qed.
Lemma in_same_scc_no_err (g : TypeGraph) x y e : Scc.in_same_scc g x y ≠ Err e.
Proof.
  unfold Scc.in_same_scc. case_decide; [done|].
  destruct (Scc.get_scc_rep g x) eqn:E1; cbn; [|by apply get_scc_rep_no_err in E1|done].
  destruct (Scc.get_scc_rep g y) eqn:E2; cbn; [done|by apply get_scc_rep_no_err in E2|done].
Qed.
Lemma node_is_in_cycle_no_err (g : TypeGraph) x e : Scc.node_is_in_cycle g x ≠ Err e.
Proof.
  unfold Scc.node_is_in_cycle, Scc.node_has_direct_edge_to_itself, Scc.assert, Scc.get_scc_size.
  destruct (Scc.has_run g) eqn:Hr; cbn; [|done]. destruct (Scc.h g !! x); cbn; [|done].
  destruct (Scc.nodes g !! _); cbn; [|done]. destruct (existsb _ _); [done|].
  destruct (Scc.mapping g !! x); cbn; [|done]. by destruct (Scc.sccs g !! _).
Qed.

Lemma lift_no_err {A} (r : res fuel_error A) e : (∀ e, r ≠ Err e) → lift r ≠ Err e.
Proof. destruct r as [|e'|]; cbn; [done| |done]. intros H. by destruct (H e'). Qed.

Section notes.
Context (fuel : nat) (names : Path → option string) (global : CheckPositiveGlobal) (g : TypeGraph).
Hypothesis Hcp : computed g (type_graph global).
Hypothesis Hfuel : (length (Scc.nodes g) < fuel)%nat.

Lemma shortest_no_err x e : lift (Scc.shortest_cycle_back_to_self fuel (type_graph global) x) ≠ Err e.
Proof using All. apply lift_no_err. intros []. by apply (cp_fuel _ _ Hcp). Qed.

Lemma cycle_error_other n e : cycle_error fuel global n = Err e → other_error e.
Proof using All.
  unfold cycle_error. destruct (lift (Scc.get_scc_rep _ _)) as [r|e1|] eqn:E1; cbn; [| |done].
  - destruct (lift (Scc.shortest_cycle_back_to_self _ _ _)) as [nodes|e2|] eqn:E2; cbn; [| |done].
    + pose proof (type_scc_error_note (g_krate global) (g_span_infos global) n nodes) as Hn.
      destruct (type_scc_error _ _ _ _); cbn; [by intros [= <-]|done|done].
    + by apply shortest_no_err in E2.
  - by apply lift_no_err in E1; [|intros ?; apply get_scc_rep_no_err].
Qed.

Lemma same_scc_no_err x y e : lift (Scc.in_same_scc (type_graph global) x y) ≠ Err e.
Proof using All. apply lift_no_err. intros ?. apply in_same_scc_no_err. Qed.

Lemma check_impl_paths_other is_ n e : check_impl_paths fuel global is_ n = Err e → other_error e.
Proof using All.
  intros (i & _ & H)%riter_err. destruct (lift _) as [b|e1|] eqn:E1; cbn in H; [|by apply same_scc_no_err in E1|done].
  destruct b; [by eapply cycle_error_other|done].
Qed.

Section positive.
Context (datatype : Datatype) (local : CheckPositiveLocal).

Lemma check_positive_other polarity typ e :
  check_positive_uses fuel names datatype global local polarity typ = Err e → other_error e.
Proof using All.
  revert polarity e. induction typ using typ_ind'; intros pol err; cbn; try done; try apply IHtyp.
  - destruct (riter _ ts) as [[]|e1|] eqn:E1; cbn; [apply IHtyp| |done]. intros [= ->].
    apply riter_err in E1 as (t & Ht & He). rewrite Forall_forall in H. by eapply H.
  - rewrite Forall_forall in H. destruct d as [p|n].
    + destruct (lift _) as [same|e1|] eqn:E1; cbn; [|by apply same_scc_no_err in E1|done].
      set (first := if same then _ else _). destruct first as [[]|e1|] eqn:E2; cbn; [| |done].
      * destruct (g_datatypes global !! p) as [dp|]; cbn; [|done].
        destruct (riter_zip _ _ _) as [[]|e1|] eqn:E3; cbn; [apply check_impl_paths_other| |done].
        intros [= ->]. apply riter_zip_err in E3 as ([y a] & t & Ht & He). by eapply H.
      * intros [= ->]. unfold first in E2. destruct same; [|done]. by destruct pol as [[]|]; simplify_eq.
    + intros (t & Ht & He)%riter_err. by eapply H.
  - destruct (riter _ ts) as [[]|e1|] eqn:E1; cbn; [| |done].
    + destruct (check_impl_paths _ _ _ _) as [[]|e2|] eqn:E2; cbn; [| |done].
      * destruct (lift _) as [same|e3|] eqn:E3; cbn; [|by apply same_scc_no_err in E3|done].
        destruct same; [apply cycle_error_other|done].
      * intros [= ->]. by eapply check_impl_paths_other.
    + intros [= ->]. apply riter_err in E1 as (t & Ht & He). rewrite Forall_forall in H. by eapply H.
  - intros (t & Ht & He)%riter_err. rewrite Forall_forall in H. by eapply H.
  - destruct (tparams local !! x) as [a|]; cbn; [|done].
    case_bool_decide; [|done]. by destruct pol as [[]|]; [|intros [= <-]..].
Qed.
End positive.

Lemma check_datatype_other d e : check_datatype fuel names global d = Err e → other_error e.
Proof using All.
  unfold check_datatype, datatype_path. destruct (dt_name d) as [p|]; cbn; [|done].
  destruct (@riter type_error GenericBoundX _ _) as [[]|e1|] eqn:E1; cbn; [| |done].
  - intros (v & _ & (f & _ & H)%riter_err)%riter_err. by eapply check_positive_other.
  - intros [= ->]. apply riter_err in E1 as (b & _ & H). destruct b; try done. by eapply check_positive_other.
Qed.

Lemma check_impl_node_other scc n e : check_impl_node fuel global scc n = Err e → other_error e.
Proof using All.
  unfold check_impl_node. destruct n; try done.
  destruct (lift _) as [b|e1|] eqn:E1; cbn; [| |done].
  - destruct b; [|done]. destruct (lift (Scc.shortest_cycle_back_to_self _ _ _)) as [nodes|e2|] eqn:E2; cbn; [| |done].
    + pose proof (type_scc_error_note (g_krate global) (g_span_infos global) (TypNode_TraitImpl i) nodes) as Hn.
      destruct (type_scc_error _ _ _ _); cbn; [by intros [= <-]|done|done].
    + by apply shortest_no_err in E2.
  - by apply lift_no_err in E1; [|intros ?; apply node_is_in_cycle_no_err].
Qed.
End notes.

(** ** Positive positions make the definition of a datatype monotone

    [interp] gives every type a set of values, from sets for the type parameters and
    operators on sets for the datatypes.  When [check_positive_uses] accepts the type
    of a field, its set grows with the datatypes of its component and with the
    parameters that are not [Reject]. *)

(** The type constructors that are not datatypes, parameters or functions. *)
Inductive TypOp := OpTuple (n : N) | OpPrimitive (p : Primitive) | OpMutRef.

Section sets.
Context {U : Type}.
Definition set : Type := U → Prop.
Definition le (s s' : set) : Prop := ∀ v, s v → s' v.
Definition eqv (s s' : set) : Prop := ∀ v, s v ↔ s' v.

Lemma eqv_le s s' : eqv s s' → le s s'.
Proof. intros H v. apply H. Qed.
Lemma eqv_le_sym s s' : eqv s s' → le s' s.
Proof. intros H v. apply H. Qed.
Lemma le_eqv s s' : le s s' → le s' s → eqv s s'.
Proof. intros H1 H2 v. split; auto. Qed.
End sets.
Arguments set U : clear implicits.

(** What the types mean.  [apply_fn f vs r]: the function [f] can return [r] on [vs]. *)
Class TypSem (U : Type) := {
  sem_leaf : Typ → set U;
  sem_op : TypOp → list (set U) → set U;
  sem_dyn : Path → list (set U) → set U;
  apply_fn : U → list U → U → Prop;
  sem_op_mono op ss ss' : Forall2 le ss ss' → le (sem_op op ss) (sem_op op ss');
  sem_dyn_eqv p ss ss' : Forall2 eqv ss ss' → eqv (sem_dyn p ss) (sem_dyn p ss')
}.

(** Functions from and to sets. *)
Definition sem_fn `{TypSem U} (ss : list (set U)) (s : set U) : set U :=
  λ f, ∀ vs r, Forall2 (λ s v, s v) ss vs → apply_fn f vs r → s r.

Record Env (U : Type) := mkEnv { env_datatype : Path → list (set U) → set U; env_param : Ident → set U }.
Arguments mkEnv {U} _ _.
Arguments env_datatype {U} _ _ _.
Arguments env_param {U} _ _.

Section interp.
Context `{TypSem U} (datatypes : gmap Path Datatype).

Definition params (p : Path) : TypPositives :=
  match datatypes !! p with Some d => typ_params d | None => [] end.

Fixpoint interp (ρ : Env U) (t : Typ) : set U :=
  match t with
  | TypX_TypParam x => env_param ρ x
  | TypX_SpecFn ts t => sem_fn (map (interp ρ) ts) (interp ρ t)
  | TypX_Datatype (Dt_Tuple n) ts _ => sem_op (OpTuple n) (map (interp ρ) ts)
  | TypX_Datatype (Dt_Path p) ts _ => env_datatype ρ p (take (length (params p)) (map (interp ρ) ts))
  | TypX_Dyn p ts _ => sem_dyn p (map (interp ρ) ts)
  | TypX_Primitive p ts => sem_op (OpPrimitive p) (map (interp ρ) ts)
  | TypX_MutRef t => sem_op OpMutRef [interp ρ t]
  | TypX_Decorate _ _ t | TypX_Boxed t => interp ρ t
  | _ => sem_leaf t
  end.

(** Arguments of a datatype, by the declarations of its parameters. *)
Definition args_le (ps : TypPositives) (ss ss' : list (set U)) : Prop :=
  ∀ i x a s s', ps !! i = Some (x, a) → ss !! i = Some s → ss' !! i = Some s' →
    if decide (a = AcceptRecursiveType_Reject) then eqv s s' else le s s'.

Context (names : Path → option string) (fuel : nat).
Context (datatype : Datatype) (global : CheckPositiveGlobal) (local : CheckPositiveLocal).
Hypothesis Hds : g_datatypes global = datatypes.

Definition same_component (p : Path) : Prop :=
  Scc.in_same_scc (type_graph global) (TypNode_Datatype (Dt_Path p))
    (TypNode_Datatype (Dt_Path (my_datatype local))) = Ok true.

(** [ρ'] has more values of the component's datatypes and of the parameters that may
    recur; datatypes are monotone in their own such parameters. *)
Record env_le (ρ ρ' : Env U) : Prop := {
  el_param x : if decide (tparams local !! x = Some AcceptRecursiveType_Reject)
    then eqv (env_param ρ x) (env_param ρ' x) else le (env_param ρ x) (env_param ρ' x);
  el_mono p ss ss' : length ss = length ss' → args_le (params p) ss ss' → le (env_datatype ρ p ss) (env_datatype ρ' p ss');
  el_other p ss ss' : ¬ same_component p → Forall2 eqv ss ss' → eqv (env_datatype ρ p ss) (env_datatype ρ' p ss')
}.

Lemma sem_fn_mono ss ss' s s' : Forall2 eqv ss ss' → le s s' → le (sem_fn ss s) (sem_fn ss' s').
Proof using.
  intros Hss Hs f Hf vs r Hvs Hr. apply Hs, (Hf vs r); [|done].
  clear -Hss Hvs. revert vs Hvs. induction Hss as [|a b l l' Hab _ IH]; intros vs Hvs; inversion Hvs; subst;
    constructor; [by apply Hab|auto].
Qed.

(** What is shown of a type, for the two polarities that the code uses. *)
Definition grows (ρ ρ' : Env U) (polarity : option bool) (t : Typ) : Prop :=
  match polarity with
  | Some true => le (interp ρ t) (interp ρ' t)
  | _ => eqv (interp ρ t) (interp ρ' t)
  end.

Lemma grows_same ρ ρ' pol t : interp ρ t = interp ρ' t → grows ρ ρ' pol t.
Proof using. unfold grows. intros ->. destruct pol as [[]|]; by intros v. Qed.

Lemma Forall2_map {A B} (R : B → B → Prop) (f f' : A → B) l :
  Forall (λ x, R (f x) (f' x)) l → Forall2 R (map f l) (map f' l).
Proof using. induction 1; constructor; auto. Qed.

Lemma eqv_sym (s s' : set U) : eqv s s' → eqv s' s.
Proof using. intros E v. by rewrite (E v). Qed.
Lemma Forall2_eqv_sym (ss ss' : list (set U)) : Forall2 eqv ss ss' → Forall2 eqv ss' ss.
Proof using. induction 1; constructor; [by apply eqv_sym|done]. Qed.
Lemma Forall2_eqv_le (ss ss' : list (set U)) : Forall2 eqv ss ss' → Forall2 le ss ss'.
Proof using. induction 1; constructor; [by apply eqv_le|done]. Qed.

Lemma sem_op_grows ρ ρ' pol op ts :
  Forall (grows ρ ρ' pol) ts →
  match pol with
  | Some true => le (sem_op op (map (interp ρ) ts)) (sem_op op (map (interp ρ') ts))
  | _ => eqv (sem_op op (map (interp ρ) ts)) (sem_op op (map (interp ρ') ts))
  end.
Proof using.
  intros Hts. assert (He : ∀ ss ss', Forall2 eqv ss ss' → eqv (sem_op op ss) (sem_op op ss')).
  { intros ss ss' HF. apply le_eqv; apply sem_op_mono, Forall2_eqv_le; [done|by apply Forall2_eqv_sym]. }
  destruct pol as [[]|]; [apply sem_op_mono|apply He..]; by apply Forall2_map.
Qed.

Lemma riter_zip_ok {E P A} (f : P → A → res E unit) ps l :
  riter_zip f ps l = Ok tt → ∀ i p x, ps !! i = Some p → l !! i = Some x → f p x = Ok tt.
Proof using.
  revert ps. induction l as [|x l IH]; intros ps Hr i q y Hq Hy; [by rewrite lookup_nil in Hy|].
  destruct ps as [|p ps]; [by rewrite lookup_nil in Hq|]. cbn in Hr.
  apply rbind_ok_inv in Hr as ([] & Hx & Hl). destruct i as [|i]; cbn in Hq, Hy; [congruence|by eapply IH].
Qed.

Lemma check_positive_grows ρ ρ' pol t :
  env_le ρ ρ' → pol ≠ Some false →
  check_positive_uses fuel names datatype global local pol t = Ok tt → grows ρ ρ' pol t.
Proof using Hds.
  intros Hρ. revert pol. induction t using typ_ind'; intros pol Hpol; cbn; try done;
    try (intros _; by apply grows_same).
  - (* functions *) intros ([] & Hts%riter_ok & Ht)%rbind_ok_inv. specialize (IHt pol Hpol Ht).
    assert (HF : Forall2 eqv (map (interp ρ) ts) (map (interp ρ') ts)).
    { apply Forall2_map. eapply Forall_impl2; [exact H0|exact Hts|]. intros t' IH' Ht'. by apply (IH' None). }
    unfold grows in *. cbn. destruct pol as [[]|]; [by apply sem_fn_mono|done|].
    apply le_eqv; apply sem_fn_mono; [done|by apply eqv_le|by apply Forall2_eqv_sym|by apply eqv_le_sym].
  - destruct d as [p|n].
    2: { intros Hts%riter_ok. apply (sem_op_grows ρ ρ' pol (OpTuple n) ts).
         eapply Forall_impl2; [exact H0|exact Hts|]. auto. }
    intros (same & Hsame%lift_ok & ([] & Hfirst & (dp & Hd & ([] & Hz & _)%rbind_ok_inv)%rbind_ok_inv)%rbind_ok_inv)%rbind_ok_inv.
    rewrite Hds in Hd. destruct (datatypes !! p) as [dp'|] eqn:Hp; [|done]. injection Hd as ->.
    pose proof (riter_zip_ok _ _ _ Hz) as Hargs. rewrite Forall_lookup in H0.
    set (ss := take (length (params p)) (map (interp ρ) ts)).
    set (ss' := take (length (params p)) (map (interp ρ') ts)).
    assert (Hps : params p = typ_params dp) by (unfold params; by rewrite Hp).
    assert (Hlen : length ss = length ss') by (unfold ss, ss'; by rewrite !length_take !length_map).
    assert (Hat : ∀ j s s', ss !! j = Some s → ss' !! j = Some s' →
      ∃ x a t, typ_params dp !! j = Some (x, a) ∧ ts !! j = Some t ∧ s = interp ρ t ∧ s' = interp ρ' t).
    { intros j s s' [Hs Hi]%lookup_take_Some [Hs' _]%lookup_take_Some.
      apply list_lookup_fmap_Some in Hs as (t & -> & Ht). apply list_lookup_fmap_Some in Hs' as (t' & -> & Ht').
      rewrite Ht in Ht'. injection Ht' as <-. rewrite Hps in Hi.
      apply lookup_lt_is_Some in Hi as [[x a] Hx]. by exists x, a, t. }
    unfold grows. cbn. fold ss ss'. destruct pol as [[]|]; [|done|].
    + apply (el_mono _ _ Hρ); [done|]. intros j x a s s' Hi Hs Hs'.
      destruct (Hat j s s' Hs Hs') as (x' & a' & t & Hi' & Ht & -> & ->). rewrite Hps Hi' in Hi. injection Hi as -> ->.
      pose proof (Hargs j (x, a) t Hi' Ht) as Hc. cbn in Hc.
      destruct (decide (a = AcceptRecursiveType_Reject)) as [Ha|Ha].
      * rewrite (bool_decide_eq_false_2 (a ≠ _)) in Hc; [by intros []|]. by apply (H0 j t Ht None).
      * rewrite !bool_decide_eq_true_2 // in Hc. by apply (H0 j t Ht (Some true)).
    + apply (el_other _ _ Hρ).
      * unfold same_component. rewrite Hsame. intros [= ->]. done.
      * apply Forall2_same_length_lookup. split; [done|]. intros j s s' Hs Hs'.
        destruct (Hat j s s' Hs Hs') as (x & a & t & Hi & Ht & -> & ->).
        pose proof (Hargs j (x, a) t Hi Ht) as Hc. cbn in Hc. rewrite andb_false_r in Hc.
        by apply (H0 j t Ht None).
  - (* dyn *) intros ([] & Hts%riter_ok & _)%rbind_ok_inv.
    assert (HF : Forall2 eqv (map (interp ρ) ts) (map (interp ρ') ts)).
    { apply Forall2_map. eapply Forall_impl2; [exact H0|exact Hts|]. intros t' IH' Ht'. by apply (IH' None). }
    unfold grows. cbn. destruct pol as [[]|]; [apply eqv_le|..]; by apply sem_dyn_eqv.
  - (* primitives *) intros Hts%riter_ok. apply (sem_op_grows ρ ρ' pol (OpPrimitive p) ts).
    eapply Forall_impl2; [exact H0|exact Hts|]. auto.
  - by apply IHt.
  - by apply IHt.
  - (* parameters *) destruct (tparams local !! x) as [a|] eqn:Hx; cbn; [|done].
    pose proof (el_param _ _ Hρ x) as Hp. rewrite Hx in Hp. unfold grows. cbn.
    case_decide as Ha.
    + injection Ha as ->. destruct pol as [[]|]; cbn; intros _; [by apply eqv_le|done..].
    + rewrite bool_decide_eq_true_2; [congruence|]. by destruct pol as [[]|].
  - intros Ht. apply (sem_op_grows ρ ρ' pol OpMutRef [t]). by repeat constructor; apply IHt.
Qed.
End interp.
