(* ===== verification/RecursiveCorrect.v ===== *)
(** * Correctness of the check of recursive types *)

From S2P Require Import Prelude VirMessages VirAst VirAstUtil RecursiveTypes RecursiveGraph.
From S2P Require Import RecursiveSound.
From S2P Require Ast Scc SccGraph SccCorrect.
Import SccGraph SccCorrect.
Set Warnings "-rewrite-rw,-register-all,-clear-no-such-hyp".
Local Open Scope string_scope.
Local Open Scope list_scope.

(** The graph is not larger than memory, and there is fuel for its nodes and for the
    datatypes. *)
Definition fits (fuel : nat) (krate : Krate) : Prop :=
  ∀ g infos, add_datatype_graph krate [] = Ok (g, infos) →
    (N.of_nat (length (Scc.nodes g)) < Scc.usize_max)%N ∧ (length (Scc.nodes g) < fuel)%nat
    ∧ (length (datatypes krate) + 2 ≤ fuel)%nat.

Lemma collect_no_err l e : collect_datatypes l ≠ Err e.
Proof.
  unfold collect_datatypes. intros (pre & d & suf & m & _ & _ & H)%rfold_err.
  unfold datatype_path in H. by destruct (dt_name d).
Qed.

Lemma function_params_no_err l e : riter check_function_params l ≠ Err e.
Proof.
  intros (f & _ & H)%riter_err. unfold check_function_params in H.
  destruct (fun_kind f); try done. destruct (fun_typ_params f !! 0); cbn in H; [|done]. by case_match.
Qed.

Lemma collect_size l ds : collect_datatypes l = Ok ds → (size (dom ds : gset Path) ≤ length l)%nat.
Proof.
  unfold collect_datatypes.
  enough (H : ∀ ds0, Scc.rfold (λ d m, rbind (datatype_path d) (λ path, Ok (<[path := d]> m))) l ds0 = Ok ds →
    (size (dom ds : gset Path) ≤ size (dom ds0 : gset Path) + length l)%nat).
  { intros Hr%H. by rewrite dom_empty_L size_empty in Hr. }
  induction l as [|d l IH]; intros ds0; cbn; [intros [= <-]; lia|].
  destruct (datatype_path d) as [p| |]; cbn; try done. intros H%IH. rewrite dom_insert_L in H.
  pose proof (size_union_alt {[p]} (dom ds0 : gset Path)).
  pose proof (subseteq_size (dom ds0 ∖ {[p]} : gset Path) (dom ds0)) as Hs.
  rewrite size_singleton in H0. specialize (Hs ltac:(set_solver)). lia.
Qed.

Section setting.
Context (fuel : nat) (names : Path → option string) (krate : Krate) (Hfits : fits fuel krate).

(** Where the checks take place. *)
Lemma setting :
  ∃ g g' infos, lift (build_datatype_graph fuel krate []) = Ok (g', infos) ∧ computed g g'
    ∧ (length (Scc.nodes g) < fuel)%nat
    ∧ ∀ ds, collect_datatypes (datatypes krate) = Ok ds → ∀ p d, ds !! p = Some d → has_node g (Dnode p)
      ∧ ∀ v f q, v ∈ variants d → f ∈ fields v → mentions (field_typ f) q →
        edge g (Dnode p) (Dnode q) ∧ has_node g (Dnode q).
Proof using Hfits.
  destruct (add_datatype_graph_ok krate []) as (g & infos & Hg & Hok & Hitems).
  destruct (Hfits g infos Hg) as (Hsize & Hlen & _).
  destruct (ready_computed g fuel) as (g' & Hg' & Hcp); [split; [done|done|lia]|].
  exists g, g', infos. split_and!; [|done|done|].
  - unfold build_datatype_graph. rewrite Hg. cbn. by rewrite Hg'.
  - intros ds Hds p d Hd. apply collect_datatypes_spec in Hds as [Hin _].
    destruct (Hin p d Hd) as [Hdk Hn]. destruct (Hitems d Hdk) as [Hnode He]. rewrite Hn in Hnode, He.
    split; [done|]. intros v f q Hv Hf Hm. destruct (visit_typ_field d v f q Hv Hf Hm) as (ts & i & Ht).
    exact (He _ Ht).
Qed.

(** What the check can return. *)
Lemma check_outcome :
  match check_recursive_types fuel names krate with
  | Ok _ => ∃ ds g' infos, collect_datatypes (datatypes krate) = Ok ds
      ∧ lift (build_datatype_graph fuel krate []) = Ok (g', infos)
      ∧ (∀ p, p ∈ dom ds → grounded ds p)
      ∧ ∀ d, d ∈ datatypes krate → check_datatype fuel names (mkGlobal krate ds g' infos) d = Ok tt
  | Err e => other_error e
      ∨ ∃ ds p d, collect_datatypes (datatypes krate) = Ok ds ∧ ds !! p = Some d
          ∧ e = TypeError (no_base_error d) ∧ ¬ grounded ds p
  | Panic => True
  end.
Proof using Hfits.
  destruct setting as (g & g' & infos & Hb & Hcp & Hlen & Hnode). unfold check_recursive_types. rewrite Hb. cbn.
  destruct (collect_datatypes (datatypes krate)) as [ds|e|] eqn:Hds; cbn; [|by apply collect_no_err in Hds|done].
  destruct (riter check_function_params (functions krate)) as [[]|e|] eqn:Hf; cbn;
    [|by apply function_params_no_err in Hf|done].
  set (global := mkGlobal krate ds g' infos).
  destruct (riter (check_datatype fuel names global) (datatypes krate)) as [[]|e|] eqn:Hd; cbn; [| |done].
  2: { left. apply riter_err in Hd as (d & _ & Hd). by apply (check_datatype_other fuel names global g Hcp Hlen d). }
  destruct (cp_sorted _ _ Hcp fuel) as (l & Hl & Hls); [lia|]. rewrite Hl. cbn.
  destruct (Scc.rfold (check_scc fuel global) l ∅) as [W|e|] eqn:HW; cbn; [| |done].
  - exists ds, g', infos. split_and!; [done..| |].
    + exact (all_grounded ds g g' fuel l global eq_refl eq_refl Hcp (Hnode ds eq_refl) Hls W HW).
    + intros d Hdk. apply riter_ok in Hd. rewrite Forall_forall in Hd. by apply Hd.
  - apply rfold_err in HW as (pre & r & suf & W0 & El & Hpre & Hr).
    assert (Hrl : r ∈ l) by (rewrite El; set_solver).
    destruct (scc_nodes_rep ds g g' fuel l global eq_refl eq_refl Hcp (Hnode ds eq_refl) Hls r Hrl)
      as (nodes & Hnodes & _).
    unfold check_scc in Hr. cbn in Hr. rewrite Hnodes in Hr. cbn in Hr.
    destruct (riter (check_impl_node fuel global r) nodes) as [[]|e1|] eqn:Hi; cbn in Hr; [| |done].
    2: { injection Hr as ->. left. apply riter_err in Hi as (n & _ & Hi).
         by apply (check_impl_node_other fuel names global g Hcp Hlen r n). }
    destruct (check_sccs_ok ds g g' fuel l global eq_refl eq_refl Hcp (Hnode ds eq_refl) Hls pre ∅ W0 Hpre)
      as (_ & Hb0 & _); [intros x Hx; rewrite El; set_solver|].
    pose proof (converge_spec ds fuel nodes false W0) as Hc. rewrite Hr in Hc. destruct e as [e|].
    + destruct Hc as (W & HsW & HbW & Hsat & Hstuck); [done|]. right.
      destruct (stuck_not_grounded ds g g' fuel l global eq_refl eq_refl Hcp (Hnode ds eq_refl) Hls
        pre r suf W0 W nodes e El Hpre Hnodes HsW HbW Hsat Hstuck) as (p & d & Hp & -> & Hg).
      by exists ds, p, d.
    + exfalso. apply (converge_fuel ds fuel nodes false W0); [|cbn|done].
      * eapply below_dom; [exact Hb0|set_solver].
      * destruct (add_datatype_graph_ok krate []) as (g1 & infos1 & Hg1 & _).
        destruct (Hfits g1 infos1 Hg1) as (_ & _ & Hf2). pose proof (collect_size _ _ Hds). lia.
Qed.
End setting.

(** ** The theorems *)

(** C26. When [check_recursive_types] accepts a crate, every datatype has a finite value,
    for all type arguments that have values; arguments for the parameters declared
    [accept_recursive_types] need not have any. *)
Theorem accepted_types_have_values fuel names krate ds p d targs i
    (Hfits : fits fuel krate)
    (Hok : check_recursive_types fuel names krate = Ok tt)
    (Hds : collect_datatypes (datatypes krate) = Ok ds) (Hd : ds !! p = Some d) (Ht : targs_ok ds d targs) :
  inhabited_typ ds (TypX_Datatype (Dt_Path p) targs i).
Proof.
  pose proof (check_outcome fuel names krate Hfits) as H. rewrite Hok in H.
  destruct H as (ds' & g' & infos & Hds' & _ & Hg & _). rewrite Hds in Hds'. injection Hds' as <-.
  destruct (grounded_values ds p) as (d' & Hd' & Hv); [apply Hg; by eapply elem_of_dom_2|].
  rewrite Hd in Hd'. injection Hd' as <-. by apply Hv.
Qed.

(** C27. The check returns whatever the crate, with fuel for the nodes of its graph and
    for its datatypes; and when it complains that a datatype has only recursive
    variants, that datatype indeed has no value that is built without going through
    itself: it is outside some set of datatypes closed under the construction of base
    cases. *)
Theorem rejected_type_has_no_base_case fuel names krate (Hfits : fits fuel krate) :
  check_recursive_types fuel names krate ≠ Err TypeFuel
  ∧ ∀ span, check_recursive_types fuel names krate = Err (TypeError (error span no_base_note)) →
    ∃ ds p d, collect_datatypes (datatypes krate) = Ok ds ∧ ds !! p = Some d ∧ dt_span d = span
      ∧ ¬ grounded ds p.
Proof.
  pose proof (check_outcome fuel names krate Hfits) as H.
  split; [intros E|intros span E]; rewrite E in H; destruct H as [H|(ds & p & d & Hds & Hd & He & Hg)]; try done.
  injection He as ->. by exists ds, p, d.
Qed.

(** C28. In an accepted crate, datatypes recur positively: the set of values of the
    type of a field grows with the sets of the datatypes of its component and of the
    parameters that are not [reject_recursive_types]. *)
Theorem accepted_fields_monotone fuel names krate ds g infos d p v f `{TypSem U} (ρ ρ' : Env U)
    (Hfits : fits fuel krate)
    (Hok : check_recursive_types fuel names krate = Ok tt)
    (Hds : collect_datatypes (datatypes krate) = Ok ds)
    (Hg : build_datatype_graph fuel krate [] = Ok (g, infos))
    (Hd : d ∈ datatypes krate) (Hp : dt_name d = Dt_Path p) (Hv : v ∈ variants d) (Hf : f ∈ fields v)
    (Hρ : env_le ds (mkGlobal krate ds g infos) (mkLocal (dt_span d) p (accepts_of (typ_params d))) ρ ρ') :
  le (interp ds ρ (field_typ f)) (interp ds ρ' (field_typ f)).
Proof.
  pose proof (check_outcome fuel names krate Hfits) as Ho. rewrite Hok in Ho.
  destruct Ho as (ds' & g' & infos' & Hds' & Hg' & _ & Hc). rewrite Hds in Hds'. injection Hds' as <-.
  rewrite Hg in Hg'. injection Hg' as <- <-. specialize (Hc d Hd).
  unfold check_datatype, datatype_path in Hc. rewrite Hp in Hc. cbn in Hc. apply rbind_ok_inv in Hc as (_ & _ & Hc).
  apply riter_ok in Hc. rewrite Forall_forall in Hc. specialize (Hc v Hv). apply riter_ok in Hc.
  rewrite Forall_forall in Hc. specialize (Hc f Hf).
  by apply (check_positive_grows ds names fuel d (mkGlobal krate ds g infos)
    (mkLocal (dt_span d) p (accepts_of (typ_params d))) eq_refl ρ ρ' (Some true)).
Qed.

(** ** Two crates *)

Definition fits_b (fuel : nat) (krate : Krate) : bool :=
  match add_datatype_graph krate [] with
  | Ok (g, _) =>
    (N.of_nat (length (Scc.nodes g)) <? Scc.usize_max)%N && (length (Scc.nodes g) <? fuel)%nat
    && (length (datatypes krate) + 2 <=? fuel)%nat
  | _ => false
  end.
Lemma fits_b_fits fuel krate : fits_b fuel krate = true → fits fuel krate.
Proof.
  unfold fits_b, fits. intros H g infos Hg. rewrite Hg in H.
  apply andb_prop in H as [H H3]. apply andb_prop in H as [H1 H2].
  apply N.ltb_lt in H1. apply Nat.ltb_lt in H2. apply Nat.leb_le in H3. done.
Qed.

Definition a_span : Span := mkSpan 0 [] "".
Definition a_field (name : Ident) (t : Typ) : Ast.BinderX (Typ * Mode * Visibility) :=
  Ast.mkBinder name (t, Mode_Spec, mkVisibility None).
Definition a_datatype (p : Path) (ps : TypPositives) (vs : Variants) : Datatype :=
  mkDatatype a_span (Dt_Path p) None None (mkVisibility None) DatatypeTransparency_Never ps [] vs Mode_Spec
    false None None false.
Definition list_path : Path := path_of CrateId_Vstd ["List"].
Definition list_of (t : Typ) : Typ := TypX_Datatype (Dt_Path list_path) [t] [].
(** [enum List<A> { Nil, Cons { head: A, tail: Box<List<A>> } }] *)
Definition nil_variant : Variant := mkVariant "Nil" [] CtorPrintStyle_Const.
Definition tail_field : Ast.BinderX (Typ * Mode * Visibility) :=
  a_field "tail" (TypX_Decorate TypDecoration_Box (Some (TypX_Primitive Primitive_Global [])) (list_of (TypX_TypParam "A"))).
Definition cons_variant : Variant :=
  mkVariant "Cons" [a_field "head" (TypX_TypParam "A"); tail_field] CtorPrintStyle_Braces.
Definition list_datatype : Datatype :=
  a_datatype list_path [("A", AcceptRecursiveType_RejectInGround)] [nil_variant; cons_variant].
Definition list_krate : Krate := mkKrate [] [list_datatype] [] [] [].
(** [struct Loop { next: Box<Loop> }] *)
Definition loop_path : Path := path_of CrateId_Vstd ["Loop"].
Definition loop_datatype : Datatype :=
  a_datatype loop_path []
    [mkVariant "Loop" [a_field "next" (TypX_Decorate TypDecoration_Box None (TypX_Datatype (Dt_Path loop_path) [] []))]
       CtorPrintStyle_Braces].
Definition loop_krate : Krate := mkKrate [] [loop_datatype] [] [] [].

(** [List<bool>] *)
Lemma accepted_types_have_values_witness :
  ∃ ds, collect_datatypes (datatypes list_krate) = Ok ds ∧ inhabited_typ ds (list_of TypX_Bool).
Proof.
  eexists. split; [reflexivity|].
  apply (accepted_types_have_values 10 (λ _, None) list_krate _ list_path list_datatype).
  - apply fits_b_fits. by vm_compute.
  - by vm_compute.
  - reflexivity.
  - by vm_compute.
  - split; [done|]. intros [|j] x a t Hj Ht _; [|by destruct j]. injection Ht as <-. exists VLeaf. by constructor.
Defined.

Lemma rejected_type_has_no_base_case_witness :
  check_recursive_types 10 (λ _, None) loop_krate = Err (TypeError (error a_span no_base_note))
  ∧ ∃ ds p, collect_datatypes (datatypes loop_krate) = Ok ds ∧ is_Some (ds !! p) ∧ ¬ grounded ds p.
Proof.
  split; [by vm_compute|].
  destruct (rejected_type_has_no_base_case 10 (λ _, None) loop_krate) as [_ H]; [apply fits_b_fits; by vm_compute|].
  destruct (H a_span) as (ds & p & d & Hds & Hp & _ & Hg); [by vm_compute|]. exists ds, p. by split_and!.
Defined.

(** All numbers are values of the leaves; functions are constant. *)
#[refine] Definition nat_sem : TypSem nat := {|
  sem_leaf _ _ := True;
  sem_op _ ss v := Forall (λ s, s v) ss;
  sem_dyn _ _ _ := True;
  apply_fn f _ r := f = r
|}.
Proof.
  - intros _ ss ss' H v. induction H as [|s s' l l' Hs _ IH]; [done|]. rewrite !Forall_cons. naive_solver.
  - by intros.
Defined.
(** No list has a value, and [0] is a list. *)
Definition no_lists : Env nat := mkEnv (λ _ _ _, False) (λ _ _, True).
Definition some_lists : Env nat := mkEnv (λ p _ v, p = list_path ∧ v = 0%nat) (λ _ _, True).

Lemma accepted_fields_monotone_witness :
  ∃ ds, collect_datatypes (datatypes list_krate) = Ok ds
  ∧ le (@interp nat nat_sem ds no_lists (field_typ tail_field)) (@interp nat nat_sem ds some_lists (field_typ tail_field)).
Proof.
  assert (Hok : is_ok (collect_datatypes (datatypes list_krate)) = true) by (by vm_compute).
  destruct (collect_datatypes (datatypes list_krate)) as [ds| |] eqn:Hds; [|discriminate Hok..].
  exists ds. split; [done|].
  assert (Hgr : is_ok (build_datatype_graph 10 list_krate []) = true) by (by vm_compute).
  destruct (build_datatype_graph 10 list_krate []) as [[g infos]| |] eqn:Hg; [|done..].
  refine (@accepted_fields_monotone 10 (λ _, None) list_krate ds g infos list_datatype list_path cons_variant
    tail_field nat nat_sem no_lists some_lists _ _ Hds Hg _ eq_refl _ _ _).
  - apply fits_b_fits. by vm_compute.
  - by vm_compute.
  - left.
  - right. left.
  - right. left.
  - split.
    + intros x. by case_decide.
    + by intros p ss ss' _ _ v.
    + intros p ss ss' Hp _ v. split; [done|]. intros [-> _]. destruct Hp. unfold same_component, Scc.in_same_scc.
      by case_decide.
Defined.
